(* ===== verification/_CoqProject ===== *)
-Q . S2P
Prelude.v
ModOps.v
SeqNum.v
Unwrapper.v
SafeConversions.v
SafeMinMax.v
Units.v
ByteIo.v
Buffer.v
SwapQueue.v
MovingMax.v
CircularDeque.v
IntrusiveHeap.v
LazyDeque.v
UsedIds.v
Float32.v
Percentile.v
BaseNumerics.v
CheckedMath.v
CheckedNumeric.v
ClampedMath.v
BaseTime.v
FlatTree.v
StringNumber.v
IdMap.v
MruCache.v
RingBuffer.v
RefCounted.v
Md5.v
StringReplace.v
StringUtil.v
StringSplit.v
Bits.v
SmallMap.v
CallbackList.v
ObserverList.v
PartitionLayout.v
PartitionPage.v
PartitionFreelist.v
PartitionAlloc.v
ObjectBitmap.v
CopyOnWriteBuffer.v
WireFormat.v
InlineVector.v
