(* ===== verification/Prelude.v ===== *)
(** * Verification of the header-only core of the WebRTC code base

    The repository [binarymigration/webrtc-android] holds the C++ headers of
    WebRTC for Android under [src/include/] and the compiled archives; there
    are no [.cc] files.  The code that can be read and verified is what lives
    in headers: the arithmetic on wrapping sequence numbers, the safe numeric
    conversions, the unit types, the byte readers and writers, the buffers,
    queues and containers that the (compiled) protocol code is built on.  This
    library models that code and proves what the callers rely on.

    ** How C++ is modelled

    A function that can stop the program returns [outcome]: [Ret] of a value,
    or [Crash] with the reason: a failed [RTC_CHECK] or [RTC_DCHECK], signed
    overflow, a bad shift, a division by zero, an access out of bounds, a read
    of an object that is not there, a null dereference, an allocation that
    cannot be made.  [BuildMode] says whether debug checks are compiled in;
    theorems hold for both modes unless they name one.  Integers are [Z] kept
    at the width of their C++ type by [convert], [arith] (undefined behaviour
    on signed overflow) and [promote]; sizes and indices of containers are
    [nat] where the source bounds them by an allocation.  State is passed
    explicitly; loops are structural or take fuel with the reason it is enough
    in a comment, and the theorems say that the operations return.

    ** Files, parts of the program and theorems

    - [Prelude]: outcomes, checks ([rtc_base/checks.h]), machine integers,
      the monad, tactics ([pass], [zcase], [bool_solve]) and shared lemmas.
    - [ModOps]: [rtc_base/numerics/mod_ops.h].  Exactness of [Add] and
      [Subtract]; [MinDiff] is a metric on the circle.
    - [SeqNum]: [rtc_base/numerics/sequence_number_util.h].  [AheadOf] is
      total and asymmetric; what order the comparators give; [Unwrap] recovers
      the true positions of a stream that moves by less than half the modulus.
    - [Unwrapper]: [modules/include/module_common_types_public.h].  [IsNewer]
      agrees with [AheadOf]; [Unwrapper] recovers streams and never returns a
      negative value.
    - [SafeConversions]: [rtc_base/numerics/safe_conversions*.h].  The range
      check places every value of every integer type; the casts built on it.
    - [SafeMinMax]: [rtc_base/numerics/safe_compare.h] and [safe_minmax.h].
      Comparison, minimum, maximum and clamp of operands of any two or three
      integer types are those of the integers, and the deduced result types
      hold every result.
    - [Units]: [rtc_base/units/unit_base.h] and [api/units/].  Sums with
      infinities, rounding, fractions, and the products and quotients of data
      size, rate, time and frequency, with the ranges in which they are exact.
    - [ByteIo]: [modules/rtp_rtcp/source/byte_io.h].  Every specialisation of
      [ByteReader] and [ByteWriter] reads and writes base-256 digits; round
      trips; where sign extension is undefined.
    - [Buffer]: [rtc_base/buffer.h], over a class [Memory] that states what is
      used of the allocator and of [ExplicitZeroMemory] (whose body is not in
      the repository).  [BufferT] refines a vector; a zero-on-free buffer
      releases and keeps only zeroed memory; moves; amortised growth.
    - [SwapQueue]: [rtc_base/swap_queue.h], as calls and as a step relation
      that interleaves the atomic pieces of a producer and a consumer.  Every
      interleaving is linearisable to a bounded queue; slots are never shared.
    - [MovingMax]: [rtc_base/numerics/moving_max_counter.h].  The pruned deque
      computes the exact moving maximum.
    - [CircularDeque]: [base/containers/circular_deque.h] and
      [vector_buffer.h], for the width of [size_t] and the size of an item that
      the class [ItemLayout] gives.  Any sequence of operations whose lists can
      be allocated refines a list, with every object destroyed once; what
      [reserve] does for every argument; iterator laws; which misuse debug
      builds catch; the stale iterators they do not catch after [reserve].
    - [IntrusiveHeap]: [base/containers/intrusive_heap.h].  Any sequence of
      operations refines a collection addressed by handles; repair after an
      arbitrary in-place change; heap sort.
    - [LazyDeque]: [base/task/sequence_manager/lazily_deallocated_deque.h],
      over the cells of [CircularDeque].  The chain of rings refines a list
      and its raw tail pointer never dangles; when and to what it shrinks.
    - [UsedIds]: [pc/used_ids.h].  Ids of a session description are made
      distinct, changing only those that collide; which id a search gives.
    - [Float32]: the single precision arithmetic that the percentile filter
      uses, over the IEEE 754 specification of the standard library.
    - [Percentile]: [rtc_base/numerics/percentile_filter.h] and
      [moving_median_filter.h].  The tracked iterator always denotes the
      percentile of the sorted observations; the median is that of the window.
    - [BaseNumerics]: [base/numerics/safe_conversions*.h], for integral types
      and on every [Platform] (overflow builtins, ARM instructions, width of a
      pointer).  Casts and comparisons are exact for all pairs of types.
    - [CheckedMath], [CheckedNumeric]: [base/numerics/checked_math*.h] with
      [safe_math_clang_gcc_impl.h] and [safe_math_arm_impl.h].  Any expression
      over checked numbers is valid exactly when its exact value and those of
      its parts are representable, and has that value.
    - [ClampedMath]: [base/numerics/clamped_math*.h].  For the operands that
      [clamps] describes (roughly, those with a common type and a direction that
      can be read off the signs) the result is the exact one saturated; for
      others it can be at the wrong end.
    - [BaseTime]: [base/time/time.h].  Sums and scalings of time deltas are
      exact or infinite with the right sign; unit conversions round-trip.
    - [FlatTree]: [base/containers/flat_tree.h], [flat_map.h] and
      [fixed_flat_map.h].  Every operation keeps the vector sorted and unique;
      a flat map refines a function from keys to pairs for any sequence of
      operations and any hints; the insertion sort of the constant containers
      is a stable sort.
    - [StringNumber]: [base/strings/string_number_conversions_internal.h].
      Printing gives the decimal representation within its buffer; parsing is
      exact, saturates, and never overflows; both round-trip, as does the
      decoding of hexadecimal bytes.
    - [IdMap]: [base/containers/id_map.h], with iterators that stay valid while
      items are removed.  The contents refine a map whatever iterators are
      open; a loop visits every item that stays exactly once and ends.
    - [MruCache]: [base/containers/mru_cache.h].  List and index stay together,
      the limit is kept, and what is evicted is the least recently used.
    - [RingBuffer]: [base/containers/ring_buffer.h].  The buffer holds the last
      items saved, in order; its iterators visit them.
    - [RefCounted]: [rtc_base/ref_counter.h], [ref_counted_object.h] and
      [api/scoped_refptr.h], as atomic actions of interleaved threads.  No object
      is used after its destruction, none is leaked, and a thread that sees one
      reference holds the only one.
    - [Md5]: [base/hash/md5_constexpr_internal.h].  The compile-time digest is
      MD5 as RFC 1321 defines it.
    - [StringReplace], [StringUtil], [StringSplit]:
      [base/strings/string_util_internal.h], [string_util.h],
      [string_split_internal.h] and [string_tokenizer.h].  In-place replacement
      (with its overlapping moves) is the left-to-right replacement of a list;
      the word-wise ASCII test is the byte-wise one; splitting and joining
      round-trip; the tokenizer's two searches.
    - [Bits]: [base/bits.h] and
      [common_audio/signal_processing/include/spl_inl.h].  The bit tricks
      compute logarithms, leading zeros and norms; saturation.
    - [SmallMap]: [base/containers/small_map.h].  The map that starts as an
      array and becomes a map refines a finite map in both forms; no object is
      lost or read dead at the change.
    - [CallbackList]: [base/callback_list.h].  A list whose callbacks may
      register, cancel and notify again while they run: when this is defined,
      that no cancelled callback runs, and that a notification runs what stays.
    - [ObserverList]: [base/observer_list.h] and [observer_list_internal.h].
      The same for observers that are added, removed and cleared from within
      iterations: iterators stay valid and visit each observer that stays once.
    - [PartitionLayout], [PartitionPage], [PartitionFreelist], [PartitionAlloc]:
      the inline paths of [base/allocator/partition_allocator/].  The table of
      bucket sizes gives every size the smallest bucket that holds it; any
      address in a slot is mapped to the start of its slot and to its metadata
      ([partition_page.h], [partition_bucket.h]); free-list entries are encoded
      and checked ([partition_freelist_entry.h]); the thread cache never hands
      out a slot twice ([thread_cache.h]); a slot span refines a stack of free
      slots and detects an immediate double free ([partition_root.h]).
    - [ObjectBitmap]: [base/allocator/partition_allocator/object_bitmap.h].  The
      bitmap refines a set of addresses, visited in increasing order.
    - [CopyOnWriteBuffer]: [rtc_base/copy_on_write_buffer.h].  Handles that share
      and slice reference counted buffers behave as independent values; where
      appending a buffer to itself, slicing with a huge length and appending
      nothing break.
    - [WireFormat]: [rtc_base/byte_order.h] and
      [modules/rtp_rtcp/include/rtp_cvo.h].  The helpers agree with the readers
      and writers of [ByteIo] on machines of both byte orders.
    - [InlineVector]: [rtc_base/bounded_inline_vector.h] and
      [api/array_view.h].  Inline vectors refine bounded lists for elements with
      any type traits, the life of every element accounted for; parts of views.

    Components meet in three ways.  [SeqNum] and [Unwrapper] use [ModOps];
    [SafeMinMax] and [Units] use the integer model and casts of
    [SafeConversions]; [CheckedNumeric], [ClampedMath] and [BaseTime] build on
    [BaseNumerics] and [CheckedMath], [StringNumber] on [CheckedNumeric], and
    the set of removed ids of [IdMap] is a set of [FlatTree].  [CallbackList]
    and [ObserverList] are event driven: what a callback or an observer does is
    any sequence of calls on the list that runs it, and their theorems hold for
    every such sequence.  [Buffer] is
    proved against the class [Memory], and [IntrusiveHeap] against the classes [Compare] with [StrictWeakOrder] and
    [HeapHandleStorage]; instances show that each can be satisfied.  In
    [UsedIds] the virtual [FindUnusedId] is an operation of the class [IdPool]:
    the assignment of ids is proved against its laws [IdPoolLaws], which both
    searches satisfy.  Parameters stand for what the sources leave to the
    platform or the library: [Platform] in the numerics, [Ctype] (the locale's
    white space) in [StringNumber], [HashTable] (the order of nodes and when a
    table is rehashed) in [IdMap], the comparison of keys, only known to be a
    strict weak order, in [FlatTree].

    [CopyOnWriteBuffer] is built on the buffers of [Buffer] and the counter of
    [RefCounted], and proved against the class [CompiledMembers] with the laws
    [CompiledLaws] for the members that have no body in the header.
    [PartitionPage], [PartitionFreelist], [PartitionAlloc] and [ObjectBitmap] use
    the constants and the machine model of [PartitionLayout] ([Platform],
    [PlatformLaws]); the thread cache is proved against [CentralAllocator] and
    [CentralLaws], which [PartitionFreelist.Simple] satisfies, and the slow paths
    of allocation and release are parameters of [PartitionAlloc].  [InlineVector]
    takes the traits of its elements from [ElementType] and [ElementLaws].

    ** Bounds

    - The unwrapper theorems bound the number of values by [2 ^ 29] so that the
      64-bit positions cannot overflow; real streams wrap far less often.
    - Fuel: [hole_up_loop] gets one more than the position of the hole, which
      falls in every pass; [hole_down_loop] the number of positions;
      [make_room_loop], [erase_loop] and [copy_loop] one more than the number
      of items, of which one is handled per pass; [resize_loop] the target
      size.  The lemmas [..._loop_ok] show that each loop ends by its own test.
      [ring_destroy] and [move_items] get the capacity and the size, and handle
      an item per pass; [search_down] and [search_up] get the distance to the
      end of their range.  A binary search of [FlatTree] gets the length of its
      range, which it halves in a pass.  [for_each] of [IdMap] needs one more than the
      number of nodes.  [cell_loop] of [ObjectBitmap] gets the width of a cell, of
      which a pass clears a bit.
    - The sequences of [CircularDeque] keep to lists of [n] items with
      [sizeof(T) * (n + n / 4 + 4) <= PTRDIFF_MAX] ([fits]): the growth policy
      allocates a quarter more than is needed and a spare cell.
    - The sequences of [CopyOnWriteBuffer] run over fewer than [2 ^ 30] handles, so
      that the 32-bit counters cannot overflow.
    - The percentile theorems bound the number of observations by [2 ^ 24], up
      to which a size is exact in single precision.

    ** Not modelled

    Floating point other than the percentile index (statistics, NTP time, conversions of
    units to [double], the floating-point overloads of the safe operations),
    logging, string formatting, classes of which only declarations are present
    (peer connection, transports, codecs, engines) and vendored code
    ([third_party]).  Of the partition allocator the slow paths, direct mapping,
    the page allocator, cookies, hooks and quarantine are outside, most of them
    in the compiled archives.  In [CircularDeque] arguments are passed by value, so a
    reference into the container itself is outside the model.  Atomic operations
    are sequentially consistent steps: weaker memory orders are not modelled. *)

From Stdlib Require Import ZArith Lia.
From stdpp Require Export base list numbers.

Open Scope Z_scope.

(** ** Outcomes of C++ code

    A C++ function either returns or stops the program.  The reasons the
    modelled code can stop are the checks of [rtc_base/checks.h] and the
    undefined behaviours the language attaches to the operations used. *)

Inductive fault : Set :=
| DCheckFailed      (* RTC_DCHECK / DCHECK in a build that has them *)
| CheckFailed       (* RTC_CHECK / CHECK *)
| SignedOverflow    (* signed arithmetic out of range *)
| BadShift          (* shift count outside the width of the type *)
| DivideByZero
| FloatRange        (* conversion to an integer type that cannot hold the value *)
| OutOfBounds       (* access outside an allocated block *)
| UninitRead        (* read of an object with no value *)
| ObjectLost        (* an object constructed over a live one *)
| NullDeref
| OutOfMemory.      (* an allocation that cannot be made *)

Inductive outcome (A : Type) : Type :=
| Ret (a : A)
| Crash (f : fault).
Arguments Ret {A} a.
Arguments Crash {A} f.

#[global] Instance outcome_ret : MRet outcome := @Ret.

#[global] Instance outcome_bind : MBind outcome := λ A B k m,
  match m with Ret a => k a | Crash f => Crash f end.

#[global] Instance outcome_fmap : FMap outcome := λ A B g m,
  match m with Ret a => Ret (g a) | Crash f => Crash f end.

#[global] Instance fault_eq_dec : EqDecision fault.
Proof. solve_decision. Defined.

#[global] Instance outcome_eq_dec `{EqDecision A} : EqDecision (outcome A).
Proof. solve_decision. Defined.

(** The code returned: it neither failed a check nor met undefined behaviour. *)
Definition returns {A} (m : outcome A) : bool :=
  match m with Ret _ => true | Crash _ => false end.

Definition from_option_or {A} (f : fault) (o : option A) : outcome A :=
  match o with Some a => Ret a | None => Crash f end.

(** ** Checks

    [RTC_DCHECK_IS_ON] is a build flag: [RTC_DCHECK] evaluates its condition
    only when it is on.  Theorems quantify over the flag, so they hold for
    debug and for release builds. *)

Class BuildMode := { RTC_DCHECK_IS_ON : bool }.

Definition RTC_DCHECK `{BuildMode} (condition : bool) : outcome unit :=
  if RTC_DCHECK_IS_ON && negb condition then Crash DCheckFailed else Ret tt.

Definition RTC_CHECK (condition : bool) : outcome unit :=
  if condition then Ret tt else Crash CheckFailed.

Definition debug_build : BuildMode := {| RTC_DCHECK_IS_ON := true |}.
Definition release_build : BuildMode := {| RTC_DCHECK_IS_ON := false |}.

(** ** Machine integers *)

Record int_type := IntType { it_bits : Z; it_signed : bool }.

Definition uint8_t := IntType 8 false.
Definition uint16_t := IntType 16 false.
Definition uint32_t := IntType 32 false.
Definition uint64_t := IntType 64 false.
Definition int8_t := IntType 8 true.
Definition int16_t := IntType 16 true.
Definition int32_t := IntType 32 true.
Definition int64_t := IntType 64 true.

Definition int_min (t : int_type) : Z :=
  if it_signed t then - 2 ^ (it_bits t - 1) else 0.
Definition int_max (t : int_type) : Z :=
  if it_signed t then 2 ^ (it_bits t - 1) - 1 else 2 ^ it_bits t - 1.

Definition in_range (t : int_type) (z : Z) : bool :=
  (int_min t <=? z) && (z <=? int_max t).

(** Reduction to [w] bits, read unsigned or as two's complement. *)
Definition wrapU (w z : Z) : Z := z mod 2 ^ w.
Definition wrapS (w z : Z) : Z := (z + 2 ^ (w - 1)) mod 2 ^ w - 2 ^ (w - 1).

(** The conversion [static_cast<t>(z)] between integer types. *)
Definition convert (t : int_type) (z : Z) : Z :=
  if it_signed t then wrapS (it_bits t) z else wrapU (it_bits t) z.

(** Integral promotion: an operand narrower than [int] is computed with as
    [int]. *)
Definition promote (t : int_type) : int_type :=
  if it_bits t <? 32 then int32_t else t.

(** The type two promoted operands are converted to. *)
Definition common_type (T1 T2 : int_type) : int_type :=
  match it_signed T1, it_signed T2 with
  | true, true | false, false => if it_bits T1 >=? it_bits T2 then T1 else T2
  | true, false => if it_bits T2 >=? it_bits T1 then T2 else T1
  | false, true => if it_bits T1 >=? it_bits T2 then T1 else T2
  end.

Definition make_unsigned (T : int_type) : int_type := IntType (it_bits T) false.
Definition make_signed (T : int_type) : int_type := IntType (it_bits T) true.

Definition std_types : list int_type :=
  [int8_t; int16_t; int32_t; int64_t; uint8_t; uint16_t; uint32_t; uint64_t].

Definition is_std (T : int_type) : Prop := In T std_types.

(** The value of an arithmetic operation done in type [t] whose exact result
    is [z]: unsigned types wrap around, signed overflow is undefined. *)
Definition arith (t : int_type) (z : Z) : outcome Z :=
  if it_signed t
  then if in_range t z then Ret z else Crash SignedOverflow
  else Ret (wrapU (it_bits t) z).

(** [n / d] and [n % d] of C++ truncate toward zero. *)
Definition c_div (t : int_type) (n d : Z) : outcome Z :=
  if d =? 0 then Crash DivideByZero else arith t (Z.quot n d).

(** [v << s] in type [t].  For a signed type the result must fit in the
    corresponding unsigned type and the operand must not be negative. *)
Definition shl (t : int_type) (v s : Z) : outcome Z :=
  if (s <? 0) || (it_bits t <=? s) then Crash BadShift
  else if it_signed t && ((v <? 0) || (2 ^ it_bits t <=? v * 2 ^ s)) then Crash SignedOverflow
  else Ret (convert t (v * 2 ^ s)).

(** [v >> s] in type [t]. *)
Definition shr (t : int_type) (v s : Z) : outcome Z :=
  if (s <? 0) || (it_bits t <=? s) then Crash BadShift else Ret (Z.shiftr v s).

(** ** Lemmas on machine integers *)

Definition unsigned_type (t : int_type) : Prop :=
  it_signed t = false ∧ 0 < it_bits t.

Definition values (t : int_type) (z : Z) : Prop := int_min t ≤ z ≤ int_max t.

Lemma pow2_pos (w : Z) : 0 ≤ w → 0 < 2 ^ w.
Proof. intros. by apply Z.pow_pos_nonneg. Qed.

Lemma pow2_half (w : Z) : 0 < w → 2 ^ w = 2 * 2 ^ (w - 1).
Proof. intros. rewrite <-Z.pow_succ_r by lia. f_equal. lia. Qed.

Lemma wrapU_range (w z : Z) : 0 ≤ w → 0 ≤ wrapU w z < 2 ^ w.
Proof. intros. apply Z.mod_pos_bound. by apply pow2_pos. Qed.

Lemma wrapU_small (w z : Z) : 0 ≤ z < 2 ^ w → wrapU w z = z.
Proof. apply Z.mod_small. Qed.

Lemma wrapS_small (w z : Z) :
  0 < w → - 2 ^ (w - 1) ≤ z < 2 ^ (w - 1) → wrapS w z = z.
Proof.
  intros Hw Hz. unfold wrapS. pose proof (pow2_half w Hw).
  rewrite Z.mod_small by lia. lia.
Qed.

Lemma wrapS_range (w z : Z) :
  0 < w → - 2 ^ (w - 1) ≤ wrapS w z < 2 ^ (w - 1).
Proof.
  intros Hw. unfold wrapS. pose proof (pow2_half w Hw).
  pose proof (Z.mod_pos_bound (z + 2 ^ (w - 1)) (2 ^ w)). lia.
Qed.

Lemma mod_unique_range (N z r k : Z) :
  0 ≤ r < N → z = k * N + r → z mod N = r.
Proof. intros Hr ->. symmetry. apply (Z.mod_unique_pos _ _ k); lia. Qed.

Lemma in_range_spec (t : int_type) (z : Z) : in_range t z = true ↔ values t z.
Proof. unfold in_range, values. lia. Qed.

Lemma arith_in_range (t : int_type) (z : Z) :
  0 < it_bits t → values t z → arith t z = Ret z.
Proof.
  intros Hb Hz. pose proof (proj2 (in_range_spec t z) Hz) as Hr.
  unfold arith. rewrite Hr. destruct (it_signed t) eqn:Hs; [done|].
  unfold values, int_min, int_max in Hz. rewrite Hs in Hz.
  by rewrite wrapU_small by lia.
Qed.

Lemma convert_in_range (t : int_type) (z : Z) :
  0 < it_bits t → values t z → convert t z = z.
Proof.
  unfold values, int_min, int_max, convert. intros Hb Hz.
  destruct (it_signed t); [apply wrapS_small | apply wrapU_small]; lia.
Qed.

(** The width of a promoted type is at least 32, and a value of [t] is one of
    [promote t]. *)
Lemma promote_unsigned (t : int_type) :
  unsigned_type t →
  (it_bits t < 32 ∧ promote t = int32_t ∧ 2 ^ it_bits t ≤ 2 ^ 31)
  ∨ (32 ≤ it_bits t ∧ promote t = t).
Proof.
  intros [Hs Hb]. unfold promote. destruct (Z.ltb_spec (it_bits t) 32); [left|right].
  - split_and!; [lia|done|]. apply Z.pow_le_mono_r; lia.
  - split; [lia|done].
Qed.

(** Arithmetic on operands of an unsigned type, done in the promoted type and
    converted back, is arithmetic modulo [2 ^ it_bits t]. *)
Lemma arith_promote_unsigned (t : int_type) (z : Z) :
  unsigned_type t → - 2 ^ it_bits t < z < 2 ^ it_bits t →
  ∃ r, arith (promote t) z = Ret r ∧ convert t r = wrapU (it_bits t) z ∧
       (it_bits t < 32 → r = z) ∧ (32 ≤ it_bits t → r = wrapU (it_bits t) z).
Proof.
  intros Ht Hz. pose proof Ht as [Hs Hb].
  destruct (promote_unsigned t Ht) as [(Hw & -> & Hp)|(Hw & ->)].
  - exists z. split_and!; [|by unfold convert; rewrite Hs|done|lia].
    apply arith_in_range; [done|].
    unfold values, int_min, int_max; simpl. lia.
  - exists (wrapU (it_bits t) z). unfold arith, convert. rewrite Hs.
    split_and!; [done| |lia|done].
    apply wrapU_small, wrapU_range. lia.
Qed.

(** ** Bit operations *)

Lemma log2_bound w z : 0 ≤ z → 0 < w → Z.log2 z < w → z < 2 ^ w.
Proof. intros Hz Hw Hl. destruct (decide (z = 0)) as [->|]; [apply pow2_pos; lia|]. apply Z.log2_lt_pow2; lia. Qed.

Lemma log2_lt w z : 0 < w → 0 ≤ z < 2 ^ w → Z.log2 z < w.
Proof. intros Hw Hz. destruct (decide (z = 0)) as [->|]; [done|]. apply Z.log2_lt_pow2; lia. Qed.

Lemma lxor_bound w a b : 0 < w → 0 ≤ a < 2 ^ w → 0 ≤ b < 2 ^ w → 0 ≤ Z.lxor a b < 2 ^ w.
Proof.
  intros Hw Ha Hb. assert (0 ≤ Z.lxor a b) by (apply Z.lxor_nonneg; lia). split; [done|]. apply log2_bound; [done|done|].
  pose proof (Z.log2_lxor a b). pose proof (log2_lt w a Hw Ha). pose proof (log2_lt w b Hw Hb). lia.
Qed.

Lemma land_bound w a b : 0 < w → 0 ≤ a < 2 ^ w → 0 ≤ b < 2 ^ w → 0 ≤ Z.land a b < 2 ^ w.
Proof.
  intros Hw Ha Hb. assert (0 ≤ Z.land a b) by (apply Z.land_nonneg; lia). split; [done|]. apply log2_bound; [done|done|].
  pose proof (Z.log2_land a b). pose proof (log2_lt w a Hw Ha). lia.
Qed.

Lemma lor_bound w a b : 0 < w → 0 ≤ a < 2 ^ w → 0 ≤ b < 2 ^ w → 0 ≤ Z.lor a b < 2 ^ w.
Proof.
  intros Hw Ha Hb. assert (0 ≤ Z.lor a b) by (apply Z.lor_nonneg; lia). split; [done|]. apply log2_bound; [done|done|].
  pose proof (Z.log2_lor a b). pose proof (log2_lt w a Hw Ha). pose proof (log2_lt w b Hw Hb). lia.
Qed.

(** [Z.lor] of values with no common bit is addition. *)
Lemma lor_shifted a b k : 0 ≤ k → 0 ≤ a < 2 ^ k → Z.lor a (b * 2 ^ k) = a + b * 2 ^ k.
Proof.
  intros Hk Ha. rewrite <-Z.shiftl_mul_pow2 by done.
  assert (Z.land a (Z.shiftl b k) = 0) as Hd.
  { apply Z.bits_inj'. intros n Hn. rewrite Z.land_spec, Z.bits_0.
    destruct (Z.lt_ge_cases n k).
    - rewrite Z.shiftl_spec_low by done. apply andb_false_r.
    - by rewrite <-(Z.mod_small a (2 ^ k)), Z.mod_pow2_bits_high by lia. }
  rewrite <-Z.lxor_lor by done. symmetry. by apply Z.add_nocarry_lxor.
Qed.

Lemma wrapU_lor w a b : 0 ≤ w → wrapU w (Z.lor a b) = Z.lor (wrapU w a) (wrapU w b).
Proof.
  intros. unfold wrapU. rewrite <-!Z.land_ones by done. apply Z.land_lor_distr_l.
Qed.

(** ** Automation *)

Create HintDb webrtc.
Create Rewrite HintDb webrtc_simpl.

Lemma bind_ret {A B} (a : A) (k : A → outcome B) : (Ret a ≫= k) = k a.
Proof. done. Qed.

Lemma bind_assoc_outcome {A B C} (m : outcome A) (k : A → outcome B) (l : B → outcome C) :
  (m ≫= k) ≫= l = m ≫= (λ a, k a ≫= l).
Proof. by destruct m. Qed.

Lemma bind_returns {A B} (m : outcome A) (k : A → outcome B) (b : B) :
  (m ≫= k) = Ret b ↔ ∃ a, m = Ret a ∧ k a = Ret b.
Proof.
  split; [|by intros (a & -> & ?)].
  destruct m as [a|f]; [by exists a | discriminate].
Qed.

Lemma dcheck_pass `{BuildMode} (b : bool) : b = true → RTC_DCHECK b = Ret tt.
Proof. intros ->. unfold RTC_DCHECK. by rewrite andb_false_r. Qed.

Lemma dcheck_debug (b : bool) :
  @RTC_DCHECK debug_build b = if b then Ret tt else Crash DCheckFailed.
Proof. by destruct b. Qed.

Lemma dcheck_release (b : bool) : @RTC_DCHECK release_build b = Ret tt.
Proof. done. Qed.

Lemma dcheck_returns `{BuildMode} (b : bool) (u : unit) :
  RTC_DCHECK b = Ret u → RTC_DCHECK_IS_ON = false ∨ b = true.
Proof. unfold RTC_DCHECK. destruct RTC_DCHECK_IS_ON, b; naive_solver. Qed.

Lemma check_pass (b : bool) : b = true → RTC_CHECK b = Ret tt.
Proof. by intros ->. Qed.

#[export] Hint Rewrite @bind_ret @bind_assoc_outcome dcheck_release : webrtc_simpl.

(** [bool_solve] proves a boolean guard of the code from the linear
    arithmetic facts in the context. *)
Ltac bool_solve :=
  repeat match goal with
  | |- andb _ _ = true => apply andb_true_intro; split
  | |- negb _ = true => apply negb_true_iff
  | |- Z.leb _ _ = true => apply Z.leb_le
  | |- Z.ltb _ _ = true => apply Z.ltb_lt
  | |- Z.eqb _ _ = true => apply Z.eqb_eq
  | |- Z.eqb _ _ = false => apply Z.eqb_neq
  | |- Z.leb _ _ = false => apply Z.leb_gt
  | |- Z.ltb _ _ = false => apply Z.ltb_ge
  | |- Nat.leb _ _ = true => apply Nat.leb_le
  | |- Nat.ltb _ _ = true => apply Nat.ltb_lt
  | |- Nat.eqb _ _ = true => apply Nat.eqb_eq
  | |- Nat.eqb _ _ = false => apply Nat.eqb_neq
  end; try done; try lia.

(** [pass] executes the next check of the code, whose condition holds. *)
Ltac pass :=
  match goal with
  | |- context [Ret _ ≫= _] => rewrite bind_ret
  | |- context [RTC_DCHECK ?b ≫= _] => rewrite (dcheck_pass b) by bool_solve; rewrite bind_ret
  | |- context [RTC_CHECK ?b ≫= _] => rewrite (check_pass b) by bool_solve; rewrite bind_ret
  end.

(** [zcase] splits on the integer comparison the goal branches on. *)
Ltac zcase :=
  match goal with
  | |- context [Z.eqb ?a ?b] => destruct (Z.eqb_spec a b)
  | |- context [Z.leb ?a ?b] => destruct (Z.leb_spec a b)
  | |- context [Z.ltb ?a ?b] => destruct (Z.ltb_spec a b)
  | |- context [Z.gtb ?a ?b] => rewrite (Z.gtb_ltb a b)
  | |- context [Z.geb ?a ?b] => rewrite (Z.geb_leb a b)
  | |- context [Nat.eqb ?a ?b] => destruct (Nat.eqb_spec a b)
  | |- context [Nat.leb ?a ?b] => destruct (Nat.leb_spec a b)
  | |- context [Nat.ltb ?a ?b] => destruct (Nat.ltb_spec a b)
  end.
