(* ===== verification/ModOps.v ===== *)
(** * Modular arithmetic on wrapping numbers

    Model of [src/include/rtc_base/numerics/mod_ops.h].  The template
    parameters [T] and [M] are arguments: [T] an unsigned integer type, [M] a
    value of [T], where [M = 0] stands for wrapping at the width of [T].
    Operands of a type narrower than [int] are promoted as the language does,
    so that [b - a] is computed in [int] for 8 and 16 bit types and modulo
    [2 ^ 32] or [2 ^ 64] for the wider ones. *)

From S2P Require Import Prelude.

Section ModOps.
Context `{BuildMode}.

(** [Add<M>] and [Subtract<M>] on [unsigned long], of [w] bits. *)
Definition Add (w M a b : Z) : outcome Z :=
  RTC_DCHECK (a <? M) ≫= λ _,
  let t := wrapU w (M - b mod M) in
  let res := wrapU w (a - t) in
  if t >? a then Ret (wrapU w (res + M)) else Ret res.

Definition Subtract (w M a b : Z) : outcome Z :=
  RTC_DCHECK (a <? M) ≫= λ _,
  let sub := b mod M in
  if a <? sub then Ret (wrapU w (M - wrapU w (sub - a))) else Ret (wrapU w (a - sub)).

Definition ForwardDiff_M (T : int_type) (M a b : Z) : outcome Z :=
  RTC_DCHECK (a <? M) ≫= λ _,
  RTC_DCHECK (b <? M) ≫= λ _,
  if a <=? b
  then d ← arith (promote T) (b - a); Ret (convert T d)
  else d ← arith (promote T) (a - b);
       r ← arith (promote T) (M - d); Ret (convert T r).

Definition ForwardDiff_0 (T : int_type) (a b : Z) : outcome Z :=
  d ← arith (promote T) (b - a); Ret (convert T d).

Definition ForwardDiff (T : int_type) (M a b : Z) : outcome Z :=
  if M =? 0 then ForwardDiff_0 T a b else ForwardDiff_M T M a b.

Definition ReverseDiff_M (T : int_type) (M a b : Z) : outcome Z :=
  RTC_DCHECK (a <? M) ≫= λ _,
  RTC_DCHECK (b <? M) ≫= λ _,
  if b <=? a
  then d ← arith (promote T) (a - b); Ret (convert T d)
  else d ← arith (promote T) (b - a);
       r ← arith (promote T) (M - d); Ret (convert T r).

Definition ReverseDiff_0 (T : int_type) (a b : Z) : outcome Z :=
  d ← arith (promote T) (a - b); Ret (convert T d).

Definition ReverseDiff (T : int_type) (M a b : Z) : outcome Z :=
  if M =? 0 then ReverseDiff_0 T a b else ReverseDiff_M T M a b.

Definition MinDiff (T : int_type) (M a b : Z) : outcome Z :=
  f ← ForwardDiff T M a b; r ← ReverseDiff T M a b; Ret (Z.min f r).

End ModOps.

(** ** Specification

    The numbers wrap at [modulus T M]. *)

Definition modulus (T : int_type) (M : Z) : Z :=
  if M =? 0 then 2 ^ it_bits T else M.

(** What the template parameters have to satisfy for the code to compile. *)
Definition mod_params (T : int_type) (M : Z) : Prop :=
  unsigned_type T ∧ 0 ≤ M < 2 ^ it_bits T.

Lemma modulus_range T M : mod_params T M → 0 < modulus T M ≤ 2 ^ it_bits T.
Proof.
  intros [[? ?] ?]. pose proof (pow2_pos (it_bits T)). unfold modulus. zcase; lia.
Qed.

(** [a - b] computed in the promoted type and converted to [T] when the exact
    result is a value of [T]. *)
Lemma arith_convert_exact T z :
  unsigned_type T → 0 ≤ z < 2 ^ it_bits T →
  ∃ r, arith (promote T) z = Ret r ∧ convert T r = z ∧ r = z.
Proof.
  intros HT Hz.
  destruct (arith_promote_unsigned T z HT ltac:(lia)) as (r & Hr & Hc & Hn & Hw).
  rewrite wrapU_small in Hc, Hw by lia. exists r. split_and!; [done..|].
  destruct (Z.lt_ge_cases (it_bits T) 32); auto.
Qed.

Lemma ForwardDiff_spec `{BuildMode} T M a b :
  mod_params T M → 0 ≤ a < modulus T M → 0 ≤ b < modulus T M →
  ForwardDiff T M a b = Ret ((b - a) mod modulus T M).
Proof.
  intros [HT HM]. unfold modulus, ForwardDiff. zcase; intros Ha Hb.
  - destruct (arith_promote_unsigned T (b - a) HT ltac:(lia)) as (r & Hr & Hc & _).
    unfold ForwardDiff_0. by rewrite Hr, bind_ret, Hc.
  - unfold ForwardDiff_M. do 2 pass. zcase.
    + destruct (arith_convert_exact T (b - a) HT ltac:(lia)) as (r & -> & Hc & _).
      rewrite bind_ret, Hc. by rewrite Z.mod_small by lia.
    + destruct (arith_convert_exact T (a - b) HT ltac:(lia)) as (r & -> & _ & ->).
      rewrite bind_ret.
      destruct (arith_convert_exact T (M - (a - b)) HT ltac:(lia)) as (r & -> & Hc & _).
      rewrite bind_ret, Hc. f_equal. symmetry.
      apply (mod_unique_range M _ _ (-1)); lia.
Qed.

Lemma ReverseDiff_Forward `{BuildMode} T M a b :
  ReverseDiff T M a b = ForwardDiff T M b a.
Proof.
  unfold ReverseDiff, ForwardDiff. zcase; [done|].
  unfold ReverseDiff_M, ForwardDiff_M, RTC_DCHECK.
  by destruct RTC_DCHECK_IS_ON, (a <? M), (b <? M).
Qed.

Lemma ReverseDiff_spec `{BuildMode} T M a b :
  mod_params T M → 0 ≤ a < modulus T M → 0 ≤ b < modulus T M →
  ReverseDiff T M a b = Ret ((a - b) mod modulus T M).
Proof. intros. rewrite ReverseDiff_Forward. by apply ForwardDiff_spec. Qed.

Lemma MinDiff_spec `{BuildMode} T M a b :
  mod_params T M → 0 ≤ a < modulus T M → 0 ≤ b < modulus T M →
  MinDiff T M a b =
    Ret (Z.min ((b - a) mod modulus T M) ((a - b) mod modulus T M)).
Proof.
  intros HT Ha Hb. unfold MinDiff.
  by rewrite ForwardDiff_spec, bind_ret, ReverseDiff_spec, bind_ret by done.
Qed.

(** The two directions around the circle. *)
Lemma mod_opposite N a b :
  0 < N → 0 ≤ a < N → 0 ≤ b < N →
  (a = b ∧ (b - a) mod N = 0 ∧ (a - b) mod N = 0)
  ∨ (a < b ∧ (b - a) mod N = b - a ∧ (a - b) mod N = N - (b - a))
  ∨ (b < a ∧ (b - a) mod N = N - (a - b) ∧ (a - b) mod N = a - b).
Proof.
  intros HN Ha Hb. destruct (Z.lt_trichotomy a b) as [Hl|[->|Hl]].
  - right; left. split_and!; [done| |].
    + by rewrite Z.mod_small by lia.
    + apply (mod_unique_range N _ _ (-1)); lia.
  - left. rewrite Z.sub_diag, Z.mod_0_l by lia. done.
  - right; right. split_and!; [done| |].
    + apply (mod_unique_range N _ _ (-1)); lia.
    + by rewrite Z.mod_small by lia.
Qed.

(** ** Properties *)

(** [Add<M>(a, b)] is [(a + b) mod M] and [Subtract<M>(a, b)] is
    [(a - b) mod M]: the wrap-around of the intermediate [unsigned long]
    values never shows. *)
Theorem add_subtract_correct `{BuildMode} (w M a b : Z) :
  0 < w → 0 < M < 2 ^ w → 0 ≤ a < M → 0 ≤ b < 2 ^ w →
  Add w M a b = Ret ((a + b) mod M) ∧ Subtract w M a b = Ret ((a - b) mod M).
Proof.
  intros Hw HM Ha Hb. pose proof (Z.mod_pos_bound b M ltac:(lia)) as Hr.
  pose proof (Z.div_mod b M ltac:(lia)) as Hd. split.
  - unfold Add. pass. rewrite (wrapU_small w (M - b mod M)) by lia.
    rewrite Z.gtb_ltb. zcase; f_equal; symmetry.
    + unfold wrapU. rewrite Z.add_mod_idemp_l by lia.
      rewrite (Z.mod_small (a - (M - b mod M) + M)) by lia.
      apply (mod_unique_range M _ _ (b / M)); lia.
    + rewrite wrapU_small by lia.
      apply (mod_unique_range M _ _ (b / M + 1)); lia.
  - unfold Subtract. pass. zcase; f_equal; symmetry.
    + rewrite (wrapU_small w (b mod M - a)), wrapU_small by lia.
      apply (mod_unique_range M _ _ (- (b / M) - 1)); lia.
    + rewrite wrapU_small by lia.
      apply (mod_unique_range M _ _ (- (b / M))); lia.
Qed.

Lemma add_subtract_correct_witness :
  @Add debug_build 64 10 7 25 = Ret 2 ∧ @Subtract debug_build 64 10 7 25 = Ret 2.
Proof.
  apply (@add_subtract_correct debug_build 64 10 7 25); lia.
Defined.

(** [MinDiff] is the distance on the circle of [modulus T M] numbers:
    it is symmetric, zero exactly for equal numbers, at most half the
    modulus, and obeys the triangle inequality. *)
Theorem mindiff_metric `{BuildMode} (T : int_type) (M a b c : Z) :
  mod_params T M →
  0 ≤ a < modulus T M → 0 ≤ b < modulus T M → 0 ≤ c < modulus T M →
  ∃ dab dbc dac,
    MinDiff T M a b = Ret dab ∧ MinDiff T M b a = Ret dab ∧
    MinDiff T M b c = Ret dbc ∧ MinDiff T M a c = Ret dac ∧
    (dab = 0 ↔ a = b) ∧ 0 ≤ dab ≤ modulus T M / 2 ∧ dac ≤ dab + dbc.
Proof.
  intros HT Ha Hb Hc. pose proof (modulus_range T M HT) as HN.
  rewrite !MinDiff_spec by done. eexists _, _, _.
  split; [done|]. split; [by rewrite Z.min_comm|]. do 2 (split; [done|]).
  set (N := modulus T M) in *. pose proof (Z.div_mod N 2 ltac:(lia)).
  pose proof (Z.mod_pos_bound N 2 ltac:(lia)).
  destruct (mod_opposite N a b) as [(?&->&->)|[(?&->&->)|(?&->&->)]]; [lia..| | |];
  destruct (mod_opposite N b c) as [(?&->&->)|[(?&->&->)|(?&->&->)]]; try lia;
  destruct (mod_opposite N a c) as [(?&->&->)|[(?&->&->)|(?&->&->)]]; lia.
Qed.

Lemma mindiff_metric_witness :
  mod_params uint8_t 0 ∧
  ∃ dab dbc dac,
    @MinDiff debug_build uint8_t 0 253 2 = Ret dab ∧ @MinDiff debug_build uint8_t 0 2 253 = Ret dab ∧
    @MinDiff debug_build uint8_t 0 2 130 = Ret dbc ∧ @MinDiff debug_build uint8_t 0 253 130 = Ret dac ∧
    (dab = 0 ↔ 253 = 2) ∧ 0 ≤ dab ≤ modulus uint8_t 0 / 2 ∧ dac ≤ dab + dbc.
Proof.
  assert (mod_params uint8_t 0) as HT by (repeat split; vm_compute; congruence).
  split; [done|]. apply (@mindiff_metric debug_build uint8_t 0 253 2 130); first done;
  vm_compute; split; congruence.
Defined.
