(* ===== verification/SeqNum.v ===== *)
(** * Sequence number comparison and unwrapping

    Model of [src/include/rtc_base/numerics/sequence_number_util.h]: the order
    on wrapping sequence numbers ([AheadOrAt], [AheadOf] and the comparators
    built on them) and [SeqNumUnwrapper], which turns a stream of wrapping
    numbers into 64-bit positions. *)

From S2P Require Import Prelude ModOps.

Section SeqNum.
Context `{BuildMode}.

Definition AheadOrAt_M (T : int_type) (M a b : Z) : outcome bool :=
  let maxDist := M / 2 in
  tie ← (if Z.land M 1 =? 0
         then d ← MinDiff T M a b; Ret (d =? maxDist)
         else Ret false);
  if tie : bool then Ret (b <? a)
  else d ← ForwardDiff T M b a; Ret (d <=? maxDist).

Definition AheadOrAt_0 (T : int_type) (a b : Z) : outcome bool :=
  let maxDist := convert T (int_max T / 2 + 1) in
  d ← arith (promote T) (a - b);
  if d =? maxDist then Ret (b <? a)
  else f ← ForwardDiff T 0 b a; Ret (f <? maxDist).

Definition AheadOrAt (T : int_type) (M a b : Z) : outcome bool :=
  if M =? 0 then AheadOrAt_0 T a b else AheadOrAt_M T M a b.

Definition AheadOf (T : int_type) (M a b : Z) : outcome bool :=
  if a =? b then Ret false else AheadOrAt T M a b.

(** The call operators of the two comparators. *)
Definition AscendingSeqNumComp (T : int_type) (M a b : Z) : outcome bool :=
  AheadOf T M a b.
Definition DescendingSeqNumComp (T : int_type) (M a b : Z) : outcome bool :=
  AheadOf T M b a.

(** ** SeqNumUnwrapper *)

Record SeqNumUnwrapper := {
  last_unwrapped_ : Z;
  last_value_ : option Z;
}.

Definition SeqNumUnwrapper_init : SeqNumUnwrapper :=
  {| last_unwrapped_ := 0; last_value_ := None |}.

Definition kBackwardAdjustment (T : int_type) (M : Z) : outcome Z :=
  if M =? 0 then arith int64_t (int_max T + 1) else Ret (convert int64_t M).

(** [Unwrap]: the new state and the returned position. *)
Definition Unwrap (T : int_type) (M : Z) (st : SeqNumUnwrapper) (value : Z)
    : outcome (SeqNumUnwrapper * Z) :=
  unwrapped ←
    match last_value_ st with
    | None => Ret (convert int64_t value)
    | Some last =>
        d ← ForwardDiff T M last value;
        u ← arith int64_t (last_unwrapped_ st + d);
        ahead ← AheadOrAt T M value last;
        if negb ahead
        then adj ← kBackwardAdjustment T M; arith int64_t (u - adj)
        else Ret u
    end;
  Ret ({| last_unwrapped_ := unwrapped; last_value_ := Some value |}, unwrapped).

(** A run of the unwrapper over a stream of received numbers. *)
Fixpoint unwrap_all (T : int_type) (M : Z) (st : SeqNumUnwrapper) (vs : list Z)
    : outcome (list Z) :=
  match vs with
  | [] => Ret []
  | v :: vs' =>
      '(st', u) ← Unwrap T M st v;
      us ← unwrap_all T M st' vs';
      Ret (u :: us)
  end.

End SeqNum.

(** ** The order in terms of the distance forward *)

(** [ahead_spec N a b]: walking forward from [b] one reaches [a] within half
    the circle, and at exactly half the larger number is ahead. *)
Definition ahead_spec (N a b : Z) : bool :=
  let d := (a - b) mod N in
  if 2 * d =? N then b <? a else 2 * d <? N.

Lemma land_1_even (M : Z) : (Z.land M 1 =? 0) = (M mod 2 =? 0).
Proof. change 1 with (Z.ones 1). by rewrite Z.land_ones. Qed.

Lemma int_max_half T :
  unsigned_type T → int_max T / 2 + 1 = 2 ^ (it_bits T - 1).
Proof.
  intros [Hs Hb]. unfold int_max. rewrite Hs, (pow2_half (it_bits T)) by done.
  pose proof (pow2_pos (it_bits T - 1) ltac:(lia)).
  replace (2 * 2 ^ (it_bits T - 1) - 1) with (2 ^ (it_bits T - 1) * 2 + (-1)) by lia.
  rewrite Z.div_add_l by lia. change (-1 / 2) with (-1). lia.
Qed.

Lemma AheadOrAt_0_spec `{BuildMode} T a b :
  mod_params T 0 → 0 ≤ a < modulus T 0 → 0 ≤ b < modulus T 0 →
  AheadOrAt_0 T a b = Ret (ahead_spec (modulus T 0) a b).
Proof.
  intros [HT _] Ha Hb. pose proof HT as [Hs Hbits]. unfold AheadOrAt_0.
  rewrite int_max_half by done.
  unfold modulus in *; simpl in *. pose proof (pow2_half (it_bits T) Hbits).
  set (W := 2 ^ it_bits T) in *. set (H2 := 2 ^ (it_bits T - 1)) in *.
  assert (convert T H2 = H2) as ->.
  { apply convert_in_range; [done|]. unfold values, int_min, int_max. rewrite Hs. fold W. lia. }
  destruct (arith_promote_unsigned T (a - b) HT ltac:(fold W; lia))
    as (r & -> & _ & Hn & Hw). rewrite bind_ret.
  rewrite ForwardDiff_spec by (try split; try done; unfold modulus; simpl; fold W; lia).
  unfold modulus; simpl; fold W. unfold ahead_spec.
  destruct (mod_opposite W a b) as [(->&_&He)|[(?&_&He)|(?&_&He)]]; [lia..| | |];
    rewrite He; destruct (Z.lt_ge_cases (it_bits T) 32) as [Hlt|Hge];
    try rewrite (Hn Hlt); try (rewrite (Hw Hge); unfold wrapU; fold W; rewrite He);
    repeat zcase; try lia; f_equal; lia.
Qed.

Lemma AheadOrAt_M_spec `{BuildMode} T M a b :
  mod_params T M → M ≠ 0 → 0 ≤ a < modulus T M → 0 ≤ b < modulus T M →
  AheadOrAt_M T M a b = Ret (ahead_spec (modulus T M) a b).
Proof.
  intros HT HM Ha Hb. unfold AheadOrAt_M.
  rewrite MinDiff_spec, ForwardDiff_spec, land_1_even, !bind_ret by done.
  pose proof (modulus_range T M HT) as HN.
  assert (modulus T M = M) as HMM by (unfold modulus; zcase; lia). rewrite HMM in *.
  pose proof (Z.div_mod M 2 ltac:(lia)). pose proof (Z.mod_pos_bound M 2 ltac:(lia)).
  unfold ahead_spec.
  destruct (mod_opposite M a b) as [(?&->&->)|[(?&->&->)|(?&->&->)]]; [lia..| | |];
    destruct (Z.eqb_spec (M mod 2) 0); rewrite ?bind_ret;
    repeat (zcase; rewrite ?bind_ret); try lia; f_equal; lia.
Qed.

Lemma AheadOrAt_spec `{BuildMode} T M a b :
  mod_params T M → 0 ≤ a < modulus T M → 0 ≤ b < modulus T M →
  AheadOrAt T M a b = Ret (ahead_spec (modulus T M) a b).
Proof.
  intros HT. unfold AheadOrAt. zcase.
  - subst. by apply AheadOrAt_0_spec.
  - by apply AheadOrAt_M_spec.
Qed.

Lemma ahead_spec_cases N a b :
  0 < N → 0 ≤ a < N → 0 ≤ b < N → a ≠ b → ahead_spec N a b = negb (ahead_spec N b a).
Proof.
  intros HN Ha Hb Hne. unfold ahead_spec.
  destruct (mod_opposite N a b) as [(?&->&->)|[(?&->&->)|(?&->&->)]]; [lia..| | |];
    repeat zcase; lia.
Qed.

(** ** Unwrapping *)

(** The signed distance the unwrapper walks from [last] to [v]. *)
Definition step_to (N last v : Z) : Z :=
  let d := (v - last) mod N in
  if ahead_spec N v last then d else d - N.

Lemma step_to_congr N last v : 0 < N → (last + step_to N last v) mod N = v mod N.
Proof.
  intros HN. unfold step_to. destruct (ahead_spec _ _ _).
  - rewrite Z.add_mod_idemp_r by lia. f_equal. lia.
  - replace (last + ((v - last) mod N - N)) with (last + (v - last) mod N + (-1) * N) by lia.
    rewrite Z.mod_add, Z.add_mod_idemp_r by lia. f_equal. lia.
Qed.

Lemma step_to_nearest N last v :
  0 < N → 0 ≤ last < N → 0 ≤ v < N → - N ≤ 2 * step_to N last v ≤ N.
Proof.
  intros HN Hl Hv. unfold step_to, ahead_spec.
  pose proof (Z.mod_pos_bound (v - last) N HN). repeat zcase; lia.
Qed.

(** A jump of less than half the modulus is recovered exactly. *)
Lemma step_to_exact N last v x :
  0 < N → 0 ≤ last < N → (last + x) mod N = v → - N < 2 * x < N →
  step_to N last v = x.
Proof.
  intros HN Hl <- Hx. unfold step_to, ahead_spec.
  rewrite Zminus_mod_idemp_l, Z.add_simpl_l.
  destruct (Z.lt_ge_cases x 0).
  - rewrite (mod_unique_range N x (x + N) (-1)) by lia. repeat zcase; lia.
  - rewrite (Z.mod_small x) by lia. repeat zcase; lia.
Qed.

Lemma kBackwardAdjustment_spec T M :
  mod_params T M → it_bits T < 63 → kBackwardAdjustment T M = Ret (modulus T M).
Proof.
  intros HT Hw. pose proof (modulus_range T M HT). destruct HT as [[Hs Hb] HM].
  assert (2 ^ it_bits T ≤ 2 ^ 62) by (apply Z.pow_le_mono_r; lia).
  unfold kBackwardAdjustment, modulus in *. zcase.
  - unfold int_max. rewrite Hs. replace (2 ^ it_bits T - 1 + 1) with (2 ^ it_bits T) by lia.
    apply arith_in_range; [done|]. unfold values, int_min, int_max; simpl. lia.
  - f_equal. apply convert_in_range; [done|]. unfold values, int_min, int_max; simpl. lia.
Qed.

(** The state the unwrapper reaches after receiving [v] at position [u]. *)
Definition seen (v u : Z) : SeqNumUnwrapper :=
  {| last_unwrapped_ := u; last_value_ := Some v |}.

Lemma Unwrap_first `{BuildMode} T M v :
  mod_params T M → it_bits T < 63 → 0 ≤ v < modulus T M →
  Unwrap T M SeqNumUnwrapper_init v = Ret (seen v v, v).
Proof.
  intros HT Hw Hv. pose proof (modulus_range T M HT). destruct HT as [[Hs Hb] HM].
  assert (2 ^ it_bits T ≤ 2 ^ 62) by (apply Z.pow_le_mono_r; lia).
  unfold Unwrap; simpl. rewrite convert_in_range; [done|done|].
  unfold values, int_min, int_max; simpl. lia.
Qed.

Lemma Unwrap_next `{BuildMode} T M last u v :
  mod_params T M → it_bits T < 63 →
  0 ≤ last < modulus T M → 0 ≤ v < modulus T M →
  values int64_t u → values int64_t (u + (v - last) mod modulus T M) →
  values int64_t (u + step_to (modulus T M) last v) →
  Unwrap T M (seen last u) v =
    Ret (seen v (u + step_to (modulus T M) last v), u + step_to (modulus T M) last v).
Proof.
  intros HT Hw Hl Hv Hu Hf Hr. unfold Unwrap; simpl.
  rewrite ForwardDiff_spec, bind_ret by done.
  rewrite (arith_in_range int64_t), bind_ret by done.
  rewrite AheadOrAt_spec, bind_ret by done. unfold step_to in *.
  destruct (ahead_spec _ _ _); simpl; [done|].
  rewrite kBackwardAdjustment_spec, bind_ret by done.
  rewrite (arith_in_range int64_t); [|done|]; [|].
  - simpl. by rewrite Z.add_sub_assoc.
  - by replace (u + (v - last) mod modulus T M - modulus T M)
      with (u + ((v - last) mod modulus T M - modulus T M)) by lia.
Qed.

(** ** Properties *)

(** [AheadOf] decides every pair: no number is ahead of itself, and of two
    different numbers exactly one is ahead, also when they are half the
    modulus apart (the larger one then). *)
Theorem ahead_of_total `{BuildMode} (T : int_type) (M a b : Z) :
  mod_params T M → 0 ≤ a < modulus T M → 0 ≤ b < modulus T M →
  AheadOf T M a a = Ret false ∧
  (a ≠ b → ∃ r, AheadOf T M a b = Ret r ∧ AheadOf T M b a = Ret (negb r)) ∧
  (2 * (a - b) = modulus T M → AheadOf T M a b = Ret true).
Proof.
  intros HT Ha Hb. pose proof (modulus_range T M HT). unfold AheadOf. split_and!.
  - by rewrite Z.eqb_refl.
  - intros Hne. exists (ahead_spec (modulus T M) a b).
    rewrite !AheadOrAt_spec by done. rewrite (ahead_spec_cases _ b a) by lia.
    by split; zcase; try lia.
  - intros Hd. zcase; [lia|]. rewrite AheadOrAt_spec by done. f_equal.
    unfold ahead_spec. rewrite Z.mod_small by lia. repeat zcase; lia.
Qed.

Lemma ahead_of_total_witness :
  mod_params uint16_t 0 ∧
  @AheadOf debug_build uint16_t 0 40000 40000 = Ret false ∧
  (40000 ≠ 7232 → ∃ r, @AheadOf debug_build uint16_t 0 40000 7232 = Ret r ∧
     @AheadOf debug_build uint16_t 0 7232 40000 = Ret (negb r)) ∧
  (2 * (40000 - 7232) = modulus uint16_t 0 → @AheadOf debug_build uint16_t 0 40000 7232 = Ret true).
Proof.
  assert (mod_params uint16_t 0) as HT by (repeat split; vm_compute; congruence).
  split; [done|]. apply (@ahead_of_total debug_build uint16_t 0 40000 7232); first done;
  vm_compute; split; congruence.
Defined.

(** The position of [x] in the window of numbers that starts at [base]. *)
Definition window (N base x : Z) : Z := (x - base) mod N.

Lemma ahead_spec_window N base a b :
  0 < N → 0 ≤ a < N → 0 ≤ b < N →
  - N < 2 * (window N base a - window N base b) < N →
  (a ≠ b ∧ ahead_spec N a b = true) ↔ window N base b < window N base a.
Proof.
  intros HN Ha Hb. unfold window. intros Hw.
  pose proof (Z.mod_pos_bound (a - base) N HN). pose proof (Z.mod_pos_bound (b - base) N HN).
  set (wa := (a - base) mod N) in *. set (wb := (b - base) mod N) in *.
  assert ((a - b) mod N = (wa - wb) mod N) as Hab.
  { unfold wa, wb. rewrite <-Zminus_mod. f_equal. lia. }
  unfold ahead_spec. rewrite Hab.
  assert (a = b ↔ wa = wb) as Hiff.
  { split; [by unfold wa, wb; intros ->|]. intros E. rewrite E, Z.sub_diag, Z.mod_0_l in Hab by lia.
    destruct (mod_opposite N a b) as [?|[?|?]]; lia. }
  destruct (mod_opposite N wa wb) as [(?&_&->)|[(?&_&->)|(?&_&->)]]; [lia..| | |];
    repeat zcase; intuition (try lia; try congruence).
Qed.

(** the comparators of the header order sequence numbers consistently as
    long as the numbers compared span less than half the modulus: with
    [window] the position in the span, [DescendingSeqNumComp(a, b)] holds iff
    [a] is at the earlier position and [AscendingSeqNumComp(a, b)] iff [a] is
    at the later one, so a container ordered by [AscendingSeqNumComp] holds
    the newest number first. *)
Theorem seqnum_comparators_order_window `{BuildMode} (T : int_type) (M base a b : Z) :
  mod_params T M → 0 ≤ a < modulus T M → 0 ≤ b < modulus T M →
  - modulus T M < 2 * (window (modulus T M) base a - window (modulus T M) base b) < modulus T M →
  DescendingSeqNumComp T M a b = Ret (window (modulus T M) base a <? window (modulus T M) base b) ∧
  AscendingSeqNumComp T M a b = Ret (window (modulus T M) base b <? window (modulus T M) base a).
Proof.
  intros HT Ha Hb Hw. pose proof (modulus_range T M HT).
  unfold DescendingSeqNumComp, AscendingSeqNumComp, AheadOf.
  rewrite !AheadOrAt_spec by done.
  pose proof (ahead_spec_window (modulus T M) base a b ltac:(lia) Ha Hb ltac:(lia)) as H1.
  pose proof (ahead_spec_window (modulus T M) base b a ltac:(lia) Hb Ha ltac:(lia)) as H2.
  destruct (ahead_spec _ a b), (ahead_spec _ b a);
    repeat zcase; split; f_equal; intuition (try lia; try congruence).
Qed.

Lemma seqnum_comparators_order_window_witness :
  mod_params uint16_t 0 ∧
  @DescendingSeqNumComp release_build uint16_t 0 65530 3 =
    Ret (window (modulus uint16_t 0) 65000 65530 <? window (modulus uint16_t 0) 65000 3) ∧
  @AscendingSeqNumComp release_build uint16_t 0 65530 3 =
    Ret (window (modulus uint16_t 0) 65000 3 <? window (modulus uint16_t 0) 65000 65530).
Proof.
  assert (mod_params uint16_t 0) as HT by (repeat split; vm_compute; congruence).
  split; [done|]. apply (@seqnum_comparators_order_window release_build uint16_t 0 65000 65530 3);
  first done; vm_compute; split; congruence.
Defined.

(** one call of [SeqNumUnwrapper::Unwrap] moves to the position nearest
    to the previous one that is congruent to the received number: the result
    is congruent to it modulo the wrapping value and at most half the wrapping
    value away, and the state remembers both. *)
Theorem seqnum_unwrap_nearest `{BuildMode} (T : int_type) (M last u v : Z) :
  mod_params T M → it_bits T < 63 →
  0 ≤ last < modulus T M → 0 ≤ v < modulus T M → u mod modulus T M = last →
  - 2 ^ 62 ≤ u ≤ 2 ^ 62 →
  ∃ r, Unwrap T M (seen last u) v = Ret (seen v r, r) ∧
       r mod modulus T M = v ∧ - modulus T M ≤ 2 * (r - u) ≤ modulus T M.
Proof.
  intros HT Hw Hl Hv Hu Hr. pose proof (modulus_range T M HT) as HN.
  pose proof HT as [[_ Hb] _].
  assert (2 ^ it_bits T ≤ 2 ^ 62) by (apply Z.pow_le_mono_r; lia).
  pose proof (step_to_nearest (modulus T M) last v ltac:(lia) Hl Hv).
  pose proof (Z.mod_pos_bound (v - last) (modulus T M) ltac:(lia)).
  exists (u + step_to (modulus T M) last v). split_and!; [| |lia..].
  - apply Unwrap_next; try done; unfold values, int_min, int_max; simpl; lia.
  - rewrite <-Zplus_mod_idemp_l, Hu, step_to_congr by lia. by apply Z.mod_small.
Qed.

Lemma seqnum_unwrap_nearest_witness :
  mod_params uint16_t 0 ∧
  ∃ r, @Unwrap debug_build uint16_t 0 (seen 2 65538) 65535 = Ret (seen 65535 r, r) ∧
       r mod modulus uint16_t 0 = 65535 ∧ - modulus uint16_t 0 ≤ 2 * (r - 65538) ≤ modulus uint16_t 0.
Proof.
  assert (mod_params uint16_t 0) as HT by (repeat split; vm_compute; congruence).
  split; [done|]. apply (@seqnum_unwrap_nearest debug_build uint16_t 0 2 65538 65535);
  first done; vm_compute; try split; try congruence.
Defined.

(** Consecutive positions of a stream less than half the modulus apart. *)
Fixpoint small_steps (N x : Z) (xs : list Z) : Prop :=
  match xs with
  | [] => True
  | y :: ys => - N < 2 * (y - x) < N ∧ small_steps N y ys
  end.

Lemma unwrap_all_seen `{BuildMode} T M c x xs :
  mod_params T M → it_bits T < 63 → c mod modulus T M = 0 →
  - 2 ^ 62 ≤ x + c ≤ 2 ^ 62 → Forall (λ y, - 2 ^ 62 ≤ y + c ≤ 2 ^ 62) xs →
  small_steps (modulus T M) x xs →
  unwrap_all T M (seen (x mod modulus T M) (x + c)) ((λ y, y mod modulus T M) <$> xs)
    = Ret ((λ y, y + c) <$> xs).
Proof.
  intros HT Hw Hc. pose proof (modulus_range T M HT) as HN. pose proof HT as [[_ Hb] _].
  assert (2 ^ it_bits T ≤ 2 ^ 62) by (apply Z.pow_le_mono_r; lia).
  revert x. induction xs as [|y ys IH]; intros x Hx Hall Hs; [done|].
  apply Forall_cons_1 in Hall as [Hy Hys]. destruct Hs as [Hxy Hs]. cbn [fmap list_fmap unwrap_all].
  pose proof (Z.mod_pos_bound x (modulus T M) ltac:(lia)).
  pose proof (Z.mod_pos_bound y (modulus T M) ltac:(lia)).
  pose proof (Z.mod_pos_bound (y mod modulus T M - x mod modulus T M) (modulus T M) ltac:(lia)).
  assert (step_to (modulus T M) (x mod modulus T M) (y mod modulus T M) = y - x) as Hst.
  { apply step_to_exact; [lia..| |lia]. rewrite Zplus_mod_idemp_l. f_equal. lia. }
  rewrite Unwrap_next; try done; rewrite ?Hst; unfold values, int_min, int_max; simpl; try lia.
  replace (x + c + (y - x)) with (y + c) by lia.
  fold (fmap (M:=list) (λ y : Z, y mod modulus T M) ys).
  by rewrite IH by done.
Qed.

(** C5: a [SeqNumUnwrapper] that receives a stream of wrapping numbers
    [x mod N] whose true positions [x] move by less than half of [N] between
    consecutive packets, in either direction and over any number of
    wrap-arounds, returns exactly the true positions, shifted so that the
    first one equals the first number received. *)
Theorem seqnum_unwrapper_recovers `{BuildMode} (T : int_type) (M x0 : Z) (xs : list Z) :
  mod_params T M → it_bits T < 63 →
  small_steps (modulus T M) x0 xs →
  Forall (λ y, - 2 ^ 62 ≤ y - x0 + x0 mod modulus T M ≤ 2 ^ 62) xs →
  unwrap_all T M SeqNumUnwrapper_init ((λ y, y mod modulus T M) <$> (x0 :: xs))
    = Ret ((λ y, y - x0 + x0 mod modulus T M) <$> (x0 :: xs)).
Proof.
  intros HT Hw Hs Hall. pose proof (modulus_range T M HT) as HN. pose proof HT as [[_ Hb] _].
  assert (2 ^ it_bits T ≤ 2 ^ 62) by (apply Z.pow_le_mono_r; lia).
  pose proof (Z.mod_pos_bound x0 (modulus T M) ltac:(lia)).
  set (c := x0 mod modulus T M - x0).
  assert (c mod modulus T M = 0) as Hc.
  { unfold c. rewrite Zminus_mod_idemp_l, Z.sub_diag. apply Z.mod_0_l. lia. }
  cbn [fmap list_fmap unwrap_all]. rewrite Unwrap_first, bind_ret by done.
  pose proof (unwrap_all_seen T M c x0 xs HT Hw Hc) as HR.
  replace (x0 + c) with (x0 mod modulus T M) in HR by (unfold c; lia).
  fold (fmap (M:=list) (λ y : Z, y mod modulus T M) xs).
  rewrite HR, bind_ret; [|lia| |done]; cycle 1.
  { eapply Forall_impl; [|exact Hall]. unfold c; simpl; intros; lia. }
  rewrite Z.sub_diag, Z.add_0_l. do 2 f_equal.
  apply list_fmap_ext. intros i y _. unfold c. lia.
Qed.

Lemma seqnum_unwrapper_recovers_witness :
  @unwrap_all debug_build uint8_t 0 SeqNumUnwrapper_init
    ((λ y, y mod modulus uint8_t 0) <$> [250; 300; 420; 330; 450; 512]) =
  Ret ((λ y, y - 250 + 250 mod modulus uint8_t 0) <$> [250; 300; 420; 330; 450; 512]).
Proof.
  apply (@seqnum_unwrapper_recovers debug_build uint8_t 0 250 [300; 420; 330; 450; 512]).
  - repeat split; vm_compute; congruence.
  - done.
  - repeat split; vm_compute; reflexivity.
  - repeat constructor; vm_compute; congruence.
Defined.
