(* ===== verification/Unwrapper.v ===== *)
(** * Newer-than tests and unwrapping to non-negative positions

    Model of [src/include/modules/include/module_common_types_public.h]:
    [IsNewer] with its instances for sequence numbers and timestamps, and the
    [Unwrapper] class, which keeps only the last unwrapped value and never
    unwraps below zero. *)

From S2P Require Import Prelude ModOps SeqNum.

(** [kBreakpoint]: half way through the values of [U]. *)
Definition kBreakpoint (U : int_type) : Z := Z.shiftr (int_max U) 1 + 1.

Definition IsNewer (U : int_type) (value prev_value : Z) : outcome bool :=
  d ← arith (promote U) (value - prev_value);
  if d =? kBreakpoint U then Ret (value >? prev_value)
  else Ret (negb (value =? prev_value) && (convert U d <? kBreakpoint U)).

(** The state of an [Unwrapper<U>] is its optional [last_value_]. *)
Definition kMaxPlusOne (U : int_type) : outcome Z := arith int64_t (int_max U + 1).

Definition UnwrapWithoutUpdate (U : int_type) (last_value : option Z) (value : Z)
    : outcome Z :=
  match last_value with
  | None => Ret (convert int64_t value)
  | Some last =>
      maxp1 ← kMaxPlusOne U;
      let cropped_last := convert U last in
      d ← arith (promote U) (value - cropped_last);
      let delta := convert int64_t d in
      newer ← IsNewer U value cropped_last;
      delta' ←
        (if newer : bool then
           if delta <? 0 then arith int64_t (delta + maxp1) else Ret delta
         else if delta >? 0 then
           s ← arith int64_t (last + delta);
           r ← arith int64_t (s - maxp1);
           if r >=? 0 then arith int64_t (delta - maxp1) else Ret delta
         else Ret delta);
      arith int64_t (last + delta')
  end.

Definition UpdateLast (last_value : Z) : option Z := Some last_value.

Definition Unwrapper_Unwrap (U : int_type) (last_value : option Z) (value : Z)
    : outcome (option Z * Z) :=
  unwrapped ← UnwrapWithoutUpdate U last_value value;
  Ret (UpdateLast unwrapped, unwrapped).

Definition IsNewerSequenceNumber (sequence_number prev_sequence_number : Z) : outcome bool :=
  IsNewer uint16_t sequence_number prev_sequence_number.

Definition IsNewerTimestamp (timestamp prev_timestamp : Z) : outcome bool :=
  IsNewer uint32_t timestamp prev_timestamp.

Definition LatestSequenceNumber (sequence_number1 sequence_number2 : Z) : outcome Z :=
  newer ← IsNewerSequenceNumber sequence_number1 sequence_number2;
  Ret (if newer : bool then sequence_number1 else sequence_number2).

Definition LatestTimestamp (timestamp1 timestamp2 : Z) : outcome Z :=
  newer ← IsNewerTimestamp timestamp1 timestamp2;
  Ret (if newer : bool then timestamp1 else timestamp2).

(** ** Lemmas *)

Definition fits32 (U : int_type) : Prop := unsigned_type U ∧ it_bits U ≤ 32.

Lemma fits32_params U : fits32 U → mod_params U 0.
Proof. intros [HU _]. split; [done|]. pose proof (pow2_pos (it_bits U)). destruct HU. lia. Qed.

Lemma fits32_bound U : fits32 U → 0 < 2 ^ it_bits U ≤ 2 ^ 32.
Proof.
  intros [[_ ?] ?]. pose proof (pow2_pos (it_bits U)).
  pose proof (Z.pow_le_mono_r 2 (it_bits U) 32). lia.
Qed.

Lemma kBreakpoint_spec U : unsigned_type U → kBreakpoint U = 2 ^ (it_bits U - 1).
Proof.
  intros HU. unfold kBreakpoint. rewrite Z.shiftr_div_pow2 by lia. by apply int_max_half.
Qed.

Lemma kMaxPlusOne_spec U : fits32 U → kMaxPlusOne U = Ret (2 ^ it_bits U).
Proof.
  intros HU. pose proof (fits32_bound U HU). destruct HU as [[Hs Hb] _].
  unfold kMaxPlusOne, int_max. rewrite Hs.
  rewrite arith_in_range; [f_equal; lia|done|].
  unfold values, int_min, int_max; simpl. lia.
Qed.

(** [IsNewer] is the order of [AheadOf], written on its own. *)
Lemma IsNewer_spec U a b :
  unsigned_type U → 0 ≤ a < 2 ^ it_bits U → 0 ≤ b < 2 ^ it_bits U →
  IsNewer U a b = Ret (negb (a =? b) && ahead_spec (2 ^ it_bits U) a b).
Proof.
  intros HU Ha Hb. pose proof HU as [Hs Hbits].
  pose proof (pow2_half (it_bits U) Hbits). unfold IsNewer. rewrite kBreakpoint_spec by done.
  destruct (arith_promote_unsigned U (a - b) HU ltac:(lia)) as (r & -> & Hc & Hn & Hw).
  rewrite bind_ret, Hc, Z.gtb_ltb. unfold wrapU in *. set (W := 2 ^ it_bits U) in *.
  unfold ahead_spec.
  destruct (mod_opposite W a b) as [(->&_&He)|[(?&_&He)|(?&_&He)]]; [lia..| | |];
    rewrite He; destruct (Z.lt_ge_cases (it_bits U) 32) as [Hlt|Hge];
    try rewrite (Hn Hlt); try (rewrite (Hw Hge), He);
    repeat zcase; simpl; try lia; f_equal; lia.
Qed.

(** The signed distance the [Unwrapper] walks: that of [SeqNumUnwrapper],
    except that it does not cross zero backwards. *)
Definition unwrapper_step (N last v : Z) : Z :=
  let s := step_to N (last mod N) v in
  if last + s <? 0 then s + N else s.

Lemma step_to_cases N c v :
  0 < N → 0 ≤ c < N → 0 ≤ v < N →
  let newer := negb (v =? c) && ahead_spec N v c in
  (v = c ∧ newer = false ∧ step_to N c v = 0)
  ∨ (c < v ∧ (v - c) mod N = v - c ∧
      (newer = true ∧ step_to N c v = v - c ∨ newer = false ∧ step_to N c v = v - c - N))
  ∨ (v < c ∧ (v - c) mod N = v - c + N ∧
      (newer = true ∧ step_to N c v = v - c + N ∨ newer = false ∧ step_to N c v = v - c)).
Proof.
  intros HN Hc Hv. unfold step_to, ahead_spec.
  destruct (mod_opposite N c v) as [(->&_&_)|[(?&->&_)|(?&->&_)]]; [lia..| | |].
  - left. rewrite Z.sub_diag, Z.mod_0_l, Z.eqb_refl by lia. simpl negb. repeat zcase; lia.
  - right; left. repeat zcase; simpl; lia.
  - right; right. repeat zcase; simpl; lia.
Qed.

Lemma arith_int64 z : - 2 ^ 63 ≤ z < 2 ^ 63 → arith int64_t z = Ret z.
Proof. intros. apply arith_in_range; [done|]. unfold values, int_min, int_max; simpl. lia. Qed.

(** Executes 64-bit arithmetic whose operands are known to be small. *)
Ltac run64 :=
  repeat first [ rewrite arith_int64 by lia | rewrite bind_ret | zcase; try lia ].

Lemma UnwrapWithoutUpdate_spec U last v :
  fits32 U → 0 ≤ v < 2 ^ it_bits U → 0 ≤ last ≤ 2 ^ 62 →
  UnwrapWithoutUpdate U (Some last) v = Ret (last + unwrapper_step (2 ^ it_bits U) last v).
Proof.
  intros HU Hv Hl. pose proof (fits32_bound U HU) as HN. pose proof HU as [HU1 _].
  pose proof HU1 as [Hs Hbits]. unfold UnwrapWithoutUpdate.
  rewrite kMaxPlusOne_spec, bind_ret by done. set (N := 2 ^ it_bits U) in *.
  assert (convert U last = last mod N) as -> by (unfold convert; by rewrite Hs).
  pose proof (Z.mod_pos_bound last N ltac:(lia)) as Hm.
  assert (last mod N = last ∨ last mod N + N ≤ last) as Hbig.
  { destruct (Z.lt_ge_cases last N); [left; apply Z.mod_small; lia|right].
    rewrite Z.mod_eq by lia. pose proof (Z.div_le_lower_bound last N 1). nia. }
  unfold unwrapper_step. set (c := last mod N) in *.
  destruct (arith_promote_unsigned U (v - c) HU1 ltac:(fold N; lia)) as (r & -> & _ & Hn & Hw).
  assert (r = v - c ∨ r = (v - c) mod N) as Hr.
  { destruct (Z.lt_ge_cases (it_bits U) 32); auto. }
  clear Hn Hw. rewrite bind_ret, IsNewer_spec, bind_ret by done. fold N.
  pose proof (Z.mod_pos_bound (v - c) N ltac:(lia)).
  rewrite (convert_in_range int64_t r); [|done|unfold values, int_min, int_max; simpl; lia].
  assert (v = c → (v - c) mod N = 0) by (intros ->; rewrite Z.sub_diag; apply Z.mod_0_l; lia).
  pose proof (step_to_cases N c v ltac:(lia) Hm Hv) as Hcases. cbv zeta in Hcases.
  destruct Hcases as [(?&->&->)|[(?&?&[[-> ->]|[-> ->]])|(?&?&[[-> ->]|[-> ->]])]];
    run64; f_equal; lia.
Qed.

(** A run of [Unwrap] over a stream of received values. *)
Fixpoint unwrapper_run (U : int_type) (last_value : option Z) (vs : list Z)
    : outcome (list Z) :=
  match vs with
  | [] => Ret []
  | v :: vs' =>
      '(last', u) ← Unwrapper_Unwrap U last_value v;
      us ← unwrapper_run U last' vs';
      Ret (u :: us)
  end.

Lemma unwrapper_step_range N last v :
  0 < N → 0 ≤ last → 0 ≤ v < N →
  let r := last + unwrapper_step N last v in
  0 ≤ r ≤ last + N ∧ r mod N = v.
Proof.
  intros HN Hl Hv. unfold unwrapper_step.
  pose proof (Z.mod_pos_bound last N HN) as Hm.
  pose proof (Z.mod_le last N ltac:(lia) ltac:(lia)).
  pose proof (step_to_nearest N (last mod N) v HN Hm Hv).
  pose proof (step_to_congr N (last mod N) v HN) as Hc.
  rewrite Zplus_mod_idemp_l, (Z.mod_small v) in Hc by lia.
  set (s := step_to N (last mod N) v) in *. cbv zeta. zcase; split; [lia| |lia|done].
  by replace (last + (s + N)) with (last + s + 1 * N) by lia; rewrite Z.mod_add by lia.
Qed.

Lemma Unwrapper_first U v :
  fits32 U → 0 ≤ v < 2 ^ it_bits U → Unwrapper_Unwrap U None v = Ret (Some v, v).
Proof.
  intros HU Hv. pose proof (fits32_bound U HU). unfold Unwrapper_Unwrap; simpl.
  by rewrite convert_in_range; [|done|unfold values, int_min, int_max; simpl; lia].
Qed.

Lemma Unwrapper_next U last v :
  fits32 U → 0 ≤ v < 2 ^ it_bits U → 0 ≤ last ≤ 2 ^ 62 →
  let r := last + unwrapper_step (2 ^ it_bits U) last v in
  Unwrapper_Unwrap U (Some last) v = Ret (Some r, r).
Proof. intros. unfold Unwrapper_Unwrap. by rewrite UnwrapWithoutUpdate_spec. Qed.

(** ** Properties *)

(** [IsNewer], written with its own break point arithmetic in
    module_common_types_public.h, is the same relation as [AheadOf] of
    sequence_number_util.h at the width of the type. *)
Theorem isnewer_is_aheadof `{BuildMode} (U : int_type) (a b : Z) :
  unsigned_type U → 0 ≤ a < 2 ^ it_bits U → 0 ≤ b < 2 ^ it_bits U →
  IsNewer U a b = AheadOf U 0 a b.
Proof.
  intros HU Ha Hb. rewrite IsNewer_spec by done. unfold AheadOf.
  rewrite AheadOrAt_spec by (split; [done|]; destruct HU; pose proof (pow2_pos (it_bits U)); lia) || done.
  change (modulus U 0) with (2 ^ it_bits U). by zcase.
Qed.

Lemma isnewer_is_aheadof_witness :
  unsigned_type uint32_t ∧ IsNewer uint32_t 5 4294967290 = @AheadOf debug_build uint32_t 0 5 4294967290.
Proof.
  assert (unsigned_type uint32_t) as HU by (split; vm_compute; congruence).
  split; [done|]. apply (@isnewer_is_aheadof debug_build uint32_t 5 4294967290);
  first done; vm_compute; split; congruence.
Defined.

(** [LatestSequenceNumber] and [LatestTimestamp] do not depend on the
    order of their arguments, return one of them, and no argument is newer
    than the result. *)
Theorem latest_symmetric (a b c d : Z) :
  0 ≤ a < 2 ^ 16 → 0 ≤ b < 2 ^ 16 → 0 ≤ c < 2 ^ 32 → 0 ≤ d < 2 ^ 32 →
  (∃ r, LatestSequenceNumber a b = Ret r ∧ LatestSequenceNumber b a = Ret r ∧
        (r = a ∨ r = b) ∧
        IsNewerSequenceNumber a r = Ret false ∧ IsNewerSequenceNumber b r = Ret false) ∧
  (∃ r, LatestTimestamp c d = Ret r ∧ LatestTimestamp d c = Ret r ∧
        (r = c ∨ r = d) ∧
        IsNewerTimestamp c r = Ret false ∧ IsNewerTimestamp d r = Ret false).
Proof.
  assert (∀ U x y, unsigned_type U → 0 ≤ x < 2 ^ it_bits U → 0 ≤ y < 2 ^ it_bits U →
    ∃ r, (IsNewer U x y ≫= λ n : bool, Ret (if n then x else y)) = Ret r ∧
         (IsNewer U y x ≫= λ n : bool, Ret (if n then y else x)) = Ret r ∧
         (r = x ∨ r = y) ∧ IsNewer U x r = Ret false ∧ IsNewer U y r = Ret false) as Hgen.
  { intros U x y HU Hx Hy. rewrite !IsNewer_spec, !bind_ret by done.
    destruct (Z.eqb_spec x y) as [->|Hne].
    - exists y. rewrite Z.eqb_refl; simpl. rewrite !IsNewer_spec, Z.eqb_refl by done. split_and!; auto.
    - rewrite (ahead_spec_cases _ y x) by lia. rewrite (proj2 (Z.eqb_neq y x)) by lia. simpl.
      destruct (ahead_spec (2 ^ it_bits U) x y) eqn:E; simpl.
      + exists x. rewrite !IsNewer_spec, Z.eqb_refl, (proj2 (Z.eqb_neq y x)) by (done || lia).
        rewrite (ahead_spec_cases _ y x), E by lia. simpl. split_and!; auto.
      + exists y. rewrite !IsNewer_spec, Z.eqb_refl, (proj2 (Z.eqb_neq x y)) by (done || lia).
        rewrite E. simpl. split_and!; auto. }
  intros Ha Hb Hc Hd. split.
  - by apply (Hgen uint16_t).
  - by apply (Hgen uint32_t).
Qed.

Lemma latest_symmetric_witness :
  (∃ r, LatestSequenceNumber 65000 12 = Ret r ∧ LatestSequenceNumber 12 65000 = Ret r ∧
        (r = 65000 ∨ r = 12) ∧
        IsNewerSequenceNumber 65000 r = Ret false ∧ IsNewerSequenceNumber 12 r = Ret false) ∧
  (∃ r, LatestTimestamp 4294967290 9 = Ret r ∧ LatestTimestamp 9 4294967290 = Ret r ∧
        (r = 4294967290 ∨ r = 9) ∧
        IsNewerTimestamp 4294967290 r = Ret false ∧ IsNewerTimestamp 9 r = Ret false).
Proof. apply (latest_symmetric 65000 12 4294967290 9); lia. Defined.

Lemma unwrapper_run_nonneg U last vs :
  fits32 U → 0 ≤ last → last + Z.of_nat (length vs) * 2 ^ 32 ≤ 2 ^ 62 →
  Forall (λ v, 0 ≤ v < 2 ^ it_bits U) vs →
  ∃ us, unwrapper_run U (Some last) vs = Ret us ∧
        Forall2 (λ v u, 0 ≤ u ∧ u mod 2 ^ it_bits U = v) vs us.
Proof.
  intros HU. pose proof (fits32_bound U HU). revert last.
  induction vs as [|v vs IH]; intros last Hl Hb Hall; [by exists []|].
  apply Forall_cons_1 in Hall as [Hv Hvs]. simpl length in Hb.
  cbn [unwrapper_run]. rewrite Unwrapper_next, bind_ret by (done || lia).
  pose proof (unwrapper_step_range (2 ^ it_bits U) last v) as Hr. cbv zeta in Hr.
  set (r := last + unwrapper_step (2 ^ it_bits U) last v) in *.
  destruct (IH r) as (us & -> & Hus); [lia..|done|].
  exists (r :: us). rewrite bind_ret. split; [done|]. constructor; [lia|done].
Qed.

(** whatever values an [Unwrapper] receives, in any order, each call
    returns: the result is never negative and is congruent to the received
    value, over a stream of up to [2 ^ 29] values (which keeps the 64-bit
    arithmetic from overflowing). *)
Theorem unwrapper_never_negative (U : int_type) (vs : list Z) :
  fits32 U → Z.of_nat (length vs) ≤ 2 ^ 29 → Forall (λ v, 0 ≤ v < 2 ^ it_bits U) vs →
  ∃ us, unwrapper_run U None vs = Ret us ∧
        Forall2 (λ v u, 0 ≤ u ∧ u mod 2 ^ it_bits U = v) vs us.
Proof.
  intros HU Hlen Hall. pose proof (fits32_bound U HU). destruct vs as [|v vs]; [by exists []|].
  apply Forall_cons_1 in Hall as [Hv Hvs]. simpl length in Hlen.
  cbn [unwrapper_run]. rewrite Unwrapper_first, bind_ret by done.
  destruct (unwrapper_run_nonneg U v vs HU) as (us & -> & Hus); [lia..|done|].
  exists (v :: us). rewrite bind_ret. split; [done|]. constructor; [|done].
  split; [lia|]. apply Z.mod_small. lia.
Qed.

Lemma unwrapper_never_negative_witness :
  ∃ us, unwrapper_run uint16_t None [3; 65530; 10; 40000; 7] = Ret us ∧
        Forall2 (λ v u, 0 ≤ u ∧ u mod 2 ^ it_bits uint16_t = v) [3; 65530; 10; 40000; 7] us.
Proof.
  apply (unwrapper_never_negative uint16_t [3; 65530; 10; 40000; 7]).
  - split; [split|]; vm_compute; congruence.
  - vm_compute; congruence.
  - repeat constructor; vm_compute; congruence.
Defined.

Lemma unwrapper_run_recovers U x xs :
  fits32 U → 0 ≤ x ≤ 2 ^ 62 → Forall (λ y, 0 ≤ y ≤ 2 ^ 62) xs →
  small_steps (2 ^ it_bits U) x xs →
  unwrapper_run U (Some x) ((λ y, y mod 2 ^ it_bits U) <$> xs) = Ret xs.
Proof.
  intros HU. pose proof (fits32_bound U HU). revert x.
  induction xs as [|y ys IH]; intros x Hx Hall Hs; [done|].
  apply Forall_cons_1 in Hall as [Hy Hys]. destruct Hs as [Hxy Hs].
  cbn [fmap list_fmap unwrapper_run].
  pose proof (Z.mod_pos_bound x (2 ^ it_bits U)). pose proof (Z.mod_pos_bound y (2 ^ it_bits U)).
  assert (x + unwrapper_step (2 ^ it_bits U) x (y mod 2 ^ it_bits U) = y) as Hst.
  { unfold unwrapper_step. rewrite (step_to_exact _ _ _ (y - x)); [zcase; lia|lia..| |lia].
    rewrite Zplus_mod_idemp_l. f_equal. lia. }
  rewrite Unwrapper_next, bind_ret by (done || lia). rewrite Hst.
  fold (fmap (M:=list) (λ y : Z, y mod 2 ^ it_bits U) ys). by rewrite IH by done.
Qed.

(** C10: an [Unwrapper] fed with the wrapped values of a stream of
    non-negative positions that starts in the first period and moves by less
    than half a period per value returns the positions themselves. *)
Theorem unwrapper_recovers (U : int_type) (x0 : Z) (xs : list Z) :
  fits32 U → 0 ≤ x0 < 2 ^ it_bits U → small_steps (2 ^ it_bits U) x0 xs →
  Forall (λ y, 0 ≤ y ≤ 2 ^ 62) xs →
  unwrapper_run U None ((λ y, y mod 2 ^ it_bits U) <$> (x0 :: xs)) = Ret (x0 :: xs).
Proof.
  intros HU Hx Hs Hall. pose proof (fits32_bound U HU). cbn [fmap list_fmap unwrapper_run].
  rewrite (Z.mod_small x0), Unwrapper_first, bind_ret by (done || lia).
  fold (fmap (M:=list) (λ y : Z, y mod 2 ^ it_bits U) xs).
  by rewrite unwrapper_run_recovers by (done || lia).
Qed.

Lemma unwrapper_recovers_witness :
  unwrapper_run uint16_t None ((λ y, y mod 2 ^ it_bits uint16_t) <$> [65000; 66000; 90000; 120000; 131080; 131070])
  = Ret [65000; 66000; 90000; 120000; 131080; 131070].
Proof.
  apply (unwrapper_recovers uint16_t 65000 [66000; 90000; 120000; 131080; 131070]).
  - split; [split|]; vm_compute; congruence.
  - vm_compute; split; congruence.
  - repeat split; vm_compute; reflexivity.
  - repeat constructor; vm_compute; congruence.
Defined.
