(* ===== verification/SafeConversions.v ===== *)
(** * Range-checked numeric conversions

    Model of [src/include/rtc_base/numerics/safe_conversions_impl.h] and
    [safe_conversions.h] for integral source and destination types (the
    branches of the templates for which [is_iec559] is false).  The
    specialisations selected by the enums of the header are the branches of
    the definitions below. *)

From S2P Require Import Prelude.

Inductive DstRange := OVERLAPS_RANGE | CONTAINS_RANGE.

Definition sizeof (t : int_type) : Z := it_bits t / 8.

(** The specialisations of [StaticRangeCheck]. *)
Definition StaticRangeCheck (Dst Src : int_type) : DstRange :=
  match it_signed Dst, it_signed Src with
  | true, true =>
      let kDstMaxExponent := sizeof Dst * 8 - 1 in
      let kSrcMaxExponent := sizeof Src * 8 - 1 in
      if kDstMaxExponent >=? kSrcMaxExponent then CONTAINS_RANGE else OVERLAPS_RANGE
  | false, false =>
      if sizeof Dst >=? sizeof Src then CONTAINS_RANGE else OVERLAPS_RANGE
  | true, false =>
      let kDstMaxExponent := sizeof Dst * 8 - 1 in
      let kSrcMaxExponent := sizeof Src * 8 in
      if kDstMaxExponent >=? kSrcMaxExponent then CONTAINS_RANGE else OVERLAPS_RANGE
  | false, true => OVERLAPS_RANGE
  end.

Inductive RangeCheckResult := TYPE_VALID | TYPE_UNDERFLOW | TYPE_OVERFLOW | TYPE_INVALID.

#[global] Instance RangeCheckResult_eq_dec : EqDecision RangeCheckResult.
Proof. solve_decision. Defined.

(** The enumerator with the given value. *)
Definition RangeCheckResult_of_Z (z : Z) : RangeCheckResult :=
  if z =? 0 then TYPE_VALID else if z =? 1 then TYPE_UNDERFLOW
  else if z =? 2 then TYPE_OVERFLOW else TYPE_INVALID.

Definition BASE_NUMERIC_RANGE_CHECK_RESULT (is_in_upper_bound is_in_lower_bound : bool)
    : RangeCheckResult :=
  RangeCheckResult_of_Z
    (Z.lor (if is_in_upper_bound then 0 else 2) (if is_in_lower_bound then 0 else 1)).

(** The specialisations of [RangeCheckImpl::Check]. *)
Definition RangeCheckImpl_Check (Dst Src : int_type) (value : Z) : RangeCheckResult :=
  match StaticRangeCheck Dst Src with
  | CONTAINS_RANGE => TYPE_VALID
  | OVERLAPS_RANGE =>
      match it_signed Dst, it_signed Src with
      | true, true =>
          BASE_NUMERIC_RANGE_CHECK_RESULT
            (value <=? convert Src (int_max Dst)) (value >=? convert Src (int_min Dst))
      | false, false =>
          BASE_NUMERIC_RANGE_CHECK_RESULT (value <=? convert Src (int_max Dst)) true
      | true, false =>
          if sizeof Dst >? sizeof Src then TYPE_VALID
          else BASE_NUMERIC_RANGE_CHECK_RESULT (value <=? convert Src (int_max Dst)) true
      | false, true =>
          let DstMaxExponent := sizeof Dst * 8 in
          let SrcMaxExponent := sizeof Src * 8 - 1 in
          if DstMaxExponent >=? SrcMaxExponent
          then BASE_NUMERIC_RANGE_CHECK_RESULT true (value >=? convert Src 0)
          else BASE_NUMERIC_RANGE_CHECK_RESULT
                 (value <=? convert Src (int_max Dst)) (value >=? convert Src 0)
      end
  end.

Definition RangeCheck (Dst Src : int_type) (value : Z) : RangeCheckResult :=
  RangeCheckImpl_Check Dst Src value.

Definition IsValueInRangeForNumericType (Dst Src : int_type) (value : Z) : bool :=
  bool_decide (RangeCheck Dst Src value = TYPE_VALID).

Definition checked_cast (Dst Src : int_type) (value : Z) : outcome Z :=
  RTC_CHECK (IsValueInRangeForNumericType Dst Src value) ≫= λ _,
  Ret (convert Dst value).

Definition dchecked_cast `{BuildMode} (Dst Src : int_type) (value : Z) : outcome Z :=
  RTC_DCHECK (IsValueInRangeForNumericType Dst Src value) ≫= λ _,
  Ret (convert Dst value).

(** [RTC_CHECK_NOTREACHED] stops the program. *)
Definition saturated_cast (Dst Src : int_type) (value : Z) : outcome Z :=
  match RangeCheck Dst Src value with
  | TYPE_VALID => Ret (convert Dst value)
  | TYPE_UNDERFLOW => Ret (int_min Dst)
  | TYPE_OVERFLOW => Ret (int_max Dst)
  | TYPE_INVALID => Crash CheckFailed
  end.

(** ** Specification *)

(** A type whose size is a positive whole number of bytes. *)
Definition byte_sized (t : int_type) : Prop := 0 < sizeof t ∧ it_bits t = sizeof t * 8.

Lemma byte_sized_bits t : byte_sized t → 8 ≤ it_bits t.
Proof. unfold byte_sized. lia. Qed.

Lemma int_bounds_order t : byte_sized t → int_min t ≤ 0 < int_max t.
Proof.
  intros Ht%byte_sized_bits. unfold int_min, int_max.
  pose proof (Z.pow_le_mono_r 2 7 (it_bits t - 1)). pose proof (Z.pow_le_mono_r 2 8 (it_bits t)).
  destruct (it_signed t); lia.
Qed.

(** The enumerator that describes where [v] lies. *)
Definition range_spec (Dst : int_type) (v : Z) : RangeCheckResult :=
  if v <? int_min Dst then TYPE_UNDERFLOW
  else if int_max Dst <? v then TYPE_OVERFLOW else TYPE_VALID.

Lemma range_check_result_spec (Dst : int_type) (v : Z) (up low : bool) :
  int_min Dst ≤ int_max Dst →
  (up = true ↔ v ≤ int_max Dst) → (low = true ↔ int_min Dst ≤ v) →
  BASE_NUMERIC_RANGE_CHECK_RESULT up low = range_spec Dst v.
Proof.
  intros Hb Hu Hl. unfold range_spec.
  destruct up, low; cbn; repeat zcase; try done; exfalso; intuition lia.
Qed.

Lemma pow_bits_le (a b : Z) : 0 ≤ a ≤ b → 2 ^ a ≤ 2 ^ b.
Proof. intros. apply Z.pow_le_mono_r; lia. Qed.

(** Facts on the powers of two that bound the two types. *)
Ltac pow_facts Dst Src :=
  pose proof (pow_bits_le (it_bits Dst - 1) (it_bits Src - 1));
  pose proof (pow_bits_le (it_bits Src - 1) (it_bits Dst - 1));
  pose proof (pow_bits_le (it_bits Dst) (it_bits Src));
  pose proof (pow_bits_le (it_bits Src) (it_bits Dst));
  pose proof (pow_bits_le (it_bits Dst) (it_bits Src - 1));
  pose proof (pow_bits_le (it_bits Src) (it_bits Dst - 1));
  pose proof (pow_bits_le (it_bits Dst - 1) (it_bits Src));
  pose proof (pow_bits_le (it_bits Src - 1) (it_bits Dst)).

Lemma StaticRangeCheck_contains Dst Src v :
  byte_sized Dst → byte_sized Src →
  StaticRangeCheck Dst Src = CONTAINS_RANGE → values Src v → values Dst v.
Proof.
  intros HD HS. pose proof (byte_sized_bits _ HD). pose proof (byte_sized_bits _ HS).
  destruct HD as [_ HD], HS as [_ HS]. pow_facts Dst Src.
  unfold StaticRangeCheck, values, int_min, int_max.
  destruct (it_signed Dst), (it_signed Src); rewrite ?Z.geb_leb; try zcase; (done || lia).
Qed.

(** Where the ranges overlap, the bounds the code casts to [Src] are values of
    [Src]. *)
Lemma StaticRangeCheck_overlaps Dst Src :
  byte_sized Dst → byte_sized Src → StaticRangeCheck Dst Src = OVERLAPS_RANGE →
  match it_signed Dst, it_signed Src with
  | true, true => values Src (int_max Dst) ∧ values Src (int_min Dst)
  | true, false => sizeof Dst ≤ sizeof Src ∧ values Src (int_max Dst)
  | false, false => values Src (int_max Dst)
  | false, true =>
      if sizeof Dst * 8 >=? sizeof Src * 8 - 1 then int_max Src ≤ int_max Dst
      else values Src (int_max Dst)
  end.
Proof.
  intros HD HS. pose proof (byte_sized_bits _ HD). pose proof (byte_sized_bits _ HS).
  pose proof (int_bounds_order _ HD). pose proof (int_bounds_order _ HS).
  destruct HD as [_ HD], HS as [_ HS]. pow_facts Dst Src.
  unfold StaticRangeCheck, values, int_min, int_max in *.
  destruct (it_signed Dst), (it_signed Src); rewrite ?Z.geb_leb; try zcase; (done || lia).
Qed.

Lemma RangeCheck_spec Dst Src v :
  byte_sized Dst → byte_sized Src → values Src v →
  RangeCheck Dst Src v = range_spec Dst v.
Proof.
  intros HD HS Hv. pose proof (int_bounds_order Dst HD). pose proof (int_bounds_order Src HS).
  pose proof (byte_sized_bits _ HD). pose proof (byte_sized_bits _ HS).
  unfold RangeCheck, RangeCheckImpl_Check. destruct (StaticRangeCheck Dst Src) eqn:E.
  - pose proof (StaticRangeCheck_overlaps Dst Src HD HS E) as Ho.
    assert (it_signed Src = true → values Src 0) as Hz by (unfold values; lia).
    assert (it_signed Dst = false → int_min Dst = 0) as Hd0 by (unfold int_min; by intros ->).
    assert (it_signed Src = false → int_min Src = 0) as Hs0 by (unfold int_min; by intros ->).
    unfold values in Hv.
    destruct (it_signed Dst) eqn:ED, (it_signed Src) eqn:ES; rewrite ?Z.gtb_ltb;
      try specialize (Hz eq_refl); try specialize (Hd0 eq_refl); try specialize (Hs0 eq_refl).
    + destruct Ho. rewrite !convert_in_range by (done || lia). apply range_check_result_spec; lia.
    + destruct Ho. rewrite convert_in_range, (proj2 (Z.ltb_ge (sizeof Src) (sizeof Dst))) by (done || lia).
      apply range_check_result_spec; lia.
    + rewrite (convert_in_range Src 0) by (auto || lia). destruct (_ >=? _) eqn:Eg.
      * apply range_check_result_spec; rewrite ?Z.geb_leb, ?Z.leb_le; lia.
      * rewrite convert_in_range by (done || lia).
        apply range_check_result_spec; rewrite ?Z.geb_leb, ?Z.leb_le; lia.
    + rewrite convert_in_range by (done || lia). apply range_check_result_spec; lia.
  - pose proof (StaticRangeCheck_contains Dst Src v HD HS E Hv).
    unfold range_spec, values in *. repeat zcase; (done || lia).
Qed.

Lemma in_range_check Dst Src v :
  byte_sized Dst → byte_sized Src → values Src v →
  IsValueInRangeForNumericType Dst Src v = in_range Dst v.
Proof.
  intros HD HS Hv. pose proof (int_bounds_order Dst HD).
  unfold IsValueInRangeForNumericType. rewrite RangeCheck_spec by done.
  unfold range_spec, in_range. repeat zcase; simpl; (done || lia).
Qed.

(** ** Properties *)

(** for every pair of integer types [RangeCheck] places the value exactly:
    [TYPE_VALID] iff the destination type has it, [TYPE_UNDERFLOW] iff it is
    below its least value and [TYPE_OVERFLOW] iff it is above its greatest one
    (never [TYPE_INVALID]); so [saturated_cast] returns the nearest value of
    the destination type, and [checked_cast] returns the value unchanged or
    stops the program. *)
Theorem safe_casts_correct (Dst Src : int_type) (v : Z) :
  byte_sized Dst → byte_sized Src → values Src v →
  (RangeCheck Dst Src v = TYPE_VALID ↔ values Dst v) ∧
  (RangeCheck Dst Src v = TYPE_UNDERFLOW ↔ v < int_min Dst) ∧
  (RangeCheck Dst Src v = TYPE_OVERFLOW ↔ int_max Dst < v) ∧
  saturated_cast Dst Src v = Ret (Z.max (int_min Dst) (Z.min v (int_max Dst))) ∧
  checked_cast Dst Src v = (if in_range Dst v then Ret v else Crash CheckFailed).
Proof.
  intros HD HS Hv. pose proof (int_bounds_order Dst HD). pose proof (byte_sized_bits _ HD).
  unfold saturated_cast, checked_cast. rewrite in_range_check, !RangeCheck_spec by done.
  unfold range_spec, in_range, values.
  destruct (Z.ltb_spec v (int_min Dst)), (Z.ltb_spec (int_max Dst) v),
    (Z.leb_spec (int_min Dst) v), (Z.leb_spec v (int_max Dst)); try lia; simpl;
    (split_and!; [split; (done || lia).. | |]);
    rewrite ?convert_in_range by (unfold values; lia); (done || (f_equal; lia)).
Qed.

Lemma safe_casts_correct_witness :
  (RangeCheck uint8_t int16_t 300 = TYPE_VALID ↔ values uint8_t 300) ∧
  (RangeCheck uint8_t int16_t 300 = TYPE_UNDERFLOW ↔ 300 < int_min uint8_t) ∧
  (RangeCheck uint8_t int16_t 300 = TYPE_OVERFLOW ↔ int_max uint8_t < 300) ∧
  saturated_cast uint8_t int16_t 300 = Ret (Z.max (int_min uint8_t) (Z.min 300 (int_max uint8_t))) ∧
  checked_cast uint8_t int16_t 300 = (if in_range uint8_t 300 then Ret 300 else Crash CheckFailed).
Proof.
  apply (safe_casts_correct uint8_t int16_t 300); vm_compute; split; congruence.
Defined.
