(* ===== verification/SafeMinMax.v ===== *)
(** * Comparison, minimum, maximum and clamping of mixed integer types

    Model of [src/include/rtc_base/numerics/safe_compare.h] and
    [safe_minmax.h] for integral types.  What the headers compute at compile
    time (the larger type of a comparison, the return types of [SafeMin],
    [SafeMax] and [SafeClamp]) is computed here by functions on [int_type];
    a [static_assert] is a boolean that the theorems prove or assume. *)

From S2P Require Import Prelude SafeConversions.

(** The size of a pointer, which steers the choice of types. *)
Class Target := { sizeof_ptr : Z }.

Section SafeCompare.
Context {tgt : Target}.

Definition LargerIntImpl (N : Z) : option int_type :=
  if N =? 1 then Some int16_t else if N =? 2 then Some int32_t
  else if N =? 4 then Some int64_t else None.

Definition LargerInt (T1 T2 : int_type) : option int_type :=
  LargerIntImpl
    (if (sizeof T1 <? sizeof T2) || (sizeof T1 <? sizeof_ptr) then sizeof T1 else 0).

Definition MakeUnsigned (T : int_type) (a : Z) : Z := convert (make_unsigned T) a.

Inductive CmpOp := EqOp | NeOp | LtOp | LeOp | GtOp | GeOp.

Definition op_denote (op : CmpOp) (a b : Z) : bool :=
  match op with
  | EqOp => a =? b | NeOp => negb (a =? b) | LtOp => a <? b
  | LeOp => a <=? b | GtOp => a >? b | GeOp => a >=? b
  end.

(** [a op b] of operands of types [T1] and [T2]. *)
Definition Op (op : CmpOp) (T1 T2 : int_type) (a b : Z) : bool :=
  let C := common_type (promote T1) (promote T2) in
  op_denote op (convert C a) (convert C b).

(** The five overloads of [Cmp]. *)
Definition Cmp (op : CmpOp) (T1 T2 : int_type) (a b : Z) : bool :=
  match it_signed T1, it_signed T2 with
  | true, true | false, false => Op op T1 T2 a b
  | true, false =>
      match LargerInt T2 T1 with
      | Some L => Op op T1 L a (convert L b)
      | None => if a <? 0 then Op op int32_t int32_t (-1) 0
                else Op op (make_unsigned T1) T2 (MakeUnsigned T1 a) b
      end
  | false, true =>
      match LargerInt T1 T2 with
      | Some L => Op op L T2 (convert L a) b
      | None => if b <? 0 then Op op int32_t int32_t 0 (-1)
                else Op op T1 (make_unsigned T2) a (MakeUnsigned T2 b)
      end
  end.

(** [SafeEq] ... [SafeGe]: the unary plus promotes the operands. *)
Definition SafeCmp (op : CmpOp) (T1 T2 : int_type) (a b : Z) : bool :=
  Cmp op (promote T1) (promote T2) a b.

Definition SafeEq := SafeCmp EqOp.
Definition SafeNe := SafeCmp NeOp.
Definition SafeLt := SafeCmp LtOp.
Definition SafeLe := SafeCmp LeOp.
Definition SafeGt := SafeCmp GtOp.
Definition SafeGe := SafeCmp GeOp.

End SafeCompare.

Section SafeMinMax.
Context {tgt : Target}.

(** [MType::min_t] and [MType::max_t]. *)
Definition min_t (T1 T2 : int_type) : int_type :=
  if SafeLt T1 T2 (int_min T1) (int_min T2) then T1
  else if SafeGt T1 T2 (int_min T1) (int_min T2) then T2
  else if SafeLe T1 T2 (int_max T1) (int_max T2) then T1 else T2.

Definition max_t (T1 T2 : int_type) : int_type :=
  if SafeGe T1 T2 (int_max T1) (int_max T2) then T1 else T2.

(** [TypeOr<A, B>::type], with [None] for [DefaultType], and its first
    static_assert. *)
Definition TypeOr (A : option int_type) (B : int_type) : int_type :=
  match A with None => B | Some T => T end.

Definition TypeOr_assert (A : option int_type) (B : int_type) : bool :=
  SafeLe (TypeOr A B) B (int_min (TypeOr A B)) (int_min B)
  && SafeGe (TypeOr A B) B (int_max (TypeOr A B)) (int_max B).

Definition SafeMin (R : option int_type) (T1 T2 : int_type) (a b : Z) : Z :=
  let R2 := TypeOr R (min_t T1 T2) in
  if SafeLt T1 T2 a b then convert R2 a else convert R2 b.

Definition SafeMax (R : option int_type) (T1 T2 : int_type) (a b : Z) : Z :=
  let R2 := TypeOr R (max_t T1 T2) in
  if SafeGt T1 T2 a b then convert R2 a else convert R2 b.

Section ClampType.
Variables T L H : int_type.

(** The bounds of the result, each with the type [auto] deduces. *)
Definition r_min_type : int_type := max_t L (min_t H T).
Definition r_min : Z :=
  SafeMax None L (min_t H T) (int_min L) (SafeMin None H T (int_min H) (int_min T)).
Definition r_max_type : int_type := min_t H (max_t L T).
Definition r_max : Z :=
  SafeMin None H (max_t L T) (int_max H) (SafeMax None L T (int_max L) (int_max T)).

Definition AcceptableType (A : int_type) : bool :=
  let not_too_large :=
    (sizeof A <=? sizeof L) || (sizeof A <=? sizeof H) || (sizeof A <=? sizeof T) in
  let range_contained :=
    SafeLe A r_min_type (int_min A) r_min && SafeLe r_max_type A r_max (int_max A) in
  not_too_large && range_contained.

Definition best_signed_type : int_type :=
  if AcceptableType int8_t then int8_t else
  if AcceptableType int16_t then int16_t else
  if AcceptableType int32_t then int32_t else int64_t.

Definition best_unsigned_type : int_type :=
  if AcceptableType uint8_t then uint8_t else
  if AcceptableType uint16_t then uint16_t else
  if AcceptableType uint32_t then uint32_t else uint64_t.

Definition ClampType : int_type :=
  if it_signed T
  then if AcceptableType best_signed_type then best_signed_type else best_unsigned_type
  else if AcceptableType best_unsigned_type then best_unsigned_type else best_signed_type.

End ClampType.

Definition SafeClamp {bm : BuildMode} (R : option int_type) (T L H : int_type) (x mn mx : Z)
    : outcome Z :=
  let R2 := TypeOr R (ClampType T L H) in
  RTC_DCHECK (SafeLe L H mn mx) ≫= λ _,
  Ret (if SafeLe T L x mn then convert R2 mn
       else if SafeGe T H x mx then convert R2 mx else convert R2 x).

End SafeMinMax.

(** ** Comparisons are those of the integers *)

Lemma promote_byte_sized T : byte_sized T → byte_sized (promote T).
Proof. unfold promote. intros. zcase; [by split|done]. Qed.

Lemma promote_values T v : byte_sized T → values T v → values (promote T) v.
Proof.
  intros HT%byte_sized_bits. unfold promote. zcase; [|done].
  unfold values, int_min, int_max; simpl.
  pose proof (pow_bits_le (it_bits T) 31). pose proof (pow_bits_le (it_bits T - 1) 31).
  destruct (it_signed T); lia.
Qed.

Lemma promote_bits T : 32 ≤ it_bits (promote T).
Proof. unfold promote. zcase; simpl; lia. Qed.

Lemma promote_idemp T : promote (promote T) = promote T.
Proof. pose proof (promote_bits T). unfold promote at 1. zcase; [lia|done]. Qed.

(** The conversions of a comparison lose nothing when the signs of the types
    agree, or when the operand of the signed type is not negative. *)
Lemma Op_exact op T1 T2 a b :
  byte_sized T1 → byte_sized T2 → it_signed T1 = it_signed T2 → values T1 a → values T2 b →
  32 ≤ it_bits T1 → 32 ≤ it_bits T2 →
  Op op T1 T2 a b = op_denote op a b.
Proof.
  intros H1 H2 Hs Ha Hb Hw1 Hw2. unfold Op, promote. do 2 (zcase; [lia|]).
  unfold common_type. unfold values, int_min, int_max in *.
  pose proof (pow_bits_le (it_bits T1) (it_bits T2)). pose proof (pow_bits_le (it_bits T2) (it_bits T1)).
  pose proof (pow_bits_le (it_bits T1 - 1) (it_bits T2 - 1)).
  pose proof (pow_bits_le (it_bits T2 - 1) (it_bits T1 - 1)).
  destruct (it_signed T1) eqn:E1, (it_signed T2) eqn:E2; try done;
    rewrite Z.geb_leb; destruct (Z.leb_spec (it_bits T2) (it_bits T1));
    rewrite !convert_in_range; try done; try lia;
    unfold values, int_min, int_max; rewrite ?E1, ?E2; lia.
Qed.

Lemma LargerInt_spec `{Target} T1 T2 L :
  byte_sized T1 → it_signed T1 = false → LargerInt T1 T2 = Some L →
  byte_sized L ∧ it_signed L = true ∧ it_bits T1 < it_bits L.
Proof.
  intros [_ Hb] Hs. unfold LargerInt, LargerIntImpl.
  destruct (_ || _); repeat zcase; intros [= <-]; try lia; simpl; repeat split; lia.
Qed.

Lemma widen_values T L v :
  byte_sized T → it_signed T = false → it_signed L = true → it_bits T < it_bits L →
  values T v → values L v.
Proof.
  intros HT%byte_sized_bits Hs Hl Hb. unfold values, int_min, int_max. rewrite Hs, Hl.
  pose proof (pow_bits_le (it_bits T) (it_bits L - 1)). lia.
Qed.

Lemma nonneg_unsigned T v :
  byte_sized T → it_signed T = true → values T v → 0 ≤ v → values (make_unsigned T) v.
Proof.
  intros HT%byte_sized_bits Hs. unfold values, int_min, int_max. rewrite Hs. simpl.
  pose proof (pow_bits_le (it_bits T - 1) (it_bits T)). lia.
Qed.

(** A comparison depends only on the order of its operands. *)
Lemma op_denote_order op a b c d :
  (a < b ↔ c < d) → (b < a ↔ d < c) → op_denote op a b = op_denote op c d.
Proof. intros. destruct op; simpl; rewrite ?Z.gtb_ltb, ?Z.geb_leb; repeat zcase; simpl; lia. Qed.

Lemma Cmp_exact `{Target} op T1 T2 a b :
  byte_sized T1 → byte_sized T2 → 32 ≤ it_bits T1 → 32 ≤ it_bits T2 →
  values T1 a → values T2 b → Cmp op T1 T2 a b = op_denote op a b.
Proof.
  intros H1 H2 Hw1 Hw2 Ha Hb. unfold Cmp.
  destruct (it_signed T1) eqn:E1, (it_signed T2) eqn:E2; [by apply Op_exact; congruence| | |by apply Op_exact; congruence].
  - destruct (LargerInt T2 T1) as [L|] eqn:EL.
    + destruct (LargerInt_spec T2 T1 L H2 E2 EL) as (HL & ESL & EBL).
      pose proof (widen_values T2 L b H2 E2 ESL EBL Hb).
      rewrite convert_in_range by (done || lia). apply Op_exact; try done; (congruence || lia).
    + assert (int_min T2 = 0) by (unfold int_min; by rewrite E2). unfold values in Hb. zcase.
      * rewrite (op_denote_order op a b (-1) 0) by lia. by destruct op.
      * pose proof (nonneg_unsigned T1 a H1 E1 Ha ltac:(lia)). unfold MakeUnsigned.
        rewrite convert_in_range by (simpl; done || lia).
        apply Op_exact; try done; simpl; (congruence || lia).
  - destruct (LargerInt T1 T2) as [L|] eqn:EL.
    + destruct (LargerInt_spec T1 T2 L H1 E1 EL) as (HL & ESL & EBL).
      pose proof (widen_values T1 L a H1 E1 ESL EBL Ha).
      rewrite convert_in_range by (done || lia). apply Op_exact; try done; (congruence || lia).
    + assert (int_min T1 = 0) by (unfold int_min; by rewrite E1). unfold values in Ha. zcase.
      * rewrite (op_denote_order op a b 0 (-1)) by lia. by destruct op.
      * pose proof (nonneg_unsigned T2 b H2 E2 Hb ltac:(lia)). unfold MakeUnsigned.
        rewrite convert_in_range by (simpl; done || lia).
        apply Op_exact; try done; simpl; (congruence || lia).
Qed.

Lemma SafeCmp_exact `{Target} op T1 T2 a b :
  byte_sized T1 → byte_sized T2 → values T1 a → values T2 b →
  SafeCmp op T1 T2 a b = op_denote op a b.
Proof.
  intros. apply Cmp_exact; auto using promote_byte_sized, promote_values, promote_bits.
Qed.

Section Exact.
Context {tgt : Target}.

(** Rewrites the typed comparisons of the code to comparisons in [Z]. *)
Ltac exact_cmp :=
  unfold SafeEq, SafeNe, SafeLt, SafeLe, SafeGt, SafeGe;
  rewrite !SafeCmp_exact by (assumption || (unfold values; lia)); simpl op_denote.

Lemma min_t_spec T1 T2 :
  byte_sized T1 → byte_sized T2 →
  byte_sized (min_t T1 T2) ∧ int_min (min_t T1 T2) = Z.min (int_min T1) (int_min T2) ∧
  (int_max (min_t T1 T2) = int_max T1 ∨ int_max (min_t T1 T2) = int_max T2) ∧
  ∀ a b, values T1 a → values T2 b → values (min_t T1 T2) (Z.min a b).
Proof.
  intros H1 H2. pose proof (int_bounds_order _ H1). pose proof (int_bounds_order _ H2).
  unfold min_t. exact_cmp. rewrite Z.gtb_ltb. repeat zcase;
    (split_and!; [done|lia|auto|intros a b; unfold values; lia]).
Qed.

Lemma max_t_spec T1 T2 :
  byte_sized T1 → byte_sized T2 →
  byte_sized (max_t T1 T2) ∧ int_max (max_t T1 T2) = Z.max (int_max T1) (int_max T2) ∧
  ∀ a b, values T1 a → values T2 b → values (max_t T1 T2) (Z.max a b).
Proof.
  intros H1 H2. pose proof (int_bounds_order _ H1). pose proof (int_bounds_order _ H2).
  unfold max_t. exact_cmp. rewrite Z.geb_leb. repeat zcase;
    (split_and!; [done|lia|intros a b; unfold values; lia]).
Qed.

Definition option_sized (R : option int_type) : Prop :=
  match R with None => True | Some T => byte_sized T end.

Lemma TypeOr_spec R B v :
  option_sized R → byte_sized B → TypeOr_assert R B = true → values B v →
  convert (TypeOr R B) v = v.
Proof.
  intros HR HB. assert (byte_sized (TypeOr R B)) as HT by (destruct R; done).
  pose proof (int_bounds_order _ HT). pose proof (int_bounds_order _ HB).
  pose proof (byte_sized_bits _ HT). unfold TypeOr_assert. exact_cmp. intros Ha Hv.
  apply convert_in_range; [lia|]. unfold values in *. lia.
Qed.

Lemma TypeOr_assert_default B : byte_sized B → TypeOr_assert None B = true.
Proof.
  intros HB. pose proof (int_bounds_order _ HB). unfold TypeOr_assert; simpl TypeOr.
  exact_cmp. lia.
Qed.

Lemma SafeMin_exact R T1 T2 a b :
  byte_sized T1 → byte_sized T2 → option_sized R → TypeOr_assert R (min_t T1 T2) = true →
  values T1 a → values T2 b → SafeMin R T1 T2 a b = Z.min a b.
Proof.
  intros H1 H2 HR Hassert Ha Hb. destruct (min_t_spec T1 T2 H1 H2) as (Hs & _ & _ & Hv).
  specialize (Hv a b Ha Hb). pose proof (TypeOr_spec R _ _ HR Hs Hassert Hv).
  unfold SafeMin. exact_cmp. zcase; [by rewrite Z.min_l in * by lia|by rewrite Z.min_r in * by lia].
Qed.

Lemma SafeMax_exact R T1 T2 a b :
  byte_sized T1 → byte_sized T2 → option_sized R → TypeOr_assert R (max_t T1 T2) = true →
  values T1 a → values T2 b → SafeMax R T1 T2 a b = Z.max a b.
Proof.
  intros H1 H2 HR Hassert Ha Hb. destruct (max_t_spec T1 T2 H1 H2) as (Hs & _ & Hv).
  specialize (Hv a b Ha Hb). pose proof (TypeOr_spec R _ _ HR Hs Hassert Hv).
  unfold SafeMax. exact_cmp. rewrite Z.gtb_ltb.
  zcase; [by rewrite Z.max_l in * by lia|by rewrite Z.max_r in * by lia].
Qed.

(** [AcceptableType] with the comparisons done in [Z]. *)
Definition acceptable (T L H A : int_type) : bool :=
  ((sizeof A <=? sizeof L) || (sizeof A <=? sizeof H) || (sizeof A <=? sizeof T))
  && ((int_min A <=? Z.max (int_min L) (Z.min (int_min H) (int_min T)))
      && (Z.min (int_max H) (Z.max (int_max L) (int_max T)) <=? int_max A)).

Lemma AcceptableType_exact T L H A :
  byte_sized T → byte_sized L → byte_sized H → byte_sized A →
  AcceptableType T L H A = acceptable T L H A.
Proof.
  intros HT HL HH HA.
  destruct (min_t_spec H T HH HT) as (S1 & Emin & _ & V1).
  destruct (max_t_spec L T HL HT) as (S2 & Emax & V2).
  destruct (max_t_spec L (min_t H T) HL S1) as (S3 & _ & V3).
  destruct (min_t_spec H (max_t L T) HH S2) as (S4 & _ & _ & V4).
  pose proof (int_bounds_order _ HT). pose proof (int_bounds_order _ HL).
  pose proof (int_bounds_order _ HH). pose proof (int_bounds_order _ HA).
  pose proof (int_bounds_order _ S1). pose proof (int_bounds_order _ S2).
  assert (r_min T L H = Z.max (int_min L) (Z.min (int_min H) (int_min T))) as Er1.
  { unfold r_min. rewrite (SafeMin_exact None H T) by (try apply TypeOr_assert_default; done || (unfold values; lia)).
    apply SafeMax_exact; try apply TypeOr_assert_default; try done; unfold values; lia. }
  assert (r_max T L H = Z.min (int_max H) (Z.max (int_max L) (int_max T))) as Er2.
  { unfold r_max. rewrite (SafeMax_exact None L T) by (try apply TypeOr_assert_default; done || (unfold values; lia)).
    apply SafeMin_exact; try apply TypeOr_assert_default; try done; unfold values; lia. }
  unfold AcceptableType, acceptable, r_min_type, r_max_type, SafeLe. rewrite Er1, Er2.
  rewrite (SafeCmp_exact LeOp A), (SafeCmp_exact LeOp (min_t H (max_t L T))); try done;
    try (unfold values; lia).
  - apply V4; unfold values; lia.
  - apply V3; unfold values; lia.
Qed.

End Exact.

(** ** The return type of SafeClamp *)

Lemma std_byte_sized T : is_std T → byte_sized T.
Proof. unfold is_std, std_types. simpl. intros H. repeat destruct H as [<-|H]; by split. Qed.

(** The choice of [ClampType] for an acceptability test [f]. *)
Definition pick_type (f : int_type → bool) (signed : bool) : int_type :=
  let bs := if f int8_t then int8_t else if f int16_t then int16_t
            else if f int32_t then int32_t else int64_t in
  let bu := if f uint8_t then uint8_t else if f uint16_t then uint16_t
            else if f uint32_t then uint32_t else uint64_t in
  if signed then if f bs then bs else bu else if f bu then bu else bs.

(** The laws of the header's documentation, as a test of one triple. *)
Definition clamp_laws (T L H : int_type) : bool :=
  let R := pick_type (acceptable T L H) (it_signed T) in
  acceptable T L H R &&
  forallb (λ A, implb (acceptable T L H A)
    (implb (eqb (it_signed A) (it_signed T)) (eqb (it_signed R) (it_signed T))
     && implb (eqb (it_signed A) (it_signed R)) (sizeof R <=? sizeof A))) std_types.

Lemma clamp_laws_all :
  forallb (λ T, forallb (λ L, forallb (clamp_laws T L) std_types) std_types) std_types = true.
Proof. vm_compute. reflexivity. Qed.

Lemma clamp_laws_std T L H : is_std T → is_std L → is_std H → clamp_laws T L H = true.
Proof.
  intros HT HL HH. pose proof clamp_laws_all as Hall.
  rewrite forallb_forall in Hall. specialize (Hall T HT). cbv beta in Hall.
  rewrite forallb_forall in Hall. specialize (Hall L HL). cbv beta in Hall.
  rewrite forallb_forall in Hall. by apply Hall.
Qed.

Lemma ClampType_pick {tgt : Target} T L H :
  is_std T → is_std L → is_std H →
  ClampType T L H = pick_type (acceptable T L H) (it_signed T).
Proof.
  intros HT%std_byte_sized HL%std_byte_sized HH%std_byte_sized.
  assert (∀ A, is_std A → AcceptableType T L H A = acceptable T L H A) as E.
  { intros A HA%std_byte_sized. by apply AcceptableType_exact. }
  assert (best_signed_type T L H = if acceptable T L H int8_t then int8_t else
    if acceptable T L H int16_t then int16_t else if acceptable T L H int32_t then int32_t else int64_t) as Es.
  { unfold best_signed_type. by rewrite !E by (unfold is_std, std_types; simpl; tauto). }
  assert (best_unsigned_type T L H = if acceptable T L H uint8_t then uint8_t else
    if acceptable T L H uint16_t then uint16_t else if acceptable T L H uint32_t then uint32_t else uint64_t) as Eu.
  { unfold best_unsigned_type. by rewrite !E by (unfold is_std, std_types; simpl; tauto). }
  unfold ClampType, pick_type. rewrite Es, Eu, !E; [done| |];
    repeat (destruct (acceptable _ _ _ _)); unfold is_std, std_types; simpl; tauto.
Qed.

(** ** Properties *)

(** [SafeEq], [SafeNe], [SafeLt], [SafeLe], [SafeGt] and [SafeGe] compare
    the mathematical values of operands of any two integer types, whatever
    their signedness and widths and whatever the pointer size that steers the
    choice of overload. *)
Theorem safe_compare_exact {tgt : Target} (T1 T2 : int_type) (a b : Z) :
  byte_sized T1 → byte_sized T2 → values T1 a → values T2 b →
  SafeEq T1 T2 a b = (a =? b) ∧ SafeNe T1 T2 a b = negb (a =? b) ∧
  SafeLt T1 T2 a b = (a <? b) ∧ SafeLe T1 T2 a b = (a <=? b) ∧
  SafeGt T1 T2 a b = (b <? a) ∧ SafeGe T1 T2 a b = (b <=? a).
Proof.
  intros. unfold SafeEq, SafeNe, SafeLt, SafeLe, SafeGt, SafeGe.
  rewrite !SafeCmp_exact by done. simpl. by rewrite Z.gtb_ltb, Z.geb_leb.
Qed.

Lemma safe_compare_exact_witness :
  let tgt := {| sizeof_ptr := 8 |} in
  @SafeEq tgt int8_t uint64_t (-1) 255 = (-1 =? 255) ∧
  @SafeNe tgt int8_t uint64_t (-1) 255 = negb (-1 =? 255) ∧
  @SafeLt tgt int8_t uint64_t (-1) 255 = (-1 <? 255) ∧
  @SafeLe tgt int8_t uint64_t (-1) 255 = (-1 <=? 255) ∧
  @SafeGt tgt int8_t uint64_t (-1) 255 = (255 <? -1) ∧
  @SafeGe tgt int8_t uint64_t (-1) 255 = (255 <=? -1).
Proof.
  intros tgt. apply (@safe_compare_exact tgt int8_t uint64_t (-1) 255); vm_compute; split; congruence.
Defined.

(** [SafeMin] and [SafeMax] return the mathematical minimum and maximum of
    operands of any two integer types, with no truncation or wrap-around in
    the deduced return type or in any requested one that passes the header's
    static_assert. *)
Theorem safe_min_max_exact {tgt : Target} (R : option int_type) (T1 T2 : int_type) (a b : Z) :
  byte_sized T1 → byte_sized T2 → option_sized R → values T1 a → values T2 b →
  (TypeOr_assert R (min_t T1 T2) = true → SafeMin R T1 T2 a b = Z.min a b) ∧
  (TypeOr_assert R (max_t T1 T2) = true → SafeMax R T1 T2 a b = Z.max a b).
Proof. intros. split; intros; [by apply SafeMin_exact | by apply SafeMax_exact]. Qed.

Lemma safe_min_max_exact_witness :
  let tgt := {| sizeof_ptr := 4 |} in
  (@TypeOr_assert tgt None (@min_t tgt int32_t uint64_t) = true →
     @SafeMin tgt None int32_t uint64_t (-5) 18446744073709551615 = Z.min (-5) 18446744073709551615) ∧
  (@TypeOr_assert tgt None (@max_t tgt int32_t uint64_t) = true →
     @SafeMax tgt None int32_t uint64_t (-5) 18446744073709551615 = Z.max (-5) 18446744073709551615).
Proof.
  intros tgt.
  apply (@safe_min_max_exact tgt None int32_t uint64_t (-5) 18446744073709551615);
  try (exact I); vm_compute; split; congruence.
Defined.

(** C38: for every choice of three standard integer types [SafeClamp] compiles
    (the type it deduces passes its own acceptability assertion: it holds every
    possible result and is no larger than the largest argument type), has the
    signedness of the first argument whenever an acceptable type has it, and
    is the smallest acceptable type of its signedness; and the value returned
    is the point of the interval closest to [x]. *)
Theorem safe_clamp_correct {bm : BuildMode} {tgt : Target} (T L H : int_type) (x mn mx : Z) :
  is_std T → is_std L → is_std H → values T x → values L mn → values H mx → mn ≤ mx →
  AcceptableType T L H (ClampType T L H) = true ∧
  (∀ A, is_std A → AcceptableType T L H A = true →
     (it_signed A = it_signed T → it_signed (ClampType T L H) = it_signed T) ∧
     (it_signed A = it_signed (ClampType T L H) → sizeof (ClampType T L H) ≤ sizeof A)) ∧
  SafeClamp None T L H x mn mx = Ret (Z.max mn (Z.min x mx)).
Proof.
  intros HT HL HH Hx Hmn Hmx Hle. pose proof (clamp_laws_std T L H HT HL HH) as Hlaws.
  assert (is_std (ClampType T L H)) as HC.
  { rewrite ClampType_pick by done. unfold pick_type.
    repeat (destruct (acceptable _ _ _ _)); destruct (it_signed T);
      repeat (destruct (acceptable _ _ _ _)); unfold is_std, std_types; simpl; tauto. }
  unfold clamp_laws in Hlaws. rewrite <-ClampType_pick in Hlaws by done.
  apply andb_prop in Hlaws as [Hacc Hlaws]. rewrite forallb_forall in Hlaws.
  pose proof (std_byte_sized _ HT) as BT. pose proof (std_byte_sized _ HL) as BL.
  pose proof (std_byte_sized _ HH) as BH. pose proof (std_byte_sized _ HC) as BC.
  split; [by rewrite AcceptableType_exact|]. split.
  - intros A HA. rewrite AcceptableType_exact by (done || by apply std_byte_sized).
    intros Ha. specialize (Hlaws A HA). cbv beta in Hlaws. rewrite Ha in Hlaws. simpl in Hlaws.
    apply andb_prop in Hlaws as [Hl1 Hl2]. split; intros E; rewrite E, eqb_reflx in *.
    + simpl in Hl1. by apply eqb_prop.
    + simpl in Hl2. lia.
  - unfold SafeClamp, SafeLe, SafeGe. rewrite !SafeCmp_exact by done. simpl op_denote.
    pass. simpl TypeOr. unfold acceptable in Hacc. unfold values in *.
    pose proof (byte_sized_bits _ BC).
    rewrite Z.geb_leb. f_equal. repeat zcase; rewrite convert_in_range; unfold values; lia.
Qed.

Lemma safe_clamp_correct_witness :
  @AcceptableType (Build_Target 8) int64_t uint8_t uint16_t (@ClampType (Build_Target 8) int64_t uint8_t uint16_t) = true ∧
  (∀ A, is_std A → @AcceptableType (Build_Target 8) int64_t uint8_t uint16_t A = true →
     (it_signed A = it_signed int64_t →
        it_signed (@ClampType (Build_Target 8) int64_t uint8_t uint16_t) = it_signed int64_t) ∧
     (it_signed A = it_signed (@ClampType (Build_Target 8) int64_t uint8_t uint16_t) →
        sizeof (@ClampType (Build_Target 8) int64_t uint8_t uint16_t) ≤ sizeof A)) ∧
  @SafeClamp (Build_Target 8) debug_build None int64_t uint8_t uint16_t (-7) 3 900 = Ret (Z.max 3 (Z.min (-7) 900)).
Proof.
  apply (@safe_clamp_correct debug_build (Build_Target 8) int64_t uint8_t uint16_t (-7) 3 900);
  unfold is_std, std_types; simpl; try tauto; try (vm_compute; split; congruence); lia.
Defined.
