(* ===== verification/Units.v ===== *)
(** * Units with infinities

    Model of [src/include/rtc_base/units/unit_base.h] and of the units built
    on it in [src/include/api/units/]: [Timestamp], [TimeDelta], [DataRate],
    [DataSize] and [Frequency].  A unit is an [int64_t] in which the greatest
    and the least value stand for the two infinities.  The overloads for
    floating-point arguments are left out; template arguments [T] of the
    integral overloads are arguments of the definitions.  The comparisons of
    [RTC_DCHECK_GE] and the like are those of [SafeGe] and the like, which are
    exact (SafeMinMax), so they are written on [Z]. *)

From S2P Require Import Prelude SafeConversions SafeMinMax.

Inductive unit_kind := KTimestamp | KTimeDelta | KDataRate | KDataSize | KFrequency.

(** [Unit_T::one_sided]: the unit has no finite negative values. *)
Definition one_sided (k : unit_kind) : bool :=
  match k with KTimeDelta => false | _ => true end.

(** The kind is a phantom argument, so that units are not mixed up. *)
Record unit_t (k : unit_kind) := Unit { value_ : Z }.
Arguments Unit {k} value_.
Arguments value_ {k} u.

Abbreviation Timestamp := (unit_t KTimestamp).
Abbreviation TimeDelta := (unit_t KTimeDelta).
Abbreviation DataRate := (unit_t KDataRate).
Abbreviation DataSize := (unit_t KDataSize).
Abbreviation Frequency := (unit_t KFrequency).

Section UnitBase.
Context {bm : BuildMode} {k : unit_kind}.

Definition PlusInfinityVal : Z := int_max int64_t.
Definition MinusInfinityVal : Z := int_min int64_t.

Definition Zero : unit_t k := Unit 0.
Definition PlusInfinity : unit_t k := Unit PlusInfinityVal.
Definition MinusInfinity : unit_t k := Unit MinusInfinityVal.

Definition IsZero (u : unit_t k) : bool := value_ u =? 0.
Definition IsInfinite (u : unit_t k) : bool :=
  (value_ u =? PlusInfinityVal) || (value_ u =? MinusInfinityVal).
Definition IsFinite (u : unit_t k) : bool := negb (IsInfinite u).
Definition IsPlusInfinity (u : unit_t k) : bool := value_ u =? PlusInfinityVal.
Definition IsMinusInfinity (u : unit_t k) : bool := value_ u =? MinusInfinityVal.

Definition unit_eq (u v : unit_t k) : bool := value_ u =? value_ v.
Definition unit_ne (u v : unit_t k) : bool := negb (value_ u =? value_ v).
Definition unit_le (u v : unit_t k) : bool := value_ u <=? value_ v.
Definition unit_ge (u v : unit_t k) : bool := value_ u >=? value_ v.
Definition unit_gt (u v : unit_t k) : bool := value_ u >? value_ v.
Definition unit_lt (u v : unit_t k) : bool := value_ u <? value_ v.

Definition FromValue (T : int_type) (value : Z) : outcome (unit_t k) :=
  (if one_sided k then RTC_DCHECK (value >=? 0) else Ret tt) ≫= λ _,
  RTC_DCHECK (value >? MinusInfinityVal) ≫= λ _,
  RTC_DCHECK (value <? PlusInfinityVal) ≫= λ _,
  v ← dchecked_cast int64_t T value;
  Ret (Unit v).

(** [value * denominator] is computed in the common type of [T] and
    [int64_t]. *)
Definition FromFraction (T : int_type) (denominator value : Z) : outcome (unit_t k) :=
  (if one_sided k then RTC_DCHECK (value >=? 0) else Ret tt) ≫= λ _,
  RTC_DCHECK (value >? Z.quot MinusInfinityVal denominator) ≫= λ _,
  RTC_DCHECK (value <? Z.quot PlusInfinityVal denominator) ≫= λ _,
  let C := common_type (promote T) int64_t in
  p ← arith C (convert C value * convert C denominator);
  v ← dchecked_cast int64_t C p;
  Ret (Unit v).

Definition ToValue (T : int_type) (u : unit_t k) : outcome Z :=
  RTC_DCHECK (IsFinite u) ≫= λ _, dchecked_cast T int64_t (value_ u).

Definition ToValueOr (u : unit_t k) (fallback_value : Z) : Z :=
  if IsFinite u then value_ u else fallback_value.

Definition DivRoundPositiveToNearest (n d : Z) : outcome Z :=
  h ← c_div int64_t d 2; s ← arith int64_t (n + h); c_div int64_t s d.

Definition DivRoundToNearest (n d : Z) : outcome Z :=
  h ← (if n >=? 0 then c_div int64_t d 2
       else m ← arith int64_t (- d); c_div int64_t m 2);
  s ← arith int64_t (n + h);
  c_div int64_t s d.

Definition ToFraction (Denominator : Z) (T : int_type) (u : unit_t k) : outcome Z :=
  RTC_DCHECK (IsFinite u) ≫= λ _,
  if one_sided k
  then q ← DivRoundPositiveToNearest (value_ u) Denominator; dchecked_cast T int64_t q
  else q ← DivRoundToNearest (value_ u) Denominator; dchecked_cast T int64_t q.

Definition ToFractionOr (Denominator : Z) (u : unit_t k) (fallback_value : Z) : outcome Z :=
  if IsFinite u
  then if one_sided k then DivRoundPositiveToNearest (value_ u) Denominator
       else DivRoundToNearest (value_ u) Denominator
  else Ret fallback_value.

Definition ToMultiple (Factor : Z) (T : int_type) (u : unit_t k) : outcome Z :=
  (if RTC_DCHECK_IS_ON
   then v ← ToValue int64_t u;
        RTC_DCHECK (v >=? Z.quot (int_min T) Factor) ≫= λ _,
        w ← ToValue int64_t u;
        RTC_DCHECK (w <=? Z.quot (int_max T) Factor)
   else Ret tt) ≫= λ _,
  v ← ToValue int64_t u;
  p ← arith int64_t (v * Factor);
  dchecked_cast T int64_t p.

(** ** RelativeUnit *)

Definition Clamped (u : unit_t k) (min_value max_value : unit_t k) : unit_t k :=
  let m := if unit_lt max_value u then max_value else u in
  if unit_lt min_value m then m else min_value.

Definition unit_add (u v : unit_t k) : outcome (unit_t k) :=
  if IsPlusInfinity u || IsPlusInfinity v then
    RTC_DCHECK (negb (IsMinusInfinity u)) ≫= λ _,
    RTC_DCHECK (negb (IsMinusInfinity v)) ≫= λ _, Ret PlusInfinity
  else if IsMinusInfinity u || IsMinusInfinity v then
    RTC_DCHECK (negb (IsPlusInfinity u)) ≫= λ _,
    RTC_DCHECK (negb (IsPlusInfinity v)) ≫= λ _, Ret MinusInfinity
  else
    a ← ToValue int64_t u; b ← ToValue int64_t v;
    s ← arith int64_t (a + b); FromValue int64_t s.

Definition unit_sub (u v : unit_t k) : outcome (unit_t k) :=
  if IsPlusInfinity u || IsMinusInfinity v then
    RTC_DCHECK (negb (IsMinusInfinity u)) ≫= λ _,
    RTC_DCHECK (negb (IsPlusInfinity v)) ≫= λ _, Ret PlusInfinity
  else if IsMinusInfinity u || IsPlusInfinity v then
    RTC_DCHECK (negb (IsPlusInfinity u)) ≫= λ _,
    RTC_DCHECK (negb (IsMinusInfinity v)) ≫= λ _, Ret MinusInfinity
  else
    a ← ToValue int64_t u; b ← ToValue int64_t v;
    s ← arith int64_t (a - b); FromValue int64_t s.

(** [operator*(int64_t scalar)]. *)
Definition unit_mul (u : unit_t k) (scalar : Z) : outcome (unit_t k) :=
  a ← ToValue int64_t u; p ← arith int64_t (a * scalar); FromValue int64_t p.

Definition round_checks (u : unit_t k) (resolution : unit_t k) : outcome unit :=
  RTC_DCHECK (IsFinite u) ≫= λ _,
  RTC_DCHECK (IsFinite resolution) ≫= λ _,
  RTC_DCHECK (value_ resolution >? 0).

Definition RoundTo (u : unit_t k) (resolution : unit_t k) : outcome (unit_t k) :=
  round_checks u resolution ≫= λ _,
  h ← c_div int64_t (value_ resolution) 2;
  s ← arith int64_t (value_ u + h);
  q ← c_div int64_t s (value_ resolution);
  unit_mul (Unit q) (value_ resolution).

Definition RoundUpTo (u : unit_t k) (resolution : unit_t k) : outcome (unit_t k) :=
  round_checks u resolution ≫= λ _,
  s ← arith int64_t (value_ u + value_ resolution);
  s' ← arith int64_t (s - 1);
  q ← c_div int64_t s' (value_ resolution);
  unit_mul (Unit q) (value_ resolution).

Definition RoundDownTo (u : unit_t k) (resolution : unit_t k) : outcome (unit_t k) :=
  round_checks u resolution ≫= λ _,
  q ← c_div int64_t (value_ u) (value_ resolution);
  unit_mul (Unit q) (value_ resolution).

End UnitBase.

(** ** The units *)

Section Units.
Context {bm : BuildMode}.

(** Timestamp *)
Definition Timestamp_Seconds (T : int_type) (value : Z) : outcome Timestamp := FromFraction T 1000000 value.
Definition Timestamp_Millis (T : int_type) (value : Z) : outcome Timestamp := FromFraction T 1000 value.
Definition Timestamp_Micros (T : int_type) (value : Z) : outcome Timestamp := FromValue T value.
Definition Timestamp_seconds (T : int_type) (t : Timestamp) : outcome Z := ToFraction 1000000 T t.
Definition Timestamp_ms (T : int_type) (t : Timestamp) : outcome Z := ToFraction 1000 T t.
Definition Timestamp_us (T : int_type) (t : Timestamp) : outcome Z := ToValue T t.
Definition Timestamp_seconds_or (t : Timestamp) (fallback_value : Z) : outcome Z :=
  ToFractionOr 1000000 t fallback_value.
Definition Timestamp_ms_or (t : Timestamp) (fallback_value : Z) : outcome Z :=
  ToFractionOr 1000 t fallback_value.
Definition Timestamp_us_or (t : Timestamp) (fallback_value : Z) : Z := ToValueOr t fallback_value.

(** TimeDelta *)
Definition TimeDelta_Seconds (T : int_type) (value : Z) : outcome TimeDelta := FromFraction T 1000000 value.
Definition TimeDelta_Millis (T : int_type) (value : Z) : outcome TimeDelta := FromFraction T 1000 value.
Definition TimeDelta_Micros (T : int_type) (value : Z) : outcome TimeDelta := FromValue T value.
Definition TimeDelta_seconds (T : int_type) (d : TimeDelta) : outcome Z := ToFraction 1000000 T d.
Definition TimeDelta_ms (T : int_type) (d : TimeDelta) : outcome Z := ToFraction 1000 T d.
Definition TimeDelta_us (T : int_type) (d : TimeDelta) : outcome Z := ToValue T d.
Definition TimeDelta_ns (T : int_type) (d : TimeDelta) : outcome Z := ToMultiple 1000 T d.
Definition TimeDelta_seconds_or (d : TimeDelta) (fallback_value : Z) : outcome Z :=
  ToFractionOr 1000000 d fallback_value.
Definition TimeDelta_ms_or (d : TimeDelta) (fallback_value : Z) : outcome Z :=
  ToFractionOr 1000 d fallback_value.
Definition TimeDelta_us_or (d : TimeDelta) (fallback_value : Z) : Z := ToValueOr d fallback_value.

Definition TimeDelta_Abs (d : TimeDelta) : outcome TimeDelta :=
  v ← TimeDelta_us int64_t d;
  if v <? 0
  then w ← TimeDelta_us int64_t d; n ← arith int64_t (- w); TimeDelta_Micros int64_t n
  else Ret d.

(** Timestamp and TimeDelta together *)
Definition Timestamp_plus (t : Timestamp) (delta : TimeDelta) : outcome Timestamp :=
  if IsPlusInfinity t || IsPlusInfinity delta then
    RTC_DCHECK (negb (IsMinusInfinity t)) ≫= λ _,
    RTC_DCHECK (negb (IsMinusInfinity delta)) ≫= λ _, Ret PlusInfinity
  else if IsMinusInfinity t || IsMinusInfinity delta then
    RTC_DCHECK (negb (IsPlusInfinity t)) ≫= λ _,
    RTC_DCHECK (negb (IsPlusInfinity delta)) ≫= λ _, Ret MinusInfinity
  else
    a ← Timestamp_us int64_t t; b ← TimeDelta_us int64_t delta;
    s ← arith int64_t (a + b); Timestamp_Micros int64_t s.

Definition Timestamp_minus (t : Timestamp) (delta : TimeDelta) : outcome Timestamp :=
  if IsPlusInfinity t || IsMinusInfinity delta then
    RTC_DCHECK (negb (IsMinusInfinity t)) ≫= λ _,
    RTC_DCHECK (negb (IsPlusInfinity delta)) ≫= λ _, Ret PlusInfinity
  else if IsMinusInfinity t || IsPlusInfinity delta then
    RTC_DCHECK (negb (IsPlusInfinity t)) ≫= λ _,
    RTC_DCHECK (negb (IsMinusInfinity delta)) ≫= λ _, Ret MinusInfinity
  else
    a ← Timestamp_us int64_t t; b ← TimeDelta_us int64_t delta;
    s ← arith int64_t (a - b); Timestamp_Micros int64_t s.

Definition Timestamp_diff (t other : Timestamp) : outcome TimeDelta :=
  if IsPlusInfinity t || IsMinusInfinity other then
    RTC_DCHECK (negb (IsMinusInfinity t)) ≫= λ _,
    RTC_DCHECK (negb (IsPlusInfinity other)) ≫= λ _, Ret PlusInfinity
  else if IsMinusInfinity t || IsPlusInfinity other then
    RTC_DCHECK (negb (IsPlusInfinity t)) ≫= λ _,
    RTC_DCHECK (negb (IsMinusInfinity other)) ≫= λ _, Ret MinusInfinity
  else
    a ← Timestamp_us int64_t t; b ← Timestamp_us int64_t other;
    s ← arith int64_t (a - b); TimeDelta_Micros int64_t s.

(** DataSize *)
Definition DataSize_Bytes (T : int_type) (value : Z) : outcome DataSize := FromValue T value.
Definition DataSize_bytes (T : int_type) (s : DataSize) : outcome Z := ToValue T s.
Definition DataSize_bytes_or (s : DataSize) (fallback_value : Z) : Z := ToValueOr s fallback_value.

(** DataRate *)
Definition DataRate_BitsPerSec (T : int_type) (value : Z) : outcome DataRate := FromValue T value.
Definition DataRate_BytesPerSec (T : int_type) (value : Z) : outcome DataRate := FromFraction T 8 value.
Definition DataRate_KilobitsPerSec (T : int_type) (value : Z) : outcome DataRate := FromFraction T 1000 value.
Definition DataRate_bps (T : int_type) (r : DataRate) : outcome Z := ToValue T r.
Definition DataRate_bytes_per_sec (T : int_type) (r : DataRate) : outcome Z := ToFraction 8 T r.
Definition DataRate_kbps (T : int_type) (r : DataRate) : outcome Z := ToFraction 1000 T r.
Definition DataRate_bps_or (r : DataRate) (fallback_value : Z) : Z := ToValueOr r fallback_value.
Definition DataRate_kbps_or (r : DataRate) (fallback_value : Z) : outcome Z :=
  ToFractionOr 1000 r fallback_value.

(** Frequency *)
Definition Frequency_MilliHertz (T : int_type) (value : Z) : outcome Frequency := FromValue T value.
Definition Frequency_Hertz (T : int_type) (value : Z) : outcome Frequency := FromFraction T 1000 value.
Definition Frequency_KiloHertz (T : int_type) (value : Z) : outcome Frequency := FromFraction T 1000000 value.
Definition Frequency_hertz (T : int_type) (f : Frequency) : outcome Z := ToFraction 1000 T f.
Definition Frequency_millihertz (T : int_type) (f : Frequency) : outcome Z := ToValue T f.

(** [Microbits] and [MillibytePerSec] of data_rate.h. *)
Definition Microbits (size : DataSize) : outcome Z :=
  let kMaxBeforeConversion := Z.quot (int_max int64_t) 8000000 in
  (if RTC_DCHECK_IS_ON
   then b ← DataSize_bytes int64_t size; RTC_DCHECK (b <=? kMaxBeforeConversion)
   else Ret tt) ≫= λ _,
  b ← DataSize_bytes int64_t size;
  arith int64_t (b * 8000000).

Definition MillibytePerSec (rate : DataRate) : outcome Z :=
  let kMaxBeforeConversion := Z.quot (int_max int64_t) (Z.quot 1000 8) in
  (if RTC_DCHECK_IS_ON
   then b ← DataRate_bps int64_t rate; RTC_DCHECK (b <=? kMaxBeforeConversion)
   else Ret tt) ≫= λ _,
  b ← DataRate_bps int64_t rate;
  arith int64_t (b * Z.quot 1000 8).

Definition size_per_duration (size : DataSize) (duration : TimeDelta) : outcome DataRate :=
  m ← Microbits size; us ← TimeDelta_us int64_t duration;
  q ← c_div int64_t m us; DataRate_BitsPerSec int64_t q.

Definition size_per_rate (size : DataSize) (rate : DataRate) : outcome TimeDelta :=
  m ← Microbits size; bps ← DataRate_bps int64_t rate;
  q ← c_div int64_t m bps; TimeDelta_Micros int64_t q.

Definition rate_times_duration (rate : DataRate) (duration : TimeDelta) : outcome DataSize :=
  bps ← DataRate_bps int64_t rate; us ← TimeDelta_us int64_t duration;
  microbits ← arith int64_t (bps * us);
  s ← arith int64_t (microbits + 4000000);
  q ← c_div int64_t s 8000000; DataSize_Bytes int64_t q.

Definition rate_per_frequency (rate : DataRate) (frequency : Frequency) : outcome DataSize :=
  millihertz ← Frequency_millihertz int64_t frequency;
  m ← MillibytePerSec rate;
  q ← c_div int64_t m millihertz; DataSize_Bytes int64_t q.

Definition rate_per_size (rate : DataRate) (size : DataSize) : outcome Frequency :=
  m ← MillibytePerSec rate; b ← DataSize_bytes int64_t size;
  q ← c_div int64_t m b; Frequency_MilliHertz int64_t q.

Definition size_times_frequency (size : DataSize) (frequency : Frequency) : outcome DataRate :=
  (if RTC_DCHECK_IS_ON
   then if IsZero frequency then Ret tt
        else b ← DataSize_bytes int64_t size; mh ← Frequency_millihertz int64_t frequency;
             RTC_DCHECK (b <=? Z.quot (Z.quot (int_max int64_t) 8) mh)
   else Ret tt) ≫= λ _,
  b ← DataSize_bytes int64_t size;
  b8 ← arith int64_t (b * 8);
  mh ← Frequency_millihertz int64_t frequency;
  millibits_per_second ← arith int64_t (b8 * mh);
  s ← arith int64_t (millibits_per_second + 500);
  q ← c_div int64_t s 1000; DataRate_BitsPerSec int64_t q.

(** [nominator / interval] and [nominator / frequency] of frequency.h. *)
Definition per_interval (nominator : Z) (interval : TimeDelta) : outcome Frequency :=
  let kKiloPerMicro := 1000 * 1000000 in
  RTC_DCHECK (nominator <=? Z.quot (int_max int64_t) kKiloPerMicro) ≫= λ _,
  RTC_CHECK (IsFinite interval) ≫= λ _,
  RTC_CHECK (negb (IsZero interval)) ≫= λ _,
  p ← arith int64_t (nominator * kKiloPerMicro);
  us ← TimeDelta_us int64_t interval;
  q ← c_div int64_t p us; Frequency_MilliHertz int64_t q.

Definition per_frequency (nominator : Z) (frequency : Frequency) : outcome TimeDelta :=
  let kMegaPerMilli := 1000000 * 1000 in
  RTC_DCHECK (nominator <=? Z.quot (int_max int64_t) kMegaPerMilli) ≫= λ _,
  RTC_CHECK (IsFinite frequency) ≫= λ _,
  RTC_CHECK (negb (IsZero frequency)) ≫= λ _,
  p ← arith int64_t (nominator * kMegaPerMilli);
  mh ← Frequency_millihertz int64_t frequency;
  q ← c_div int64_t p mh; TimeDelta_Micros int64_t q.

End Units.

(** ** Lemmas on the int64_t representation *)

(** The integers that stand for finite quantities. *)
Definition finite_val (z : Z) : Prop := - 2 ^ 63 < z < 2 ^ 63 - 1.

(** The finite values a unit may hold. *)
Definition unit_val (k : unit_kind) (z : Z) : Prop :=
  finite_val z ∧ (one_sided k = true → 0 ≤ z).

Lemma arith64 z : - 2 ^ 63 ≤ z < 2 ^ 63 → arith int64_t z = Ret z.
Proof. intros. apply arith_in_range; [done|]. unfold values, int_min, int_max; simpl. lia. Qed.

Lemma arith64_overflow z : ¬ (- 2 ^ 63 ≤ z < 2 ^ 63) → arith int64_t z = Crash SignedOverflow.
Proof.
  intros Hz. unfold arith; simpl. destruct (in_range int64_t z) eqn:E; [|done].
  apply in_range_spec in E. unfold values, int_min, int_max in E; simpl in E. lia.
Qed.

Lemma c_div64 n d : 0 < d → - 2 ^ 63 ≤ n < 2 ^ 63 → c_div int64_t n d = Ret (Z.quot n d).
Proof.
  intros Hd Hn. unfold c_div. zcase; [lia|]. apply arith64.
  destruct (Z.le_gt_cases 0 n).
  - pose proof (Z.quot_pos n d). pose proof (Z.quot_le_upper_bound n d n). nia.
  - pose proof (Z.quot_opp_l (- n) d ltac:(lia)) as E. rewrite Z.opp_involutive in E.
    pose proof (Z.quot_pos (- n) d). pose proof (Z.quot_le_upper_bound (- n) d (- n)). nia.
Qed.

Lemma quot_nonneg n d : 0 ≤ n → 0 < d → Z.quot n d = n / d.
Proof. intros. by apply Z.quot_div_nonneg. Qed.

Lemma dchecked_cast64 {bm : BuildMode} v : - 2 ^ 63 ≤ v < 2 ^ 63 → dchecked_cast int64_t int64_t v = Ret v.
Proof.
  intros Hv. assert (values int64_t v) as HV by (unfold values, int_min, int_max; simpl; lia).
  assert (byte_sized int64_t) by (by split).
  unfold dchecked_cast. rewrite in_range_check by done.
  rewrite dcheck_pass by (by apply in_range_spec). by rewrite bind_ret, convert_in_range.
Qed.

Section UnitLemmas.
Context {bm : BuildMode} {k : unit_kind}.

Lemma IsFinite_val z : finite_val z → IsFinite (k := k) (Unit z) = true.
Proof.
  unfold finite_val, IsFinite, IsInfinite, PlusInfinityVal, MinusInfinityVal; simpl.
  intros. bool_solve. apply orb_false_iff. split; bool_solve; unfold int_max, int_min; simpl; lia.
Qed.

Lemma FromValue_ok z : unit_val k z → FromValue (k := k) int64_t z = Ret (Unit z).
Proof.
  intros [Hf Hs]. unfold finite_val in Hf. unfold FromValue.
  assert ((if one_sided k then RTC_DCHECK (z >=? 0) else Ret tt) = Ret tt) as ->.
  { destruct (one_sided k); [|done]. rewrite Z.geb_leb, dcheck_pass; [done|]. bool_solve. }
  rewrite bind_ret, Z.gtb_ltb. unfold MinusInfinityVal, PlusInfinityVal, int_max, int_min; simpl.
  do 2 pass. by rewrite dchecked_cast64 by lia.
Qed.

Lemma ToValue_ok z : finite_val z → ToValue (k := k) int64_t (Unit z) = Ret z.
Proof.
  intros Hf. unfold ToValue. rewrite IsFinite_val by done. pass.
  unfold finite_val in Hf. simpl. apply dchecked_cast64. lia.
Qed.

Lemma unit_mul_ok a s : finite_val a → unit_val k (a * s) →
  unit_mul (k := k) (Unit a) s = Ret (Unit (a * s)).
Proof.
  intros Ha Hs. unfold unit_mul. rewrite ToValue_ok, bind_ret by done.
  destruct Hs as [Hf ?]. unfold finite_val in Hf.
  rewrite arith64, bind_ret by lia. by apply FromValue_ok.
Qed.

Lemma round_checks_ok v r : finite_val v → finite_val r → 0 < r →
  round_checks (k := k) (Unit v) (Unit r) = Ret tt.
Proof.
  intros. unfold round_checks. rewrite !IsFinite_val by done. do 2 pass.
  simpl. rewrite Z.gtb_ltb. apply dcheck_pass. bool_solve.
Qed.

End UnitLemmas.

(** ** Units as extended integers *)

Inductive ext := Fin (z : Z) | PInf | MInf.

Definition denote {k} (u : unit_t k) : ext :=
  if IsPlusInfinity u then PInf else if IsMinusInfinity u then MInf else Fin (value_ u).

(** Sums of opposite infinities are undefined. *)
Definition ext_add (a b : ext) : option ext :=
  match a, b with
  | Fin x, Fin y => Some (Fin (x + y))
  | PInf, MInf | MInf, PInf => None
  | PInf, _ | _, PInf => Some PInf
  | MInf, _ | _, MInf => Some MInf
  end.

Definition ext_opp (a : ext) : ext :=
  match a with Fin x => Fin (- x) | PInf => MInf | MInf => PInf end.

(** A unit of kind [k] can hold the extended integer. *)
Definition ext_ok (k : unit_kind) (e : ext) : Prop :=
  match e with Fin z => unit_val k z | _ => True end.

Definition wf_unit {k} (u : unit_t k) : Prop := values int64_t (value_ u).

(** The three shapes a well-formed unit can have. *)
Lemma unit_cases {k} (u : unit_t k) :
  wf_unit u →
  (u = PlusInfinity ∧ denote u = PInf) ∨ (u = MinusInfinity ∧ denote u = MInf) ∨
  (∃ z, u = Unit z ∧ finite_val z ∧ denote u = Fin z ∧
        IsPlusInfinity u = false ∧ IsMinusInfinity u = false).
Proof.
  destruct u as [z]. unfold wf_unit, values, denote, finite_val, IsPlusInfinity, IsMinusInfinity,
    PlusInfinity, MinusInfinity, PlusInfinityVal, MinusInfinityVal, int_max, int_min; simpl. intros Hz.
  destruct (Z.eqb_spec z 9223372036854775807) as [->|]; [by left|].
  destruct (Z.eqb_spec z (-9223372036854775808)) as [->|]; [by right; left|].
  right; right. exists z. rewrite ?(proj2 (Z.eqb_neq _ _)) by done. split_and!; try done; lia.
Qed.

Lemma denote_finite {k} z : finite_val z → denote (k := k) (Unit z) = Fin z.
Proof.
  unfold denote, finite_val, IsPlusInfinity, IsMinusInfinity, PlusInfinityVal, MinusInfinityVal,
    int_max, int_min; simpl. intros. by repeat (zcase; try lia).
Qed.

Section Sums.
Context {bm : BuildMode}.

(** The shared body of the additions and subtractions, for operands of
    kinds [k1] and [k2] and a result of kind [k3]; [pos] tells an addition
    from a subtraction. *)
Definition signed_sum {k1 k2} (k3 : unit_kind) (pos : bool) (u : unit_t k1) (v : unit_t k2)
    : outcome (unit_t k3) :=
  if IsPlusInfinity u || (if pos then IsPlusInfinity v else IsMinusInfinity v) then
    RTC_DCHECK (negb (IsMinusInfinity u)) ≫= λ _,
    RTC_DCHECK (negb (if pos then IsMinusInfinity v else IsPlusInfinity v)) ≫= λ _,
    Ret (PlusInfinity (k := k3))
  else if IsMinusInfinity u || (if pos then IsMinusInfinity v else IsPlusInfinity v) then
    RTC_DCHECK (negb (IsPlusInfinity u)) ≫= λ _,
    RTC_DCHECK (negb (if pos then IsPlusInfinity v else IsMinusInfinity v)) ≫= λ _,
    Ret (MinusInfinity (k := k3))
  else
    a ← ToValue int64_t u; b ← ToValue int64_t v;
    s ← arith int64_t (if pos then a + b else a - b); FromValue int64_t s.
Arguments signed_sum {k1 k2} k3 pos u v.

Lemma signed_sum_refines {k1 k2} k3 (pos : bool) (u : unit_t k1) (v : unit_t k2) e :
  wf_unit u → wf_unit v →
  ext_add (denote u) (if pos then denote v else ext_opp (denote v)) = Some e → ext_ok k3 e →
  ∃ w, signed_sum k3 pos u v = Ret w ∧ denote w = e.
Proof.
  intros Hu Hv Hsum Hok.
  destruct (unit_cases u Hu) as [[-> Eu]|[[-> Eu]|(a & -> & Ha & Eu & Ep & Em)]];
  destruct (unit_cases v Hv) as [[-> Ev]|[[-> Ev]|(b & -> & Hb & Ev & Ep' & Em')]];
  rewrite Eu, Ev in Hsum; destruct pos; simpl in Hsum; simplify_eq;
  unfold signed_sum; rewrite ?Ep, ?Em, ?Ep', ?Em'; simpl;
  try (unfold RTC_DCHECK; rewrite !andb_false_r; simpl; eexists; split; reflexivity);
  rewrite !ToValue_ok by done; simpl; destruct Hok as [Hf Hn]; pose proof Hf as Hf';
  unfold finite_val in Hf';
  (rewrite arith64 by lia); simpl; (rewrite FromValue_ok by (split; done));
  eexists; (split; [done|by apply denote_finite]).
Qed.

End Sums.

Lemma signed_sum_undefined {k1 k2} k3 (pos : bool) (u : unit_t k1) (v : unit_t k2) :
  wf_unit u → wf_unit v →
  ext_add (denote u) (if pos then denote v else ext_opp (denote v)) = None →
  @signed_sum debug_build k1 k2 k3 pos u v = Crash DCheckFailed.
Proof.
  intros Hu Hv Hsum.
  destruct (unit_cases u Hu) as [[-> Eu]|[[-> Eu]|(a & -> & Ha & Eu & Ep & Em)]];
  destruct (unit_cases v Hv) as [[-> Ev]|[[-> Ev]|(b & -> & Hb & Ev & Ep' & Em')]];
  rewrite Eu, Ev in Hsum; destruct pos; simpl in Hsum; simplify_eq; reflexivity.
Qed.

(** ** Rounding and conversion *)

Section Rounding.
Context {bm : BuildMode} {k : unit_kind}.

Lemma finite_between z lo hi : finite_val lo → finite_val hi → lo ≤ z ≤ hi → finite_val z.
Proof. unfold finite_val. lia. Qed.

(** [q * r] from a quotient [q] of [s] by [r]. *)
Lemma quot_mul_bounds s r :
  0 < r → 0 ≤ s → s - r < Z.quot s r * r ≤ s.
Proof.
  intros Hr Hs. rewrite quot_nonneg by done.
  pose proof (Z.mul_div_le s r Hr). pose proof (Z.mul_succ_div_gt s r Hr). lia.
Qed.

Lemma quot_mul_ok s r :
  0 < r → 0 ≤ s → finite_val s →
  unit_mul (k := k) (Unit (Z.quot s r)) r = Ret (Unit (Z.quot s r * r)).
Proof.
  intros Hr Hs Hf. pose proof (quot_mul_bounds s r Hr Hs) as Hb.
  pose proof (Z.quot_pos s r Hs Hr) as Hq. unfold finite_val in *.
  apply unit_mul_ok; [unfold finite_val; nia|]. split; [unfold finite_val; nia|]. intros; nia.
Qed.

Lemma RoundDownTo_nonneg v r :
  0 ≤ v → finite_val v → 0 < r → finite_val r →
  RoundDownTo (k := k) (Unit v) (Unit r) = Ret (Unit (Z.quot v r * r)).
Proof.
  intros Hv Hf Hr Hfr. unfold RoundDownTo. rewrite round_checks_ok, bind_ret by done. simpl.
  unfold finite_val in Hf. rewrite c_div64, bind_ret by lia. by apply quot_mul_ok.
Qed.

Lemma RoundUpTo_nonneg v r :
  0 ≤ v → finite_val (v + r) → 0 < r →
  RoundUpTo (k := k) (Unit v) (Unit r) = Ret (Unit (Z.quot (v + r - 1) r * r)).
Proof.
  intros Hv Hf Hr. unfold RoundUpTo.
  rewrite round_checks_ok, bind_ret by (unfold finite_val in *; lia). simpl.
  unfold finite_val in Hf. rewrite arith64, bind_ret by lia. rewrite arith64, bind_ret by lia.
  rewrite c_div64, bind_ret by lia. apply quot_mul_ok; unfold finite_val; lia.
Qed.

Lemma RoundTo_nonneg v r :
  0 ≤ v → finite_val (v + r) → 0 < r →
  RoundTo (k := k) (Unit v) (Unit r) = Ret (Unit (Z.quot (v + r / 2) r * r)).
Proof.
  intros Hv Hf Hr. unfold RoundTo.
  rewrite round_checks_ok, bind_ret by (unfold finite_val in *; lia). simpl.
  unfold finite_val in Hf. rewrite c_div64, bind_ret, quot_nonneg by lia.
  pose proof (Z.div_mod r 2 ltac:(lia)). pose proof (Z.mod_pos_bound r 2 ltac:(lia)).
  rewrite arith64, bind_ret by lia.
  rewrite c_div64, bind_ret by lia. apply quot_mul_ok; unfold finite_val; lia.
Qed.

End Rounding.

Lemma DivRoundPositive_spec n d :
  0 ≤ n → 0 < d → n + d < 2 ^ 63 → DivRoundPositiveToNearest n d = Ret ((n + d / 2) / d).
Proof.
  intros Hn Hd Hb. unfold DivRoundPositiveToNearest.
  pose proof (Z.div_mod d 2 ltac:(lia)). pose proof (Z.mod_pos_bound d 2 ltac:(lia)).
  rewrite c_div64, bind_ret, quot_nonneg by lia. rewrite arith64, bind_ret by lia.
  rewrite c_div64, quot_nonneg by lia. done.
Qed.

Lemma DivRound_spec n d :
  0 < d → - 2 ^ 63 < n - d → n + d < 2 ^ 63 →
  DivRoundToNearest n d = Ret (Z.sgn n * ((Z.abs n + d / 2) / d)).
Proof.
  intros Hd Hl Hb. unfold DivRoundToNearest.
  pose proof (Z.div_mod d 2 ltac:(lia)). pose proof (Z.mod_pos_bound d 2 ltac:(lia)).
  rewrite Z.geb_leb. zcase.
  - rewrite c_div64, bind_ret, quot_nonneg by lia. rewrite arith64, bind_ret by lia.
    rewrite c_div64, quot_nonneg by lia. rewrite Z.abs_eq by lia. f_equal.
    destruct (Z.eq_dec n 0) as [->|]; [|rewrite Z.sgn_pos by lia; lia].
    simpl. apply Z.div_small. lia.
  - rewrite arith64, bind_ret by lia. rewrite c_div64, bind_ret by lia.
    rewrite Z.quot_opp_l, quot_nonneg by lia. rewrite arith64, bind_ret by lia.
    rewrite c_div64 by lia. rewrite Z.sgn_neg, Z.abs_neq by lia. f_equal.
    replace (n + - (d / 2)) with (- (- n + d / 2)) by lia.
    rewrite Z.quot_opp_l, quot_nonneg by lia. lia.
Qed.

(** ** Sums of units *)

(** [op] implements the partial operation [f] on extended integers: it
    returns the exact result whenever the result type can hold it, and where
    [f] is undefined a build with debug checks stops. *)
Definition implements_sum {bm : BuildMode} {k1 k2 k3} (f : ext → ext → option ext)
    (op : unit_t k1 → unit_t k2 → outcome (unit_t k3)) : Prop :=
  ∀ u v, wf_unit u → wf_unit v →
    match f (denote u) (denote v) with
    | Some e => ext_ok k3 e → ∃ w, op u v = Ret w ∧ denote w = e
    | None => RTC_DCHECK_IS_ON = true → op u v = Crash DCheckFailed
    end.

Definition ext_sub (a b : ext) : option ext := ext_add a (ext_opp b).

Lemma signed_sum_implements {bm : BuildMode} {k1 k2 k3} (pos : bool) :
  implements_sum (if pos then ext_add else ext_sub) (signed_sum (k1 := k1) (k2 := k2) k3 pos).
Proof.
  intros u v Hu Hv.
  destruct ((if pos then ext_add else ext_sub) (denote u) (denote v)) as [e|] eqn:E.
  - intros Hok. apply signed_sum_refines; [done..| |done]. by destruct pos.
  - destruct bm as [[]]; [|done]. intros _. apply signed_sum_undefined; [done..|]. by destruct pos.
Qed.

(** The sums and differences of units are those of the integers extended
    with two infinities: [UnitBase::operator+] and [operator-] within a
    kind, [Timestamp + TimeDelta], [Timestamp - TimeDelta] and
    [Timestamp - Timestamp] return the exact extended-integer result whenever
    the result's unit can represent it (for one-sided units, when it is not
    negative), and adding opposite infinities is stopped by a debug check. *)
Theorem unit_sums_exact {bm : BuildMode} (k : unit_kind) :
  implements_sum ext_add (unit_add (k := k)) ∧
  implements_sum ext_sub (unit_sub (k := k)) ∧
  implements_sum ext_add Timestamp_plus ∧
  implements_sum ext_sub Timestamp_minus ∧
  implements_sum ext_sub Timestamp_diff.
Proof.
  split_and!.
  - exact (signed_sum_implements (k1 := k) (k2 := k) (k3 := k) true).
  - exact (signed_sum_implements (k1 := k) (k2 := k) (k3 := k) false).
  - exact (signed_sum_implements (k1 := KTimestamp) (k2 := KTimeDelta) (k3 := KTimestamp) true).
  - exact (signed_sum_implements (k1 := KTimestamp) (k2 := KTimeDelta) (k3 := KTimestamp) false).
  - exact (signed_sum_implements (k1 := KTimestamp) (k2 := KTimestamp) (k3 := KTimeDelta) false).
Qed.

(** ** Rounding *)

(** For a non-negative value and a positive resolution the three rounding
    operations return a multiple of the resolution: [RoundDownTo] the
    greatest one not above the value, [RoundUpTo] the least one not below it,
    and [RoundTo] a nearest one, ties going up. *)
Theorem rounding_nonnegative {bm : BuildMode} (k : unit_kind) (v r : Z) :
  0 ≤ v → 0 < r → finite_val (v + r) →
  ∃ lo hi mid,
    RoundDownTo (k := k) (Unit v) (Unit r) = Ret (Unit (lo * r)) ∧
    lo * r ≤ v < (lo + 1) * r ∧
    RoundUpTo (k := k) (Unit v) (Unit r) = Ret (Unit (hi * r)) ∧
    (hi - 1) * r < v ≤ hi * r ∧
    RoundTo (k := k) (Unit v) (Unit r) = Ret (Unit (mid * r)) ∧
    - r ≤ 2 * (v - mid * r) < r.
Proof.
  intros Hv Hr Hf.
  assert (finite_val v ∧ finite_val r) as [Hfv Hfr] by (unfold finite_val in *; lia).
  exists (Z.quot v r), (Z.quot (v + r - 1) r), (Z.quot (v + r / 2) r).
  pose proof (Z.div_mod r 2 ltac:(lia)). pose proof (Z.mod_pos_bound r 2 ltac:(lia)).
  pose proof (quot_mul_bounds v r Hr Hv). pose proof (quot_mul_bounds (v + r - 1) r Hr ltac:(lia)).
  pose proof (quot_mul_bounds (v + r / 2) r Hr ltac:(lia)).
  split_and!; try lia.
  - by apply RoundDownTo_nonneg.
  - by apply RoundUpTo_nonneg.
  - by apply RoundTo_nonneg.
Qed.

Lemma rounding_nonnegative_witness :
  RoundUpTo (bm := debug_build) (k := KTimeDelta) (Unit 17) (Unit 5) = Ret (Unit 20).
Proof.
  destruct (rounding_nonnegative (bm := debug_build) KTimeDelta 17 5) as (lo & hi & mid & _ & _ & E & H & _);
    [done|done|by vm_compute|].
  rewrite E. do 2 f_equal. lia.
Defined.

Lemma quot_neg_small s r : 0 < r → - r < s < r → Z.quot s r = 0.
Proof.
  intros. destruct (Z.le_gt_cases 0 s); [apply Z.quot_small; lia|].
  rewrite <-(Z.opp_involutive s), Z.quot_opp_l, Z.quot_small; lia.
Qed.

(** Rounding a negative [TimeDelta] is not rounding in the documented
    direction, because integer division truncates toward zero: for every
    negative value strictly between [-resolution] and [0], [RoundDownTo]
    returns zero, which is above the value, although [-resolution] is the
    multiple below it; and for a value that already is the negative multiple
    [-n * resolution] both [RoundUpTo] and, when the resolution is at least
    two, [RoundTo] return the next multiple instead of the value itself. *)
Theorem rounding_negative_truncates {bm : BuildMode} (v r n : Z) :
  1 < r → finite_val r → - r < v < 0 → 0 < n → finite_val (n * r) →
  RoundDownTo (k := KTimeDelta) (Unit v) (Unit r) = Ret (Unit 0) ∧
  RoundUpTo (k := KTimeDelta) (Unit (- n * r)) (Unit r) = Ret (Unit ((- n + 1) * r)) ∧
  RoundTo (k := KTimeDelta) (Unit (- n * r)) (Unit r) = Ret (Unit ((- n + 1) * r)).
Proof.
  intros Hr Hfr Hv Hn Hf. unfold finite_val in *.
  assert (∀ z, - 2 ^ 63 < z < 2 ^ 63 - 1 → unit_val KTimeDelta z) as HU by (split; [done|discriminate]).
  assert (∀ e, 0 < e < r → Z.quot (- n * r + e) r = - n + 1) as Hq.
  { intros e He. replace (- n * r + e) with (- ((n - 1) * r + (r - e))) by lia.
    rewrite Z.quot_opp_l, quot_nonneg by nia.
    rewrite Z.div_add_l, Z.div_small by lia. lia. }
  pose proof (Z.div_mod r 2 ltac:(lia)). pose proof (Z.mod_pos_bound r 2 ltac:(lia)).
  assert (n ≤ n * r) by nia.
  split_and!.
  - unfold RoundDownTo. rewrite round_checks_ok, bind_ret by (unfold finite_val; lia). simpl.
    rewrite c_div64, bind_ret, quot_neg_small by lia. by rewrite unit_mul_ok by (apply HU || done; lia).
  - unfold RoundUpTo. rewrite round_checks_ok, bind_ret by (unfold finite_val; lia). simpl.
    rewrite arith64, bind_ret, arith64, bind_ret, c_div64, bind_ret by lia.
    replace (- n * r + r - 1) with (- n * r + (r - 1)) by lia. rewrite Hq by lia.
    apply unit_mul_ok; [unfold finite_val; lia|apply HU; lia].
  - unfold RoundTo. rewrite round_checks_ok, bind_ret by (unfold finite_val; lia). simpl.
    rewrite (c_div64 r), bind_ret, quot_nonneg, arith64, bind_ret, c_div64, bind_ret by lia.
    rewrite Hq by lia.
    apply unit_mul_ok; [unfold finite_val; lia|apply HU; lia].
Qed.

Lemma rounding_negative_truncates_witness :
  RoundUpTo (bm := debug_build) (k := KTimeDelta) (Unit (-30)) (Unit 10) = Ret (Unit (-20)) ∧
  RoundTo (bm := debug_build) (k := KTimeDelta) (Unit (-30)) (Unit 10) = Ret (Unit (-20)).
Proof.
  apply (rounding_negative_truncates (bm := debug_build) (-3) 10 3); try done; by vm_compute.
Defined.

(** ** Conversions between resolutions *)

(** The products [FromFraction] computes. *)
Lemma fraction_bounds d v :
  0 < d → Z.abs v < Z.quot (int_max int64_t) d → Z.abs (v * d) + d < 2 ^ 63.
Proof.
  intros Hd. rewrite quot_nonneg by done. change (int_max int64_t) with (2 ^ 63 - 1). intros Hv.
  pose proof (Z.mul_div_le (2 ^ 63 - 1) d Hd). rewrite Z.abs_mul, (Z.abs_eq d) by lia. nia.
Qed.

Lemma FromFraction_ok {bm : BuildMode} (k : unit_kind) d v :
  0 < d → Z.abs v < Z.quot (int_max int64_t) d → (one_sided k = true → 0 ≤ v) →
  FromFraction (k := k) int64_t d v = Ret (Unit (v * d)).
Proof.
  intros Hd Hv Hs. pose proof (fraction_bounds d v Hd Hv) as Hb. unfold FromFraction.
  assert (Z.quot MinusInfinityVal d ≤ - Z.quot (int_max int64_t) d) as Hm.
  { rewrite <-Z.quot_opp_l by lia. apply Z.quot_le_mono; [done|]. by vm_compute. }
  assert ((if one_sided k then RTC_DCHECK (v >=? 0) else Ret tt) = Ret tt) as ->.
  { destruct (one_sided k); [|done]. rewrite Z.geb_leb, dcheck_pass; [done|]. bool_solve. }
  rewrite bind_ret, Z.gtb_ltb. change PlusInfinityVal with (int_max int64_t). do 2 pass.
  assert (∀ z, Z.abs z < 2 ^ 63 → convert int64_t z = z) as HC.
  { intros z Hz. apply convert_in_range; [done|]. unfold values, int_min, int_max; simpl. lia. }
  assert (d < 2 ^ 63) by lia.
  assert (common_type (promote int64_t) int64_t = int64_t) as -> by done.
  rewrite !HC by nia. rewrite arith64, bind_ret, dchecked_cast64 by lia. done.
Qed.

(** The quotient both [DivRound] variants compute. *)
Definition nearest (n d : Z) : Z := Z.sgn n * ((Z.abs n + d / 2) / d).

Lemma nearest_spec n d : 0 < d → - d ≤ 2 * (n - nearest n d * d) ≤ d.
Proof.
  intros Hd. unfold nearest.
  pose proof (Z.div_mod d 2 ltac:(lia)). pose proof (Z.mod_pos_bound d 2 ltac:(lia)).
  pose proof (Z.mul_div_le (Z.abs n + d / 2) d Hd).
  pose proof (Z.mul_succ_div_gt (Z.abs n + d / 2) d Hd).
  destruct (Z.lt_trichotomy n 0) as [?|[->|?]]; [rewrite Z.sgn_neg by lia|simpl|rewrite Z.sgn_pos by lia]; nia.
Qed.

Lemma nearest_mul v d : 0 < d → nearest (v * d) d = v.
Proof. intros Hd. pose proof (nearest_spec (v * d) d Hd). nia. Qed.

Lemma ToFraction_ok {bm : BuildMode} (k : unit_kind) d v :
  0 < d → Z.abs v + d < 2 ^ 63 → (one_sided k = true → 0 ≤ v) →
  ToFraction (k := k) d int64_t (Unit v) = Ret (nearest v d).
Proof.
  intros Hd Hb Hs. unfold ToFraction. rewrite IsFinite_val by (unfold finite_val; lia). pass. simpl.
  assert (Z.abs (nearest v d) < 2 ^ 63) by (pose proof (nearest_spec v d Hd); nia).
  assert (DivRoundToNearest v d = Ret (nearest v d)) as HD by (apply DivRound_spec; lia).
  destruct (one_sided k); [|rewrite HD; apply dchecked_cast64; lia].
  specialize (Hs eq_refl). rewrite DivRoundPositive_spec by lia.
  unfold DivRoundToNearest in HD. rewrite Z.geb_leb, (proj2 (Z.leb_le 0 v) Hs) in HD.
  change (DivRoundPositiveToNearest v d = Ret (nearest v d)) in HD.
  rewrite DivRoundPositive_spec in HD by lia. injection HD as ->. apply dchecked_cast64; lia.
Qed.

(** Converting a count to a coarser unit and back is the identity: for a
    denominator [d] (1000 for milliseconds, 1000000 for seconds, 8 for bytes
    per second, ...) [FromFraction] followed by [ToFraction] returns the
    value it was given, negative values of two-sided units included; and
    [ToFraction] of any finite value [w] of the unit is a nearest quotient. *)
Theorem fraction_round_trip {bm : BuildMode} (k : unit_kind) (d v w : Z) :
  0 < d → Z.abs v < Z.quot (int_max int64_t) d → Z.abs w + d < 2 ^ 63 →
  (one_sided k = true → 0 ≤ v ∧ 0 ≤ w) →
  (FromFraction (k := k) int64_t d v ≫= ToFraction d int64_t) = Ret v ∧
  ∃ q, ToFraction (k := k) d int64_t (Unit w) = Ret q ∧ - d ≤ 2 * (w - q * d) ≤ d.
Proof.
  intros Hd Hv Hw Hs. pose proof (fraction_bounds d v Hd Hv). split.
  - rewrite FromFraction_ok, bind_ret, ToFraction_ok, nearest_mul; try done;
      intros Hk; destruct (Hs Hk); nia.
  - eexists. rewrite ToFraction_ok by (done || by intros; apply Hs). split; [done|]. by apply nearest_spec.
Qed.

Lemma fraction_round_trip_witness :
  (FromFraction (bm := debug_build) (k := KTimeDelta) int64_t 1000 (-25) ≫=
     ToFraction (bm := debug_build) 1000 int64_t) = Ret (-25).
Proof.
  apply (fraction_round_trip (bm := debug_build) KTimeDelta 1000 (-25) 1); done.
Defined.

(** ** Data rates *)

Section Rates.
Context {bm : BuildMode}.

Lemma Microbits_ok s : 0 ≤ s → s * 8000000 < 2 ^ 63 - 1 → Microbits (Unit s) = Ret (s * 8000000).
Proof.
  intros Hs Hb. unfold Microbits, DataSize_bytes.
  rewrite ToValue_ok, !bind_ret by (unfold finite_val; lia).
  assert ((s <=? Z.quot (int_max int64_t) 8000000) = true) as ->.
  { apply Z.leb_le, Z.quot_le_lower_bound; unfold int_max; simpl; lia. }
  rewrite dcheck_pass by done. destruct RTC_DCHECK_IS_ON; rewrite bind_ret; apply arith64; lia.
Qed.

Lemma rate_times_duration_eq bps us :
  0 ≤ bps → finite_val bps → 0 ≤ us → finite_val us →
  rate_times_duration (Unit bps) (Unit us) =
    if bps * us + 4000000 <? 2 ^ 63 then Ret (Unit ((bps * us + 4000000) / 8000000))
    else Crash SignedOverflow.
Proof.
  intros Hb Hfb Hu Hfu. unfold rate_times_duration, DataRate_bps, TimeDelta_us.
  rewrite !ToValue_ok, !bind_ret by done. zcase.
  - rewrite arith64, bind_ret, arith64, bind_ret, c_div64, bind_ret, quot_nonneg by nia.
    pose proof (Z.mul_div_le (bps * us + 4000000) 8000000 ltac:(lia)).
    pose proof (Z.div_pos (bps * us + 4000000) 8000000 ltac:(nia) ltac:(lia)).
    apply FromValue_ok. split; [unfold finite_val; lia|done].
  - destruct (Z.lt_ge_cases (bps * us) (2 ^ 63)).
    + rewrite (arith64 (bps * us)), bind_ret by lia. by rewrite arith64_overflow by lia.
    + by rewrite arith64_overflow by lia.
Qed.

Lemma size_per_rate_eq s bps :
  0 ≤ s → s * 8000000 < 2 ^ 63 - 1 → 0 < bps → finite_val bps →
  size_per_rate (Unit s) (Unit bps) = Ret (Unit (s * 8000000 / bps)).
Proof.
  intros Hs Hb Hp Hf. unfold size_per_rate, DataRate_bps.
  rewrite Microbits_ok, bind_ret, ToValue_ok, bind_ret, c_div64, bind_ret, quot_nonneg by (done || lia).
  pose proof (Z.mul_div_le (s * 8000000) bps Hp). pose proof (Z.div_pos (s * 8000000) bps ltac:(lia) Hp).
  apply FromValue_ok. split; [unfold finite_val; nia|done].
Qed.

End Rates.

(** [rate * duration] is the data sent in that time to the nearest byte,
    and its intermediate product is not checked: for finite non-negative
    operands it returns exactly when the number of microbits plus half a byte
    fits in [int64_t], and is undefined behaviour (signed overflow) otherwise,
    in every build. *)
Theorem rate_times_duration_bounds {bm : BuildMode} (bps us : Z) :
  0 ≤ bps → finite_val bps → 0 ≤ us → finite_val us →
  (bps * us + 4000000 < 2 ^ 63 →
     ∃ bytes, rate_times_duration (Unit bps) (Unit us) = Ret (Unit bytes) ∧
              - 4000000 ≤ bps * us - 8000000 * bytes < 4000000) ∧
  (2 ^ 63 ≤ bps * us + 4000000 →
     rate_times_duration (Unit bps) (Unit us) = Crash SignedOverflow).
Proof.
  intros. rewrite rate_times_duration_eq by done. zcase; split; try lia; [|done]. intros _.
  pose proof (Z.mul_div_le (bps * us + 4000000) 8000000 ltac:(lia)).
  pose proof (Z.mul_succ_div_gt (bps * us + 4000000) 8000000 ltac:(lia)).
  eexists. split; [reflexivity|]. lia.
Qed.

Lemma rate_times_duration_bounds_witness :
  rate_times_duration (bm := release_build) (Unit 2000000000) (Unit 3600000000) = Ret (Unit 900000000000) ∧
  rate_times_duration (bm := release_build) (Unit 10000000000) (Unit 3600000000) = Crash SignedOverflow.
Proof.
  split.
  - destruct (proj1 (rate_times_duration_bounds (bm := release_build) 2000000000 3600000000
      ltac:(done) ltac:(done) ltac:(done) ltac:(done))) as (b & -> & Hb); [done|].
    do 2 f_equal. lia.
  - by apply (rate_times_duration_bounds (bm := release_build) 10000000000 3600000000).
Defined.

(** Pacing is consistent: sending [s] bytes at [bps] bits per second takes
    [size / rate] microseconds, and sending at that rate for that time sends
    back at most [s] bytes, short of it by no more than one microsecond's
    worth of data; up to 4 Mbit/s it is exactly [s] bytes. *)
Theorem pacing_round_trip {bm : BuildMode} (s bps : Z) :
  0 ≤ s → s * 8000000 + 4000000 < 2 ^ 63 → 0 < bps → finite_val bps →
  ∃ s', (size_per_rate (Unit s) (Unit bps) ≫= rate_times_duration (Unit bps)) = Ret (Unit s') ∧
        s' ≤ s ∧ 8000000 * (s - s') < bps + 4000000 ∧ (bps ≤ 4000000 → s' = s).
Proof.
  intros Hs Hb Hp Hf. rewrite size_per_rate_eq, bind_ret by (done || lia).
  pose proof (Z.mul_div_le (s * 8000000) bps Hp). pose proof (Z.mul_succ_div_gt (s * 8000000) bps Hp).
  pose proof (Z.div_pos (s * 8000000) bps ltac:(lia) Hp).
  set (us := s * 8000000 / bps) in *.
  rewrite rate_times_duration_eq by (done || unfold finite_val in *; nia). zcase; [|lia].
  pose proof (Z.mul_div_le (bps * us + 4000000) 8000000 ltac:(lia)).
  pose proof (Z.mul_succ_div_gt (bps * us + 4000000) 8000000 ltac:(lia)).
  eexists. split; [reflexivity|]. lia.
Qed.

Lemma pacing_round_trip_witness :
  (size_per_rate (bm := debug_build) (Unit 1200) (Unit 300000) ≫=
     rate_times_duration (bm := debug_build) (Unit 300000)) = Ret (Unit 1200).
Proof.
  destruct (pacing_round_trip (bm := debug_build) 1200 300000) as (s' & -> & _ & _ & Hs');
    [done|done|done|done|]. by rewrite Hs'.
Defined.
