(* ===== verification/ByteIo.v ===== *)
(** * Reading and writing integers as bytes

    Model of [src/include/modules/rtp_rtcp/source/byte_io.h]: the templates
    [ByteReader] and [ByteWriter], their general definitions and the
    specialisations for one, two, four and eight bytes.  The bytes behind a
    [uint8_t*] are a list of integers in [0, 256); an access past its end is
    the outcome [OutOfBounds].  Template arguments are arguments of the
    definitions. *)

From S2P Require Import Prelude SafeConversions SafeMinMax.

(** ** Memory and shifts *)

Definition load (data : list Z) (i : nat) : outcome Z := from_option_or OutOfBounds (data !! i).

Definition store (data : list Z) (i : nat) (v : Z) : outcome (list Z) :=
  if (i <? length data)%nat then Ret (<[i := v]> data) else Crash OutOfBounds.

(** ** ByteReader for unsigned types *)

(** The loop shared by the two readers, [shift i] being the shift of byte
    [i]; [n] bytes are left from index [i] on. *)
Fixpoint or_loop (T : int_type) (data : list Z) (shift : nat → Z) (n i : nat) (val : Z) : outcome Z :=
  match n with
  | O => Ret val
  | S n' =>
      c ← load data i;
      s ← shl (promote T) (convert T c) (shift i);
      or_loop T data shift n' (S i) (convert T (Z.lor val s))
  end.

Definition InternalReadBigEndian (T : int_type) (B : nat) (data : list Z) : outcome Z :=
  or_loop T data (λ i, (Z.of_nat B - 1 - Z.of_nat i) * 8) B 0 0.

Definition InternalReadLittleEndian (T : int_type) (B : nat) (data : list Z) : outcome Z :=
  or_loop T data (λ i, Z.of_nat i * 8) B 0 0.

(** [Get] of the four and eight byte readers. *)
Definition Get (T : int_type) (data : list Z) (index : nat) : outcome Z :=
  c ← load data index; Ret (convert T c).

(** A byte of the expressions [Get(data, i) << s] and [data[i] << s]; the
    second computes in [int]. *)
Definition Get_shl (T : int_type) (data : list Z) (index : nat) (s : Z) : outcome Z :=
  c ← Get T data index; shl (promote T) c s.

Definition ReadBigEndian_1 (T : int_type) (data : list Z) : outcome Z := Get T data 0.
Definition ReadLittleEndian_1 (T : int_type) (data : list Z) : outcome Z := Get T data 0.

Definition ReadBigEndian_2 (T : int_type) (data : list Z) : outcome Z :=
  a ← Get_shl uint8_t data 0 8; b ← Get uint8_t data 1;
  Ret (convert T (Z.lor a b)).

Definition ReadLittleEndian_2 (T : int_type) (data : list Z) : outcome Z :=
  a ← Get uint8_t data 0; b ← Get_shl uint8_t data 1 8;
  Ret (convert T (Z.lor a b)).

Definition ReadBigEndian_4 (T : int_type) (data : list Z) : outcome Z :=
  a ← Get_shl T data 0 24; b ← Get_shl T data 1 16; c ← Get_shl T data 2 8; d ← Get T data 3;
  Ret (convert T (Z.lor (Z.lor (Z.lor a b) c) d)).

Definition ReadLittleEndian_4 (T : int_type) (data : list Z) : outcome Z :=
  a ← Get T data 0; b ← Get_shl T data 1 8; c ← Get_shl T data 2 16; d ← Get_shl T data 3 24;
  Ret (convert T (Z.lor (Z.lor (Z.lor a b) c) d)).

Definition ReadBigEndian_8 (T : int_type) (data : list Z) : outcome Z :=
  a ← Get_shl T data 0 56; b ← Get_shl T data 1 48; c ← Get_shl T data 2 40; d ← Get_shl T data 3 32;
  e ← Get_shl T data 4 24; f ← Get_shl T data 5 16; g ← Get_shl T data 6 8; h ← Get T data 7;
  Ret (convert T (Z.lor (Z.lor (Z.lor (Z.lor (Z.lor (Z.lor (Z.lor a b) c) d) e) f) g) h)).

Definition ReadLittleEndian_8 (T : int_type) (data : list Z) : outcome Z :=
  a ← Get T data 0; b ← Get_shl T data 1 8; c ← Get_shl T data 2 16; d ← Get_shl T data 3 24;
  e ← Get_shl T data 4 32; f ← Get_shl T data 5 40; g ← Get_shl T data 6 48; h ← Get_shl T data 7 56;
  Ret (convert T (Z.lor (Z.lor (Z.lor (Z.lor (Z.lor (Z.lor (Z.lor a b) c) d) e) f) g) h)).

(** The static assertions: which [T] and [B] can be instantiated. *)
Definition static_assert_ok (T : int_type) (B : nat) : bool :=
  match B with
  | 1%nat => sizeof T =? 1
  | _ => Z.of_nat B <=? sizeof T
  end.

(** [ByteReader<T, B, false>], with the choice of the specialisation. *)
Definition ReadBigEndian_unsigned (T : int_type) (B : nat) (data : list Z) : outcome Z :=
  match B with
  | 1%nat => ReadBigEndian_1 T data
  | 2%nat => ReadBigEndian_2 T data
  | 4%nat => ReadBigEndian_4 T data
  | 8%nat => ReadBigEndian_8 T data
  | _ => InternalReadBigEndian T B data
  end.

Definition ReadLittleEndian_unsigned (T : int_type) (B : nat) (data : list Z) : outcome Z :=
  match B with
  | 1%nat => ReadLittleEndian_1 T data
  | 2%nat => ReadLittleEndian_2 T data
  | 4%nat => ReadLittleEndian_4 T data
  | 8%nat => ReadLittleEndian_8 T data
  | _ => InternalReadLittleEndian T B data
  end.

(** ** ByteReader for signed types *)

Definition UnsignedOf (T : int_type) : int_type := IntType (it_bits T) false.

Definition ReinterpretAsSigned (T : int_type) (unsigned_val : Z) : outcome Z :=
  let U := UnsignedOf T in
  m ← shl (promote U) 1 (sizeof U * 8 - 1);
  let kUnsignedHighestBitMask := convert U m in
  let kSignedHighestBitMask := int_min T in
  if negb (Z.land unsigned_val kUnsignedHighestBitMask =? 0)
  then let val := convert T (Z.land unsigned_val
                    (convert (promote U) (Z.lnot kUnsignedHighestBitMask))) in
       Ret (convert T (Z.lor val kSignedHighestBitMask))
  else Ret (convert T unsigned_val).

(** [1 << ((B % sizeof(T)) * 8)] is computed in [int]. *)
Definition SignExtend (T : int_type) (B : nat) (val : Z) : outcome Z :=
  let U := UnsignedOf T in
  k ← shr (promote U) val ((Z.of_nat B - 1) * 8);
  let kMsb := convert uint8_t k in
  if negb (Z.land kMsb 128 =? 0)
  then s ← shl int32_t 1 ((Z.of_nat B mod sizeof T) * 8);
       m ← arith int32_t (s - 1);
       let kUsedBitsMask := convert U m in
       Ret (convert U (Z.lor (convert (promote U) (Z.lnot kUsedBitsMask)) val))
  else Ret val.

(** The signed reader instantiates the unsigned one at the signed type [T]
    and converts what it returns to [U]. *)
Definition ReadBigEndian_signed (T : int_type) (B : nat) (data : list Z) : outcome Z :=
  v ← ReadBigEndian_unsigned T B data;
  let unsigned_val := convert (UnsignedOf T) v in
  u ← (if Z.of_nat B <? sizeof T then SignExtend T B unsigned_val else Ret unsigned_val);
  ReinterpretAsSigned T u.

Definition ReadLittleEndian_signed (T : int_type) (B : nat) (data : list Z) : outcome Z :=
  v ← ReadLittleEndian_unsigned T B data;
  let unsigned_val := convert (UnsignedOf T) v in
  u ← (if Z.of_nat B <? sizeof T then SignExtend T B unsigned_val else Ret unsigned_val);
  ReinterpretAsSigned T u.

Definition ReadBigEndian (T : int_type) (B : nat) (data : list Z) : outcome Z :=
  if it_signed T then ReadBigEndian_signed T B data else ReadBigEndian_unsigned T B data.

Definition ReadLittleEndian (T : int_type) (B : nat) (data : list Z) : outcome Z :=
  if it_signed T then ReadLittleEndian_signed T B data else ReadLittleEndian_unsigned T B data.

(** ** ByteWriter *)

(** One assignment [data[i] = val >> s], which converts to [uint8_t]. *)
Definition store_shr (T : int_type) (val : Z) (data : list Z) (i : nat) (s : Z) : outcome (list Z) :=
  b ← shr (promote T) val s; store data i (convert uint8_t b).

Fixpoint write_loop (T : int_type) (val : Z) (shift : nat → Z) (n i : nat) (data : list Z) : outcome (list Z) :=
  match n with
  | O => Ret data
  | S n' => data' ← store_shr T val data i (shift i); write_loop T val shift n' (S i) data'
  end.

Definition WriteBigEndian_generic (T : int_type) (B : nat) (data : list Z) (val : Z) : outcome (list Z) :=
  write_loop T val (λ i, (Z.of_nat B - 1 - Z.of_nat i) * 8) B 0 data.

Definition WriteLittleEndian_generic (T : int_type) (B : nat) (data : list Z) (val : Z) : outcome (list Z) :=
  write_loop T val (λ i, Z.of_nat i * 8) B 0 data.

(** The assignment [data[i] = val]. *)
Definition store_val (val : Z) (data : list Z) (i : nat) : outcome (list Z) :=
  store data i (convert uint8_t val).

Definition WriteBigEndian_1 (T : int_type) (data : list Z) (val : Z) : outcome (list Z) :=
  store_val val data 0.
Definition WriteLittleEndian_1 (T : int_type) (data : list Z) (val : Z) : outcome (list Z) :=
  store_val val data 0.

Definition WriteBigEndian_2 (T : int_type) (data : list Z) (val : Z) : outcome (list Z) :=
  d ← store_shr T val data 0 8; store_val val d 1.
Definition WriteLittleEndian_2 (T : int_type) (data : list Z) (val : Z) : outcome (list Z) :=
  d ← store_val val data 0; store_shr T val d 1 8.

Definition WriteBigEndian_4 (T : int_type) (data : list Z) (val : Z) : outcome (list Z) :=
  d ← store_shr T val data 0 24; d ← store_shr T val d 1 16; d ← store_shr T val d 2 8;
  store_val val d 3.
Definition WriteLittleEndian_4 (T : int_type) (data : list Z) (val : Z) : outcome (list Z) :=
  d ← store_val val data 0; d ← store_shr T val d 1 8; d ← store_shr T val d 2 16;
  store_shr T val d 3 24.

Definition WriteBigEndian_8 (T : int_type) (data : list Z) (val : Z) : outcome (list Z) :=
  d ← store_shr T val data 0 56; d ← store_shr T val d 1 48; d ← store_shr T val d 2 40;
  d ← store_shr T val d 3 32; d ← store_shr T val d 4 24; d ← store_shr T val d 5 16;
  d ← store_shr T val d 6 8; store_val val d 7.
Definition WriteLittleEndian_8 (T : int_type) (data : list Z) (val : Z) : outcome (list Z) :=
  d ← store_val val data 0; d ← store_shr T val d 1 8; d ← store_shr T val d 2 16;
  d ← store_shr T val d 3 24; d ← store_shr T val d 4 32; d ← store_shr T val d 5 40;
  d ← store_shr T val d 6 48; store_shr T val d 7 56.

Definition WriteBigEndian_unsigned (T : int_type) (B : nat) (data : list Z) (val : Z) : outcome (list Z) :=
  match B with
  | 1%nat => WriteBigEndian_1 T data val
  | 2%nat => WriteBigEndian_2 T data val
  | 4%nat => WriteBigEndian_4 T data val
  | 8%nat => WriteBigEndian_8 T data val
  | _ => WriteBigEndian_generic T B data val
  end.

Definition WriteLittleEndian_unsigned (T : int_type) (B : nat) (data : list Z) (val : Z) : outcome (list Z) :=
  match B with
  | 1%nat => WriteLittleEndian_1 T data val
  | 2%nat => WriteLittleEndian_2 T data val
  | 4%nat => WriteLittleEndian_4 T data val
  | 8%nat => WriteLittleEndian_8 T data val
  | _ => WriteLittleEndian_generic T B data val
  end.

Definition ReinterpretAsUnsigned (T : int_type) (val : Z) : Z := convert (UnsignedOf T) val.

Definition WriteBigEndian (T : int_type) (B : nat) (data : list Z) (val : Z) : outcome (list Z) :=
  if it_signed T
  then WriteBigEndian_unsigned (UnsignedOf T) B data (ReinterpretAsUnsigned T val)
  else WriteBigEndian_unsigned T B data val.

Definition WriteLittleEndian (T : int_type) (B : nat) (data : list Z) (val : Z) : outcome (list Z) :=
  if it_signed T
  then WriteLittleEndian_unsigned (UnsignedOf T) B data (ReinterpretAsUnsigned T val)
  else WriteLittleEndian_unsigned T B data val.

(** ** Specification: positional notation in base 256 *)

Fixpoint le_value (l : list Z) : Z :=
  match l with [] => 0 | b :: l' => b + 256 * le_value l' end.

Definition be_value (l : list Z) : Z := foldl (λ acc b, 256 * acc + b) 0 l.

Fixpoint le_bytes (n : nat) (v : Z) : list Z :=
  match n with O => [] | S n' => v mod 256 :: le_bytes n' (v / 256) end.

Definition be_bytes (n : nat) (v : Z) : list Z := reverse (le_bytes n v).

Definition is_byte (b : Z) : Prop := 0 ≤ b < 256.
Definition bytes_ok (l : list Z) : Prop := Forall is_byte l.

(** ** Lemmas *)

Lemma be_le_value l : be_value l = le_value (reverse l).
Proof.
  unfold be_value. induction l as [|b l IH] using rev_ind; [done|].
  by rewrite foldl_app, reverse_app, reverse_singleton; simpl; rewrite IH, Z.add_comm.
Qed.

Lemma be_value_snoc l b : be_value (l ++ [b]) = 256 * be_value l + b.
Proof. unfold be_value. by rewrite foldl_app. Qed.

Lemma le_value_snoc l b : le_value (l ++ [b]) = le_value l + b * 2 ^ (8 * Z.of_nat (length l)).
Proof.
  induction l as [|c l IH]; simpl; [lia|]. rewrite IH, Nat2Z.inj_succ, Z.mul_succ_r, Z.pow_add_r by lia. lia.
Qed.

Lemma le_value_range l : bytes_ok l → 0 ≤ le_value l < 2 ^ (8 * Z.of_nat (length l)).
Proof.
  induction 1 as [|b l Hb Hl IH]; [done|]. simpl length.
  rewrite Nat2Z.inj_succ, Z.mul_succ_r, Z.pow_add_r by lia. unfold is_byte in Hb. simpl. lia.
Qed.

Lemma be_value_range l : bytes_ok l → 0 ≤ be_value l < 2 ^ (8 * Z.of_nat (length l)).
Proof.
  intros Hl. rewrite be_le_value, <-(length_reverse l). apply le_value_range.
  by apply Forall_reverse.
Qed.

Lemma le_bytes_length n v : length (le_bytes n v) = n.
Proof. revert v. induction n; simpl; auto. Qed.

Lemma le_bytes_ok n v : bytes_ok (le_bytes n v).
Proof.
  revert v. induction n; intros v; simpl; [constructor|].
  constructor; [|by apply IHn]. apply Z.mod_pos_bound. lia.
Qed.

Lemma le_value_bytes n v : le_value (le_bytes n v) = v mod 2 ^ (8 * Z.of_nat n).
Proof.
  revert v. induction n as [|n IH]; intros v; simpl le_bytes; simpl le_value; [by rewrite Z.mod_1_r|].
  rewrite IH, Nat2Z.inj_succ, Z.mul_succ_r, Z.pow_add_r, (Z.mul_comm _ (2 ^ 8)) by lia.
  change (2 ^ 8) with 256. rewrite Z.rem_mul_r by (try apply Z.pow_nonzero; lia). lia.
Qed.

(** [convert T] only depends on its argument modulo the width. *)
Lemma convert_wrapU T z : 0 < it_bits T → convert T (wrapU (it_bits T) z) = convert T z.
Proof.
  intros. unfold convert, wrapU, wrapS. pose proof (pow2_pos (it_bits T)).
  destruct (it_signed T); [by rewrite Zplus_mod_idemp_l|by rewrite Zmod_mod].
Qed.

Lemma wrapU_convert T z : 0 < it_bits T → wrapU (it_bits T) (convert T z) = wrapU (it_bits T) z.
Proof.
  intros. unfold convert, wrapU, wrapS. pose proof (pow2_pos (it_bits T)).
  destruct (it_signed T); [|by rewrite Zmod_mod].
  rewrite Zminus_mod_idemp_l. f_equal. lia.
Qed.

Lemma convert_lor_l T a b : 0 < it_bits T → convert T (Z.lor (convert T a) b) = convert T (Z.lor a b).
Proof.
  intros. rewrite <-(convert_wrapU T (Z.lor _ b)), <-(convert_wrapU T (Z.lor a b)) by done.
  rewrite !wrapU_lor by lia. by rewrite wrapU_convert.
Qed.

(** Converting to a type at least as wide first changes nothing. *)
Lemma wrapU_convert_wide w T z :
  0 ≤ w ≤ it_bits T → 0 < it_bits T → wrapU w (convert T z) = wrapU w z.
Proof.
  intros Hw HT. unfold wrapU.
  assert (∀ y, (wrapU (it_bits T) y) mod 2 ^ w = y mod 2 ^ w) as Hd.
  { intros y. unfold wrapU. replace (it_bits T) with (w + (it_bits T - w)) by lia.
    rewrite Z.pow_add_r by lia. pose proof (pow2_pos w). pose proof (pow2_pos (it_bits T - w)).
    rewrite Z.rem_mul_r by lia. rewrite Z.mul_comm, Z.mod_add, Zmod_mod by lia. done. }
  rewrite <-Hd, wrapU_convert by done. apply Hd.
Qed.

Lemma promote_wide T : 0 < it_bits T → it_bits T ≤ it_bits (promote T) ∧ 32 ≤ it_bits (promote T).
Proof. intros. unfold promote. destruct (Z.ltb_spec (it_bits T) 32); simpl; lia. Qed.

Lemma convert_lor_promote T a b :
  0 < it_bits T → convert T (Z.lor a (convert (promote T) b)) = convert T (Z.lor a b).
Proof.
  intros HT. pose proof (promote_wide T HT).
  rewrite <-(convert_wrapU T (Z.lor a (convert _ _))), <-(convert_wrapU T (Z.lor a b)) by done.
  rewrite !wrapU_lor by lia. by rewrite wrapU_convert_wide by lia.
Qed.

(** A shift that loses no bit of the operand. *)
Lemma shl_ok t c s :
  0 ≤ s < it_bits t → 0 ≤ c → c * 2 ^ s < 2 ^ it_bits t → shl t c s = Ret (convert t (c * 2 ^ s)).
Proof.
  intros Hs Hc Hb. unfold shl.
  rewrite (proj2 (Z.ltb_ge s 0)), (proj2 (Z.leb_gt _ s)), (proj2 (Z.ltb_ge c 0)), (proj2 (Z.leb_gt _ _)) by lia.
  by rewrite andb_false_r.
Qed.

Lemma shl_byte T c s :
  0 < it_bits T → is_byte c → 0 ≤ s → s + 8 ≤ it_bits (promote T) →
  shl (promote T) c s = Ret (convert (promote T) (c * 2 ^ s)).
Proof.
  intros HT Hc Hs Hb. unfold is_byte in Hc. apply shl_ok; [lia..|].
  apply Z.lt_le_trans with (2 ^ (s + 8)); [|by apply Z.pow_le_mono_r; lia].
  rewrite Z.pow_add_r by lia. pose proof (pow2_pos s). nia.
Qed.

Lemma load_lookup data i c : data !! i = Some c → load data i = Ret c.
Proof. unfold load. by intros ->. Qed.

Lemma convert_byte T c : 8 < it_bits T → is_byte c → convert T c = c.
Proof.
  intros HT Hc. unfold is_byte in Hc. apply convert_in_range; [lia|].
  unfold values, int_min, int_max. assert (2 ^ 8 ≤ 2 ^ (it_bits T - 1)) by (apply Z.pow_le_mono_r; lia).
  pose proof (pow2_half (it_bits T)). destruct (it_signed T); lia.
Qed.

(** One step of the reading loop, on the value modulo the width. *)
Lemma or_loop_step T data sh n i v c :
  8 < it_bits T → data !! i = Some c → is_byte c → 0 ≤ sh i → sh i + 8 ≤ it_bits (promote T) →
  or_loop T data sh (S n) i (convert T v) =
  or_loop T data sh n (S i) (convert T (Z.lor v (c * 2 ^ sh i))).
Proof.
  intros HT Hi Hc Hs Hb. simpl. rewrite (load_lookup _ _ _ Hi), bind_ret, (convert_byte T c) by done.
  rewrite shl_byte, bind_ret by (done || lia). by rewrite convert_lor_l, convert_lor_promote by lia.
Qed.

(** The loops compute the value of the first [B] bytes. *)
Lemma or_loop_little T data n : ∀ i v,
  8 < it_bits T → bytes_ok data → (i + n ≤ length data)%nat → 8 * Z.of_nat (i + n) ≤ it_bits (promote T) →
  v = le_value (take i data) →
  or_loop T data (λ i, Z.of_nat i * 8) n i (convert T v) = Ret (convert T (le_value (take (i + n) data))).
Proof.
  induction n as [|n IH]; intros i v HT Hd Hl Hb ->; [by rewrite Nat.add_0_r|].
  destruct (lookup_lt_is_Some_2 data i) as [c Hc]; [lia|].
  pose proof (Forall_lookup_1 _ _ _ _ Hd Hc) as Hbyte.
  rewrite (or_loop_step _ _ _ _ _ _ c) by (done || lia).
  rewrite <-Nat.add_succ_comm. apply IH; [done|done|lia|lia|].
  rewrite (take_S_r _ _ c), le_value_snoc, length_take, Nat.min_l by (done || lia).
  replace (8 * Z.of_nat i) with (Z.of_nat i * 8) by lia. apply lor_shifted; [lia|].
  pose proof (le_value_range (take i data) ltac:(by apply Forall_take)) as Hr.
  rewrite length_take, Nat.min_l in Hr by lia. by replace (Z.of_nat i * 8) with (8 * Z.of_nat i) by lia.
Qed.

Lemma or_loop_big T data B n : ∀ i v,
  8 < it_bits T → bytes_ok data → (i + n = B)%nat → (B ≤ length data)%nat →
  8 * Z.of_nat B ≤ it_bits (promote T) →
  v = be_value (take i data) * 2 ^ (8 * Z.of_nat n) →
  or_loop T data (λ i, (Z.of_nat B - 1 - Z.of_nat i) * 8) n i (convert T v) =
  Ret (convert T (be_value (take B data))).
Proof.
  induction n as [|n IH]; intros i v HT Hd Hi Hl Hb ->.
  { simpl. by rewrite Z.mul_1_r, <-Hi, Nat.add_0_r. }
  destruct (lookup_lt_is_Some_2 data i) as [c Hc]; [lia|].
  pose proof (Forall_lookup_1 _ _ _ _ Hd Hc) as Hbyte.
  rewrite (or_loop_step _ _ _ _ _ _ c) by (done || lia).
  apply IH; [done|done|lia|done|done|].
  replace ((Z.of_nat B - 1 - Z.of_nat i) * 8) with (8 * Z.of_nat n) by lia.
  rewrite (take_S_r _ _ c), be_value_snoc by (done || lia).
  rewrite Z.lor_comm, Nat2Z.inj_succ, Z.mul_succ_r, lor_shifted; [|lia|].
  - rewrite Z.pow_add_r by lia. lia.
  - rewrite Z.pow_add_r by lia. pose proof (pow2_pos (8 * Z.of_nat n)). unfold is_byte in Hbyte. nia.
Qed.

Lemma InternalReadLittleEndian_value T B data :
  8 < it_bits T → bytes_ok data → (B ≤ length data)%nat → 8 * Z.of_nat B ≤ it_bits T →
  InternalReadLittleEndian T B data = Ret (convert T (le_value (take B data))).
Proof.
  intros HT Hd Hl Hb. pose proof (promote_wide T ltac:(lia)). unfold InternalReadLittleEndian.
  rewrite <-(convert_byte T 0) by (done || lia).
  by rewrite or_loop_little by (done || simpl; lia).
Qed.

Lemma InternalReadBigEndian_value T B data :
  8 < it_bits T → bytes_ok data → (B ≤ length data)%nat → 8 * Z.of_nat B ≤ it_bits T →
  InternalReadBigEndian T B data = Ret (convert T (be_value (take B data))).
Proof.
  intros HT Hd Hl Hb. pose proof (promote_wide T ltac:(lia)). unfold InternalReadBigEndian.
  rewrite <-(convert_byte T 0) by (done || lia).
  by rewrite or_loop_big by (done || simpl; lia).
Qed.

(** The bytes of a buffer with at least the given number of them. *)
Ltac split_bytes n :=
  lazymatch n with
  | O => idtac
  | S ?m =>
      match goal with
      | Hd : Forall is_byte ?data, Hl : (_ ≤ length ?data)%nat |- _ =>
          is_var data; destruct data as [|? data]; [simpl in Hl; lia|];
          apply Forall_cons_1 in Hd as [? Hd]; simpl in Hl; apply le_S_n in Hl; split_bytes m
      end
  end.

Lemma Get_byte T c data i : 8 < it_bits T → data !! i = Some c → is_byte c → Get T data i = Ret c.
Proof.
  intros HT Hi Hc. unfold Get. rewrite (load_lookup _ _ _ Hi), bind_ret. by rewrite convert_byte.
Qed.

Lemma Get_shl_byte T c data i s :
  8 < it_bits T → data !! i = Some c → is_byte c → 0 ≤ s → s + 8 ≤ it_bits (promote T) →
  Get_shl T data i s = Ret (convert (promote T) (c * 2 ^ s)).
Proof.
  intros HT Hi Hc Hs Hb. unfold Get_shl. rewrite (Get_byte T c) by done. rewrite bind_ret.
  apply shl_byte; (done || lia).
Qed.

(** [convert_lor T a b] pushes a conversion through the operands of [|]. *)
Lemma convert_lor_both T a b x y :
  0 < it_bits T → wrapU (it_bits T) a = wrapU (it_bits T) x → wrapU (it_bits T) b = wrapU (it_bits T) y →
  wrapU (it_bits T) (Z.lor a b) = wrapU (it_bits T) (Z.lor x y).
Proof. intros HT Ha Hb. rewrite !wrapU_lor by lia. by rewrite Ha, Hb. Qed.

Lemma convert_congr T a b :
  0 < it_bits T → wrapU (it_bits T) a = wrapU (it_bits T) b → convert T a = convert T b.
Proof. intros HT E. by rewrite <-(convert_wrapU T a), E, convert_wrapU. Qed.

Lemma Get_uint8 data i c : data !! i = Some c → is_byte c → Get uint8_t data i = Ret c.
Proof.
  intros Hi Hc. unfold Get. rewrite (load_lookup _ _ _ Hi), bind_ret.
  unfold convert; simpl. by rewrite wrapU_small.
Qed.

Lemma Get_shl_uint8 data i c : data !! i = Some c → is_byte c → Get_shl uint8_t data i 8 = Ret (c * 2 ^ 8).
Proof.
  intros Hi Hc. unfold Get_shl. rewrite (Get_uint8 _ _ c), bind_ret by done. unfold is_byte in Hc.
  rewrite shl_byte by (done || simpl; lia). f_equal. apply convert_in_range; [done|].
  unfold values, int_min, int_max; simpl. lia.
Qed.

Lemma or_loop_start T data sh n c :
  8 < it_bits T → data !! 0%nat = Some c → is_byte c → 0 ≤ sh 0%nat → sh 0%nat + 8 ≤ it_bits (promote T) →
  or_loop T data sh (S n) 0 0 = or_loop T data sh n 1 (convert T (c * 2 ^ sh 0%nat)).
Proof.
  intros. rewrite <-(convert_byte T 0) at 1 by (done || lia).
  rewrite (or_loop_step _ _ _ _ _ _ c) by done. by rewrite Z.lor_0_l.
Qed.

(** [read_unroll T n]: a reader specialised to [n] bytes and the general loop
    run for [n] bytes compute the same bits. *)
Ltac read_unroll T n :=
  unfold bytes_ok in *; split_bytes n;
  erewrite or_loop_start by (reflexivity || done || simpl; lia);
  repeat erewrite or_loop_step by (reflexivity || done || simpl; lia); simpl or_loop;
  repeat (first
    [ erewrite Get_uint8 by (reflexivity || done)
    | erewrite Get_shl_uint8 by (reflexivity || done)
    | erewrite (Get_byte T) by (reflexivity || done || lia)
    | erewrite (Get_shl_byte T) by (reflexivity || done || lia) ]);
  rewrite !bind_ret;
  f_equal; apply convert_congr; [lia|];
  repeat (apply convert_lor_both; [lia|..]);
  rewrite ?wrapU_convert_wide by lia; f_equal; simpl; lia.

Lemma Read_2_generic T data :
  8 < it_bits T → bytes_ok data → (2 ≤ length data)%nat →
  ReadBigEndian_2 T data = InternalReadBigEndian T 2 data ∧
  ReadLittleEndian_2 T data = InternalReadLittleEndian T 2 data.
Proof.
  intros HT Hd Hl. pose proof (promote_wide T ltac:(lia)).
  unfold ReadBigEndian_2, InternalReadBigEndian, ReadLittleEndian_2, InternalReadLittleEndian.
  split; read_unroll T 2%nat.
Qed.

Lemma Read_4_generic T data :
  8 < it_bits T → bytes_ok data → 32 ≤ it_bits T → (4 ≤ length data)%nat →
  ReadBigEndian_4 T data = InternalReadBigEndian T 4 data ∧
  ReadLittleEndian_4 T data = InternalReadLittleEndian T 4 data.
Proof.
  intros HT Hd Hb Hl. pose proof (promote_wide T ltac:(lia)).
  unfold ReadBigEndian_4, InternalReadBigEndian, ReadLittleEndian_4, InternalReadLittleEndian.
  split; read_unroll T 4%nat.
Qed.

Lemma Read_8_generic T data :
  8 < it_bits T → bytes_ok data → 64 ≤ it_bits T → (8 ≤ length data)%nat →
  ReadBigEndian_8 T data = InternalReadBigEndian T 8 data ∧
  ReadLittleEndian_8 T data = InternalReadLittleEndian T 8 data.
Proof.
  intros HT Hd Hb Hl. pose proof (promote_wide T ltac:(lia)).
  unfold ReadBigEndian_8, InternalReadBigEndian, ReadLittleEndian_8, InternalReadLittleEndian.
  split; read_unroll T 8%nat.
Qed.


(** The instantiations the static assertions admit. *)
Definition instance_ok (T : int_type) (B : nat) : Prop :=
  T ∈ std_types ∧ (0 < B)%nat ∧ static_assert_ok T B = true.

#[global] Instance int_type_eq_dec : EqDecision int_type.
Proof. solve_decision. Defined.

#[global] Instance instance_ok_dec T B : Decision (instance_ok T B).
Proof. unfold instance_ok. apply _. Defined.

Lemma instance_cases T B :
  instance_ok T B →
  (B = 1%nat ∧ it_bits T = 8) ∨
  ((1 < B)%nat ∧ 8 * Z.of_nat B ≤ it_bits T ∧ 8 < it_bits T ∧ sizeof T * 8 = it_bits T ∧ it_bits T ≤ 64).
Proof.
  intros (HT & HB & Hs). unfold std_types in HT. rewrite !elem_of_cons, elem_of_nil in HT.
  destruct B as [|[|B]]; [lia|left|right].
  - split; [done|]. apply Z.eqb_eq in Hs. destruct_or! HT; subst; try done; vm_compute in Hs; discriminate.
  - apply Z.leb_le in Hs. destruct_or! HT; subst; try done;
      match type of Hs with _ ≤ ?x => let y := eval vm_compute in x in change x with y in Hs end;
      split_and!; try done; simpl it_bits; lia.
Qed.

Lemma Read_unsigned_value T B data :
  instance_ok T B → bytes_ok data → (B ≤ length data)%nat →
  ReadBigEndian_unsigned T B data = Ret (convert T (be_value (take B data))) ∧
  ReadLittleEndian_unsigned T B data = Ret (convert T (le_value (take B data))).
Proof.
  intros Hi Hd Hl. destruct (instance_cases T B Hi) as [[-> HT]|(HB & Hb & HT & _)].
  - destruct data as [|c data]; [simpl in Hl; lia|]. split; [done|].
    unfold ReadLittleEndian_unsigned, ReadLittleEndian_1, Get, load; simpl. do 2 f_equal. lia.
  - rewrite <-InternalReadBigEndian_value, <-InternalReadLittleEndian_value by done.
    destruct (decide (B = 2%nat)) as [->|]; [by apply Read_2_generic|].
    destruct (decide (B = 4%nat)) as [->|]; [by apply Read_4_generic|].
    destruct (decide (B = 8%nat)) as [->|]; [by apply Read_8_generic|].
    do 9 (destruct B as [|B]; [lia || done|]). done.
Qed.

(** ** Signed values *)

Lemma land_pow2 u k : 0 ≤ k → 0 ≤ u < 2 ^ (k + 1) → (Z.land u (2 ^ k) =? 0) = (u <? 2 ^ k).
Proof.
  intros Hk Hu. rewrite Z.pow_add_r in Hu by lia. pose proof (pow2_pos k Hk).
  destruct (Z.ltb_spec u (2 ^ k)) as [Hs|Hs].
  - apply Z.eqb_eq. apply Z.bits_inj'. intros n Hn. rewrite Z.land_spec, Z.bits_0, Z.pow2_bits_eqb by done.
    destruct (Z.eqb_spec k n) as [->|]; [|apply andb_false_r].
    by rewrite <-(Z.mod_small u (2 ^ n)), Z.mod_pow2_bits_high by lia.
  - apply Z.eqb_neq. intros E. apply (f_equal (λ z, Z.testbit z k)) in E.
    rewrite Z.land_spec, Z.bits_0, Z.pow2_bits_true, andb_true_r in E by done.
    apply Z.testbit_false in E; [|done].
    replace (u / 2 ^ k) with 1 in E; [done|]. apply (Z.div_unique_pos u (2 ^ k) 1 (u - 2 ^ k)); lia.
Qed.

(** Clearing the highest bit, when it is set. *)
Lemma ldiff_pow2 u k : 0 ≤ k → 2 ^ k ≤ u < 2 ^ (k + 1) → Z.land u (Z.lnot (2 ^ k)) = u - 2 ^ k.
Proof.
  intros Hk Hu. rewrite Z.pow_add_r in Hu by lia. pose proof (pow2_pos k Hk).
  pose proof (lor_shifted (u - 2 ^ k) 1 k Hk ltac:(lia)) as E.
  replace (u - 2 ^ k + 1 * 2 ^ k) with u in E by lia. rewrite <-E at 1. rewrite Z.mul_1_l.
  apply Z.bits_inj'. intros n Hn. rewrite Z.land_spec, Z.lnot_spec, Z.lor_spec, Z.pow2_bits_eqb by done.
  destruct (Z.eqb_spec k n) as [<-|]; [|by rewrite orb_false_r, andb_true_r].
  rewrite andb_false_r. rewrite <-(Z.mod_small (u - 2 ^ k) (2 ^ k)) by lia.
  by rewrite Z.mod_pow2_bits_high by lia.
Qed.

Lemma wrapU_land w a b : 0 ≤ w → wrapU w (Z.land a b) = Z.land (wrapU w a) (wrapU w b).
Proof.
  intros. unfold wrapU. rewrite <-!Z.land_ones by done. rewrite <-!Z.land_assoc. f_equal.
  rewrite (Z.land_comm (Z.ones w)), <-Z.land_assoc, Z.land_diag. done.
Qed.

Lemma wrapS_high w z : 0 < w → 2 ^ (w - 1) ≤ z < 2 ^ w → wrapS w z = z - 2 ^ w.
Proof.
  intros Hw Hz. unfold wrapS. pose proof (pow2_half w Hw).
  rewrite (mod_unique_range _ _ (z + 2 ^ (w - 1) - 2 ^ w) 1); lia.
Qed.

Lemma shr_ok t v s : 0 ≤ s < it_bits t → shr t v s = Ret (v / 2 ^ s).
Proof.
  intros Hs. unfold shr. rewrite (proj2 (Z.ltb_ge s 0)), (proj2 (Z.leb_gt _ s)) by lia.
  simpl. by rewrite Z.shiftr_div_pow2 by lia.
Qed.

Section Signed.
Context (T : int_type).
Hypothesis HS : it_signed T = true.
Hypothesis HW : 0 < it_bits T.
Hypothesis H8 : sizeof T * 8 = it_bits T.

Let U := UnsignedOf T.

Lemma top_mask : (m ← shl (promote U) 1 (sizeof U * 8 - 1); Ret (convert U m)) = Ret (2 ^ (it_bits T - 1)).
Proof.
  change (sizeof U) with (sizeof T). rewrite H8. pose proof (promote_wide U HW) as [Hw _]. simpl in Hw.
  rewrite shl_ok, bind_ret, Z.mul_1_l; try lia.
  - f_equal. unfold convert at 1; simpl. rewrite wrapU_convert_wide by (simpl; lia).
    apply wrapU_small. pose proof (pow2_half (it_bits T) HW). pose proof (pow2_pos (it_bits T - 1)). lia.
  - rewrite Z.mul_1_l. apply Z.pow_lt_mono_r; lia.
Qed.

Lemma ReinterpretAsSigned_ok u :
  0 ≤ u < 2 ^ it_bits T → ReinterpretAsSigned T u = Ret (convert T u).
Proof.
  intros Hu. pose proof top_mask as Hm. unfold ReinterpretAsSigned. fold U.
  apply bind_returns in Hm as (m & -> & Hm). rewrite bind_ret. injection Hm as ->.
  pose proof (pow2_half _ HW). pose proof (pow2_pos (it_bits T - 1) ltac:(lia)).
  pose proof (promote_wide U HW) as [Hw _]. simpl in Hw.
  rewrite land_pow2 by (rewrite ?Z.sub_add; lia).
  destruct (Z.ltb_spec u (2 ^ (it_bits T - 1))) as [|Hge]; [done|]. simpl. f_equal.
  rewrite convert_lor_l by done.
  assert (int_min T = (-1) * 2 ^ (it_bits T - 1)) as -> by (unfold int_min; rewrite HS; lia).
  transitivity (convert T (Z.lor (Z.land u (Z.lnot (2 ^ (it_bits T - 1)))) ((-1) * 2 ^ (it_bits T - 1)))).
  - apply convert_congr; [done|]. apply convert_lor_both; [done| |done].
    rewrite !wrapU_land by lia. by rewrite wrapU_convert_wide by (simpl; lia).
  - rewrite ldiff_pow2 by (rewrite ?Z.sub_add; lia). rewrite lor_shifted by lia.
    apply convert_congr; [done|]. unfold wrapU.
    replace (u - 2 ^ (it_bits T - 1) + -1 * 2 ^ (it_bits T - 1)) with (u + (-1) * 2 ^ it_bits T) by lia.
    apply Z.mod_add. lia.
Qed.

Lemma shl_one_int k : 0 ≤ k < 31 → shl int32_t 1 k = Ret (2 ^ k) ∧ arith int32_t (2 ^ k - 1) = Ret (2 ^ k - 1).
Proof.
  intros Hk. pose proof (pow2_pos k ltac:(lia)).
  assert (2 ^ k < 2 ^ 31) by (apply Z.pow_lt_mono_r; lia).
  rewrite shl_ok by (simpl; lia). split.
  - f_equal. rewrite Z.mul_1_l. apply convert_in_range; [done|]. unfold values, int_min, int_max; simpl; lia.
  - apply arith_in_range; [done|]. unfold values, int_min, int_max; simpl; lia.
Qed.

Lemma SignExtend_or k V :
  0 ≤ k < it_bits T → 0 ≤ V < 2 ^ k →
  convert U (Z.lor (convert (promote U) (Z.lnot (convert U (2 ^ k - 1)))) V) = V + 2 ^ it_bits T - 2 ^ k.
Proof.
  intros Hk HV. pose proof (promote_wide U HW) as [Hw _]. simpl in Hw.
  pose proof (pow2_pos k ltac:(lia)).
  assert (2 ^ k < 2 ^ it_bits T) by (apply Z.pow_lt_mono_r; lia).
  assert (convert U (2 ^ k - 1) = 2 ^ k - 1) as -> by (apply wrapU_small; simpl; lia).
  replace (Z.lnot (2 ^ k - 1)) with ((-1) * 2 ^ k) by (unfold Z.lnot; lia).
  rewrite Z.lor_comm, convert_lor_promote, lor_shifted by (done || lia).
  apply (mod_unique_range _ _ _ (-1)); simpl; lia.
Qed.

Lemma SignExtend_ok B V :
  (1 < B)%nat → 8 * Z.of_nat B < it_bits T → 0 ≤ V < 2 ^ (8 * Z.of_nat B) →
  SignExtend T B V =
    if V <? 2 ^ (8 * Z.of_nat B - 1) then Ret V
    else if 8 * Z.of_nat B <? 32 then Ret (V + 2 ^ it_bits T - 2 ^ (8 * Z.of_nat B))
    else Crash BadShift.
Proof.
  intros HB Hlt HV. unfold SignExtend. fold U.
  pose proof (promote_wide U HW) as [Hw _]. simpl in Hw.
  set (k := 8 * (Z.of_nat B - 1)).
  assert (2 ^ (8 * Z.of_nat B) = 256 * 2 ^ k) as E1.
  { change 256 with (2 ^ 8). rewrite <-Z.pow_add_r by lia. f_equal. lia. }
  assert (2 ^ (8 * Z.of_nat B - 1) = 128 * 2 ^ k) as E2.
  { change 128 with (2 ^ 7). rewrite <-Z.pow_add_r by lia. f_equal. lia. }
  pose proof (pow2_pos k ltac:(lia)).
  replace ((Z.of_nat B - 1) * 8) with k by lia. rewrite shr_ok, bind_ret by lia.
  assert (0 ≤ V / 2 ^ k < 256) as Hk.
  { split; [apply Z.div_pos; lia|apply Z.div_lt_upper_bound; lia]. }
  unfold convert at 1; simpl it_signed; simpl it_bits. cbv iota. rewrite wrapU_small by done.
  change 128 with (2 ^ 7) at 1. rewrite (land_pow2 _ 7) by (simpl; lia).
  rewrite E2. change (2 ^ 7) with 128.
  assert ((V / 2 ^ k <? 128) = (V <? 128 * 2 ^ k)) as ->.
  { pose proof (Z.mul_div_le V (2 ^ k)). pose proof (Z.mul_succ_div_gt V (2 ^ k)).
    apply eq_true_iff_eq. rewrite !Z.ltb_lt. nia. }
  destruct (Z.ltb_spec V (128 * 2 ^ k)) as [|Hge]; [done|]. simpl negb. cbv iota.
  rewrite Z.mod_small by (unfold sizeof in *; lia).
  destruct (Z.ltb_spec (8 * Z.of_nat B) 32) as [Hs|Hs].
  - replace (Z.of_nat B * 8) with (8 * Z.of_nat B) by lia.
    destruct (shl_one_int (8 * Z.of_nat B) ltac:(lia)) as [-> Ha]. rewrite bind_ret, Ha, bind_ret.
    f_equal. apply SignExtend_or; lia.
  - unfold shl. rewrite (proj2 (Z.ltb_ge _ 0)), (proj2 (Z.leb_le 32 _)) by lia. done.
Qed.

End Signed.

(** Both signed readers, from the unsigned value [V] of the bytes. *)
Lemma signed_of_unsigned T B V :
  instance_ok T B → it_signed T = true → 0 ≤ V < 2 ^ (8 * Z.of_nat B) →
  (let unsigned_val := convert (UnsignedOf T) (convert T V) in
   u ← (if Z.of_nat B <? sizeof T then SignExtend T B unsigned_val else Ret unsigned_val);
   ReinterpretAsSigned T u) =
  if (V <? 2 ^ (8 * Z.of_nat B - 1)) || (8 * Z.of_nat B <? 32) || (8 * Z.of_nat B =? it_bits T)
  then Ret (wrapS (8 * Z.of_nat B) V) else Crash BadShift.
Proof.
  intros Hi HS HV.
  assert (0 < it_bits T ∧ sizeof T * 8 = it_bits T ∧ (0 < B)%nat ∧ 8 * Z.of_nat B ≤ it_bits T) as (HW & H8 & HB & Hle).
  { destruct (instance_cases T B Hi) as [[-> HT]|?]; [|lia]. unfold sizeof. rewrite HT. split_and!; (done || lia). }
  assert (2 ^ (8 * Z.of_nat B) ≤ 2 ^ it_bits T) by (apply Z.pow_le_mono_r; lia).
  assert (convert (UnsignedOf T) (convert T V) = V) as E.
  { unfold convert at 1; simpl. rewrite wrapU_convert by done. apply wrapU_small; lia. }
  cbv zeta. rewrite E. assert (∀ x, convert T x = wrapS (it_bits T) x) as HC by (unfold convert; by rewrite HS).
  destruct (Z.ltb_spec (Z.of_nat B) (sizeof T)) as [Hlt|Hge].
  - destruct (instance_cases T B Hi) as [[-> HT]|Hc]; [unfold sizeof in Hlt; rewrite HT in Hlt; by vm_compute in Hlt|].
    rewrite (SignExtend_ok T HW H8), (proj2 (Z.eqb_neq (8 * Z.of_nat B) _)), orb_false_r by (done || lia).
    pose proof (pow2_half (8 * Z.of_nat B) ltac:(lia)). pose proof (pow2_half (it_bits T) HW).
    assert (2 ^ (8 * Z.of_nat B) ≤ 2 ^ (it_bits T - 1)) by (apply Z.pow_le_mono_r; lia).
    destruct (Z.ltb_spec V (2 ^ (8 * Z.of_nat B - 1))) as [Hs|Hs]; simpl orb; cbv iota.
    + rewrite bind_ret, ReinterpretAsSigned_ok, HC, !wrapS_small by (done || lia). done.
    + destruct (8 * Z.of_nat B <? 32); [|done].
      rewrite bind_ret, ReinterpretAsSigned_ok, HC, !wrapS_high by (done || lia). f_equal. lia.
  - assert (8 * Z.of_nat B = it_bits T) as EB by lia.
    rewrite bind_ret, ReinterpretAsSigned_ok, HC, EB, Z.eqb_refl, orb_true_r by (done || lia). done.
Qed.

(** ** Lemmas on the writers *)

Lemma bind_ext {A B} (m : outcome A) (k k' : A → outcome B) : (∀ a, k a = k' a) → (m ≫= k) = (m ≫= k').
Proof. intros E. destruct m; simpl; [apply E|done]. Qed.

Lemma store_shr_0 T val d i : 0 < it_bits T → store_shr T val d i 0 = store_val val d i.
Proof.
  intros HT. pose proof (promote_wide T HT). unfold store_shr. rewrite shr_ok, bind_ret by lia.
  by rewrite Z.div_1_r.
Qed.

Lemma bind_ret_r {A} (m : outcome A) : (m ≫= Ret) = m.
Proof. by destruct m. Qed.

(** [write_unroll]: a specialised writer is the general loop, unrolled. *)
Ltac write_unroll :=
  unfold WriteBigEndian_generic, WriteLittleEndian_generic; simpl write_loop;
  rewrite ?store_shr_0 by done;
  repeat (first [ rewrite store_shr_0 by done; rewrite bind_ret_r; reflexivity
                | rewrite bind_ret_r; reflexivity
                | apply bind_ext; intros ? ]).

Lemma Write_1_generic T data val : 0 < it_bits T →
  WriteBigEndian_1 T data val = WriteBigEndian_generic T 1 data val ∧
  WriteLittleEndian_1 T data val = WriteLittleEndian_generic T 1 data val.
Proof. intros HT. split; write_unroll. Qed.

Lemma Write_2_generic T data val : 0 < it_bits T →
  WriteBigEndian_2 T data val = WriteBigEndian_generic T 2 data val ∧
  WriteLittleEndian_2 T data val = WriteLittleEndian_generic T 2 data val.
Proof. intros HT. split; write_unroll. Qed.

Lemma Write_4_generic T data val : 0 < it_bits T →
  WriteBigEndian_4 T data val = WriteBigEndian_generic T 4 data val ∧
  WriteLittleEndian_4 T data val = WriteLittleEndian_generic T 4 data val.
Proof. intros HT. split; write_unroll. Qed.

Lemma Write_8_generic T data val : 0 < it_bits T →
  WriteBigEndian_8 T data val = WriteBigEndian_generic T 8 data val ∧
  WriteLittleEndian_8 T data val = WriteLittleEndian_generic T 8 data val.
Proof. intros HT. split; write_unroll. Qed.

Lemma write_loop_ok T val sh n : ∀ i data,
  (i + n ≤ length data)%nat → (∀ j, (i ≤ j < i + n)%nat → 0 ≤ sh j < it_bits (promote T)) →
  write_loop T val sh n i data =
  Ret (take i data ++ map (λ j, val / 2 ^ sh j mod 256) (seq i n) ++ drop (i + n) data).
Proof.
  induction n as [|n IH]; intros i data Hl Hs; [by rewrite Nat.add_0_r; simpl; rewrite take_drop|].
  simpl. unfold store_shr. rewrite shr_ok, bind_ret by (apply Hs; lia).
  unfold store. rewrite (proj2 (Nat.ltb_lt _ _)) by lia. rewrite bind_ret.
  rewrite IH by (rewrite ?length_insert; intros; try apply Hs; lia). f_equal.
  rewrite (take_S_r _ _ (convert uint8_t (val / 2 ^ sh i))) by (rewrite list_lookup_insert_eq; [done|lia]).
  rewrite take_insert_ge, drop_insert_lt, <-app_assoc by lia.
  by rewrite <-Nat.add_succ_comm.
Qed.

Lemma le_bytes_map n v : le_bytes n v = map (λ j, v / 2 ^ (Z.of_nat j * 8) mod 256) (seq 0 n).
Proof.
  revert v. induction n as [|n IH]; intros v; [done|]. simpl. rewrite Z.div_1_r. f_equal.
  rewrite IH, <-seq_shift, map_map. apply map_ext. intros j. f_equal.
  replace (Z.of_nat (S j) * 8) with (8 + Z.of_nat j * 8) by lia. rewrite Z.pow_add_r by lia.
  apply Z.div_div; [done|]. apply pow2_pos; lia.
Qed.

Lemma be_bytes_map n v :
  be_bytes n v = map (λ j, v / 2 ^ ((Z.of_nat n - 1 - Z.of_nat j) * 8) mod 256) (seq 0 n).
Proof.
  unfold be_bytes. rewrite le_bytes_map. apply list_eq. intros i.
  destruct (Nat.lt_ge_cases i n) as [Hi|Hi].
  - rewrite reverse_lookup by (rewrite length_map, length_seq; lia). rewrite length_map, length_seq.
    rewrite !list_lookup_fmap, !lookup_seq_lt by lia. simpl. do 4 f_equal. lia.
  - rewrite !lookup_ge_None_2; [done|..]; rewrite ?length_reverse, length_map, length_seq; lia.
Qed.

Lemma Write_unsigned_value T B data val :
  instance_ok T B → (B ≤ length data)%nat →
  WriteBigEndian_unsigned T B data val = Ret (be_bytes B val ++ drop B data) ∧
  WriteLittleEndian_unsigned T B data val = Ret (le_bytes B val ++ drop B data).
Proof.
  intros Hi Hl.
  assert (0 < it_bits T ∧ 8 * Z.of_nat B ≤ it_bits (promote T)) as [HT HP].
  { destruct (instance_cases T B Hi) as [[-> HT]|?]; pose proof (promote_wide T); lia. }
  assert (WriteBigEndian_unsigned T B data val = WriteBigEndian_generic T B data val ∧
          WriteLittleEndian_unsigned T B data val = WriteLittleEndian_generic T B data val) as [-> ->].
  { destruct (decide (B = 1%nat)) as [->|]; [by apply Write_1_generic|].
    destruct (decide (B = 2%nat)) as [->|]; [by apply Write_2_generic|].
    destruct (decide (B = 4%nat)) as [->|]; [by apply Write_4_generic|].
    destruct (decide (B = 8%nat)) as [->|]; [by apply Write_8_generic|].
    do 9 (destruct B as [|B]; [lia || done|]). done. }
  unfold WriteBigEndian_generic, WriteLittleEndian_generic.
  rewrite !write_loop_ok by (intros; lia). by rewrite be_bytes_map, le_bytes_map.
Qed.

(** ** Correctness of readers and writers *)

(** [ByteReader] for unsigned types reads the base-256 value of the first
    [B] bytes in the named byte order, for every type and byte count the
    static assertions admit, whichever specialisation is selected. *)
Theorem reader_unsigned_exact (T : int_type) (B : nat) (data : list Z) :
  instance_ok T B → it_signed T = false → bytes_ok data → (B ≤ length data)%nat →
  ReadBigEndian T B data = Ret (be_value (take B data)) ∧
  ReadLittleEndian T B data = Ret (le_value (take B data)).
Proof.
  intros Hi HS Hd Hl. unfold ReadBigEndian, ReadLittleEndian. rewrite HS.
  destruct (Read_unsigned_value T B data Hi Hd Hl) as [-> ->].
  assert (8 * Z.of_nat B ≤ it_bits T) as Hle by (destruct (instance_cases T B Hi); lia).
  assert (2 ^ (8 * Z.of_nat B) ≤ 2 ^ it_bits T) by (apply Z.pow_le_mono_r; lia).
  pose proof (be_value_range (take B data) ltac:(by apply Forall_take)) as Hb.
  pose proof (le_value_range (take B data) ltac:(by apply Forall_take)) as He.
  rewrite length_take, Nat.min_l in Hb, He by done.
  unfold convert. rewrite HS. by rewrite !wrapU_small by lia.
Qed.

Lemma reader_unsigned_exact_witness :
  ReadBigEndian uint64_t 5 [1; 2; 3; 4; 5; 6] = Ret 4328719365 ∧
  ReadLittleEndian uint32_t 4 [1; 2; 3; 4] = Ret 67305985.
Proof.
  split.
  - apply (reader_unsigned_exact uint64_t 5 [1; 2; 3; 4; 5; 6]);
      [by apply (bool_decide_unpack _)|done|by repeat constructor|simpl; lia].
  - apply (reader_unsigned_exact uint32_t 4 [1; 2; 3; 4]);
      [by apply (bool_decide_unpack _)|done|by repeat constructor|simpl; lia].
Defined.

(** The sign extension of [SignExtend] is defined: not needed, or within the
    width of [int]. *)
Definition extension_defined (T : int_type) (B : nat) : bool :=
  (8 * Z.of_nat B <? 32) || (8 * Z.of_nat B =? it_bits T).

Lemma Read_signed_value T B data :
  instance_ok T B → it_signed T = true → bytes_ok data → (B ≤ length data)%nat →
  (∀ V, V = be_value (take B data) →
     ReadBigEndian T B data =
       if (V <? 2 ^ (8 * Z.of_nat B - 1)) || extension_defined T B
       then Ret (wrapS (8 * Z.of_nat B) V) else Crash BadShift) ∧
  (∀ V, V = le_value (take B data) →
     ReadLittleEndian T B data =
       if (V <? 2 ^ (8 * Z.of_nat B - 1)) || extension_defined T B
       then Ret (wrapS (8 * Z.of_nat B) V) else Crash BadShift).
Proof.
  intros Hi HS Hd Hl. unfold ReadBigEndian, ReadLittleEndian, extension_defined. rewrite HS.
  unfold ReadBigEndian_signed, ReadLittleEndian_signed.
  destruct (Read_unsigned_value T B data Hi Hd Hl) as [-> ->].
  pose proof (be_value_range (take B data) ltac:(by apply Forall_take)) as Hb.
  pose proof (le_value_range (take B data) ltac:(by apply Forall_take)) as He.
  rewrite length_take, Nat.min_l in Hb, He by done.
  split; intros V ->; rewrite bind_ret, orb_assoc; by apply signed_of_unsigned.
Qed.

(** [ByteReader] for signed types reads the two's complement value of the
    first [B] bytes, sign extension included, whenever [B] is the size of the
    type or at most three. *)
Theorem reader_signed_exact (T : int_type) (B : nat) (data : list Z) :
  instance_ok T B → it_signed T = true → extension_defined T B = true →
  bytes_ok data → (B ≤ length data)%nat →
  ReadBigEndian T B data = Ret (wrapS (8 * Z.of_nat B) (be_value (take B data))) ∧
  ReadLittleEndian T B data = Ret (wrapS (8 * Z.of_nat B) (le_value (take B data))).
Proof.
  intros Hi HS HE Hd Hl. destruct (Read_signed_value T B data Hi HS Hd Hl) as [Hb He].
  by rewrite (Hb _ eq_refl), (He _ eq_refl), HE, !orb_true_r.
Qed.

Lemma reader_signed_exact_witness :
  ReadBigEndian int32_t 3 [129; 10; 11] = Ret (-8320501) ∧
  ReadLittleEndian int32_t 3 [129; 10; 11] = Ret 723585.
Proof.
  apply (reader_signed_exact int32_t 3 [129; 10; 11]);
    [by apply (bool_decide_unpack _)|done|done|by repeat constructor|simpl; lia].
Defined.

(** A signed 64-bit read of four to seven bytes whose value is negative
    is undefined behaviour in the code as written: [SignExtend] shifts the
    [int] constant 1 by 32 bits or more.  Non-negative values are read
    correctly. *)
Theorem reader_signed_wide_undefined (B : nat) (data : list Z) :
  (4 ≤ B ≤ 7)%nat → bytes_ok data → (B ≤ length data)%nat →
  let V := be_value (take B data) in
  ReadBigEndian int64_t B data = if V <? 2 ^ (8 * Z.of_nat B - 1) then Ret V else Crash BadShift.
Proof.
  intros HB Hd Hl V.
  assert (instance_ok int64_t B) as Hi.
  { split_and!; [by apply (bool_decide_unpack _)|lia|].
    destruct B as [|[|B]]; [lia..|]. apply Z.leb_le. change (sizeof int64_t) with 8. lia. }
  assert (extension_defined int64_t B = false) as HE.
  { unfold extension_defined. apply orb_false_iff. split; bool_solve; simpl; lia. }
  destruct (Read_signed_value int64_t B data Hi eq_refl Hd Hl) as [Hb _].
  rewrite (Hb V eq_refl), HE, orb_false_r.
  pose proof (be_value_range (take B data) ltac:(by apply Forall_take)).
  destruct (Z.ltb_spec V (2 ^ (8 * Z.of_nat B - 1))); [|done]. rewrite wrapS_small by lia. done.
Qed.

Lemma reader_signed_wide_undefined_witness :
  ReadBigEndian int64_t 5 [255; 0; 0; 0; 0] = Crash BadShift ∧
  ReadBigEndian int64_t 5 [127; 0; 0; 0; 1] = Ret 545460846593.
Proof.
  split.
  - apply (reader_signed_wide_undefined 5 [255; 0; 0; 0; 0]); [lia|by repeat constructor|simpl; lia].
  - apply (reader_signed_wide_undefined 5 [127; 0; 0; 0; 1]); [lia|by repeat constructor|simpl; lia].
Defined.

Lemma be_value_bytes n v : be_value (be_bytes n v) = v mod 2 ^ (8 * Z.of_nat n).
Proof. unfold be_bytes. by rewrite be_le_value, reverse_involutive, le_value_bytes. Qed.

Lemma be_bytes_length n v : length (be_bytes n v) = n.
Proof. unfold be_bytes. by rewrite length_reverse, le_bytes_length. Qed.

Lemma be_bytes_ok n v : bytes_ok (be_bytes n v).
Proof. apply Forall_reverse, le_bytes_ok. Qed.

Lemma instance_unsigned T B : instance_ok T B → instance_ok (UnsignedOf T) B.
Proof.
  intros (HT & HB & Hs). split_and!; [|done|by destruct B as [|[|]]].
  unfold std_types in HT. rewrite !elem_of_cons, elem_of_nil in HT.
  destruct_or! HT; subst; try done; by apply (bool_decide_unpack _).
Qed.

Lemma wrapU_unsigned_of T B val :
  instance_ok T B →
  convert (UnsignedOf T) val mod 2 ^ (8 * Z.of_nat B) = wrapU (8 * Z.of_nat B) val.
Proof.
  intros Hi. apply (wrapU_convert_wide _ (UnsignedOf T)); destruct (instance_cases T B Hi); simpl; lia.
Qed.

(** The writers store the [B] low bytes of the value. *)
Lemma Write_value T B data val :
  instance_ok T B → (B ≤ length data)%nat →
  ∃ v, v mod 2 ^ (8 * Z.of_nat B) = wrapU (8 * Z.of_nat B) val ∧
       WriteBigEndian T B data val = Ret (be_bytes B v ++ drop B data) ∧
       WriteLittleEndian T B data val = Ret (le_bytes B v ++ drop B data).
Proof.
  intros Hi Hl. unfold WriteBigEndian, WriteLittleEndian, ReinterpretAsUnsigned.
  destruct (it_signed T) eqn:HS.
  - eexists. split; [by apply wrapU_unsigned_of|].
    by apply Write_unsigned_value; [apply instance_unsigned|].
  - exists val. split; [done|]. by apply Write_unsigned_value.
Qed.

(** What reading back [B] bytes of [val] gives. *)
Definition truncated (T : int_type) (B : nat) (val : Z) : Z :=
  if it_signed T then wrapS (8 * Z.of_nat B) val else wrapU (8 * Z.of_nat B) val.

(** What the reader gives for the stored bytes of [val]: a negative number
    that would have to be extended from 32 bits or more to a wider type hits
    the undefined shift of [SignExtend]. *)
Definition read_back (T : int_type) (B : nat) (val : Z) : outcome Z :=
  if it_signed T && (32 <=? 8 * Z.of_nat B) && (8 * Z.of_nat B <? it_bits T) && (truncated T B val <? 0)
  then Crash BadShift else Ret (truncated T B val).

(** Two's complement of the stored bytes. *)
Lemma wrapS_of_wrapU w val :
  0 < w → wrapS w (wrapU w val) = wrapS w val ∧ (wrapU w val <? 2 ^ (w - 1)) = negb (wrapS w val <? 0).
Proof.
  intros Hw. assert (wrapS w (wrapU w val) = wrapS w val) as E by (unfold wrapS, wrapU; by rewrite Zplus_mod_idemp_l).
  split; [done|]. rewrite <-E. pose proof (wrapU_range w val ltac:(lia)) as Hr.
  pose proof (Z.pow_add_r 2 1 (w - 1) ltac:(lia) ltac:(lia)) as Hp. replace (1 + (w - 1)) with w in Hp by lia.
  destruct (Z.ltb_spec (wrapU w val) (2 ^ (w - 1))).
  - rewrite wrapS_small by lia. symmetry. apply negb_true_iff, Z.ltb_ge. lia.
  - symmetry. apply negb_false_iff, Z.ltb_lt. unfold wrapS.
    rewrite <-(Z.mod_unique_pos _ (2 ^ w) 1 (wrapU w val + 2 ^ (w - 1) - 2 ^ w)); lia.
Qed.

(** The value of the stored bytes read back, given that the bytes represent
    [V], the value [val] modulo [2 ^ (8 * B)]. *)
Lemma read_stored T B l rest val :
  instance_ok T B → bytes_ok l → bytes_ok rest → length l = B →
  (be_value l = wrapU (8 * Z.of_nat B) val → ReadBigEndian T B (l ++ rest) = read_back T B val) ∧
  (le_value l = wrapU (8 * Z.of_nat B) val → ReadLittleEndian T B (l ++ rest) = read_back T B val).
Proof.
  intros Hi Hl Hr HB.
  assert (bytes_ok (l ++ rest)) as Hd by (by apply Forall_app).
  assert (B ≤ length (l ++ rest))%nat as Hlen by (rewrite length_app; lia).
  assert (take B (l ++ rest) = l) as Ht by (by apply take_app_length').
  unfold read_back, truncated. destruct (it_signed T) eqn:HS.
  - destruct (Read_signed_value T B _ Hi HS Hd Hlen) as [Eb El]. rewrite Ht in Eb, El.
    specialize (Eb _ eq_refl). specialize (El _ eq_refl).
    assert (0 < 8 * Z.of_nat B ≤ it_bits T) by (destruct (instance_cases T B Hi); lia).
    destruct (wrapS_of_wrapU (8 * Z.of_nat B) val ltac:(lia)) as [E Hneg].
    rewrite Eb, El. unfold extension_defined.
    split; intros ->; rewrite E, Hneg; destruct (Z.ltb_spec (8 * Z.of_nat B) 32), (Z.eqb_spec (8 * Z.of_nat B) (it_bits T)),
      (Z.leb_spec 32 (8 * Z.of_nat B)), (Z.ltb_spec (8 * Z.of_nat B) (it_bits T)), (wrapS _ _ <? 0);
      simpl; done || lia.
  - destruct (Read_unsigned_value T B _ Hi Hd Hlen) as [Eb El].
    unfold ReadBigEndian, ReadLittleEndian. rewrite HS, Eb, El, Ht.
    assert (8 * Z.of_nat B ≤ it_bits T) by (destruct (instance_cases T B Hi); lia).
    assert (2 ^ (8 * Z.of_nat B) ≤ 2 ^ it_bits T) by (apply Z.pow_le_mono_r; lia).
    pose proof (wrapU_range (8 * Z.of_nat B) val ltac:(lia)).
    split; intros ->; unfold convert; rewrite HS, wrapU_small by lia; simpl; done.
Qed.

Lemma stored_frame (l data : list Z) (B : nat) :
  length l = B → (B ≤ length data)%nat → bytes_ok l → bytes_ok data →
  length (l ++ drop B data) = length data ∧ drop B (l ++ drop B data) = drop B data ∧
  bytes_ok (l ++ drop B data).
Proof.
  intros Hl HB Hbl Hbd. rewrite length_app, length_drop, drop_app_length' by done.
  split_and!; [lia|done|]. apply Forall_app. split; [done|by apply Forall_drop].
Qed.

(** C6: Writing an integer and reading it back is the identity up to
    truncation to [B] bytes, in both byte orders, for signed and unsigned
    types, with one exception, which is exact: when the type is signed and [B]
    is at least four bytes but less than the type ([int64_t] of four to seven
    bytes) and the truncated value is negative, reading it back is the
    undefined shift of [SignExtend].  The writer changes the first [B] bytes of
    the buffer and nothing else. *)
Theorem byte_io_round_trip (T : int_type) (B : nat) (data : list Z) (val : Z) :
  instance_ok T B → bytes_ok data → (B ≤ length data)%nat →
  (∃ d', WriteBigEndian T B data val = Ret d' ∧ length d' = length data ∧ drop B d' = drop B data ∧
         bytes_ok d' ∧ ReadBigEndian T B d' = read_back T B val) ∧
  (∃ d', WriteLittleEndian T B data val = Ret d' ∧ length d' = length data ∧ drop B d' = drop B data ∧
         bytes_ok d' ∧ ReadLittleEndian T B d' = read_back T B val).
Proof.
  intros Hi Hd Hl. pose proof (Forall_drop _ B _ Hd) as Hr.
  destruct (Write_value T B data val Hi Hl) as (v & Hv & -> & ->).
  pose proof (be_bytes_ok B v). pose proof (le_bytes_ok B v).
  pose proof (be_bytes_length B v). pose proof (le_bytes_length B v).
  split; eexists; (split; [done|]).
  - destruct (stored_frame (be_bytes B v) data B) as (? & ? & ?); [done..|]. split_and!; try done.
    apply read_stored; try done. by rewrite be_value_bytes.
  - destruct (stored_frame (le_bytes B v) data B) as (? & ? & ?); [done..|]. split_and!; try done.
    apply read_stored; try done. by rewrite le_value_bytes.
Qed.

Lemma byte_io_round_trip_witness :
  ∃ d', WriteBigEndian int32_t 3 [0; 0; 0; 7] (-2) = Ret d' ∧ ReadBigEndian int32_t 3 d' = Ret (-2).
Proof.
  destruct (byte_io_round_trip int32_t 3 [0; 0; 0; 7] (-2)) as [(d' & E & _ & _ & _ & R) _];
    [by apply (bool_decide_unpack _)|by repeat constructor|simpl; lia|].
  exists d'. split; [exact E|exact R].
Defined.
