(* ===== verification/Buffer.v ===== *)
(** * Growable buffers

    Model of [BufferT<T, ZeroOnFree>] of [src/include/rtc_base/buffer.h].  A
    heap block is a list of cells, a cell being [None] while it has no value;
    [data_] is the block the [unique_ptr] owns.  Operations that release a
    block return it with the contents it had when it was released, so that
    what [ZeroOnFree] promises can be stated.  [size_t] arithmetic wraps
    around at the width of the target.  A buffer that is passed data does not
    own that data (the source of a copy is a block of its own), and a
    [memcpy] of no elements may be given null pointers. *)

From S2P Require Import Prelude SafeMinMax.

(** ** Memory *)

(** A cell that has no value yet is [None]. *)
Abbreviation block E := (list (option E)) (only parsing).

(** What the buffer relies on outside its header: [ExplicitZeroMemory] of
    [rtc_base/zero_memory.h] (documented to fill memory with zeros; [zero] is
    the element all of whose bytes are zero), and an allocator that never
    provides an object larger than half the address space. *)
Class Memory (tgt : Target) (E : Type) := {
  zero : E;
  ExplicitZeroMemory : block E → Z → Z → outcome (block E);
  ExplicitZeroMemory_spec : ∀ b off n,
    0 ≤ off → 0 ≤ n → off + n ≤ Z.of_nat (length b) →
    ExplicitZeroMemory b off n =
      Ret (take (Z.to_nat off) b ++ replicate (Z.to_nat n) (Some zero) ++ drop (Z.to_nat (off + n)) b);
  max_elems : Z;
  max_elems_bound : 0 < max_elems ∧ 2 * max_elems < 2 ^ (8 * sizeof_ptr)
}.

Record BufferT (E : Type) := mkBuffer {
  size_ : Z;
  capacity_ : Z;
  data_ : option (block E)
}.
Arguments mkBuffer {E} size_ capacity_ data_.
Arguments size_ {E} b.
Arguments capacity_ {E} b.
Arguments data_ {E} b.

Section Buffer.
Context {bm : BuildMode} {tgt : Target} {E : Type} `{EqDecision E} {mem : Memory tgt E}.
Context (ZeroOnFree : bool).

(** Arithmetic of [size_t]. *)
Definition to_size_t (z : Z) : Z := wrapU (8 * sizeof_ptr) z.

(** [new T[n]]. *)
Definition new_array (n : Z) : outcome (block E) :=
  if n <=? max_elems then Ret (replicate (Z.to_nat n) None) else Crash OutOfMemory.

(** [memcpy(dst + off, src, n * sizeof(T))]. *)
Definition memcpy (dst : option (block E)) (off : Z) (src : block E) (n : Z) : outcome (option (block E)) :=
  if n =? 0 then Ret dst else
  match dst with
  | None => Crash NullDeref
  | Some b =>
      if (off + n <=? Z.of_nat (length b)) && (n <=? Z.of_nat (length src))
      then Ret (Some (take (Z.to_nat off) b ++ take (Z.to_nat n) src ++ drop (Z.to_nat (off + n)) b))
      else Crash OutOfBounds
  end.

Definition IsConsistent (b : BufferT E) : bool :=
  ((match data_ b with Some _ => true | None => false end) || (capacity_ b =? 0))
  && (capacity_ b >=? size_ b).

(** Zeroes [count] elements from [off] on. *)
Definition zero_range (b : BufferT E) (off count : Z) : outcome (BufferT E) :=
  match data_ b with
  | None => Crash NullDeref
  | Some d => d' ← ExplicitZeroMemory d off count; Ret (mkBuffer (size_ b) (capacity_ b) (Some d'))
  end.

Definition MaybeZeroCompleteBuffer (b : BufferT E) : outcome (BufferT E) :=
  if ZeroOnFree && (capacity_ b >? 0) then zero_range b 0 (capacity_ b) else Ret b.

Definition ZeroTrailingData (b : BufferT E) (count : Z) : outcome (BufferT E) :=
  RTC_DCHECK (IsConsistent b) ≫= λ _,
  RTC_DCHECK (count <=? to_size_t (capacity_ b - size_ b)) ≫= λ _,
  zero_range b (size_ b) count.

(** The blocks released when [data_] is given another value. *)
Definition release (d : option (block E)) : list (block E) :=
  match d with Some b => [b] | None => [] end.

(** The copy of the old elements into the new block. *)
Definition copy_old (b : BufferT E) (new_data : block E) : outcome (option (block E)) :=
  match data_ b with
  | Some d => memcpy (Some new_data) 0 d (size_ b)
  | None => Ret (Some new_data)
  end.

Definition EnsureCapacityWithHeadroom (b : BufferT E) (capacity : Z) (extra_headroom : bool)
    : outcome (BufferT E * list (block E)) :=
  RTC_DCHECK (IsConsistent b) ≫= λ _,
  if capacity <=? capacity_ b then Ret (b, []) else
  let new_capacity :=
    if extra_headroom then Z.max capacity (to_size_t (capacity_ b + capacity_ b / 2)) else capacity in
  new_data ← new_array new_capacity;
  new_data ← copy_old b new_data;
  b' ← MaybeZeroCompleteBuffer b;
  let b'' := mkBuffer (size_ b') new_capacity new_data in
  RTC_DCHECK (IsConsistent b'') ≫= λ _,
  Ret (b'', release (data_ b')).

(** ** Constructors and the destructor *)

Definition BufferT_empty : outcome (BufferT E) :=
  let b := mkBuffer 0 0 None in
  RTC_DCHECK (IsConsistent b) ≫= λ _, Ret b.

Definition BufferT_sized (size capacity : Z) : outcome (BufferT E) :=
  let cap := Z.max size capacity in
  d ← (if cap >? 0 then d ← new_array cap; Ret (Some d) else Ret None);
  let b := mkBuffer size cap d in
  RTC_DCHECK (IsConsistent b) ≫= λ _, Ret b.

Definition BufferT_copy (data : block E) (size capacity : Z) : outcome (BufferT E) :=
  b ← BufferT_sized size capacity;
  d ← memcpy (data_ b) 0 data size;
  Ret (mkBuffer (size_ b) (capacity_ b) d).

Definition BufferT_destroy (b : BufferT E) : outcome (list (block E)) :=
  b' ← MaybeZeroCompleteBuffer b; Ret (release (data_ b')).

Definition OnMovedFrom (b : BufferT E) : outcome (BufferT E) :=
  RTC_DCHECK (match data_ b with Some _ => false | None => true end) ≫= λ _,
  Ret (if RTC_DCHECK_IS_ON then mkBuffer 1 0 (data_ b) else mkBuffer 0 0 (data_ b)).

(** The move constructor: the new buffer and what is left of [buf]. *)
Definition BufferT_move (buf : BufferT E) : outcome (BufferT E * BufferT E) :=
  RTC_DCHECK (IsConsistent buf) ≫= λ _,
  RTC_DCHECK (IsConsistent buf) ≫= λ _,
  let b := mkBuffer (size_ buf) (capacity_ buf) (data_ buf) in
  RTC_DCHECK (IsConsistent b) ≫= λ _,
  buf' ← OnMovedFrom (mkBuffer (size_ buf) (capacity_ buf) None);
  Ret (b, buf').

(** [operator=(BufferT&&)] on two distinct buffers. *)
Definition move_assign (b buf : BufferT E) : outcome (BufferT E * BufferT E * list (block E)) :=
  RTC_DCHECK (IsConsistent buf) ≫= λ _,
  z ← MaybeZeroCompleteBuffer b;
  let b' := mkBuffer (size_ buf) (capacity_ buf) (data_ buf) in
  let freed := release (data_ z) in
  buf' ← OnMovedFrom (mkBuffer (size_ buf) (capacity_ buf) None);
  Ret (b', buf', freed).

Definition swap (a b : BufferT E) : BufferT E * BufferT E :=
  (mkBuffer (size_ b) (capacity_ b) (data_ b), mkBuffer (size_ a) (capacity_ a) (data_ a)).

(** ** Accessors *)

Definition empty (b : BufferT E) : outcome bool :=
  RTC_DCHECK (IsConsistent b) ≫= λ _, Ret (size_ b =? 0).
Definition size (b : BufferT E) : outcome Z := RTC_DCHECK (IsConsistent b) ≫= λ _, Ret (size_ b).
Definition capacity (b : BufferT E) : outcome Z := RTC_DCHECK (IsConsistent b) ≫= λ _, Ret (capacity_ b).
Definition data (b : BufferT E) : outcome (option (block E)) :=
  RTC_DCHECK (IsConsistent b) ≫= λ _, Ret (data_ b).

(** The value of element [index] of a block. *)
Definition read_cell (d : option (block E)) (index : Z) : outcome E :=
  match d with
  | None => Crash NullDeref
  | Some d => c ← from_option_or OutOfBounds (d !! Z.to_nat index); from_option_or UninitRead c
  end.

Definition get_at (b : BufferT E) (index : Z) : outcome E :=
  RTC_DCHECK (index <? size_ b) ≫= λ _, d ← data b; read_cell d index.

(** [b[index] = v]. *)
Definition set_at (b : BufferT E) (index : Z) (v : E) : outcome (BufferT E) :=
  RTC_DCHECK (index <? size_ b) ≫= λ _,
  d ← data b;
  match d with
  | None => Crash NullDeref
  | Some d => if index <? Z.of_nat (length d)
              then Ret (mkBuffer (size_ b) (capacity_ b) (Some (<[Z.to_nat index := Some v]> d)))
              else Crash OutOfBounds
  end.

(** The element-wise loop of [operator==], from index [i] on, [n] left. *)
Fixpoint eq_loop (d d' : option (block E)) (n : nat) (i : Z) : outcome bool :=
  match n with
  | O => Ret true
  | S n' => x ← read_cell d i; y ← read_cell d' i;
            if bool_decide (x = y) then eq_loop d d' n' (i + 1) else Ret false
  end.

(** [memcmp] reads the values of all cells of both operands. *)
Fixpoint memcmp_eq (d d' : option (block E)) (n : nat) (i : Z) : outcome bool :=
  match n with
  | O => Ret true
  | S n' => x ← read_cell d i; y ← read_cell d' i;
            r ← memcmp_eq d d' n' (i + 1); Ret (bool_decide (x = y) && r)
  end.

Definition buffer_eq (is_integral : bool) (b buf : BufferT E) : outcome bool :=
  RTC_DCHECK (IsConsistent b) ≫= λ _,
  if negb (size_ b =? size_ buf) then Ret false
  else if is_integral then memcmp_eq (data_ b) (data_ buf) (Z.to_nat (size_ b)) 0
  else eq_loop (data_ b) (data_ buf) (Z.to_nat (size_ b)) 0.

(** ** Changing the contents *)

Definition EnsureCapacity (b : BufferT E) (capacity : Z) : outcome (BufferT E * list (block E)) :=
  EnsureCapacityWithHeadroom b capacity false.

Definition SetSize (b : BufferT E) (size : Z) : outcome (BufferT E * list (block E)) :=
  let old_size := size_ b in
  '(b, freed) ← EnsureCapacityWithHeadroom b size true;
  let b := mkBuffer size (capacity_ b) (data_ b) in
  b ← (if ZeroOnFree && (size_ b <? old_size)
       then ZeroTrailingData b (to_size_t (old_size - size_ b)) else Ret b);
  Ret (b, freed).

Definition Clear (b : BufferT E) : outcome (BufferT E) :=
  b ← MaybeZeroCompleteBuffer b;
  let b := mkBuffer 0 (capacity_ b) (data_ b) in
  RTC_DCHECK (IsConsistent b) ≫= λ _, Ret b.

Definition AppendData (b : BufferT E) (data : block E) (size : Z) : outcome (BufferT E * list (block E)) :=
  RTC_DCHECK (IsConsistent b) ≫= λ _,
  let new_size := to_size_t (size_ b + size) in
  '(b, freed) ← EnsureCapacityWithHeadroom b new_size true;
  d ← memcpy (data_ b) (size_ b) data size;
  let b := mkBuffer new_size (capacity_ b) d in
  RTC_DCHECK (IsConsistent b) ≫= λ _,
  Ret (b, freed).

Definition AppendData_item (b : BufferT E) (item : E) : outcome (BufferT E * list (block E)) :=
  AppendData b [Some item] 1.

(** [setter] is the caller's function: from the view it is given (the cells of
    the new area) to the number of elements it says it wrote and what it left
    in the view. *)
Definition AppendData_setter (b : BufferT E) (max_elements : Z) (setter : block E → Z * block E)
    : outcome (BufferT E * list (block E) * Z) :=
  RTC_DCHECK (IsConsistent b) ≫= λ _,
  let old_size := size_ b in
  '(b, freed) ← SetSize b (to_size_t (old_size + max_elements));
  d ← data b;
  let view := take (Z.to_nat max_elements) (drop (Z.to_nat old_size) (default [] d)) in
  let '(written_elements, view') := setter view in
  d' ← memcpy d old_size view' max_elements;
  RTC_CHECK (written_elements <=? max_elements) ≫= λ _,
  let b := mkBuffer (to_size_t (old_size + written_elements)) (capacity_ b) d' in
  RTC_DCHECK (IsConsistent b) ≫= λ _,
  Ret (b, freed, written_elements).

Definition SetData (b : BufferT E) (data : block E) (size : Z) : outcome (BufferT E * list (block E)) :=
  RTC_DCHECK (IsConsistent b) ≫= λ _,
  let old_size := size_ b in
  '(b, freed) ← AppendData (mkBuffer 0 (capacity_ b) (data_ b)) data size;
  b ← (if ZeroOnFree && (size_ b <? old_size)
       then ZeroTrailingData b (to_size_t (old_size - size_ b)) else Ret b);
  Ret (b, freed).

Definition SetData_setter (b : BufferT E) (max_elements : Z) (setter : block E → Z * block E)
    : outcome (BufferT E * list (block E) * Z) :=
  RTC_DCHECK (IsConsistent b) ≫= λ _,
  let old_size := size_ b in
  '(b, freed, written) ← AppendData_setter (mkBuffer 0 (capacity_ b) (data_ b)) max_elements setter;
  b ← (if ZeroOnFree && (size_ b <? old_size)
       then ZeroTrailingData b (to_size_t (old_size - size_ b)) else Ret b);
  Ret (b, freed, written).

End Buffer.

(** ** Representation

    [rep b l s]: the buffer holds the elements [l], followed by the unused
    cells [s]. *)

Section BufferLemmas.
Context {bm : BuildMode} {tgt : Target} {E : Type} `{EqDecision E} {mem : Memory tgt E}.
Context (ZeroOnFree : bool).

Implicit Types (b : BufferT E) (l s : block E).

Definition rep b l s : Prop :=
  size_ b = Z.of_nat (length l) ∧ capacity_ b = Z.of_nat (length l + length s) ∧
  capacity_ b ≤ max_elems ∧
  match data_ b with Some d => d = l ++ s | None => l = [] ∧ s = [] end.

(** No data is left in the cells. *)
Definition clean s : Prop := Forall (λ c, c = None ∨ c = Some zero) s.

(** The invariant of a buffer with contents [l]: with [ZeroOnFree] the unused
    capacity holds no data. *)
Definition inv b l : Prop := ∃ s, rep b l s ∧ (ZeroOnFree = true → clean s).

(** With [ZeroOnFree] released blocks hold zeros only. *)
Definition zeroed (freed : list (block E)) : Prop :=
  ZeroOnFree = true → Forall (Forall (λ c, c = Some zero)) freed.

(** Sizes for which the growth policy stays within what can be allocated. *)
Definition size_ok (n : Z) : Prop := 0 ≤ n ∧ n + n / 2 ≤ max_elems.

Lemma rep_consistent b l s : rep b l s → IsConsistent b = true.
Proof.
  intros (Hs & Hc & _ & Hd). unfold IsConsistent. rewrite Z.geb_leb.
  destruct (data_ b); [simpl; bool_solve|]. destruct Hd as [-> ->]. simpl in *. bool_solve.
Qed.

Lemma to_size_t_small z : 0 ≤ z → z ≤ 2 * max_elems → to_size_t z = z.
Proof. intros. apply wrapU_small. pose proof max_elems_bound. lia. Qed.

Lemma new_array_ok n : n ≤ max_elems → new_array n = Ret (replicate (Z.to_nat n) None).
Proof. intros. unfold new_array. by rewrite (proj2 (Z.leb_le _ _)). Qed.

(** Copying over the first cells of the unused area. *)
Lemma memcpy_tail l s (src : block E) (n : nat) :
  (n ≤ length s)%nat → (n ≤ length src)%nat →
  memcpy (Some (l ++ s)) (Z.of_nat (length l)) src (Z.of_nat n) =
  Ret (Some (l ++ take n src ++ drop n s)).
Proof.
  intros Hs Hn. unfold memcpy. destruct (Z.eqb_spec (Z.of_nat n) 0) as [E0|_].
  { by assert (n = O) as -> by lia. }
  rewrite length_app, !(proj2 (Z.leb_le _ _)) by lia. simpl. do 2 f_equal.
  rewrite <-Nat2Z.inj_add, !Nat2Z.id, take_app_length. do 2 f_equal.
  by rewrite drop_app_ge, Nat.add_comm, Nat.add_sub by lia.
Qed.

Lemma zero_range_ok b d off n :
  data_ b = Some d → 0 ≤ off → 0 ≤ n → off + n ≤ Z.of_nat (length d) →
  zero_range b off n = Ret (mkBuffer (size_ b) (capacity_ b)
    (Some (take (Z.to_nat off) d ++ replicate (Z.to_nat n) (Some zero) ++ drop (Z.to_nat (off + n)) d))).
Proof. intros Hd ? ? ?. unfold zero_range. by rewrite Hd, ExplicitZeroMemory_spec. Qed.

(** What is released after [MaybeZeroCompleteBuffer]. *)
Lemma MaybeZero_ok b l s :
  rep b l s →
  ∃ d', MaybeZeroCompleteBuffer ZeroOnFree b = Ret (mkBuffer (size_ b) (capacity_ b) d') ∧
        zeroed (release d') ∧ length (release d') = length (release (data_ b)) ∧
        match d' with Some d => length d = (length l + length s)%nat | None => l = [] ∧ s = [] end.
Proof.
  destruct b as [sz cap d]. intros (Hs & Hc & _ & Hd). simpl in *. unfold MaybeZeroCompleteBuffer, zeroed; simpl.
  destruct d as [d|]; [subst d|destruct Hd as [-> ->]].
  - destruct ZeroOnFree; simpl; [|eexists; split_and!; [done..|apply length_app]].
    destruct (Z.gtb_spec cap 0).
    + rewrite (zero_range_ok _ (l ++ s)) by (done || rewrite ?length_app; lia).
      eexists. split; [done|]. simpl. rewrite drop_ge, app_nil_r by (rewrite length_app; lia).
      split_and!; [|done|rewrite length_replicate; lia].
      intros _. constructor; [|done]. by apply Forall_replicate.
    + eexists. split; [done|]. simpl. split_and!; [|done|apply length_app]. intros _.
      destruct l, s; simpl in *; try lia. by repeat constructor.
  - simpl in Hc. rewrite Hc, andb_false_r. exists None. subst. by split_and!.
Qed.

Lemma copy_old_ok b l s nc :
  rep b l s → capacity_ b ≤ nc →
  copy_old b (replicate (Z.to_nat nc) None) =
  Ret (Some (l ++ replicate (Z.to_nat nc - length l) None)).
Proof.
  intros (Hs & Hc & _ & Hd) Hn. unfold copy_old.
  destruct (data_ b) as [d|]; [subst d|by destruct Hd as [-> ->]; rewrite Nat.sub_0_r].
  rewrite Hs. etransitivity.
  - apply (memcpy_tail [] (replicate (Z.to_nat nc) None) (l ++ s) (length l));
      rewrite ?length_replicate, ?length_app; lia.
  - by rewrite take_app_length, drop_replicate.
Qed.

(** [EnsureCapacityWithHeadroom] either does nothing or moves the elements
    to a new block, whose unused cells have no value. *)
Lemma EnsureCapacity_ok b l s cap (hr : bool) :
  rep b l s → 0 ≤ cap → (if hr then size_ok cap else cap ≤ max_elems) →
  ∃ b' s' freed, EnsureCapacityWithHeadroom ZeroOnFree b cap hr = Ret (b', freed) ∧
    rep b' l s' ∧ zeroed freed ∧ cap ≤ capacity_ b' ∧
    (cap ≤ capacity_ b ∧ b' = b ∧ s' = s ∧ freed = [] ∨
     capacity_ b < cap ∧ s' = replicate (length s') None ∧
     (hr = true → capacity_ b + capacity_ b / 2 ≤ capacity_ b')).
Proof.
  intros Hr Hcap Hok. unfold EnsureCapacityWithHeadroom. rewrite (rep_consistent b l s Hr). pass.
  pose proof Hr as (Hs & Hc & Hm & Hd).
  destruct (Z.leb_spec cap (capacity_ b)) as [Hle|Hgt].
  { exists b, s, []. split_and!; try done; [intros _; constructor|by left]. }
  set (nc := if hr then _ else _).
  assert (cap ≤ nc ≤ max_elems ∧ (hr = true → capacity_ b + capacity_ b / 2 ≤ nc)) as [Hnc Hh].
  { unfold nc. destruct hr; [|lia]. destruct Hok as [_ Hok].
    pose proof (Z.div_le_mono (capacity_ b) cap 2 ltac:(lia) ltac:(lia)).
    pose proof (Z.div_pos (capacity_ b) 2 ltac:(lia) ltac:(lia)).
    rewrite to_size_t_small by lia. lia. }
  rewrite new_array_ok, bind_ret by lia.
  rewrite (copy_old_ok b l s) by (done || lia). set (s' := replicate (Z.to_nat nc - length l) None).
  rewrite bind_ret. destruct (MaybeZero_ok b l s Hr) as (d' & -> & Hz & _). rewrite bind_ret.
  assert (rep (mkBuffer (size_ b) nc (Some (l ++ s'))) l s') as Hr'.
  { split_and!; simpl; try done; try lia. unfold s'. rewrite length_replicate. lia. }
  simpl size_; simpl data_. rewrite (rep_consistent _ _ _ Hr'). pass.
  eexists _, s', _. split; [done|]. split_and!; try done; [simpl; lia|].
  right. split_and!; [done| |done]. unfold s'. by rewrite length_replicate.
Qed.

Lemma clean_replicate n : clean (replicate n None).
Proof. apply Forall_replicate. by left. Qed.

(** Zeroing the cells [x] that follow the elements. *)
Lemma ZeroTrailing_ok b l x s :
  rep b l (x ++ s) → x ≠ [] →
  ∃ b', ZeroTrailingData b (Z.of_nat (length x)) = Ret b' ∧
        rep b' l (replicate (length x) (Some zero) ++ s).
Proof.
  intros Hr Hx. pose proof Hr as (Hs & Hc & Hm & Hd). rewrite length_app in Hc.
  unfold ZeroTrailingData. rewrite (rep_consistent _ _ _ Hr). pass.
  rewrite to_size_t_small by lia. pass.
  destruct (data_ b) as [d|] eqn:Ed; [|by destruct Hd as [_ [? ?]%app_eq_nil]].
  rewrite (zero_range_ok b d) by (done || rewrite ?Hd, ?length_app; lia). subst d.
  rewrite Hs, <-Nat2Z.inj_add, !Nat2Z.id, take_app_length, (app_assoc l x s), drop_app_length'
    by (rewrite length_app; lia).
  eexists. split; [done|].
  split_and!; simpl; try done; rewrite ?length_app, ?length_replicate; lia.
Qed.

(** The step that ends [SetSize] and [SetData]: with [ZeroOnFree] the [n]
    cells that held elements before are cleared. *)
Lemma trailing_step b l s n (old_size : Z) :
  rep b l s → (n ≤ length s)%nat → old_size = size_ b + Z.of_nat n →
  (ZeroOnFree = true → clean (drop n s)) →
  ∃ b', (if ZeroOnFree && (size_ b <? old_size)
         then ZeroTrailingData b (to_size_t (old_size - size_ b)) else Ret b) = Ret b' ∧
        inv b' l ∧ capacity_ b' = capacity_ b.
Proof.
  intros Hr Hn -> Hcl. pose proof Hr as (Hs & Hc & Hm & Hd).
  destruct ZeroOnFree eqn:HZ; simpl; [|exists b; split_and!; try done; exists s; split; [done|congruence]].
  destruct (Z.ltb_spec (size_ b) (size_ b + Z.of_nat n)).
  - rewrite <-(take_drop n s) in Hr.
    destruct (ZeroTrailing_ok b l (take n s) (drop n s) Hr) as (b' & E1 & Hr').
    { intros E0%(f_equal length). rewrite length_take in E0. simpl in E0. lia. }
    rewrite length_take, Nat.min_l in E1 by done.
    replace (size_ b + Z.of_nat n - size_ b) with (Z.of_nat n) by lia. rewrite to_size_t_small by lia.
    exists b'. split; [done|]. split.
    + eexists. split; [done|]. intros _. apply Forall_app. split; [|by apply Hcl].
      apply Forall_replicate. by right.
    + destruct Hr' as (_ & -> & _). rewrite Hc, length_app, length_replicate, length_take, length_drop. lia.
  - exists b. split_and!; try done. exists s. split; [done|]. assert (n = O) as -> by lia. intros _. by apply Hcl.
Qed.

Lemma AppendData_ok b l s (src : block E) :
  rep b l s → size_ok (size_ b + Z.of_nat (length src)) →
  ∃ b' s' freed, AppendData ZeroOnFree b src (Z.of_nat (length src)) = Ret (b', freed) ∧
    rep b' (l ++ src) s' ∧ zeroed freed ∧
    (size_ b + Z.of_nat (length src) ≤ capacity_ b ∧ s' = drop (length src) s ∧ freed = [] ∧
       capacity_ b' = capacity_ b ∨
     capacity_ b < size_ b + Z.of_nat (length src) ∧ s' = replicate (length s') None ∧
       capacity_ b + capacity_ b / 2 ≤ capacity_ b').
Proof.
  intros Hr Hok. pose proof Hr as (Hs & Hc & Hm & Hd). pose proof Hok as [H0 H1].
  unfold AppendData. rewrite (rep_consistent _ _ _ Hr). pass.
  assert (0 ≤ (size_ b + Z.of_nat (length src)) / 2) by (apply Z.div_pos; lia).
  rewrite to_size_t_small by lia.
  destruct (EnsureCapacity_ok b l s (size_ b + Z.of_nat (length src)) true Hr H0 Hok)
    as (b1 & s1 & freed & -> & Hr1 & Hz & Hge & Hcase).
  rewrite bind_ret. pose proof Hr1 as (Hs1 & Hc1 & Hm1 & Hd1).
  assert (memcpy (data_ b1) (size_ b1) src (Z.of_nat (length src)) =
          Ret (match data_ b1 with Some _ => Some ((l ++ src) ++ drop (length src) s1) | None => None end)) as ->.
  { destruct (data_ b1) as [d|].
    - rewrite Hs1, Hd1, memcpy_tail, firstn_all, app_assoc by lia. done.
    - destruct Hd1 as [-> ->]. unfold memcpy. simpl in *.
      by rewrite (proj2 (Z.eqb_eq (Z.of_nat (length src)) 0)) by lia. }
  rewrite bind_ret. match goal with |- context [mkBuffer ?x ?y ?z] => set (b2 := mkBuffer x y z) end.
  assert (rep b2 (l ++ src) (drop (length src) s1)) as Hr2.
  { unfold b2. split_and!; simpl; rewrite ?length_app, ?length_drop; try lia.
    destruct (data_ b1) as [d|]; [done|]. destruct Hd1 as [-> ->]. simpl in *.
    destruct src; simpl in *; [done|lia]. }
  rewrite (rep_consistent _ _ _ Hr2). pass.
  exists b2, (drop (length src) s1), freed. split_and!; try done.
  destruct Hcase as [(? & -> & -> & ->)|(? & Hs1' & Hh)]; [by left|right].
  split_and!; [done| |by apply Hh]. rewrite Hs1' at 1. by rewrite drop_replicate, length_drop.
Qed.

(** ** The operations on the abstract contents *)

Lemma clean_drop n s : clean s → clean (drop n s).
Proof. apply Forall_drop. Qed.

Lemma inv_rep b l : inv b l → ∃ s, rep b l s ∧ (ZeroOnFree = true → clean s).
Proof. done. Qed.

Lemma AppendData_inv b l (src : block E) :
  inv b l → size_ok (size_ b + Z.of_nat (length src)) →
  ∃ b' freed, AppendData ZeroOnFree b src (Z.of_nat (length src)) = Ret (b', freed) ∧
    inv b' (l ++ src) ∧ zeroed freed.
Proof.
  intros (s & Hr & Hcl) Hok.
  destruct (AppendData_ok b l s src Hr Hok) as (b' & s' & freed & -> & Hr' & Hz & Hcase).
  exists b', freed. split_and!; [done| |done]. exists s'. split; [done|]. intros HZ.
  destruct Hcase as [(_ & -> & _)|(_ & -> & _)]; [by apply clean_drop, Hcl|apply clean_replicate].
Qed.

Lemma EnsureCapacity_inv b l cap :
  inv b l → 0 ≤ cap ≤ max_elems →
  ∃ b' freed, EnsureCapacity ZeroOnFree b cap = Ret (b', freed) ∧
    inv b' l ∧ zeroed freed ∧ cap ≤ capacity_ b'.
Proof.
  intros (s & Hr & Hcl) Hok.
  destruct (EnsureCapacity_ok b l s cap false Hr) as (b' & s' & freed & E1 & Hr' & Hz & Hge & Hcase); [lia..|].
  exists b', freed. split_and!; [done| |done|done]. exists s'. split; [done|]. intros HZ.
  destruct Hcase as [(_ & _ & -> & _)|(_ & -> & _)]; [by apply Hcl|apply clean_replicate].
Qed.

(** Cells of the contents may be counted as unused. *)
Lemma rep_shrink b l s n :
  rep b l s → (n ≤ length l)%nat →
  rep (mkBuffer (Z.of_nat n) (capacity_ b) (data_ b)) (take n l) (drop n l ++ s).
Proof.
  intros (Hs & Hc & Hm & Hd) Hn. split_and!; simpl; [by rewrite length_take_le| |done|].
  - rewrite length_app, length_drop, length_take_le by done. lia.
  - destruct (data_ b); [by rewrite app_assoc, take_drop|]. destruct Hd as [-> ->]. by rewrite take_nil, drop_nil.
Qed.

(** Unused cells may be counted as contents. *)
Lemma rep_grow b l s n :
  rep b l s → (n ≤ length s)%nat →
  rep (mkBuffer (size_ b + Z.of_nat n) (capacity_ b) (data_ b)) (l ++ take n s) (drop n s).
Proof.
  intros (Hs & Hc & Hm & Hd) Hn. split_and!; simpl; [| |done|].
  - rewrite length_app, length_take_le by done. lia.
  - rewrite length_app, length_drop, length_take_le by done. lia.
  - destruct (data_ b); [by rewrite <-app_assoc, take_drop|]. destruct Hd as [-> ->]. by rewrite take_nil, drop_nil.
Qed.

Lemma SetSize_inv b l n :
  inv b l → size_ok (Z.of_nat n) →
  ∃ b' freed l', SetSize ZeroOnFree b (Z.of_nat n) = Ret (b', freed) ∧
    inv b' l' ∧ zeroed freed ∧ length l' = n ∧ take (length l) l' = take n l ∧
    (ZeroOnFree = true → clean (drop (length l) l')).
Proof.
  intros (s & Hr & Hcl) Hok. unfold SetSize.
  destruct (EnsureCapacity_ok b l s (Z.of_nat n) true Hr ltac:(lia) Hok)
    as (b1 & s1 & freed & -> & Hr1 & Hz & Hge & Hcase). rewrite bind_ret.
  pose proof Hr as (Hs & _). pose proof Hr1 as (Hs1 & Hc1 & _).
  assert (ZeroOnFree = true → clean s1) as Hcl1.
  { intros HZ. destruct Hcase as [(_ & _ & -> & _)|(_ & -> & _)]; [by apply Hcl|apply clean_replicate]. }
  destruct (Nat.le_gt_cases n (length l)) as [Hle|Hgt].
  - pose proof (rep_shrink b1 l s1 n Hr1 Hle) as Hr2.
    destruct (trailing_step _ _ _ (length l - n) (size_ b) Hr2) as (b2 & E2 & Hi & _).
    { rewrite length_app, length_drop. lia. } { simpl. lia. }
    { rewrite drop_app_length' by (rewrite length_drop; lia). done. }
    simpl in E2. simpl. rewrite E2. exists b2, freed, (take n l).
    split_and!; try done; [by apply length_take_le|rewrite take_ge; [done|]; rewrite length_take; lia|].
    intros _. rewrite drop_ge; [constructor|]. rewrite length_take. lia.
  - pose proof (rep_grow b1 l s1 (n - length l) Hr1 ltac:(lia)) as Hr2.
    replace (size_ b1 + Z.of_nat (n - length l)) with (Z.of_nat n) in Hr2 by lia.
    simpl. rewrite (proj2 (Z.ltb_ge (Z.of_nat n) (size_ b))), andb_false_r by lia.
    eexists _, freed, _. split; [done|]. split_and!; [|done| | |].
    + eexists. split; [exact Hr2|]. intros HZ. by apply clean_drop, Hcl1.
    + rewrite length_app, length_take_le by lia. lia.
    + by rewrite take_app_length, take_ge by lia.
    + intros HZ. rewrite drop_app_length. by apply Forall_take, Hcl1.
Qed.

Lemma SetData_inv b l (src : block E) :
  inv b l → size_ok (Z.of_nat (length src)) →
  ∃ b' freed, SetData ZeroOnFree b src (Z.of_nat (length src)) = Ret (b', freed) ∧
    inv b' src ∧ zeroed freed.
Proof.
  intros (s & Hr & Hcl) Hok. unfold SetData. rewrite (rep_consistent _ _ _ Hr). pass.
  pose proof Hr as (Hs & Hc & _).
  pose proof (rep_shrink b l s 0 Hr ltac:(lia)) as Hr0. simpl in Hr0.
  change (Z.of_nat 0) with 0 in Hr0.
  destruct (AppendData_ok _ [] (l ++ s) src Hr0) as (b1 & s1 & freed & E1 & Hr1 & Hz & Hcase); [done|].
  simpl in Hr1, Hcase. rewrite E1, bind_ret. pose proof Hr1 as (Hs1 & Hc1 & _).
  destruct (Nat.le_gt_cases (length src) (length l)) as [Hle|Hgt].
  - destruct Hcase as [(_ & -> & -> & Hcap)|(? & _)]; [|lia].
    destruct (trailing_step _ _ _ (length l - length src) (size_ b) Hr1) as (b2 & E2 & Hi & _).
    { rewrite length_drop, length_app. lia. } { lia. }
    { rewrite drop_drop. replace (_ + _)%nat with (length l) by lia. by rewrite drop_app_length. }
    rewrite E2. by exists b2, [].
  - rewrite (proj2 (Z.ltb_ge (size_ b1) (size_ b))), andb_false_r by lia.
    exists b1, freed. split_and!; [done| |done]. exists s1. split; [done|]. intros HZ.
    destruct Hcase as [(_ & -> & _)|(_ & -> & _)]; [|apply clean_replicate].
    rewrite drop_app_ge by lia. by apply clean_drop, Hcl.
Qed.

Lemma Clear_inv b l : inv b l → ∃ b', Clear ZeroOnFree b = Ret b' ∧ inv b' [] ∧ capacity_ b' = capacity_ b.
Proof.
  intros (s & Hr & Hcl). unfold Clear. pose proof Hr as (Hs & Hc & Hm & Hd).
  destruct (MaybeZero_ok b l s Hr) as (d' & -> & Hz & _ & Hlen). rewrite bind_ret.
  assert (rep (mkBuffer 0 (capacity_ b) d') [] (default [] d')) as Hr'.
  { split_and!; simpl; try done.
    - destruct d'; [simpl; lia|]. destruct Hlen as [-> ->]. done.
    - by destruct d'. }
  simpl. rewrite (rep_consistent _ _ _ Hr'). pass. eexists. split_and!; [done| |done].
  eexists. split; [done|]. intros HZ. specialize (Hz HZ). destruct d'; [|constructor].
  apply Forall_cons_1 in Hz as [Hz _]. eapply Forall_impl; [|exact Hz]. naive_solver.
Qed.

Lemma set_at_inv b l i v :
  inv b l → (i < length l)%nat →
  ∃ b', set_at b (Z.of_nat i) v = Ret b' ∧ inv b' (<[i := Some v]> l).
Proof.
  intros (s & Hr & Hcl) Hi. pose proof Hr as (Hs & Hc & Hm & Hd). unfold set_at, data.
  rewrite (rep_consistent _ _ _ Hr). do 3 pass.
  destruct (data_ b) as [d|]; [subst d|by destruct Hd as [-> _]; simpl in Hi; lia].
  rewrite (proj2 (Z.ltb_lt _ _)) by (rewrite length_app; lia). rewrite Nat2Z.id.
  eexists. split; [done|]. exists s. split; [|done].
  split_and!; simpl; rewrite ?length_insert; try done. by rewrite insert_app_l.
Qed.

Lemma get_at_spec b l i v :
  inv b l → l !! i = Some (Some v) → get_at b (Z.of_nat i) = Ret v.
Proof.
  intros (s & Hr & _) Hl. pose proof Hr as (Hs & Hc & Hm & Hd). unfold get_at, data.
  pose proof (lookup_lt_Some _ _ _ Hl).
  rewrite (rep_consistent _ _ _ Hr). do 3 pass.
  destruct (data_ b) as [d|]; [subst d|by destruct Hd as [-> _]]. unfold read_cell.
  rewrite Nat2Z.id, lookup_app_l, Hl by done. done.
Qed.

Lemma destroy_zeroed b l : inv b l → ∃ freed, BufferT_destroy ZeroOnFree b = Ret freed ∧ zeroed freed.
Proof.
  intros (s & Hr & _). unfold BufferT_destroy.
  destruct (MaybeZero_ok b l s Hr) as (d' & -> & Hz & _). rewrite bind_ret. simpl. by eexists.
Qed.

Lemma empty_inv : ∃ b, BufferT_empty = Ret b ∧ inv b [].
Proof.
  unfold BufferT_empty. pose proof max_elems_bound.
  assert (rep (mkBuffer 0 0 None) [] []) as Hr by (split_and!; simpl; try done; lia).
  rewrite (rep_consistent _ _ _ Hr). pass. eexists. split; [done|]. exists []. split; [done|]. constructor.
Qed.

Lemma copy_inv (src : block E) cap :
  Z.of_nat (length src) ≤ max_elems → cap ≤ max_elems →
  ∃ b, BufferT_copy src (Z.of_nat (length src)) cap = Ret b ∧ inv b src ∧ cap ≤ capacity_ b.
Proof.
  intros Hn Hc. unfold BufferT_copy, BufferT_sized.
  set (c := Z.max _ _). assert (Z.of_nat (length src) ≤ c ≤ max_elems) as Hb by lia.
  set (d := if c >? 0 then Some (replicate (Z.to_nat c) (@None E)) else None).
  assert ((if c >? 0 then d ← new_array c; Ret (Some d) else Ret None) = Ret d) as ->.
  { unfold d. destruct (c >? 0); [by rewrite new_array_ok by lia|done]. }
  rewrite bind_ret.
  assert (IsConsistent (mkBuffer (Z.of_nat (length src)) c d) = true) as ->.
  { unfold IsConsistent, d; simpl. destruct (Z.gtb_spec c 0); simpl; rewrite Z.geb_leb; bool_solve. }
  pass. rewrite bind_ret. simpl.
  assert (memcpy d 0 src (Z.of_nat (length src)) =
     Ret (match d with Some _ => Some (src ++ replicate (Z.to_nat c - length src) None) | None => None end)) as ->.
  { unfold d. destruct (Z.gtb_spec c 0).
    - etransitivity; [apply (memcpy_tail [] _ src (length src)); rewrite ?length_replicate; lia|].
      by rewrite firstn_all, drop_replicate.
    - by destruct src; [|simpl in *; lia]. }
  rewrite bind_ret. eexists. split; [done|]. split; [|simpl; lia].
  exists (replicate (Z.to_nat c - length src) None). split; [|intros _; apply clean_replicate].
  split_and!; simpl; [done|rewrite length_replicate; lia|lia|].
  unfold d. destruct (Z.gtb_spec c 0); [done|]. destruct src; [|simpl in *; lia].
  by replace (Z.to_nat c) with O by lia.
Qed.

(** A caller's setter behaves: it stays within the view and leaves the cells
    it does not claim to have written as they were. *)
Definition setter_ok (setter : block E → Z * block E) : Prop :=
  ∀ view, length (setter view).2 = length view ∧ 0 ≤ (setter view).1 ∧
          drop (Z.to_nat (setter view).1) (setter view).2 = drop (Z.to_nat (setter view).1) view.

Lemma AppendData_setter_inv b l (n : nat) setter :
  inv b l → size_ok (size_ b + Z.of_nat n) → setter_ok setter →
  ∃ view, length view = n ∧
    let '(w, view') := setter view in
    if w <=? Z.of_nat n
    then ∃ b' freed, AppendData_setter ZeroOnFree b (Z.of_nat n) setter = Ret (b', freed, w) ∧
           inv b' (l ++ take (Z.to_nat w) view') ∧ zeroed freed
    else AppendData_setter ZeroOnFree b (Z.of_nat n) setter = Crash CheckFailed.
Proof.
  intros Hi Hok Hset. pose proof Hi as (s & Hr & _). pose proof Hr as (Hs & _). pose proof Hok as [_ H1].
  unfold AppendData_setter. rewrite (rep_consistent _ _ _ Hr).
  assert (0 ≤ (size_ b + Z.of_nat n) / 2) by (apply Z.div_pos; lia).
  rewrite to_size_t_small, Hs, <-Nat2Z.inj_add by lia. rewrite Hs, <-Nat2Z.inj_add in Hok.
  destruct (SetSize_inv b l (length l + n) Hi Hok) as (b1 & freed & l1 & -> & Hi1 & Hz & Hl1 & Hpre & Hcl).
  assert (l1 = l ++ drop (length l) l1) as El.
  { rewrite (take_ge l) in Hpre by lia. rewrite <-Hpre at 1. by rewrite take_drop. }
  set (view := drop (length l) l1) in *. assert (length view = n) as Hv by (unfold view; rewrite length_drop; lia).
  exists view. split; [done|].
  destruct Hi1 as (s1 & Hr1 & Hcl1). pose proof Hr1 as (Hs1 & Hc1 & Hm1 & Hd1).
  rewrite El in Hd1. rewrite El, length_app in Hc1, Hs1.
  destruct (Hset view) as (Hlen & Hw0 & Hdrop). destruct (setter view) as [w view'] eqn:Ev. simpl in *.
  pass. unfold data. rewrite (rep_consistent _ _ _ Hr1). do 2 pass.
  rewrite !Nat2Z.id.
  assert (take n (drop (length l) (default [] (data_ b1))) = view) as ->.
  { destruct (data_ b1) as [d|]; simpl.
    - rewrite Hd1, <-app_assoc, drop_app_length, take_app_length' by done. done.
    - destruct Hd1 as [[-> Hv0]%app_eq_nil _]. by rewrite Hv0, drop_nil, take_nil. }
  rewrite Ev.
  assert (memcpy (data_ b1) (Z.of_nat (length l)) view' (Z.of_nat n) =
          Ret (match data_ b1 with Some _ => Some (l ++ view' ++ s1) | None => None end)) as ->.
  { destruct (data_ b1) as [d|].
    - rewrite Hd1, <-app_assoc, memcpy_tail by (rewrite ?length_app; lia).
      by rewrite take_ge, drop_app_length' by lia.
    - destruct Hd1 as [[_ Hv0]%app_eq_nil _]. rewrite Hv0 in Hv. simpl in Hv. by subst n. }
  rewrite bind_ret. destruct (Z.leb_spec w (Z.of_nat n)) as [Hw|Hw]; [|done]. simpl RTC_CHECK. rewrite bind_ret.
  rewrite to_size_t_small by lia.
  match goal with |- context [mkBuffer ?x ?y ?z] => set (b2 := mkBuffer x y z) end.
  assert (rep b2 (l ++ take (Z.to_nat w) view') (drop (Z.to_nat w) view' ++ s1)) as Hr2.
  { unfold b2. split_and!; simpl; rewrite ?length_app, ?length_drop, ?length_take; try lia.
    destruct (data_ b1) as [d|]; [by rewrite <-app_assoc, (app_assoc (take _ _)), take_drop|].
    destruct Hd1 as [[-> Hv0]%app_eq_nil ->]. rewrite Hv0 in Hlen. destruct view'; [|done].
    by rewrite take_nil, drop_nil. }
  rewrite (rep_consistent _ _ _ Hr2). pass.
  eexists _, freed. split_and!; [done| |done]. eexists. split; [exact Hr2|]. intros HZ.
  apply Forall_app. split; [|by apply Hcl1]. rewrite Hdrop. by apply Forall_drop, Hcl.
Qed.

(** ** Sequences of operations *)

Inductive buffer_op :=
| OpAppend (src : block E)
| OpSetData (src : block E)
| OpSetSize (n : nat)
| OpEnsureCapacity (cap : Z)
| OpClear
| OpStore (i : nat) (v : E).

Definition run_op b (op : buffer_op) : outcome (BufferT E * list (block E)) :=
  match op with
  | OpAppend src => AppendData ZeroOnFree b src (Z.of_nat (length src))
  | OpSetData src => SetData ZeroOnFree b src (Z.of_nat (length src))
  | OpSetSize n => SetSize ZeroOnFree b (Z.of_nat n)
  | OpEnsureCapacity cap => EnsureCapacity ZeroOnFree b cap
  | OpClear => b ← Clear ZeroOnFree b; Ret (b, [])
  | OpStore i v => b ← set_at b (Z.of_nat i) v; Ret (b, [])
  end.

Fixpoint run_ops b (ops : list buffer_op) : outcome (BufferT E * list (block E)) :=
  match ops with
  | [] => Ret (b, [])
  | op :: ops => '(b, freed) ← run_op b op; '(b, freed') ← run_ops b ops; Ret (b, freed ++ freed')
  end.

(** The operations on a plain vector; new cells of a resized vector are
    arbitrary. *)
Definition vector_step l (op : buffer_op) l' : Prop :=
  match op with
  | OpAppend src => l' = l ++ src
  | OpSetData src => l' = src
  | OpSetSize n => length l' = n ∧ take (length l) l' = take n l
  | OpEnsureCapacity _ => l' = l
  | OpClear => l' = []
  | OpStore i v => l' = <[i := Some v]> l
  end.

Fixpoint vector_run l (ops : list buffer_op) l' : Prop :=
  match ops with [] => l' = l | op :: ops => ∃ l1, vector_step l op l1 ∧ vector_run l1 ops l' end.

(** The size after an operation, and the operations a buffer of size [n] can
    be asked to do: sizes that can be allocated, indices in range. *)
Definition next_size (n : nat) (op : buffer_op) : nat :=
  match op with
  | OpAppend src => n + length src
  | OpSetData src => length src
  | OpSetSize m => m
  | OpEnsureCapacity _ | OpStore _ _ => n
  | OpClear => 0
  end%nat.

Definition op_ok (n : nat) (op : buffer_op) : bool :=
  match op with
  | OpEnsureCapacity cap => (0 <=? cap) && (cap <=? max_elems)
  | OpStore i _ => (i <? n)%nat
  | OpClear => true
  | _ => let m := Z.of_nat (next_size n op) in m + m / 2 <=? max_elems
  end.

Fixpoint ops_ok (n : nat) (ops : list buffer_op) : bool :=
  match ops with [] => true | op :: ops => op_ok n op && ops_ok (next_size n op) ops end.

Lemma inv_size b l : inv b l → size_ b = Z.of_nat (length l).
Proof. by intros (s & (-> & _) & _). Qed.

Lemma run_op_inv b l op :
  inv b l → op_ok (length l) op = true →
  ∃ b' freed l', run_op b op = Ret (b', freed) ∧ vector_step l op l' ∧ inv b' l' ∧ zeroed freed ∧
                 length l' = next_size (length l) op.
Proof.
  intros Hi Hok. assert (zeroed []) by (intros _; constructor). pose proof (inv_size b l Hi) as Hs.
  destruct op as [src|src|n|cap| |i v]; simpl in *.
  - apply Z.leb_le in Hok. destruct (AppendData_inv b l src Hi) as (b' & f & E1 & ? & ?).
    { split; [lia|]. by rewrite Hs, <-Nat2Z.inj_add. }
    exists b', f, (l ++ src). by rewrite length_app.
  - apply Z.leb_le in Hok. destruct (SetData_inv b l src Hi) as (b' & f & E1 & ? & ?); [split; [lia|done]|].
    by exists b', f, src.
  - apply Z.leb_le in Hok. destruct (SetSize_inv b l n Hi) as (b' & f & l' & E1 & ? & ? & ? & ? & _); [split; [lia|done]|].
    by exists b', f, l'.
  - apply andb_true_iff in Hok as [?%Z.leb_le ?%Z.leb_le].
    destruct (EnsureCapacity_inv b l cap Hi) as (b' & f & E1 & ? & ? & _); [done|]. by exists b', f, l.
  - destruct (Clear_inv b l Hi) as (b' & -> & ? & _). by exists b', [], [].
  - apply Nat.ltb_lt in Hok. destruct (set_at_inv b l i v Hi Hok) as (b' & -> & ?).
    exists b', [], (<[i := Some v]> l). by rewrite length_insert.
Qed.

Lemma run_ops_inv ops : ∀ b l,
  inv b l → ops_ok (length l) ops = true →
  ∃ b' freed l', run_ops b ops = Ret (b', freed) ∧ vector_run l ops l' ∧ inv b' l' ∧ zeroed freed.
Proof.
  induction ops as [|op ops IH]; intros b l Hi Hok; simpl in *.
  { exists b, [], l. split_and!; try done. intros _. constructor. }
  apply andb_true_iff in Hok as [Hop Hops].
  destruct (run_op_inv b l op Hi Hop) as (b1 & f1 & l1 & -> & Hstep & Hi1 & Hz1 & Hlen).
  rewrite <-Hlen in Hops. destruct (IH b1 l1 Hi1 Hops) as (b2 & f2 & l2 & E2 & Hrun & Hi2 & Hz2).
  rewrite bind_ret, E2, bind_ret. exists b2, (f1 ++ f2), l2. split_and!; try done.
  - by exists l1.
  - intros HZ. apply Forall_app. split; [by apply Hz1|by apply Hz2].
Qed.

(** The elements of a buffer. *)
Definition contents b : block E := take (Z.to_nat (size_ b)) (default [] (data_ b)).

Lemma inv_contents b l : inv b l → contents b = l.
Proof.
  intros (s & (Hs & _ & _ & Hd) & _). unfold contents. rewrite Hs, Nat2Z.id.
  destruct (data_ b); simpl; [by subst; rewrite take_app_length|]. by destruct Hd as [-> _].
Qed.

End BufferLemmas.

Arguments OpAppend {E} src.
Arguments OpSetData {E} src.
Arguments OpSetSize {E} n.
Arguments OpEnsureCapacity {E} cap.
Arguments OpClear {E}.
Arguments OpStore {E} i v.

(** A concrete memory, on which the interface of the model holds. *)
Definition target64 : Target := {| sizeof_ptr := 8 |}.

#[global] Program Instance byte_memory : Memory target64 Z := {|
  zero := 0;
  ExplicitZeroMemory b off n :=
    Ret (take (Z.to_nat off) b ++ replicate (Z.to_nat n) (Some 0) ++ drop (Z.to_nat (off + n)) b);
  max_elems := 4096
|}.
Next Obligation. done. Qed.
Next Obligation. done. Qed.

(** ** Correctness of the buffer *)

Section BufferTheorems.
Context {bm : BuildMode} {tgt : Target} {E : Type} `{EqDecision E} {mem : Memory tgt E}.

(** C2: A buffer behaves as a vector: any sequence of [AppendData],
    [SetData], [SetSize], [EnsureCapacity], [Clear] and element stores that
    asks for sizes that can be allocated and indices in range, started from
    an empty buffer, runs without a failed check, a wild access or a null
    dereference, and the elements of the buffer are those of a plain vector on
    which the same operations are done. *)
Theorem buffer_refines_vector (ZeroOnFree : bool) (ops : list (buffer_op (E := E))) :
  ops_ok 0 ops = true →
  ∃ b freed, (b0 ← BufferT_empty; run_ops ZeroOnFree b0 ops) = Ret (b, freed) ∧
    vector_run [] ops (contents b) ∧ size_ b = Z.of_nat (length (contents b)) ∧
    size_ b ≤ capacity_ b.
Proof.
  intros Hok. destruct (empty_inv ZeroOnFree) as (b0 & -> & Hi0). rewrite bind_ret.
  destruct (run_ops_inv ZeroOnFree ops b0 [] Hi0 Hok) as (b & freed & l & -> & Hrun & Hi & _).
  exists b, freed. rewrite (inv_contents _ _ _ Hi). split_and!; [done|done|by eapply inv_size|].
  destruct Hi as (s & (-> & -> & _) & _). lia.
Qed.

(** C7: A [ZeroOnFreeBuffer] leaks nothing: after any such sequence of
    operations, every block the buffer has released and the block its
    destructor releases contain zeros only at the moment of release, and the
    unused capacity in between never holds data that was once an element. *)
Theorem buffer_zero_on_free (ops : list (buffer_op (E := E))) :
  ops_ok 0 ops = true →
  ∃ b freed last, (b0 ← BufferT_empty; run_ops true b0 ops) = Ret (b, freed) ∧
    BufferT_destroy true b = Ret last ∧
    Forall (Forall (λ c, c = Some zero)) (freed ++ last) ∧
    clean (drop (Z.to_nat (size_ b)) (default [] (data_ b))).
Proof.
  intros Hok. destruct (empty_inv true) as (b0 & -> & Hi0). rewrite bind_ret.
  destruct (run_ops_inv true ops b0 [] Hi0 Hok) as (b & freed & l & -> & _ & Hi & Hz).
  destruct (destroy_zeroed true b l Hi) as (last & Hdestroy & Hz').
  exists b, freed, last. split_and!; [done..| |].
  - apply Forall_app. split; [by apply Hz|by apply Hz'].
  - destruct Hi as (s & (-> & _ & _ & Hd) & Hcl). rewrite Nat2Z.id. destruct (data_ b); simpl.
    + subst. rewrite drop_app_length. by apply Hcl.
    + rewrite drop_nil. constructor.
Qed.

Lemma moved_from_ok (b : BufferT E) :
  ∃ old : BufferT E, OnMovedFrom (mkBuffer (size_ b) (capacity_ b) None) = Ret old ∧
         old = if RTC_DCHECK_IS_ON then mkBuffer 1 0 None else mkBuffer 0 0 None.
Proof. unfold OnMovedFrom. simpl. pass. by eexists. Qed.

(** Moving a buffer transfers its elements and its block without copying,
    and leaves a buffer that a build with debug checks refuses to use (every
    accessor and [AppendData] fail their consistency check) and that a release
    build treats as empty; [Clear] makes a moved-from buffer an empty one in
    either build, as its comment says.  Move assignment also releases the
    block of the target, zeroed if [ZeroOnFree]. *)
Theorem buffer_move_semantics (ZeroOnFree : bool) (a b : BufferT E) (la lb : block E) :
  inv ZeroOnFree a la → inv ZeroOnFree b lb →
  (∃ b' old, BufferT_move b = Ret (b', old) ∧ inv ZeroOnFree b' lb ∧ data_ b' = data_ b ∧
     (∃ c, Clear ZeroOnFree old = Ret c ∧ inv ZeroOnFree c []) ∧
     (if RTC_DCHECK_IS_ON then size old = Crash DCheckFailed ∧
        ∀ src n, AppendData ZeroOnFree old src n = Crash DCheckFailed
      else inv ZeroOnFree old [])) ∧
  (∃ a' old freed, move_assign ZeroOnFree a b = Ret (a', old, freed) ∧ inv ZeroOnFree a' lb ∧
     data_ a' = data_ b ∧ zeroed ZeroOnFree freed ∧ length freed = length (release (data_ a))).
Proof.
  intros (sa & Hra & _) Hib. pose proof Hib as (sb & Hrb & _). pose proof max_elems_bound as [Hmax _].
  assert (inv ZeroOnFree (mkBuffer 0 0 None) []) as Hi0.
  { exists []. split; [split_and!; simpl; try done; lia|]. constructor. }
  destruct (moved_from_ok b) as (old & E1 & Hold).
  assert (mkBuffer (size_ b) (capacity_ b) (data_ b) = b) as Eb by (by destruct b).
  split.
  - unfold BufferT_move. rewrite Eb, (rep_consistent _ _ _ Hrb), E1. do 4 pass.
    exists b, old. split_and!; try done.
    + exists (mkBuffer 0 0 None). split; [|done]. unfold Clear, MaybeZeroCompleteBuffer.
      destruct RTC_DCHECK_IS_ON; subst; simpl; by rewrite andb_false_r, bind_ret, dcheck_pass.
    + unfold size, AppendData. destruct RTC_DCHECK_IS_ON eqn:Ed; subst; [|done].
      unfold RTC_DCHECK. rewrite Ed. done.
  - unfold move_assign. rewrite Eb, (rep_consistent _ _ _ Hrb), E1. pass.
    destruct (MaybeZero_ok ZeroOnFree a la sa Hra) as (d' & -> & Hz & Hlen & _). do 2 pass. simpl.
    exists b, old, (release d'). split_and!; try done.
Qed.

(** The setter variants of [AppendData]: for a caller's function that
    stays within its view and leaves unclaimed cells alone, exactly the cells
    it claims to have written are appended (and the call returns their
    number); a function that claims more than [max_elements] stops the
    program in every build. *)
Theorem buffer_append_setter (ZeroOnFree : bool) (b : BufferT E) (l : block E) (n : nat)
    (setter : block E → Z * block E) :
  inv ZeroOnFree b l → size_ok (size_ b + Z.of_nat n) → setter_ok setter →
  ∃ view, length view = n ∧
    let '(w, view') := setter view in
    if w <=? Z.of_nat n
    then ∃ b' freed, AppendData_setter ZeroOnFree b (Z.of_nat n) setter = Ret (b', freed, w) ∧
           inv ZeroOnFree b' (l ++ take (Z.to_nat w) view') ∧ zeroed ZeroOnFree freed
    else AppendData_setter ZeroOnFree b (Z.of_nat n) setter = Crash CheckFailed.
Proof. apply AppendData_setter_inv. Qed.

(** Appending items one at a time; the second component counts the elements
    that reallocations copied ([copy_old] copies [size_] of them). *)
Fixpoint append_items (ZeroOnFree : bool) (b : BufferT E) (items : list E) : outcome (BufferT E * Z) :=
  match items with
  | [] => Ret (b, 0)
  | x :: items =>
      let copied := if size_ b + 1 <=? capacity_ b then 0 else size_ b in
      '(b, _) ← AppendData_item ZeroOnFree b x;
      '(b, total) ← append_items ZeroOnFree b items;
      Ret (b, copied + total)
  end.

(** Copies already paid for by earlier appends. *)
Definition potential (b : BufferT E) : Z := Z.max 0 (3 * size_ b - 2 * capacity_ b).

Lemma append_item_amortized (ZeroOnFree : bool) (b : BufferT E) (l : block E) (x : E) :
  inv ZeroOnFree b l → size_ok (size_ b + 1) →
  ∃ b' freed, AppendData_item ZeroOnFree b x = Ret (b', freed) ∧ inv ZeroOnFree b' (l ++ [Some x]) ∧
    (if size_ b + 1 <=? capacity_ b then 0 else size_ b) + potential b' ≤ potential b + 4.
Proof.
  intros (s & Hr & Hcl) Hok. unfold AppendData_item.
  destruct (AppendData_ok ZeroOnFree b l s [Some x] Hr Hok) as (b' & s' & freed & E1 & Hr' & _ & Hcase).
  change (Z.of_nat (length [Some x])) with 1 in *. exists b', freed. split; [done|].
  pose proof Hr as (Hs & Hc & _). pose proof Hr' as (Hs' & Hc' & _). rewrite length_app in Hs', Hc'.
  split.
  - exists s'. split; [done|]. intros HZ.
    destruct Hcase as [(_ & -> & _)|(_ & -> & _)]; [by apply clean_drop, Hcl|apply clean_replicate].
  - unfold potential. simpl in Hs', Hc'.
    destruct Hcase as [(Hle & _ & _ & Hcap)|(Hgt & _ & Hcap)].
    + rewrite (proj2 (Z.leb_le _ _)) by lia. lia.
    + rewrite (proj2 (Z.leb_gt _ _)) by lia.
      pose proof (Z.div_mod (capacity_ b) 2 ltac:(lia)). pose proof (Z.mod_pos_bound (capacity_ b) 2 ltac:(lia)).
      lia.
Qed.

(** Appending is linear, as the growth policy intends: appending [n]
    items one at a time to any buffer copies at most [4 * n + size] elements
    in all reallocations together ([4 * n] from an empty buffer), and leaves
    the items in order behind the old elements. *)
Theorem buffer_append_amortized (ZeroOnFree : bool) (items : list E) : ∀ (b : BufferT E) (l : block E),
  inv ZeroOnFree b l → size_ok (size_ b + Z.of_nat (length items)) →
  ∃ b' total, append_items ZeroOnFree b items = Ret (b', total) ∧
    inv ZeroOnFree b' (l ++ map Some items) ∧ total ≤ 4 * Z.of_nat (length items) + size_ b.
Proof.
  assert (∀ b l, inv ZeroOnFree b l → size_ok (size_ b + Z.of_nat (length items)) →
    ∃ b' total, append_items ZeroOnFree b items = Ret (b', total) ∧
      inv ZeroOnFree b' (l ++ map Some items) ∧
      total + potential b' ≤ 4 * Z.of_nat (length items) + potential b) as Hall.
  { induction items as [|x items IH]; intros b l Hi Hok; simpl.
    { exists b, 0. rewrite app_nil_r. split_and!; [done..|lia]. }
    assert (size_ok (size_ b + 1)) as Hok1.
    { destruct Hok as [_ H2]. pose proof (inv_size _ _ _ Hi). split; [lia|]. simpl length in H2.
      pose proof (Z.div_le_mono (size_ b + 1) (size_ b + Z.of_nat (S (length items))) 2). lia. }
    destruct (append_item_amortized ZeroOnFree b l x Hi Hok1) as (b1 & f & -> & Hi1 & Hp1).
    destruct (IH b1 (l ++ [Some x]) Hi1) as (b2 & t & E2 & Hi2 & Hp2).
    { rewrite (inv_size _ _ _ Hi1), length_app. rewrite (inv_size _ _ _ Hi) in Hok. simpl length in *.
      replace (Z.of_nat (length l + 1) + Z.of_nat (length items))
        with (Z.of_nat (length l) + Z.of_nat (S (length items))) by lia. done. }
    rewrite bind_ret, E2, bind_ret. eexists b2, _. split; [done|]. rewrite <-app_assoc in Hi2.
    split; [done|]. lia. }
  intros b l Hi Hok. destruct (Hall b l Hi Hok) as (b' & t & E1 & Hi' & Hp).
  exists b', t. split_and!; [done..|]. pose proof (inv_size _ _ _ Hi).
  destruct Hi as (s & (_ & Hc & _) & _). unfold potential in Hp. lia.
Qed.

End BufferTheorems.

Definition sample_ops : list (buffer_op (E := Z)) :=
  [OpAppend [Some 1; Some 2; Some 3]; OpSetSize 2; OpAppend [Some 9; Some 9; Some 9; Some 9];
   OpStore 0 7; OpSetData [Some 5]; OpEnsureCapacity 64; OpClear].

Lemma buffer_refines_vector_witness :
  ∃ b freed, (b0 ← BufferT_empty (bm := debug_build); run_ops (bm := debug_build) (tgt := target64) false b0 sample_ops)
             = Ret (b, freed) ∧ contents b = [].
Proof.
  destruct (buffer_refines_vector (bm := debug_build) (tgt := target64) (E := Z) false sample_ops)
    as (b & freed & E1 & Hrun & _); [reflexivity|].
  exists b, freed. split; [exact E1|].
  vm_compute in E1. by injection E1 as <- <-.
Defined.

Lemma buffer_zero_on_free_witness :
  ∃ b freed last, (b0 ← BufferT_empty (bm := debug_build); run_ops (bm := debug_build) (tgt := target64) true b0 sample_ops)
             = Ret (b, freed) ∧ BufferT_destroy (tgt := target64) true b = Ret last ∧
             Forall (Forall (λ c, c = Some 0)) (freed ++ last) ∧ length freed = 2%nat.
Proof.
  destruct (buffer_zero_on_free (bm := debug_build) (tgt := target64) (E := Z) sample_ops)
    as (b & freed & last & E1 & E2 & Hz & _); [reflexivity|].
  exists b, freed, last. split_and!; [exact E1|exact E2|exact Hz|].
  vm_compute in E1. by injection E1 as <- <-.
Defined.

Lemma sample_buffer_inv :
  inv (tgt := target64) true (mkBuffer 2 4 (Some [Some 3; Some 4; None; Some 0])) [Some 3; Some 4].
Proof.
  exists [None; Some 0]. split; [by split_and!|]. intros _. by repeat constructor; auto.
Qed.

Lemma buffer_move_semantics_witness :
  ∃ b' old, BufferT_move (bm := debug_build) (mkBuffer 2 4 (Some [Some 3; Some 4; None; Some 0])) = Ret (b', old) ∧
            size (bm := debug_build) old = Crash DCheckFailed.
Proof.
  destruct (buffer_move_semantics (bm := debug_build) (tgt := target64) true _ _ _ _ sample_buffer_inv sample_buffer_inv)
    as ((b' & old & E1 & _ & _ & _ & E2 & _) & _).
  exists b', old. split; [exact E1|exact E2].
Defined.

Definition sample_setter (view : list (option Z)) : Z * list (option Z) :=
  match view with [] => (0, []) | _ :: v => (1, Some 8 :: v) end.

Lemma buffer_append_setter_witness :
  ∃ b' freed, AppendData_setter (bm := debug_build) (tgt := target64) true
    (mkBuffer 2 4 (Some [Some 3; Some 4; None; Some 0])) 3 sample_setter = Ret (b', freed, 1) ∧
    inv (tgt := target64) true b' [Some 3; Some 4; Some 8].
Proof.
  destruct (buffer_append_setter (bm := debug_build) (tgt := target64) true _ _ 3 sample_setter sample_buffer_inv)
    as (view & Hv & H).
  - by vm_compute.
  - intros [|c v]; by split_and!.
  - destruct view as [|c v]; [done|]. simpl in H. destruct H as (b' & freed & E1 & Hi & _). by exists b', freed.
Defined.

Lemma buffer_append_amortized_witness :
  ∃ b' total, append_items (bm := debug_build) (tgt := target64) true
    (mkBuffer 2 4 (Some [Some 3; Some 4; None; Some 0])) [1; 2; 3; 4; 5] = Ret (b', total) ∧ total ≤ 22.
Proof.
  destruct (buffer_append_amortized (bm := debug_build) (tgt := target64) true [1; 2; 3; 4; 5] _ _ sample_buffer_inv)
    as (b' & t & E1 & _ & Ht); [by vm_compute|].
  exists b', t. split; [exact E1|exact Ht].
Defined.
