(* ===== verification/SwapQueue.v ===== *)
(** * The single-producer single-consumer swap queue

    Model of [src/include/rtc_base/swap_queue.h].  The operations are split at
    their accesses to shared memory (the atomic counter [num_elements_] and the
    slots of [queue_]); [Insert], [Remove] and [Clear] compose the pieces as
    the source does, and the step relation at the end of the definitions
    interleaves the pieces of a producer and a consumer thread.  The order of
    the pieces within a thread, as seen by the other thread, is what the
    acquire and release orderings of the source guarantee, so a step is a
    piece.  The indices and the counter stay below twice the number of slots,
    which is far from the range of [size_t]; they are natural numbers. *)

From S2P Require Import Prelude.

Section SwapQueue.
Context {bm : BuildMode} {T : Type}.

(** [QueueItemVerifier]. *)
Context (queue_item_verifier_ : T → bool).

Record SwapQueue := mkQueue {
  queue_ : list T;
  next_write_index_ : nat;
  next_read_index_ : nat;
  num_elements_ : nat
}.

Definition queue_size (q : SwapQueue) : nat := length (queue_ q).

(** ** Constructors *)

Fixpoint VerifyQueueSlots (slots : list T) : outcome bool :=
  match slots with
  | [] => Ret true
  | v :: slots => RTC_DCHECK (queue_item_verifier_ v) ≫= λ _, VerifyQueueSlots slots
  end.

(** [SwapQueue(size, prototype, queue_item_verifier)]. *)
Definition SwapQueue_init (size : nat) (prototype : T) : outcome SwapQueue :=
  let q := mkQueue (replicate size prototype) 0 0 0 in
  ok ← (if RTC_DCHECK_IS_ON then VerifyQueueSlots (queue_ q) else Ret true);
  RTC_DCHECK ok ≫= λ _, Ret q.

(** ** The pieces of Insert *)

(** The load of [num_elements_], compared with the size. *)
Definition insert_full (q : SwapQueue) : bool := (num_elements_ q =? queue_size q)%nat.

(** The swap of the input with [queue_[next_write_index_]]. *)
Definition insert_swap (q : SwapQueue) (input : T) : outcome (T * SwapQueue) :=
  e ← from_option_or OutOfBounds (queue_ q !! next_write_index_ q);
  Ret (e, mkQueue (<[next_write_index_ q := input]> (queue_ q))
                  (next_write_index_ q) (next_read_index_ q) (num_elements_ q)).

(** [atomic_fetch_add]: the old value and the new state. *)
Definition insert_add (q : SwapQueue) : nat * SwapQueue :=
  (num_elements_ q,
   mkQueue (queue_ q) (next_write_index_ q) (next_read_index_ q) (num_elements_ q + 1)).

Definition insert_advance (q : SwapQueue) (old_num_elements : nat) : outcome SwapQueue :=
  let w := (next_write_index_ q + 1)%nat in
  let w := if (w =? queue_size q)%nat then 0%nat else w in
  RTC_DCHECK (w <? queue_size q)%nat ≫= λ _,
  RTC_DCHECK (old_num_elements <? queue_size q)%nat ≫= λ _,
  Ret (mkQueue (queue_ q) w (next_read_index_ q) (num_elements_ q)).

(** The result, what [*input] holds afterwards, and the queue. *)
Definition Insert (q : SwapQueue) (input : T) : outcome (bool * T * SwapQueue) :=
  RTC_DCHECK (queue_item_verifier_ input) ≫= λ _,
  if insert_full q then Ret (false, input, q) else
  '(e, q) ← insert_swap q input;
  let '(old_num_elements, q) := insert_add q in
  q ← insert_advance q old_num_elements;
  Ret (true, e, q).

(** ** The pieces of Remove *)

Definition remove_empty (q : SwapQueue) : bool := (num_elements_ q =? 0)%nat.

Definition remove_swap (q : SwapQueue) (output : T) : outcome (T * SwapQueue) :=
  x ← from_option_or OutOfBounds (queue_ q !! next_read_index_ q);
  Ret (x, mkQueue (<[next_read_index_ q := output]> (queue_ q))
                  (next_write_index_ q) (next_read_index_ q) (num_elements_ q)).

Definition remove_sub (q : SwapQueue) : SwapQueue :=
  mkQueue (queue_ q) (next_write_index_ q) (next_read_index_ q) (num_elements_ q - 1).

Definition remove_advance (q : SwapQueue) : outcome SwapQueue :=
  let r := (next_read_index_ q + 1)%nat in
  let r := if (r =? queue_size q)%nat then 0%nat else r in
  RTC_DCHECK (r <? queue_size q)%nat ≫= λ _,
  Ret (mkQueue (queue_ q) (next_write_index_ q) r (num_elements_ q)).

Definition Remove (q : SwapQueue) (output : T) : outcome (bool * T * SwapQueue) :=
  RTC_DCHECK (queue_item_verifier_ output) ≫= λ _,
  if remove_empty q then Ret (false, output, q) else
  '(x, q) ← remove_swap q output;
  q ← remove_advance (remove_sub q);
  Ret (true, x, q).

(** ** The pieces of Clear *)

(** [atomic_exchange(&num_elements_, 0)]. *)
Definition clear_exchange (q : SwapQueue) : nat * SwapQueue :=
  (num_elements_ q, mkQueue (queue_ q) (next_write_index_ q) (next_read_index_ q) 0).

Definition clear_advance (q : SwapQueue) (n : nat) : outcome SwapQueue :=
  let r := (next_read_index_ q + n)%nat in
  let r := if (queue_size q <=? r)%nat then (r - queue_size q)%nat else r in
  RTC_DCHECK (r <? queue_size q)%nat ≫= λ _,
  Ret (mkQueue (queue_ q) (next_write_index_ q) r (num_elements_ q)).

Definition Clear (q : SwapQueue) : outcome SwapQueue :=
  let '(n, q) := clear_exchange q in clear_advance q n.

Definition SizeAtLeast (q : SwapQueue) : nat := num_elements_ q.

(** ** The two threads

    Where a thread is within an operation, with what it holds. *)

Inductive producer :=
| PIdle
| PLoad (input : T)                 (* called, before the load *)
| PSwap (input : T)                 (* found room, before the swap *)
| PAdd (inserted empty : T)         (* swapped, before the increment *)
| PAdvance (old : nat) (empty : T). (* incremented, before the index update *)

Inductive consumer :=
| CIdle
| CLoad (output : T)
| CSwap (output : T)
| CSub (removed : T)
| CAdvance (removed : T)
| CClear
| CClearAdvance (n : nat).

Record system := mkSystem { sq : SwapQueue; prod : producer; cons : consumer }.

(** What a step does to the abstract queue. *)
Inductive event :=
| Tau
| EvInsert (x : T) | EvInsertFull
| EvRemove (x : T) | EvRemoveEmpty
| EvClear.

(** One piece of one thread.  A call passes an item that the verifier
    accepts, as the interface asks. *)
Inductive step : system → event → system → Prop :=
| step_insert q c x : queue_item_verifier_ x = true →
    step (mkSystem q PIdle c) Tau (mkSystem q (PLoad x) c)
| step_insert_full q c x : insert_full q = true →
    step (mkSystem q (PLoad x) c) EvInsertFull (mkSystem q PIdle c)
| step_insert_room q c x : insert_full q = false →
    step (mkSystem q (PLoad x) c) Tau (mkSystem q (PSwap x) c)
| step_insert_swap q q' c x e : insert_swap q x = Ret (e, q') →
    step (mkSystem q (PSwap x) c) Tau (mkSystem q' (PAdd x e) c)
| step_insert_add q q' c x e old : insert_add q = (old, q') →
    step (mkSystem q (PAdd x e) c) (EvInsert x) (mkSystem q' (PAdvance old e) c)
| step_insert_advance q q' c e old : insert_advance q old = Ret q' →
    step (mkSystem q (PAdvance old e) c) Tau (mkSystem q' PIdle c)
| step_remove q p y : queue_item_verifier_ y = true →
    step (mkSystem q p CIdle) Tau (mkSystem q p (CLoad y))
| step_remove_empty q p y : remove_empty q = true →
    step (mkSystem q p (CLoad y)) EvRemoveEmpty (mkSystem q p CIdle)
| step_remove_found q p y : remove_empty q = false →
    step (mkSystem q p (CLoad y)) Tau (mkSystem q p (CSwap y))
| step_remove_swap q q' p y x : remove_swap q y = Ret (x, q') →
    step (mkSystem q p (CSwap y)) Tau (mkSystem q' p (CSub x))
| step_remove_sub q p x :
    step (mkSystem q p (CSub x)) (EvRemove x) (mkSystem (remove_sub q) p (CAdvance x))
| step_remove_advance q q' p x : remove_advance q = Ret q' →
    step (mkSystem q p (CAdvance x)) Tau (mkSystem q' p CIdle)
| step_clear q p :
    step (mkSystem q p CIdle) Tau (mkSystem q p CClear)
| step_clear_exchange q q' p n : clear_exchange q = (n, q') →
    step (mkSystem q p CClear) EvClear (mkSystem q' p (CClearAdvance n))
| step_clear_advance q q' p n : clear_advance q n = Ret q' →
    step (mkSystem q p (CClearAdvance n)) Tau (mkSystem q' p CIdle).

(** Executions, with the events they show. *)
Inductive steps : system → list event → system → Prop :=
| steps_refl s : steps s [] s
| steps_step s1 e s2 tr s3 : step s1 e s2 → steps s2 tr s3 → steps s1 (e :: tr) s3.

(** ** The abstract queue: a bounded FIFO queue of [N] places *)

Inductive fifo_step (N : nat) : list T → event → list T → Prop :=
| fifo_tau Q : fifo_step N Q Tau Q
| fifo_insert Q x : (length Q < N)%nat → fifo_step N Q (EvInsert x) (Q ++ [x])
| fifo_full Q : length Q = N → fifo_step N Q EvInsertFull Q
| fifo_remove Q x : fifo_step N (x :: Q) (EvRemove x) Q
| fifo_empty : fifo_step N [] EvRemoveEmpty []
| fifo_clear Q : fifo_step N Q EvClear [].

Inductive fifo_steps (N : nat) : list T → list event → list T → Prop :=
| fifo_refl Q : fifo_steps N Q [] Q
| fifo_cons Q1 e Q2 tr Q3 : fifo_step N Q1 e Q2 → fifo_steps N Q2 tr Q3 → fifo_steps N Q1 (e :: tr) Q3.

End SwapQueue.

Arguments SwapQueue T : clear implicits.
Arguments producer T : clear implicits.
Arguments consumer T : clear implicits.
Arguments system T : clear implicits.
Arguments event T : clear implicits.
Arguments Tau {T}.
Arguments EvInsertFull {T}.
Arguments EvRemoveEmpty {T}.
Arguments EvClear {T}.
Arguments PIdle {T}.
Arguments CIdle {T}.
Arguments CClear {T}.
Arguments CClearAdvance {T} n.

(** ** The invariant of the two threads *)

Section Invariant.
Context {bm : BuildMode} {T : Type} (ver : T → bool) (N : nat).

(** Position [a] in a ring of [N] places, for [a < 2 * N]. *)
Definition wrap (a : nat) : nat := if (a <? N)%nat then a else (a - N)%nat.

(** How far an index lags behind the counter. *)
Definition read_lag (c : consumer T) : nat :=
  match c with CAdvance _ => 1 | CClearAdvance n => n | _ => 0 end.
Definition write_lag (p : producer T) : nat := match p with PAdvance _ _ => 1 | _ => 0 end.

(** The first counted item is already in the consumer's hands. *)
Definition taken (c : consumer T) : bool := match c with CSub _ => true | _ => false end.

Definition read_pos (s : system T) : nat := wrap (next_read_index_ (sq s) + read_lag (cons s)).
Definition write_pos (s : system T) : nat := wrap (next_write_index_ (sq s) + write_lag (prod s)).

Definition producer_ok (s : system T) : Prop :=
  match prod s with
  | PIdle => True
  | PLoad x => ver x = true
  | PSwap x => (num_elements_ (sq s) < N)%nat ∧ ver x = true
  | PAdd x e => (num_elements_ (sq s) < N)%nat ∧ queue_ (sq s) !! next_write_index_ (sq s) = Some x ∧ ver e = true
  | PAdvance old e => (old < N)%nat ∧ ver e = true
  end.

Definition consumer_ok (s : system T) (Q : list T) : Prop :=
  match cons s with
  | CIdle | CClear => True
  | CLoad y => ver y = true
  | CSwap y => Q ≠ [] ∧ ver y = true
  | CSub x => Q !! 0%nat = Some x ∧ ver x = true
  | CAdvance x => ver x = true
  | CClearAdvance n => (n ≤ N)%nat
  end.

(** The system represents the abstract queue [Q]. *)
Record Inv (s : system T) (Q : list T) : Prop := {
  inv_pos : (0 < N)%nat;
  inv_slots : length (queue_ (sq s)) = N;
  inv_write : (next_write_index_ (sq s) < N)%nat;
  inv_read : (next_read_index_ (sq s) < N)%nat;
  inv_num : num_elements_ (sq s) = length Q;
  inv_bound : (length Q ≤ N)%nat;
  inv_ring : write_pos s = wrap (read_pos s + length Q);
  inv_items : ∀ i x, Q !! i = Some x → (taken (cons s) = true → i ≠ 0%nat) →
    queue_ (sq s) !! wrap (read_pos s + i) = Some x;
  inv_verified : Forall (λ x, ver x = true) (queue_ (sq s));
  inv_producer : producer_ok s;
  inv_consumer : consumer_ok s Q
}.

(** [ring_solve] decides equations between positions: it splits on where the
    positions wrap around, innermost first. *)
Ltac ring_solve :=
  unfold read_pos, write_pos, wrap in *; simpl in *;
  repeat match goal with H : context [Nat.ltb _ _] |- _ => revert H end;
  repeat match goal with
  | |- context [Nat.ltb ?a ?b] =>
      lazymatch a with
      | context [Nat.ltb _ _] => fail
      | context [Nat.eqb _ _] => fail
      | context [Nat.leb _ _] => fail
      | _ => destruct (Nat.ltb_spec a b)
      end
  | |- context [Nat.eqb ?a ?b] => destruct (Nat.eqb_spec a b)
  | |- context [Nat.leb ?a ?b] => destruct (Nat.leb_spec a b)
  end; intros; lia.

Lemma lag_bound s Q : (0 < N)%nat → consumer_ok s Q → (read_lag (cons s) ≤ N)%nat.
Proof. unfold consumer_ok. destruct (cons s); simpl; lia. Qed.

Lemma Inv_init (x : T) :
  (0 < N)%nat → ver x = true → Inv (mkSystem (mkQueue (replicate N x) 0 0 0) PIdle CIdle) [].
Proof.
  intros HN Hx. split; simpl; try done; try lia; [by rewrite length_replicate|ring_solve|].
  by apply Forall_replicate.
Qed.

(** A producer piece that touches neither slots nor indices nor the counter. *)
Lemma Inv_producer q p p' c Q :
  Inv (mkSystem q p c) Q → write_lag p' = write_lag p → producer_ok (mkSystem q p' c) →
  Inv (mkSystem q p' c) Q.
Proof.
  intros [] Hl Hp. split; simpl in *; try done. unfold write_pos in *. simpl in *. by rewrite Hl.
Qed.

Lemma Inv_consumer q p c c' Q :
  Inv (mkSystem q p c) Q → read_lag c' = read_lag c → taken c' = taken c →
  consumer_ok (mkSystem q p c') Q → Inv (mkSystem q p c') Q.
Proof.
  intros [] Hl Ht Hc. split; simpl in *; try done; unfold read_pos in *; simpl in *; by rewrite ?Hl, ?Ht.
Qed.

Lemma insert_swap_inv q x c Q :
  Inv (mkSystem q (PSwap x) c) Q →
  ∃ e q', insert_swap q x = Ret (e, q') ∧ Inv (mkSystem q' (PAdd x e) c) Q.
Proof.
  intros [HN Hl Hw Hr Hn Hb Hring Hitems Hver [Hroom Hx] Hc]. pose proof (lag_bound _ _ HN Hc). simpl in *.
  destruct (lookup_lt_is_Some_2 (queue_ q) (next_write_index_ q)) as [e He]; [lia|].
  exists e. eexists. unfold insert_swap. rewrite He. split; [done|].
  pose proof (Forall_lookup_1 _ _ _ _ Hver He) as Hve. simpl in Hve.
  split; simpl; try done; [by rewrite length_insert| | |].
  - intros i z Hi Ht. rewrite list_lookup_insert_ne; [by apply Hitems|].
    apply lookup_lt_Some in Hi. ring_solve.
  - by apply Forall_insert.
  - unfold producer_ok; simpl. split_and!; [done| |done]. by rewrite list_lookup_insert_eq by lia.
Qed.

Lemma insert_add_inv q x e c Q :
  Inv (mkSystem q (PAdd x e) c) Q →
  (length Q < N)%nat ∧
  Inv (mkSystem (insert_add q).2 (PAdvance (insert_add q).1 e) c) (Q ++ [x]).
Proof.
  intros [HN Hl Hw Hr Hn Hb Hring Hitems Hver (Hroom & Hx & He) Hc]. pose proof (lag_bound _ _ HN Hc). simpl in *. split; [lia|].
  split; simpl; try done; rewrite ?length_app; simpl; try lia.
  - ring_solve.
  - intros i z Hi Ht. destruct (decide (i < length Q)%nat) as [Hlt|Hge].
    + rewrite lookup_app_l in Hi by done. by apply Hitems.
    + rewrite lookup_app_r in Hi by lia. pose proof (lookup_lt_Some _ _ _ Hi) as Hi0. simpl in Hi0.
      assert (i = length Q) as -> by lia. rewrite Nat.sub_diag in Hi. injection Hi as ->.
      rewrite <-Hx. f_equal. ring_solve.
  - unfold consumer_ok in *. simpl in *. destruct c; try done.
    + destruct Hc as [_ Hy]. split; [|done]. by destruct Q.
    + destruct Hc as [Hq Hy]. split; [|done]. by destruct Q.
Qed.

Lemma insert_advance_inv q old e c Q :
  Inv (mkSystem q (PAdvance old e) c) Q →
  ∃ q', insert_advance q old = Ret q' ∧ Inv (mkSystem q' PIdle c) Q.
Proof.
  intros [HN Hl Hw Hr Hn Hb Hring Hitems Hver (Hold & He) Hc]. pose proof (lag_bound _ _ HN Hc). simpl in *.
  unfold insert_advance, queue_size. rewrite Hl.
  set (w := if (_ =? N)%nat then _ else _). assert (w < N)%nat by (unfold w; zcase; lia).
  rewrite (dcheck_pass (w <? N)%nat), bind_ret by (by apply Nat.ltb_lt).
  rewrite (dcheck_pass (old <? N)%nat), bind_ret by (by apply Nat.ltb_lt).
  eexists. split; [done|]. split; simpl; try done.
  unfold w in *. ring_solve.
Qed.

Lemma remove_swap_inv q p y Q :
  Inv (mkSystem q p (CSwap y)) Q →
  ∃ x q', remove_swap q y = Ret (x, q') ∧ Inv (mkSystem q' p (CSub x)) Q.
Proof.
  intros [HN Hl Hw Hr Hn Hb Hring Hitems Hver Hp [Hne Hy]]. simpl in *.
  destruct Q as [|x Q]; [done|].
  assert (queue_ q !! next_read_index_ q = Some x) as Hx.
  { rewrite <-(Hitems 0%nat x) by done. f_equal. ring_solve. }
  exists x. eexists. unfold remove_swap. rewrite Hx. split; [done|].
  pose proof (Forall_lookup_1 _ _ _ _ Hver Hx) as Hvx. simpl in Hvx.
  split; simpl; try done; [by rewrite length_insert| | |].
  - intros i z Hi Ht. rewrite list_lookup_insert_ne; [by apply Hitems|].
    apply lookup_lt_Some in Hi. simpl in Hi. specialize (Ht eq_refl). ring_solve.
  - by apply Forall_insert.
  - unfold producer_ok in *. simpl in *. destruct p; try done. destruct Hp as (? & Hq & ?).
    split_and!; [done| |done]. rewrite list_lookup_insert_ne; [done|]. ring_solve.
Qed.

Lemma remove_sub_inv q p x Q :
  Inv (mkSystem q p (CSub x)) Q →
  ∃ Q', Q = x :: Q' ∧ Inv (mkSystem (remove_sub q) p (CAdvance x)) Q'.
Proof.
  intros [HN Hl Hw Hr Hn Hb Hring Hitems Hver Hp [Hq Hx]]. simpl in *.
  destruct Q as [|x' Q]; [done|]. injection Hq as ->. exists Q. split; [done|].
  split; simpl in *; try done; try lia.
  - ring_solve.
  - intros i z Hi _. rewrite <-(Hitems (S i) z) by done. f_equal.
    apply lookup_lt_Some in Hi. ring_solve.
  - unfold producer_ok in *. simpl in *. destruct p; try done; intuition lia.
Qed.

Lemma remove_advance_inv q p x Q :
  Inv (mkSystem q p (CAdvance x)) Q →
  ∃ q', remove_advance q = Ret q' ∧ Inv (mkSystem q' p CIdle) Q.
Proof.
  intros [HN Hl Hw Hr Hn Hb Hring Hitems Hver Hp Hx]. simpl in *.
  unfold remove_advance, queue_size. rewrite Hl.
  set (r := if (_ =? N)%nat then _ else _). assert (r < N)%nat by (unfold r; zcase; lia).
  rewrite (dcheck_pass (r <? N)%nat), bind_ret by (by apply Nat.ltb_lt).
  eexists. split; [done|].
  assert (wrap (r + 0) = wrap (next_read_index_ q + 1)) as Er by (unfold r; ring_solve).
  unfold read_pos in *. simpl in *. split; simpl; try done; unfold read_pos; simpl; by rewrite Er.
Qed.

Lemma clear_exchange_inv q p Q :
  Inv (mkSystem q p CClear) Q →
  Inv (mkSystem (clear_exchange q).2 p (CClearAdvance (clear_exchange q).1)) [].
Proof.
  intros [HN Hl Hw Hr Hn Hb Hring Hitems Hver Hp _]. simpl in *.
  split; simpl; try done; try lia.
  - rewrite Hn. ring_solve.
  - unfold producer_ok in *. simpl in *. destruct p; try done; intuition lia.
  - unfold consumer_ok. simpl. lia.
Qed.

Lemma clear_advance_inv q p n Q :
  Inv (mkSystem q p (CClearAdvance n)) Q →
  ∃ q', clear_advance q n = Ret q' ∧ Inv (mkSystem q' p CIdle) Q.
Proof.
  intros [HN Hl Hw Hr Hn Hb Hring Hitems Hver Hp Hx]. unfold consumer_ok in Hx. simpl in *.
  unfold clear_advance, queue_size. rewrite Hl.
  set (r := if (N <=? _)%nat then _ else _). assert (r < N)%nat by (unfold r; zcase; lia).
  rewrite (dcheck_pass (r <? N)%nat), bind_ret by (by apply Nat.ltb_lt).
  eexists. split; [done|].
  assert (wrap (r + 0) = wrap (next_read_index_ q + n)) as Er by (unfold r; ring_solve).
  unfold read_pos in *. simpl in *. split; simpl; try done; unfold read_pos; simpl; by rewrite Er.
Qed.

(** Every step of the system is a step of the abstract queue. *)
Lemma step_sim s e s' Q :
  Inv s Q → step ver s e s' → ∃ Q', fifo_step N Q e Q' ∧ Inv s' Q'.
Proof.
  intros Hi Hs. destruct Hs as [q c x Hx|q c x Hf|q c x Hf|q q' c x e E|q q' c x e old E|q q' c e old E
    |q p y Hy|q p y He|q p y He|q q' p y x E|q p x|q q' p x E|q p|q q' p n E|q q' p n E].
  - exists Q. split; [constructor|]. by eapply Inv_producer.
  - apply Nat.eqb_eq in Hf. exists Q. pose proof Hi as []. unfold queue_size in Hf. simpl in *.
    split; [constructor; lia|]. by eapply Inv_producer.
  - apply Nat.eqb_neq in Hf. exists Q. pose proof Hi as []. unfold queue_size in Hf. simpl in *.
    split; [constructor|]. eapply Inv_producer; [done..|]. unfold producer_ok in *; simpl in *. split; [lia|done].
  - destruct (insert_swap_inv q x c Q Hi) as (e' & q'' & E' & Hi'). rewrite E in E'. injection E' as <- <-.
    exists Q. split; [constructor|done].
  - destruct (insert_add_inv q x e c Q Hi) as [Hl Hi']. rewrite E in Hi'.
    exists (Q ++ [x]). split; [by constructor|done].
  - destruct (insert_advance_inv q old e c Q Hi) as (q'' & E' & Hi'). rewrite E in E'. injection E' as <-.
    exists Q. split; [constructor|done].
  - exists Q. split; [constructor|]. by eapply Inv_consumer.
  - apply Nat.eqb_eq in He. pose proof Hi as []. simpl in *. destruct Q; [|simpl in *; lia].
    exists []. split; [constructor|]. by eapply Inv_consumer.
  - apply Nat.eqb_neq in He. exists Q. pose proof Hi as []. simpl in *.
    split; [constructor|]. eapply Inv_consumer; [done..|]. unfold consumer_ok in *; simpl in *.
    split; [|done]. by intros ->.
  - destruct (remove_swap_inv q p y Q Hi) as (x' & q'' & E' & Hi'). rewrite E in E'. injection E' as <- <-.
    exists Q. split; [constructor|done].
  - destruct (remove_sub_inv q p x Q Hi) as (Q' & -> & Hi'). exists Q'. split; [constructor|done].
  - destruct (remove_advance_inv q p x Q Hi) as (q'' & E' & Hi'). rewrite E in E'. injection E' as <-.
    exists Q. split; [constructor|done].
  - exists Q. split; [constructor|]. by eapply Inv_consumer.
  - pose proof (clear_exchange_inv q p Q Hi) as Hi'. rewrite E in Hi'. exists []. split; [constructor|done].
  - destruct (clear_advance_inv q p n Q Hi) as (q'' & E' & Hi'). rewrite E in E'. injection E' as <-.
    exists Q. split; [constructor|done].
Qed.

Lemma steps_sim s tr s' :
  steps ver s tr s' → ∀ Q, Inv s Q → ∃ Q', fifo_steps N Q tr Q' ∧ Inv s' Q'.
Proof.
  induction 1 as [s|s1 e s2 tr s3 Hs _ IH]; intros Q Hi.
  { exists Q. split; [constructor|done]. }
  destruct (step_sim s1 e s2 Q Hi Hs) as (Q1 & Hf & Hi1).
  destruct (IH Q1 Hi1) as (Q2 & Hf2 & Hi2). exists Q2. split; [by econstructor|done].
Qed.

(** The producer and the consumer never touch the same slot at a time. *)
Lemma no_race s Q x y : Inv s Q → prod s = PSwap x → cons s = CSwap y →
  next_write_index_ (sq s) ≠ next_read_index_ (sq s).
Proof.
  intros [HN Hl Hw Hr Hn Hb Hring Hitems Hver Hp Hc] Ep Ec. destruct s as [q p c]. simpl in *. subst.
  destruct Hp as [Hroom _], Hc as [Hne _]. destruct Q; [done|]. simpl in *. ring_solve.
Qed.

End Invariant.

(** ** Theorems *)

Section Theorems.
Context {bm : BuildMode} {T : Type} (ver : T → bool).

(** The system right after construction. *)
Definition initial (N : nat) (prototype : T) : system T :=
  mkSystem (mkQueue (replicate N prototype) 0 0 0) PIdle CIdle.

(** C1: The swap queue is linearisable: in every interleaving of one producer
    calling [Insert] and one consumer calling [Remove] and [Clear], the
    results the calls return are those of a bounded first-in first-out queue
    in which each operation takes effect at one instant (the successful
    increment, decrement or exchange of [num_elements_], or the load that
    found the queue full or empty), and [num_elements_] is at all times the
    length of that queue. *)
Theorem swap_queue_linearizable (N : nat) (prototype : T) (tr : list (event T)) (s : system T) :
  (0 < N)%nat → ver prototype = true → steps ver (initial N prototype) tr s →
  ∃ Q, fifo_steps N [] tr Q ∧ SizeAtLeast (sq s) = length Q ∧ (length Q ≤ N)%nat.
Proof.
  intros HN Hv Hs. destruct (steps_sim ver N _ _ _ Hs []) as (Q & Hf & Hi); [by apply Inv_init|].
  exists Q. split; [done|]. unfold SizeAtLeast. by destruct Hi.
Qed.

Ltac naive_or := repeat match goal with H : _ ∨ _ |- _ => destruct H | H : ∃ _, _ |- _ => destruct H end.

(** The states of a queue with no slots: neither thread finds room or an item. *)
Definition slotless (s : system T) : Prop :=
  sq s = mkQueue [] 0 0 0 ∧ (prod s = PIdle ∨ ∃ x, prod s = PLoad x) ∧
  (cons s = CIdle ∨ (∃ y, cons s = CLoad y) ∨ cons s = CClear ∨ cons s = CClearAdvance 0).

Lemma slotless_step s e s' : step ver s e s' → slotless s → slotless s'.
Proof.
  unfold slotless. destruct 1; simpl in *; intros (Hq & Hp & Hc); subst; naive_or; simplify_eq/=; eauto 9.
  all: match goal with
       | H : clear_exchange _ = _ |- _ => injection H as <- <-
       | H : clear_advance _ _ = _ |- _ => apply bind_returns in H as (? & _ & H); injection H as <-
       end; eauto 9.
Qed.

Lemma slotless_steps s tr s' : steps ver s tr s' → slotless s → slotless s'.
Proof. induction 1; eauto using slotless_step. Qed.

(** C8: The swap queue is safe under concurrency: in every reachable state the
    producer and the consumer are never about to access the same slot, every
    access is inside the vector, and the next piece of either thread can run:
    no debug check of [Insert] or [Remove] fails, nor does that of [Clear],
    unless the queue was created with size 0, for which [Clear] always fails it
    in a debug build; all slots and the items handed back pass the verifier. *)
Theorem swap_queue_safe (N : nat) (prototype : T) (tr : list (event T)) (s : system T) :
  ver prototype = true → steps ver (initial N prototype) tr s →
  (∀ x y, prod s = PSwap x → cons s = CSwap y →
     next_write_index_ (sq s) ≠ next_read_index_ (sq s)) ∧
  (∀ x, prod s = PSwap x → returns (insert_swap (sq s) x) = true) ∧
  (∀ old e, prod s = PAdvance old e → returns (insert_advance (sq s) old) = true ∧ ver e = true) ∧
  (∀ y, cons s = CSwap y → returns (remove_swap (sq s) y) = true) ∧
  (∀ x, cons s = CAdvance x → returns (remove_advance (sq s)) = true ∧ ver x = true) ∧
  (∀ n, cons s = CClearAdvance n → returns (clear_advance (sq s) n) = (0 <? N)%nat || negb RTC_DCHECK_IS_ON) ∧
  Forall (λ x, ver x = true) (queue_ (sq s)).
Proof.
  intros Hv Hs. destruct (Nat.ltb_spec 0 N) as [HN|HN].
  2: { assert (N = 0%nat) as -> by lia. apply slotless_steps in Hs as (Hq & Hp & Hc); [|unfold slotless; simpl; by eauto].
       destruct s as [q p c]. simpl in *. subst q. split_and!; intros; subst; naive_or; simplify_eq; try by constructor.
       all: unfold clear_advance, RTC_DCHECK; simpl; by destruct RTC_DCHECK_IS_ON. }
  destruct (steps_sim ver N _ _ _ Hs []) as (Q & _ & Hi); [by apply Inv_init|].
  destruct s as [q p c]. simpl. split_and!.
  - intros x y -> ->. by apply (no_race ver N _ Q x y Hi).
  - intros x ->. destruct (insert_swap_inv ver N _ _ _ _ Hi) as (? & ? & -> & _). done.
  - intros old e ->. destruct (insert_advance_inv ver N _ _ _ _ _ Hi) as (? & -> & _).
    split; [done|]. by destruct (inv_producer _ _ _ _ Hi).
  - intros y ->. destruct (remove_swap_inv ver N _ _ _ _ Hi) as (? & ? & -> & _). done.
  - intros x ->. destruct (remove_advance_inv ver N _ _ _ _ Hi) as (? & -> & _).
    split; [done|]. exact (inv_consumer _ _ _ _ Hi).
  - intros n ->. destruct (clear_advance_inv ver N _ _ _ _ Hi) as (? & -> & _). done.
  - exact (inv_verified _ _ _ _ Hi).
Qed.

Lemma swap_slot_perm (l : list T) (i : nat) (x e : T) :
  l !! i = Some e → x :: l ≡ₚ e :: <[i := x]> l.
Proof.
  intros Hi. pose proof (lookup_lt_Some _ _ _ Hi).
  rewrite insert_take_drop by done. rewrite <-(take_drop_middle l i e Hi) at 1.
  rewrite <-!Permutation_middle. constructor.
Qed.

(** A queue no thread is working on holds the items [Q]. *)
Definition holds (N : nat) (q : SwapQueue T) (Q : list T) : Prop := Inv ver N (mkSystem q PIdle CIdle) Q.

(** Called without interference, [Insert] appends the item and hands back
    the old content of a slot, or returns false and changes nothing when the
    queue is full; [Remove] returns the oldest item, or false when the queue
    is empty; [Clear] empties the queue.  Items are exchanged and never
    copied or lost: the slots and the caller's item together are the same
    items before and after. *)
Theorem swap_queue_sequential (N : nat) (q : SwapQueue T) (Q : list T) (x : T) :
  holds N q Q → ver x = true →
  (if decide (length Q = N) then Insert ver q x = Ret (false, x, q)
   else ∃ e q', Insert ver q x = Ret (true, e, q') ∧ holds N q' (Q ++ [x]) ∧
                x :: queue_ q ≡ₚ e :: queue_ q' ∧ ver e = true) ∧
  (match Q with
   | [] => Remove ver q x = Ret (false, x, q)
   | y :: Q' => ∃ q', Remove ver q x = Ret (true, y, q') ∧ holds N q' Q' ∧
                x :: queue_ q ≡ₚ y :: queue_ q' ∧ ver y = true
   end) ∧
  (∃ q', Clear q = Ret q' ∧ holds N q' []).
Proof.
  intros Hi Hx. pose proof (inv_slots _ _ _ _ Hi) as Hl. pose proof (inv_num _ _ _ _ Hi) as Hn. simpl in *.
  split_and!.
  - unfold Insert. rewrite Hx. pass. unfold insert_full, queue_size. rewrite Hl, Hn. destruct (decide _) as [E|E].
    { by rewrite (proj2 (Nat.eqb_eq _ _) E). }
    rewrite (proj2 (Nat.eqb_neq _ _) E).
    pose proof (inv_bound _ _ _ _ Hi).
    destruct (insert_swap_inv ver N q x CIdle Q) as (e & q1 & E1 & Hi1).
    { eapply Inv_producer; [done..|]. split; simpl; [lia|done]. }
    destruct (insert_add_inv ver N q1 x e CIdle Q Hi1) as [_ Hi2].
    destruct (insert_advance_inv ver N _ _ _ _ _ Hi2) as (q3 & E3 & Hi3).
    pose proof (inv_producer _ _ _ _ Hi2) as [_ He].
    rewrite E1, bind_ret. destruct (insert_add q1) as [old q2] eqn:E2. simpl in E3. rewrite E3, bind_ret.
    exists e, q3. split_and!; try done.
    unfold insert_advance in E3. unfold RTC_DCHECK in E3. apply bind_returns in E3 as (? & _ & E3).
    apply bind_returns in E3 as (? & _ & E3). injection E3 as <-. injection E2 as <- <-. simpl.
    unfold insert_swap in E1. apply bind_returns in E1 as (e' & E1 & E1'). injection E1' as -> <-. simpl.
    apply swap_slot_perm. by destruct (queue_ q !! _); simplify_eq/=.
  - unfold Remove. rewrite Hx. pass. unfold remove_empty. rewrite Hn. destruct Q as [|y Q]; [done|]. simpl.
    destruct (remove_swap_inv ver N q PIdle x (y :: Q)) as (y' & q1 & E1 & Hi1).
    { eapply Inv_consumer; [done..|]. split; simpl; done. }
    destruct (remove_sub_inv ver N q1 PIdle y' (y :: Q) Hi1) as (Q' & EQ & Hi2). injection EQ as <- <-.
    destruct (remove_advance_inv ver N _ _ _ _ Hi2) as (q3 & E3 & Hi3).
    pose proof (inv_consumer _ _ _ _ Hi2) as Hy.
    rewrite E1, bind_ret, E3, bind_ret. exists q3. split_and!; try done.
    unfold remove_advance in E3. apply bind_returns in E3 as (? & _ & E3). injection E3 as <-. simpl.
    unfold remove_swap in E1. apply bind_returns in E1 as (e' & E1 & E1'). injection E1' as -> <-. simpl.
    apply swap_slot_perm. by destruct (queue_ q !! _); simplify_eq/=.
  - apply (clear_advance_inv ver N). eapply clear_exchange_inv. by eapply Inv_consumer.
Qed.

End Theorems.

(** A run in which an item is inserted while the consumer looks at the empty
    queue, and is then removed. *)
Lemma sample_steps :
  steps (bm := debug_build) (λ _, true) (initial 2 0)
    [Tau; Tau; Tau; Tau; EvRemoveEmpty; EvInsert 7; Tau; Tau; Tau; Tau; EvRemove 7; Tau]
    (mkSystem (mkQueue [5; 0] 1 1 0) PIdle CIdle).
Proof.
  eapply steps_step; [by apply (step_insert _ _ _ 7)|].
  eapply steps_step; [by apply step_insert_room|].
  eapply steps_step; [by apply (step_remove _ _ _ 5)|].
  eapply steps_step; [by apply step_insert_swap|].
  eapply steps_step; [by apply step_remove_empty|].
  eapply steps_step; [by apply step_insert_add|].
  eapply steps_step; [by apply (step_remove _ _ _ 5)|].
  eapply steps_step; [by apply step_remove_found|].
  eapply steps_step; [by apply step_remove_swap|].
  eapply steps_step; [by apply step_insert_advance|].
  eapply steps_step; [by apply step_remove_sub|].
  eapply steps_step; [by apply step_remove_advance|].
  apply steps_refl.
Qed.

Lemma swap_queue_linearizable_witness :
  ∃ Q, fifo_steps 2 [] [Tau; Tau; Tau; Tau; EvRemoveEmpty; EvInsert 7; Tau; Tau; Tau; Tau; EvRemove 7; Tau] Q
       ∧ length Q = 0%nat.
Proof.
  destruct (swap_queue_linearizable (bm := debug_build) (λ _, true) 2 0 _ _ ltac:(lia) eq_refl sample_steps)
    as (Q & Hf & Hs & _).
  exists Q. split; [exact Hf|by rewrite <-Hs].
Defined.

(** One item is in the queue; the producer has found room for another and the
    consumer has found the item. *)
Lemma sample_both_swap :
  steps (bm := debug_build) (λ x : Z, 0 <=? x) (initial 2 0) [Tau; Tau; Tau; EvInsert 7; Tau; Tau; Tau; Tau; Tau]
    (mkSystem (mkQueue [7; 0] 1 0 1) (PSwap 8) (CSwap 5)).
Proof.
  eapply steps_step; [by apply (step_insert _ _ _ 7)|].
  eapply steps_step; [by apply step_insert_room|].
  eapply steps_step; [by apply step_insert_swap|].
  eapply steps_step; [by apply step_insert_add|].
  eapply steps_step; [by apply step_insert_advance|].
  eapply steps_step; [by apply (step_insert _ _ _ 8)|].
  eapply steps_step; [by apply step_insert_room|].
  eapply steps_step; [by apply (step_remove _ _ _ 5)|].
  eapply steps_step; [by apply step_remove_found|].
  apply steps_refl.
Qed.

(** In that state the two threads swap different slots, both inside. *)
Lemma swap_queue_safe_witness :
  let q := mkQueue [7; 0] 1 0 1 in
  next_write_index_ q ≠ next_read_index_ q ∧ returns (insert_swap q 8) = true ∧ returns (remove_swap q 5) = true ∧
  Forall (λ x, (0 <=? x) = true) (queue_ q).
Proof.
  destruct (swap_queue_safe (bm := debug_build) (λ x : Z, 0 <=? x) 2 0 _ _ eq_refl sample_both_swap)
    as (Hd & Hi & _ & Hr & _ & _ & Hv).
  split_and!; [exact (Hd 8 5 eq_refl eq_refl)|exact (Hi 8 eq_refl)|exact (Hr 5 eq_refl)|exact Hv].
Defined.

(** [Clear] on a queue of size 0, which [Insert] and [Remove] accept. *)
Example swap_queue_empty_clear :
  Clear (bm := debug_build) (mkQueue (T := Z) [] 0 0 0) = Crash DCheckFailed ∧
  Insert (bm := debug_build) (λ _, true) (mkQueue [] 0 0 0) 7 = Ret (false, 7, mkQueue [] 0 0 0) ∧
  Remove (bm := debug_build) (λ _, true) (mkQueue [] 0 0 0) 7 = Ret (false, 7, mkQueue [] 0 0 0).
Proof. by vm_compute. Qed.

Lemma swap_queue_sequential_witness :
  ∃ e q', Insert (bm := debug_build) (λ x : Z, 0 <=? x) (mkQueue [0; 0] 0 0 0) 7 = Ret (true, e, q') ∧ (0 <=? e) = true.
Proof.
  destruct (swap_queue_sequential (bm := debug_build) (λ x : Z, 0 <=? x) 2 (mkQueue [0; 0] 0 0 0) [] 7)
    as [H _]; [by apply (Inv_init _ 2 0); [lia|]|done|].
  destruct H as (e & q' & E1 & _ & _ & He). exists e, q'. split; [exact E1|exact He].
Defined.
