(* ===== verification/MovingMax.v ===== *)
(** * Moving maximum

    Model of [src/include/rtc_base/numerics/moving_max_counter.h], with the
    samples taken from [Z] with its order.  The deque is a list, front
    first. *)

From S2P Require Import Prelude.

Definition entry := (Z * Z)%type. (* timestamp, sample *)

Record MovingMaxCounter := mkCounter {
  window_length_ms_ : Z;
  samples_ : list entry;
  last_call_time_ms_ : Z (* read and written in builds with debug checks only *)
}.

Section MovingMax.
Context {bm : BuildMode}.

Definition MovingMaxCounter_init (window_length_ms : Z) : MovingMaxCounter :=
  mkCounter window_length_ms [] (int_min int64_t).

(** The entries left when the leading ones that satisfy [p] are dropped. *)
Fixpoint drop_while (p : entry → bool) (l : list entry) : list entry :=
  match l with
  | [] => []
  | x :: l' => if p x then drop_while p l' else l
  end.

Definition RollWindow (c : MovingMaxCounter) (new_time_ms : Z) : outcome MovingMaxCounter :=
  (if RTC_DCHECK_IS_ON then RTC_DCHECK (new_time_ms >=? last_call_time_ms_ c) else Ret tt) ≫= λ _,
  let last := if RTC_DCHECK_IS_ON then new_time_ms else last_call_time_ms_ c in
  window_begin_ms ← arith int64_t (new_time_ms - window_length_ms_ c);
  Ret (mkCounter (window_length_ms_ c)
         (drop_while (λ x, x.1 <? window_begin_ms) (samples_ c)) last).

(** The loop that pops entries from the back. *)
Definition pop_back_while (p : entry → bool) (l : list entry) : list entry :=
  reverse (drop_while p (reverse l)).

Definition Add (c : MovingMaxCounter) (sample current_time_ms : Z) : outcome MovingMaxCounter :=
  c ← RollWindow c current_time_ms;
  let s := pop_back_while (λ x, x.2 <=? sample) (samples_ c) in
  let s := if match head (reverse s) with None => true | Some back => back.1 <? current_time_ms end
           then s ++ [(current_time_ms, sample)] else s in
  Ret (mkCounter (window_length_ms_ c) s (last_call_time_ms_ c)).

Definition Max (c : MovingMaxCounter) (current_time_ms : Z) : outcome (option Z * MovingMaxCounter) :=
  c ← RollWindow c current_time_ms;
  Ret (snd <$> head (samples_ c), c).

Definition Reset (c : MovingMaxCounter) : MovingMaxCounter :=
  mkCounter (window_length_ms_ c) [] (last_call_time_ms_ c).

(** ** Runs *)

Inductive call := CAdd (sample time : Z) | CMax (time : Z) | CReset.

(** The results of the calls of [Max], in order. *)
Fixpoint run (c : MovingMaxCounter) (calls : list call) : outcome (list (option Z)) :=
  match calls with
  | [] => Ret []
  | CAdd s t :: calls => c ← Add c s t; run c calls
  | CMax t :: calls => '(m, c) ← Max c t; ms ← run c calls; Ret (m :: ms)
  | CReset :: calls => run (Reset c) calls
  end.

End MovingMax.

(** ** Specification: the maximum over the window of the whole history *)

Definition list_max (l : list Z) : option Z :=
  match l with [] => None | x :: l => Some (foldr Z.max x l) end.

(** The greatest sample of the history [h] that is not older than [w] at time [t]. *)
Definition window_max (w : Z) (h : list entry) (t : Z) : option Z :=
  list_max (map snd (filter (λ x, t - w ≤ x.1) h)).

Fixpoint spec_run (w : Z) (h : list entry) (calls : list call) : list (option Z) :=
  match calls with
  | [] => []
  | CAdd s t :: calls => spec_run w (h ++ [(t, s)]) calls
  | CMax t :: calls => window_max w h t :: spec_run w h calls
  | CReset :: calls => spec_run w [] calls
  end.

(** The times of the calls never decrease and the window's begin can be
    computed. *)
Fixpoint times_ok (w now : Z) (calls : list call) : Prop :=
  match calls with
  | [] => True
  | CAdd _ t :: calls | CMax t :: calls => now ≤ t ∧ values int64_t (t - w) ∧ times_ok w t calls
  | CReset :: calls => times_ok w now calls
  end.

(** ** Lemmas *)

Lemma list_max_spec (l : list Z) (m : Z) :
  m ∈ l → (∀ x, x ∈ l → x ≤ m) → list_max l = Some m.
Proof.
  destruct l as [|a l]; [by intros ?%elem_of_nil|]. intros Hin Hle. simpl. f_equal.
  assert (∀ l', foldr Z.max a l' ∈ a :: l' ∧ ∀ x, x ∈ a :: l' → x ≤ foldr Z.max a l') as Hf.
  { induction l' as [|b l' [IH1 IH2]]; simpl.
    - split; [by left|]. intros x Hx. rewrite list_elem_of_singleton in Hx. lia.
    - split.
      + rewrite !elem_of_cons in *. destruct (Z.max_spec b (foldr Z.max a l')) as [[? ->]|[? ->]]; tauto.
      + intros x. rewrite !elem_of_cons. intros [->|[->|Hx]]; [|lia|].
        * pose proof (IH2 a ltac:(by left)). lia.
        * pose proof (IH2 x ltac:(by right)). lia. }
  destruct (Hf l) as [H1 H2]. pose proof (Hle _ H1). pose proof (H2 _ Hin). lia.
Qed.

Lemma drop_while_suffix p l : ∃ d, l = d ++ drop_while p l ∧ Forall (λ x, p x = true) d.
Proof.
  induction l as [|x l [d [E Hd]]]; simpl; [by exists []|].
  destruct (p x) eqn:Hp; [|by exists []].
  exists (x :: d). simpl. rewrite <-E. by split; [|constructor].
Qed.

Lemma drop_while_head p l x : head (drop_while p l) = Some x → p x = false.
Proof.
  induction l as [|y l IH]; simpl; [done|]. destruct (p y) eqn:Hp; [done|]. by intros [= ->].
Qed.

(** Timestamps strictly increase and samples strictly decrease. *)
Inductive ordered : list entry → Prop :=
| ordered_nil : ordered []
| ordered_cons x l : Forall (λ y, x.1 < y.1 ∧ y.2 < x.2) l → ordered l → ordered (x :: l).

Lemma Forall_elem {A} (P : A → Prop) l x : Forall P l → x ∈ l → P x.
Proof. intros H Hx. revert x Hx. by apply list.Forall_forall. Qed.

Lemma ordered_app l1 l2 :
  ordered (l1 ++ l2) ↔
  ordered l1 ∧ ordered l2 ∧ (∀ x y, x ∈ l1 → y ∈ l2 → x.1 < y.1 ∧ y.2 < x.2).
Proof.
  induction l1 as [|a l1 IH]; simpl.
  - split; [|by intros (_ & ? & _)]. intros H. split_and!; [constructor|done|]. by intros x y ?%elem_of_nil.
  - split.
    + inversion_clear 1 as [|? ? Ha Hl]. apply Forall_app in Ha as [Ha1 Ha2]. apply IH in Hl as (? & ? & Hc).
      split_and!; [by constructor|done|]. intros x y [->|Hx]%elem_of_cons Hy; [|by apply Hc].
      by apply (Forall_elem _ _ y) in Ha2.
    + intros (H1 & H2 & Hc). inversion_clear H1 as [|? ? Ha Hl]. constructor.
      * apply Forall_app. split; [done|]. apply list.Forall_forall. intros y Hy. apply Hc; [by left|done].
      * apply IH. split_and!; [done|done|]. intros x y Hx. apply Hc. by right.
Qed.

(** The head bounds all entries. *)
Lemma ordered_head x l : ordered (x :: l) → ∀ y, y ∈ x :: l → x.1 ≤ y.1 ∧ y.2 ≤ x.2.
Proof.
  inversion_clear 1 as [|? ? Ha _]. intros y [->|Hy]%elem_of_cons; [lia|].
  destruct (Forall_elem _ _ y Ha Hy). lia.
Qed.

Lemma pop_back_while_prefix p l :
  ∃ d, l = pop_back_while p l ++ d ∧ Forall (λ x, p x = true) d ∧
       ∀ x, head (reverse (pop_back_while p l)) = Some x → p x = false.
Proof.
  unfold pop_back_while. destruct (drop_while_suffix p (reverse l)) as (d & E & Hd).
  exists (reverse d). split_and!.
  - apply (f_equal reverse) in E. by rewrite reverse_involutive, reverse_app in E.
  - by apply Forall_reverse.
  - intros x. rewrite reverse_involutive. apply drop_while_head.
Qed.

(** The counter represents the history [h] at time [now]. *)
Record repr (w : Z) (h : list entry) (now : Z) (c : MovingMaxCounter) : Prop := {
  repr_window : window_length_ms_ c = w;
  repr_ordered : ordered (samples_ c);
  repr_sound : ∀ x, x ∈ samples_ c → x ∈ h ∧ x.1 ≤ now;
  repr_complete : ∀ x, x ∈ h → now - w ≤ x.1 → ∃ y, y ∈ samples_ c ∧ x.1 ≤ y.1 ∧ x.2 ≤ y.2;
  repr_time : last_call_time_ms_ c ≤ now
}.

Section Lemmas.
Context {bm : BuildMode}.

Lemma RollWindow_ok w h now c t :
  repr w h now c → now ≤ t → values int64_t (t - w) →
  ∃ c', RollWindow c t = Ret c' ∧ repr w h t c' ∧ (∀ x, x ∈ samples_ c' → t - w ≤ x.1).
Proof.
  intros [Hw Ho Hs Hc Ht] Hnow Hv. unfold RollWindow.
  assert ((if RTC_DCHECK_IS_ON then RTC_DCHECK (t >=? last_call_time_ms_ c) else Ret tt) = Ret tt) as ->.
  { destruct RTC_DCHECK_IS_ON eqn:E; [|done]. apply dcheck_pass. rewrite Z.geb_leb. bool_solve. }
  rewrite bind_ret, Hw, arith_in_range, bind_ret by done.
  eexists. split; [done|]. set (p := λ x : entry, x.1 <? t - w).
  destruct (drop_while_suffix p (samples_ c)) as (d & E & Hd).
  assert (ordered (drop_while p (samples_ c))) as Ho' by (rewrite E in Ho; by apply ordered_app in Ho as (_ & ? & _)).
  split; [split; simpl; try done|].
  - intros x Hx. destruct (Hs x); [rewrite E; apply elem_of_app; by right|]. split; [done|lia].
  - intros x Hx Hin. destruct (Hc x Hx ltac:(lia)) as (y & Hy & Hle & Hle'). exists y. split_and!; try done.
    rewrite E in Hy. apply elem_of_app in Hy as [Hy|]; [|done].
    pose proof (Forall_elem _ _ y Hd Hy) as Hp. unfold p in Hp. simpl in Hp. apply Z.ltb_lt in Hp. lia.
  - destruct RTC_DCHECK_IS_ON; lia.
  - simpl. intros x Hx. destruct (drop_while p (samples_ c)) as [|z l] eqn:El; [by apply elem_of_nil in Hx|].
    pose proof (drop_while_head p (samples_ c) z) as Hz. rewrite El in Hz. specialize (Hz eq_refl).
    unfold p in Hz. apply Z.ltb_ge in Hz. pose proof (ordered_head z l Ho' x Hx). lia.
Qed.

Lemma Max_ok w h now c t :
  repr w h now c → now ≤ t → values int64_t (t - w) →
  ∃ c', Max c t = Ret (window_max w h t, c') ∧ repr w h t c'.
Proof.
  intros Hr Hnow Hv. destruct (RollWindow_ok w h now c t Hr Hnow Hv) as (c' & E & Hr' & Hin).
  exists c'. split; [|done]. unfold Max. rewrite E, bind_ret. do 2 f_equal. unfold window_max.
  destruct Hr' as [_ Ho Hs Hc _]. destruct (samples_ c') as [|x l]; simpl.
  - assert (filter (λ x, t - w ≤ x.1) h = []) as ->; [|done].
    apply elem_of_nil_inv. intros y [Hy Hyh]%list_elem_of_filter.
    destruct (Hc y Hyh Hy) as (? & ?%elem_of_nil & _). done.
  - symmetry. apply list_max_spec.
    + apply list_elem_of_fmap. exists x. split; [done|]. apply list_elem_of_filter.
      split; [apply Hin; by left|]. apply Hs. by left.
    + intros z (y & -> & [Hy Hyh]%list_elem_of_filter)%list_elem_of_fmap.
      destruct (Hc y Hyh Hy) as (y' & Hy' & _ & Hle). pose proof (ordered_head x l Ho y' Hy'). lia.
Qed.
Lemma ordered_last l z : ordered l → head (reverse l) = Some z → z ∈ l ∧ ∀ y, y ∈ l → y.1 ≤ z.1 ∧ z.2 ≤ y.2.
Proof.
  intros Ho Hz. destruct l as [|x l _] using rev_ind; [done|].
  rewrite reverse_app, reverse_singleton in Hz. injection Hz as ->.
  split; [apply elem_of_app; right; by left|].
  apply ordered_app in Ho as (_ & _ & Hc). intros y [Hy|Hy]%elem_of_app.
  - specialize (Hc y z Hy ltac:(by left)). lia.
  - apply list_elem_of_singleton in Hy as ->. lia.
Qed.

Lemma Add_ok w h now c sample t :
  repr w h now c → now ≤ t → values int64_t (t - w) →
  ∃ c', Add c sample t = Ret c' ∧ repr w (h ++ [(t, sample)]) t c'.
Proof.
  intros Hr Hnow Hv. destruct (RollWindow_ok w h now c t Hr Hnow Hv) as (c1 & E & [Hw Ho Hs Hc Ht] & _).
  unfold Add. rewrite E, bind_ret. eexists. split; [done|].
  destruct (pop_back_while_prefix (λ x, x.2 <=? sample) (samples_ c1)) as (d & Ed & Hd & Hback).
  set (s := pop_back_while _ _) in *. rewrite Ed in Ho, Hs, Hc. apply ordered_app in Ho as (Ho & _ & _).
  assert (∀ y, y ∈ d → y.2 ≤ sample) as Hle.
  { intros y Hy. pose proof (Forall_elem _ _ y Hd Hy) as Hp. simpl in Hp. by apply Z.leb_le in Hp. }
  assert (∀ x, x ∈ s → x ∈ h ∧ x.1 ≤ t) as Hss by (intros x Hx; apply Hs, elem_of_app; by left).
  destruct (head (reverse s)) as [z|] eqn:Ez.
  - specialize (Hback z eq_refl). simpl in Hback. apply Z.leb_gt in Hback.
    destruct (ordered_last s z Ho Ez) as [Hzs Hz]. destruct (Hss z Hzs) as [Hzh Hzt].
    destruct (Z.ltb_spec z.1 t) as [Hlt|Hge]; split; simpl; try done.
    + apply ordered_app. split_and!; [done|by repeat constructor|].
      intros x y Hx ->%list_elem_of_singleton. simpl. pose proof (Hz x Hx). lia.
    + intros x [Hx| ->%list_elem_of_singleton]%elem_of_app; [|split; [apply elem_of_app; right; by left|simpl; lia]].
      destruct (Hss x Hx). split; [apply elem_of_app; by left|done].
    + intros x [Hx| ->%list_elem_of_singleton]%elem_of_app Hin.
      * destruct (Hc x Hx Hin) as (y & [Hy|Hy]%elem_of_app & H1 & H2).
        -- exists y. split; [apply elem_of_app; by left|done].
        -- exists (t, sample). split; [apply elem_of_app; right; by left|]. simpl.
           pose proof (Hle y Hy). destruct (Hs y ltac:(apply elem_of_app; by right)). lia.
      * exists (t, sample). split; [apply elem_of_app; right; by left|]. simpl. lia.
    + intros x Hx. destruct (Hss x Hx). split; [apply elem_of_app; by left|done].
    + intros x [Hx| ->%list_elem_of_singleton]%elem_of_app Hin; [|exists z; simpl; split_and!; [done|lia..]].
      destruct (Hc x Hx Hin) as (y & [Hy|Hy]%elem_of_app & H1 & H2); [by exists y|].
      exists z. pose proof (Hle y Hy). destruct (Hs y ltac:(apply elem_of_app; by right)). split_and!; [done|lia..].
  - assert (s = []) as Es.
    { destruct s as [|a s' _] using rev_ind; [done|]. by rewrite reverse_app in Ez. }
    rewrite Es in *. split; simpl; try done.
    + by repeat constructor.
    + intros x ->%list_elem_of_singleton. split; [apply elem_of_app; right; by left|simpl; lia].
    + intros x Hx Hin. exists (t, sample). split; [by left|]. simpl.
      apply elem_of_app in Hx as [Hx| ->%list_elem_of_singleton]; [|simpl; lia].
      destruct (Hc x Hx Hin) as (y & Hy & H1 & H2). simpl in Hy. pose proof (Hle y Hy). destruct (Hs y Hy). lia.
Qed.

Lemma counter_run_ok w calls : ∀ h now c,
  repr w h now c → times_ok w now calls → run c calls = Ret (spec_run w h calls).
Proof.
  induction calls as [|[s t|t|] calls IH]; intros h now c Hr Ht; simpl in *; [done|..].
  - destruct Ht as (H1 & H2 & H3). destruct (Add_ok w h now c s t Hr H1 H2) as (c' & -> & Hr').
    rewrite bind_ret. by apply (IH _ t).
  - destruct Ht as (H1 & H2 & H3). destruct (Max_ok w h now c t Hr H1 H2) as (c' & -> & Hr').
    rewrite bind_ret. by rewrite (IH h t).
  - apply (IH [] now); [|done]. destruct Hr as [Hw _ _ _ Hl].
    split; simpl; try done; [constructor|by intros x ?%elem_of_nil|by intros x ?%elem_of_nil].
Qed.
End Lemmas.

(** C9: The pruned deque computes the exact moving maximum: for every sequence
    of [Add], [Max] and [Reset] calls whose times do not decrease, started
    from a new counter, each [Max] returns the greatest of all samples added
    since the last [Reset] that are at most [window_length_ms] old, and
    nothing when there is none; no debug check fails. *)
Theorem moving_max_exact {bm : BuildMode} (w : Z) (calls : list call) :
  times_ok w (int_min int64_t) calls →
  run (MovingMaxCounter_init w) calls = Ret (spec_run w [] calls).
Proof.
  intros Ht. apply (counter_run_ok w calls [] (int_min int64_t)); [|done].
  split; simpl; try done; [constructor|by intros x ?%elem_of_nil|by intros x ?%elem_of_nil].
Qed.

Lemma moving_max_exact_witness :
  run (bm := debug_build) (MovingMaxCounter_init 100)
    [CAdd 5 0; CAdd 9 10; CAdd 7 20; CMax 50; CMax 115; CMax 200; CReset; CAdd 1 210; CMax 210]
  = Ret [Some 9; Some 7; None; Some 1].
Proof.
  apply (moving_max_exact (bm := debug_build) 100
    [CAdd 5 0; CAdd 9 10; CAdd 7 20; CMax 50; CMax 115; CMax 200; CReset; CAdd 1 210; CMax 210]).
  simpl. repeat split; by vm_compute.
Defined.

(** The deque keeps the documented shape: in every state the counter can
    reach, timestamps strictly increase and samples strictly decrease from
    front to back, and every entry is a sample that was added. *)
Theorem moving_max_shape {bm : BuildMode} (w : Z) (h : list entry) (now sample t : Z) (c : MovingMaxCounter) :
  repr w h now c → now ≤ t → values int64_t (t - w) →
  ∃ c', Add c sample t = Ret c' ∧ ordered (samples_ c') ∧
        (∀ x, x ∈ samples_ c' → x = (t, sample) ∨ x ∈ h).
Proof.
  intros Hr H1 H2. destruct (Add_ok w h now c sample t Hr H1 H2) as (c' & E & [_ Ho Hs _ _]).
  exists c'. split_and!; [done..|]. intros x Hx. destruct (Hs x Hx) as [[?| ->%list_elem_of_singleton]%elem_of_app _]; auto.
Qed.

Lemma moving_max_shape_witness :
  ∃ c', Add (bm := debug_build) (MovingMaxCounter_init 100) 5 0 = Ret c' ∧ ordered (samples_ c').
Proof.
  destruct (moving_max_shape (bm := debug_build) 100 [] (int_min int64_t) 5 0 (MovingMaxCounter_init 100))
    as (c' & E & Ho & _); [|done|by vm_compute|by exists c'].
  split; simpl; try done; [constructor|by intros x ?%elem_of_nil|by intros x ?%elem_of_nil].
Defined.
