(* ===== verification/CircularDeque.v ===== *)
(** * The circular deque

    Model of [base::circular_deque] of
    [src/include/base/containers/circular_deque.h] and of the
    [internal::VectorBuffer] of [vector_buffer.h] it stores its items in.  The
    buffer is a list of cells; a cell holds [Some x] while an object lives in
    it and [None] otherwise.  Destroying or moving from a cell in which no
    object lives is an error of the model ([UninitRead]), so that theorems
    that say an operation returns also say that every object is destroyed at
    most once and never used after.  Debug checks depend on the build mode;
    the generation counter of a deque and of its iterators is kept in both.
    Sizes and indices are natural numbers.  A sum or a difference that is not
    bounded by the capacity of the buffer is reduced to the width of [size_t]
    as in the source ([size_add], [size_sub]), the number of bytes of a new
    buffer is checked for overflow, and an allocation of more bytes than an
    object can have fails.  The width of [size_t] and the size of an item are
    those of the class [ItemLayout]. *)

From S2P Require Import Prelude.

(** [DCHECK] and [CHECK] of Chromium's base library. *)
Abbreviation DCHECK := RTC_DCHECK.
Abbreviation CHECK := RTC_CHECK.

(** ** Sizes *)

(** The width of [size_t] on the target and [sizeof(T)]. *)
Class ItemLayout := {
  size_bits : Z;
  sizeof_T : Z;
  size_bits_cases : size_bits = 32 ∨ size_bits = 64;
  sizeof_T_pos : 0 < sizeof_T
}.

Section Sizes.
Context {lay : ItemLayout}.

(** [a + b] and [a - b] in [size_t]. *)
Definition size_add (a b : nat) : nat := Z.to_nat (wrapU size_bits (Z.of_nat a + Z.of_nat b)).
Definition size_sub (a b : nat) : nat := Z.to_nat (wrapU size_bits (Z.of_nat a - Z.of_nat b)).

(** [PTRDIFF_MAX], the largest number of bytes [malloc] provides. *)
Definition ptrdiff_max : Z := 2 ^ (size_bits - 1) - 1.

(** The largest number of items a buffer can have. *)
Definition max_cells : nat := Z.to_nat (ptrdiff_max / sizeof_T).

(** A list of [n] items, and the spare room the growth policy adds to it,
    can be allocated. *)
Definition fits (n : nat) : bool := sizeof_T * Z.of_nat (n + n / 4 + 4) <=? ptrdiff_max.

Lemma modulus_half : 2 ^ size_bits = 2 * (ptrdiff_max + 1) ∧ 0 < ptrdiff_max.
Proof. unfold ptrdiff_max. destruct size_bits_cases as [-> | ->]; split; reflexivity. Qed.

Lemma max_cells_spec n : (n ≤ max_cells)%nat ↔ sizeof_T * Z.of_nat n ≤ ptrdiff_max.
Proof.
  pose proof sizeof_T_pos. pose proof modulus_half as [_ Hp]. unfold max_cells.
  assert (0 ≤ ptrdiff_max / sizeof_T) by (apply Z.div_pos; lia). split; intros Hn.
  - assert (sizeof_T * (ptrdiff_max / sizeof_T) ≤ ptrdiff_max) by (apply Z.mul_div_le; lia). nia.
  - assert (Z.of_nat n ≤ ptrdiff_max / sizeof_T) by (apply Z.div_le_lower_bound; lia). lia.
Qed.

(** Sums of indices of a buffer that could be allocated do not wrap around. *)
Lemma max_cells_modulus : 2 * Z.of_nat max_cells + 2 ≤ 2 ^ size_bits.
Proof.
  pose proof sizeof_T_pos. pose proof modulus_half as [-> Hp]. pose proof (proj1 (max_cells_spec max_cells)). nia.
Qed.

Lemma size_add_small a b : (a + b ≤ 2 * max_cells + 1)%nat → size_add a b = (a + b)%nat.
Proof. intros. unfold size_add. pose proof max_cells_modulus. rewrite wrapU_small; lia. Qed.

Lemma size_sub_small a b : (b ≤ a ≤ 2 * max_cells + 1)%nat → size_sub a b = (a - b)%nat.
Proof. intros. unfold size_sub. pose proof max_cells_modulus. rewrite wrapU_small; lia. Qed.

(** The sum of an offset in a buffer and a [ptrdiff_t], converted back. *)
Lemma offset_wrap (i : nat) delta :
  (i ≤ max_cells)%nat → - ptrdiff_max - 1 ≤ delta ≤ ptrdiff_max →
  wrapS size_bits (Z.of_nat i + delta) =
    if Z.of_nat i + delta <=? ptrdiff_max then Z.of_nat i + delta else Z.of_nat i + delta - 2 ^ size_bits.
Proof.
  intros Hi Hd. pose proof max_cells_modulus. pose proof modulus_half as [Hm Hp]. unfold wrapS.
  replace (2 ^ (size_bits - 1)) with (ptrdiff_max + 1) by (unfold ptrdiff_max; lia).
  destruct (Z.leb_spec (Z.of_nat i + delta) ptrdiff_max).
  - rewrite Z.mod_small; lia.
  - rewrite <-(Z.mod_unique_pos _ (2 ^ size_bits) 1 (Z.of_nat i + delta + (ptrdiff_max + 1) - 2 ^ size_bits)); lia.
Qed.

Lemma fits_le m n : (m ≤ n)%nat → fits n = true → fits m = true.
Proof.
  intros Hm. pose proof sizeof_T_pos. pose proof (Nat.Div0.div_le_mono m n 4 Hm).
  unfold fits. rewrite !Z.leb_le. nia.
Qed.

Lemma fits_cells n : fits n = true → (n + n / 4 + 4 ≤ max_cells)%nat.
Proof. intros H%Z.leb_le. by apply max_cells_spec. Qed.

End Sizes.

Section VectorBuffer.
Context {bm : BuildMode} {lay : ItemLayout} {T : Type}.

Abbreviation cells := (list (option T)).

(** [VectorBuffer(count)]: the product is checked, then [malloc] is called.
    The source does not look at its result, so a request that cannot be met is
    an error of the model. *)
Definition VectorBuffer (count : nat) : outcome cells :=
  let bytes := sizeof_T * Z.of_nat count in
  CHECK (bytes <? 2 ^ size_bits) ≫= λ _,
  if bytes <=? ptrdiff_max then Ret (replicate count None) else Crash OutOfMemory.

(** The check of [operator[]], which is also used to form [&buffer_[i]]. *)
Definition check_index (b : cells) (i : nat) : outcome unit := CHECK (i <=? length b)%nat.

(** The object in cell [i]. *)
Definition object (b : cells) (i : nat) : outcome T :=
  c ← from_option_or OutOfBounds (b !! i); from_option_or UninitRead c.

Definition read (b : cells) (i : nat) : outcome T := check_index b i ≫= λ _, object b i.

(** [new (&buffer_[i]) T(value)]. *)
Definition construct (b : cells) (i : nat) (value : T) : outcome cells :=
  check_index b i ≫= λ _,
  if (i <? length b)%nat then Ret (<[i := Some value]> b) else Crash OutOfBounds.

Fixpoint destruct_loop (b : cells) (begin n : nat) : outcome cells :=
  match n with
  | O => Ret b
  | S n' => _ ← object b begin; destruct_loop (<[begin := None]> b) (S begin) n'
  end.

(** [buffer_.DestructRange(&buffer_[begin], &buffer_[end])]. *)
Definition DestructRange_buffer (b : cells) (begin end_ : nat) : outcome cells :=
  check_index b begin ≫= λ _, check_index b end_ ≫= λ _,
  CHECK (begin <=? end_)%nat ≫= λ _,
  destruct_loop b begin (end_ - begin).

(** [MoveRange] between two buffers: what is left of the source, and the
    destination.  Ranges of distinct allocations never overlap. *)
Fixpoint move_loop (from to : cells) (from_begin to_begin n : nat) : outcome (cells * cells) :=
  match n with
  | O => Ret (from, to)
  | S n' =>
      x ← object from from_begin;
      to ← construct to to_begin x;
      move_loop (<[from_begin := None]> from) to (S from_begin) (S to_begin) n'
  end.

Definition MoveRange (from : cells) (from_begin from_end : nat) (to : cells) (to_begin : nat)
    : outcome (cells * cells) :=
  check_index from from_begin ≫= λ _, check_index from from_end ≫= λ _,
  move_loop from to from_begin to_begin (from_end - from_begin).

(** [MoveRange] of one item within a buffer; the ranges must not overlap. *)
Definition MoveRange_one (b : cells) (src dest : nat) : outcome cells :=
  check_index b src ≫= λ _, check_index b (src + 1) ≫= λ _, check_index b dest ≫= λ _,
  CHECK (negb (src =? dest)%nat) ≫= λ _,
  x ← object b src;
  construct (<[src := None]> b) dest x.

End VectorBuffer.

Section CircularDeque.
Context {bm : BuildMode} {lay : ItemLayout} {T : Type}.

Definition kCircularBufferInitialCapacity : nat := 3.

Record circular_deque := mkDeque {
  buffer_ : list (option T);
  begin_ : nat;
  end_ : nat;
  generation_ : nat
}.

Definition circular_deque_empty : circular_deque := mkDeque [] 0 0 0.

(** [buffer_.capacity()]. *)
Definition internal_capacity (d : circular_deque) : nat := length (buffer_ d).

Definition set_buffer (d : circular_deque) (b : list (option T)) : circular_deque :=
  mkDeque b (begin_ d) (end_ d) (generation_ d).

Definition IncrementGeneration (d : circular_deque) : circular_deque :=
  mkDeque (buffer_ d) (begin_ d) (end_ d) (if RTC_DCHECK_IS_ON then S (generation_ d) else generation_ d).

Definition empty (d : circular_deque) : bool := (begin_ d =? end_ d)%nat.

Definition size (d : circular_deque) : nat :=
  if (begin_ d <=? end_ d)%nat then (end_ d - begin_ d)%nat
  else (internal_capacity d - begin_ d + end_ d)%nat.

Definition capacity (d : circular_deque) : nat :=
  if (internal_capacity d =? 0)%nat then 0%nat else (internal_capacity d - 1)%nat.

(** ** Index checks *)

Definition CheckValidIndex (d : circular_deque) (i : nat) : outcome unit :=
  if (begin_ d <=? end_ d)%nat
  then DCHECK ((begin_ d <=? i)%nat && (i <? end_ d)%nat)
  else DCHECK (((begin_ d <=? i)%nat && (i <? internal_capacity d)%nat) || (i <? end_ d)%nat).

Definition CheckValidIndexOrEnd (d : circular_deque) (i : nat) : outcome unit :=
  if negb (i =? end_ d)%nat then CheckValidIndex d i else Ret tt.

(** ** Iterators

    The deque an iterator belongs to is the one passed along with it. *)

Record iterator := mkIter { index_ : nat; created_generation_ : nat }.

Definition iter (d : circular_deque) (index : nat) : iterator := mkIter index (generation_ d).

Definition CheckUnstableUsage (d : circular_deque) (it : iterator) : outcome unit :=
  DCHECK (created_generation_ it =? generation_ d)%nat.

Definition CheckComparable (lhs rhs : iterator) : outcome unit :=
  DCHECK (created_generation_ lhs =? created_generation_ rhs)%nat.

Definition OffsetFromBegin (d : circular_deque) (it : iterator) : nat :=
  if (begin_ d <=? index_ it)%nat then (index_ it - begin_ d)%nat
  else (internal_capacity d - begin_ d + index_ it)%nat.

Definition iter_deref (d : circular_deque) (it : iterator) : outcome T :=
  CheckUnstableUsage d it ≫= λ _, CheckValidIndex d (index_ it) ≫= λ _, read (buffer_ d) (index_ it).

Definition Increment (d : circular_deque) (it : iterator) : outcome iterator :=
  CheckUnstableUsage d it ≫= λ _, CheckValidIndex d (index_ it) ≫= λ _,
  let i := (index_ it + 1)%nat in
  Ret (mkIter (if (i =? internal_capacity d)%nat then 0%nat else i) (created_generation_ it)).

Definition Decrement (d : circular_deque) (it : iterator) : outcome iterator :=
  CheckUnstableUsage d it ≫= λ _, CheckValidIndexOrEnd d (index_ it) ≫= λ _,
  Ret (mkIter (if (index_ it =? 0)%nat then (internal_capacity d - 1)%nat else (index_ it - 1)%nat)
              (created_generation_ it)).

(** [Add(delta)]; [delta] is signed, the sums are those of [size_t]. *)
Definition iter_add (d : circular_deque) (it : iterator) (delta : Z) : outcome iterator :=
  CheckUnstableUsage d it ≫= λ _,
  (if RTC_DCHECK_IS_ON
   then if delta <=? 0 then CheckValidIndexOrEnd d (index_ it) else CheckValidIndex d (index_ it)
   else Ret tt) ≫= λ _,
  if delta =? 0 then Ret it else
  let new_offset := wrapS size_bits (Z.of_nat (OffsetFromBegin d it) + delta) in
  DCHECK ((new_offset >=? 0) && (new_offset <=? Z.of_nat (size d))) ≫= λ _,
  if (internal_capacity d =? 0)%nat then Crash DivideByZero else
  Ret (mkIter (Z.to_nat (wrapU size_bits (new_offset + Z.of_nat (begin_ d)) mod Z.of_nat (internal_capacity d)))
              (created_generation_ it)).

Definition iter_eq (lhs rhs : iterator) : outcome bool :=
  CheckComparable lhs rhs ≫= λ _, Ret (index_ lhs =? index_ rhs)%nat.

Definition iter_lt (d : circular_deque) (lhs rhs : iterator) : outcome bool :=
  CheckComparable lhs rhs ≫= λ _, Ret (OffsetFromBegin d lhs <? OffsetFromBegin d rhs)%nat.

Definition iter_sub (d : circular_deque) (lhs rhs : iterator) : outcome Z :=
  CheckComparable lhs rhs ≫= λ _,
  Ret (Z.of_nat (OffsetFromBegin d lhs) - Z.of_nat (OffsetFromBegin d rhs)).

Definition deque_begin (d : circular_deque) : iterator := iter d (begin_ d).
Definition deque_end (d : circular_deque) : iterator := iter d (end_ d).

Definition ValidateIterator (d : circular_deque) (it : iterator) : outcome unit := CheckUnstableUsage d it.

(** ** Accessors *)

Definition at_ (d : circular_deque) (i : nat) : outcome T :=
  DCHECK (i <? size d)%nat ≫= λ _,
  let right_size := (internal_capacity d - begin_ d)%nat in
  if (begin_ d <=? end_ d)%nat || (i <? right_size)%nat
  then read (buffer_ d) (size_add (begin_ d) i)
  else read (buffer_ d) (i - right_size).

Definition front (d : circular_deque) : outcome T :=
  DCHECK (negb (empty d)) ≫= λ _, read (buffer_ d) (begin_ d).

Definition back (d : circular_deque) : outcome T :=
  DCHECK (negb (empty d)) ≫= λ _, it ← Decrement d (deque_end d); iter_deref d it.

(** ** Memory management *)

(** The destination buffer and its begin and end. *)
Definition MoveBuffer (from_buf : list (option T)) (from_begin from_end : nat) (to_buf : list (option T))
    : outcome (list (option T) * nat * nat) :=
  let from_capacity := length from_buf in
  if (from_begin <? from_end)%nat then
    '(_, to) ← MoveRange from_buf from_begin from_end to_buf 0;
    Ret (to, 0%nat, (from_end - from_begin)%nat)
  else if (from_end <? from_begin)%nat then
    '(from, to) ← MoveRange from_buf from_begin from_capacity to_buf 0;
    let right_size := (from_capacity - from_begin)%nat in
    '(_, to) ← MoveRange from 0 from_end to right_size;
    Ret (to, 0%nat, (right_size + from_end)%nat)
  else Ret (to_buf, 0%nat, 0%nat).

Definition SetCapacityTo (d : circular_deque) (new_capacity : nat) : outcome circular_deque :=
  new_buffer ← VectorBuffer (size_add new_capacity 1);
  '(b, bg, en) ← MoveBuffer (buffer_ d) (begin_ d) (end_ d) new_buffer;
  Ret (mkDeque b bg en (generation_ d)).

Definition ExpandCapacityIfNecessary (d : circular_deque) (additional_elts : nat) : outcome circular_deque :=
  let min_new_capacity := size_add (size d) additional_elts in
  if (min_new_capacity <=? capacity d)%nat then Ret d else
  let min_new_capacity := Nat.max min_new_capacity kCircularBufferInitialCapacity in
  SetCapacityTo d (Nat.max min_new_capacity (size_add (capacity d) (capacity d / 4))).

Definition ShrinkCapacityIfNecessary (d : circular_deque) : outcome circular_deque :=
  if (capacity d <=? kCircularBufferInitialCapacity)%nat then Ret d else
  let sz := size d in
  let empty_spaces := (capacity d - sz)%nat in
  if (empty_spaces <? sz)%nat then Ret d else
  let new_capacity := Nat.max kCircularBufferInitialCapacity (size_add sz (sz / 4)) in
  if (new_capacity <? capacity d)%nat then SetCapacityTo d new_capacity else Ret d.

Definition DestructRange (d : circular_deque) (begin en : nat) : outcome circular_deque :=
  if (en =? begin)%nat then Ret d
  else if (begin <? en)%nat then
    b ← DestructRange_buffer (buffer_ d) begin en; Ret (set_buffer d b)
  else
    b ← DestructRange_buffer (buffer_ d) begin (internal_capacity d);
    b ← DestructRange_buffer b 0 en;
    Ret (set_buffer d b).

Definition ClearRetainCapacity (d : circular_deque) : outcome circular_deque :=
  d ← DestructRange d (begin_ d) (end_ d);
  Ret (IncrementGeneration (mkDeque (buffer_ d) 0 0 (generation_ d))).

Definition clear (d : circular_deque) : outcome circular_deque :=
  d ← ClearRetainCapacity d; Ret (set_buffer d []).

Definition reserve (d : circular_deque) (new_capacity : nat) : outcome circular_deque :=
  if (capacity d <? new_capacity)%nat then SetCapacityTo d new_capacity else Ret d.

Definition shrink_to_fit (d : circular_deque) : outcome circular_deque :=
  if empty d
  then Ret (if (internal_capacity d =? 0)%nat then d else set_buffer d [])
  else SetCapacityTo d (size d).

(** ** Operations at the ends *)

Definition emplace_front (d : circular_deque) (value : T) : outcome circular_deque :=
  d ← ExpandCapacityIfNecessary d 1;
  let bg := if (begin_ d =? 0)%nat then (internal_capacity d - 1)%nat else (begin_ d - 1)%nat in
  let d := IncrementGeneration (mkDeque (buffer_ d) bg (end_ d) (generation_ d)) in
  b ← construct (buffer_ d) (begin_ d) value;
  let d := set_buffer d b in
  _ ← front d; Ret d.

Definition emplace_back (d : circular_deque) (value : T) : outcome circular_deque :=
  d ← ExpandCapacityIfNecessary d 1;
  b ← construct (buffer_ d) (end_ d) value;
  let en := if (end_ d =? internal_capacity d - 1)%nat then 0%nat else (end_ d + 1)%nat in
  let d := IncrementGeneration (mkDeque b (begin_ d) en (generation_ d)) in
  _ ← back d; Ret d.

Definition pop_front (d : circular_deque) : outcome circular_deque :=
  DCHECK (negb (size d =? 0)%nat) ≫= λ _,
  b ← DestructRange_buffer (buffer_ d) (begin_ d) (begin_ d + 1);
  let bg := (begin_ d + 1)%nat in
  let bg := if (bg =? internal_capacity d)%nat then 0%nat else bg in
  d ← ShrinkCapacityIfNecessary (mkDeque b bg (end_ d) (generation_ d));
  Ret (IncrementGeneration d).

Definition pop_back (d : circular_deque) : outcome circular_deque :=
  DCHECK (negb (size d =? 0)%nat) ≫= λ _,
  let en := if (end_ d =? 0)%nat then (internal_capacity d - 1)%nat else (end_ d - 1)%nat in
  b ← DestructRange_buffer (buffer_ d) en (en + 1);
  d ← ShrinkCapacityIfNecessary (mkDeque b (begin_ d) en (generation_ d));
  Ret (IncrementGeneration d).

(** ** Size management and assignment *)

(** [while (size() < count) emplace_back(value)]: every pass adds an item, so
    [count] passes are enough. *)
Fixpoint resize_loop (fuel : nat) (d : circular_deque) (count : nat) (value : T) : outcome circular_deque :=
  match fuel with
  | O => Ret d
  | S fuel => if (size d <? count)%nat then d ← emplace_back d value; resize_loop fuel d count value
              else Ret d
  end.

Definition resize (d : circular_deque) (count : nat) (value : T) : outcome circular_deque :=
  d ← (if (size d <? count)%nat then
         d ← ExpandCapacityIfNecessary d (count - size d); resize_loop count d count value
       else if (count <? size d)%nat then
         let new_end := (size_add (begin_ d) count mod internal_capacity d)%nat in
         d ← DestructRange d new_end (end_ d);
         ShrinkCapacityIfNecessary (mkDeque (buffer_ d) (begin_ d) new_end (generation_ d))
       else Ret d);
  Ret (IncrementGeneration d).

(** The loops of the two [assign]s, over the items to append. *)
Fixpoint emplace_back_all (d : circular_deque) (items : list T) : outcome circular_deque :=
  match items with [] => Ret d | x :: items => d ← emplace_back d x; emplace_back_all d items end.

Definition assign_count (d : circular_deque) (count : nat) (value : T) : outcome circular_deque :=
  d ← ClearRetainCapacity d;
  d ← reserve d count;
  d ← emplace_back_all d (replicate count value);
  Ret (IncrementGeneration d).

Definition assign (d : circular_deque) (items : list T) : outcome circular_deque :=
  d ← ClearRetainCapacity d;
  d ← emplace_back_all d items;
  Ret (IncrementGeneration d).

Definition assign_ilist (d : circular_deque) (items : list T) : outcome circular_deque :=
  d ← reserve d (length items); assign d items.

(** ** Insertion and erasure in the middle *)

(** The loop of [MakeRoomFor]; an item moves in every pass but the last. *)
Fixpoint make_room_loop (fuel : nat) (d : circular_deque) (src dest insert_begin : iterator)
    : outcome circular_deque :=
  match fuel with
  | O => Ret d
  | S fuel =>
      stop ← iter_eq src insert_begin;
      if stop : bool then Ret d else
      src ← Decrement d src;
      dest ← Decrement d dest;
      b ← MoveRange_one (buffer_ d) (index_ src) (index_ dest);
      make_room_loop fuel (set_buffer d b) src dest insert_begin
  end.

(** The deque, and the updated begin and end of the hole. *)
Definition MakeRoomFor (d : circular_deque) (count : nat) (insert_begin : iterator)
    : outcome (circular_deque * iterator * iterator) :=
  if (count =? 0)%nat then Ret (d, insert_begin, insert_begin) else
  let begin_offset := OffsetFromBegin d insert_begin in
  d ← ExpandCapacityIfNecessary d count;
  let cap := internal_capacity d in
  let insert_begin := mkIter (size_add (begin_ d) begin_offset mod cap) (created_generation_ insert_begin) in
  let insert_end := iter d (size_add (index_ insert_begin) count mod cap) in
  let src := deque_end d in
  let d := mkDeque (buffer_ d) (begin_ d) (size_add (end_ d) count mod cap) (generation_ d) in
  let dest := deque_end d in
  d ← make_room_loop (S cap) d src dest insert_begin;
  Ret (d, insert_begin, insert_end).

(** The loop that fills the hole with [items]. *)
Fixpoint fill_loop (items : list T) (d : circular_deque) (insert_cur insert_end : iterator)
    : outcome circular_deque :=
  more ← iter_lt d insert_cur insert_end;
  if more : bool then
    match items with
    | [] => Ret d
    | x :: items =>
        b ← construct (buffer_ d) (index_ insert_cur) x;
        let d := set_buffer d b in
        insert_cur ← Increment d insert_cur;
        fill_loop items d insert_cur insert_end
    end
  else Ret d.

(** [for (size_t i = 0; i < count; i++) push_front(value)]. *)
Fixpoint push_front_n (d : circular_deque) (count : nat) (value : T) : outcome circular_deque :=
  match count with
  | O => Ret d
  | S n => d ← emplace_front d value; push_front_n d n value
  end.

Definition insert_count (d : circular_deque) (pos : iterator) (count : nat) (value : T)
    : outcome circular_deque :=
  ValidateIterator d pos ≫= λ _,
  at_begin ← iter_eq pos (deque_begin d);
  if at_begin : bool then
    d ← ExpandCapacityIfNecessary d count; push_front_n d count value
  else
    '(d, insert_cur, insert_end) ← MakeRoomFor d count (iter d (index_ pos));
    d ← fill_loop (replicate count value) d insert_cur insert_end;
    Ret (IncrementGeneration d).

Definition insert_range (d : circular_deque) (pos : iterator) (items : list T) : outcome circular_deque :=
  ValidateIterator d pos ≫= λ _,
  let inserted_items := length items in
  if (inserted_items =? 0)%nat then Ret d else
  at_begin ← iter_eq pos (deque_begin d);
  '(d, insert_cur, insert_end) ←
    (if at_begin : bool then
       d ← ExpandCapacityIfNecessary d inserted_items;
       let insert_end := deque_begin d in
       let cap := internal_capacity d in
       let d := mkDeque (buffer_ d) (size_sub (size_add (begin_ d) cap) inserted_items mod cap) (end_ d) (generation_ d) in
       Ret (d, deque_begin d, insert_end)
     else MakeRoomFor d inserted_items (iter d (index_ pos)));
  d ← fill_loop items d insert_cur insert_end;
  Ret (IncrementGeneration d).

Definition emplace (d : circular_deque) (pos : iterator) (value : T) : outcome (circular_deque * iterator) :=
  ValidateIterator d pos ≫= λ _,
  at_begin ← iter_eq pos (deque_begin d);
  if at_begin : bool then
    d ← emplace_front d value; Ret (d, deque_begin d)
  else
    let d := IncrementGeneration d in
    '(d, insert_begin, _) ← MakeRoomFor d 1 (iter d (index_ pos));
    b ← construct (buffer_ d) (index_ insert_begin) value;
    Ret (set_buffer d b, insert_begin).

(** The loop of [erase]; every pass moves one item. *)
Fixpoint erase_loop (fuel : nat) (d : circular_deque) (move_src move_src_end move_dest : iterator)
    : outcome (circular_deque * iterator) :=
  match fuel with
  | O => Ret (d, move_dest)
  | S fuel =>
      more ← iter_lt d move_src move_src_end;
      if more : bool then
        b ← MoveRange_one (buffer_ d) (index_ move_src) (index_ move_dest);
        let d := set_buffer d b in
        move_src ← Increment d move_src;
        move_dest ← Increment d move_dest;
        erase_loop fuel d move_src move_src_end move_dest
      else Ret (d, move_dest)
  end.

Definition erase_range (d : circular_deque) (first last : iterator) : outcome (circular_deque * iterator) :=
  ValidateIterator d first ≫= λ _,
  ValidateIterator d last ≫= λ _,
  let d := IncrementGeneration d in
  if (index_ first =? index_ last)%nat then Ret (d, iter d (index_ first)) else
  b ← (if (index_ first <? index_ last)%nat
       then DestructRange_buffer (buffer_ d) (index_ first) (index_ last)
       else b ← DestructRange_buffer (buffer_ d) (index_ first) (internal_capacity d);
            DestructRange_buffer b 0 (index_ last));
  let d := set_buffer d b in
  if (index_ first =? begin_ d)%nat then
    let d := mkDeque (buffer_ d) (index_ last) (end_ d) (generation_ d) in
    Ret (d, iter d (index_ last))
  else
    '(d, move_dest) ← erase_loop (S (internal_capacity d)) d (iter d (index_ last)) (deque_end d) (iter d (index_ first));
    let d := mkDeque (buffer_ d) (begin_ d) (index_ move_dest) (generation_ d) in
    Ret (d, iter d (index_ first)).

Definition erase (d : circular_deque) (pos : iterator) : outcome (circular_deque * iterator) :=
  next ← iter_add d pos 1; erase_range d pos next.

(** ** Whole containers *)

Definition deque_swap (d other : circular_deque) : circular_deque * circular_deque :=
  (IncrementGeneration (mkDeque (buffer_ other) (begin_ other) (end_ other) (generation_ d)),
   mkDeque (buffer_ d) (begin_ d) (end_ d) (generation_ other)).

(** The move constructor: the new deque and what is left of [other]. *)
Definition move_construct (other : circular_deque) : circular_deque * circular_deque :=
  (mkDeque (buffer_ other) (begin_ other) (end_ other) 0, mkDeque [] 0 0 (generation_ other)).

(** Move assignment to a distinct deque. *)
Definition move_assign (d other : circular_deque) : outcome (circular_deque * circular_deque) :=
  d ← ClearRetainCapacity d;
  Ret (IncrementGeneration (mkDeque (buffer_ other) (begin_ other) (end_ other) (generation_ d)),
       mkDeque [] 0 0 (generation_ other)).

(** [circular_deque(count, value)] and [circular_deque(first, last)]. *)
Definition construct_count (count : nat) (value : T) : outcome circular_deque :=
  resize circular_deque_empty count value.
Definition construct_range (items : list T) : outcome circular_deque := assign circular_deque_empty items.

(** The loop of [assign(other.begin(), other.end())]; it takes one pass per
    item of [other]. *)
Fixpoint copy_loop (fuel : nat) (d other : circular_deque) (first last : iterator) : outcome circular_deque :=
  match fuel with
  | O => Ret d
  | S fuel =>
      stop ← iter_eq first last;
      if stop : bool then Ret d else
      x ← iter_deref other first;
      d ← emplace_back d x;
      first ← Increment other first;
      copy_loop fuel d other first last
  end.

Definition assign_other (d other : circular_deque) : outcome circular_deque :=
  d ← ClearRetainCapacity d;
  d ← copy_loop (S (size other)) d other (deque_begin other) (deque_end other);
  Ret (IncrementGeneration d).

Definition copy_construct (other : circular_deque) : outcome circular_deque :=
  buffer ← VectorBuffer (size_add (size other) 1);
  assign_other (mkDeque buffer 0 0 0) other.

(** Copy assignment from a distinct deque. *)
Definition copy_assign (d other : circular_deque) : outcome circular_deque :=
  d ← reserve d (size other); assign_other d other.

(** The destructor leaves a buffer in which no object lives. *)
Definition deque_destroy (d : circular_deque) : outcome (list (option T)) :=
  d ← DestructRange d (begin_ d) (end_ d); Ret (buffer_ d).

End CircularDeque.
Arguments circular_deque T : clear implicits.

(** ** Representation

    [ring c a] is position [a] in a ring of [c] places, for [a < 2 * c]. *)

Definition ring (c a : nat) : nat := if (a <? c)%nat then a else (a - c)%nat.

(** [ring_lia] splits on where positions wrap around, innermost first. *)
Ltac ring_lia :=
  unfold ring in *;
  repeat match goal with
  | H : context [Nat.ltb _ _] |- _ => revert H
  | H : context [Nat.leb _ _] |- _ => revert H
  end;
  repeat match goal with
  | |- context [Nat.ltb ?a ?b] =>
      lazymatch a with
      | context [Nat.ltb _ _] => fail | context [Nat.leb _ _] => fail | context [Nat.eqb _ _] => fail
      | _ => destruct (Nat.ltb_spec a b)
      end
  | |- context [Nat.leb ?a ?b] => destruct (Nat.leb_spec a b)
  | |- context [Nat.eqb ?a ?b] => destruct (Nat.eqb_spec a b)
  end; intros; try lia.

Lemma ring_mod c a : (0 < c)%nat → (a < 2 * c)%nat → (a mod c)%nat = ring c a.
Proof.
  intros Hc Ha. unfold ring. destruct (Nat.ltb_spec a c); [by apply Nat.mod_small|].
  replace a with (a - c + 1 * c)%nat at 1 by lia. rewrite Nat.Div0.mod_add. apply Nat.mod_small. lia.
Qed.

Lemma ring_lt c a : (a < 2 * c)%nat → (ring c a < c)%nat.
Proof. ring_lia. Qed.

Section Representation.
Context {bm : BuildMode} {lay : ItemLayout} {T : Type}.
Implicit Types (d : circular_deque T) (xs : list T) (b : list (option T)).

(** Cell [i] places after [bg] holds item [i], if there is one. *)
Definition cells_ok b (bg : nat) xs : Prop :=
  ∀ i, (i < length b)%nat → b !! ring (length b) (bg + i) = Some (xs !! i).

(** The indices delimit [n] cells, with one cell to spare, of a buffer that
    can be allocated. *)
Definition shape d (n : nat) : Prop :=
  (begin_ d < internal_capacity d)%nat ∧ (n < internal_capacity d ≤ max_cells)%nat ∧
  end_ d = ring (internal_capacity d) (begin_ d + n).

(** The deque holds the items [xs] in a buffer with one cell to spare. *)
Definition rep_full d xs : Prop :=
  (begin_ d < internal_capacity d)%nat ∧ (length xs < internal_capacity d ≤ max_cells)%nat ∧
  end_ d = ring (internal_capacity d) (begin_ d + length xs) ∧
  cells_ok (buffer_ d) (begin_ d) xs.

Lemma rep_full_shape d xs : rep_full d xs ↔ shape d (length xs) ∧ cells_ok (buffer_ d) (begin_ d) xs.
Proof. unfold rep_full, shape. tauto. Qed.

(** A deque with no buffer holds nothing. *)
Definition rep d xs : Prop :=
  (buffer_ d = [] ∧ begin_ d = end_ d ∧ xs = []) ∨ rep_full d xs.

Lemma rep_size d xs : rep d xs → size d = length xs.
Proof.
  intros [(Hb & He & ->)|(H1 & H2 & H3 & _)]; unfold size, internal_capacity in *.
  - rewrite He, Nat.leb_refl. simpl. lia.
  - rewrite H3. ring_lia.
Qed.

Lemma rep_empty d xs : rep d xs → empty d = match xs with [] => true | _ => false end.
Proof.
  intros Hr. unfold empty. destruct Hr as [(_ & -> & ->)|(H1 & H2 & H3 & _)]; [by rewrite Nat.eqb_refl|].
  rewrite H3. destruct xs; simpl length in *; [apply Nat.eqb_eq|apply Nat.eqb_neq]; ring_lia.
Qed.

Lemma rep_capacity d xs : rep d xs → (length xs ≤ capacity d)%nat.
Proof.
  intros [(Hb & _ & ->)|(H1 & H2 & _)]; [simpl; lia|]. unfold capacity. zcase; lia.
Qed.

(** An item's cell. *)
Lemma cells_item b bg xs i x :
  cells_ok b bg xs → xs !! i = Some x → (i < length b)%nat → b !! ring (length b) (bg + i) = Some (Some x).
Proof. intros Hc Hx Hi. by rewrite Hc, Hx. Qed.

(** Writing the cell at offset [k]. *)
Lemma cells_insert b bg xs xs' k c :
  cells_ok b bg xs → (bg < length b)%nat → (k < length b)%nat → xs' !! k = c →
  (∀ i, (i < length b)%nat → i ≠ k → xs' !! i = xs !! i) →
  cells_ok (<[ring (length b) (bg + k) := c]> b) bg xs'.
Proof.
  intros Hc Hbg Hk Ek Hother i. rewrite length_insert. intros Hi.
  destruct (decide (i = k)) as [->|Hne].
  - rewrite list_lookup_insert_eq by (apply ring_lt; lia). by rewrite Ek.
  - rewrite list_lookup_insert_ne by ring_lia. rewrite Hc, Hother by done. done.
Qed.

(** ** Loops over cells *)

Lemma object_ok b i x : b !! i = Some (Some x) → object b i = Ret x.
Proof. unfold object. by intros ->. Qed.

Lemma check_index_ok b i : (i ≤ length b)%nat → check_index b i = Ret tt.
Proof. intros. apply check_pass. by apply Nat.leb_le. Qed.

Lemma construct_ok b i x : (i < length b)%nat → construct b i x = Ret (<[i := Some x]> b).
Proof.
  intros Hi. unfold construct. rewrite check_index_ok, bind_ret by lia.
  by rewrite (proj2 (Nat.ltb_lt _ _) Hi).
Qed.

Lemma read_ok b i x : b !! i = Some (Some x) → read b i = Ret x.
Proof.
  intros Hi. unfold read. pose proof (lookup_lt_Some _ _ _ Hi).
  rewrite check_index_ok, bind_ret by lia. by apply object_ok.
Qed.

Lemma destruct_loop_ok n : ∀ b a,
  (∀ k, (k < n)%nat → ∃ x, b !! (a + k)%nat = Some (Some x)) →
  ∃ b', destruct_loop b a n = Ret b' ∧ length b' = length b ∧
    ∀ p, b' !! p = if (a <=? p)%nat && (p <? a + n)%nat then Some None else b !! p.
Proof.
  induction n as [|n IH]; intros b a Hlive; simpl.
  { exists b. split_and!; [done..|]. intros p. destruct (Nat.leb_spec a p), (Nat.ltb_spec p (a + 0)); simpl; try done; lia. }
  destruct (Hlive 0%nat ltac:(lia)) as [x Hx]. rewrite Nat.add_0_r in Hx. rewrite (object_ok _ _ _ Hx), bind_ret.
  pose proof (lookup_lt_Some _ _ _ Hx).
  destruct (IH (<[a := None]> b) (S a)) as (b' & E & Hl & Hp).
  { intros k Hk. destruct (Hlive (S k) ltac:(lia)) as [y Hy]. exists y.
    rewrite list_lookup_insert_ne by lia. by rewrite <-Nat.add_succ_comm in Hy. }
  exists b'. split_and!; [done|by rewrite Hl, length_insert|]. intros p. rewrite Hp.
  destruct (Nat.leb_spec (S a) p), (Nat.ltb_spec p (S a + n)), (Nat.leb_spec a p), (Nat.ltb_spec p (a + S n));
    simpl; try lia; try done; try (rewrite list_lookup_insert_ne by lia; done).
  assert (p = a) as -> by lia. by rewrite list_lookup_insert_eq.
Qed.

Lemma move_loop_ok n : ∀ (from to : list (option T)) (a t : nat),
  (∀ k, (k < n)%nat → ∃ x, from !! (a + k)%nat = Some (Some x)) → (t + n ≤ length to)%nat →
  ∃ from' to', move_loop from to a t n = Ret (from', to') ∧ length from' = length from ∧ length to' = length to ∧
    (∀ j, to' !! j = if (t <=? j)%nat && (j <? t + n)%nat then from !! (a + (j - t))%nat else to !! j) ∧
    (∀ p, (p < a ∨ a + n ≤ p)%nat → from' !! p = from !! p).
Proof.
  induction n as [|n IH]; intros from to a t Hlive Ht; simpl.
  { exists from, to. split_and!; try done. intros j.
    destruct (Nat.leb_spec t j), (Nat.ltb_spec j (t + 0)); simpl; try done; lia. }
  destruct (Hlive 0%nat ltac:(lia)) as [x Hx]. rewrite Nat.add_0_r in Hx. rewrite (object_ok _ _ _ Hx), bind_ret.
  rewrite construct_ok, bind_ret by lia.
  destruct (IH (<[a := None]> from) (<[t := Some x]> to) (S a) (S t)) as (f' & t' & E & Hf & Ht' & Hj & Hp).
  { intros k Hk. destruct (Hlive (S k) ltac:(lia)) as [y Hy]. exists y.
    rewrite list_lookup_insert_ne by lia. by rewrite <-Nat.add_succ_comm in Hy. }
  { rewrite length_insert. lia. }
  exists f', t'. rewrite length_insert in Hf, Ht'. split_and!; try done.
  - intros j. rewrite Hj.
    destruct (Nat.leb_spec (S t) j), (Nat.ltb_spec j (S t + n)), (Nat.leb_spec t j), (Nat.ltb_spec j (t + S n));
      simpl; try lia; try (rewrite list_lookup_insert_ne by lia; done).
    + rewrite list_lookup_insert_ne by lia. f_equal. lia.
    + assert (j = t) as -> by lia. rewrite list_lookup_insert_eq, Nat.sub_diag, Nat.add_0_r, Hx by lia. done.
  - intros p Hr. rewrite Hp by lia. by rewrite list_lookup_insert_ne by lia.
Qed.

(** A new buffer whose first cells hold the items. *)
Lemma rep_full_fresh b xs g :
  (length xs < length b ≤ max_cells)%nat → (∀ i, (i < length b)%nat → b !! i = Some (xs !! i)) →
  rep_full (mkDeque b 0 (length xs) g) xs.
Proof.
  intros Hl Hc. split_and!; unfold internal_capacity; simpl; [lia|lia|lia|ring_lia|].
  intros i Hi. simpl. replace (ring (length b) i) with i by ring_lia. by apply Hc.
Qed.

(** An allocation that fits. *)
Lemma VectorBuffer_ok n : (n ≤ max_cells)%nat → VectorBuffer n = Ret (replicate n (None : option T)).
Proof.
  intros Hn%max_cells_spec. pose proof modulus_half as [Hm Hp]. unfold VectorBuffer.
  rewrite check_pass, bind_ret by (apply Z.ltb_lt; lia). by rewrite (proj2 (Z.leb_le _ _) Hn).
Qed.

Lemma SetCapacityTo_ok d xs nc :
  rep d xs → (length xs ≤ nc)%nat → (nc + 1 ≤ max_cells)%nat →
  ∃ d', SetCapacityTo d nc = Ret d' ∧ rep_full d' xs ∧ capacity d' = nc ∧ generation_ d' = generation_ d.
Proof.
  intros Hr Hn Hmax. unfold SetCapacityTo. rewrite size_add_small, VectorBuffer_ok, bind_ret by lia.
  set (nb := replicate (nc + 1) None).
  assert (length nb = nc + 1)%nat as Hnb by apply length_replicate.
  assert (∀ b : list (option T), length b = (nc + 1)%nat →
            (∀ i, (i < nc + 1)%nat → b !! i = Some (xs !! i)) →
          ∃ d', Ret (mkDeque b 0 (length xs) (generation_ d)) = Ret d' ∧ rep_full d' xs ∧ capacity d' = nc ∧
                generation_ d' = generation_ d) as Hfin.
  { intros b Hb Hcells. eexists. split; [done|]. split_and!; [|unfold capacity, internal_capacity; simpl; zcase; lia|done].
    apply rep_full_fresh; rewrite Hb; [lia|done]. }
  assert (∀ i, (i < nc + 1)%nat → (length xs ≤ i)%nat → nb !! i = Some (xs !! i)) as Hnone.
  { intros i Hi Hge. unfold nb. rewrite (lookup_replicate_2 (nc + 1)) by lia. by rewrite lookup_ge_None_2. }
  unfold MoveBuffer. destruct Hr as [(Hb & He & ->)|(H1 & H2 & H3 & Hc)].
  - rewrite He, !Nat.ltb_irrefl, bind_ret. apply Hfin; [done|]. intros i Hi. apply Hnone; simpl; lia.
  - unfold internal_capacity in *.
    assert (end_ d < length (buffer_ d))%nat as Hend by (rewrite H3; apply ring_lt; lia).
    assert (∀ k, (k < length xs)%nat → ∃ x, buffer_ d !! ring (length (buffer_ d)) (begin_ d + k) = Some (Some x)) as Hlive.
    { intros k Hk. destruct (lookup_lt_is_Some_2 xs k Hk) as [x Hx]. exists x. apply cells_item with xs; [done..|lia]. }
    destruct (Nat.ltb_spec (begin_ d) (end_ d)) as [Hlt|Hge].
    + assert (end_ d = begin_ d + length xs)%nat as He by ring_lia. unfold MoveRange.
      rewrite !check_index_ok, !bind_ret by lia. replace (end_ d - begin_ d)%nat with (length xs) by lia.
      destruct (move_loop_ok (length xs) (buffer_ d) nb (begin_ d) 0) as (f' & t' & -> & _ & Ht' & Hj & _).
      { intros k Hk. destruct (Hlive k Hk) as [x Hx]. exists x. rewrite <-Hx. f_equal. ring_lia. } { lia. }
      rewrite !bind_ret. apply Hfin; [lia|]. intros i Hi. rewrite Hj. simpl.
      destruct (Nat.ltb_spec i (length xs)); [|by apply Hnone].
      rewrite Nat.sub_0_r, <-Hc by lia. f_equal. ring_lia.
    + destruct (Nat.ltb_spec (end_ d) (begin_ d)) as [Hlt'|Hge'].
      * set (c := length (buffer_ d)) in *.
        assert (length xs = (c - begin_ d) + end_ d)%nat as Hn' by ring_lia. unfold MoveRange.
        rewrite !check_index_ok, !bind_ret by (unfold c in *; lia). fold c.
        destruct (move_loop_ok (c - begin_ d) (buffer_ d) nb (begin_ d) 0) as (f1 & t1 & -> & Hf1 & Ht1 & Hj1 & Hp1).
        { intros k Hk. destruct (Hlive k ltac:(lia)) as [x Hx]. exists x. rewrite <-Hx. f_equal. ring_lia. } { lia. }
        rewrite bind_ret, !check_index_ok, !bind_ret by (rewrite Hf1; unfold c in *; lia). rewrite Nat.sub_0_r.
        destruct (move_loop_ok (end_ d) f1 t1 0 (c - begin_ d)) as (f2 & t2 & -> & _ & Ht2 & Hj2 & _).
        { intros k Hk. simpl. rewrite Hp1 by lia. destruct (Hlive (c - begin_ d + k)%nat ltac:(lia)) as [x Hx].
          exists x. rewrite <-Hx. f_equal. ring_lia. } { lia. }
        rewrite !bind_ret, <-Hn'. apply Hfin; [lia|]. intros i Hi. rewrite Hj2, Hj1. simpl.
        destruct (Nat.leb_spec (c - begin_ d) i), (Nat.ltb_spec i (c - begin_ d + end_ d)), (Nat.ltb_spec i (c - begin_ d));
          simpl; try lia; try (apply Hnone; lia).
        -- rewrite Hp1 by lia. rewrite <-Hc by (unfold c in *; lia). fold c. f_equal. ring_lia.
        -- rewrite Nat.sub_0_r, <-Hc by (unfold c in *; lia). fold c. f_equal. ring_lia.
      * assert (xs = []) as -> by (apply length_zero_iff_nil; ring_lia).
        rewrite bind_ret. apply Hfin; [done|]. intros i Hi. apply Hnone; simpl; lia.
Qed.

Lemma rep_max_cells d xs : rep d xs → (internal_capacity d ≤ max_cells)%nat.
Proof. intros [(Hb & _)|(_ & H2 & _)]; [unfold internal_capacity; rewrite Hb; simpl|]; lia. Qed.

Lemma rep_capacity_max d xs : rep d xs → (capacity d ≤ max_cells)%nat.
Proof. intros Hr%rep_max_cells. unfold capacity. case_match; lia. Qed.

Lemma Expand_ok d xs k :
  rep d xs → (0 < k)%nat → fits (length xs + k) = true →
  ∃ d', ExpandCapacityIfNecessary d k = Ret d' ∧ rep_full d' xs ∧ (length xs + k ≤ capacity d')%nat ∧
        generation_ d' = generation_ d.
Proof.
  intros Hr Hk Hfit%fits_cells. pose proof (rep_capacity_max d xs Hr).
  unfold ExpandCapacityIfNecessary. rewrite (rep_size _ _ Hr), size_add_small by lia.
  destruct (Nat.leb_spec (length xs + k) (capacity d)) as [Hle|Hgt].
  - exists d. split_and!; try done. destruct Hr as [(Hb & _)|]; [|done].
    unfold capacity, internal_capacity in Hle. rewrite Hb in Hle. simpl in Hle. lia.
  - pose proof (Nat.Div0.div_le_mono (capacity d) (length xs + k) 4 ltac:(lia)).
    rewrite size_add_small by lia.
    destruct (SetCapacityTo_ok d xs (Nat.max (Nat.max (length xs + k) kCircularBufferInitialCapacity)
        (capacity d + capacity d / 4)) Hr) as (d' & -> & Hf & Hcap & Hg);
      [lia|unfold kCircularBufferInitialCapacity; lia|].
    exists d'. split_and!; try done. lia.
Qed.

Lemma Shrink_ok d xs :
  rep_full d xs →
  ∃ d', ShrinkCapacityIfNecessary d = Ret d' ∧ rep_full d' xs ∧ generation_ d' = generation_ d.
Proof.
  intros Hr. assert (rep d xs) as Hr' by (by right). unfold ShrinkCapacityIfNecessary.
  destruct (Nat.leb_spec (capacity d) kCircularBufferInitialCapacity); [by exists d|].
  pose proof (rep_capacity_max d xs Hr') as Hmax. pose proof (rep_max_cells d xs Hr').
  rewrite (rep_size _ _ Hr'). destruct (Nat.ltb_spec (capacity d - length xs) (length xs)); [by exists d|].
  assert (length xs + length xs / 4 ≤ capacity d)%nat.
  { pose proof (Nat.Div0.div_le_upper_bound (length xs) 4 (length xs) ltac:(lia)). lia. }
  rewrite size_add_small by lia.
  destruct (Nat.ltb_spec (Nat.max kCircularBufferInitialCapacity (length xs + length xs / 4)) (capacity d)); [|by exists d].
  destruct (SetCapacityTo_ok d xs (Nat.max kCircularBufferInitialCapacity (length xs + length xs / 4)) Hr')
    as (d' & -> & Hf & _ & Hg); [lia..|]. by exists d'.
Qed.

(** ** Iterators and accessors *)

Lemma CheckValidIndex_ok d n i :
  shape d n → (i < n)%nat → CheckValidIndex d (ring (internal_capacity d) (begin_ d + i)) = Ret tt.
Proof.
  intros (H1 & H2 & H3) Hi. unfold CheckValidIndex. destruct (Nat.leb_spec (begin_ d) (end_ d)); apply dcheck_pass.
  - apply andb_true_iff. rewrite Nat.leb_le, Nat.ltb_lt. ring_lia.
  - apply orb_true_iff. rewrite andb_true_iff, Nat.leb_le, !Nat.ltb_lt. ring_lia.
Qed.

Lemma CheckValidIndexOrEnd_ok d n i :
  shape d n → (i ≤ n)%nat → CheckValidIndexOrEnd d (ring (internal_capacity d) (begin_ d + i)) = Ret tt.
Proof.
  intros Hr Hi. unfold CheckValidIndexOrEnd. destruct (negb _) eqn:E; [|done].
  apply (CheckValidIndex_ok d n); [done|]. destruct Hr as (_ & _ & H3).
  apply negb_true_iff, Nat.eqb_neq in E. destruct (decide (i = n)) as [->|]; [|lia]. by rewrite H3 in E.
Qed.

(** The iterator at offset [i]. *)
Definition iter_at d (i : nat) : iterator := iter d (ring (internal_capacity d) (begin_ d + i)).

Lemma OffsetFromBegin_at d i :
  (begin_ d < internal_capacity d)%nat → (i < internal_capacity d)%nat → OffsetFromBegin d (iter_at d i) = i.
Proof. intros. unfold OffsetFromBegin, iter_at, iter. simpl. ring_lia. Qed.

Lemma usage_ok d i : CheckUnstableUsage d (iter_at d i) = Ret tt.
Proof. apply dcheck_pass, Nat.eqb_refl. Qed.

Lemma iter_deref_ok d xs i x : rep_full d xs → xs !! i = Some x → iter_deref d (iter_at d i) = Ret x.
Proof.
  intros Hr Hx. unfold iter_deref. pose proof (lookup_lt_Some _ _ _ Hx).
  rewrite usage_ok, bind_ret. simpl index_.
  apply rep_full_shape in Hr as [Hs Hc]. rewrite (CheckValidIndex_ok d (length xs)), bind_ret by done.
  destruct Hs as (_ & H2 & _). apply read_ok, cells_item with xs; [done..|]. unfold internal_capacity in *. lia.
Qed.

Lemma Decrement_ok d n i :
  shape d n → (i < n)%nat → Decrement d (iter_at d (S i)) = Ret (iter_at d i).
Proof.
  intros Hr Hi. unfold Decrement. rewrite usage_ok, bind_ret. simpl index_.
  rewrite (CheckValidIndexOrEnd_ok d n), bind_ret by (done || lia).
  destruct Hr as (H1 & H2 & _). unfold iter_at, iter. simpl. do 2 f_equal. ring_lia.
Qed.

Lemma Increment_ok d n i :
  shape d n → (i < n)%nat → Increment d (iter_at d i) = Ret (iter_at d (S i)).
Proof.
  intros Hr Hi. unfold Increment. rewrite usage_ok, bind_ret. simpl index_.
  rewrite (CheckValidIndex_ok d n), bind_ret by done.
  destruct Hr as (H1 & H2 & _). unfold iter_at, iter. simpl. do 2 f_equal. ring_lia.
Qed.

Lemma deque_end_at d n : shape d n → deque_end d = iter_at d n.
Proof. intros (_ & _ & H3). unfold deque_end, iter_at. by rewrite H3. Qed.

Lemma deque_begin_at d : (begin_ d < internal_capacity d)%nat → deque_begin d = iter_at d 0.
Proof. intros. unfold deque_begin, iter_at. f_equal. ring_lia. Qed.

Lemma front_ok d x xs : rep_full d (x :: xs) → front d = Ret x.
Proof.
  intros Hr. unfold front. rewrite (rep_empty d (x :: xs)) by (by right). pass.
  destruct Hr as (H1 & H2 & _ & Hc). apply read_ok. rewrite <-(cells_item _ _ _ 0 x Hc) by (done || unfold internal_capacity in *; lia).
  f_equal. unfold internal_capacity in *. ring_lia.
Qed.

Lemma back_ok d xs x : rep_full d (xs ++ [x]) → back d = Ret x.
Proof.
  intros Hr. unfold back. rewrite (rep_empty d (xs ++ [x])) by (by right).
  assert (negb (match xs ++ [x] with [] => true | _ => false end) = true) as -> by (by destruct xs). pass.
  pose proof Hr as [Hs _]%rep_full_shape. rewrite length_app, Nat.add_1_r in Hs.
  rewrite (deque_end_at d (S (length xs))) by done.
  rewrite (Decrement_ok d (S (length xs))), bind_ret by (done || lia).
  apply (iter_deref_ok d (xs ++ [x])); [done|]. by rewrite lookup_app_r, Nat.sub_diag.
Qed.

Lemma at_ok d xs i x : rep d xs → xs !! i = Some x → at_ d i = Ret x.
Proof.
  intros Hr Hx. pose proof (lookup_lt_Some _ _ _ Hx). unfold at_. rewrite (rep_size _ _ Hr).
  rewrite dcheck_pass, bind_ret by (by apply Nat.ltb_lt).
  destruct Hr as [(_ & _ & ->)|(H1 & H2 & H3 & Hc)]; [done|].
  pose proof (cells_item _ _ _ i x Hc Hx) as Hi. unfold internal_capacity in *. specialize (Hi ltac:(lia)).
  rewrite size_add_small by lia. destruct (_ || _) eqn:E; apply read_ok; rewrite <-Hi; f_equal.
  - apply orb_true_iff in E. rewrite Nat.leb_le, Nat.ltb_lt in E. ring_lia.
  - apply orb_false_iff in E as [?%Nat.leb_gt ?%Nat.ltb_ge]. ring_lia.
Qed.

(** ** Operations at the ends *)

Lemma rep_full_generation d xs : rep_full (IncrementGeneration d) xs ↔ rep_full d xs.
Proof. done. Qed.

Lemma emplace_back_ok d xs v :
  rep d xs → fits (length xs + 1) = true → ∃ d', emplace_back d v = Ret d' ∧ rep_full d' (xs ++ [v]).
Proof.
  intros Hr Hfit. destruct (Expand_ok d xs 1 Hr ltac:(lia) Hfit) as (d1 & E1 & (H1 & H2 & H3 & Hc) & Hcap & _).
  unfold emplace_back. rewrite E1, bind_ret. unfold capacity in Hcap. unfold internal_capacity in *.
  destruct (Nat.eqb_spec (length (buffer_ d1)) 0); [lia|].
  assert (end_ d1 < length (buffer_ d1))%nat by (rewrite H3; apply ring_lt; lia).
  rewrite construct_ok, bind_ret by done.
  set (d2 := IncrementGeneration _).
  assert (rep_full d2 (xs ++ [v])) as Hr2.
  { unfold d2. apply rep_full_generation. split_and!; unfold internal_capacity; simpl; rewrite ?length_insert, ?length_app; simpl; try lia.
    - ring_lia.
    - rewrite H3. apply cells_insert with xs; try done; try lia.
      + by rewrite lookup_app_r, Nat.sub_diag.
      + intros i Hi Hne. destruct (Nat.lt_ge_cases i (length xs)); [by rewrite lookup_app_l|].
        rewrite !lookup_ge_None_2; [done|lia|rewrite length_app; simpl; lia]. }
  rewrite (back_ok d2 xs v Hr2), bind_ret. by exists d2.
Qed.

Lemma emplace_front_ok d xs v :
  rep d xs → fits (length xs + 1) = true → ∃ d', emplace_front d v = Ret d' ∧ rep_full d' (v :: xs).
Proof.
  intros Hr Hfit. destruct (Expand_ok d xs 1 Hr ltac:(lia) Hfit) as (d1 & E1 & (H1 & H2 & H3 & Hc) & Hcap & _).
  unfold emplace_front. rewrite E1, bind_ret. unfold capacity in Hcap. unfold internal_capacity in *.
  destruct (Nat.eqb_spec (length (buffer_ d1)) 0); [lia|].
  set (bg := if (begin_ d1 =? 0)%nat then _ else _). simpl.
  assert (bg < length (buffer_ d1))%nat by (unfold bg; zcase; lia).
  rewrite construct_ok, bind_ret by done.
  match goal with |- context [front ?x] => set (d2 := x) end.
  assert (rep_full d2 (v :: xs)) as Hr2.
  { unfold d2. split_and!; unfold internal_capacity; simpl; rewrite ?length_insert; try lia.
    - rewrite H3. unfold bg. ring_lia.
    - intros i. rewrite length_insert. intros Hi. destruct i as [|i].
      + replace (ring (length (buffer_ d1)) (bg + 0)) with bg by ring_lia. by rewrite list_lookup_insert_eq.
      + rewrite list_lookup_insert_ne by ring_lia. simpl. rewrite <-Hc by lia. f_equal. unfold bg. ring_lia. }
  rewrite (front_ok d2 v xs Hr2), bind_ret. by exists d2.
Qed.

(** Destroying the object at offset [k]. *)
Lemma DestructRange_one b bg xs k :
  cells_ok b bg xs → (bg < length b)%nat → (k < length xs)%nat → (length xs ≤ length b)%nat →
  DestructRange_buffer b (ring (length b) (bg + k)) (ring (length b) (bg + k) + 1) =
  Ret (<[ring (length b) (bg + k) := None]> b).
Proof.
  intros Hc Hbg Hk Hl. destruct (lookup_lt_is_Some_2 xs k Hk) as [x Hx].
  pose proof (cells_item b bg xs k x Hc Hx ltac:(lia)) as Hi. set (p := ring _ _) in *.
  pose proof (lookup_lt_Some _ _ _ Hi). unfold DestructRange_buffer.
  rewrite !check_index_ok, !bind_ret by lia. rewrite check_pass, bind_ret by (apply Nat.leb_le; lia).
  replace (p + 1 - p)%nat with 1%nat by lia. simpl. by rewrite (object_ok _ _ _ Hi).
Qed.

Lemma pop_front_ok d x xs : rep d (x :: xs) → ∃ d', pop_front d = Ret d' ∧ rep_full d' xs.
Proof.
  intros Hr. unfold pop_front. rewrite (rep_size _ _ Hr). pass.
  destruct Hr as [(_ & _ & ?)|(H1 & H2 & H3 & Hc)]; [done|]. unfold internal_capacity in *. simpl length in *.
  pose proof (DestructRange_one _ _ _ 0 Hc H1 ltac:(simpl; lia) ltac:(simpl; lia)) as Ed.
  replace (ring _ (begin_ d + 0)) with (begin_ d) in Ed by ring_lia. rewrite Ed, bind_ret.
  set (bg := if (begin_ d + 1 =? _)%nat then _ else _).
  match goal with |- context [ShrinkCapacityIfNecessary ?y] => set (d1 := y) end.
  assert (rep_full d1 xs) as Hr1.
  { unfold d1. split_and!; unfold internal_capacity; simpl; rewrite ?length_insert; try solve [unfold bg; ring_lia].
    intros i. rewrite length_insert. intros Hi. destruct (decide (i = length (buffer_ d) - 1)%nat) as [->|Hne].
    - replace (ring _ _) with (begin_ d) by (unfold bg; ring_lia). rewrite list_lookup_insert_eq by done.
      rewrite lookup_ge_None_2 by lia. done.
    - rewrite list_lookup_insert_ne by (unfold bg; ring_lia).
      change (xs !! i) with ((x :: xs) !! S i). rewrite <-Hc by lia. f_equal. unfold bg. ring_lia. }
  destruct (Shrink_ok d1 xs Hr1) as (d2 & -> & Hr2 & _). rewrite bind_ret. by eexists.
Qed.

Lemma pop_back_ok d xs x : rep d (xs ++ [x]) → ∃ d', pop_back d = Ret d' ∧ rep_full d' xs.
Proof.
  intros Hr. unfold pop_back. rewrite (rep_size _ _ Hr), length_app. simpl.
  rewrite dcheck_pass, bind_ret by (apply negb_true_iff, Nat.eqb_neq; lia).
  destruct Hr as [(_ & _ & ?)|(H1 & H2 & H3 & Hc)]; [by destruct xs|].
  unfold internal_capacity in *. rewrite length_app in *. simpl length in *.
  set (en := if (end_ d =? 0)%nat then _ else _).
  assert (en = ring (length (buffer_ d)) (begin_ d + length xs)) as Een by (unfold en; rewrite H3; ring_lia).
  pose proof (DestructRange_one _ _ _ (length xs) Hc H1) as Ed. rewrite length_app in Ed. simpl in Ed.
  rewrite Een, Ed, bind_ret by lia.
  match goal with |- context [ShrinkCapacityIfNecessary ?y] => set (d1 := y) end.
  assert (rep_full d1 xs) as Hr1.
  { unfold d1. split_and!; unfold internal_capacity; simpl; rewrite ?length_insert; try done; try lia.
    apply cells_insert with (xs ++ [x]); try done; try lia; [by apply lookup_ge_None_2|].
    intros i Hi Hne. destruct (Nat.lt_ge_cases i (length xs)); [by rewrite lookup_app_l|].
    rewrite !lookup_ge_None_2; [done|rewrite length_app; simpl; lia|lia]. }
  destruct (Shrink_ok d1 xs Hr1) as (d2 & -> & Hr2 & _). rewrite bind_ret. by eexists.
Qed.

(** ** Destroying a range *)

(** The two ways [DestructRange] and [erase] destroy the items between two
    different indices. *)
Definition destroy_between b (p q : nat) : outcome (list (option T)) :=
  if (p <? q)%nat then DestructRange_buffer b p q
  else b ← DestructRange_buffer b p (length b); DestructRange_buffer b 0 q.

Lemma DestructRange_buffer_ok b p q :
  (p ≤ q ≤ length b)%nat → (∀ k, (p ≤ k < q)%nat → ∃ x, b !! k = Some (Some x)) →
  ∃ b', DestructRange_buffer b p q = Ret b' ∧ length b' = length b ∧
    ∀ k, b' !! k = if (p <=? k)%nat && (k <? q)%nat then Some None else b !! k.
Proof.
  intros Hpq Hlive. unfold DestructRange_buffer. rewrite !check_index_ok, !bind_ret by lia.
  rewrite check_pass, bind_ret by (apply Nat.leb_le; lia).
  destruct (destruct_loop_ok (q - p) b p) as (b' & -> & Hl & Hk).
  { intros k Hk. apply Hlive. lia. }
  exists b'. split_and!; [done..|]. intros k. rewrite Hk. by replace (p + (q - p))%nat with q by lia.
Qed.

Lemma destroy_between_ok b bg xs j m :
  cells_ok b bg xs → (bg < length b)%nat → (j < m ≤ length xs)%nat → (length xs < length b)%nat →
  ∃ b', destroy_between b (ring (length b) (bg + j)) (ring (length b) (bg + m)) = Ret b' ∧
    length b' = length b ∧
    ∀ i, (i < length b)%nat → b' !! ring (length b) (bg + i) =
      Some (if (j <=? i)%nat && (i <? m)%nat then None else xs !! i).
Proof.
  intros Hc Hbg Hj Hl. unfold destroy_between. set (c := length b) in *.
  assert (∀ i, (i < length xs)%nat → ∃ x, b !! ring c (bg + i) = Some (Some x)) as Hlive.
  { intros i Hi. destruct (lookup_lt_is_Some_2 xs i Hi) as [x Hx]. exists x. apply cells_item with xs; [done..|lia]. }
  assert (∀ k, (k < c)%nat → (k = ring c (bg + (if (bg <=? k)%nat then k - bg else c - bg + k)))%nat) as Hoff by (intros; ring_lia).
  assert (∀ k, (k < c)%nat → ((if (bg <=? k)%nat then k - bg else c - bg + k) < length xs)%nat →
             ∃ x, b !! k = Some (Some x)) as Hlive'.
  { intros k Hk Ho. rewrite (Hoff k Hk). by apply Hlive. }
  destruct (Nat.ltb_spec (ring c (bg + j)) (ring c (bg + m))) as [Hlt|Hge].
  - destruct (DestructRange_buffer_ok b (ring c (bg + j)) (ring c (bg + m))) as (b' & -> & Hb' & Hk).
    { pose proof (ring_lt c (bg + m)). unfold c in *. lia. }
    { intros k Hk. apply Hlive'; ring_lia. }
    exists b'. split_and!; [done..|]. intros i Hi. rewrite Hk, Hc by done.
    destruct (Nat.leb_spec (ring c (bg + j)) (ring c (bg + i))), (Nat.ltb_spec (ring c (bg + i)) (ring c (bg + m))),
      (Nat.leb_spec j i), (Nat.ltb_spec i m); simpl; try done; exfalso; ring_lia.
  - destruct (DestructRange_buffer_ok b (ring c (bg + j)) c) as (b1 & -> & Hb1 & Hk1).
    { pose proof (ring_lt c (bg + j)). unfold c in *. lia. }
    { intros k Hk. apply Hlive'; ring_lia. }
    rewrite bind_ret.
    destruct (DestructRange_buffer_ok b1 0 (ring c (bg + m))) as (b2 & -> & Hb2 & Hk2).
    { pose proof (ring_lt c (bg + m)). unfold c in *. lia. }
    { intros k Hk. rewrite Hk1. destruct (Nat.leb_spec (ring c (bg + j)) k); [exfalso; ring_lia|]. simpl. apply Hlive'; ring_lia. }
    exists b2. split_and!; [done|lia|]. intros i Hi. rewrite Hk2, Hk1, Hc by done. simpl.
    destruct (Nat.leb_spec (ring c (bg + j)) (ring c (bg + i))), (Nat.ltb_spec (ring c (bg + i)) (ring c (bg + m))),
      (Nat.ltb_spec (ring c (bg + i)) c), (Nat.leb_spec j i), (Nat.ltb_spec i m); simpl; try done; exfalso; ring_lia.
Qed.

(** Destroying the last items and moving the end there. *)
Lemma truncate_ok d xs n :
  rep_full d xs → (n ≤ length xs)%nat →
  ∃ d', DestructRange d (ring (internal_capacity d) (begin_ d + n)) (end_ d) = Ret d' ∧
    generation_ d' = generation_ d ∧ begin_ d' = begin_ d ∧ internal_capacity d' = internal_capacity d ∧
    cells_ok (buffer_ d') (begin_ d) (take n xs).
Proof.
  intros (H1 & H2 & H3 & Hc) Hn. unfold DestructRange, internal_capacity in *. rewrite H3.
  destruct (Nat.eqb_spec (ring (length (buffer_ d)) (begin_ d + length xs)) (ring (length (buffer_ d)) (begin_ d + n))) as [E|E].
  { assert (n = length xs) as -> by ring_lia. exists d. rewrite take_ge by lia. done. }
  destruct (destroy_between_ok (buffer_ d) (begin_ d) xs n (length xs) Hc H1) as (b' & Eb & Hl & Hcells); [|lia|].
  { assert (n ≠ length xs) by (intros ->; done). lia. }
  assert ((if (ring (length (buffer_ d)) (begin_ d + n) <? ring (length (buffer_ d)) (begin_ d + length xs))%nat
     then b ← DestructRange_buffer (buffer_ d) (ring (length (buffer_ d)) (begin_ d + n)) (ring (length (buffer_ d)) (begin_ d + length xs));
          Ret (set_buffer d b)
     else b ← DestructRange_buffer (buffer_ d) (ring (length (buffer_ d)) (begin_ d + n)) (length (buffer_ d));
          b ← DestructRange_buffer b 0 (ring (length (buffer_ d)) (begin_ d + length xs)); Ret (set_buffer d b))
     = Ret (set_buffer d b')) as ->.
  { unfold destroy_between in Eb. destruct (_ <? _)%nat; [by rewrite Eb|].
    apply bind_returns in Eb as (b1 & -> & Eb). by rewrite bind_ret, Eb. }
  eexists. split; [done|]. split_and!; try done. simpl. intros i. rewrite Hl. intros Hi. rewrite Hcells by done.
  f_equal. destruct (Nat.leb_spec n i), (Nat.ltb_spec i (length xs)); simpl; try lia.
  - by rewrite lookup_take_ge.
  - by rewrite lookup_take_ge, lookup_ge_None_2 by lia.
  - by rewrite lookup_take_lt.
Qed.

Lemma ClearRetainCapacity_ok d xs :
  rep d xs → ∃ d', ClearRetainCapacity d = Ret d' ∧ rep d' [] ∧ internal_capacity d' = internal_capacity d ∧
                   begin_ d' = 0%nat ∧ end_ d' = 0%nat.
Proof.
  intros [(Hb & He & ->)|Hr]; unfold ClearRetainCapacity.
  - unfold DestructRange. rewrite He, Nat.eqb_refl, bind_ret. eexists. split; [done|].
    split_and!; try done. left. by split_and!.
  - destruct (truncate_ok d xs 0 Hr ltac:(lia)) as (d' & E & Hg & Hb & Hcap & Hc).
    pose proof Hr as (H1 & H2 & _). rewrite Nat.add_0_r in E.
    replace (ring (internal_capacity d) (begin_ d)) with (begin_ d) in E by ring_lia.
    rewrite E, bind_ret. eexists. split; [done|]. split_and!; try done. right.
    unfold internal_capacity in *. split_and!; unfold internal_capacity; simpl; try lia; [ring_lia|].
    intros i Hi. simpl. simpl take in Hc.
    specialize (Hc (if (begin_ d <=? i)%nat then i - begin_ d else length (buffer_ d') - begin_ d + i)%nat).
    rewrite lookup_nil in *. replace (ring (length (buffer_ d')) i) with i by ring_lia.
    rewrite <-Hc by ring_lia. f_equal. ring_lia.
Qed.

Lemma clear_ok d xs : rep d xs → ∃ d', clear d = Ret d' ∧ rep d' [] ∧ capacity d' = 0%nat.
Proof.
  intros Hr. unfold clear. destruct (ClearRetainCapacity_ok d xs Hr) as (d' & -> & Hr' & _ & Hb & He).
  rewrite bind_ret. eexists. split; [done|]. split; [|done]. left. split_and!; simpl; congruence.
Qed.

Lemma reserve_ok d xs n :
  rep d xs → fits n = true →
  ∃ d', reserve d n = Ret d' ∧ rep d' xs ∧ (n ≤ capacity d')%nat ∧ generation_ d' = generation_ d.
Proof.
  intros Hr Hfit%fits_cells. unfold reserve. destruct (Nat.ltb_spec (capacity d) n).
  - pose proof (rep_capacity _ _ Hr). destruct (SetCapacityTo_ok d xs n Hr) as (d' & -> & Hf & Hcap & Hg); [lia..|].
    exists d'. split_and!; try done; [by right|lia].
  - exists d. by split_and!.
Qed.

Lemma shrink_to_fit_ok d xs :
  rep d xs → ∃ d', shrink_to_fit d = Ret d' ∧ rep d' xs ∧ capacity d' = length xs.
Proof.
  intros Hr. unfold shrink_to_fit. rewrite (rep_empty _ _ Hr). destruct xs as [|x xs].
  - assert (begin_ d = end_ d) as He.
    { destruct Hr as [(_ & ? & _)|(H1 & H2 & H3 & _)]; [done|]. rewrite H3. simpl. ring_lia. }
    destruct (Nat.eqb_spec (internal_capacity d) 0) as [E|E]; eexists; (split; [done|]).
    + unfold capacity. rewrite E. split; [|done]. left. split_and!; try done.
      unfold internal_capacity in E. by apply length_zero_iff_nil in E.
    + split; [|done]. left. by split_and!.
  - assert (length (x :: xs) + 1 ≤ max_cells)%nat as Hmax by (destruct Hr as [(_ & _ & ?)|(_ & H2 & _)]; [done|lia]).
    rewrite (rep_size _ _ Hr). destruct (SetCapacityTo_ok d (x :: xs) (length (x :: xs)) Hr) as (d' & -> & Hf & Hcap & _); [lia..|].
    exists d'. split_and!; try done. by right.
Qed.

Lemma resize_loop_ok fuel : ∀ d xs n v,
  rep d xs → fits n = true → (n ≤ length xs + fuel)%nat → (length xs ≤ n)%nat →
  ∃ d', resize_loop fuel d n v = Ret d' ∧ rep d' (xs ++ replicate (n - length xs) v).
Proof.
  induction fuel as [|fuel IH]; intros d xs n v Hr Hfit Hf Hn; simpl.
  { exists d. split; [done|]. replace (n - length xs)%nat with 0%nat by lia. by rewrite app_nil_r. }
  rewrite (rep_size _ _ Hr). destruct (Nat.ltb_spec (length xs) n).
  - destruct (emplace_back_ok d xs v Hr) as (d1 & -> & Hr1); [apply fits_le with n; [lia|done]|]. rewrite bind_ret.
    destruct (IH d1 (xs ++ [v]) n v) as (d2 & -> & Hr2); [by right|done|rewrite length_app; simpl; lia..|].
    exists d2. split; [done|]. rewrite length_app, <-app_assoc in Hr2. simpl in Hr2.
    by replace (n - length xs)%nat with (S (n - (length xs + 1)))%nat by lia.
  - exists d. split; [done|]. replace (n - length xs)%nat with 0%nat by lia. by rewrite app_nil_r.
Qed.

Lemma rep_generation d xs : rep (IncrementGeneration d) xs ↔ rep d xs.
Proof. done. Qed.

Lemma resize_ok d xs n v :
  rep d xs → fits n = true → ∃ d', resize d n v = Ret d' ∧ rep d' (take n xs ++ replicate (n - length xs) v).
Proof.
  intros Hr Hfit. unfold resize. rewrite (rep_size _ _ Hr). destruct (Nat.ltb_spec (length xs) n) as [Hlt|Hge].
  - destruct (Expand_ok d xs (n - length xs) Hr ltac:(lia)) as (d1 & -> & Hr1 & _); [apply fits_le with n; [lia|done]|].
    rewrite bind_ret. destruct (resize_loop_ok n d1 xs n v) as (d2 & -> & Hr2); [by right|done|lia..|]. rewrite bind_ret.
    eexists. split; [done|]. apply rep_generation. by rewrite take_ge by lia.
  - destruct (Nat.ltb_spec n (length xs)) as [Hlt|Hge'].
    + destruct Hr as [(_ & _ & ->)|Hr]; [simpl in Hlt; lia|]. pose proof Hr as (H1 & H2 & H3 & Hc).
      rewrite size_add_small, ring_mod by lia.
      destruct (truncate_ok d xs n Hr ltac:(lia)) as (d1 & -> & Hg & Hb & Hcap & Hc1). rewrite bind_ret.
      match goal with |- context [ShrinkCapacityIfNecessary ?y] => set (d2 := y) end.
      assert (rep_full d2 (take n xs)) as Hr2.
      { unfold d2. split_and!; simpl; rewrite ?length_take, ?Nat.min_l by lia; unfold internal_capacity in *; simpl.
        - lia. - lia. - lia. - by rewrite Hb, Hcap. - by rewrite Hb. }
      destruct (Shrink_ok d2 _ Hr2) as (d3 & -> & Hr3 & _). rewrite bind_ret.
      eexists. split; [done|]. right. replace (n - length xs)%nat with 0%nat by lia. by rewrite app_nil_r.
    + rewrite bind_ret. eexists. split; [done|]. apply rep_generation.
      replace (n - length xs)%nat with 0%nat by lia. rewrite app_nil_r. by rewrite take_ge by lia.
Qed.

Lemma emplace_back_all_ok items : ∀ d xs,
  rep d xs → fits (length xs + length items) = true →
  ∃ d', emplace_back_all d items = Ret d' ∧ rep d' (xs ++ items).
Proof.
  induction items as [|x items IH]; intros d xs Hr Hfit; simpl in *; [exists d; by rewrite app_nil_r|].
  destruct (emplace_back_ok d xs x Hr) as (d1 & -> & Hr1); [eapply fits_le; [|exact Hfit]; lia|]. rewrite bind_ret.
  destruct (IH d1 (xs ++ [x])) as (d2 & -> & Hr2); [by right|by rewrite length_app, <-Nat.add_assoc|].
  exists d2. by rewrite <-app_assoc in Hr2.
Qed.

Lemma assign_ok d xs items :
  rep d xs → fits (length items) = true → ∃ d', assign d items = Ret d' ∧ rep d' items.
Proof.
  intros Hr Hfit. unfold assign. destruct (ClearRetainCapacity_ok d xs Hr) as (d1 & -> & Hr1 & _). rewrite bind_ret.
  destruct (emplace_back_all_ok items d1 [] Hr1 Hfit) as (d2 & -> & Hr2). rewrite bind_ret. by eexists.
Qed.

(** ** Insertion and erasure in the middle *)

(** The cell [i] places after [bg] holds [f i]. *)
Definition cells_are b (bg : nat) (f : nat → option T) : Prop :=
  ∀ i, (i < length b)%nat → b !! ring (length b) (bg + i) = Some (f i).

Lemma cells_are_update b bg f k c :
  cells_are b bg f → (bg < length b)%nat → (k < length b)%nat →
  cells_are (<[ring (length b) (bg + k) := c]> b) bg (λ i, if (i =? k)%nat then c else f i).
Proof.
  intros Hc Hbg Hk i. rewrite length_insert. intros Hi. destruct (Nat.eqb_spec i k) as [->|Hne].
  - by rewrite list_lookup_insert_eq by (apply ring_lt; lia).
  - rewrite list_lookup_insert_ne by ring_lia. by apply Hc.
Qed.

Lemma cells_are_ext b bg f g :
  cells_are b bg f → (∀ i, (i < length b)%nat → f i = g i) → cells_are b bg g.
Proof. intros Hc E i Hi. by rewrite Hc, E. Qed.

(** Moving the item at offset [j] to the empty cell at offset [k]. *)
Lemma MoveRange_one_ok b bg f j k x :
  cells_are b bg f → (bg < length b)%nat → (j < length b)%nat → (k < length b)%nat → j ≠ k → f j = Some x →
  ∃ b', MoveRange_one b (ring (length b) (bg + j)) (ring (length b) (bg + k)) = Ret b' ∧ length b' = length b ∧
    cells_are b' bg (λ i, if (i =? k)%nat then Some x else if (i =? j)%nat then None else f i).
Proof.
  intros Hc Hbg Hj Hk Hne Hx. unfold MoveRange_one.
  pose proof (ring_lt (length b) (bg + j) ltac:(lia)). pose proof (ring_lt (length b) (bg + k) ltac:(lia)).
  rewrite !check_index_ok, !bind_ret by lia.
  rewrite check_pass, bind_ret by (apply negb_true_iff, Nat.eqb_neq; ring_lia).
  rewrite (object_ok _ _ x), bind_ret by (by rewrite Hc, Hx). rewrite construct_ok by (by rewrite length_insert).
  eexists. split; [done|]. rewrite !length_insert. split; [done|].
  pose proof (cells_are_update b bg f j None Hc Hbg Hj) as H1.
  pose proof (cells_are_update _ bg _ k (Some x) H1) as H2. rewrite length_insert in H2. by apply H2.
Qed.

Lemma shape_set_buffer d b n : length b = length (buffer_ d) → shape d n → shape (set_buffer d b) n.
Proof. unfold shape, internal_capacity. simpl. by intros ->. Qed.

Lemma iter_at_set_buffer d b i : length b = length (buffer_ d) → iter_at (set_buffer d b) i = iter_at d i.
Proof. unfold iter_at, internal_capacity. simpl. by intros ->. Qed.

Lemma iter_eq_at d i j :
  (begin_ d < internal_capacity d)%nat → (i < internal_capacity d)%nat → (j < internal_capacity d)%nat →
  iter_eq (iter_at d i) (iter_at d j) = Ret (i =? j)%nat.
Proof.
  intros. unfold iter_eq, CheckComparable. simpl. rewrite Nat.eqb_refl. pass. f_equal.
  destruct (Nat.eqb_spec i j) as [->|]; [by rewrite Nat.eqb_refl|]. apply Nat.eqb_neq. ring_lia.
Qed.

Lemma iter_lt_at d i j :
  (begin_ d < internal_capacity d)%nat → (i < internal_capacity d)%nat → (j < internal_capacity d)%nat →
  iter_lt d (iter_at d i) (iter_at d j) = Ret (i <? j)%nat.
Proof.
  intros. unfold iter_lt, CheckComparable. rewrite !OffsetFromBegin_at by done. simpl. rewrite Nat.eqb_refl. by pass.
Qed.

(** The contents while items are being moved to make room: items from offset
    [j] on have moved [count] places. *)
Definition shifted xs (count j i : nat) : option T :=
  if (i <? j)%nat then xs !! i else if (i <? j + count)%nat then None else xs !! (i - count)%nat.

Lemma make_room_loop_ok xs count k fuel : ∀ d j,
  shape d (length xs + count) → (0 < count)%nat → (k ≤ j ≤ length xs)%nat → (j - k < fuel)%nat →
  cells_are (buffer_ d) (begin_ d) (shifted xs count j) →
  ∃ b, make_room_loop fuel d (iter_at d j) (iter_at d (j + count)) (iter_at d k) = Ret (set_buffer d b) ∧
       length b = length (buffer_ d) ∧ cells_are b (begin_ d) (shifted xs count k).
Proof.
  induction fuel as [|fuel IH]; intros d j Hs Hcount Hj Hf Hc; [lia|]. simpl.
  pose proof Hs as (H1 & H2 & H3).
  rewrite iter_eq_at, bind_ret by lia. destruct (Nat.eqb_spec j k) as [->|Hne].
  { exists (buffer_ d). split_and!; try done. f_equal. by destruct d. }
  destruct j as [|j]; [lia|]. simpl Nat.add.
  rewrite (Decrement_ok d _ j Hs), bind_ret by lia. rewrite (Decrement_ok d _ (j + count) Hs), bind_ret by lia.
  destruct (lookup_lt_is_Some_2 xs j) as [x Hx]; [lia|].
  destruct (MoveRange_one_ok (buffer_ d) (begin_ d) _ j (j + count) x Hc) as (b1 & Eb & Hl & Hc1);
    unfold internal_capacity in *; try lia.
  { unfold shifted. by rewrite (proj2 (Nat.ltb_lt _ _)) by lia. }
  simpl index_. unfold internal_capacity. rewrite Eb, bind_ret.
  destruct (IH (set_buffer d b1) j) as (b2 & E2 & Hl2 & Hc2); try done; try lia.
  { by apply shape_set_buffer. }
  { simpl. eapply cells_are_ext; [exact Hc1|]. intros i Hi. unfold shifted.
    repeat zcase; subst; try lia; try done.
    by replace (j + count - count)%nat with j by lia. }
  rewrite !iter_at_set_buffer in E2 by done. rewrite E2. exists b2. simpl in *. split_and!; [done|lia|done].
Qed.

(** The contents after [MakeRoomFor]: a hole of [count] cells at offset [k]. *)
Lemma MakeRoomFor_ok d xs count k :
  rep d xs → (0 < count)%nat → (k ≤ length xs)%nat → (0 < internal_capacity d)%nat →
  fits (length xs + count) = true →
  ∃ d', MakeRoomFor d count (iter_at d k) = Ret (d', iter_at d' k, iter_at d' (k + count)) ∧
    shape d' (length xs + count) ∧ cells_are (buffer_ d') (begin_ d') (shifted xs count k) ∧
    generation_ d' = generation_ d.
Proof.
  intros Hr Hcount Hk Hcap Hfit. unfold MakeRoomFor. rewrite (proj2 (Nat.eqb_neq count 0)) by lia.
  assert (OffsetFromBegin d (iter_at d k) = k) as ->.
  { destruct Hr as [(Hb & _)|(H1 & H2 & _)]; [unfold internal_capacity in Hcap; rewrite Hb in Hcap; simpl in Hcap; lia|].
    apply OffsetFromBegin_at; lia. }
  destruct (Expand_ok d xs count Hr Hcount Hfit) as (d1 & -> & Hr1 & Hc1 & Hg). rewrite bind_ret.
  pose proof Hr1 as (H1 & H2 & H3 & Hcells). unfold capacity in Hc1.
  destruct (Nat.eqb_spec (internal_capacity d1) 0); [lia|].
  assert (end_ d1 < internal_capacity d1)%nat as Hend by (rewrite H3; apply ring_lt; lia).
  pose proof (ring_lt (internal_capacity d1) (begin_ d1 + k) ltac:(lia)) as Hrk.
  rewrite (size_add_small (begin_ d1) k), (size_add_small (end_ d1) count) by lia.
  rewrite (ring_mod _ (begin_ d1 + k)), (ring_mod _ (end_ d1 + count)) by lia. simpl index_.
  rewrite size_add_small, (ring_mod _ (ring _ _ + count)) by lia.
  set (d2 := mkDeque (buffer_ d1) (begin_ d1) (ring (internal_capacity d1) (end_ d1 + count)) (generation_ d1)).
  assert (shape d2 (length xs + count)) as Hs2.
  { unfold d2. split_and!; unfold internal_capacity in *; simpl; try lia. rewrite H3. ring_lia. }
  assert (deque_end d1 = iter_at d2 (length xs)) as -> by (by unfold deque_end, iter_at, d2, internal_capacity; simpl; rewrite H3).
  rewrite (deque_end_at d2 _ Hs2).
  assert (mkIter (ring (internal_capacity d1) (begin_ d1 + k)) (created_generation_ (iter_at d k)) = iter_at d2 k) as ->.
  { unfold iter_at, iter, d2. simpl. by rewrite Hg. }
  destruct (make_room_loop_ok xs count k (S (internal_capacity d1)) d2 (length xs) Hs2) as (b & Eb & Hl & Hc2); try lia.
  { simpl. eapply cells_are_ext; [exact Hcells|]. intros i Hi. unfold shifted.
    destruct (Nat.ltb_spec i (length xs)); [done|].
    rewrite lookup_ge_None_2 by lia. destruct (Nat.ltb_spec i (length xs + count)); [done|].
    by rewrite lookup_ge_None_2 by lia. }
  rewrite Eb, bind_ret. exists (set_buffer d2 b). split_and!; try done.
  - rewrite !iter_at_set_buffer by done. do 2 f_equal. unfold iter_at, iter. simpl. f_equal.
    unfold internal_capacity in *. simpl. ring_lia.
  - by apply shape_set_buffer.
Qed.

(** Filling a hole with [items]. *)
Lemma fill_loop_ok items : ∀ d f n k,
  shape d n → (k + length items ≤ n)%nat → cells_are (buffer_ d) (begin_ d) f →
  ∃ b, fill_loop items d (iter_at d k) (iter_at d (k + length items)) = Ret (set_buffer d b) ∧
    length b = length (buffer_ d) ∧
    cells_are b (begin_ d) (λ i, if (k <=? i)%nat && (i <? k + length items)%nat then items !! (i - k)%nat else f i).
Proof.
  induction items as [|x items IH]; intros d f n k Hs Hk Hc; pose proof Hs as (H1 & H2 & H3); simpl length in *.
  - simpl. rewrite iter_lt_at, bind_ret by lia. rewrite Nat.add_0_r, Nat.ltb_irrefl.
    exists (buffer_ d). split_and!; [by destruct d|done|]. eapply cells_are_ext; [exact Hc|].
    intros i _. destruct (Nat.leb_spec k i), (Nat.ltb_spec i k); simpl; try done; lia.
  - simpl. rewrite iter_lt_at, bind_ret by lia. rewrite (proj2 (Nat.ltb_lt _ _)) by lia.
    unfold internal_capacity in *. pose proof (ring_lt (length (buffer_ d)) (begin_ d + k) ltac:(lia)).
    rewrite construct_ok, bind_ret by done.
    pose proof (cells_are_update _ _ f k (Some x) Hc H1 ltac:(lia)) as Hc1.
    set (b1 := <[_ := _]> (buffer_ d)) in *. assert (length b1 = length (buffer_ d)) as Hl1 by apply length_insert.
    rewrite <-(iter_at_set_buffer d b1 k) by done.
    rewrite (Increment_ok _ n), bind_ret by (by apply shape_set_buffer || lia).
    rewrite <-(iter_at_set_buffer d b1 (k + S (length items))) by done. rewrite <-Nat.add_succ_comm.
    destruct (IH (set_buffer d b1) (λ i, if (i =? k)%nat then Some x else f i) n (S k)) as (b2 & E2 & Hl2 & Hc2); [by apply shape_set_buffer|lia|exact Hc1|].
    rewrite E2. exists b2. cbn [buffer_ begin_ set_buffer] in Hl2, Hc2. split_and!; [done|lia|].
    eapply cells_are_ext; [exact Hc2|]. intros i Hi. cbv beta.
    destruct (Nat.eqb_spec i k) as [->|Hne].
    + rewrite (proj2 (Nat.leb_gt (S k) k)), (proj2 (Nat.leb_le k k)), (proj2 (Nat.ltb_lt k _)) by lia.
      simpl. by rewrite Nat.sub_diag.
    + destruct (Nat.leb_spec (S k) i), (Nat.ltb_spec i (S k + length items)), (Nat.leb_spec k i),
        (Nat.ltb_spec i (k + S (length items))); try lia; cbn [andb]; try done.
      by replace (i - k)%nat with (S (i - S k)) by lia.
Qed.

Lemma cells_are_list b bg f xs :
  cells_are b bg f → (∀ i, (i < length b)%nat → f i = xs !! i) → cells_ok b bg xs.
Proof. intros Hc E i Hi. by rewrite Hc, E. Qed.

Lemma rep_full_of_cells d xs :
  shape d (length xs) → cells_are (buffer_ d) (begin_ d) (λ i, xs !! i) → rep_full d xs.
Proof. intros Hs Hc. apply rep_full_shape. by split. Qed.

(** Items [items] in a hole at offset [k] of [xs]. *)
Lemma filled_lookup xs items k i :
  (k ≤ length xs)%nat →
  (if (k <=? i)%nat && (i <? k + length items)%nat then items !! (i - k)%nat
   else shifted xs (length items) k i) = (take k xs ++ items ++ drop k xs) !! i.
Proof.
  intros Hk. unfold shifted. destruct (Nat.ltb_spec i k) as [Hlt|Hge].
  { rewrite (proj2 (Nat.leb_gt _ _)) by lia. cbn [andb].
    rewrite lookup_app_l by (rewrite length_take; lia). by rewrite lookup_take_lt by lia. }
  rewrite (proj2 (Nat.leb_le _ _)) by lia. cbn [andb].
  rewrite lookup_app_r by (rewrite length_take; lia). rewrite length_take, Nat.min_l by lia.
  destruct (Nat.ltb_spec i (k + length items)).
  - by rewrite lookup_app_l by lia.
  - rewrite lookup_app_r by lia. rewrite lookup_drop. f_equal. lia.
Qed.

Lemma fill_hole_ok d xs items k :
  shape d (length xs + length items) → (k ≤ length xs)%nat →
  cells_are (buffer_ d) (begin_ d) (shifted xs (length items) k) →
  ∃ b, fill_loop items d (iter_at d k) (iter_at d (k + length items)) = Ret (set_buffer d b) ∧
    length b = length (buffer_ d) ∧ rep_full (set_buffer d b) (take k xs ++ items ++ drop k xs).
Proof.
  intros Hs Hk Hc. destruct (fill_loop_ok items d _ _ k Hs ltac:(lia) Hc) as (b & E & Hl & Hc').
  exists b. split_and!; [done|done|]. apply rep_full_of_cells.
  - apply shape_set_buffer; [done|]. rewrite !length_app, length_take, length_drop.
    by replace (k `min` length xs + (length items + (length xs - k)))%nat with (length xs + length items)%nat by lia.
  - simpl. eapply cells_are_ext; [exact Hc'|]. intros i _. by apply filled_lookup.
Qed.

Lemma iter_eq_begin d xs k :
  rep d xs → (k ≤ length xs)%nat → iter_eq (iter_at d k) (deque_begin d) = Ret (k =? 0)%nat.
Proof.
  intros [(Hb & _ & ->)|(H1 & H2 & _)] Hk.
  - assert (k = 0%nat) as -> by (simpl in Hk; lia). unfold iter_eq, CheckComparable. simpl. rewrite Nat.eqb_refl. pass.
    f_equal. unfold internal_capacity. rewrite Hb. apply Nat.eqb_eq. simpl length. ring_lia.
  - rewrite deque_begin_at by done. apply iter_eq_at; lia.
Qed.

Lemma rep_nonempty_capacity d xs k : rep d xs → (0 < k ≤ length xs)%nat → (0 < internal_capacity d)%nat.
Proof. intros [(_ & _ & ->)|(_ & H2 & _)] Hk; simpl in Hk; lia. Qed.

(** Making room and filling it. *)
Lemma make_room_and_fill d xs items k :
  rep d xs → (0 < k ≤ length xs)%nat → fits (length xs + length items) = true →
  ∃ d', ('(d, insert_cur, insert_end) ← MakeRoomFor d (length items) (iter_at d k);
         d ← fill_loop items d insert_cur insert_end; Ret (IncrementGeneration d)) = Ret d' ∧
    rep d' (take k xs ++ items ++ drop k xs).
Proof.
  intros Hr Hk Hfit. pose proof (rep_nonempty_capacity _ _ _ Hr Hk) as Hcap.
  destruct (Nat.eq_0_gt_0_cases (length items)) as [->%nil_length_inv|Hpos].
  - unfold MakeRoomFor. simpl. destruct Hr as [(_ & _ & ->)|Hr]; [simpl in Hk; lia|].
    pose proof Hr as (H1 & H2 & _). rewrite iter_lt_at by lia. rewrite Nat.ltb_irrefl, !bind_ret.
    eexists. split; [done|]. apply rep_generation. right. simpl. by rewrite take_drop.
  - destruct (MakeRoomFor_ok d xs (length items) k) as (d1 & -> & Hs & Hc & _); try done; try lia.
    rewrite bind_ret. destruct (fill_hole_ok d1 xs items k Hs ltac:(lia) Hc) as (b & -> & _ & Hrep).
    rewrite bind_ret. eexists. split; [done|]. apply rep_generation. by right.
Qed.

Lemma push_front_n_ok n : ∀ d xs v,
  rep d xs → fits (length xs + n) = true → ∃ d', push_front_n d n v = Ret d' ∧ rep d' (replicate n v ++ xs).
Proof.
  induction n as [|n IH]; intros d xs v Hr Hfit; simpl; [by exists d|].
  destruct (emplace_front_ok d xs v Hr) as (d1 & -> & Hr1); [eapply fits_le; [|exact Hfit]; lia|]. rewrite bind_ret.
  destruct (IH d1 (v :: xs) v) as (d2 & -> & Hr2); [by right|simpl; by rewrite <-Nat.add_succ_r|]. exists d2. split; [done|].
  change (v :: (replicate n v ++ xs)) with (replicate (S n) v ++ xs). rewrite replicate_S_end, <-app_assoc. done.
Qed.

Lemma insert_count_ok d xs k n v :
  rep d xs → (k ≤ length xs)%nat → fits (length xs + n) = true →
  ∃ d', insert_count d (iter_at d k) n v = Ret d' ∧ rep d' (take k xs ++ replicate n v ++ drop k xs).
Proof.
  intros Hr Hk Hfit. unfold insert_count, ValidateIterator. rewrite usage_ok, bind_ret.
  rewrite (iter_eq_begin _ xs), bind_ret by done. destruct (Nat.eqb_spec k 0) as [->|Hne].
  - rewrite take_0, drop_0. simpl. destruct n as [|n].
    + pose proof (rep_capacity _ _ Hr). pose proof (rep_capacity_max _ _ Hr).
      unfold ExpandCapacityIfNecessary. rewrite (rep_size _ _ Hr), size_add_small, Nat.add_0_r by lia.
      rewrite (proj2 (Nat.leb_le _ _)) by (by apply rep_capacity). rewrite bind_ret. by exists d.
    + destruct (Expand_ok d xs (S n) Hr ltac:(lia) Hfit) as (d1 & -> & Hr1 & _). rewrite bind_ret.
      apply push_front_n_ok; [by right|done].
  - destruct (make_room_and_fill d xs (replicate n v) k Hr ltac:(lia)) as (d' & E & Hr'); [by rewrite length_replicate|].
    rewrite length_replicate in E. by exists d'.
Qed.

(** Moving [begin_] back by [m] places. *)
Lemma cells_rebase b bg xs m :
  cells_ok b bg xs → (bg < length b)%nat → (length xs + m < length b)%nat →
  cells_are b (ring (length b) (bg + (length b - m))) (shifted xs m 0).
Proof.
  intros Hc Hbg Hm i Hi. unfold shifted. simpl. destruct (Nat.ltb_spec i m).
  - replace (ring _ (ring _ _ + i)) with (ring (length b) (bg + (length b - m + i))) by ring_lia.
    rewrite Hc by lia. f_equal. apply lookup_ge_None_2. lia.
  - replace (ring _ (ring _ _ + i)) with (ring (length b) (bg + (i - m))) by ring_lia. by rewrite Hc by lia.
Qed.

Lemma insert_range_ok d xs k items :
  rep d xs → (k ≤ length xs)%nat → fits (length xs + length items) = true →
  ∃ d', insert_range d (iter_at d k) items = Ret d' ∧ rep d' (take k xs ++ items ++ drop k xs).
Proof.
  intros Hr Hk Hfit. unfold insert_range, ValidateIterator. rewrite usage_ok, bind_ret.
  destruct (Nat.eqb_spec (length items) 0) as [E0|Hpos].
  { destruct items; [|done]. exists d. simpl. by rewrite take_drop. }
  rewrite (iter_eq_begin _ xs), bind_ret by done. destruct (Nat.eqb_spec k 0) as [->|Hne].
  2: { apply make_room_and_fill; [done|lia|done]. }
  destruct (Expand_ok d xs (length items) Hr ltac:(lia) Hfit) as (d1 & -> & (H1 & H2 & H3 & Hc) & Hcap & _).
  rewrite !bind_ret. unfold capacity in Hcap. destruct (Nat.eqb_spec (internal_capacity d1) 0); [lia|].
  rewrite size_add_small, size_sub_small by lia.
  replace (begin_ d1 + internal_capacity d1 - length items)%nat
    with (begin_ d1 + (internal_capacity d1 - length items))%nat by lia.
  rewrite ring_mod by lia. set (d2 := mkDeque _ _ (end_ d1) _).
  assert (shape d2 (length xs + length items)) as Hs.
  { unfold d2. split_and!; unfold internal_capacity in *; simpl; [apply ring_lt; lia|lia|lia|rewrite H3; ring_lia]. }
  pose proof Hs as (Hb2 & _). rewrite (deque_begin_at d2) by done.
  assert (deque_begin d1 = iter_at d2 (0 + length items)) as ->.
  { unfold deque_begin, iter_at, iter, d2, internal_capacity in *. simpl. f_equal. ring_lia. }
  destruct (fill_hole_ok d2 xs items 0 Hs ltac:(lia)) as (b & -> & _ & Hrep).
  { unfold d2. simpl. apply cells_rebase; unfold internal_capacity in *; [done|lia..]. }
  rewrite bind_ret. eexists. split; [done|]. apply rep_generation. by right.
Qed.

Lemma emplace_ok d xs k v :
  rep d xs → (k ≤ length xs)%nat → fits (length xs + 1) = true →
  ∃ d', emplace d (iter_at d k) v = Ret (d', iter_at d' k) ∧ rep_full d' (take k xs ++ v :: drop k xs).
Proof.
  intros Hr Hk Hfit. unfold emplace, ValidateIterator. rewrite usage_ok, bind_ret.
  rewrite (iter_eq_begin _ xs), bind_ret by done. destruct (Nat.eqb_spec k 0) as [->|Hne].
  - destruct (emplace_front_ok d xs v Hr Hfit) as (d1 & -> & Hr1). rewrite bind_ret. exists d1. pose proof Hr1 as (H1 & _).
    rewrite take_0, drop_0. split; [|done]. by rewrite deque_begin_at.
  - pose proof (rep_nonempty_capacity _ _ k Hr ltac:(lia)) as Hcap.
    destruct (MakeRoomFor_ok (IncrementGeneration d) xs 1 k) as (d1 & E & Hs & Hc & _); try done; try lia.
    change (iter (IncrementGeneration d) (index_ (iter_at d k))) with (iter_at (IncrementGeneration d) k).
    rewrite E, bind_ret. pose proof Hs as (H1 & H2 & _). unfold internal_capacity in *. simpl index_.
    unfold internal_capacity. rewrite construct_ok, bind_ret by (apply ring_lt; lia).
    set (b := <[_ := _]> _). assert (length b = length (buffer_ d1)) as Hl by apply length_insert.
    exists (set_buffer d1 b). rewrite iter_at_set_buffer by done. split; [done|]. apply rep_full_of_cells.
    + apply shape_set_buffer; [done|]. rewrite length_app, length_take. simpl. rewrite length_drop.
      by replace (k `min` length xs + S (length xs - k))%nat with (length xs + 1)%nat by lia.
    + simpl. eapply cells_are_ext; [apply cells_are_update; [exact Hc|done|lia]|]. intros i _. cbv beta.
      change (v :: drop k xs) with ([v] ++ drop k xs). rewrite <-(filled_lookup xs [v] k i Hk). simpl length.
      destruct (Nat.eqb_spec i k) as [->|Hik].
      * rewrite (proj2 (Nat.leb_le _ _)), (proj2 (Nat.ltb_lt k _)) by lia. simpl. by rewrite Nat.sub_diag.
      * destruct (Nat.leb_spec k i), (Nat.ltb_spec i (k + 1)); cbn [andb]; try done; lia.
Qed.

(** The contents while items [m..] are moved down to [j..]; [t] have moved. *)
Definition closing xs (j m t i : nat) : option T :=
  if (i <? j + t)%nat then (if (i <? j)%nat then xs !! i else xs !! (i - j + m)%nat)
  else if (i <? m + t)%nat then None else xs !! i.

Lemma closing_lookup xs j m i :
  (j ≤ m ≤ length xs)%nat → closing xs j m (length xs - m) i = (take j xs ++ drop m xs) !! i.
Proof.
  intros Hm. unfold closing. destruct (Nat.ltb_spec i j).
  - rewrite (proj2 (Nat.ltb_lt _ _)) by lia. rewrite lookup_app_l by (rewrite length_take; lia).
    by rewrite lookup_take_lt by lia.
  - rewrite lookup_app_r by (rewrite length_take; lia). rewrite length_take, Nat.min_l, lookup_drop by lia.
    destruct (Nat.ltb_spec i (j + (length xs - m))); [f_equal; lia|].
    rewrite (lookup_ge_None_2 xs (m + (i - j))) by lia.
    destruct (Nat.ltb_spec i (m + (length xs - m))); [done|]. apply lookup_ge_None_2. lia.
Qed.

Lemma erase_loop_ok xs j m fuel : ∀ d t,
  shape d (length xs) → (j < m)%nat → (m + t ≤ length xs)%nat → (length xs - (m + t) < fuel)%nat →
  cells_are (buffer_ d) (begin_ d) (closing xs j m t) →
  ∃ b, erase_loop fuel d (iter_at d (m + t)) (iter_at d (length xs)) (iter_at d (j + t)) =
         Ret (set_buffer d b, iter_at d (j + (length xs - m))) ∧
       length b = length (buffer_ d) ∧ cells_are b (begin_ d) (λ i, (take j xs ++ drop m xs) !! i).
Proof.
  induction fuel as [|fuel IH]; intros d t Hs Hjm Ht Hf Hc; [lia|]. simpl.
  pose proof Hs as (H1 & H2 & H3). rewrite iter_lt_at, bind_ret by lia.
  destruct (Nat.ltb_spec (m + t) (length xs)) as [Hlt|Hge].
  - destruct (lookup_lt_is_Some_2 xs (m + t)) as [x Hx]; [lia|].
    destruct (MoveRange_one_ok (buffer_ d) (begin_ d) _ (m + t) (j + t) x Hc) as (b1 & Eb & Hl & Hc1);
      unfold internal_capacity in *; try lia.
    { unfold closing. rewrite !(proj2 (Nat.ltb_ge _ _)) by lia. done. }
    simpl index_. unfold internal_capacity. rewrite Eb, bind_ret.
    rewrite <-!(iter_at_set_buffer d b1) by done.
    pose proof (shape_set_buffer d b1 _ Hl Hs) as Hs1.
    rewrite !(Increment_ok _ (length xs)), !bind_ret by (done || lia).
    destruct (IH (set_buffer d b1) (S t)) as (b2 & E2 & Hl2 & Hc2); try done; try lia.
    { simpl. eapply cells_are_ext; [exact Hc1|]. intros i Hi. unfold closing.
      repeat zcase; subst; try lia; try done. by replace (j + t - j + m)%nat with (m + t)%nat by lia. }
    rewrite !Nat.add_succ_r in E2. rewrite E2. exists b2. simpl in *. split_and!; [done|lia|done].
  - replace t with (length xs - m)%nat in * by lia. exists (buffer_ d). split_and!; [by destruct d|done|].
    eapply cells_are_ext; [exact Hc|]. intros i _. apply closing_lookup. lia.
Qed.

Lemma ring_inj c bg i j :
  (bg < c)%nat → (i < c)%nat → (j < c)%nat → ring c (bg + i) = ring c (bg + j) → i = j.
Proof. ring_lia. Qed.

Lemma erase_range_ok d xs j m :
  rep d xs → (j ≤ m ≤ length xs)%nat →
  ∃ d', erase_range d (iter_at d j) (iter_at d m) = Ret (d', iter_at d' j) ∧ rep d' (take j xs ++ drop m xs).
Proof.
  intros Hr Hjm. unfold erase_range, ValidateIterator. rewrite !usage_ok, !bind_ret.
  destruct (decide (j = m)) as [->|Hne].
  { rewrite Nat.eqb_refl. exists (IncrementGeneration d). split; [done|]. rewrite take_drop. by apply rep_generation. }
  destruct Hr as [(_ & _ & ->)|Hr]; [simpl in Hjm; lia|].
  pose proof Hr as (H1 & H2 & H3 & Hc). simpl index_. unfold internal_capacity in *.
  destruct (Nat.eqb_spec (ring (length (buffer_ d)) (begin_ d + j)) (ring (length (buffer_ d)) (begin_ d + m))) as [E|_].
  { apply ring_inj in E; lia. }
  destruct (destroy_between_ok (buffer_ d) (begin_ d) xs j m Hc ltac:(lia) ltac:(lia) ltac:(lia)) as (b & Eb & Hl & Hcells).
  unfold destroy_between in Eb. unfold internal_capacity. cbn [IncrementGeneration buffer_]. rewrite Eb, bind_ret.
  cbn [set_buffer IncrementGeneration buffer_ begin_ end_ generation_].
  destruct (Nat.eqb_spec (ring (length (buffer_ d)) (begin_ d + j)) (begin_ d)) as [E|E].
  - assert (j = 0%nat) as -> by ring_lia.
    exists (mkDeque b (ring (length (buffer_ d)) (begin_ d + m)) (end_ d) (generation_ (IncrementGeneration d))). split.
    { unfold iter_at, iter, internal_capacity. simpl. rewrite Hl. do 3 f_equal. ring_lia. }
    right. rewrite take_0. simpl. split_and!; unfold internal_capacity; simpl; rewrite ?Hl; try rewrite length_drop; try lia.
    + apply ring_lt; lia.
    + rewrite H3. ring_lia.
    + intros i. rewrite Hl. intros Hi. rewrite lookup_drop.
      destruct (Nat.ltb_spec (m + i) (length (buffer_ d))).
      * replace (ring _ (ring _ _ + i)) with (ring (length (buffer_ d)) (begin_ d + (m + i))) by ring_lia.
        rewrite Hcells by lia. rewrite (proj2 (Nat.ltb_ge (m + i) m)) by lia. by rewrite andb_false_r.
      * replace (ring _ (ring _ _ + i)) with (ring (length (buffer_ d)) (begin_ d + (m + i - length (buffer_ d)))) by ring_lia.
        rewrite Hcells by lia. rewrite (lookup_ge_None_2 xs (m + i)) by lia.
        rewrite (proj2 (Nat.ltb_lt (m + i - length (buffer_ d)) m)) by lia. by rewrite andb_true_r.
  - set (d1 := mkDeque b (begin_ d) (end_ d) (if RTC_DCHECK_IS_ON then S (generation_ d) else generation_ d)).
    assert (shape d1 (length xs)) as Hs1 by (split_and!; unfold internal_capacity; simpl; rewrite ?Hl; done || lia).
    change (set_buffer (IncrementGeneration d) b) with d1. rewrite (deque_end_at d1 _ Hs1).
    assert (∀ i, iter d1 (ring (length (buffer_ d)) (begin_ d + i)) = iter_at d1 i) as Hit.
    { intros i. unfold iter_at, internal_capacity. simpl. by rewrite Hl. }
    rewrite !Hit.
    destruct (erase_loop_ok xs j m (S (length (buffer_ d1))) d1 0 Hs1) as (b2 & E2 & Hl2 & Hc2); try lia.
    { simpl. lia. }
    { intros i. simpl. rewrite Hl. intros Hi. rewrite Hcells by done. f_equal. unfold closing. rewrite !Nat.add_0_r.
      destruct (Nat.leb_spec j i), (Nat.ltb_spec i j), (Nat.ltb_spec i m); simpl; try done; lia. }
    rewrite !Nat.add_0_r in E2. change (buffer_ d1) with b in E2. rewrite E2, bind_ret.
    exists (mkDeque b2 (begin_ d) (index_ (iter_at d1 (j + (length xs - m)))) (generation_ d1)). split.
    { do 2 f_equal. unfold iter_at, iter, internal_capacity. simpl. simpl in Hl2. by rewrite Hl2, Hl. }
    right. simpl in Hl2. apply rep_full_of_cells; [|done].
    rewrite length_app, length_take, length_drop, Nat.min_l by lia.
    unfold shape, iter_at, iter, internal_capacity in *. simpl. rewrite Hl2, Hl. split_and!; [lia..|done].
Qed.

Lemma iter_add_ok d n i delta :
  shape d n → (i ≤ n)%nat → (0 < delta → (i < n)%nat) → 0 ≤ Z.of_nat i + delta ≤ Z.of_nat n →
  iter_add d (iter_at d i) delta = Ret (iter_at d (Z.to_nat (Z.of_nat i + delta))).
Proof.
  intros Hs Hi Hpos Hd. pose proof Hs as (H1 & H2 & H3). unfold iter_add. rewrite usage_ok, bind_ret. simpl index_.
  assert ((if RTC_DCHECK_IS_ON then if delta <=? 0 then CheckValidIndexOrEnd d (ring (internal_capacity d) (begin_ d + i))
           else CheckValidIndex d (ring (internal_capacity d) (begin_ d + i)) else Ret tt) = Ret tt) as ->.
  { destruct RTC_DCHECK_IS_ON; [|done]. destruct (Z.leb_spec delta 0).
    - by apply CheckValidIndexOrEnd_ok with n.
    - apply CheckValidIndex_ok with n; [done|]. by apply Hpos. }
  rewrite bind_ret. destruct (Z.eqb_spec delta 0) as [->|Hne]; [by rewrite Z.add_0_r, Nat2Z.id|].
  rewrite OffsetFromBegin_at by lia. pose proof max_cells_modulus. pose proof modulus_half as [Hm Hp].
  rewrite offset_wrap, (proj2 (Z.leb_le _ _)) by lia.
  assert (size d = n) as Hsz by (unfold size, internal_capacity in *; rewrite H3; ring_lia).
  rewrite dcheck_pass, bind_ret by (rewrite Hsz, Z.geb_leb; apply andb_true_iff; rewrite !Z.leb_le; lia).
  rewrite (proj2 (Nat.eqb_neq (internal_capacity d) 0)) by lia. unfold iter_at, iter. simpl. do 2 f_equal.
  rewrite wrapU_small by lia. replace (Z.of_nat i + delta + Z.of_nat (begin_ d))
    with (Z.of_nat (begin_ d + Z.to_nat (Z.of_nat i + delta))%nat) by lia.
  rewrite <-Nat2Z.inj_mod, Nat2Z.id. apply ring_mod; lia.
Qed.

Lemma erase_ok d xs j :
  rep d xs → (j < length xs)%nat →
  ∃ d', erase d (iter_at d j) = Ret (d', iter_at d' j) ∧ rep d' (take j xs ++ drop (S j) xs).
Proof.
  intros Hr Hj. unfold erase. pose proof Hr as [(_ & _ & ->)|Hf]; [simpl in Hj; lia|].
  apply rep_full_shape in Hf as [Hs _]. rewrite (iter_add_ok d (length xs)), bind_ret by (done || lia).
  replace (Z.to_nat (Z.of_nat j + 1)) with (S j) by lia. apply erase_range_ok; [done|lia].
Qed.

Lemma assign_count_ok d xs n v :
  rep d xs → fits n = true → ∃ d', assign_count d n v = Ret d' ∧ rep d' (replicate n v).
Proof.
  intros Hr Hfit. unfold assign_count. destruct (ClearRetainCapacity_ok d xs Hr) as (d1 & -> & Hr1 & _). rewrite bind_ret.
  destruct (reserve_ok d1 [] n Hr1 Hfit) as (d2 & -> & Hr2 & _). rewrite bind_ret.
  destruct (emplace_back_all_ok (replicate n v) d2 [] Hr2) as (d3 & -> & Hr3); [by rewrite length_replicate|]. rewrite bind_ret. by eexists.
Qed.

Lemma assign_ilist_ok d xs items :
  rep d xs → fits (length items) = true → ∃ d', assign_ilist d items = Ret d' ∧ rep d' items.
Proof.
  intros Hr Hfit. unfold assign_ilist. destruct (reserve_ok d xs (length items) Hr Hfit) as (d1 & -> & Hr1 & _). rewrite bind_ret.
  by apply assign_ok with xs.
Qed.

(** The destructor finds an object in every cell it visits and leaves none. *)
Lemma deque_destroy_ok d xs :
  rep d xs → deque_destroy d = Ret (replicate (internal_capacity d) None).
Proof.
  intros [(Hb & He & ->)|Hr]; unfold deque_destroy.
  { unfold DestructRange. rewrite He, Nat.eqb_refl, bind_ret. unfold internal_capacity. by rewrite Hb. }
  pose proof Hr as (H1 & H2 & H3 & _). destruct (truncate_ok d xs 0 Hr ltac:(lia)) as (d' & E & _ & Hbg & Hcap & Hc).
  replace (ring (internal_capacity d) (begin_ d + 0)) with (begin_ d) in E by ring_lia.
  rewrite E, bind_ret. f_equal. rewrite take_0 in Hc. unfold internal_capacity in *. rewrite <-Hcap in *.
  apply list_eq. intros p. destruct (Nat.ltb_spec p (length (buffer_ d'))).
  - rewrite lookup_replicate_2 by done.
    specialize (Hc (if (begin_ d <=? p)%nat then p - begin_ d else length (buffer_ d') - begin_ d + p)%nat).
    replace (ring _ _) with p in Hc by ring_lia. rewrite Hc by ring_lia. done.
  - rewrite !lookup_ge_None_2 by (rewrite ?length_replicate; lia). done.
Qed.

Lemma copy_loop_ok other xs fuel : ∀ d k,
  rep_full other xs → rep d (take k xs) → fits (length xs) = true → (k ≤ length xs)%nat → (length xs - k < fuel)%nat →
  ∃ d', copy_loop fuel d other (iter_at other k) (iter_at other (length xs)) = Ret d' ∧ rep d' xs.
Proof.
  induction fuel as [|fuel IH]; intros d k Ho Hd Hfit Hk Hf; [lia|]. simpl.
  pose proof Ho as [Hs _]%rep_full_shape. pose proof Hs as (H1 & H2 & _).
  rewrite iter_eq_at, bind_ret by lia. destruct (Nat.eqb_spec k (length xs)) as [->|Hne].
  { exists d. by rewrite take_ge in Hd. }
  destruct (lookup_lt_is_Some_2 xs k) as [x Hx]; [lia|].
  rewrite (iter_deref_ok other xs k x), bind_ret by done.
  destruct (emplace_back_ok d _ x Hd) as (d1 & -> & Hr1); [apply fits_le with (length xs); [rewrite length_take; lia|done]|].
  rewrite bind_ret. rewrite (Increment_ok other (length xs)), bind_ret by (done || lia).
  apply IH; [done| |done|lia|lia]. right. by rewrite (take_S_r _ _ x).
Qed.

Lemma assign_other_ok d other xs ys :
  rep d xs → rep other ys → fits (length ys) = true → ∃ d', assign_other d other = Ret d' ∧ rep d' ys.
Proof.
  intros Hd Ho Hfit. unfold assign_other. destruct (ClearRetainCapacity_ok d xs Hd) as (d1 & -> & Hr1 & _). rewrite bind_ret.
  pose proof (rep_size _ _ Ho) as Hsz. destruct Ho as [(Hb & He & ->)|Ho].
  - simpl. unfold iter_eq, CheckComparable. simpl. rewrite He, !Nat.eqb_refl. pass. rewrite !bind_ret. by eexists.
  - pose proof Ho as [Hs _]%rep_full_shape. pose proof Hs as (H1 & _).
    rewrite deque_begin_at, (deque_end_at other (length ys)), Hsz by done.
    destruct (copy_loop_ok other ys (S (length ys)) d1 0 Ho) as (d2 & -> & Hr2); [done|done|lia..|].
    rewrite bind_ret. by eexists.
Qed.

Lemma copy_construct_ok other ys :
  rep other ys → fits (length ys) = true → ∃ d', copy_construct other = Ret d' ∧ rep d' ys.
Proof.
  intros Ho Hfit. pose proof (fits_cells _ Hfit). unfold copy_construct.
  rewrite (rep_size _ _ Ho), size_add_small, VectorBuffer_ok, bind_ret by lia.
  apply assign_other_ok with []; [|done..]. right. apply (rep_full_fresh (replicate _ None) [] 0).
  - rewrite length_replicate. simpl. lia.
  - rewrite length_replicate. intros i Hi. by apply lookup_replicate_2.
Qed.

Lemma copy_assign_ok d other xs ys :
  rep d xs → rep other ys → fits (length ys) = true → ∃ d', copy_assign d other = Ret d' ∧ rep d' ys.
Proof.
  intros Hd Ho Hfit. unfold copy_assign. rewrite (rep_size _ _ Ho).
  destruct (reserve_ok d xs (length ys) Hd Hfit) as (d1 & -> & Hr1 & _). rewrite bind_ret.
  by apply assign_other_ok with xs.
Qed.

(** ** Positions

    The iterator [begin() + k]. *)
Definition position d (k : nat) : outcome iterator := iter_add d (deque_begin d) (Z.of_nat k).

Lemma position_ok d xs k : rep d xs → (k ≤ length xs)%nat → position d k = Ret (iter_at d k).
Proof.
  intros Hr Hk. unfold position. destruct Hr as [(Hb & He & ->)|Hf].
  - assert (k = 0%nat) as -> by (simpl in Hk; lia). unfold iter_add.
    unfold CheckUnstableUsage, deque_begin, iter. simpl. rewrite Nat.eqb_refl. pass.
    unfold CheckValidIndexOrEnd. rewrite He, Nat.eqb_refl. simpl. unfold iter_at, iter, internal_capacity.
    assert (end_ d = ring (length (buffer_ d)) (begin_ d + 0)) as <- by (rewrite Hb, He; simpl length; ring_lia).
    by destruct RTC_DCHECK_IS_ON.
  - apply rep_full_shape in Hf as [Hs _]. pose proof Hs as (H1 & _). rewrite deque_begin_at by done.
    rewrite (iter_add_ok d (length xs)) by (done || lia). do 2 f_equal. lia.
Qed.

End Representation.

(** ** The contract: a list with operations at positions *)

Inductive dop (T : Type) : Type :=
| PushBack (v : T) | PushFront (v : T) | PopBack | PopFront
| Insert (k n : nat) (v : T) | InsertRange (k : nat) (items : list T) | Emplace (k : nat) (v : T)
| Erase (k : nat) | EraseRange (j m : nat)
| Resize (n : nat) (v : T) | Reserve (n : nat) | ShrinkToFit | Clear
| AssignCount (n : nat) (v : T) | Assign (items : list T) | AssignList (items : list T).
Arguments PopBack {T}. Arguments PopFront {T}. Arguments Erase {T} k. Arguments EraseRange {T} j m.
Arguments Reserve {T} n. Arguments ShrinkToFit {T}. Arguments Clear {T}.
Arguments PushBack {T} v. Arguments PushFront {T} v. Arguments Insert {T} k n v. Arguments InsertRange {T} k items.
Arguments Emplace {T} k v. Arguments Resize {T} n v. Arguments AssignCount {T} n v.
Arguments Assign {T} items. Arguments AssignList {T} items.

Section Contract.
Context {bm : BuildMode} {lay : ItemLayout} {T : Type}.
Implicit Types (d : circular_deque T) (xs : list T).

(** What an operation does to the deque. *)
Definition apply_op d (o : dop T) : outcome (circular_deque T) :=
  match o with
  | PushBack v => emplace_back d v
  | PushFront v => emplace_front d v
  | PopBack => pop_back d
  | PopFront => pop_front d
  | Insert k n v => pos ← position d k; insert_count d pos n v
  | InsertRange k items => pos ← position d k; insert_range d pos items
  | Emplace k v => pos ← position d k; fst <$> emplace d pos v
  | Erase k => pos ← position d k; fst <$> erase d pos
  | EraseRange j m => first ← position d j; last ← position d m; fst <$> erase_range d first last
  | Resize n v => resize d n v
  | Reserve n => reserve d n
  | ShrinkToFit => shrink_to_fit d
  | Clear => clear d
  | AssignCount n v => assign_count d n v
  | Assign items => assign d items
  | AssignList items => assign_ilist d items
  end.

(** What it does to the list; [None] where the caller must not use it. *)
Definition spec_op xs (o : dop T) : option (list T) :=
  match o with
  | PushBack v => Some (xs ++ [v])
  | PushFront v => Some (v :: xs)
  | PopBack => match xs with [] => None | _ => Some (take (length xs - 1) xs) end
  | PopFront => match xs with [] => None | _ :: xs => Some xs end
  | Insert k n v => if (k <=? length xs)%nat then Some (take k xs ++ replicate n v ++ drop k xs) else None
  | InsertRange k items => if (k <=? length xs)%nat then Some (take k xs ++ items ++ drop k xs) else None
  | Emplace k v => if (k <=? length xs)%nat then Some (take k xs ++ v :: drop k xs) else None
  | Erase k => if (k <? length xs)%nat then Some (take k xs ++ drop (S k) xs) else None
  | EraseRange j m =>
      if (j <=? m)%nat && (m <=? length xs)%nat then Some (take j xs ++ drop m xs) else None
  | Resize n v => Some (take n xs ++ replicate (n - length xs) v)
  | Reserve _ | ShrinkToFit => Some xs
  | Clear => Some []
  | AssignCount n v => Some (replicate n v)
  | Assign items | AssignList items => Some items
  end.

Fixpoint run d (ops : list (dop T)) : outcome (circular_deque T) :=
  match ops with [] => Ret d | o :: ops => d ← apply_op d o; run d ops end.

(** The room the operation asks for, given the list it leaves. *)
Definition demand (o : dop T) xs : nat := match o with Reserve n => Nat.max n (length xs) | _ => length xs end.

(** The list after a sequence of operations; [None] when an operation must
    not be used, or asks for more room than can be allocated. *)
Fixpoint spec xs (ops : list (dop T)) : option (list T) :=
  match ops with
  | [] => Some xs
  | o :: ops => xs ← spec_op xs o; if fits (demand o xs) then spec xs ops else None
  end.

Lemma fmap_fst_ok {A B} (m : outcome (A * B)) (P : A → Prop) :
  (∃ a b, m = Ret (a, b) ∧ P a) → ∃ a, fst <$> m = Ret a ∧ P a.
Proof. intros (a & b & -> & H). by exists a. Qed.

Lemma PopBack_ok d xs xs' :
  rep d xs → spec_op xs PopBack = Some xs' → ∃ d', pop_back d = Ret d' ∧ rep d' xs'.
Proof.
  intros Hr E. destruct xs as [|x xs] using rev_ind; [done|]. simpl in E.
  assert (xs' = xs) as ->.
  { rewrite length_app in E. simpl in E. replace (length xs + 1 - 1)%nat with (length xs) in E by lia.
    rewrite take_app_length in E. destruct xs; simpl in E; by simplify_eq. }
  destruct (pop_back_ok d xs x Hr) as (d' & -> & Hr'). exists d'. split; [done|by right].
Qed.

Lemma length_inserted xs items k :
  (k ≤ length xs)%nat → length (take k xs ++ items ++ drop k xs) = (length xs + length items)%nat.
Proof. intros. rewrite !length_app, length_take, length_drop. lia. Qed.

(** A single operation. *)
Lemma apply_op_ok d xs o xs' :
  rep d xs → spec_op xs o = Some xs' → fits (demand o xs') = true → ∃ d', apply_op d o = Ret d' ∧ rep d' xs'.
Proof.
  intros Hr E Hfit. assert (fits (length xs') = true) as Hlen by (eapply fits_le; [|exact Hfit]; destruct o; simpl; lia).
  destruct o as [v|v| | |k n v|k items|k v|k|j m|n v|n| | |n v|items|items].
  3: by apply PopBack_ok with xs.
  all: simpl in *; repeat case_match; simplify_eq;
    repeat match goal with H : (_ <=? _)%nat = true |- _ => apply Nat.leb_le in H
                         | H : (_ <? _)%nat = true |- _ => apply Nat.ltb_lt in H
                         | H : _ && _ = true |- _ => apply andb_true_iff in H as [? ?] end.
  1: rewrite length_app in Hlen; destruct (emplace_back_ok d xs v Hr Hlen) as (d' & -> & ?); exists d'; split; [done|by right].
  1: cbn [length] in Hlen; rewrite <-Nat.add_1_r in Hlen; destruct (emplace_front_ok d xs v Hr Hlen) as (d' & -> & ?); exists d'; split; [done|by right].
  1: destruct (pop_front_ok d _ _ Hr) as (d' & -> & ?); exists d'; split; [done|by right].
  all: rewrite ?(position_ok d xs), ?bind_ret by (done || lia).
  - apply insert_count_ok; [done..|]. by rewrite length_inserted, length_replicate in Hlen.
  - apply insert_range_ok; [done..|]. by rewrite length_inserted in Hlen.
  - apply fmap_fst_ok. change (v :: drop k xs) with ([v] ++ drop k xs) in Hlen. rewrite length_inserted in Hlen by done.
    destruct (emplace_ok d xs k v Hr) as (d' & -> & ?); [done..|]. do 2 eexists. split; [done|by right].
  - apply fmap_fst_ok. destruct (erase_ok d xs k Hr) as (d' & -> & ?); [done|]. by do 2 eexists.
  - apply fmap_fst_ok. destruct (erase_range_ok d xs j m Hr) as (d' & -> & ?); [done|]. by do 2 eexists.
  - rewrite length_app, length_take, length_replicate in Hlen.
    apply resize_ok; [done|]. eapply fits_le; [|exact Hlen]. lia.
  - destruct (reserve_ok d xs' n Hr) as (d' & -> & ? & _); [eapply fits_le; [|exact Hfit]; lia|]. by exists d'.
  - destruct (shrink_to_fit_ok d xs' Hr) as (d' & -> & ? & _). by exists d'.
  - destruct (clear_ok d xs Hr) as (d' & -> & ? & _). by exists d'.
  - rewrite length_replicate in Hlen. by apply assign_count_ok with xs.
  - by apply assign_ok with xs.
  - by apply assign_ilist_ok with xs.
Qed.

Lemma deque_run_ok ops : ∀ d xs xs',
  rep d xs → spec xs ops = Some xs' → ∃ d', run d ops = Ret d' ∧ rep d' xs'.
Proof.
  induction ops as [|o ops IH]; intros d xs xs' Hr E; simpl in *; [simplify_eq; by exists d|].
  apply bind_Some in E as (ys & E1 & E2). destruct (fits (demand o ys)) eqn:Hfit; [|done].
  destruct (apply_op_ok d xs o ys Hr E1 Hfit) as (d1 & -> & Hr1).
  rewrite bind_ret. by apply IH with ys.
Qed.

Lemma rep_init : rep (@circular_deque_empty T) [].
Proof. left. done. Qed.

(** ** Generations *)

Ltac skip_bind H := apply bind_returns in H as (? & _ & H).

Lemma SetCapacityTo_gen d n d' : SetCapacityTo d n = Ret d' → generation_ d' = generation_ d.
Proof.
  unfold SetCapacityTo. intros H. skip_bind H. apply bind_returns in H as ([[b bg] en] & _ & H). by injection H as <-.
Qed.

Lemma Expand_gen d n d' : ExpandCapacityIfNecessary d n = Ret d' → generation_ d' = generation_ d.
Proof. unfold ExpandCapacityIfNecessary. case_match; intros; [by simplify_eq|]. eauto using SetCapacityTo_gen. Qed.

Lemma Shrink_gen d d' : ShrinkCapacityIfNecessary d = Ret d' → generation_ d' = generation_ d.
Proof.
  unfold ShrinkCapacityIfNecessary. repeat case_match; intros; simplify_eq; eauto using SetCapacityTo_gen.
Qed.

Lemma reserve_gen d n d' : reserve d n = Ret d' → generation_ d' = generation_ d.
Proof. unfold reserve. case_match; intros; [|by simplify_eq]. eauto using SetCapacityTo_gen. Qed.

Lemma shrink_to_fit_gen d d' : shrink_to_fit d = Ret d' → generation_ d' = generation_ d.
Proof. unfold shrink_to_fit. repeat case_match; intros; simplify_eq; eauto using SetCapacityTo_gen. Qed.

Lemma DestructRange_gen d p q d' : DestructRange d p q = Ret d' → generation_ d' = generation_ d.
Proof. unfold DestructRange. intros H; repeat case_match; repeat skip_bind H; by injection H as <-. Qed.

(** The counter of a build with debug checks. *)
Definition bump (n g : nat) : nat := if RTC_DCHECK_IS_ON then (n + g)%nat else g.

Lemma Clear_gen d d' : ClearRetainCapacity d = Ret d' → generation_ d' = bump 1 (generation_ d).
Proof.
  unfold ClearRetainCapacity. intros (d1 & E%DestructRange_gen & H)%bind_returns. injection H as <-. simpl.
  by rewrite E.
Qed.

Lemma emplace_back_gen d v d' : emplace_back d v = Ret d' → generation_ d' = bump 1 (generation_ d).
Proof.
  unfold emplace_back. intros (d1 & E%Expand_gen & H)%bind_returns. apply bind_returns in H as (b & _ & H).
  skip_bind H. injection H as <-. simpl. by rewrite E.
Qed.

Lemma emplace_front_gen d v d' : emplace_front d v = Ret d' → generation_ d' = bump 1 (generation_ d).
Proof.
  unfold emplace_front. intros (d1 & E%Expand_gen & H)%bind_returns. apply bind_returns in H as (b & _ & H).
  skip_bind H. injection H as <-. simpl. by rewrite E.
Qed.

Lemma pop_front_gen d d' : pop_front d = Ret d' → generation_ d' = bump 1 (generation_ d).
Proof.
  unfold pop_front. intros (? & _ & H)%bind_returns. skip_bind H.
  apply bind_returns in H as (? & E%Shrink_gen & H). injection H as <-. simpl. by rewrite E.
Qed.

Lemma pop_back_gen d d' : pop_back d = Ret d' → generation_ d' = bump 1 (generation_ d).
Proof.
  unfold pop_back. intros (? & _ & H)%bind_returns. skip_bind H.
  apply bind_returns in H as (? & E%Shrink_gen & H). injection H as <-. simpl. by rewrite E.
Qed.

Lemma push_front_n_gen n : ∀ d v d', push_front_n d n v = Ret d' → generation_ d' = bump n (generation_ d).
Proof.
  induction n as [|n IH]; intros d v d' H; simpl in H; [injection H as <-; unfold bump; by case_match|].
  apply bind_returns in H as (d1 & E%emplace_front_gen & H%IH). rewrite H, E. unfold bump. case_match; lia.
Qed.

Lemma emplace_back_all_gen items : ∀ d d',
  emplace_back_all d items = Ret d' → generation_ d' = bump (length items) (generation_ d).
Proof.
  induction items as [|x items IH]; intros d d' H; simpl in H; [injection H as <-; unfold bump; by case_match|].
  apply bind_returns in H as (d1 & E%emplace_back_gen & H%IH). rewrite H, E. unfold bump. simpl. case_match; lia.
Qed.

Lemma resize_loop_gen fuel : ∀ d n v d', resize_loop fuel d n v = Ret d' → (generation_ d ≤ generation_ d')%nat.
Proof.
  induction fuel as [|fuel IH]; intros d n v d' H; simpl in H; [by injection H as <-|].
  case_match; [|by injection H as <-]. apply bind_returns in H as (d1 & E%emplace_back_gen & H%IH).
  rewrite E in H. unfold bump in H. case_match; lia.
Qed.

Lemma make_room_loop_gen fuel : ∀ d a b c d', make_room_loop fuel d a b c = Ret d' → generation_ d' = generation_ d.
Proof.
  induction fuel as [|fuel IH]; intros d a b c d' H; simpl in H; [by injection H as <-|].
  apply bind_returns in H as (stop & _ & H). destruct stop; [by injection H as <-|].
  skip_bind H. skip_bind H.
  apply bind_returns in H as (? & _ & H%IH). done.
Qed.

Lemma fill_loop_gen items : ∀ d a b d', fill_loop items d a b = Ret d' → generation_ d' = generation_ d.
Proof.
  induction items as [|x items IH]; intros d a b d' H; simpl in H; apply bind_returns in H as (more & _ & H);
    (destruct more; [|by injection H as <-]); [by injection H as <-|].
  skip_bind H. by apply bind_returns in H as (? & _ & H%IH).
Qed.

Lemma erase_loop_gen fuel : ∀ d a b c d' i, erase_loop fuel d a b c = Ret (d', i) → generation_ d' = generation_ d.
Proof.
  induction fuel as [|fuel IH]; intros d a b c d' i H; simpl in H; [by injection H as <- _|].
  apply bind_returns in H as (more & _ & H). destruct more; [|by injection H as <- _].
  skip_bind H. skip_bind H.
  by apply bind_returns in H as (? & _ & H%IH).
Qed.

Lemma MakeRoomFor_gen d n it d' i j : MakeRoomFor d n it = Ret (d', i, j) → generation_ d' = generation_ d.
Proof.
  unfold MakeRoomFor. intros H. destruct (n =? 0)%nat; [by injection H as <- _ _|].
  apply bind_returns in H as (d1 & E%Expand_gen & H).
  apply bind_returns in H as (d2 & E2%make_room_loop_gen & H). injection H as <- _ _. simpl in E2. congruence.
Qed.

Lemma erase_range_gen d a b d' i : erase_range d a b = Ret (d', i) → generation_ d' = bump 1 (generation_ d).
Proof.
  unfold erase_range. intros (? & _ & H)%bind_returns. skip_bind H.
  case_match; [by injection H as <- _|]. apply bind_returns in H as (c & _ & H). case_match; [by injection H as <- _|].
  apply bind_returns in H as ([d1 ?] & E%erase_loop_gen & H). injection H as <- _. simpl. by rewrite E.
Qed.

Lemma emplace_gen d it v d' i : emplace d it v = Ret (d', i) → generation_ d' = bump 1 (generation_ d).
Proof.
  unfold emplace. intros (? & _ & H)%bind_returns. apply bind_returns in H as (stop & _ & H). destruct stop.
  - apply bind_returns in H as (d1 & E%emplace_front_gen & H). by injection H as <- _.
  - apply bind_returns in H as ([[d1 ?] ?] & E%MakeRoomFor_gen & H). skip_bind H.
    injection H as <- _. simpl. by rewrite E.
Qed.

Lemma resize_gen d n v d' :
  RTC_DCHECK_IS_ON = true → resize d n v = Ret d' → (generation_ d < generation_ d')%nat.
Proof.
  intros Hdbg (d1 & E & H)%bind_returns. injection H as <-. simpl. rewrite Hdbg.
  assert (generation_ d ≤ generation_ d1)%nat; [|lia]. repeat case_match.
  - apply bind_returns in E as (d2 & E2%Expand_gen & E%resize_loop_gen). lia.
  - apply bind_returns in E as (d2 & E2%DestructRange_gen & E%Shrink_gen). simpl in E. lia.
  - by injection E as <-.
Qed.

Lemma insert_count_gen d it n v d' :
  RTC_DCHECK_IS_ON = true → insert_count d it n v = Ret d' → (0 < n)%nat → (generation_ d < generation_ d')%nat.
Proof.
  intros Hdbg (? & _ & H)%bind_returns Hn. apply bind_returns in H as (stop & _ & H). destruct stop.
  - apply bind_returns in H as (d1 & E%Expand_gen & H%push_front_n_gen). unfold bump in H. rewrite Hdbg in H. lia.
  - apply bind_returns in H as ([[d1 ?] ?] & E%MakeRoomFor_gen & H). apply bind_returns in H as (d2 & E2%fill_loop_gen & H).
    injection H as <-. simpl. rewrite Hdbg. lia.
Qed.

Lemma insert_range_gen d it items d' :
  RTC_DCHECK_IS_ON = true → insert_range d it items = Ret d' → items ≠ [] → (generation_ d < generation_ d')%nat.
Proof.
  unfold insert_range. intros Hdbg H Hn. skip_bind H. destruct (Nat.eqb_spec (length items) 0); [by destruct items|].
  apply bind_returns in H as (stop & _ & H). apply bind_returns in H as ([[d1 i1] i2] & E & H).
  apply bind_returns in H as (d2 & E2%fill_loop_gen & H). injection H as <-. simpl. rewrite Hdbg.
  assert (generation_ d1 = generation_ d); [|lia]. destruct stop; [|by apply MakeRoomFor_gen in E].
  apply bind_returns in E as (d3 & E3%Expand_gen & E). by injection E as <- _ _.
Qed.

(** Operations documented to invalidate iterators that are not no-ops. *)
Definition mutates (o : dop T) : bool :=
  match o with
  | Reserve _ | ShrinkToFit | Insert _ 0 _ | InsertRange _ [] => false
  | _ => true
  end.

Lemma mutates_gen d o d' :
  RTC_DCHECK_IS_ON = true → apply_op d o = Ret d' → mutates o = true → (generation_ d < generation_ d')%nat.
Proof.
  intros Hdbg H Hm.
  assert (∀ n g, (0 < n)%nat → (g < bump n g)%nat) as Hb by (intros; unfold bump; rewrite Hdbg; lia).
  destruct o as [v|v| | |k n v|k items|k v|k|j m|n v|n| | |n v|items|items]; try done; simpl in H.
  - apply emplace_back_gen in H. rewrite H. apply Hb. lia.
  - apply emplace_front_gen in H. rewrite H. apply Hb. lia.
  - apply pop_back_gen in H. rewrite H. apply Hb. lia.
  - apply pop_front_gen in H. rewrite H. apply Hb. lia.
  - skip_bind H. eapply insert_count_gen; [done..|]. destruct n; [done|lia].
  - skip_bind H. eapply insert_range_gen; [done..|]. by destruct items.
  - skip_bind H. destruct (emplace _ _ _) as [[d1 i]|] eqn:E; [|done]. injection H as <-.
    apply emplace_gen in E. simpl. rewrite E. apply Hb. lia.
  - skip_bind H. destruct (erase _ _) as [[d1 i]|] eqn:E; [|done]. injection H as <-. unfold erase in E.
    skip_bind E. apply erase_range_gen in E. simpl. rewrite E. apply Hb. lia.
  - do 2 skip_bind H. destruct (erase_range _ _ _) as [[d1 i]|] eqn:E; [|done]. injection H as <-.
    apply erase_range_gen in E. simpl. rewrite E. apply Hb. lia.
  - by apply resize_gen in H.
  - unfold clear in H. apply bind_returns in H as (d1 & E%Clear_gen & H). injection H as <-. simpl. rewrite E. apply Hb. lia.
  - unfold assign_count in H. apply bind_returns in H as (d1 & E1%Clear_gen & H).
    apply bind_returns in H as (d2 & E2%reserve_gen & H). apply bind_returns in H as (d3 & E3%emplace_back_all_gen & H).
    injection H as <-. unfold bump in *. simpl. rewrite Hdbg in *. lia.
  - unfold assign in H. apply bind_returns in H as (d1 & E1%Clear_gen & H).
    apply bind_returns in H as (d3 & E3%emplace_back_all_gen & H).
    injection H as <-. unfold bump in *. simpl. rewrite Hdbg in *. lia.
  - unfold assign_ilist, assign in H. apply bind_returns in H as (d2 & E2%reserve_gen & H).
    apply bind_returns in H as (d1 & E1%Clear_gen & H).
    apply bind_returns in H as (d3 & E3%emplace_back_all_gen & H).
    injection H as <-. unfold bump in *. simpl. rewrite Hdbg in *. lia.
Qed.

Lemma rep_nonempty d xs i x : rep d xs → xs !! i = Some x → rep_full d xs.
Proof. by intros [(_ & _ & ->)|Hr] Hx. Qed.

Lemma empty_begin_is_end d : rep d [] → begin_ d = end_ d.
Proof. intros [(_ & ? & _)|(H1 & H2 & H3 & _)]; [done|]. rewrite H3. simpl. ring_lia. Qed.

(** ** The theorems *)

(** C3: The deque refines a list.  Whatever sequence of operations a client
    performs from an empty deque (pushes, pops, insertions and erasures at any
    position, resizing, reserving, shrinking, clearing, assignments), if every
    operation is allowed on the list, and every list on the way and every
    number of items reserved leaves room for the growth policy ([n] items with
    [sizeof(T) * (n + n / 4 + 4) <= PTRDIFF_MAX], the function [fits]), then
    no check fails (the overflow check of an allocation included), no
    allocation fails, no access leaves the buffer, no cell without an object is
    destroyed or moved from, and the deque afterwards has the size, the items
    at every index, the front and the back of the list; and the destructor then
    destroys every object once, leaving none in the buffer. *)
Theorem circular_deque_refines_list (ops : list (dop T)) xs :
  spec [] ops = Some xs →
  ∃ d, run circular_deque_empty ops = Ret d ∧
    size d = length xs ∧ (length xs ≤ capacity d)%nat ∧
    (∀ i x, xs !! i = Some x → at_ d i = Ret x) ∧
    (∀ x ys, xs = x :: ys → front d = Ret x) ∧
    (∀ x ys, xs = ys ++ [x] → back d = Ret x) ∧
    deque_destroy d = Ret (replicate (internal_capacity d) None).
Proof.
  intros E. destruct (deque_run_ok ops circular_deque_empty [] xs rep_init E) as (d & Er & Hr). exists d.
  split_and!; [done|by apply rep_size|by apply rep_capacity| | | |by apply deque_destroy_ok with xs].
  - intros i x Hx. by apply at_ok with xs.
  - intros x ys ->. apply front_ok with ys. by apply rep_nonempty with 0%nat x.
  - intros x ys ->. apply back_ok with ys. apply rep_nonempty with (length ys) x; [done|]. by apply list_lookup_middle.
Qed.

(** Iterators walk the list.  In a deque that holds [xs], the iterator
    [begin() + i] exists for every [i] up to the size; it denotes item [i];
    incrementing and decrementing go to the neighbours, wherever the items
    wrap around in the buffer; adding any offset that stays inside gives the
    iterator there; and differences and comparisons of iterators are those of
    the positions. *)
Theorem circular_deque_iterators d xs (i j : nat) it jt :
  rep d xs → (i ≤ length xs)%nat → (j ≤ length xs)%nat →
  position d i = Ret it → position d j = Ret jt →
  (∀ x, xs !! i = Some x → iter_deref d it = Ret x) ∧
  ((i < length xs)%nat → ∃ nt, Increment d it = Ret nt ∧ position d (S i) = Ret nt ∧ Decrement d nt = Ret it) ∧
  (((i < length xs)%nat ∨ (j ≤ i)%nat) → (0 < length xs)%nat → iter_add d it (Z.of_nat j - Z.of_nat i) = Ret jt) ∧
  ((0 < length xs)%nat →
   iter_sub d jt it = Ret (Z.of_nat j - Z.of_nat i) ∧ iter_lt d it jt = Ret (i <? j)%nat ∧
   iter_eq it jt = Ret (i =? j)%nat).
Proof.
  intros Hr Hi Hj Ei Ej. rewrite (position_ok d xs i Hr Hi) in Ei. injection Ei as <-.
  rewrite (position_ok d xs j Hr Hj) in Ej. injection Ej as <-.
  split; [intros x Hx; apply iter_deref_ok with xs; [by apply rep_nonempty with i x|done]|].
  destruct Hr as [(_ & _ & ->)|Hf]; [simpl; split_and!; intros; lia|].
  assert (rep d xs) as Hr by (by right). apply rep_full_shape in Hf as [Hs _]. pose proof Hs as (H1 & H2 & _).
  split_and!.
  - intros Hlt. exists (iter_at d (S i)). split_and!; [by apply Increment_ok with (length xs)|by apply position_ok with xs|].
    by apply Decrement_ok with (length xs).
  - intros Hd _. rewrite (iter_add_ok d (length xs)) by (done || lia). do 2 f_equal. lia.
  - intros _. split_and!; [|apply iter_lt_at; lia|apply iter_eq_at; lia].
    unfold iter_sub, CheckComparable. rewrite !OffsetFromBegin_at by lia. simpl. rewrite Nat.eqb_refl. by pass.
Qed.

(** Whole-container operations.  The filling and range constructors give a
    deque with the items asked for; the copy constructor and copy assignment
    give a deque with the items of the source, reading the source only through
    its iterators; [swap] exchanges the contents; the move constructor leaves the items in the new deque and the source empty and
    usable; move assignment destroys the old items, each once, takes the
    source's and leaves the source empty and usable.  Constructing and copying
    need room for the items. *)
Theorem circular_deque_copy_move_swap d other xs ys :
  rep d xs → rep other ys →
  (∀ n v, fits n = true → ∃ d', construct_count n v = Ret d' ∧ rep d' (replicate n v)) ∧
  (∀ items, fits (length items) = true → ∃ d', construct_range items = Ret d' ∧ rep d' items) ∧
  (fits (length ys) = true → ∃ d', copy_construct other = Ret d' ∧ rep d' ys) ∧
  (fits (length ys) = true → ∃ d', copy_assign d other = Ret d' ∧ rep d' ys) ∧
  (let '(d', other') := deque_swap d other in rep d' ys ∧ rep other' xs) ∧
  (let '(new, other') := move_construct other in rep new ys ∧ rep other' []) ∧
  (∃ d' other', move_assign d other = Ret (d', other') ∧ rep d' ys ∧ rep other' []).
Proof.
  intros Hd Ho. split; [|split; [intros items; apply assign_ok with [], rep_init|split; [by apply copy_construct_ok|]]].
  { intros n v Hn. destruct (resize_ok circular_deque_empty [] n v rep_init Hn) as (d' & E & Hr). exists d'. split; [exact E|].
    by rewrite take_nil, Nat.sub_0_r in Hr. } split; [by apply copy_assign_ok with xs|]. split; [by split|]. split; [split; [done|by left]|].
  unfold move_assign. destruct (ClearRetainCapacity_ok d xs Hd) as (d1 & -> & _). rewrite bind_ret.
  do 2 eexists. split_and!; [done|done|by left].
Qed.

(** A buffer of no cells cannot take an item. *)
Lemma MoveBuffer_no_room d xs x :
  rep_full d (x :: xs) → MoveBuffer (buffer_ d) (begin_ d) (end_ d) [] = Crash OutOfBounds.
Proof.
  intros (H1 & H2 & H3 & Hc). unfold internal_capacity in *. simpl length in *.
  assert (object (buffer_ d) (begin_ d) = Ret x) as Hx.
  { apply object_ok. rewrite <-(cells_item _ _ _ 0 x Hc) by (done || lia). f_equal. ring_lia. }
  assert (∀ n, (0 < n)%nat → move_loop (buffer_ d) [] (begin_ d) 0 n = Crash OutOfBounds) as Hm.
  { intros [|n] Hn; [lia|]. simpl. by rewrite Hx. }
  assert (end_ d < length (buffer_ d))%nat as Hend by (rewrite H3; apply ring_lt; lia).
  unfold MoveBuffer, MoveRange. destruct (Nat.ltb_spec (begin_ d) (end_ d)) as [Hlt|Hge].
  { by rewrite !check_index_ok, !bind_ret, Hm by lia. }
  destruct (Nat.ltb_spec (end_ d) (begin_ d)) as [Hlt|Hge'].
  - by rewrite !check_index_ok, !bind_ret, Hm by lia.
  - exfalso. ring_lia.
Qed.

(** The bytes of a new buffer that do not fit. *)
Lemma VectorBuffer_too_large n :
  ptrdiff_max < sizeof_T * Z.of_nat n →
  VectorBuffer (T := T) n = Crash (if sizeof_T * Z.of_nat n <? 2 ^ size_bits then OutOfMemory else CheckFailed).
Proof.
  intros Hn. unfold VectorBuffer, RTC_CHECK. rewrite (proj2 (Z.leb_gt _ _) Hn). by destruct (_ <? _).
Qed.

(** C40: What [reserve] does for every value of its argument.  Up to the
    capacity it does nothing.  Beyond it, when the new buffer of
    [new_capacity + 1] items has at most [PTRDIFF_MAX] bytes, the items are
    kept and the capacity is the one asked for; when it has more bytes the
    allocation cannot be made; when their number does not fit [size_t] the check of the
    allocation stops the program.  For the largest [size_t], though,
    [new_capacity + 1] wraps around to zero before that check: it passes, an
    empty deque is left with no capacity, and the items of any other deque are
    moved outside of the new buffer. *)
Theorem circular_deque_reserve_exact d xs n :
  rep d xs → Z.of_nat n < 2 ^ size_bits →
  ((n ≤ capacity d)%nat → reserve d n = Ret d) ∧
  ((capacity d < n)%nat →
   let bytes := sizeof_T * (Z.of_nat n + 1) in
   (bytes ≤ ptrdiff_max →
      ∃ d', reserve d n = Ret d' ∧ rep d' xs ∧ capacity d' = n ∧ generation_ d' = generation_ d) ∧
   (ptrdiff_max < bytes < 2 ^ size_bits → reserve d n = Crash OutOfMemory) ∧
   (2 ^ size_bits ≤ bytes → Z.of_nat n + 1 < 2 ^ size_bits → reserve d n = Crash CheckFailed) ∧
   (Z.of_nat n + 1 = 2 ^ size_bits →
      (xs = [] → ∃ d', reserve d n = Ret d' ∧ rep d' [] ∧ capacity d' = 0%nat) ∧
      (xs ≠ [] → reserve d n = Crash OutOfBounds))).
Proof.
  intros Hr Hn. unfold reserve. split; [intros Hle; by rewrite (proj2 (Nat.ltb_ge _ _) Hle)|].
  intros Hlt. set (bytes := sizeof_T * (Z.of_nat n + 1)). rewrite (proj2 (Nat.ltb_lt _ _) Hlt). pose proof modulus_half as [Hm Hp].
  pose proof (rep_capacity _ _ Hr).
  assert (Z.of_nat n + 1 < 2 ^ size_bits → size_add n 1 = (n + 1)%nat) as Hadd.
  { intros. unfold size_add. rewrite wrapU_small; lia. }
  assert (bytes = sizeof_T * Z.of_nat (n + 1)) as Hb by (unfold bytes; lia). clearbody bytes.
  pose proof sizeof_T_pos. split_and!.
  - intros Hle. destruct (SetCapacityTo_ok d xs n Hr) as (d' & E & Hf & Hc & Hg); [lia|apply max_cells_spec; lia|].
    exists d'. split_and!; [done|by right|done..].
  - intros Hby. assert (Z.of_nat n + 1 < 2 ^ size_bits) by nia. unfold SetCapacityTo.
    rewrite Hadd, VectorBuffer_too_large by lia. by rewrite <-Hb, (proj2 (Z.ltb_lt _ _)) by lia.
  - intros Hby Hn1. unfold SetCapacityTo.
    rewrite Hadd, VectorBuffer_too_large by lia. by rewrite <-Hb, (proj2 (Z.ltb_ge _ _)) by lia.
  - intros Hn1. unfold SetCapacityTo.
    assert (size_add n 1 = 0%nat) as ->.
    { unfold size_add, wrapU. replace (Z.of_nat n + Z.of_nat 1) with (2 ^ size_bits) by lia. by rewrite Z.mod_same by lia. }
    rewrite VectorBuffer_ok, bind_ret by lia. simpl. split.
    + intros ->. unfold MoveBuffer. rewrite (empty_begin_is_end d Hr), !Nat.ltb_irrefl, bind_ret.
      eexists. split_and!; [done|by left|done].
    + intros Hne. destruct xs as [|x xs]; [done|].
      rewrite (MoveBuffer_no_room d xs x); [done|]. by apply rep_nonempty with 0%nat x.
Qed.

End Contract.

(** ** Debug builds *)

Section DebugBuild.
Context {lay : ItemLayout} {T : Type}.
Implicit Types (d : circular_deque T) (xs : list T).
#[local] Existing Instance debug_build.

Lemma dcheck_fails {A} (b : bool) (k : unit → outcome A) : b = false → RTC_DCHECK b ≫= k = Crash DCheckFailed.
Proof. by intros ->. Qed.

Lemma end_invalid d : CheckValidIndex d (end_ d) = Crash DCheckFailed.
Proof.
  unfold CheckValidIndex. rewrite Nat.ltb_irrefl, andb_false_r. by destruct (begin_ d <=? end_ d)%nat.
Qed.

Lemma CheckValidIndex_cases d i :
  CheckValidIndex d i = Ret tt ∨ CheckValidIndex d i = Crash DCheckFailed.
Proof.
  unfold CheckValidIndex, RTC_DCHECK. simpl RTC_DCHECK_IS_ON. case_match; case_match; (by left) || (by right).
Qed.

Lemma rep_offset d xs i :
  rep d xs → (i ≤ length xs)%nat → OffsetFromBegin d (iter_at d i) = i ∧ (i ≤ max_cells)%nat.
Proof.
  intros [(Hb & _ & ->)|(H1 & H2 & _)] Hi; [|split; [apply OffsetFromBegin_at|]; lia].
  simpl in Hi. unfold OffsetFromBegin, iter_at, iter, internal_capacity. rewrite Hb. simpl. split; [ring_lia|lia].
Qed.

(** Moving the iterator at position [i] by [delta] out of the deque. *)
Lemma iter_add_outside d xs i delta :
  rep d xs → (i ≤ length xs)%nat → - ptrdiff_max - 1 ≤ delta ≤ ptrdiff_max →
  Z.of_nat i + delta < 0 ∨ Z.of_nat (length xs) < Z.of_nat i + delta →
  iter_add d (iter_at d i) delta = Crash DCheckFailed.
Proof.
  intros Hr Hi Hd Hout. destruct (rep_offset d xs i Hr Hi) as [Ho Hmax]. unfold iter_add.
  rewrite usage_ok, bind_ret. simpl RTC_DCHECK_IS_ON. cbv iota.
  assert (∀ A (k : unit → outcome A) c, c = Ret tt ∨ c = Crash DCheckFailed → k tt = Crash DCheckFailed →
            c ≫= k = Crash DCheckFailed) as Hseq by (by intros A k c [-> | ->] Hk).
  apply Hseq.
  { unfold CheckValidIndexOrEnd. repeat case_match; try apply CheckValidIndex_cases. by left. }
  rewrite (proj2 (Z.eqb_neq delta 0)) by lia. apply dcheck_fails.
  rewrite Ho, offset_wrap, (rep_size _ _ Hr) by done. pose proof max_cells_modulus. pose proof modulus_half as [Hm _].
  pose proof (proj1 (max_cells_spec max_cells) (Nat.le_refl _)). pose proof sizeof_T_pos.
  rewrite Z.geb_leb, andb_false_iff, !Z.leb_gt. case_match; lia.
Qed.

(** C39: With debug checks, these misuses are caught before memory is
    touched: reading either end of an empty deque or popping from it, indexing
    at or past the size, adding to an iterator at any position of the deque any
    [ptrdiff_t] that leads before the beginning or past the end, dereferencing,
    incrementing or erasing [end()].  ([--begin()] is not checked, as
    [circular_deque_decrement_begin] shows.) *)
Theorem circular_deque_misuse_caught d xs :
  rep d xs →
  (xs = [] → front d = Crash DCheckFailed ∧ back d = Crash DCheckFailed ∧
             pop_front d = Crash DCheckFailed ∧ pop_back d = Crash DCheckFailed) ∧
  (∀ i, (length xs ≤ i)%nat → at_ d i = Crash DCheckFailed) ∧
  (∀ i it delta, (i ≤ length xs)%nat → position d i = Ret it → - ptrdiff_max - 1 ≤ delta ≤ ptrdiff_max →
     Z.of_nat i + delta < 0 ∨ Z.of_nat (length xs) < Z.of_nat i + delta →
     iter_add d it delta = Crash DCheckFailed) ∧
  iter_deref d (deque_end d) = Crash DCheckFailed ∧
  Increment d (deque_end d) = Crash DCheckFailed ∧
  erase d (deque_end d) = Crash DCheckFailed.
Proof.
  intros Hr. pose proof (rep_size _ _ Hr) as Hs.
  assert (CheckUnstableUsage d (deque_end d) = Ret tt) as Hu by apply dcheck_pass, Nat.eqb_refl.
  split_and!.
  - intros ->. unfold front, back, pop_front, pop_back. rewrite (rep_empty _ _ Hr), Hs. done.
  - intros i Hi. unfold at_. apply dcheck_fails. rewrite Hs. by apply Nat.ltb_ge.
  - intros i it delta Hi Ei. rewrite (position_ok d xs i Hr Hi) in Ei. injection Ei as <-.
    by apply iter_add_outside.
  - unfold iter_deref. rewrite Hu, bind_ret. simpl index_. by rewrite end_invalid.
  - unfold Increment. rewrite Hu, bind_ret. simpl index_. by rewrite end_invalid.
  - unfold erase, iter_add. rewrite Hu, bind_ret. simpl index_. by rewrite end_invalid.
Qed.

(** With debug checks, an iterator obtained before any mutation (other
    than [reserve] and [shrink_to_fit]) is detected as stale afterwards: it
    can neither be dereferenced, moved, nor used as a position to insert or
    erase at. *)
Theorem circular_deque_stale_iterator_caught d d' (o : dop T) (it last : iterator) (delta : Z) v items n :
  apply_op d o = Ret d' → mutates o = true → created_generation_ it = generation_ d →
  iter_deref d' it = Crash DCheckFailed ∧ Increment d' it = Crash DCheckFailed ∧
  Decrement d' it = Crash DCheckFailed ∧ iter_add d' it delta = Crash DCheckFailed ∧
  insert_count d' it n v = Crash DCheckFailed ∧ insert_range d' it items = Crash DCheckFailed ∧
  emplace d' it v = Crash DCheckFailed ∧ erase_range d' it last = Crash DCheckFailed.
Proof.
  intros H Hm Hg. pose proof (mutates_gen d o d' eq_refl H Hm) as Hlt.
  assert (CheckUnstableUsage d' it = Crash DCheckFailed) as Hu.
  { unfold CheckUnstableUsage, RTC_DCHECK. rewrite (proj2 (Nat.eqb_neq _ _)) by lia. done. }
  unfold iter_deref, Increment, Decrement, iter_add, insert_count, insert_range, emplace, erase_range, ValidateIterator.
  by rewrite Hu.
Qed.

End DebugBuild.

(** Items of four bytes on a 32-bit target. *)
Definition items_of_4_bytes : ItemLayout :=
  {| size_bits := 32; sizeof_T := 4; size_bits_cases := or_introl eq_refl; sizeof_T_pos := eq_refl |}.

(** [reserve] and [shrink_to_fit] move every item but do not advance the
    generation: after [reserve], an iterator obtained before it still passes
    the staleness check of a debug build and silently denotes another item. *)
Theorem circular_deque_reserve_stale_iterator :
  (∀ {bm : BuildMode} {lay : ItemLayout} {T} (d d' : circular_deque T) n,
     reserve d n = Ret d' → generation_ d' = generation_ d) ∧
  (∀ {bm : BuildMode} {lay : ItemLayout} {T} (d d' : circular_deque T),
     shrink_to_fit d = Ret d' → generation_ d' = generation_ d) ∧
  ∃ (d d' : circular_deque Z) it,
    run (bm := debug_build) (lay := items_of_4_bytes) circular_deque_empty [PushBack 1; PushBack 2; PushBack 3; PopFront] = Ret d ∧
    it = deque_begin d ∧ iter_deref (bm := debug_build) d it = Ret 2 ∧
    reserve (lay := items_of_4_bytes) d 8 = Ret d' ∧ iter_deref (bm := debug_build) d' it = Ret 3.
Proof.
  split; [intros; by eapply reserve_gen|]. split; [intros; by eapply shrink_to_fit_gen|].
  do 3 eexists. split_and!; [vm_compute; reflexivity|reflexivity|vm_compute; reflexivity..].
Qed.

(** In a debug build [--begin()] gives an iterator outside of the items. *)
Example circular_deque_decrement_begin :
  Decrement (bm := debug_build) (mkDeque [Some 5; None; None; Some 4] 3 1 0)
    (deque_begin (mkDeque [Some 5; None; None; Some 4] 3 1 0)) = Ret (mkIter 2 0).
Proof. reflexivity. Qed.

(** ** Witnesses *)

Lemma circular_deque_refines_list_witness :
  ∃ d, run (bm := debug_build) (lay := items_of_4_bytes) circular_deque_empty
         [PushBack 1; PushBack 2; PushFront 0; InsertRange 1 [7; 8]; Erase 0; PopBack; Emplace 2 9; Reserve 20] = Ret d ∧
    size d = 4%nat ∧ back (bm := debug_build) d = Ret 1.
Proof.
  destruct (circular_deque_refines_list (bm := debug_build) (lay := items_of_4_bytes)
    [PushBack 1; PushBack 2; PushFront 0; InsertRange 1 [7; 8]; Erase 0; PopBack; Emplace 2 9; Reserve 20] [7; 8; 9; 1])
    as (d & E & Hs & _ & _ & _ & Hb & _); [by vm_compute|].
  exists d. split_and!; [exact E|exact Hs|by apply (Hb 1 [7; 8; 9])].
Defined.

Lemma circular_deque_iterators_witness :
  let d := mkDeque [Some 5; None; None; Some 4] 3 1 0 in
  ∃ nt, Increment (bm := debug_build) d (mkIter 3 0) = Ret nt ∧
        position (bm := debug_build) (lay := items_of_4_bytes) d 1 = Ret nt ∧
        Decrement (bm := debug_build) d nt = Ret (mkIter 3 0).
Proof.
  intros d.
  destruct (circular_deque_iterators (bm := debug_build) (lay := items_of_4_bytes) d [4; 5] 0 2 (mkIter 3 0) (mkIter 1 0))
    as (_ & H & _);
    [|simpl; lia|simpl; lia|by vm_compute|by vm_compute|apply H; simpl; lia].
  right. split_and!; [vm_compute; lia|vm_compute; lia|by apply max_cells_spec|by vm_compute|].
  intros i Hi. simpl in Hi. do 4 (destruct i as [|i]; [by vm_compute|]). lia.
Defined.

Lemma circular_deque_copy_move_swap_witness :
  ∃ d' other', move_assign (bm := debug_build) (mkDeque [Some 5; None] 0 1 0) (mkDeque [None; Some 6] 1 0 3)
                 = Ret (d', other') ∧ rep (lay := items_of_4_bytes) d' [6] ∧ rep (lay := items_of_4_bytes) other' [].
Proof.
  destruct (circular_deque_copy_move_swap (bm := debug_build) (lay := items_of_4_bytes)
              (mkDeque [Some 5; None] 0 1 0) (mkDeque [None; Some 6] 1 0 3) [5] [6])
    as (_ & _ & _ & _ & _ & _ & H); [| |exact H].
  all: right; split_and!; [vm_compute; lia|vm_compute; lia|by apply max_cells_spec|by vm_compute|];
    intros i Hi; simpl in Hi; do 2 (destruct i as [|i]; [by vm_compute|]); lia.
Defined.

(** A deque of two items that wraps around: its second item, moved by two
    places or by minus two, would leave it. *)
Lemma circular_deque_misuse_caught_witness :
  iter_add (bm := debug_build) (lay := items_of_4_bytes) (mkDeque [Some 5; None; None; Some 4] 3 1 0) (mkIter 0 0) 2
    = Crash DCheckFailed ∧
  iter_add (bm := debug_build) (lay := items_of_4_bytes) (mkDeque [Some 5; None; None; Some 4] 3 1 0) (mkIter 0 0) (-2)
    = Crash DCheckFailed.
Proof.
  destruct (circular_deque_misuse_caught (lay := items_of_4_bytes) (mkDeque [Some 5; None; None; Some 4] 3 1 0) [4; 5])
    as (_ & _ & H & _).
  - right. split_and!; [vm_compute; lia|vm_compute; lia|by apply max_cells_spec|by vm_compute|].
    intros i Hi; simpl in Hi; do 4 (destruct i as [|i]; [by vm_compute|]); lia.
  - split; apply (H 1%nat); [simpl; lia|by vm_compute|by vm_compute|simpl; lia|simpl; lia|by vm_compute|by vm_compute|simpl; lia].
Defined.

(** Reserving the largest [size_t] on a 32-bit target. *)
Lemma circular_deque_reserve_exact_witness :
  reserve (lay := items_of_4_bytes) (mkDeque [Some 5; None; None; Some 4] 3 1 0) (Z.to_nat 4294967295)
    = Crash OutOfBounds ∧
  reserve (lay := items_of_4_bytes) (mkDeque [Some 5; None; None; Some 4] 3 1 0) (Z.to_nat 2000000000)
    = Crash CheckFailed.
Proof.
  assert (rep (lay := items_of_4_bytes) (mkDeque [Some 5; None; None; Some 4] 3 1 0) [4; 5]) as Hr.
  { right. split_and!; [vm_compute; lia|vm_compute; lia|by apply max_cells_spec|by vm_compute|].
    intros i Hi; simpl in Hi; do 4 (destruct i as [|i]; [by vm_compute|]); lia. }
  split.
  - destruct (circular_deque_reserve_exact (lay := items_of_4_bytes) _ _ (Z.to_nat 4294967295) Hr) as [_ H]; [simpl; lia|].
    destruct H as (_ & _ & _ & H); [change (3 < Z.to_nat 4294967295)%nat; lia|]. apply H; [simpl; lia|done].
  - destruct (circular_deque_reserve_exact (lay := items_of_4_bytes) _ _ (Z.to_nat 2000000000) Hr) as [_ H]; [simpl; lia|].
    destruct H as (_ & _ & H & _); [change (3 < Z.to_nat 2000000000)%nat; lia|]. apply H; simpl; lia.
Defined.

Lemma circular_deque_stale_iterator_caught_witness :
  ∃ d', emplace_back (bm := debug_build) (lay := items_of_4_bytes) (mkDeque [Some 5; None; None; None] 0 1 0) 6 = Ret d' ∧
        iter_deref (bm := debug_build) d' (mkIter 0 0) = Crash DCheckFailed.
Proof.
  eexists. split; [by vm_compute|].
  apply (circular_deque_stale_iterator_caught (lay := items_of_4_bytes) (mkDeque [Some 5; None; None; None] 0 1 0) _ (PushBack 6) (mkIter 0 0)
           (mkIter 0 0) 0 0 [] 0); by vm_compute.
Defined.
