(* ===== verification/IntrusiveHeap.v ===== *)
(** * The intrusive heap

    Model of [base::IntrusiveHeap] of
    [src/include/base/containers/intrusive_heap.h]: a binary max-heap in a
    vector whose elements can be found, changed and removed through handles
    the heap keeps up to date.  A cell of the vector is [Some x], or [None]
    when its object has been moved from: comparing such an object is an error
    of the model, so theorems that say an operation returns also say that no
    moved-from object is ever compared.  Handles are those of
    [InternalHeapHandleStorage]: an element that has a handle owns a
    [HeapHandle] elsewhere in memory, and [handles_] is that memory.  A handle
    is absent from it when invalid ([kInvalidIndex]); an index of the vector
    never is [kInvalidIndex].  The order is a parameter, as in the source. *)

From Stdlib Require Import Sorted.
From stdpp Require Import gmap.
From S2P Require Import Prelude.

#[local] Set Warnings "-clear-no-such-hyp".

Abbreviation DCHECK := RTC_DCHECK.

(** The template parameter [Compare]. *)
Class Compare (T : Type) := { less : T → T → bool }.

(** What the heap, like every ordered container, requires of it. *)
Class StrictWeakOrder (T : Type) `{Compare T} : Prop := {
  less_irrefl x : less x x = false;
  less_trans x y z : less x y = true → less y z = true → less x z = true;
  less_weak x y z : less x z = true → less x y = true ∨ less y z = true
}.

(** The member [handle_] of an element: the address of its handle, if any. *)
Class HeapHandleStorage (T K : Type) := { handle_ : T → option K }.

Section IntrusiveHeap.
Context {bm : BuildMode} {T K : Type} `{!EqDecision K, !Countable K} `{!Compare T} `{!HeapHandleStorage T K}.

Record IntrusiveHeap := mkHeap { heap_ : list (option T); handles_ : gmap K nat }.

Definition IntrusiveHeap_init (handles : gmap K nat) : IntrusiveHeap := mkHeap [] handles.

Definition size (h : IntrusiveHeap) : nat := length (heap_ h).
Definition empty (h : IntrusiveHeap) : bool := (size h =? 0)%nat.

(** ** Handles of elements *)

Definition storage_Set (handles : gmap K nat) (c : option T) (index : nat) : gmap K nat :=
  match c ≫= handle_ with Some k => <[k := index]> handles | None => handles end.

Definition storage_Clear (handles : gmap K nat) (c : option T) : gmap K nat :=
  match c ≫= handle_ with Some k => delete k handles | None => handles end.

Definition storage_Get (handles : gmap K nat) (c : option T) : option nat :=
  match c ≫= handle_ with Some k => handles !! k | None => None end.

Definition CheckInvalidOrEqualTo (handle : option nat) (index : nat) : outcome unit :=
  match handle with Some i => DCHECK (index =? i)%nat | None => Ret tt end.

(** [heap_[i]]. *)
Definition cell (h : IntrusiveHeap) (i : nat) : outcome (option T) :=
  from_option_or OutOfBounds (heap_ h !! i).

(** The value of the element at [i]. *)
Definition element_at (h : IntrusiveHeap) (i : nat) : outcome T :=
  c ← cell h i; from_option_or UninitRead c.

Definition GetHeapHandle (h : IntrusiveHeap) (i : nat) : outcome (option nat) :=
  c ← cell h i; Ret (storage_Get (handles_ h) c).

Definition SetHeapHandle (h : IntrusiveHeap) (i : nat) : outcome IntrusiveHeap :=
  c ← cell h i;
  let h := mkHeap (heap_ h) (storage_Set (handles_ h) c i) in
  handle ← GetHeapHandle h i;
  CheckInvalidOrEqualTo handle i ≫= λ _, Ret h.

Definition ClearHeapHandle (h : IntrusiveHeap) (i : nat) : outcome IntrusiveHeap :=
  c ← cell h i;
  let h := mkHeap (heap_ h) (storage_Clear (handles_ h) c) in
  handle ← GetHeapHandle h i;
  DCHECK (match handle with Some _ => false | None => true end) ≫= λ _, Ret h.

(** ** Indices and comparisons *)

(** Only called with [i] other than 0. *)
Definition ParentIndex (i : nat) : outcome nat :=
  DCHECK (negb (i =? 0)%nat) ≫= λ _, Ret ((i - 1) / 2)%nat.

Definition LeftIndex (i : nat) : nat := (2 * i + 1)%nat.

Definition GetLastIndex (h : IntrusiveHeap) : nat := (size h - 1)%nat.

(** The three overloads of [Less]: two positions, an element and a position,
    a position and an element. *)
Definition Less (h : IntrusiveHeap) (i j : nat) : outcome bool :=
  DCHECK (i <? size h)%nat ≫= λ _, DCHECK (j <? size h)%nat ≫= λ _,
  x ← element_at h i; y ← element_at h j; Ret (less x y).

Definition Less_element_pos (h : IntrusiveHeap) (element : T) (i : nat) : outcome bool :=
  DCHECK (i <? size h)%nat ≫= λ _, y ← element_at h i; Ret (less element y).

Definition Less_pos_element (h : IntrusiveHeap) (i : nat) (element : T) : outcome bool :=
  DCHECK (i <? size h)%nat ≫= λ _, x ← element_at h i; Ret (less x element).

(** ** Holes *)

Definition MakeHole (h : IntrusiveHeap) (pos : nat) : outcome IntrusiveHeap :=
  DCHECK (pos <? size h)%nat ≫= λ _, ClearHeapHandle h pos.

(** [heap_[pos] = element], or [push_back] one past the end. *)
Definition store (cells : list (option T)) (pos : nat) (element : T) : list (option T) :=
  if (pos =? length cells)%nat then cells ++ [Some element] else <[pos := Some element]> cells.

Definition FillHole (h : IntrusiveHeap) (hole_pos : nat) (element : T) : outcome IntrusiveHeap :=
  DCHECK (hole_pos <=? size h)%nat ≫= λ _,
  SetHeapHandle (mkHeap (store (heap_ h) hole_pos element) (handles_ h)) hole_pos.

Definition MoveHole (h : IntrusiveHeap) (new_hole_pos old_hole_pos : nat) : outcome IntrusiveHeap :=
  DCHECK (negb (new_hole_pos =? old_hole_pos)%nat) ≫= λ _,
  DCHECK (new_hole_pos <? size h)%nat ≫= λ _,
  DCHECK (old_hole_pos <=? size h)%nat ≫= λ _,
  x ← element_at h new_hole_pos;
  SetHeapHandle (mkHeap (<[new_hole_pos := None]> (store (heap_ h) old_hole_pos x)) (handles_ h)) old_hole_pos.

(** The loop of [MoveHoleUpAndFill]; the hole goes up in every pass. *)
Fixpoint hole_up_loop (fuel : nat) (h : IntrusiveHeap) (hole_pos : nat) (element : T)
    : outcome (IntrusiveHeap * nat) :=
  match fuel with
  | O => Ret (h, hole_pos)
  | S fuel =>
      if (hole_pos =? 0)%nat then Ret (h, hole_pos) else
      parent ← ParentIndex hole_pos;
      smaller ← Less_pos_element h parent element;
      if negb smaller then Ret (h, hole_pos) else
      h ← MoveHole h parent hole_pos;
      hole_up_loop fuel h parent element
  end.

Definition MoveHoleUpAndFill (h : IntrusiveHeap) (hole_pos : nat) (element : T) : outcome (IntrusiveHeap * nat) :=
  DCHECK (hole_pos <=? size h)%nat ≫= λ _,
  '(h, hole_pos) ← hole_up_loop (S hole_pos) h hole_pos element;
  h ← FillHole h hole_pos element;
  Ret (h, hole_pos).

(** The loop of [MoveHoleDownAndFill]; the hole goes down in every pass, and
    stays below [n]. *)
Fixpoint hole_down_loop (fuel : nat) (kIsLeafElement : bool) (h : IntrusiveHeap) (n hole_pos : nat) (element : T)
    : outcome (IntrusiveHeap * nat) :=
  match fuel with
  | O => Ret (h, hole_pos)
  | S fuel =>
      let left := LeftIndex hole_pos in
      if (n <=? left)%nat then Ret (h, hole_pos) else
      let right := (left + 1)%nat in
      right_larger ← (if (right <? n)%nat then Less h left right else Ret false);
      let largest := if right_larger : bool then right else left in
      stop ← (if kIsLeafElement then Ret false
              else smaller ← Less_element_pos h element largest; Ret (negb smaller));
      if stop : bool then Ret (h, hole_pos) else
      h ← MoveHole h largest hole_pos;
      hole_down_loop fuel kIsLeafElement h n largest element
  end.

Definition MoveHoleDownAndFill (kIsLeafElement : bool) (h : IntrusiveHeap) (hole_pos : nat) (element : T)
    : outcome (IntrusiveHeap * nat) :=
  DCHECK (hole_pos <? size h)%nat ≫= λ _,
  let n := (size h - (if kIsLeafElement then 1 else 0))%nat in
  DCHECK (hole_pos <? n)%nat ≫= λ _,
  handle ← GetHeapHandle h hole_pos;
  DCHECK (match handle with Some _ => false | None => true end) ≫= λ _,
  '(h, hole_pos) ← hole_down_loop n kIsLeafElement h n hole_pos element;
  if kIsLeafElement then MoveHoleUpAndFill h hole_pos element
  else h ← FillHole h hole_pos element; Ret (h, hole_pos).

(** ** Operations

    The iterators returned are positions. *)

Definition InsertImpl (h : IntrusiveHeap) (element : T) : outcome (IntrusiveHeap * nat) :=
  MoveHoleUpAndFill h (size h) element.

Fixpoint insert_range (h : IntrusiveHeap) (items : list T) : outcome IntrusiveHeap :=
  match items with
  | [] => Ret h
  | x :: items => '(h, _) ← InsertImpl h x; insert_range h items
  end.

(** The object moved out of a cell. *)
Definition move_out (h : IntrusiveHeap) (pos : nat) : outcome (IntrusiveHeap * T) :=
  x ← element_at h pos; Ret (mkHeap (<[pos := None]> (heap_ h)) (handles_ h), x).

(** [heap_.pop_back()]. *)
Definition pop_last (h : IntrusiveHeap) : IntrusiveHeap := mkHeap (take (size h - 1) (heap_ h)) (handles_ h).

(** What [take] and [erase] do to close the hole at [pos]. *)
Definition close_hole (h : IntrusiveHeap) (pos : nat) : outcome IntrusiveHeap :=
  h ← (if negb (pos =? GetLastIndex h)%nat then
         h ← MakeHole h (GetLastIndex h);
         '(h, leaf) ← move_out h (GetLastIndex h);
         '(h, _) ← MoveHoleDownAndFill true h pos leaf;
         Ret h
       else Ret h);
  Ret (pop_last h).

Definition take_ (h : IntrusiveHeap) (pos : nat) : outcome (IntrusiveHeap * T) :=
  h ← MakeHole h pos;
  '(h, val) ← move_out h pos;
  h ← close_hole h pos;
  Ret (h, val).

Definition take_top (h : IntrusiveHeap) : outcome (IntrusiveHeap * T) := take_ h 0.

Definition erase (h : IntrusiveHeap) (pos : nat) : outcome IntrusiveHeap :=
  DCHECK (pos <? size h)%nat ≫= λ _,
  h ← MakeHole h pos;
  close_hole h pos.

Definition pop (h : IntrusiveHeap) : outcome IntrusiveHeap := erase h 0.

Definition Update (h : IntrusiveHeap) (pos : nat) : outcome (IntrusiveHeap * nat) :=
  DCHECK (pos <? size h)%nat ≫= λ _,
  h ← MakeHole h pos;
  child_greater_eq_parent ←
    (if (0 <? pos)%nat then i ← ParentIndex pos; smaller ← Less h pos i; Ret (negb smaller) else Ret false);
  '(h, element) ← move_out h pos;
  if child_greater_eq_parent : bool then MoveHoleUpAndFill h pos element
  else MoveHoleDownAndFill false h pos element.

(** [Modify(pos, unary_op)]. *)
Definition Modify (h : IntrusiveHeap) (pos : nat) (unary_op : T → T) : outcome (IntrusiveHeap * nat) :=
  x ← element_at h pos;
  Update (mkHeap (<[pos := Some (unary_op x)]> (heap_ h)) (handles_ h)) pos.

Definition ReplaceImpl (h : IntrusiveHeap) (pos : nat) (element : T) : outcome (IntrusiveHeap * nat) :=
  h ← MakeHole h pos;
  smaller ← Less_element_pos h element pos;
  if negb smaller then MoveHoleUpAndFill h pos element
  else MoveHoleDownAndFill false h pos element.

Definition ReplaceTopImpl (h : IntrusiveHeap) (element : T) : outcome (IntrusiveHeap * nat) :=
  h ← MakeHole h 0;
  MoveHoleDownAndFill false h 0 element.

Definition top (h : IntrusiveHeap) : outcome T := element_at h 0.

(** [for (i = 0; i < size(); ++i) ClearHeapHandle(i)]; [n] positions are left. *)
Fixpoint clear_loop (n : nat) (h : IntrusiveHeap) (i : nat) : outcome IntrusiveHeap :=
  match n with O => Ret h | S n => h ← ClearHeapHandle h i; clear_loop n h (S i) end.

Definition clear (h : IntrusiveHeap) : outcome IntrusiveHeap :=
  h ← clear_loop (size h) h 0; Ret (mkHeap [] (handles_ h)).

(** The index of a handle, as used by the versions of the operations that
    take a handle; [at] with an invalid handle is out of range. *)
Definition ToIndex (h : IntrusiveHeap) (k : K) : outcome nat := from_option_or OutOfBounds (handles_ h !! k).

Definition at_handle (h : IntrusiveHeap) (k : K) : outcome T := i ← ToIndex h k; element_at h i.

End IntrusiveHeap.
Arguments IntrusiveHeap T K {_ _}.

(** ** Cells *)

Section Cells.
Context {T : Type}.
Implicit Types (c : list (option T)) (x y : T).

(** The objects in the cells. *)
Definition objects c : list T := omap id c.

Lemma objects_set c p x : (p < length c)%nat → objects (<[p := Some x]> c) ≡ₚ x :: objects (<[p := None]> c).
Proof.
  revert p. induction c as [|[y|] c IH]; intros [|p] Hp; simpl in *; try lia; try done.
  - unfold objects in *. simpl. rewrite IH by lia. apply Permutation_swap.
  - unfold objects in *. simpl. apply IH. lia.
Qed.

Lemma objects_clear c p x : c !! p = Some (Some x) → objects c ≡ₚ x :: objects (<[p := None]> c).
Proof.
  intros Hp. rewrite <-(list_insert_id c p (Some x)) at 1 by done. apply objects_set. by eapply lookup_lt_Some.
Qed.

Lemma elem_of_objects c x : x ∈ objects c ↔ ∃ i, c !! i = Some (Some x).
Proof.
  unfold objects. rewrite list_elem_of_omap. split.
  - intros (o & Ho & E). simpl in E. subst. by apply list_elem_of_lookup in Ho.
  - intros [i Hi]. exists (Some x). split; [|done]. by eapply list_elem_of_lookup_2.
Qed.

Lemma objects_app c1 c2 : objects (c1 ++ c2) = objects c1 ++ objects c2.
Proof. apply omap_app. Qed.

(** A hole one past the end is a moved-from cell there. *)
Definition pad (p : nat) c : list (option T) := if (p =? length c)%nat then c ++ [None] else c.

Lemma pad_length p c : (p ≤ length c)%nat → (p < length (pad p c))%nat.
Proof. intros. unfold pad. zcase; [rewrite length_app; simpl; lia|lia]. Qed.

Lemma pad_inside p c : (p < length c)%nat → pad p c = c.
Proof. intros. unfold pad. zcase; [lia|done]. Qed.

Lemma pad_live p c i x : pad p c !! i = Some (Some x) ↔ c !! i = Some (Some x).
Proof.
  unfold pad. zcase; [|done]. split; intros H.
  - apply lookup_app_Some in H as [?|[_ H]]; [done|]. by apply list_lookup_singleton_Some in H as [_ ?].
  - by apply lookup_app_l_Some.
Qed.

Lemma store_pad c p x : (p ≤ length c)%nat → store c p x = <[p := Some x]> (pad p c).
Proof.
  intros. unfold store, pad. zcase; [|done]. subst. by rewrite insert_app_r_alt, Nat.sub_diag by lia.
Qed.

(** The cells after the hole has moved from [p] to [q]. *)
Lemma moved_live c p q x i y :
  (p < length c)%nat → p ≠ q →
  <[q := None]> (<[p := Some x]> c) !! i = Some (Some y) ↔
  i ≠ q ∧ ((i = p ∧ y = x) ∨ (i ≠ p ∧ c !! i = Some (Some y))).
Proof.
  intros Hp Hpq. destruct (decide (i = q)) as [->|Hq].
  { split; [|by intros []]. intros [[_ ?]|[? _]]%list_lookup_insert_Some; [naive_solver|done]. }
  rewrite list_lookup_insert_ne by done. destruct (decide (i = p)) as [->|Hip].
  - rewrite list_lookup_insert_eq by done. naive_solver.
  - rewrite list_lookup_insert_ne by done. naive_solver.
Qed.

Lemma filled_live c p x i y :
  (p < length c)%nat →
  <[p := Some x]> c !! i = Some (Some y) ↔ (i = p ∧ y = x) ∨ (i ≠ p ∧ c !! i = Some (Some y)).
Proof.
  intros Hp. destruct (decide (i = p)) as [->|Hip].
  - rewrite list_lookup_insert_eq by done. naive_solver.
  - rewrite list_lookup_insert_ne by done. naive_solver.
Qed.

End Cells.

(** The parent of a position. *)
Definition parent (i : nat) : nat := ((i - 1) / 2)%nat.

Lemma parent_spec i : (0 < i)%nat → i = (2 * parent i + 1)%nat ∨ i = (2 * parent i + 2)%nat.
Proof. intros. unfold parent. pose proof (Nat.div_mod_eq (i - 1) 2). pose proof (Nat.mod_upper_bound (i - 1) 2). lia. Qed.

Lemma parent_children i : parent (2 * i + 1) = i ∧ parent (2 * i + 2) = i.
Proof. pose proof (parent_spec (2 * i + 1)). pose proof (parent_spec (2 * i + 2)). lia. Qed.

(** [parents] puts what is known of the parents of positions in the context. *)
Ltac parents :=
  repeat match goal with
  | _ : context [parent ?i] |- _ =>
      lazymatch goal with _ : i = (2 * parent i + 1)%nat ∨ _ |- _ => fail | _ : (0 < i)%nat → i = _ ∨ _ |- _ => fail
      | _ => pose proof (parent_spec i) end
  | |- context [parent ?i] =>
      lazymatch goal with _ : i = (2 * parent i + 1)%nat ∨ _ |- _ => fail | _ : (0 < i)%nat → i = _ ∨ _ |- _ => fail
      | _ => pose proof (parent_spec i) end
  end.

Section Heap.
Context {bm : BuildMode} {T K : Type} `{!EqDecision K, !Countable K} `{!Compare T} `{!HeapHandleStorage T K}.
Implicit Types (h : IntrusiveHeap T K) (c : list (option T)) (xs ys : list T) (x y e : T).

(** The handles point to the objects in the cells other than [hole], and no
    handle is valid otherwise. *)
Definition handles_ok (handles : gmap K nat) (hole : nat → Prop) c : Prop :=
  ∀ k i, handles !! k = Some i ↔ ¬ hole i ∧ ∃ x, c !! i = Some (Some x) ∧ handle_ x = Some k.

(** The first [n] cells hold the objects [xs]; later ones have been moved from. *)
Record store_state h (n : nat) xs : Prop := {
  ss_size : (n ≤ size h)%nat;
  ss_live i : (i < n)%nat → ∃ x, heap_ h !! i = Some (Some x);
  ss_dead i a : (n ≤ i)%nat → heap_ h !! i = Some a → a = None;
  ss_handles : handles_ok (handles_ h) (λ _, False) (heap_ h);
  ss_objects : objects (heap_ h) ≡ₚ xs
}.

(** The same with a hole at [p], possibly one past the end. *)
Record hole_state h (n p : nat) xs : Prop := {
  hs_hole : (p < n)%nat;
  hs_pos : (p ≤ size h)%nat;
  hs_size : (n ≤ length (pad p (heap_ h)))%nat;
  hs_live i : (i < n)%nat → i ≠ p → ∃ x, heap_ h !! i = Some (Some x);
  hs_dead i a : (n ≤ i)%nat → heap_ h !! i = Some a → a = None;
  hs_handles : handles_ok (handles_ h) (λ i, i = p) (heap_ h);
  hs_objects : objects (<[p := None]> (pad p (heap_ h))) ≡ₚ xs
}.

(** ** Order *)

(** The object at [i], if any, is not above the one at [j]. *)
Definition below c (i j : nat) : Prop :=
  ∀ x y, c !! i = Some (Some x) → c !! j = Some (Some y) → less y x = false.

Definition ordered c (n : nat) (p : nat) : Prop :=
  ∀ i, (0 < i < n)%nat → i ≠ p → parent i ≠ p → below c i (parent i).

(** The children of a hole are below its parent. *)
Definition through c (n : nat) (p : nat) : Prop :=
  ∀ j, (0 < j < n)%nat → parent j = p → (0 < p)%nat → below c j (parent p).

Definition children_below c (n p : nat) e : Prop :=
  ∀ j x, (0 < j < n)%nat → parent j = p → c !! j = Some (Some x) → less e x = false.

Definition below_parent c (p : nat) e : Prop :=
  ∀ y, (0 < p)%nat → c !! parent p = Some (Some y) → less y e = false.

Definition heap_order c (n : nat) : Prop := ∀ i, (0 < i < n)%nat → below c i (parent i).

(** The invariant: the elements are [xs], in heap order, with their handles. *)
Definition rep h xs : Prop := store_state h (size h) xs ∧ heap_order (heap_ h) (size h).

(** No element of [xs] owns the handle of [e]. *)
Definition fresh e xs : Prop := ∀ x k, x ∈ xs → handle_ x = Some k → handle_ e ≠ Some k.

Lemma element_at_ok h i x : heap_ h !! i = Some (Some x) → element_at h i = Ret x.
Proof. intros Hi. unfold element_at, cell. by rewrite Hi. Qed.

Lemma SetHeapHandle_ok h i x :
  heap_ h !! i = Some (Some x) → SetHeapHandle h i = Ret (mkHeap (heap_ h) (storage_Set (handles_ h) (Some x) i)).
Proof.
  intros Hi. unfold SetHeapHandle, GetHeapHandle, cell. simpl. rewrite Hi. simpl.
  unfold storage_Get, storage_Set. simpl. destruct (handle_ x) as [k|]; simpl; [|done].
  rewrite lookup_insert_eq. simpl. by pass.
Qed.

Lemma ClearHeapHandle_ok h i a :
  heap_ h !! i = Some a → ClearHeapHandle h i = Ret (mkHeap (heap_ h) (storage_Clear (handles_ h) a)).
Proof.
  intros Hi. unfold ClearHeapHandle, GetHeapHandle, cell. simpl. rewrite Hi. simpl.
  unfold storage_Get, storage_Clear. destruct (a ≫= handle_) as [k|]; simpl; [|by pass].
  rewrite lookup_delete_eq. by pass.
Qed.

(** Handles after the hole has moved from [p] to [q]. *)
Lemma handles_move handles c p q x :
  handles_ok handles (λ i, i = p) c → (p ≤ length c)%nat → p ≠ q → c !! q = Some (Some x) →
  handles_ok (storage_Set handles (Some x) p) (λ i, i = q) (<[q := None]> (<[p := Some x]> (pad p c))).
Proof.
  intros Hok Hp Hpq Hx k i.
  assert (∀ y, <[q:=None]> (<[p:=Some x]> (pad p c)) !! i = Some (Some y) ↔
     i ≠ q ∧ ((i = p ∧ y = x) ∨ (i ≠ p ∧ c !! i = Some (Some y)))) as Hc.
  { intros y. rewrite moved_live by (done || by apply pad_length). by rewrite pad_live. }
  setoid_rewrite Hc. clear Hc. unfold storage_Set. simpl.
  pose proof (proj2 (Hok k q)) as Hq. pose proof (proj1 (Hok k i)) as H1. pose proof (proj2 (Hok k i)) as H2.
  destruct (handle_ x) as [kx|] eqn:Ex; [destruct (decide (k = kx)) as [->|Hk]|].
  - rewrite lookup_insert_eq. assert (handles !! kx = Some q) as Hq' by (apply Hq; eauto). split.
    + intros [= <-]. split; [done|]. exists x. auto.
    + intros (Hi & y & (_ & [[-> ->]|[Hip Hy]]) & Ey); [done|]. rewrite H2 in Hq' by eauto. congruence.
  - rewrite lookup_insert_ne by done. split.
    + intros (Hip & y & Hy & Ey)%H1. assert (i ≠ q) by congruence. eauto 8.
    + intros (Hi & y & (_ & [[-> ->]|[Hip Hy]]) & Ey); [congruence|]. eauto.
  - split.
    + intros (Hip & y & Hy & Ey)%H1. assert (i ≠ q) by congruence. eauto 8.
    + intros (Hi & y & (_ & [[-> ->]|[Hip Hy]]) & Ey); [congruence|]. eauto.
Qed.

(** Handles after the hole at [p] has been filled. *)
Lemma handles_fill handles c p e :
  handles_ok handles (λ i, i = p) c → (p ≤ length c)%nat → (∀ k, handle_ e = Some k → handles !! k = None) →
  handles_ok (storage_Set handles (Some e) p) (λ _, False) (<[p := Some e]> (pad p c)).
Proof.
  intros Hok Hp He k i.
  assert (∀ y, <[p:=Some e]> (pad p c) !! i = Some (Some y) ↔
     (i = p ∧ y = e) ∨ (i ≠ p ∧ c !! i = Some (Some y))) as Hc.
  { intros y. rewrite filled_live by (by apply pad_length). by rewrite pad_live. }
  setoid_rewrite Hc. clear Hc. unfold storage_Set. simpl.
  pose proof (proj1 (Hok k i)) as H1. pose proof (proj2 (Hok k i)) as H2.
  destruct (handle_ e) as [ke|] eqn:Ee; [destruct (decide (k = ke)) as [->|Hk]|].
  - rewrite lookup_insert_eq. split.
    + intros [= <-]. split; [tauto|]. exists e. auto.
    + intros (_ & y & [[-> ->]|[Hip Hy]] & Ey); [done|]. rewrite (He ke eq_refl) in H2. discriminate H2. eauto.
  - rewrite lookup_insert_ne by done. split.
    + intros (Hip & y & Hy & Ey)%H1. eauto 8.
    + intros (_ & y & [[-> ->]|[Hip Hy]] & Ey); [congruence|]. eauto.
  - split.
    + intros (Hip & y & Hy & Ey)%H1. eauto 8.
    + intros (_ & y & [[-> ->]|[Hip Hy]] & Ey); [congruence|]. eauto.
Qed.

(** Handles after the one at [p] has been cleared. *)
Lemma handles_clear handles hole c p x :
  handles_ok handles hole c → c !! p = Some (Some x) → ¬ hole p →
  handles_ok (storage_Clear handles (Some x)) (λ i, hole i ∨ i = p) c.
Proof.
  intros Hok Hx Hp k i. unfold storage_Clear. simpl.
  pose proof (proj2 (Hok k p)) as Hq. pose proof (proj1 (Hok k i)) as H1. pose proof (proj2 (Hok k i)) as H2.
  destruct (handle_ x) as [kx|] eqn:Ex; [destruct (decide (k = kx)) as [->|Hk]|].
  - rewrite lookup_delete_eq. assert (handles !! kx = Some p) as Hq' by (apply Hq; eauto). split; [done|].
    intros (Hi & y & Hy & Ey). rewrite H2 in Hq'; [|split; [tauto|eauto]]. injection Hq' as ->. tauto.
  - rewrite lookup_delete_ne by done. split.
    + intros (Hip & y & Hy & Ey)%H1. split; [|eauto]. intros [?| ->]; [tauto|congruence].
    + intros (Hi & y & Hy & Ey). apply H2. split; [tauto|eauto].
  - split.
    + intros (Hip & y & Hy & Ey)%H1. split; [|eauto]. intros [?| ->]; [tauto|congruence].
    + intros (Hi & y & Hy & Ey). apply H2. split; [tauto|eauto].
Qed.

(** Only whether the cells outside the holes hold objects matters. *)
Lemma handles_ext handles hole hole' c c' :
  handles_ok handles hole c →
  (∀ i y, ¬ hole i ∧ c !! i = Some (Some y) ↔ ¬ hole' i ∧ c' !! i = Some (Some y)) →
  handles_ok handles hole' c'.
Proof.
  intros Hok E k i. rewrite (Hok k i). split.
  - intros (Hh & x & Hx & Ex). destruct (proj1 (E i x)) as [? ?]; [done|]. split; [done|]. eauto.
  - intros (Hh & x & Hx & Ex). destruct (proj2 (E i x)) as [? ?]; [done|]. split; [done|]. eauto.
Qed.

(** ** Moving and filling holes *)

Lemma MoveHole_ok h n p q xs :
  hole_state h n p xs → (q < n)%nat → q ≠ p →
  ∃ h' x, MoveHole h q p = Ret h' ∧ heap_ h !! q = Some (Some x) ∧
    heap_ h' = <[q := None]> (<[p := Some x]> (pad p (heap_ h))) ∧ hole_state h' n q xs ∧
    length (pad q (heap_ h')) = length (pad p (heap_ h)).
Proof.
  intros [Hp Hpos Hn Hlive Hdead Hh Ho] Hq Hne. destruct (Hlive q Hq Hne) as [x Hx].
  pose proof (lookup_lt_Some _ _ _ Hx) as Hql. unfold size in *.
  pose proof (pad_length p (heap_ h) Hpos) as Hpl.
  unfold MoveHole, size. do 3 pass. rewrite (element_at_ok _ _ _ Hx), bind_ret, store_pad by done.
  set (c' := <[q := None]> _). assert (length c' = length (pad p (heap_ h))) as Hl by (unfold c'; by rewrite !length_insert).
  assert (∀ i y, c' !! i = Some (Some y) ↔ i ≠ q ∧ ((i = p ∧ y = x) ∨ (i ≠ p ∧ heap_ h !! i = Some (Some y)))) as Hc.
  { intros i y. unfold c'. rewrite moved_live by done. by rewrite pad_live. }
  assert (q < length c')%nat by (rewrite Hl; unfold pad; case_match; [rewrite length_app; simpl|]; lia).
  rewrite (SetHeapHandle_ok _ p x) by (apply Hc; auto). eexists _, x.
  split_and!; [done..| |simpl; by rewrite pad_inside].
  split; unfold size; simpl.
  - done.
  - lia.
  - rewrite pad_inside by done. lia.
  - intros i Hi Hiq. destruct (decide (i = p)) as [->|Hip]; [exists x; apply Hc; auto|].
    destruct (Hlive i Hi Hip) as [y Hy]. exists y. apply Hc. auto.
  - intros i [y|] Hi Hiy; [|done]. apply Hc in Hiy as (_ & [[-> ->]|[_ Hiy]]); [lia|]. by apply Hdead in Hiy.
  - by apply handles_move.
  - rewrite pad_inside by done. unfold c'. rewrite list_insert_insert_eq, <-Ho.
    rewrite list_insert_insert_ne by done. rewrite (objects_set _ p) by (by rewrite length_insert).
    rewrite (objects_clear (<[p:=None]> (pad p (heap_ h))) q x).
    2: { rewrite list_lookup_insert_ne by done. by apply pad_live. }
    by rewrite (list_insert_insert_ne _ p q) by done.
Qed.

Lemma fresh_invalid h n p xs e :
  hole_state h n p xs → fresh e xs → ∀ k, handle_ e = Some k → handles_ h !! k = None.
Proof.
  intros Hs Hf k Hk. destruct (handles_ h !! k) as [i|] eqn:E; [exfalso|done].
  apply (hs_handles _ _ _ _ Hs) in E as (Hi & x & Hx & Ex). apply (Hf x k); [|done..].
  rewrite <-(hs_objects _ _ _ _ Hs). apply elem_of_objects. exists i.
  rewrite list_lookup_insert_ne by done. by apply pad_live.
Qed.

Lemma FillHole_ok h n p xs e :
  hole_state h n p xs → fresh e xs →
  ∃ h', FillHole h p e = Ret h' ∧ heap_ h' = <[p := Some e]> (pad p (heap_ h)) ∧ store_state h' n (e :: xs) ∧
    size h' = length (pad p (heap_ h)).
Proof.
  intros Hs Hf. pose proof (fresh_invalid _ _ _ _ _ Hs Hf) as He. destruct Hs as [Hp Hpos Hn Hlive Hdead Hh Ho].
  pose proof (pad_length p (heap_ h) Hpos) as Hpl. unfold size in *.
  unfold FillHole, size. pass. rewrite store_pad by done.
  set (c' := <[p := Some e]> _). assert (length c' = length (pad p (heap_ h))) as Hl by (unfold c'; by rewrite !length_insert).
  assert (∀ i y, c' !! i = Some (Some y) ↔ (i = p ∧ y = e) ∨ (i ≠ p ∧ heap_ h !! i = Some (Some y))) as Hc.
  { intros i y. unfold c'. rewrite filled_live by done. by rewrite pad_live. }
  rewrite (SetHeapHandle_ok _ p e) by (apply Hc; auto). eexists. split_and!; [done..| |done].
  split; unfold size; simpl.
  - lia.
  - intros i Hi. destruct (decide (i = p)) as [->|Hip]; [exists e; apply Hc; auto|].
    destruct (Hlive i Hi Hip) as [y Hy]. exists y. apply Hc. auto.
  - intros i [y|] Hi Hiy; [|done]. apply Hc in Hiy as [[-> ->]|[_ Hiy]]; [lia|]. by apply Hdead in Hiy.
  - by apply handles_fill.
  - unfold c'. rewrite objects_set by done. by rewrite Ho.
Qed.

(** ** Heap order around a hole *)

Section Order.
Context `{!StrictWeakOrder T}.

Lemma le_trans x y z : less y x = false → less z y = false → less z x = false.
Proof.
  intros H1 H2. destruct (less z x) eqn:E; [|done]. destruct (less_weak z y x E); congruence.
Qed.

Lemma lt_le x y : less x y = true → less y x = false.
Proof.
  intros H1. destruct (less y x) eqn:E; [|done]. pose proof (less_trans _ _ _ H1 E) as H2.
  by rewrite less_irrefl in H2.
Qed.

(** What the cells are after the hole has moved from [p] to [q]. *)
Definition moved c c' (p q : nat) x : Prop :=
  c !! q = Some (Some x) ∧
  ∀ i y, c' !! i = Some (Some y) → i ≠ q ∧ ((i = p ∧ y = x) ∨ (i ≠ p ∧ c !! i = Some (Some y))).

Lemma up_order c c' n p x e :
  (0 < p < n)%nat → moved c c' p (parent p) x → less x e = true →
  ordered c n p → through c n p → children_below c n p e →
  ordered c' n (parent p) ∧ through c' n (parent p) ∧ children_below c' n (parent p) e.
Proof.
  intros Hp [Hx Hc] Hlt Ho Ht He. pose proof (parent_spec p ltac:(lia)) as Hpp. split_and!.
  - intros i Hi Hiq Hpq a b [_ [[-> ->]|[Hip Ha]]]%Hc [_ [[Hpi ->]|[Hpi Hb]]]%Hc; [done|done| |].
    + apply (Ht i Hi Hpi ltac:(lia) a x Ha). done.
    + by apply (Ho i Hi Hip Hpi).
  - intros j Hj Hjq Hq a b [_ Ha]%Hc [_ Hb]%Hc. destruct Ha as [[-> ->]|[Hjp Ha]].
    + destruct Hb as [[? ->]|[Hqp Hb]]; [pose proof (parent_spec (parent p) Hq); lia|].
      pose proof (parent_spec (parent p) Hq). apply (Ho (parent p)); [lia..|done|done].
    + pose proof (parent_spec (parent p) Hq). destruct Hb as [[? ->]|[Hqp Hb]]; [lia|].
      apply le_trans with x.
      * apply (Ho j Hj Hjp); [lia|done|]. by rewrite Hjq.
      * apply (Ho (parent p)); [lia..|done|done].
  - intros j a Hj Hjq [_ [[-> ->]|[Hjp Ha]]]%Hc; [by apply lt_le|].
    apply le_trans with x; [|by apply lt_le]. apply (Ho j Hj Hjp); [lia|done|]. by rewrite Hjq.
Qed.

(** Moving a hole down to the child [q] that is not below its sibling. *)
Lemma down_order c c' n p q x :
  (0 < q < n)%nat → parent q = p → moved c c' p q x →
  (∀ s y, (0 < s < n)%nat → parent s = p → c !! s = Some (Some y) → less x y = false) →
  ordered c n p → through c n p →
  ordered c' n q ∧ through c' n q ∧ (∀ y, c' !! p = Some (Some y) → y = x).
Proof.
  intros Hq Hqp [Hx Hc] Hmax Ho Ht. pose proof (parent_spec q ltac:(lia)) as Hpq. split_and!.
  - intros i Hi Hiq Hpi a b [_ [[-> ->]|[Hip Ha]]]%Hc [_ [[Hpi' ->]|[Hpi' Hb]]]%Hc.
    + apply less_irrefl.
    + apply (Ht q Hq Hqp ltac:(lia) x b Hx Hb).
    + by apply (Hmax i).
    + by apply (Ho i Hi Hip Hpi').
  - intros j Hj Hjq Hq0 a b [_ [[-> ->]|[Hjp Ha]]]%Hc [_ [[? ->]|[Hne Hb]]]%Hc; [apply less_irrefl| | |done].
    + pose proof (parent_spec p ltac:(lia)). lia.
    + apply (Ho j Hj Hjp); [lia|done|]. by rewrite Hjq.
  - intros y [_ [[_ ->]|[? _]]]%Hc; done.
Qed.

(** Filling a hole whose neighbours fit. *)
Lemma fill_order c c' n p e :
  (∀ i y, c' !! i = Some (Some y) → (i = p ∧ y = e) ∨ (i ≠ p ∧ c !! i = Some (Some y))) →
  ordered c n p → below_parent c p e → children_below c n p e → heap_order c' n.
Proof.
  intros Hc Ho Hb He i Hi a b [[-> ->]|[Hip Ha]]%Hc [[Hpi ->]|[Hpi Hy]]%Hc.
  - apply less_irrefl.
  - apply Hb; [lia|done].
  - by apply (He i).
  - by apply (Ho i Hi Hip Hpi).
Qed.

(** ** The loops *)

Lemma moved_pad c p q x :
  (p ≤ length c)%nat → p ≠ q → c !! q = Some (Some x) → moved c (<[q := None]> (<[p := Some x]> (pad p c))) p q x.
Proof.
  intros Hp Hpq Hx. split; [done|]. intros i y. rewrite moved_live by (done || by apply pad_length).
  by rewrite pad_live.
Qed.

Lemma hole_up_loop_ok fuel n e xs : ∀ h p,
  (p < fuel)%nat → hole_state h n p xs → ordered (heap_ h) n p → through (heap_ h) n p →
  children_below (heap_ h) n p e →
  ∃ h' p', hole_up_loop fuel h p e = Ret (h', p') ∧ hole_state h' n p' xs ∧ ordered (heap_ h') n p' ∧
    children_below (heap_ h') n p' e ∧ below_parent (heap_ h') p' e ∧
    length (pad p' (heap_ h')) = length (pad p (heap_ h)).
Proof.
  induction fuel as [|fuel IH]; intros h p Hf Hs Ho Ht He; [lia|]. simpl.
  destruct (Nat.eqb_spec p 0) as [->|Hp].
  { exists h, 0%nat. split_and!; try done. intros y H0. lia. }
  unfold ParentIndex. pass. pass. fold (parent p).
  pose proof (parent_spec p ltac:(lia)) as Hpp. pose proof (hs_hole _ _ _ _ Hs) as Hpn.
  destruct (hs_live _ _ _ _ Hs (parent p)) as [x Hx]; [lia..|]. pose proof (lookup_lt_Some _ _ _ Hx).
  unfold Less_pos_element. rewrite dcheck_pass, bind_ret by (apply Nat.ltb_lt; done).
  rewrite (element_at_ok _ _ _ Hx), !bind_ret. destruct (less x e) eqn:E; simpl.
  - destruct (MoveHole_ok h n p (parent p) xs Hs) as (h' & x' & -> & Hx' & Eh & Hs' & Hl); [lia..|].
    rewrite Hx in Hx'. injection Hx' as <-. rewrite bind_ret.
    destruct (up_order (heap_ h) (heap_ h') n p x e) as (Ho' & Ht' & He'); try done; try lia.
    { rewrite Eh. apply moved_pad; [by apply Hs|lia|done]. }
    rewrite <-Hl. apply IH; try done. lia.
  - exists h, p. split_and!; try done. intros y _ Hy. congruence.
Qed.

Lemma FillHole_heap h n p xs e :
  hole_state h n p xs → fresh e xs → ordered (heap_ h) n p → below_parent (heap_ h) p e →
  children_below (heap_ h) n p e →
  ∃ h', FillHole h p e = Ret h' ∧ store_state h' n (e :: xs) ∧ heap_order (heap_ h') n ∧
    heap_ h' !! p = Some (Some e) ∧ size h' = length (pad p (heap_ h)).
Proof.
  intros Hs Hf Ho Hb He. destruct (FillHole_ok h n p xs e Hs Hf) as (h' & -> & Eh & Hs' & Hl).
  pose proof (pad_length p (heap_ h) (hs_pos _ _ _ _ Hs)) as Hp. exists h'. split_and!; try done.
  - apply fill_order with (heap_ h) p e; try done. intros i y. rewrite Eh, filled_live by done. by rewrite pad_live.
  - rewrite Eh. by apply list_lookup_insert_eq.
Qed.

Lemma MoveHoleUpAndFill_ok h n p xs e :
  hole_state h n p xs → fresh e xs → ordered (heap_ h) n p → through (heap_ h) n p →
  children_below (heap_ h) n p e →
  ∃ h' p', MoveHoleUpAndFill h p e = Ret (h', p') ∧ store_state h' n (e :: xs) ∧ heap_order (heap_ h') n ∧
    heap_ h' !! p' = Some (Some e) ∧ size h' = length (pad p (heap_ h)).
Proof.
  intros Hs Hf Ho Ht He. unfold MoveHoleUpAndFill. pose proof (hs_pos _ _ _ _ Hs). pass.
  destruct (hole_up_loop_ok (S p) n e xs h p) as (h1 & p1 & -> & Hs1 & Ho1 & He1 & Hb1 & Hl1); try done; [lia|].
  rewrite bind_ret. destruct (FillHole_heap h1 n p1 xs e) as (h2 & -> & Hs2 & Ho2 & Hp2 & Hl2); try done.
  rewrite bind_ret. exists h2, p1. split_and!; try done. lia.
Qed.

(** A hole whose larger child is chosen. *)
Lemma larger_child h n p xs :
  hole_state h n p xs → (2 * p + 1 < n)%nat →
  ∃ b q x, (if (2 * p + 1 + 1 <? n)%nat then Less h (2 * p + 1) (2 * p + 1 + 1) else Ret false) = Ret b ∧
    q = (if b : bool then 2 * p + 1 + 1 else 2 * p + 1)%nat ∧ (p < q < n)%nat ∧ parent q = p ∧
    heap_ h !! q = Some (Some x) ∧
    ∀ s y, (0 < s < n)%nat → parent s = p → heap_ h !! s = Some (Some y) → less x y = false.
Proof.
  intros Hs Hn. destruct (parent_children p) as [Hpl Hpr]. rewrite <-Nat.add_assoc. simpl (1 + 1)%nat.
  destruct (hs_live _ _ _ _ Hs (2 * p + 1)) as [l Hl]; [lia..|]. pose proof (lookup_lt_Some _ _ _ Hl).
  destruct (Nat.ltb_spec (2 * p + 2) n) as [Hr|Hr].
  - destruct (hs_live _ _ _ _ Hs (2 * p + 2)) as [r Hr']; [lia..|]. pose proof (lookup_lt_Some _ _ _ Hr').
    unfold Less. rewrite !dcheck_pass, !bind_ret by (by apply Nat.ltb_lt).
    rewrite (element_at_ok _ _ _ Hl), (element_at_ok _ _ _ Hr'), !bind_ret.
    assert (∀ s, (0 < s)%nat → parent s = p → s = 2 * p + 1 ∨ s = 2 * p + 2)%nat as Hsib.
    { intros s Hs0 <-. by apply parent_spec. }
    destruct (less l r) eqn:E.
    + exists true, (2 * p + 2)%nat, r. split_and!; try done; [lia..|].
      intros s y Hs0 Hps Hy. destruct (Hsib s ltac:(lia) Hps) as [->| ->]; simplify_eq; [by apply lt_le|apply less_irrefl].
    + exists false, (2 * p + 1)%nat, l. split_and!; try done; [lia..|].
      intros s y Hs0 Hps Hy. destruct (Hsib s ltac:(lia) Hps) as [->| ->]; simplify_eq; [apply less_irrefl|done].
  - exists false, (2 * p + 1)%nat, l. split_and!; try done; [lia..|].
    intros s y Hs0 Hps Hy. pose proof (parent_spec s ltac:(lia)).
    assert (s = (2 * p + 1)%nat) as -> by lia. simplify_eq. apply less_irrefl.
Qed.

Lemma hole_down_loop_ok fuel (leaf : bool) n e xs : ∀ h p,
  (n ≤ p + fuel)%nat → hole_state h n p xs → ordered (heap_ h) n p → through (heap_ h) n p →
  (leaf = false → below_parent (heap_ h) p e) →
  ∃ h' p', hole_down_loop fuel leaf h n p e = Ret (h', p') ∧ hole_state h' n p' xs ∧ ordered (heap_ h') n p' ∧
    through (heap_ h') n p' ∧ (leaf = true → n ≤ 2 * p' + 1)%nat ∧
    (leaf = false → below_parent (heap_ h') p' e ∧ children_below (heap_ h') n p' e) ∧
    length (pad p' (heap_ h')) = length (pad p (heap_ h)).
Proof.
  induction fuel as [|fuel IH]; intros h p Hf Hs Ho Ht Hb; pose proof (hs_hole _ _ _ _ Hs) as Hpn; [lia|].
  simpl. unfold LeftIndex. destruct (Nat.leb_spec n (2 * p + 1)) as [Hn|Hn].
  { exists h, p. split_and!; try done. intros Hl. split; [by apply Hb|]. intros j x Hj Hjp.
    pose proof (parent_spec j ltac:(lia)). lia. }
  destruct (larger_child h n p xs Hs Hn) as (b & q & x & -> & Eq & Hq & Hqp & Hx & Hmax). rewrite bind_ret, <-Eq.
  pose proof (lookup_lt_Some _ _ _ Hx) as Hql.
  assert ((if leaf then Ret false else smaller ← Less_element_pos h e q; Ret (negb smaller)) =
    Ret (if leaf then false else negb (less e x))) as ->.
  { destruct leaf; [done|]. unfold Less_element_pos.
    rewrite dcheck_pass, bind_ret by (by apply Nat.ltb_lt). by rewrite (element_at_ok _ _ _ Hx), !bind_ret. }
  rewrite bind_ret. destruct (if leaf then false else negb (less e x)) eqn:Es.
  - destruct leaf; [done|]. apply negb_true_iff in Es. exists h, p. split_and!; try done.
    intros _. split; [by apply Hb|]. intros j y Hj Hjp Hy. apply le_trans with x; [|done]. by apply (Hmax j).
  - destruct (MoveHole_ok h n p q xs Hs) as (h' & x' & -> & Hx' & Eh & Hs' & Hl); [lia..|].
    rewrite Hx in Hx'. injection Hx' as <-. rewrite bind_ret, <-Hl.
    destruct (down_order (heap_ h) (heap_ h') n p q x) as (Ho' & Ht' & Hp'); try done; try lia.
    { rewrite Eh. apply moved_pad; [by apply Hs|lia|done]. }
    apply IH; try done; [lia|]. intros ->. apply negb_false_iff in Es. intros y _ Hy.
    rewrite Hqp in Hy. apply Hp' in Hy as ->. by apply lt_le.
Qed.

Lemma MoveHoleDownAndFill_ok (leaf : bool) h n p xs e :
  hole_state h n p xs → size h = (n + if leaf then 1 else 0)%nat → fresh e xs →
  ordered (heap_ h) n p → through (heap_ h) n p → (leaf = false → below_parent (heap_ h) p e) →
  GetHeapHandle h p = Ret None →
  ∃ h' p', MoveHoleDownAndFill leaf h p e = Ret (h', p') ∧ store_state h' n (e :: xs) ∧ heap_order (heap_ h') n ∧
    heap_ h' !! p' = Some (Some e) ∧ size h' = size h.
Proof.
  intros Hs Hsz Hf Ho Ht Hb Hg. pose proof (hs_hole _ _ _ _ Hs) as Hpn.
  unfold MoveHoleDownAndFill. assert (p < size h)%nat as Hp by (destruct leaf; lia). pass.
  replace (size h - (if leaf then 1 else 0))%nat with n by (destruct leaf; lia). pass. rewrite Hg, bind_ret. pass.
  destruct (hole_down_loop_ok n leaf n e xs h p) as (h1 & p1 & -> & Hs1 & Ho1 & Ht1 & Hl1 & Hb1 & Hlen); try done; [lia|].
  rewrite bind_ret. rewrite (pad_inside p) in Hlen by done. fold (size h) in Hlen. destruct leaf.
  - destruct (MoveHoleUpAndFill_ok h1 n p1 xs e) as (h2 & p2 & -> & ? & ? & ? & Hl2); try done.
    { intros j x Hj Hjp. pose proof (parent_spec j ltac:(lia)). specialize (Hl1 eq_refl). lia. }
    exists h2, p2. split_and!; try done. lia.
  - destruct (Hb1 eq_refl) as [Hb2 He2].
    destruct (FillHole_heap h1 n p1 xs e) as (h2 & -> & ? & ? & ? & Hl2); try done.
    rewrite bind_ret. exists h2, p1. split_and!; try done. lia.
Qed.

(** ** The operations *)

Lemma heap_order_hole c n p x :
  heap_order c n → (p < n)%nat → c !! p = Some (Some x) → ordered c n p ∧ through c n p.
Proof.
  intros Ho Hp Hx. split.
  - intros i Hi _ _. by apply Ho.
  - intros j Hj Hjp H0 a b Ha Hb. apply le_trans with x.
    + apply (Ho j Hj); [done|]. by rewrite Hjp.
    + apply (Ho p); [lia|done|done].
Qed.

(** Changing the object in the hole. *)
Lemma order_dirty c n p a :
  ordered c n p ∧ through c n p → ordered (<[p := a]> c) n p ∧ through (<[p := a]> c) n p.
Proof.
  intros [Ho Ht]. split.
  - intros i Hi Hip Hpp x y. rewrite !list_lookup_insert_ne by done. by apply Ho.
  - intros j Hj Hjp H0 x y. pose proof (parent_spec j ltac:(lia)). pose proof (parent_spec p ltac:(lia)).
    rewrite !list_lookup_insert_ne by lia. by apply Ht.
Qed.

(** The handle of what is left in a hole is invalid. *)
Definition hole_clear h (p : nat) : Prop :=
  ∀ x k, heap_ h !! p = Some (Some x) → handle_ x = Some k → handles_ h !! k = None.

Lemma GetHeapHandle_none h p : (p < size h)%nat → hole_clear h p → GetHeapHandle h p = Ret None.
Proof.
  intros Hp Hc. destruct (lookup_lt_is_Some_2 (heap_ h) p Hp) as [a Ha]. unfold GetHeapHandle, cell. rewrite Ha. simpl.
  destruct a as [x|]; [|done]. unfold storage_Get. simpl. destruct (handle_ x) as [k|] eqn:E; [|done].
  by rewrite (Hc x k).
Qed.

Lemma storage_Clear_None handles x k :
  handle_ x = Some k → storage_Clear handles (Some x) !! k = None.
Proof. intros E. unfold storage_Clear. simpl. rewrite E. apply lookup_delete_eq. Qed.

(** Elements have different handles. *)
Lemma handles_unique handles hole c i j x y k :
  handles_ok handles hole c → ¬ hole i → ¬ hole j → c !! i = Some (Some x) → c !! j = Some (Some y) →
  handle_ x = Some k → handle_ y = Some k → i = j.
Proof.
  intros Hok Hi Hj Hx Hy Ex Ey. assert (handles !! k = Some i) as E1 by (apply Hok; eauto).
  assert (handles !! k = Some j) as E2 by (apply Hok; eauto). congruence.
Qed.

Lemma MakeHole_ok h n xs p x :
  store_state h n xs → (p < n)%nat → heap_ h !! p = Some (Some x) →
  ∃ h' ys, MakeHole h p = Ret h' ∧ heap_ h' = heap_ h ∧ hole_state h' n p ys ∧ xs ≡ₚ x :: ys ∧
    fresh x ys ∧ hole_clear h' p.
Proof.
  intros [Hn Hlive Hdead Hh Ho] Hp Hx. unfold MakeHole. pass. rewrite (ClearHeapHandle_ok _ _ _ Hx).
  pose proof (lookup_lt_Some _ _ _ Hx) as Hpl. unfold size in *.
  exists (mkHeap (heap_ h) (storage_Clear (handles_ h) (Some x))), (objects (<[p:=None]> (heap_ h))). split_and!; try done.
  - split; unfold size; simpl; rewrite ?pad_inside by done; try done; [lia|by auto|].
    eapply handles_ext; [apply (handles_clear _ _ _ _ _ Hh Hx); by intros []|]. naive_solver.
  - rewrite <-Ho. by apply objects_clear.
  - intros y k Hy Ey Ex. apply elem_of_objects in Hy as [i Hi].
    destruct (decide (i = p)) as [->|Hip]; [by rewrite list_lookup_insert_eq in Hi by done|].
    rewrite list_lookup_insert_ne in Hi by done. apply Hip. symmetry.
    apply (handles_unique _ _ _ p i x y k Hh); try done; by intros [].
  - intros y k Hy Ey. simpl in *. simplify_eq. by apply storage_Clear_None.
Qed.

Lemma InsertImpl_ok h xs e :
  rep h xs → fresh e xs → ∃ h' i, InsertImpl h e = Ret (h', i) ∧ rep h' (e :: xs) ∧ heap_ h' !! i = Some (Some e).
Proof.
  intros [[_ Hlive _ Hh Ho] Hord] Hf. unfold InsertImpl. unfold size in *.
  assert (pad (length (heap_ h)) (heap_ h) = heap_ h ++ [None]) as Hpad by (unfold pad; by rewrite Nat.eqb_refl).
  assert (∀ j, (0 < j)%nat → j < S (length (heap_ h)) → parent j ≠ length (heap_ h))%nat as Hno.
  { intros j Hj Hl. pose proof (parent_spec j Hj). lia. }
  destruct (MoveHoleUpAndFill_ok h (S (length (heap_ h))) (length (heap_ h)) xs e) as (h' & i & -> & Hs & Ho' & Hi & Hl).
  - split; unfold size; rewrite ?Hpad, ?length_app; simpl; try lia.
    + intros i Hi Hne. apply Hlive. lia.
    + intros i a Hi Ha. apply lookup_lt_Some in Ha. lia.
    + eapply handles_ext; [exact Hh|]. intros i y. split; [|tauto]. intros [_ Hy]. split; [|done].
      apply lookup_lt_Some in Hy. lia.
    + rewrite insert_app_r_alt, Nat.sub_diag by lia. simpl. rewrite objects_app. unfold objects at 2. simpl. by rewrite app_nil_r.
  - done.
  - intros i Hi Hne _. apply Hord. lia.
  - intros j Hj Hjp. by apply Hno in Hjp; [|lia..].
  - intros j x Hj Hjp. by apply Hno in Hjp; [|lia..].
  - rewrite Hpad, length_app in Hl. simpl in Hl. exists h', i. split_and!; try done.
    split; unfold size in *; by rewrite Hl, Nat.add_1_r.
Qed.

Lemma pop_last_ok h n xs :
  store_state h n xs → heap_order (heap_ h) n → size h = S n → rep (pop_last h) xs.
Proof.
  intros [Hn Hlive Hdead Hh Ho] Hord Hsz. unfold size in *.
  destruct (lookup_lt_is_Some_2 (heap_ h) n ltac:(lia)) as [a Ha]. pose proof (Hdead n a ltac:(lia) Ha) as ->.
  pose proof (take_S_r (heap_ h) n None Ha) as E. rewrite take_ge in E by lia.
  assert (heap_ (pop_last h) = take n (heap_ h)) as Ep by (unfold pop_last, size; simpl; f_equal; lia).
  assert (length (take n (heap_ h)) = n) as Hl by (rewrite length_take; lia).
  assert (∀ i y, take n (heap_ h) !! i = Some (Some y) ↔ heap_ h !! i = Some (Some y)) as Hi.
  { intros i y. split; [intros [? _]%lookup_take_Some; done|]. intros Hy. apply lookup_take_Some. split; [done|].
    destruct (Nat.lt_ge_cases i n); [done|]. by apply Hdead in Hy. }
  split; [split|]; unfold size; rewrite ?Ep, ?Hl; try lia.
  - intros i Hin. destruct (Hlive i Hin) as [x Hx]. exists x. by apply Hi.
  - intros i b Hin Hb. apply lookup_lt_Some in Hb. lia.
  - eapply handles_ext; [exact Hh|]. intros i y. by rewrite Hi.
  - rewrite E, objects_app in Ho. unfold objects in Ho at 2. simpl in Ho. by rewrite app_nil_r in Ho.
  - intros i Hin x y. rewrite !Hi. by apply Hord.
Qed.

Lemma hole_last_ok h n p xs :
  hole_state h n p xs → size h = n → p = (n - 1)%nat → ordered (heap_ h) n p → rep (pop_last h) xs.
Proof.
  intros [Hp Hpos Hn Hlive Hdead Hh Ho] Hsz Hlast Hord. unfold size in *.
  rewrite pad_inside in * by lia.
  assert (heap_ (pop_last h) = take p (heap_ h)) as Ep by (unfold pop_last, size; simpl; f_equal; lia).
  assert (length (take p (heap_ h)) = p) as Hl by (rewrite length_take; lia).
  assert (∀ i y, take p (heap_ h) !! i = Some (Some y) ↔ i ≠ p ∧ heap_ h !! i = Some (Some y)) as Hi.
  { intros i y. rewrite lookup_take_Some. split; [intros [? ?]; split; [lia|done]|]. intros [Hne Hy]. split; [done|].
    apply lookup_lt_Some in Hy. lia. }
  split; [split|]; unfold size; rewrite ?Ep, ?Hl; try lia.
  - intros i Hin. destruct (Hlive i ltac:(lia) ltac:(lia)) as [x Hx]. exists x. apply Hi. split; [lia|done].
  - intros i b Hin Hb. apply lookup_lt_Some in Hb. lia.
  - eapply handles_ext; [exact Hh|]. intros i y. rewrite Hi. tauto.
  - rewrite <-Ho. destruct (lookup_lt_is_Some_2 (heap_ h) p ltac:(lia)) as [a Ha].
    pose proof (take_S_r (heap_ h) p a Ha) as E. rewrite (take_ge (heap_ h) (S p)) in E by lia.
    rewrite E at 2. rewrite insert_app_r_alt by lia. rewrite Hl, Nat.sub_diag. simpl. rewrite objects_app.
    unfold objects at 3. simpl. by rewrite app_nil_r.
  - intros i Hin x y [Hip Hx]%Hi [Hpp Hy]%Hi. apply (Hord i); [lia|done|done|done|done].
Qed.

Lemma close_hole_ok h n p xs :
  hole_state h n p xs → size h = n → ordered (heap_ h) n p ∧ through (heap_ h) n p → hole_clear h p →
  ∃ h', close_hole h p = Ret h' ∧ rep h' xs.
Proof.
  intros Hs Hsz [Ho Ht] Hc. pose proof Hs as [Hp Hpos Hn Hlive Hdead Hh Hobj]. unfold close_hole, GetLastIndex. rewrite Hsz.
  destruct (Nat.eqb_spec p (n - 1)) as [E|Hne]; simpl.
  { eexists. split; [done|]. by apply hole_last_ok with n p. }
  destruct (Hlive (n - 1)%nat) as [leaf Hleaf]; [lia..|]. unfold MakeHole.
  rewrite dcheck_pass, bind_ret by (apply Nat.ltb_lt; lia). rewrite (ClearHeapHandle_ok _ _ _ Hleaf), bind_ret.
  unfold size in *. simpl heap_. rewrite Hsz. unfold move_out.
  rewrite (element_at_ok _ _ leaf) by done. rewrite !bind_ret. simpl.
  rewrite pad_inside in Hobj by lia.
  set (h1 := mkHeap (<[(n - 1)%nat := None]> (heap_ h)) (storage_Clear (handles_ h) (Some leaf))).
  set (ys := objects (<[(n-1)%nat:=None]> (<[p:=None]> (heap_ h)))).
  assert (xs ≡ₚ leaf :: ys) as Hxs.
  { rewrite <-Hobj. apply objects_clear. by rewrite list_lookup_insert_ne by done. }
  assert (∀ i y, heap_ h1 !! i = Some (Some y) ↔ i ≠ (n - 1)%nat ∧ heap_ h !! i = Some (Some y)) as Hi.
  { intros i y. simpl. destruct (decide (i = (n - 1)%nat)) as [->|Hin].
    - rewrite list_lookup_insert_eq by lia. split; [done|tauto].
    - rewrite list_lookup_insert_ne by done. tauto. }
  assert (length (heap_ h1) = n) as Hl1 by (simpl; by rewrite length_insert).
  assert (hole_state h1 (n - 1) p ys) as Hs1.
  { split; unfold size; rewrite ?Hl1, ?pad_inside by lia; try lia.
    - intros i Hin Hip. destruct (Hlive i ltac:(lia) Hip) as [y Hy]. exists y. apply Hi. split; [lia|done].
    - intros i [y|] Hin Hy; [|done]. pose proof (lookup_lt_Some _ _ _ Hy). apply Hi in Hy. lia.
    - eapply handles_ext; [by apply (handles_clear _ _ _ _ _ Hh Hleaf); lia|]. intros i y. rewrite Hi. tauto.
    - simpl. by rewrite list_insert_insert_ne by done. }
  assert (fresh leaf ys) as Hfresh.
  { intros y k Hy Ey Ex. apply elem_of_objects in Hy as [i Hy].
    destruct (decide (i = (n - 1)%nat)) as [->|Hin]; [by rewrite list_lookup_insert_eq in Hy by (rewrite length_insert; lia)|].
    rewrite list_lookup_insert_ne in Hy by done.
    destruct (decide (i = p)) as [->|Hip]; [by rewrite list_lookup_insert_eq in Hy by lia|].
    rewrite list_lookup_insert_ne in Hy by done.
    apply Hin. symmetry. by apply (handles_unique _ _ _ (n - 1) i leaf y k Hh). }
  destruct (MoveHoleDownAndFill_ok true h1 (n - 1) p ys leaf Hs1) as (h2 & p2 & -> & Hs2 & Ho2 & _ & Hl2); try done.
  - unfold size. rewrite Hl1. lia.
  - intros i Hin Hip Hpp x y [_ Hx]%Hi [_ Hy]%Hi. apply (Ho i); [lia|done..].
  - intros j Hj Hjp H0 x y [_ Hx]%Hi [_ Hy]%Hi. apply (Ht j); [lia|done..].
  - apply GetHeapHandle_none; [unfold size; rewrite Hl1; lia|]. intros x k [Hpn Hx]%Hi Ek.
    pose proof (Hc x k Hx Ek) as Hk. simpl. unfold storage_Clear. simpl. destruct (handle_ leaf); [|done].
    rewrite lookup_delete_None. by right.
  - rewrite !bind_ret. eexists. split; [done|]. unfold size in Hl2. rewrite Hl1 in Hl2.
    assert (rep (pop_last h2) (leaf :: ys)) as [Hr Hro].
    { apply pop_last_ok with (n - 1)%nat; [done..|]. unfold size. lia. }
    split; [|done]. destruct Hr. split; try done. by rewrite Hxs.
Qed.


(** A heap in which the object at [p] has been changed into [x], which keeps
    its handle; the others are [xs]. *)
Definition dirty h (p : nat) x xs : Prop :=
  ∃ h0 x0 zs, rep h0 zs ∧ heap_ h0 !! p = Some (Some x0) ∧ zs ≡ₚ x0 :: xs ∧ handle_ x = handle_ x0 ∧
    h = mkHeap (<[p := Some x]> (heap_ h0)) (handles_ h0).

Lemma rep_dirty h zs p x :
  rep h zs → heap_ h !! p = Some (Some x) → ∃ xs, zs ≡ₚ x :: xs ∧ dirty h p x xs.
Proof.
  intros Hr Hx. pose proof Hr as [[_ _ _ _ Ho] _]. exists (objects (<[p := None]> (heap_ h))).
  assert (zs ≡ₚ x :: objects (<[p := None]> (heap_ h))) as Hz by (rewrite <-Ho; by apply objects_clear).
  split; [done|]. exists h, x, zs. split_and!; try done. rewrite list_insert_id by done. by destruct h.
Qed.

Lemma dirty_state h p x xs :
  dirty h p x xs →
  (p < size h)%nat ∧ heap_ h !! p = Some (Some x) ∧ store_state h (size h) (x :: xs) ∧
  ordered (heap_ h) (size h) p ∧ through (heap_ h) (size h) p.
Proof.
  intros (h0 & x0 & zs & [[Hn Hlive Hdead Hh Ho] Hord] & Hx0 & Hz & Ek & ->). unfold size in *. simpl.
  pose proof (lookup_lt_Some _ _ _ Hx0) as Hp. rewrite length_insert.
  split; [done|]. split; [by apply list_lookup_insert_eq|]. split.
  2: { apply order_dirty. by apply heap_order_hole with x0. }
  split; unfold size; simpl; rewrite ?length_insert; try done.
  - intros i Hi. destruct (decide (i = p)) as [->|Hne]; [exists x; by apply list_lookup_insert_eq|].
    rewrite list_lookup_insert_ne by done. by apply Hlive.
  - intros i a Hi Ha. apply lookup_lt_Some in Ha. rewrite length_insert in Ha. lia.
  - intros k i. rewrite (Hh k i). split; intros [_ (y & Hy & Ey)]; (split; [by intros []|]).
    + destruct (decide (i = p)) as [->|Hne]; [exists x; rewrite list_lookup_insert_eq by done|exists y; rewrite list_lookup_insert_ne by done; done].
      split; [done|]. congruence.
    + destruct (decide (i = p)) as [->|Hne]; [exists x0; rewrite list_lookup_insert_eq in Hy by done; split; [done|congruence]|].
      exists y. by rewrite list_lookup_insert_ne in Hy by done.
  - rewrite objects_set by done. rewrite (objects_clear _ _ _ Hx0), Hz in Ho. by apply Permutation_cons_inv in Ho as ->.
Qed.

(** Making a hole where the changed object is. *)
Lemma MakeHole_dirty h p x xs :
  dirty h p x xs →
  ∃ h', MakeHole h p = Ret h' ∧ heap_ h' = heap_ h ∧ hole_state h' (size h) p xs ∧ fresh x xs ∧ hole_clear h' p.
Proof.
  intros (Hp & Hx & Hs & _)%dirty_state.
  destruct (MakeHole_ok h (size h) (x :: xs) p x Hs Hp Hx) as (h' & ys & -> & Eh & Hh & Hz & Hf & Hc).
  apply Permutation_cons_inv in Hz. exists h'. split_and!; try done.
  - destruct Hh. split; try done. by rewrite Hz.
  - intros y k Hy. apply Hf. by rewrite <-Hz.
Qed.

Lemma move_out_ok h n p xs x :
  hole_state h n p xs → heap_ h !! p = Some (Some x) → ordered (heap_ h) n p ∧ through (heap_ h) n p →
  ∃ h', move_out h p = Ret (h', x) ∧ size h' = size h ∧ hole_state h' n p xs ∧
    (ordered (heap_ h') n p ∧ through (heap_ h') n p) ∧ hole_clear h' p ∧
    ∀ i, i ≠ p → heap_ h' !! i = heap_ h !! i.
Proof.
  intros Hs Hx Hord. unfold move_out. rewrite (element_at_ok _ _ _ Hx), bind_ret.
  pose proof (lookup_lt_Some _ _ _ Hx) as Hp. eexists. split; [done|]. unfold size in *. simpl. rewrite length_insert.
  split; [done|]. split; [|split_and!].
  - destruct Hs as [H1 H2 H3 Hlive Hdead Hh Ho]. unfold size in *.
    rewrite pad_inside in H3, Ho by done.
    split; unfold size; simpl; rewrite ?pad_inside by (by rewrite length_insert); rewrite ?length_insert; try done.
    + intros i Hi Hip. rewrite list_lookup_insert_ne by done. by apply Hlive.
    + intros i a Hi Ha. rewrite list_lookup_insert_ne in Ha by lia. by apply (Hdead i).
    + eapply handles_ext; [exact Hh|]. intros i y. destruct (decide (i = p)) as [->|Hip]; [tauto|].
      by rewrite list_lookup_insert_ne by done.
    + by rewrite list_insert_insert_eq.
  - by apply order_dirty.
  - by apply order_dirty.
  - intros y k Hy. simpl in Hy. by rewrite list_lookup_insert_eq in Hy by done.
  - intros i Hi. by apply list_lookup_insert_ne.
Qed.

Lemma take_ok h p x xs : dirty h p x xs → ∃ h', take_ h p = Ret (h', x) ∧ rep h' xs.
Proof.
  intros Hd. pose proof Hd as (Hp & Hx & _ & Hord)%dirty_state. unfold take_.
  destruct (MakeHole_dirty h p x xs Hd) as (h1 & -> & Eh & Hs & _ & Hc). rewrite bind_ret. rewrite <-Eh in Hx, Hord.
  assert (size h1 = size h) as Hsz by (unfold size; by rewrite Eh).
  destruct (move_out_ok h1 _ p xs x Hs Hx Hord) as (h2 & -> & Hl & Hs2 & Hord2 & Hc2 & _). rewrite bind_ret.
  destruct (close_hole_ok h2 (size h) p xs) as (h3 & -> & Hr); [done|lia|done..|]. rewrite bind_ret. by exists h3.
Qed.

Lemma heap_erase_ok h p x xs : dirty h p x xs → ∃ h', erase h p = Ret h' ∧ rep h' xs.
Proof.
  intros Hd. pose proof Hd as (Hp & Hx & _ & Hord)%dirty_state. unfold erase. pass.
  destruct (MakeHole_dirty h p x xs Hd) as (h1 & -> & Eh & Hs & _ & Hc). rewrite bind_ret. rewrite <-Eh in Hord.
  apply close_hole_ok with (size h); try done. unfold size. by rewrite Eh.
Qed.

(** Filling the hole at [p], going up or down, gives a heap again. *)
Lemma refill_up h p xs e :
  hole_state h (size h) p xs → (p < size h)%nat → fresh e xs → ordered (heap_ h) (size h) p ∧ through (heap_ h) (size h) p →
  children_below (heap_ h) (size h) p e →
  ∃ h' i, MoveHoleUpAndFill h p e = Ret (h', i) ∧ rep h' (e :: xs) ∧ heap_ h' !! i = Some (Some e).
Proof.
  intros Hs Hp Hf [Ho Ht] Hc. destruct (MoveHoleUpAndFill_ok h _ p xs e Hs Hf Ho Ht Hc) as (h' & i & -> & Hs' & Ho' & Hi & Hl).
  rewrite pad_inside in Hl by done. change (length (heap_ h)) with (size h) in Hl. exists h', i.
  split_and!; try done. by split; rewrite Hl.
Qed.

Lemma refill_down h p xs e :
  hole_state h (size h) p xs → (p < size h)%nat → fresh e xs → ordered (heap_ h) (size h) p ∧ through (heap_ h) (size h) p →
  below_parent (heap_ h) p e → hole_clear h p →
  ∃ h' i, MoveHoleDownAndFill false h p e = Ret (h', i) ∧ rep h' (e :: xs) ∧ heap_ h' !! i = Some (Some e).
Proof.
  intros Hs Hp Hf [Ho Ht] Hb Hc.
  destruct (MoveHoleDownAndFill_ok false h (size h) p xs e) as (h' & i & -> & Hs' & Ho' & Hi & Hl); try done.
  { by apply GetHeapHandle_none. }
  exists h', i. split_and!; try done. by split; rewrite Hl.
Qed.

Lemma Update_ok h p x xs :
  dirty h p x xs → ∃ h' i, Update h p = Ret (h', i) ∧ rep h' (x :: xs) ∧ heap_ h' !! i = Some (Some x).
Proof.
  intros Hd. pose proof Hd as (Hp & Hx & Hst & Hord)%dirty_state. unfold Update. pass.
  destruct (MakeHole_dirty h p x xs Hd) as (h1 & -> & Eh & Hs & Hf & Hc). rewrite bind_ret. rewrite <-Eh in Hx, Hord.
  assert (size h1 = size h) as Hsz by (unfold size; by rewrite Eh).
  destruct (move_out_ok h1 _ p xs x Hs Hx Hord) as (h2 & Em & Hl & Hs2 & Hord2 & Hc2 & Hsame).
  rewrite <-Hsz, <-Hl in *. destruct (Nat.ltb_spec 0 p) as [Hpos|Hpos].
  - pose proof (parent_spec p Hpos) as Hpp. destruct (hs_live _ _ _ _ Hs (parent p)) as [y Hy]; [lia..|].
    unfold ParentIndex, Less. rewrite (dcheck_pass (negb (p =? 0)%nat)) by bool_solve. rewrite !bind_ret.
    fold (parent p). rewrite (dcheck_pass (p <? size h1)%nat), bind_ret by bool_solve.
    rewrite (dcheck_pass (parent p <? size h1)%nat), bind_ret by bool_solve.
    rewrite (element_at_ok _ _ _ Hx), (element_at_ok _ _ _ Hy), !bind_ret. rewrite Em, bind_ret.
    assert (heap_ h2 !! parent p = Some (Some y)) as Hy2 by (rewrite Hsame by lia; done).
    destruct (less x y) eqn:E; simpl.
    + apply refill_down; try done. intros z _ Hz. simplify_eq. by apply lt_le.
    + apply refill_up; try done. intros j z Hj Hjp Hz. apply le_trans with y; [|done].
      destruct Hord2 as [_ Ht]. by apply (Ht j Hj Hjp Hpos).
  - rewrite !bind_ret, Em, bind_ret. apply refill_down; try done. intros z Hz. lia.
Qed.

Lemma Modify_ok h zs p x (f : T → T) :
  rep h zs → heap_ h !! p = Some (Some x) → handle_ (f x) = handle_ x →
  ∃ xs h' i, zs ≡ₚ x :: xs ∧ Modify h p f = Ret (h', i) ∧ rep h' (f x :: xs) ∧ heap_ h' !! i = Some (Some (f x)).
Proof.
  intros Hr Hx Hk. destruct (rep_dirty h zs p x Hr Hx) as (xs & Hz & _). exists xs.
  unfold Modify. rewrite (element_at_ok _ _ _ Hx), bind_ret.
  destruct (Update_ok (mkHeap (<[p := Some (f x)]> (heap_ h)) (handles_ h)) p (f x) xs) as (h' & i & E & ? & ?).
  - by exists h, x, zs.
  - by exists h', i.
Qed.

Lemma ReplaceImpl_ok h zs p x e xs :
  rep h zs → heap_ h !! p = Some (Some x) → zs ≡ₚ x :: xs → fresh e xs →
  ∃ h' i, ReplaceImpl h p e = Ret (h', i) ∧ rep h' (e :: xs) ∧ heap_ h' !! i = Some (Some e).
Proof.
  intros Hr Hx Hz Hf. pose proof (rep_dirty h zs p x Hr Hx) as (xs' & Hz' & Hd).
  rewrite Hz in Hz'. apply Permutation_cons_inv in Hz'.
  assert (fresh e xs') as Hf' by (intros y k Hy; apply Hf; by rewrite Hz').
  pose proof Hd as (Hp & _ & _ & Hord)%dirty_state. destruct Hr as [_ Ho]. unfold ReplaceImpl.
  destruct (MakeHole_dirty h p x xs' Hd) as (h1 & -> & Eh & Hs & _ & Hc). rewrite bind_ret. rewrite <-Eh in *.
  assert (size h1 = size h) as Hsz by (unfold size; by rewrite Eh). rewrite <-Hsz in *.
  unfold Less_element_pos. rewrite dcheck_pass, bind_ret by (by apply Nat.ltb_lt).
  rewrite (element_at_ok _ _ _ Hx), !bind_ret.
  assert (∀ h' i, rep h' (e :: xs') → heap_ h' !! i = Some (Some e) → rep h' (e :: xs)) as Hfix.
  { intros h' i [[] ?] _. split; [split|]; try done. by rewrite Hz'. }
  destruct (less e x) eqn:E; simpl.
  - destruct (refill_down h1 p xs' e) as (h' & i & -> & ? & ?); try done; [|exists h', i; split_and!; [done|by apply (Hfix h' i)|done]].
    intros y Hp0 Hy. apply le_trans with x; [by apply lt_le|]. apply (Ho p); [lia|done..].
  - destruct (refill_up h1 p xs' e) as (h' & i & -> & ? & ?); try done; [|exists h', i; split_and!; [done|by apply (Hfix h' i)|done]].
    intros j y Hj Hjp Hy. apply le_trans with x; [|done]. apply (Ho j Hj); [done|]. by rewrite Hjp.
Qed.

Lemma ReplaceTopImpl_ok h zs x e xs :
  rep h zs → heap_ h !! 0%nat = Some (Some x) → zs ≡ₚ x :: xs → fresh e xs →
  ∃ h' i, ReplaceTopImpl h e = Ret (h', i) ∧ rep h' (e :: xs) ∧ heap_ h' !! i = Some (Some e).
Proof.
  intros Hr Hx Hz Hf. pose proof (rep_dirty h zs 0 x Hr Hx) as (xs' & Hz' & Hd).
  rewrite Hz in Hz'. apply Permutation_cons_inv in Hz'.
  assert (fresh e xs') as Hf' by (intros y k Hy; apply Hf; by rewrite Hz').
  pose proof Hd as (Hp & _ & _ & Hord)%dirty_state. unfold ReplaceTopImpl.
  destruct (MakeHole_dirty h 0 x xs' Hd) as (h1 & -> & Eh & Hs & _ & Hc). rewrite bind_ret. rewrite <-Eh in *.
  assert (size h1 = size h) as Hsz by (unfold size; by rewrite Eh). rewrite <-Hsz in *.
  destruct (refill_down h1 0 xs' e) as (h' & i & -> & [[] ?] & ?); try done.
  { intros y Hp0. lia. }
  exists h', i. split_and!; try done. split; [split|]; try done. by rewrite Hz'.
Qed.

Lemma clear_loop_ok n : ∀ h i,
  (i + n = size h)%nat → (∀ j, (j < size h)%nat → ∃ x, heap_ h !! j = Some (Some x)) →
  handles_ok (handles_ h) (λ j, (j < i)%nat) (heap_ h) →
  ∃ h', clear_loop n h i = Ret h' ∧ handles_ok (handles_ h') (λ j, (j < size h)%nat) (heap_ h).
Proof.
  induction n as [|n IH]; intros h i Hn Hlive Hh; simpl.
  { exists h. split; [done|]. by rewrite <-Hn, Nat.add_0_r. }
  destruct (Hlive i ltac:(lia)) as [x Hx]. rewrite (ClearHeapHandle_ok _ _ _ Hx), bind_ret.
  destruct (IH (mkHeap (heap_ h) (storage_Clear (handles_ h) (Some x))) (S i)) as (h' & -> & Hh'); unfold size in *; simpl in *; [lia|done| |by exists h'].
  eapply handles_ext; [apply (handles_clear _ _ _ _ _ Hh Hx); lia|]. intros j y. split; intros [? ?]; (split; [lia|done]).
Qed.

Lemma heap_clear_ok h xs : rep h xs → ∃ h', clear h = Ret h' ∧ rep h' [] ∧ ∀ k, handles_ h' !! k = None.
Proof.
  intros [[_ Hlive _ Hh _] _]. unfold clear.
  destruct (clear_loop_ok (size h) h 0) as (h' & -> & Hh'); [done|done| |].
  { eapply handles_ext; [exact Hh|]. intros i y. split; intros [? ?]; (split; [lia|done]). }
  rewrite bind_ret. eexists. split; [done|]. assert (∀ k, handles_ h' !! k = None) as Hk.
  { intros k. destruct (handles_ h' !! k) as [i|] eqn:E; [|done]. apply Hh' in E as (Hi & x & Hx & _).
    apply lookup_lt_Some in Hx. unfold size in Hi. lia. }
  split; [|done]. split; [split|]; unfold size; simpl; try done; try (intros; lia).
  intros k i. rewrite Hk. split; [done|]. intros (_ & x & Hx & _). done.
Qed.

Lemma heap_insert_range_ok items : ∀ h xs,
  rep h xs → (∀ l1 x l2, items = l1 ++ x :: l2 → fresh x (l1 ++ xs)) →
  ∃ h' ys, insert_range h items = Ret h' ∧ rep h' ys ∧ ys ≡ₚ items ++ xs.
Proof.
  induction items as [|x items IH]; intros h xs Hr Hf; simpl; [by exists h, xs|].
  destruct (InsertImpl_ok h xs x Hr) as (h1 & i & -> & Hr1 & _); [apply (Hf [] x items); done|]. rewrite bind_ret.
  destruct (IH h1 (x :: xs) Hr1) as (h2 & ys & -> & Hr2 & Hy).
  - intros l1 y l2 ->. intros z k Hz. apply (Hf (x :: l1) y l2 eq_refl).
    rewrite elem_of_app in Hz |- *. rewrite !elem_of_cons in *. tauto.
  - exists h2, ys. split_and!; try done. rewrite Hy. by rewrite Permutation_middle.
Qed.

(** Every element is not above the one at the top. *)
Lemma top_max h xs i x y :
  rep h xs → heap_ h !! i = Some (Some y) → heap_ h !! 0%nat = Some (Some x) → less x y = false.
Proof.
  intros [[_ Hlive _ _ _] Ho]. revert y. induction i as [i IH] using lt_wf_ind. intros y Hy Hx.
  destruct (decide (i = 0%nat)) as [->|Hi]; [simplify_eq; apply less_irrefl|].
  pose proof (parent_spec i ltac:(lia)). pose proof (lookup_lt_Some _ _ _ Hy) as Hl.
  destruct (Hlive (parent i)) as [z Hz]; [unfold size; lia|].
  apply le_trans with z; [|by apply (IH (parent i)); [lia|..]]. apply (Ho i); [unfold size; lia|done..].
Qed.


(** ** The contract: a collection of elements addressed by their handles *)

Inductive hop : Type :=
| HInsert (e : T) | HPop | HTakeTop | HErase (k : K) | HTake (k : K)
| HReplace (k : K) (e : T) | HReplaceTop (e : T) | HModify (k : K) (f : T → T) | HClear.

Definition apply_op h (o : hop) : outcome (IntrusiveHeap T K) :=
  match o with
  | HInsert e => fst <$> InsertImpl h e
  | HPop => pop h
  | HTakeTop => fst <$> take_top h
  | HErase k => i ← ToIndex h k; erase h i
  | HTake k => i ← ToIndex h k; fst <$> take_ h i
  | HReplace k e => i ← ToIndex h k; fst <$> ReplaceImpl h i e
  | HReplaceTop e => fst <$> ReplaceTopImpl h e
  | HModify k f => i ← ToIndex h k; fst <$> Modify h i f
  | HClear => clear h
  end.

(** What a client may ask for: a new element's handle is not in use, the
    element addressed is there, and modifying it does not change its handle. *)
Definition allowed xs (o : hop) : Prop :=
  match o with
  | HInsert e => fresh e xs
  | HPop | HTakeTop => xs ≠ []
  | HErase k | HTake k => ∃ x, x ∈ xs ∧ handle_ x = Some k
  | HReplace k e => (∃ x, x ∈ xs ∧ handle_ x = Some k) ∧ fresh e xs
  | HReplaceTop e => xs ≠ [] ∧ fresh e xs
  | HModify k f => ∃ x, x ∈ xs ∧ handle_ x = Some k ∧ ∀ y, handle_ y = Some k → handle_ (f y) = Some k
  | HClear => True
  end.

Definition maximal x xs : Prop := ∀ y, y ∈ xs → less x y = false.

(** What it gets, up to the order of the collection. *)
Definition hop_spec xs (o : hop) ys : Prop :=
  match o with
  | HInsert e => ys ≡ₚ e :: xs
  | HPop | HTakeTop => ∃ x, maximal x xs ∧ xs ≡ₚ x :: ys
  | HErase k | HTake k => ∃ x, handle_ x = Some k ∧ xs ≡ₚ x :: ys
  | HReplace k e => ∃ x zs, handle_ x = Some k ∧ xs ≡ₚ x :: zs ∧ ys ≡ₚ e :: zs
  | HReplaceTop e => ∃ x zs, maximal x xs ∧ xs ≡ₚ x :: zs ∧ ys ≡ₚ e :: zs
  | HModify k f => ∃ x zs, handle_ x = Some k ∧ xs ≡ₚ x :: zs ∧ ys ≡ₚ f x :: zs
  | HClear => ys = []
  end.

Fixpoint run h (ops : list hop) : outcome (IntrusiveHeap T K) :=
  match ops with [] => Ret h | o :: ops => h ← apply_op h o; run h ops end.

(** The client keeps to the rules, whichever allowed result it gets. *)
Fixpoint client_ok xs (ops : list hop) : Prop :=
  match ops with [] => True | o :: ops => allowed xs o ∧ ∀ ys, hop_spec xs o ys → client_ok ys ops end.

Fixpoint run_spec xs (ops : list hop) zs : Prop :=
  match ops with [] => zs = xs | o :: ops => ∃ ys, hop_spec xs o ys ∧ run_spec ys ops zs end.

Lemma rep_found h xs x k :
  rep h xs → x ∈ xs → handle_ x = Some k → ∃ i, ToIndex h k = Ret i ∧ heap_ h !! i = Some (Some x).
Proof.
  intros [[_ _ _ Hh Ho] _] Hx Ek. rewrite <-Ho in Hx. apply elem_of_objects in Hx as [i Hi].
  exists i. split; [|done]. unfold ToIndex. by rewrite (proj2 (Hh k i)) by eauto.
Qed.

Lemma rep_top h xs : rep h xs → xs ≠ [] → ∃ x, heap_ h !! 0%nat = Some (Some x) ∧ x ∈ xs ∧ maximal x xs.
Proof.
  intros Hr Hne. pose proof Hr as [[_ Hlive _ _ Ho] _].
  destruct (Hlive 0%nat) as [x Hx].
  { destruct (heap_ h) as [|a l] eqn:E; [|unfold size; rewrite E; simpl; lia]. simpl in Ho.
    by apply Permutation_nil_l in Ho. }
  exists x. split_and!; [done|rewrite <-Ho; apply elem_of_objects; eauto|].
  intros y. rewrite <-Ho. intros [i Hi]%elem_of_objects. by apply (top_max h xs i).
Qed.

Lemma fmap_fst_ret {A B} (m : outcome (A * B)) a b : m = Ret (a, b) → fst <$> m = Ret a.
Proof. by intros ->. Qed.

Lemma rep_permute h xs ys : rep h xs → xs ≡ₚ ys → rep h ys.
Proof. intros [[] ?] E. split; [split|]; try done. by rewrite <-E. Qed.

Lemma fresh_cons x xs zs e : xs ≡ₚ x :: zs → fresh e xs → fresh e zs.
Proof. intros E Hf y k Hy. apply Hf. rewrite E. by right. Qed.

Lemma heap_apply_op_ok h xs o :
  rep h xs → allowed xs o → ∃ h' ys, apply_op h o = Ret h' ∧ hop_spec xs o ys ∧ rep h' ys.
Proof.
  intros Hr Ha. destruct o as [e| | |k|k|k e|e|k f|]; simpl in *.
  - destruct (InsertImpl_ok h xs e Hr Ha) as (h' & i & -> & Hr' & _). by exists h', (e :: xs).
  - destruct (rep_top h xs Hr Ha) as (x & Hx & _ & Hm). destruct (rep_dirty h xs 0 x Hr Hx) as (zs & Hz & Hd).
    destruct (heap_erase_ok h 0 x zs Hd) as (h' & E & Hr'). exists h', zs. split_and!; try done. by exists x.
  - destruct (rep_top h xs Hr Ha) as (x & Hx & _ & Hm). destruct (rep_dirty h xs 0 x Hr Hx) as (zs & Hz & Hd).
    destruct (take_ok h 0 x zs Hd) as (h' & E & Hr'). exists h', zs. split_and!; try done; [by apply fmap_fst_ret in E|]. by exists x.
  - destruct Ha as (x & Hx & Ek). destruct (rep_found h xs x k Hr Hx Ek) as (i & -> & Hi). rewrite bind_ret.
    destruct (rep_dirty h xs i x Hr Hi) as (zs & Hz & Hd). destruct (heap_erase_ok h i x zs Hd) as (h' & E & Hr').
    exists h', zs. split_and!; try done. by exists x.
  - destruct Ha as (x & Hx & Ek). destruct (rep_found h xs x k Hr Hx Ek) as (i & -> & Hi). rewrite bind_ret.
    destruct (rep_dirty h xs i x Hr Hi) as (zs & Hz & Hd). destruct (take_ok h i x zs Hd) as (h' & E & Hr').
    exists h', zs. split_and!; try done; [by apply fmap_fst_ret in E|]. by exists x.
  - destruct Ha as ((x & Hx & Ek) & Hf). destruct (rep_found h xs x k Hr Hx Ek) as (i & -> & Hi). rewrite bind_ret.
    destruct (rep_dirty h xs i x Hr Hi) as (zs & Hz & _).
    destruct (ReplaceImpl_ok h xs i x e zs) as (h' & j & -> & Hr' & _); try done; [by eapply fresh_cons|].
    exists h', (e :: zs). split_and!; try done. by exists x, zs.
  - destruct Ha as (Hne & Hf). destruct (rep_top h xs Hr Hne) as (x & Hx & _ & Hm).
    destruct (rep_dirty h xs 0 x Hr Hx) as (zs & Hz & _).
    destruct (ReplaceTopImpl_ok h xs x e zs) as (h' & j & -> & Hr' & _); try done; [by eapply fresh_cons|].
    exists h', (e :: zs). split_and!; try done. by exists x, zs.
  - destruct Ha as (x & Hx & Ek & Hfk). destruct (rep_found h xs x k Hr Hx Ek) as (i & -> & Hi). rewrite bind_ret.
    destruct (Modify_ok h xs i x f) as (zs & h' & j & Hz & -> & Hr' & _); try done; [by rewrite Ek; apply Hfk|].
    exists h', (f x :: zs). split_and!; try done. by exists x, zs.
  - destruct (heap_clear_ok h xs Hr) as (h' & -> & Hr' & _). by exists h', [].
Qed.

Lemma heap_run_ok ops : ∀ h xs,
  rep h xs → client_ok xs ops → ∃ h' zs, run h ops = Ret h' ∧ run_spec xs ops zs ∧ rep h' zs.
Proof.
  induction ops as [|o ops IH]; intros h xs Hr Hc; simpl in *; [by exists h, xs|].
  destruct Hc as [Ha Hc]. destruct (heap_apply_op_ok h xs o Hr Ha) as (h1 & ys & -> & Hs & Hr1). rewrite bind_ret.
  destruct (IH h1 ys Hr1 (Hc ys Hs)) as (h2 & zs & -> & Hrs & Hr2). exists h2, zs. split_and!; eauto.
Qed.

Lemma heap_rep_init : rep (IntrusiveHeap_init ∅) [].
Proof.
  split; [split|]; unfold size; simpl; try done; try (intros; lia).
  intros k i. rewrite lookup_empty. split; [done|]. by intros (_ & x & Hx & _).
Qed.

(** C4: The heap refines a collection of elements addressed by handles.
    Whatever sequence of insertions, removals of the top or by handle,
    replacements, modifications by handle and clears a client performs on an
    empty heap, keeping to the rules, no check fails, no moved-from object is
    compared and no access leaves the vector; removals at the top remove a
    maximal element and the others the element addressed; and afterwards the
    heap has the size of the collection, every element is found through its
    handle, every other handle is invalid, and [top] is a maximal element. *)
Theorem intrusive_heap_refines_collection (ops : list hop) :
  client_ok [] ops →
  ∃ h zs, run (IntrusiveHeap_init ∅) ops = Ret h ∧ run_spec [] ops zs ∧
    size h = length zs ∧
    (∀ x k, x ∈ zs → handle_ x = Some k → at_handle h k = Ret x) ∧
    (∀ k, (∀ x, x ∈ zs → handle_ x ≠ Some k) → handles_ h !! k = None) ∧
    (zs ≠ [] → ∃ x, top h = Ret x ∧ x ∈ zs ∧ maximal x zs).
Proof.
  intros Hc. destruct (heap_run_ok ops _ [] heap_rep_init Hc) as (h & zs & Er & Hs & Hr). exists h, zs.
  pose proof Hr as [[_ Hlive _ Hh Ho] _]. split_and!; try done.
  - rewrite <-Ho. symmetry. unfold size in *. clear -Hlive. induction (heap_ h) as [|a l IH]; [done|].
    destruct (Hlive 0%nat ltac:(simpl; lia)) as [x [= ->]]. unfold objects in *. simpl. f_equal. apply IH.
    intros i Hi. apply (Hlive (S i)). simpl. lia.
  - intros x k Hx Ek. destruct (rep_found h zs x k Hr Hx Ek) as (i & Ei & Hi).
    unfold at_handle. rewrite Ei, bind_ret. by apply element_at_ok.
  - intros k Hk. destruct (handles_ h !! k) as [i|] eqn:E; [|done]. apply Hh in E as (_ & x & Hx & Ex).
    destruct (Hk x); [|done]. rewrite <-Ho. apply elem_of_objects. eauto.
  - intros Hne. destruct (rep_top h zs Hr Hne) as (x & Hx & Hin & Hm). exists x. split_and!; try done.
    by apply element_at_ok.
Qed.

(** Repairs tolerate an arbitrarily modified element, as the comments of
    the header promise: when the object at one position of a heap has been
    changed in place (keeping its handle), however it now violates the order,
    [erase] and [take] at that position remove it and leave a heap of the
    others, and [Update] leaves a heap with the changed element and returns
    its position. *)
Theorem intrusive_heap_repairs_modified h zs xs p x x' :
  rep h zs → heap_ h !! p = Some (Some x) → zs ≡ₚ x :: xs → handle_ x' = handle_ x →
  let changed := mkHeap (<[p := Some x']> (heap_ h)) (handles_ h) in
  (∃ h', erase changed p = Ret h' ∧ rep h' xs) ∧
  (∃ h', take_ changed p = Ret (h', x') ∧ rep h' xs) ∧
  (∃ h' i, Update changed p = Ret (h', i) ∧ rep h' (x' :: xs) ∧ heap_ h' !! i = Some (Some x')).
Proof.
  intros Hr Hx Hz Hk changed. assert (dirty changed p x' xs) as Hd by (by exists h, x, zs).
  split_and!; [by apply heap_erase_ok with x'|by apply take_ok|by apply Update_ok].
Qed.

(** Taking the top [n] times. *)
Fixpoint drain (n : nat) h : outcome (list T * IntrusiveHeap T K) :=
  match n with
  | O => Ret ([], h)
  | S n => '(h, x) ← take_top h; '(l, h) ← drain n h; Ret (x :: l, h)
  end.

(** Heap sort: inserting any elements with distinct handles into an empty
    heap and taking the top until it is empty returns exactly those elements,
    in descending order, and leaves every handle invalid. *)
Theorem intrusive_heap_sorts (items : list T) :
  (∀ l1 x l2, items = l1 ++ x :: l2 → fresh x l1) →
  ∃ h h' l, insert_range (IntrusiveHeap_init ∅) items = Ret h ∧ drain (length items) h = Ret (l, h') ∧
    l ≡ₚ items ∧ StronglySorted (λ x y, less x y = false) l ∧ heap_ h' = [] ∧ ∀ k, handles_ h' !! k = None.
Proof.
  intros Hf. destruct (heap_insert_range_ok items _ [] heap_rep_init) as (h & ys & -> & Hr & Hy).
  { intros l1 x l2 E. rewrite app_nil_r. by apply Hf with l2. }
  rewrite app_nil_r in Hy. exists h. apply (rep_permute _ _ _ Hr) in Hy. clear Hr Hf ys.
  revert h Hy. remember (length items) as n eqn:En. revert items En.
  induction n as [|n IH]; intros items En h Hr; simpl.
  - symmetry in En. apply nil_length_inv in En as ->. destruct Hr as [[_ Hlive _ Hh Ho] _].
    assert (heap_ h = []) as Hnil.
    { destruct (heap_ h) as [|a l] eqn:E; [done|]. unfold size in Hlive. rewrite E in Hlive.
      destruct (Hlive 0%nat ltac:(simpl; lia)) as [x [= ->]]. unfold objects in Ho. simpl in Ho.
      by apply Permutation_nil_r in Ho. }
    exists h, []. split_and!; try done; [constructor|]. intros k.
    destruct (handles_ h !! k) as [i|] eqn:E; [|done]. apply Hh in E as (_ & x & Hx & _). by rewrite Hnil in Hx.
  - destruct (rep_top h items Hr) as (x & Hx & _ & Hm); [by intros ->|].
    destruct (rep_dirty h items 0 x Hr Hx) as (zs & Hz & Hd).
    destruct (take_ok h 0 x zs Hd) as (h1 & E1 & Hr1). unfold take_top. rewrite E1, bind_ret.
    assert (n = length zs) as Hn by (apply Permutation_length in Hz; simpl in Hz; lia).
    destruct (IH zs Hn h1 Hr1) as (h2 & l & _ & E2 & Hl & Hs & Hnil & Hk).
    rewrite E2, bind_ret. exists h2, (x :: l). split_and!; try done; [by rewrite Hl, Hz|].
    constructor; [done|]. apply list.Forall_forall. intros y Hy. apply Hm. rewrite Hz. right. by rewrite <-Hl.
Qed.

End Order.

End Heap.

(** ** Witnesses

    Tasks with a priority and a handle address. *)

Record task := Task { priority : Z; address : Z }.

#[local] Instance task_compare : Compare task := {| less a b := priority a <? priority b |}.
#[local] Instance task_storage : HeapHandleStorage task Z := {| handle_ t := Some (address t) |}.

#[local] Instance task_order : StrictWeakOrder task.
Proof. split; simpl; intros *; rewrite ?Z.ltb_lt; lia. Qed.

Lemma intrusive_heap_refines_collection_witness :
  ∃ h (zs : list task), run (bm := debug_build) (IntrusiveHeap_init ∅)
            [HInsert (Task 5 1); HInsert (Task 9 2); HModify 1 (λ t, Task 20 (address t)); HErase 2] = Ret h ∧
    size h = length zs.
Proof.
  destruct (intrusive_heap_refines_collection (bm := debug_build) (T := task) (K := Z)
    [HInsert (Task 5 1); HInsert (Task 9 2); HModify 1 (λ t, Task 20 (address t)); HErase 2])
    as (h & zs & E & _ & Hs & _); [|by exists h, zs].
  simpl. split; [by intros x k ?%elem_of_nil|]. intros l1 H1. split.
  { intros x k. rewrite H1, list_elem_of_singleton. intros -> [= <-]. done. }
  intros l2 H2. split.
  { exists (Task 5 1). rewrite H2, H1. split_and!; [set_solver|done|done]. }
  intros l3 (x & zs & Ex & Hx & Hz). split; [|done]. exists (Task 9 2). split; [|done].
  rewrite Hz. right. assert (Task 9 2 ∈ x :: zs) as Hin by (rewrite <-Hx, H2; set_solver).
  apply elem_of_cons in Hin as [<-|Hin]; [discriminate Ex|done].
Defined.

(** A heap of two tasks. *)
Definition two_tasks : IntrusiveHeap task Z :=
  mkHeap [Some (Task 9 2); Some (Task 5 1)] (<[2 := 0%nat]> (<[1 := 1%nat]> ∅)).

Lemma two_tasks_rep : rep two_tasks [Task 9 2; Task 5 1].
Proof.
  destruct (heap_run_ok (bm := debug_build) [HInsert (Task 5 1); HInsert (Task 9 2)] (IntrusiveHeap_init ∅) [])
    as (h & zs & E & (l1 & H1 & l2 & H2 & ->) & Hr); [exact heap_rep_init| |].
  - simpl. split; [by intros x k ?%elem_of_nil|]. intros l1 H1. split; [|done].
    intros x k. rewrite H1, list_elem_of_singleton. intros -> [= <-]. done.
  - simpl in H1, H2. assert (h = two_tasks) as <- by (vm_compute in E; by injection E as <-).
    apply rep_permute with l2; [done|]. by rewrite H2, H1.
Qed.

Lemma intrusive_heap_repairs_modified_witness :
  ∃ h', erase (bm := debug_build) (mkHeap [Some (Task (-3) 2); Some (Task 5 1)] (handles_ two_tasks)) 0 = Ret h' ∧
        rep h' [Task 5 1].
Proof.
  apply (intrusive_heap_repairs_modified (bm := debug_build) two_tasks [Task 9 2; Task 5 1] [Task 5 1] 0
    (Task 9 2) (Task (-3) 2) two_tasks_rep); done.
Defined.

Lemma intrusive_heap_sorts_witness :
  ∃ h h' l, insert_range (bm := debug_build) (IntrusiveHeap_init ∅) [Task 5 1; Task 9 2; Task 7 3] = Ret h ∧
    drain (bm := debug_build) 3 h = Ret (l, h') ∧ l ≡ₚ [Task 5 1; Task 9 2; Task 7 3].
Proof.
  destruct (intrusive_heap_sorts (bm := debug_build) (T := task) (K := Z) [Task 5 1; Task 9 2; Task 7 3])
    as (h & h' & l & E1 & E2 & Hl & _); [|by exists h, h', l].
  intros l1 x l2 E y k Hy Ey Ex. assert (NoDup (address <$> [Task 5 1; Task 9 2; Task 7 3])) as Hnd.
  { apply (bool_decide_unpack _). by vm_compute. }
  rewrite E, fmap_app, list.NoDup_app in Hnd. destruct Hnd as (_ & Hnd & _). simpl in Ey, Ex.
  apply (Hnd (address y)); [by apply list_elem_of_fmap_2|].
  replace (address y) with (address x) by congruence. apply elem_of_cons. by left.
Defined.
