(* ===== verification/LazyDeque.v ===== *)
(** * The lazily deallocated deque

    Model of [LazilyDeallocatedDeque<T>] of
    [src/include/base/task/sequence_manager/lazily_deallocated_deque.h]: the
    task queue of the scheduler, a chain of rings that grows without copying
    and is shrunk on request.  A ring is a list of cells as in
    [CircularDeque]; rings have an identity, so that the raw pointer [tail_]
    can be followed (or found to dangle) independently of the chain that
    starts at [head_].  Ring identities are local to a deque, so [swap] moves
    the counter that issues them with the chain.  Capacities are natural
    numbers: a ring that large could not be allocated before [size_t] wraps.
    Times are microseconds and an argument of the
    operation that reads the clock. *)

From S2P Require Import Prelude CircularDeque.

Definition kMinimumRingSize : nat := 4.
Definition kReclaimThreshold : nat := 16.
Definition kMinimumShrinkIntervalInSeconds : Z := 5.

Section LazyDeque.
Context {bm : BuildMode} {T : Type}.

(** ** Rings *)

Record Ring := mkRing {
  ring_id : nat;
  ring_capacity_ : nat;
  front_index_ : nat;
  back_index_ : nat;
  data_ : list (option T)
}.

Definition Ring_init (id capacity : nat) : outcome Ring :=
  DCHECK (kMinimumRingSize <=? capacity)%nat ≫= λ _,
  Ret (mkRing id capacity 0 0 (replicate capacity None)).

Definition ring_empty (r : Ring) : bool := (back_index_ r =? front_index_ r)%nat.

Definition CircularDecrement (r : Ring) (index : nat) : nat :=
  if (index =? 0)%nat then (ring_capacity_ r - 1)%nat else (index - 1)%nat.

Definition CircularIncrement (r : Ring) (index : nat) : outcome nat :=
  DCHECK (index <? ring_capacity_ r)%nat ≫= λ _,
  Ret (if (index + 1 =? ring_capacity_ r)%nat then 0%nat else (index + 1)%nat).

Definition CanPush (r : Ring) : outcome bool :=
  i ← CircularIncrement r (back_index_ r); Ret (negb (front_index_ r =? i)%nat).

(** [new (&data_[i]) T(...)]. *)
Definition place (data : list (option T)) (i : nat) (t : T) : outcome (list (option T)) :=
  if (i <? length data)%nat then Ret (<[i := Some t]> data) else Crash OutOfBounds.

Definition ring_push_front (r : Ring) (t : T) : outcome Ring :=
  DCHECK (negb (CircularDecrement r (front_index_ r) =? back_index_ r)%nat) ≫= λ _,
  data ← place (data_ r) (front_index_ r) t;
  Ret (mkRing (ring_id r) (ring_capacity_ r) (CircularDecrement r (front_index_ r)) (back_index_ r) data).

Definition ring_push_back (r : Ring) (t : T) : outcome Ring :=
  i ← CircularIncrement r (back_index_ r);
  let r := mkRing (ring_id r) (ring_capacity_ r) (front_index_ r) i (data_ r) in
  DCHECK (negb (ring_empty r)) ≫= λ _,
  data ← place (data_ r) (back_index_ r) t;
  Ret (mkRing (ring_id r) (ring_capacity_ r) (front_index_ r) (back_index_ r) data).

Definition ring_pop_front (r : Ring) : outcome Ring :=
  DCHECK (negb (ring_empty r)) ≫= λ _,
  i ← CircularIncrement r (front_index_ r);
  _ ← object (data_ r) i;
  Ret (mkRing (ring_id r) (ring_capacity_ r) i (back_index_ r) (<[i := None]> (data_ r))).

Definition ring_front (r : Ring) : outcome T :=
  DCHECK (negb (ring_empty r)) ≫= λ _,
  i ← CircularIncrement r (front_index_ r); object (data_ r) i.

Definition ring_back (r : Ring) : outcome T :=
  DCHECK (negb (ring_empty r)) ≫= λ _, object (data_ r) (back_index_ r).

(** The destructor: [while (!empty()) pop_front()]; a ring holds fewer objects
    than its capacity. *)
Fixpoint ring_destroy (fuel : nat) (r : Ring) : outcome Ring :=
  match fuel with
  | O => Ret r
  | S fuel => if ring_empty r then Ret r else r ← ring_pop_front r; ring_destroy fuel r
  end.

Definition Ring_destroy (r : Ring) : outcome Ring := ring_destroy (ring_capacity_ r) r.

(** ** The deque *)

(** [rings_] is the chain that [head_] owns. *)
Record LazyDeque := mkLazy {
  rings_ : list Ring;
  tail_ : option nat;
  size_ : nat;
  max_size_ : nat;
  next_resize_time_ : Z;
  next_ring_ : nat
}.

Definition LazyDeque_init : LazyDeque := mkLazy [] None 0 0 0 0.

Definition lazy_empty (d : LazyDeque) : bool := (size_ d =? 0)%nat.

Definition lazy_capacity (d : LazyDeque) : nat := sum_list (ring_capacity_ <$> rings_ d).

Definition head (d : LazyDeque) : outcome Ring := from_option_or NullDeref (rings_ d !! 0%nat).

(** The place of the ring [tail_] points to. *)
Definition tail (d : LazyDeque) : outcome nat :=
  t ← from_option_or NullDeref (tail_ d);
  from_option_or OutOfBounds (fst <$> list_find (λ r, ring_id r = t) (rings_ d)).

Definition tail_ring (d : LazyDeque) : outcome Ring :=
  p ← tail d; from_option_or OutOfBounds (rings_ d !! p).

Definition is_null {A} (p : option A) : bool := match p with None => true | Some _ => false end.

(** The first ring, made if there is none. *)
Definition ensure_head (d : LazyDeque) : outcome LazyDeque :=
  match rings_ d with
  | [] =>
      DCHECK (is_null (tail_ d)) ≫= λ _,
      r ← Ring_init (next_ring_ d) kMinimumRingSize;
      Ret (mkLazy [r] (Some (next_ring_ d)) (size_ d) (max_size_ d) (next_resize_time_ d) (S (next_ring_ d)))
  | _ => Ret d
  end.

(** [max_size_ = std::max(max_size_, ++size_)]. *)
Definition count_push (d : LazyDeque) (rings : list Ring) : LazyDeque :=
  mkLazy rings (tail_ d) (S (size_ d)) (Nat.max (max_size_ d) (S (size_ d))) (next_resize_time_ d) (next_ring_ d).

Definition lazy_push_front (d : LazyDeque) (t : T) : outcome LazyDeque :=
  d ← ensure_head d;
  h ← head d;
  can ← CanPush h;
  d ← (if can : bool then Ret d else
         r ← Ring_init (next_ring_ d) kMinimumRingSize;
         Ret (mkLazy (r :: rings_ d) (tail_ d) (size_ d) (max_size_ d) (next_resize_time_ d) (S (next_ring_ d))));
  h ← head d;
  h ← ring_push_front h t;
  Ret (count_push d (<[0%nat := h]> (rings_ d))).

Definition lazy_push_back (d : LazyDeque) (t : T) : outcome LazyDeque :=
  d ← ensure_head d;
  r ← tail_ring d;
  can ← CanPush r;
  d ← (if can : bool then Ret d else
         new ← Ring_init (next_ring_ d) (2 + ring_capacity_ r + ring_capacity_ r / 2);
         p ← tail d;
         Ret (mkLazy (take (S p) (rings_ d) ++ [new]) (Some (next_ring_ d)) (size_ d) (max_size_ d)
                (next_resize_time_ d) (S (next_ring_ d))));
  r ← tail_ring d;
  r ← ring_push_back r t;
  p ← tail d;
  Ret (count_push d (<[p := r]> (rings_ d))).

Definition lazy_front (d : LazyDeque) : outcome T :=
  DCHECK (negb (is_null (rings_ d !! 0%nat))) ≫= λ _, h ← head d; ring_front h.

Definition lazy_back (d : LazyDeque) : outcome T :=
  DCHECK (negb (is_null (tail_ d))) ≫= λ _, r ← tail_ring d; ring_back r.

Definition lazy_pop_front (d : LazyDeque) : outcome LazyDeque :=
  DCHECK (negb (is_null (rings_ d !! 0%nat))) ≫= λ _,
  h ← head d;
  DCHECK (negb (ring_empty h)) ≫= λ _,
  DCHECK (negb (is_null (tail_ d))) ≫= λ _,
  DCHECK (0 <? size_ d)%nat ≫= λ _,
  h ← ring_pop_front h;
  rings ← (if ring_empty h && negb (is_null (rings_ d !! 1%nat))
           then _ ← Ring_destroy h; Ret (drop 1 (rings_ d))
           else Ret (<[0%nat := h]> (rings_ d)));
  Ret (mkLazy rings (tail_ d) (size_ d - 1) (max_size_ d) (next_resize_time_ d) (next_ring_ d)).

(** [std::swap] of every member. *)
Definition lazy_swap (d other : LazyDeque) : LazyDeque * LazyDeque :=
  (mkLazy (rings_ other) (tail_ other) (size_ other) (max_size_ other) (next_resize_time_ other) (next_ring_ other),
   mkLazy (rings_ d) (tail_ d) (size_ d) (max_size_ d) (next_resize_time_ d) (next_ring_ d)).

(** [while (head_) head_ = std::move(head_->next_)]. *)
Fixpoint destroy_rings (rings : list Ring) : outcome unit :=
  match rings with [] => Ret tt | r :: rings => _ ← Ring_destroy r; destroy_rings rings end.

Definition lazy_clear (d : LazyDeque) : outcome LazyDeque :=
  _ ← destroy_rings (rings_ d);
  Ret (mkLazy [] None 0 (max_size_ d) (next_resize_time_ d) (next_ring_ d)).

(** The loop of [SetCapacity]; an item moves in every pass. *)
Fixpoint move_items (fuel : nat) (d : LazyDeque) (new_ring : Ring) : outcome (LazyDeque * Ring) :=
  match fuel with
  | O => Ret (d, new_ring)
  | S fuel =>
      if lazy_empty d then Ret (d, new_ring) else
      can ← CanPush new_ring;
      DCHECK can ≫= λ _,
      h ← head d;
      x ← ring_front h;
      new_ring ← ring_push_back new_ring x;
      d ← lazy_pop_front d;
      move_items fuel d new_ring
  end.

Definition SetCapacity (d : LazyDeque) (new_capacity : nat) : outcome LazyDeque :=
  new_ring ← Ring_init (next_ring_ d) new_capacity;
  DCHECK (size_ d + 1 <=? new_capacity)%nat ≫= λ _,
  let real_size := size_ d in
  '(d, new_ring) ← move_items (size_ d) d new_ring;
  DCHECK (bool_decide (ring_id <$> (rings_ d !! 0%nat) = tail_ d)) ≫= λ _,
  _ ← destroy_rings (rings_ d);
  Ret (mkLazy [new_ring] (Some (ring_id new_ring)) real_size (max_size_ d) (next_resize_time_ d) (S (next_ring_ d))).

Definition MaybeShrinkQueue (d : LazyDeque) (current_time : Z) : outcome LazyDeque :=
  if is_null (tail_ d) then Ret d else
  DCHECK (size_ d <=? max_size_ d)%nat ≫= λ _,
  if current_time <? next_resize_time_ d then Ret d else
  let new_capacity := (max_size_ d + 1)%nat in
  let new_capacity := if (new_capacity <? kMinimumRingSize)%nat then kMinimumRingSize else new_capacity in
  let d := mkLazy (rings_ d) (tail_ d) (size_ d) (size_ d) (next_resize_time_ d) (next_ring_ d) in
  if (lazy_capacity d <=? new_capacity + kReclaimThreshold)%nat then Ret d else
  d ← SetCapacity d new_capacity;
  Ret (mkLazy (rings_ d) (tail_ d) (size_ d) (max_size_ d)
         (current_time + kMinimumShrinkIntervalInSeconds * 1000000) (next_ring_ d)).

(** ** Iteration *)

(** The ring by its place in the chain; [None] is the null pointer. *)
Record Iterator := mkIterator { it_ring : option nat; it_index : nat }.

Definition lazy_begin (d : LazyDeque) : outcome Iterator :=
  match rings_ d !! 0%nat with
  | None => Ret (mkIterator None 0)
  | Some r => if ring_empty r then Ret (mkIterator None 0)
              else i ← CircularIncrement r (front_index_ r); Ret (mkIterator (Some 0%nat) i)
  end.

Definition it_deref (d : LazyDeque) (it : Iterator) : outcome T :=
  p ← from_option_or NullDeref (it_ring it);
  r ← from_option_or OutOfBounds (rings_ d !! p);
  object (data_ r) (it_index it).

Definition it_next (d : LazyDeque) (it : Iterator) : outcome Iterator :=
  p ← from_option_or NullDeref (it_ring it);
  r ← from_option_or OutOfBounds (rings_ d !! p);
  if (it_index it =? back_index_ r)%nat then
    match rings_ d !! S p with
    | Some r' => i ← CircularIncrement r' (front_index_ r'); Ret (mkIterator (Some (S p)) i)
    | None => Ret (mkIterator None 0)
    end
  else i ← CircularIncrement r (it_index it); Ret (mkIterator (Some p) i).

(** [for (Iterator it = begin(); it; ++it)], collecting the items. *)
Fixpoint iterate (fuel : nat) (d : LazyDeque) (it : Iterator) : outcome (list T) :=
  match fuel, it_ring it with
  | _, None => Ret []
  | O, _ => Ret []
  | S fuel, Some _ => x ← it_deref d it; it ← it_next d it; xs ← iterate fuel d it; Ret (x :: xs)
  end.

End LazyDeque.
Arguments Ring T : clear implicits.
Arguments LazyDeque T : clear implicits.

(** ** Rings hold lists *)

Section Rings.
Context {bm : BuildMode} {T : Type}.
Implicit Types (r : Ring T) (xs : list T).

Record ring_ok r xs : Prop := {
  ro_length : length (data_ r) = ring_capacity_ r;
  ro_min : (kMinimumRingSize ≤ ring_capacity_ r)%nat;
  ro_front : (front_index_ r < ring_capacity_ r)%nat;
  ro_size : (length xs < ring_capacity_ r)%nat;
  ro_back : back_index_ r = ring (ring_capacity_ r) (front_index_ r + length xs);
  ro_cells : cells_ok (data_ r) (ring (ring_capacity_ r) (front_index_ r + 1)) xs
}.

Lemma increment_ok r i : (i < ring_capacity_ r)%nat → CircularIncrement r i = Ret (ring (ring_capacity_ r) (i + 1)).
Proof. intros Hi. unfold CircularIncrement. pass. f_equal. ring_lia. Qed.

Lemma Ring_init_ok id c : (kMinimumRingSize ≤ c)%nat →
  ∃ r, Ring_init id c = Ret r ∧ ring_ok r [] ∧ ring_id r = id ∧ ring_capacity_ r = c.
Proof.
  intros Hc. unfold Ring_init. pass. eexists. split_and!; [done| |done|done].
  unfold kMinimumRingSize in *. split; simpl; rewrite ?length_replicate; try done; try lia; [ring_lia|].
  intros i. rewrite length_replicate. intros Hi. apply lookup_replicate_2. ring_lia.
Qed.

Lemma ring_empty_ok r xs : ring_ok r xs → ring_empty r = match xs with [] => true | _ => false end.
Proof.
  intros [H1 H2 H3 H4 H5 _]. unfold ring_empty. rewrite H5.
  destruct xs; simpl length in *; [apply Nat.eqb_eq|apply Nat.eqb_neq]; ring_lia.
Qed.

Lemma back_lt r xs : ring_ok r xs → (back_index_ r < ring_capacity_ r)%nat.
Proof. intros [H1 H2 H3 H4 H5 _]. rewrite H5. apply ring_lt. lia. Qed.

Lemma CanPush_ok r xs : ring_ok r xs → CanPush r = Ret (S (length xs) <? ring_capacity_ r)%nat.
Proof.
  intros Hr. pose proof (back_lt r xs Hr). destruct Hr as [H1 H2 H3 H4 H5 _]. unfold CanPush.
  rewrite increment_ok, bind_ret by done. f_equal. rewrite H5. unfold kMinimumRingSize in *. ring_lia; simpl; try done; lia.
Qed.

Lemma ring_push_front_ok r xs t :
  ring_ok r xs → (S (length xs) < ring_capacity_ r)%nat →
  ∃ r', ring_push_front r t = Ret r' ∧ ring_ok r' (t :: xs) ∧ ring_id r' = ring_id r ∧ ring_capacity_ r' = ring_capacity_ r.
Proof.
  intros [H1 H2 H3 H4 H5 Hc] Hl. unfold ring_push_front, kMinimumRingSize in *.
  rewrite dcheck_pass, bind_ret.
  2: { apply negb_true_iff, Nat.eqb_neq. unfold CircularDecrement. rewrite H5. ring_lia. }
  unfold place. rewrite H1, (proj2 (Nat.ltb_lt _ _)), bind_ret by done. eexists. split_and!; [done| |done|done].
  split; simpl; rewrite ?length_insert; try done; unfold CircularDecrement; [ring_lia|rewrite H5; ring_lia|].
  replace (ring _ _) with (front_index_ r) by ring_lia. intros i. rewrite length_insert, H1. intros Hi.
  destruct i as [|i].
  - replace (ring _ _) with (front_index_ r) by ring_lia. by rewrite list_lookup_insert_eq by lia.
  - rewrite list_lookup_insert_ne by ring_lia. simpl.
    replace (ring _ (front_index_ r + S i)) with (ring (length (data_ r)) (ring (ring_capacity_ r) (front_index_ r + 1) + i)).
    + apply Hc. lia.
    + rewrite H1. ring_lia.
Qed.

Lemma ring_push_back_ok r xs t :
  ring_ok r xs → (S (length xs) < ring_capacity_ r)%nat →
  ∃ r', ring_push_back r t = Ret r' ∧ ring_ok r' (xs ++ [t]) ∧ ring_id r' = ring_id r ∧ ring_capacity_ r' = ring_capacity_ r.
Proof.
  intros Hr Hl. pose proof (back_lt r xs Hr) as Hb. destruct Hr as [H1 H2 H3 H4 H5 Hc]. unfold ring_push_back, kMinimumRingSize in *.
  rewrite increment_ok, bind_ret by done. set (i := ring _ (back_index_ r + 1)). unfold ring_empty. simpl.
  assert (i = ring (length (data_ r)) (ring (ring_capacity_ r) (front_index_ r + 1) + length xs)) as Hi.
  { unfold i. rewrite H1, H5. ring_lia. }
  rewrite dcheck_pass, bind_ret by (apply negb_true_iff, Nat.eqb_neq; unfold i; rewrite H5; ring_lia).
  unfold place. rewrite H1, (proj2 (Nat.ltb_lt _ _)), bind_ret by (unfold i; apply ring_lt; lia).
  eexists. split_and!; [done| |done|done].
  split; simpl; rewrite ?length_insert, ?length_app; try done; simpl; [lia|unfold i; rewrite H5; ring_lia|].
  rewrite Hi. apply cells_insert with xs; [done|rewrite H1; apply ring_lt; lia|lia|by rewrite list_lookup_middle|].
  intros j Hj Hne. destruct (Nat.lt_ge_cases j (length xs)); [by rewrite lookup_app_l|].
  rewrite !lookup_ge_None_2; [done|lia|rewrite length_app; simpl; lia].
Qed.

Lemma ring_front_ok r x xs : ring_ok r (x :: xs) → ring_front r = Ret x.
Proof.
  intros Hr. unfold ring_front. rewrite (ring_empty_ok _ _ Hr). simpl. pass.
  destruct Hr as [H1 H2 H3 H4 H5 Hc]. rewrite increment_ok, bind_ret by done. apply object_ok.
  rewrite <-(cells_item _ _ _ 0 x Hc) by (done || rewrite H1; simpl in H4; lia). f_equal. rewrite H1. ring_lia.
Qed.

Lemma ring_back_ok r xs x : ring_ok r (xs ++ [x]) → ring_back r = Ret x.
Proof.
  intros Hr. unfold ring_back. rewrite (ring_empty_ok _ _ Hr).
  assert (negb (match xs ++ [x] with [] => true | _ => false end) = true) as -> by (by destruct xs). pass.
  destruct Hr as [H1 H2 H3 H4 H5 Hc]. rewrite length_app in *. simpl in *. apply object_ok.
  rewrite <-(cells_item _ _ _ (length xs) x Hc (list_lookup_middle xs [] x _ eq_refl) ltac:(lia)).
  f_equal. rewrite H1, H5. ring_lia.
Qed.

Lemma ring_pop_front_ok r x xs :
  ring_ok r (x :: xs) →
  ∃ r', ring_pop_front r = Ret r' ∧ ring_ok r' xs ∧ ring_id r' = ring_id r ∧ ring_capacity_ r' = ring_capacity_ r.
Proof.
  intros Hr. unfold ring_pop_front. rewrite (ring_empty_ok _ _ Hr). simpl. pass.
  destruct Hr as [H1 H2 H3 H4 H5 Hc]. simpl in H4, H5. unfold kMinimumRingSize in *. rewrite increment_ok, bind_ret by done.
  set (i := ring _ (front_index_ r + 1)) in *.
  assert (i < ring_capacity_ r)%nat as Hi by (apply ring_lt; lia).
  pose proof (cells_item _ _ _ 0 x Hc eq_refl ltac:(lia)) as Hx. replace (ring _ (i + 0)) with i in Hx by (rewrite H1; ring_lia).
  rewrite (object_ok _ _ _ Hx), bind_ret. eexists. split_and!; [done| |done|done].
  split; simpl; rewrite ?length_insert; try done; [lia|unfold i; rewrite H5; ring_lia|].
  intros j. rewrite length_insert, H1. intros Hj. destruct (Nat.eq_dec (S j) (ring_capacity_ r)) as [Ej|Ej].
  - replace (ring _ _) with i by (unfold i; ring_lia). rewrite list_lookup_insert_eq by lia. f_equal.
    symmetry. apply lookup_ge_None_2. lia.
  - rewrite list_lookup_insert_ne by (unfold i; ring_lia).
    replace (ring _ (ring _ (i + 1) + j)) with (ring (length (data_ r)) (i + S j)) by (rewrite H1; ring_lia).
    rewrite Hc by lia. done.
Qed.

Lemma ring_destroy_ok fuel : ∀ r xs, ring_ok r xs → (length xs ≤ fuel)%nat → ∃ r', ring_destroy fuel r = Ret r' ∧ ring_ok r' [].
Proof.
  induction fuel as [|fuel IH]; intros r xs Hr Hf; simpl.
  - destruct xs; [by exists r|simpl in Hf; lia].
  - rewrite (ring_empty_ok _ _ Hr). destruct xs as [|x xs]; [by exists r|]. simpl in Hf.
    destruct (ring_pop_front_ok r x xs Hr) as (r1 & -> & Hr1 & _). rewrite bind_ret. by apply (IH r1 xs); [|lia].
Qed.

Lemma Ring_destroy_ok r xs : ring_ok r xs → ∃ r', Ring_destroy r = Ret r' ∧ ring_ok r' [].
Proof. intros Hr. apply ring_destroy_ok with xs; [done|]. pose proof (ro_size _ _ Hr). lia. Qed.

End Rings.

(** ** The chain holds their concatenation *)

Section Chain.
Context {bm : BuildMode} {T : Type}.
Implicit Types (d : LazyDeque T) (r : Ring T) (rs : list (Ring T)) (xs : list T) (xss : list (list T)).

(** [tail_] points to the last ring; every ring but a sole one holds an item. *)
Record lazy_rep d xs : Prop := {
  lr_rings : ∃ xss, Forall2 ring_ok (rings_ d) xss ∧ concat xss = xs ∧
               (length xss = 1%nat ∨ Forall (λ ys, ys ≠ []) xss);
  lr_ids : NoDup (ring_id <$> rings_ d) ∧ Forall (λ r, ring_id r < next_ring_ d)%nat (rings_ d);
  lr_tail : tail_ d = ring_id <$> (rings_ d !! (length (rings_ d) - 1)%nat);
  lr_size : size_ d = length xs;
  lr_max : (size_ d ≤ max_size_ d)%nat
}.

Lemma tail_ok rs r t s m n k :
  NoDup (ring_id <$> rs ++ [r]) → t = Some (ring_id r) → tail (mkLazy (rs ++ [r]) t s m n k) = Ret (length rs).
Proof.
  intros Hnd ->. unfold tail. simpl.
  assert (list_find (λ r' : Ring T, ring_id r' = ring_id r) (rs ++ [r]) = Some (length rs, r)) as ->; [|done].
  apply list_find_Some. split_and!; [by rewrite list_lookup_middle|done|].
  intros j r' Hj Hlt E. assert (j = length rs); [|lia].
  apply (NoDup_lookup _ _ _ (ring_id r) Hnd); rewrite list_lookup_fmap; [by rewrite Hj, <-E|by rewrite list_lookup_middle].
Qed.

Lemma tail_ring_ok rs r t s m n k :
  NoDup (ring_id <$> rs ++ [r]) → t = Some (ring_id r) → tail_ring (mkLazy (rs ++ [r]) t s m n k) = Ret r.
Proof.
  intros Hnd Ht. unfold tail_ring. rewrite (tail_ok rs r) by done. rewrite bind_ret. simpl. by rewrite list_lookup_middle.
Qed.

Lemma lazy_rep_init : lazy_rep (LazyDeque_init (T := T)) [].
Proof. split; simpl; try done. - exists []. split_and!; [constructor|done|right; constructor]. - split; constructor. Qed.

(** A deque with at least one ring. *)
Lemma ensure_head_ok d xs :
  lazy_rep d xs → ∃ d', ensure_head d = Ret d' ∧ lazy_rep d' xs ∧ rings_ d' ≠ [].
Proof.
  intros Hd. unfold ensure_head. destruct (rings_ d) as [|r rs] eqn:E.
  - destruct Hd as [(xss & Hf & Hc & _) _ Ht Hs Hm]. rewrite E in *. simpl in Ht. rewrite Ht. simpl. pass.
    destruct (Ring_init_ok (T := T) (next_ring_ d) kMinimumRingSize (le_n _)) as (r & -> & Hr & Hid & _).
    rewrite bind_ret. eexists. split; [done|]. split; [|done]. inversion Hf; subst. simpl in Hs.
    split; simpl; try done; [| |by rewrite Hid].
    + exists [[]]. split_and!; [by constructor|done|by left].
    + split; [apply NoDup_singleton|]. constructor; [lia|constructor].
  - exists d. split_and!; [done|done|]. by rewrite E.
Qed.

(** The last ring, and what holds around it. *)
Lemma lazy_rep_last d xs :
  lazy_rep d xs → rings_ d ≠ [] →
  ∃ rs r xss ys, rings_ d = rs ++ [r] ∧ Forall2 ring_ok rs xss ∧ ring_ok r ys ∧ xs = concat xss ++ ys ∧
    tail_ d = Some (ring_id r) ∧ (rs = [] ∨ (Forall (λ ys, ys ≠ []) xss ∧ ys ≠ [])).
Proof.
  intros [(xss & Hf & Hc & Hne) _ Ht _ _] Hnn. destruct (exists_last Hnn) as (rs & r & E). rewrite E in *.
  apply Forall2_app_inv_l in Hf as (xss1 & xss2 & Hf1 & Hf2 & ->). inversion Hf2 as [|? ys ? ? Hr Hn]; subst.
  inversion Hn; subst. exists rs, r, xss1, ys. split_and!; try done.
  - rewrite concat_app. simpl. by rewrite app_nil_r.
  - rewrite Ht, length_app. simpl. replace (length rs + 1 - 1)%nat with (length rs) by lia. by rewrite list_lookup_middle.
  - destruct Hne as [Hl|Hne].
    + left. rewrite length_app in Hl. simpl in Hl. apply Forall2_length in Hf1. apply nil_length_inv. lia.
    + right. apply Forall_app in Hne as [? Hy]. split; [done|]. by apply list.Forall_cons in Hy as [? _].
Qed.

(** Putting rings and contents back together. *)
Lemma lazy_rep_make rs r xss ys s m n k :
  Forall2 ring_ok rs xss → ring_ok r ys → NoDup (ring_id <$> rs ++ [r]) → Forall (λ r, ring_id r < k)%nat (rs ++ [r]) →
  s = length (concat xss ++ ys) → (s ≤ m)%nat → (rs = [] ∨ (Forall (λ ys, ys ≠ []) xss ∧ ys ≠ [])) →
  lazy_rep (mkLazy (rs ++ [r]) (Some (ring_id r)) s m n k) (concat xss ++ ys).
Proof.
  intros Hf Hr Hnd Hk Hs Hm Hne. split; simpl; try done.
  - exists (xss ++ [ys]). split_and!; [by apply Forall2_app; [|constructor]|rewrite concat_app; simpl; by rewrite app_nil_r|].
    destruct Hne as [->|[H1 H2]]; [left; by inversion Hf|right]. apply Forall_app. split; [done|]. by constructor.
  - rewrite length_app. simpl. replace (length rs + 1 - 1)%nat with (length rs) by lia. by rewrite list_lookup_middle.
Qed.

Lemma lazy_push_back_ok d xs t : lazy_rep d xs → ∃ d', lazy_push_back d t = Ret d' ∧ lazy_rep d' (xs ++ [t]).
Proof.
  intros Hd0. unfold lazy_push_back. destruct (ensure_head_ok d xs Hd0) as (d1 & -> & Hd & Hnn). rewrite bind_ret.
  destruct (lazy_rep_last d1 xs Hd Hnn) as (rs & r & xss & ys & E & Hf & Hr & -> & Ht & Hne).
  destruct Hd as [_ [Hnd Hlt] _ Hs Hm]. destruct d1 as [rings tl sz mx nt nr].
  cbn [rings_ tail_ size_ max_size_ next_resize_time_ next_ring_] in *. subst rings tl.
  rewrite (tail_ring_ok rs r), bind_ret by done. rewrite (CanPush_ok r ys Hr), bind_ret.
  destruct (Nat.ltb_spec (S (length ys)) (ring_capacity_ r)) as [Hcan|Hcan].
  - rewrite bind_ret, (tail_ring_ok rs r), bind_ret by done.
    destruct (ring_push_back_ok r ys t Hr Hcan) as (r' & -> & Hr' & Hid & _). rewrite bind_ret, (tail_ok rs r), bind_ret by done.
    eexists. split; [done|]. unfold count_push. simpl. rewrite insert_app_r_alt, Nat.sub_diag by lia. simpl.
    rewrite <-app_assoc, <-Hid. apply lazy_rep_make; try done.
    + rewrite fmap_app in *. simpl in *. by rewrite Hid.
    + apply Forall_app in Hlt as [? [? _]%list.Forall_cons]. apply Forall_app. split; [done|]. constructor; [lia|constructor].
    + rewrite !length_app in *. simpl. lia.
    + lia.
    + destruct Hne as [->|[? ?]]; [by left|right]. split; [done|]. by destruct ys.
  - assert (ys ≠ []) as Hys.
    { pose proof (ro_min _ _ Hr). unfold kMinimumRingSize in *. intros ->. simpl in Hcan. lia. }
    destruct (Ring_init_ok (T := T) nr (2 + ring_capacity_ r + ring_capacity_ r / 2)) as (new & -> & Hnew & Hidn & Hcn).
    { pose proof (ro_min _ _ Hr). unfold kMinimumRingSize in *. lia. }
    rewrite bind_ret, (tail_ok rs r), bind_ret by done. simpl rings_.
    rewrite take_ge by (rewrite length_app; simpl; lia). rewrite bind_ret.
    assert (NoDup (ring_id <$> (rs ++ [r]) ++ [new])) as Hnd'.
    { rewrite fmap_app. apply list.NoDup_app. split_and!; [done| |apply NoDup_singleton].
      intros i (r' & -> & Hi)%list_elem_of_fmap Hn. rewrite list.Forall_forall in Hlt. apply Hlt in Hi.
      apply list_elem_of_singleton in Hn. lia. }
    rewrite (tail_ring_ok (rs ++ [r]) new), bind_ret by (try done; by rewrite Hidn).
    destruct (ring_push_back_ok new [] t Hnew) as (new' & -> & Hnew' & Hid' & _).
    { pose proof (ro_min _ _ Hnew). unfold kMinimumRingSize in *. simpl. lia. }
    rewrite bind_ret, (tail_ok (rs ++ [r]) new), bind_ret by (try done; by rewrite Hidn).
    eexists. split; [done|]. unfold count_push. simpl. rewrite insert_app_r_alt, Nat.sub_diag by lia. simpl.
    assert (concat xss ++ ys = concat (xss ++ [ys])) as Ecat by (rewrite concat_app; simpl; by rewrite app_nil_r).
    rewrite Ecat in *. rewrite <-Hidn, <-Hid'. apply lazy_rep_make; try done.
    + by apply Forall2_app; [|constructor].
    + rewrite fmap_app in *. simpl in *. by rewrite Hid'.
    + apply Forall_app. split; [eapply list.Forall_impl; [done|]; simpl; intros; lia|]. constructor; [lia|constructor].
    + rewrite length_app. simpl. lia.
    + lia.
    + right. split; [|done]. apply Forall_app. split; [|by constructor].
      destruct Hne as [->|[? ?]]; [inversion Hf; constructor|done].
Qed.

(** The first ring, and what holds around it. *)
Lemma lazy_rep_first d xs :
  lazy_rep d xs → rings_ d ≠ [] →
  ∃ r rs ys xss, rings_ d = r :: rs ∧ ring_ok r ys ∧ Forall2 ring_ok rs xss ∧ xs = ys ++ concat xss ∧
    (rs = [] ∨ (ys ≠ [] ∧ Forall (λ ys, ys ≠ []) xss)).
Proof.
  intros [(xss & Hf & Hc & Hne) _ _ _ _] Hnn. destruct (rings_ d) as [|r rs] eqn:E; [done|].
  inversion Hf as [|? ys ? xss' Hr Hrs]; subst. exists r, rs, ys, xss'. split_and!; try done.
  destruct Hne as [Hl|Hne].
  - left. simpl in Hl. apply Forall2_length in Hrs. apply nil_length_inv. lia.
  - right. by apply list.Forall_cons in Hne.
Qed.

Lemma lazy_rep_make_first r rs ys xss t s m n k :
  ring_ok r ys → Forall2 ring_ok rs xss → NoDup (ring_id <$> r :: rs) → Forall (λ r, ring_id r < k)%nat (r :: rs) →
  t = ring_id <$> ((r :: rs) !! length rs) →
  s = length (ys ++ concat xss) → (s ≤ m)%nat → (rs = [] ∨ (ys ≠ [] ∧ Forall (λ ys, ys ≠ []) xss)) →
  lazy_rep (mkLazy (r :: rs) t s m n k) (ys ++ concat xss).
Proof.
  intros Hr Hf Hnd Hk Ht Hs Hm Hne. split; simpl; try done.
  - exists (ys :: xss). split_and!; [by constructor|done|].
    destruct Hne as [->|[H1 H2]]; [left; by inversion Hf|right; by constructor].
  - by rewrite Nat.sub_0_r.
Qed.

Lemma same_tail r r' rs : ring_id r' = ring_id r →
  ring_id <$> ((r' :: rs) !! length rs) = ring_id <$> ((r :: rs) !! length rs).
Proof. intros E. destruct rs; simpl; [by rewrite E|done]. Qed.

Lemma lazy_push_front_ok d xs t : lazy_rep d xs → ∃ d', lazy_push_front d t = Ret d' ∧ lazy_rep d' (t :: xs).
Proof.
  intros Hd0. unfold lazy_push_front. destruct (ensure_head_ok d xs Hd0) as (d1 & -> & Hd & Hnn). rewrite bind_ret.
  destruct (lazy_rep_first d1 xs Hd Hnn) as (r & rs & ys & xss & E & Hr & Hf & -> & Hne).
  destruct Hd as [_ [Hnd Hlt] Ht Hs Hm]. destruct d1 as [rings tl sz mx nt nr]. simpl in *. subst rings. simpl in Ht.
  rewrite Nat.sub_0_r in Ht. unfold head at 1. simpl. rewrite (CanPush_ok r ys Hr), bind_ret.
  destruct (Nat.ltb_spec (S (length ys)) (ring_capacity_ r)) as [Hcan|Hcan].
  - rewrite bind_ret. unfold head. simpl. destruct (ring_push_front_ok r ys t Hr Hcan) as (r' & -> & Hr' & Hid & _).
    rewrite bind_ret. eexists. split; [done|]. unfold count_push. simpl.
    apply (lazy_rep_make_first r' rs (t :: ys)); try done.
    + simpl. by rewrite Hid.
    + apply list.Forall_cons in Hlt as [? ?]. constructor; [lia|done].
    + by rewrite (same_tail r).
    + simpl. by rewrite Hs.
    + lia.
    + destruct Hne as [->|[? ?]]; [by left|right]. done.
  - assert (ys ≠ []) as Hys.
    { pose proof (ro_min _ _ Hr). unfold kMinimumRingSize in *. intros ->. simpl in Hcan. lia. }
    destruct (Ring_init_ok (T := T) nr kMinimumRingSize (le_n _)) as (new & -> & Hnew & Hidn & Hcn). rewrite !bind_ret.
    unfold head. simpl. destruct (ring_push_front_ok new [] t Hnew) as (new' & -> & Hnew' & Hid' & _).
    { rewrite Hcn. unfold kMinimumRingSize. simpl. lia. }
    rewrite bind_ret. eexists. split; [done|]. unfold count_push. simpl.
    apply (lazy_rep_make_first new' (r :: rs) [t] (ys :: xss)); try done.
    + by constructor.
    + simpl. apply list.NoDup_cons. split; [|done]. rewrite Hid', Hidn.
      intros Hi. apply (list_elem_of_fmap ring_id (r :: rs)) in Hi as (r2 & E2 & Hi).
      rewrite list.Forall_forall in Hlt. apply Hlt in Hi. lia.
    + constructor; [lia|]. eapply list.Forall_impl; [done|]. simpl. intros. lia.
    + simpl. by rewrite Hs.
    + lia.
    + right. split; [done|]. constructor; [done|]. destruct Hne as [->|[? ?]]; [inversion Hf; constructor|done].
Qed.

Lemma lazy_nonempty_rings d x xs : lazy_rep d (x :: xs) → rings_ d ≠ [].
Proof. intros [(xss & Hf & Hc & _) _ _ _ _] E. rewrite E in Hf. inversion Hf; subst. done. Qed.

(** The first item is in the first ring. *)
Lemma lazy_rep_head d x xs :
  lazy_rep d (x :: xs) → ∃ r rs ys xss, rings_ d = r :: rs ∧ ring_ok r (x :: ys) ∧ Forall2 ring_ok rs xss ∧
    xs = ys ++ concat xss ∧ Forall (λ ys, ys ≠ []) xss.
Proof.
  intros Hd. destruct (lazy_rep_first d _ Hd (lazy_nonempty_rings _ _ _ Hd)) as (r & rs & ys & xss & E & Hr & Hf & Hx & Hne).
  destruct ys as [|y ys].
  - destruct Hne as [->|[? _]]; [|done]. inversion Hf; subst. done.
  - injection Hx as <- ->. exists r, rs, ys, xss. split_and!; try done. destruct Hne as [->|[_ ?]]; [|done].
    inversion Hf. constructor.
Qed.

Lemma lazy_front_ok d x xs : lazy_rep d (x :: xs) → lazy_front d = Ret x.
Proof.
  intros Hd. destruct (lazy_rep_head d x xs Hd) as (r & rs & ys & xss & E & Hr & _).
  unfold lazy_front, head. rewrite E. simpl. pass. by apply ring_front_ok with ys.
Qed.

Lemma lazy_back_ok d xs x : lazy_rep d (xs ++ [x]) → lazy_back d = Ret x.
Proof.
  intros Hd. assert (rings_ d ≠ []) as Hnn.
  { destruct xs; by eapply lazy_nonempty_rings. }
  destruct (lazy_rep_last d _ Hd Hnn) as (rs & r & xss & ys & E & Hf & Hr & Hx & Ht & Hne).
  destruct Hd as [_ [Hnd _] _ _ _]. destruct d as [rings tl sz mx nt nr]. simpl in *. subst rings tl.
  unfold lazy_back. simpl. pass. rewrite (tail_ring_ok rs r), bind_ret by done.
  destruct ys as [|y ys _] using rev_ind.
  - destruct Hne as [->|[_ ?]]; [|done]. inversion Hf; subst. simpl in Hx. by destruct xs.
  - rewrite app_assoc in Hx. apply app_inj_tail in Hx as [_ <-]. by apply ring_back_ok with ys.
Qed.

Lemma lazy_pop_front_ok d x xs : lazy_rep d (x :: xs) → ∃ d', lazy_pop_front d = Ret d' ∧ lazy_rep d' xs ∧ next_ring_ d' = next_ring_ d ∧ max_size_ d' = max_size_ d ∧ rings_ d' ≠ [].
Proof.
  intros Hd. destruct (lazy_rep_head d x xs Hd) as (r & rs & ys & xss & E & Hr & Hf & -> & Hne).
  destruct Hd as [_ [Hnd Hlt] Ht Hs Hm]. destruct d as [rings tl sz mx nt nr]. simpl in *. subst rings. simpl in Ht.
  rewrite Nat.sub_0_r in Ht. unfold lazy_pop_front, head. simpl. pass. rewrite (ring_empty_ok _ _ Hr). simpl. pass.
  assert (is_null tl = false) as Htl.
  { rewrite Ht. destruct (lookup_lt_is_Some_2 (r :: rs) (length rs)) as [r' ->]; [simpl; lia|done]. }
  rewrite Htl. simpl. pass. rewrite dcheck_pass, bind_ret by (apply Nat.ltb_lt; simpl in Hs; lia).
  destruct (ring_pop_front_ok r x ys Hr) as (r' & -> & Hr' & Hid & _). rewrite bind_ret, (ring_empty_ok _ _ Hr').
  apply list.Forall_cons in Hlt as [Hlt1 Hlt2].
  destruct (match ys with [] => true | _ => false end && negb (is_null (rs !! 0%nat))) eqn:Ed.
  - apply andb_true_iff in Ed as [E1 E2]. destruct ys; [|done]. destruct rs as [|r2 rs]; [done|].
    destruct (Ring_destroy_ok r' [] Hr') as (r3 & -> & _). rewrite !bind_ret. eexists. split; [done|].
    inversion Hf as [|? ys2 ? xss2 Hr2 Hf2]; subst. simpl drop. simpl in Hnd. apply list.NoDup_cons in Hnd as [_ Hnd].
    apply list.Forall_cons in Hne as [Hy2 Hne2].
    split_and!; try done. apply (lazy_rep_make_first r2 rs ys2 xss2); try done; simpl in *; [lia|lia|]. by right.
  - rewrite bind_ret. eexists. split; [done|]. split_and!; try done. simpl.
    apply (lazy_rep_make_first r' rs ys xss); try done.
    + simpl in *. by rewrite Hid.
    + constructor; [lia|done].
    + by rewrite (same_tail r).
    + simpl in Hs. lia.
    + lia.
    + destruct rs as [|r2 rs]; [by left|right]. destruct ys; [done|]. done.
Qed.

Lemma destroy_rings_ok rs xss : Forall2 ring_ok rs xss → destroy_rings rs = Ret tt.
Proof.
  induction 1 as [|r ys rs xss Hr Hf IH]; simpl; [done|].
  destruct (Ring_destroy_ok r ys Hr) as (r' & -> & _). by rewrite bind_ret.
Qed.

Lemma lazy_clear_ok d xs : lazy_rep d xs → ∃ d', lazy_clear d = Ret d' ∧ lazy_rep d' [].
Proof.
  intros [(xss & Hf & _) _ _ _ _]. unfold lazy_clear. rewrite (destroy_rings_ok _ _ Hf), bind_ret.
  eexists. split; [done|]. split; simpl; try done; [|split; constructor|lia].
  exists []. split_and!; [constructor|done|right; constructor].
Qed.

Lemma lazy_rep_empty_tail d : lazy_rep d [] → ring_id <$> (rings_ d !! 0%nat) = tail_ d.
Proof.
  intros [(xss & Hf & Hc & Hne) _ Ht _ _]. rewrite Ht.
  assert (length (rings_ d) ≤ 1)%nat as Hl.
  { rewrite (Forall2_length Hf). destruct Hne as [->|Hne]; [done|].
    destruct xss as [|ys xss]; [simpl; lia|]. apply list.Forall_cons in Hne as [Hy _]. simpl in Hc.
    by apply app_nil in Hc as [? _]. }
  by replace (length (rings_ d) - 1)%nat with 0%nat by lia.
Qed.

Lemma move_items_ok fuel : ∀ xs d new zs,
  lazy_rep d xs → ring_ok new zs → (length zs + length xs < ring_capacity_ new)%nat → (length xs ≤ fuel)%nat →
  ∃ d' new', move_items fuel d new = Ret (d', new') ∧ lazy_rep d' [] ∧ ring_ok new' (zs ++ xs) ∧
    ring_id new' = ring_id new ∧ ring_capacity_ new' = ring_capacity_ new ∧
    next_ring_ d' = next_ring_ d ∧ max_size_ d' = max_size_ d.
Proof.
  induction fuel as [|fuel IH]; intros xs d new zs Hd Hn Hl Hf; simpl.
  { destruct xs; [|simpl in Hf; lia]. exists d, new. rewrite app_nil_r. by split_and!. }
  unfold lazy_empty. rewrite (lr_size _ _ Hd). destruct xs as [|x xs]; simpl.
  { exists d, new. rewrite app_nil_r. by split_and!. }
  simpl in Hl, Hf. rewrite (CanPush_ok new zs Hn), bind_ret.
  rewrite dcheck_pass, bind_ret by (apply Nat.ltb_lt; lia).
  destruct (lazy_rep_head d x xs Hd) as (r & rs & ys & xss & E & Hr & _). unfold head. rewrite E. simpl.
  rewrite (ring_front_ok r x ys Hr), bind_ret.
  destruct (ring_push_back_ok new zs x Hn ltac:(lia)) as (new1 & -> & Hn1 & Hid & Hcap). rewrite bind_ret.
  destruct (lazy_pop_front_ok d x xs Hd) as (d1 & -> & Hd1 & Hnr & Hmx & _). rewrite bind_ret.
  destruct (IH xs d1 new1 (zs ++ [x]) Hd1 Hn1) as (d2 & new2 & -> & Hd2 & Hn2 & Hid2 & Hcap2 & Hnr2 & Hmx2); [|lia|].
  { rewrite length_app. simpl. lia. }
  exists d2, new2. rewrite <-app_assoc in Hn2. split_and!; try done; congruence.
Qed.

Lemma SetCapacity_ok d xs c :
  lazy_rep d xs → (kMinimumRingSize ≤ c)%nat → (length xs < c)%nat →
  ∃ d', SetCapacity d c = Ret d' ∧ lazy_rep d' xs ∧ lazy_capacity d' = c ∧ length (rings_ d') = 1%nat ∧
    max_size_ d' = max_size_ d.
Proof.
  intros Hd Hc Hl. unfold SetCapacity.
  destruct (Ring_init_ok (T := T) (next_ring_ d) c Hc) as (new & -> & Hn & Hid & Hcap). rewrite bind_ret, (lr_size _ _ Hd).
  rewrite dcheck_pass, bind_ret by (apply Nat.leb_le; lia).
  destruct (move_items_ok (length xs) xs d new [] Hd Hn) as (d1 & new1 & -> & Hd1 & Hn1 & Hid1 & Hcap1 & Hnr & Hmx);
    [simpl; lia|done|]. rewrite bind_ret.
  rewrite dcheck_pass, bind_ret by (apply bool_decide_eq_true; by apply lazy_rep_empty_tail).
  pose proof Hd1 as [(xss & Hf & _) _ _ _ _]. rewrite (destroy_rings_ok _ _ Hf), bind_ret. eexists. split; [done|].
  split; [|unfold lazy_capacity; simpl; split_and!; [lia|done|done]].
  apply (lazy_rep_make [] new1 [] xs); try done; simpl.
  - apply NoDup_singleton.
  - constructor; [lia|constructor].
  - rewrite Hmx. pose proof (lr_max _ _ Hd). pose proof (lr_size _ _ Hd). lia.
  - by left.
Qed.

Lemma MaybeShrink_ok d xs now :
  lazy_rep d xs → ∃ d', MaybeShrinkQueue d now = Ret d' ∧ lazy_rep d' xs.
Proof.
  intros Hd. unfold MaybeShrinkQueue. destruct (is_null (tail_ d)); [by exists d|].
  pose proof (lr_max _ _ Hd) as Hm. rewrite dcheck_pass, bind_ret by (by apply Nat.leb_le).
  destruct (now <? next_resize_time_ d); [by exists d|].
  set (c := if (max_size_ d + 1 <? kMinimumRingSize)%nat then kMinimumRingSize else (max_size_ d + 1)%nat).
  set (d1 := mkLazy _ _ _ (size_ d) _ _).
  assert (lazy_rep d1 xs) as Hd1 by (destruct Hd; by split).
  destruct (lazy_capacity d1 <=? c + kReclaimThreshold)%nat; [by exists d1|].
  destruct (SetCapacity_ok d1 xs c Hd1) as (d2 & -> & Hd2 & _).
  - unfold c. case_match; [done|]. match goal with H : (_ <? _)%nat = false |- _ => apply Nat.ltb_ge in H end. lia.
  - pose proof (lr_size _ _ Hd). unfold c. case_match; [|lia].
    match goal with H : (_ <? _)%nat = true |- _ => apply Nat.ltb_lt in H end. lia.
  - rewrite bind_ret. eexists. split; [done|]. destruct Hd2. by split.
Qed.

(** ** Iteration *)

(** Place [i] of a ring's items. *)
Definition item_index r (i : nat) : nat := ring (ring_capacity_ r) (ring (ring_capacity_ r) (front_index_ r + 1) + i).

Lemma iterate_from d xss fuel : ∀ p r pre y post,
  Forall2 ring_ok (rings_ d) xss → Forall (λ ys, ys ≠ []) (drop 1 xss) →
  rings_ d !! p = Some r → xss !! p = Some (pre ++ y :: post) →
  (length (y :: post ++ concat (drop (S p) xss)) ≤ fuel)%nat →
  iterate fuel d (mkIterator (Some p) (item_index r (length pre))) = Ret (y :: post ++ concat (drop (S p) xss)).
Proof.
  induction fuel as [|fuel IH]; intros p r pre y post Hf Hne Hp Hx Hl; [simpl in Hl; lia|].
  pose proof (Forall2_lookup_lr _ _ _ _ _ _ Hf Hp Hx) as Hr. pose proof Hr as [H1 H2 H3 H4 H5 Hc].
  rewrite length_app in H4, H5. simpl length in *. unfold kMinimumRingSize in *.
  cbn [iterate it_ring]. unfold it_deref, it_next. cbn [it_ring it_index from_option_or]. rewrite !bind_ret, Hp.
  cbn [from_option_or]. rewrite !bind_ret.
  assert (object (data_ r) (item_index r (length pre)) = Ret y) as ->.
  { apply object_ok. rewrite <-(cells_item _ _ _ (length pre) y Hc (list_lookup_middle pre post y _ eq_refl) ltac:(lia)).
    unfold item_index. by rewrite H1. }
  rewrite bind_ret. destruct post as [|z post].
  - assert (item_index r (length pre) = back_index_ r) as ->.
    { unfold item_index. rewrite H5. simpl. ring_lia. }
    rewrite Nat.eqb_refl. destruct (rings_ d !! S p) as [r'|] eqn:Hp'.
    + destruct (Forall2_lookup_l _ _ _ _ _ Hf Hp') as (ys & Hys & Hr').
      assert (ys ≠ []) as Hyne.
      { rewrite list.Forall_forall in Hne. apply Hne. apply list_elem_of_lookup_2 with p. by rewrite lookup_drop. }
      destruct ys as [|y' post']; [done|]. rewrite increment_ok, !bind_ret by apply Hr'.
      pose proof (drop_S xss (y' :: post') (S p) Hys) as Hd.
      replace (ring (ring_capacity_ r') (front_index_ r' + 1)) with (item_index r' (length (@nil T))).
      2: { unfold item_index. simpl. pose proof (ro_front _ _ Hr'). ring_lia. }
      rewrite (IH (S p) r' [] y' post') by (try done; rewrite Hd in Hl; simpl in *; lia).
      rewrite bind_ret, Hd. done.
    + rewrite bind_ret. assert (drop (S p) xss = []) as ->.
      { apply drop_ge. apply Forall2_length in Hf. apply lookup_ge_None_1 in Hp'. lia. }
      destruct fuel; done.
  - rewrite (proj2 (Nat.eqb_neq _ _)).
    2: { unfold item_index. rewrite H5. simpl in *. intros Heq. ring_lia. }
    rewrite increment_ok, !bind_ret by (unfold item_index; apply ring_lt; ring_lia).
    replace (ring (ring_capacity_ r) (item_index r (length pre) + 1)) with (item_index r (length (pre ++ [y]))).
    2: { unfold item_index. rewrite length_app. simpl. ring_lia. }
    rewrite (IH p r (pre ++ [y]) z post) by (try done; try (by rewrite <-app_assoc); simpl in *; lia).
    by rewrite bind_ret.
Qed.

Lemma iterate_ok d xs :
  lazy_rep d xs → ∃ it, lazy_begin d = Ret it ∧ ∀ fuel, (length xs ≤ fuel)%nat → iterate fuel d it = Ret xs.
Proof.
  intros [(xss & Hf & Hc & Hne) _ _ _ _]. unfold lazy_begin.
  destruct (rings_ d) as [|r rs] eqn:E; simpl.
  { inversion Hf; subst. eexists. split; [done|]. by intros []. }
  inversion Hf as [|? ys ? xss' Hr Hrs]; subst. rewrite (ring_empty_ok _ _ Hr).
  assert (Forall (λ ys, ys ≠ []) xss') as Hne'.
  { destruct Hne as [Hl|Hne]; [|by apply list.Forall_cons in Hne as [_ ?]]. simpl in Hl. destruct xss'; [constructor|done]. }
  destruct ys as [|y ys].
  - destruct Hne as [Hl|Hne]; [|by apply list.Forall_cons in Hne as [? _]]. simpl in Hl. destruct xss'; [|done].
    eexists. split; [done|]. by intros [].
  - rewrite increment_ok, bind_ret by apply Hr. eexists. split; [done|]. intros fuel Hfuel.
    replace (ring (ring_capacity_ r) (front_index_ r + 1)) with (item_index r (length (@nil T))).
    2: { unfold item_index. simpl. pose proof (ro_front _ _ Hr). ring_lia. }
    rewrite (iterate_from d ((y :: ys) :: xss') _ 0 r [] y ys); [done|by rewrite E|done|by rewrite E|done|done].
Qed.

(** ** The contract: a first-in first-out queue with insertion at the front *)

Inductive lop := LPushBack (t : T) | LPushFront (t : T) | LPopFront | LClear | LMaybeShrink (now : Z) | LSwap.

(** Operations act on the first of two deques; [LSwap] exchanges them. *)
Definition lazy_apply (ds : LazyDeque T * LazyDeque T) (o : lop) : outcome (LazyDeque T * LazyDeque T) :=
  let '(d, other) := ds in
  match o with
  | LPushBack t => d ← lazy_push_back d t; Ret (d, other)
  | LPushFront t => d ← lazy_push_front d t; Ret (d, other)
  | LPopFront => d ← lazy_pop_front d; Ret (d, other)
  | LClear => d ← lazy_clear d; Ret (d, other)
  | LMaybeShrink now => d ← MaybeShrinkQueue d now; Ret (d, other)
  | LSwap => Ret (lazy_swap d other)
  end.

Definition lazy_spec (xss : list T * list T) (o : lop) : option (list T * list T) :=
  let '(xs, ys) := xss in
  match o with
  | LPushBack t => Some (xs ++ [t], ys)
  | LPushFront t => Some (t :: xs, ys)
  | LPopFront => match xs with [] => None | _ :: xs => Some (xs, ys) end
  | LClear => Some ([], ys)
  | LMaybeShrink _ => Some (xs, ys)
  | LSwap => Some (ys, xs)
  end.

Fixpoint lazy_run ds (ops : list lop) : outcome (LazyDeque T * LazyDeque T) :=
  match ops with [] => Ret ds | o :: ops => ds ← lazy_apply ds o; lazy_run ds ops end.

Fixpoint lazy_spec_run (xss : list T * list T) (ops : list lop) : option (list T * list T) :=
  match ops with [] => Some xss | o :: ops => xss ← lazy_spec xss o; lazy_spec_run xss ops end.

Definition pair_rep (ds : LazyDeque T * LazyDeque T) (xss : list T * list T) : Prop :=
  lazy_rep ds.1 xss.1 ∧ lazy_rep ds.2 xss.2.

Lemma lazy_apply_ok ds (xss xss' : list T * list T) o :
  pair_rep ds xss → lazy_spec xss o = Some xss' → ∃ ds', lazy_apply ds o = Ret ds' ∧ pair_rep ds' xss'.
Proof.
  destruct ds as [d e], xss as [xs ys]. intros [Hd He] E. simpl in Hd, He.
  assert (∀ f zs, (∃ d', f = Ret d' ∧ lazy_rep d' zs) →
    ∃ ds', (d ← f; Ret (d, e)) = Ret ds' ∧ pair_rep ds' (zs, ys)) as Hfst.
  { intros f zs (d' & -> & Hd'). rewrite bind_ret. by exists (d', e). }
  destruct o; simpl in *.
  - simplify_eq. apply Hfst. by apply lazy_push_back_ok.
  - simplify_eq. apply Hfst. by apply lazy_push_front_ok.
  - destruct xs as [|x xs]; [done|]. simplify_eq. apply Hfst.
    destruct (lazy_pop_front_ok d x xs Hd) as (d1 & ? & ? & _). by exists d1.
  - simplify_eq. apply Hfst. by apply lazy_clear_ok with xs.
  - simplify_eq. apply Hfst. by apply MaybeShrink_ok.
  - simplify_eq. eexists. split; [done|]. split; [destruct He|destruct Hd]; by split.
Qed.

Lemma lazy_run_ok ops : ∀ ds (xss xss' : list T * list T),
  pair_rep ds xss → lazy_spec_run xss ops = Some xss' → ∃ ds', lazy_run ds ops = Ret ds' ∧ pair_rep ds' xss'.
Proof.
  induction ops as [|o ops IH]; intros ds xss xss' Hd E; simpl in *; [simplify_eq; by exists ds|].
  apply bind_Some in E as (yss & E1 & E2).
  destruct (lazy_apply_ok ds xss yss o Hd E1) as (ds1 & -> & Hd1). rewrite bind_ret. by apply IH with yss.
Qed.

Lemma pair_rep_init : pair_rep (LazyDeque_init, LazyDeque_init) ([], []).
Proof. split; apply lazy_rep_init. Qed.

(** C33: The chained rings are a queue.  Whatever sequence of [push_back],
    [push_front], [pop_front], [clear], [MaybeShrinkQueue] (at whatever times)
    and [swap] is performed on two new deques without popping from an empty
    one, no check fails, [tail_] never dangles, no access leaves a ring and no
    cell without an object is destroyed; afterwards the size, front and back
    are those of the list, iterating from [begin()] ends after visiting exactly
    its items in order, and the final [clear] of the destructor succeeds. *)
Theorem lazy_deque_refines_list (ops : list lop) xs ys :
  lazy_spec_run ([], []) ops = Some (xs, ys) →
  ∃ d other, lazy_run (LazyDeque_init, LazyDeque_init) ops = Ret (d, other) ∧
    size_ d = length xs ∧ (size_ d ≤ max_size_ d)%nat ∧ lazy_empty d = bool_decide (xs = []) ∧
    (∀ x zs, xs = x :: zs → lazy_front d = Ret x) ∧
    (∀ x zs, xs = zs ++ [x] → lazy_back d = Ret x) ∧
    (∃ it, lazy_begin d = Ret it ∧ ∀ fuel, (length xs ≤ fuel)%nat → iterate fuel d it = Ret xs) ∧
    returns (lazy_clear d) = true.
Proof.
  intros E. destruct (lazy_run_ok ops _ _ _ pair_rep_init E) as ([d other] & Er & [Hd _]). exists d, other.
  cbn [fst snd] in Hd. split_and!; [done|apply Hd|apply Hd| | | |by apply iterate_ok|].
  - unfold lazy_empty. rewrite (lr_size _ _ Hd). by destruct xs.
  - intros x zs ->. by apply lazy_front_ok with zs.
  - intros x zs ->. by apply lazy_back_ok with zs.
  - destruct (lazy_clear_ok d xs Hd) as (d' & -> & _). done.
Qed.

(** Shrinking reclaims memory and loses nothing.  When a shrink is due
    and the capacity exceeds what the recent maximum needs by more than the
    threshold, [MaybeShrinkQueue] leaves a single ring just large enough for
    that maximum (at least the minimum ring), keeps the items, starts a new
    observation period from the current size and allows the next shrink five
    seconds later; before that time it does nothing. *)
Theorem lazy_deque_shrink d xs now :
  lazy_rep d xs → rings_ d ≠ [] →
  (now < next_resize_time_ d → MaybeShrinkQueue d now = Ret d) ∧
  (next_resize_time_ d ≤ now →
   (Nat.max kMinimumRingSize (max_size_ d + 1) + kReclaimThreshold < lazy_capacity d)%nat →
   ∃ d', MaybeShrinkQueue d now = Ret d' ∧ lazy_rep d' xs ∧ lazy_capacity d' = Nat.max kMinimumRingSize (max_size_ d + 1) ∧
     length (rings_ d') = 1%nat ∧ max_size_ d' = size_ d ∧ next_resize_time_ d' = now + 5000000).
Proof.
  intros Hd Hnn. destruct (lazy_rep_last d xs Hd Hnn) as (rs & r & xss & ys & _ & _ & _ & _ & Ht & _).
  pose proof (lr_max _ _ Hd) as Hm. pose proof (lr_size _ _ Hd) as Hs. unfold MaybeShrinkQueue. rewrite Ht. simpl is_null. cbv iota.
  rewrite dcheck_pass, bind_ret by (by apply Nat.leb_le). split; intros Hnow.
  { by rewrite (proj2 (Z.ltb_lt _ _)). }
  intros Hcap. rewrite (proj2 (Z.ltb_ge _ _)) by done.
  assert ((if (max_size_ d + 1 <? kMinimumRingSize)%nat then kMinimumRingSize else (max_size_ d + 1)%nat) =
          Nat.max kMinimumRingSize (max_size_ d + 1)) as -> by (zcase; lia).
  set (d1 := mkLazy (rings_ d) _ _ (size_ d) _ _).
  assert (lazy_rep d1 xs) as Hd1 by (destruct Hd; split; simpl; try done; congruence).
  rewrite (proj2 (Nat.leb_gt _ _)) by (unfold lazy_capacity in *; simpl; lia).
  destruct (SetCapacity_ok d1 xs (Nat.max kMinimumRingSize (max_size_ d + 1)) Hd1) as (d2 & E & Hd2 & Hc2 & H1 & Hmx); [lia..|].
  rewrite E, bind_ret. eexists. split; [done|]. split_and!; try done. destruct Hd2. by split.
Qed.

End Chain.

(** ** Witnesses *)

Definition queue_example : list lop :=
  [LPushBack 1; LPushBack 2; LPushBack 3; LPushBack 4; LPushFront 0; LPopFront; LSwap; LPushBack 9; LSwap;
   LMaybeShrink 7; LPopFront].

Lemma lazy_deque_refines_list_witness :
  ∃ d other, lazy_run (bm := debug_build) (LazyDeque_init, LazyDeque_init) queue_example = Ret (d, other) ∧
    lazy_back (bm := debug_build) d = Ret 4.
Proof.
  destruct (lazy_deque_refines_list (bm := debug_build) queue_example [2; 3; 4] [9])
    as (d & other & E & _ & _ & _ & _ & Hb & _); [by vm_compute|]. exists d, other. split; [done|]. by apply (Hb 4 [2; 3]).
Defined.

(** Twenty-four items pushed and all but two popped, with a first due call
    that starts a new observation period: the next due call shrinks. *)
Definition shrink_example : list lop :=
  repeat (LPushBack 1) 24 ++ repeat LPopFront 22 ++ [LMaybeShrink 0].

Lemma lazy_deque_shrink_witness :
  ∃ d d' other, lazy_run (bm := debug_build) (LazyDeque_init, LazyDeque_init) shrink_example = Ret (d, other) ∧
    MaybeShrinkQueue (bm := debug_build) d (-1) = Ret d ∧
    MaybeShrinkQueue (bm := debug_build) d 10 = Ret d' ∧ lazy_capacity d = 37%nat ∧ lazy_capacity d' = 4%nat.
Proof.
  destruct (lazy_run_ok (bm := debug_build) shrink_example _ ([], []) ([1; 1], []) pair_rep_init eq_refl)
    as ([d other] & E & Hd & _). exists d.
  assert (next_resize_time_ d = 0 ∧ max_size_ d = 2%nat ∧ lazy_capacity d = 37%nat) as (H1 & H2 & H3)
    by (vm_compute in E; injection E as <- _; by vm_compute).
  destruct (lazy_deque_shrink (bm := debug_build) d [1; 1] (-1) Hd (lazy_nonempty_rings _ _ _ Hd)) as [Hbefore _].
  destruct (lazy_deque_shrink (bm := debug_build) d [1; 1] 10 Hd (lazy_nonempty_rings _ _ _ Hd)) as [_ Hafter].
  destruct Hafter as (d' & E' & _ & Hc & _); [lia|rewrite H2, H3; vm_compute; lia|].
  exists d', other. rewrite H2 in Hc. split_and!; [done|apply Hbefore; lia|done|done|by vm_compute in Hc].
Defined.
