(* ===== verification/UsedIds.v ===== *)
(** * Identifier allocation

    Model of [src/include/pc/used_ids.h]: the pools from which payload types
    and RTP header extension ids of a session description are reassigned when
    they collide.  The virtual method [FindUnusedId] is the interface between
    [UsedIds::FindAndSetIdUsed] and the two ways of searching: it is an
    operation of the class [IdPool], whose laws [IdPoolLaws] say what the
    caller relies on, and both searches are instances.  The range constants of
    header extensions are those of [src/include/api/rtp_parameters.h].  The
    ids of the instances lie between 0 and 256, so [int] is [Z]. *)

From stdpp Require Import gmap.
From S2P Require Import Prelude.

#[local] Set Warnings "-clear-no-such-hyp".

Record UsedIds := mkIds {
  min_allowed_id_ : Z;
  max_allowed_id_ : Z;
  next_id_ : Z;
  id_set_ : gset Z
}.

Definition UsedIds_init (min_allowed_id max_allowed_id : Z) : UsedIds :=
  mkIds min_allowed_id max_allowed_id max_allowed_id ∅.

Definition IsIdUsed (p : UsedIds) (new_id : Z) : bool := bool_decide (new_id ∈ id_set_ p).

Definition SetIdUsed `{BuildMode} (p : UsedIds) (new_id : Z) : outcome UsedIds :=
  RTC_DCHECK (new_id >=? min_allowed_id_ p) ≫= λ _,
  RTC_DCHECK (new_id <=? max_allowed_id_ p) ≫= λ _,
  RTC_DCHECK (negb (IsIdUsed p new_id)) ≫= λ _,
  Ret (mkIds (min_allowed_id_ p) (max_allowed_id_ p) (next_id_ p) ({[new_id]} ∪ id_set_ p)).

(** ** The virtual search *)

(** A class derived from [UsedIds]: its base part and its [FindUnusedId]. *)
Class IdPool (S : Type) := {
  base : S → UsedIds;
  set_base : S → UsedIds → S;
  FindUnusedId : BuildMode → S → outcome (S * Z)
}.

(** [while (IsIdUsed(id) && id >= min) --id]; [id] gets below [min] within
    [id - min + 1] passes. *)
Fixpoint search_down (fuel : nat) (p : UsedIds) (id : Z) : Z :=
  match fuel with
  | O => id
  | S fuel => if IsIdUsed p id && (id >=? min_allowed_id_ p) then search_down fuel p (id - 1) else id
  end.

Definition search_down_from (p : UsedIds) (id : Z) : Z :=
  search_down (Z.to_nat (id - min_allowed_id_ p + 1)) p id.

Definition UsedIds_FindUnusedId (bm : BuildMode) (p : UsedIds) : outcome (UsedIds * Z) :=
  let id := search_down_from p (next_id_ p) in
  let p := mkIds (min_allowed_id_ p) (max_allowed_id_ p) id (id_set_ p) in
  RTC_DCHECK (next_id_ p >=? min_allowed_id_ p) ≫= λ _,
  Ret (p, next_id_ p).

#[global] Instance UsedIds_pool : IdPool UsedIds := {|
  base p := p; set_base _ p := p; FindUnusedId := UsedIds_FindUnusedId |}.

(** ** Assignment *)

Section Assign.
Context {bm : BuildMode} {S : Type} `{!IdPool S}.

(** The state and the id of [idstruct] afterwards. *)
Definition FindAndSetIdUsed (s : S) (original_id : Z) : outcome (S * Z) :=
  if (original_id >? max_allowed_id_ (base s)) || (original_id <? min_allowed_id_ (base s))
  then Ret (s, original_id) else
  '(s, new_id) ← (if IsIdUsed (base s) original_id then FindUnusedId bm s else Ret (s, original_id));
  p ← SetIdUsed (base s) new_id;
  Ret (set_base s p, new_id).

(** The loop of the overload for a vector.  That overload binds its items to
    [const Id&] and so cannot pass their addresses on; callers write the loop
    over [FindAndSetIdUsed] themselves. *)
Fixpoint FindAndSetIdsUsed (s : S) (ids : list Z) : outcome (S * list Z) :=
  match ids with
  | [] => Ret (s, [])
  | id :: ids =>
      '(s, id) ← FindAndSetIdUsed s id;
      '(s, ids) ← FindAndSetIdsUsed s ids;
      Ret (s, id :: ids)
  end.

End Assign.

(** ** Payload types *)

Definition kDynamicPayloadTypeMin : Z := 96.
Definition kDynamicPayloadTypeMax : Z := 127.
Definition UsedPayloadTypes_init : UsedIds := UsedIds_init kDynamicPayloadTypeMin kDynamicPayloadTypeMax.

(** ** Header extension ids *)

Definition kMinId : Z := 1.
Definition kMaxId : Z := 255.
Definition kOneByteHeaderExtensionMaxId : Z := 14.

Inductive IdDomain := kOneByteOnly | kTwoByteAllowed.
#[global] Instance IdDomain_eq_dec : EqDecision IdDomain.
Proof. solve_decision. Defined.

Record UsedRtpHeaderExtensionIds := mkExt {
  ext_ids : UsedIds;
  id_domain_ : IdDomain;
  next_extension_id_ : Z
}.

Definition UsedRtpHeaderExtensionIds_init (id_domain : IdDomain) : UsedRtpHeaderExtensionIds :=
  mkExt (UsedIds_init kMinId (if decide (id_domain = kTwoByteAllowed) then kMaxId else kOneByteHeaderExtensionMaxId))
        id_domain kOneByteHeaderExtensionMaxId.

(** [while (IsIdUsed(id) && id <= max) ++id]. *)
Fixpoint search_up (fuel : nat) (p : UsedIds) (id : Z) : Z :=
  match fuel with
  | O => id
  | S fuel => if IsIdUsed p id && (id <=? max_allowed_id_ p) then search_up fuel p (id + 1) else id
  end.

Definition search_up_from (p : UsedIds) (id : Z) : Z :=
  search_up (Z.to_nat (max_allowed_id_ p - id + 1)) p id.

(** Where the search of [next_extension_id_] ends. *)
Definition next_unused (s : UsedRtpHeaderExtensionIds) : Z :=
  let p := ext_ids s in
  let id := next_extension_id_ s in
  let id := if id <=? kOneByteHeaderExtensionMaxId then search_down_from p id else id in
  if decide (id_domain_ s = kTwoByteAllowed) then
    let id := if id <? min_allowed_id_ p then kOneByteHeaderExtensionMaxId + 1 else id in
    if id >? kOneByteHeaderExtensionMaxId then search_up_from p id else id
  else id.

Definition Ext_FindUnusedId (bm : BuildMode) (s : UsedRtpHeaderExtensionIds)
    : outcome (UsedRtpHeaderExtensionIds * Z) :=
  let p := ext_ids s in
  let id := next_unused s in
  RTC_DCHECK (id >=? min_allowed_id_ p) ≫= λ _,
  RTC_DCHECK (id <=? max_allowed_id_ p) ≫= λ _,
  Ret (mkExt p (id_domain_ s) id, id).

#[global] Instance Ext_pool : IdPool UsedRtpHeaderExtensionIds := {|
  base := ext_ids; set_base s p := mkExt p (id_domain_ s) (next_extension_id_ s); FindUnusedId := Ext_FindUnusedId |}.

(** ** What the caller relies on *)

Definition in_pool (p : UsedIds) (id : Z) : Prop := min_allowed_id_ p ≤ id ≤ max_allowed_id_ p.
Definition free (p : UsedIds) (id : Z) : Prop := in_pool p id ∧ id ∉ id_set_ p.

(** The pool after [id] has been marked as used. *)
Definition mark (p : UsedIds) (id : Z) : UsedIds :=
  mkIds (min_allowed_id_ p) (max_allowed_id_ p) (next_id_ p) ({[id]} ∪ id_set_ p).

Definition same_ids (p q : UsedIds) : Prop :=
  min_allowed_id_ p = min_allowed_id_ q ∧ max_allowed_id_ p = max_allowed_id_ q ∧ id_set_ p = id_set_ q.

Class IdPoolLaws (S : Type) `{!IdPool S} := {
  pool_inv : S → Prop;
  (* A search finds a free id if there is one. *)
  find_ok bm s : pool_inv s → (∃ id, free (base s) id) →
    ∃ s' id, FindUnusedId bm s = Ret (s', id) ∧ free (base s) id ∧ same_ids (base s') (base s) ∧ pool_inv s';
  (* Marking an id as used keeps the invariant. *)
  mark_inv s id : pool_inv s → in_pool (base s) id → pool_inv (set_base s (mark (base s) id));
  base_set s p : base (set_base s p) = p
}.

(** ** The searches *)

Lemma IsIdUsed_true p id : IsIdUsed p id = true ↔ id ∈ id_set_ p.
Proof. apply bool_decide_eq_true. Qed.
Lemma IsIdUsed_false p id : IsIdUsed p id = false ↔ id ∉ id_set_ p.
Proof. apply bool_decide_eq_false. Qed.

Lemma search_down_spec fuel : ∀ p id,
  fuel = Z.to_nat (id - min_allowed_id_ p + 1) →
  let r := search_down fuel p id in
  r ≤ id ∧ (∀ j, r < j ≤ id → j ∈ id_set_ p) ∧ (min_allowed_id_ p ≤ r → r ∉ id_set_ p) ∧
  (r < min_allowed_id_ p → r = Z.min id (min_allowed_id_ p - 1)).
Proof.
  induction fuel as [|fuel IH]; intros p id Hf; simpl.
  { split_and!; intros; lia. }
  destruct (IsIdUsed p id && (id >=? min_allowed_id_ p)) eqn:E.
  - apply andb_true_iff in E as [E1%IsIdUsed_true E2]. rewrite Z.geb_leb in E2. apply Z.leb_le in E2.
    destruct (IH p (id - 1) ltac:(lia)) as (H1 & H2 & H3 & H4). split_and!; [lia| |done|].
    + intros j Hj. destruct (decide (j = id)) as [->|]; [done|]. apply H2. lia.
    + intros Hr. specialize (H4 Hr). lia.
  - split_and!; [lia|intros; lia| |].
    + intros Hm. apply andb_false_iff in E as [E|E]; [by apply IsIdUsed_false|].
      rewrite Z.geb_leb in E. apply Z.leb_gt in E. lia.
    + intros. lia.
Qed.

Lemma search_up_spec fuel : ∀ p id,
  fuel = Z.to_nat (max_allowed_id_ p - id + 1) →
  let r := search_up fuel p id in
  id ≤ r ∧ (∀ j, id ≤ j < r → j ∈ id_set_ p) ∧ (r ≤ max_allowed_id_ p → r ∉ id_set_ p) ∧
  (max_allowed_id_ p < r → r = Z.max id (max_allowed_id_ p + 1)).
Proof.
  induction fuel as [|fuel IH]; intros p id Hf; simpl.
  { split_and!; intros; lia. }
  destruct (IsIdUsed p id && (id <=? max_allowed_id_ p)) eqn:E.
  - apply andb_true_iff in E as [E1%IsIdUsed_true E2%Z.leb_le].
    destruct (IH p (id + 1) ltac:(lia)) as (H1 & H2 & H3 & H4). split_and!; [lia| |done|].
    + intros j Hj. destruct (decide (j = id)) as [->|]; [done|]. apply H2. lia.
    + intros Hr. specialize (H4 Hr). lia.
  - split_and!; [lia|intros; lia| |].
    + intros Hm. apply andb_false_iff in E as [E|E%Z.leb_gt]; [by apply IsIdUsed_false|lia].
    + intros. lia.
Qed.

(** ** The instances *)

(** Ids above [next_id_] are in use. *)
Definition UsedIds_inv (p : UsedIds) : Prop :=
  next_id_ p ≤ max_allowed_id_ p ∧ (∀ id, next_id_ p < id ≤ max_allowed_id_ p → id ∈ id_set_ p).

(** The id a search in the base class gives: the greatest free one. *)
Lemma UsedIds_find bm p :
  UsedIds_inv p → (∃ id, free p id) →
  ∃ p' id, UsedIds_FindUnusedId bm p = Ret (p', id) ∧ free p id ∧ (∀ id', free p id' → id' ≤ id) ∧
    same_ids p' p ∧ UsedIds_inv p'.
Proof.
  intros [Hn Hu] (i & [Hi1 Hi2] & Hi). unfold UsedIds_FindUnusedId.
  destruct (search_down_spec _ p (next_id_ p) eq_refl) as (H1 & H2 & H3 & H4).
  fold (search_down_from p (next_id_ p)) in *. set (r := search_down_from p (next_id_ p)) in *.
  assert (∀ id', in_pool p id' → id' ∉ id_set_ p → id' ≤ r) as Hmax.
  { intros id' [? ?] Hf. destruct (Z.le_gt_cases id' r); [done|]. destruct Hf.
    destruct (Z.le_gt_cases id' (next_id_ p)); [apply H2; lia|apply Hu; lia]. }
  assert (i ≤ r) by (by apply Hmax). simpl. rewrite dcheck_pass, bind_ret by (rewrite Z.geb_leb; apply Z.leb_le; lia).
  do 2 eexists. split; [done|]. split_and!.
  - split; [split; lia|]. apply H3. lia.
  - intros id' [? ?]. by apply Hmax.
  - done.
  - split; simpl; [lia|]. intros id Hid. destruct (Z.le_gt_cases id (next_id_ p)); [apply H2; lia|apply Hu; lia].
Qed.

#[global, refine] Instance UsedIds_laws : IdPoolLaws UsedIds := {| pool_inv := UsedIds_inv |}.
Proof.
  - intros bm p Hp Hf. destruct (UsedIds_find bm p Hp Hf) as (p' & id & E & ? & _ & ? & ?). by exists p', id.
  - intros p id [H1 H2] Hid. split; [done|]. intros j Hj. simpl in *. apply elem_of_union. right. by apply H2.
  - done.
Defined.

(** Either the search is still among the one-byte ids, and those above
    [next_extension_id_] are in use, or it has moved on to the two-byte ids,
    and those below are. *)
Definition Ext_inv (s : UsedRtpHeaderExtensionIds) : Prop :=
  let p := ext_ids s in let n := next_extension_id_ s in
  min_allowed_id_ p = kMinId ∧
  max_allowed_id_ p = (if decide (id_domain_ s = kTwoByteAllowed) then kMaxId else kOneByteHeaderExtensionMaxId) ∧
  ((n ≤ kOneByteHeaderExtensionMaxId ∧ ∀ id, n < id ≤ kOneByteHeaderExtensionMaxId → id ∈ id_set_ p) ∨
   (id_domain_ s = kTwoByteAllowed ∧ kOneByteHeaderExtensionMaxId < n ∧ ∀ id, kMinId ≤ id < n → id ∈ id_set_ p)).

(** The id a search gives: the greatest free one-byte id, or else the least
    free two-byte id. *)
Definition ext_choice (p : UsedIds) (id : Z) : Prop :=
  free p id ∧
  ∀ id', free p id' →
    if id <=? kOneByteHeaderExtensionMaxId then id' ≤ id ∨ kOneByteHeaderExtensionMaxId < id'
    else id ≤ id'.

Lemma Ext_find bm s :
  Ext_inv s → (∃ id, free (ext_ids s) id) →
  ∃ s' id, Ext_FindUnusedId bm s = Ret (s', id) ∧ ext_choice (ext_ids s) id ∧
    same_ids (ext_ids s') (ext_ids s) ∧ Ext_inv s'.
Proof.
  intros (Hmin & Hmax & Hst) (i & [Hi1 Hi2] & Hi). unfold Ext_FindUnusedId, next_unused.
  set (p := ext_ids s) in *. set (n := next_extension_id_ s) in *. unfold kMinId, kMaxId, kOneByteHeaderExtensionMaxId in *.
  assert (∃ r, (if n <=? 14 then search_down_from p n else n) = r ∧
    ((r ≤ 14 ∧ (∀ j, r < j ≤ 14 → j ∈ id_set_ p) ∧ (1 ≤ r → r ∉ id_set_ p)) ∨
     (id_domain_ s = kTwoByteAllowed ∧ 14 < r ∧ ∀ j, 1 ≤ j < r → j ∈ id_set_ p))) as (r & -> & Hr).
  { eexists. split; [done|]. destruct Hst as [[Hn Hu]|(Hd & Hn & Hu)].
    - rewrite (proj2 (Z.leb_le n 14)) by done. left. destruct (search_down_spec _ p n eq_refl) as (H1 & H2 & H3 & _).
      fold (search_down_from p n) in *. split_and!; [lia| |intros; apply H3; lia].
      intros j Hj. destruct (Z.le_gt_cases j n); [apply H2; lia|apply Hu; lia].
    - rewrite (proj2 (Z.leb_gt n 14)) by done. by right. }
  assert (∀ id, 1 ≤ id → id ≤ max_allowed_id_ p → id ∉ id_set_ p →
    (if id <=? 14 then ∀ j, id < j ≤ 14 → j ∈ id_set_ p else ∀ j, 1 ≤ j < id → j ∈ id_set_ p) →
    (if id <=? 14 then True else id_domain_ s = kTwoByteAllowed) →
    ∃ s' id', (RTC_DCHECK (id >=? min_allowed_id_ p) ≫= λ _, RTC_DCHECK (id <=? max_allowed_id_ p) ≫= λ _,
         Ret (mkExt p (id_domain_ s) id, id)) = Ret (s', id') ∧
      ext_choice p id' ∧ same_ids (ext_ids s') p ∧ Ext_inv s') as Hfin.
  { intros id H1 H2 H3 Hu Hd. rewrite (dcheck_pass (id >=? _)), bind_ret by (rewrite Z.geb_leb; apply Z.leb_le; lia).
    rewrite dcheck_pass, bind_ret by (by apply Z.leb_le). do 2 eexists. split; [done|]. split_and!; try done.
    - split; [split; [split; lia|done]|]. intros id' [[? ?] Hf]. unfold kOneByteHeaderExtensionMaxId.
      destruct (Z.leb_spec id 14).
      + destruct (Z.le_gt_cases id' id); [by left|]. destruct (Z.le_gt_cases id' 14); [|by right]. destruct Hf. apply Hu. lia.
      + destruct (Z.le_gt_cases id id'); [done|]. destruct Hf. apply Hu. lia.
    - unfold Ext_inv, kMinId, kMaxId, kOneByteHeaderExtensionMaxId. simpl. split_and!; [done|done|].
      destruct (Z.leb_spec id 14); [left; split; [lia|done]|right; split_and!; [done|lia|done]]. }
  destruct (decide (id_domain_ s = kTwoByteAllowed)) as [Hd|Hd].
  - rewrite Hmin. set (r' := if r <? 1 then 14 + 1 else r).
    assert ((r' ≤ 14 ∧ 1 ≤ r' ∧ (∀ j, r' < j ≤ 14 → j ∈ id_set_ p) ∧ r' ∉ id_set_ p) ∨
            (14 < r' ∧ ∀ j, 1 ≤ j < r' → j ∈ id_set_ p)) as Hr'.
    { unfold r'. destruct Hr as [(H1 & H2 & H3)|(_ & H1 & H2)].
      - destruct (Z.ltb_spec r 1); [right; split; [lia|]; intros; apply H2; lia|left; split_and!; [lia..|done|apply H3; lia]].
      - destruct (Z.ltb_spec r 1); [lia|]. by right. }
    rewrite <-Hmin. destruct Hr' as [(H1 & H0 & H2 & H3)|[H1 H2]].
    + rewrite Z.gtb_ltb, (proj2 (Z.ltb_ge 14 r')) by lia. apply Hfin; [lia|lia|done| |]; by rewrite (proj2 (Z.leb_le r' 14)) by lia.
    + rewrite Z.gtb_ltb, (proj2 (Z.ltb_lt 14 r')) by lia.
      destruct (search_up_spec _ p r' eq_refl) as (U1 & U2 & U3 & U4). fold (search_up_from p r') in *.
      assert (search_up_from p r' ≤ i) as Hri.
      { destruct (Z.le_gt_cases (search_up_from p r') i); [done|]. destruct Hi.
        destruct (Z.le_gt_cases r' i); [apply U2; lia|apply H2; lia]. }
      apply Hfin; [lia|lia|apply U3; lia| |]; rewrite (proj2 (Z.leb_gt _ 14)) by lia; [|done].
      intros j Hj. destruct (Z.le_gt_cases r' j); [apply U2; lia|apply H2; lia].
  - destruct Hr as [(H1 & H2 & H3)|(? & _)]; [|done].
    assert (1 ≤ r) as Hr1.
    { destruct (Z.le_gt_cases 1 r); [done|]. destruct Hi. apply H2. lia. }
    apply Hfin; [lia|lia|by apply H3| |]; by rewrite (proj2 (Z.leb_le r 14)) by lia.
Qed.

(** A search that ends in the range ends at an unused id. *)
Lemma next_unused_free s : Ext_inv s → in_pool (ext_ids s) (next_unused s) → next_unused s ∉ id_set_ (ext_ids s).
Proof.
  intros (Hmin & _ & Hst) Hid. unfold next_unused in *. unfold in_pool, kMinId, kOneByteHeaderExtensionMaxId in *.
  set (p := ext_ids s) in *. set (n := next_extension_id_ s) in *.
  assert (∀ i, search_up_from p i ≤ max_allowed_id_ p → search_up_from p i ∉ id_set_ p) as Hup.
  { intros i Hi. by apply (search_up_spec _ p i eq_refl). }
  destruct (Z.leb_spec n 14) as [Hn|Hn].
  - destruct (search_down_spec _ p n eq_refl) as (H1 & _ & H3 & _). fold (search_down_from p n) in *.
    destruct (decide _); [|apply H3; lia]. rewrite Z.gtb_ltb in *.
    destruct (Z.ltb_spec (search_down_from p n) (min_allowed_id_ p)).
    + simpl in *. apply Hup. lia.
    + rewrite (proj2 (Z.ltb_ge 14 _)) in * by lia. apply H3. lia.
  - destruct Hst as [[? _]|(Hd & _)]; [lia|]. rewrite decide_True in * by done. rewrite Z.gtb_ltb in *.
    rewrite (proj2 (Z.ltb_ge n _)), (proj2 (Z.ltb_lt 14 n)) in * by lia. apply Hup. lia.
Qed.

#[global, refine] Instance Ext_laws : IdPoolLaws UsedRtpHeaderExtensionIds := {| pool_inv := Ext_inv |}.
Proof.
  - intros bm s Hs Hf. destruct (Ext_find bm s Hs Hf) as (s' & id & E & [? _] & ? & ?). by exists s', id.
  - intros s id (H1 & H2 & H3) Hid. unfold Ext_inv. simpl in *. split_and!; [done|done|].
    destruct H3 as [[H3 H4]|(H3 & H4 & H5)]; [left|right]; split_and!; try done;
      intros j Hj; apply elem_of_union; right; auto.
  - done.
Defined.

(** ** The caller *)

(** A pool with fewer ids in use than there are has a free one. *)
Lemma free_exists p :
  Z.of_nat (size (id_set_ p)) < max_allowed_id_ p - min_allowed_id_ p + 1 → ∃ id, free p id.
Proof.
  intros Hlt. set (l := seqZ (min_allowed_id_ p) (max_allowed_id_ p - min_allowed_id_ p + 1)).
  destruct (filter (λ id, id ∉ id_set_ p) l) as [|id l'] eqn:E.
  - assert (size (list_to_set (C := gset Z) l) ≤ size (id_set_ p))%nat as Hle.
    { apply subseteq_size. intros id Hid%elem_of_list_to_set. destruct (decide (id ∈ id_set_ p)) as [|Hn]; [done|].
      assert (id ∈ filter (λ id, id ∉ id_set_ p) l) as Hf by (by apply list_elem_of_filter).
      rewrite E in Hf. by apply elem_of_nil in Hf. }
    rewrite size_list_to_set in Hle by apply NoDup_seqZ. unfold l in Hle. rewrite length_seqZ in Hle. lia.
  - exists id. assert (id ∈ filter (λ id, id ∉ id_set_ p) l) as [Hn Hl]%list_elem_of_filter by (rewrite E; left).
    apply elem_of_seqZ in Hl. split; [split; lia|done].
Qed.

Lemma SetIdUsed_ok {bm : BuildMode} p id : free p id → SetIdUsed p id = Ret (mark p id).
Proof.
  intros [[H1 H2] H3]. unfold SetIdUsed. rewrite (dcheck_pass (id >=? _)), bind_ret by (rewrite Z.geb_leb; by apply Z.leb_le).
  rewrite (dcheck_pass (id <=? _)), bind_ret by (by apply Z.leb_le).
  rewrite dcheck_pass, bind_ret by (apply negb_true_iff; by apply IsIdUsed_false). done.
Qed.

Definition in_pool_b (p : UsedIds) (id : Z) : bool := (min_allowed_id_ p <=? id) && (id <=? max_allowed_id_ p).

Lemma in_pool_b_spec p id : in_pool_b p id = true ↔ in_pool p id.
Proof. unfold in_pool_b, in_pool. lia. Qed.

(** The number of ids of the list that belong to the pool. *)
Definition wanted (p : UsedIds) (ids : list Z) : nat := length (filter (λ id, in_pool_b p id = true) ids).

Section Client.
Context {bm : BuildMode} {P : Type} `{!IdPool P} `{!IdPoolLaws P}.
Implicit Types s : P.

Lemma FindAndSet_outside s id : ¬ in_pool (base s) id → FindAndSetIdUsed s id = Ret (s, id).
Proof.
  intros Hn. unfold FindAndSetIdUsed. rewrite Z.gtb_ltb.
  assert ((max_allowed_id_ (base s) <? id) || (id <? min_allowed_id_ (base s)) = true) as ->; [|done].
  apply orb_true_iff. unfold in_pool in Hn. lia.
Qed.

Lemma FindAndSet_inside s id :
  pool_inv s → in_pool (base s) id → (∃ f, free (base s) f) →
  ∃ s' id', FindAndSetIdUsed s id = Ret (s', id') ∧ free (base s) id' ∧ (id ∉ id_set_ (base s) → id' = id) ∧
    min_allowed_id_ (base s') = min_allowed_id_ (base s) ∧ max_allowed_id_ (base s') = max_allowed_id_ (base s) ∧
    id_set_ (base s') = {[id']} ∪ id_set_ (base s) ∧ pool_inv s'.
Proof.
  intros Hs Hid Hf. unfold FindAndSetIdUsed. rewrite Z.gtb_ltb.
  assert ((max_allowed_id_ (base s) <? id) || (id <? min_allowed_id_ (base s)) = false) as ->.
  { apply orb_false_iff. unfold in_pool in Hid. lia. }
  assert (∃ s1 id', (if IsIdUsed (base s) id then FindUnusedId bm s else Ret (s, id)) = Ret (s1, id') ∧
    free (base s) id' ∧ (id ∉ id_set_ (base s) → id' = id) ∧ same_ids (base s1) (base s) ∧ pool_inv s1)
    as (s1 & id' & -> & Hfree & Hkeep & (E1 & E2 & E3) & Hs1).
  { destruct (IsIdUsed (base s) id) eqn:E.
    - apply IsIdUsed_true in E. destruct (find_ok bm s Hs Hf) as (s1 & id' & -> & ? & ? & ?). by exists s1, id'.
    - apply IsIdUsed_false in E. exists s, id. split_and!; try done. }
  rewrite bind_ret, SetIdUsed_ok by (unfold free, in_pool in *; rewrite E1, E2, E3; done).
  rewrite bind_ret. do 2 eexists. split; [done|]. rewrite base_set. simpl. rewrite E1, E2, E3. split_and!; try done.
  apply mark_inv; [done|]. unfold in_pool. rewrite E1, E2. apply Hfree.
Qed.

(** Ids never collide.  When a pool has room for all ids of a list that
    belong to its range, assigning them with [FindAndSetIdUsed] fails no
    check; ids outside the range are left alone; an id in the range stays as
    it is unless it was in use before or has been given out earlier in the
    list; and afterwards no two ids of the list in the range are equal and
    none was in use before.  This holds for every class derived from [UsedIds]
    whose search keeps its promise, payload types and header extension ids
    among them. *)
Theorem used_ids_no_collision ids : ∀ s,
  pool_inv s →
  Z.of_nat (size (id_set_ (base s)) + wanted (base s) ids) ≤ max_allowed_id_ (base s) - min_allowed_id_ (base s) + 1 →
  ∃ s' ids', FindAndSetIdsUsed s ids = Ret (s', ids') ∧ pool_inv s' ∧ length ids' = length ids ∧
    (∀ i id, ids !! i = Some id → ¬ in_pool (base s) id → ids' !! i = Some id) ∧
    (∀ i id, ids !! i = Some id → in_pool (base s) id → ∃ id', ids' !! i = Some id' ∧ free (base s) id') ∧
    (∀ i id, ids !! i = Some id → id ∉ id_set_ (base s) → (∀ j, (j < i)%nat → ids' !! j ≠ Some id) → ids' !! i = Some id) ∧
    (∀ i j id, ids' !! i = Some id → ids' !! j = Some id → in_pool (base s) id → i = j).
Proof.
  induction ids as [|id ids IH]; intros s Hs Hroom; simpl.
  { exists s, []. split_and!; try done. }
  destruct (decide (in_pool_b (base s) id = true)) as [Hin|Hout].
  - unfold wanted in *. rewrite filter_cons_True in Hroom by done. simpl in Hroom. apply in_pool_b_spec in Hin.
    destruct (FindAndSet_inside s id Hs Hin) as (s1 & id' & -> & Hfree & Hkeep & E1 & E2 & E3 & Hs1).
    { apply free_exists. lia. }
    rewrite bind_ret. destruct (IH s1 Hs1) as (s2 & ids' & -> & Hs2 & Hl & H1 & H2 & H3 & H4).
    { rewrite E3, size_union, size_singleton by (destruct Hfree; set_solver).
      assert (filter (λ id0, in_pool_b (base s1) id0 = true) ids = filter (λ id0, in_pool_b (base s) id0 = true) ids) as ->.
      { unfold in_pool_b. by rewrite E1, E2. }
      rewrite E1, E2. lia. }
    assert (∀ x, in_pool (base s1) x ↔ in_pool (base s) x) as Hpool by (intros x; unfold in_pool; by rewrite E1, E2).
    assert (∀ x, free (base s1) x → free (base s) x ∧ x ≠ id') as Hfr.
    { intros x [Hx1%Hpool Hx2]. rewrite E3 in Hx2. split; [split; [done|set_solver]|set_solver]. }
    assert (∀ j x, ids' !! j = Some x → in_pool (base s) x → x ≠ id') as Hnew.
    { intros j x Hj Hx. destruct (lookup_lt_is_Some_2 ids j) as [y Hy]; [apply lookup_lt_Some in Hj; lia|].
      destruct (decide (in_pool_b (base s) y = true)) as [Hy1%in_pool_b_spec|Hy1].
      - destruct (H2 j y Hy) as (x' & Hx' & Hf'); [by apply Hpool|]. simplify_eq. by apply Hfr.
      - rewrite (H1 j y Hy) in Hj; [|by rewrite Hpool, <-in_pool_b_spec]. simplify_eq.
        by rewrite <-in_pool_b_spec in Hx. }
    rewrite bind_ret. exists s2, (id' :: ids'). split_and!; try done; simpl; [by rewrite Hl|..].
    + intros [|i] x Hx Hn; simplify_eq/=; [done|]. apply H1; [done|]. by rewrite Hpool.
    + intros [|i] x Hx Hp; simplify_eq/=; [by exists id'|]. destruct (H2 i x Hx) as (x' & ? & ?); [by apply Hpool|].
      exists x'. split; [done|]. by apply Hfr.
    + intros [|i] x Hx Hn Hfirst; simplify_eq/=; [by rewrite Hkeep|]. apply H3; [done| |].
      * rewrite E3. apply not_elem_of_union. split; [|done]. rewrite elem_of_singleton. intros ->.
        by apply (Hfirst 0%nat); [lia|].
      * intros j Hj. apply (Hfirst (S j)). lia.
    + intros [|i] [|j] x Hi Hj Hp; simplify_eq/=; try done.
      * by destruct (Hnew j x Hj Hp).
      * by destruct (Hnew i x Hi Hp).
      * f_equal. apply (H4 i j x); [done..|]. by apply Hpool.
  - unfold wanted in *. rewrite filter_cons_False in Hroom by done. rewrite in_pool_b_spec in Hout.
    rewrite FindAndSet_outside, bind_ret by done. destruct (IH s Hs Hroom) as (s2 & ids' & -> & Hs2 & Hl & H1 & H2 & H3 & H4).
    rewrite bind_ret. exists s2, (id :: ids'). split_and!; try done; simpl; [by rewrite Hl|..].
    + intros [|i] x Hx Hn; simplify_eq/=; [done|]. by apply H1.
    + intros [|i] x Hx Hp; simplify_eq/=; [done|]. by apply (H2 i x).
    + intros [|i] x Hx Hn Hfirst; simplify_eq/=; [done|]. apply H3; [done..|]. intros j Hj. apply (Hfirst (S j)). lia.
    + intros [|i] [|j] x Hi Hj Hp; simplify_eq/=; try done. f_equal. by apply (H4 i j x).
Qed.

End Client.

(** Which id is given out.  The payload type search gives the greatest
    free id of its range; the header extension search gives the greatest free
    one-byte id, and only when there is none, and two-byte ids are allowed,
    the least free two-byte id.  When no id is free, a debug build stops in
    either search, and in a release build the payload type search gives an id
    below the range. *)
Theorem used_ids_choice (p : UsedIds) (s : UsedRtpHeaderExtensionIds) :
  pool_inv p → pool_inv s →
  ((∃ id, free p id) → ∀ bm, ∃ p' id, FindUnusedId bm p = Ret (p', id) ∧ free p id ∧ ∀ id', free p id' → id' ≤ id) ∧
  ((∃ id, free (ext_ids s) id) → ∀ bm, ∃ s' id, FindUnusedId bm s = Ret (s', id) ∧ ext_choice (ext_ids s) id) ∧
  (min_allowed_id_ p - 1 ≤ next_id_ p → (∀ id, ¬ free p id) →
   FindUnusedId debug_build p = Crash DCheckFailed ∧
   ∃ p', FindUnusedId release_build p = Ret (p', min_allowed_id_ p - 1)) ∧
  ((∀ id, ¬ free (ext_ids s) id) → FindUnusedId debug_build s = Crash DCheckFailed).
Proof.
  intros Hp Hs. split_and!.
  - intros Hf bm. destruct (UsedIds_find bm p Hp Hf) as (p' & id & E & H1 & H2 & _). by exists p', id.
  - intros Hf bm. destruct (Ext_find bm s Hs Hf) as (s' & id & E & H1 & _). by exists s', id.
  - intros Hn Hno. destruct Hp as [Hp _]. simpl. unfold UsedIds_FindUnusedId.
    destruct (search_down_spec _ p (next_id_ p) eq_refl) as (H1 & _ & H3 & H4).
    fold (search_down_from p (next_id_ p)) in *. set (r := search_down_from p (next_id_ p)) in *.
    assert (r < min_allowed_id_ p) as Hr.
    { destruct (Z.lt_ge_cases r (min_allowed_id_ p)); [done|]. destruct (Hno r). split; [split; lia|]. by apply H3. }
    specialize (H4 Hr). simpl. rewrite Z.geb_leb, (proj2 (Z.leb_gt _ _)) by lia. split; [done|].
    eexists. simpl. do 2 f_equal. lia.
  - intros Hno. simpl. unfold Ext_FindUnusedId. rewrite !dcheck_debug, Z.geb_leb.
    destruct (Z.leb_spec (min_allowed_id_ (ext_ids s)) (next_unused s)) as [H1|]; [|done].
    destruct (Z.leb_spec (next_unused s) (max_allowed_id_ (ext_ids s))) as [H2|]; [|done].
    exfalso. apply (Hno (next_unused s)). split; [done|]. by apply next_unused_free.
Qed.

(** ** Witnesses *)

Lemma UsedPayloadTypes_inv : pool_inv UsedPayloadTypes_init.
Proof. split; simpl; [done|]. unfold kDynamicPayloadTypeMax. intros. lia. Qed.

Lemma UsedRtpHeaderExtensionIds_inv (d : IdDomain) : pool_inv (UsedRtpHeaderExtensionIds_init d).
Proof.
  split_and!; [done|done|]. left. simpl. split; [done|]. intros. lia.
Qed.

Lemma used_ids_no_collision_witness :
  ∃ s' ids', FindAndSetIdsUsed (bm := debug_build) (UsedRtpHeaderExtensionIds_init kTwoByteAllowed) [1; 5; 1; 300; 5] = Ret (s', ids') ∧
    (∀ i j id, ids' !! i = Some id → ids' !! j = Some id → in_pool (ext_ids (UsedRtpHeaderExtensionIds_init kTwoByteAllowed)) id → i = j).
Proof.
  destruct (used_ids_no_collision (bm := debug_build) [1; 5; 1; 300; 5] (UsedRtpHeaderExtensionIds_init kTwoByteAllowed))
    as (s' & ids' & E & _ & _ & _ & _ & _ & H); [apply UsedRtpHeaderExtensionIds_inv|by vm_compute|by exists s', ids'].
Defined.

Lemma used_ids_choice_witness :
  ∃ p' id, FindUnusedId release_build UsedPayloadTypes_init = Ret (p', id) ∧
    ∀ id', free UsedPayloadTypes_init id' → id' ≤ id.
Proof.
  destruct (used_ids_choice UsedPayloadTypes_init (UsedRtpHeaderExtensionIds_init kOneByteOnly)) as (H & _);
    [apply UsedPayloadTypes_inv|apply UsedRtpHeaderExtensionIds_inv|].
  assert (∃ id, free UsedPayloadTypes_init id) as Hf.
  { exists 100. split; [by vm_compute|]. by apply not_elem_of_empty. }
  destruct (H Hf release_build) as (p' & id & E & _ & Hm).
  by exists p', id.
Defined.
