(* ===== verification/Float32.v ===== *)
(** * Single precision arithmetic

    What the percentile filter uses of [float]: the conversion of a size, a
    product, comparisons and the conversion to [int64_t], as IEEE 754 binary32
    with rounding to nearest even (the specification of the standard library
    at 24 bits of precision).  The lemmas bound the index that the filter
    computes. *)

From Stdlib Require Import SpecFloat.
From S2P Require Import Prelude.

Abbreviation float := spec_float.

Definition float_valid (x : float) : bool := valid_binary 24 128 x.
Definition float_leb (x y : float) : bool := SFleb x y.
Definition float_mul (x y : float) : float := SFmul 24 128 x y.
Definition float_of_Z (n : Z) : float := binary_normalize 24 128 n 0 false.

Definition float_zero : float := S754_zero false.
Definition float_one : float := float_of_Z 1.
Definition float_half : float := S754_finite false 8388608 (-24).

(** [static_cast<int64_t>], which drops the fraction; a value out of range is
    undefined behaviour. *)
Definition int64_of_float (x : float) : outcome Z :=
  match x with
  | S754_zero _ => Ret 0
  | S754_finite s m e =>
      let a := if 0 <=? e then Zpos m * 2 ^ e else Zpos m / 2 ^ (- e) in
      let z := if s : bool then - a else a in
      if (- 2 ^ 63 <=? z) && (z <? 2 ^ 63) then Ret z else Crash FloatRange
  | _ => Crash FloatRange
  end.

(** ** Digits and shifts *)

Lemma digits_bounds m : 2 ^ (Zpos (digits2_pos m) - 1) ≤ Zpos m < 2 ^ Zpos (digits2_pos m).
Proof.
  induction m as [m IH|m IH|]; [| |simpl; lia].
  all: cbn [digits2_pos]; rewrite Pos2Z.inj_succ; replace (Z.succ (Zpos (digits2_pos m)) - 1) with (Z.succ (Zpos (digits2_pos m) - 1)) by lia;
    rewrite !Z.pow_succ_r by lia; lia.
Qed.

Lemma digits_unique m d : 0 < d → 2 ^ (d - 1) ≤ Zpos m < 2 ^ d → Zpos (digits2_pos m) = d.
Proof.
  intros Hd Hm. pose proof (digits_bounds m) as Hb. set (k := Zpos (digits2_pos m)) in *. assert (0 < k) by (unfold k; lia).
  destruct (Z.lt_total k d) as [Hlt|[?|Hlt]]; [exfalso| done |exfalso].
  - assert (2 ^ k ≤ 2 ^ (d - 1)) by (apply Z.pow_le_mono_r; lia). lia.
  - assert (2 ^ d ≤ 2 ^ (k - 1)) by (apply Z.pow_le_mono_r; lia). lia.
Qed.

Lemma digits_le m d : 0 ≤ d → Zpos m < 2 ^ d → Zpos (digits2_pos m) ≤ d.
Proof.
  intros Hd Hm. pose proof (digits_bounds m) as Hb. set (k := Zpos (digits2_pos m)) in *.
  destruct (Z.le_gt_cases k d); [done|]. assert (2 ^ d ≤ 2 ^ (k - 1)) by (apply Z.pow_le_mono_r; lia). lia.
Qed.

Lemma iter_pos_nat {A} (f : A → A) p : ∀ x, SpecFloat.iter_pos f p x = Nat.iter (Pos.to_nat p) f x.
Proof.
  induction p as [p IH|p IH|]; intros x; [| |done].
  - cbn [SpecFloat.iter_pos]. rewrite !IH, Pos2Nat.inj_xI, Nat.iter_succ_r. simpl Nat.mul. by rewrite Nat.add_0_r, Nat.iter_add.
  - cbn [SpecFloat.iter_pos]. rewrite !IH, Pos2Nat.inj_xO. simpl Nat.mul. by rewrite Nat.add_0_r, Nat.iter_add.
Qed.

Lemma shr_1_div m r s : 0 ≤ m → shr_1 (Build_shr_record m r s) = Build_shr_record (m / 2) (Z.odd m) (r || s).
Proof.
  intros Hm. destruct m as [|[p|p|]|]; try done; simpl; try lia; f_equal.
  - change (Zpos p~1) with (2 * Zpos p + 1). apply Z.div_unique with 1; lia.
  - change (Zpos p~0) with (2 * Zpos p). apply Z.div_unique with 0; lia.
Qed.

(** After [k] shifts: the quotient, and whether anything was lost. *)
Lemma shr_iter X k : 0 ≤ X →
  ∃ r s, Nat.iter k shr_1 (Build_shr_record X false false) = Build_shr_record (X / 2 ^ Z.of_nat k) r s ∧
    (r || s) = negb (X mod 2 ^ Z.of_nat k =? 0).
Proof.
  intros HX. induction k as [|k (r & s & IH & Hrs)].
  - exists false, false. split; [|by rewrite Z.mod_1_r]. simpl. by rewrite Z.div_1_r.
  - rewrite Nat.iter_succ, IH. assert (0 < 2 ^ Z.of_nat k) by lia. rewrite shr_1_div by (by apply Z.div_pos).
    do 2 eexists. split; [f_equal|].
    + by rewrite Nat2Z.inj_succ, Z.pow_succ_r, Z.mul_comm, Z.div_div by lia.
    + rewrite Hrs, Nat2Z.inj_succ, Z.pow_succ_r, Z.mul_comm, Z.rem_mul_r by lia.
      pose proof (Z.mod_pos_bound X (2 ^ Z.of_nat k) ltac:(lia)) as Hm. set (a := X mod 2 ^ Z.of_nat k) in *.
      rewrite Zodd_mod. set (b := (X / 2 ^ Z.of_nat k) mod 2). assert (b = 0 ∨ b = 1) as [-> | ->].
      { pose proof (Z.mod_pos_bound (X / 2 ^ Z.of_nat k) 2). lia. }
      * by rewrite Z.mul_0_r, Z.add_0_r.
      * rewrite (proj2 (Z.eqb_neq (a + _) 0)) by lia. done.
Qed.

(** ** Rounding *)

(** Rounding [X * 2 ^ e] with no more than 24 digits kept from exponent [e']
    on: the nearest multiples of [2 ^ (e' - e)] on either side, and the value
    itself if it is one. *)
Definition rounds_to (X : positive) (e e' m : Z) : Prop :=
  let d := Z.max 0 (e' - e) in
  (m = Zpos X / 2 ^ d ∨ (m = Zpos X / 2 ^ d + 1 ∧ Zpos X mod 2 ^ d ≠ 0)).

Lemma shr_spec X e n : 0 ≤ X →
  ∃ r s, SpecFloat.shr (Build_shr_record X false false) e n = (Build_shr_record (X / 2 ^ Z.max 0 n) r s, e + Z.max 0 n) ∧
    (r || s) = negb (X mod 2 ^ Z.max 0 n =? 0).
Proof.
  intros HX. destruct n as [|p|p]; simpl Z.max.
  1, 3: exists false, false; simpl; by rewrite Z.div_1_r, Z.mod_1_r, Z.add_0_r.
  destruct (shr_iter X (Pos.to_nat p) HX) as (r & s & E & Hrs). rewrite positive_nat_Z in E, Hrs.
  exists r, s. split; [|done]. unfold SpecFloat.shr. by rewrite iter_pos_nat, E.
Qed.

Lemma round_nearest_cases q r s :
  let m := round_nearest_even q (loc_of_shr_record (Build_shr_record q r s)) in
  m = q ∨ (m = q + 1 ∧ (r || s) = true).
Proof. destruct r, s; simpl; auto. destruct (Z.even q); auto. Qed.

(** The first rounding leaves at most 24 digits, or the power of two above. *)
Lemma rounds_to_bound X e m :
  rounds_to X e (fexp 24 128 (Zpos (digits2_pos X) + e)) m → 0 ≤ m ≤ 2 ^ 24.
Proof.
  unfold rounds_to, fexp, emin. set (k := Zpos (digits2_pos X)). set (d := Z.max 0 _).
  pose proof (digits_bounds X) as [_ Hb]. fold k in Hb. assert (0 < 2 ^ d) by (apply Z.pow_pos_nonneg; lia).
  assert (0 ≤ Zpos X / 2 ^ d < 2 ^ 24) as Hq; [|lia].
  split; [by apply Z.div_pos|]. apply Z.div_lt_upper_bound; [done|]. rewrite <-Z.pow_add_r by lia.
  apply Z.lt_le_trans with (2 ^ k); [done|]. apply Z.pow_le_mono_r; lia.
Qed.

(** Rounding does not pass a bound that is itself a multiple. *)
Lemma rounds_to_le X e e' m N : rounds_to X e e' m → Zpos X ≤ N * 2 ^ Z.max 0 (e' - e) → 0 ≤ m ≤ N.
Proof.
  unfold rounds_to. set (d := Z.max 0 _). assert (0 < 2 ^ d) as Hd by (apply Z.pow_pos_nonneg; lia). intros Hr HX.
  pose proof (Z.div_mod (Zpos X) (2 ^ d) ltac:(lia)). pose proof (Z.mod_pos_bound (Zpos X) (2 ^ d) Hd).
  pose proof (Z.div_pos (Zpos X) (2 ^ d) ltac:(lia) Hd). set (q := Zpos X / 2 ^ d) in *. nia.
Qed.

(** Normalising what was rounded keeps its value. *)
Lemma renormalise m e : 0 < m ≤ 2 ^ 24 → -149 ≤ e →
  ∃ m' e', shr_fexp 24 128 m e loc_Exact = (Build_shr_record (Zpos m') false false, e') ∧
    e ≤ e' ≤ e + 1 ∧ m = Zpos m' * 2 ^ (e' - e) ∧ (m < 2 ^ 24 → e' = e).
Proof.
  intros Hm He. destruct m as [|m|]; [lia| |lia]. unfold shr_fexp. simpl Zdigits2. simpl shr_record_of_loc.
  destruct (decide (m = 16777216%positive)) as [->|Hne].
  - replace (fexp 24 128 (Zpos (digits2_pos 16777216) + e) - e) with 1 by (unfold fexp, emin; simpl; lia).
    exists 8388608%positive, (e + 1). split_and!; [done|lia|lia|by replace (e + 1 - e) with 1 by lia|lia].
  - assert (Zpos m < 2 ^ 24) as Hlt by lia. pose proof (digits_le m 24 ltac:(lia) Hlt). assert (fexp 24 128 (Zpos (digits2_pos m) + e) - e ≤ 0) as Hz.
    { unfold fexp, emin. lia. }
    exists m, e. split_and!; [|lia|lia|rewrite Z.sub_diag; lia|done]. destruct (fexp _ _ _ - e); [done|lia|done].
Qed.

(** The float [x] is [m * 2 ^ e], with sign [s]. *)
Definition represents (x : float) (s : bool) (m e : Z) : Prop :=
  (m = 0 ∧ x = S754_zero s) ∨
  ∃ m' k, x = S754_finite s m' k ∧ e ≤ k ≤ e + 1 ∧ m = Zpos m' * 2 ^ (k - e) ∧ (m < 2 ^ 24 → k = e).

(** What [binary_round_aux] returns, as long as the exponent stays in range. *)
Lemma round_aux_spec s X e :
  let e' := fexp 24 128 (Zpos (digits2_pos X) + e) in
  Z.max e e' ≤ 100 →
  ∃ m, rounds_to X e e' m ∧ represents (binary_round_aux 24 128 s (Zpos X) e loc_Exact) s m (Z.max e e').
Proof.
  intros e' He. unfold binary_round_aux.
  destruct (shr_spec (Zpos X) e (e' - e) ltac:(lia)) as (r & t & E & Hrt).
  replace (e + Z.max 0 (e' - e)) with (Z.max e e') in E by lia.
  change (shr_fexp 24 128 (Zpos X) e loc_Exact) with (SpecFloat.shr (Build_shr_record (Zpos X) false false) e (e' - e)).
  rewrite E. cbn [shr_m].
  set (m := round_nearest_even _ _). exists m.
  assert (rounds_to X e e' m) as Hr.
  { destruct (round_nearest_cases (Zpos X / 2 ^ Z.max 0 (e' - e)) r t) as [Em|[Em Ht]]; [by left|right; split; [done|]].
    rewrite Ht in Hrt. intros E0. by rewrite E0 in Hrt. }
  split; [done|]. pose proof (rounds_to_bound X e m Hr) as Hb.
  destruct (decide (m = 0)) as [E0|Hne].
  - left. split; [done|]. rewrite E0. unfold shr_fexp. simpl Zdigits2. simpl shr_record_of_loc.
    destruct (shr_spec 0 (Z.max e e') (fexp 24 128 (0 + Z.max e e') - Z.max e e') ltac:(lia)) as (? & ? & -> & _).
    cbn [shr_m]. rewrite Z.div_0_l; [done|]. apply Z.pow_nonzero; lia.
  - right. destruct (renormalise m (Z.max e e')) as (m' & k & -> & Hk & Em & Hlt); [lia|unfold e', fexp, emin; lia|].
    cbn [shr_m]. rewrite (proj2 (Z.leb_le k (128 - 24))) by lia. by exists m', k.
Qed.

Lemma int64_of_rounded x m e :
  e ≤ 0 → 0 ≤ m / 2 ^ (- e) < 2 ^ 63 → represents x false m e → int64_of_float x = Ret (m / 2 ^ (- e)).
Proof.
  intros He Hr [[-> ->]|(m' & k & -> & Hk & Em & _)].
  { rewrite Z.div_0_l; [done|]. apply Z.pow_nonzero; lia. }
  simpl. assert ((if 0 <=? k then Zpos m' * 2 ^ k else Zpos m' / 2 ^ (- k)) = m / 2 ^ (- e)) as ->.
  - destruct (Z.leb_spec 0 k) as [Hk0|Hk0]; rewrite Em.
    + replace (k - e) with (k + - e) by lia. rewrite Z.pow_add_r, Z.mul_assoc, Z.div_mul; [done|apply Z.pow_nonzero|..]; lia.
    + replace (- e) with (- k + (k - e)) by lia. rewrite Z.pow_add_r, Z.div_mul_cancel_r; try (apply Z.pow_nonzero); lia.
  - by rewrite (proj2 (Z.leb_le _ _)), (proj2 (Z.ltb_lt _ _)) by lia.
Qed.

(** ** Sizes as floats *)

Lemma pow2_split a b : 0 ≤ a ≤ b → 2 ^ b = 2 ^ a * 2 ^ (b - a).
Proof. intros Hab. rewrite <-Z.pow_add_r by lia. f_equal. lia. Qed.

Lemma shl_align_spec n k : k ≤ 0 → ∃ m, shl_align n 0 k = (m, k) ∧ Zpos m = Zpos n * 2 ^ (- k).
Proof.
  intros Hk. unfold shl_align. rewrite Z.sub_0_r. destruct k as [|p|p]; [exists n; split; [done|lia]|lia|].
  exists (Pos.iter xO n p). split; [done|]. simpl Z.opp. rewrite <-Z.shiftl_mul_pow2 by lia. simpl.
  by apply (Pos.iter_swap_gen _ _ Zpos).
Qed.

(** Up to [2 ^ 24], a size is converted exactly. *)
Lemma float_of_size n : 0 < n < 2 ^ 24 →
  ∃ m e, float_of_Z n = S754_finite false m e ∧ -23 ≤ e ≤ 0 ∧ Zpos m = n * 2 ^ (- e) ∧ Zpos (digits2_pos m) = 24.
Proof.
  intros Hn. destruct n as [|n|]; [lia| |lia]. unfold float_of_Z. simpl binary_normalize. unfold binary_round.
  pose proof (digits_bounds n) as Hd. set (k := Zpos (digits2_pos n)) in *. assert (0 < k) by (unfold k; lia).
  assert (k ≤ 24) by (apply digits_le; lia).
  replace (fexp 24 128 (k + 0)) with (k - 24) by (unfold fexp, emin; lia).
  destruct (shl_align_spec n (k - 24) ltac:(lia)) as (m & -> & Em). replace (- (k - 24)) with (24 - k) in * by lia.
  assert (Zpos (digits2_pos m) = 24) as Hm.
  { apply digits_unique; [lia|]. rewrite Em, (pow2_split k 24), (pow2_split (k - 1) (24 - 1)) by lia.
    replace (24 - 1 - (k - 1)) with (24 - k) by lia. assert (0 < 2 ^ (24 - k)) by (apply Z.pow_pos_nonneg; lia). nia. }
  destruct (round_aux_spec false m (k - 24)) as (m1 & Hr & Hres); rewrite Hm in *.
  { unfold fexp, emin. lia. }
  replace (fexp 24 128 (24 + (k - 24))) with (k - 24) in * by (unfold fexp, emin; lia).
  unfold rounds_to in Hr. rewrite Z.sub_diag, Z.div_1_r, Z.mod_1_r in Hr. assert (m1 = Zpos m) as -> by lia.
  pose proof (digits_bounds m) as Hb. rewrite Hm in Hb.
  destruct Hres as [[? _]|(m' & e & -> & He & E & Heq)]; [lia|]. rewrite Z.max_id in *. rewrite (Heq ltac:(lia)) in *.
  rewrite Z.sub_diag, Z.mul_1_r in E. injection E as <-. exists m, (k - 24).
  split_and!; [done|lia|lia| |done]. by replace (- (k - 24)) with (24 - k) by lia.
Qed.

(** ** The product of a fraction and a size *)

(** A float between 0 and 1. *)
Definition fraction (p : float) : bool := float_valid p && float_leb float_zero p && float_leb p float_one.

Lemma SFleb_same_exponent m n e : SFleb (S754_finite false m e) (S754_finite false n e) = true → Zpos m ≤ Zpos n.
Proof.
  unfold SFleb, SFcompare. rewrite Z.compare_refl. fold (Pos.compare m n). by destruct (Pos.compare_spec m n) as [->| |]; try lia.
Qed.

Lemma SFleb_exponent m n e1 e2 : SFleb (S754_finite false m e1) (S754_finite false n e2) = true → e1 ≤ e2.
Proof. unfold SFleb, SFcompare. by destruct (Z.compare_spec e1 e2); try lia. Qed.

Lemma fraction_cases p : fraction p = true →
  (∃ s, p = S754_zero s) ∨ ∃ m e, p = S754_finite false m e ∧ -149 ≤ e ≤ -23 ∧ Zpos m ≤ 2 ^ (- e).
Proof.
  unfold fraction, float_valid, float_leb. intros [[Hv H0]%andb_true_iff H1]%andb_true_iff.
  destruct p as [s|s| |s m e]; [by left; exists s|by destruct s|done|]. destruct s; [done|]. right. exists m, e.
  simpl in Hv. unfold bounded, canonical_mantissa in Hv. apply andb_true_iff in Hv as [Hc%Z.eqb_eq _].
  unfold fexp, emin in Hc. pose proof (digits_bounds m) as [_ Hm]. set (k := Zpos (digits2_pos m)) in *.
  assert (Zpos m < 2 ^ 24). { apply Z.lt_le_trans with (2 ^ k); [done|]. apply Z.pow_le_mono_r; lia. }
  change float_one with (S754_finite false 8388608 (-23)) in H1. pose proof (SFleb_exponent _ _ _ _ H1) as He.
  split_and!; [done|lia|done|]. destruct (decide (e = -23)) as [->|Hne].
  - by apply SFleb_same_exponent in H1.
  - apply Z.le_trans with (2 ^ 24); [lia|]. apply Z.pow_le_mono_r; lia.
Qed.

(** [static_cast<int64_t>(p * n)]. *)
Definition scale (p : float) (n : Z) : outcome Z := int64_of_float (float_mul p (float_of_Z n)).

Lemma scale_range p n : fraction p = true → 0 ≤ n < 2 ^ 24 → ∃ i, scale p n = Ret i ∧ 0 ≤ i ≤ n.
Proof.
  intros Hp Hn. unfold scale, float_mul. destruct (decide (n = 0)) as [->|Hn0].
  { exists 0. split; [|lia]. destruct (fraction_cases p Hp) as [[s ->]|(m & e & -> & _)]; done. }
  destruct (float_of_size n ltac:(lia)) as (m2 & e2 & -> & He2 & Em2 & Hd2).
  destruct (fraction_cases p Hp) as [[s ->]|(m1 & e1 & -> & He1 & Hm1)]; [exists 0; split; [done|lia]|].
  simpl SFmul. set (X := (m1 * m2)%positive). set (e := e1 + e2).
  assert (Zpos X ≤ n * 2 ^ (- e)) as HX.
  { unfold X, e. rewrite Pos2Z.inj_mul, Em2. replace (- (e1 + e2)) with (- e1 + - e2) by lia. rewrite Z.pow_add_r by lia.
    assert (0 < 2 ^ (- e2)) by (apply Z.pow_pos_nonneg; lia). nia. }
  assert (Zpos (digits2_pos X) ≤ 24 - e) as Hdig.
  { apply digits_le; [lia|]. replace (24 - e) with (24 + - e) by lia. rewrite Z.pow_add_r by lia.
    assert (0 < 2 ^ (- e)) by (apply Z.pow_pos_nonneg; lia). nia. }
  destruct (round_aux_spec false X e) as (m & Hr & Hrep); [unfold fexp, emin; lia|].
  set (e' := fexp 24 128 (Zpos (digits2_pos X) + e)) in *. assert (e' ≤ 0) by (unfold e', fexp, emin; lia).
  assert (0 ≤ m ≤ n * 2 ^ (- Z.max e e')) as Hm.
  { apply (rounds_to_le X e e'); [done|]. rewrite <-Z.mul_assoc, <-Z.pow_add_r by lia.
    by replace (- Z.max e e' + Z.max 0 (e' - e)) with (- e) by lia. }
  assert (0 < 2 ^ (- Z.max e e')) by (apply Z.pow_pos_nonneg; lia).
  exists (m / 2 ^ (- Z.max e e')). assert (0 ≤ m / 2 ^ (- Z.max e e') ≤ n) as Hi.
  { split; [apply Z.div_pos; lia|]. apply Z.div_le_upper_bound; lia. }
  split; [|done]. apply int64_of_rounded; [lia|lia|done].
Qed.

(** Half of a size is computed exactly. *)
Lemma scale_half n : 0 ≤ n < 2 ^ 24 → scale float_half n = Ret (n / 2).
Proof.
  intros Hn. unfold scale, float_mul. destruct (decide (n = 0)) as [->|Hn0]; [done|].
  destruct (float_of_size n ltac:(lia)) as (m & e & -> & He & Em & Hd). unfold float_half. simpl SFmul.
  set (X := (8388608 * m)%positive). set (ex := -24 + e).
  pose proof (digits_bounds m) as Hb. rewrite Hd in Hb.
  assert (Zpos (digits2_pos X) = 47) as HX by (apply digits_unique; unfold X; lia).
  destruct (round_aux_spec false X ex) as (k & Hr & Hrep); rewrite HX in *; [unfold fexp, emin; lia|].
  replace (fexp 24 128 (47 + ex)) with (e - 1) in * by (unfold fexp, emin, ex; lia).
  unfold rounds_to in Hr. replace (Z.max 0 (e - 1 - ex)) with 23 in Hr by lia.
  replace (Zpos X) with (Zpos m * 2 ^ 23) in Hr by (unfold X; lia). rewrite Z.mod_mul, Z.div_mul in Hr by done.
  assert (k = Zpos m) as -> by lia. replace (Z.max ex (e - 1)) with (e - 1) in * by lia.
  assert (Zpos m / 2 ^ (- (e - 1)) = n / 2) as Eh.
  { rewrite Em. replace (- (e - 1)) with (1 + - e) by lia. rewrite Z.pow_add_r by lia.
    rewrite Z.div_mul_cancel_r; [done|lia|apply Z.pow_nonzero; lia]. }
  rewrite <-Eh. apply int64_of_rounded; [lia| |done]. rewrite Eh. split; [apply Z.div_pos; lia|apply Z.div_lt_upper_bound; lia].
Qed.

(** Beyond [2 ^ 24] the converted size, and with it the index, can exceed the
    size itself. *)
Lemma scale_beyond : scale float_one (2 ^ 24 + 3) = Ret (2 ^ 24 + 4).
Proof. by vm_compute. Qed.
