(* ===== verification/Percentile.v ===== *)
(** * Percentile and moving median filters

    Model of [PercentileFilter<T>] of
    [src/include/rtc_base/numerics/percentile_filter.h] and of
    [MovingMedianFilter<T>] of [moving_median_filter.h], for integer
    observations.  A [std::multiset] is the list of its nodes in order; a node
    has an identity, and an iterator names a node (or the end), so that it
    keeps denoting its node while others come and go.  The percentile is an
    IEEE single precision number ([Float32]), and the index is the product the
    code computes with it. *)

From stdpp Require Import sorting.
From S2P Require Import Prelude Float32.

#[local] Set Warnings "-clear-no-such-hyp".

(** ** Multisets *)

Record multiset := mkSet { nodes : list (nat * Z); fresh_node : nat }.

(** [None] is [end()]. *)
Abbreviation set_iterator := (option nat).

Definition ms_empty : multiset := mkSet [] 0.
Definition ms_size (m : multiset) : nat := length (nodes m).

Definition iterator_at (m : multiset) (p : nat) : set_iterator := fst <$> (nodes m !! p).
Definition ms_begin (m : multiset) : set_iterator := iterator_at m 0.

(** The position of a node; the end comes after all nodes. *)
Definition position (m : multiset) (it : set_iterator) : outcome nat :=
  match it with
  | None => Ret (ms_size m)
  | Some n => from_option_or OutOfBounds (fst <$> list_find (λ x, x.1 = n) (nodes m))
  end.

Definition deref (m : multiset) (it : set_iterator) : outcome Z :=
  p ← position m it; from_option_or OutOfBounds (snd <$> (nodes m !! p)).

(** The number of leading nodes that satisfy [f]. *)
Fixpoint count_while (f : Z → bool) (l : list (nat * Z)) : nat :=
  match l with [] => 0 | x :: l => if f x.2 then S (count_while f l) else 0 end.

(** [insert] puts a new node at the upper bound. *)
Definition ms_insert (m : multiset) (value : Z) : multiset :=
  let k := count_while (λ v, v <=? value) (nodes m) in
  mkSet (take k (nodes m) ++ (fresh_node m, value) :: drop k (nodes m)) (S (fresh_node m)).

Definition lower_bound (m : multiset) (value : Z) : set_iterator :=
  iterator_at m (count_while (λ v, v <? value) (nodes m)).

(** [erase(it)] returns the iterator that follows. *)
Definition ms_erase (m : multiset) (it : set_iterator) : outcome (multiset * set_iterator) :=
  p ← position m it;
  if (p <? ms_size m)%nat then Ret (mkSet (delete p (nodes m)) (fresh_node m), iterator_at m (S p))
  else Crash OutOfBounds.

(** [std::advance]. *)
Definition advance (m : multiset) (it : set_iterator) (n : Z) : outcome set_iterator :=
  p ← position m it;
  let q := Z.of_nat p + n in
  if (0 <=? q) && (q <=? Z.of_nat (ms_size m)) then Ret (iterator_at m (Z.to_nat q)) else Crash OutOfBounds.

(** ** The percentile filter *)

Record PercentileFilter := mkFilter {
  percentile_ : float;
  set_ : multiset;
  percentile_it_ : set_iterator;
  percentile_index_ : Z
}.

Definition PercentileFilter_init (percentile : float) : outcome PercentileFilter :=
  RTC_CHECK (float_leb float_zero percentile) ≫= λ _,
  RTC_CHECK (float_leb percentile float_one) ≫= λ _,
  Ret (mkFilter percentile ms_empty (ms_begin ms_empty) 0).

Definition UpdatePercentileIterator (f : PercentileFilter) : outcome PercentileFilter :=
  if (ms_size (set_ f) =? 0)%nat then Ret f else
  index ← scale (percentile_ f) (Z.of_nat (ms_size (set_ f)) - 1);
  it ← advance (set_ f) (percentile_it_ f) (index - percentile_index_ f);
  Ret (mkFilter (percentile_ f) (set_ f) it index).

Definition Insert (f : PercentileFilter) (value : Z) : outcome PercentileFilter :=
  let set := ms_insert (set_ f) value in
  f ← (if (ms_size set =? 1)%nat then Ret (mkFilter (percentile_ f) set (ms_begin set) 0)
       else v ← deref set (percentile_it_ f);
            Ret (mkFilter (percentile_ f) set (percentile_it_ f)
                   (if value <? v then percentile_index_ f + 1 else percentile_index_ f)));
  UpdatePercentileIterator f.

Definition Erase (f : PercentileFilter) (value : Z) : outcome (PercentileFilter * bool) :=
  let it := lower_bound (set_ f) value in
  absent ← (if decide (it = None) then Ret true else v ← deref (set_ f) it; Ret (negb (v =? value)));
  if absent : bool then Ret (f, false) else
  f ← (if decide (it = percentile_it_ f) then
         '(set, next) ← ms_erase (set_ f) it;
         Ret (mkFilter (percentile_ f) set next (percentile_index_ f))
       else
         '(set, _) ← ms_erase (set_ f) it;
         v ← deref set (percentile_it_ f);
         Ret (mkFilter (percentile_ f) set (percentile_it_ f)
                (if value <=? v then percentile_index_ f - 1 else percentile_index_ f)));
  f ← UpdatePercentileIterator f;
  Ret (f, true).

Definition GetPercentileValue (f : PercentileFilter) : outcome Z :=
  if (ms_size (set_ f) =? 0)%nat then Ret 0 else deref (set_ f) (percentile_it_ f).

(** [clear] keeps the identities of removed nodes out of use. *)
Definition Reset (f : PercentileFilter) : PercentileFilter :=
  let set := mkSet [] (fresh_node (set_ f)) in mkFilter (percentile_ f) set (ms_begin set) 0.

(** ** The moving median filter *)

Record MovingMedianFilter := mkMedian {
  percentile_filter_ : PercentileFilter;
  samples_ : list Z;
  samples_stored_ : nat;
  window_size_ : nat
}.

Definition MovingMedianFilter_init (window_size : nat) : outcome MovingMedianFilter :=
  filter ← PercentileFilter_init float_half;
  RTC_CHECK (0 <? window_size)%nat ≫= λ _, Ret (mkMedian filter [] 0 window_size).

Definition Median_Insert (m : MovingMedianFilter) (value : Z) : outcome MovingMedianFilter :=
  filter ← Insert (percentile_filter_ m) value;
  let samples := samples_ m ++ [value] in
  let stored := S (samples_stored_ m) in
  if (window_size_ m <? stored)%nat then
    match samples with
    | [] => Crash OutOfBounds
    | front :: rest =>
        '(filter, _) ← Erase filter front;
        Ret (mkMedian filter rest (stored - 1) (window_size_ m))
    end
  else Ret (mkMedian filter samples stored (window_size_ m)).

Definition GetFilteredValue (m : MovingMedianFilter) : outcome Z := GetPercentileValue (percentile_filter_ m).

Definition Median_Reset (m : MovingMedianFilter) : MovingMedianFilter :=
  mkMedian (Reset (percentile_filter_ m)) [] 0 (window_size_ m).

Definition GetNumberOfSamplesStored (m : MovingMedianFilter) : nat := samples_stored_ m.

(** ** Iterators and positions *)

Definition ids_ok (m : multiset) : Prop :=
  NoDup (fst <$> nodes m) ∧ Forall (λ x, x.1 < fresh_node m)%nat (nodes m).

Lemma position_at m p : NoDup (fst <$> nodes m) → (p ≤ ms_size m)%nat → position m (iterator_at m p) = Ret p.
Proof.
  intros Hnd Hp. unfold iterator_at, ms_size in *. destruct (nodes m !! p) as [[n v]|] eqn:E; simpl.
  - assert (list_find (λ x : nat * Z, x.1 = n) (nodes m) = Some (p, (n, v))) as ->; [|done].
    apply list_find_Some. split_and!; [done|done|]. intros j [n' v'] Hj Hlt Hn. simpl in Hn. subst n'.
    assert (j = p); [|lia]. apply (NoDup_lookup _ _ _ n Hnd); by rewrite list_lookup_fmap, ?Hj, ?E.
  - apply lookup_ge_None_1 in E. unfold ms_size. f_equal. lia.
Qed.

Lemma advance_at m p n :
  NoDup (fst <$> nodes m) → (p ≤ ms_size m)%nat → 0 ≤ Z.of_nat p + n ≤ Z.of_nat (ms_size m) →
  advance m (iterator_at m p) n = Ret (iterator_at m (Z.to_nat (Z.of_nat p + n))).
Proof.
  intros Hnd Hp Hn. unfold advance. rewrite position_at, bind_ret by done.
  by rewrite !(proj2 (Z.leb_le _ _)) by lia.
Qed.

Lemma deref_at m p x : NoDup (fst <$> nodes m) → nodes m !! p = Some x → deref m (iterator_at m p) = Ret x.2.
Proof.
  intros Hnd Hx. unfold deref. pose proof (lookup_lt_Some _ _ _ Hx).
  rewrite position_at, bind_ret by (done || unfold ms_size; lia). by rewrite Hx.
Qed.

(** Nodes keep their iterators when others are added or removed. *)
Lemma iterator_insert l1 x l2 g g' p :
  (p < length (l1 ++ l2))%nat →
  iterator_at (mkSet (l1 ++ l2) g) p = iterator_at (mkSet (l1 ++ x :: l2) g') (if (p <? length l1)%nat then p else S p).
Proof.
  intros Hp. unfold iterator_at. simpl. destruct (Nat.ltb_spec p (length l1)).
  - by rewrite !lookup_app_l by lia.
  - rewrite !lookup_app_r by lia. by replace (S p - length l1)%nat with (S (p - length l1)) by lia.
Qed.

(** ** Order *)

Definition values (l : list (nat * Z)) : list Z := snd <$> l.

Lemma count_while_split f l :
  (∀ a b, a ≤ b → f b = true → f a = true) → StronglySorted Z.le (values l) →
  ∃ l1 l2, l = l1 ++ l2 ∧ count_while f l = length l1 ∧
    (∀ v, v ∈ values l1 → f v = true) ∧ (∀ v, v ∈ values l2 → f v = false).
Proof.
  intros Hf. induction l as [|[n a] l IH]; intros Hs; simpl.
  - exists [], []. split_and!; try done; by intros v ?%elem_of_nil.
  - apply StronglySorted_cons in Hs as [Ha Hs]. simpl in *. destruct (f a) eqn:E.
    + destruct (IH Hs) as (l1 & l2 & -> & -> & H1 & H2). exists ((n, a) :: l1), l2. split_and!; try done.
      intros v [->|Hv]%elem_of_cons; auto.
    + exists [], ((n, a) :: l). split_and!; try done; [by intros v ?%elem_of_nil|].
      intros v [->|Hv]%elem_of_cons; [done|]. destruct (f v) eqn:Ev; [|done].
      rewrite list.Forall_forall in Ha. rewrite (Hf a v) in E; [done|by apply Ha|done].
Qed.

Lemma values_app l1 l2 : values (l1 ++ l2) = values l1 ++ values l2.
Proof. apply fmap_app. Qed.

(** The observations in order. *)
Definition sorted_values (xs : list Z) : list Z := merge_sort Z.le xs.

Lemma sorted_values_unique l xs : StronglySorted Z.le l → l ≡ₚ xs → l = sorted_values xs.
Proof.
  intros Hs Hp. apply (StronglySorted_unique Z.le); [done| |].
  - apply Sorted_StronglySorted; [apply _|]. apply Sorted_merge_sort. apply _.
  - unfold sorted_values. by rewrite merge_sort_Permutation.
Qed.

(** ** The invariant *)

Section Invariant.
Context (pc : float) (Hpc : fraction pc = true).

(** The set holds the observations [xs], and the iterator is at position [p],
    which [percentile_index_] tells. *)
Record at_position (f : PercentileFilter) (xs : list Z) (p : nat) : Prop := {
  ap_pc : percentile_ f = pc;
  ap_sorted : StronglySorted Z.le (values (nodes (set_ f)));
  ap_values : values (nodes (set_ f)) ≡ₚ xs;
  ap_ids : ids_ok (set_ f);
  ap_pos : (p ≤ ms_size (set_ f))%nat;
  ap_it : percentile_it_ f = iterator_at (set_ f) p;
  ap_index : percentile_index_ f = Z.of_nat p
}.

(** The index that the filter computes. *)
Definition target (xs : list Z) : nat :=
  match scale pc (Z.of_nat (length xs) - 1) with Ret i => Z.to_nat i | Crash _ => 0 end.

Definition rep (f : PercentileFilter) (xs : list Z) : Prop := at_position f xs (if decide (xs = []) then 0 else target xs)%nat.

Lemma values_length l : length (values l) = length l.
Proof. apply length_fmap. Qed.

Lemma at_size f xs p : at_position f xs p → ms_size (set_ f) = length xs.
Proof. intros [_ _ Hv _ _ _ _]. rewrite <-Hv, values_length. done. Qed.

Lemma target_range xs : xs ≠ [] → Z.of_nat (length xs) ≤ 2 ^ 24 →
  (target xs < length xs)%nat ∧ scale pc (Z.of_nat (length xs) - 1) = Ret (Z.of_nat (target xs)).
Proof.
  intros Hne Hl. assert (0 < length xs)%nat by (destruct xs; [done|simpl; lia]).
  destruct (scale_range pc (Z.of_nat (length xs) - 1) Hpc ltac:(lia)) as (i & E & Hi). unfold target. rewrite E.
  split; [lia|]. by rewrite Z2Nat.id by lia.
Qed.

Lemma UpdateIterator_ok f xs p :
  at_position f xs p → Z.of_nat (length xs) ≤ 2 ^ 24 → (xs = [] → p = 0%nat) →
  ∃ f', UpdatePercentileIterator f = Ret f' ∧ rep f' xs.
Proof.
  intros Hp Hl H0. pose proof (at_size _ _ _ Hp) as Hsz. unfold UpdatePercentileIterator, rep. rewrite Hsz.
  destruct (decide (xs = [])) as [->|Hne].
  - exists f. split; [done|]. by rewrite <-(H0 eq_refl).
  - destruct (target_range xs Hne Hl) as [Ht Ets]. destruct Hp as [Hc Hs Hv [Hnd Hfr] Hpos Hit Hidx].
    rewrite (proj2 (Nat.eqb_neq _ _)) by (destruct xs; [done|simpl; lia]).
    rewrite Hc, Ets, bind_ret, Hit, Hidx, advance_at, bind_ret by (done || rewrite ?Hsz; lia). eexists. split; [done|].
    split; simpl; try done; [rewrite Hsz; lia|f_equal; lia].
Qed.

Lemma Insert_ok f xs v :
  rep f xs → Z.of_nat (length xs) < 2 ^ 24 → ∃ f', Insert f v = Ret f' ∧ rep f' (v :: xs).
Proof.
  intros Hr Hl. pose proof (at_size _ _ _ Hr) as Hsz. destruct Hr as [Hc Hs Hv [Hnd Hfr] Hpos Hit Hidx].
  destruct f as [pcf [l g] it idx]. simpl in *. unfold Insert, ms_insert, ms_size. cbn [percentile_ set_ nodes fresh_node percentile_it_ percentile_index_].
  destruct (count_while_split (λ a, a <=? v) l) as (l1 & l2 & El & -> & H1 & H2); [|done|].
  { intros a b Hab. rewrite !Z.leb_le. lia. }
  rewrite El, take_app_length, drop_app_length, length_app. simpl.
  assert (StronglySorted Z.le (values (l1 ++ (g, v) :: l2))) as Hs'.
  { rewrite El, values_app, StronglySorted_app in Hs. destruct Hs as (_ & Hs1 & Hs2).
    rewrite values_app. apply StronglySorted_app_2; [|done|].
    - intros a b Ha [->|Hb]%elem_of_cons; apply H1, Z.leb_le in Ha; [done|]. apply H2, Z.leb_gt in Hb. lia.
    - simpl. apply StronglySorted_cons. split; [|done]. apply list.Forall_forall. intros b Hb. apply H2, Z.leb_gt in Hb. lia. }
  assert (values (l1 ++ (g, v) :: l2) ≡ₚ v :: xs) as Hv'.
  { rewrite <-Hv, El, !values_app. simpl. by rewrite Permutation_middle. }
  assert (ids_ok (mkSet (l1 ++ (g, v) :: l2) (S g))) as [Hnd' Hfr'].
  { rewrite El in Hnd, Hfr. split; simpl.
    - rewrite fmap_app. simpl. rewrite <-Permutation_middle, <-fmap_app. apply list.NoDup_cons. split; [|done].
      intros (x & E & Hx)%list_elem_of_fmap. rewrite list.Forall_forall in Hfr. apply Hfr in Hx. lia.
    - apply Forall_app in Hfr as [? ?]. apply Forall_app. split; [|constructor; [simpl; lia|]];
        (eapply list.Forall_impl; [done|]; simpl; intros; lia). }
  assert (ms_size (mkSet (l1 ++ (g, v) :: l2) (S g)) = S (length xs)) as Hsz'.
  { unfold ms_size in *. simpl in *. rewrite <-Hsz, El, !length_app. simpl. lia. }
  destruct (Nat.eqb_spec (length l1 + S (length l2)) 1) as [E1|E1].
  - rewrite bind_ret. apply (UpdateIterator_ok _ _ 0); simpl; [split; simpl; try done; lia|lia|done].
  - assert (xs ≠ []) as Hne. { intros ->. simpl in Hsz'. unfold ms_size in Hsz'. simpl in Hsz'. rewrite length_app in Hsz'. simpl in *. lia. }
    rewrite decide_False in * by done. destruct (target_range xs Hne ltac:(lia)) as [Ht _].
    set (p := target xs) in *. unfold ms_size in Hsz. simpl in Hsz.
    assert (p < length (l1 ++ l2))%nat as Hp by (rewrite <-El; lia).
    pose proof (iterator_insert l1 (g, v) l2 g (S g) p Hp) as Hst. rewrite El in Hit.
    set (q := if (p <? length l1)%nat then p else S p) in *.
    destruct (lookup_lt_is_Some_2 (l1 ++ l2) p Hp) as [x Hx].
    assert ((l1 ++ (g, v) :: l2) !! q = Some x) as Hq.
    { unfold q. destruct (Nat.ltb_spec p (length l1)).
      - rewrite lookup_app_l in Hx |- * by lia. done.
      - rewrite lookup_app_r in Hx |- * by lia. by replace (S p - length l1)%nat with (S (p - length l1)) by lia. }
    rewrite Hit, Hst, (deref_at (mkSet _ _) q x) by done. rewrite !bind_ret.
    assert ((if v <? x.2 then idx + 1 else idx) = Z.of_nat q) as ->.
    { unfold q. destruct (Nat.ltb_spec p (length l1)) as [Hpl|Hpl].
      - rewrite lookup_app_l in Hx by lia. assert ((x.2 <=? v) = true) as Hle%Z.leb_le.
        { apply H1. apply list_elem_of_fmap_2. by apply list_elem_of_lookup_2 with p. }
        rewrite (proj2 (Z.ltb_ge _ _)) by lia. done.
      - rewrite lookup_app_r in Hx by lia. assert ((x.2 <=? v) = false) as Hle%Z.leb_gt.
        { apply H2. apply list_elem_of_fmap_2. by eapply list_elem_of_lookup_2. }
        rewrite (proj2 (Z.ltb_lt _ _)) by lia. lia. }
    apply (UpdateIterator_ok _ _ q); simpl; [|lia|done]. split; simpl; try done.
    pose proof (lookup_lt_Some _ _ _ Hq). unfold ms_size. simpl. lia.
Qed.

(** Removing the node between [l1] and [l2]. *)
Lemma erase_at l1 x l2 g :
  NoDup (fst <$> l1 ++ x :: l2) →
  ms_erase (mkSet (l1 ++ x :: l2) g) (iterator_at (mkSet (l1 ++ x :: l2) g) (length l1)) =
  Ret (mkSet (l1 ++ l2) g, iterator_at (mkSet (l1 ++ l2) g) (length l1)).
Proof.
  intros Hnd. unfold ms_erase.
  rewrite position_at, bind_ret by (try done; unfold ms_size; simpl; rewrite length_app; lia).
  unfold ms_size. cbn [nodes fresh_node]. rewrite (proj2 (Nat.ltb_lt _ _)) by (rewrite length_app; simpl; lia).
  rewrite delete_middle. do 2 f_equal. unfold iterator_at. simpl. rewrite !lookup_app_r by lia.
  by replace (S (length l1) - length l1)%nat with 1%nat by lia; rewrite Nat.sub_diag.
Qed.

Lemma lower_bound_split l v :
  StronglySorted Z.le (values l) →
  ∃ l1 l2, l = l1 ++ l2 ∧ (∀ g, lower_bound (mkSet l g) v = iterator_at (mkSet l g) (length l1)) ∧
    (∀ a, a ∈ values l1 → a < v) ∧ (∀ a, a ∈ values l2 → v ≤ a).
Proof.
  intros Hs. destruct (count_while_split (λ a, a <? v) l) as (l1 & l2 & El & Ek & H1 & H2); [|done|].
  { intros a b Hab. rewrite !Z.ltb_lt. lia. }
  exists l1, l2. split_and!; [done| | |].
  - intros g. unfold lower_bound. simpl. by rewrite Ek.
  - intros a Ha. by apply Z.ltb_lt, H1.
  - intros a Ha. by apply Z.ltb_ge, H2.
Qed.

Lemma Erase_absent f xs v : rep f xs → v ∉ xs → Erase f v = Ret (f, false).
Proof.
  intros [_ Hs Hv [Hnd _] _ _ _] Hn. destruct f as [pcf [l g] it idx]. simpl in *. unfold Erase. cbn [set_].
  destruct (lower_bound_split l v Hs) as (l1 & l2 & El & -> & H1 & H2).
  destruct l2 as [|x l2].
  - destruct (decide (iterator_at (mkSet l g) (length l1) = None)) as [|Hd]; [done|]. destruct Hd.
    unfold iterator_at. simpl. rewrite El, app_nil_r. by rewrite (lookup_ge_None_2 l1) by lia.
  - assert (l !! length l1 = Some x) as Hx by (rewrite El; by apply list_lookup_middle).
    destruct (decide (iterator_at (mkSet l g) (length l1) = None)) as [Hd|_].
    { unfold iterator_at in Hd. simpl in Hd. by rewrite Hx in Hd. }
    rewrite (deref_at (mkSet l g) _ x), !bind_ret by done.
    destruct (Z.eqb_spec x.2 v) as [E|E]; [|done]. exfalso. apply Hn. rewrite <-Hv, El, values_app, <-E.
    apply elem_of_app. right. left.
Qed.

Lemma Erase_present f xs v :
  rep f (v :: xs) → Z.of_nat (length xs) ≤ 2 ^ 24 - 1 → ∃ f', Erase f v = Ret (f', true) ∧ rep f' xs.
Proof.
  intros Hr Hl. pose proof (at_size _ _ _ Hr) as Hsz. destruct Hr as [Hc Hs Hv [Hnd Hfr] Hpos Hit Hidx].
  rewrite decide_False in * by done. destruct (target_range (v :: xs)) as [Ht _]; [done|simpl; lia|].
  set (p := target (v :: xs)) in *. destruct f as [pcf [l g] it idx]. simpl in *. unfold Erase. cbn [percentile_ set_ percentile_it_ percentile_index_].
  destruct (lower_bound_split l v Hs) as (l1 & l2 & El & -> & H1 & H2).
  assert (v ∈ values l) as Hin by (rewrite Hv; left). rewrite El, values_app in Hin.
  apply elem_of_app in Hin as [Hin|Hin]; [apply H1 in Hin; lia|].
  destruct l2 as [|[n w] l2]; [by apply elem_of_nil in Hin|].
  assert (w = v) as ->.
  { rewrite El, values_app, StronglySorted_app in Hs. destruct Hs as (_ & _ & Hs).
    simpl in Hs. apply StronglySorted_cons in Hs as [Hw _]. assert (v ≤ w) by (apply H2; left).
    apply elem_of_cons in Hin as [->|Hin]; [done|]. rewrite list.Forall_forall in Hw. specialize (Hw v Hin). lia. }
  assert (l !! length l1 = Some (n, v)) as Hx by (rewrite El; by apply list_lookup_middle).
  destruct (decide (iterator_at (mkSet l g) (length l1) = None)) as [Hd|_].
  { unfold iterator_at in Hd. simpl in Hd. by rewrite Hx in Hd. }
  rewrite (deref_at (mkSet l g) _ (n, v)), !bind_ret by done. cbn [snd]. rewrite Z.eqb_refl. cbn [negb].
  unfold ms_size in Hsz. simpl in Hsz.
  (* what remains *)
  assert (StronglySorted Z.le (values (l1 ++ l2))) as Hs'.
  { rewrite El, values_app, StronglySorted_app in Hs. destruct Hs as (Hx12 & Hs1 & Hs2). simpl in Hs2, Hx12.
    apply StronglySorted_cons in Hs2 as [_ Hs2]. rewrite values_app. apply StronglySorted_app_2; [|done|done].
    intros a b Ha Hb. apply Hx12; [done|by right]. }
  assert (values (l1 ++ l2) ≡ₚ xs) as Hv'.
  { rewrite El, values_app in Hv. simpl in Hv. rewrite <-Permutation_middle, <-values_app in Hv.
    by apply Permutation_cons_inv in Hv. }
  assert (ids_ok (mkSet (l1 ++ l2) g)) as Hids.
  { rewrite El in Hnd, Hfr. split; simpl.
    - rewrite fmap_app in Hnd |- *. simpl in Hnd. rewrite <-Permutation_middle in Hnd. by apply list.NoDup_cons in Hnd as [_ ?].
    - apply Forall_app in Hfr as [? Hf2]. apply list.Forall_cons in Hf2 as [_ ?]. by apply Forall_app. }
  assert (length (l1 ++ l2) = length xs) as Hlen by (by rewrite <-values_length, Hv').
  rewrite El in Hx, Hit, Hnd |- *. rewrite El, length_app in Hsz. simpl in Hsz. rewrite length_app in Hlen.
  destruct (decide (p = length l1)) as [Hp|Hp].
  - rewrite decide_True by (by rewrite Hit, Hp). rewrite erase_at, !bind_ret by done.
    destruct (UpdateIterator_ok (mkFilter pcf (mkSet (l1 ++ l2) g) (iterator_at (mkSet (l1 ++ l2) g) (length l1)) idx) xs (length l1))
      as (f' & -> & Hr'); [split; simpl; try done|lia| |].
    + unfold ms_size. simpl. rewrite length_app. lia.
    + by rewrite Hidx, Hp.
    + intros ->. simpl in *. lia.
    + rewrite bind_ret. by exists f'.
  - assert (p < length (l1 ++ (n, v) :: l2))%nat as Hpl by (rewrite length_app; simpl; lia).
    destruct (lookup_lt_is_Some_2 (l1 ++ (n, v) :: l2) p Hpl) as [x Hpx].
    rewrite decide_False.
    2: { rewrite Hit. unfold iterator_at. cbn [nodes]. rewrite Hx, Hpx. cbn. intros [= E]. destruct x as [n' w]. simpl in E. subst n'.
         apply Hp. apply (NoDup_lookup _ _ _ n Hnd); by rewrite list_lookup_fmap, ?Hpx, ?Hx. }
    rewrite erase_at, bind_ret by done.
    set (q := if (p <? length l1)%nat then p else (p - 1)%nat).
    assert ((l1 ++ l2) !! q = Some x ∧ (if v <=? x.2 then idx - 1 else idx) = Z.of_nat q) as [Hq Hqi].
    { unfold q. destruct (Nat.ltb_spec p (length l1)).
      - rewrite lookup_app_l in Hpx |- * by lia. split; [done|]. assert (x.2 < v).
        { apply H1. apply list_elem_of_fmap_2. by eapply list_elem_of_lookup_2. }
        rewrite (proj2 (Z.leb_gt _ _)) by lia. done.
      - rewrite lookup_app_r in Hpx by lia. replace (p - length l1)%nat with (S (p - 1 - length l1)) in Hpx by lia. simpl in Hpx.
        rewrite lookup_app_r by lia. split; [done|]. assert (v ≤ x.2).
        { apply H2. simpl. right. apply list_elem_of_fmap_2. by eapply list_elem_of_lookup_2. }
        rewrite (proj2 (Z.leb_le _ _)) by lia. lia. }
    assert (it = iterator_at (mkSet (l1 ++ l2) g) q) as ->.
    { rewrite Hit. unfold iterator_at. cbn [nodes]. by rewrite Hpx, Hq. }
    rewrite (deref_at (mkSet (l1 ++ l2) g) q x), !bind_ret by (done || apply Hids). rewrite Hqi.
    pose proof (lookup_lt_Some _ _ _ Hq) as Hql.
    destruct (UpdateIterator_ok (mkFilter pcf (mkSet (l1 ++ l2) g) (iterator_at (mkSet (l1 ++ l2) g) q) (Z.of_nat q)) xs q)
      as (f' & -> & Hr'); [split; simpl; try done|lia| |].
    + unfold ms_size. simpl. lia.
    + intros ->. simpl in Hlen. rewrite length_app in Hql. lia.
    + rewrite bind_ret. by exists f'.
Qed.

Lemma Get_ok f xs :
  rep f xs → Z.of_nat (length xs) ≤ 2 ^ 24 →
  GetPercentileValue f = Ret (default 0 (sorted_values xs !! target xs)).
Proof.
  intros Hr Hl. pose proof (at_size _ _ _ Hr) as Hsz. destruct Hr as [Hc Hs Hv [Hnd Hfr] Hpos Hit Hidx].
  unfold GetPercentileValue. rewrite Hsz. rewrite <-(sorted_values_unique _ _ Hs Hv).
  destruct xs as [|x xs].
  - simpl. unfold ms_size in Hsz. by destruct (nodes (set_ f)).
  - simpl Nat.eqb. cbv iota. rewrite decide_False in * by done. destruct (target_range (x :: xs)) as [Ht _]; [done..|].
    destruct (lookup_lt_is_Some_2 (nodes (set_ f)) (target (x :: xs))) as [y Hy]; [unfold ms_size in Hsz; lia|].
    rewrite Hit, (deref_at _ _ y) by done. unfold values. by rewrite list_lookup_fmap, Hy.
Qed.

Lemma Reset_ok f xs : rep f xs → rep (Reset f) [].
Proof. intros Hr. split; simpl; try done; [apply Hr|constructor|]. split; constructor. Qed.

Lemma filter_init_ok : ∃ f, PercentileFilter_init pc = Ret f ∧ rep f [].
Proof.
  unfold PercentileFilter_init. apply andb_true_iff in Hpc as [[_ H0]%andb_true_iff H1]. rewrite H0, H1.
  eexists. split; [done|]. split; simpl; try done; [constructor|]. split; constructor.
Qed.

Lemma rep_perm f xs ys : rep f xs → xs ≡ₚ ys → rep f ys.
Proof.
  intros Hr Hp. pose proof (Permutation_length Hp) as Hl. unfold rep in *.
  assert ((if decide (ys = []) then 0 else target ys)%nat = (if decide (xs = []) then 0 else target xs)%nat) as ->.
  { unfold target. rewrite Hl. destruct xs, ys; simpl in *; try done; lia. }
  destruct Hr. split; try done. by rewrite <-Hp.
Qed.

(** ** The contract: a collection of observations *)

Inductive fop := FInsert (value : Z) | FErase (value : Z) | FGet | FReset.

Inductive fresult := Erased (b : bool) | Value (z : Z).

Fixpoint run (f : PercentileFilter) (ops : list fop) : outcome (list fresult) :=
  match ops with
  | [] => Ret []
  | FInsert v :: ops => f ← Insert f v; run f ops
  | FErase v :: ops => '(f, b) ← Erase f v; rs ← run f ops; Ret (Erased b :: rs)
  | FGet :: ops => z ← GetPercentileValue f; rs ← run f ops; Ret (Value z :: rs)
  | FReset :: ops => run (Reset f) ops
  end.

(** One occurrence of [v] removed, if there is one. *)
Fixpoint list_remove (v : Z) (xs : list Z) : option (list Z) :=
  match xs with [] => None | x :: xs => if x =? v then Some xs else cons x <$> list_remove v xs end.

Lemma list_remove_Some v xs ys : list_remove v xs = Some ys → xs ≡ₚ v :: ys.
Proof.
  revert ys. induction xs as [|x xs IH]; intros ys E; simpl in *; [done|]. destruct (Z.eqb_spec x v) as [->|Hne]; [by simplify_eq|].
  apply fmap_Some in E as (zs & E & ->). rewrite (IH zs E). apply Permutation_swap.
Qed.

Lemma list_remove_None v xs : list_remove v xs = None → v ∉ xs.
Proof.
  induction xs as [|x xs IH]; intros E; simpl in *; [by apply not_elem_of_nil|]. destruct (Z.eqb_spec x v) as [->|Hne]; [done|].
  apply fmap_None in E. apply not_elem_of_cons. split; [congruence|by apply IH].
Qed.

(** The results on the plain collection [xs]. *)
Fixpoint spec (xs : list Z) (ops : list fop) : list fresult :=
  match ops with
  | [] => []
  | FInsert v :: ops => spec (v :: xs) ops
  | FErase v :: ops =>
      match list_remove v xs with
      | Some ys => Erased true :: spec ys ops
      | None => Erased false :: spec xs ops
      end
  | FGet :: ops => Value (default 0 (sorted_values xs !! target xs)) :: spec xs ops
  | FReset :: ops => spec [] ops
  end.

Lemma filter_run_ok ops : ∀ f xs,
  rep f xs → Z.of_nat (length xs + length ops) ≤ 2 ^ 24 → run f ops = Ret (spec xs ops).
Proof.
  induction ops as [|o ops IH]; intros f xs Hr Hl; simpl in *; [done|]. destruct o as [v|v| |].
  - destruct (Insert_ok f xs v Hr ltac:(lia)) as (f' & -> & Hr'). rewrite bind_ret. apply IH; [done|]. simpl. lia.
  - destruct (list_remove v xs) as [ys|] eqn:E.
    + apply list_remove_Some in E. pose proof (Permutation_length E) as Hlen. simpl in Hlen.
      destruct (Erase_present f ys v) as (f' & -> & Hr'); [by apply rep_perm with xs|lia|].
      rewrite bind_ret, (IH f' ys) by (done || lia). by rewrite bind_ret.
    + rewrite (Erase_absent f xs v), bind_ret by (try done; by apply list_remove_None).
      rewrite (IH f xs) by (done || lia). by rewrite bind_ret.
  - rewrite (Get_ok f xs), bind_ret by (done || lia). rewrite (IH f xs) by (done || lia). by rewrite bind_ret.
  - apply IH; [by apply Reset_ok with xs|simpl; lia].
Qed.

End Invariant.

(** The tracked iterator is exact.  A percentile that is not between 0
    and 1 (or is not a number) stops the constructor.  Otherwise, for every
    sequence of insertions, erasures, queries and resets (at most [2 ^ 24],
    up to which a size is exact in a [float]), no iterator is dereferenced or
    moved out of range, [Erase] returns whether the value was present and
    removes one occurrence, and [GetPercentileValue] is the observation at the
    percentile's index of all observations in order (0 when there is none);
    the index is always one of an observation. *)
Theorem percentile_filter_exact (pc : float) (ops : list fop) :
  float_valid pc = true → Z.of_nat (length ops) ≤ 2 ^ 24 →
  (fraction pc = false → PercentileFilter_init pc = Crash CheckFailed) ∧
  (fraction pc = true →
   (∃ f, PercentileFilter_init pc = Ret f ∧ run f ops = Ret (spec pc [] ops)) ∧
   ∀ xs, xs ≠ [] → Z.of_nat (length xs) ≤ 2 ^ 24 → (target pc xs < length xs)%nat).
Proof.
  intros Hv Hl. split; intros Hf.
  - unfold fraction in Hf. rewrite Hv in Hf. unfold PercentileFilter_init.
    destruct (float_leb float_zero pc), (float_leb pc float_one); done.
  - split; [|intros xs Hne Hx; by apply target_range].
    destruct (filter_init_ok pc Hf) as (f & E & Hr). exists f. split; [done|]. by apply filter_run_ok.
Qed.

(** ** The moving median *)

Definition window (w : nat) (xs : list Z) : list Z := drop (length xs - w) xs.

Definition median_rep (m : MovingMedianFilter) (w : nat) (xs : list Z) : Prop :=
  rep float_half (percentile_filter_ m) (window w xs) ∧ samples_ m = window w xs ∧
  samples_stored_ m = length (window w xs) ∧ window_size_ m = w.

Lemma float_half_fraction : fraction float_half = true.
Proof. by vm_compute. Qed.

Lemma window_length w xs : length (window w xs) = Nat.min w (length xs).
Proof. unfold window. rewrite length_drop. lia. Qed.

Lemma Median_Insert_ok m w xs v :
  median_rep m w xs → (0 < w)%nat → Z.of_nat w < 2 ^ 24 →
  ∃ m', Median_Insert m v = Ret m' ∧ median_rep m' w (xs ++ [v]).
Proof.
  intros (Hr & Hs & Hst & Hw) Hpos Hb. pose proof (window_length w xs) as Hl. unfold Median_Insert.
  destruct (Insert_ok _ float_half_fraction (percentile_filter_ m) (window w xs) v Hr) as (f1 & -> & Hr1); [lia|].
  rewrite bind_ret, Hs, Hst, Hw. assert (v :: window w xs ≡ₚ window w xs ++ [v]) as Hp by apply Permutation_cons_append.
  apply (rep_perm _ _ _ _ Hr1) in Hp. destruct (Nat.ltb_spec w (S (length (window w xs)))) as [Hlt|Hge].
  - destruct (window w xs ++ [v]) as [|front rest] eqn:E; [by apply app_nil in E as [_ ?]|].
    pose proof (f_equal length E) as El. rewrite length_app in El. simpl in El.
    destruct (Erase_present _ float_half_fraction f1 rest front Hp) as (f2 & -> & Hr2); [lia|]. rewrite bind_ret. eexists. split; [done|].
    assert (window w (xs ++ [v]) = rest) as Hwin.
    { unfold window in *. rewrite length_app, drop_app_le by (simpl; lia). simpl.
      replace (length xs + 1 - w)%nat with (S (length xs - w)) by lia.
      assert (rest = drop 1 (drop (length xs - w) xs ++ [v])) as -> by (by rewrite E).
      rewrite drop_app_le by lia. by rewrite drop_drop, Nat.add_1_r. }
    unfold median_rep. simpl. rewrite Hwin. split_and!; [done|done|lia|done].
  - eexists. split; [done|]. assert (window w (xs ++ [v]) = window w xs ++ [v]) as Hwin.
    { unfold window in *. rewrite length_app. simpl. replace (length xs - w)%nat with 0%nat by lia.
      by replace (length xs + 1 - w)%nat with 0%nat by lia. }
    unfold median_rep. simpl. rewrite Hwin, length_app. simpl. split_and!; [done|done|lia|done].
Qed.

Fixpoint insert_all (m : MovingMedianFilter) (xs : list Z) : outcome MovingMedianFilter :=
  match xs with [] => Ret m | x :: xs => m ← Median_Insert m x; insert_all m xs end.

Lemma insert_all_ok w ys : ∀ m xs,
  median_rep m w xs → (0 < w)%nat → Z.of_nat w < 2 ^ 24 →
  ∃ m', insert_all m ys = Ret m' ∧ median_rep m' w (xs ++ ys).
Proof.
  induction ys as [|y ys IH]; intros m xs Hm Hpos Hb; simpl; [exists m; by rewrite app_nil_r|].
  destruct (Median_Insert_ok m w xs y Hm Hpos Hb) as (m1 & -> & Hm1). rewrite bind_ret.
  destruct (IH m1 (xs ++ [y]) Hm1 Hpos Hb) as (m2 & -> & Hm2). exists m2. by rewrite <-app_assoc in Hm2.
Qed.

(** The moving median filter returns the (lower) median of the last
    [window_size] samples: after any number of insertions the value is the
    middle of the most recent samples in order, and the number of samples
    stored is the number inserted, at most the window; [Reset] starts over.
    A window of size zero stops the program. *)
Theorem moving_median_exact (w : nat) (xs ys : list Z) :
  Z.of_nat w < 2 ^ 24 →
  (w = 0%nat → MovingMedianFilter_init w = Crash CheckFailed) ∧
  ((0 < w)%nat →
   ∃ m m1 m2, MovingMedianFilter_init w = Ret m ∧ insert_all m xs = Ret m1 ∧ insert_all (Median_Reset m1) ys = Ret m2 ∧
    (∀ m' zs, (m' = m1 ∧ zs = xs) ∨ (m' = m2 ∧ zs = ys) →
      GetNumberOfSamplesStored m' = Nat.min w (length zs) ∧
      GetFilteredValue m' =
        Ret (default 0 (sorted_values (window w zs) !! ((Nat.min w (length zs) - 1) / 2)%nat)))).
Proof.
  intros Hb. destruct (filter_init_ok float_half float_half_fraction) as (f0 & E0 & Hf0).
  split; [intros ->; unfold MovingMedianFilter_init; by rewrite E0|]. intros Hw. unfold MovingMedianFilter_init.
  rewrite E0, bind_ret. pass.
  assert (∀ f s k, rep float_half f s → s = [] → median_rep (mkMedian f [] k w) w [] ↔ k = 0%nat) as Hinit.
  { intros f s k Hf ->. unfold median_rep, window. simpl. tauto. }
  destruct (insert_all_ok w xs (mkMedian f0 [] 0 w) []) as (m1 & E1 & Hm1); try done.
  destruct (insert_all_ok w ys (Median_Reset m1) []) as (m2 & E2 & Hm2); try done.
  { unfold Median_Reset. destruct Hm1 as (Hr & _ & _ & ->). apply (Hinit _ []); [by eapply Reset_ok|done|done]. }
  do 3 eexists. split_and!; [done|exact E1|exact E2|]. simpl in Hm1, Hm2.
  assert (∀ m' zs, median_rep m' w zs → GetNumberOfSamplesStored m' = Nat.min w (length zs) ∧
      GetFilteredValue m' = Ret (default 0 (sorted_values (window w zs) !! ((Nat.min w (length zs) - 1) / 2)%nat))) as Hgen.
  { intros m' zs (Hr & _ & Hst & _). unfold GetNumberOfSamplesStored, GetFilteredValue.
    pose proof (window_length w zs) as Hl. rewrite Hst. split; [done|]. rewrite (Get_ok _ float_half_fraction _ _ Hr) by lia.
    destruct (decide (window w zs = [])) as [->|Hne]; [done|].
    assert (0 < length (window w zs))%nat by (destruct (window w zs); [done|simpl; lia]).
    do 3 f_equal. unfold target. rewrite scale_half by lia. rewrite <-Hl.
    replace (Z.of_nat (length (window w zs)) - 1) with (Z.of_nat (length (window w zs) - 1)) by lia.
    rewrite <-(Nat2Z.inj_div _ 2). by rewrite Nat2Z.id. }
  intros m' zs [[-> ->]|[-> ->]]; by apply Hgen.
Qed.

(** ** Witnesses *)

Lemma percentile_filter_exact_witness :
  ∃ f, PercentileFilter_init float_half = Ret f ∧
    run f [FInsert 5; FInsert 1; FInsert 5; FErase 1; FErase 2; FInsert 9; FGet] = Ret [Erased true; Erased false; Value 5].
Proof.
  destruct (percentile_filter_exact float_half [FInsert 5; FInsert 1; FInsert 5; FErase 1; FErase 2; FInsert 9; FGet])
    as (_ & H); [by vm_compute|by vm_compute|].
  destruct (H float_half_fraction) as ((f & E & Hr) & _). exists f. split; [done|]. rewrite Hr. by vm_compute.
Defined.

Lemma moving_median_exact_witness :
  ∃ m m1, MovingMedianFilter_init 3 = Ret m ∧ insert_all m [3; 8; 1; 2] = Ret m1 ∧ GetFilteredValue m1 = Ret 2.
Proof.
  destruct (moving_median_exact 3 [3; 8; 1; 2] []) as (_ & H); [by vm_compute|].
  destruct (H ltac:(lia)) as (m & m1 & m2 & E & E1 & _ & Hg). exists m, m1. split_and!; [done|done|].
  destruct (Hg m1 [3; 8; 1; 2]) as [_ Hv]; [by left|]. rewrite Hv. by vm_compute.
Defined.
