(* ===== verification/BaseNumerics.v ===== *)
(** * Range checks, promotions and saturation of the base numerics library

    Model of [src/include/base/numerics/safe_conversions_impl.h],
    [safe_conversions.h] and [safe_conversions_arm_impl.h] for integral types:
    the range checks and their fast paths, the comparisons of mixed types, the
    promotions that the checked and clamped arithmetic computes in, and the
    casts.  What the templates select by the properties of types is computed
    here by functions on [int_type]; conversions that C++ inserts (promotion,
    the common type of operands) are written out. *)

From S2P Require Import Prelude.

(** What the preprocessor knows of the target. *)
Class Platform := {
  has_builtins : bool;     (* BASE_HAS_OPTIMIZED_SAFE_MATH: overflow builtins *)
  is_clang : bool;         (* __clang__ *)
  has_assembler : bool;    (* ARM: saturating instructions *)
  intptr_t : int_type
}.

(** [decltype(a + b)] for operands of types [A] and [B]. *)
Definition sum_type (A B : int_type) : int_type := common_type (promote A) (promote B).

(** A comparison [a op b] of operands of types [A] and [B]. *)
Definition rel (op : Z → Z → bool) (A B : int_type) (a b : Z) : bool :=
  op (convert (sum_type A B) a) (convert (sum_type A B) b).

(** [std::numeric_limits<T>::digits]. *)
Definition digits (T : int_type) : Z := if it_signed T then it_bits T - 1 else it_bits T.

Definition MaxExponent (NumericType : int_type) : Z := digits NumericType + 1.

Definition IntegerBitsPlusSign (NumericType : int_type) : Z :=
  digits NumericType + (if it_signed NumericType then 1 else 0).

Definition IsValueNegative (T : int_type) (value : Z) : bool :=
  if it_signed T then value <? 0 else false.

Definition ConditionalNegate (T : int_type) (x : Z) (is_negative : bool) : Z :=
  let SignedT := make_signed T in
  let UnsignedT := make_unsigned T in
  let C := sum_type UnsignedT (promote SignedT) in
  let n := if is_negative then 1 else 0 in
  convert SignedT (convert C (Z.lxor (convert C (convert UnsignedT x)) (convert C (- n)) + n)).

Definition SafeUnsignedAbs (T : int_type) (value : Z) : Z :=
  let UnsignedT := make_unsigned T in
  if IsValueNegative T value
  then convert UnsignedT (convert (sum_type uint32_t UnsignedT) (0 - convert UnsignedT value))
  else convert UnsignedT value.

(** ** Range relations *)

Inductive NumericRangeRepresentation := NUMERIC_RANGE_NOT_CONTAINED | NUMERIC_RANGE_CONTAINED.

(** The specialisations by signedness. *)
Definition StaticDstRangeRelationToSrcRange (Dst Src : int_type) : NumericRangeRepresentation :=
  match it_signed Dst, it_signed Src with
  | true, true | false, false =>
      if MaxExponent Dst >=? MaxExponent Src then NUMERIC_RANGE_CONTAINED else NUMERIC_RANGE_NOT_CONTAINED
  | true, false =>
      if MaxExponent Dst >? MaxExponent Src then NUMERIC_RANGE_CONTAINED else NUMERIC_RANGE_NOT_CONTAINED
  | false, true => NUMERIC_RANGE_NOT_CONTAINED
  end.

Definition IsTypeInRangeForNumericType (Dst Src : int_type) : bool :=
  match StaticDstRangeRelationToSrcRange Dst Src with
  | NUMERIC_RANGE_CONTAINED => true
  | NUMERIC_RANGE_NOT_CONTAINED => false
  end.

Record RangeCheck := mkRangeCheck { is_underflow_ : bool; is_overflow_ : bool }.

Definition RangeCheck_make (is_in_lower_bound is_in_upper_bound : bool) : RangeCheck :=
  mkRangeCheck (negb is_in_lower_bound) (negb is_in_upper_bound).
Definition IsValid (r : RangeCheck) : bool := negb (is_overflow_ r) && negb (is_underflow_ r).
Definition IsOverflow (r : RangeCheck) : bool := is_overflow_ r && negb (is_underflow_ r).
Definition IsUnderflow (r : RangeCheck) : bool := negb (is_overflow_ r) && is_underflow_ r.
Definition RangeCheck_eq (r s : RangeCheck) : bool :=
  Bool.eqb (is_underflow_ r) (is_underflow_ s) && Bool.eqb (is_overflow_ r) (is_overflow_ s).

(** [NarrowingRange]: the limits of [Dst] as far as [Src] can express them. *)
Definition kShift (Dst Src : int_type) : Z :=
  if (MaxExponent Src >? MaxExponent Dst) && (digits Src <? digits Dst) then digits Dst - digits Src else 0.

Definition Adjust (Dst Src : int_type) (value : Z) : Z :=
  let C := sum_type (make_unsigned Dst) (promote Dst) in
  let mask := Z.lnot (Z.shiftl 1 (kShift Dst Src) - 1) in
  convert Dst
    (ConditionalNegate C (Z.land (convert C (SafeUnsignedAbs Dst value)) (convert C mask))
       (IsValueNegative Dst value)).

Definition NarrowingRange_max (Dst Src : int_type) : Z := Adjust Dst Src (int_max Dst).
Definition NarrowingRange_lowest (Dst Src : int_type) : Z := Adjust Dst Src (int_min Dst).

(** The specialisations of [DstRangeRelationToSrcRangeImpl::Check]. *)
Definition DstRangeRelationToSrcRange (Dst Src : int_type) (value : Z) : RangeCheck :=
  let lowest := NarrowingRange_lowest Dst Src in
  let max := NarrowingRange_max Dst Src in
  let Promotion := sum_type Src Dst in
  match StaticDstRangeRelationToSrcRange Dst Src with
  | NUMERIC_RANGE_CONTAINED =>
      RangeCheck_make
        (rel Z.geb Dst Dst (convert Dst (int_min Src)) lowest || rel Z.geb Dst Dst (convert Dst value) lowest)
        (rel Z.leb Dst Dst (convert Dst (int_max Src)) max || rel Z.leb Dst Dst (convert Dst value) max)
  | NUMERIC_RANGE_NOT_CONTAINED =>
      match it_signed Dst, it_signed Src with
      | true, true => RangeCheck_make (rel Z.geb Src Dst value lowest) (rel Z.leb Src Dst value max)
      | false, false =>
          RangeCheck_make (rel Z.eqb Dst Dst lowest 0 || rel Z.geb Src Dst value lowest) (rel Z.leb Src Dst value max)
      | true, false =>
          RangeCheck_make (rel Z.leb Dst Dst lowest 0 || (convert Promotion value >=? convert Promotion lowest))
            (convert Promotion value <=? convert Promotion max)
      | false, true =>
          let ge_zero := rel Z.geb Src Src value 0 in
          RangeCheck_make (ge_zero && (rel Z.eqb Dst int32_t lowest 0 || rel Z.geb Dst Dst (convert Dst value) lowest))
            ((convert Promotion (int_max Src) <=? convert Promotion max)
             || (convert Promotion value <=? convert Promotion max))
      end
  end.

(** ** Comparisons of mixed types *)

Section Compare.
Variables L R : int_type.

Definition l_range (lhs : Z) : RangeCheck := DstRangeRelationToSrcRange R L lhs.
Definition r_range (rhs : Z) : RangeCheck := DstRangeRelationToSrcRange L R rhs.

Definition IsLess (lhs rhs : Z) : bool :=
  IsUnderflow (l_range lhs) || IsOverflow (r_range rhs) ||
  (RangeCheck_eq (l_range lhs) (r_range rhs) && rel Z.ltb L R lhs rhs).

Definition IsLessOrEqual (lhs rhs : Z) : bool :=
  IsUnderflow (l_range lhs) || IsOverflow (r_range rhs) ||
  (RangeCheck_eq (l_range lhs) (r_range rhs) && rel Z.leb L R lhs rhs).

Definition IsGreater (lhs rhs : Z) : bool :=
  IsOverflow (l_range lhs) || IsUnderflow (r_range rhs) ||
  (RangeCheck_eq (l_range lhs) (r_range rhs) && rel Z.gtb L R lhs rhs).

Definition IsGreaterOrEqual (lhs rhs : Z) : bool :=
  IsOverflow (l_range lhs) || IsUnderflow (r_range rhs) ||
  (RangeCheck_eq (l_range lhs) (r_range rhs) && rel Z.geb L R lhs rhs).

Definition IsEqual (lhs rhs : Z) : bool :=
  RangeCheck_eq (l_range lhs) (r_range rhs) && rel Z.eqb L R lhs rhs.

Definition IsNotEqual (lhs rhs : Z) : bool :=
  negb (RangeCheck_eq (l_range lhs) (r_range rhs)) || negb (rel Z.eqb L R lhs rhs).

End Compare.

(** ** Promotions *)

(** Types of twice the width exist up to 32 bits. *)
Definition TwiceWiderInteger (Integer : int_type) (IsSigned : bool) : int_type :=
  IntType (IntegerBitsPlusSign Integer * 2) IsSigned.

Definition MaxExponentPromotion (Lhs Rhs : int_type) : int_type :=
  if MaxExponent Lhs >? MaxExponent Rhs then Lhs else Rhs.

Definition LowestValuePromotion (Lhs Rhs : int_type) : int_type :=
  if it_signed Lhs
  then if it_signed Rhs then (if MaxExponent Lhs >? MaxExponent Rhs then Lhs else Rhs) else Lhs
  else if it_signed Rhs then Rhs else (if MaxExponent Lhs <? MaxExponent Rhs then Lhs else Rhs).

(** The type, and [is_contained]. *)
Definition BigEnoughPromotion (Lhs Rhs : int_type) : int_type * bool :=
  let M := MaxExponentPromotion Lhs Rhs in
  let is_intmax_type := IntegerBitsPlusSign M =? 64 in
  let is_max_exponent := IsTypeInRangeForNumericType M Lhs && IsTypeInRangeForNumericType M Rhs in
  if is_max_exponent then (M, true)
  else if is_intmax_type then (M, false)
  else (TwiceWiderInteger M (it_signed Lhs || it_signed Rhs), true).

Definition IsIntegerArithmeticSafe (T Lhs Rhs : int_type) : bool :=
  implb (it_signed Lhs) (it_signed T) && (IntegerBitsPlusSign T >=? 2 * IntegerBitsPlusSign Lhs) &&
  implb (it_signed Rhs) (it_signed T) && (IntegerBitsPlusSign T >=? 2 * IntegerBitsPlusSign Rhs).

Definition FastIntegerArithmeticPromotion (Lhs Rhs : int_type) : int_type * bool :=
  let M := MaxExponentPromotion Lhs Rhs in
  let is_signed := it_signed Lhs || it_signed Rhs in
  if IsIntegerArithmeticSafe (if is_signed then int64_t else uint64_t) M M
  then (TwiceWiderInteger M is_signed, true)
  else (fst (BigEnoughPromotion Lhs Rhs), false).

Definition as_signed (Src : int_type) (value : Z) : Z := convert (make_signed Src) value.
Definition as_unsigned (Src : int_type) (value : Z) : Z := convert (make_unsigned Src) value.

(** [SafeCompare<C, L, R>]. *)
Definition SafeCompare (C : int_type → int_type → Z → Z → bool) (L R : int_type) (lhs rhs : Z) : bool :=
  let '(BigType, is_contained) := BigEnoughPromotion L R in
  if is_contained : bool
  then C BigType BigType (convert BigType (convert L lhs)) (convert BigType (convert R rhs))
  else C L R lhs rhs.

Definition IsMaxInRangeForNumericType (Dst Src : int_type) : bool :=
  IsGreaterOrEqual Dst Src (int_max Dst) (int_max Src).
Definition IsMinInRangeForNumericType (Dst Src : int_type) : bool :=
  IsLessOrEqual Dst Src (int_min Dst) (int_min Src).

Definition CommonMax (Dst Src : int_type) : Z :=
  if negb (IsMaxInRangeForNumericType Dst Src) then int_max Dst else convert Dst (int_max Src).
Definition CommonMin (Dst Src : int_type) : Z :=
  if negb (IsMinInRangeForNumericType Dst Src) then int_min Dst else convert Dst (int_min Src).
Definition CommonMaxOrMin (Dst Src : int_type) (is_min : bool) : Z :=
  if is_min then CommonMin Dst Src else CommonMax Dst Src.

(** ** Casts *)

(** The specialisations of [IsValueInRangeFastOp]; [None] if not supported. *)
Definition IsValueInRangeFastOp (Dst Src : int_type) (value : Z) : option bool :=
  if it_signed Src && negb (IsTypeInRangeForNumericType Dst Src) then
    Some (if it_signed Dst
          then rel Z.eqb Src Dst value (convert Dst value)
          else rel Z.leb (make_unsigned Src) (make_unsigned Src)
                 (as_unsigned Src value) (as_unsigned Src (CommonMax Src Dst)))
  else None.

Definition IsValueInRangeForNumericType (Dst Src : int_type) (value : Z) : bool :=
  match IsValueInRangeFastOp Dst Src value with
  | Some b => b
  | None => IsValid (DstRangeRelationToSrcRange Dst Src value)
  end.

(** [CheckOnFailure] stops the program. *)
Definition checked_cast (Dst Src : int_type) (value : Z) : outcome Z :=
  if IsValueInRangeForNumericType Dst Src value then Ret (convert Dst value) else Crash CheckFailed.

Definition saturated_cast_impl (Dst : int_type) (value : Z) (constraint : RangeCheck) : Z :=
  if negb (is_overflow_ constraint)
  then if negb (is_underflow_ constraint) then convert Dst value else int_min Dst
  else int_max Dst.

(** The instructions [ssat] and [usat]. *)
Definition ssat (shift src : Z) : Z := Z.max (- 2 ^ (shift - 1)) (Z.min src (2 ^ (shift - 1) - 1)).
Definition usat (shift src : Z) : Z := Z.max 0 (Z.min src (2 ^ shift - 1)).

Section Saturate.
Context {pf : Platform}.

Definition SaturateFastAsmOp_is_supported (Dst Src : int_type) : bool :=
  has_assembler && it_signed Src && (IntegerBitsPlusSign Src <=? 32) && (IntegerBitsPlusSign Dst <=? 32) &&
  negb (IsTypeInRangeForNumericType Dst Src).

Definition SaturateFastAsmOp_Do (Dst Src : int_type) (value : Z) : Z :=
  let src := convert int32_t value in
  let bits := IntegerBitsPlusSign Dst in
  convert Dst (if it_signed Dst then ssat (if bits <=? 32 then bits else 32) src
               else usat (if bits <? 32 then bits else 31) src).

Definition SaturateFastOp (Dst Src : int_type) (value : Z) : Z :=
  if SaturateFastAsmOp_is_supported Dst Src then SaturateFastAsmOp_Do Dst Src value else
  let saturated :=
    CommonMaxOrMin Dst Src
      (IsMaxInRangeForNumericType Dst Src ||
       (negb (IsMinInRangeForNumericType Dst Src) && IsValueNegative Src value)) in
  if IsValueInRangeForNumericType Dst Src value then convert Dst value else saturated.

(** [constant] is [IsCompileTimeConstant(value)]. *)
Definition saturated_cast (constant : bool) (Dst Src : int_type) (value : Z) : Z :=
  if negb constant then SaturateFastOp Dst Src value
  else saturated_cast_impl Dst value (DstRangeRelationToSrcRange Dst Src value).

End Saturate.

(** [static_assert] is a condition on the types. *)
Definition strict_cast_compiles (Dst Src : int_type) : bool := IsTypeInRangeForNumericType Dst Src.
Definition strict_cast (Dst Src : int_type) (value : Z) : Z := convert Dst value.

(** ** Case analysis on the standard types *)

Ltac std_cases H :=
  unfold is_std, std_types in H; cbn [In] in H;
  repeat match type of H with
  | _ ∨ _ => destruct H as [<-|H]
  | False => destruct H
  end.

(** A boolean property of two standard types holds if it does for all of them. *)
Definition all_pairs (f : int_type → int_type → bool) : bool := forallb (λ A, forallb (f A) std_types) std_types.

Lemma all_pairs_std f A B : all_pairs f = true → is_std A → is_std B → f A B = true.
Proof.
  unfold all_pairs. rewrite forallb_forall. intros Hf HA HB. specialize (Hf A HA). cbv beta in Hf.
  rewrite forallb_forall in Hf. by apply Hf.
Qed.

Lemma NarrowingRange_limits Dst Src : is_std Dst → is_std Src →
  NarrowingRange_max Dst Src = int_max Dst ∧ NarrowingRange_lowest Dst Src = int_min Dst.
Proof.
  intros HD HS.
  assert ((NarrowingRange_max Dst Src =? int_max Dst) && (NarrowingRange_lowest Dst Src =? int_min Dst) = true) as H.
  { apply (all_pairs_std (λ Dst Src, (NarrowingRange_max Dst Src =? int_max Dst) &&
      (NarrowingRange_lowest Dst Src =? int_min Dst))); [by vm_compute|done..]. }
  apply andb_true_iff in H as [?%Z.eqb_eq ?%Z.eqb_eq]. done.
Qed.

Definition range_spec (Dst : int_type) (v : Z) : RangeCheck :=
  RangeCheck_make (int_min Dst <=? v) (v <=? int_max Dst).

(** Constants of concrete types are computed, conversions become arithmetic. *)
Ltac compute_term t := let c := eval vm_compute in t in change t with c in *.

Ltac compute_types :=
  repeat match goal with
  | H : context [int_min ?T] |- _ => compute_term (int_min T)
  | H : context [int_max ?T] |- _ => compute_term (int_max T)
  | |- context [int_min ?T] => compute_term (int_min T)
  | |- context [int_max ?T] => compute_term (int_max T)
  | |- context [StaticDstRangeRelationToSrcRange ?A ?B] => compute_term (StaticDstRangeRelationToSrcRange A B)
  | |- context [sum_type ?A ?B] => compute_term (sum_type A B)
  | |- context [it_signed ?A] => compute_term (it_signed A)
  | |- context [IntegerBitsPlusSign ?A] => compute_term (IntegerBitsPlusSign A)
  | |- context [digits ?A] => compute_term (digits A)
  | |- context [2 ^ (it_bits ?A - 1)] => compute_term (2 ^ (it_bits A - 1))
  | |- context [2 ^ it_bits ?A] => compute_term (2 ^ it_bits A)
  | |- context [convert ?T ?z] =>
      let T' := eval cbv in T in
      lazymatch T' with
      | IntType ?w true => let a := eval vm_compute in (2 ^ (w - 1)) in let b := eval vm_compute in (2 ^ w) in
          change (convert T z) with ((z + a) mod b - a)
      | IntType ?w false => let b := eval vm_compute in (2 ^ w) in change (convert T z) with (z mod b)
      end
  end.

(** An equality of booleans made of comparisons. *)
Ltac bool_arith := apply Bool.eq_true_iff_eq; Z.to_euclidean_division_equations; lia.

Lemma DstRangeRelation_spec Dst Src v : is_std Dst → is_std Src → values Src v →
  DstRangeRelationToSrcRange Dst Src v = range_spec Dst v.
Proof.
  intros HD HS Hv. unfold DstRangeRelationToSrcRange.
  destruct (NarrowingRange_limits Dst Src HD HS) as [-> ->].
  unfold range_spec, RangeCheck_make, values, rel in *.
  std_cases HD; std_cases HS; compute_types; f_equal; f_equal; bool_arith.
Qed.

(** ** The comparisons are those of the integers *)

(** A value that two types share is one of the type that they are compared in. *)
Lemma sum_type_values A B z : is_std A → is_std B → values A z → values B z → values (sum_type A B) z.
Proof. intros HA HB. unfold values. std_cases HA; std_cases HB; compute_types; lia. Qed.

Lemma std_bits T : is_std T → 0 < it_bits T.
Proof. intros HT. by std_cases HT. Qed.

Lemma sum_type_std A B : is_std A → is_std B → is_std (sum_type A B).
Proof. intros HA HB. std_cases HA; std_cases HB; unfold is_std, std_types; simpl; tauto. Qed.

Lemma rel_exact op A B a b : is_std A → is_std B → values A a → values B a → values A b → values B b →
  rel op A B a b = op a b.
Proof.
  intros HA HB ????. pose proof (std_bits _ (sum_type_std A B HA HB)). unfold rel.
  by rewrite !convert_in_range by (try done; by apply sum_type_values).
Qed.

Section Exact.
Context (L R : int_type) (HL : is_std L) (HR : is_std R) (l r : Z) (Hl : values L l) (Hr : values R r).

(** Either one operand is out of the other type's range, which decides, or
    both are shared values. *)
Lemma compare_cases :
  l_range L R l = range_spec R l ∧ r_range L R r = range_spec L r ∧
  (RangeCheck_eq (range_spec R l) (range_spec L r) = true →
   ∀ op, rel op L R l r = op l r).
Proof.
  unfold l_range, r_range. rewrite !DstRangeRelation_spec by done. split_and!; [done..|].
  intros Heq op. apply rel_exact; try done; unfold values, range_spec, RangeCheck_eq, RangeCheck_make in *; simpl in *.
  all: destruct (Z.leb_spec (int_min R) l), (Z.leb_spec l (int_max R)), (Z.leb_spec (int_min L) r),
    (Z.leb_spec r (int_max L)); simpl in Heq; try done; lia.
Qed.

Ltac compare_exact :=
  unfold IsLess, IsLessOrEqual, IsGreater, IsGreaterOrEqual, IsEqual, IsNotEqual;
  destruct compare_cases as (-> & -> & Hrel);
  destruct (RangeCheck_eq (range_spec R l) (range_spec L r)) eqn:E;
  [rewrite Hrel by done|]; clear Hrel;
  unfold values, range_spec, RangeCheck_eq, RangeCheck_make, IsOverflow, IsUnderflow in *; simpl in *;
  apply Bool.eq_true_iff_eq; lia.

Lemma IsLess_exact : IsLess L R l r = (l <? r).
Proof. compare_exact. Qed.
Lemma IsLessOrEqual_exact : IsLessOrEqual L R l r = (l <=? r).
Proof. compare_exact. Qed.
Lemma IsGreater_exact : IsGreater L R l r = (r <? l).
Proof. compare_exact. Qed.
Lemma IsGreaterOrEqual_exact : IsGreaterOrEqual L R l r = (r <=? l).
Proof. compare_exact. Qed.
Lemma IsEqual_exact : IsEqual L R l r = (l =? r).
Proof. compare_exact. Qed.
Lemma IsNotEqual_exact : IsNotEqual L R l r = negb (l =? r).
Proof. compare_exact. Qed.

End Exact.

(** ** The casts *)

Lemma limits_order T : is_std T → int_min T ≤ 0 < int_max T.
Proof. intros HT. std_cases HT; by vm_compute. Qed.

Lemma values_limits T : is_std T → values T (int_max T) ∧ values T (int_min T).
Proof. intros HT. pose proof (limits_order T HT). unfold values. lia. Qed.

Definition clamp (T : int_type) (z : Z) : Z := Z.max (int_min T) (Z.min z (int_max T)).

Lemma clamp_id T z : values T z → clamp T z = z.
Proof. unfold values, clamp. lia. Qed.

Lemma std_convert T z : is_std T → values T z → convert T z = z.
Proof. intros HT. apply convert_in_range. by apply std_bits. Qed.

Section Casts.
Context (Dst Src : int_type) (HD : is_std Dst) (HS : is_std Src).

Lemma IsMaxInRange_spec : IsMaxInRangeForNumericType Dst Src = (int_max Src <=? int_max Dst).
Proof. unfold IsMaxInRangeForNumericType. apply IsGreaterOrEqual_exact; try done; by apply values_limits. Qed.

Lemma IsMinInRange_spec : IsMinInRangeForNumericType Dst Src = (int_min Dst <=? int_min Src).
Proof. unfold IsMinInRangeForNumericType. apply IsLessOrEqual_exact; try done; by apply values_limits. Qed.

Lemma CommonMax_spec : CommonMax Dst Src = Z.min (int_max Dst) (int_max Src).
Proof.
  unfold CommonMax. rewrite IsMaxInRange_spec. pose proof (limits_order Dst HD). pose proof (limits_order Src HS).
  destruct (Z.leb_spec (int_max Src) (int_max Dst)); simpl; [|lia]. rewrite std_convert; [lia|done|]. unfold values. lia.
Qed.

Lemma CommonMin_spec : CommonMin Dst Src = Z.max (int_min Dst) (int_min Src).
Proof.
  unfold CommonMin. rewrite IsMinInRange_spec. pose proof (limits_order Dst HD). pose proof (limits_order Src HS).
  destruct (Z.leb_spec (int_min Dst) (int_min Src)); simpl; [|lia]. rewrite std_convert; [lia|done|]. unfold values. lia.
Qed.

End Casts.

Lemma InRange_spec Dst Src v : is_std Dst → is_std Src → values Src v →
  IsValueInRangeForNumericType Dst Src v = in_range Dst v.
Proof.
  intros HD HS Hv. unfold IsValueInRangeForNumericType, IsValueInRangeFastOp. rewrite DstRangeRelation_spec by done.
  rewrite (CommonMax_spec Src Dst) by done. unfold range_spec, RangeCheck_make, IsValid, in_range.
  unfold IsTypeInRangeForNumericType, values, rel, as_unsigned in *.
  std_cases HD; std_cases HS; compute_types; cbn [andb negb]; cbv iota; simpl is_overflow_; simpl is_underflow_; bool_arith.
Qed.

Lemma in_range_cases Dst v : in_range Dst v = true ∧ values Dst v ∨ in_range Dst v = false ∧ (v < int_min Dst ∨ int_max Dst < v).
Proof. unfold in_range, values. lia. Qed.

Lemma saturated_spec {pf : Platform} constant Dst Src v : is_std Dst → is_std Src → values Src v →
  saturated_cast constant Dst Src v = clamp Dst v.
Proof.
  intros HD HS Hv.
  pose proof (limits_order Dst HD). pose proof (limits_order Src HS). destruct constant; unfold saturated_cast; simpl negb.
  - cbv iota. rewrite DstRangeRelation_spec by done. unfold saturated_cast_impl, range_spec, RangeCheck_make, clamp. simpl.
    destruct (Z.leb_spec v (int_max Dst)), (Z.leb_spec (int_min Dst) v); simpl; try lia.
    rewrite std_convert; [lia|done|]. unfold values. lia.
  - cbv iota. unfold SaturateFastOp. destruct (SaturateFastAsmOp_is_supported Dst Src) eqn:E.
    + clear H H0. unfold SaturateFastAsmOp_is_supported in E. unfold SaturateFastAsmOp_Do, clamp, ssat, usat, values in *.
      destruct has_assembler; [|done].
      std_cases HD; std_cases HS; try (by vm_compute in E).
      all: compute_types; simpl; Z.to_euclidean_division_equations; lia.
    + rewrite InRange_spec, IsMaxInRange_spec, IsMinInRange_spec by done. unfold CommonMaxOrMin.
      rewrite CommonMax_spec, CommonMin_spec by done.
      destruct (in_range_cases Dst v) as [[-> Hin]|[-> Hout]].
      { by rewrite std_convert, clamp_id. }
      clear E. unfold clamp, IsValueNegative, values in *.
      destruct (it_signed Src) eqn:Es.
      * repeat (zcase; simpl); lia.
      * assert (int_min Src = 0) by (unfold int_min; by rewrite Es). repeat (zcase; simpl); lia.
Qed.

(** ** Promotions *)

(** [A] holds every value of [B]. *)
Definition contains (A B : int_type) : bool := (int_min A <=? int_min B) && (int_max B <=? int_max A).

Lemma contains_values A B z : contains A B = true → values B z → values A z.
Proof. unfold contains, values. lia. Qed.

Definition is_std_b (T : int_type) : bool :=
  existsb (λ A, (it_bits T =? it_bits A) && Bool.eqb (it_signed T) (it_signed A)) std_types.

Lemma is_std_b_spec T : is_std_b T = true → is_std T.
Proof.
  unfold is_std_b. rewrite existsb_exists. intros (A & HA & H). apply andb_true_iff in H as [H1%Z.eqb_eq H2%Bool.eqb_prop].
  destruct T, A. simpl in *. by subst.
Qed.

(** What the promotions guarantee, checked for all pairs of types. *)
Definition promotion_laws (L R : int_type) : bool :=
  let M := MaxExponentPromotion L R in
  let W := LowestValuePromotion L R in
  let '(B, contained) := BigEnoughPromotion L R in
  let '(F, safe) := FastIntegerArithmeticPromotion L R in
  is_std_b M && is_std_b W && is_std_b B && is_std_b F &&
  (int_max L <=? int_max M) && (int_max R <=? int_max M) &&
  (int_min W <=? int_min L) && (int_min W <=? int_min R) &&
  (* a type that is not big enough is the widest unsigned type *)
  (if contained then contains B L && contains B R
   else (it_bits B =? 64) && negb (it_signed B) && (it_signed L || it_signed R)) &&
  (if safe then contains F L && contains F R && (it_bits F >=? 2 * it_bits L) && (it_bits F >=? 2 * it_bits R) &&
                (it_bits F >=? 2 * it_bits M) && Bool.eqb (it_signed F) (it_signed L || it_signed R)
   else (it_bits F =? it_bits B) && Bool.eqb (it_signed F) (it_signed B) && (it_bits B =? 64)) &&
  Bool.eqb (IsIntegerArithmeticSafe F L R) safe.

Lemma promotion_laws_std L R : is_std L → is_std R → promotion_laws L R = true.
Proof. intros. apply all_pairs_std; [by vm_compute|done..]. Qed.

(** ** Properties *)

(** Range checks and casts of the base library are exact for every pair
    of standard integer types: [IsValueInRangeForNumericType] (with its fast
    paths) tells whether the destination type has the value; [checked_cast]
    returns the value unchanged or stops the program; [saturated_cast] returns
    the nearest value of the destination type, for constants and for run-time
    values, with and without the saturating instructions of ARM. *)
Theorem base_casts_exact (Dst Src : int_type) (v : Z) :
  is_std Dst → is_std Src → values Src v →
  IsValueInRangeForNumericType Dst Src v = in_range Dst v ∧
  checked_cast Dst Src v = (if in_range Dst v then Ret v else Crash CheckFailed) ∧
  (∀ (pf : Platform) constant, saturated_cast constant Dst Src v = Z.max (int_min Dst) (Z.min v (int_max Dst))) ∧
  (strict_cast_compiles Dst Src = true → strict_cast Dst Src v = v).
Proof.
  intros HD HS Hv. split_and!.
  - by apply InRange_spec.
  - unfold checked_cast. rewrite InRange_spec by done.
    destruct (in_range_cases Dst v) as [[-> ?]|[-> _]]; [|done]. by rewrite std_convert.
  - intros. by apply saturated_spec.
  - intros Hc. unfold strict_cast. apply std_convert; [done|]. revert Hc Hv.
    unfold strict_cast_compiles, IsTypeInRangeForNumericType, values.
    std_cases HD; std_cases HS; compute_types; cbv iota; (lia || done).
Qed.

(** The six comparisons and what they stand for. *)
Definition comparisons : list ((int_type → int_type → Z → Z → bool) * (Z → Z → bool)) :=
  [(IsLess, Z.ltb); (IsLessOrEqual, Z.leb); (IsGreater, λ a b, b <? a); (IsGreaterOrEqual, λ a b, b <=? a);
   (IsEqual, Z.eqb); (IsNotEqual, λ a b, negb (a =? b))].

(** Comparing values of any two integer types compares the integers: the
    six comparisons behind [SafeCompare] (used by the operators of the strict
    and clamped numerics) agree with the order of the integers, whether or not
    a common larger type exists. *)
Theorem base_compare_exact (L R : int_type) (l r : Z) :
  is_std L → is_std R → values L l → values R r →
  Forall (λ '(C, op), C L R l r = op l r ∧ SafeCompare C L R l r = op l r) comparisons.
Proof.
  intros HL HR Hl Hr. pose proof (promotion_laws_std L R HL HR) as Hp. unfold promotion_laws in Hp. unfold SafeCompare.
  destruct (BigEnoughPromotion L R) as [B contained], (FastIntegerArithmeticPromotion L R) as [F safe].
  rewrite !andb_true_iff in Hp. destruct Hp as [[[[[[[[[[_ _] HB] _] _] _] _] _] Hc] _] _]. apply is_std_b_spec in HB.
  rewrite (std_convert L), (std_convert R) by done.
  assert (contained = true → values B l ∧ values B r) as HBv.
  { intros ->. apply andb_true_iff in Hc as [? ?]. by split; [apply (contains_values B L)|apply (contains_values B R)]. }
  unfold comparisons. destruct contained.
  1: destruct HBv as [? ?]; [done|]; rewrite !(std_convert B) by done.
  all: repeat apply list.Forall_cons_2; try apply list.Forall_nil_2; split; auto using
    IsLess_exact, IsLessOrEqual_exact, IsGreater_exact, IsGreaterOrEqual_exact, IsEqual_exact, IsNotEqual_exact.
Qed.

(** ** Witnesses *)

Lemma base_casts_exact_witness :
  IsValueInRangeForNumericType uint16_t int32_t (-5) = false ∧
  (∀ (pf : Platform) constant, saturated_cast constant uint16_t int32_t (-5) = 0).
Proof.
  destruct (base_casts_exact uint16_t int32_t (-5)) as (H1 & _ & H2 & _);
    [unfold is_std, std_types; simpl; tauto..|by vm_compute|]. split; [by rewrite H1|]. intros. by rewrite H2.
Defined.

Lemma base_compare_exact_witness :
  SafeCompare IsLess int64_t uint64_t (-1) 5 = true ∧ SafeCompare IsEqual int8_t uint32_t (-1) 4294967295 = false.
Proof.
  assert (is_std int64_t ∧ is_std uint64_t ∧ is_std int8_t ∧ is_std uint32_t) as (? & ? & ? & ?)
    by (unfold is_std, std_types; simpl; tauto).
  assert (∀ t z, in_range t z = true → values t z) as Hr by (intros; by apply in_range_spec).
  split.
  - pose proof (base_compare_exact int64_t uint64_t (-1) 5) as H3.
    do 4 (specialize (H3 ltac:(first [done | apply Hr; by vm_compute]))).
    apply list.Forall_cons in H3 as [[_ ->] _]. done.
  - pose proof (base_compare_exact int8_t uint32_t (-1) 4294967295) as H3.
    do 4 (specialize (H3 ltac:(first [done | apply Hr; by vm_compute]))).
    unfold comparisons in H3. do 4 apply list.Forall_cons in H3 as [_ H3].
    apply list.Forall_cons in H3 as [[_ ->] _]. done.
Defined.
