(* ===== verification/CheckedMath.v ===== *)
(** * Checked arithmetic

    Model of [src/include/base/numerics/checked_math_impl.h],
    [checked_math.h], and of the parts of [safe_math_shared_impl.h],
    [safe_math_clang_gcc_impl.h] and [safe_math_arm_impl.h] they use, for
    integral types.  An operation [Do(x, y, &result)] takes what [*result]
    holds and returns the flag with what it holds afterwards.  The overflow
    builtins of the compilers compute as documented: the exact result, its
    conversion to the type of [*result], and whether that changed it. *)

From S2P Require Import Prelude BaseNumerics.

(** [x % y] of C++, undefined where the quotient is. *)
Definition c_rem (t : int_type) (n d : Z) : outcome Z := _ ← c_div t n d; Ret (Z.rem n d).

Section CheckedOps.
Context {pf : Platform}.

Definition uintptr_t : int_type := make_unsigned intptr_t.

(** [*result] is assigned the value of type [Src] if [V] can hold it. *)
Definition assign_in_range (V Src : int_type) (value result : Z) : bool * Z :=
  if IsValueInRangeForNumericType V Src value then (true, convert V value) else (false, result).

Definition builtin_overflow (V : int_type) (exact : Z) : outcome (bool * Z) :=
  Ret (in_range V exact, convert V exact).

(** ** Addition *)

Definition CheckedAddImpl (T : int_type) (x y result : Z) : bool * Z :=
  let UnsignedDst := make_unsigned T in
  let SignedDst := make_signed T in
  let ux := convert UnsignedDst x in
  let uy := convert UnsignedDst y in
  let uresult := convert UnsignedDst (ux + uy) in
  if (if it_signed T
      then convert SignedDst (Z.land (Z.lxor uresult ux) (Z.lxor uresult uy)) <? 0
      else uresult <? uy)
  then (false, result) else (true, convert T uresult).

(** The type that sums and differences are computed in. *)
Definition AddPromotion (T U : int_type) : int_type :=
  let FastPromotion := fst (FastIntegerArithmeticPromotion T U) in
  if IntegerBitsPlusSign FastPromotion >? IntegerBitsPlusSign intptr_t
  then fst (BigEnoughPromotion T U) else FastPromotion.

Definition CheckedAddOp (T U V : int_type) (x y result : Z) : outcome (bool * Z) :=
  if has_builtins then builtin_overflow V (x + y) else
  let Promotion := AddPromotion T U in
  if negb (IsValueInRangeForNumericType Promotion T x) || negb (IsValueInRangeForNumericType Promotion U y)
  then Ret (false, result) else
  '(is_valid, presult) ←
    (if IsIntegerArithmeticSafe Promotion T U
     then r ← arith (sum_type Promotion Promotion) (convert Promotion x + convert Promotion y);
          Ret (true, convert Promotion r)
     else Ret (CheckedAddImpl Promotion (convert Promotion x) (convert Promotion y) 0));
  Ret (if negb is_valid then (false, result) else assign_in_range V Promotion presult result).

(** ** Subtraction *)

Definition CheckedSubImpl (T : int_type) (x y result : Z) : bool * Z :=
  let UnsignedDst := make_unsigned T in
  let SignedDst := make_signed T in
  let ux := convert UnsignedDst x in
  let uy := convert UnsignedDst y in
  let uresult := convert UnsignedDst (ux - uy) in
  if (if it_signed T
      then convert SignedDst (Z.land (Z.lxor uresult ux) (Z.lxor ux uy)) <? 0
      else x <? y)
  then (false, result) else (true, convert T uresult).

Definition CheckedSubOp (T U V : int_type) (x y result : Z) : outcome (bool * Z) :=
  if has_builtins then builtin_overflow V (x - y) else
  let Promotion := AddPromotion T U in
  if negb (IsValueInRangeForNumericType Promotion T x) || negb (IsValueInRangeForNumericType Promotion U y)
  then Ret (false, result) else
  '(is_valid, presult) ←
    (if IsIntegerArithmeticSafe Promotion T U
     then r ← arith (sum_type Promotion Promotion) (convert Promotion x - convert Promotion y);
          Ret (true, convert Promotion r)
     else Ret (CheckedSubImpl Promotion (convert Promotion x) (convert Promotion y) 0));
  Ret (if negb is_valid then (false, result) else assign_in_range V Promotion presult result).

(** ** Multiplication *)

Definition CheckedMulImpl (T : int_type) (x y result : Z) : outcome (bool * Z) :=
  let UnsignedDst := make_unsigned T in
  let SignedDst := make_signed T in
  let ux := SafeUnsignedAbs T x in
  let uy := SafeUnsignedAbs T y in
  p ← arith (sum_type UnsignedDst UnsignedDst) (ux * uy);
  let uresult := convert UnsignedDst p in
  let is_negative := it_signed T && (convert SignedDst (Z.lxor x y) <? 0) in
  let C := sum_type T UnsignedDst in
  let bound := convert C (int_max T + (if is_negative then 1 else 0)) in
  if (uy >? (if negb (it_signed T) || is_negative then 1 else 0)) && (ux >? Z.quot bound uy)
  then Ret (false, result)
  else Ret (true, convert T (if is_negative then convert (sum_type int32_t UnsignedDst) (0 - uresult) else uresult)).

Definition CheckedMulFastAsmOp_is_supported (T U : int_type) : bool :=
  has_assembler && snd (FastIntegerArithmeticPromotion T U).

Definition CheckedMulFastAsmOp (T U V : int_type) (x y result : Z) : outcome (bool * Z) :=
  let Promotion := fst (FastIntegerArithmeticPromotion T U) in
  r ← arith (sum_type Promotion Promotion) (convert Promotion x * convert Promotion y);
  Ret (assign_in_range V Promotion (convert Promotion r) result).

Definition CheckedMulFastOp_is_supported (T U : int_type) : bool :=
  has_builtins &&
  (negb is_clang ||
   (IsTypeInRangeForNumericType intptr_t T && IsTypeInRangeForNumericType intptr_t U) ||
   (IsTypeInRangeForNumericType uintptr_t T && IsTypeInRangeForNumericType uintptr_t U)).

Definition CheckedMulFastOp (T U V : int_type) (x y result : Z) : outcome (bool * Z) :=
  if CheckedMulFastAsmOp_is_supported T U then CheckedMulFastAsmOp T U V x y result
  else builtin_overflow V (x * y).

Definition CheckedMulOp (T U V : int_type) (x y result : Z) : outcome (bool * Z) :=
  if CheckedMulFastOp_is_supported T U then CheckedMulFastOp T U V x y result else
  let Promotion := fst (FastIntegerArithmeticPromotion T U) in
  if (negb (IsValueInRangeForNumericType Promotion T x) || negb (IsValueInRangeForNumericType Promotion U y))
     && negb (x =? 0) && negb (y =? 0)
  then Ret (false, result) else
  '(is_valid, presult) ←
    (if CheckedMulFastOp_is_supported Promotion Promotion
     then CheckedMulFastOp Promotion Promotion Promotion (convert Promotion x) (convert Promotion y) 0
     else if IsIntegerArithmeticSafe Promotion T U
     then r ← arith (sum_type Promotion Promotion) (convert Promotion x * convert Promotion y);
          Ret (true, convert Promotion r)
     else CheckedMulImpl Promotion (convert Promotion x) (convert Promotion y) 0);
  Ret (if negb is_valid then (false, result) else assign_in_range V Promotion presult result).

(** ** Division *)

(** The one combination whose quotient overflows. *)
Definition min_by_minus_one (T U Promotion : int_type) (x y : Z) : bool :=
  it_signed T && it_signed U && IsTypeInRangeForNumericType T Promotion &&
  rel Z.eqb Promotion Promotion (convert Promotion x) (int_min Promotion) && rel Z.eqb U U y (convert U (-1)).

Definition CheckedDivOp (T U V : int_type) (x y result : Z) : outcome (bool * Z) :=
  if y =? 0 then Ret (false, result) else
  let Promotion := fst (BigEnoughPromotion T U) in
  if min_by_minus_one T U Promotion x y then Ret (false, result) else
  if (negb (IsValueInRangeForNumericType Promotion T x) || negb (IsValueInRangeForNumericType Promotion U y))
     && negb (x =? 0)
  then Ret (false, result) else
  q ← c_div (sum_type Promotion Promotion) (convert Promotion x) (convert Promotion y);
  Ret (assign_in_range V Promotion (convert Promotion q) result).

Definition CheckedModOp (T U V : int_type) (x y result : Z) : outcome (bool * Z) :=
  if y =? 0 then Ret (false, result) else
  let Promotion := fst (BigEnoughPromotion T U) in
  if min_by_minus_one T U Promotion x y then Ret (true, 0) else
  r ← c_rem (sum_type Promotion Promotion) (convert Promotion x) (convert Promotion y);
  Ret (assign_in_range V Promotion (convert Promotion r) result).

(** ** Shifts *)

Definition CheckedLshOp (T U V : int_type) (x shift result : Z) : outcome (bool * Z) :=
  if negb (IsValueNegative T x) && rel Z.ltb (make_unsigned U) uint32_t (as_unsigned U shift) (as_unsigned int32_t (digits T))
  then r ← shl (promote (make_unsigned T)) (as_unsigned T x) shift;
       let result := convert V r in
       back ← shr (promote V) result shift;
       Ret (rel Z.eqb V T back x, result)
  else if negb (it_signed T) || negb (x =? 0) ||
          rel (λ a b, negb (a =? b)) (make_unsigned U) uint32_t (as_unsigned U shift) (as_unsigned int32_t (digits T))
  then Ret (false, result) else Ret (true, 0).

Definition CheckedRshOp (T U V : int_type) (x shift result : Z) : outcome (bool * Z) :=
  if rel Z.geb (make_unsigned U) int32_t (as_unsigned U shift) (IntegerBitsPlusSign T) then Ret (false, result) else
  tmp ← shr (promote T) x shift;
  Ret (assign_in_range V T (convert T tmp) result).

(** ** Bitwise operations *)

Definition bitwise_type (T U : int_type) : int_type := make_unsigned (MaxExponentPromotion T U).

Definition CheckedBitOp (f : Z → Z → Z) (T U V : int_type) (x y result : Z) : outcome (bool * Z) :=
  let result_type := bitwise_type T U in
  Ret (assign_in_range V result_type (f (convert result_type x) (convert result_type y)) result).

Definition CheckedAndOp := CheckedBitOp Z.land.
Definition CheckedOrOp := CheckedBitOp Z.lor.
Definition CheckedXorOp := CheckedBitOp Z.lxor.

(** ** Maximum and minimum *)

Definition CheckedMaxOp (T U V : int_type) (x y result : Z) : outcome (bool * Z) :=
  let result_type := MaxExponentPromotion T U in
  let tmp := if IsGreater T U x y then convert result_type x else convert result_type y in
  Ret (assign_in_range V result_type tmp result).

Definition CheckedMinOp (T U V : int_type) (x y result : Z) : outcome (bool * Z) :=
  let result_type := LowestValuePromotion T U in
  let tmp := if IsLess T U x y then convert result_type x else convert result_type y in
  Ret (assign_in_range V result_type tmp result).

End CheckedOps.

(** ** The primitive operations *)

(** The flag is [ok], and [*result] is [v] if it is set. *)
Definition does (o : outcome (bool * Z)) (ok : bool) (v : Z) : Prop :=
  ∃ r, o = Ret (ok, r) ∧ (ok = true → r = v).

Lemma testbit_top w z : 0 < w → 0 ≤ z < 2 ^ w → Z.testbit z (w - 1) = (2 ^ (w - 1) <=? z).
Proof.
  intros Hw Hz. pose proof (pow2_half w Hw). assert (0 < 2 ^ (w - 1)) by (apply pow2_pos; lia).
  rewrite Z.testbit_eqb by lia. destruct (Z.leb_spec (2 ^ (w - 1)) z).
  - replace (z / 2 ^ (w - 1)) with 1 by (apply Z.div_unique with (z - 2 ^ (w - 1)); lia). done.
  - rewrite Z.div_small by lia. done.
Qed.

Lemma sign_bit w z : 0 < w → 0 ≤ z < 2 ^ w → (wrapS w z <? 0) = Z.testbit z (w - 1).
Proof.
  intros Hw Hz. rewrite testbit_top by done. pose proof (pow2_half w Hw). unfold wrapS.
  destruct (Z.leb_spec (2 ^ (w - 1)) z).
  - rewrite (mod_unique_range _ _ (z - 2 ^ (w - 1)) 1) by lia. apply Z.ltb_lt. lia.
  - rewrite Z.mod_small by lia. apply Z.ltb_ge. lia.
Qed.

(** The sign of [(a ^ b) & (c ^ d)]. *)
Lemma sign_land_lxor w a b c d :
  0 < w → 0 ≤ a < 2 ^ w → 0 ≤ b < 2 ^ w → 0 ≤ c < 2 ^ w → 0 ≤ d < 2 ^ w →
  (wrapS w (Z.land (Z.lxor a b) (Z.lxor c d)) <? 0) =
  xorb (2 ^ (w - 1) <=? a) (2 ^ (w - 1) <=? b) && xorb (2 ^ (w - 1) <=? c) (2 ^ (w - 1) <=? d).
Proof.
  intros Hw Ha Hb Hc Hd. rewrite sign_bit; [|done|].
  - rewrite Z.land_spec, !Z.lxor_spec, !testbit_top by done. done.
  - apply land_bound; [lia|apply lxor_bound; lia..].
Qed.

(** Goals left by the tests on sign bits. *)
Ltac sign_arith :=
  repeat zcase; cbn [xorb andb negb]; try done; exfalso; Z.to_euclidean_division_equations; lia.

Lemma convert_unsigned_range T z : is_std T → 0 ≤ convert (make_unsigned T) z < 2 ^ it_bits T.
Proof. intros HT. apply wrapU_range. pose proof (std_bits T HT). lia. Qed.

Lemma convert_unsigned_small T z : is_std T → 0 ≤ z < 2 ^ it_bits T → convert (make_unsigned T) z = z.
Proof. intros HT Hz. by apply wrapU_small. Qed.

Lemma CheckedAddImpl_spec T x y r : is_std T → values T x → values T y →
  CheckedAddImpl T x y r = (in_range T (x + y), if in_range T (x + y) then x + y else r).
Proof.
  intros HT Hx Hy. unfold CheckedAddImpl.
  assert ((if it_signed T then convert (make_signed T) (Z.land (Z.lxor (convert (make_unsigned T) (convert (make_unsigned T) x + convert (make_unsigned T) y)) (convert (make_unsigned T) x))
     (Z.lxor (convert (make_unsigned T) (convert (make_unsigned T) x + convert (make_unsigned T) y)) (convert (make_unsigned T) y))) <? 0
    else convert (make_unsigned T) (convert (make_unsigned T) x + convert (make_unsigned T) y) <? convert (make_unsigned T) y)
    = negb (in_range T (x + y))) as ->.
  - destruct (it_signed T) eqn:Es.
    + unfold convert at 1. cbn [make_signed it_signed it_bits].
      rewrite sign_land_lxor by first [by apply convert_unsigned_range | by apply std_bits].
      unfold in_range, values in *. std_cases HT; try done; compute_types; sign_arith.
    + unfold in_range, values in *. std_cases HT; try done; compute_types; sign_arith.
  - destruct (in_range_cases T (x + y)) as [[-> Hin]|[-> _]]; simpl; [|done]. f_equal.
    clear - HT Hx Hy Hin. unfold values in *. std_cases HT; compute_types; Z.to_euclidean_division_equations; lia.
Qed.

Lemma CheckedSubImpl_spec T x y r : is_std T → values T x → values T y →
  CheckedSubImpl T x y r = (in_range T (x - y), if in_range T (x - y) then x - y else r).
Proof.
  intros HT Hx Hy. unfold CheckedSubImpl.
  set (ux := convert (make_unsigned T) x). set (uy := convert (make_unsigned T) y). set (u := convert (make_unsigned T) (ux - uy)).
  assert ((if it_signed T then convert (make_signed T) (Z.land (Z.lxor u ux) (Z.lxor ux uy)) <? 0 else x <? y)
    = negb (in_range T (x - y))) as ->.
  - destruct (it_signed T) eqn:Es.
    + unfold convert at 1. cbn [make_signed it_signed it_bits].
      rewrite sign_land_lxor by first [by apply convert_unsigned_range | by apply std_bits].
      unfold u, ux, uy. clear u ux uy. unfold in_range, values in *. std_cases HT; try done; compute_types; sign_arith.
    + unfold u, ux, uy. clear u ux uy. unfold in_range, values in *. std_cases HT; try done; compute_types; sign_arith.
  - destruct (in_range_cases T (x - y)) as [[-> Hin]|[-> _]]; simpl; [|done]. f_equal. unfold u, ux, uy. clear u ux uy.
    unfold values in *. std_cases HT; compute_types; Z.to_euclidean_division_equations; lia.
Qed.

(** The sign of [x ^ y]. *)
Lemma lxor_signed_range w x y : 0 < w → - 2 ^ w ≤ x < 2 ^ w → - 2 ^ w ≤ y < 2 ^ w → - 2 ^ w ≤ Z.lxor x y < 2 ^ w.
Proof.
  intros Hw Hx Hy. assert (∀ z, Z.lnot z = - z - 1) as Hn by (intros z; unfold Z.lnot; lia).
  destruct (Z.lt_ge_cases x 0), (Z.lt_ge_cases y 0).
  - rewrite <-Z.lxor_lnot_lnot. pose proof (lxor_bound w (Z.lnot x) (Z.lnot y) Hw). rewrite !Hn in *. lia.
  - rewrite <-(Z.lnot_involutive x), <-Z.lnot_lxor_l, Hn.
    pose proof (lxor_bound w (Z.lnot x) y Hw). rewrite !Hn in *. lia.
  - rewrite <-(Z.lnot_involutive y), <-Z.lnot_lxor_r, Hn.
    pose proof (lxor_bound w x (Z.lnot y) Hw). rewrite !Hn in *. lia.
  - pose proof (lxor_bound w x y Hw). lia.
Qed.

Lemma lxor_sign x y : (Z.lxor x y <? 0) = xorb (x <? 0) (y <? 0).
Proof.
  pose proof (Z.lxor_nonneg x y) as [H1 H2].
  destruct (Z.ltb_spec x 0), (Z.ltb_spec y 0); cbn [xorb]; [apply Z.ltb_ge, H2|apply Z.ltb_lt|apply Z.ltb_lt|apply Z.ltb_ge, H2]; try lia.
Qed.

Lemma SafeUnsignedAbs_spec T x : is_std T → values T x → SafeUnsignedAbs T x = Z.abs x.
Proof.
  intros HT Hx. unfold SafeUnsignedAbs, IsValueNegative, values in *.
  std_cases HT; compute_types; repeat zcase; Z.to_euclidean_division_equations; lia.
Qed.

Lemma is_negative_spec T x y : is_std T → values T x → values T y →
  it_signed T && (convert (make_signed T) (Z.lxor x y) <? 0) = xorb (x <? 0) (y <? 0).
Proof.
  intros HT Hx Hy. destruct (it_signed T) eqn:Es; simpl.
  - rewrite <-lxor_sign. f_equal. pose proof (std_bits T HT). apply wrapS_small; [done|].
    unfold values, int_min, int_max in *. rewrite Es in *.
    assert (0 < it_bits T - 1) by (clear - HT; std_cases HT; vm_compute; done). apply (lxor_signed_range (it_bits T - 1)); lia.
  - unfold values, int_min in *. rewrite Es in *. by rewrite !(proj2 (Z.ltb_ge _ _)) by lia.
Qed.

(** Both tests of the multiplication together compare the product with the
    bound. *)
Lemma mul_test (c bound a b : Z) :
  0 ≤ a → 0 ≤ b → 0 ≤ bound → 0 ≤ c ≤ 1 → (c = 1 → a ≤ bound) →
  (b >? c) && (a >? Z.quot bound b) = negb (a * b <=? bound).
Proof.
  intros Ha Hb Hbd Hc Hc1. rewrite Z.gtb_ltb. destruct (Z.ltb_spec c b) as [Hlt|Hge]; simpl.
  - rewrite Z.gtb_ltb, Z.quot_div_nonneg by lia. apply Bool.eq_true_iff_eq. rewrite Z.ltb_lt, negb_true_iff, Z.leb_gt.
    pose proof (Z.div_mod bound b ltac:(lia)). pose proof (Z.mod_pos_bound bound b ltac:(lia)).
    split; intros; nia.
  - symmetry. apply negb_false_iff, Z.leb_le. assert (b = 0 ∨ b = 1 ∧ c = 1) as [->|[-> ->]] by lia; lia.
Qed.

Lemma CheckedMulImpl_spec T x y r : is_std T → 32 ≤ it_bits T → values T x → values T y →
  CheckedMulImpl T x y r = Ret (in_range T (x * y), if in_range T (x * y) then x * y else r).
Proof.
  intros HT Hw Hx Hy. unfold CheckedMulImpl. rewrite !SafeUnsignedAbs_spec, is_negative_spec by done.
  assert (sum_type (make_unsigned T) (make_unsigned T) = make_unsigned T ∧
    sum_type T (make_unsigned T) = make_unsigned T ∧ sum_type int32_t (make_unsigned T) = make_unsigned T) as (-> & -> & ->).
  { clear Hx Hy. std_cases HT; done || (vm_compute in Hw; done). }
  set (neg := xorb (x <? 0) (y <? 0)). unfold arith. cbn [make_unsigned it_signed it_bits]. rewrite bind_ret.
  assert (x * y = if neg then - (Z.abs x * Z.abs y) else Z.abs x * Z.abs y) as Hxy.
  { unfold neg. destruct (Z.ltb_spec x 0), (Z.ltb_spec y 0); cbn [xorb]; lia. }
  set (a := Z.abs x) in *. set (b := Z.abs y) in *. pose proof (limits_order T HT) as Hl.
  assert (neg = true → it_signed T = true) as Hneg.
  { unfold neg. intros Hn. destruct (it_signed T) eqn:E; [done|]. unfold values, int_min in *. rewrite E in *.
    rewrite !(proj2 (Z.ltb_ge _ _)) in Hn by lia. done. }
  assert (int_max T + (if neg then 1 else 0) = (if neg then - int_min T else int_max T)) as Hbd.
  { destruct neg; [|lia]. unfold int_min, int_max. rewrite Hneg by done. lia. }
  assert (0 ≤ (if neg then - int_min T else int_max T) < 2 ^ it_bits T) as Hbr.
  { unfold int_min, int_max in *. pose proof (pow2_half (it_bits T) ltac:(lia)).
    destruct (it_signed T), neg; lia. }
  rewrite Hbd, (convert_unsigned_small T (if neg then _ else _)) by done.
  rewrite mul_test.
  - destruct (Z.leb_spec (a * b) (if neg then - int_min T else int_max T)) as [Hle|Hgt]; simpl.
    + assert (values T (x * y)) as Hin by (unfold values; rewrite Hxy; destruct neg; lia).
      rewrite (proj2 (in_range_spec T _) Hin). f_equal. f_equal.
      rewrite wrapU_small by lia. rewrite (convert_unsigned_small T (a * b)) by (done || lia). destruct neg.
      * rewrite <-(std_convert T (x * y)) by done. rewrite Hxy. clear - HT. generalize (a * b). intros p.
        std_cases HT; compute_types; Z.to_euclidean_division_equations; lia.
      * rewrite <-Hxy. by apply std_convert.
    + destruct (in_range_cases T (x * y)) as [[_ Hin]|[-> _]]; [|done].
      exfalso. unfold values in Hin. rewrite Hxy in Hin. destruct neg; lia.
  - unfold a. lia.
  - unfold b. lia.
  - destruct neg; lia.
  - destruct (negb (it_signed T) || neg); lia.
  - intros Hc. unfold a, values in *. destruct neg; [lia|]. destruct (it_signed T) eqn:E; simpl in Hc; [lia|].
    unfold int_min in *. rewrite E in *. lia.
Qed.

(** ** Sums and differences *)

Lemma assign_spec V S v r : is_std V → is_std S → values S v →
  assign_in_range V S v r = (in_range V v, if in_range V v then v else r).
Proof.
  intros HV HS Hv. unfold assign_in_range. rewrite InRange_spec by done.
  destruct (in_range_cases V v) as [[-> Hin]|[-> _]]; [|done]. by rewrite std_convert.
Qed.

(** The operands have a common type, or are both natural numbers. *)
Definition representable (T U : int_type) (x y : Z) : bool :=
  snd (BigEnoughPromotion T U) || ((0 <=? x) && (0 <=? y)).

(** The destination is the result type of the operation or, for the assigning
    operators, the type of the left operand. *)
Definition destination (T U V : int_type) : Prop := V = MaxExponentPromotion T U ∨ V = T.

(** What [AddPromotion] guarantees, checked for all types. *)
Definition add_laws (P T U : int_type) : bool :=
  is_std_b P &&
  (if snd (BigEnoughPromotion T U) then contains P T && contains P U else (it_bits P =? 64) && negb (it_signed P)) &&
  (if IsIntegerArithmeticSafe P T U
   then snd (BigEnoughPromotion T U) && contains P T && contains P U && (int_min P <=? int_min T + int_min U) && (int_max T + int_max U <=? int_max P) &&
        (if it_signed P then (int_min P <=? int_min T - int_max U) && (int_max T - int_min U <=? int_max P)
         else (int_min T =? 0) && (int_min U =? 0))
   else true) &&
  forallb (λ V, (int_max V <=? int_max P) && (int_max V <=? 2 ^ it_bits P) &&
     (if it_signed P then int_min P <=? int_min V else negb (snd (BigEnoughPromotion T U)) || (int_min V =? 0)) &&
     (if IsIntegerArithmeticSafe P T U && negb (it_signed P) then (int_min V =? 0) && (int_max V <? 2 ^ it_bits P - int_max U) else true))
    [MaxExponentPromotion T U; T].

Lemma int_max_64 T : is_std T → int_max T ≤ 2 ^ 64 - 1.
Proof. intros HT. std_cases HT; by vm_compute. Qed.

Section WithPlatform.
Context {pf : Platform} (Hptr : intptr_t = int32_t ∨ intptr_t = int64_t).

Lemma add_laws_std T U : is_std T → is_std U → add_laws (AddPromotion T U) T U = true.
Proof.
  intros HT HU. unfold AddPromotion. destruct Hptr as [-> | ->].
  - apply (all_pairs_std (λ T U, add_laws (if IntegerBitsPlusSign (fst (FastIntegerArithmeticPromotion T U)) >? IntegerBitsPlusSign int32_t
      then fst (BigEnoughPromotion T U) else fst (FastIntegerArithmeticPromotion T U)) T U)); [by vm_compute|done..].
  - apply (all_pairs_std (λ T U, add_laws (if IntegerBitsPlusSign (fst (FastIntegerArithmeticPromotion T U)) >? IntegerBitsPlusSign int64_t
      then fst (BigEnoughPromotion T U) else fst (FastIntegerArithmeticPromotion T U)) T U)); [by vm_compute|done..].
Qed.

End WithPlatform.

Lemma sum_type_same T : sum_type T T = promote T.
Proof. unfold sum_type, common_type. rewrite Z.geb_leb, Z.leb_refl. by destruct (it_signed (promote T)). Qed.

Lemma values_promote T z : is_std T → values T z → values (promote T) z.
Proof. intros HT. unfold values. std_cases HT; compute_types; lia. Qed.

Lemma promote_std T : is_std T → is_std (promote T).
Proof. intros HT. std_cases HT; unfold is_std, std_types; simpl; tauto. Qed.

(** Arithmetic done in a standard type [P], converted back. *)
Lemma arith_exact P z : is_std P → values P z → arith (sum_type P P) z = Ret z.
Proof.
  intros HP Hz. rewrite sum_type_same. apply arith_in_range; [by apply std_bits, promote_std|by apply values_promote].
Qed.

Lemma arith_wrap P z : is_std P → it_signed P = false → - 2 ^ it_bits P < z < 2 ^ it_bits P →
  ∃ r, arith (sum_type P P) z = Ret r ∧ convert P r = z mod 2 ^ it_bits P.
Proof.
  intros HP Hs Hz. rewrite sum_type_same.
  destruct (arith_promote_unsigned P z) as (r & E & Hr & _); [split; [done|by apply std_bits]|done|]. by exists r.
Qed.

Lemma not_in_range T z : ¬ values T z → in_range T z = false.
Proof. intros H. destruct (in_range_cases T z) as [[_ ?]|[? _]]; done. Qed.

Lemma std_of_destination T U V : is_std T → is_std U → destination T U V → is_std V.
Proof.
  intros HT HU [-> | ->]; [|done]. unfold MaxExponentPromotion. by destruct (_ >? _).
Qed.

(** What the portable part computes in the promoted type [P]: a failure when
    [cond] does not hold or the exact result does not fit [V], else a value
    that stands for it. *)
Definition computes (P V : int_type) (body : outcome (bool * Z)) (cond : bool) (exact : Z) : Prop :=
  ∃ b p, body = Ret (b, p) ∧
    (b = false ∧ cond && in_range V exact = false ∨
     b = true ∧ values P p ∧ in_range V p = cond && in_range V exact ∧ (in_range V p = true → p = exact)).

Lemma computes_exact P V exact : values P exact → computes P V (Ret (true, exact)) true exact.
Proof. intros Hv. exists true, exact. split; [done|]. right. by split_and!. Qed.

(** A computation that detects overflow of [P], which covers what [V] holds of
    the results. *)
Lemma computes_checked P V cond exact r :
  (cond = true → values V exact → values P exact) → (values P exact → cond = true) →
  computes P V (Ret (in_range P exact, if in_range P exact then exact else r)) cond exact.
Proof.
  intros HVP Hcond. destruct (in_range_cases P exact) as [[-> Hin]|[-> Hout]].
  { rewrite (Hcond Hin). by apply computes_exact. }
  exists false, r. split; [done|]. left. split; [done|]. destruct cond; [|done].
  apply not_in_range. intros HV%HVP; [|done]. unfold values in HV. lia.
Qed.

Lemma portable_finish P V body cond exact r : is_std V → is_std P → computes P V body cond exact →
  does ('(is_valid, presult) ← body; Ret (if negb is_valid then (false, r) else assign_in_range V P presult r))
    (cond && in_range V exact) exact.
Proof.
  intros HV HP (b & p & -> & [[-> Ho]|(-> & Hp & Heq & Hval)]); rewrite bind_ret; simpl.
  - exists r. by rewrite Ho.
  - rewrite assign_spec, Heq by done. rewrite Heq in Hval. eexists. split; [done|]. intros E. rewrite E. by apply Hval.
Qed.

Lemma builtin_does V exact : is_std V → does (builtin_overflow V exact) (in_range V exact) exact.
Proof.
  intros HV. eexists. split; [done|]. intros Hr%in_range_spec. by apply std_convert.
Qed.

Section AddSub.
Context {pf : Platform} (Hptr : intptr_t = int32_t ∨ intptr_t = int64_t).
Context (T U V : int_type) (HT : is_std T) (HU : is_std U) (HV : destination T U V).
Context (x y : Z) (Hx : values T x) (Hy : values U y).

Lemma portable_operands :
  let P := AddPromotion T U in
  is_std P ∧
  (IsValueInRangeForNumericType P T x && IsValueInRangeForNumericType P U y = representable T U x y) ∧
  (representable T U x y = true → values P x ∧ values P y).
Proof.
  intros P. pose proof (add_laws_std Hptr T U HT HU) as Hl. fold P in Hl. unfold add_laws in Hl. rewrite !andb_true_iff in Hl.
  destruct Hl as [[[HP%is_std_b_spec Hc] _] _]. split; [done|]. rewrite !InRange_spec by done. unfold representable.
  destruct (snd (BigEnoughPromotion T U)); simpl.
  - apply andb_true_iff in Hc as [HcT HcU]. pose proof (contains_values P T x HcT Hx) as HPx.
    pose proof (contains_values P U y HcU Hy) as HPy. by rewrite !(proj2 (in_range_spec _ _)) by done.
  - assert (int_max T ≤ 2 ^ 64 - 1 ∧ int_max U ≤ 2 ^ 64 - 1) as [HmT HmU].
    { by split; apply int_max_64. }
    apply andb_true_iff in Hc as [Hb%Z.eqb_eq Hs%negb_true_iff].
    assert (int_min P = 0 ∧ int_max P = 2 ^ 64 - 1) as [Hm0 Hm1] by (unfold int_min, int_max; rewrite Hs, Hb; done).
    unfold in_range, values in *. rewrite Hm0, Hm1. split; [apply Bool.eq_true_iff_eq|]; lia.
Qed.

(** How the destination relates to the promoted type. *)
Lemma destination_laws :
  let P := AddPromotion T U in
  int_max V ≤ int_max P ∧
  (if it_signed P then int_min P ≤ int_min V else snd (BigEnoughPromotion T U) = true → int_min V = 0) ∧
  (IsIntegerArithmeticSafe P T U = true → snd (BigEnoughPromotion T U) = true ∧
     int_min P ≤ int_min T + int_min U ∧ int_max T + int_max U ≤ int_max P ∧
     if it_signed P then int_min P ≤ int_min T - int_max U ∧ int_max T - int_min U ≤ int_max P
     else int_min T = 0 ∧ int_min U = 0 ∧ int_min V = 0 ∧ int_max V < 2 ^ it_bits P - int_max U).
Proof.
  intros P. pose proof (add_laws_std Hptr T U HT HU) as Hl. fold P in Hl. unfold add_laws in Hl. rewrite !andb_true_iff in Hl.
  destruct Hl as [[[_ _] Hs] Hf]. rewrite forallb_forall in Hf. specialize (Hf V).
  assert (In V [MaxExponentPromotion T U; T]) as Hin by (destruct HV as [-> | ->]; simpl; tauto).
  specialize (Hf Hin). rewrite !andb_true_iff in Hf. destruct Hf as [[[H1 _] H2] H3]. split_and!.
  - lia.
  - destruct (it_signed P); [lia|]. intros Hb. rewrite Hb in H2. simpl in H2. lia.
  - intros Hsafe. rewrite Hsafe in Hs, H3. rewrite !andb_true_iff in Hs. destruct Hs as [[[[[Hs0 _] _] Ha] Hb] Hc]. split_and!; [done|lia|lia|].
    destruct (it_signed P); simpl in H3; lia.
Qed.

Lemma CheckedAddOp_spec r :
  does (CheckedAddOp T U V x y r) ((has_builtins || representable T U x y) && in_range V (x + y)) (x + y).
Proof.
  pose proof (std_of_destination T U V HT HU HV) as HsV.
  unfold CheckedAddOp. destruct has_builtins; [by apply builtin_does|]. simpl orb.
  destruct portable_operands as (HP & Hrep & Hvals). rewrite <-negb_andb, Hrep. set (P := AddPromotion T U) in *.
  destruct (representable T U x y); [|by exists r]. cbn [negb]. destruct (Hvals eq_refl) as [HPx HPy].
  rewrite !std_convert by done. apply portable_finish; [done..|]. destruct destination_laws as (H1 & H2 & H3). fold P in H1, H2, H3.
  destruct (IsIntegerArithmeticSafe P T U).
  - destruct (H3 eq_refl) as (_ & Ha & Hb & _). assert (values P (x + y)) as Hz by (unfold values in *; lia).
    rewrite arith_exact, bind_ret, std_convert by done. by apply computes_exact.
  - rewrite CheckedAddImpl_spec by done. apply computes_checked; [|done]. intros _. unfold values in *. intros HVz. split; [|lia].
    destruct (it_signed P) eqn:Es; [lia|]. assert (int_min P = 0) by (unfold int_min; by rewrite Es). lia.
Qed.

Lemma CheckedSubOp_spec r :
  does (CheckedSubOp T U V x y r)
    ((has_builtins || (representable T U x y && representable T U x (x - y))) && in_range V (x - y)) (x - y).
Proof.
  pose proof (std_of_destination T U V HT HU HV) as HsV.
  unfold CheckedSubOp. destruct has_builtins; [by apply builtin_does|]. simpl orb.
  destruct portable_operands as (HP & Hrep & Hvals). rewrite <-negb_andb, Hrep. set (P := AddPromotion T U) in *.
  destruct (representable T U x y) eqn:Erep; [|by exists r]. cbn [negb andb]. destruct (Hvals eq_refl) as [HPx HPy].
  rewrite !std_convert by done. apply portable_finish; [done..|]. destruct destination_laws as (H1 & H2 & H3). fold P in H1, H2, H3.
  assert (it_signed P = false → int_max P = 2 ^ it_bits P - 1 ∧ int_min P = 0) as Hun
    by (intros Es; unfold int_max, int_min; by rewrite Es).
  unfold representable in *. destruct (IsIntegerArithmeticSafe P T U).
  - destruct (H3 eq_refl) as (-> & _ & _ & Hd). cbn [orb]. destruct (it_signed P) eqn:Es.
    + assert (values P (x - y)) as Hz by (unfold values in *; lia).
      rewrite arith_exact, bind_ret, std_convert by done. by apply computes_exact.
    + destruct Hd as (Hd1 & Hd2 & Hd3 & Hd4). destruct (Hun eq_refl) as [HM Hm0].
      unfold values in Hx, Hy, HPx, HPy. destruct (arith_wrap P (x - y) HP Es ltac:(lia)) as (q & -> & Hq). rewrite bind_ret, Hq.
      destruct (Z.lt_ge_cases x y) as [Hlt|Hge].
      * assert ((x - y) mod 2 ^ it_bits P = x - y + 2 ^ it_bits P) as -> by (apply (mod_unique_range _ _ _ (-1)); lia).
        exists true, (x - y + 2 ^ it_bits P). split; [done|]. right. unfold values, in_range. rewrite Hd3.
        split_and!; [done|lia|lia|apply Bool.eq_true_iff_eq; lia|lia].
      * rewrite Z.mod_small by lia. apply computes_exact. unfold values. lia.
  - rewrite CheckedSubImpl_spec by done. destruct (it_signed P) eqn:Es.
    + destruct (snd (BigEnoughPromotion T U)) eqn:Eb; [apply computes_checked; [intros _; unfold values in *; lia|done]|].
      exfalso. pose proof (add_laws_std Hptr T U HT HU) as Hl. fold P in Hl. unfold add_laws in Hl.
      rewrite Es, Eb, andb_false_r, !andb_false_l, andb_false_r in Hl. done.
    + destruct (Hun eq_refl) as [HM Hm0]. apply computes_checked; unfold values in *.
      * intros Hc HVz. destruct (snd (BigEnoughPromotion T U)); [specialize (H2 eq_refl)|]; simpl in Hc; lia.
      * intros Hz. destruct (snd (BigEnoughPromotion T U)); simpl; [done|]. lia.
Qed.

End AddSub.

(** ** Products *)

Lemma mul_between a b c d lo hi x y :
  a ≤ x ≤ b → c ≤ y ≤ d →
  lo ≤ a * c → lo ≤ a * d → lo ≤ b * c → lo ≤ b * d →
  a * c ≤ hi → a * d ≤ hi → b * c ≤ hi → b * d ≤ hi → lo ≤ x * y ≤ hi.
Proof.
  intros Hx Hy ????????.
  assert (∀ u, u = a ∨ u = b → lo ≤ u * y ≤ hi) as Hu.
  { intros u [-> | ->]; [destruct (Z.le_gt_cases 0 a)|destruct (Z.le_gt_cases 0 b)]; nia. }
  pose proof (Hu a (or_introl eq_refl)). pose proof (Hu b (or_intror eq_refl)).
  destruct (Z.le_gt_cases 0 y); nia.
Qed.

(** What [FastIntegerArithmeticPromotion] guarantees, checked for all types. *)
Definition mul_laws (T U : int_type) : bool :=
  let '(P, contained) := FastIntegerArithmeticPromotion T U in
  let corner f := forallb (λ '(a, b), f (a * b))
    [(int_min T, int_min U); (int_min T, int_max U); (int_max T, int_min U); (int_max T, int_max U)] in
  is_std_b P && implb contained (IsIntegerArithmeticSafe P T U) &&
  (if snd (BigEnoughPromotion T U) then contains P T && contains P U else (it_bits P =? 64) && negb (it_signed P)) &&
  (if IsIntegerArithmeticSafe P T U
   then contains P T && contains P U && corner (λ z, int_min P <=? z) && corner (λ z, z <=? int_max P)
   else it_bits P =? 64) &&
  forallb (λ V, (int_max V <=? int_max P) &&
     (if it_signed P then int_min P <=? int_min V else negb (snd (BigEnoughPromotion T U)) || (int_min V =? 0)))
    [MaxExponentPromotion T U; T].

Lemma mul_laws_std T U : is_std T → is_std U → mul_laws T U = true.
Proof. intros. apply all_pairs_std; [by vm_compute|done..]. Qed.

Lemma mul_promotion T U : is_std T → is_std U →
  let P := fst (FastIntegerArithmeticPromotion T U) in
  is_std P ∧
  (snd (FastIntegerArithmeticPromotion T U) = true → IsIntegerArithmeticSafe P T U = true) ∧
  (∀ x y, values T x → values U y →
     in_range P x && in_range P y = representable T U x y ∧
     (IsIntegerArithmeticSafe P T U = true → values P x ∧ values P y ∧ values P (x * y))) ∧
  (IsIntegerArithmeticSafe P T U = false → it_bits P = 64) ∧
  (∀ V, destination T U V → int_max V ≤ int_max P ∧
     (if it_signed P then int_min P ≤ int_min V else snd (BigEnoughPromotion T U) = true → int_min V = 0)).
Proof.
  intros HT HU. pose proof (mul_laws_std T U HT HU) as Hl. unfold mul_laws in Hl.
  destruct (FastIntegerArithmeticPromotion T U) as [P contained]. cbn [fst snd]. rewrite !andb_true_iff in Hl.
  destruct Hl as [[[[HP%is_std_b_spec Hc] Hcon] Hsafe] HVs]. split; [done|]. split; [by intros ->|]. split; [|split].
  - intros x y Hx Hy. split.
    + unfold representable. destruct (snd (BigEnoughPromotion T U)); simpl.
      * apply andb_true_iff in Hcon as [H1 H2].
        by rewrite !(proj2 (in_range_spec _ _)) by first [by apply (contains_values P T)|by apply (contains_values P U)].
      * apply andb_true_iff in Hcon as [Hb%Z.eqb_eq Hs%negb_true_iff].
        assert (int_min P = 0 ∧ int_max P = 2 ^ 64 - 1) as [Hm0 Hm1] by (unfold int_min, int_max; rewrite Hs, Hb; done).
        pose proof (int_max_64 T HT). pose proof (int_max_64 U HU). unfold in_range, values in *. rewrite Hm0, Hm1.
        apply Bool.eq_true_iff_eq. lia.
    + intros Es. rewrite Es in Hsafe. rewrite !andb_true_iff in Hsafe. destruct Hsafe as [[[H1 H2] Hlo] Hhi].
      split_and!; [by apply (contains_values P T)|by apply (contains_values P U)|].
      rewrite forallb_forall in Hlo, Hhi.
      unfold values in *. apply (mul_between (int_min T) (int_max T) (int_min U) (int_max U)); try lia.
      1: specialize (Hlo (int_min T, int_min U)). 2: specialize (Hlo (int_min T, int_max U)).
      3: specialize (Hlo (int_max T, int_min U)). 4: specialize (Hlo (int_max T, int_max U)).
      5: specialize (Hhi (int_min T, int_min U)). 6: specialize (Hhi (int_min T, int_max U)).
      7: specialize (Hhi (int_max T, int_min U)). 8: specialize (Hhi (int_max T, int_max U)).
      all: simpl in Hlo, Hhi; apply Z.leb_le; tauto.
  - intros Es. rewrite Es in Hsafe. by apply Z.eqb_eq.
  - intros V HV. rewrite forallb_forall in HVs. specialize (HVs V).
    assert (In V [MaxExponentPromotion T U; T]) as Hin by (destruct HV as [-> | ->]; simpl; tauto).
    specialize (HVs Hin). apply andb_true_iff in HVs as [H1 H2]. split; [lia|].
    destruct (it_signed P); [lia|]. intros Hb. rewrite Hb in H2. simpl in H2. lia.
Qed.

Lemma convert_values T z : is_std T → values T (convert T z).
Proof.
  intros HT. pose proof (std_bits T HT). unfold values, convert, int_min, int_max.
  destruct (it_signed T); [pose proof (wrapS_range (it_bits T) z)|pose proof (wrapU_range (it_bits T) z)]; lia.
Qed.

Section Mul.
Context {pf : Platform}.

Lemma CheckedMulFastOp_spec T U V x y r : is_std T → is_std U → is_std V → values T x → values U y →
  does (CheckedMulFastOp T U V x y r) (in_range V (x * y)) (x * y).
Proof.
  intros HT HU HV Hx Hy. unfold CheckedMulFastOp, CheckedMulFastAsmOp_is_supported.
  destruct (has_assembler && snd (FastIntegerArithmeticPromotion T U)) eqn:E; [|by apply builtin_does].
  apply andb_true_iff in E as [_ E]. destruct (mul_promotion T U HT HU) as (HP & Hs & Hp & _).
  destruct (Hp x y Hx Hy) as [_ H]. destruct (H (Hs E)) as (HPx & HPy & HPz). unfold CheckedMulFastAsmOp.
  rewrite !std_convert, arith_exact, bind_ret by done. rewrite assign_spec, std_convert by (done || by rewrite std_convert).
  eexists. split; [done|]. by intros ->.
Qed.

Lemma CheckedMulOp_spec T U V x y r : is_std T → is_std U → destination T U V → values T x → values U y →
  does (CheckedMulOp T U V x y r)
    ((CheckedMulFastOp_is_supported T U || representable T U x y || (x =? 0) || (y =? 0)) && in_range V (x * y)) (x * y).
Proof.
  intros HT HU HV Hx Hy. pose proof (std_of_destination T U V HT HU HV) as HsV. unfold CheckedMulOp.
  destruct (CheckedMulFastOp_is_supported T U); [by apply CheckedMulFastOp_spec|]. cbn [orb].
  destruct (mul_promotion T U HT HU) as (HP & Hs & Hp & Hbits & HVP). set (P := fst (FastIntegerArithmeticPromotion T U)) in *.
  destruct (Hp x y Hx Hy) as [Hrep Hvals]. rewrite !InRange_spec, <-negb_andb, Hrep by done.
  destruct (negb (representable T U x y) && negb (x =? 0) && negb (y =? 0)) eqn:Erej.
  { rewrite !andb_true_iff, !negb_true_iff in Erej. destruct Erej as [[-> ->] ->]. by exists r. }
  assert ((representable T U x y || (x =? 0) || (y =? 0)) = true) as Hacc
    by (destruct (representable T U x y), (x =? 0), (y =? 0); done).
  rewrite Hacc.
  (* converted operands are exact unless the product is zero anyway *)
  assert (values P (convert P x) ∧ values P (convert P y) ∧ convert P x * convert P y = x * y) as (HPx & HPy & Hxy).
  { assert (∀ z, values P (convert P z)) as Hcv by (intros; by apply convert_values).
    assert (values P 0) as H0 by (pose proof (limits_order P HP); unfold values; lia).
    assert (convert P 0 = 0) as Hc0 by (by apply std_convert).
    split_and!; [done|done|]. destruct (representable T U x y).
    - apply andb_true_iff in Hrep as [?%in_range_spec ?%in_range_spec]. by rewrite !std_convert.
    - destruct (Z.eqb_spec x 0) as [->|]; [by rewrite Hc0|]. destruct (Z.eqb_spec y 0) as [->|]; [rewrite Hc0; lia|done]. }
  apply portable_finish; [done..|]. destruct (HVP V HV) as [HV1 HV2].
  assert (values V (x * y) → values P (x * y)) as HVPz.
  { unfold values. intros HVz. split; [|lia]. destruct (it_signed P) eqn:Es; [lia|].
    assert (int_min P = 0) as -> by (unfold int_min; by rewrite Es). unfold representable in Hacc.
    destruct (snd (BigEnoughPromotion T U)); [rewrite HV2 in HVz by done; lia|]. cbn [orb] in Hacc.
    rewrite !orb_true_iff, andb_true_iff, !Z.leb_le, !Z.eqb_eq in Hacc. nia. }
  destruct (CheckedMulFastOp_is_supported P P).
  - destruct (CheckedMulFastOp_spec P P P (convert P x) (convert P y) 0 HP HP HP HPx HPy) as (q & -> & Hq). rewrite Hxy in *.
    pose proof (computes_checked P V true (x * y) q (λ _, HVPz) (λ _, eq_refl)) as Hc.
    destruct (in_range P (x * y)); [by rewrite Hq|done].
  - destruct (IsIntegerArithmeticSafe P T U) eqn:Es.
    + destruct (Hvals eq_refl) as (_ & _ & Hz). rewrite Hxy, arith_exact, bind_ret, std_convert by done. by apply computes_exact.
    + rewrite CheckedMulImpl_spec by (done || rewrite (Hbits eq_refl); lia). rewrite Hxy. apply computes_checked; [by intros _|done].
Qed.

End Mul.

(** ** Quotients and remainders *)

Definition div_laws (T U : int_type) : bool :=
  let '(P, contained) := BigEnoughPromotion T U in
  is_std_b P &&
  (if contained then contains P T && contains P U else (it_bits P =? 64) && negb (it_signed P)) &&
  implb (it_signed T && it_signed U) (contained && it_signed P) &&
  (* the lowest value of [P] divided by -1 is caught *)
  implb (it_signed P && (int_min T <=? int_min P) && it_signed U) (it_signed T && IsTypeInRangeForNumericType T P) &&
  forallb (λ V, implb (it_signed T && it_signed U && IsTypeInRangeForNumericType T P) (int_max V <=? int_max P))
    [MaxExponentPromotion T U; T].

Lemma div_laws_std T U : is_std T → is_std U → div_laws T U = true.
Proof. intros. apply all_pairs_std; [by vm_compute|done..]. Qed.

Lemma quot_between x y : y ≠ 0 → Z.abs (Z.quot x y) ≤ Z.abs x ∧ (Z.abs y ≠ 1 → x ≠ 0 → Z.abs (Z.quot x y) < Z.abs x) ∧
  (0 ≤ x → 0 ≤ y → 0 ≤ Z.quot x y).
Proof.
  intros Hy. rewrite <-Z.quot_abs by done. rewrite (Z.quot_div_nonneg (Z.abs x)) by lia. split_and!.
  - apply Z.div_le_upper_bound; nia.
  - intros. apply Z.div_lt_upper_bound; nia.
  - intros. apply Z.quot_pos; lia.
Qed.

Lemma quot_values P x y : is_std P → values P x → values P y → y ≠ 0 → ¬ (x = int_min P ∧ y = -1) → values P (Z.quot x y).
Proof.
  intros HP Hx Hy Hy0 Hno. destruct (quot_between x y Hy0) as (H1 & H2 & H3). unfold values, int_min, int_max in *.
  destruct (it_signed P); [|lia]. destruct (decide (Z.abs y = 1)) as [Hy1|Hy1]; [|destruct (decide (x = 0)); lia].
  assert (y = 1 ∨ y = -1) as [-> | ->] by lia; [rewrite Z.quot_1_r; lia|].
  change (-1) with (- (1)). rewrite Z.quot_opp_r, Z.quot_1_r by done. lia.
Qed.

Lemma rem_values P x y : is_std P → values P x → y ≠ 0 → values P (Z.rem x y).
Proof.
  intros HP Hx Hy. pose proof (limits_order P HP).
  assert (Z.abs (Z.rem x y) ≤ Z.abs x) by (rewrite <-Z.rem_abs by done; apply Z.rem_le; lia).
  unfold values in *. destruct (Z.le_gt_cases 0 x); [pose proof (Z.rem_nonneg x y Hy)|pose proof (Z.rem_nonpos x y Hy)]; lia.
Qed.

(** The promotion does not send a divisor to zero. *)
Lemma convert_zero T U y : is_std T → is_std U → values U y → convert (fst (BigEnoughPromotion T U)) y = 0 → y = 0.
Proof.
  intros HT HU. unfold values.
  std_cases HT; std_cases HU;
    match goal with |- context [fst (BigEnoughPromotion ?A ?B)] => compute_term (fst (BigEnoughPromotion A B)) end;
    compute_types; Z.to_euclidean_division_equations; lia.
Qed.

Section Div.
Context {pf : Platform} (T U V : int_type) (HT : is_std T) (HU : is_std U) (HV : destination T U V).
Context (x y : Z) (Hx : values T x) (Hy : values U y).

Lemma div_promotion :
  let P := fst (BigEnoughPromotion T U) in
  is_std P ∧ in_range P x && in_range P y = representable T U x y ∧
  (min_by_minus_one T U P x y = true → x = int_min P ∧ y = -1 ∧ in_range V (Z.quot x y) = false ∧ representable T U x y = true) ∧
  (representable T U x y = true → min_by_minus_one T U P x y = false → ¬ (x = int_min P ∧ y = -1)).
Proof.
  pose proof (div_laws_std T U HT HU) as Hl. unfold div_laws in Hl. unfold representable.
  destruct (BigEnoughPromotion T U) as [P contained]. cbn [fst snd]. rewrite !andb_true_iff in Hl.
  destruct Hl as [[[[HP%is_std_b_spec Hc] Hss] Hm] HVs].
  assert (in_range P x && in_range P y = contained || ((0 <=? x) && (0 <=? y))) as Hrep.
  { destruct contained; simpl.
    - apply andb_true_iff in Hc as [H1 H2].
      by rewrite !(proj2 (in_range_spec _ _)) by first [by apply (contains_values P T)|by apply (contains_values P U)].
    - apply andb_true_iff in Hc as [Hb%Z.eqb_eq Hs%negb_true_iff].
      assert (int_min P = 0 ∧ int_max P = 2 ^ 64 - 1) as [Hm0 Hm1] by (unfold int_min, int_max; rewrite Hs, Hb; done).
      pose proof (int_max_64 T HT). pose proof (int_max_64 U HU). unfold in_range, values in *. rewrite Hm0, Hm1.
      apply Bool.eq_true_iff_eq. lia. }
  assert (it_signed U = true → values U (-1)) as Hu1.
  { intros Es. pose proof (limits_order U HU). pose proof (std_bits U HU). pose proof (pow2_pos (it_bits U - 1)).
    unfold values, int_min in *. rewrite Es in *. lia. }
  pose proof (limits_order P HP) as HlP. pose proof (values_limits P HP) as [_ HPm].
  assert (it_signed T = true → it_signed U = true →
    (rel Z.eqb P P (convert P x) (int_min P) && rel Z.eqb U U y (convert U (-1)) = (x =? int_min P) && (y =? -1)) ∧ contained = true) as Hsimp.
  { intros ET EU. rewrite ET, EU in Hss. simpl in Hss. apply andb_true_iff in Hss as [-> _]. apply andb_true_iff in Hc as [H1 H2].
    pose proof (contains_values P T x H1 Hx). split; [|done].
    rewrite !std_convert, !rel_exact by (try done; by apply Hu1). done. }
  unfold min_by_minus_one. split_and!; [done|done| |].
  - destruct (it_signed T) eqn:ET; [|done]. destruct (it_signed U) eqn:EU; [|done]. destruct Hsimp as [Hsimp Hcon]; [done..|].
    cbn [andb]. rewrite <-andb_assoc, Hsimp, !andb_true_iff, !Z.eqb_eq. intros (EP & -> & ->). split_and!; [done|done| |by rewrite Hcon].
    change (-1) with (- (1)). rewrite Z.quot_opp_r, Z.quot_1_r by done. apply not_in_range. unfold values.
    rewrite forallb_forall in HVs. specialize (HVs V).
    assert (In V [MaxExponentPromotion T U; T]) as Hin by (destruct HV as [-> | ->]; simpl; tauto).
    specialize (HVs Hin). rewrite EP in HVs. cbn [andb implb] in HVs. rewrite Hcon in Hss. simpl in Hss.
    unfold int_min, int_max in *. rewrite Hss in *. lia.
  - intros Hr Hno [Ex Ey]. rewrite <-Hrep in Hr. apply andb_true_iff in Hr as [_ Hr%in_range_spec].
    destruct (it_signed U) eqn:EU; [|unfold values, int_min in Hy; rewrite EU in Hy; lia].
    destruct (it_signed P) eqn:EP; [|unfold values, int_min in Hr; rewrite EP in Hr; lia].
    cbn [andb] in Hm. destruct (Z.leb_spec (int_min T) (int_min P)); [|unfold values in Hx; lia]. cbn [andb implb] in Hm.
    apply andb_true_iff in Hm as [ET Hm]. rewrite ET, Hm in Hno. destruct Hsimp as [Hsimp _]; [done..|].
    cbn [andb] in Hno. rewrite Hsimp, Ex, Ey, !Z.eqb_refl in Hno. done.
Qed.

Lemma CheckedDivOp_spec r :
  does (CheckedDivOp T U V x y r)
    (negb (y =? 0) && (representable T U x y || (x =? 0)) && in_range V (Z.quot x y)) (Z.quot x y).
Proof.
  pose proof (std_of_destination T U V HT HU HV) as HsV. unfold CheckedDivOp.
  destruct (Z.eqb_spec y 0) as [->|Hy0]; [by exists r|]. cbn [negb andb].
  destruct div_promotion as (HP & Hrep & Hmin & Hno). set (P := fst (BigEnoughPromotion T U)) in *.
  destruct (min_by_minus_one T U P x y) eqn:Em.
  { destruct (Hmin eq_refl) as (_ & _ & -> & ->). exists r. by rewrite andb_false_r. }
  rewrite !InRange_spec, <-negb_andb, Hrep by done. destruct (representable T U x y); cbn [negb andb orb].
  - apply andb_true_iff in Hrep as [HPx%in_range_spec HPy%in_range_spec]. rewrite !std_convert by done. unfold c_div.
    rewrite (proj2 (Z.eqb_neq y 0)) by done. assert (values P (Z.quot x y)) as Hq by (apply quot_values; auto).
    rewrite arith_exact, bind_ret, std_convert, assign_spec by done. eexists. split; [done|]. by intros ->.
  - destruct (Z.eqb_spec x 0) as [->|]; cbn [negb]; [|by exists r].
    assert (values P 0) as H0 by (pose proof (limits_order P HP); unfold values; lia).
    rewrite (std_convert P 0) by done. unfold c_div. destruct (Z.eqb_spec (convert P y) 0) as [E|E].
    { exfalso. by apply Hy0, (convert_zero T U). }
    rewrite !Z.quot_0_l by done. rewrite arith_exact, bind_ret, std_convert, assign_spec by done. eexists. split; [done|]. cbn [andb]. by intros ->.
Qed.

Lemma CheckedModOp_spec r : representable T U x y = true →
  does (CheckedModOp T U V x y r) (negb (y =? 0) && in_range V (Z.rem x y)) (Z.rem x y).
Proof.
  intros Hr. pose proof (std_of_destination T U V HT HU HV) as HsV. unfold CheckedModOp.
  destruct (Z.eqb_spec y 0) as [->|Hy0]; [by exists r|]. cbn [negb andb].
  destruct div_promotion as (HP & Hrep & Hmin & Hno). set (P := fst (BigEnoughPromotion T U)) in *.
  destruct (min_by_minus_one T U P x y) eqn:Em.
  { destruct (Hmin eq_refl) as (_ & -> & _ & _). change (-1) with (- (1)). rewrite Z.rem_opp_r, Z.rem_1_r by done.
    exists 0. rewrite (proj2 (in_range_spec V 0)); [done|]. pose proof (limits_order V HsV). unfold values. lia. }
  rewrite Hr in Hrep. apply andb_true_iff in Hrep as [HPx%in_range_spec HPy%in_range_spec]. rewrite !std_convert by done.
  unfold c_rem, c_div. rewrite (proj2 (Z.eqb_neq y 0)) by done.
  assert (values P (Z.quot x y)) as Hq by (apply quot_values; auto).
  rewrite arith_exact, !bind_ret by done. pose proof (rem_values P x y HP HPx Hy0).
  rewrite std_convert, assign_spec by done. eexists. split; [done|]. by intros ->.
Qed.

End Div.

(** ** Shifts, bitwise operations, maximum and minimum *)

(** Casting a shift count to unsigned pushes negative counts out of range. *)
Lemma shift_rel U s n : is_std U → values U s → 0 ≤ n ≤ 64 →
  rel Z.ltb (make_unsigned U) uint32_t (as_unsigned U s) (as_unsigned int32_t n) = (0 <=? s) && (s <? n) ∧
  rel (λ a b, negb (a =? b)) (make_unsigned U) uint32_t (as_unsigned U s) (as_unsigned int32_t n) = negb (s =? n) ∧
  rel Z.geb (make_unsigned U) int32_t (as_unsigned U s) n = negb ((0 <=? s) && (s <? n)).
Proof.
  intros HU Hs Hn. unfold rel, as_unsigned, values in *.
  std_cases HU; compute_types; split_and!; bool_arith.
Qed.

Lemma digits_range T : is_std T → 0 < digits T ≤ it_bits T ∧ it_bits T ≤ 64 ∧ it_bits T ≤ it_bits (promote T) ∧
  int_max T = 2 ^ digits T - 1 ∧ IntegerBitsPlusSign T = it_bits T.
Proof. intros HT. std_cases HT; vm_compute; done. Qed.

Lemma convert_again A B z : is_std A → is_std B → it_bits A ≤ it_bits B → convert A (convert B z) = convert A z.
Proof.
  intros HA HB Hb. std_cases HA; std_cases HB; try (vm_compute in Hb; done); clear Hb; compute_types;
    Z.to_euclidean_division_equations; lia.
Qed.

Lemma shl_exact T x s : is_std T → 0 ≤ x ≤ int_max T → 0 ≤ s < digits T →
  ∃ r, shl (promote (make_unsigned T)) x s = Ret r ∧ convert T r = convert T (x * 2 ^ s).
Proof.
  intros HT Hx Hs. destruct (digits_range T HT) as (Hd & Hb & Hp & Hm & _).
  assert (is_std (make_unsigned T)) as HuT by (clear - HT; std_cases HT; unfold is_std, std_types; simpl; tauto).
  assert (it_bits T ≤ it_bits (promote (make_unsigned T))) as Hpb by (clear - HT; std_cases HT; vm_compute; done).
  unfold shl. rewrite (proj2 (Z.ltb_ge s 0)), (proj2 (Z.leb_gt _ s)) by lia. cbn [orb].
  rewrite (proj2 (andb_false_iff _ _)).
  - eexists. split; [done|]. apply convert_again; [done|by apply promote_std|lia].
  - destruct (it_signed (promote (make_unsigned T))) eqn:Es; [right|by left].
    assert (it_bits T ≤ 16 ∧ it_bits (promote (make_unsigned T)) = 32) as [Hsmall ->].
    { clear - HT Es. std_cases HT; vm_compute in Es |- *; done. }
    rewrite (proj2 (Z.ltb_ge x 0)), (proj2 (Z.leb_gt _ _)); [done| |lia].
    assert (2 ^ digits T ≤ 2 ^ 16) by (apply Z.pow_le_mono_r; lia). assert (2 ^ s ≤ 2 ^ 15) by (apply Z.pow_le_mono_r; lia).
    assert (0 < 2 ^ s) by (apply pow2_pos; lia). nia.
Qed.

Section Shifts.
Context {pf : Platform}.

Lemma convert_congruent T z : is_std T → ∃ k, convert T z = z + k * 2 ^ it_bits T.
Proof.
  intros HT. pose proof (std_bits T HT). assert (0 < 2 ^ it_bits T) by (apply pow2_pos; lia).
  unfold convert, wrapS, wrapU. destruct (it_signed T).
  - exists (- ((z + 2 ^ (it_bits T - 1)) / 2 ^ it_bits T)).
    pose proof (Z.div_mod (z + 2 ^ (it_bits T - 1)) (2 ^ it_bits T)). lia.
  - exists (- (z / 2 ^ it_bits T)). pose proof (Z.div_mod z (2 ^ it_bits T)). lia.
Qed.

(** The test that a shift can be reversed. *)
Lemma shift_reversible T x s : is_std T → values T x → 0 ≤ s ≤ it_bits T →
  (convert T (x * 2 ^ s) / 2 ^ s =? x) = in_range T (x * 2 ^ s).
Proof.
  intros HT Hx Hs. assert (0 < 2 ^ s) as Hp by (apply pow2_pos; lia). pose proof (convert_values T (x * 2 ^ s) HT) as Hc.
  assert (2 ^ s ≤ 2 ^ it_bits T) by (apply Z.pow_le_mono_r; lia).
  destruct (in_range_cases T (x * 2 ^ s)) as [[-> Hin]|[-> Hout]].
  - rewrite std_convert by done. rewrite Z.div_mul by lia. apply Z.eqb_refl.
  - apply Z.eqb_neq. intros E. pose proof (Z.div_mod (convert T (x * 2 ^ s)) (2 ^ s) ltac:(lia)) as Hdm.
    pose proof (Z.mod_pos_bound (convert T (x * 2 ^ s)) (2 ^ s) Hp). rewrite E in Hdm. unfold values in *.
    (* the converted value differs by a multiple of the modulus and by less than [2 ^ s] *)
    destruct (convert_congruent T (x * 2 ^ s) HT) as [k Hk]. assert (k = 0) as -> by nia. lia.
Qed.

Lemma CheckedLshOp_spec T U x s r : is_std T → is_std U → values T x → values U s →
  does (CheckedLshOp T U T x s r)
    ((0 <=? x) && (0 <=? s) &&
     (((s <? digits T) && in_range T (x * 2 ^ s)) || (it_signed T && (x =? 0) && (s =? digits T)))) (x * 2 ^ s).
Proof.
  intros HT HU Hx Hs. destruct (digits_range T HT) as (Hd & Hb & Hp & Hm & _).
  destruct (shift_rel U s (digits T) HU Hs ltac:(lia)) as (E1 & E2 & _). unfold CheckedLshOp. rewrite E1, E2. clear E1 E2.
  assert (negb (IsValueNegative T x) = (0 <=? x)) as ->.
  { unfold IsValueNegative, values, int_min in *. destruct (it_signed T); apply Bool.eq_true_iff_eq; lia. }
  destruct (Z.leb_spec 0 x) as [Hx0|Hx0]; cbn [andb].
  - destruct (Z.leb_spec 0 s) as [Hs0|Hs0]; cbn [andb].
    + destruct (Z.ltb_spec s (digits T)) as [Hlt|Hge].
      * assert (as_unsigned T x = x) as ->.
        { apply convert_unsigned_small; [done|]. unfold values in Hx. rewrite Hm in Hx.
          assert (2 ^ digits T ≤ 2 ^ it_bits T) by (apply Z.pow_le_mono_r; lia). lia. }
        destruct (shl_exact T x s HT) as (q & -> & Hq); [unfold values in Hx; lia|lia|]. rewrite bind_ret, Hq.
        unfold shr. rewrite (proj2 (Z.ltb_ge s 0)), (proj2 (Z.leb_gt _ s)) by lia. cbn [orb]. rewrite bind_ret.
        rewrite Z.shiftr_div_pow2 by lia.
        assert (values T (convert T (x * 2 ^ s) / 2 ^ s)) as Hback.
        { pose proof (convert_values T (x * 2 ^ s) HT) as Hc. pose proof (limits_order T HT). unfold values in *.
          assert (0 < 2 ^ s) by (by apply pow2_pos). split; [apply Z.div_le_lower_bound|apply Z.div_le_upper_bound]; nia. }
        rewrite rel_exact by done. rewrite shift_reversible by (done || lia). cbn [andb].
        assert ((s =? digits T) = false) as -> by (apply Z.eqb_neq; lia). rewrite !andb_false_r, orb_false_r.
        eexists. split; [done|]. intros Hin%in_range_spec. by apply std_convert.
      * cbn [andb orb]. destruct (it_signed T); cbn [negb orb andb]; [|by exists r].
        destruct (Z.eqb_spec x 0) as [->|]; cbn [negb orb andb]; [|by exists r].
        destruct (s =? digits T); [by exists 0|by exists r].
    + assert ((s =? digits T) = false) as -> by (apply Z.eqb_neq; lia). cbn [negb]. rewrite orb_true_r. by exists r.
  - rewrite (proj2 (Z.eqb_neq x 0)) by lia. cbn [negb]. rewrite orb_true_r. cbn [orb]. by exists r.
Qed.

Lemma CheckedRshOp_spec T U x s r : is_std T → is_std U → values T x → values U s →
  does (CheckedRshOp T U T x s r) ((0 <=? s) && (s <? it_bits T)) (x / 2 ^ s).
Proof.
  intros HT HU Hx Hs. destruct (digits_range T HT) as (Hd & Hb & Hp & Hm & HI).
  destruct (shift_rel U s (it_bits T) HU Hs ltac:(lia)) as (_ & _ & E). unfold CheckedRshOp. rewrite HI, E.
  destruct (Z.leb_spec 0 s); [|by exists r]. destruct (Z.ltb_spec s (it_bits T)); [|by exists r]. cbn [andb negb].
  unfold shr. rewrite (proj2 (Z.ltb_ge s 0)), (proj2 (Z.leb_gt _ s)) by lia. cbn [orb]. rewrite bind_ret, Z.shiftr_div_pow2 by lia.
  assert (values T (x / 2 ^ s)) as Hq.
  { pose proof (limits_order T HT). unfold values in *. assert (0 < 2 ^ s) by (by apply pow2_pos).
    split; [apply Z.div_le_lower_bound|apply Z.div_le_upper_bound]; nia. }
  rewrite std_convert, assign_spec by done. rewrite (proj2 (in_range_spec _ _) Hq). by eexists.
Qed.

End Shifts.

Section Bitwise.
Context {pf : Platform}.

Lemma bitwise_type_std T U : is_std T → is_std U → is_std (bitwise_type T U).
Proof.
  intros HT HU. unfold bitwise_type, MaxExponentPromotion. destruct (_ >? _); [std_cases HT|std_cases HU];
    unfold is_std, std_types; simpl; tauto.
Qed.

(** Operations on bits commute with reduction to [w] bits, and stay in range. *)
Lemma CheckedBitOp_spec f T U V x y r : is_std T → is_std U → is_std V →
  (∀ w a b, 0 < w → 0 ≤ a < 2 ^ w → 0 ≤ b < 2 ^ w → 0 ≤ f a b < 2 ^ w) →
  let w := it_bits (MaxExponentPromotion T U) in
  let z := f (x mod 2 ^ w) (y mod 2 ^ w) in
  does (CheckedBitOp f T U V x y r) (in_range V z) z.
Proof.
  intros HT HU HV Hf w z. pose proof (bitwise_type_std T U HT HU) as HB. pose proof (std_bits _ HB) as Hw.
  unfold CheckedBitOp. change (convert (bitwise_type T U) x) with (x mod 2 ^ w). change (convert (bitwise_type T U) y) with (y mod 2 ^ w).
  fold z. change (it_bits (bitwise_type T U)) with w in Hw.
  assert (values (bitwise_type T U) z) as Hz.
  { unfold values. change (int_min (bitwise_type T U)) with 0. change (int_max (bitwise_type T U)) with (2 ^ w - 1).
    assert (0 < 2 ^ w) by (apply pow2_pos; lia). pose proof (Hf w (x mod 2 ^ w) (y mod 2 ^ w)). 
    pose proof (Z.mod_pos_bound x (2 ^ w)). pose proof (Z.mod_pos_bound y (2 ^ w)). unfold z. lia. }
  rewrite assign_spec by done. eexists. split; [done|]. by intros ->.
Qed.

Lemma max_min_types T U x y : is_std T → is_std U → values T x → values U y →
  is_std (MaxExponentPromotion T U) ∧ is_std (LowestValuePromotion T U) ∧
  values (MaxExponentPromotion T U) (Z.max x y) ∧ values (LowestValuePromotion T U) (Z.min x y).
Proof.
  intros HT HU Hx Hy. split_and!.
  - unfold MaxExponentPromotion. by destruct (_ >? _).
  - unfold LowestValuePromotion. repeat case_match; done.
  - unfold values in *. std_cases HT; std_cases HU;
      match goal with |- context [MaxExponentPromotion ?A ?B] => compute_term (MaxExponentPromotion A B) end; compute_types; lia.
  - unfold values in *. std_cases HT; std_cases HU;
      match goal with |- context [LowestValuePromotion ?A ?B] => compute_term (LowestValuePromotion A B) end; compute_types; lia.
Qed.

Lemma CheckedMaxOp_spec T U V x y r : is_std T → is_std U → is_std V → values T x → values U y →
  does (CheckedMaxOp T U V x y r) (in_range V (Z.max x y)) (Z.max x y).
Proof.
  intros HT HU HV Hx Hy. destruct (max_min_types T U x y HT HU Hx Hy) as (HM & _ & Hv & _). unfold CheckedMaxOp.
  rewrite IsGreater_exact by done. set (M := MaxExponentPromotion T U) in *.
  assert ((if y <? x then convert M x else convert M y) = Z.max x y) as ->.
  { destruct (Z.ltb_spec y x); [replace (Z.max x y) with x in * by lia|replace (Z.max x y) with y in * by lia]; by apply std_convert. }
  rewrite assign_spec by done. eexists. split; [done|]. by intros ->.
Qed.

Lemma CheckedMinOp_spec T U V x y r : is_std T → is_std U → is_std V → values T x → values U y →
  does (CheckedMinOp T U V x y r) (in_range V (Z.min x y)) (Z.min x y).
Proof.
  intros HT HU HV Hx Hy. destruct (max_min_types T U x y HT HU Hx Hy) as (_ & HM & _ & Hv). unfold CheckedMinOp.
  rewrite IsLess_exact by done. set (M := LowestValuePromotion T U) in *.
  assert ((if x <? y then convert M x else convert M y) = Z.min x y) as ->.
  { destruct (Z.ltb_spec x y); [replace (Z.min x y) with x in * by lia|replace (Z.min x y) with y in * by lia]; by apply std_convert. }
  rewrite assign_spec by done. eexists. split; [done|]. by intros ->.
Qed.

End Bitwise.
