(* ===== verification/CheckedNumeric.v ===== *)
(** * Checked numerics

    Model of the class [CheckedNumeric<T>] of
    [src/include/base/numerics/checked_math.h] with its state from
    [checked_math_impl.h], for integral types, over the operations of
    [CheckedMath].  A type [T] of the templates is an argument; what an
    operator accepts (a plain number or a checked one) is an [operand]. *)

From S2P Require Import Prelude BaseNumerics CheckedMath.

(** ** State *)

Record CheckedNumericState := mkState { is_valid_ : bool; value_ : Z }.

(** [CheckedNumericState<T>(value, is_valid)] for a value of type [Src]. *)
Definition CheckedNumericState_make (T Src : int_type) (value : Z) (is_valid : bool) : CheckedNumericState :=
  mkState (is_valid && IsValueInRangeForNumericType T Src value) (convert T value).

Definition CN_IsValid (Dst T : int_type) (s : CheckedNumericState) : bool :=
  is_valid_ s && IsValueInRangeForNumericType Dst T (value_ s).

(** What [*result] holds, and the flag. *)
Definition AssignIfValid (Dst T : int_type) (s : CheckedNumericState) (result : Z) : Z * bool :=
  if CN_IsValid Dst T s then (convert Dst (value_ s), true) else (result, false).

Definition ValueOrDie (Dst T : int_type) (s : CheckedNumericState) : outcome Z :=
  if CN_IsValid Dst T s then Ret (convert Dst (value_ s)) else Crash CheckFailed.

Definition ValueOrDefault (Dst T Src : int_type) (s : CheckedNumericState) (default_value : Z) : outcome Z :=
  if CN_IsValid Dst T s then Ret (convert Dst (value_ s)) else checked_cast Dst Src default_value.

(** The copy constructor from [CheckedNumeric<Src>]. *)
Definition CN_convert (T Src : int_type) (rhs : CheckedNumericState) : CheckedNumericState :=
  CheckedNumericState_make T Src (value_ rhs) (CN_IsValid Src Src rhs).

(** ** Unary operators *)

Definition NegateWrapper (T : int_type) (value : Z) : Z :=
  let UnsignedT := make_unsigned T in
  convert T (convert (sum_type UnsignedT UnsignedT) (0 - convert UnsignedT value)).

Definition InvertWrapper (T : int_type) (value : Z) : Z := convert (make_unsigned T) (Z.lnot value).

Definition CN_neg (T : int_type) (s : CheckedNumericState) : CheckedNumericState :=
  let is_valid := CN_IsValid T T s && (negb (it_signed T) || negb (NegateWrapper T (value_ s) =? int_min T)) in
  CheckedNumericState_make T T (NegateWrapper T (value_ s)) is_valid.

Definition CN_invert (T : int_type) (s : CheckedNumericState) : CheckedNumericState :=
  CN_convert T (make_unsigned T)
    (CheckedNumericState_make (make_unsigned T) (make_unsigned T) (InvertWrapper T (value_ s)) (CN_IsValid T T s)).

Definition CN_Abs (T : int_type) (s : CheckedNumericState) : CheckedNumericState :=
  if negb (IsValueNegative T (value_ s)) then s else CN_neg T s.

Definition CN_UnsignedAbs (T : int_type) (s : CheckedNumericState) : CheckedNumericState :=
  CheckedNumericState_make (make_unsigned T) (make_unsigned T) (SafeUnsignedAbs T (value_ s)) (is_valid_ s).

(** ** Binary operators *)

Inductive operand := Plain (T : int_type) (v : Z) | Checked (T : int_type) (s : CheckedNumericState).

Definition UnderlyingType (o : operand) : int_type := match o with Plain T _ | Checked T _ => T end.
Definition Wrapper_is_valid (o : operand) : bool :=
  match o with Plain _ _ => true | Checked T s => CN_IsValid T T s end.
Definition Wrapper_value (o : operand) : Z := match o with Plain _ v => v | Checked _ s => value_ s end.

(** A [Checked*Op]: its [result_type] and its [Do]. *)
Record math_op := mkOp {
  result_type : int_type → int_type → int_type;
  Do : int_type → int_type → int_type → Z → Z → Z → outcome (bool * Z)
}.

Section Operators.
Context {pf : Platform}.

Definition AddOp := mkOp MaxExponentPromotion CheckedAddOp.
Definition SubOp := mkOp MaxExponentPromotion CheckedSubOp.
Definition MulOp := mkOp MaxExponentPromotion CheckedMulOp.
Definition DivOp := mkOp MaxExponentPromotion CheckedDivOp.
Definition ModOp := mkOp MaxExponentPromotion CheckedModOp.
Definition LshOp := mkOp (λ T _, T) CheckedLshOp.
Definition RshOp := mkOp (λ T _, T) CheckedRshOp.
Definition AndOp := mkOp bitwise_type CheckedAndOp.
Definition OrOp := mkOp bitwise_type CheckedOrOp.
Definition XorOp := mkOp bitwise_type CheckedXorOp.
Definition MaxOp := mkOp MaxExponentPromotion CheckedMaxOp.
Definition MinOp := mkOp LowestValuePromotion CheckedMinOp.

(** [CheckedNumeric<T>::MathOp<M>(lhs, rhs)]. *)
Definition MathOp (T : int_type) (M : math_op) (lhs rhs : operand) : outcome CheckedNumericState :=
  '(is_valid, result) ←
    (if Wrapper_is_valid lhs && Wrapper_is_valid rhs
     then Do M (UnderlyingType lhs) (UnderlyingType rhs) T (Wrapper_value lhs) (Wrapper_value rhs) 0
     else Ret (false, 0));
  Ret (CheckedNumericState_make T T result is_valid).

(** The assigning operators. *)
Definition MathOp_assign (T : int_type) (M : math_op) (s : CheckedNumericState) (rhs : operand)
    : outcome CheckedNumericState :=
  '(is_valid, result) ←
    (if is_valid_ s && Wrapper_is_valid rhs
     then Do M T (UnderlyingType rhs) T (value_ s) (Wrapper_value rhs) 0 else Ret (false, 0));
  Ret (CheckedNumericState_make T T result is_valid).

Definition CheckMathOp (M : math_op) (lhs rhs : operand) : outcome operand :=
  let T := result_type M (UnderlyingType lhs) (UnderlyingType rhs) in
  s ← MathOp T M lhs rhs; Ret (Checked T s).

(** The variadic form. *)
Fixpoint CheckMathOp_variadic (M : math_op) (lhs : operand) (args : list operand) : outcome operand :=
  match args with
  | [] => Ret lhs
  | rhs :: args => r ← CheckMathOp M lhs rhs; CheckMathOp_variadic M r args
  end.

(** [++x] and [--x]. *)
Definition CN_increment (T : int_type) (s : CheckedNumericState) : outcome CheckedNumericState :=
  MathOp_assign T AddOp s (Plain int32_t 1).
Definition CN_decrement (T : int_type) (s : CheckedNumericState) : outcome CheckedNumericState :=
  MathOp_assign T SubOp s (Plain int32_t 1).

(** [x++]: the new state and the old value. *)
Definition CN_post_increment (T : int_type) (s : CheckedNumericState) : outcome (CheckedNumericState * CheckedNumericState) :=
  let value := s in s ← CN_increment T s; Ret (s, value).
Definition CN_post_decrement (T : int_type) (s : CheckedNumericState) : outcome (CheckedNumericState * CheckedNumericState) :=
  let value := s in s ← CN_decrement T s; Ret (s, value).

End Operators.

(** ** Well-formed states *)

(** A state of [CheckedNumeric<T>] that stands for [v], or is invalid. *)
Definition stands_for (T : int_type) (s : CheckedNumericState) (v : option Z) : Prop :=
  values T (value_ s) ∧
  match v with Some z => is_valid_ s = true ∧ value_ s = z | None => is_valid_ s = false end.

Lemma make_stands_for T Src v b : is_std T → is_std Src → values Src v →
  stands_for T (CheckedNumericState_make T Src v b) (if b && in_range T v then Some v else None).
Proof.
  intros HT HS Hv. unfold stands_for, CheckedNumericState_make. rewrite InRange_spec by done. simpl.
  split; [by apply convert_values|]. destruct b, (in_range_cases T v) as [[-> Hin]|[-> _]]; simpl; try done.
  split; [done|]. by apply std_convert.
Qed.

Lemma stands_for_valid T s v : is_std T → stands_for T s v → CN_IsValid T T s = is_valid_ s.
Proof.
  intros HT [Hv _]. unfold CN_IsValid. rewrite InRange_spec, (proj2 (in_range_spec _ _) Hv) by done. by rewrite andb_true_r.
Qed.

Lemma stands_for_cases T s v : stands_for T s v → v = (if is_valid_ s then Some (value_ s) else None).
Proof. intros [_ H]. destruct v; [destruct H as [-> ->]|rewrite H]; done. Qed.

Lemma NegateWrapper_spec T v : is_std T → values T v →
  NegateWrapper T v = (if it_signed T then (if v =? int_min T then int_min T else - v) else (- v) mod 2 ^ it_bits T).
Proof.
  intros HT Hv. unfold NegateWrapper, values in *.
  std_cases HT; compute_types; cbv iota; try zcase; Z.to_euclidean_division_equations; lia.
Qed.

Lemma signed_limits T : is_std T → it_signed T = true → int_min T = - int_max T - 1.
Proof. intros HT. by std_cases HT. Qed.

Lemma unsigned_limits T : is_std T → it_signed T = false → int_min T = 0.
Proof. intros HT. by std_cases HT. Qed.

Lemma unsigned_holds_abs T z : is_std T → values T z → is_std (make_unsigned T) ∧ values (make_unsigned T) (Z.abs z).
Proof.
  intros HT Hz. split; [std_cases HT; unfold is_std, std_types; simpl; tauto|].
  unfold values in *. std_cases HT; compute_types; lia.
Qed.

(** ** Exact meaning of the operations *)

Inductive bop := OAdd | OSub | OMul | ODiv | OMod | OLsh | ORsh | OAnd | OOr | OXor | OMax | OMin.

Definition bits_of (f : Z → Z → Z) (T U : int_type) (x y : Z) : Z :=
  let w := it_bits (MaxExponentPromotion T U) in f (x mod 2 ^ w) (y mod 2 ^ w).

(** The result in the integers; bitwise operations see two's complement. *)
Definition exact (o : bop) (T U : int_type) (x y : Z) : Z :=
  match o with
  | OAdd => x + y | OSub => x - y | OMul => x * y
  | ODiv => Z.quot x y | OMod => Z.rem x y
  | OLsh => x * 2 ^ y | ORsh => x / 2 ^ y
  | OAnd => bits_of Z.land T U x y | OOr => bits_of Z.lor T U x y | OXor => bits_of Z.lxor T U x y
  | OMax => Z.max x y | OMin => Z.min x y
  end.

(** Where the operation has a result. *)
Definition defined (o : bop) (T : int_type) (x y : Z) : bool :=
  match o with
  | ODiv | OMod => negb (y =? 0)
  | OLsh => (0 <=? x) && (0 <=? y) && ((y <? digits T) || (it_signed T && (x =? 0) && (y =? digits T)))
  | ORsh => (0 <=? y) && (y <? it_bits T)
  | _ => true
  end.

Section Expressions.
Context {pf : Platform} (Hptr : intptr_t = int32_t ∨ intptr_t = int64_t).

Definition op_of (o : bop) : math_op :=
  match o with
  | OAdd => AddOp | OSub => SubOp | OMul => MulOp | ODiv => DivOp | OMod => ModOp
  | OLsh => LshOp | ORsh => RshOp | OAnd => AndOp | OOr => OrOp | OXor => XorOp
  | OMax => MaxOp | OMin => MinOp
  end.

Definition op_type (o : bop) (T U : int_type) : int_type := result_type (op_of o) T U.

(** Where the implementation does not give up: operands of 64 bits and mixed
    signedness have no common type, which the portable code does not handle. *)
Definition supported (o : bop) (T U : int_type) (x y : Z) : bool :=
  match o with
  | OAdd => has_builtins || representable T U x y
  | OSub => has_builtins || (representable T U x y && representable T U x (x - y))
  | OMul => CheckedMulFastOp_is_supported T U || representable T U x y || (x =? 0) || (y =? 0)
  | ODiv => representable T U x y || (x =? 0)
  | OMod => representable T U x y
  | _ => true
  end.

(** The result goes to a variable of type [V]. *)
Definition accepts (V : int_type) (o : bop) (T U : int_type) (x y : Z) : bool :=
  supported o T U x y && defined o T x y && in_range V (exact o T U x y).

Lemma op_type_std o T U : is_std T → is_std U → is_std (op_type o T U).
Proof.
  intros HT HU. assert (is_std (MaxExponentPromotion T U)) by (unfold MaxExponentPromotion; by destruct (_ >? _)).
  destruct o; try done; try (by apply bitwise_type_std).
  unfold op_type. simpl. unfold LowestValuePromotion. repeat case_match; done.
Qed.

(** The test of the left shift. *)
Lemma shift_flag T x y : is_std T →
  defined OLsh T x y && in_range T (x * 2 ^ y) =
  (0 <=? x) && (0 <=? y) &&
  (((y <? digits T) && in_range T (x * 2 ^ y)) || (it_signed T && (x =? 0) && (y =? digits T))).
Proof.
  intros HT. cbn [defined]. destruct (0 <=? x), (0 <=? y); try done. cbn [andb].
  assert (x = 0 → in_range T (x * 2 ^ y) = true).
  { intros ->. rewrite Z.mul_0_l. apply in_range_spec. pose proof (limits_order T HT). unfold values. lia. }
  destruct (Z.eqb_spec x 0) as [E|]; [rewrite H by done|]; by destruct (y <? digits T), (it_signed T), (y =? digits T), (in_range T (x * 2 ^ y)).
Qed.

Lemma shift_back T x y : is_std T → values T x → defined ORsh T x y && in_range T (x / 2 ^ y) = defined ORsh T x y && true.
Proof.
  intros HT Hx. cbn [defined]. destruct (Z.leb_spec 0 y); [|done]. destruct (y <? it_bits T); [|done]. cbn [andb].
  pose proof (limits_order T HT). pose proof (Z.pow_pos_nonneg 2 y).
  apply in_range_spec. unfold values in *. split; [apply Z.div_le_lower_bound|apply Z.div_le_upper_bound]; nia.
Qed.

Lemma op_spec o T U V x y r : is_std T → is_std U → V = op_type o T U ∨ V = T → values T x → values U y →
  (o = OMod → representable T U x y = true) →
  does (Do (op_of o) T U V x y r) (accepts V o T U x y) (exact o T U x y).
Proof.
  intros HT HU HV Hx Hy Hmod.
  assert (is_std V) as HsV by (destruct HV as [->| ->]; [by apply op_type_std|done]).
  unfold accepts. destruct o; cbn [op_of Do exact supported defined] in *.
  - rewrite andb_true_r. by apply CheckedAddOp_spec.
  - rewrite andb_true_r. by apply CheckedSubOp_spec.
  - rewrite andb_true_r. by apply CheckedMulOp_spec.
  - rewrite (andb_comm (_ || _)). by apply CheckedDivOp_spec.
  - rewrite (Hmod eq_refl). cbn [andb]. by apply CheckedModOp_spec; [..|apply Hmod].
  - assert (V = T) as -> by (by destruct HV).
    destruct (CheckedLshOp_spec T U x y r HT HU Hx Hy) as (q & E & Hq). exists q. cbn [andb Do LshOp].
    pose proof (shift_flag T x y HT) as F. cbn [defined] in F. by rewrite F, E.
  - assert (V = T) as -> by (by destruct HV). pose proof (shift_back T x y HT Hx) as F.
    cbn [defined andb] in F. cbn [andb]. rewrite F, andb_true_r. by apply CheckedRshOp_spec.
  - apply CheckedBitOp_spec; try done. intros; by apply land_bound.
  - apply CheckedBitOp_spec; try done. intros; by apply lor_bound.
  - apply CheckedBitOp_spec; try done. intros; by apply lxor_bound.
  - by apply CheckedMaxOp_spec.
  - by apply CheckedMinOp_spec.
Qed.

(** What an operand stands for. *)
Definition means (o : operand) (v : option Z) : Prop :=
  is_std (UnderlyingType o) ∧
  match o with Plain T z => values T z ∧ v = Some z | Checked T s => stands_for T s v end.

Lemma means_wrapper o v : means o v →
  values (UnderlyingType o) (Wrapper_value o) ∧ v = (if Wrapper_is_valid o then Some (Wrapper_value o) else None).
Proof.
  intros [HT Ho]. destruct o; simpl in *; [by destruct Ho as [? ->]|].
  rewrite (stands_for_valid T s v) by done. split; [apply Ho|]. by apply (stands_for_cases T).
Qed.

(** What a binary operation makes of them. *)
Definition combine (ok : Z → Z → bool) (f : Z → Z → Z) (a b : option Z) : option Z :=
  match a, b with
  | Some x, Some y => if ok x y then Some (f x y) else None
  | _, _ => None
  end.

(** The state that an operation leaves. *)
Lemma state_of_does T b body ok v : is_std T → (b = true → does body ok v) → (ok = true → values T v) →
  ∃ s, ('(is_valid, result) ← (if b then body else Ret (false, 0)); Ret (CheckedNumericState_make T T result is_valid)) = Ret s ∧
    stands_for T s (if b && ok then Some v else None).
Proof.
  intros HT Hb Hv. destruct b; simpl.
  - destruct (Hb eq_refl) as (r & -> & Hr). simpl. eexists; split; [done|].
    unfold stands_for, CheckedNumericState_make. simpl. split; [by apply convert_values|]. destruct ok; [|done].
    rewrite Hr, InRange_spec by auto. split; [by apply in_range_spec, Hv|]. apply std_convert; auto.
  - eexists; split; [done|]. split; [by apply convert_values|done].
Qed.

Lemma MathOp_spec o V a b va vb : means a va → means b vb →
  let T := UnderlyingType a in let U := UnderlyingType b in
  V = op_type o T U ∨ V = T → (o = OMod → snd (BigEnoughPromotion T U) = true) →
  ∃ s, MathOp V (op_of o) a b = Ret s ∧ stands_for V s (combine (accepts V o T U) (exact o T U) va vb).
Proof.
  intros Ha Hb T U HV Hmod. destruct (means_wrapper a va Ha) as [Hx ->], (means_wrapper b vb Hb) as [Hy ->].
  assert (is_std T) as HT by apply Ha. assert (is_std U) as HU by apply Hb.
  assert (is_std V) as HsV by (destruct HV as [->| ->]; [by apply op_type_std|done]).
  set (x := Wrapper_value a) in *. set (y := Wrapper_value b) in *.
  destruct (state_of_does V (Wrapper_is_valid a && Wrapper_is_valid b)
    (Do (op_of o) T U V x y 0) (accepts V o T U x y) (exact o T U x y)) as (s & E & Hs); [done|..].
  - intros _. apply op_spec; try done. intros Eo. unfold representable. by rewrite Hmod.
  - intros H. apply andb_true_iff in H as [_ H]. by apply in_range_spec.
  - exists s. unfold MathOp. fold T U x y. rewrite E. split; [done|].
    unfold combine. by destruct (Wrapper_is_valid a), (Wrapper_is_valid b).
Qed.

Lemma CheckMathOp_spec o a b va vb : means a va → means b vb →
  let T := UnderlyingType a in let U := UnderlyingType b in let V := op_type o T U in
  (o = OMod → snd (BigEnoughPromotion T U) = true) →
  ∃ s, CheckMathOp (op_of o) a b = Ret (Checked V s) ∧
    means (Checked V s) (combine (accepts V o T U) (exact o T U) va vb).
Proof.
  intros Ha Hb T U V Hmod. destruct (MathOp_spec o V a b va vb Ha Hb) as (s & E & Hs); [by left|done|].
  exists s. unfold CheckMathOp. change (result_type _ _ _) with V. rewrite E. split; [done|].
  split; [apply op_type_std; [apply Ha|apply Hb]|done].
Qed.

(** The assigning operators are the static ones with the type of the object
    as the type of the result. *)
Lemma MathOp_assign_eq T s v M rhs : is_std T → stands_for T s v → MathOp_assign T M s rhs = MathOp T M (Checked T s) rhs.
Proof. intros HT Hs. unfold MathOp, MathOp_assign. simpl. by rewrite (stands_for_valid T s v). Qed.

(** ** Expressions over checked numbers *)

Inductive expr :=
| ELit (T : int_type) (z : Z)
| EBin (o : bop) (a b : expr)
| ENeg (a : expr)
| EAbs (a : expr)
| EUnsignedAbs (a : expr)
| ECast (T : int_type) (a : expr).

Fixpoint etype (e : expr) : int_type :=
  match e with
  | ELit T _ | ECast T _ => T
  | EBin o a b => op_type o (etype a) (etype b)
  | ENeg a | EAbs a => etype a
  | EUnsignedAbs a => make_unsigned (etype a)
  end.

(** A plain number is made a checked one where an operator is a member of it. *)
Definition as_checked (o : operand) : CheckedNumericState :=
  match o with Plain T v => CheckedNumericState_make T T v true | Checked _ s => s end.

Fixpoint eval (e : expr) : outcome operand :=
  match e with
  | ELit T z => Ret (Plain T z)
  | EBin o a b => x ← eval a; y ← eval b; CheckMathOp (op_of o) x y
  | ENeg a => x ← eval a; Ret (Checked (UnderlyingType x) (CN_neg (UnderlyingType x) (as_checked x)))
  | EAbs a => x ← eval a; Ret (Checked (UnderlyingType x) (CN_Abs (UnderlyingType x) (as_checked x)))
  | EUnsignedAbs a =>
      x ← eval a; Ret (Checked (make_unsigned (UnderlyingType x)) (CN_UnsignedAbs (UnderlyingType x) (as_checked x)))
  | ECast T a => x ← eval a; Ret (Checked T (CN_convert T (UnderlyingType x) (as_checked x)))
  end.

(** The value in the integers, where no step leaves the range of its type. *)
Definition fits (T : int_type) (v : option Z) : option Z :=
  v ≫= λ z, if in_range T z then Some z else None.

Fixpoint meaning (ok : bop → int_type → int_type → Z → Z → bool) (e : expr) : option Z :=
  match e with
  | ELit _ z => Some z
  | EBin o a b =>
      combine (ok o (etype a) (etype b)) (exact o (etype a) (etype b)) (meaning ok a) (meaning ok b)
  | ENeg a => fits (etype a) (Z.opp <$> meaning ok a)
  | EAbs a => fits (etype a) (Z.abs <$> meaning ok a)
  | EUnsignedAbs a => Z.abs <$> meaning ok a
  | ECast T a => fits T (meaning ok a)
  end.

Definition exact_result (o : bop) (T U : int_type) (x y : Z) : bool :=
  defined o T x y && in_range (op_type o T U) (exact o T U x y).

Fixpoint well_typed (e : expr) : Prop :=
  match e with
  | ELit T z => is_std T ∧ values T z
  | EBin o a b => well_typed a ∧ well_typed b ∧ (o = OMod → snd (BigEnoughPromotion (etype a) (etype b)) = true)
  | ENeg a => well_typed a ∧ it_signed (etype a) = true
  | EAbs a | EUnsignedAbs a => well_typed a
  | ECast T a => is_std T ∧ well_typed a
  end.

(** Every binary operation has a type that holds both operands. *)
Fixpoint contained (e : expr) : bool :=
  match e with
  | ELit _ _ => true
  | EBin _ a b => contained a && contained b && snd (BigEnoughPromotion (etype a) (etype b))
  | ENeg a | EAbs a | EUnsignedAbs a | ECast _ a => contained a
  end.

Definition implemented (o : bop) (T U : int_type) : Z → Z → bool := accepts (op_type o T U) o T U.

Lemma as_checked_spec o v : means o v → stands_for (UnderlyingType o) (as_checked o) v.
Proof.
  intros [HT Ho]. destruct o; simpl in *; [|done]. destruct Ho as [Hz ->].
  pose proof (make_stands_for T T v0 true HT HT Hz) as H. simpl in H. by rewrite (proj2 (in_range_spec T v0) Hz) in H.
Qed.

Lemma neg_spec T s v : is_std T → it_signed T = true → stands_for T s v → stands_for T (CN_neg T s) (fits T (Z.opp <$> v)).
Proof.
  intros HT Hsg Hs. pose proof (stands_for_valid T s v HT Hs) as Hv. pose proof (stands_for_cases T s v Hs) as ->.
  destruct Hs as [Hval _]. unfold CN_neg. rewrite Hv, NegateWrapper_spec, Hsg by done. cbn [negb orb].
  pose proof (limits_order T HT). pose proof (signed_limits T HT Hsg).
  set (z := value_ s) in *. set (n := if z =? int_min T then int_min T else - z).
  assert (values T n) as Hn by (unfold n, values in *; zcase; lia).
  replace (fits T (Z.opp <$> (if is_valid_ s then Some z else None)))
    with (if (is_valid_ s && negb (n =? int_min T)) && in_range T n then Some n else None); [by apply make_stands_for|].
  rewrite (proj2 (in_range_spec T n) Hn), andb_true_r. destruct (is_valid_ s); [|done]. simpl. unfold n.
  destruct (Z.eqb_spec z (int_min T)) as [E|E].
  - rewrite Z.eqb_refl. simpl. rewrite not_in_range; [done|]. unfold values. lia.
  - rewrite (proj2 (in_range_spec T (- z))) by (unfold values in *; lia). rewrite (proj2 (Z.eqb_neq _ _)); [done|].
    unfold values in *. lia.
Qed.

Lemma abs_spec T s v : is_std T → stands_for T s v → stands_for T (CN_Abs T s) (fits T (Z.abs <$> v)).
Proof.
  intros HT Hs. pose proof (limits_order T HT). pose proof (proj1 Hs) as Hval.
  unfold CN_Abs, IsValueNegative. destruct (it_signed T && (value_ s <? 0)) eqn:E.
  - apply andb_true_iff in E as [Hsg Hneg]. rewrite Hsg, Hneg. cbn [negb].
    replace (Z.abs <$> v) with (Z.opp <$> v); [by apply neg_spec|].
    rewrite (stands_for_cases T s v Hs). destruct (is_valid_ s); simpl; [f_equal; lia|done].
  - replace (if it_signed T then value_ s <? 0 else false) with false by (by destruct (it_signed T)).
    cbn [negb]. replace (fits T (Z.abs <$> v)) with v; [done|].
    pose proof (stands_for_cases T s v Hs) as ->. destruct (is_valid_ s); [|done]. simpl.
    assert (0 ≤ value_ s).
    { destruct (it_signed T) eqn:Hsg; [simpl in E; lia|].
      pose proof (unsigned_limits T HT Hsg). unfold values in *. lia. }
    rewrite Z.abs_eq by done. by rewrite (proj2 (in_range_spec T _) Hval).
Qed.

Lemma unsigned_abs_spec T s v : is_std T → stands_for T s v →
  stands_for (make_unsigned T) (CN_UnsignedAbs T s) (Z.abs <$> v).
Proof.
  intros HT Hs. pose proof (proj1 Hs) as Hval. unfold CN_UnsignedAbs. rewrite SafeUnsignedAbs_spec by done.
  destruct (unsigned_holds_abs T _ HT Hval) as [HU Ha].
  pose proof (make_stands_for _ _ _ (is_valid_ s) HU HU Ha) as H.
  rewrite (proj2 (in_range_spec _ _) Ha), andb_true_r in H.
  rewrite (stands_for_cases T s v Hs). by destruct (is_valid_ s).
Qed.

Lemma convert_spec T Src s v : is_std T → is_std Src → stands_for Src s v →
  stands_for T (CN_convert T Src s) (fits T v).
Proof.
  intros HT HS Hs. unfold CN_convert. rewrite (stands_for_valid Src s v) by done.
  pose proof (make_stands_for T Src (value_ s) (is_valid_ s) HT HS (proj1 Hs)) as H.
  rewrite (stands_for_cases Src s v Hs). by destruct (is_valid_ s).
Qed.

Lemma eval_spec e : well_typed e →
  ∃ r, eval e = Ret r ∧ UnderlyingType r = etype e ∧ means r (meaning implemented e).
Proof.
  induction e as [T z|o a IHa b IHb|a IHa|a IHa|a IHa|T a IHa]; simpl.
  - intros [HT Hz]. by eexists.
  - intros (Ha & Hb & Hmod). destruct (IHa Ha) as (x & -> & Ex & Hx), (IHb Hb) as (y & -> & Ey & Hy).
    simpl. rewrite <- Ex, <- Ey in Hmod |- *. destruct (CheckMathOp_spec o x y _ _ Hx Hy Hmod) as (s & -> & Hs). by eexists.
  - intros [Ha Hsg]. destruct (IHa Ha) as (x & -> & Ex & Hx). simpl. rewrite <- Ex in *. eexists; split; [done|]. split; [done|].
    split; [apply Hx|]. apply neg_spec; [apply Hx|done|by apply as_checked_spec].
  - intros Ha. destruct (IHa Ha) as (x & -> & Ex & Hx). simpl. rewrite <- Ex in *. eexists; split; [done|]. split; [done|].
    split; [apply Hx|]. apply abs_spec; [apply Hx|by apply as_checked_spec].
  - intros Ha. destruct (IHa Ha) as (x & -> & Ex & Hx). simpl. rewrite <- Ex in *. eexists; split; [done|]. split; [done|].
    split; [simpl; eapply unsigned_holds_abs; apply Hx || apply (means_wrapper _ _ Hx)|].
    apply unsigned_abs_spec; [apply Hx|by apply as_checked_spec].
  - intros [HT Ha]. destruct (IHa Ha) as (x & -> & Ex & Hx). simpl. rewrite <- Ex in *. eexists; split; [done|]. split; [done|].
    split; [done|]. apply convert_spec; [done|apply Hx|by apply as_checked_spec].
Qed.

(** The implementation gives up on nothing if a type holds both operands. *)
Lemma contained_supported o T U x y : is_std T → is_std U → snd (BigEnoughPromotion T U) = true →
  implemented o T U x y = exact_result o T U x y.
Proof.
  intros HT HU H. unfold implemented, accepts, exact_result, supported, representable. rewrite H.
  by destruct o; cbn [orb andb]; rewrite ?orb_true_r.
Qed.

Lemma combine_mono (p q : Z → Z → bool) f a b a' b' v : (∀ x y, p x y = true → q x y = true) →
  (∀ v, a = Some v → a' = Some v) → (∀ v, b = Some v → b' = Some v) → combine p f a b = Some v → combine q f a' b' = Some v.
Proof.
  intros Hpq Ha Hb. destruct a as [x|], b as [y|]; try done. rewrite (Ha x), (Hb y) by done. simpl.
  destruct (p x y) eqn:E; [|done]. by rewrite Hpq.
Qed.

Lemma fits_mono T (f : Z → Z) (a b : option Z) v : (∀ v, a = Some v → b = Some v) → fits T (f <$> a) = Some v → fits T (f <$> b) = Some v.
Proof. intros H. destruct a as [x|]; [|done]. by rewrite (H x). Qed.

Lemma meaning_sound e v : meaning implemented e = Some v → meaning exact_result e = Some v.
Proof.
  revert v. induction e as [T z|o a IHa b IHb|a IHa|a IHa|a IHa|T a IHa]; intros v; simpl; auto.
  - apply combine_mono; auto. intros x y. unfold implemented, accepts, exact_result. rewrite !andb_true_iff. tauto.
  - by apply fits_mono.
  - by apply fits_mono.
  - destruct (meaning implemented a) as [x|]; [|done]. by rewrite (IHa x).
  - destruct (meaning implemented a) as [x|]; [|done]. by rewrite (IHa x).
Qed.

Lemma meaning_complete e : well_typed e → contained e = true → meaning implemented e = meaning exact_result e.
Proof.
  assert (∀ e, well_typed e → is_std (etype e)) as Hstd.
  { intros e' He. destruct (eval_spec e' He) as (r & _ & <- & Hr). apply Hr. }
  induction e as [T z|o a IHa b IHb|a IHa|a IHa|a IHa|T a IHa]; simpl; try done.
  - intros (Ha & Hb & _) [[Ca Cb]%andb_true_iff Hc]%andb_true_iff. rewrite IHa, IHb by done.
    unfold combine. destruct (meaning exact_result a), (meaning exact_result b); try done.
    rewrite contained_supported by auto. done.
  - intros [Ha _] ?. by rewrite IHa.
  - intros ??. by rewrite IHa.
  - intros ??. by rewrite IHa.
  - intros [_ Ha] ?. by rewrite IHa.
Qed.

Definition exact_value (e : expr) : option Z := meaning exact_result e.

(** One more and one less need no type besides [T]. *)
Lemma step_supported T z : is_std T → values T z →
  accepts T OAdd T int32_t z 1 = in_range T (z + 1) ∧ accepts T OSub T int32_t z 1 = in_range T (z - 1).
Proof.
  intros HT Hz. unfold accepts, supported, representable. cbn [exact defined]. rewrite !andb_true_r.
  pose proof (limits_order T HT).
  destruct (snd (BigEnoughPromotion T int32_t)) eqn:E; cbn [orb andb]; rewrite ?orb_true_r; [done|].
  assert (int_min T = 0) as H0 by (clear - HT E; revert E; by std_cases HT).
  unfold values in Hz. rewrite (proj2 (Z.leb_le 0 z)) by lia. cbn [andb]. rewrite orb_true_r. split; [done|].
  destruct (Z.leb_spec 0 (z - 1)); [by rewrite orb_true_r|]. rewrite (not_in_range T (z - 1)); [by rewrite andb_false_r|].
  unfold values. lia.
Qed.

Lemma step_spec o f T s v : is_std T → stands_for T s v → o = OAdd ∧ f = Z.succ ∨ o = OSub ∧ f = Z.pred →
  ∃ s', MathOp_assign T (op_of o) s (Plain int32_t 1) = Ret s' ∧ stands_for T s' (fits T (f <$> v)).
Proof.
  intros HT Hs Ho. rewrite (MathOp_assign_eq T s v) by done.
  destruct (MathOp_spec o T (Checked T s) (Plain int32_t 1) v (Some 1)) as (s' & E & Hs'); try done.
  - split; [unfold is_std; simpl; tauto|]. by split.
  - by right.
  - by destruct Ho as [[-> _]|[-> _]].
  - exists s'. split; [done|]. pose proof (stands_for_cases T s v Hs) as ->. destruct (is_valid_ s); [|done].
    cbn [combine UnderlyingType] in Hs'. destruct (step_supported T (value_ s) HT (proj1 Hs)) as [Ha Hb].
    destruct Ho as [[-> ->]|[-> ->]]; [rewrite Ha in Hs'|rewrite Hb in Hs']; done.
Qed.
End Expressions.

(** ** Properties *)

(** C36: An expression of checked numbers, with operators of any mix of
    standard integer types, always returns; if the result is valid then no
    intermediate result left the range of its type and the value is that of
    the expression in the integers.  If every operation has a type that holds
    both its operands (only 64-bit operands of mixed signedness have none) the
    converse holds too: the result is invalid only if an intermediate result is
    undefined or out of range.  This holds with and without overflow builtins
    and assembler.  The exceptions: the remainder needs a type for its operands
    and the negation a signed operand. *)
Theorem checked_expression_exact `{Platform} (e : expr) :
  intptr_t = int32_t ∨ intptr_t = int64_t → well_typed e →
  ∃ r, eval e = Ret r ∧ UnderlyingType r = etype e ∧
    (Wrapper_is_valid r = true → exact_value e = Some (Wrapper_value r)) ∧
    (contained e = true → Wrapper_is_valid r = bool_decide (is_Some (exact_value e))).
Proof.
  intros Hptr He. destruct (eval_spec Hptr e He) as (r & E & Ht & Hr). exists r. do 2 (split; [done|]).
  destruct (means_wrapper r _ Hr) as [_ Hm]. split.
  - intros Hv. apply (meaning_sound Hptr e). rewrite Hv in Hm. exact Hm.
  - intros Hc. unfold exact_value. pose proof (meaning_complete Hptr e He Hc) as Hcm. rewrite Hm in Hcm. rewrite <- Hcm.
    destruct (Wrapper_is_valid r); symmetry; [apply bool_decide_true; by eexists|].
    apply bool_decide_false. by intros [? ?].
Qed.

(** The compound assignments ([+=], [<<=], ...) of a checked number of
    type [T] store the exact result, valid exactly if both operands are, the
    operation is defined and supported, and [T] itself holds the result,
    whatever the type of the right operand; [++] and [--] become invalid
    exactly at the limits of [T]; the postfix forms return the value from
    before the step. *)
Theorem checked_assign_exact `{Platform} (o : bop) (T : int_type) (s : CheckedNumericState) (v : option Z)
    (rhs : operand) (w : option Z) :
  intptr_t = int32_t ∨ intptr_t = int64_t → is_std T → stands_for T s v → means rhs w →
  (o = OMod → snd (BigEnoughPromotion T (UnderlyingType rhs)) = true) →
  (∃ s', MathOp_assign T (op_of o) s rhs = Ret s' ∧
     stands_for T s' (combine (accepts T o T (UnderlyingType rhs)) (exact o T (UnderlyingType rhs)) v w)) ∧
  (∃ s', CN_increment T s = Ret s' ∧ CN_post_increment T s = Ret (s', s) ∧ stands_for T s' (fits T (Z.succ <$> v))) ∧
  (∃ s', CN_decrement T s = Ret s' ∧ CN_post_decrement T s = Ret (s', s) ∧ stands_for T s' (fits T (Z.pred <$> v))).
Proof.
  intros Hptr HT Hs Hr Hmod. split; [|split].
  - rewrite (MathOp_assign_eq T s v) by done. apply MathOp_spec; try done. by right.
  - destruct (step_spec Hptr OAdd Z.succ T s v) as (s' & E & Hs'); [done..|tauto|]. exists s'.
    unfold CN_post_increment, CN_increment. change AddOp with (op_of OAdd). by rewrite E.
  - destruct (step_spec Hptr OSub Z.pred T s v) as (s' & E & Hs'); [done..|tauto|]. exists s'.
    unfold CN_post_decrement, CN_decrement. change SubOp with (op_of OSub). by rewrite E.
Qed.

(** Reading a checked number.  [IsValid<Dst>], [AssignIfValid],
    [ValueOrDie] and [ValueOrDefault] agree: they give the value if the number
    is valid and the destination type has it; otherwise [AssignIfValid] leaves
    the variable as it was and says so, [ValueOrDie] stops the program and
    [ValueOrDefault] returns the default if the destination type has that and
    stops the program if not. *)
Theorem checked_access (Dst T Src : int_type) (s : CheckedNumericState) (v : option Z) (d old : Z) :
  is_std Dst → is_std T → is_std Src → stands_for T s v → values Src d →
  CN_IsValid Dst T s = bool_decide (is_Some (fits Dst v)) ∧
  AssignIfValid Dst T s old = (default old (fits Dst v), bool_decide (is_Some (fits Dst v))) ∧
  ValueOrDie Dst T s = match fits Dst v with Some z => Ret z | None => Crash CheckFailed end ∧
  ValueOrDefault Dst T Src s d =
    match fits Dst v with Some z => Ret z | None => if in_range Dst d then Ret d else Crash CheckFailed end.
Proof.
  intros HD HT HS Hs Hd. unfold AssignIfValid, ValueOrDie, ValueOrDefault, CN_IsValid, checked_cast.
  rewrite !InRange_spec by (apply Hs || done). rewrite (stands_for_cases T s v Hs).
  destruct (is_valid_ s); cbn [andb fits mbind option_bind].
  - destruct (in_range_cases Dst (value_ s)) as [[-> Hin]|[-> _]].
    + rewrite std_convert by done. done.
    + repeat split. destruct (in_range_cases Dst d) as [[-> Hin]|[-> _]]; [by rewrite std_convert|done].
  - repeat split. destruct (in_range_cases Dst d) as [[-> Hin]|[-> _]]; [by rewrite std_convert|done].
Qed.

(** The remainder does not check its operands.  For [int64_t] and
    [uint64_t] operands no type holds both, and [CheckMod] computes in
    [uint64_t] whatever the sign: -7 mod 3 is reported as valid with the
    wrapped remainder 0, on every platform, while division refuses the same
    operands. *)
Theorem checked_mod_mixed `{Platform} :
  CheckMathOp ModOp (Plain int64_t (-7)) (Plain uint64_t 3) = Ret (Checked uint64_t (mkState true 0)) ∧
  (r ← CheckMathOp DivOp (Plain int64_t (-7)) (Plain uint64_t 3); Ret (Wrapper_is_valid r)) = Ret false.
Proof. by vm_compute. Qed.

(** ** Witnesses *)

#[local] Instance android_arm : Platform := { has_builtins := true; is_clang := true; has_assembler := true; intptr_t := int32_t }.

(** (100 * 3 - 50) << 2 in 16 bits, as an 8-bit number divided by -7. *)
Definition sample_expr : expr :=
  EBin ODiv (ECast int16_t (EBin OLsh (EBin OSub (EBin OMul (ELit int32_t 100) (ELit uint8_t 3)) (ELit int8_t 50)) (ELit uint8_t 2)))
    (ENeg (ELit int8_t 7)).

Lemma checked_expression_exact_witness :
  (∃ r, eval sample_expr = Ret r ∧ UnderlyingType r = int16_t ∧
    (Wrapper_is_valid r = true → exact_value sample_expr = Some (Wrapper_value r)) ∧
    (contained sample_expr = true → Wrapper_is_valid r = bool_decide (is_Some (exact_value sample_expr)))) ∧
  exact_value sample_expr = Some (-142).
Proof.
  split; [|by vm_compute]. apply (checked_expression_exact sample_expr); [by left|].
  simpl. unfold is_std, values; simpl. repeat split; try tauto; try done; intros; lia.
Defined.

Lemma checked_assign_exact_witness :
  ∃ s', CN_increment uint8_t (mkState true 255) = Ret s' ∧
    CN_post_increment uint8_t (mkState true 255) = Ret (s', mkState true 255) ∧
    stands_for uint8_t s' (fits uint8_t (Z.succ <$> Some 255)).
Proof.
  refine (proj1 (proj2 (checked_assign_exact OAdd uint8_t (mkState true 255) (Some 255) (Plain int8_t 1) (Some 1) _ _ _ _ _)));
    [by left|unfold is_std; simpl; tauto|by vm_compute| |done].
  split; [unfold is_std; simpl; tauto|by vm_compute].
Defined.

Lemma checked_access_witness : ValueOrDie uint8_t int32_t (mkState true 300) = Crash CheckFailed.
Proof.
  apply (checked_access uint8_t int32_t int32_t (mkState true 300) (Some 300) 7 0);
    [unfold is_std; simpl; tauto..|by vm_compute|by vm_compute].
Defined.
