(* ===== verification/ClampedMath.v ===== *)
(** * Clamped arithmetic

    Model of [src/include/base/numerics/clamped_math_impl.h] and
    [clamped_math.h] for integral types, with the clamped operations of
    [safe_math_clang_gcc_impl.h] and [safe_math_arm_impl.h]: arithmetic that
    saturates at the limits of the result type.  [constant] is what
    [MustTreatAsConstexpr] and [IsCompileTimeConstant] say of the operands: it
    selects between the code for constant evaluation and for run time. *)

From S2P Require Import Prelude BaseNumerics CheckedMath CheckedNumeric.

Section ClampedOps.
Context {pf : Platform} (constant : bool).

(** ** Operations with saturating instructions *)

(** The instructions [qadd] and [qsub]. *)
Definition qadd (x y : Z) : Z := clamp int32_t (x + y).
Definition qsub (x y : Z) : Z := clamp int32_t (x - y).

Definition ClampedAddFastAsmOp_is_supported (T U : int_type) : bool :=
  has_builtins && has_assembler && snd (BigEnoughPromotion T U) &&
  IsTypeInRangeForNumericType int32_t (fst (BigEnoughPromotion T U)).

Definition ClampedAddFastAsmOp (T U V : int_type) (x y : Z) : outcome Z :=
  if IsIntegerArithmeticSafe int32_t T U
  then r ← arith (sum_type T U) (x + y); Ret (saturated_cast constant V (sum_type T U) r)
  else x_i32 ← checked_cast int32_t T x;
       y_i32 ← checked_cast int32_t U y;
       Ret (saturated_cast constant V int32_t (qadd x_i32 y_i32)).

Definition ClampedSubFastAsmOp_is_supported := ClampedAddFastAsmOp_is_supported.

Definition ClampedSubFastAsmOp (T U V : int_type) (x y : Z) : outcome Z :=
  if IsIntegerArithmeticSafe int32_t T U
  then r ← arith (sum_type T U) (x - y); Ret (saturated_cast constant V (sum_type T U) r)
  else x_i32 ← checked_cast int32_t T x;
       y_i32 ← checked_cast int32_t U y;
       Ret (saturated_cast constant V int32_t (qsub x_i32 y_i32)).

Definition ClampedMulFastAsmOp_is_supported (T U : int_type) : bool :=
  has_builtins && CheckedMulFastAsmOp_is_supported T U.

Definition ClampedMulFastAsmOp (T U V : int_type) (x y : Z) : outcome Z :=
  if negb (IsIntegerArithmeticSafe int32_t T U) && negb (IsIntegerArithmeticSafe uint32_t T U)
  then '(is_valid, result) ← CheckedMulFastAsmOp T U V x y 0;
       Ret (if is_valid : bool then result
            else CommonMaxOrMin V V (xorb (IsValueNegative T x) (IsValueNegative U y)))
  else let Promotion := fst (FastIntegerArithmeticPromotion T U) in
       r ← arith (sum_type Promotion Promotion) (convert Promotion x * convert Promotion y);
       Ret (saturated_cast constant V (sum_type Promotion Promotion) r).

Definition ClampedNegFastOp (T : int_type) (value : Z) : outcome Z :=
  if negb (ClampedSubFastAsmOp_is_supported T T)
  then '(is_valid, result) ← builtin_overflow T (0 - value);
       Ret (if is_valid : bool then result else int_max T)
  else ClampedSubFastAsmOp T T T 0 value.

(** ** Unary operations *)

Definition SaturatedNegWrapper (T : int_type) (value : Z) : outcome Z :=
  if it_signed T then
    if constant || negb has_builtins
    then Ret (if negb (NegateWrapper T value =? int_min T) then NegateWrapper T value else int_max T)
    else ClampedNegFastOp T value
  else Ret 0.

Definition SaturatedAbsWrapper (T : int_type) (value : Z) : Z :=
  let C := sum_type (make_unsigned T) int32_t in
  let abs := SafeUnsignedAbs T value in
  convert T (convert C (abs - if IsValueNegative T (convert T abs) then 1 else 0)).

(** ** Binary operations *)

(** The [static_assert] on the type of the result. *)
Definition saturation_determined (T U V : int_type) : bool :=
  ((it_bits V =? it_bits (MaxExponentPromotion T U)) && Bool.eqb (it_signed V) (it_signed (MaxExponentPromotion T U)))
  || IsTypeInRangeForNumericType U V.

Definition ClampedAddOp (T U V : int_type) (x y : Z) : outcome Z :=
  if ClampedAddFastAsmOp_is_supported T U then ClampedAddFastAsmOp T U V x y else
  let saturated := CommonMaxOrMin V V (IsValueNegative U y) in
  '(is_valid, result) ← CheckedAddOp T U V x y 0;
  Ret (if is_valid : bool then result else saturated).

Definition ClampedSubOp (T U V : int_type) (x y : Z) : outcome Z :=
  if ClampedSubFastAsmOp_is_supported T U then ClampedSubFastAsmOp T U V x y else
  let saturated := CommonMaxOrMin V V (negb (IsValueNegative U y)) in
  '(is_valid, result) ← CheckedSubOp T U V x y 0;
  Ret (if is_valid : bool then result else saturated).

Definition ClampedMulOp (T U V : int_type) (x y : Z) : outcome Z :=
  if ClampedMulFastAsmOp_is_supported T U then ClampedMulFastAsmOp T U V x y else
  let saturated := CommonMaxOrMin V V (xorb (IsValueNegative T x) (IsValueNegative U y)) in
  '(is_valid, result) ← CheckedMulOp T U V x y 0;
  Ret (if is_valid : bool then result else saturated).

(** [SaturationDefaultLimits<V>::NaN()] of an integral type is zero. *)
Definition ClampedDivOp (T U V : int_type) (x y : Z) : outcome Z :=
  '(is_valid, result) ← CheckedDivOp T U V x y 0;
  Ret (if is_valid : bool then result
       else if negb (x =? 0) then CommonMaxOrMin V V (xorb (IsValueNegative T x) (IsValueNegative U y))
       else 0).

(** The conditional operator converts [result] and [x] to their common type. *)
Definition ClampedModOp (T U V : int_type) (x y : Z) : outcome Z :=
  '(is_valid, result) ← CheckedModOp T U V x y 0;
  let C := if (it_bits V =? it_bits T) && Bool.eqb (it_signed V) (it_signed T) then V else sum_type V T in
  Ret (convert V (if is_valid : bool then convert C result else convert C x)).

Definition ClampedLshOp (T U V : int_type) (x shift : Z) : outcome Z :=
  let saturated := if negb (x =? 0) then CommonMaxOrMin V V (IsValueNegative T x) else 0 in
  if rel Z.ltb U int32_t shift (digits T)
  then r ← shl (promote (make_unsigned T)) (as_unsigned T x) shift;
       let result := convert V r in
       back ← shr (promote V) result shift;
       Ret (if rel Z.eqb (promote V) T back x then result else saturated)
  else Ret saturated.

Definition ClampedRshOp (T U V : int_type) (x shift : Z) : outcome Z :=
  let saturated := convert V (convert (sum_type (make_unsigned V) int32_t)
                                (as_unsigned V 0 - if IsValueNegative T x then 1 else 0)) in
  if rel Z.ltb U int32_t shift (IntegerBitsPlusSign T)
  then r ← shr (promote T) x shift; Ret (saturated_cast constant V (promote T) r)
  else Ret saturated.

Definition ClampedBitOp (f : Z → Z → Z) (T U V : int_type) (x y : Z) : outcome Z :=
  let result_type := bitwise_type T U in
  Ret (convert V (f (convert result_type x) (convert result_type y))).

Definition ClampedAndOp := ClampedBitOp Z.land.
Definition ClampedOrOp := ClampedBitOp Z.lor.
Definition ClampedXorOp := ClampedBitOp Z.lxor.

Definition ClampedMaxOp (T U V : int_type) (x y : Z) : outcome Z :=
  Ret (if IsGreater T U x y then saturated_cast constant V T x else saturated_cast constant V U y).

Definition ClampedMinOp (T U V : int_type) (x y : Z) : outcome Z :=
  Ret (if IsLess T U x y then saturated_cast constant V T x else saturated_cast constant V U y).

(** ** Clamped numbers *)

(** A number with its type: [ClampedNumeric<T>] holds only a [T]. *)
Record clamped := mkClamped { c_type : int_type; c_value : Z }.

(** The constructor from a number of another type, [Cast] and the conversion
    operator. *)
Definition ClampedNumeric_make (T Src : int_type) (value : Z) : clamped :=
  mkClamped T (saturated_cast constant T Src value).

Definition CLN_neg (c : clamped) : outcome clamped :=
  v ← SaturatedNegWrapper (c_type c) (c_value c); Ret (ClampedNumeric_make (c_type c) (c_type c) v).

Definition CLN_Abs (c : clamped) : clamped :=
  ClampedNumeric_make (c_type c) (c_type c) (SaturatedAbsWrapper (c_type c) (c_value c)).

Definition CLN_UnsignedAbs (c : clamped) : clamped :=
  ClampedNumeric_make (make_unsigned (c_type c)) (make_unsigned (c_type c)) (SafeUnsignedAbs (c_type c) (c_value c)).

Definition ClampedOp (o : bop) : int_type → int_type → int_type → Z → Z → outcome Z :=
  match o with
  | OAdd => ClampedAddOp | OSub => ClampedSubOp | OMul => ClampedMulOp | ODiv => ClampedDivOp | OMod => ClampedModOp
  | OLsh => ClampedLshOp | ORsh => ClampedRshOp | OAnd => ClampedAndOp | OOr => ClampedOrOp | OXor => ClampedXorOp
  | OMax => ClampedMaxOp | OMin => ClampedMinOp
  end.

(** [ClampedNumeric<T>::MathOp<M>(lhs, rhs)]. *)
Definition ClampedNumeric_MathOp (T : int_type) (o : bop) (lhs rhs : clamped) : outcome clamped :=
  v ← ClampedOp o (c_type lhs) (c_type rhs) T (c_value lhs) (c_value rhs); Ret (ClampedNumeric_make T T v).

Definition ClampMathOp (o : bop) (lhs rhs : clamped) : outcome clamped :=
  ClampedNumeric_MathOp (op_type o (c_type lhs) (c_type rhs)) o lhs rhs.

Fixpoint ClampMathOp_variadic (o : bop) (lhs : clamped) (args : list clamped) : outcome clamped :=
  match args with
  | [] => Ret lhs
  | rhs :: args => r ← ClampMathOp o lhs rhs; ClampMathOp_variadic o r args
  end.

Definition ClampedNumeric_assign (o : bop) (c rhs : clamped) : outcome clamped :=
  ClampedNumeric_MathOp (c_type c) o c rhs.

Definition CLN_increment (c : clamped) : outcome clamped := ClampedNumeric_assign OAdd c (mkClamped int32_t 1).
Definition CLN_decrement (c : clamped) : outcome clamped := ClampedNumeric_assign OSub c (mkClamped int32_t 1).

End ClampedOps.

(** ** Saturation *)

Lemma CommonMaxOrMin_same V b : is_std V → CommonMaxOrMin V V b = if b then int_min V else int_max V.
Proof. intros HV. unfold CommonMaxOrMin. rewrite CommonMax_spec, CommonMin_spec by done. destruct b; lia. Qed.

Lemma clamp_values V z : is_std V → values V (clamp V z).
Proof. intros HV. pose proof (limits_order V HV). unfold values, clamp. lia. Qed.

Lemma IsValueNegative_spec T x : is_std T → values T x → IsValueNegative T x = (x <? 0).
Proof.
  intros HT Hx. unfold IsValueNegative. destruct (it_signed T) eqn:Es; [done|].
  pose proof (unsigned_limits T HT Es). unfold values in *. symmetry. apply Z.ltb_ge. lia.
Qed.

(** A checked operation with a fallback. *)
Lemma or_saturated V body ok v saturated :
  does body ok v → (ok = true → values V v) → (ok = false → saturated = clamp V v) →
  ('(is_valid, result) ← body; Ret (if is_valid : bool then result else saturated)) = Ret (clamp V v).
Proof.
  intros (r & -> & Hr) Hv Hs. rewrite bind_ret. destruct ok; [|by rewrite Hs]. rewrite Hr by done. by rewrite clamp_id by auto.
Qed.

(** What the types of an operation have to do with its result type. *)
Definition saturation_laws (T U : int_type) : bool :=
  let M := MaxExponentPromotion T U in
  (int_max T <=? int_max M) &&
  implb (it_signed U) (int_min M <=? int_min T) &&
  implb (negb (snd (BigEnoughPromotion T U))) (negb (it_signed T && it_signed U)) &&
  implb (IsTypeInRangeForNumericType int32_t (fst (BigEnoughPromotion T U)) && snd (BigEnoughPromotion T U))
    (contains int32_t T && contains int32_t U) &&
  implb (IsIntegerArithmeticSafe int32_t T U)
    ((it_bits (sum_type T U) =? 32) && it_signed (sum_type T U) && is_std_b (sum_type T U) &&
     (int_min int32_t <=? int_min T + int_min U) && (int_max T + int_max U <=? int_max int32_t) &&
     (int_min int32_t <=? int_min T - int_max U) && (int_max T - int_min U <=? int_max int32_t)).

Lemma saturation_laws_std T U : is_std T → is_std U → saturation_laws T U = true.
Proof. intros. apply all_pairs_std; [by vm_compute|done..]. Qed.

Lemma implb_true a b : implb a b = true ↔ (a = true → b = true).
Proof. destruct a, b; simpl; split; auto. Qed.

Lemma destination_clamp T U V : is_std T → is_std U → destination T U V →
  is_std V ∧ int_max T ≤ int_max V ∧ (it_signed U = true → int_min V ≤ int_min T) ∧
  (contains int32_t T = true → contains int32_t U = true → contains int32_t V = true).
Proof.
  intros HT HU HV. split; [by apply (std_of_destination T U)|].
  pose proof (saturation_laws_std T U HT HU) as H. unfold saturation_laws in H. rewrite !andb_true_iff, !implb_true in H.
  destruct H as [[[[H1 H2] _] _] _]. destruct HV as [->| ->]; [|by repeat split].
  split; [lia|]. split; [intros E; specialize (H2 E); lia|]. unfold MaxExponentPromotion. by destruct (_ >? _).
Qed.

(** A detour through the common type with another type changes nothing. *)
Lemma convert_common A B z : is_std A → is_std B → values A z → convert A (convert (sum_type A B) z) = z.
Proof.
  intros HA HB Hz. unfold values in *. std_cases HA; std_cases HB; compute_types; Z.to_euclidean_division_equations; lia.
Qed.

Section ClampedSpecs.
Context {pf : Platform} (constant : bool).
Context (T U V : int_type) (HT : is_std T) (HU : is_std U) (HV : destination T U V).
Context (x y : Z) (Hx : values T x) (Hy : values U y).

(** The instructions for 32 bits and the sum of small types agree with the
    integers. *)
Lemma fast_asm (f : Z → Z → Z) : f = Z.add ∨ f = Z.sub → ClampedAddFastAsmOp_is_supported T U = true →
  (if IsIntegerArithmeticSafe int32_t T U
   then r ← arith (sum_type T U) (f x y); Ret (saturated_cast constant V (sum_type T U) r)
   else x_i32 ← checked_cast int32_t T x;
        y_i32 ← checked_cast int32_t U y;
        Ret (saturated_cast constant V int32_t (clamp int32_t (f x_i32 y_i32)))) = Ret (clamp V (f x y)).
Proof.
  intros Hf Hs. destruct (destination_clamp T U V HT HU HV) as (HsV & _ & _ & Hc).
  pose proof (saturation_laws_std T U HT HU) as H. unfold saturation_laws in H. rewrite !andb_true_iff, !implb_true in H.
  destruct H as [[_ H4] H5]. unfold ClampedAddFastAsmOp_is_supported in Hs. rewrite !andb_true_iff in Hs.
  destruct Hs as [[_ Hbig] Hin]. rewrite andb_true_iff in H4. specialize (H4 (conj Hin Hbig)). apply andb_true_iff in H4 as [HcT HcU].
  assert (is_std int32_t) as H32 by (unfold is_std; simpl; tauto).
  assert (values int32_t x) as Hx32 by (by apply (contains_values _ T)).
  assert (values int32_t y) as Hy32 by (by apply (contains_values _ U)).
  destruct (IsIntegerArithmeticSafe int32_t T U).
  - specialize (H5 eq_refl). rewrite !andb_true_iff in H5. destruct H5 as [[[[[[Eb Es] Hstd] L1] L2] L3] L4].
    apply is_std_b_spec in Hstd.
    assert (sum_type T U = int32_t) as E by (destruct (sum_type T U); simpl in *; f_equal; [lia|done]).
    rewrite E. assert (values int32_t (f x y)) as Hv by (destruct Hf as [-> | ->]; unfold values in *; lia).
    unfold arith. cbn [it_signed int32_t]. rewrite (proj2 (in_range_spec _ _) Hv), bind_ret. by rewrite saturated_spec.
  - unfold checked_cast. rewrite !InRange_spec, (proj2 (in_range_spec _ _) Hx32), (proj2 (in_range_spec _ _) Hy32) by done.
    rewrite !bind_ret, !(std_convert int32_t) by done. rewrite saturated_spec by (try done; by apply clamp_values).
    specialize (Hc HcT HcU). unfold contains in Hc. f_equal. unfold clamp. lia.
Qed.

Context (Hptr : intptr_t = int32_t ∨ intptr_t = int64_t).

Lemma ClampedAddOp_spec : supported OAdd T U x y = true →
  ClampedAddFastAsmOp_is_supported T U || (int_min V <=? int_min T) || (0 <=? x) = true →
  ClampedAddOp constant T U V x y = Ret (clamp V (x + y)).
Proof.
  intros Hsup Hok. unfold ClampedAddOp. destruct (ClampedAddFastAsmOp_is_supported T U) eqn:Ef.
  { by apply (fast_asm Z.add); [left|]. }
  destruct (destination_clamp T U V HT HU HV) as (HsV & Hmax & _ & _). pose proof (limits_order V HsV).
  apply (or_saturated V _ ((has_builtins || representable T U x y) && in_range V (x + y))); [by apply CheckedAddOp_spec|..];
    change (has_builtins || representable T U x y) with (supported OAdd T U x y); rewrite Hsup; cbn [andb].
  - by rewrite in_range_spec.
  - intros Hout. rewrite CommonMaxOrMin_same, IsValueNegative_spec by done.
    destruct (in_range_cases V (x + y)) as [[E _]|[_ Hr]]; [congruence|].
    cbn [orb] in Hok. unfold clamp, values in *. zcase; lia.
Qed.

Lemma ClampedSubOp_spec : supported OSub T U x y || ((int_min V =? 0) && (0 <=? y)) = true →
  ClampedSubOp constant T U V x y = Ret (clamp V (x - y)).
Proof.
  intros Hok. unfold ClampedSubOp, ClampedSubFastAsmOp_is_supported. destruct (ClampedAddFastAsmOp_is_supported T U) eqn:Ef.
  { by apply (fast_asm Z.sub); [right|]. }
  destruct (destination_clamp T U V HT HU HV) as (HsV & Hmax & Hmin & _). pose proof (limits_order V HsV).
  pose proof (CheckedSubOp_spec Hptr T U V HT HU HV x y Hx Hy 0) as Hd.
  change (has_builtins || _) with (supported OSub T U x y) in Hd.
  apply (or_saturated V _ _ _ _ Hd); [rewrite andb_true_iff, in_range_spec; tauto|].
  intros Hf. rewrite CommonMaxOrMin_same, IsValueNegative_spec by done.
  assert (in_range V (x - y) = false) as Hout.
  { apply andb_false_iff in Hf as [Hf|Hf]; [|done]. rewrite Hf in Hok. cbn [orb] in Hok.
    cbn [supported] in Hf. unfold representable in Hf. apply not_in_range. unfold values. lia. }
  destruct (in_range_cases V (x - y)) as [[E _]|[_ Hr]]; [congruence|].
  destruct (Z.ltb_spec y 0) as [Hneg|Hneg]; cbn [negb].
  - assert (it_signed U = true) as Hs.
    { destruct (it_signed U) eqn:Es; [done|]. pose proof (unsigned_limits U HU Es). unfold values in *. lia. }
    specialize (Hmin Hs). unfold clamp, values in *. lia.
  - unfold clamp, values in *. lia.
Qed.

(** Where the promotion does not hold both operands, exactly one is negative. *)
Lemma not_representable : representable T U x y = false → x < 0 ≤ y ∨ y < 0 ≤ x.
Proof.
  unfold representable. rewrite orb_false_iff. intros [Hc Hn].
  pose proof (saturation_laws_std T U HT HU) as H. unfold saturation_laws in H. rewrite !andb_true_iff, !implb_true, Hc in H.
  destruct H as [[[_ H] _] _]. specialize (H eq_refl). pose proof (unsigned_limits T HT). pose proof (unsigned_limits U HU).
  unfold values in *. destruct (it_signed T), (it_signed U); try done; lia.
Qed.

(** The limit on the side of the exact result. *)
Lemma sign_saturates z : is_std V → in_range V z = false → xorb (x <? 0) (y <? 0) = (z <? 0) →
  CommonMaxOrMin V V (xorb (IsValueNegative T x) (IsValueNegative U y)) = clamp V z.
Proof.
  intros HsV Hout Hz. rewrite CommonMaxOrMin_same, !IsValueNegative_spec, Hz by done. pose proof (limits_order V HsV).
  destruct (in_range_cases V z) as [[E _]|[_ Hr]]; [congruence|]. unfold clamp. zcase; lia.
Qed.

Lemma mul_sign : x ≠ 0 → y ≠ 0 → xorb (x <? 0) (y <? 0) = (x * y <? 0).
Proof. intros. destruct (Z.ltb_spec x 0), (Z.ltb_spec y 0); cbn [xorb]; symmetry; [apply Z.ltb_ge|apply Z.ltb_lt..|apply Z.ltb_ge]; nia. Qed.

Lemma mul_out : is_std V → in_range V (x * y) = false → xorb (x <? 0) (y <? 0) = (x * y <? 0).
Proof.
  intros HsV Hout. pose proof (limits_order V HsV).
  assert (∀ z, z = 0 → in_range V z = true) as H0 by (intros z ->; apply in_range_spec; unfold values; lia).
  apply mul_sign; intros ->; rewrite H0 in Hout by lia; done.
Qed.

Lemma ClampedMulOp_spec : supported OMul T U x y || (int_min V =? 0) = true →
  ClampedMulOp constant T U V x y = Ret (clamp V (x * y)).
Proof.
  intros Hok. destruct (destination_clamp T U V HT HU HV) as (HsV & _). unfold ClampedMulOp.
  destruct (ClampedMulFastAsmOp_is_supported T U) eqn:Ef.
  - unfold ClampedMulFastAsmOp_is_supported in Ef. apply andb_true_iff in Ef as [_ Ea]. unfold ClampedMulFastAsmOp.
    destruct (negb _ && negb _).
    + pose proof (CheckedMulFastOp_spec T U V x y 0 HT HU HsV Hx Hy) as Hd. unfold CheckedMulFastOp in Hd. rewrite Ea in Hd.
      apply (or_saturated V _ _ _ _ Hd); [by rewrite in_range_spec|]. intros Hout. apply sign_saturates; auto using mul_out.
    + unfold CheckedMulFastAsmOp_is_supported in Ea. apply andb_true_iff in Ea as [_ Ea].
      destruct (mul_promotion T U HT HU) as (HP & Hsafe & Hv & _). set (P := fst (FastIntegerArithmeticPromotion T U)) in *.
      destruct (Hv x y Hx Hy) as [_ Hv']. destruct (Hv' (Hsafe Ea)) as (HPx & HPy & HPxy).
      rewrite !(std_convert P) by done. rewrite arith_exact, bind_ret by done.
      rewrite sum_type_same, saturated_spec; [done|done|by apply promote_std|by apply values_promote].
  - pose proof (CheckedMulOp_spec T U V x y 0 HT HU HV Hx Hy) as Hd. change (_ || _ || _ || _) with (supported OMul T U x y) in Hd.
    apply (or_saturated V _ _ _ _ Hd); [rewrite andb_true_iff, in_range_spec; tauto|]. intros Hf.
    assert (in_range V (x * y) = false) as Hout; [|apply sign_saturates; auto using mul_out].
    apply andb_false_iff in Hf as [Hf|Hf]; [|done]. rewrite Hf in Hok. cbn [orb] in Hok.
    cbn [supported] in Hf. rewrite !orb_false_iff in Hf. destruct Hf as [[[_ Hr] Hx0] Hy0].
    apply not_in_range. unfold values. destruct (not_representable Hr); nia.
Qed.

(** Division by zero goes to the limit on the side of the dividend. *)
Definition div_by_zero (V : int_type) (x : Z) : Z :=
  if x =? 0 then 0 else if x <? 0 then int_min V else int_max V.

Lemma quot_sign a b : b ≠ 0 → Z.quot a b ≠ 0 → xorb (a <? 0) (b <? 0) = (Z.quot a b <? 0).
Proof.
  intros Hb Hq. pose proof (Z.quot_rem' a b) as E. pose proof (Z.rem_bound_abs a b Hb) as Hr.
  destruct (Z.ltb_spec a 0), (Z.ltb_spec b 0); cbn [xorb]; symmetry;
    [apply Z.ltb_ge|apply Z.ltb_lt|apply Z.ltb_lt|apply Z.ltb_ge]; nia.
Qed.

Lemma ClampedDivOp_spec : supported ODiv T U x y || (int_min V =? 0) = true →
  ClampedDivOp T U V x y = Ret (if y =? 0 then div_by_zero V x else clamp V (Z.quot x y)).
Proof.
  intros Hok. destruct (destination_clamp T U V HT HU HV) as (HsV & _). unfold ClampedDivOp, div_by_zero.
  destruct (CheckedDivOp_spec T U V HT HU HV x y Hx Hy 0) as (r & -> & Hr). rewrite bind_ret.
  pose proof (limits_order V HsV). cbn [supported] in Hok.
  destruct (Z.eqb_spec y 0) as [->|Hy0]; cbn [negb andb] in *.
  { f_equal. destruct (x =? 0); [done|]. cbn [negb]. rewrite CommonMaxOrMin_same, !IsValueNegative_spec by done.
    by rewrite xorb_false_r. }
  f_equal. destruct (representable T U x y || (x =? 0)) eqn:Hsup; cbn [andb orb] in *.
  - destruct (in_range V (Z.quot x y)) eqn:Hin; [rewrite Hr by done; symmetry; by apply clamp_id, in_range_spec|].
    assert (Z.quot x y ≠ 0) as Hq0.
    { intros E. rewrite E in Hin. rewrite (proj2 (in_range_spec V 0)) in Hin; [done|]. unfold values. lia. }
    assert (x ≠ 0) by (intros ->; by rewrite Z.quot_0_l in Hq0). rewrite (proj2 (Z.eqb_neq x 0)) by done. cbn [negb].
    apply sign_saturates; [done|done|]. by apply quot_sign.
  - apply orb_false_iff in Hsup as [Hrep ->]. cbn [negb]. rewrite CommonMaxOrMin_same, !IsValueNegative_spec by done.
    assert (xorb (x <? 0) (y <? 0) = true) as ->.
    { destruct (not_representable Hrep); destruct (Z.ltb_spec x 0), (Z.ltb_spec y 0); cbn [xorb]; lia. }
    destruct (Z.eq_dec (Z.quot x y) 0) as [->|Hq0]; [unfold clamp; lia|].
    pose proof (quot_sign x y Hy0 Hq0) as Hs. destruct (not_representable Hrep); unfold clamp; destruct (Z.ltb_spec x 0), (Z.ltb_spec y 0); cbn [xorb] in Hs; lia.
Qed.

(** The remainder, or the dividend. *)
Lemma ClampedModOp_spec : representable T U x y = true → y ≠ 0 → in_range V (Z.rem x y) = true →
  ClampedModOp T U V x y = Ret (Z.rem x y).
Proof.
  intros Hrep Hy0 Hin. destruct (destination_clamp T U V HT HU HV) as (HsV & _). unfold ClampedModOp.
  destruct (CheckedModOp_spec T U V HT HU HV x y Hx Hy 0 Hrep) as (r & -> & Hr). rewrite bind_ret.
  rewrite (proj2 (Z.eqb_neq y 0)), Hin in * by done. cbn [negb andb] in *. rewrite Hr by done. apply in_range_spec in Hin.
  f_equal. destruct (_ && _); [by rewrite !std_convert by (try done; rewrite ?std_convert; done)|].
  apply convert_common; done.
Qed.
End ClampedSpecs.

(** ** Shifts *)

Lemma convert_add_multiple T z k : is_std T → convert T (z + k * 2 ^ it_bits T) = convert T z.
Proof.
  intros HT. pose proof (std_bits T HT). assert (2 ^ it_bits T ≠ 0) by (pose proof (pow2_pos (it_bits T)); lia).
  unfold convert, wrapS, wrapU. destruct (it_signed T); [|by rewrite Z.mod_add].
  replace (z + k * 2 ^ it_bits T + 2 ^ (it_bits T - 1)) with (z + 2 ^ (it_bits T - 1) + k * 2 ^ it_bits T) by lia.
  by rewrite Z.mod_add.
Qed.

(** Shifting the bit pattern shifts the number, up to the modulus. *)
Lemma shl_bits T x s : is_std T → values T x → 0 ≤ s < digits T →
  ∃ r, shl (promote (make_unsigned T)) (as_unsigned T x) s = Ret r ∧ convert T r = convert T (x * 2 ^ s).
Proof.
  intros HT Hx Hs. destruct (digits_range T HT) as (Hd & Hb & _).
  assert (is_std (make_unsigned T)) as HuT by (by apply (unsigned_holds_abs T x)).
  assert (it_bits T ≤ it_bits (promote (make_unsigned T))) as Hpb by (clear - HT; std_cases HT; vm_compute; done).
  pose proof (convert_unsigned_range T x HT) as Hu. fold (as_unsigned T x) in Hu.
  unfold shl. rewrite (proj2 (Z.ltb_ge s 0)), (proj2 (Z.leb_gt _ s)) by lia. cbn [orb].
  rewrite (proj2 (andb_false_iff _ _)).
  - eexists. split; [done|]. rewrite convert_again; [|done|by apply promote_std|lia].
    destruct (convert_congruent (make_unsigned T) x HuT) as [k Hk]. unfold as_unsigned. rewrite Hk.
    replace ((x + k * 2 ^ it_bits (make_unsigned T)) * 2 ^ s) with (x * 2 ^ s + (k * 2 ^ s) * 2 ^ it_bits T)
      by (change (it_bits (make_unsigned T)) with (it_bits T); lia). by apply convert_add_multiple.
  - destruct (it_signed (promote (make_unsigned T))) eqn:Es; [right|by left].
    assert (it_bits T ≤ 16 ∧ it_bits (promote (make_unsigned T)) = 32) as [Hsmall ->].
    { clear - HT Es. std_cases HT; vm_compute in Es |- *; done. }
    rewrite (proj2 (Z.ltb_ge _ 0)), (proj2 (Z.leb_gt _ _)); [done| |lia].
    assert (2 ^ it_bits T ≤ 2 ^ 16) by (apply Z.pow_le_mono_r; lia). assert (2 ^ s ≤ 2 ^ 15) by (apply Z.pow_le_mono_r; lia).
    assert (0 < 2 ^ s) by (apply pow2_pos; lia). nia.
Qed.

Lemma shift_below U s n : is_std U → it_signed U = false → values U s → 0 ≤ n ≤ 64 → rel Z.ltb U int32_t s n = (s <? n).
Proof. intros HU Hs Hv Hn. unfold rel, values in *. std_cases HU; try done; compute_types; bool_arith. Qed.

(** A shift that cannot be reversed is out of range on the side of the sign. *)
Lemma shift_saturates T x s : is_std T → values T x → 0 ≤ s → in_range T (x * 2 ^ s) = false ∨ digits T ≤ s →
  (if negb (x =? 0) then CommonMaxOrMin T T (IsValueNegative T x) else 0) = clamp T (x * 2 ^ s).
Proof.
  intros HT Hx Hs Hout. rewrite CommonMaxOrMin_same, IsValueNegative_spec by done. pose proof (limits_order T HT) as Hl.
  destruct (Z.eqb_spec x 0) as [->|Hx0]; cbn [negb]; [rewrite Z.mul_0_l; unfold clamp; lia|].
  assert (0 < 2 ^ s) by (by apply pow2_pos).
  assert (x * 2 ^ s ≤ int_min T ∨ int_max T ≤ x * 2 ^ s) as Hside.
  { destruct Hout as [Hout|Hd]; [destruct (in_range_cases T (x * 2 ^ s)) as [[E _]|[_ ?]]; [congruence|lia]|].
    destruct (digits_range T HT) as (? & _ & _ & Hm & _). assert (2 ^ digits T ≤ 2 ^ s) by (apply Z.pow_le_mono_r; lia).
    destruct (it_signed T) eqn:Es; [pose proof (signed_limits T HT Es)|pose proof (unsigned_limits T HT Es); unfold values in *]; nia. }
  unfold clamp. destruct (Z.ltb_spec x 0); nia.
Qed.

Lemma ClampedLshOp_spec T U x s : is_std T → is_std U → it_signed U = false → values T x → values U s →
  ClampedLshOp T U T x s = Ret (clamp T (x * 2 ^ s)).
Proof.
  intros HT HU HsU Hx Hs. pose proof (unsigned_limits U HU HsU). destruct (digits_range T HT) as (Hd & Hb & Hp & _).
  assert (0 ≤ s) as Hs0 by (unfold values in Hs; lia). unfold ClampedLshOp. rewrite shift_below by (done || lia).
  destruct (Z.ltb_spec s (digits T)) as [Hlt|Hge]; [|by rewrite (shift_saturates T x s) by auto].
  destruct (shl_bits T x s HT Hx) as (q & -> & Hq); [done|]. rewrite bind_ret, Hq.
  unfold shr. rewrite (proj2 (Z.ltb_ge s 0)), (proj2 (Z.leb_gt _ s)) by lia. cbn [orb]. rewrite bind_ret, Z.shiftr_div_pow2 by lia.
  assert (values T (convert T (x * 2 ^ s) / 2 ^ s)) as Hback.
  { pose proof (convert_values T (x * 2 ^ s) HT) as Hc. pose proof (limits_order T HT). unfold values in *.
    assert (0 < 2 ^ s) by (by apply pow2_pos). split; [apply Z.div_le_lower_bound|apply Z.div_le_upper_bound]; nia. }
  rewrite rel_exact by (try done; first [by apply promote_std | by apply values_promote]).
  rewrite shift_reversible by (done || lia).
  destruct (in_range T (x * 2 ^ s)) eqn:Hin; [|by rewrite (shift_saturates T x s) by auto].
  apply in_range_spec in Hin. by rewrite std_convert, clamp_id.
Qed.

Lemma shr_values T x s : is_std T → values T x → 0 ≤ s → values T (x / 2 ^ s).
Proof.
  intros HT Hx Hs. pose proof (limits_order T HT). unfold values in *. assert (0 < 2 ^ s) by (by apply pow2_pos).
  split; [apply Z.div_le_lower_bound|apply Z.div_le_upper_bound]; nia.
Qed.

(** The value of [as_unsigned(V(0)) - IsValueNegative(x)]. *)
Lemma minus_one_or_zero T b : is_std T → (b = true → it_signed T = true) →
  convert T (convert (sum_type (make_unsigned T) int32_t) (as_unsigned T 0 - if b : bool then 1 else 0)) = if b then -1 else 0.
Proof. intros HT Hb. destruct b; [specialize (Hb eq_refl)|]; std_cases HT; by vm_compute in *. Qed.

Lemma ClampedRshOp_spec `{Platform} constant T U x s : is_std T → is_std U → it_signed U = false → values T x → values U s →
  ClampedRshOp constant T U T x s = Ret (x / 2 ^ s).
Proof.
  intros HT HU HsU Hx Hs. pose proof (unsigned_limits U HU HsU). destruct (digits_range T HT) as (Hd & Hb & Hp & Hm & HI).
  assert (0 ≤ s) as Hs0 by (unfold values in Hs; lia). unfold ClampedRshOp. rewrite HI, shift_below by (done || lia).
  destruct (Z.ltb_spec s (it_bits T)) as [Hlt|Hge].
  - unfold shr. rewrite (proj2 (Z.ltb_ge s 0)), (proj2 (Z.leb_gt _ s)) by lia. cbn [orb]. rewrite bind_ret, Z.shiftr_div_pow2 by lia.
    pose proof (shr_values T x s HT Hx Hs0) as Hq.
    rewrite saturated_spec; [by rewrite clamp_id|done|by apply promote_std|by apply values_promote].
  - rewrite minus_one_or_zero; [|done|by unfold IsValueNegative; destruct (it_signed T)]. f_equal.
    rewrite IsValueNegative_spec by done. assert (2 ^ it_bits T ≤ 2 ^ s) by (apply Z.pow_le_mono_r; lia).
    assert (2 ^ digits T ≤ 2 ^ it_bits T) by (apply Z.pow_le_mono_r; lia). unfold values in Hx.
    destruct (Z.ltb_spec x 0); symmetry; [|apply Z.div_small; lia].
    assert (int_min T = - int_max T - 1) by (apply signed_limits; [done|]; destruct (it_signed T) eqn:Es; [done|]; pose proof (unsigned_limits T HT Es); lia).
    symmetry. apply (Z.div_unique x (2 ^ s) (-1) (x + 2 ^ s)); lia.
Qed.

(** ** Bitwise operations, maximum and minimum *)

Lemma ClampedBitOp_spec f T U x y : is_std T → is_std U →
  (∀ w a b, 0 < w → 0 ≤ a < 2 ^ w → 0 ≤ b < 2 ^ w → 0 ≤ f a b < 2 ^ w) →
  ClampedBitOp f T U (bitwise_type T U) x y = Ret (bits_of f T U x y) ∧ values (bitwise_type T U) (bits_of f T U x y).
Proof.
  intros HT HU Hf. pose proof (bitwise_type_std T U HT HU) as HB. pose proof (std_bits _ HB) as Hw.
  set (w := it_bits (MaxExponentPromotion T U)). change (it_bits (bitwise_type T U)) with w in Hw.
  assert (0 < 2 ^ w) as Hp by (apply pow2_pos; lia).
  assert (values (bitwise_type T U) (bits_of f T U x y)) as Hz; [|split; [|done]].
  - unfold values. change (int_min (bitwise_type T U)) with 0. change (int_max (bitwise_type T U)) with (2 ^ w - 1).
    unfold bits_of. fold w. pose proof (Hf w (x mod 2 ^ w) (y mod 2 ^ w) Hw (Z.mod_pos_bound _ _ Hp) (Z.mod_pos_bound _ _ Hp)). lia.
  - unfold ClampedBitOp. f_equal. by apply (std_convert (bitwise_type T U)).
Qed.

Lemma ClampedMax_Min_spec `{Platform} constant T U V x y : is_std T → is_std U → is_std V → values T x → values U y →
  ClampedMaxOp constant T U V x y = Ret (clamp V (Z.max x y)) ∧ ClampedMinOp constant T U V x y = Ret (clamp V (Z.min x y)).
Proof.
  intros HT HU HV Hx Hy. unfold ClampedMaxOp, ClampedMinOp. rewrite IsGreater_exact, IsLess_exact, !saturated_spec by done.
  split; f_equal; zcase; f_equal; lia.
Qed.

(** ** Negation and absolute value *)

Lemma SaturatedNegWrapper_spec `{Platform} constant T v : is_std T → values T v →
  SaturatedNegWrapper constant T v = Ret (clamp T (- v)).
Proof.
  intros HT Hv. pose proof (limits_order T HT). unfold SaturatedNegWrapper. destruct (it_signed T) eqn:Es.
  - pose proof (signed_limits T HT Es). destruct (constant || negb has_builtins).
    + rewrite NegateWrapper_spec, Es by done. unfold clamp, values in *. f_equal.
      destruct (Z.eqb_spec v (int_min T)); [rewrite Z.eqb_refl|destruct (Z.eqb_spec (- v) (int_min T))]; cbn [negb]; lia.
    + unfold ClampedNegFastOp. destruct (ClampedSubFastAsmOp_is_supported T T) eqn:Ef; cbn [negb].
      * replace (- v) with (0 - v) by lia.
        apply (fast_asm constant T T T HT HT ltac:(by right) 0 v ltac:(unfold values; lia) Hv Z.sub); [by right|done].
      * replace (- v) with (0 - v) by lia. apply (or_saturated T _ _ _ _ (builtin_does T (0 - v) HT)); [by rewrite in_range_spec|].
        intros Hout. destruct (in_range_cases T (0 - v)) as [[E _]|[_ Hr]]; [congruence|]. unfold clamp, values in *. lia.
  - pose proof (unsigned_limits T HT Es). unfold clamp, values in *. f_equal. lia.
Qed.

Lemma SaturatedAbsWrapper_spec T v : is_std T → values T v → SaturatedAbsWrapper T v = clamp T (Z.abs v).
Proof.
  intros HT Hv. unfold SaturatedAbsWrapper. rewrite SafeUnsignedAbs_spec by done. unfold IsValueNegative, clamp, values in *.
  std_cases HT; compute_types; cbv iota; try zcase; Z.to_euclidean_division_equations; lia.
Qed.

(** ** All operations *)

Definition clamped_result (V : int_type) (o : bop) (T U : int_type) (x y : Z) : Z :=
  match o with
  | ODiv => if y =? 0 then div_by_zero V x else clamp V (Z.quot x y)
  | _ => clamp V (exact o T U x y)
  end.

Section AllOps.
Context {pf : Platform} (Hptr : intptr_t = int32_t ∨ intptr_t = int64_t) (constant : bool).

(** Where an operation that stores into type [V] saturates correctly. *)
Definition clamps (V : int_type) (o : bop) (T U : int_type) (x y : Z) : bool :=
  match o with
  | OAdd => supported OAdd T U x y && (ClampedAddFastAsmOp_is_supported T U || (int_min V <=? int_min T) || (0 <=? x))
  | OSub => supported OSub T U x y || ((int_min V =? 0) && (0 <=? y))
  | OMul | ODiv => supported o T U x y || (int_min V =? 0)
  | OMod => representable T U x y && negb (y =? 0) && in_range V (Z.rem x y)
  | OLsh | ORsh => negb (it_signed U)
  | _ => true
  end.

(** The types that results are stored in. *)
Definition stores (V : int_type) (o : bop) (T U : int_type) : Prop :=
  V = op_type o T U ∨ V = T ∧ match o with OAnd | OOr | OXor => False | _ => True end.

Lemma clamped_op_spec V o T U x y : is_std T → is_std U → stores V o T U → values T x → values U y →
  clamps V o T U x y = true →
  is_std V ∧ ClampedOp constant o T U V x y = Ret (clamped_result V o T U x y) ∧ values V (clamped_result V o T U x y).
Proof.
  intros HT HU HV Hx Hy Hok.
  assert (is_std V) as HsV by (destruct HV as [->|[-> _]]; [by apply op_type_std|done]).
  assert (values V (clamped_result V o T U x y)) as Hres.
  { destruct o; cbn [clamped_result]; try by apply clamp_values. unfold div_by_zero. pose proof (limits_order V HsV).
    repeat case_match; try (unfold values; lia). by apply clamp_values. }
  split; [done|]. split; [|done]. clear Hres.
  assert (∀ f, (∀ w a b, 0 < w → 0 ≤ a < 2 ^ w → 0 ≤ b < 2 ^ w → 0 ≤ f a b < 2 ^ w) →
    V = bitwise_type T U → ClampedBitOp f T U V x y = Ret (clamp V (bits_of f T U x y))) as Hbit.
  { intros f Hf ->. destruct (ClampedBitOp_spec f T U x y HT HU Hf) as [-> Hb]. by rewrite clamp_id. }
  destruct (ClampedMax_Min_spec constant T U V x y HT HU HsV Hx Hy) as [Hmax Hmin].
  assert (match o with OAdd | OSub | OMul | ODiv | OMod => destination T U V | _ => True end) as Hd.
  { destruct o; try done; by destruct HV as [->|[-> _]]; [left|right]. }
  destruct o; cbn [ClampedOp clamped_result exact clamps] in *; rewrite ?andb_true_iff in Hok.
  - destruct Hok. by apply ClampedAddOp_spec.
  - by apply ClampedSubOp_spec.
  - by apply ClampedMulOp_spec.
  - by apply ClampedDivOp_spec.
  - destruct Hok as [[Hr Hy0] Hin].
    rewrite ClampedModOp_spec; [|try done..]; [by rewrite clamp_id by (by apply in_range_spec)|]. lia.
  - assert (V = T) as -> by (by destruct HV as [->|[-> _]]). apply ClampedLshOp_spec; try done. by destruct (it_signed U).
  - assert (V = T) as -> by (by destruct HV as [->|[-> _]]). rewrite ClampedRshOp_spec; try done; [|by destruct (it_signed U)].
    rewrite clamp_id; [done|]. apply shr_values; try done. pose proof (unsigned_limits U HU) as H0.
    destruct (it_signed U); [done|]. unfold values in *. specialize (H0 eq_refl). lia.
  - apply Hbit; [by intros; apply land_bound|by destruct HV as [?|[_ []]]].
  - apply Hbit; [by intros; apply lor_bound|by destruct HV as [?|[_ []]]].
  - apply Hbit; [by intros; apply lxor_bound|by destruct HV as [?|[_ []]]].
  - done.
  - done.
Qed.
End AllOps.

Lemma make_same `{Platform} constant V v : is_std V → values V v → ClampedNumeric_make constant V V v = mkClamped V v.
Proof. intros HV Hv. unfold ClampedNumeric_make. by rewrite saturated_spec, clamp_id. Qed.

Definition well_formed (c : clamped) : Prop := is_std (c_type c) ∧ values (c_type c) (c_value c).

Lemma MathOp_clamped `{Platform} (Hptr : intptr_t = int32_t ∨ intptr_t = int64_t) constant V o a b :
  well_formed a → well_formed b → stores V o (c_type a) (c_type b) →
  clamps V o (c_type a) (c_type b) (c_value a) (c_value b) = true →
  ClampedNumeric_MathOp constant V o a b =
    Ret (mkClamped V (clamped_result V o (c_type a) (c_type b) (c_value a) (c_value b))).
Proof.
  intros [HT Hx] [HU Hy] HV Hok.
  destruct (clamped_op_spec Hptr constant V o _ _ _ _ HT HU HV Hx Hy Hok) as (HsV & E & Hr).
  unfold ClampedNumeric_MathOp. by rewrite E, bind_ret, make_same.
Qed.


(** ** Properties *)


(** Negation, absolute value, conversion and steps of clamped numbers
    saturate: [-x] and [Abs] give the value of the type nearest to the exact
    one (zero for the negation of an unsigned number, the maximum for the
    negation of the minimum), [UnsignedAbs] is exact, conversion to another
    type goes to its nearest value, and [++] and [--] stop at the limits. *)
Theorem clamped_unary_exact `{Platform} (constant : bool) (c : clamped) (Dst : int_type) :
  intptr_t = int32_t ∨ intptr_t = int64_t → well_formed c → is_std Dst →
  let T := c_type c in let v := c_value c in
  CLN_neg constant c = Ret (mkClamped T (clamp T (- v))) ∧
  CLN_Abs constant c = mkClamped T (clamp T (Z.abs v)) ∧
  CLN_UnsignedAbs constant c = mkClamped (make_unsigned T) (Z.abs v) ∧
  ClampedNumeric_make constant Dst T v = mkClamped Dst (clamp Dst v) ∧
  CLN_increment constant c = Ret (mkClamped T (clamp T (v + 1))) ∧
  CLN_decrement constant c = Ret (mkClamped T (clamp T (v - 1))).
Proof.
  intros Hptr Hc HD T v. destruct Hc as [HT Hv]. fold T in HT, Hv. fold v in Hv.
  destruct (unsigned_holds_abs T v HT Hv) as [HU Hu].
  assert (well_formed (mkClamped int32_t 1)) as H1 by (split; [unfold is_std; simpl; tauto|by vm_compute]).
  assert (snd (BigEnoughPromotion T int32_t) = true ∨ int_min T = 0) as Hbig by (clear - HT; std_cases HT; vm_compute; tauto).
  pose proof (limits_order T HT). split_and!.
  - unfold CLN_neg. fold T v. rewrite SaturatedNegWrapper_spec, bind_ret, make_same by (try done; by apply clamp_values). done.
  - unfold CLN_Abs. fold T v. rewrite SaturatedAbsWrapper_spec, make_same by (try done; by apply clamp_values). done.
  - unfold CLN_UnsignedAbs. fold T v. by rewrite SafeUnsignedAbs_spec, make_same.
  - unfold ClampedNumeric_make. by rewrite saturated_spec.
  - unfold CLN_increment, ClampedNumeric_assign. apply MathOp_clamped; try done; [by right|].
    fold T v. cbn [clamps supported c_type c_value]. rewrite (proj2 (Z.leb_le (int_min T) (int_min T))) by lia.
    rewrite orb_true_r. cbn [orb]. rewrite andb_true_r. unfold representable.
    destruct Hbig as [->|Hm]; cbn [orb]; [by rewrite orb_true_r|]. unfold values in Hv. apply orb_true_iff. right. lia.
  - unfold CLN_decrement, ClampedNumeric_assign. apply MathOp_clamped; try done; [by right|].
    fold T v. cbn [clamps supported c_type c_value]. unfold representable.
    destruct Hbig as [->|Hm]; cbn [orb]; [by rewrite orb_true_r|]. apply orb_true_iff. right. lia.
Qed.

(** A variadic [ClampMax] or [ClampMin] of numbers of any types is their
    maximum or minimum: its type always has the value, and nothing saturates. *)
Theorem clamp_max_min_exact `{Platform} (constant : bool) (a : clamped) (args : list clamped) :
  well_formed a → Forall well_formed args →
  (∃ m, ClampMathOp_variadic constant OMax a args = Ret m ∧ c_value m = foldl Z.max (c_value a) (map c_value args)) ∧
  (∃ m, ClampMathOp_variadic constant OMin a args = Ret m ∧ c_value m = foldl Z.min (c_value a) (map c_value args)).
Proof.
  intros Ha Hargs. revert a Ha.
  assert (∀ a b, well_formed a → well_formed b → ∃ hi lo,
    ClampMathOp constant OMax a b = Ret hi ∧ ClampMathOp constant OMin a b = Ret lo ∧ well_formed hi ∧ well_formed lo ∧
    c_value hi = Z.max (c_value a) (c_value b) ∧ c_value lo = Z.min (c_value a) (c_value b)) as Hstep.
  { intros a b [HT Hx] [HU Hy]. destruct (max_min_types _ _ _ _ HT HU Hx Hy) as (HM & HL & Hhi & Hlo).
    destruct (ClampedMax_Min_spec constant _ _ _ _ _ HT HU HM Hx Hy) as [E1 _].
    destruct (ClampedMax_Min_spec constant _ _ _ _ _ HT HU HL Hx Hy) as [_ E2].
    rewrite clamp_id in E1, E2 by done. unfold ClampMathOp, ClampedNumeric_MathOp. cbn [ClampedOp].
    change (op_type OMax _ _) with (MaxExponentPromotion (c_type a) (c_type b)).
    change (op_type OMin _ _) with (LowestValuePromotion (c_type a) (c_type b)).
    rewrite E1, E2, !bind_ret, !make_same by done. do 2 eexists. split_and!; try done; by split. }
  induction Hargs as [|b args Hb Hargs IH]; intros a Ha; cbn [ClampMathOp_variadic map foldl]; [split; by eexists|].
  destruct (Hstep a b Ha Hb) as (hi & lo & -> & -> & Hhi & Hlo & <- & <-). split; [apply (IH hi Hhi)|apply (IH lo Hlo)].
Qed.

(** ** Results that are not the nearest value *)

Definition x86_64 : Platform := {| has_builtins := true; is_clang := true; has_assembler := false; intptr_t := int64_t |}.
Definition portable_64 : Platform := {| has_builtins := false; is_clang := false; has_assembler := false; intptr_t := int64_t |}.
Definition arm_32 : Platform := {| has_builtins := true; is_clang := true; has_assembler := true; intptr_t := int32_t |}.

(** The direction of saturation is taken from the operands' signs, not from
    the result, and operands without a common type are refused, so these
    combinations go to the wrong end, wrap or lose the value.  [ClampAdd] of
    [int8_t] -100 and [uint8_t] 5 is 255 without the ARM instructions and 0 with
    them (the exact sum is -95); an [int64_t] -7 divided in place by a
    [uint64_t] 3 becomes the minimum instead of -2, on all platforms; so does,
    on 32-bit targets, -7 multiplied by 3; [ClampMod] of [int8_t] -7 by
    [uint8_t] 3 is 249, the wrapped dividend, and an [int64_t] -7 reduced in
    place by a [uint64_t] 3 becomes 0 (the remainder -1 is in range); without
    overflow builtins [uint64_t] 5 minus [int64_t] -3 is the maximum instead
    of 8, and 5 plus -3 is 0 instead of 2. *)
Theorem clamped_wrong_direction (constant : bool) :
  @ClampMathOp x86_64 constant OAdd (mkClamped int8_t (-100)) (mkClamped uint8_t 5) = Ret (mkClamped uint8_t 255) ∧
  @ClampMathOp arm_32 constant OAdd (mkClamped int8_t (-100)) (mkClamped uint8_t 5) = Ret (mkClamped uint8_t 0) ∧
  (∀ pf : Platform, @ClampedNumeric_assign pf constant ODiv (mkClamped int64_t (-7)) (mkClamped uint64_t 3)
                    = Ret (mkClamped int64_t (int_min int64_t))) ∧
  @ClampedNumeric_assign arm_32 constant OMul (mkClamped int64_t (-7)) (mkClamped uint64_t 3)
    = Ret (mkClamped int64_t (int_min int64_t)) ∧
  (∀ pf : Platform, @ClampMathOp pf constant OMod (mkClamped int8_t (-7)) (mkClamped uint8_t 3) = Ret (mkClamped uint8_t 249)) ∧
  @ClampedNumeric_assign x86_64 constant OMod (mkClamped int64_t (-7)) (mkClamped uint64_t 3) = Ret (mkClamped int64_t 0) ∧
  @ClampMathOp portable_64 constant OSub (mkClamped uint64_t 5) (mkClamped int64_t (-3))
    = Ret (mkClamped uint64_t (int_max uint64_t)) ∧
  @ClampMathOp portable_64 constant OAdd (mkClamped uint64_t 5) (mkClamped int64_t (-3)) = Ret (mkClamped uint64_t 0).
Proof.
  assert (∀ (pf : Platform) V v, is_std V → values V v → Ret (ClampedNumeric_make constant V V v) = Ret (mkClamped V v)) as Hm
    by (intros; by rewrite make_same).
  split_and!; try (intros; destruct constant; by vm_compute).
  - intros pf. apply Hm; [unfold is_std; simpl; tauto|by vm_compute].
  - intros pf. apply Hm; [unfold is_std; simpl; tauto|by vm_compute].
Qed.

(** ** Witnesses *)


Lemma clamped_unary_exact_witness : @CLN_neg arm_32 false (mkClamped int16_t (-32768)) = Ret (mkClamped int16_t 32767).
Proof.
  refine (proj1 (@clamped_unary_exact arm_32 false (mkClamped int16_t (-32768)) int8_t _ _ _));
    [by left|split; [unfold is_std; simpl; tauto|by vm_compute]|unfold is_std; simpl; tauto].
Defined.

Lemma clamp_max_min_exact_witness :
  ∃ m, @ClampMathOp_variadic x86_64 false OMax (mkClamped int8_t (-5)) [mkClamped uint64_t 7; mkClamped int32_t (-9)] = Ret m ∧
    c_value m = 7.
Proof.
  refine (proj1 (@clamp_max_min_exact x86_64 false (mkClamped int8_t (-5)) [mkClamped uint64_t 7; mkClamped int32_t (-9)] _ _)).
  - split; [unfold is_std; simpl; tauto|by vm_compute].
  - repeat apply list.Forall_cons_2; try apply list.Forall_nil_2; (split; [unfold is_std; simpl; tauto|by vm_compute]).
Defined.
