(* ===== verification/BaseTime.v ===== *)
(** * Time deltas and times of the base library

    Model of [TimeDelta] and [time_internal::TimeBase] of
    [src/include/base/time/time.h], over the clamped and checked numerics.  A
    delta is a 64-bit count of microseconds whose limits stand for infinities.
    The conversions to and from floating point, and the members whose bodies
    are not in the header, are left out. *)

From S2P Require Import Prelude BaseNumerics CheckedMath CheckedNumeric ClampedMath.

Record TimeDelta := mkDelta { delta_ : Z }.

Definition Max : TimeDelta := mkDelta (int_max int64_t).
Definition Min : TimeDelta := mkDelta (int_min int64_t).

Definition delta_eq (a b : TimeDelta) : bool := delta_ a =? delta_ b.

Definition is_zero (d : TimeDelta) : bool := delta_ d =? 0.
Definition is_max (d : TimeDelta) : bool := delta_eq d Max.
Definition is_min (d : TimeDelta) : bool := delta_eq d Min.
Definition is_inf (d : TimeDelta) : bool := is_min d || is_max d.

(** [CHECK] of the base library stops the program in every build. *)
Definition CHECK (b : bool) : outcome unit := if b then Ret tt else Crash CheckFailed.

(** ** Constants *)

Definition kHoursPerDay : Z := 24.
Definition kSecondsPerMinute : Z := 60.
Definition kMinutesPerHour : Z := 60.
Definition kMillisecondsPerSecond : Z := 1000.
Definition kMicrosecondsPerMillisecond : Z := 1000.
Definition kMicrosecondsPerSecond : Z := kMicrosecondsPerMillisecond * kMillisecondsPerSecond.
Definition kMicrosecondsPerMinute : Z := kMicrosecondsPerSecond * kSecondsPerMinute.
Definition kMicrosecondsPerHour : Z := kMicrosecondsPerMinute * kMinutesPerHour.
Definition kMicrosecondsPerDay : Z := kMicrosecondsPerHour * kHoursPerDay.
Definition kNanosecondsPerMicrosecond : Z := 1000.

Section Delta.
Context {pf : Platform} (constant : bool).

(** [int64_t{...}] of a clamped number. *)
Definition to_int64 (c : clamped) : Z := saturated_cast constant int64_t (c_type c) (c_value c).

(** ** From and to other units *)

Definition FromDays (days : Z) : outcome TimeDelta :=
  if days =? int_max int32_t then Ret Max else us ← arith int64_t (days * kMicrosecondsPerDay); Ret (mkDelta us).
Definition FromHours (hours : Z) : outcome TimeDelta :=
  if hours =? int_max int32_t then Ret Max else us ← arith int64_t (hours * kMicrosecondsPerHour); Ret (mkDelta us).
Definition FromMinutes (minutes : Z) : outcome TimeDelta :=
  if minutes =? int_max int32_t then Ret Max else us ← arith int64_t (minutes * kMicrosecondsPerMinute); Ret (mkDelta us).

Definition FromSeconds (secs : Z) : outcome TimeDelta :=
  c ← ClampMathOp constant OMul (mkClamped int64_t secs) (mkClamped int64_t kMicrosecondsPerSecond); Ret (mkDelta (to_int64 c)).
Definition FromMilliseconds (ms : Z) : outcome TimeDelta :=
  c ← ClampMathOp constant OMul (mkClamped int64_t ms) (mkClamped int64_t kMicrosecondsPerMillisecond); Ret (mkDelta (to_int64 c)).
Definition FromMicroseconds (us : Z) : TimeDelta := mkDelta us.
Definition FromNanoseconds (ns : Z) : outcome TimeDelta := us ← c_div int64_t ns kNanosecondsPerMicrosecond; Ret (mkDelta us).

Definition InHours (d : TimeDelta) : outcome Z :=
  q ← c_div int64_t (delta_ d) kMicrosecondsPerHour; Ret (saturated_cast constant int32_t int64_t q).
Definition InMinutes (d : TimeDelta) : outcome Z :=
  q ← c_div int64_t (delta_ d) kMicrosecondsPerMinute; Ret (saturated_cast constant int32_t int64_t q).
Definition InSeconds (d : TimeDelta) : outcome Z :=
  if is_inf d then Ret (delta_ d) else c_div int64_t (delta_ d) kMicrosecondsPerSecond.
Definition InMicroseconds (d : TimeDelta) : Z := delta_ d.
Definition InNanoseconds (d : TimeDelta) : outcome Z :=
  c ← ClampMathOp constant OMul (mkClamped int64_t (delta_ d)) (mkClamped int64_t kNanosecondsPerMicrosecond); Ret (to_int64 c).

(** ** Arithmetic *)

(** [delta_ >> 63] is a mask of the sign. *)
Definition magnitude (d : TimeDelta) : outcome TimeDelta :=
  if is_min d then Ret Max else
  mask ← shr int64_t (delta_ d) 63;
  s ← arith int64_t (delta_ d + mask);
  Ret (mkDelta (Z.lxor s mask)).

Definition delta_add (d other : TimeDelta) : outcome TimeDelta :=
  if negb (is_inf other)
  then c ← ClampMathOp constant OAdd (mkClamped int64_t (delta_ d)) (mkClamped int64_t (delta_ other));
       Ret (mkDelta (to_int64 c))
  else _ ← CHECK (negb (is_inf d) || (delta_ d =? delta_ other)); Ret other.

Definition delta_sub (d other : TimeDelta) : outcome TimeDelta :=
  if negb (is_inf other)
  then c ← ClampMathOp constant OSub (mkClamped int64_t (delta_ d)) (mkClamped int64_t (delta_ other));
       Ret (mkDelta (to_int64 c))
  else _ ← CHECK (negb (delta_ d =? delta_ other)); Ret (if delta_ other <? 0 then Max else Min).

Definition delta_neg (d : TimeDelta) : outcome TimeDelta :=
  if negb (is_inf d) then us ← arith int64_t (- delta_ d); Ret (mkDelta us)
  else Ret (if delta_ d <? 0 then Max else Min).

(** [operator*] and [operator/] by a number [a] of an integral type [T]. *)
Definition delta_scale (M : math_op) (d : TimeDelta) (T : int_type) (a : Z) : outcome TimeDelta :=
  let rv := CheckedNumericState_make int64_t int64_t (delta_ d) true in
  rv ← MathOp_assign int64_t M rv (Plain T a);
  if CN_IsValid int64_t int64_t rv then v ← ValueOrDie int64_t int64_t rv; Ret (mkDelta v)
  else Ret (if Bool.eqb (delta_ d <? 0) (rel Z.ltb T int32_t a 0) then Max else Min).

Definition delta_mul : TimeDelta → int_type → Z → outcome TimeDelta := delta_scale MulOp.
Definition delta_div : TimeDelta → int_type → Z → outcome TimeDelta := delta_scale DivOp.

Definition IntDiv (d a : TimeDelta) : outcome Z :=
  if negb (is_inf d) && negb (is_zero a) then c_div int64_t (delta_ d) (delta_ a) else
  _ ← CHECK (negb (is_zero d) || negb (is_zero a));
  _ ← CHECK (negb (is_inf d) || negb (is_inf a));
  Ret (if Bool.eqb (delta_ d <? 0) (delta_ a <? 0) then int_max int64_t else int_min int64_t).

Definition delta_mod (d a : TimeDelta) : outcome TimeDelta :=
  if is_inf d || is_zero a || is_inf a then Ret d else r ← c_rem int64_t (delta_ d) (delta_ a); Ret (mkDelta r).

(** ** Points in time: [TimeBase] *)

Record Time := mkTime { us_ : Z }.

Definition is_null (t : Time) : bool := us_ t =? 0.

Definition since_origin (t : Time) : TimeDelta := FromMicroseconds (us_ t).

(** The difference of two times has no check. *)
Definition time_diff (t other : Time) : outcome TimeDelta :=
  us ← arith int64_t (us_ t - us_ other); Ret (FromMicroseconds us).

Definition time_add (t : Time) (delta : TimeDelta) : outcome Time :=
  d ← delta_add (FromMicroseconds (us_ t)) delta; Ret (mkTime (InMicroseconds d)).
Definition time_sub (t : Time) (delta : TimeDelta) : outcome Time :=
  d ← delta_sub (FromMicroseconds (us_ t)) delta; Ret (mkTime (InMicroseconds d)).

End Delta.

(** ** Lemmas *)

Definition valid (d : TimeDelta) : Prop := values int64_t (delta_ d).

Lemma int64_std : is_std int64_t.
Proof. unfold is_std; simpl; tauto. Qed.
#[local] Hint Resolve int64_std : core.

Lemma int64_limits : int_min int64_t = - 2 ^ 63 ∧ int_max int64_t = 2 ^ 63 - 1.
Proof. done. Qed.

(** The test [a < 0] of any integral type. *)
Lemma sign_test T a : is_std T → values T a → rel Z.ltb T int32_t a 0 = (a <? 0).
Proof. intros HT Ha. unfold rel, values in *. std_cases HT; compute_types; bool_arith. Qed.

Section DeltaSpecs.
Context {pf : Platform} (Hptr : intptr_t = int32_t ∨ intptr_t = int64_t) (constant : bool).

(** Operands of the same type are supported by every operation. *)
Lemma clamp_int64 o x y : o = OAdd ∨ o = OSub ∨ o = OMul → values int64_t x → values int64_t y →
  (c ← ClampMathOp constant o (mkClamped int64_t x) (mkClamped int64_t y); Ret (to_int64 constant c))
  = Ret (clamp int64_t (exact o int64_t int64_t x y)).
Proof.
  intros Ho Hx Hy. unfold ClampMathOp. rewrite MathOp_clamped; try done.
  - rewrite bind_ret. unfold to_int64. cbn [c_type c_value]. 
    assert (op_type o int64_t int64_t = int64_t) as -> by (by destruct Ho as [-> |[-> | ->]]).
    assert (clamped_result int64_t o int64_t int64_t x y = clamp int64_t (exact o int64_t int64_t x y)) as ->
      by (by destruct Ho as [-> |[-> | ->]]).
    rewrite saturated_spec, clamp_id; [done|by apply clamp_values|done..|by apply clamp_values].
  - by left.
  - assert (representable int64_t int64_t x y = true) as Hr by done.
    destruct Ho as [-> |[-> | ->]]; cbn [clamps supported c_type c_value]; rewrite ?Hr, ?orb_true_r; done.
Qed.

Lemma is_inf_spec d : is_inf d = (delta_ d =? int_min int64_t) || (delta_ d =? int_max int64_t).
Proof. done. Qed.

Lemma shr_sign x : values int64_t x → shr int64_t x 63 = Ret (if x <? 0 then -1 else 0).
Proof.
  intros Hx. unfold shr. cbn [Z.ltb Z.leb orb it_bits int64_t Z.compare Pos.compare Pos.compare_cont]. f_equal.
  rewrite Z.shiftr_div_pow2 by lia. destruct int64_limits as [E1 E2]. unfold values in Hx. rewrite E1, E2 in Hx.
  destruct (Z.ltb_spec x 0); symmetry; [apply (Z.div_unique x _ _ (x + 2 ^ 63))|apply (Z.div_unique x _ _ x)]; lia.
Qed.

Lemma magnitude_spec d : valid d → magnitude d = Ret (mkDelta (clamp int64_t (Z.abs (delta_ d)))).
Proof.
  intros Hd. unfold magnitude, is_min, delta_eq. destruct int64_limits as [E1 E2]. unfold valid in Hd.
  destruct (Z.eqb_spec (delta_ d) (delta_ Min)) as [E|E]; cbn [Min delta_] in E.
  - unfold Max, clamp. rewrite E, E1, E2. done.
  - rewrite shr_sign, bind_ret by done. unfold values in Hd. unfold arith. cbn [it_signed int64_t].
    destruct (Z.ltb_spec (delta_ d) 0).
    + rewrite (proj2 (in_range_spec _ _)) by (unfold values; lia). rewrite bind_ret. do 2 f_equal.
      rewrite Z.lxor_m1_r. unfold Z.lnot, clamp. lia.
    + rewrite Z.add_0_r, (proj2 (in_range_spec _ _)) by done. rewrite bind_ret, Z.lxor_0_r. do 2 f_equal. unfold clamp. lia.
Qed.

Lemma add_spec d o : valid d → valid o →
  delta_add constant d o =
  (if is_inf o then if negb (is_inf d) || (delta_ d =? delta_ o) then Ret o else Crash CheckFailed
   else Ret (mkDelta (clamp int64_t (delta_ d + delta_ o)))).
Proof.
  intros Hd Ho. unfold delta_add. destruct (is_inf o); cbn [negb].
  - unfold CHECK. by destruct (_ || _).
  - pose proof (clamp_int64 OAdd (delta_ d) (delta_ o) ltac:(tauto) Hd Ho) as H. cbn [exact] in H.
    destruct (ClampMathOp _ _ _ _); [|done]. rewrite bind_ret in *. by injection H as ->.
Qed.

Lemma sub_spec d o : valid d → valid o →
  delta_sub constant d o =
  (if is_inf o then if delta_ d =? delta_ o then Crash CheckFailed else Ret (if delta_ o <? 0 then Max else Min)
   else Ret (mkDelta (clamp int64_t (delta_ d - delta_ o)))).
Proof.
  intros Hd Ho. unfold delta_sub. destruct (is_inf o); cbn [negb].
  - unfold CHECK. by destruct (_ =? _).
  - pose proof (clamp_int64 OSub (delta_ d) (delta_ o) ltac:(tauto) Hd Ho) as H. cbn [exact] in H.
    destruct (ClampMathOp _ _ _ _); [|done]. rewrite bind_ret in *. by injection H as ->.
Qed.

Lemma neg_delta_spec d : valid d → delta_neg d = Ret (if is_max d then Min else mkDelta (clamp int64_t (- delta_ d))).
Proof.
  intros Hd. unfold delta_neg, is_inf, is_min, is_max, delta_eq. cbn [Max Min delta_]. destruct int64_limits as [E1 E2].
  unfold valid, values in Hd. destruct (Z.eqb_spec (delta_ d) (int_min int64_t)) as [E|E]; cbn [orb negb].
  - rewrite E. by vm_compute.
  - destruct (Z.eqb_spec (delta_ d) (int_max int64_t)) as [E'|E']; cbn [negb]; [rewrite E'; by vm_compute|].
    unfold arith. cbn [it_signed int64_t]. rewrite (proj2 (in_range_spec _ _)) by (unfold values; lia).
    rewrite bind_ret. do 2 f_equal. unfold clamp. lia.
Qed.

(** What the checked number holds, and where the infinities come from. *)
Lemma scale_spec o d T a : o = OMul ∨ o = ODiv → is_std T → valid d → values T a →
  delta_scale (op_of o) d T a =
  Ret (if accepts int64_t o int64_t T (delta_ d) a then mkDelta (exact o int64_t T (delta_ d) a)
       else if Bool.eqb (delta_ d <? 0) (a <? 0) then Max else Min).
Proof.
  intros Ho HT Hd Ha. unfold delta_scale.
  pose proof (make_stands_for int64_t int64_t (delta_ d) true int64_std int64_std Hd) as Hs. cbn [andb] in Hs.
  rewrite (proj2 (in_range_spec _ _) Hd) in Hs.
  set (rv := CheckedNumericState_make int64_t int64_t (delta_ d) true) in *.
  rewrite (MathOp_assign_eq int64_t rv (Some (delta_ d))) by done.
  destruct (MathOp_spec Hptr o int64_t (Checked int64_t rv) (Plain T a) (Some (delta_ d)) (Some a)) as (s' & -> & Hs').
  - by split.
  - by split.
  - by right.
  - by destruct Ho as [-> | ->].
  - rewrite bind_ret. cbn [combine UnderlyingType] in Hs'. rewrite (stands_for_valid int64_t s' _ int64_std Hs').
    destruct (accepts int64_t o int64_t T (delta_ d) a) eqn:Ea.
    + unfold ValueOrDie. rewrite (stands_for_valid int64_t s' _ int64_std Hs'). destruct Hs' as [Hv [-> E]].
      rewrite bind_ret, E in *. by rewrite std_convert.
    + destruct Hs' as [_ ->]. by rewrite sign_test.
Qed.

Lemma mul_spec d T a : is_std T → valid d → values T a → supported OMul int64_t T (delta_ d) a = true →
  delta_mul d T a = Ret (mkDelta (clamp int64_t (delta_ d * a))).
Proof.
  intros HT Hd Ha Hs. unfold delta_mul. change MulOp with (op_of OMul). rewrite scale_spec by tauto. f_equal.
  unfold accepts. rewrite Hs. cbn [defined exact andb]. destruct int64_limits as [E1 E2].
  destruct (in_range_cases int64_t (delta_ d * a)) as [[-> Hin]|[-> Hout]]; [by rewrite clamp_id|].
  unfold clamp. rewrite E1, E2 in *. destruct (Z.ltb_spec (delta_ d) 0), (Z.ltb_spec a 0); cbn [Bool.eqb]; unfold Max, Min; f_equal; rewrite ?E1, ?E2; nia.
Qed.

Lemma div_spec d T a : is_std T → valid d → values T a → supported ODiv int64_t T (delta_ d) a = true →
  delta_div d T a = Ret (if a =? 0 then if delta_ d <? 0 then Min else Max else mkDelta (clamp int64_t (Z.quot (delta_ d) a))).
Proof.
  intros HT Hd Ha Hs. unfold delta_div. change DivOp with (op_of ODiv). rewrite scale_spec by tauto. f_equal.
  unfold accepts. rewrite Hs. cbn [defined exact andb]. destruct int64_limits as [E1 E2].
  destruct (Z.eqb_spec a 0) as [->|Ha0]; cbn [negb andb]; [by destruct (delta_ d <? 0)|].
  destruct (in_range_cases int64_t (Z.quot (delta_ d) a)) as [[-> Hin]|[-> Hout]]; [by rewrite clamp_id|].
  destruct (quot_between (delta_ d) a Ha0) as (Habs & _ & _).
  assert (Z.quot (delta_ d) a ≠ 0) as Hq by lia. pose proof (quot_sign (delta_ d) a Ha0 Hq) as Hsg.
  unfold clamp. rewrite E1, E2 in *. destruct (Z.ltb_spec (delta_ d) 0), (Z.ltb_spec a 0); cbn [xorb Bool.eqb] in *; unfold Max, Min; f_equal; rewrite ?E1, ?E2; lia.
Qed.
End DeltaSpecs.

(** ** Properties *)

(** Addition, subtraction, negation and magnitude of time deltas never
    overflow.  Adding an infinite delta gives it, unless the other operand is
    the opposite infinity, which stops the program; otherwise the sum is the
    exact one, saturated at the infinities (so an infinite left operand and a
    finite right one pointing back give a finite delta).  Negation exchanges
    the infinities. *)
Theorem timedelta_arithmetic_exact `{Platform} (constant : bool) (d o : TimeDelta) :
  intptr_t = int32_t ∨ intptr_t = int64_t → valid d → valid o →
  delta_add constant d o =
    (if is_inf o then if negb (is_inf d) || (delta_ d =? delta_ o) then Ret o else Crash CheckFailed
     else Ret (mkDelta (clamp int64_t (delta_ d + delta_ o)))) ∧
  delta_sub constant d o =
    (if is_inf o then if delta_ d =? delta_ o then Crash CheckFailed else Ret (if delta_ o <? 0 then Max else Min)
     else Ret (mkDelta (clamp int64_t (delta_ d - delta_ o)))) ∧
  delta_neg d = Ret (if is_max d then Min else mkDelta (clamp int64_t (- delta_ d))) ∧
  magnitude d = Ret (mkDelta (clamp int64_t (Z.abs (delta_ d)))).
Proof. intros Hptr Hd Ho. auto using add_spec, sub_spec, neg_delta_spec, magnitude_spec. Qed.

(** Multiplying or dividing a time delta by an integer of any type gives
    the exact (truncated) result or the infinity on its side, and dividing by
    zero the infinity on the side of the delta (positive for zero), whenever
    the operands have a common type or the delta is not negative; the one
    exception is a negative delta and an unsigned 64-bit number: there, on
    every platform, every quotient is minus infinity. *)
Theorem timedelta_scale_exact `{Platform} (d : TimeDelta) (T : int_type) (a : Z) :
  intptr_t = int32_t ∨ intptr_t = int64_t → is_std T → valid d → values T a →
  (T ≠ uint64_t ∨ 0 ≤ delta_ d →
   delta_mul d T a = Ret (mkDelta (clamp int64_t (delta_ d * a))) ∧
   delta_div d T a =
     Ret (if a =? 0 then if delta_ d <? 0 then Min else Max else mkDelta (clamp int64_t (Z.quot (delta_ d) a)))) ∧
  (T = uint64_t → delta_ d < 0 → delta_div d T a = Ret Min).
Proof.
  intros Hptr HT Hd Ha. split.
  - intros Hc. assert (representable int64_t T (delta_ d) a = true) as Hr.
    { unfold representable. destruct (snd (BigEnoughPromotion int64_t T)) eqn:E; [done|]. cbn [orb].
      assert (T = uint64_t) as -> by (revert E; clear - HT; std_cases HT; by vm_compute).
      destruct Hc as [?|?]; [done|]. unfold values in Ha. change (int_min uint64_t) with 0 in Ha. lia. }
    split; [apply mul_spec|apply div_spec]; try done; cbn [supported]; rewrite Hr; by rewrite ?orb_true_r.
  - intros -> Hneg. unfold delta_div. change DivOp with (op_of ODiv). rewrite scale_spec by tauto.
    unfold values in Ha. change (int_min uint64_t) with 0 in Ha.
    assert (supported ODiv int64_t uint64_t (delta_ d) a = false) as Hs.
    { cbn [supported]. unfold representable. change (snd (BigEnoughPromotion int64_t uint64_t)) with false. lia. }
    unfold accepts. rewrite Hs. cbn [andb]. rewrite (proj2 (Z.ltb_lt _ 0)), (proj2 (Z.ltb_ge _ 0)) by lia. done.
Qed.

Lemma arith_in t z : it_signed t = true → values t z → arith t z = Ret z.
Proof. intros Hs Hz. unfold arith. by rewrite Hs, (proj2 (in_range_spec _ _) Hz). Qed.

Lemma div_in t n k : it_signed t = true → 0 < k → values t n → is_std t → c_div t n k = Ret (Z.quot n k).
Proof.
  intros Hs Hk Hn Ht. unfold c_div. rewrite (proj2 (Z.eqb_neq k 0)) by lia. apply arith_in; [done|].
  destruct (quot_between n k ltac:(lia)) as (Ha & _ & Hp). pose proof (limits_order t Ht). pose proof (signed_limits t Ht Hs).
  unfold values in *. destruct (Z.le_gt_cases 0 n); [lia|]. pose proof (Z.quot_opp_l n k ltac:(lia)).
  assert (0 ≤ Z.quot (- n) k) by (apply Z.quot_pos; lia). lia.
Qed.

(** The number of hours or minutes that an [int] can hold fits. *)
Lemma from_unit k v : 0 < k → k * 2 ^ 31 < 2 ^ 63 → values int32_t v →
  (us ← arith int64_t (v * k); Ret (mkDelta us)) = Ret (mkDelta (v * k)) ∧ values int64_t (v * k).
Proof.
  intros Hk Hb Hv. assert (values int64_t (v * k)) as H.
  { unfold values in *. destruct int64_limits as [-> ->]. change (int_min int32_t) with (- 2 ^ 31) in Hv. change (int_max int32_t) with (2 ^ 31 - 1) in Hv. nia. }
  by rewrite arith_in.
Qed.

Lemma in_unit `{Platform} constant k v : 0 < k → values int32_t v → values int64_t (v * k) →
  (q ← c_div int64_t (v * k) k; Ret (saturated_cast constant int32_t int64_t q)) = Ret v.
Proof.
  intros Hk Hv Hvk. rewrite div_in, bind_ret, Z.quot_mul by (try done; lia).
  rewrite saturated_spec, clamp_id; try done; [unfold is_std; simpl; tauto|].
  unfold values in *. destruct int64_limits as [-> ->]. change (int_min int32_t) with (- 2 ^ 31) in Hv. change (int_max int32_t) with (2 ^ 31 - 1) in Hv. lia.
Qed.

(** Units convert back.  Every [int] number of hours or minutes comes back
    from its time delta (the maximum through infinity); every [int64_t] number
    of seconds does if it fits, and goes to the limit of [int64_t] on its side
    otherwise; nanoseconds lose what is below a microsecond. *)
Theorem timedelta_unit_round_trip `{Platform} (constant : bool) (h s : Z) :
  intptr_t = int32_t ∨ intptr_t = int64_t → values int32_t h → values int64_t s →
  (d ← FromHours h; InHours constant d) = Ret h ∧
  (d ← FromMinutes h; InMinutes constant d) = Ret h ∧
  (d ← FromSeconds constant s; InSeconds d) =
    Ret (if (int_min int64_t <? s * kMicrosecondsPerSecond) && (s * kMicrosecondsPerSecond <? int_max int64_t) then s
         else if s <? 0 then int_min int64_t else int_max int64_t) ∧
  (d ← FromNanoseconds s; InNanoseconds constant d) = Ret (s - Z.rem s 1000).
Proof.
  intros Hptr Hh Hs.
  assert (∀ k, 0 < k → k * 2 ^ 31 < 2 ^ 63 → clamp int32_t (Z.quot (int_max int64_t) k) = int_max int32_t →
    (d ← (if h =? int_max int32_t then Ret Max else us ← arith int64_t (h * k); Ret (mkDelta us));
     q ← c_div int64_t (delta_ d) k; Ret (saturated_cast constant int32_t int64_t q)) = Ret h) as Hunit.
  { intros k Hk Hb Hm. destruct (Z.eqb_spec h (int_max int32_t)) as [->|Hne].
    - rewrite bind_ret. cbn [Max delta_]. assert (values int64_t (int_max int64_t)) as Hmax by (by vm_compute).
      rewrite div_in, bind_ret, saturated_spec; try done; [by rewrite Hm|unfold is_std; simpl; tauto|].
      destruct (quot_between (int_max int64_t) k ltac:(lia)) as (Hq & _ & Hp). unfold values. destruct int64_limits as [E1 E2]. rewrite E1, E2 in *. lia.
    - destruct (from_unit k h Hk Hb Hh) as [-> Hv]. rewrite bind_ret. by apply in_unit. }
  split_and!; [apply Hunit; done..| |].
  - unfold FromSeconds. pose proof (clamp_int64 Hptr constant OMul s kMicrosecondsPerSecond ltac:(tauto) Hs ltac:(by vm_compute)) as Hc.
    cbn [exact] in Hc. destruct (ClampMathOp _ _ _ _); [|done]. rewrite !bind_ret in *. injection Hc as ->.
    unfold InSeconds. rewrite is_inf_spec. cbn [delta_]. destruct int64_limits as [E1 E2]. unfold clamp.
    destruct (Z.ltb_spec (int_min int64_t) (s * kMicrosecondsPerSecond)), (Z.ltb_spec (s * kMicrosecondsPerSecond) (int_max int64_t)); cbn [andb].
    + replace (Z.max _ _) with (s * kMicrosecondsPerSecond) by lia.
      rewrite (proj2 (Z.eqb_neq _ _)), (proj2 (Z.eqb_neq _ _)) by lia. cbn [orb].
      rewrite div_in by (try done; unfold values; lia). by rewrite Z.quot_mul.
    + unfold kMicrosecondsPerSecond, kMicrosecondsPerMillisecond, kMillisecondsPerSecond in *.
      replace (Z.max _ _) with (int_max int64_t) by lia. rewrite Z.eqb_refl, orb_true_r. by rewrite (proj2 (Z.ltb_ge s 0)) by lia.
    + unfold kMicrosecondsPerSecond, kMicrosecondsPerMillisecond, kMillisecondsPerSecond in *.
      replace (Z.max _ _) with (int_min int64_t) by lia. rewrite Z.eqb_refl. cbn [orb]. by rewrite (proj2 (Z.ltb_lt s 0)) by lia.
    + lia.
  - unfold FromNanoseconds, kNanosecondsPerMicrosecond. rewrite div_in, bind_ret by (try done; lia). rewrite bind_ret.
    assert (values int64_t (Z.quot s 1000)) as Hq.
    { destruct (quot_between s 1000 ltac:(lia)) as (Ha & _ & _). unfold values in *. destruct int64_limits as [E1 E2].
      rewrite E1, E2 in *. pose proof (Z.quot_rem' s 1000). pose proof (Z.rem_bound_abs s 1000). lia. }
    unfold InNanoseconds, kNanosecondsPerMicrosecond. cbn [delta_].
    rewrite (clamp_int64 Hptr constant OMul) by (try tauto; by vm_compute). cbn [exact]. f_equal.
    pose proof (Z.quot_rem' s 1000) as E. rewrite clamp_id; [lia|]. unfold values in *.
    pose proof (Z.rem_bound_abs s 1000 ltac:(lia)). pose proof (Z.rem_sign_mul s 1000 ltac:(lia)). destruct int64_limits as [E1 E2]. rewrite E1, E2 in *.
    destruct (Z.le_gt_cases 0 s); nia.
Qed.

(** [FromDays] does not saturate.  It is exact for the 213,503,983 numbers
    of days whose microseconds fit, gives infinity for the largest [int], and
    overflows (undefined behaviour) for all others, the smallest [int]
    included; [FromHours] and [FromNanoseconds] of the smallest argument give
    finite deltas. *)
Theorem timedelta_from_days (days : Z) : values int32_t days →
  FromDays days =
    (if days =? int_max int32_t then Ret Max
     else if Z.abs days <=? 106751991 then Ret (mkDelta (days * 86400000000)) else Crash SignedOverflow) ∧
  (∃ d, FromHours (int_min int32_t) = Ret d ∧ is_inf d = false) ∧
  (∃ d, FromNanoseconds (int_min int64_t) = Ret d ∧ is_inf d = false).
Proof.
  intros Hd. split; [|split; by eexists]. unfold FromDays. destruct (_ =? _); [done|].
  change kMicrosecondsPerDay with 86400000000. unfold arith, in_range. cbn [it_signed int64_t]. destruct int64_limits as [-> ->].
  destruct (Z.leb_spec (Z.abs days) 106751991).
  - rewrite (proj2 (Z.leb_le _ _)), (proj2 (Z.leb_le _ _)) by lia. done.
  - destruct (Z.leb_spec (- 2 ^ 63) (days * 86400000000)), (Z.leb_spec (days * 86400000000) (2 ^ 63 - 1)); try done. lia.
Qed.

(** Times and deltas.  [t + d] and [t - d] never overflow, and where the
    result is inside the limits the difference to [t] is [d] again; the
    difference of two times is exact or, where it does not fit, undefined
    behaviour. *)
Theorem time_add_diff `{Platform} (constant : bool) (t : Time) (d : TimeDelta) :
  intptr_t = int32_t ∨ intptr_t = int64_t → values int64_t (us_ t) → valid d → is_inf d = false →
  time_add constant t d = Ret (mkTime (clamp int64_t (us_ t + delta_ d))) ∧
  time_sub constant t d = Ret (mkTime (clamp int64_t (us_ t - delta_ d))) ∧
  (values int64_t (us_ t + delta_ d) → (t' ← time_add constant t d; time_diff t' t) = Ret d) ∧
  (∀ t', time_diff t t' = (if in_range int64_t (us_ t - us_ t') then Ret (mkDelta (us_ t - us_ t')) else Crash SignedOverflow)).
Proof.
  intros Hptr Ht Hd Hinf.
  assert (time_add constant t d = Ret (mkTime (clamp int64_t (us_ t + delta_ d)))) as Ha
    by (unfold time_add; by rewrite add_spec, Hinf).
  split_and!; [done| | |].
  - unfold time_sub. by rewrite sub_spec, Hinf.
  - intros Hv. rewrite Ha, bind_ret, clamp_id by done. unfold time_diff. cbn [us_].
    replace (us_ t + delta_ d - us_ t) with (delta_ d) by lia. rewrite arith_in by done. by destruct d.
  - intros t'. unfold time_diff, arith. cbn [it_signed int64_t]. by destruct (in_range _ _).
Qed.

(** Integer division and remainder of deltas: for a finite dividend and a
    divisor that is not zero they truncate and fit together, an infinite
    divisor counting as too large; a zero by zero or infinite by infinite
    quotient stops the program; other divisions by zero or of an infinite
    delta give the limit of [int64_t] on the side of the quotient. *)
Theorem timedelta_int_div (d a : TimeDelta) : valid d → valid a →
  IntDiv d a =
    (if negb (is_inf d) && negb (is_zero a) then Ret (Z.quot (delta_ d) (delta_ a))
     else if (is_zero d && is_zero a) || (is_inf d && is_inf a) then Crash CheckFailed
     else Ret (if Bool.eqb (delta_ d <? 0) (delta_ a <? 0) then int_max int64_t else int_min int64_t)) ∧
  (is_inf d = false → is_zero a = false →
   ∃ q r, IntDiv d a = Ret q ∧ delta_mod d a = Ret (mkDelta r) ∧
     (is_inf a = true → r = delta_ d) ∧ (is_inf a = false → delta_ d = delta_ a * q + r ∧ Z.abs r < Z.abs (delta_ a))).
Proof.
  intros Hd Ha.
  assert (is_inf d = false → is_zero a = false → arith int64_t (Z.quot (delta_ d) (delta_ a)) = Ret (Z.quot (delta_ d) (delta_ a))) as Hq.
  { intros Hi Hz. apply arith_in; [done|]. unfold is_zero in Hz. rewrite is_inf_spec in Hi.
    apply quot_values; try done; lia. }
  split.
  - unfold IntDiv. destruct (is_inf d) eqn:Ei, (is_zero a) eqn:Ez; cbn [negb andb orb];
      unfold CHECK; destruct (is_zero d), (is_inf a); cbn [negb andb orb]; try done.
    all: unfold c_div; unfold is_zero in Ez; rewrite Ez; by apply Hq.
  - intros Hi Hz. exists (Z.quot (delta_ d) (delta_ a)). unfold IntDiv, delta_mod, c_rem, c_div. rewrite Hi, Hz. cbn [negb andb orb].
    pose proof Hz as Hz'. unfold is_zero in Hz'. rewrite Hz', Hq by done. destruct (is_inf a).
    + exists (delta_ d). split_and!; try done. by destruct d.
    + exists (Z.rem (delta_ d) (delta_ a)). split_and!; try done. intros _.
      pose proof (Z.quot_rem' (delta_ d) (delta_ a)). pose proof (Z.rem_bound_abs (delta_ d) (delta_ a) ltac:(lia)). lia.
Qed.

(** ** Witnesses *)

#[local] Instance android_64 : Platform := { has_builtins := true; is_clang := true; has_assembler := false; intptr_t := int64_t }.

Lemma timedelta_arithmetic_exact_witness :
  delta_add false Max Min = Crash CheckFailed ∧ valid (mkDelta 5).
Proof.
  split; [|by vm_compute]. refine (proj1 (timedelta_arithmetic_exact false Max Min _ _ _)); [by right|by vm_compute..].
Defined.

(** Minus one second, halved by a [size_t]. *)
Lemma timedelta_scale_exact_witness : delta_div (mkDelta (-1000000)) uint64_t 2 = Ret Min.
Proof.
  refine (proj2 (timedelta_scale_exact (mkDelta (-1000000)) uint64_t 2 _ _ _ _) eq_refl _);
    [by right|unfold is_std; simpl; tauto|by vm_compute..].
Defined.

Lemma timedelta_unit_round_trip_witness : (d ← FromHours (-7); InHours false d) = Ret (-7).
Proof. refine (proj1 (timedelta_unit_round_trip false (-7) 12 _ _ _)); [by right|by vm_compute..]. Defined.

Lemma timedelta_from_days_witness : FromDays 106751992 = Crash SignedOverflow.
Proof. refine (proj1 (timedelta_from_days 106751992 _)). by vm_compute. Defined.

Lemma time_add_diff_witness : (t' ← time_add false (mkTime 10) (mkDelta (-4)); time_diff t' (mkTime 10)) = Ret (mkDelta (-4)).
Proof.
  refine (proj1 (proj2 (proj2 (time_add_diff false (mkTime 10) (mkDelta (-4)) _ _ _ _))) _); [by right|by vm_compute..].
Defined.

Lemma timedelta_int_div_witness : IntDiv (mkDelta (-7)) (mkDelta 2) = Ret (-3).
Proof. refine (proj1 (timedelta_int_div (mkDelta (-7)) (mkDelta 2) _ _)); by vm_compute. Defined.
