(* ===== verification/FlatTree.v ===== *)
(** * Flat trees, sets and maps

    Model of [src/include/base/containers/flat_tree.h] with the map of
    [flat_map.h] and the constant containers of [fixed_flat_map.h] and
    [fixed_flat_set.h]: a sorted vector without duplicates behind the interface
    of an ordered set or map.  The state is the vector [body_]; iterators are
    indices into it.  The comparison is a parameter that is only known to be a
    strict weak order, so different keys can be equivalent.  The standard
    algorithms used are modelled by their specified behaviour: the binary
    searches with their loop, [stable_sort], [unique] and [inplace_merge] as
    the functions they compute. *)

From stdpp Require Import sorting.
From S2P Require Import Prelude.

(** What the standard asks of a comparison. *)
Class StrictWeakOrder {Key : Type} (comp : Key → Key → bool) : Prop := {
  swo_irreflexive : ∀ a, comp a a = false;
  swo_transitive : ∀ a b c, comp a b = true → comp b c = true → comp a c = true;
  swo_equivalence : ∀ a b c, comp a b = false → comp b a = false → comp b c = false → comp c b = false →
    comp a c = false ∧ comp c a = false
}.

Section Tree.
Context {Key Value : Type} (GetKeyFromValue : Value → Key) (comp : Key → Key → bool) `{BuildMode}.

Definition value_comp (left right : Value) : bool := comp (GetKeyFromValue left) (GetKeyFromValue right).

(** ** The vector *)

Definition deref (body : list Value) (it : nat) : outcome Value :=
  match body !! it with Some v => Ret v | None => Crash OutOfBounds end.

Definition vector_emplace (body : list Value) (pos : nat) (v : Value) : list Value := take pos body ++ v :: drop pos body.
Definition vector_erase (body : list Value) (first last : nat) : list Value := take first body ++ drop last body.

(** ** Algorithms *)

(** No adjacent pair fails to be strictly increasing. *)
Fixpoint is_sorted_and_unique (range : list Value) : bool :=
  match range with
  | x :: (y :: _) as rest => value_comp x y && is_sorted_and_unique rest
  | _ => true
  end.

(** The binary search of the standard library's [lower_bound] and
    [upper_bound]: the first index of the range from [first] of length [len]
    where [p] is false, provided [p] holds for no item behind it.  A search that
    is not over when the fuel is spent is an error of the model, which
    [partition_point_spec] excludes. *)
Fixpoint partition_point (fuel : nat) (p : Value → bool) (body : list Value) (first len : nat) : outcome nat :=
  match fuel, len with
  | _, O => Ret first
  | O, S _ => Crash OutOfBounds
  | S fuel, S _ =>
      let half := (len / 2)%nat in
      v ← deref body (first + half);
      if p v then partition_point fuel p body (first + half + 1) (len - half - 1)
      else partition_point fuel p body first half
  end.

(** [std::lower_bound(first, last, val, value_comp())]. *)
Definition range_lower_bound (body : list Value) (first last : nat) (val : Value) : outcome nat :=
  partition_point (last - first) (λ v, value_comp v val) body first (last - first).

(** [std::stable_sort]: each item goes behind those that are not greater. *)
Fixpoint insert_stable (x : Value) (sorted : list Value) : list Value :=
  match sorted with
  | [] => [x]
  | y :: sorted' => if value_comp x y then x :: sorted else y :: insert_stable x sorted'
  end.

Definition stable_sort (range : list Value) : list Value := foldl (λ sorted x, insert_stable x sorted) [] range.

(** [std::unique]: an item equal to the last one kept is dropped. *)
Fixpoint unique_from (kept : Value) (range : list Value) : list Value :=
  match range with
  | [] => []
  | y :: range => if negb (value_comp kept y) then unique_from kept range else y :: unique_from y range
  end.

Definition unique (range : list Value) : list Value :=
  match range with [] => [] | x :: range => x :: unique_from x range end.

(** [std::inplace_merge] of adjacent sorted ranges. *)
Fixpoint merge (l : list Value) : list Value → list Value :=
  fix merge_l (r : list Value) : list Value :=
  match l, r with
  | [], _ => r
  | _, [] => l
  | x :: l', y :: r' => if value_comp y x then y :: merge_l r' else x :: merge l' r
  end.

(** The insertion sort of the constant containers. *)
Fixpoint sift (data : list Value) (curr : nat) : outcome (list Value) :=
  match curr with
  | O => Ret data
  | S prev =>
      a ← deref data curr;
      b ← deref data prev;
      if value_comp a b then sift (<[prev := a]> (<[curr := b]> data)) prev else Ret data
  end.

Fixpoint InsertionSort_loop (data : list Value) (it n : nat) : outcome (list Value) :=
  match n with
  | O => Ret data
  | S n => data ← sift data it; InsertionSort_loop data (S it) n
  end.

Definition InsertionSort (data : list Value) : outcome (list Value) :=
  InsertionSort_loop data 1 (length data - 1).

(** ** Lifetime *)

Definition sort_and_unique (body : list Value) (first last : nat) : list Value :=
  take first body ++ unique (stable_sort (take (last - first) (drop first body))) ++ drop last body.

(** The constructors from a range, a container or a list, and the assignment. *)
Definition flat_tree_make (items : list Value) : list Value := sort_and_unique items 0 (length items).

(** The constructors tagged [sorted_unique]. *)
Definition flat_tree_sorted (items : list Value) : outcome (list Value) :=
  _ ← RTC_DCHECK (is_sorted_and_unique items); Ret items.

Definition replace (body items : list Value) : outcome (list Value) :=
  _ ← RTC_DCHECK (is_sorted_and_unique items); Ret items.

(** What is left behind, and the container. *)
Definition extract (body : list Value) : list Value * list Value := ([], body).

(** [MakeFixedFlatMap], [MakeFixedFlatSet]. *)
Definition MakeFixed (data : list Value) : outcome (list Value) :=
  data ← InsertionSort data;
  _ ← RTC_CHECK (is_sorted_and_unique data);
  flat_tree_sorted data.

(** ** Search *)

Definition lower_bound (body : list Value) (key : Key) : outcome nat :=
  partition_point (length body) (λ v, comp (GetKeyFromValue v) key) body 0 (length body).

Definition upper_bound (body : list Value) (key : Key) : outcome nat :=
  partition_point (length body) (λ v, negb (comp key (GetKeyFromValue v))) body 0 (length body).

(** [it == end() || comp(key, *it)]. *)
Definition end_or_less (body : list Value) (key : Key) (it : nat) : outcome bool :=
  if Nat.eqb it (length body) then Ret true else v ← deref body it; Ret (comp key (GetKeyFromValue v)).

Definition equal_range (body : list Value) (key : Key) : outcome (nat * nat) :=
  lower ← lower_bound body key;
  less ← end_or_less body key lower;
  Ret (if less : bool then (lower, lower) else (lower, S lower)).

Definition count (body : list Value) (key : Key) : outcome nat :=
  '(first, second) ← equal_range body key; Ret (second - first)%nat.

Definition find (body : list Value) (key : Key) : outcome nat :=
  '(first, second) ← equal_range body key; Ret (if Nat.eqb first second then length body else first).

Definition contains (body : list Value) (key : Key) : outcome bool :=
  lower ← lower_bound body key; less ← end_or_less body key lower; Ret (negb less).

(** ** Insertion *)

Definition emplace_key_args (body : list Value) (key : Key) (v : Value) : outcome (list Value * (nat * bool)) :=
  lower ← lower_bound body key;
  less ← end_or_less body key lower;
  Ret (if less : bool then (vector_emplace body lower v, (lower, true)) else (body, (lower, false))).

Definition emplace_hint_key_args (body : list Value) (hint : nat) (key : Key) (v : Value)
    : outcome (list Value * (nat * bool)) :=
  after_prev ← (if Nat.eqb hint 0 then Ret true else p ← deref body (hint - 1); Ret (comp (GetKeyFromValue p) key));
  if after_prev : bool then
    less ← end_or_less body key hint;
    if less : bool then Ret (vector_emplace body hint v, (hint, true)) else
    h ← deref body hint;
    if negb (comp (GetKeyFromValue h) key) then Ret (body, (hint, false)) else emplace_key_args body key v
  else emplace_key_args body key v.

(** [insert(val)], [emplace]. *)
Definition insert (body : list Value) (val : Value) : outcome (list Value * (nat * bool)) :=
  emplace_key_args body (GetKeyFromValue val) val.

(** [insert(position_hint, val)], [emplace_hint]. *)
Definition insert_hint (body : list Value) (position_hint : nat) (val : Value) : outcome (list Value * nat) :=
  '(body, r) ← emplace_hint_key_args body position_hint (GetKeyFromValue val) val; Ret (body, fst r).

Definition append_unique (body : list Value) (first last : nat) (val : Value) : outcome (list Value * (nat * bool)) :=
  position ← range_lower_bound body first last val;
  less ← (if Nat.eqb position last then Ret true else v ← deref body position; Ret (value_comp val v));
  Ret (if less : bool then (body ++ [val], (position, true)) else (body, (position, false))).

Fixpoint append_loop (body : list Value) (middle : nat) (pos_first_new : nat) (range : list Value)
    : outcome (list Value * nat) :=
  match range with
  | [] => Ret (body, pos_first_new)
  | val :: range =>
      '(body, (position, inserted)) ← append_unique body 0 middle val;
      append_loop body middle (if inserted : bool then Nat.min pos_first_new position else pos_first_new) range
  end.

(** [insert(first, last)]; [multipass] says whether the iterators are at least
    forward iterators. *)
Definition insert_range (multipass : bool) (body range : list Value) : outcome (list Value) :=
  match range with
  | [] => Ret body
  | val :: rest =>
      if multipass && Nat.eqb (length rest) 0 then '(body, _) ← insert_hint body (length body) val; Ret body else
      let size := length body in
      '(body, pos_first_new) ← append_loop body size size range;
      let body := sort_and_unique body size (length body) in
      Ret (take pos_first_new body ++ merge (take (size - pos_first_new) (drop pos_first_new body)) (drop size body))
  end.

(** ** Erasure *)

Definition erase_at (body : list Value) (position : nat) : outcome (list Value) :=
  _ ← RTC_CHECK (negb (Nat.eqb position (length body)));
  _ ← deref body position;
  Ret (vector_erase body position (S position)).

Definition erase_range (body : list Value) (first last : nat) : list Value := vector_erase body first last.

Definition erase_key (body : list Value) (key : Key) : outcome (list Value * nat) :=
  '(first, second) ← equal_range body key; Ret (erase_range body first second, (second - first)%nat).

Definition clear (body : list Value) : list Value := [].

Definition EraseIf (body : list Value) (pred : Value → bool) : list Value * nat :=
  let kept := List.filter (λ v, negb (pred v)) body in (kept, (length body - length kept)%nat).

End Tree.

(** ** Maps *)

Section Map.
Context {Key Mapped : Type} (comp : Key → Key → bool) (mapped_default : Mapped) `{BuildMode}.

Definition at_key (body : list (Key * Mapped)) (key : Key) : outcome Mapped :=
  found ← find fst comp body key;
  _ ← RTC_CHECK (negb (Nat.eqb found (length body)));
  v ← deref body found; Ret v.2.

(** [operator[]]: the body, and the index of the pair whose second it returns. *)
Definition subscript (body : list (Key * Mapped)) (key : Key) : outcome (list (Key * Mapped) * nat) :=
  found ← lower_bound fst comp body key;
  less ← end_or_less fst comp body key found;
  Ret (if less : bool then (vector_emplace body found (key, mapped_default), found) else (body, found)).

(** [it->second = obj]. *)
Definition assign_second (body : list (Key * Mapped)) (it : nat) (obj : Mapped) : outcome (list (Key * Mapped)) :=
  v ← deref body it; Ret (<[it := (v.1, obj)]> body).

Definition insert_or_assign (body : list (Key * Mapped)) (key : Key) (obj : Mapped)
    : outcome (list (Key * Mapped) * (nat * bool)) :=
  '(body, (it, inserted)) ← emplace_key_args fst comp body key (key, obj);
  if inserted : bool then Ret (body, (it, inserted)) else
  body ← assign_second body it obj; Ret (body, (it, inserted)).

Definition insert_or_assign_hint (body : list (Key * Mapped)) (hint : nat) (key : Key) (obj : Mapped)
    : outcome (list (Key * Mapped) * nat) :=
  '(body, (it, inserted)) ← emplace_hint_key_args fst comp body hint key (key, obj);
  if inserted : bool then Ret (body, it) else
  body ← assign_second body it obj; Ret (body, it).

Definition try_emplace (body : list (Key * Mapped)) (key : Key) (args : Mapped)
    : outcome (list (Key * Mapped) * (nat * bool)) :=
  emplace_key_args fst comp body key (key, args).

Definition try_emplace_hint (body : list (Key * Mapped)) (hint : nat) (key : Key) (args : Mapped)
    : outcome (list (Key * Mapped) * nat) :=
  '(body, r) ← emplace_hint_key_args fst comp body hint key (key, args); Ret (body, fst r).

End Map.

(** ** Keys up to equivalence *)

Section Order.
Context {Key : Type} (comp : Key → Key → bool) `{!StrictWeakOrder comp}.

Definition keq (a b : Key) : Prop := comp a b = false ∧ comp b a = false.

#[export] Instance keq_equivalence : Equivalence keq.
Proof.
  split.
  - intros a. split; apply swo_irreflexive.
  - intros a b [? ?]. by split.
  - intros a b c [? ?] [? ?]. by apply (swo_equivalence a b c).
Qed.

Lemma comp_asym a b : comp a b = true → comp b a = false.
Proof.
  intros Hab. destruct (comp b a) eqn:E; [|done]. pose proof (swo_transitive a b a Hab E) as Ht.
  by rewrite swo_irreflexive in Ht.
Qed.

Lemma comp_cases a b : comp a b = true ∨ comp b a = true ∨ keq a b.
Proof. unfold keq. destruct (comp a b), (comp b a); auto. Qed.

#[export] Instance comp_proper : Proper (keq ==> keq ==> eq) comp.
Proof.
  assert (∀ a a' b, keq a a' → comp a b = true → comp a' b = true) as Hl.
  { intros a a' b Ha Hab. destruct (comp_cases a' b) as [?|[Hba|Hk]]; [done|..].
    - pose proof (swo_transitive a b a' Hab Hba). destruct Ha. congruence.
    - assert (keq a b) as [? ?] by (by transitivity a'). congruence. }
  assert (∀ a b b', keq b b' → comp a b = true → comp a b' = true) as Hr.
  { intros a b b' Hb Hab. destruct (comp_cases a b') as [?|[Hba|Hk]]; [done|..].
    - pose proof (swo_transitive b' a b Hba Hab). destruct Hb. congruence.
    - assert (keq a b) as [? ?] by (transitivity b'; [done|by symmetry]). congruence. }
  intros a a' Ha b b' Hb. apply Bool.eq_true_iff_eq. split; intros Hc.
  - by apply (Hr a' b), (Hl a).
  - apply (Hr a b'); [by symmetry|]. apply (Hl a'); [by symmetry|done].
Qed.

Definition keqb (a b : Key) : bool := negb (comp a b) && negb (comp b a).

Lemma keqb_spec a b : keqb a b = true ↔ keq a b.
Proof. unfold keqb, keq. destruct (comp a b), (comp b a); simpl; split; try done; by intros []. Qed.

#[export] Instance keqb_proper : Proper (keq ==> keq ==> eq) keqb.
Proof. intros a a' Ha b b' Hb. unfold keqb. by rewrite Ha, Hb. Qed.

Lemma keqb_comm a b : keqb a b = keqb b a.
Proof. unfold keqb. apply andb_comm. Qed.

Lemma keqb_refl a : keqb a a = true.
Proof. apply keqb_spec. reflexivity. Qed.

Lemma keqb_lt a b : comp a b = true → keqb a b = false ∧ keqb b a = false.
Proof. intros Hab. unfold keqb. by rewrite Hab, andb_false_r. Qed.
End Order.

(** ** Sorted bodies *)

Section Sorted.
Context {Key Value : Type} (GetKeyFromValue : Value → Key) (comp : Key → Key → bool) `{!StrictWeakOrder comp}.

#[local] Abbreviation key := GetKeyFromValue.
#[local] Abbreviation vlt := (λ a b, value_comp key comp a b = true).

(** The invariant of the container. *)
Definition sorted_unique (body : list Value) : Prop := StronglySorted vlt body.

(** What the container says about a key: the first item with an equivalent
    key. *)
Definition lookup_key (k : Key) (body : list Value) : option Value := List.find (λ v, keqb comp k (key v)) body.

#[export] Instance lookup_key_proper : Proper (keq comp ==> eq ==> eq) lookup_key.
Proof.
  intros k k' Hk body ? <-. unfold lookup_key. induction body as [|v body IH]; [done|]. simpl.
  rewrite IH. by rewrite Hk.
Qed.

Lemma lookup_app k l1 l2 : lookup_key k (l1 ++ l2) = match lookup_key k l1 with Some v => Some v | None => lookup_key k l2 end.
Proof. unfold lookup_key. induction l1 as [|v l1 IH]; [done|]. simpl. by destruct (keqb _ _ _). Qed.

Lemma lookup_none k l : lookup_key k l = None ↔ Forall (λ v, keqb comp k (key v) = false) l.
Proof.
  unfold lookup_key. induction l as [|v l IH]; simpl; [by split; auto|].
  rewrite list.Forall_cons, <- IH. destruct (keqb comp k (key v)); split; [done|by intros []|by split|by intros []].
Qed.

Definition all_less (l : list Value) (k : Key) : Prop := Forall (λ v, comp (key v) k = true) l.
Definition all_greater (k : Key) (l : list Value) : Prop := Forall (λ v, comp k (key v) = true) l.

Lemma lookup_less l k : all_less l k → lookup_key k l = None.
Proof. intros Hl. apply lookup_none. eapply list.Forall_impl; [exact Hl|]. intros v Hv. apply (keqb_lt comp (key v) k Hv). Qed.

Lemma lookup_greater l k : all_greater k l → lookup_key k l = None.
Proof. intros Hl. apply lookup_none. eapply list.Forall_impl; [exact Hl|]. intros v Hv. apply (keqb_lt comp k (key v) Hv). Qed.

(** A key splits a sorted body. *)
Definition splits (k : Key) (body l1 mid l2 : list Value) : Prop :=
  body = l1 ++ mid ++ l2 ∧ all_less l1 k ∧ all_greater k l2 ∧ (mid = [] ∨ ∃ v, mid = [v] ∧ keq comp k (key v)).

Lemma greater_trans k k' l : comp k k' = true → all_greater k' l → all_greater k l.
Proof. intros Hk Hl. eapply list.Forall_impl; [exact Hl|]. intros v Hv. by apply (swo_transitive k k'). Qed.

Lemma sorted_split k body : sorted_unique body → ∃ l1 mid l2, splits k body l1 mid l2.
Proof.
  induction 1 as [|v body Hs IH Hv]; [exists [], [], []; split_and!; [done|constructor|constructor|by left]|].
  destruct (comp_cases comp k (key v)) as [Hlt|[Hgt|Heq]].
  - exists [], [], (v :: body). split_and!; [done|constructor| |by left].
    constructor; [done|]. by apply (greater_trans k (key v)).
  - destruct IH as (l1 & mid & l2 & -> & H1 & H2 & H3). exists (v :: l1), mid, l2. split_and!; try done. by constructor.
  - exists [], [v], body. split_and!; [done|constructor| |right; by exists v].
    eapply list.Forall_impl; [exact Hv|]. intros w Hw. by rewrite Heq.
Qed.

Lemma splits_lookup k body l1 mid l2 : splits k body l1 mid l2 → lookup_key k body = head mid.
Proof.
  intros (-> & H1 & H2 & H3). rewrite !lookup_app, (lookup_less l1 k), (lookup_greater l2 k) by done.
  destruct H3 as [-> |(v & -> & Hv)]; [done|]. unfold lookup_key. simpl. apply (keqb_spec comp) in Hv. by rewrite Hv.
Qed.

(** ** Binary search *)

(** [p] holds for the first [i] items of the range and for no other. *)
Lemma partition_point_spec (p : Value → bool) body i fuel first len :
  (len < 2 ^ fuel)%nat → (first ≤ i ≤ first + len)%nat → (first + len ≤ length body)%nat →
  (∀ j v, (first ≤ j < i)%nat → body !! j = Some v → p v = true) →
  (∀ j v, (i ≤ j < first + len)%nat → body !! j = Some v → p v = false) →
  partition_point fuel p body first len = Ret i.
Proof.
  revert first len. induction fuel as [|fuel IH]; intros first len Hf Hi Hlen Ht Hfalse.
  { destruct len; simpl in *; [f_equal|]; lia. }
  destruct len as [|len']; [simpl; f_equal; lia|]. cbn [partition_point]. set (len := S len') in *.
  assert (len = 2 * (len / 2) + len mod 2 ∧ len mod 2 < 2)%nat as [Ediv Hmod]
    by (split; [apply Nat.div_mod; lia|apply Nat.mod_upper_bound; lia]).
  rewrite Nat.pow_succ_r' in Hf. set (half := (len / 2)%nat) in *.
  unfold deref. destruct (list.lookup_lt_is_Some_2 body (first + half)) as [v Hv]; [lia|]. rewrite Hv, bind_ret.
  destruct (decide (first + half < i)%nat).
  - rewrite (Ht (first + half)%nat v) by (done || lia). apply IH; try lia.
    + intros j w Hj. apply Ht. lia.
    + intros j w Hj. apply Hfalse. lia.
  - rewrite (Hfalse (first + half)%nat v) by (done || lia). apply IH; try lia.
    + intros j w Hj. apply Ht. lia.
    + intros j w Hj. apply Hfalse. lia.
Qed.

Lemma fuel_enough n : (n < 2 ^ n)%nat.
Proof. apply Nat.pow_gt_lin_r. lia. Qed.

(** The same for a range given as lists. *)
Lemma partition_point_lists (p : Value → bool) l0 l1 l2 l3 n :
  (length (l1 ++ l2) < 2 ^ n)%nat → Forall (λ v, p v = true) l1 → Forall (λ v, p v = false) l2 →
  partition_point n p (l0 ++ (l1 ++ l2) ++ l3) (length l0) (length (l1 ++ l2)) = Ret (length l0 + length l1)%nat.
Proof.
  intros Hn H1 H2. rewrite list.Forall_forall in H1, H2. apply partition_point_spec; [done|..]; rewrite ?length_app; try lia.
  - intros j v Hj Hv. apply H1. rewrite <- app_assoc in Hv. rewrite list.lookup_app_r in Hv by lia.
    rewrite list.lookup_app_l in Hv by lia. by apply list_elem_of_lookup_2 in Hv.
  - intros j v Hj Hv. apply H2. rewrite <- app_assoc in Hv. rewrite list.lookup_app_r in Hv by lia.
    rewrite list.lookup_app_r in Hv by lia. rewrite list.lookup_app_l in Hv by lia.
    by apply list_elem_of_lookup_2 in Hv.
Qed.

(** How the items around a key compare with it. *)
Lemma splits_sides k body l1 mid l2 : splits k body l1 mid l2 →
  Forall (λ v, comp (key v) k = true) l1 ∧ Forall (λ v, comp (key v) k = false) (mid ++ l2) ∧
  Forall (λ v, negb (comp k (key v)) = true) (l1 ++ mid) ∧ Forall (λ v, negb (comp k (key v)) = false) l2.
Proof.
  intros (_ & H1 & H2 & H3). rewrite !list.Forall_app. split_and!; [done|..].
  - destruct H3 as [-> |(v & -> & Hv)]; [constructor|]. constructor; [apply Hv|constructor].
  - eapply list.Forall_impl; [exact H2|]. intros v Hv. by apply comp_asym.
  - eapply list.Forall_impl; [exact H1|]. intros v Hv. simpl. by rewrite comp_asym.
  - destruct H3 as [-> |(v & -> & Hv)]; [constructor|]. constructor; [|constructor]. destruct Hv as [-> _]. done.
  - eapply list.Forall_impl; [exact H2|]. intros v Hv. simpl. by rewrite Hv.
Qed.

Lemma filter_partition (p : Value → bool) l1 l2 : Forall (λ v, p v = true) l1 → Forall (λ v, p v = false) l2 →
  List.filter p (l1 ++ l2) = l1.
Proof.
  intros H1 H2. rewrite List.filter_app. replace (List.filter p l2) with (@nil Value); [rewrite app_nil_r|].
  - induction H1 as [|v l Hv _ IH]; simpl; [done|]. by rewrite Hv, IH.
  - induction H2 as [|v l Hv _ IH]; simpl; [done|]. by rewrite Hv.
Qed.

Lemma splits_filters k body l1 mid l2 : splits k body l1 mid l2 →
  length (List.filter (λ v, comp (key v) k) body) = length l1 ∧
  length (List.filter (λ v, negb (comp k (key v))) body) = length (l1 ++ mid).
Proof.
  intros Hsp. destruct (splits_sides _ _ _ _ _ Hsp) as (H1 & H2 & H3 & H4). destruct Hsp as [-> _].
  rewrite filter_partition by done. rewrite app_assoc, filter_partition by done. done.
Qed.

Lemma partition_point_bounds k body l1 mid l2 n : splits k body l1 mid l2 → (length body < 2 ^ n)%nat →
  partition_point n (λ v, comp (key v) k) body 0 (length body) = Ret (length l1) ∧
  partition_point n (λ v, negb (comp k (key v))) body 0 (length body) = Ret (length (l1 ++ mid)).
Proof.
  intros Hsp Hn. destruct (splits_sides _ _ _ _ _ Hsp) as (H1 & H2 & H3 & H4). destruct Hsp as [-> _]. split.
  - pose proof (partition_point_lists (λ v, comp (key v) k) [] l1 (mid ++ l2) [] n Hn H1 H2) as E.
    by rewrite app_nil_l, app_nil_r in E.
  - rewrite app_assoc in *.
    pose proof (partition_point_lists (λ v, negb (comp k (key v))) [] (l1 ++ mid) l2 [] n Hn H3 H4) as E.
    by rewrite app_nil_l, app_nil_r in E.
Qed.

Lemma bounds_spec k body l1 mid l2 : splits k body l1 mid l2 →
  lower_bound key comp body k = Ret (length l1) ∧ upper_bound key comp body k = Ret (length (l1 ++ mid)) ∧
  end_or_less key comp body k (length l1) = Ret (bool_decide (mid = [])).
Proof.
  intros Hsp. unfold lower_bound, upper_bound.
  destruct (partition_point_bounds _ _ _ _ _ (length body) Hsp (fuel_enough _)) as [-> ->]. split_and!; [done|done|].
  destruct Hsp as (-> & H1 & H2 & H3). unfold end_or_less. destruct H3 as [-> |(v & -> & Hv)].
  - rewrite bool_decide_true by done. destruct l2 as [|w l2]; simpl; [rewrite !app_nil_r, Nat.eqb_refl; done|].
    rewrite (proj2 (Nat.eqb_neq _ _)) by (rewrite length_app; simpl; lia).
    unfold deref. rewrite list.lookup_app_r, Nat.sub_diag by lia. simpl. apply list.Forall_cons in H2 as [-> _]. done.
  - rewrite bool_decide_false by done. rewrite (proj2 (Nat.eqb_neq _ _)) by (rewrite length_app; simpl; lia).
    unfold deref. rewrite list.lookup_app_r, Nat.sub_diag by lia. simpl. destruct Hv as [-> _]. done.
Qed.

(** ** Queries *)

Lemma sorted_app l1 l2 : sorted_unique (l1 ++ l2) ↔
  (∀ a b, a ∈ l1 → b ∈ l2 → value_comp key comp a b = true) ∧ sorted_unique l1 ∧ sorted_unique l2.
Proof. apply StronglySorted_app. Qed.

Lemma sorted_cons v l : sorted_unique (v :: l) ↔ all_greater (key v) l ∧ sorted_unique l.
Proof. apply StronglySorted_cons. Qed.

Lemma sorted_nil : sorted_unique [].
Proof. constructor. Qed.

Lemma equal_range_spec k body l1 mid l2 : splits k body l1 mid l2 →
  equal_range key comp body k = Ret (length l1, length (l1 ++ mid)).
Proof.
  intros Hs. destruct (bounds_spec k body l1 mid l2 Hs) as (E1 & _ & E2).
  unfold equal_range. rewrite E1, bind_ret, E2, bind_ret. destruct Hs as (_ & _ & _ & [-> |(v & -> & _)]); simpl.
  - by rewrite app_nil_r.
  - rewrite length_app. simpl. by rewrite Nat.add_1_r.
Qed.

(** [find] gives the index of the item, or the end. *)
Lemma find_spec k body : sorted_unique body →
  ∃ it, find key comp body k = Ret it ∧ body !! it = lookup_key k body ∧ (lookup_key k body = None → it = length body).
Proof.
  intros Hs. destruct (sorted_split k body Hs) as (l1 & mid & l2 & Hsp). unfold find.
  rewrite (equal_range_spec _ _ _ _ _ Hsp), bind_ret, (splits_lookup _ _ _ _ _ Hsp).
  destruct Hsp as (-> & _ & _ & [-> |(v & -> & _)]); simpl.
  - rewrite app_nil_r, Nat.eqb_refl. eexists; split_and!; [done| |done]. apply list.lookup_ge_None_2. lia.
  - rewrite (proj2 (Nat.eqb_neq _ _)) by (rewrite length_app; simpl; lia). exists (length l1). split_and!; [done| |done].
    rewrite list.lookup_app_r, Nat.sub_diag by lia. done.
Qed.

Lemma count_spec k body : sorted_unique body → count key comp body k = Ret (match lookup_key k body with Some _ => 1%nat | None => 0%nat end).
Proof.
  intros Hs. destruct (sorted_split k body Hs) as (l1 & mid & l2 & Hsp). unfold count.
  rewrite (equal_range_spec _ _ _ _ _ Hsp), bind_ret, (splits_lookup _ _ _ _ _ Hsp), length_app.
  destruct Hsp as (_ & _ & _ & [-> |(v & -> & _)]); simpl; f_equal; lia.
Qed.

Lemma contains_spec k body : sorted_unique body → contains key comp body k = Ret (match lookup_key k body with Some _ => true | None => false end).
Proof.
  intros Hs. destruct (sorted_split k body Hs) as (l1 & mid & l2 & Hsp). unfold contains.
  destruct (bounds_spec _ _ _ _ _ Hsp) as (E1 & _ & E2). rewrite E1, bind_ret, E2, bind_ret, (splits_lookup _ _ _ _ _ Hsp).
  by destruct Hsp as (_ & _ & _ & [-> |(v & -> & _)]).
Qed.

(** ** Insertion *)

Lemma sorted_middle k body l1 l2 v : sorted_unique body → splits k body l1 [] l2 → keq comp k (key v) →
  sorted_unique (l1 ++ v :: l2).
Proof.
  intros Hs (-> & H1 & H2 & _) Hk. simpl in Hs. apply sorted_app in Hs as (H12 & Hs1 & Hs2).
  rewrite sorted_app, sorted_cons. split_and!; try done.
  - intros a b Ha Hb. apply list.elem_of_cons in Hb as [-> |Hb]; [|by apply H12].
    unfold all_less in H1. rewrite list.Forall_forall in H1. unfold value_comp. rewrite <- Hk. by apply H1.
  - eapply list.Forall_impl; [exact H2|]. intros w Hw. by rewrite <- Hk.
Qed.

(** An item added where its key belongs is found under its key, and nothing
    else changes: as if it came last. *)
Lemma lookup_middle k' l1 v l2 : lookup_key (key v) (l1 ++ l2) = None →
  lookup_key k' (l1 ++ v :: l2) = lookup_key k' ((l1 ++ l2) ++ [v]).
Proof.
  intros Hn. rewrite !lookup_app. rewrite lookup_app in Hn. destruct (lookup_key k' l1) as [w|] eqn:E1; [done|].
  change (v :: l2) with ([v] ++ l2). rewrite lookup_app. destruct (keqb comp k' (key v)) eqn:Ek.
  - assert (lookup_key k' [v] = Some v) as -> by (unfold lookup_key; simpl; by rewrite Ek).
    assert (lookup_key k' l2 = None) as ->; [|done]. apply (keqb_spec comp) in Ek. rewrite Ek.
    destruct (lookup_key (key v) l1); [done|exact Hn].
  - assert (lookup_key k' [v] = None) as -> by (unfold lookup_key; simpl; by rewrite Ek). by destruct (lookup_key k' l2).
Qed.

(** What every single insertion does. *)
Definition inserts (body : list Value) (k : Key) (v : Value) (r : list Value * (nat * bool)) : Prop :=
  let '(body', (it, inserted)) := r in
  sorted_unique body' ∧ inserted = bool_decide (lookup_key k body = None) ∧
  (inserted = false → body' = body) ∧
  body' !! it = Some (default v (lookup_key k body)) ∧
  (∀ k', lookup_key k' body' = lookup_key k' (body ++ [v])).

Lemma emplace_key_args_spec body k v : sorted_unique body → keq comp k (key v) →
  ∃ r, emplace_key_args key comp body k v = Ret r ∧ inserts body k v r.
Proof.
  intros Hs Hk. destruct (sorted_split k body Hs) as (l1 & mid & l2 & Hsp). pose proof (splits_lookup _ _ _ _ _ Hsp) as Hl.
  destruct (bounds_spec _ _ _ _ _ Hsp) as (E1 & _ & E2). unfold emplace_key_args. rewrite E1, bind_ret, E2, bind_ret.
  eexists; split; [done|]. unfold inserts. rewrite Hl.
  destruct Hsp as (Eb & H1 & H2 & [-> |(w & -> & Hw)]); simpl.
  - simpl in Eb. subst body. unfold vector_emplace. rewrite take_app_length, drop_app_length.
    split_and!; [|done|done| |].
    + eapply (sorted_middle k); [exact Hs| |done]. by split_and!; [..|left].
    + by rewrite list.lookup_app_r, Nat.sub_diag by lia.
    + intros k'. apply lookup_middle. rewrite <- Hk. by rewrite Hl.
  - split_and!; try done.
    + rewrite Eb. rewrite list.lookup_app_r, Nat.sub_diag by lia. done.
    + intros k'. rewrite lookup_app. destruct (lookup_key k' body) eqn:E; [done|]. unfold lookup_key. simpl.
      destruct (keqb comp k' (key v)) eqn:Ek; [|done]. apply (keqb_spec comp) in Ek. rewrite Ek, <- Hk, Hl in E. done.
Qed.

(** Where an item lies relative to a key tells where its index lies. *)
Lemma split_index k body l1 mid l2 j v : splits k body l1 mid l2 → body !! j = Some v →
  (comp (key v) k = true → (j < length l1)%nat) ∧
  (comp k (key v) = true → (length (l1 ++ mid) ≤ j)%nat) ∧
  (keq comp k (key v) → mid = [v] ∧ j = length l1).
Proof.
  intros (-> & H1 & H2 & H3) Hj. unfold all_less, all_greater in *. rewrite list.Forall_forall in H1, H2.
  destruct (decide (j < length l1)%nat) as [Hlt|Hge].
  - rewrite list.lookup_app_l in Hj by done. apply list_elem_of_lookup_2 in Hj. pose proof (H1 v Hj) as Hv.
    split_and!; [done| |].
    + intros Hc. apply comp_asym in Hc; [|done]. congruence.
    + intros [_ Hc]. congruence.
  - rewrite list.lookup_app_r in Hj by lia. destruct H3 as [-> |(w & -> & Hw)]; simpl in *.
    + apply list_elem_of_lookup_2 in Hj. pose proof (H2 v Hj) as Hv. rewrite app_nil_r. split_and!; [|lia|].
      * intros Hc. apply comp_asym in Hc; [|done]. congruence.
      * intros [Hc _]. congruence.
    + destruct (j - length l1)%nat as [|m] eqn:Em; simpl in Hj.
      * injection Hj as ->. split_and!; [|intros Hc|]; try (destruct Hw; congruence). intros _. split; [done|lia].
      * apply list_elem_of_lookup_2 in Hj. pose proof (H2 v Hj) as Hv. rewrite length_app. simpl. split_and!; [|lia|].
        -- intros Hc. apply comp_asym in Hc; [|done]. congruence.
        -- intros [Hc _]. congruence.
Qed.

Lemma emplace_hint_spec body hint k v : sorted_unique body → keq comp k (key v) → (hint ≤ length body)%nat →
  ∃ r, emplace_hint_key_args key comp body hint k v = Ret r ∧ inserts body k v r.
Proof.
  intros Hs Hk Hhint. pose proof (emplace_key_args_spec body k v Hs Hk) as Hplain.
  destruct (sorted_split k body Hs) as (l1 & mid & l2 & Hsp). unfold emplace_hint_key_args.
  assert (∃ b, (if Nat.eqb hint 0 then Ret true else p ← deref body (hint - 1); Ret (comp (key p) k)) = Ret b ∧
    (b = true → (hint ≤ length l1)%nat)) as (b & -> & Hb).
  { destruct (Nat.eqb_spec hint 0) as [->|Hne]; [exists true; split; [done|lia]|].
    destruct (list.lookup_lt_is_Some_2 body (hint - 1)) as [p Hp]; [lia|]. unfold deref. rewrite Hp, bind_ret.
    eexists; split; [done|]. intros Hc. pose proof (proj1 (split_index _ _ _ _ _ _ _ Hsp Hp) Hc). lia. }
  rewrite bind_ret. destruct b; [|done]. specialize (Hb eq_refl).
  unfold end_or_less. destruct (Nat.eqb_spec hint (length body)) as [->|Hne].
  - (* the hint is the end, and so is the place *)
    rewrite bind_ret. eexists; split; [done|]. pose proof Hsp as (Eb & H1 & H2 & H3).
    assert (mid = [] ∧ l2 = []) as [-> ->].
    { rewrite Eb, !length_app in Hb. split; apply nil_length_inv; lia. }
    destruct Hplain as (r & E & Hr). destruct (bounds_spec _ _ _ _ _ Hsp) as (E1 & _ & E2).
    unfold emplace_key_args in E. rewrite E1, bind_ret, E2, bind_ret in E. injection E as <-.
    replace (length body) with (length l1); [done|]. rewrite Eb, app_nil_r. done.
  - destruct (list.lookup_lt_is_Some_2 body hint) as [h Hh]; [lia|]. unfold deref. rewrite Hh, !bind_ret.
    destruct (split_index _ _ _ _ _ _ _ Hsp Hh) as (_ & Hgr & Heq). destruct (comp k (key h)) eqn:Ekh.
    + specialize (Hgr eq_refl). rewrite length_app in Hgr. assert (mid = []) as -> by (apply nil_length_inv; lia).
      assert (hint = length l1) as -> by lia. eexists; split; [done|].
      destruct Hplain as (r & E & Hr). destruct (bounds_spec _ _ _ _ _ Hsp) as (E1 & _ & E2).
      unfold emplace_key_args in E. rewrite E1, bind_ret, E2, bind_ret in E. by injection E as <-.
    + destruct (comp (key h) k) eqn:Ehk; cbn [negb]; [done|].
      destruct (Heq ltac:(done)) as [-> ->]. eexists; split; [done|].
      destruct Hplain as (r & E & Hr). destruct (bounds_spec _ _ _ _ _ Hsp) as (E1 & _ & E2).
      unfold emplace_key_args in E. rewrite E1, bind_ret, E2, bind_ret in E. by injection E as <-.
Qed.

(** ** Erasure *)

(** [body'] is [body] without the items that the test picks. *)
Definition erases (body : list Value) (gone : Value → bool) (body' : list Value) : Prop :=
  sorted_unique body' ∧
  ∀ k, lookup_key k body' = (lookup_key k body ≫= λ v, if gone v then None else Some v).

Lemma sorted_lookup_unique k body v : sorted_unique body → v ∈ body → keq comp k (key v) → lookup_key k body = Some v.
Proof.
  intros Hs Hv Hk. destruct (sorted_split k body Hs) as (l1 & mid & l2 & Hsp). rewrite (splits_lookup _ _ _ _ _ Hsp).
  apply list_elem_of_lookup_1 in Hv as [j Hj]. by destruct (proj2 (proj2 (split_index _ _ _ _ _ _ _ Hsp Hj)) Hk) as [-> _].
Qed.

Lemma lookup_elem k body v : lookup_key k body = Some v → v ∈ body ∧ keq comp k (key v).
Proof.
  unfold lookup_key. intros Hf. apply List.find_some in Hf as [Hin Hk]. split; [by apply list_elem_of_In|].
  by apply (keqb_spec comp).
Qed.

Lemma filter_sorted (p : Value → bool) body : sorted_unique body → sorted_unique (List.filter p body).
Proof.
  induction 1 as [|v body Hs IH Hv]; simpl; [constructor|]. destruct (p v); [|done]. apply sorted_cons. split; [|done].
  unfold all_greater. rewrite list.Forall_forall in *. intros w Hw. apply Hv.
  rewrite list_elem_of_In in *. by apply List.filter_In in Hw as [? _].
Qed.

Lemma filter_erases (gone : Value → bool) body : sorted_unique body →
  erases body gone (List.filter (λ v, negb (gone v)) body).
Proof.
  intros Hs. split; [by apply filter_sorted|]. intros k. pose proof (filter_sorted (λ v, negb (gone v)) body Hs) as Hfs.
  destruct (lookup_key k body) as [v|] eqn:E; simpl.
  - destruct (lookup_elem _ _ _ E) as [Hin Hk]. destruct (gone v) eqn:Eg.
    + apply lookup_none, list.Forall_forall. intros w Hw. rewrite list_elem_of_In in Hw.
      apply List.filter_In in Hw as [Hw Hgw]. rewrite <- list_elem_of_In in Hw.
      destruct (keqb comp k (key w)) eqn:Ekw; [|done]. apply (keqb_spec comp) in Ekw.
      rewrite (sorted_lookup_unique k body w) in E by done. injection E as ->. by rewrite Eg in Hgw.
    + apply sorted_lookup_unique; [done| |done]. rewrite list_elem_of_In in *. apply List.filter_In. by rewrite Eg.
  - apply lookup_none, list.Forall_forall. intros w Hw. rewrite list_elem_of_In in Hw. apply List.filter_In in Hw as [Hw _].
    apply lookup_none in E. rewrite list.Forall_forall in E. apply E. by rewrite list_elem_of_In.
Qed.

Lemma filter_all (p : Value → bool) l : Forall (λ v, p v = true) l → List.filter p l = l.
Proof. induction 1 as [|v l Hv Hl IH]; simpl; [done|]. by rewrite Hv, IH. Qed.

Lemma erase_split k body l1 mid l2 : splits k body l1 mid l2 →
  vector_erase body (length l1) (length (l1 ++ mid)) = List.filter (λ v, negb (keqb comp k (key v))) body.
Proof.
  intros (-> & H1 & H2 & H3). unfold vector_erase. rewrite app_assoc, drop_app_length, <- app_assoc, take_app_length.
  rewrite !List.filter_app, (filter_all _ l1), (filter_all _ l2).
  - destruct H3 as [-> |(v & -> & Hv)]; simpl; [done|]. apply (keqb_spec comp) in Hv. by rewrite Hv.
  - eapply list.Forall_impl; [exact H2|]. intros v Hv. simpl. by rewrite (proj1 (keqb_lt comp k (key v) Hv)).
  - eapply list.Forall_impl; [exact H1|]. intros v Hv. simpl. by rewrite (proj2 (keqb_lt comp (key v) k Hv)).
Qed.

Lemma erase_key_spec body k : sorted_unique body →
  ∃ body', erase_key key comp body k = Ret (body', match lookup_key k body with Some _ => 1%nat | None => 0%nat end) ∧
    erases body (λ v, keqb comp k (key v)) body'.
Proof.
  intros Hs. destruct (sorted_split k body Hs) as (l1 & mid & l2 & Hsp). unfold erase_key, erase_range.
  rewrite (equal_range_spec _ _ _ _ _ Hsp), bind_ret, (erase_split _ _ _ _ _ Hsp), (splits_lookup _ _ _ _ _ Hsp).
  eexists; split; [|by apply filter_erases]. do 2 f_equal. rewrite length_app.
  destruct Hsp as (_ & _ & _ & [-> |(v & -> & _)]); simpl; lia.
Qed.

Lemma erase_at_spec body pos : sorted_unique body → (pos < length body)%nat →
  ∃ v body', body !! pos = Some v ∧ erase_at body pos = Ret body' ∧ erases body (λ w, keqb comp (key v) (key w)) body'.
Proof.
  intros Hs Hpos. destruct (list.lookup_lt_is_Some_2 body pos Hpos) as [v Hv].
  destruct (sorted_split (key v) body Hs) as (l1 & mid & l2 & Hsp).
  destruct (proj2 (proj2 (split_index _ _ _ _ _ _ _ Hsp Hv)) ltac:(reflexivity)) as [-> ->].
  exists v. eexists. split; [done|]. unfold erase_at. rewrite check_pass.
  - unfold deref. rewrite !bind_ret, Hv, bind_ret. split; [done|].
    pose proof (erase_split _ _ _ _ _ Hsp) as E. rewrite length_app in E. simpl in E. rewrite Nat.add_1_r in E. rewrite E.
    by apply filter_erases.
  - apply negb_true_iff, Nat.eqb_neq. lia.
Qed.

(** ** The body is determined by what it says about the keys *)

Lemma sorted_ext l1 l2 : sorted_unique l1 → sorted_unique l2 → (∀ k, lookup_key k l1 = lookup_key k l2) → l1 = l2.
Proof.
  intros H1. revert l2. induction H1 as [|v l1 Hs1 IH Hv]; intros l2 Hs2 Hk.
  - destruct l2 as [|w l2]; [done|]. specialize (Hk (key w)). unfold lookup_key in Hk. simpl in Hk.
    by rewrite keqb_refl in Hk.
  - destruct l2 as [|w l2].
    { specialize (Hk (key v)). unfold lookup_key in Hk. simpl in Hk.
      by rewrite keqb_refl in Hk. }
    assert (sorted_unique (v :: l1)) as Hs1' by (by apply sorted_cons). apply sorted_cons in Hs2 as Hs2'. destruct Hs2' as [Hw Hs2'].
    assert (∀ x l, lookup_key (key x) (x :: l) = Some x) as Hhead.
    { intros x l. unfold lookup_key. simpl. by rewrite keqb_refl. }
    assert (v = w) as <-.
    { pose proof (Hk (key v)) as Hkv. rewrite Hhead in Hkv. symmetry in Hkv. apply lookup_elem in Hkv as [Hin _].
      pose proof (Hk (key w)) as Hkw. rewrite Hhead in Hkw. apply lookup_elem in Hkw as [Hin' _].
      apply list.elem_of_cons in Hin as [?|Hin]; [done|]. apply list.elem_of_cons in Hin' as [?|Hin']; [done|].
      unfold all_greater in Hw. rewrite list.Forall_forall in Hw, Hv. pose proof (Hw v Hin) as E1. pose proof (Hv w Hin') as E2.
      apply comp_asym in E1; [|done]. unfold value_comp in E2. congruence. }
    f_equal. apply IH; [done|]. intros k. specialize (Hk k). destruct (keqb comp k (key v)) eqn:Ek.
    + apply (keqb_spec comp) in Ek. rewrite !Ek. rewrite !lookup_greater; done.
    + unfold lookup_key in *. simpl in Hk. by rewrite Ek in Hk.
Qed.

(** ** Sorting *)

(** No item is less than one before it. *)
Definition weakly_sorted (l : list Value) : Prop := StronglySorted (λ a b, value_comp key comp b a = false) l.

Definition class (k : Key) (l : list Value) : list Value := List.filter (λ v, keqb comp k (key v)) l.

Lemma lookup_class k l : lookup_key k l = head (class k l).
Proof. unfold lookup_key, class. induction l as [|v l IH]; simpl; [done|]. by destruct (keqb _ _ _). Qed.

Lemma class_app k l1 l2 : class k (l1 ++ l2) = class k l1 ++ class k l2.
Proof. apply List.filter_app. Qed.

Lemma class_none k l : Forall (λ v, keqb comp k (key v) = false) l → class k l = [].
Proof. unfold class. induction 1 as [|v l Hv Hl IH]; simpl; [done|]. by rewrite Hv. Qed.

Lemma insert_stable_perm x l : insert_stable key comp x l ≡ₚ x :: l.
Proof.
  induction l as [|y l IH]; simpl; [done|]. destruct (value_comp _ _ _ _); [done|]. rewrite IH. apply Permutation_swap.
Qed.

(** Keys that are not less stay so behind something smaller. *)
Lemma weak_lt_trans a b c : comp (key a) (key b) = true → comp (key c) (key b) = false → comp (key a) (key c) = true.
Proof.
  intros Hab Hcb. destruct (comp_cases comp (key a) (key c)) as [?|[Hca|Hac]]; [done|..].
  - by rewrite (swo_transitive _ _ _ Hca Hab) in Hcb.
  - rewrite <- Hac in Hcb. congruence.
Qed.

Lemma insert_stable_spec x l : weakly_sorted l →
  weakly_sorted (insert_stable key comp x l) ∧ ∀ k, class k (insert_stable key comp x l) = class k (l ++ [x]).
Proof.
  induction 1 as [|y l Hs [IHs IHc] Hy]; simpl.
  { split; [|done]. constructor; constructor. }
  assert (weakly_sorted (y :: l)) as Hyl by (by constructor). destruct (value_comp key comp x y) eqn:E; unfold value_comp in E.
  - assert (Forall (λ w, comp (key x) (key w) = true) (y :: l)) as Hx.
    { constructor; [done|]. eapply list.Forall_impl; [exact Hy|]. intros w Hw. by apply (weak_lt_trans x y w). }
    split.
    + constructor; [done|]. eapply list.Forall_impl; [exact Hx|]. intros w Hw. unfold value_comp. by apply (comp_asym comp).
    + intros k. change (class k ([x] ++ (y :: l)) = class k ((y :: l) ++ [x])). rewrite !class_app.
      destruct (keqb comp k (key x)) eqn:Ekx.
      * rewrite (class_none k (y :: l)); [by rewrite app_nil_r|]. eapply list.Forall_impl; [exact Hx|]. intros w Hw. simpl.
        apply (keqb_spec comp) in Ekx. rewrite Ekx. apply (keqb_lt comp _ _ Hw).
      * rewrite (class_none k [x]); [by rewrite app_nil_r|by constructor].
  - split.
    + constructor; [done|]. rewrite list.Forall_forall. intros w Hw.
      rewrite insert_stable_perm in Hw. apply list.elem_of_cons in Hw as [-> |Hw]; [done|].
      rewrite list.Forall_forall in Hy. by apply Hy.
    + intros k. specialize (IHc k). unfold class in *. cbn [List.filter]. rewrite IHc. by destruct (keqb comp k (key y)).
Qed.

(** [stable_sort] sorts, and keeps the order of equivalent items. *)
Lemma stable_sort_spec l : weakly_sorted (stable_sort key comp l) ∧ stable_sort key comp l ≡ₚ l ∧
  ∀ k, class k (stable_sort key comp l) = class k l.
Proof.
  unfold stable_sort. assert (∀ acc, weakly_sorted acc →
    weakly_sorted (foldl (λ sorted x, insert_stable key comp x sorted) acc l) ∧
    foldl (λ sorted x, insert_stable key comp x sorted) acc l ≡ₚ acc ++ l ∧
    ∀ k, class k (foldl (λ sorted x, insert_stable key comp x sorted) acc l) = class k (acc ++ l)) as Hg.
  { induction l as [|x l IH]; intros acc Hacc; simpl; [by rewrite app_nil_r|].
    destruct (insert_stable_spec x acc Hacc) as [Hs Hc]. destruct (IH _ Hs) as (H1 & H2 & H3). split_and!; [done| |].
    - rewrite H2, insert_stable_perm. simpl. apply Permutation_middle.
    - intros k. rewrite H3, class_app, Hc, <- class_app, <- app_assoc. done. }
  apply (Hg []). constructor.
Qed.

(** [unique] leaves the first of each run of equivalent items. *)
Lemma unique_from_spec x l : weakly_sorted (x :: l) →
  sorted_unique (x :: unique_from key comp x l) ∧
  ∀ k, lookup_key k (x :: unique_from key comp x l) = lookup_key k (x :: l).
Proof.
  revert x. induction l as [|y l IH]; intros x Hw; cbn [unique_from]; [split; [|done]; constructor; constructor|].
  apply StronglySorted_cons in Hw as [Hx Hw]. apply list.Forall_cons in Hx as [Hxy Hx].
  destruct (value_comp key comp x y) eqn:E; cbn [negb].
  - destruct (IH y Hw) as [IHs IHl]. split.
    + apply sorted_cons. split; [|done]. apply sorted_cons in IHs as [Hy _]. constructor; [done|].
      by apply (greater_trans (key x) (key y)).
    + intros k. specialize (IHl k). unfold lookup_key in *. simpl in *. by rewrite IHl.
  - assert (weakly_sorted (x :: l)) as Hxl.
    { apply StronglySorted_cons. split; [done|]. by apply StronglySorted_cons in Hw as [_ Hw]. }
    destruct (IH x Hxl) as [IHs IHl]. split; [done|]. intros k. rewrite IHl. unfold lookup_key. simpl.
    destruct (keqb comp k (key x)) eqn:Ekx; [done|]. destruct (keqb comp k (key y)) eqn:Eky; [|done].
    assert (keq comp (key x) (key y)) as Hk by (by split).
    by rewrite Hk, Eky in Ekx.
Qed.

Lemma sort_unique_spec l :
  sorted_unique (unique key comp (stable_sort key comp l)) ∧
  ∀ k, lookup_key k (unique key comp (stable_sort key comp l)) = lookup_key k l.
Proof.
  destruct (stable_sort_spec l) as (Hw & _ & Hc).
  assert (∀ k, lookup_key k (stable_sort key comp l) = lookup_key k l) as Hl by (intros k; by rewrite !lookup_class, Hc).
  destruct (stable_sort key comp l) as [|x s] eqn:E; cbn [unique]; [split; [constructor|done]|].
  destruct (unique_from_spec x s Hw) as [Hs Hu]. split; [done|]. intros k. by rewrite Hu, Hl.
Qed.

(** Construction keeps the first of equivalent items. *)
Lemma make_spec items : sorted_unique (flat_tree_make key comp items) ∧
  ∀ k, lookup_key k (flat_tree_make key comp items) = lookup_key k items.
Proof.
  unfold flat_tree_make, sort_and_unique. simpl. rewrite drop_all, app_nil_r, drop_0, Nat.sub_0_r, firstn_all.
  apply sort_unique_spec.
Qed.

(** ** Merging *)

Lemma merge_perm l r : merge key comp l r ≡ₚ l ++ r.
Proof.
  revert r. induction l as [|x l IHl]; intros r; [by destruct r|]. induction r as [|y r IHr]; [by rewrite app_nil_r|].
  cbn [merge]. destruct (value_comp key comp y x).
  - change (y :: merge key comp (x :: l) r ≡ₚ (x :: l) ++ y :: r). rewrite IHr. apply Permutation_middle.
  - rewrite IHl. done.
Qed.

Lemma merge_sorted l r : sorted_unique l → sorted_unique r → (∀ v, v ∈ r → lookup_key (key v) l = None) →
  sorted_unique (merge key comp l r).
Proof.
  intros Hl. revert r. induction Hl as [|x l Hl IHl Hx]; intros r Hr; [by destruct r|].
  induction Hr as [|y r Hr IHr Hy]; intros Hd; [by constructor|].
  assert (∀ v, v ∈ r → lookup_key (key v) (x :: l) = None) as Hdr by (intros v Hv; apply Hd; by right).
  assert (∀ v, v ∈ y :: r → lookup_key (key v) l = None) as Hdl.
  { intros v Hv. specialize (Hd v Hv). apply lookup_none in Hd. apply list.Forall_cons in Hd as [_ Hd]. by apply lookup_none. }
  assert (sorted_unique (x :: l) ∧ sorted_unique (y :: r)) as [Hxl Hyr] by (by split; constructor).
  cbn [merge]. destruct (value_comp key comp y x) eqn:E; unfold value_comp in E.
  - change (sorted_unique (y :: merge key comp (x :: l) r)). apply sorted_cons. split; [|by apply IHr].
    unfold all_greater. rewrite merge_perm. apply list.Forall_app. split; [|done].
    apply list.Forall_cons. split; [done|]. by apply (greater_trans (key y) (key x)).
  - assert (comp (key x) (key y) = true) as Exy.
    { specialize (Hd y ltac:(by left)). apply lookup_none in Hd. apply list.Forall_cons in Hd as [Hd _].
      unfold keqb in Hd. rewrite E in Hd. by destruct (comp (key x) (key y)). }
    apply sorted_cons. split; [|by apply IHl].
    unfold all_greater. rewrite merge_perm. apply list.Forall_app. split; [done|].
    apply list.Forall_cons. split; [done|]. by apply (greater_trans (key x) (key y)).
Qed.

(** Two lists with the same items say the same, if one is sorted and no item of
    the other hides a later one. *)
Lemma lookup_merge k l r : sorted_unique l → sorted_unique r → (∀ v, v ∈ r → lookup_key (key v) l = None) →
  lookup_key k (merge key comp l r) = lookup_key k (l ++ r).
Proof.
  intros Hl Hr Hd. pose proof (merge_sorted l r Hl Hr Hd) as Hm. destruct (lookup_key k (l ++ r)) as [v|] eqn:E.
  - apply lookup_elem in E as [Hin Hk]. apply sorted_lookup_unique; [done|by rewrite merge_perm|done].
  - apply lookup_none. rewrite merge_perm. by apply lookup_none.
Qed.

(** ** Insertion of a range *)

Lemma append_unique_spec old new v : sorted_unique old →
  ∃ l1 mid l2, splits (key v) old l1 mid l2 ∧
    append_unique key comp (old ++ new) 0 (length old) v =
    Ret (if bool_decide (mid = []) then ((old ++ new) ++ [v], (length l1, true)) else (old ++ new, (length l1, false))).
Proof.
  intros Hs. destruct (sorted_split (key v) old Hs) as (l1 & mid & l2 & Hsp). exists l1, mid, l2. split; [done|].
  destruct (splits_sides _ _ _ _ _ Hsp) as (Hs1 & Hs2 & _ & _).
  destruct Hsp as (-> & H1 & H2 & H3). unfold append_unique, range_lower_bound. rewrite Nat.sub_0_r.
  assert (partition_point (length (l1 ++ mid ++ l2)) (λ w, value_comp key comp w v) ((l1 ++ mid ++ l2) ++ new) 0
    (length (l1 ++ mid ++ l2)) = Ret (length l1)) as ->.
  { apply (partition_point_lists _ [] l1 (mid ++ l2) new); [apply fuel_enough|done|done]. }
  rewrite bind_ret. destruct H3 as [-> |(w & -> & Hw)].
  - rewrite bool_decide_true by done. destruct l2 as [|u l2]; simpl.
    + by rewrite app_nil_r, Nat.eqb_refl.
    + rewrite (proj2 (Nat.eqb_neq _ _)) by (rewrite length_app; simpl; lia). unfold deref.
      assert (((l1 ++ u :: l2) ++ new) !! length l1 = Some u) as -> by (rewrite <- app_assoc; by apply list_lookup_middle).
      rewrite bind_ret. apply list.Forall_cons in H2 as [Hu _].
      unfold value_comp. by rewrite Hu.
  - rewrite bool_decide_false by done. rewrite (proj2 (Nat.eqb_neq _ _)) by (rewrite length_app; simpl; lia). unfold deref.
    assert (((l1 ++ [w] ++ l2) ++ new) !! length l1 = Some w) as -> by (rewrite <- app_assoc; by apply list_lookup_middle).
    rewrite bind_ret. unfold value_comp. destruct Hw as [-> _]. done.
Qed.

(** The items of a range that are new to [old]. *)
Definition fresh (old range : list Value) : list Value :=
  List.filter (λ v, match lookup_key (key v) old with Some _ => false | None => true end) range.

Lemma append_loop_spec old new range pos : sorted_unique old → (pos ≤ length old)%nat →
  (∀ v, v ∈ new → all_less (take pos old) (key v)) →
  ∃ pos', append_loop key comp (old ++ new) (length old) pos range = Ret (old ++ new ++ fresh old range, pos') ∧
    (pos' ≤ length old)%nat ∧ (∀ v, v ∈ new ++ fresh old range → all_less (take pos' old) (key v)).
Proof.
  intros Hs. revert new pos. induction range as [|v range IH]; intros new pos Hpos Hless; simpl.
  { exists pos. by rewrite app_nil_r. }
  destruct (append_unique_spec old new v Hs) as (l1 & mid & l2 & Hsp & ->). rewrite bind_ret.
  pose proof (splits_lookup _ _ _ _ _ Hsp) as Hl. rewrite Hl.
  pose proof Hsp as (Eb & H1 & _ & [-> |(w & -> & _)]); simpl.
  - rewrite <- app_assoc. destruct (IH (new ++ [v]) (Nat.min pos (length l1))) as (pos' & E & Hp & Hl'); [lia| |].
    + assert (∀ u, all_less (take pos old) (key u) → all_less (take (Nat.min pos (length l1)) old) (key u)) as Hmin.
      { intros u Hu. rewrite Nat.min_comm, <- take_take. by apply list.Forall_take. }
      intros u [Hu|Hu]%list.elem_of_app; [by apply Hmin, Hless|]. apply list.list_elem_of_singleton in Hu as ->.
      rewrite <- take_take. unfold all_less. apply list.Forall_take.
      replace (take (length l1) old) with l1; [done|]. by rewrite Eb, take_app_length.
    + exists pos'. rewrite <- app_assoc in E. simpl in E. rewrite E. rewrite <- app_assoc in Hl'. done.
  - by apply IH.
Qed.

Lemma lookup_fresh k old range : lookup_key k old = None → lookup_key k (fresh old range) = lookup_key k range.
Proof.
  intros Hk. unfold fresh. induction range as [|v range IH]; simpl; [done|]. unfold lookup_key at 3. simpl.
  destruct (keqb comp k (key v)) eqn:E.
  - pose proof E as E'. apply (keqb_spec comp) in E'. rewrite <- E', Hk. unfold lookup_key. simpl. by rewrite E.
  - destruct (lookup_key (key v) old); [done|]. unfold lookup_key at 1. simpl. by rewrite E.
Qed.

(** The batch keeps what was there, and of the new items the first of each
    key. *)
Lemma batch_spec body range : sorted_unique body →
  ∃ body', ('(body1, pos_first_new) ← append_loop key comp body (length body) (length body) range;
     let body2 := sort_and_unique key comp body1 (length body) (length body1) in
     Ret (take pos_first_new body2 ++ merge key comp (take (length body - pos_first_new) (drop pos_first_new body2)) (drop (length body) body2)))
    = Ret body' ∧ sorted_unique body' ∧ ∀ k, lookup_key k body' = lookup_key k (body ++ range).
Proof.
  intros Hs. destruct (append_loop_spec body [] range (length body) Hs) as (pos & E & Hpos & Hless); [lia|by intros v ?%not_elem_of_nil|].
  rewrite app_nil_r in E. rewrite E, bind_ret. clear E. simpl in Hless. cbn [app]. set (new := fresh body range) in *.
  unfold sort_and_unique. rewrite take_app_length, drop_app_length, drop_all, app_nil_r.
  rewrite (firstn_all2 new) by (rewrite length_app; lia).
  destruct (sort_unique_spec new) as [Hns Hnl]. set (new' := unique key comp (stable_sort key comp new)) in *.
  assert (∀ v, v ∈ new' → v ∈ new) as Hsub.
  { intros v Hv. assert (lookup_key (key v) new = Some v) as Hv' by (rewrite <- Hnl; by apply sorted_lookup_unique).
    by apply lookup_elem in Hv' as [? _]. }
  assert (∀ v, v ∈ new' → lookup_key (key v) body = None) as Hd.
  { intros v Hv. apply Hsub in Hv. unfold new, fresh in Hv. rewrite list_elem_of_In in Hv. apply List.filter_In in Hv as [_ Hv].
    by destruct (lookup_key (key v) body). }
  rewrite drop_app_length. rewrite take_app_le by done. rewrite drop_app_le by done.
  rewrite take_app_length' by (rewrite length_drop; lia).
  eexists; split; [done|].
  rewrite <- (take_drop pos body) in Hs. apply sorted_app in Hs as (H12 & Hs1 & Hs2).
  assert (∀ v, v ∈ new' → lookup_key (key v) (drop pos body) = None) as Hd2.
  { intros v Hv. specialize (Hd v Hv). apply lookup_none in Hd. apply lookup_none. by apply list.Forall_drop. }
  split.
  - apply sorted_app. split_and!; [|done|by apply merge_sorted]. intros a b Ha Hb. rewrite merge_perm in Hb.
    apply list.elem_of_app in Hb as [Hb|Hb]; [by apply H12|].
    specialize (Hless b (Hsub b Hb)). unfold all_less in Hless. rewrite list.Forall_forall in Hless. by apply Hless.
  - intros k. rewrite lookup_app, lookup_merge by done. rewrite <- lookup_app, app_assoc, take_drop.
    rewrite !lookup_app. destruct (lookup_key k body) eqn:Ek; [done|]. rewrite Hnl. by apply lookup_fresh.
Qed.

Lemma insert_range_spec multipass body range : sorted_unique body →
  ∃ body', insert_range key comp multipass body range = Ret body' ∧ sorted_unique body' ∧
    ∀ k, lookup_key k body' = lookup_key k (body ++ range).
Proof.
  intros Hs. destruct range as [|v range]; [exists body; by rewrite app_nil_r|]. unfold insert_range.
  destruct (multipass && Nat.eqb (length range) 0) eqn:E; [|by apply batch_spec].
  apply andb_true_iff in E as [_ E%Nat.eqb_eq]. apply nil_length_inv in E as ->.
  destruct (emplace_hint_spec body (length body) (key v) v Hs ltac:(reflexivity) ltac:(lia)) as ([body' [it ins]] & E & Hi & _ & _ & _ & Hl).
  exists body'. unfold insert_hint. rewrite E. done.
Qed.

(** ** The insertion sort of the constant containers *)

Lemma insert_stable_snoc_less x l y : value_comp key comp x y = true →
  insert_stable key comp x (l ++ [y]) = insert_stable key comp x l ++ [y].
Proof. intros Hxy. induction l as [|z l IH]; simpl; [by rewrite Hxy|]. destruct (value_comp key comp x z); [done|]. by rewrite IH. Qed.

Lemma insert_stable_last x l : Forall (λ z, value_comp key comp x z = false) l → insert_stable key comp x l = l ++ [x].
Proof. induction 1 as [|z l Hz Hl IH]; simpl; [done|]. by rewrite Hz, IH. Qed.

Lemma sift_spec pre x post : weakly_sorted pre →
  sift key comp (pre ++ x :: post) (length pre) = Ret (insert_stable key comp x pre ++ post).
Proof.
  revert x post. induction pre as [|y pre IH] using rev_ind; intros x post Hw; [done|].
  apply StronglySorted_app in Hw as (Hpy & Hw & _). rewrite length_app, Nat.add_1_r. cbn [sift]. unfold deref.
  assert (((pre ++ [y]) ++ x :: post) !! S (length pre) = Some x) as ->
    by (apply list_lookup_middle; rewrite length_app; simpl; lia).
  assert (((pre ++ [y]) ++ x :: post) !! length pre = Some y) as -> by (rewrite <- app_assoc; by apply list_lookup_middle).
  rewrite !bind_ret. destruct (value_comp key comp x y) eqn:E.
  - rewrite insert_stable_snoc_less by done.
    replace (<[length pre := x]> (<[S (length pre) := y]> ((pre ++ [y]) ++ x :: post))) with (pre ++ x :: y :: post).
    + rewrite IH by done. by rewrite <- app_assoc.
    + rewrite <- app_assoc. simpl. rewrite !insert_app_r_alt by lia. rewrite Nat.sub_diag.
      replace (S (length pre) - length pre)%nat with 1%nat by lia. done.
  - rewrite insert_stable_last; [by rewrite <- (app_assoc (pre ++ [y]))|]. apply list.Forall_app. split; [|by constructor].
    apply list.Forall_forall. intros z Hz. specialize (Hpy z y Hz ltac:(by left)).
    destruct (value_comp key comp x z) eqn:Ez; [|done]. unfold value_comp in *. by rewrite (weak_lt_trans x z y) in E.
Qed.

(** It computes what a stable sort computes. *)
Lemma InsertionSort_spec data : InsertionSort key comp data = Ret (stable_sort key comp data).
Proof.
  assert (∀ post pre, weakly_sorted pre →
    InsertionSort_loop key comp (pre ++ post) (length pre) (length post) =
    Ret (foldl (λ sorted x, insert_stable key comp x sorted) pre post)) as Hg.
  { induction post as [|x post IH]; intros pre Hw; simpl; [by rewrite app_nil_r|].
    rewrite sift_spec, bind_ret by done. destruct (insert_stable_spec x pre Hw) as [Hw' _].
    rewrite <- (IH _ Hw'). by rewrite (Permutation_length (insert_stable_perm x pre)). }
  unfold InsertionSort, stable_sort. destruct data as [|x data]; [done|]. simpl. rewrite Nat.sub_0_r.
  apply (Hg data [x]). constructor; constructor.
Qed.

Lemma is_sorted_spec l : is_sorted_and_unique key comp l = true ↔ sorted_unique l.
Proof.
  induction l as [|x l IH]; [split; [by constructor|done]|]. destruct l as [|y l]; [split; [|done]; constructor; constructor|].
  change (is_sorted_and_unique key comp (x :: y :: l)) with (value_comp key comp x y && is_sorted_and_unique key comp (y :: l)).
  rewrite andb_true_iff, IH, (sorted_cons x). split.
  - intros [Hxy Hs]. split; [|done]. apply sorted_cons in Hs as [Hy _]. constructor; [done|]. by apply (greater_trans (key x) (key y)).
  - intros [Hx Hs]. by apply list.Forall_cons in Hx as [? _].
Qed.

(** An ordered list is sorted and unique when no key has two items, and not
    when one has. *)
Lemma weakly_sorted_unique l : weakly_sorted l → (∀ k, (length (class k l) ≤ 1)%nat) → sorted_unique l.
Proof.
  induction 1 as [|x l Hs IH Hx]; intros Hc; [constructor|]. apply sorted_cons. split.
  - apply list.Forall_forall. intros y Hy. rewrite list.Forall_forall in Hx. specialize (Hx y Hy). unfold value_comp in Hx.
    destruct (comp (key x) (key y)) eqn:E; [done|]. specialize (Hc (key x)). unfold class in Hc. simpl in Hc.
    rewrite (keqb_refl comp) in Hc. simpl in Hc.
    assert (y ∈ List.filter (λ v, keqb comp (key x) (key v)) l) as Hin.
    { apply list_elem_of_In, List.filter_In. split; [by apply list_elem_of_In|]. unfold keqb. by rewrite E, Hx. }
    destruct (List.filter _ l); [by apply list.not_elem_of_nil in Hin|]. simpl in Hc. lia.
  - apply IH. intros k. specialize (Hc k). unfold class in *. simpl in Hc. destruct (keqb comp k (key x)); simpl in Hc; lia.
Qed.

Lemma sorted_class k l : sorted_unique l → (length (class k l) ≤ 1)%nat.
Proof.
  intros Hs. destruct (sorted_split k l Hs) as (l1 & mid & l2 & -> & H1 & H2 & H3). rewrite !class_app.
  rewrite (class_none k l1), (class_none k l2).
  - rewrite app_nil_r. simpl. destruct H3 as [-> |(v & -> & _)]; unfold class; simpl; [lia|].
    destruct (keqb comp k (key v)); simpl; lia.
  - eapply list.Forall_impl; [exact H2|]. intros v Hv. apply (keqb_lt comp _ _ Hv).
  - eapply list.Forall_impl; [exact H1|]. intros v Hv. apply (keqb_lt comp _ _ Hv).
Qed.

Lemma unique_id l : sorted_unique l → unique key comp l = l.
Proof.
  destruct l as [|x l]; [done|]. intros Hs. simpl. f_equal. revert x Hs.
  induction l as [|y l IH]; intros x Hs; [done|]. cbn [unique_from]. apply sorted_cons in Hs as [Hx Hs].
  apply list.Forall_cons in Hx as [Hxy _]. unfold value_comp. rewrite Hxy. simpl. f_equal. by apply IH.
Qed.

Lemma make_unfold items : flat_tree_make key comp items = unique key comp (stable_sort key comp items).
Proof. unfold flat_tree_make, sort_and_unique. simpl. by rewrite drop_all, app_nil_r, drop_0, Nat.sub_0_r, firstn_all. Qed.

End Sorted.

(** ** Maps against their specification *)

Section MapSpec.
Context {Key Mapped : Type} (comp : Key → Key → bool) `{!StrictWeakOrder comp} (mapped_default : Mapped) `{BuildMode}.

#[local] Abbreviation body_t := (list (Key * Mapped)).
#[local] Abbreviation sorted := (sorted_unique (Value := Key * Mapped) fst comp).
#[local] Abbreviation lookup := (lookup_key (Value := Key * Mapped) fst comp).

Lemma sorted_keys (body : body_t) : sorted body ↔ StronglySorted (λ a b, comp a b = true) (body.*1).
Proof.
  unfold sorted_unique, value_comp. induction body as [|v body IH]; simpl; [split; constructor|].
  rewrite !StronglySorted_cons, IH, list.Forall_fmap. done.
Qed.

Lemma lookup_replaced k' l1 (v w : Key * Mapped) l2 : sorted (l1 ++ v :: l2) → keq comp v.1 w.1 →
  lookup k' (l1 ++ w :: l2) = if keqb comp w.1 k' then Some w else lookup k' (l1 ++ v :: l2).
Proof.
  intros Hs Hk. rewrite !lookup_app. apply sorted_app in Hs as (H12 & _ & _). 
  assert (∀ u, lookup k' (u :: l2) = if keqb comp k' u.1 then Some u else lookup k' l2) as Hcons by done. rewrite !Hcons.
  assert (keqb comp k' v.1 = keqb comp w.1 k' ∧ keqb comp k' w.1 = keqb comp w.1 k') as [-> ->].
  { rewrite Hk. unfold keqb. by rewrite andb_comm. }
  destruct (keqb comp w.1 k') eqn:E; [|done].
  assert (lookup k' l1 = None) as ->; [|done]. apply lookup_none, list.Forall_forall. intros u Hu.
  apply (keqb_spec comp) in E. rewrite <- E, <- Hk. specialize (H12 u v Hu ltac:(by left)). apply (keqb_lt comp _ _ H12).
Qed.

(** The mapped value of a stored pair is replaced. *)
Lemma assign_second_spec (body : body_t) it v obj : sorted body → body !! it = Some v →
  ∃ body', assign_second body it obj = Ret body' ∧ sorted body' ∧ body' !! it = Some (v.1, obj) ∧
    ∀ k', lookup k' body' = if keqb comp v.1 k' then Some (v.1, obj) else lookup k' body.
Proof.
  intros Hs Hit. unfold assign_second, deref. rewrite Hit, bind_ret. eexists; split; [done|].
  assert (it < length body)%nat as Hlt by (by apply list.lookup_lt_Some in Hit). split_and!.
  - apply sorted_keys. rewrite list_fmap_insert, list_insert_id; [by apply sorted_keys|]. by rewrite list_lookup_fmap, Hit.
  - by apply list_lookup_insert_eq.
  - intros k'. rewrite insert_take_drop by done.
    pose proof (take_drop_middle body it v Hit) as E.
    rewrite (lookup_replaced k' _ v (v.1, obj)); [by rewrite E|by rewrite E|]. simpl. reflexivity.
Qed.

(** [insert_or_assign] after the attempt to insert. *)
Definition assigns (m : Key → option (Key * Mapped)) (k : Key) (obj : Mapped) (k' : Key) : option (Key * Mapped) :=
  if keqb comp k k' then Some (match m k with Some p => (p.1, obj) | None => (k, obj) end) else m k'.

Lemma assign_after (body : body_t) k obj body1 it ins : sorted body → inserts fst comp body k (k, obj) (body1, (it, ins)) →
  ∃ body', (if ins : bool then Ret body1 else assign_second body1 it obj) = Ret body' ∧ sorted body' ∧
    (∀ k', lookup k' body' = assigns (λ k, lookup k body) k obj k').
Proof.
  intros Hs (Hs1 & Hins & Hsame & Hit & Hl). unfold assigns. destruct ins.
  - exists body1. split_and!; [done|done|]. symmetry in Hins. apply bool_decide_eq_true in Hins. intros k'.
    rewrite Hl, lookup_app. unfold lookup_key at 2. simpl. destruct (keqb comp k k') eqn:E.
    + rewrite (keqb_comm comp k' k), E. apply (keqb_spec comp) in E. by rewrite <- E, Hins.
    + rewrite (keqb_comm comp k' k), E. by destruct (lookup k' body).
  - rewrite Hsame in * by done. symmetry in Hins. apply bool_decide_eq_false in Hins.
    destruct (lookup k body) as [p|] eqn:Ep; [|done]. simpl in Hit.
    destruct (assign_second_spec body it p obj Hs Hit) as (body' & E & Hs' & _ & Hl'). exists body'. split_and!; [done|done|].
    intros k'. rewrite Hl'. apply lookup_elem in Ep as [_ Hk]. simpl in Hk. by rewrite Hk.
Qed.

Inductive map_op :=
| MInsert (k : Key) (v : Mapped) | MInsertHint (hint : nat) (k : Key) (v : Mapped)
| MInsertRange (multipass : bool) (kvs : list (Key * Mapped))
| MTryEmplace (k : Key) (v : Mapped) | MTryEmplaceHint (hint : nat) (k : Key) (v : Mapped)
| MInsertOrAssign (k : Key) (v : Mapped) | MInsertOrAssignHint (hint : nat) (k : Key) (v : Mapped)
| MSubscriptAssign (k : Key) (v : Mapped)      (* map[k] = v *)
| MErase (k : Key) | MEraseIf (pred : Key * Mapped → bool) | MClear
| MAssign (items : list (Key * Mapped)).       (* map = {...} *)

(** A hint is an iterator of the container, so it is at most its end. *)
Definition map_apply (body : body_t) (o : map_op) : outcome body_t :=
  match o with
  | MInsert k v => '(body, _) ← insert fst comp body (k, v); Ret body
  | MInsertHint hint k v => '(body, _) ← insert_hint fst comp body (Nat.min hint (length body)) (k, v); Ret body
  | MInsertRange multipass kvs => insert_range fst comp multipass body kvs
  | MTryEmplace k v => '(body, _) ← try_emplace comp body k v; Ret body
  | MTryEmplaceHint hint k v => '(body, _) ← try_emplace_hint comp body (Nat.min hint (length body)) k v; Ret body
  | MInsertOrAssign k v => '(body, _) ← insert_or_assign comp body k v; Ret body
  | MInsertOrAssignHint hint k v => '(body, _) ← insert_or_assign_hint comp body (Nat.min hint (length body)) k v; Ret body
  | MSubscriptAssign k v => '(body, it) ← subscript comp mapped_default body k; assign_second body it v
  | MErase k => '(body, _) ← erase_key fst comp body k; Ret body
  | MEraseIf pred => Ret (fst (EraseIf body pred))
  | MClear => Ret (clear body)
  | MAssign items => Ret (flat_tree_make fst comp items)
  end.

Fixpoint map_run (body : body_t) (ops : list map_op) : outcome body_t :=
  match ops with
  | [] => Ret body
  | o :: ops => body ← map_apply body o; map_run body ops
  end.

(** The specification: a function from keys to the stored pair. *)
Definition map_spec (m : Key → option (Key * Mapped)) (o : map_op) (k' : Key) : option (Key * Mapped) :=
  match o with
  | MInsert k v | MInsertHint _ k v | MTryEmplace k v | MTryEmplaceHint _ k v =>
      match m k' with Some p => Some p | None => if keqb comp k' k then Some (k, v) else None end
  | MInsertRange _ kvs => match m k' with Some p => Some p | None => lookup k' kvs end
  | MInsertOrAssign k v | MInsertOrAssignHint _ k v | MSubscriptAssign k v => assigns m k v k'
  | MErase k => m k' ≫= λ p, if keqb comp k p.1 then None else Some p
  | MEraseIf pred => m k' ≫= λ p, if pred p then None else Some p
  | MClear => None
  | MAssign items => lookup k' items
  end.

Lemma subscript_spec (body : body_t) k v : sorted body →
  ∃ body', ('(body, it) ← subscript comp mapped_default body k; assign_second body it v) = Ret body' ∧ sorted body' ∧
    (∀ k', lookup k' body' = assigns (λ k, lookup k body) k v k').
Proof.
  intros Hs. destruct (emplace_key_args_spec fst comp body k (k, mapped_default) Hs ltac:(reflexivity)) as ([body1 [it ins]] & E & Hi).
  assert (subscript comp mapped_default body k = Ret (body1, it)) as ->.
  { unfold emplace_key_args in E. unfold subscript. destruct (lower_bound fst comp body k) as [lower|]; [|done].
    simpl in E |- *. destruct (end_or_less fst comp body k lower) as [b|]; [|done].
    simpl in E |- *. by destruct b; injection E as <- <- _. }
  rewrite bind_ret. destruct Hi as (Hs1 & Hins & Hsame & Hit & Hl).
  destruct (assign_second_spec body1 it _ v Hs1 Hit) as (body' & -> & Hs' & _ & Hl'). exists body'. split_and!; [done|done|].
  intros k'. rewrite Hl', Hl. unfold assigns. destruct (lookup k body) as [p|] eqn:Ep; simpl.
  - apply lookup_elem in Ep as [Hin Hk]. simpl in Hk. assert (keqb comp p.1 k' = keqb comp k k') as -> by (by rewrite Hk).
    destruct (keqb comp k k') eqn:E2; [done|].
    rewrite lookup_app. destruct (lookup k' body); [done|]. unfold lookup_key. simpl.
    by rewrite (keqb_comm comp k' k), E2.
  - destruct (keqb comp k k') eqn:E2; [done|]. rewrite lookup_app. destruct (lookup k' body); [done|]. unfold lookup_key. simpl.
    by rewrite (keqb_comm comp k' k), E2.
Qed.

Lemma map_apply_spec (body : body_t) o : sorted body →
  ∃ body', map_apply body o = Ret body' ∧ sorted body' ∧ ∀ k', lookup k' body' = map_spec (λ k, lookup k body) o k'.
Proof.
  intros Hs. assert (∀ k v k', lookup k' (body ++ [(k, v)]) =
    match lookup k' body with Some p => Some p | None => if keqb comp k' k then Some (k, v) else None end) as Hone.
  { intros k v k'. by rewrite lookup_app. }
  assert (∀ hint k v, ∃ r, emplace_hint_key_args fst comp body (Nat.min hint (length body)) k (k, v) = Ret r ∧
    inserts fst comp body k (k, v) r) as Hhint by (intros hint k v; apply emplace_hint_spec; [done|done|reflexivity|lia]).
  assert (∀ k v, ∃ r, emplace_key_args fst comp body k (k, v) = Ret r ∧ inserts fst comp body k (k, v) r) as Hplain
    by (intros k v; apply emplace_key_args_spec; [done|done|reflexivity]).
  destruct o; cbn [map_apply map_spec].
  - destruct (Hplain k v) as ([body1 [it ins]] & E & Hi). unfold insert. simpl fst. rewrite E. exists body1.
    split; [done|]. destruct Hi as (Hs1 & _ & _ & _ & Hl). split; [done|]. intros k'. by rewrite Hl.
  - destruct (Hhint hint k v) as ([body1 [it ins]] & E & Hi). unfold insert_hint. simpl fst. rewrite E. exists body1.
    split; [done|]. destruct Hi as (Hs1 & _ & _ & _ & Hl). split; [done|]. intros k'. by rewrite Hl.
  - destruct (insert_range_spec fst comp multipass body kvs Hs) as (body' & E & Hs' & Hl). exists body'.
    split_and!; [done|done|]. intros k'. by rewrite Hl, lookup_app.
  - destruct (Hplain k v) as ([body1 [it ins]] & E & Hi). unfold try_emplace. rewrite E. exists body1.
    split; [done|]. destruct Hi as (Hs1 & _ & _ & _ & Hl). split; [done|]. intros k'. by rewrite Hl.
  - destruct (Hhint hint k v) as ([body1 [it ins]] & E & Hi). unfold try_emplace_hint. rewrite E. exists body1.
    split; [done|]. destruct Hi as (Hs1 & _ & _ & _ & Hl). split; [done|]. intros k'. by rewrite Hl.
  - destruct (Hplain k v) as ([body1 [it ins]] & E & Hi). unfold insert_or_assign. rewrite E, !bind_ret.
    destruct (assign_after body k v body1 it ins Hs Hi) as (body' & E' & Hs' & Hl). exists body'. split; [|done].
    destruct ins; [by injection E' as ->|]. by rewrite E'.
  - destruct (Hhint hint k v) as ([body1 [it ins]] & E & Hi). unfold insert_or_assign_hint. rewrite E, !bind_ret.
    destruct (assign_after body k v body1 it ins Hs Hi) as (body' & E' & Hs' & Hl). exists body'. split; [|done].
    destruct ins; [by injection E' as ->|]. by rewrite E'.
  - by apply subscript_spec.
  - destruct (erase_key_spec fst comp body k Hs) as (body' & -> & Hs' & Hl). exists body'. done.
  - destruct (filter_erases fst comp pred body Hs) as [Hs' Hl]. by eexists.
  - eexists. split; [done|]. split; [constructor|done].
  - destruct (make_spec fst comp items) as [Hs' Hl]. by eexists.
Qed.

(** The specification respects equal functions. *)
Lemma map_spec_ext m m' o k' : (∀ k, m k = m' k) → map_spec m o k' = map_spec m' o k'.
Proof. intros Hm. destruct o; simpl; unfold assigns; by rewrite ?Hm. Qed.

Fixpoint spec_run (m : Key → option (Key * Mapped)) (ops : list map_op) : Key → option (Key * Mapped) :=
  match ops with [] => m | o :: ops => spec_run (map_spec m o) ops end.

Lemma spec_run_ext m m' ops k' : (∀ k, m k = m' k) → spec_run m ops k' = spec_run m' ops k'.
Proof. revert m m'. induction ops as [|o ops IH]; intros m m' Hm; simpl; [done|]. apply IH. intros k. by apply map_spec_ext. Qed.

Lemma map_run_spec (body : body_t) ops : sorted body →
  ∃ body', map_run body ops = Ret body' ∧ sorted body' ∧ ∀ k', lookup k' body' = spec_run (λ k, lookup k body) ops k'.
Proof.
  revert body. induction ops as [|o ops IH]; intros body Hs; simpl; [by exists body|].
  destruct (map_apply_spec body o Hs) as (body1 & -> & Hs1 & Hl1). rewrite bind_ret.
  destruct (IH body1 Hs1) as (body' & E & Hs' & Hl'). exists body'. split_and!; [done|done|]. intros k'. rewrite Hl'.
  by apply spec_run_ext.
Qed.

Lemma at_key_spec (body : body_t) k : sorted body →
  at_key comp body k = match lookup k body with Some p => Ret p.2 | None => Crash CheckFailed end.
Proof.
  intros Hs. destruct (find_spec fst comp k body Hs) as (it & E & Hit & Hend). unfold at_key. rewrite E, bind_ret.
  destruct (lookup k body) as [p|] eqn:Ep.
  - assert (it < length body)%nat by (by apply list.lookup_lt_Some in Hit).
    rewrite check_pass by (apply negb_true_iff, Nat.eqb_neq; lia). unfold deref. by rewrite !bind_ret, Hit.
  - rewrite Hend by done. by rewrite Nat.eqb_refl.
Qed.
End MapSpec.

(** ** Properties *)

Section Properties.
Context {Key Value : Type} (GetKeyFromValue : Value → Key) (comp : Key → Key → bool) `{!StrictWeakOrder comp} `{BuildMode}.

#[local] Abbreviation key := GetKeyFromValue.

(** Every operation of the tree keeps its body sorted and free of
    equivalent items: construction and assignment from any items, insertion of
    an item with or without a hint, insertion of a range, erasure of an
    iterator, a range, a key or by a predicate, clearing, extracting; the
    constructors tagged [sorted_unique] and [replace] do in builds that check
    their argument, where they stop the program otherwise. *)
Theorem flat_tree_invariant (body items : list Value) (v : Value) (hint pos first last : nat) (k : Key)
    (pred : Value → bool) (multipass : bool) :
  sorted_unique key comp body → (hint ≤ length body)%nat → (pos < length body)%nat → (first ≤ last ≤ length body)%nat →
  let ok (o : outcome (list Value)) := ∃ body', o = Ret body' ∧ sorted_unique key comp body' in
  ok ('(b, _) ← insert key comp body v; Ret b) ∧
  ok ('(b, _) ← insert_hint key comp body hint v; Ret b) ∧
  ok (insert_range key comp multipass body items) ∧
  ok (erase_at body pos) ∧
  ok (Ret (erase_range body first last)) ∧
  ok ('(b, _) ← erase_key key comp body k; Ret b) ∧
  ok (Ret (fst (EraseIf body pred))) ∧
  ok (Ret (flat_tree_make key comp items)) ∧
  ok (Ret (fst (extract body))) ∧
  (RTC_DCHECK_IS_ON = true →
   replace key comp body items =
     if is_sorted_and_unique key comp items then Ret items else Crash DCheckFailed) ∧
  (is_sorted_and_unique key comp items = true ↔ sorted_unique key comp items).
Proof.
  intros Hs Hhint Hpos Hrange ok. split_and!.
  - destruct (emplace_key_args_spec key comp body (key v) v Hs ltac:(reflexivity)) as ([b r] & E & Hb).
    unfold insert. rewrite E. exists b. split; [done|]. destruct r. apply Hb.
  - destruct (emplace_hint_spec key comp body hint (key v) v Hs ltac:(reflexivity) Hhint) as ([b r] & E & Hb).
    unfold insert_hint. rewrite E. exists b. split; [done|]. destruct r. apply Hb.
  - destruct (insert_range_spec key comp multipass body items Hs) as (b & E & Hb & _). by exists b.
  - destruct (erase_at_spec key comp body pos Hs Hpos) as (w & b & _ & E & Hb & _). by exists b.
  - eexists; split; [done|]. unfold erase_range, vector_erase.
    pose proof Hs as Hs'. rewrite <- (take_drop first body) in Hs'. apply sorted_app in Hs' as (H12 & H1 & H2).
    rewrite <- (take_drop (last - first) (drop first body)), drop_drop in H12, H2.
    replace (first + (last - first))%nat with last in * by lia.
    apply sorted_app in H2 as (_ & _ & H2). apply sorted_app. split_and!; [|done|done].
    intros a b Ha Hb. apply H12; [done|]. apply list.elem_of_app. by right.
  - destruct (erase_key_spec key comp body k Hs) as (b & E & Hb & _). rewrite E. by exists b.
  - destruct (filter_erases key comp pred body Hs) as [Hb _]. by eexists.
  - destruct (make_spec key comp items) as [Hb _]. by eexists.
  - eexists; split; [done|]. constructor.
  - intros Hd. unfold replace, RTC_DCHECK. rewrite Hd. by destruct (is_sorted_and_unique key comp items).
  - apply is_sorted_spec; done.
Qed.

(** On a sorted body the searches answer from the item the body holds for
    the key: [lower_bound] is the number of smaller items and [upper_bound]
    that of the items not greater, [equal_range] is the pair of both, [find]
    gives the index of the item or the end, [count] is 0 or 1 and [contains]
    says whether there is one.  None of them reads outside the vector. *)
Theorem flat_tree_search (body : list Value) (k : Key) :
  sorted_unique key comp body →
  let below := length (List.filter (λ v, comp (key v) k) body) in
  let not_above := length (List.filter (λ v, negb (comp k (key v))) body) in
  lower_bound key comp body k = Ret below ∧ upper_bound key comp body k = Ret not_above ∧
  equal_range key comp body k = Ret (below, not_above) ∧
  match lookup_key key comp k body with
  | Some v => find key comp body k = Ret below ∧ body !! below = Some v ∧
      count key comp body k = Ret 1%nat ∧ contains key comp body k = Ret true
  | None => find key comp body k = Ret (length body) ∧ below = not_above ∧
      count key comp body k = Ret 0%nat ∧ contains key comp body k = Ret false
  end.
Proof.
  intros Hs below not_above. destruct (sorted_split key comp k body Hs) as (l1 & mid & l2 & Hsp).
  destruct (splits_filters key comp k body l1 mid l2 Hsp) as [E1 E2]. fold below in E1. fold not_above in E2.
  destruct (bounds_spec key comp k body l1 mid l2 Hsp) as (El & Eu & _).
  pose proof (equal_range_spec key comp k body l1 mid l2 Hsp) as Er. rewrite El, Eu, Er, E1, E2. split_and!; [done..|].
  rewrite (count_spec key comp k body Hs), (contains_spec key comp k body Hs). unfold find. rewrite Er, bind_ret.
  rewrite (splits_lookup key comp k body l1 mid l2 Hsp). destruct Hsp as (-> & _ & _ & [-> |(v & -> & _)]); simpl.
  - by rewrite app_nil_r, Nat.eqb_refl.
  - rewrite (proj2 (Nat.eqb_neq _ _)) by (rewrite length_app; simpl; lia). split_and!; [done| |done..].
    by apply list_lookup_middle.
Qed.

(** The insertion sort behind the constant maps and sets, which swaps
    neighbours in place, computes what a stable sort computes, for every input:
    an ordered permutation in which equivalent items keep their order.  So a
    constant container is built exactly when no two items have equivalent keys,
    and then it is the container built at run time from the same items. *)
Theorem flat_tree_insertion_sort (data : list Value) :
  let sorted := stable_sort key comp data in
  InsertionSort key comp data = Ret sorted ∧
  weakly_sorted key comp sorted ∧ sorted ≡ₚ data ∧ (∀ k, class key comp k sorted = class key comp k data) ∧
  ((∀ k, (length (class key comp k data) ≤ 1)%nat) → MakeFixed key comp data = Ret (flat_tree_make key comp data)) ∧
  (∀ k, (1 < length (class key comp k data))%nat → MakeFixed key comp data = Crash CheckFailed).
Proof.
  intros sorted. destruct (stable_sort_spec key comp data) as (Hw & Hp & Hc). fold sorted in Hw, Hp, Hc.
  pose proof (InsertionSort_spec key comp data) as Es. fold sorted in Es.
  split_and!; [done..|intros Hle|intros k Hlt]; unfold MakeFixed, flat_tree_sorted; rewrite Es, bind_ret.
  - assert (sorted_unique key comp sorted) as Hs by (apply weakly_sorted_unique; [done|done|intros k; by rewrite Hc]).
    rewrite make_unfold, unique_id by done. apply (is_sorted_spec key comp) in Hs.
    by rewrite check_pass, bind_ret, dcheck_pass, bind_ret by done.
  - destruct (is_sorted_and_unique key comp sorted) eqn:E; [|done]. apply (is_sorted_spec key comp), (sorted_class key comp k) in E.
    rewrite Hc in E. lia.
Qed.
End Properties.

Section MapProperties.
Context {Key Mapped : Type} (comp : Key → Key → bool) `{!StrictWeakOrder comp} (mapped_default : Mapped) `{BuildMode}.

(** C26: A flat map refines a function from keys to pairs, for every sequence of
    its mutating operations from the empty map, whatever the hints: [insert],
    [try_emplace] and the insertion of a range keep the pair that is there and
    of several new ones the first, [insert_or_assign] and assignment through
    [operator[]] replace the mapped value and keep the stored key, [erase],
    [EraseIf], [clear] and assignment do what their names say.  No sequence
    fails; afterwards [at], [find], [count] and [contains] answer as the
    function does, and [at] stops the program when the key is absent; and the
    body is the only sorted vector that represents the function. *)
Theorem flat_map_refines_map (ops : list (map_op (Key := Key) (Mapped := Mapped))) :
  let m := spec_run comp (λ _, None) ops in
  ∃ body, map_run comp mapped_default [] ops = Ret body ∧ sorted_unique fst comp body ∧
    (∀ k, at_key comp body k = (match m k with Some p => Ret p.2 | None => Crash CheckFailed end) ∧
      (∃ it, find fst comp body k = Ret it ∧ body !! it = m k) ∧
      count fst comp body k = Ret (match m k with Some _ => 1%nat | None => 0%nat end) ∧
      contains fst comp body k = Ret (match m k with Some _ => true | None => false end)) ∧
    (∀ body', sorted_unique fst comp body' → (∀ k, lookup_key fst comp k body' = m k) → body' = body).
Proof.
  intros m. destruct (map_run_spec comp mapped_default [] ops (sorted_nil _ _)) as (body & E & Hs & Hl).
  change (λ k : Key, lookup_key fst comp k []) with (λ k : Key, @None (Key * Mapped)) in Hl. fold m in Hl.
  exists body. split_and!; [done|done| |].
  - intros k. rewrite <- Hl. split_and!.
    + by apply at_key_spec.
    + destruct (find_spec fst comp k body Hs) as (it & Ei & Hi & _). by exists it.
    + by apply count_spec.
    + by apply contains_spec.
  - intros body' Hs' Hl'. apply (sorted_ext fst comp); [done..|]. intros k. by rewrite Hl, Hl'.
Qed.
End MapProperties.

(** ** At concrete inputs *)

#[export] Instance Zltb_strict_weak_order : StrictWeakOrder Z.ltb.
Proof.
  split; intros *; rewrite ?Z.ltb_lt, ?Z.ltb_ge; lia.
Qed.

(** Pairs of numbers compared by the first: equivalent keys that differ. *)
#[export] Instance fst_strict_weak_order : StrictWeakOrder (λ a b : Z * Z, Z.ltb a.1 b.1).
Proof.
  split; intros *; rewrite ?Z.ltb_lt, ?Z.ltb_ge; lia.
Qed.

#[local] Abbreviation release := {| RTC_DCHECK_IS_ON := false |}.
#[local] Abbreviation debug := {| RTC_DCHECK_IS_ON := true |}.

Lemma sorted_example : sorted_unique (λ z : Z, z) Z.ltb [2; 5; 9].
Proof. by apply is_sorted_spec; [apply _|]. Qed.

Lemma flat_tree_invariant_witness :
  @replace Z Z (λ z, z) Z.ltb debug [2; 5; 9] [3; 1] = Crash DCheckFailed ∧
  (∃ b, insert_range (λ z : Z, z) Z.ltb true [2; 5; 9] [3; 1] = Ret b ∧ sorted_unique (λ z : Z, z) Z.ltb b) ∧
  insert_range (λ z : Z, z) Z.ltb true [2; 5; 9] [3; 1] = Ret [1; 2; 3; 5; 9].
Proof.
  pose proof (@flat_tree_invariant Z Z (λ z, z) Z.ltb _ debug [2; 5; 9] [3; 1] 4 1 2 1 3 5 Z.even true sorted_example
    ltac:(simpl; lia) ltac:(simpl; lia) ltac:(simpl; lia)) as (_ & _ & H1 & _ & _ & _ & _ & _ & _ & H2 & _).
  split; [exact (H2 eq_refl)|]. split; [exact H1|reflexivity].
Defined.

Lemma flat_tree_search_witness :
  lower_bound (λ z : Z, z) Z.ltb [2; 5; 9] 6 = Ret 2%nat ∧ find (λ z : Z, z) Z.ltb [2; 5; 9] 5 = Ret 1%nat.
Proof.
  split.
  - exact (proj1 (flat_tree_search (λ z : Z, z) Z.ltb [2; 5; 9] 6 sorted_example)).
  - exact (proj1 (proj2 (proj2 (proj2 (flat_tree_search (λ z : Z, z) Z.ltb [2; 5; 9] 5 sorted_example))))).
Defined.

(** Two pairs with the same first item: the order is kept, and a constant set
    of them is refused. *)
Lemma flat_tree_insertion_sort_witness :
  let comp := λ a b : Z * Z, Z.ltb a.1 b.1 in
  InsertionSort (λ v, v) comp [(2, 0); (1, 7); (2, 1)] = Ret [(1, 7); (2, 0); (2, 1)] ∧
  @MakeFixed _ _ (λ v, v) comp release [(2, 0); (1, 7); (2, 1)] = Crash CheckFailed.
Proof.
  intros comp. pose proof (@flat_tree_insertion_sort _ _ (λ v, v) comp _ release [(2, 0); (1, 7); (2, 1)]) as (H1 & _ & _ & _ & _ & H2).
  split; [exact H1|]. apply (H2 (2, 5)). vm_compute. lia.
Defined.

Lemma flat_map_refines_map_witness :
  ∃ body, map_run Z.ltb 0 []
    [MInsert 5 50; MSubscriptAssign 2 20; MInsertRange true [(5, 51); (9, 90); (9, 91)]; MInsertOrAssign 2 21;
     MInsertHint 1 4 40; MErase 5] = Ret body ∧ body = [(2, 21); (4, 40); (9, 90)] ∧
    at_key Z.ltb body 9 = Ret 90 ∧ at_key Z.ltb body 5 = Crash CheckFailed.
Proof.
  destruct (flat_map_refines_map Z.ltb 0
    [MInsert 5 50; MSubscriptAssign 2 20; MInsertRange true [(5, 51); (9, 90); (9, 91)]; MInsertOrAssign 2 21;
     MInsertHint 1 4 40; MErase 5]) as (body & E & _ & Hk & _).
  exists body. split; [exact E|]. assert (body = [(2, 21); (4, 40); (9, 90)]) as Eb by (vm_compute in E; congruence).
  split; [exact Eb|]. split; [exact (proj1 (Hk 9))|exact (proj1 (Hk 5))].
Defined.
