(* ===== verification/StringNumber.v ===== *)
(** * Conversion between strings and numbers

    Model of the integer conversions of
    [src/include/base/strings/string_number_conversions_internal.h]: the
    printer [IntToStringT], which fills a fixed buffer from its end, the parser
    [StringToNumber] with its bounds checks, and the decoder
    [HexStringToByteContainer].  A string is the list of its code units; the
    type of a code unit, of the number and the base are arguments as they are
    template arguments.  The absolute value is taken with [CheckedNumeric]. *)

From stdpp Require Import strings pretty.
From S2P Require Import Prelude BaseNumerics CheckedMath CheckedNumeric.

(** Code units of the characters used. *)
Definition c_zero : Z := 48.
Definition c_A : Z := 65.
Definition c_a : Z := 97.
Definition c_X : Z := 88.
Definition c_x : Z := 120.
Definition c_plus : Z := 43.
Definition c_minus : Z := 45.

(** [isspace] and [iswspace] depend on the locale; no locale may make a
    printable ASCII character a white space. *)
Class Ctype := {
  is_space : Z → bool;
  is_space_graph : ∀ c, 33 ≤ c ≤ 126 → is_space c = false
}.

(** ** Numbers to strings *)

Section Print.
Context (CHR INT : int_type) `{BuildMode}.

Definition kOutputBufSize : nat := Z.to_nat (3 * (it_bits INT / 8) + (if it_signed INT then 1 else 0)).

(** The [do] loop; [i] is the index the pointer [i] has in [outbuf]. *)
Fixpoint put_digits (outbuf : list (option Z)) (i : nat) (res : Z) : outcome (list (option Z) * nat) :=
  match i with
  | O => Crash OutOfBounds
  | S i =>
      _ ← RTC_DCHECK (negb (Nat.eqb i 0));
      let outbuf := <[i := Some (convert CHR (Z.rem res 10 + c_zero))]> outbuf in
      let res := Z.quot res 10 in
      if negb (res =? 0) then put_digits outbuf i res else Ret (outbuf, i)
  end.

(** The minus sign. *)
Definition put_sign (value : Z) (outbuf : list (option Z)) (i : nat) : outcome (list (option Z) * nat) :=
  if IsValueNegative INT value then
    match i with
    | O => Crash OutOfBounds
    | S i => _ ← RTC_DCHECK (negb (Nat.eqb i 0)); Ret (<[i := Some (convert CHR c_minus)]> outbuf, i)
    end
  else Ret (outbuf, i).

(** [STR(i, end)]. *)
Definition copy_out (outbuf : list (option Z)) (i : nat) : outcome (list Z) :=
  match mapM (M := option) id (drop i outbuf) with Some s => Ret s | None => Crash UninitRead end.

Definition IntToStringT (value : Z) : outcome (list Z) :=
  let outbuf := replicate kOutputBufSize None in
  let U := make_unsigned INT in
  res ← ValueOrDie U U (CN_UnsignedAbs INT (CheckedNumericState_make INT INT value true));
  '(outbuf, i) ← put_digits outbuf kOutputBufSize res;
  '(outbuf, i) ← put_sign value outbuf i;
  copy_out outbuf i.
End Print.

(** ** Strings to numbers *)

Definition CharToDigit (BASE : Z) (c : Z) : option Z :=
  if (c_zero <=? c) && (c <? c_zero + Z.min BASE 10) then Some (convert uint8_t (c - c_zero))
  else if (c_a <=? c) && (c <? c_a + BASE - 10) then Some (convert uint8_t (c - c_a + 10))
  else if (c_A <=? c) && (c <? c_A + BASE - 10) then Some (convert uint8_t (c - c_A + 10))
  else None.

Record Result := mkResult { value : Z; valid : bool }.

Inductive Sign := Positive | Negative.

#[export] Instance Sign_eq_dec : EqDecision Sign.
Proof. solve_decision. Defined.

Section Parse.
Context (Number : int_type) (kBase : Z) `{Ctype}.

#[local] Abbreviation kMin := (int_min Number).
#[local] Abbreviation kMax := (int_max Number).

(** The type [kMax % kBase] has. *)
#[local] Abbreviation rem_type := (sum_type Number int32_t).

Definition CheckBounds (sign : Sign) (v : Z) (new_digit : Z) : Result :=
  match sign with
  | Positive =>
      if rel Z.gtb Number Number v (convert Number (Z.quot kMax kBase)) ||
         (rel Z.eqb Number Number v (convert Number (Z.quot kMax kBase)) &&
          rel Z.gtb uint8_t rem_type new_digit (Z.rem kMax kBase))
      then mkResult kMax false else mkResult v true
  | Negative =>
      if rel Z.ltb Number rem_type v (Z.quot kMin kBase) ||
         (rel Z.eqb Number rem_type v (Z.quot kMin kBase) &&
          rel Z.gtb uint8_t rem_type new_digit (0 - Z.rem kMin kBase))
      then mkResult kMin false else mkResult v true
  end.

Definition Increment (sign : Sign) (lhs rhs : Z) : outcome Z :=
  r ← arith (sum_type Number uint8_t) (match sign with Positive => lhs + rhs | Negative => lhs - rhs end);
  Ret (convert Number r).

(** The loop; [first] says whether [current == begin]. *)
Fixpoint parse_loop (sign : Sign) (first : bool) (v : Z) (s : list Z) : outcome Result :=
  match s with
  | [] => Ret (mkResult v true)
  | c :: s =>
      match CharToDigit kBase c with
      | None => Ret (mkResult v false)
      | Some new_digit =>
          if first then v ← Increment sign v new_digit; parse_loop sign false v s
          else
            let result := CheckBounds sign v new_digit in
            if negb (valid result) then Ret result else
            v ← arith (sum_type Number int32_t) (v * kBase);
            v ← Increment sign (convert Number v) new_digit;
            parse_loop sign false v s
      end
  end.

(** A prefix [0x] that something follows. *)
Definition skip_prefix (s : list Z) : list Z :=
  match s with
  | c0 :: c1 :: (_ :: _) as rest =>
      if (kBase =? 16) && (c0 =? c_zero) && ((c1 =? c_x) || (c1 =? c_X)) then drop 2 s else s
  | _ => s
  end.

Definition Invoke (sign : Sign) (s : list Z) : outcome Result :=
  match s with
  | [] => Ret (mkResult 0 false)
  | _ => parse_loop sign true 0 (skip_prefix s)
  end.

(** The loop over leading white space. *)
Fixpoint skip_space (has_leading_whitespace : bool) (s : list Z) : bool * list Z :=
  match s with
  | c :: rest => if is_space c then skip_space true rest else (has_leading_whitespace, s)
  | [] => (has_leading_whitespace, s)
  end.

Definition and_valid (r : Result) (b : bool) : Result := mkResult (value r) (valid r && b).

Definition StringToNumber (input : list Z) : outcome Result :=
  let '(has_leading_whitespace, s) := skip_space false input in
  let parse_positive (s : list Z) := r ← Invoke Positive s; Ret (and_valid r (negb has_leading_whitespace)) in
  match s with
  | c :: rest =>
      if c =? c_minus then
        if negb (it_signed Number) then Ret (mkResult 0 false) else
        r ← Invoke Negative rest; Ret (and_valid r (negb has_leading_whitespace))
      else if c =? c_plus then parse_positive rest else parse_positive s
  | [] => parse_positive s
  end.
End Parse.

(** What is returned, and the output. *)
Definition StringToIntImpl (VALUE : int_type) `{Ctype} (input : list Z) : outcome (bool * Z) :=
  result ← StringToNumber VALUE 10 input; Ret (valid result, value result).

Definition HexStringToIntImpl (VALUE : int_type) `{Ctype} (input : list Z) : outcome (bool * Z) :=
  result ← StringToNumber VALUE 16 input; Ret (valid result, value result).

(** ** Bytes *)

Definition string_at (input : list Z) (i : nat) : outcome Z :=
  match input !! i with Some c => Ret c | None => Crash OutOfBounds end.

(** The loop from [i], with [n] iterations left; the bytes written come
    first. *)
Fixpoint hex_loop (input : list Z) (i n : nat) (output : list Z) : outcome (list Z * bool) :=
  match n with
  | O => Ret (output, true)
  | S n =>
      m ← string_at input (i * 2);
      l ← string_at input (i * 2 + 1);
      match CharToDigit 16 m, CharToDigit 16 l with
      | Some msb, Some lsb =>
          hex_loop input (S i) n (output ++ [convert uint8_t (Z.lor (Z.shiftl msb 4) lsb)])
      | _, _ => Ret (output, false)
      end
  end.

Definition HexStringToByteContainer (input : list Z) : outcome (list Z * bool) :=
  let count := length input in
  if Nat.eqb count 0 || negb (Nat.eqb (count mod 2) 0) then Ret ([], false)
  else hex_loop input 0 (count / 2) [].

(** ** What the conversions mean *)

Definition units (s : string) : list Z := (λ c, Z.of_N (Ascii.N_of_ascii c)) <$> String.list_ascii_of_string s.

(** The decimal representation of a number. *)
Definition decimal (v : Z) : list Z := units (pretty v).

(** The longest prefix of digits, as numbers, and what follows it. *)
Fixpoint digit_prefix (base : Z) (s : list Z) : list Z * list Z :=
  match s with
  | [] => ([], [])
  | c :: rest =>
      match CharToDigit base c with
      | Some d => let '(ds, r) := digit_prefix base rest in (d :: ds, r)
      | None => ([], s)
      end
  end.

(** The number that digits stand for, after the digits of [a]. *)
Definition number_after (base a : Z) (ds : list Z) : Z := foldl (λ a d, a * base + d) a ds.

Definition sign_factor (sign : Sign) : Z := match sign with Positive => 1 | Negative => -1 end.

(** The digits with the sign before them, after the prefix of base 16. *)
Definition parse_digits (T : int_type) (base : Z) (space : bool) (sign : Sign) (s : list Z) : Result :=
  let '(ds, rest) := digit_prefix base (skip_prefix base s) in
  let n := sign_factor sign * number_after base 0 ds in
  mkResult (clamp T n)
    (negb space && bool_decide (ds ≠ []) && bool_decide (rest = []) && in_range T n &&
     (it_signed T || bool_decide (sign = Positive))).

(** White space, a sign, and that. *)
Definition parse_spec (T : int_type) (base : Z) `{Ctype} (input : list Z) : Result :=
  let '(space, s) := skip_space false input in
  if bool_decide (head s = Some c_minus) then parse_digits T base space Negative (tail s)
  else if bool_decide (head s = Some c_plus) then parse_digits T base space Positive (tail s)
  else parse_digits T base space Positive s.

(** ** Parsing *)

Lemma uint8_values z : 0 ≤ z < 256 → values uint8_t z.
Proof. unfold values, int_min, int_max. simpl. lia. Qed.

Lemma uint8_convert z : 0 ≤ z < 256 → convert uint8_t z = z.
Proof. intros Hz. apply convert_in_range; [done|]. by apply uint8_values. Qed.

Lemma CharToDigit_range base c d : base ≤ 36 → CharToDigit base c = Some d → 0 ≤ d < base.
Proof.
  unfold CharToDigit, c_zero, c_a, c_A. intros Hb.
  repeat case_match; try done; intros [= <-]; rewrite uint8_convert by lia; lia.
Qed.

Lemma CharToDigit_digit d : 0 ≤ d < 10 → CharToDigit 10 (c_zero + d) = Some d.
Proof.
  unfold CharToDigit, c_zero. intros Hd. assert ((48 <=? 48 + d) && (48 + d <? 48 + Z.min 10 10) = true) as -> by lia.
  f_equal. rewrite uint8_convert; lia.
Qed.

Lemma digit_prefix_range base s : base ≤ 36 → Forall (λ d, 0 ≤ d < base) (fst (digit_prefix base s)).
Proof.
  intros Hb. induction s as [|c s IH]; [constructor|]. cbn [digit_prefix].
  destruct (CharToDigit base c) as [d|] eqn:E; [|constructor]. destruct (digit_prefix base s) as [ds r]. simpl in *.
  constructor; [by apply (CharToDigit_range base c)|done].
Qed.

Lemma number_after_ge base a ds : 1 ≤ base → 0 ≤ a → Forall (λ d, 0 ≤ d < base) ds → a ≤ number_after base a ds.
Proof.
  intros Hb. revert a. induction ds as [|d ds IH]; intros a Ha Hds; [reflexivity|].
  apply list.Forall_cons in Hds as [Hd Hds]. change (a ≤ number_after base (a * base + d) ds).
  transitivity (a * base + d); [nia|]. apply IH; [nia|done].
Qed.

Lemma std_int32 : is_std int32_t.
Proof. unfold is_std, std_types. simpl. tauto. Qed.

Lemma std_uint8 : is_std uint8_t.
Proof. unfold is_std, std_types. simpl. tauto. Qed.

Lemma small_values T z : is_std T → 0 ≤ z ≤ 127 → values T z.
Proof. intros HT Hz. unfold values. std_cases HT; unfold int_min, int_max; simpl; lia. Qed.

Lemma int_min_signed T : is_std T → it_signed T = true → int_min T ≤ -128.
Proof. intros HT Hs. std_cases HT; try done; unfold int_min; simpl; lia. Qed.

Lemma sum_values T U z : is_std T → U = int32_t ∨ U = uint8_t → values T z → values (sum_type T U) z.
Proof.
  unfold values. intros HT HU Hz.
  destruct HU as [-> | ->]; std_cases HT; compute_types; lia.
Qed.

Section ParseSpec.
Context (T : int_type) (HT : is_std T) (base : Z) (Hbase : 2 ≤ base ≤ 36).

Lemma number_arith_exact U z : U = int32_t ∨ U = uint8_t → values T z → arith (sum_type T U) z = Ret z.
Proof using HT.
  intros HU Hz. apply arith_in_range; [|by apply sum_values]. apply std_bits, sum_type_std; [done|].
  destruct HU as [-> | ->]; [apply std_int32|apply std_uint8].
Qed.

Lemma Increment_exact sign v d : values T (v + sign_factor sign * d) → Increment T sign v d = Ret (v + sign_factor sign * d).
Proof using HT.
  intros Hv. unfold Increment. replace (match sign with Positive => v + d | Negative => v - d end) with (v + sign_factor sign * d)
    by (destruct sign; simpl; lia).
  rewrite number_arith_exact by (by auto). rewrite bind_ret. by rewrite std_convert.
Qed.

(** A digit is refused exactly when the number with it is out of range. *)
Lemma CheckBounds_positive v d : values T v → 0 ≤ v → 0 ≤ d < base →
  CheckBounds T base Positive v d = if v * base + d <=? int_max T then mkResult v true else mkResult (int_max T) false.
Proof using HT Hbase.
  intros Hv Hv0 Hd. pose proof (limits_order T HT) as Hlim. pose proof (std_bits T HT).
  assert (127 ≤ int_max T) as Hbig by (destruct (small_values T 127); [done|lia..]).
  pose proof (Z.quot_rem' (int_max T) base) as Hqr. pose proof (Z.rem_bound_pos (int_max T) base ltac:(lia) ltac:(lia)) as Hr.
  set (q := Z.quot (int_max T) base) in *. set (r := Z.rem (int_max T) base) in *.
  assert (0 ≤ q ≤ int_max T) as Hq by nia. assert (values T q) as Hvq by (unfold values; lia).
  unfold CheckBounds. fold q r. rewrite (std_convert T q HT Hvq).
  pose proof std_int32. pose proof std_uint8.
  assert (∀ z, 0 ≤ z < 36 → values uint8_t z) as Hv8 by (intros z Hz; apply uint8_values; lia).
  assert (∀ z, 0 ≤ z < 36 → values (sum_type T int32_t) z) as Hvs by (intros z Hz; apply sum_values; [done|by left|apply small_values; [done|lia]]).
  rewrite !rel_exact; auto; try solve [apply Hv8; lia|apply Hvs; lia|by apply sum_type_std].
  assert ((v >? q) || (v =? q) && (d >? r) = negb (v * base + d <=? int_max T)) as ->; [|by destruct (_ <=? _)].
  destruct (Z.gtb_spec v q), (Z.eqb_spec v q), (Z.gtb_spec d r), (Z.leb_spec (v * base + d) (int_max T)); simpl; try done; exfalso; nia.
Qed.

Lemma CheckBounds_negative v d : it_signed T = true → values T v → v ≤ 0 → 0 ≤ d < base →
  CheckBounds T base Negative v d = if int_min T <=? v * base - d then mkResult v true else mkResult (int_min T) false.
Proof using HT Hbase.
  intros Hsg Hv Hv0 Hd. pose proof (std_bits T HT).
  pose proof (int_min_signed T HT Hsg) as Hbig.
  pose proof (limits_order T HT) as Hlim.
  pose proof (Z.quot_rem' (int_min T) base) as Hqr. pose proof (Z.rem_bound_pos_neg (int_min T) base ltac:(lia) ltac:(lia)) as Hr.
  set (q := Z.quot (int_min T) base) in *. set (r := Z.rem (int_min T) base) in *.
  assert (int_min T ≤ q ≤ 0) as Hq by nia. assert (values T q) as Hvq by (unfold values; lia).
  unfold CheckBounds. fold q r.
  pose proof std_int32. pose proof std_uint8.
  assert (∀ z, 0 ≤ z < 36 → values uint8_t z) as Hv8 by (intros z Hz; apply uint8_values; lia).
  assert (∀ z, 0 ≤ z < 36 → values (sum_type T int32_t) z) as Hvs by (intros z Hz; apply sum_values; [done|by left|apply small_values; [done|lia]]).
  rewrite !rel_exact; auto; try solve [apply Hv8; lia|apply Hvs; lia|by apply sum_type_std|apply sum_values; auto].
  assert ((v <? q) || (v =? q) && (d >? 0 - r) = negb (int_min T <=? v * base - d)) as ->; [|by destruct (_ <=? _)].
  destruct (Z.ltb_spec v q), (Z.eqb_spec v q), (Z.gtb_spec d (0 - r)), (Z.leb_spec (int_min T) (v * base - d)); simpl; try done; exfalso; nia.
Qed.

(** Both signs at once. *)
Lemma CheckBounds_exact sign a d : (sign = Positive ∨ it_signed T = true) → 0 ≤ a → 0 ≤ d < base →
  values T (sign_factor sign * a) →
  let n := sign_factor sign * (a * base + d) in
  CheckBounds T base sign (sign_factor sign * a) d =
    if in_range T n then mkResult (sign_factor sign * a) true else mkResult (clamp T n) false.
Proof using HT Hbase.
  intros Hsg Ha Hd Hv n. pose proof (limits_order T HT) as Hlim. unfold in_range, clamp. destruct sign; simpl sign_factor in *.
  - rewrite CheckBounds_positive by lia || done. replace (1 * a * base + d) with n by (subst n; simpl; lia).
    assert ((int_min T <=? n) = true) as -> by (subst n; simpl; nia). rewrite andb_true_l.
    destruct (Z.leb_spec n (int_max T)); [done|]. f_equal. lia.
  - destruct Hsg as [?|Hsg]; [done|]. rewrite CheckBounds_negative by lia || done.
    replace (-1 * a * base - d) with n by (subst n; simpl; lia).
    assert ((n <=? int_max T) = true) as -> by (subst n; simpl; nia). rewrite andb_true_r.
    destruct (Z.leb_spec (int_min T) n); [done|]. f_equal. lia.
Qed.

(** What follows a number that is already out of range leaves it there. *)
Lemma out_of_range_stays sign a ds : 0 ≤ a → Forall (λ d, 0 ≤ d < base) ds → in_range T (sign_factor sign * a) = false →
  in_range T (sign_factor sign * number_after base a ds) = false ∧
  clamp T (sign_factor sign * number_after base a ds) = clamp T (sign_factor sign * a).
Proof using HT Hbase.
  intros Ha Hds Hr. pose proof (number_after_ge base a ds ltac:(lia) Ha Hds) as Hge. pose proof (limits_order T HT).
  unfold in_range, clamp in *. destruct sign; simpl sign_factor in *; lia.
Qed.

Lemma parse_loop_exact sign s a : (sign = Positive ∨ it_signed T = true) → 0 ≤ a → values T (sign_factor sign * a) →
  let '(ds, rest) := digit_prefix base s in
  let n := sign_factor sign * number_after base a ds in
  parse_loop T base sign false (sign_factor sign * a) s = Ret (mkResult (clamp T n) (in_range T n && bool_decide (rest = []))).
Proof using HT Hbase.
  intros Hsg. revert a. induction s as [|c s IH]; intros a Ha Hv; cbn [digit_prefix parse_loop].
  { unfold number_after. simpl. rewrite (proj2 (in_range_spec T _) Hv). do 2 f_equal. unfold clamp. unfold values in Hv. lia. }
  destruct (CharToDigit base c) as [d|] eqn:E.
  2:{ unfold number_after. simpl. rewrite (proj2 (in_range_spec T _) Hv). do 2 f_equal. unfold clamp. unfold values in Hv. lia. }
  pose proof (CharToDigit_range base c d ltac:(lia) E) as Hd. pose proof (digit_prefix_range base s ltac:(lia)) as Hds.
  specialize (IH (a * base + d) ltac:(nia)). destruct (digit_prefix base s) as [ds rest]. simpl in Hds.
  change (number_after base a (d :: ds)) with (number_after base (a * base + d) ds).
  rewrite CheckBounds_exact by done. destruct (in_range T (sign_factor sign * (a * base + d))) eqn:Er; cbn [negb valid].
  - apply in_range_spec in Er. specialize (IH Er).
    assert (values T (sign_factor sign * a * base)) as Hm.
    { pose proof (limits_order T HT). unfold values in *. destruct sign; simpl sign_factor in *; nia. }
    rewrite number_arith_exact, bind_ret, std_convert by (auto; by left).
    rewrite Increment_exact; [|by replace (sign_factor sign * a * base + sign_factor sign * d) with (sign_factor sign * (a * base + d)) by lia].
    rewrite bind_ret. by replace (sign_factor sign * a * base + sign_factor sign * d) with (sign_factor sign * (a * base + d)) by lia.
  - destruct (out_of_range_stays sign (a * base + d) ds ltac:(nia) Hds Er) as [-> ->]. done.
Qed.

Lemma Invoke_exact sign s : (sign = Positive ∨ it_signed T = true) →
  let '(ds, rest) := digit_prefix base (skip_prefix base s) in
  let n := sign_factor sign * number_after base 0 ds in
  Invoke T base sign s =
    Ret (mkResult (clamp T n) (bool_decide (ds ≠ []) && bool_decide (rest = []) && in_range T n)).
Proof using HT Hbase.
  intros Hsg. pose proof (limits_order T HT) as Hlim. assert (clamp T 0 = 0) as Hc0 by (unfold clamp; lia).
  destruct s as [|c0 s0]; [unfold number_after; simpl; by rewrite Z.mul_0_r, Hc0|].
  unfold Invoke. set (s := skip_prefix base (c0 :: s0)). assert (s ≠ []) as Hs.
  { subst s. unfold skip_prefix. destruct s0 as [|c1 [|c2 s0]]; try done. by case_match. }
  destruct s as [|c s']; [done|]. clear Hs. cbn [digit_prefix parse_loop].
  destruct (CharToDigit base c) as [d|] eqn:E; [|unfold number_after; simpl; by rewrite Z.mul_0_r, Hc0].
  pose proof (CharToDigit_range base c d ltac:(lia) E) as Hd.
  assert (values T (sign_factor sign * d)) as Hv.
  { destruct sign; simpl; [apply small_values; [done|lia]|]. destruct Hsg as [?|Hsg]; [done|].
    pose proof (int_min_signed T HT Hsg). unfold values. lia. }
  rewrite Increment_exact, bind_ret, Z.add_0_l by done. pose proof (parse_loop_exact sign s' d Hsg ltac:(lia) Hv) as IH.
  destruct (digit_prefix base s') as [ds rest]. rewrite IH. change (number_after base 0 (d :: ds)) with (number_after base d ds).
  rewrite (bool_decide_true (d :: ds ≠ [])) by done. by rewrite andb_true_l, andb_comm.
Qed.

Lemma Invoke_digits space sign s : (sign = Positive ∨ it_signed T = true) →
  (r ← Invoke T base sign s; Ret (and_valid r (negb space))) = Ret (parse_digits T base space sign s).
Proof using HT Hbase.
  intros Hsg. pose proof (Invoke_exact sign s Hsg) as E. unfold parse_digits.
  destruct (digit_prefix base (skip_prefix base s)) as [ds rest]. rewrite E, bind_ret. unfold and_valid. cbn [value valid].
  assert (it_signed T || bool_decide (sign = Positive) = true) as ->.
  { destruct Hsg as [->| ->]; [by rewrite bool_decide_true, orb_true_r|done]. }
  do 2 f_equal. rewrite (andb_comm _ (negb space)), !andb_assoc. by rewrite andb_true_r.
Qed.

(** A minus sign of an unsigned number. *)
Lemma parse_digits_unsigned space s : it_signed T = false → parse_digits T base space Negative s = mkResult 0 false.
Proof using HT Hbase.
  intros Hsg. unfold parse_digits. pose proof (digit_prefix_range base (skip_prefix base s) ltac:(lia)) as Hds.
  destruct (digit_prefix base (skip_prefix base s)) as [ds r]. simpl in Hds.
  pose proof (number_after_ge base 0 ds ltac:(lia) ltac:(lia) Hds). rewrite (bool_decide_false (Negative = Positive)) by done.
  rewrite Hsg, andb_false_r. f_equal. unfold clamp, int_min. rewrite Hsg. pose proof (limits_order T HT). cbn [sign_factor]. lia.
Qed.

(** The parser is its specification. *)
Lemma StringToNumber_exact `{Ctype} input : StringToNumber T base input = Ret (parse_spec T base input).
Proof using HT Hbase.
  unfold StringToNumber, parse_spec. destruct (skip_space false input) as [space s]. destruct s as [|c rest].
  { by rewrite Invoke_digits by (by left). }
  cbn [head tail]. destruct (Z.eqb_spec c c_minus) as [->|Hm].
  - rewrite bool_decide_true by done. destruct (it_signed T) eqn:Hsg; cbn [negb].
    + by rewrite Invoke_digits by (by right).
    + by rewrite parse_digits_unsigned.
  - rewrite (bool_decide_false (Some c = Some c_minus)) by congruence.
    destruct (Z.eqb_spec c c_plus) as [->|Hp]; rewrite Invoke_digits by (by left).
    + by rewrite bool_decide_true.
    + by rewrite bool_decide_false by congruence.
Qed.
End ParseSpec.

(** ** Printing *)

Lemma units_cons c s : units (String c s) = Z.of_N (Ascii.N_of_ascii c) :: units s.
Proof. done. Qed.

Lemma pretty_go_app x s : units (pretty_N_go x s) = units (pretty_N_go x "") ++ units s.
Proof.
  revert s. induction (N.lt_wf_0 x) as [x _ IH]; intros s.
  destruct (decide (x = 0)%N) as [->|Hx]; [by rewrite !pretty_N_go_0|].
  rewrite (pretty_N_go_step x s), (pretty_N_go_step x "") by lia.
  assert (x `div` 10 < x)%N as Hlt by (apply N.div_lt; lia).
  rewrite (IH _ Hlt (String _ s)), (IH _ Hlt (String _ "")), !units_cons. by rewrite <- app_assoc.
Qed.

Lemma pretty_char_unit x : (x < 10)%N → Z.of_N (Ascii.N_of_ascii (pretty_N_char x)) = c_zero + Z.of_N x.
Proof.
  intros Hx. assert (x = 0 ∨ x = 1 ∨ x = 2 ∨ x = 3 ∨ x = 4 ∨ x = 5 ∨ x = 6 ∨ x = 7 ∨ x = 8 ∨ x = 9)%N as Hc by lia.
  destruct_or! Hc; by subst x.
Qed.

(** The last digit is the remainder by ten, the others are those of the
    quotient. *)
Lemma decimal_step z : 0 ≤ z → decimal z = (if z <? 10 then [] else decimal (z / 10)) ++ [c_zero + z mod 10].
Proof.
  intros Hz. assert (∀ n : N, decimal (Z.of_N n) = units (pretty n)) as Hd by (by intros []).
  rewrite <- (Z2N.id z) by done. rewrite <- (N2Z.inj_div _ 10), <- (N2Z.inj_mod _ 10), !Hd by done. set (n := Z.to_N z).
  unfold pretty, pretty_N. case_decide as E0; [rewrite E0; done|].
  rewrite pretty_N_go_step, pretty_go_app by lia. f_equal.
  - destruct (Z.ltb_spec (Z.of_N n) 10).
    + rewrite N.div_small by lia. by rewrite pretty_N_go_0.
    + case_decide as E1; [|done]. apply N.div_small_iff in E1; lia.
  - unfold units. simpl. rewrite pretty_char_unit; [done|]. apply N.mod_lt. lia.
Qed.

Lemma decimal_negative z : z < 0 → decimal z = c_minus :: decimal (- z).
Proof. intros Hz. destruct z as [|p|p]; try lia. done. Qed.

Lemma decimal_length z k : 0 ≤ z < 10 ^ Z.of_nat k → (0 < k)%nat → (0 < length (decimal z) ≤ k)%nat.
Proof.
  revert z. induction k as [|k IH]; intros z Hz Hk; [lia|].
  rewrite decimal_step, length_app by lia. simpl. destruct (Z.ltb_spec z 10); simpl; [lia|].
  rewrite Nat2Z.inj_succ, Z.pow_succ_r in Hz by lia.
  destruct k as [|k]; [simpl in Hz; lia|]. specialize (IH (z / 10)).
  assert (0 ≤ z / 10 < 10 ^ Z.of_nat (S k)) as Hq by (split; [apply Z.div_pos; lia|apply Z.div_lt_upper_bound; lia]).
  specialize (IH Hq ltac:(lia)). lia.
Qed.

(** Decimal digits are read back. *)
Lemma decimal_digits z : 0 ≤ z →
  ∃ ds, decimal z = (λ d, c_zero + d) <$> ds ∧ ds ≠ [] ∧ Forall (λ d, 0 ≤ d < 10) ds ∧ number_after 10 0 ds = z.
Proof.
  intros Hz. revert Hz. induction (Z.lt_wf 0 z) as [z _ IH]; intros Hz. rewrite decimal_step by done.
  pose proof (Z.mod_pos_bound z 10 ltac:(lia)). pose proof (Z.div_mod z 10 ltac:(lia)) as Hdm.
  destruct (Z.ltb_spec z 10).
  - exists [z mod 10]. split_and!; [done|done|by (apply list.Forall_cons; split; [lia|constructor])|]. unfold number_after. simpl. rewrite Z.mod_small; lia.
  - destruct (IH (z / 10)) as (ds & E & Hne & Hf & Hn); [split; [apply Z.div_pos; lia|apply Z.div_lt; lia]|apply Z.div_pos; lia|].
    exists (ds ++ [z mod 10]). split_and!.
    + by rewrite fmap_app, E.
    + by destruct ds.
    + apply list.Forall_app. split; [done|]. by (apply list.Forall_cons; split; [lia|constructor]).
    + unfold number_after in *. rewrite foldl_app, Hn. simpl. lia.
Qed.

Lemma digit_prefix_digits ds : Forall (λ d, 0 ≤ d < 10) ds → digit_prefix 10 ((λ d, c_zero + d) <$> ds) = (ds, []).
Proof.
  induction 1 as [|d ds Hd Hds IH]; [done|]. rewrite fmap_cons. cbn [digit_prefix]. by rewrite CharToDigit_digit, IH.
Qed.

(** Characters that every string type can hold. *)
Definition is_char (CHR : int_type) : Prop := is_std CHR.

Lemma char_convert CHR c : is_char CHR → 0 ≤ c ≤ 127 → convert CHR c = c.
Proof. intros HC Hc. apply std_convert; [done|]. by apply small_values. Qed.

Section PrintSpec.
Context (CHR : int_type) (HC : is_char CHR) `{BuildMode}.

(** Writing [chars] so that they end at index [i]. *)
Definition written (outbuf : list (option Z)) (i : nat) (chars : list Z) : list (option Z) :=
  take (i - length chars) outbuf ++ (Some <$> chars) ++ drop i outbuf.

Lemma written_length outbuf i chars : (length chars ≤ i ≤ length outbuf)%nat → length (written outbuf i chars) = length outbuf.
Proof. intros Hi. unfold written. rewrite !length_app, length_take, length_drop, length_fmap. lia. Qed.

Lemma written_snoc outbuf i chars c : (S (length chars) ≤ S i ≤ length outbuf)%nat →
  written (<[i := Some c]> outbuf) i chars = written outbuf (S i) (chars ++ [c]).
Proof.
  intros Hi. unfold written. rewrite length_app. simpl. replace (S i - (length chars + 1))%nat with (i - length chars)%nat by lia.
  rewrite take_insert_ge by lia. rewrite fmap_app, <- app_assoc. do 2 f_equal.
  rewrite insert_take_drop by lia. rewrite drop_app_ge by (rewrite length_take; lia).
  rewrite length_take. replace (i - i `min` length outbuf)%nat with 0%nat by lia. done.
Qed.

Lemma put_digits_exact outbuf i res : 0 ≤ res → (length (decimal res) ≤ i ≤ length outbuf)%nat →
  put_digits CHR outbuf i res =
    if RTC_DCHECK_IS_ON && Nat.eqb (length (decimal res)) i then Crash DCheckFailed
    else Ret (written outbuf i (decimal res), (i - length (decimal res))%nat).
Proof using HC.
  revert outbuf res. induction i as [|i IH]; intros outbuf res Hres Hi.
  { rewrite decimal_step, length_app in Hi by done. simpl in Hi. lia. }
  cbn [put_digits]. pose proof (decimal_step res Hres) as Hstep. rewrite Hstep, length_app in Hi |- *. simpl length in *.
  rewrite Z.rem_mod_nonneg, Z.quot_div_nonneg by lia. pose proof (Z.mod_pos_bound res 10 ltac:(lia)) as Hm.
  pose proof (Z.div_mod res 10 ltac:(lia)) as Hdm. rewrite (Z.add_comm (res mod 10)), char_convert by (done || unfold c_zero; lia).
  destruct (Z.ltb_spec res 10).
  - assert ((res / 10 =? 0) = true) as -> by (rewrite Z.div_small; lia). cbn [negb]. simpl length in *.
    replace (0 + 1)%nat with 1%nat in * by done. unfold RTC_DCHECK.
    replace (Nat.eqb 1 (S i)) with (Nat.eqb i 0) by (destruct i; done).
    destruct RTC_DCHECK_IS_ON; destruct (Nat.eqb_spec i 0) as [->|Hne]; cbn [negb andb]; rewrite ?bind_ret; try done.
    all: rewrite <- (written_snoc outbuf _ []) by (simpl; lia); unfold written; simpl; repeat f_equal; rewrite ?length_insert; try lia.
    all: by rewrite ?Nat.sub_0_r, take_drop.
  - assert (1 ≤ res / 10) by (apply Z.div_le_lower_bound; lia). assert ((res / 10 =? 0) = false) as -> by lia. cbn [negb].
    assert (i ≠ 0%nat) as Hi0.
    { rewrite (decimal_step (res / 10)), length_app in Hi by lia. simpl in Hi. lia. }
    rewrite dcheck_pass by (apply negb_true_iff, Nat.eqb_neq; lia). rewrite bind_ret, IH by (rewrite ?length_insert; lia).
    replace (Nat.eqb (length (decimal (res / 10)) + 1) (S i)) with (Nat.eqb (length (decimal (res / 10))) i)
      by (rewrite Nat.add_1_r; done).
    destruct (_ && _); [done|]. rewrite written_snoc by lia. do 2 f_equal. lia.
Qed.
End PrintSpec.

Lemma abs_or_die INT v : is_std INT → values INT v →
  ValueOrDie (make_unsigned INT) (make_unsigned INT) (CN_UnsignedAbs INT (CheckedNumericState_make INT INT v true)) = Ret (Z.abs v).
Proof.
  intros HT Hv. pose proof (make_stands_for INT INT v true HT HT Hv) as Hs. rewrite (proj2 (in_range_spec _ _) Hv) in Hs. simpl in Hs.
  pose proof (unsigned_abs_spec INT _ _ HT Hs) as Ha. simpl in Ha. destruct (unsigned_holds_abs INT v HT Hv) as [HU Hvu].
  unfold ValueOrDie. rewrite (stands_for_valid _ _ _ HU Ha). destruct Ha as (_ & -> & ->). by rewrite std_convert.
Qed.

(** How many characters a number takes. *)
Lemma decimal_fits INT v : is_std INT → values INT v →
  (length (decimal v) ≤ kOutputBufSize INT)%nat ∧ (length (decimal v) = kOutputBufSize INT → it_bits INT = 8).
Proof.
  intros HT Hv.
  assert (∀ k, Z.abs v < 10 ^ Z.of_nat k → (0 < k)%nat →
    ((v < 0)%Z → length (decimal v) ≤ S k)%nat ∧ ((0 ≤ v)%Z → length (decimal v) ≤ k)%nat) as Hlen.
  { intros k Hk Hk0. split; intros Hv0.
    - rewrite decimal_negative by lia. pose proof (decimal_length (- v) k ltac:(lia) Hk0). simpl. lia.
    - pose proof (decimal_length v k ltac:(lia) Hk0). lia. }
  unfold values in *. std_cases HT; unfold int_min, int_max in Hv; simpl in Hv |- *; set (size := kOutputBufSize _); vm_compute in size; subst size.
  1,5: specialize (Hlen 3%nat ltac:(simpl; lia) ltac:(lia)); split; lia.
  1,4: specialize (Hlen 5%nat ltac:(simpl; lia) ltac:(lia)); split; lia.
  1,3: specialize (Hlen 10%nat ltac:(simpl; lia) ltac:(lia)); split; lia.
  - specialize (Hlen 19%nat ltac:(simpl; lia) ltac:(lia)); split; lia.
  - specialize (Hlen 20%nat ltac:(simpl; lia) ltac:(lia)); split; lia.
Qed.

Lemma copy_out_written outbuf i chars : (length chars ≤ i)%nat → i = length outbuf →
  copy_out (written outbuf i chars) (i - length chars) = Ret chars.
Proof.
  intros Hi ->. unfold copy_out, written. rewrite drop_all, app_nil_r.
  rewrite drop_app_ge by (rewrite length_take; lia). rewrite length_take.
  replace (length outbuf - length chars - (length outbuf - length chars) `min` length outbuf)%nat with 0%nat by lia.
  rewrite drop_0. replace (mapM id (Some <$> chars)) with (Some chars); [done|]. symmetry. apply mapM_Some.
  induction chars; constructor; auto. apply IHchars. simpl in Hi. lia.
Qed.

Lemma written_cons outbuf i chars c : (S (length chars) ≤ i ≤ length outbuf)%nat →
  <[(i - length chars - 1)%nat := Some c]> (written outbuf i chars) = written outbuf i (c :: chars).
Proof.
  intros Hi. unfold written. rewrite insert_app_l by (rewrite length_take; lia). simpl.
  replace (i - length chars)%nat with (S (i - S (length chars)))%nat by lia.
  replace (S (i - S (length chars)) - 1)%nat with (i - S (length chars))%nat by lia.
  set (k := (i - S (length chars))%nat).
  destruct (list.lookup_lt_is_Some_2 outbuf k) as [x Hx]; [lia|]. rewrite (take_S_r _ _ x Hx).
  rewrite insert_app_r_alt by (rewrite length_take; lia). rewrite length_take.
  replace (k - k `min` length outbuf)%nat with 0%nat by lia. simpl. by rewrite <- app_assoc.
Qed.

Lemma IntToStringT_exact CHR INT `{BuildMode} v : is_char CHR → is_std INT → values INT v →
  IntToStringT CHR INT v =
    if RTC_DCHECK_IS_ON && Nat.eqb (length (decimal v)) (kOutputBufSize INT) then Crash DCheckFailed else Ret (decimal v).
Proof.
  intros HC HT Hv. destruct (decimal_fits INT v HT Hv) as [Hle _].
  unfold IntToStringT. rewrite abs_or_die, bind_ret by done. set (n := kOutputBufSize INT) in *.
  assert (length (replicate n (@None Z)) = n) as Hn by apply length_replicate.
  assert (IsValueNegative INT v = (v <? 0)) as Hneg.
  { unfold IsValueNegative. destruct (it_signed INT) eqn:E; [done|]. unfold values, int_min in Hv. rewrite E in Hv. lia. }
  destruct (Z.ltb_spec v 0) as [Hv0|Hv0].
  - rewrite (decimal_negative v Hv0) in *. simpl length in *. rewrite Z.abs_neq by lia.
    rewrite put_digits_exact by (done || (rewrite ?Hn; lia)).
    rewrite (proj2 (Nat.eqb_neq (length (decimal (- v))) n)) by lia. rewrite andb_false_r, bind_ret.
    unfold put_sign. rewrite Hneg. destruct (n - length (decimal (- v)))%nat as [|j] eqn:Ej; [lia|].
    replace (Nat.eqb (S (length (decimal (- v)))) n) with (Nat.eqb j 0)
      by (apply eq_iff_eq_true; rewrite !Nat.eqb_eq; lia).
    unfold RTC_DCHECK. rewrite negb_involutive. destruct (RTC_DCHECK_IS_ON && (Nat.eqb j 0)); [done|].
    rewrite !bind_ret, char_convert by (done || unfold c_minus; lia).
    replace j with (n - length (decimal (- v)) - 1)%nat at 1 by lia. rewrite written_cons by lia.
    replace j with (n - length (c_minus :: decimal (- v)))%nat by (simpl; lia). apply copy_out_written; simpl; lia.
  - rewrite Z.abs_eq by lia. rewrite put_digits_exact by (done || (rewrite ?Hn; lia)).
    destruct (_ && _); [done|]. rewrite bind_ret. unfold put_sign. rewrite Hneg, bind_ret. by apply copy_out_written.
Qed.


(** A printed number starts with a character that is not white space, and is
    read back. *)
Lemma skip_prefix_decimal s : skip_prefix 10 s = s.
Proof. by destruct s as [|? [|? [|]]]. Qed.

Lemma skip_space_decimal `{Ctype} b v : skip_space b (decimal v) = (b, decimal v).
Proof.
  assert (∀ z, 0 ≤ z → skip_space b (decimal z) = (b, decimal z)) as Hpos.
  { intros z Hz. destruct (decimal_digits z Hz) as (ds & -> & Hne & Hf & _). destruct ds as [|d ds]; [done|].
    apply list.Forall_cons in Hf as [Hd _]. rewrite fmap_cons. cbn [skip_space].
    by rewrite is_space_graph by (unfold c_zero; lia). }
  destruct (Z.ltb_spec v 0) as [Hv|Hv]; [|by apply Hpos]. rewrite decimal_negative by done. cbn [skip_space].
  by rewrite is_space_graph by (unfold c_minus; lia).
Qed.

Lemma skip_space_first `{Ctype} c s : is_space c = true → skip_space false (c :: s) = skip_space true s.
Proof. intros Hc. cbn [skip_space]. by rewrite Hc. Qed.

Lemma parse_digits_decimal T space sign z : is_std T → 0 ≤ z → (sign = Positive ∨ it_signed T = true) →
  values T (sign_factor sign * z) → parse_digits T 10 space sign (decimal z) = mkResult (sign_factor sign * z) (negb space).
Proof.
  intros HT Hz Hsg Hv. unfold parse_digits. rewrite skip_prefix_decimal. destruct (decimal_digits z Hz) as (ds & -> & Hne & Hf & Hn).
  rewrite digit_prefix_digits, Hn, (proj2 (in_range_spec T _) Hv) by done.
  rewrite (bool_decide_true (ds ≠ [])), (bool_decide_true ([] = [])) by done.
  assert (it_signed T || bool_decide (sign = Positive) = true) as ->.
  { destruct Hsg as [->| ->]; [by rewrite bool_decide_true, orb_true_r|done]. }
  rewrite !andb_true_r. f_equal. unfold clamp. unfold values in Hv. lia.
Qed.

Lemma head_decimal z : 0 ≤ z → head (decimal z) ≠ Some c_minus ∧ head (decimal z) ≠ Some c_plus.
Proof.
  intros Hz. destruct (decimal_digits z Hz) as (ds & -> & Hne & Hf & _). destruct ds as [|d ds]; [done|].
  apply list.Forall_cons in Hf as [Hd _]. rewrite fmap_cons. cbn [head]. unfold c_zero, c_minus, c_plus. split; intros [= E]; lia.
Qed.

(** Printed numbers, with what may come before them. *)
Lemma parse_decimal T `{Ctype} v space : is_std T → values T v → is_space space = true →
  parse_spec T 10 (decimal v) = mkResult v true ∧
  (0 ≤ v → parse_spec T 10 (c_plus :: decimal v) = mkResult v true) ∧
  parse_spec T 10 (space :: decimal v) = mkResult v false.
Proof.
  intros HT Hv Hsp.
  assert (∀ b, (if bool_decide (head (decimal v) = Some c_minus) then parse_digits T 10 b Negative (tail (decimal v))
    else if bool_decide (head (decimal v) = Some c_plus) then parse_digits T 10 b Positive (tail (decimal v))
    else parse_digits T 10 b Positive (decimal v)) = mkResult v (negb b)) as Hall.
  { intros b. destruct (Z.ltb_spec v 0) as [Hv0|Hv0].
    - rewrite decimal_negative by done. cbn [head tail]. rewrite bool_decide_true by done.
      rewrite parse_digits_decimal; cbn [sign_factor]; [f_equal; lia|done|lia| |by replace (-1 * - v) with v by lia].
      right. destruct (it_signed T) eqn:E; [done|]. unfold values, int_min in Hv. rewrite E in Hv. lia.
    - destruct (head_decimal v Hv0). rewrite !bool_decide_false by done.
      rewrite parse_digits_decimal; cbn [sign_factor]; [f_equal; lia|done|lia|by left|by rewrite Z.mul_1_l]. }
  unfold parse_spec. split_and!.
  - rewrite skip_space_decimal. by rewrite Hall.
  - intros Hv0. assert (skip_space false (c_plus :: decimal v) = (false, c_plus :: decimal v)) as ->.
    { cbn [skip_space]. by rewrite is_space_graph by (unfold c_plus; lia). }
    cbn [head tail]. rewrite bool_decide_false, bool_decide_true by done.
    rewrite parse_digits_decimal; cbn [sign_factor]; [f_equal; lia|done|lia|by left|by rewrite Z.mul_1_l].
  - rewrite skip_space_first, skip_space_decimal by done. by rewrite Hall.
Qed.

(** ** Bytes *)

Definition hex_char (upper : bool) (d : Z) : Z := if d <? 10 then c_zero + d else (if upper then c_A else c_a) + (d - 10).

(** The two digits of each byte. *)
Definition hex_encode (upper : bool) (bytes : list Z) : list Z := bytes ≫= λ b, [hex_char upper (b / 16); hex_char upper (b mod 16)].

Lemma CharToDigit_hex upper d : 0 ≤ d < 16 → CharToDigit 16 (hex_char upper d) = Some d.
Proof.
  intros Hd. assert (d ∈ seqZ 0 16) as Hin by (apply elem_of_seqZ; lia).
  assert (Forall (λ d, CharToDigit 16 (hex_char upper d) = Some d) (seqZ 0 16)) as Hall by (destruct upper; by apply (bool_decide_unpack _)).
  rewrite list.Forall_forall in Hall. by apply Hall.
Qed.

Lemma byte_of_digits b : 0 ≤ b < 256 → convert uint8_t (Z.lor (Z.shiftl (b / 16) 4) (b mod 16)) = b.
Proof.
  intros Hb. assert (b ∈ seqZ 0 256) as Hin by (apply elem_of_seqZ; lia).
  assert (Forall (λ b, convert uint8_t (Z.lor (Z.shiftl (b / 16) 4) (b mod 16)) = b) (seqZ 0 256)) as Hall
    by (apply (bool_decide_unpack _); by vm_compute).
  rewrite list.Forall_forall in Hall. by apply Hall.
Qed.

Lemma hex_encode_length upper bytes : length (hex_encode upper bytes) = (2 * length bytes)%nat.
Proof.
  induction bytes as [|b bytes IH]; [done|].
  change (hex_encode upper (b :: bytes)) with ([hex_char upper (b / 16); hex_char upper (b mod 16)] ++ hex_encode upper bytes).
  rewrite length_app, IH. simpl. lia.
Qed.

(** The loop over encoded bytes at some place of the input. *)
Lemma hex_loop_encode upper before bytes after i n output : Forall (λ b, 0 ≤ b < 256) bytes → length before = (2 * i)%nat →
  hex_loop (before ++ hex_encode upper bytes ++ after) i (length bytes + n) output =
  hex_loop (before ++ hex_encode upper bytes ++ after) (i + length bytes) n (output ++ bytes).
Proof.
  intros Hb. revert before i output. induction Hb as [|b bytes Hb Hbs IH]; intros before i output Hlen; simpl length.
  { by rewrite Nat.add_0_r, app_nil_r. }
  change (hex_encode upper (b :: bytes)) with ([hex_char upper (b / 16); hex_char upper (b mod 16)] ++ hex_encode upper bytes).
  cbn [Nat.add hex_loop]. unfold string_at.
  assert ((before ++ ([hex_char upper (b / 16); hex_char upper (b mod 16)] ++ hex_encode upper bytes) ++ after) !! (i * 2)%nat =
    Some (hex_char upper (b / 16))) as -> by (apply list_lookup_middle; lia).
  assert ((before ++ ([hex_char upper (b / 16); hex_char upper (b mod 16)] ++ hex_encode upper bytes) ++ after) !! (i * 2 + 1)%nat =
    Some (hex_char upper (b mod 16))) as ->.
  { rewrite list.lookup_app_r by lia. replace (i * 2 + 1 - length before)%nat with 1%nat by lia. done. }
  rewrite !bind_ret.
  assert (0 ≤ b / 16 < 16) by (split; [apply Z.div_pos; lia|apply Z.div_lt_upper_bound; lia]).
  pose proof (Z.mod_pos_bound b 16 ltac:(lia)). rewrite !CharToDigit_hex by done. rewrite byte_of_digits by done.
  specialize (IH (before ++ [hex_char upper (b / 16); hex_char upper (b mod 16)]) (S i) (output ++ [b])).
  rewrite length_app in IH. simpl length in IH. specialize (IH ltac:(lia)). rewrite <- !app_assoc in IH |- *.
  replace (i + S (length bytes))%nat with (S i + length bytes)%nat by lia.
  by rewrite <- (app_assoc output [b] bytes) in IH.
Qed.

(** ** Properties *)

(** [IntToStringT] gives the decimal representation of its argument, for
    every integer type and value, and never writes outside its buffer: the
    buffer of three characters per byte and one for the sign is always large
    enough.  The debug check after each character asks for one character more
    than is needed: it stops the program exactly when the buffer is used up,
    which happens for 8-bit types only (255, -100), and never for the types
    the library offers. *)
Theorem int_to_string_exact (CHR INT : int_type) `{BuildMode} (v : Z) :
  is_char CHR → is_std INT → values INT v →
  IntToStringT CHR INT v =
    (if RTC_DCHECK_IS_ON && Nat.eqb (length (decimal v)) (kOutputBufSize INT) then Crash DCheckFailed else Ret (decimal v)) ∧
  (length (decimal v) ≤ kOutputBufSize INT)%nat ∧
  (length (decimal v) = kOutputBufSize INT → it_bits INT = 8).
Proof.
  intros HC HT Hv. destruct (decimal_fits INT v HT Hv) as [Hle H8]. split_and!; [|done|done]. by apply IntToStringT_exact.
Qed.

(** [StringToNumber] parses exactly: white space, an optional sign, in base
    16 an optional prefix [0x] that something follows, and digits.  The value
    is that of the longest run of digits, saturated at the limits of the type;
    the flag says that the whole input is such a numeral, that it starts with
    no white space, has a digit, is in range, and has no minus sign for an
    unsigned type.  The bounds checks, done with divided limits before each
    digit, never let the arithmetic overflow. *)
Theorem string_to_number_exact (T : int_type) (base : Z) `{Ctype} (input : list Z) :
  is_std T → 2 ≤ base ≤ 36 → StringToNumber T base input = Ret (parse_spec T base input).
Proof. intros HT Hb. by apply StringToNumber_exact. Qed.

(** C34: Printing and parsing round-trip: what [IntToStringT] returns for a
    value of any integer type is parsed back to the value as a perfect
    conversion, also behind a plus sign when the value is not negative; behind
    white space the value is the same but the conversion is not perfect. *)
Theorem number_string_round_trip (CHR T : int_type) `{BuildMode} `{Ctype} (v space : Z) (s : list Z) :
  is_char CHR → is_std T → values T v → IntToStringT CHR T v = Ret s → is_space space = true →
  StringToIntImpl T s = Ret (true, v) ∧
  (0 ≤ v → StringToIntImpl T (c_plus :: s) = Ret (true, v)) ∧
  StringToIntImpl T (space :: s) = Ret (false, v).
Proof.
  intros HC HT Hv Es Hsp. rewrite IntToStringT_exact in Es by done. destruct (_ && _); [done|]. injection Es as <-.
  destruct (parse_decimal T v space HT Hv Hsp) as (E1 & E2 & E3). unfold StringToIntImpl.
  rewrite !StringToNumber_exact by (done || lia). rewrite !bind_ret, E1, E3. split_and!; [done| |done].
  intros Hv0. by rewrite E2.
Qed.

(** [HexStringToByteContainer] decodes what encodes bytes, in upper or lower
    case, back to the bytes; and when after some encoded bytes a pair of
    characters is not hexadecimal, it fails with exactly the bytes before the
    pair in its output.  It never reads outside the input; an empty input or one
    of odd length is refused with no output. *)
Theorem hex_bytes_round_trip (upper : bool) (bytes : list Z) (c1 c2 : Z) (rest : list Z) :
  Forall (λ b, 0 ≤ b < 256) bytes →
  (bytes ≠ [] → HexStringToByteContainer (hex_encode upper bytes) = Ret (bytes, true)) ∧
  (Nat.even (length rest) = true → CharToDigit 16 c1 = None ∨ CharToDigit 16 c2 = None →
   HexStringToByteContainer (hex_encode upper bytes ++ c1 :: c2 :: rest) = Ret (bytes, false)) ∧
  (Nat.even (length rest) = false → HexStringToByteContainer rest = Ret ([], false)).
Proof.
  intros Hb. unfold HexStringToByteContainer. pose proof (hex_encode_length upper bytes) as Hl. split_and!.
  - intros Hne. assert (length bytes ≠ 0%nat) by (by destruct bytes).
    assert (Nat.eqb (length (hex_encode upper bytes)) 0 = false) as -> by (apply Nat.eqb_neq; lia).
    rewrite Hl, (Nat.mul_comm 2), Nat.Div0.mod_mul, Nat.div_mul by lia. cbn [Nat.eqb orb negb].
    pose proof (hex_loop_encode upper [] bytes [] 0 0 [] Hb eq_refl) as E. rewrite app_nil_l, app_nil_r, Nat.add_0_r in E. exact E.
  - intros He Hc. apply Nat.even_spec in He as [k Hk]. set (input := hex_encode upper bytes ++ c1 :: c2 :: rest).
    assert (length input = (length bytes + S k) * 2)%nat as Hli by (unfold input; rewrite length_app, Hl; simpl; lia).
    assert (Nat.eqb (length input) 0 = false) as -> by (apply Nat.eqb_neq; lia).
    rewrite Hli, Nat.Div0.mod_mul, Nat.div_mul by lia. cbn [Nat.eqb orb negb].
    pose proof (hex_loop_encode upper [] bytes (c1 :: c2 :: rest) 0 (S k) [] Hb eq_refl) as E. rewrite !app_nil_l in E. fold input in E.
    rewrite E. cbn [hex_loop]. unfold string_at.
    assert (input !! ((0 + length bytes) * 2)%nat = Some c1) as -> by (apply list_lookup_middle; lia).
    assert (input !! ((0 + length bytes) * 2 + 1)%nat = Some c2) as ->.
    { unfold input. rewrite list.lookup_app_r by lia. by replace ((0 + length bytes) * 2 + 1 - _)%nat with 1%nat by lia. }
    rewrite !bind_ret. by destruct Hc as [-> | ->]; [|destruct (CharToDigit 16 c1)].
  - intros Ho. assert (Nat.eqb (length rest mod 2) 0 = false) as ->; [|by rewrite orb_true_r].
    apply Nat.eqb_neq. intros E. apply Nat.Div0.mod_divides in E as [k E]. rewrite E in Ho.
    rewrite Nat.even_mul in Ho. done.
Qed.

(** ** At concrete inputs *)

(** The white space of the C locale. *)
#[export, program] Instance c_locale : Ctype := {| is_space := λ c, ((9 <=? c) && (c <=? 13)) || (c =? 32) |}.
Next Obligation. intros c Hc. simpl. lia. Qed.

Lemma char_is_char : is_char int8_t.
Proof. unfold is_char, is_std, std_types. simpl. tauto. Qed.

(** -2147483648, and the 8-bit number that the debug check refuses. *)
Lemma int_to_string_exact_witness :
  @IntToStringT int8_t int32_t debug_build (-2147483648) = Ret (units "-2147483648") ∧
  @IntToStringT int8_t uint8_t debug_build 255 = Crash DCheckFailed.
Proof.
  split.
  - exact (proj1 (@int_to_string_exact int8_t int32_t debug_build (-2147483648) char_is_char ltac:(unfold is_std, std_types; simpl; tauto)
      ltac:(unfold values; vm_compute; split; discriminate))).
  - exact (proj1 (@int_to_string_exact int8_t uint8_t debug_build 255 char_is_char ltac:(unfold is_std, std_types; simpl; tauto)
      ltac:(unfold values; vm_compute; split; discriminate))).
Defined.

(** Parsed, saturated, and read up to the first foreign character. *)
Lemma string_to_number_exact_witness :
  StringToNumber int32_t 16 (units "-0x80000000") = Ret (mkResult (-2147483648) true) ∧
  StringToNumber uint8_t 10 (units "+256") = Ret (mkResult 255 false) ∧
  StringToNumber int32_t 10 (units " 42px") = Ret (mkResult 42 false).
Proof.
  split_and!.
  - exact (string_to_number_exact int32_t 16 (units "-0x80000000") ltac:(unfold is_std, std_types; simpl; tauto) ltac:(lia)).
  - exact (string_to_number_exact uint8_t 10 (units "+256") ltac:(unfold is_std, std_types; simpl; tauto) ltac:(lia)).
  - exact (string_to_number_exact int32_t 10 (units " 42px") ltac:(unfold is_std, std_types; simpl; tauto) ltac:(lia)).
Defined.

Lemma number_string_round_trip_witness :
  StringToIntImpl int64_t (units "-9223372036854775808") = Ret (true, - 2 ^ 63).
Proof.
  exact (proj1 (@number_string_round_trip int8_t int64_t debug_build _ (- 2 ^ 63) 32 (units "-9223372036854775808") char_is_char
    ltac:(unfold is_std, std_types; simpl; tauto) ltac:(unfold values; vm_compute; split; discriminate)
    ltac:(vm_compute; reflexivity) eq_refl)).
Defined.

Lemma hex_bytes_round_trip_witness :
  HexStringToByteContainer (units "00Ff7A") = Ret ([0; 255; 122], true) ∧
  HexStringToByteContainer (hex_encode true [0; 255] ++ units "4g00") = Ret ([0; 255], false).
Proof.
  split; [by vm_compute|].
  refine (proj1 (proj2 (hex_bytes_round_trip true [0; 255] 52 103 [48; 48] _)) eq_refl (or_intror eq_refl)).
  repeat (apply list.Forall_cons; split; [lia|]). constructor.
Defined.
