(* ===== verification/IdMap.v ===== *)
(** * Maps from automatically assigned ids

    Model of [src/include/base/containers/id_map.h]: a map from ids to
    pointers from which items can be removed while iterators are open.  The
    removal is then only noted, in a flat set, and done when the last iterator
    is destroyed.  The set is the sorted vector of [FlatTree]; the hash table
    is a list of its nodes in iteration order.  Where a new node goes in that
    order, and whether the table is rehashed, which invalidates the iterators,
    is the hash table's business and a parameter of the model.  A null pointer
    is [None]. *)

From stdpp Require Import gmap.
From S2P Require Import Prelude BaseNumerics FlatTree.

(** [std::unordered_map] as far as its order is concerned. *)
Class HashTable (Value : Type) := {
  place : list (Z * Value) → Z * Value → list (Z * Value);
  rehashes : list (Z * Value) → bool;
  place_perm : ∀ l e, place l e ≡ₚ e :: l
}.

Section IdMap.
Context {Data : Type} (K size_t : int_type) `{BuildMode} `{!HashTable (option Data)}.

#[local] Abbreviation V := (option Data).
#[local] Abbreviation table := (list (Z * V)).

Record IDMap := mkIDMap {
  iteration_depth_ : Z;
  removed_ids_ : list Z;
  next_id_ : Z;
  data_ : table;
  check_on_null_data_ : bool
}.

Definition IDMap_init : IDMap := mkIDMap 0 [] 1 [] false.

Definition set_depth (m : IDMap) (d : Z) : IDMap := mkIDMap d (removed_ids_ m) (next_id_ m) (data_ m) (check_on_null_data_ m).
Definition set_removed (m : IDMap) (r : list Z) : IDMap := mkIDMap (iteration_depth_ m) r (next_id_ m) (data_ m) (check_on_null_data_ m).
Definition set_data (m : IDMap) (t : table) : IDMap := mkIDMap (iteration_depth_ m) (removed_ids_ m) (next_id_ m) t (check_on_null_data_ m).
Definition set_next (m : IDMap) (n : Z) : IDMap := mkIDMap (iteration_depth_ m) (removed_ids_ m) n (data_ m) (check_on_null_data_ m).
Definition set_check_on_null_data (m : IDMap) (value : bool) : IDMap :=
  mkIDMap (iteration_depth_ m) (removed_ids_ m) (next_id_ m) (data_ m) value.

(** ** The hash table *)

Definition table_find (t : table) (id : Z) : option V := snd <$> List.find (λ e, e.1 =? id) t.
Definition table_erase (t : table) (id : Z) : table := List.filter (λ e, negb (e.1 =? id)) t.
Definition table_assign (t : table) (id : Z) (v : V) : table := (λ e, if e.1 =? id then (id, v) else e) <$> t.

(** [data_[id] = v], and whether the iterators survive. *)
Definition table_set (t : table) (id : Z) (v : V) : table * bool :=
  match table_find t id with
  | Some _ => (table_assign t id v, true)
  | None => (place t (id, v), negb (rehashes t))
  end.

(** ** The set of removed ids *)

Definition IsRemoved (m : IDMap) (key : Z) : outcome bool :=
  it ← FlatTree.find (λ z, z) Z.ltb (removed_ids_ m) key;
  Ret (negb (Nat.eqb it (length (removed_ids_ m)))).

(** ** Operations *)

Definition null_check (m : IDMap) (v : V) : outcome unit :=
  RTC_DCHECK (negb (check_on_null_data_ m) || bool_decide (is_Some v)).

Definition is_end (m : IDMap) (id : Z) : bool := match table_find (data_ m) id with Some _ => false | None => true end.

(** The id, the map, and whether the iterators survive. *)
Definition AddInternal (m : IDMap) (v : V) : outcome (Z * IDMap * bool) :=
  _ ← null_check m v;
  let this_id := next_id_ m in
  _ ← RTC_DCHECK (is_end m this_id);
  let '(t, stable) := table_set (data_ m) this_id v in
  next ← arith (promote K) (next_id_ m + 1);
  Ret (this_id, set_next (set_data m t) (convert K next), stable).

Definition AddWithIDInternal (m : IDMap) (v : V) (id : Z) : outcome (IDMap * bool) :=
  _ ← null_check m v;
  removed ← IsRemoved m id;
  m ← (if removed : bool
       then '(r, _) ← FlatTree.erase_key (λ z, z) Z.ltb (removed_ids_ m) id; Ret (set_removed m r)
       else _ ← RTC_DCHECK (is_end m id); Ret m);
  let '(t, stable) := table_set (data_ m) id v in Ret (set_data m t, stable).

(** [NOTREACHED()] is a failing debug check. *)
Definition Remove (m : IDMap) (id : Z) : outcome IDMap :=
  removed ← (if is_end m id then Ret true else IsRemoved m id);
  if removed : bool then _ ← RTC_DCHECK false; Ret m
  else if iteration_depth_ m =? 0 then Ret (set_data m (table_erase (data_ m) id))
  else '(r, _) ← FlatTree.insert (λ z, z) Z.ltb (removed_ids_ m) id; Ret (set_removed m r).

(** What is returned, and the map. *)
Definition Replace (m : IDMap) (id : Z) (new_data : V) : outcome (V * IDMap) :=
  _ ← null_check m new_data;
  _ ← RTC_DCHECK (negb (is_end m id));
  _ ← (if RTC_DCHECK_IS_ON then removed ← IsRemoved m id; RTC_DCHECK (negb removed) else Ret tt);
  match table_find (data_ m) id with
  | Some old => Ret (old, set_data m (table_assign (data_ m) id new_data))
  | None => Crash OutOfBounds
  end.

Definition Clear (m : IDMap) : outcome IDMap :=
  if iteration_depth_ m =? 0 then Ret (set_data m [])
  else r ← FlatTree.insert_range (λ z, z) Z.ltb true (removed_ids_ m) ((data_ m).*1); Ret (set_removed m r).

(** The pointer, null when there is none. *)
Definition Lookup (m : IDMap) (id : Z) : outcome (option Data) :=
  match table_find (data_ m) id with
  | None | Some None => Ret None
  | Some (Some d) => removed ← IsRemoved m id; Ret (if removed : bool then None else Some d)
  end.

Definition IDMap_size (m : IDMap) : Z :=
  convert size_t (Z.of_nat (length (data_ m)) - Z.of_nat (length (removed_ids_ m))).

Definition IsEmpty (m : IDMap) : bool := IDMap_size m =? 0.

Definition Compact (m : IDMap) : outcome IDMap :=
  _ ← RTC_DCHECK (0 =? iteration_depth_ m);
  Ret (set_removed (set_data m (foldl table_erase (data_ m) (removed_ids_ m))) []).

(** ** Iterators *)

(** The node an iterator is at; [Dangling] after a rehash. *)
Inductive position := At (id : Z) | End | Dangling.

(** The nodes from an id on. *)
Fixpoint nodes_from (t : table) (id : Z) : table :=
  match t with
  | [] => []
  | e :: rest => if e.1 =? id then t else nodes_from rest id
  end.

(** The first of some nodes that is not removed. *)
Fixpoint SkipRemovedEntries (m : IDMap) (nodes : table) : outcome position :=
  match nodes with
  | [] => Ret End
  | e :: rest => removed ← IsRemoved m e.1; if removed : bool then SkipRemovedEntries m rest else Ret (At e.1)
  end.

Definition Iterator_Init (m : IDMap) (nodes : table) : outcome (IDMap * position) :=
  let m := set_depth m (iteration_depth_ m + 1) in
  p ← SkipRemovedEntries m nodes; Ret (m, p).

Definition Iterator_make (m : IDMap) : outcome (IDMap * position) := Iterator_Init m (data_ m).

(** The nodes an iterator has before it, its own first. *)
Definition nodes_at (m : IDMap) (p : position) : outcome table :=
  match p with
  | At id => match nodes_from (data_ m) id with [] => Crash OutOfBounds | nodes => Ret nodes end
  | End => Ret []
  | Dangling => Crash OutOfBounds
  end.

Definition Iterator_copy (m : IDMap) (p : position) : outcome (IDMap * position) :=
  nodes ← nodes_at m p; Iterator_Init m nodes.

Definition Iterator_destroy (m : IDMap) : outcome IDMap :=
  _ ← RTC_DCHECK (0 <? iteration_depth_ m);
  let m := set_depth m (iteration_depth_ m - 1) in
  if iteration_depth_ m =? 0 then Compact m else Ret m.

Definition IsAtEnd (m : IDMap) (p : position) : outcome bool :=
  nodes ← nodes_at m p; Ret (match nodes with [] => true | _ => false end).

Definition GetCurrentKey (m : IDMap) (p : position) : outcome Z :=
  nodes ← nodes_at m p; match nodes with e :: _ => Ret e.1 | [] => Crash OutOfBounds end.

Definition GetCurrentValue (m : IDMap) (p : position) : outcome (option Data) :=
  nodes ← nodes_at m p;
  match nodes with
  | (_, None) :: _ => Ret None
  | (id, Some d) :: _ => removed ← IsRemoved m id; Ret (if removed : bool then None else Some d)
  | [] => Crash OutOfBounds
  end.

Definition Advance (m : IDMap) (p : position) : outcome position :=
  nodes ← nodes_at m p;
  match nodes with _ :: rest => SkipRemovedEntries m rest | [] => Crash OutOfBounds end.

End IdMap.

(** ** Flat sets of numbers *)

Section Sets.
#[local] Abbreviation zset := (sorted_unique (λ z : Z, z) Z.ltb).
#[local] Abbreviation zlookup := (lookup_key (λ z : Z, z) Z.ltb).

Lemma keqb_Z a b : keqb Z.ltb a b = (a =? b).
Proof. unfold keqb. lia. Qed.

Lemma zlookup_elem k s : zlookup k s = Some k ↔ k ∈ s.
Proof.
  split; [intros E; by apply (lookup_elem (λ z : Z, z) Z.ltb) in E as [? _]|].
  intros Hin. unfold lookup_key. induction Hin as [k l|k k' l Hin IH]; simpl; rewrite keqb_Z; [by rewrite Z.eqb_refl|].
  destruct (Z.eqb_spec k k') as [->|]; done.
Qed.

Lemma zlookup_some k z s : zlookup k s = Some z → z = k.
Proof.
  intros E. apply (lookup_elem (λ z : Z, z) Z.ltb) in E as [_ Hk]. apply (keqb_spec Z.ltb) in Hk. rewrite keqb_Z in Hk. lia.
Qed.

Lemma zlookup_none k s : zlookup k s = None ↔ k ∉ s.
Proof.
  rewrite <- zlookup_elem. destruct (zlookup k s) as [z|] eqn:E; [|done]. apply zlookup_some in E as ->. split; [done|by intros []].
Qed.

Lemma zset_find s k : zset s → ∃ it, FlatTree.find (λ z, z) Z.ltb s k = Ret it ∧ negb (Nat.eqb it (length s)) = bool_decide (k ∈ s).
Proof.
  intros Hs. destruct (find_spec (λ z : Z, z) Z.ltb k s Hs) as (it & E & Hit & Hend). exists it. split; [done|].
  destruct (zlookup k s) as [z|] eqn:El.
  - assert (it < length s)%nat by (by apply list.lookup_lt_Some in Hit). pose proof (zlookup_some _ _ _ El) as ->.
    apply zlookup_elem in El. rewrite bool_decide_true by done. apply negb_true_iff, Nat.eqb_neq. lia.
  - rewrite Hend by done. apply zlookup_none in El. by rewrite bool_decide_false, Nat.eqb_refl.
Qed.

Lemma zset_insert s k : zset s → ∃ s' r, FlatTree.insert (λ z, z) Z.ltb s k = Ret (s', r) ∧ zset s' ∧ ∀ x, x ∈ s' ↔ x ∈ s ∨ x = k.
Proof.
  intros Hs. destruct (emplace_key_args_spec (λ z : Z, z) Z.ltb s k k Hs ltac:(reflexivity)) as ([s' [it ins]] & E & Hs' & _ & _ & _ & Hl).
  exists s', (it, ins). split_and!; [done|done|]. intros x. rewrite <- !zlookup_elem, Hl, zlookup_elem, list.elem_of_app, list.list_elem_of_singleton.
  by rewrite zlookup_elem.
Qed.

Lemma zset_insert_range s ks : zset s → ∃ s', FlatTree.insert_range (λ z, z) Z.ltb true s ks = Ret s' ∧ zset s' ∧ ∀ x, x ∈ s' ↔ x ∈ s ∨ x ∈ ks.
Proof.
  intros Hs. destruct (insert_range_spec (λ z : Z, z) Z.ltb true s ks Hs) as (s' & E & Hs' & Hl). exists s'. split_and!; [done|done|].
  intros x. by rewrite <- (zlookup_elem x s'), Hl, zlookup_elem, list.elem_of_app.
Qed.

Lemma zset_erase s k : zset s → ∃ s' n, FlatTree.erase_key (λ z, z) Z.ltb s k = Ret (s', n) ∧ zset s' ∧ ∀ x, x ∈ s' ↔ x ∈ s ∧ x ≠ k.
Proof.
  intros Hs. destruct (erase_key_spec (λ z : Z, z) Z.ltb s k Hs) as (s' & E & Hs' & Hl). eexists s', _. split_and!; [done|done|].
  intros x. rewrite <- (zlookup_elem x s'), Hl, <- zlookup_elem. destruct (zlookup x s) as [z|] eqn:Ez; simpl; [|naive_solver].
  apply zlookup_some in Ez as ->. rewrite keqb_Z. destruct (Z.eqb_spec k x); naive_solver.
Qed.

Lemma zset_nodup s : zset s → NoDup s.
Proof.
  induction 1 as [|v s Hs IH Hv]; constructor; [|done]. intros Hin. rewrite list.Forall_forall in Hv. specialize (Hv v Hin).
  unfold value_comp in Hv. lia.
Qed.
End Sets.

(** ** The table as a map *)

Section Spec.
Context {Data : Type} (K size_t : int_type) `{BuildMode} `{!HashTable (option Data)}.

#[local] Abbreviation V := (option Data).
#[local] Abbreviation table := (list (Z * V)).
#[local] Abbreviation zset := (sorted_unique (λ z : Z, z) Z.ltb).
#[local] Abbreviation to_map := (list_to_map (M := gmap Z V)).

Lemma table_find_lookup (t : table) id : NoDup t.*1 → table_find t id = to_map t !! id.
Proof.
  unfold table_find. induction t as [|[k v] t IH]; [done|]. rewrite fmap_cons, list.NoDup_cons. intros [_ Hnd]. simpl.
  destruct (Z.eqb_spec k id) as [->|Hne]; [by rewrite lookup_insert_eq|]. rewrite lookup_insert_ne by done. by apply IH.
Qed.

Lemma table_find_keys (t : table) id : is_Some (table_find t id) ↔ id ∈ t.*1.
Proof.
  unfold table_find. induction t as [|[k v] t IH]; simpl; [split; [by intros []|by intros Hin; apply list.not_elem_of_nil in Hin]|].
  rewrite list.elem_of_cons. destruct (Z.eqb_spec k id) as [->|Hne]; [split; [by left|done]|]. rewrite IH. naive_solver.
Qed.

Lemma elem_of_lfilter {A} (p : A → bool) l x : x ∈ List.filter p l ↔ x ∈ l ∧ p x = true.
Proof. by rewrite !list_elem_of_In, List.filter_In. Qed.

Lemma assign_keys (t : table) id v : (table_assign t id v).*1 = t.*1.
Proof.
  unfold table_assign. rewrite <- list_fmap_compose. apply list_fmap_ext. intros i [k w] _. simpl.
  destruct (Z.eqb_spec k id); simpl; by subst.
Qed.

(** Nodes that are not in a set. *)
Definition except (removed : list Z) (t : table) : table := List.filter (λ e, negb (bool_decide (e.1 ∈ removed))) t.

Lemma except_keys removed t id : id ∈ (except removed t).*1 ↔ id ∈ t.*1 ∧ id ∉ removed.
Proof.
  rewrite !list_elem_of_fmap. unfold except. setoid_rewrite elem_of_lfilter. setoid_rewrite negb_true_iff.
  setoid_rewrite bool_decide_eq_false. naive_solver.
Qed.

Lemma except_nodup removed t : NoDup t.*1 → NoDup (except removed t).*1.
Proof.
  induction t as [|[k v] t IH]; [done|]. rewrite fmap_cons, list.NoDup_cons. intros [Hk Hnd]. simpl. unfold except in *. simpl.
  destruct (bool_decide (k ∈ removed)); simpl; [by apply IH|]. rewrite list.NoDup_cons. split; [|by apply IH].
  simpl in Hk. intros Hin. apply (except_keys removed) in Hin as [? _]. done.
Qed.

Lemma to_map_except removed t id : NoDup t.*1 →
  to_map (except removed t) !! id = if bool_decide (id ∈ removed) then None else to_map t !! id.
Proof.
  induction t as [|[k v] t IH]; [by case_match|]. rewrite fmap_cons, list.NoDup_cons. intros [Hk Hnd]. specialize (IH Hnd).
  simpl in Hk. unfold except in *. simpl. destruct (bool_decide_reflect (k ∈ removed)) as [Hin|Hout]; simpl.
  - rewrite IH. destruct (bool_decide_reflect (id ∈ removed)); [done|]. rewrite lookup_insert_ne by naive_solver. done.
  - destruct (decide (k = id)) as [->|Hne]; [rewrite !lookup_insert_eq; by rewrite bool_decide_false|].
    rewrite !lookup_insert_ne by done. done.
Qed.

Lemma erase_except t id : table_erase t id = except [id] t.
Proof.
  unfold table_erase, except. apply List.filter_ext. intros e. f_equal. destruct (Z.eqb_spec e.1 id) as [->|Hne].
  - by rewrite bool_decide_true by (by left).
  - rewrite bool_decide_false; [done|]. by rewrite list.list_elem_of_singleton.
Qed.

Lemma to_map_erase t id : NoDup t.*1 → to_map (table_erase t id) = delete id (to_map t).
Proof.
  intros Hnd. apply map_eq. intros k. rewrite erase_except, to_map_except by done. destruct (decide (k = id)) as [->|Hne].
  - rewrite bool_decide_true by (by left). by rewrite lookup_delete_eq.
  - rewrite bool_decide_false by (by rewrite list.list_elem_of_singleton). by rewrite lookup_delete_ne.
Qed.

Lemma to_map_set t id v : NoDup t.*1 →
  NoDup (table_set t id v).1.*1 ∧ (∀ k, k ∈ (table_set t id v).1.*1 ↔ k ∈ t.*1 ∨ k = id) ∧
  to_map (table_set t id v).1 = <[id := v]> (to_map t).
Proof.
  intros Hnd. unfold table_set. pose proof (table_find_keys t id) as Hk. destruct (table_find t id) as [w|] eqn:E; simpl.
  - assert (id ∈ t.*1) as Hin by (apply Hk; eauto). rewrite assign_keys. split_and!; [done|intros k; split; [auto|by intros [?| ->]]|].
    clear E Hk. induction t as [|[k u] t IH]; [by apply list.not_elem_of_nil in Hin|]. rewrite fmap_cons, list.NoDup_cons in Hnd.
    destruct Hnd as [Hku Hnd]. simpl in *. destruct (Z.eqb_spec k id) as [->|Hne].
    + rewrite insert_insert_eq. f_equal. f_equal. unfold table_assign. rewrite <- (list_fmap_id t) at 2. apply list_fmap_ext.
      intros i [k' u'] Hi. simpl. destruct (Z.eqb_spec k' id) as [->|]; [|done]. exfalso. apply Hku.
      apply list_elem_of_lookup_2 in Hi. apply list_elem_of_fmap. by exists (id, u').
    + apply list.elem_of_cons in Hin as [->|Hin]; [done|]. rewrite insert_insert_ne by done. f_equal. by apply IH.
  - assert (id ∉ t.*1) as Hout by (intros Hin; apply Hk in Hin as [? ?]; congruence).
    pose proof (place_perm t (id, v)) as Hp.
    assert ((place t (id, v)).*1 ≡ₚ id :: t.*1) as Hpk by (by rewrite Hp).
    assert (NoDup (place t (id, v)).*1) as Hnd' by (rewrite Hpk; by constructor). split_and!; [done| |].
    + intros k. rewrite Hpk, list.elem_of_cons. tauto.
    + change (<[id:=v]> (to_map t)) with (to_map ((id, v) :: t)). by apply list_to_map_proper.
Qed.

Lemma foldl_erase t ids : foldl table_erase t ids = except ids t.
Proof.
  revert t. induction ids as [|id ids IH]; intros t; simpl.
  - unfold except. symmetry. induction t as [|e t IH]; [done|]. cbn [List.filter].
    rewrite bool_decide_false by apply list.not_elem_of_nil. cbn [negb]. f_equal. exact IH.
  - rewrite IH. unfold except, table_erase. induction t as [|e t IHt]; [done|]. simpl. destruct (Z.eqb_spec e.1 id) as [->|Hne]; simpl.
    + rewrite bool_decide_true by (by left). done.
    + rewrite IHt. replace (bool_decide (e.1 ∈ id :: ids)) with (bool_decide (e.1 ∈ ids)); [done|].
      apply bool_decide_ext. rewrite list.elem_of_cons. naive_solver.
Qed.

(** ** The map and its iterators *)

(** A client: the map and the iterators it has open. *)
Record world := mkWorld { wmap : IDMap (Data := Data); iters : list (option position) }.

Inductive map_call :=
| WAdd (v : V) | WAddWithID (v : V) (id : Z) | WRemove (id : Z) | WReplace (id : Z) (v : V) | WClear
| WSetCheck (b : bool)
| WOpen                       (* a new iterator *)
| WCopy (i : nat)             (* a copy of an iterator *)
| WAdvance (i : nat)          (* advance it unless it is at the end *)
| WClose (i : nat).           (* its destructor *)

(** A rehash of the table leaves every iterator dangling. *)
Definition after_insert (stable : bool) (its : list (option position)) : list (option position) :=
  if stable then its else (λ it, match it with Some _ => Some Dangling | None => None end) <$> its.

Definition apply_call (w : world) (c : map_call) : outcome world :=
  let '(mkWorld m its) := w in
  match c with
  | WAdd v => '(_, m, stable) ← AddInternal K m v; Ret (mkWorld m (after_insert stable its))
  | WAddWithID v id => '(m, stable) ← AddWithIDInternal m v id; Ret (mkWorld m (after_insert stable its))
  | WRemove id => m ← Remove m id; Ret (mkWorld m its)
  | WReplace id v => '(_, m) ← Replace m id v; Ret (mkWorld m its)
  | WClear => m ← Clear m; Ret (mkWorld m its)
  | WSetCheck b => Ret (mkWorld (set_check_on_null_data m b) its)
  | WOpen => '(m, p) ← Iterator_make m; Ret (mkWorld m (its ++ [Some p]))
  | WCopy i =>
      match its !! i with
      | Some (Some p) => '(m, q) ← Iterator_copy m p; Ret (mkWorld m (its ++ [Some q]))
      | _ => Ret w
      end
  | WAdvance i =>
      match its !! i with
      | Some (Some p) =>
          e ← IsAtEnd m p;
          if e : bool then Ret w else q ← Advance m p; Ret (mkWorld m (<[i := Some q]> its))
      | _ => Ret w
      end
  | WClose i =>
      match its !! i with
      | Some (Some p) => m ← Iterator_destroy m; Ret (mkWorld m (<[i := None]> its))
      | _ => Ret w
      end
  end.

(** What the map holds. *)
Definition live (m : IDMap) : gmap Z V := to_map (except (removed_ids_ m) (data_ m)).

Definition open_iters (its : list (option position)) : nat := length (List.filter (λ it, bool_decide (is_Some it)) its).

Definition map_inv (m : IDMap (Data := Data)) : Prop :=
  zset (removed_ids_ m) ∧ NoDup (data_ m).*1 ∧ (∀ id, id ∈ removed_ids_ m → id ∈ (data_ m).*1) ∧
  (iteration_depth_ m = 0 → removed_ids_ m = []).

(** Every open iterator is counted, and is at a node that exists. *)
Definition world_inv (w : world) : Prop :=
  map_inv (wmap w) ∧ iteration_depth_ (wmap w) = Z.of_nat (open_iters (iters w)) ∧
  ∀ i id, iters w !! i = Some (Some (At id)) → id ∈ (data_ (wmap w)).*1.

(** What a caller must see to. *)
Definition legal (w : world) (c : map_call) : Prop :=
  let m := wmap w in
  let nullable (v : V) := check_on_null_data_ m = true → is_Some v in
  let steady (i : nat) := ¬ (iters w !! i = Some (Some Dangling)) in
  match c with
  | WAdd v => nullable v ∧ ¬ (next_id_ m ∈ (data_ m).*1) ∧ values K (next_id_ m + 1)
  | WAddWithID v id => nullable v ∧ live m !! id = None
  | WRemove id => is_Some (live m !! id)
  | WReplace id v => nullable v ∧ is_Some (live m !! id)
  | WCopy i | WAdvance i => steady i
  | WClear | WSetCheck _ | WOpen | WClose _ => True
  end.

(** What the calls do to the contents, whatever the iterators. *)
Definition map_effect (w : world) (c : map_call) : gmap Z V :=
  let l := live (wmap w) in
  match c with
  | WAdd v => <[next_id_ (wmap w) := v]> l
  | WAddWithID v id | WReplace id v => <[id := v]> l
  | WRemove id => delete id l
  | WClear => ∅
  | WSetCheck _ | WOpen | WCopy _ | WAdvance _ | WClose _ => l
  end.

Definition world_init : world := mkWorld IDMap_init [].

Inductive reachable : world → Prop :=
| reach_init : reachable world_init
| reach_call w c w' : reachable w → legal w c → apply_call w c = Ret w' → reachable w'.
(** ** Every call keeps the invariant *)

Lemma IsRemoved_exact m k : zset (removed_ids_ m) → IsRemoved (Data := Data) m k = Ret (bool_decide (k ∈ removed_ids_ m)).
Proof. intros Hs. unfold IsRemoved. destruct (zset_find _ k Hs) as (it & -> & E). by rewrite bind_ret, E. Qed.

Lemma live_lookup m id : map_inv m → live m !! id = if bool_decide (id ∈ removed_ids_ m) then None else table_find (data_ m) id.
Proof. intros (_ & Hnd & _). unfold live. by rewrite to_map_except, table_find_lookup. Qed.

Lemma live_some m id : map_inv m → is_Some (live m !! id) ↔ id ∈ (data_ m).*1 ∧ id ∉ removed_ids_ m.
Proof.
  intros Hm. rewrite live_lookup, <- table_find_keys by done. destruct (bool_decide_reflect (id ∈ removed_ids_ m)) as [Hin|Hout].
  - split; [by intros []|by intros [_ ?]].
  - tauto.
Qed.

Lemma is_end_keys (m : IDMap (Data := Data)) id : is_end m id = bool_decide (id ∉ (data_ m).*1).
Proof.
  unfold is_end. pose proof (table_find_keys (data_ m) id) as Hk. destruct (table_find (data_ m) id) as [v|] eqn:E.
  - rewrite bool_decide_false; [done|]. intros Hn. apply Hn, Hk. eauto.
  - rewrite bool_decide_true; [done|]. intros Hin. apply Hk in Hin as [? ?]. done.
Qed.

Lemma null_check_pass (m : IDMap (Data := Data)) (v : V) : (check_on_null_data_ m = true → is_Some v) → null_check m v = Ret tt.
Proof.
  intros Hn. unfold null_check. apply dcheck_pass. destruct (check_on_null_data_ m); [|done]. simpl. by apply bool_decide_true, Hn.
Qed.

(** Storing an item under an id, which is not removed any more. *)
Lemma live_set m r' id v : map_inv m → (∀ x, x ∈ r' ↔ x ∈ removed_ids_ m ∧ x ≠ id) →
  to_map (except r' (table_set (data_ m) id v).1) = <[id := v]> (live m).
Proof.
  intros (_ & Hnd & _) Hr. destruct (to_map_set (data_ m) id v Hnd) as (Hnd' & _ & E). apply map_eq. intros k.
  rewrite to_map_except, E by done. destruct (decide (k = id)) as [->|Hne].
  - rewrite bool_decide_false by (rewrite Hr; tauto). by rewrite !lookup_insert_eq.
  - rewrite !lookup_insert_ne by done. unfold live. rewrite to_map_except by done.
    replace (bool_decide (k ∈ r')) with (bool_decide (k ∈ removed_ids_ m)); [done|]. apply bool_decide_ext. rewrite Hr. tauto.
Qed.

Lemma open_app its it : open_iters (its ++ [it]) = (open_iters its + if bool_decide (is_Some it) then 1 else 0)%nat.
Proof. unfold open_iters. rewrite List.filter_app, length_app. simpl. by destruct (bool_decide _). Qed.

Lemma open_set its i old new : its !! i = Some old →
  (open_iters (<[i := new]> its) + (if bool_decide (is_Some old) then 1 else 0))%nat =
  (open_iters its + (if bool_decide (is_Some new) then 1 else 0))%nat.
Proof.
  intros Hi. assert (i < length its)%nat by (by apply list.lookup_lt_Some in Hi). rewrite insert_take_drop by done.
  rewrite <- (take_drop_middle its i old Hi) at 3. unfold open_iters. rewrite !List.filter_app, !length_app. simpl.
  destruct (bool_decide (is_Some old)), (bool_decide (is_Some new)); simpl; lia.
Qed.

Lemma open_zero its i p : open_iters its = 0%nat → its !! i = Some (Some p) → False.
Proof.
  intros H0 Hi. pose proof (open_set its i (Some p) (Some p) Hi) as E. pose proof (open_set its i (Some p) None Hi) as E'.
  rewrite H0 in E'. simpl in E'. lia.
Qed.

Lemma after_insert_open stable its : open_iters (after_insert stable its) = open_iters its.
Proof.
  destruct stable; [done|]. unfold open_iters, after_insert. induction its as [|[p|] its IH]; simpl; [done|f_equal; exact IH|exact IH].
Qed.

Lemma after_insert_at stable its i id : after_insert stable its !! i = Some (Some (At id)) → its !! i = Some (Some (At id)).
Proof.
  destruct stable; [done|]. unfold after_insert. rewrite list_lookup_fmap. destruct (its !! i) as [[p|]|]; done.
Qed.

(** The next node that is not removed. *)
Definition first_live (m : IDMap (Data := Data)) (nodes : table) : position :=
  match except (removed_ids_ m) nodes with [] => End | e :: _ => At e.1 end.

Lemma skip_exact (m : IDMap (Data := Data)) nodes : zset (removed_ids_ m) → SkipRemovedEntries m nodes = Ret (first_live m nodes).
Proof.
  intros Hs. unfold first_live, except. induction nodes as [|e nodes IH]; [done|]. cbn [SkipRemovedEntries List.filter].
  rewrite IsRemoved_exact, bind_ret by done. by destruct (bool_decide (e.1 ∈ removed_ids_ m)).
Qed.

Lemma first_live_keys (m : IDMap (Data := Data)) nodes id : first_live m nodes = At id → id ∈ nodes.*1 ∧ id ∉ removed_ids_ m.
Proof.
  unfold first_live. destruct (except (removed_ids_ m) nodes) as [|e l] eqn:E; [done|]. intros [= <-]. apply except_keys. rewrite E.
  simpl. by left.
Qed.

Lemma nodes_from_split (t : table) id : id ∈ t.*1 → ∃ pre v rest, t = pre ++ (id, v) :: rest ∧ ¬ (id ∈ pre.*1) ∧ nodes_from t id = (id, v) :: rest.
Proof.
  induction t as [|[k v] t IH]; [by intros Hin; apply list.not_elem_of_nil in Hin|]. simpl. rewrite list.elem_of_cons.
  destruct (Z.eqb_spec k id) as [->|Hne].
  - intros _. exists [], v, t. split_and!; [done|apply list.not_elem_of_nil|done].
  - intros [->|Hin]; [done|]. destruct (IH Hin) as (pre & w & rest & -> & Hpre & E). exists ((k, v) :: pre), w, rest.
    split_and!; [done| |done]. simpl. rewrite list.elem_of_cons. intros [?|?]; [congruence|done].
Qed.

Lemma nodes_at_open w i p : world_inv w → iters w !! i = Some (Some p) → p ≠ Dangling →
  ∃ nodes, nodes_at (wmap w) p = Ret nodes ∧ (∀ id, id ∈ nodes.*1 → id ∈ (data_ (wmap w)).*1) ∧
    match p with At id => head nodes.*1 = Some id | _ => nodes = [] end.
Proof.
  intros (_ & _ & Hat) Hi Hd. destruct p as [id| |]; [|by exists []; split_and!; [|intros id Hin; by apply list.not_elem_of_nil in Hin|]|done].
  specialize (Hat i id Hi). destruct (nodes_from_split _ _ Hat) as (pre & v & rest & Et & _ & E). exists ((id, v) :: rest).
  unfold nodes_at. rewrite E. split_and!; [done| |done]. intros k Hk. rewrite Et, fmap_app, list.elem_of_app. by right.
Qed.

(** What a call must do: return, keep the invariant, have its effect. *)
Definition steps_to (w : world) (c : map_call) : Prop :=
  ∃ w', apply_call w c = Ret w' ∧ world_inv w' ∧ live (wmap w') = map_effect w c.

(** A map whose table got an item, with iterators that may dangle. *)
Lemma insert_step m its r' id v n stable : is_std K → world_inv (mkWorld m its) → zset r' →
  (∀ x, x ∈ r' ↔ x ∈ removed_ids_ m ∧ x ≠ id) →
  let m' := mkIDMap (iteration_depth_ m) r' n (table_set (data_ m) id v).1 (check_on_null_data_ m) in
  world_inv (mkWorld m' (after_insert stable its)) ∧ live m' = <[id := v]> (live m).
Proof.
  intros HK (Hm & Hd & Hat) Hr Hr' m'. split; [|by apply live_set]. pose proof Hm as (Hs & Hnd & Hsub & H0). simpl in *.
  destruct (to_map_set (data_ m) id v Hnd) as (Hnd' & Hk & _). split_and!; simpl.
  - split_and!; simpl; [done|done| |].
    + intros x Hx. apply Hr' in Hx as [Hx _]. apply Hk. left. by apply Hsub.
    + intros Hz. specialize (H0 Hz). destruct r' as [|x r']; [done|]. exfalso.
      assert (x ∈ removed_ids_ m) as Hx by (apply Hr'; by left). rewrite H0 in Hx. by apply list.not_elem_of_nil in Hx.
  - by rewrite after_insert_open.
  - intros i k Hi. apply after_insert_at in Hi. apply Hk. left. by apply (Hat i).
Qed.

Lemma add_step m its v : is_std K → world_inv (mkWorld m its) → legal (mkWorld m its) (WAdd v) → steps_to (mkWorld m its) (WAdd v).
Proof.
  intros HK Hw (Hn & Hfresh & Hr). simpl in *. pose proof Hw as ((Hs & Hnd & Hsub & H0) & _). unfold steps_to. simpl. unfold AddInternal.
  rewrite null_check_pass, bind_ret by done.
  rewrite dcheck_pass, bind_ret by (rewrite is_end_keys; by apply bool_decide_true).
  destruct (table_set (data_ m) (next_id_ m) v) as [t stable] eqn:Et.
  rewrite arith_in_range, bind_ret.
  - eexists. split; [done|].
    replace t with ((table_set (data_ m) (next_id_ m) v).1) by (by rewrite Et).
    apply (insert_step m its (removed_ids_ m)); [done|done|done|]. intros x. split; [|tauto]. intros Hx. split; [done|].
    intros ->. by apply Hfresh, Hsub.
  - std_cases HK; done.
  - unfold values in *. std_cases HK; compute_types; lia.
Qed.

Lemma add_with_id_step m its v id : is_std K → world_inv (mkWorld m its) → legal (mkWorld m its) (WAddWithID v id) →
  steps_to (mkWorld m its) (WAddWithID v id).
Proof.
  intros HK Hw (Hn & Hl). simpl in *. pose proof Hw as (Hm & _). pose proof Hm as (Hs & Hnd & Hsub & H0). simpl in *. unfold steps_to. simpl.
  unfold AddWithIDInternal. rewrite null_check_pass, bind_ret, IsRemoved_exact, bind_ret by done.
  destruct (bool_decide_reflect (id ∈ removed_ids_ m)) as [Hin|Hout].
  - destruct (zset_erase (removed_ids_ m) id Hs) as (r' & n & -> & Hr & Hr'). rewrite !bind_ret. simpl.
    destruct (table_set (data_ m) id v) as [t stable] eqn:Et. eexists. split; [done|].
    replace t with ((table_set (data_ m) id v).1) by (by rewrite Et). by apply (insert_step m its r').
  - assert (is_end m id = true) as He.
    { rewrite is_end_keys. apply bool_decide_true. intros Hin. destruct (proj2 (live_some m id Hm)) as [? E]; [done|]. congruence. }
    rewrite dcheck_pass, !bind_ret by done. destruct (table_set (data_ m) id v) as [t stable] eqn:Et. eexists. split; [done|].
    replace t with ((table_set (data_ m) id v).1) by (by rewrite Et). apply (insert_step m its (removed_ids_ m)); [done|done|done|].
    intros x. split; [|tauto]. intros Hx. split; [done|]. by intros ->.
Qed.

Lemma replace_step m its v id : is_std K → world_inv (mkWorld m its) → legal (mkWorld m its) (WReplace id v) →
  steps_to (mkWorld m its) (WReplace id v).
Proof.
  intros HK Hw (Hn & Hl). simpl in *. pose proof Hw as (Hm & _). pose proof Hm as (Hs & Hnd & Hsub & H0). simpl in *. unfold steps_to. simpl.
  apply live_some in Hl as [Hin Hout]; [|done]. unfold Replace. rewrite null_check_pass, bind_ret by done.
  rewrite dcheck_pass, bind_ret by (rewrite is_end_keys, bool_decide_false; [done|tauto]).
  assert ((if RTC_DCHECK_IS_ON then removed ← IsRemoved m id; RTC_DCHECK (negb removed) else Ret tt) = Ret tt) as ->.
  { destruct RTC_DCHECK_IS_ON; [|done]. rewrite IsRemoved_exact, bind_ret, bool_decide_false by done. by apply dcheck_pass. }
  rewrite bind_ret. apply table_find_keys in Hin as [old Eold]. rewrite Eold, bind_ret. eexists. split; [done|].
  assert ((table_assign (data_ m) id v) = (table_set (data_ m) id v).1) as -> by (unfold table_set; by rewrite Eold).
  apply (insert_step m its (removed_ids_ m) id v (next_id_ m) true); [done|done|done|]. intros x. split; [|tauto]. intros Hx. split; [done|]. by intros ->.
Qed.

(** Nothing is open, so nothing is noted as removed. *)
Lemma no_iterators m its : world_inv (mkWorld m its) → iteration_depth_ m = 0 → removed_ids_ m = [] ∧ ∀ i p, ¬ (its !! i = Some (Some p)).
Proof.
  intros ((_ & _ & _ & H0) & Hd & _) Hz. simpl in *. split; [by apply H0|]. intros i p Hi. apply (open_zero its i p); [lia|done].
Qed.

Lemma remove_step m its id : world_inv (mkWorld m its) → legal (mkWorld m its) (WRemove id) → steps_to (mkWorld m its) (WRemove id).
Proof.
  intros Hw Hl. simpl in *. pose proof Hw as (Hm & Hd & Hat). pose proof Hm as (Hs & Hnd & Hsub & H0). simpl in *. unfold steps_to. simpl.
  apply live_some in Hl as [Hin Hout]; [|done]. unfold Remove. rewrite is_end_keys, bool_decide_false, IsRemoved_exact, bind_ret by tauto.
  rewrite bool_decide_false by done. destruct (Z.eqb_spec (iteration_depth_ m) 0) as [Hz|Hnz].
  - destruct (no_iterators m its Hw Hz) as [Hr Hno]. rewrite bind_ret. eexists. split; [done|]. refine (conj (conj _ (conj _ _)) _); simpl; [|done|..].
    + unfold map_inv. simpl. rewrite Hr, erase_except.
      split; [constructor|]. split; [by apply except_nodup|]. split; [intros x Hx; by apply list.not_elem_of_nil in Hx|done].
    + intros i k Hi. by apply Hno in Hi.
    + unfold live. simpl. rewrite Hr. rewrite <- !foldl_erase. simpl. by apply to_map_erase.
  - destruct (zset_insert (removed_ids_ m) id Hs) as (r' & x & -> & Hr & Hr'). rewrite !bind_ret. eexists. split; [done|]. refine (conj (conj _ (conj _ _)) _); simpl; [|done|done|].
    + refine (conj _ (conj _ (conj _ _))); simpl; [done|done| |done]. intros k Hk. apply Hr' in Hk as [Hk| ->]; [by apply Hsub|done].
    + apply map_eq. intros k. unfold live. simpl. destruct (decide (k = id)) as [->|Hne].
      * rewrite to_map_except, lookup_delete_eq, bool_decide_true by (done || (apply Hr'; by right)). done.
      * rewrite lookup_delete_ne, !to_map_except by done.
        replace (bool_decide (k ∈ r')) with (bool_decide (k ∈ removed_ids_ m)); [done|]. apply bool_decide_ext. rewrite Hr'. tauto.
Qed.

Lemma clear_step m its : world_inv (mkWorld m its) → steps_to (mkWorld m its) WClear.
Proof.
  intros Hw. pose proof Hw as (Hm & Hd & Hat). pose proof Hm as (Hs & Hnd & Hsub & H0). simpl in *. unfold steps_to. simpl. unfold Clear.
  destruct (Z.eqb_spec (iteration_depth_ m) 0) as [Hz|Hnz].
  - destruct (no_iterators m its Hw Hz) as [Hr Hno]. rewrite bind_ret. eexists. split; [done|]. refine (conj (conj _ (conj _ _)) _); simpl; [|done| |done].
    + unfold map_inv. simpl. rewrite Hr. refine (conj _ (conj _ (conj _ _))); [constructor|constructor|intros x Hx; by apply list.not_elem_of_nil in Hx|done].
    + intros i k Hi. by apply Hno in Hi.
  - destruct (zset_insert_range (removed_ids_ m) ((data_ m).*1) Hs) as (r' & -> & Hr & Hr'). rewrite !bind_ret. eexists. split; [done|].
    refine (conj (conj _ (conj _ _)) _); simpl; [|done|done|].
    + refine (conj _ (conj _ (conj _ _))); simpl; [done|done| |done]. intros k Hk. apply Hr' in Hk as [Hk|Hk]; [by apply Hsub|done].
    + apply map_eq. intros k. unfold live. simpl. rewrite to_map_except, lookup_empty by done.
      destruct (bool_decide_reflect (k ∈ r')) as [Hin|Hout]; [done|]. apply not_elem_of_list_to_map. intros Hin. apply Hout, Hr'. by right.
Qed.

(** A new iterator over some of the nodes. *)
Lemma init_step m its nodes : world_inv (mkWorld m its) → (∀ id, id ∈ nodes.*1 → id ∈ (data_ m).*1) →
  ∃ m' p, Iterator_Init m nodes = Ret (m', p) ∧ world_inv (mkWorld m' (its ++ [Some p])) ∧ live m' = live m.
Proof.
  intros (Hm & Hd & Hat) Hn. pose proof Hm as (Hs & Hnd & Hsub & H0). simpl in *. unfold Iterator_Init.
  rewrite skip_exact, bind_ret by done. do 2 eexists. split; [done|]. refine (conj (conj _ (conj _ _)) _); simpl; [| | |done].
  - refine (conj _ (conj _ (conj _ _))); simpl; [done..|]. lia.
  - rewrite open_app, bool_decide_true by eauto. lia.
  - intros i k Hi. destruct (decide (i < length its)%nat).
    + rewrite list.lookup_app_l in Hi by done. by apply (Hat i).
    + rewrite list.lookup_app_r in Hi by lia. destruct (i - length its)%nat; [|done]. simpl in Hi. injection Hi as Hi.
      apply Hn. by apply (first_live_keys (set_depth m (iteration_depth_ m + 1)) nodes).
Qed.

Lemma iterator_step m its c : world_inv (mkWorld m its) → legal (mkWorld m its) c →
  (c = WOpen ∨ ∃ i, c = WCopy i ∨ c = WAdvance i ∨ c = WClose i) → steps_to (mkWorld m its) c.
Proof.
  intros Hw Hl Hc. assert (∀ c, map_effect (mkWorld m its) c = live m → apply_call (mkWorld m its) c = Ret (mkWorld m its) →
    steps_to (mkWorld m its) c) as Hsame by (intros c' Ee Ea; exists (mkWorld m its); by rewrite Ee).
  pose proof Hw as (Hm & Hd & Hat). pose proof Hm as (Hs & Hnd & Hsub & H0). simpl in Hm, Hs, Hnd, Hsub, H0, Hd, Hat.
  destruct Hc as [->|(i & [-> |[-> | ->]])]; simpl in Hl.
  - destruct (init_step m its (data_ m) Hw ltac:(done)) as (m' & p & E & Hw' & El). unfold steps_to. simpl. unfold Iterator_make.
    rewrite E, bind_ret. by eexists.
  - destruct (its !! i) as [[p|]|] eqn:Hi; [|apply Hsame; [done|simpl; by rewrite Hi]..].
    destruct (nodes_at_open (mkWorld m its) i p Hw Hi) as (nodes & E & Hsubn & _); [by intros ->|]. simpl in E, Hsubn.
    destruct (init_step m its nodes Hw Hsubn) as (m' & q & E' & Hw' & El). unfold steps_to. simpl. rewrite Hi. unfold Iterator_copy.
    rewrite E, bind_ret, E', bind_ret. by eexists.
  - destruct (its !! i) as [[p|]|] eqn:Hi; [|apply Hsame; [done|simpl; by rewrite Hi]..].
    destruct (nodes_at_open (mkWorld m its) i p Hw Hi) as (nodes & E & Hsubn & _); [by intros ->|]. simpl in E, Hsubn.
    unfold steps_to. simpl. rewrite Hi. unfold IsAtEnd, Advance. rewrite E, !bind_ret. destruct nodes as [|e rest]; [by eexists|].
    rewrite skip_exact, bind_ret by done. eexists. split; [done|]. refine (conj (conj _ (conj _ _)) _); simpl; [done| | |done].
    + pose proof (open_set its i (Some p) (Some (first_live m rest)) Hi) as Ho. rewrite !bool_decide_true in Ho by eauto. lia.
    + intros j k Hj. destruct (decide (i = j)) as [<-|Hne].
      * rewrite list_lookup_insert_eq in Hj by (by apply list.lookup_lt_Some in Hi). injection Hj as Hj. apply Hsubn. simpl. right.
        by apply (first_live_keys m rest).
      * rewrite list_lookup_insert_ne in Hj by done. by apply (Hat j).
  - destruct (its !! i) as [[p|]|] eqn:Hi; [|apply Hsame; [done|simpl; by rewrite Hi]..].
    pose proof (open_set its i (Some p) None Hi) as Ho. rewrite bool_decide_true, bool_decide_false in Ho by (eauto || by intros []).
    unfold steps_to. simpl. rewrite Hi. unfold Iterator_destroy. rewrite dcheck_pass, bind_ret by (apply Z.ltb_lt; lia). simpl.
    destruct (Z.eqb_spec (iteration_depth_ m - 1) 0) as [Hz|Hnz].
    + unfold Compact. rewrite dcheck_pass, !bind_ret by (apply Z.eqb_eq; simpl; lia). eexists. split; [done|]. rewrite foldl_erase. simpl. refine (conj (conj _ (conj _ _)) _); simpl.
      * refine (conj _ (conj _ (conj _ _))); simpl; [constructor|by apply except_nodup|intros x Hx; by apply list.not_elem_of_nil in Hx|done].
      * lia.
      * intros j k Hj. exfalso. apply (open_zero (<[i := None]> its) j (At k)); [lia|done].
      * unfold live. simpl. by rewrite <- (foldl_erase (except _ _) []).
    + rewrite bind_ret. eexists. split; [done|].
      refine (conj (conj _ (conj _ _)) _); simpl; [refine (conj _ (conj _ (conj _ _))); simpl; [done..|lia]|lia| |done].
      intros j k Hj. destruct (decide (i = j)) as [<-|Hne].
      * by rewrite list_lookup_insert_eq in Hj by (by apply list.lookup_lt_Some in Hi).
      * rewrite list_lookup_insert_ne in Hj by done. by apply (Hat j).
Qed.

Lemma call_step w c : is_std K → world_inv w → legal w c → steps_to w c.
Proof.
  intros HK Hw Hl. destruct w as [m its]. destruct c.
  - by apply add_step.
  - by apply add_with_id_step.
  - by apply remove_step.
  - by apply replace_step.
  - by apply clear_step.
  - exists (mkWorld (set_check_on_null_data m b) its). by destruct Hw.
  - apply iterator_step; [done|done|by left].
  - apply iterator_step; [done|done|right; eauto].
  - apply iterator_step; [done|done|right; eauto].
  - apply iterator_step; [done|done|right; eauto].
Qed.

Lemma init_inv : world_inv world_init.
Proof.
  split_and!; simpl; [|done|done]. split_and!; simpl; [constructor|constructor|intros x Hx; by apply list.not_elem_of_nil in Hx|done].
Qed.

Lemma reachable_inv w : is_std K → reachable w → world_inv w.
Proof.
  intros HK. induction 1 as [|w c w' Hr IH Hl E]; [apply init_inv|].
  destruct (call_step w c HK IH Hl) as (w'' & E' & Hw & _). congruence.
Qed.

(** ** Loops over the map *)

(** What the body of a loop may do to the map. *)
Inductive body_call := BRemove (id : Z) | BReplace (id : Z) (v : Data) | BClear.

(** An item that is not there is not removed or replaced. *)
Definition body_apply (w : world) (b : body_call) : outcome world :=
  match b with
  | BRemove id => match live (wmap w) !! id with Some _ => apply_call w (WRemove id) | None => Ret w end
  | BReplace id v => match live (wmap w) !! id with Some _ => apply_call w (WReplace id (Some v)) | None => Ret w end
  | BClear => apply_call w WClear
  end.

Fixpoint body_run (w : world) (bs : list body_call) : outcome world :=
  match bs with [] => Ret w | b :: bs => w ← body_apply w b; body_run w bs end.

(** [for (; !it.IsAtEnd(); it.Advance()) body(it.GetCurrentKey())], asserting
    that the current item is in the map.  The keys visited, and the world at
    the end. *)
Fixpoint for_each (fuel : nat) (w : world) (i : nat) (body : Z → list body_call) : outcome (list Z * world) :=
  match fuel with
  | O => Ret ([], w)
  | S fuel =>
      match iters w !! i with
      | Some (Some p) =>
          e ← IsAtEnd (wmap w) p;
          if e : bool then Ret ([], w) else
          k ← GetCurrentKey (wmap w) p;
          _ ← RTC_CHECK (bool_decide (is_Some (live (wmap w) !! k)));
          w ← body_run w (body k);
          w ← apply_call w (WAdvance i);
          '(ks, w) ← for_each fuel w i body; Ret (k :: ks, w)
      | _ => Ret ([], w)
      end
  end.

(** With an iterator open the body changes neither the nodes nor the
    iterators, and what it removes stays removed. *)
Definition quiet (w w' : world) : Prop :=
  world_inv w' ∧ iters w' = iters w ∧ (data_ (wmap w')).*1 = (data_ (wmap w)).*1 ∧
  (∀ id, id ∈ removed_ids_ (wmap w) → id ∈ removed_ids_ (wmap w')).

Lemma body_apply_quiet w b i p : is_std K → world_inv w → iters w !! i = Some (Some p) → ∃ w', body_apply w b = Ret w' ∧ quiet w w'.
Proof.
  intros HK Hw Hi. assert (quiet w w) as Hrefl by done.
  assert (iteration_depth_ (wmap w) ≠ 0) as Hnz.
  { destruct Hw as (_ & Hd & _). intros Hz. apply (open_zero (iters w) i p); [lia|done]. }
  destruct w as [m its]. pose proof (proj1 Hw) as (Hs & _). simpl in *. destruct b as [id|id v|]; simpl.
  - destruct (live m !! id) as [u|] eqn:El; [|by eexists].
    destruct (remove_step m its id Hw ltac:(by eexists)) as (w' & E & Hw' & _). exists w'. split; [done|]. simpl in E. unfold Remove in E.
    destruct (proj1 (live_some m id (proj1 Hw)) ltac:(by eexists)) as [Hin Hout].
    rewrite is_end_keys, bool_decide_false, IsRemoved_exact, bind_ret, bool_decide_false in E by tauto.
    rewrite (proj2 (Z.eqb_neq _ _)) in E by done. destruct (zset_insert (removed_ids_ m) id Hs) as (r' & x & Er & _ & Hr').
    rewrite Er in E. simpl in E. injection E as <-. split; [done|]. split; [done|]. split; [done|]. simpl. intros k Hk. apply Hr'. by left.
  - destruct (live m !! id) as [u|] eqn:El; [|by eexists].
    destruct (replace_step m its (Some v) id HK Hw ltac:(split; [by eexists|by eexists])) as (w' & E & Hw' & _).
    exists w'. split; [done|]. simpl in E. destruct (Replace m id (Some v)) as [[o m']|] eqn:E'; [|done]. simpl in E. injection E as <-.
    unfold Replace in E'. destruct (null_check m (Some v)) as [|]; [|done]. simpl in E'. destruct (RTC_DCHECK _); [|done]. simpl in E'.
    destruct (if RTC_DCHECK_IS_ON then _ else _); [|done]. simpl in E'. destruct (table_find (data_ m) id); [|done]. injection E' as <- <-.
    split; [done|]. split; [done|]. simpl. by rewrite assign_keys.
  - destruct (clear_step m its Hw) as (w' & E & Hw' & _). exists w'. split; [done|]. simpl in E. unfold Clear in E.
    rewrite (proj2 (Z.eqb_neq _ _)) in E by done. destruct (zset_insert_range (removed_ids_ m) ((data_ m).*1) Hs) as (r' & Er & _ & Hr').
    rewrite Er in E. simpl in E. injection E as <-. split; [done|]. split; [done|]. split; [done|]. simpl. intros k Hk. apply Hr'. by left.
Qed.

Lemma body_run_quiet w bs i p : is_std K → world_inv w → iters w !! i = Some (Some p) → ∃ w', body_run w bs = Ret w' ∧ quiet w w'.
Proof.
  intros HK. revert w. induction bs as [|b bs IH]; intros w Hw Hi; [by exists w|]. simpl.
  destruct (body_apply_quiet w b i p HK Hw Hi) as (w1 & -> & Hw1 & Ei & Ek & Hr). rewrite bind_ret.
  destruct (IH w1 Hw1 ltac:(by rewrite Ei)) as (w2 & -> & Hw2 & Ei2 & Ek2 & Hr2). exists w2. split; [done|].
  split; [done|]. split; [by rewrite Ei2|]. split; [by rewrite Ek2|]. auto.
Qed.

Lemma nodes_from_keys (t : table) pre k post : t.*1 = pre ++ k :: post → ¬ (k ∈ pre) → ∃ v rest, nodes_from t k = (k, v) :: rest ∧ rest.*1 = post.
Proof.
  revert pre. induction t as [|[x v] t IH]; intros pre E Hp; [by destruct pre|]. simpl in *. destruct pre as [|y pre]; simpl in E; injection E as -> E.
  - rewrite Z.eqb_refl. by exists v, t.
  - rewrite list.elem_of_cons in Hp. rewrite (proj2 (Z.eqb_neq _ _)) by (intros ->; tauto). apply (IH pre); [exact E|tauto].
Qed.

(** Where the iterator goes from some nodes: over removed ones, to the next. *)
Lemma first_live_cases (m : IDMap (Data := Data)) nodes : let ks := nodes.*1 in
  match first_live m nodes with
  | At k => ∃ pre post, ks = pre ++ k :: post ∧ Forall (λ x, x ∈ removed_ids_ m) pre ∧ ¬ (k ∈ removed_ids_ m)
  | End => Forall (λ x, x ∈ removed_ids_ m) ks
  | Dangling => False
  end.
Proof.
  intros ks. subst ks. unfold first_live, except. induction nodes as [|e nodes IH]; [constructor|]. simpl.
  destruct (bool_decide_reflect (e.1 ∈ removed_ids_ m)) as [Hin|Hout]; simpl.
  - destruct (List.filter _ nodes) as [|e' l]; [by constructor|]. destruct IH as (pre & post & E & Hp & Hk).
    exists (e.1 :: pre), post. split_and!; [simpl; f_equal; exact E|by constructor|done].
  - exists [], (nodes.*1). split_and!; [done|constructor|done].
Qed.

Lemma advance_exact w i k pre post : world_inv w → iters w !! i = Some (Some (At k)) → (data_ (wmap w)).*1 = pre ++ k :: post →
  ∃ q rest, apply_call w (WAdvance i) = Ret (mkWorld (wmap w) (<[i := Some q]> (iters w))) ∧ rest.*1 = post ∧ q = first_live (wmap w) rest.
Proof.
  intros Hw Hi Ek. pose proof (proj1 Hw) as (Hs & Hnd & _).
  assert (¬ (k ∈ pre)) as Hp.
  { rewrite Ek in Hnd. apply list.NoDup_app in Hnd as (_ & Hn & _). intros Hin. apply (Hn k Hin). by left. }
  destruct (nodes_from_keys _ _ _ _ Ek Hp) as (v & rest & E & Er). destruct w as [m its]. simpl in *. rewrite Hi.
  unfold IsAtEnd, Advance, nodes_at. rewrite E, !bind_ret, skip_exact, bind_ret by done. by eexists _, rest.
Qed.

Lemma for_each_exact fuel w i body k pre post : is_std K → world_inv w → iters w !! i = Some (Some (At k)) →
  ¬ (k ∈ removed_ids_ (wmap w)) → (data_ (wmap w)).*1 = pre ++ k :: post → (S (length post) < fuel)%nat →
  ∃ ks w', for_each fuel w i body = Ret (k :: ks, w') ∧ world_inv w' ∧ iters w' !! i = Some (Some End) ∧
    (data_ (wmap w')).*1 = (data_ (wmap w)).*1 ∧ ks `sublist_of` post ∧
    (∀ x, x ∈ removed_ids_ (wmap w) → x ∈ removed_ids_ (wmap w')) ∧
    (∀ x, x ∈ post → x ∈ ks ∨ x ∈ removed_ids_ (wmap w')).
Proof.
  intros HK. revert w k pre post. induction fuel as [|fuel IH]; intros w k pre post Hw Hi Hk Ek Hf; [lia|]. cbn [for_each]. rewrite Hi.
  destruct (nodes_at_open w i (At k) Hw Hi ltac:(done)) as (nodes & En & _ & Hh). unfold IsAtEnd, GetCurrentKey. rewrite En, !bind_ret.
  destruct nodes as [|[k' v] nodes]; [done|]. simpl in Hh. injection Hh as ->. cbn [fst]. rewrite bind_ret.
  assert (is_Some (live (wmap w) !! k)) as Hlive.
  { apply live_some; [apply Hw|]. split; [|done]. rewrite Ek, list.elem_of_app. right. by left. }
  rewrite check_pass, bind_ret by (by apply bool_decide_true).
  destruct (body_run_quiet w (body k) i (At k) HK Hw Hi) as (w1 & -> & Hw1 & Ei1 & Ek1 & Hr1). rewrite bind_ret.
  destruct (advance_exact w1 i k pre post Hw1) as (q & rest & Ea & Er & Eq); [by rewrite Ei1|by rewrite Ek1|].
  destruct (iterator_step (wmap w1) (iters w1) (WAdvance i)) as (w2 & Ea' & Hw2 & _); [by destruct w1| |right; eauto|].
  { simpl. by rewrite Ei1, Hi. }
  assert (w2 = mkWorld (wmap w1) (<[i := Some q]> (iters w1))) as -> by (destruct w1; simpl in *; congruence). clear Ea'.
  rewrite Ea, bind_ret. assert (i < length (iters w1))%nat as Hlt by (rewrite Ei1; by apply list.lookup_lt_Some in Hi).
  assert (<[i := Some q]> (iters w1) !! i = Some (Some q)) as Hq by (by apply list_lookup_insert_eq).
  pose proof (first_live_cases (wmap w1) rest) as Hc. cbv zeta in Hc. rewrite Er, <- Eq in Hc. destruct q as [k2| |]; [| |done].
  - destruct Hc as (pre2 & post2 & -> & Hpre2 & Hk2). rewrite list.Forall_forall in Hpre2.
    destruct (IH _ k2 (pre ++ k :: pre2) post2 Hw2 Hq Hk2) as (ks & w' & E & Hw' & Hend & Ek' & Hsub & Hr' & Hall).
    { simpl. rewrite Ek1, Ek, <- app_assoc. done. }
    { rewrite length_app in Hf. simpl in Hf. lia. }
    simpl in *. exists (k2 :: ks), w'. rewrite E. split; [done|]. split; [done|]. split; [done|]. split; [by rewrite Ek', Ek1|].
    split; [apply sublist_inserts_l; by constructor|]. split; [auto|]. intros x Hx. apply list.elem_of_app in Hx as [Hx|Hx].
    + right. by apply Hr', Hpre2.
    + apply list.elem_of_cons in Hx as [->|Hx]; [left; by left|]. destruct (Hall x Hx); [left; by right|by right].
  - destruct fuel as [|fuel]; [lia|]. cbn [for_each]. simpl. rewrite Hq. exists [], (mkWorld (wmap w1) (<[i := Some End]> (iters w1))).
    split; [done|]. split; [done|]. split; [done|]. split; [done|]. split; [apply sublist_nil_l|]. split; [done|].
    intros x Hx. right. rewrite list.Forall_forall in Hc. by apply Hc.
Qed.

(** ** What can be observed *)

Lemma lookup_exact m id : map_inv m → Lookup (Data := Data) m id = Ret (live m !! id ≫= λ v, v).
Proof.
  intros Hm. rewrite live_lookup by done. unfold Lookup. destruct Hm as (Hs & _). destruct (table_find (data_ m) id) as [[d|]|]; simpl.
  - rewrite IsRemoved_exact, bind_ret by done. by destruct (bool_decide _).
  - by destruct (bool_decide _).
  - by destruct (bool_decide _).
Qed.

Lemma except_count m : map_inv m →
  (length (except (removed_ids_ m) (data_ m)) + length (removed_ids_ m))%nat = length (data_ (Data := Data) m).
Proof.
  intros (Hs & Hnd & Hsub & _). rewrite Nat.add_comm, <- (length_fmap fst (except _ _)), <- length_app, <- (length_fmap fst (data_ m)).
  apply Permutation_length, NoDup_Permutation; [|done|].
  - apply list.NoDup_app. split_and!; [by apply zset_nodup| |by apply except_nodup]. intros x Hx Hin. by apply except_keys in Hin as [_ ?].
  - intros x. rewrite list.elem_of_app, except_keys. split; [intros [?|[? _]]; auto|]. intros Hx.
    destruct (decide (x ∈ removed_ids_ m)); [by left|by right].
Qed.

Lemma size_exact m : is_std size_t → map_inv m → values size_t (Z.of_nat (length (data_ m))) →
  IDMap_size size_t m = Z.of_nat (size (live m)).
Proof.
  intros Hst Hm Hv. pose proof (except_count m Hm) as Hc. destruct Hm as (_ & Hnd & _). unfold IDMap_size, live.
  rewrite map_size_list_to_map by (by apply except_nodup). rewrite std_convert; [lia|done|]. unfold values in *.
  pose proof (limits_order size_t Hst). lia.
Qed.

(** Which calls leave an iterator dangling. *)
Lemma dangling_calls w c w' j : is_std K → world_inv w → legal w c → apply_call w c = Ret w' →
  iters w' !! j = Some (Some Dangling) →
  iters w !! j = Some (Some Dangling) ∨ ((∃ v id, c = WAdd v ∨ c = WAddWithID v id) ∧ rehashes (data_ (wmap w)) = true).
Proof.
  intros HK Hw Hl E Hj. destruct w as [m its]. pose proof (proj1 Hw) as (Hs & _). simpl in Hs.
  assert (∀ m0 id v t stable, data_ m0 = data_ m → table_set (data_ m0) id v = (t, stable) → after_insert stable its !! j = Some (Some Dangling) →
    its !! j = Some (Some Dangling) ∨ rehashes (data_ m) = true) as Hins.
  { intros m0 id v t stable E0 Et Hd. rewrite E0 in Et. destruct stable; [by left|]. right. unfold table_set in Et.
    destruct (table_find (data_ m) id); [done|]. injection Et as _ Er. by apply negb_false_iff in Er. }
  assert (∀ (m' : IDMap (Data := Data)) nodes p, Iterator_Init m nodes = Ret (m', p) → p ≠ Dangling) as Hinit.
  { intros m' nodes p Ei. unfold Iterator_Init in Ei. rewrite skip_exact in Ei by done. simpl in Ei. injection Ei as _ <-.
    pose proof (first_live_cases (set_depth m (iteration_depth_ m + 1)) nodes) as Hc. by destruct (first_live _ _). }
  assert (∀ p, p ≠ Dangling → (its ++ [Some p]) !! j = Some (Some Dangling) → its !! j = Some (Some Dangling)) as Happ.
  { intros p Hp Hd. destruct (decide (j < length its)%nat); [by rewrite list.lookup_app_l in Hd|].
    rewrite list.lookup_app_r in Hd by lia. destruct (j - length its)%nat; [|done]. simpl in Hd. congruence. }
  destruct c; simpl in E.
  - apply bind_returns in E as ([[x m'] st] & E & [= <-]). unfold AddInternal in E. apply bind_returns in E as (? & _ & E).
    apply bind_returns in E as (? & _ & E). destruct (table_set (data_ m) (next_id_ m) v) as [t stable] eqn:Et.
    apply bind_returns in E as (n & _ & [= <- <- <-]). destruct (Hins m _ _ _ _ eq_refl Et Hj); [by left|right; split; [exists v, 0; auto|done]].
  - apply bind_returns in E as ([m' st] & E & [= <-]). unfold AddWithIDInternal in E. apply bind_returns in E as (? & _ & E).
    apply bind_returns in E as (b & _ & E). apply bind_returns in E as (m1 & E1 & E).
    assert (data_ m1 = data_ m) as Ed.
    { destruct b; apply bind_returns in E1 as (y & _ & E1); [by destruct y; injection E1 as <-|by injection E1 as <-]. }
    destruct (table_set (data_ m1) id v) as [t stable] eqn:Et. injection E as <- <-.
    destruct (Hins m1 _ _ _ _ Ed Et Hj); [by left|right; split; [exists v, id; auto|done]].
  - apply bind_returns in E as (m' & _ & [= <-]). by left.
  - apply bind_returns in E as ([o m'] & _ & [= <-]). by left.
  - apply bind_returns in E as (m' & _ & [= <-]). by left.
  - injection E as <-. by left.
  - apply bind_returns in E as ([m' p] & E & [= <-]). left. apply (Happ p); [by apply (Hinit m' (data_ m))|done].
  - destruct (its !! i) as [[p|]|] eqn:Hi; [|injection E as <-; by left..]. apply bind_returns in E as ([m' q] & E & [= <-]). left.
    unfold Iterator_copy in E. apply bind_returns in E as (nodes & _ & E). apply (Happ q); [by apply (Hinit m' nodes)|done].
  - destruct (its !! i) as [[p|]|] eqn:Hi; [|injection E as <-; by left..]. apply bind_returns in E as (b & Eb & E).
    destruct b; [injection E as <-; by left|]. apply bind_returns in E as (q & E & [= <-]). left. simpl in Hj.
    destruct (decide (i = j)) as [->|Hne]; [|by rewrite list_lookup_insert_ne in Hj by done].
    rewrite list_lookup_insert_eq in Hj by (by apply list.lookup_lt_Some in Hi). injection Hj as ->. unfold Advance in E.
    apply bind_returns in E as ([|e rest] & _ & E); [done|]. rewrite skip_exact in E by done. injection E as E.
    pose proof (first_live_cases m rest) as Hc. cbv zeta in Hc. by rewrite E in Hc.
  - destruct (its !! i) as [[p|]|] eqn:Hi; [|injection E as <-; by left..]. apply bind_returns in E as (m' & _ & [= <-]). left. simpl in Hj.
    destruct (decide (i = j)) as [->|Hne]; [|by rewrite list_lookup_insert_ne in Hj by done].
    by rewrite list_lookup_insert_eq in Hj by (by apply list.lookup_lt_Some in Hi).
Qed.

Lemma null_check_cases (m : IDMap (Data := Data)) (v : V) : null_check m v = Ret tt ∨ null_check m v = Crash DCheckFailed.
Proof. unfold null_check, RTC_DCHECK. destruct (_ && _); auto. Qed.

(** ** Properties *)

(** C27: Whatever iterators are open, the id map is a map from ids to pointers.
    In every state that legal calls reach, every legal call returns and has the
    effect of its name on the contents: removals and clearing take effect at
    once for whoever asks, although the nodes stay until the last iterator is
    closed, and opening, advancing or closing an iterator changes nothing.
    [Lookup] answers from the contents and [size] is their number. *)
Theorem idmap_refines_map (w : world) :
  is_std K → is_std size_t → reachable w →
  (∀ c, legal w c → ∃ w', apply_call w c = Ret w' ∧ live (wmap w') = map_effect w c) ∧
  (∀ id, Lookup (wmap w) id = Ret (live (wmap w) !! id ≫= λ v, v)) ∧
  (values size_t (Z.of_nat (length (data_ (wmap w)))) →
   IDMap_size size_t (wmap w) = Z.of_nat (size (live (wmap w))) ∧ IsEmpty size_t (wmap w) = bool_decide (live (wmap w) = ∅)).
Proof.
  intros HK Hst Hr. pose proof (reachable_inv w HK Hr) as Hw. split_and!.
  - intros c Hl. destruct (call_step w c HK Hw Hl) as (w' & E & _ & El). by exists w'.
  - intros id. apply lookup_exact, Hw.
  - intros Hv. rewrite size_exact by (done || apply Hw). split; [done|]. unfold IsEmpty. rewrite size_exact by (done || apply Hw).
    apply eq_iff_eq_true. rewrite Z.eqb_eq, bool_decide_eq_true, <- map_size_empty_iff. lia.
Qed.

(** Iterators stay valid.  In every reachable state the depth is the number
    of open iterators, an open iterator that is not at the end is at a node of
    the table, whose key it gives, and nothing is noted as removed when none is
    open.  The only call that can leave an iterator dangling is an insertion
    that rehashes the table. *)
Theorem idmap_iterators_valid (w : world) :
  is_std K → reachable w →
  iteration_depth_ (wmap w) = Z.of_nat (open_iters (iters w)) ∧
  (iteration_depth_ (wmap w) = 0 → removed_ids_ (wmap w) = []) ∧
  (∀ i id, iters w !! i = Some (Some (At id)) →
    IsAtEnd (wmap w) (At id) = Ret false ∧ GetCurrentKey (wmap w) (At id) = Ret id) ∧
  (∀ c w' j, legal w c → apply_call w c = Ret w' → iters w' !! j = Some (Some Dangling) →
    iters w !! j = Some (Some Dangling) ∨ ((∃ v id, c = WAdd v ∨ c = WAddWithID v id) ∧ rehashes (data_ (wmap w)) = true)).
Proof.
  intros HK Hr. pose proof (reachable_inv w HK Hr) as Hw. pose proof Hw as ((_ & _ & _ & H0) & Hd & Hat).
  split; [done|]. split; [done|]. split; [|intros c w' j Hl E Hj; by apply (dangling_calls w c w' j)].
  intros i id Hi. destruct (nodes_at_open w i (At id) Hw Hi ltac:(done)) as (nodes & En & _ & Hh).
  unfold IsAtEnd, GetCurrentKey. rewrite En, !bind_ret. destruct nodes as [|e nodes]; [done|]. simpl in Hh. split; [done|congruence].
Qed.

(** C28: A loop over the map ends and visits every item once, whatever its body
    removes, replaces or clears: with a bound on its iterations that exceeds the
    number of nodes it ends with the iterator at the end; it visits ids without
    repetition in the order of the table, each of them in the map when it is
    visited; and every id that is still in the map at the end has been
    visited. *)
Theorem idmap_loop_complete (w : world) (body : Z → list body_call) (fuel : nat) :
  is_std K → reachable w → (length (data_ (wmap w)) < fuel)%nat →
  ∃ w0 ks w', apply_call w WOpen = Ret w0 ∧ for_each fuel w0 (length (iters w)) body = Ret (ks, w') ∧
    iters w' !! length (iters w) = Some (Some End) ∧
    ks `sublist_of` (data_ (wmap w)).*1 ∧ NoDup ks ∧
    (∀ id, is_Some (live (wmap w') !! id) → id ∈ ks).
Proof.
  intros HK Hr Hf. pose proof (reachable_inv w HK Hr) as Hw. destruct w as [m its]. pose proof (proj1 Hw) as (Hs & Hnd & _). simpl in *.
  destruct (iterator_step m its WOpen Hw I ltac:(by left)) as (w0 & E0 & Hw0 & _). exists w0. simpl in E0 |- *. unfold Iterator_make, Iterator_Init in *.
  rewrite skip_exact, !bind_ret in * by done. injection E0 as <-. set (m1 := set_depth m (iteration_depth_ m + 1)) in *.
  assert ((its ++ [Some (first_live m1 (data_ m))]) !! length its = Some (Some (first_live m1 (data_ m)))) as Hi by (by apply list_lookup_middle).
  pose proof (first_live_cases m1 (data_ m)) as Hc. cbv zeta in Hc. destruct (first_live m1 (data_ m)) as [k| |] eqn:Ep; [| |done].
  - destruct Hc as (pre & post & Ek & Hpre & Hk). rewrite list.Forall_forall in Hpre.
    destruct (for_each_exact fuel (mkWorld m1 (its ++ [Some (At k)])) (length its) body k pre post HK Hw0 Hi Hk Ek)
      as (ks & w' & E & Hw' & Hend & Ekeys & Hsub & Hr' & Hall).
    { apply (f_equal length) in Ek. rewrite length_fmap, length_app in Ek. simpl in Ek. lia. }
    assert (k :: ks `sublist_of` (data_ m).*1) as Hsub' by (rewrite Ek; apply sublist_inserts_l; by constructor).
    exists (k :: ks), w'. split_and!; [done|done|done|done|by eapply sublist_NoDup|]. intros id Hl. apply live_some in Hl as [Hin Hout]; [|apply Hw'].
    rewrite Ekeys in Hin. simpl in Hin. rewrite Ek in Hin. apply list.elem_of_app in Hin as [Hin|Hin].
    + exfalso. apply Hout, Hr', Hpre. done.
    + apply list.elem_of_cons in Hin as [->|Hin]; [by left|]. right. by destruct (Hall id Hin).
  - destruct fuel as [|fuel]; [lia|]. exists [], (mkWorld m1 (its ++ [Some End])). cbn [for_each iters wmap]. rewrite Hi.
    split_and!; [done|done|done|apply sublist_nil_l|constructor|]. intros id Hl. apply live_some in Hl as [Hin Hout]; [|apply Hw0].
    rewrite list.Forall_forall in Hc. by apply Hc in Hin.
Qed.

(** Misuse.  In a debug build removing or replacing an id that is not in
    the map, adding one that is, and passing null where that is refused stop
    the program; in a release build the removal does nothing. *)
Theorem idmap_misuse_caught (w : world) (id : Z) (v : V) :
  is_std K → reachable w →
  (RTC_DCHECK_IS_ON = true →
   (live (wmap w) !! id = None → apply_call w (WRemove id) = Crash DCheckFailed ∧ apply_call w (WReplace id v) = Crash DCheckFailed) ∧
   (is_Some (live (wmap w) !! id) → apply_call w (WAddWithID v id) = Crash DCheckFailed) ∧
   (check_on_null_data_ (wmap w) = true → apply_call w (WAdd None) = Crash DCheckFailed ∧
     apply_call w (WAddWithID None id) = Crash DCheckFailed ∧ apply_call w (WReplace id None) = Crash DCheckFailed)) ∧
  (RTC_DCHECK_IS_ON = false → live (wmap w) !! id = None → apply_call w (WRemove id) = Ret w).
Proof.
  intros HK Hr. pose proof (reachable_inv w HK Hr) as (Hm & _). pose proof Hm as (Hs & _). destruct w as [m its]. simpl in *.
  pose proof (live_some m id Hm) as Hls.
  assert (live m !! id = None → (removed ← (if is_end m id then Ret true else IsRemoved m id); Ret removed) = Ret true) as Hgone.
  { intros El. rewrite is_end_keys, IsRemoved_exact by done. destruct (bool_decide_reflect (id ∉ (data_ m).*1)) as [|Hin]; [done|].
    rewrite bool_decide_true; [done|]. destruct (decide (id ∈ removed_ids_ m)) as [|Hout]; [done|]. exfalso.
    destruct (proj2 Hls) as [? ?]; [|congruence]. split; [|done]. destruct (decide (id ∈ (data_ m).*1)); [done|tauto]. }
  split; [intros Hon; split_and!|intros Hoff El].
  - intros El. specialize (Hgone El). split.
    + unfold Remove. destruct (if is_end m id then _ else _) as [b|]; [|done]. simpl in Hgone. injection Hgone as ->. rewrite bind_ret.
      unfold RTC_DCHECK. by rewrite Hon.
    + unfold Replace. destruct (null_check_cases m v) as [-> | ->]; [|done]. rewrite bind_ret. unfold RTC_DCHECK. rewrite Hon, is_end_keys.
      destruct (bool_decide_reflect (id ∉ (data_ m).*1)) as [|Hin]; [done|]. simpl. rewrite is_end_keys in Hgone.
      rewrite bool_decide_false in Hgone by done. rewrite IsRemoved_exact in Hgone |- * by done. injection Hgone as ->. done.
  - intros Hl. apply Hls in Hl as [Hin Hout]. unfold AddWithIDInternal. destruct (null_check_cases m v) as [-> | ->]; [|done].
    rewrite bind_ret, IsRemoved_exact, bind_ret, bool_decide_false by done. unfold RTC_DCHECK.
    rewrite Hon, is_end_keys, bool_decide_false by tauto. done.
  - intros Hc. unfold AddInternal, AddWithIDInternal, Replace, null_check, RTC_DCHECK. by rewrite Hon, Hc.
  - specialize (Hgone El). unfold Remove. destruct (if is_end m id then _ else _) as [b|]; [|done]. simpl in Hgone. injection Hgone as ->.
    rewrite bind_ret. unfold RTC_DCHECK. by rewrite Hoff.
Qed.
End Spec.

(** ** At concrete inputs *)

(** A table that puts new nodes first and rehashes at two and four nodes. *)
#[export, program] Instance front_table : HashTable (option Z) :=
  {| place := λ l e, e :: l; rehashes := λ l, bool_decide (length l ∈ [2%nat; 4%nat]) |}.
Next Obligation. done. Qed.

#[export] Instance client_build : BuildMode := debug_build.

Definition sample_map (depth : Z) (removed : list Z) (n : nat) : IDMap (Data := Z) :=
  mkIDMap depth removed (Z.of_nat n + 1) (drop (3 - n) [(3, Some 30); (2, Some 20); (1, Some 10)]) false.

Definition sample : world := mkWorld (sample_map 0 [] 3) [].

Lemma sample_reachable : reachable int32_t sample.
Proof.
  assert (∀ n, (n < 3)%nat → reachable int32_t (mkWorld (sample_map 0 [] n) []) → reachable int32_t (mkWorld (sample_map 0 [] (S n)) [])) as Hadd.
  { intros n Hn Hr. apply (reach_call _ _ (WAdd (Some (10 * Z.of_nat (S n)))) _ Hr).
    - destruct n as [|[|[|n]]]; [..|lia]; (split; [done|split; [apply (bool_decide_unpack _); by vm_compute|by vm_compute]]).
    - destruct n as [|[|[|n]]]; [..|lia]; by vm_compute. }
  apply Hadd; [lia|]. apply Hadd; [lia|]. apply Hadd; [lia|]. constructor.
Qed.

Lemma std_int32_t : is_std int32_t.
Proof. unfold is_std, std_types. simpl. tauto. Qed.

Lemma std_uint64_t : is_std uint64_t.
Proof. unfold is_std, std_types. simpl. tauto. Qed.

Lemma idmap_refines_map_witness :
  Lookup (wmap sample) 2 = Ret (Some 20) ∧
  ∃ w', apply_call int32_t sample (WRemove 2) = Ret w' ∧ live (wmap w') = delete 2 (live (wmap sample)).
Proof.
  destruct (idmap_refines_map int32_t uint64_t sample std_int32_t std_uint64_t sample_reachable) as (H1 & H2 & _). split.
  - exact (H2 2).
  - apply (H1 (WRemove 2)). by eexists.
Defined.

Lemma idmap_iterators_valid_witness : iteration_depth_ (wmap sample) = 0 ∧ removed_ids_ (wmap sample) = [].
Proof.
  destruct (idmap_iterators_valid int32_t sample std_int32_t sample_reachable) as (H1 & H2 & _). split; [exact H1|exact (H2 eq_refl)].
Defined.

(** A loop that at id 3 removes 2 and itself, and replaces 1. *)
Lemma idmap_loop_complete_witness :
  let body := λ k, if k =? 3 then [BRemove 2; BRemove 3; BReplace 1 11] else [] in
  ∃ w0 ks w', apply_call int32_t sample WOpen = Ret w0 ∧ for_each int32_t 4 w0 0 body = Ret (ks, w') ∧ ks = [3; 1] ∧
    (∀ id, is_Some (live (wmap w') !! id) → id ∈ ks).
Proof.
  intros body. destruct (idmap_loop_complete int32_t sample body 4 std_int32_t sample_reachable ltac:(simpl; lia))
    as (w0 & ks & w' & E0 & E & _ & _ & _ & Hall).
  exists w0, ks, w'. split; [exact E0|]. split; [exact E|]. split; [|exact Hall].
  vm_compute in E0. injection E0 as <-. vm_compute in E. congruence.
Defined.

Lemma idmap_misuse_caught_witness : apply_call int32_t sample (WRemove 7) = Crash DCheckFailed.
Proof.
  destruct (idmap_misuse_caught int32_t sample 7 None std_int32_t sample_reachable) as (H1 & _).
  exact (proj1 (proj1 (H1 eq_refl) eq_refl)).
Defined.
