(* ===== verification/MruCache.v ===== *)
(** * Most-recently-used cache

    Model of [src/include/base/containers/mru_cache.h].  The cache is a linked
    list of key and payload, the most recent first, and an index from keys to
    the nodes of the list.  A node is named by its address, which the
    iterators and the index share: the list pairs addresses with items, and
    [next_node] is where the next one is allocated.  The index is a map with
    equality of keys, [std::map] or [std::unordered_map] alike. *)

From stdpp Require Import gmap.
From S2P Require Import Prelude.

Section Mru.
Context {Key Payload : Type} `{Countable Key} `{BuildMode}.

Definition node := positive.

Record MRUCache := mkCache {
  ordering_ : list (node * (Key * Payload));
  index_ : gmap Key node;
  max_size_ : Z;
  next_node : node
}.

Definition NO_AUTO_EVICT : Z := 0.

Definition MRUCache_init (max_size : Z) : MRUCache := mkCache [] ∅ max_size 1%positive.

(** ** The linked list *)

(** An iterator is the address of a node, or the end. *)
Definition iterator := option node.

Definition list_find (l : list (node * (Key * Payload))) (n : node) : option (Key * Payload) :=
  snd <$> List.find (λ e, bool_decide (e.1 = n)) l.

Definition list_remove (l : list (node * (Key * Payload))) (n : node) : list (node * (Key * Payload)) :=
  List.filter (λ e, negb (bool_decide (e.1 = n))) l.

Definition deref_node (c : MRUCache) (n : node) : outcome (Key * Payload) :=
  match list_find (ordering_ c) n with Some e => Ret e | None => Crash OutOfBounds end.

Definition begin_ (c : MRUCache) : iterator := fst <$> head (ordering_ c).

(** ** Operations *)

Definition Erase (c : MRUCache) (pos : node) : outcome MRUCache :=
  e ← deref_node c pos;
  Ret (mkCache (list_remove (ordering_ c) pos) (delete e.1 (index_ c)) (max_size_ c) (next_node c)).

(** [Erase(rbegin())]. *)
Definition Erase_last (c : MRUCache) : outcome MRUCache :=
  match list.last (ordering_ c) with Some e => Erase c e.1 | None => Crash OutOfBounds end.

Definition cache_size (c : MRUCache) : outcome nat :=
  _ ← RTC_DCHECK (Nat.eqb (size (index_ c)) (length (ordering_ c)));
  Ret (size (index_ c)).

Fixpoint shrink_loop (c : MRUCache) (n : nat) : outcome MRUCache :=
  match n with O => Ret c | S n => c ← Erase_last c; shrink_loop c n end.

(** The loop runs [size() - new_size] times, or not at all. *)
Definition ShrinkToSize (c : MRUCache) (new_size : Z) : outcome MRUCache :=
  n ← cache_size c; shrink_loop c (Z.to_nat (Z.of_nat n - new_size)).

(** [ordering_.emplace_front]; [index_.emplace] keeps an entry that is there. *)
Definition put_front (c : MRUCache) (key : Key) (payload : Payload) : MRUCache :=
  let n := next_node c in
  mkCache ((n, (key, payload)) :: ordering_ c)
    (match index_ c !! key with Some _ => index_ c | None => <[key := n]> (index_ c) end)
    (max_size_ c) (Pos.succ n).

Definition Put (c : MRUCache) (key : Key) (payload : Payload) : outcome (MRUCache * iterator) :=
  c ← (match index_ c !! key with
       | Some n => Erase c n
       | None => if negb (max_size_ c =? NO_AUTO_EVICT) then ShrinkToSize c (max_size_ c - 1) else Ret c
       end);
  let c := put_front c key payload in Ret (c, begin_ c).

(** [ordering_.splice(ordering_.begin(), ordering_, iter)]. *)
Definition splice_front (c : MRUCache) (n : node) : outcome MRUCache :=
  e ← deref_node c n;
  Ret (mkCache ((n, e) :: list_remove (ordering_ c) n) (index_ c) (max_size_ c) (next_node c)).

Definition Get (c : MRUCache) (key : Key) : outcome (MRUCache * iterator) :=
  match index_ c !! key with
  | None => Ret (c, None)
  | Some n => c ← splice_front c n; Ret (c, begin_ c)
  end.

Definition Peek (c : MRUCache) (key : Key) : iterator := index_ c !! key.

Definition Clear (c : MRUCache) : MRUCache := mkCache [] ∅ (max_size_ c) (next_node c).

(** Nodes keep their addresses; the next one is new to both. *)
Definition Swap (c other : MRUCache) : MRUCache * MRUCache :=
  let n := Pos.max (next_node c) (next_node other) in
  (mkCache (ordering_ other) (index_ other) (max_size_ other) n, mkCache (ordering_ c) (index_ c) (max_size_ c) n).

Definition empty (c : MRUCache) : bool := match ordering_ c with [] => true | _ => false end.
End Mru.

Section Spec.
Context {Key Payload : Type} `{Countable Key} `{BuildMode}.

#[local] Abbreviation cache := (MRUCache (Key := Key) (Payload := Payload)).
#[local] Abbreviation items_t := (list (Key * Payload)).

(** ** The invariant *)

(** The index leads to the node of each key, and to nothing else. *)
Definition cache_inv (c : cache) : Prop :=
  NoDup (ordering_ c).*1 ∧ NoDup (ordering_ c).*2.*1 ∧
  (∀ k n, index_ c !! k = Some n ↔ ∃ p, (n, (k, p)) ∈ ordering_ c) ∧
  (∀ n, n ∈ (ordering_ c).*1 → (n < next_node c)%positive).

Definition items (c : cache) : items_t := (ordering_ c).*2.

(** ** The list of nodes *)

Lemma find_at l1 n (e : Key * Payload) l2 : NoDup (l1 ++ (n, e) :: l2).*1 →
  list_find (l1 ++ (n, e) :: l2) n = Some e ∧ list_remove (l1 ++ (n, e) :: l2) n = l1 ++ l2.
Proof.
  rewrite fmap_app, fmap_cons. intros Hnd. apply list.NoDup_app in Hnd as (_ & Hn1 & Hnd2). apply list.NoDup_cons in Hnd2 as [Hn2 _].
  simpl in *. assert (∀ x, x ∈ l1 → x.1 ≠ n) as H1.
  { intros x Hx Heq. apply (Hn1 n); [|by left]. rewrite <- Heq. by apply list_elem_of_fmap_2. }
  assert (∀ x, x ∈ l2 → x.1 ≠ n) as H2 by (intros x Hx Heq; apply Hn2; rewrite <- Heq; by apply list_elem_of_fmap_2).
  assert (∀ l, (∀ x, x ∈ l → x.1 ≠ n) → List.filter (λ e : node * (Key * Payload), negb (bool_decide (e.1 = n))) l = l) as Hf.
  { clear. intros l. induction l as [|x l IH]; intros Hl; [done|]. simpl. rewrite bool_decide_false by (apply Hl; by left). simpl.
    f_equal. apply IH. intros y Hy. apply Hl. by right. }
  split.
  - unfold list_find. clear Hn1 Hn2 H2. induction l1 as [|x l1 IH]; simpl; [by rewrite bool_decide_true|].
    rewrite bool_decide_false by (apply H1; by left). apply IH. intros y Hy. apply H1. by right.
  - unfold list_remove. rewrite List.filter_app. simpl. rewrite bool_decide_true by done. simpl. by rewrite !Hf.
Qed.

Definition without (k : Key) (l : items_t) : items_t := List.filter (λ e, negb (bool_decide (e.1 = k))) l.

Definition find_item (k : Key) (l : items_t) : option Payload := snd <$> List.find (λ e, bool_decide (e.1 = k)) l.

Lemma without_id k l : ¬ (k ∈ l.*1) → without k l = l.
Proof.
  induction l as [|e l IH]; [done|]. rewrite fmap_cons, list.elem_of_cons. intros Hk. unfold without in *. simpl.
  rewrite bool_decide_false by (intros Heq; apply Hk; left; congruence). simpl. f_equal. apply IH. tauto.
Qed.

Lemma without_middle k p l1 l2 : NoDup (l1 ++ (k, p) :: l2).*1 → without k (l1 ++ (k, p) :: l2) = l1 ++ l2.
Proof.
  rewrite fmap_app, fmap_cons. intros Hnd. apply list.NoDup_app in Hnd as (_ & Hn1 & Hnd2). apply list.NoDup_cons in Hnd2 as [Hn2 _].
  simpl in *. unfold without. rewrite List.filter_app. simpl. rewrite bool_decide_true by done. simpl. f_equal.
  - apply without_id. intros Hin. apply (Hn1 k Hin). by left.
  - by apply without_id.
Qed.

Lemma find_item_elem k p l : NoDup l.*1 → (k, p) ∈ l → find_item k l = Some p.
Proof.
  intros Hnd Hin. unfold find_item. induction l as [|[k' p'] l IH]; [by apply list.not_elem_of_nil in Hin|].
  rewrite fmap_cons, list.NoDup_cons in Hnd. destruct Hnd as [Hk Hnd]. simpl in *. apply list.elem_of_cons in Hin as [[= <- <-]|Hin].
  - by rewrite bool_decide_true.
  - rewrite bool_decide_false; [by apply IH|]. intros ->. apply Hk. apply list_elem_of_fmap. by exists (k, p).
Qed.

Lemma find_item_none k l : ¬ (k ∈ l.*1) → find_item k l = None.
Proof.
  intros Hk. unfold find_item. induction l as [|[k' p'] l IH]; [done|]. rewrite fmap_cons, list.elem_of_cons in Hk. simpl in *.
  rewrite bool_decide_false by (intros ->; tauto). apply IH. tauto.
Qed.

(** Every node by its key. *)
Lemma index_some c k n : cache_inv c → index_ c !! k = Some n →
  ∃ p l1 l2, ordering_ c = l1 ++ (n, (k, p)) :: l2 ∧ list_find (ordering_ c) n = Some (k, p) ∧
    list_remove (ordering_ c) n = l1 ++ l2 ∧ find_item k (items c) = Some p ∧ without k (items c) = l1.*2 ++ l2.*2.
Proof.
  intros (Hn & Hk & Hi & _) E. apply Hi in E as [p Hin]. pose proof Hin as Hin'.
  apply list_elem_of_split in Hin' as (l1 & l2 & Eo). rewrite Eo in Hn. destruct (find_at l1 n (k, p) l2 Hn) as [Ef Er].
  exists p, l1, l2. rewrite <- Eo in Ef, Er. split_and!; [done|done|done| |].
  - apply find_item_elem; [done|]. unfold items. rewrite list_elem_of_fmap. by exists (n, (k, p)).
  - unfold items in *. rewrite Eo in *. rewrite fmap_app, fmap_cons in *. simpl in *. by apply (without_middle k p).
Qed.

Lemma index_none c k : cache_inv c → index_ c !! k = None → ¬ (k ∈ (items c).*1).
Proof.
  intros (_ & _ & Hi & _) E Hin. unfold items in Hin. apply list_elem_of_fmap in Hin as ([k' p] & -> & Hin).
  apply list_elem_of_fmap in Hin as ([n e] & Ee & Hin). simpl in *. subst e.
  assert (index_ c !! k' = Some n) by (apply Hi; by exists p). congruence.
Qed.

(** Removing a node and its key. *)
Lemma erase_node c k n p l1 l2 : cache_inv c → ordering_ c = l1 ++ (n, (k, p)) :: l2 →
  cache_inv (mkCache (l1 ++ l2) (delete k (index_ c)) (max_size_ c) (next_node c)).
Proof.
  intros (Hn & Hk & Hi & Hb) Eo. unfold cache_inv. simpl. rewrite Eo in *. rewrite !fmap_app, !fmap_cons in *. simpl in *.
  assert (∀ A (x : A) a b, NoDup (a ++ x :: b) → NoDup (a ++ b) ∧ ¬ (x ∈ a ++ b)) as Hnd.
  { intros A x a b HN. rewrite <- Permutation_middle in HN. apply list.NoDup_cons in HN as [? ?]. done. }
  split_and!; [by apply (Hnd _ n)|by apply (Hnd _ k)| |].
  - intros k' n'. destruct (decide (k' = k)) as [->|Hne].
    + rewrite lookup_delete_eq. split; [done|]. intros (p' & Hin). exfalso. apply Hnd in Hk as [_ Hk]. apply Hk.
      rewrite <- fmap_app, <- fmap_app. apply list_elem_of_fmap. exists (k, p'). split; [done|]. apply list_elem_of_fmap. by exists (n', (k, p')).
    + rewrite lookup_delete_ne by done. rewrite Hi. split; intros (p' & Hin); exists p'; rewrite list.elem_of_app in *.
      * destruct Hin as [?|Hin]; [by left|]. apply list.elem_of_cons in Hin as [[= -> -> ->]|?]; [done|by right].
      * destruct Hin; [by left|right; by right].
  - intros n' Hin. apply Hb. rewrite list.elem_of_app in *. destruct Hin; [by left|right; by right].
Qed.

(** The counts agree. *)
Lemma index_size c : cache_inv c → size (index_ c) = length (ordering_ c).
Proof.
  intros (Hn & Hk & Hi & _).
  assert (NoDup ((λ e : node * (Key * Payload), (e.2.1, e.1)) <$> ordering_ c).*1) as Hnd.
  { rewrite <- list_fmap_compose. by rewrite <- list_fmap_compose in Hk. }
  assert (index_ c = list_to_map ((λ e : node * (Key * Payload), (e.2.1, e.1)) <$> ordering_ c)) as ->.
  { apply map_eq. intros k. apply option_eq. intros n. rewrite Hi. rewrite <- elem_of_list_to_map by done. split.
    - intros [p Hin]. apply list_elem_of_fmap. by exists (n, (k, p)).
    - intros Hin. apply list_elem_of_fmap in Hin as ([n' [k' p]] & [= -> ->] & Hin). by exists p. }
  rewrite map_size_list_to_map by done. apply length_fmap.
Qed.

Lemma cache_size_exact c : cache_inv c → cache_size c = Ret (length (items c)).
Proof.
  intros Hc. unfold cache_size, items. rewrite (index_size c Hc), length_fmap.
  rewrite dcheck_pass by (by apply Nat.eqb_eq). done.
Qed.

(** What a modification of the cache does to its items. *)
Definition becomes (c c' : cache) (l : items_t) : Prop := cache_inv c' ∧ items c' = l ∧ max_size_ c' = max_size_ c.

Lemma erase_exact c n k p l1 l2 : cache_inv c → ordering_ c = l1 ++ (n, (k, p)) :: l2 →
  ∃ c', Erase c n = Ret c' ∧ becomes c c' (l1.*2 ++ l2.*2) ∧ index_ c' !! k = None.
Proof.
  intros Hc Eo. pose proof Hc as (Hn & _). rewrite Eo in Hn. destruct (find_at l1 n (k, p) l2 Hn) as [Ef Er].
  unfold Erase, deref_node. rewrite Eo, Ef, bind_ret, Er. eexists. split; [done|]. split; [|apply lookup_delete_eq].
  split; [by apply (erase_node c k n p)|]. split; [|done]. unfold items. simpl. apply fmap_app.
Qed.

(** Erasing the oldest item. *)
Lemma erase_last_exact c : cache_inv c → items c ≠ [] →
  ∃ c', Erase_last c = Ret c' ∧ becomes c c' (take (length (items c) - 1) (items c)).
Proof.
  intros Hc Hne. unfold Erase_last, items in *. assert (ordering_ c ≠ []) as Ho by (by destruct (ordering_ c)).
  destruct (List.exists_last Ho) as (l0 & [n [k p]] & E0). rewrite E0, last_snoc. cbn [fst].
  destruct (erase_exact c n k p l0 [] Hc E0) as (c' & -> & Hb & _). exists c'. split; [done|].
  rewrite fmap_app, length_app. simpl. rewrite Nat.add_sub, take_app_length. simpl in Hb. by rewrite app_nil_r in Hb.
Qed.

Lemma shrink_loop_exact c n : cache_inv c → (n ≤ length (items c))%nat →
  ∃ c', shrink_loop c n = Ret c' ∧ becomes c c' (take (length (items c) - n) (items c)).
Proof.
  revert c. induction n as [|n IH]; intros c Hc Hn; cbn [shrink_loop].
  { exists c. split; [done|]. split; [done|]. by rewrite Nat.sub_0_r, firstn_all. }
  destruct (erase_last_exact c Hc) as (c1 & -> & Hc1 & E1 & Em1); [intros E; rewrite E in Hn; simpl in Hn; lia|]. rewrite bind_ret.
  destruct (IH c1 Hc1) as (c2 & -> & Hc2 & E2 & Em2); [rewrite E1, length_take; lia|]. exists c2. split; [done|].
  split; [done|]. split; [|congruence]. rewrite E2, E1, length_take, take_take. f_equal. lia.
Qed.

Lemma shrink_exact c s : cache_inv c → 0 ≤ s → ∃ c', ShrinkToSize c s = Ret c' ∧ becomes c c' (take (Z.to_nat s) (items c)).
Proof.
  intros Hc Hs. unfold ShrinkToSize. rewrite cache_size_exact, bind_ret by done.
  destruct (shrink_loop_exact c (Z.to_nat (Z.of_nat (length (items c)) - s)) Hc) as (c' & -> & Hc' & E & Em); [lia|].
  exists c'. split; [done|]. split; [done|]. split; [|done]. rewrite E.
  destruct (decide (Z.to_nat s ≤ length (items c))%nat); [f_equal; lia|]. rewrite !take_ge by lia. done.
Qed.

Lemma put_front_exact c k p : cache_inv c → index_ c !! k = None → becomes c (put_front c k p) ((k, p) :: items c).
Proof.
  intros Hc En. pose proof (index_none c k Hc En) as Hk. destruct Hc as (Hn & Hkk & Hi & Hb). unfold put_front. rewrite En.
  split; [|done]. unfold cache_inv. simpl. split_and!.
  - constructor; [|done]. intros Hin. specialize (Hb _ Hin). lia.
  - by constructor.
  - intros k' n'. destruct (decide (k' = k)) as [->|Hne].
    + rewrite lookup_insert_eq. split; [intros [= <-]; exists p; by left|]. intros (p' & Hin).
      apply list.elem_of_cons in Hin as [[= -> ->]|Hin]; [done|]. exfalso. apply Hk. unfold items. apply list_elem_of_fmap.
      exists (k, p'). split; [done|]. apply list_elem_of_fmap. by exists (n', (k, p')).
    + rewrite lookup_insert_ne by done. rewrite Hi. split; intros (p' & Hin); exists p'; [by right|].
      apply list.elem_of_cons in Hin as [[= -> -> ->]|Hin]; done.
  - intros n Hin. apply list.elem_of_cons in Hin as [->|Hin]; [lia|]. specialize (Hb n Hin). lia.
Qed.

(** ** Operations against their meaning *)

(** The oldest items go only when a new key comes. *)
Definition put_items (max : Z) (k : Key) (p : Payload) (l : items_t) : items_t :=
  (k, p) :: match find_item k l with
            | Some _ => without k l
            | None => if max =? 0 then l else take (Z.to_nat (max - 1)) l
            end.

Definition get_items (k : Key) (l : items_t) : items_t :=
  match find_item k l with Some p => (k, p) :: without k l | None => l end.

Lemma index_find c k : cache_inv c → index_ c !! k = None ↔ find_item k (items c) = None.
Proof.
  intros Hc. destruct (index_ c !! k) as [n|] eqn:E.
  - destruct (index_some c k n Hc E) as (p & l1 & l2 & _ & _ & _ & Ef & _). rewrite Ef. done.
  - split; [|done]. intros _. by apply find_item_none, index_none.
Qed.

Lemma take_index_none c c' k n : cache_inv c → becomes c c' (take n (items c)) → index_ c !! k = None → index_ c' !! k = None.
Proof.
  intros Hc (Hc' & E & _) En. apply (index_find c' k Hc'). apply find_item_none. rewrite E. intros Hin.
  apply (index_none c k Hc En). apply list_elem_of_fmap in Hin as (e & -> & Hin). apply list_elem_of_fmap_2.
  by apply (elem_of_take _ n) in Hin as (i & Hi & _); apply list_elem_of_lookup_2 in Hi.
Qed.

Lemma put_exact c k p : cache_inv c → 0 ≤ max_size_ c →
  ∃ c' it, Put c k p = Ret (c', it) ∧ becomes c c' (put_items (max_size_ c) k p (items c)) ∧
    it = index_ c' !! k ∧ it = begin_ c'.
Proof.
  intros Hc Hm. unfold Put, put_items.
  assert (∃ c1, match index_ c !! k with
    | Some n => Erase c n
    | None => if negb (max_size_ c =? NO_AUTO_EVICT) then ShrinkToSize c (max_size_ c - 1) else Ret c
    end = Ret c1 ∧ index_ c1 !! k = None ∧
    becomes c c1 (match find_item k (items c) with
      | Some _ => without k (items c)
      | None => if max_size_ c =? 0 then items c else take (Z.to_nat (max_size_ c - 1)) (items c) end)) as (c1 & -> & En & Hc1 & E1 & Em1).
  { destruct (index_ c !! k) as [n|] eqn:E.
    - destruct (index_some c k n Hc E) as (q & l1 & l2 & Eo & _ & _ & -> & ->).
      destruct (erase_exact c n k q l1 l2 Hc Eo) as (c1 & -> & Hb & En). by exists c1.
    - rewrite (proj1 (index_find c k Hc) E). unfold NO_AUTO_EVICT. destruct (Z.eqb_spec (max_size_ c) 0) as [Hz|Hnz]; cbn [negb].
      + by exists c.
      + destruct (shrink_exact c (max_size_ c - 1) Hc ltac:(lia)) as (c1 & -> & Hb). exists c1. split; [done|]. split; [|done].
        by apply (take_index_none c c1 k (Z.to_nat (max_size_ c - 1))). }
  rewrite bind_ret. destruct (put_front_exact c1 k p Hc1 En) as (Hc2 & E2 & Em2). do 2 eexists. split; [done|].
  split; [split; [done|]; split; [by rewrite E2, E1|congruence]|]. split; [|done]. unfold put_front, begin_. simpl. rewrite En. by rewrite lookup_insert_eq.
Qed.

Lemma get_exact c k : cache_inv c →
  ∃ c' it, Get c k = Ret (c', it) ∧ becomes c c' (get_items k (items c)) ∧ it = index_ c' !! k ∧ index_ c' = index_ c ∧
    (it ≠ None → it = begin_ c').
Proof.
  intros Hc. unfold Get, get_items. destruct (index_ c !! k) as [n|] eqn:E.
  - destruct (index_some c k n Hc E) as (p & l1 & l2 & Eo & Ef & Er & Efi & Ew). unfold splice_front, deref_node.
    rewrite Ef, !bind_ret, Er, Efi, Ew. do 2 eexists. split; [done|]. split_and!; try done. split; [|split; [|done]].
    + destruct Hc as (Hn & Hk & Hi & Hb). unfold cache_inv. simpl. assert (ordering_ c ≡ₚ (n, (k, p)) :: l1 ++ l2) as Hp by (rewrite Eo; by rewrite Permutation_middle).
      rewrite Hp in Hn. rewrite Hp in Hk. simpl in *. split_and!; [done|done| |].
      * intros k' n'. rewrite Hi. by setoid_rewrite Hp.
      * intros n' Hn'. apply Hb. by rewrite Hp.
    + unfold items. simpl. by rewrite fmap_app.
  - rewrite (proj1 (index_find c k Hc) E). do 2 eexists. split; [done|]. by split_and!.
Qed.

(** ** Sequences of operations *)

Inductive cache_op :=
| OPut (k : Key) (p : Payload) | OGet (k : Key)
| OErase (k : Key)            (* Erase(Peek(k)), when it is there *)
| OShrink (new_size : nat) | OClear.

Definition cache_apply (c : cache) (o : cache_op) : outcome cache :=
  match o with
  | OPut k p => '(c, _) ← Put c k p; Ret c
  | OGet k => '(c, _) ← Get c k; Ret c
  | OErase k => match Peek c k with Some n => Erase c n | None => Ret c end
  | OShrink s => ShrinkToSize c (Z.of_nat s)
  | OClear => Ret (Clear c)
  end.

Fixpoint cache_run (c : cache) (ops : list cache_op) : outcome cache :=
  match ops with [] => Ret c | o :: ops => c ← cache_apply c o; cache_run c ops end.

Definition items_apply (max : Z) (l : items_t) (o : cache_op) : items_t :=
  match o with
  | OPut k p => put_items max k p l
  | OGet k => get_items k l
  | OErase k => without k l
  | OShrink s => take s l
  | OClear => []
  end.

Definition within (max : Z) (l : items_t) : Prop := max ≠ 0 → Z.of_nat (length l) ≤ max.

Lemma without_length k l : (length (without k l) ≤ length l)%nat.
Proof. unfold without. induction l as [|e l IH]; simpl; [lia|]. destruct (bool_decide _); simpl; lia. Qed.

Lemma without_found k p l : find_item k l = Some p → (S (length (without k l)) ≤ length l)%nat.
Proof.
  unfold find_item, without. induction l as [|e l IH]; simpl; [done|]. destruct (bool_decide (e.1 = k)); simpl; intros E.
  - pose proof (without_length k l) as Hl. unfold without in Hl. lia.
  - specialize (IH E). lia.
Qed.

Lemma items_within max l o : 0 ≤ max → within max l → within max (items_apply max l o).
Proof.
  unfold within. intros Hm Hl Hnz. specialize (Hl Hnz). destruct o as [k p|k|k|s|]; simpl.
  - destruct (find_item k l) as [q|] eqn:E; [pose proof (without_found k q l E); lia|].
    rewrite (proj2 (Z.eqb_neq max 0)) by done. rewrite length_take. lia.
  - unfold get_items. destruct (find_item k l) as [q|] eqn:E; [pose proof (without_found k q l E); simpl; lia|done].
  - pose proof (without_length k l). lia.
  - rewrite length_take. lia.
  - lia.
Qed.

Lemma cache_apply_exact c o : cache_inv c → 0 ≤ max_size_ c →
  ∃ c', cache_apply c o = Ret c' ∧ becomes c c' (items_apply (max_size_ c) (items c) o).
Proof.
  intros Hc Hm. destruct o as [k p|k|k|s|]; simpl.
  - destruct (put_exact c k p Hc Hm) as (c' & it & -> & Hb & _). by exists c'.
  - destruct (get_exact c k Hc) as (c' & it & -> & Hb & _). by exists c'.
  - unfold Peek. destruct (index_ c !! k) as [n|] eqn:E.
    + destruct (index_some c k n Hc E) as (q & l1 & l2 & Eo & _ & _ & _ & ->).
      destruct (erase_exact c n k q l1 l2 Hc Eo) as (c' & -> & Hb & _). by exists c'.
    + exists c. split; [done|]. split; [done|]. by rewrite without_id by (by apply index_none).
  - destruct (shrink_exact c (Z.of_nat s) Hc ltac:(lia)) as (c' & -> & Hb). rewrite Nat2Z.id in Hb. by exists c'.
  - eexists. split; [done|]. split; [|done]. split_and!; simpl; [constructor|constructor| |intros n Hin; by apply list.not_elem_of_nil in Hin].
    intros k n. rewrite lookup_empty. split; [done|]. intros (p & Hin). by apply list.not_elem_of_nil in Hin.
Qed.

Lemma cache_run_exact c ops : cache_inv c → 0 ≤ max_size_ c → within (max_size_ c) (items c) →
  ∃ c', cache_run c ops = Ret c' ∧ becomes c c' (foldl (items_apply (max_size_ c)) (items c) ops) ∧ within (max_size_ c) (items c').
Proof.
  revert c. induction ops as [|o ops IH]; intros c Hc Hm Hw; [by exists c|]. simpl.
  destruct (cache_apply_exact c o Hc Hm) as (c1 & -> & Hc1 & E1 & Em). rewrite bind_ret.
  destruct (IH c1 Hc1) as (c' & -> & (Hc' & E' & Em') & Hw').
  { by rewrite Em. }
  { rewrite Em, E1. by apply items_within. }
  exists c'. split; [done|]. rewrite Em, E1 in E'. rewrite Em in Hw'. split; [|done]. split; [done|]. split; [done|congruence].
Qed.

Lemma init_cache_inv max : cache_inv (MRUCache_init max).
Proof.
  split_and!; simpl; [constructor|constructor| |intros n Hin; by apply list.not_elem_of_nil in Hin].
  intros k n. rewrite lookup_empty. split; [done|]. intros (p & Hin). by apply list.not_elem_of_nil in Hin.
Qed.

(** ** Recency *)

Definition forget (k : Key) (r : list Key) : list Key := List.filter (λ x, negb (bool_decide (x = k))) r.

Lemma forget_id k r : ¬ (k ∈ r) → forget k r = r.
Proof.
  unfold forget. induction r as [|x r IH]; [done|]. rewrite list.elem_of_cons. intros Hk. simpl. rewrite bool_decide_false by (intros ->; tauto). simpl.
  f_equal. apply IH. tauto.
Qed.

Lemma forget_app k a b : forget k (a ++ b) = forget k a ++ forget k b.
Proof. apply List.filter_app. Qed.

Lemma forget_elem k r x : x ∈ forget k r ↔ x ∈ r ∧ x ≠ k.
Proof. unfold forget. rewrite !list_elem_of_In, List.filter_In, negb_true_iff, bool_decide_eq_false. done. Qed.

Lemma forget_nodup k r : NoDup r → NoDup (k :: forget k r).
Proof.
  intros Hr. constructor; [rewrite forget_elem; tauto|]. unfold forget. rewrite NoDup_ListNoDup in *. by apply List.NoDup_filter.
Qed.

Lemma forget_cons k r : forget k (k :: r) = forget k r.
Proof. unfold forget. simpl. by rewrite bool_decide_true. Qed.

(** The [c] most recent keys after a use of [k], from those before it. *)
Lemma take_forget c k r : NoDup r →
  take c (forget k r) = if bool_decide (k ∈ take (S c) r) then forget k (take (S c) r) else take c r.
Proof.
  intros Hr. destruct (bool_decide_reflect (k ∈ take (S c) r)) as [Hin|Hout].
  - apply list_elem_of_split in Hin as (a & b & E). pose proof (take_drop (S c) r) as Er. rewrite E in Er.
    assert (length (a ++ k :: b) ≤ S c)%nat as Hlen by (rewrite <- E, length_take; lia). rewrite length_app in Hlen. simpl in Hlen.
    rewrite <- Er in Hr. apply list.NoDup_app in Hr as (Hr1 & Hr2 & _). pose proof (list.NoDup_app a (k :: b)) as Hab.
    apply Hab in Hr1 as (_ & Ha & Hb). apply list.NoDup_cons in Hb as [Hb _].
    assert (¬ (k ∈ a)) by (intros Hk; apply (Ha k Hk); by left).
    assert (¬ (k ∈ drop (S c) r)) by (apply Hr2, list.elem_of_app; right; by left).
    rewrite E, <- Er at 1. rewrite !forget_app, !forget_cons, !forget_id by done.
    assert (length (a ++ k :: b) = S c ∨ drop (S c) r = []) as [Hl|Hd].
    { destruct (decide (S c ≤ length r)%nat); [left; rewrite <- E, length_take; lia|right; apply drop_ge; lia]. }
    + rewrite length_app in Hl. simpl in Hl. apply take_app_length'. rewrite length_app. lia.
    + rewrite Hd, app_nil_r. apply take_ge. rewrite length_app. lia.
  - rewrite <- (take_drop (S c) r) at 1. rewrite forget_app, (forget_id k (take (S c) r)) by done.
    destruct (decide (S c ≤ length r)%nat).
    + rewrite take_app_le by (rewrite length_take; lia). rewrite take_take. f_equal. lia.
    + rewrite drop_ge, app_nil_r, take_take by lia. f_equal. lia.
Qed.

Inductive use := UPut (k : Key) (p : Payload) | UGet (k : Key).

Definition op_of_use (u : use) : cache_op := match u with UPut k p => OPut k p | UGet k => OGet k end.

(** Every key ever stored, the most recently used first; getting a key that is
    not in the cache is no use. *)
Definition recency (max : nat) (r : list Key) (u : use) : list Key :=
  match u with
  | UPut k _ => k :: forget k r
  | UGet k => if bool_decide (k ∈ take max r) then k :: forget k r else r
  end.

Lemma without_keys k l : (without k l).*1 = forget k l.*1.
Proof.
  unfold without, forget. induction l as [|e l IH]; [done|]. simpl. destruct (bool_decide (e.1 = k)); simpl; [exact IH|f_equal; exact IH].
Qed.

Lemma find_item_keys k l : find_item k l = None ↔ ¬ (k ∈ l.*1).
Proof.
  split; [|apply find_item_none]. unfold find_item. induction l as [|e l IH]; simpl; [intros _; apply list.not_elem_of_nil|].
  rewrite list.elem_of_cons. destruct (bool_decide_reflect (e.1 = k)) as [|Hne]; [done|]. intros E [?|?]; [congruence|by apply IH].
Qed.

Lemma recency_step c l r u : NoDup r → l.*1 = take (S c) r →
  NoDup (recency (S c) r u) ∧ (items_apply (Z.of_nat (S c)) l (op_of_use u)).*1 = take (S c) (recency (S c) r u).
Proof.
  intros Hr El. pose proof (take_forget c) as Hf. destruct u as [k p|k]; cbn [recency op_of_use items_apply].
  - split; [by apply forget_nodup|]. unfold put_items. rewrite fmap_cons. cbn [take fst]. f_equal. rewrite Hf, <- El by done.
    pose proof (find_item_keys k l) as Hk. destruct (find_item k l) as [q|].
    + rewrite bool_decide_true by (destruct (decide (k ∈ l.*1)); [done|]; exfalso; by apply Hk in n). apply without_keys.
    + rewrite bool_decide_false by tauto. rewrite (proj2 (Z.eqb_neq _ _)) by lia. replace (Z.to_nat (Z.of_nat (S c) - 1)) with c by lia.
      rewrite fmap_take, El, take_take. f_equal. lia.
  - unfold get_items. rewrite <- El. pose proof (find_item_keys k l) as Hk. destruct (find_item k l) as [q|].
    + rewrite bool_decide_true by (destruct (decide (k ∈ l.*1)); [done|]; exfalso; by apply Hk in n).
      split; [by apply forget_nodup|]. rewrite fmap_cons. cbn [take fst]. f_equal. rewrite Hf, <- El by done.
      rewrite bool_decide_true by (destruct (decide (k ∈ l.*1)); [done|]; exfalso; by apply Hk in n). apply without_keys.
    + rewrite bool_decide_false by tauto. done.
Qed.

Lemma recency_run c l r us : NoDup r → l.*1 = take (S c) r →
  (foldl (items_apply (Z.of_nat (S c))) l (op_of_use <$> us)).*1 = take (S c) (foldl (recency (S c)) r us).
Proof.
  revert l r. induction us as [|u us IH]; intros l r Hr El; [done|]. simpl. destruct (recency_step c l r u Hr El) as [Hr' El'].
  by apply IH.
Qed.

(** ** Properties *)

(** The linked list and the index stay together.  Any sequence of
    operations on a new cache returns; afterwards the items are those that the
    operations' meaning on a plain list gives, the index leads from every
    stored key to the list node that holds it and from no other key anywhere,
    so that no iterator is dangling, the two sizes agree, and a cache with a
    limit never holds more than that. *)
Theorem mru_cache_refines_list (max : Z) (ops : list cache_op) :
  0 ≤ max →
  ∃ c, cache_run (MRUCache_init max) ops = Ret c ∧ items c = foldl (items_apply max) [] ops ∧
    NoDup (items c).*1 ∧ cache_size c = Ret (length (items c)) ∧ (max ≠ 0 → Z.of_nat (length (items c)) ≤ max) ∧
    (∀ k, match Peek c k with
          | Some n => ∃ p, deref_node c n = Ret (k, p) ∧ find_item k (items c) = Some p
          | None => find_item k (items c) = None
          end).
Proof.
  intros Hm. destruct (cache_run_exact (MRUCache_init max) ops (init_cache_inv max) Hm) as (c & E & (Hc & El & _) & Hw); [by intros ?|].
  exists c. split; [done|]. split; [done|]. split; [apply Hc|]. split; [by apply cache_size_exact|]. split; [done|].
  intros k. unfold Peek. destruct (index_ c !! k) as [n|] eqn:En.
  - destruct (index_some c k n Hc En) as (p & l1 & l2 & _ & Ef & _ & Efi & _). exists p. unfold deref_node. by rewrite Ef.
  - by apply index_find.
Qed.

(** C30: The cache evicts the least recently used key.  After any sequence of
    [Put] and [Get] on a cache with limit [c + 1], the keys it holds, in the
    order of its list, are the first [c + 1] of all keys ever stored in the
    order of their last use. *)
Theorem mru_cache_is_lru (c : nat) (us : list use) :
  ∃ m, cache_run (MRUCache_init (Z.of_nat (S c))) (op_of_use <$> us) = Ret m ∧
    (items m).*1 = take (S c) (foldl (recency (S c)) [] us).
Proof.
  destruct (cache_run_exact (MRUCache_init (Z.of_nat (S c))) (op_of_use <$> us) (init_cache_inv _)) as (m & E & (_ & El & _) & _);
    [simpl; lia|intros ?; simpl; lia|].
  exists m. split; [done|]. rewrite El. apply (recency_run c [] []); [constructor|done].
Qed.
End Spec.

(** ** At concrete inputs *)

Lemma mru_cache_refines_list_witness :
  ∃ c, @cache_run Z Z _ _ debug_build (MRUCache_init 2) [OPut 1 10; OPut 2 20; OGet 1; OPut 3 30; OErase 1] = Ret c ∧
    items c = [(3, 30)] ∧ Z.of_nat (length (items c)) ≤ 2.
Proof.
  destruct (@mru_cache_refines_list Z Z _ _ debug_build 2 [OPut 1 10; OPut 2 20; OGet 1; OPut 3 30; OErase 1] ltac:(lia))
    as (c & E & El & _ & _ & Hl & _).
  exists c. split; [exact E|]. split; [exact El|]. exact (Hl ltac:(lia)).
Defined.
