(* ===== verification/RingBuffer.v ===== *)
(** * Ring buffer

    Model of [src/include/base/containers/ring_buffer.h]: a fixed array that
    keeps the last [kSize] values saved, with the number of values saved so far
    as its only state.  [size_t] is a parameter; the counter wraps with it. *)

From S2P Require Import Prelude BaseNumerics.

Section Ring.
Context {T : Type} (kSize : Z) (size_t : int_type).

Record RingBuffer := mkRing { buffer_ : list T; current_index_ : Z }.

(** The array exists from the start, with values of the client's default. *)
Definition RingBuffer_init (array : list T) : RingBuffer := mkRing array 0.

Definition BufferIndex (r : RingBuffer) (n : Z) : Z := convert size_t (current_index_ r + n) mod kSize.

Definition IsFilledIndexByBufferIndex (r : RingBuffer) (buffer_index : Z) : bool := buffer_index <? current_index_ r.

Definition IsFilledIndex (r : RingBuffer) (n : Z) : bool := IsFilledIndexByBufferIndex r (BufferIndex r n).

Definition buffer_at (r : RingBuffer) (i : Z) : outcome T :=
  match buffer_ r !! Z.to_nat i with Some v => Ret v | None => Crash OutOfBounds end.

Definition ReadBuffer (r : RingBuffer) (n : Z) : outcome T :=
  let buffer_index := BufferIndex r n in
  _ ← RTC_CHECK (IsFilledIndexByBufferIndex r buffer_index);
  buffer_at r buffer_index.

(** [*MutableReadBuffer(n) = value]. *)
Definition MutableReadBuffer_set (r : RingBuffer) (n : Z) (value : T) : outcome RingBuffer :=
  let buffer_index := BufferIndex r n in
  _ ← RTC_CHECK (IsFilledIndexByBufferIndex r buffer_index);
  _ ← buffer_at r buffer_index;
  Ret (mkRing (<[Z.to_nat buffer_index := value]> (buffer_ r)) (current_index_ r)).

Definition SaveToBuffer (r : RingBuffer) (value : T) : outcome RingBuffer :=
  let i := BufferIndex r 0 in
  _ ← buffer_at r i;
  Ret (mkRing (<[Z.to_nat i := value]> (buffer_ r)) (convert size_t (current_index_ r + 1))).

Definition Clear (r : RingBuffer) : RingBuffer := mkRing (buffer_ r) 0.

(** ** Iterators *)

Record Iterator := mkIter { index_ : Z; out_of_range_ : bool }.

Definition Begin (r : RingBuffer) : Iterator :=
  if current_index_ r <? kSize then mkIter (convert size_t (kSize - current_index_ r)) false else mkIter 0 false.

Definition End (r : RingBuffer) : Iterator := mkIter (kSize - 1) false.

Definition it_next (it : Iterator) : Iterator :=
  let i := convert size_t (index_ it + 1) in
  mkIter i (if i =? kSize then true else out_of_range_ it).

Definition it_prev (it : Iterator) : Iterator :=
  mkIter (convert size_t (index_ it - 1)) (if index_ it =? 0 then true else out_of_range_ it).

Definition it_bool (r : RingBuffer) (it : Iterator) : bool := negb (out_of_range_ it) && IsFilledIndex r (index_ it).

Definition it_deref (r : RingBuffer) (it : Iterator) : outcome T := ReadBuffer r (index_ it).

(** [for (it = start; it; step) use( *it)]; the values used. *)
Fixpoint ring_loop (fuel : nat) (step : Iterator → Iterator) (r : RingBuffer) (it : Iterator) : outcome (list T) :=
  match fuel with
  | O => Ret []
  | S fuel => if it_bool r it then v ← it_deref r it; vs ← ring_loop fuel step r (step it); Ret (v :: vs) else Ret []
  end.
End Ring.

Section Spec.
Context {T : Type} (kSize : Z) (size_t : int_type) (Hk : 0 < kSize) (Hst : is_std size_t) (Hun : it_signed size_t = false).

#[local] Abbreviation ring := (RingBuffer (T := T)).

(** The buffer holds the last values saved, the value saved as number [j] at
    [j mod kSize]. *)
Definition ring_inv (r : ring) (saved : list T) : Prop :=
  Z.of_nat (length (buffer_ r)) = kSize ∧ current_index_ r = Z.of_nat (length saved) ∧
  Z.of_nat (length saved) + kSize ≤ int_max size_t ∧
  ∀ j, 0 ≤ j → Z.of_nat (length saved) - kSize ≤ j < Z.of_nat (length saved) →
    buffer_ r !! Z.to_nat (j mod kSize) = saved !! Z.to_nat j.

(** The last values, at most [kSize] of them. *)
Definition window (saved : list T) : list T := drop (length saved - Z.to_nat kSize) saved.

(** The number, among the values saved, of the one at index [n]. *)
Definition number_at (saved : list T) (n : Z) : Z := Z.of_nat (length saved) + n mod kSize - kSize.

Lemma convert_size z : 0 ≤ z ≤ int_max size_t → convert size_t z = z.
Proof using Hst Hun. intros Hz. apply std_convert; [done|]. unfold values, int_min. rewrite Hun. lia. Qed.

Lemma buffer_index_exact r saved n : ring_inv r saved → 0 ≤ n → Z.of_nat (length saved) + n ≤ int_max size_t →
  BufferIndex kSize size_t r n = number_at saved n mod kSize ∧
  IsFilledIndexByBufferIndex r (BufferIndex kSize size_t r n) = (0 <=? number_at saved n).
Proof using Hk Hst Hun.
  intros (_ & Ec & _) Hn Hmax. unfold BufferIndex, IsFilledIndexByBufferIndex, number_at. rewrite convert_size by lia. rewrite Ec.
  set (N := Z.of_nat (length saved)). assert (0 ≤ N) by lia. pose proof (Z.mod_pos_bound n kSize Hk) as Hm.
  assert ((N + n) mod kSize = (N + n mod kSize - kSize) mod kSize) as E.
  { rewrite <- (Z.add_mod_idemp_r N n) by lia. replace (N + n mod kSize - kSize) with (N + n mod kSize + (-1) * kSize) by lia.
    by rewrite Z.mod_add by lia. }
  split; [done|]. rewrite E. destruct (Z.leb_spec 0 (N + n mod kSize - kSize)) as [Hj|Hj].
  - apply Z.ltb_lt. pose proof (Z.mod_le (N + n mod kSize - kSize) kSize Hj Hk). lia.
  - apply Z.ltb_ge. replace (N + n mod kSize - kSize) with (N + n mod kSize + (-1) * kSize) by lia.
    rewrite Z.mod_add, Z.mod_small by lia. lia.
Qed.

Lemma buffer_at_exact r saved j : ring_inv r saved → 0 ≤ j → Z.of_nat (length saved) - kSize ≤ j < Z.of_nat (length saved) →
  ∃ v, saved !! Z.to_nat j = Some v ∧ buffer_at r (j mod kSize) = Ret v.
Proof using Hk.
  intros (_ & _ & _ & Hb) Hj Hw. destruct (list.lookup_lt_is_Some_2 saved (Z.to_nat j)) as [v Hv]; [lia|]. exists v. split; [done|].
  unfold buffer_at. by rewrite Hb, Hv by done.
Qed.

Lemma read_exact r saved n : ring_inv r saved → 0 ≤ n → Z.of_nat (length saved) + n ≤ int_max size_t →
  if 0 <=? number_at saved n
  then ∃ v, saved !! Z.to_nat (number_at saved n) = Some v ∧ ReadBuffer kSize size_t r n = Ret v
  else ReadBuffer kSize size_t r n = Crash CheckFailed.
Proof using Hk Hst Hun.
  intros Hr Hn Hmax. destruct (buffer_index_exact r saved n Hr Hn Hmax) as [Ei Ef]. unfold ReadBuffer. rewrite Ef, Ei.
  destruct (Z.leb_spec 0 (number_at saved n)) as [Hj|Hj]; [|done]. rewrite check_pass, bind_ret by done.
  apply buffer_at_exact; [done|done|]. unfold number_at. pose proof (Z.mod_pos_bound n kSize Hk). lia.
Qed.

Lemma mod_window a b : 0 ≤ a → 0 ≤ b → a mod kSize = b mod kSize → - kSize < a - b < kSize → a = b.
Proof using Hk.
  intros Ha Hb E Hab. pose proof (Z.div_mod a kSize ltac:(lia)). pose proof (Z.div_mod b kSize ltac:(lia)).
  assert (a / kSize = b / kSize) by nia. lia.
Qed.

Lemma save_exact r saved v : ring_inv r saved → Z.of_nat (S (length saved)) + kSize ≤ int_max size_t →
  ∃ r', SaveToBuffer kSize size_t r v = Ret r' ∧ ring_inv r' (saved ++ [v]).
Proof using Hk Hst Hun.
  intros Hr Hmax. pose proof Hr as (El & Ec & _ & Hb). set (N := Z.of_nat (length saved)) in *. assert (0 ≤ N) by lia.
  unfold SaveToBuffer, BufferIndex. rewrite Ec, Z.add_0_r, !convert_size by lia. pose proof (Z.mod_pos_bound N kSize Hk) as Hm.
  unfold buffer_at. destruct (list.lookup_lt_is_Some_2 (buffer_ r) (Z.to_nat (N mod kSize))) as [w ->]; [lia|]. rewrite bind_ret.
  eexists. split; [done|]. unfold ring_inv. simpl. rewrite length_insert, length_app. simpl. split_and!; [done|lia|lia|].
  intros j Hj0 Hj. destruct (Z.eq_dec j N) as [->|Hne].
  - rewrite list_lookup_insert_eq by lia. symmetry. apply list_lookup_middle. lia.
  - rewrite list_lookup_insert_ne.
    + rewrite Hb by lia. symmetry. apply list.lookup_app_l. lia.
    + pose proof (Z.mod_pos_bound j kSize Hk). intros E. apply Hne. apply Z2Nat.inj in E; [|lia..]. apply mod_window; lia.
Qed.

Lemma set_exact r saved n v : ring_inv r saved → 0 ≤ n → Z.of_nat (length saved) + n ≤ int_max size_t → 0 ≤ number_at saved n →
  ∃ r', MutableReadBuffer_set kSize size_t r n v = Ret r' ∧ ring_inv r' (<[Z.to_nat (number_at saved n) := v]> saved).
Proof using Hk Hst Hun.
  intros Hr Hn Hmax Hj. destruct (buffer_index_exact r saved n Hr Hn Hmax) as [Ei Ef]. unfold MutableReadBuffer_set. rewrite Ef, Ei.
  rewrite check_pass, bind_ret by lia. pose proof (Z.mod_pos_bound n kSize Hk) as Hm.
  assert (Z.of_nat (length saved) - kSize ≤ number_at saved n < Z.of_nat (length saved)) as Hw by (unfold number_at; lia).
  destruct (buffer_at_exact r saved _ Hr Hj Hw) as (w & _ & ->). rewrite bind_ret. eexists. split; [done|].
  destruct Hr as (El & Ec & Hc & Hb). set (j := number_at saved n) in *. unfold ring_inv. simpl. rewrite !length_insert. split_and!; [done..|].
  intros i Hi0 Hi. pose proof (Z.mod_pos_bound i kSize Hk). pose proof (Z.mod_pos_bound j kSize Hk). destruct (Z.eq_dec i j) as [->|Hne].
  - rewrite !list_lookup_insert_eq by lia. done.
  - rewrite !list_lookup_insert_ne; [by apply Hb|lia|]. intros E. apply Hne. apply Z2Nat.inj in E; [|lia..]. apply mod_window; lia.
Qed.

(** ** Iteration *)

(** Whether an iterator is at a value, and at which. *)
Lemma it_exact r saved i : ring_inv r saved → 0 ≤ i < kSize →
  it_bool kSize size_t r (mkIter i false) = (0 <=? Z.of_nat (length saved) + i - kSize) ∧
  (0 ≤ Z.of_nat (length saved) + i - kSize → ∃ v, saved !! Z.to_nat (Z.of_nat (length saved) + i - kSize) = Some v ∧
    it_deref kSize size_t r (mkIter i false) = Ret v).
Proof using Hk Hst Hun.
  intros Hr Hi. pose proof Hr as (_ & _ & Hmax & _). assert (number_at saved i = Z.of_nat (length saved) + i - kSize) as En
    by (unfold number_at; by rewrite Z.mod_small).
  pose proof (buffer_index_exact r saved i Hr ltac:(lia) ltac:(lia)) as [_ Ef]. pose proof (read_exact r saved i Hr ltac:(lia) ltac:(lia)) as Er.
  rewrite En in *. unfold it_bool, IsFilledIndex, it_deref. simpl. split; [done|]. intros Hj. by rewrite (proj2 (Z.leb_le _ _) Hj) in Er.
Qed.

Lemma forward_exact r saved fuel i : ring_inv r saved → 0 ≤ i < kSize → 0 ≤ Z.of_nat (length saved) + i - kSize → (Z.to_nat (kSize - i) < fuel)%nat →
  ring_loop kSize size_t fuel (it_next kSize size_t) r (mkIter i false) = Ret (drop (Z.to_nat (Z.of_nat (length saved) + i - kSize)) saved).
Proof using Hk Hst Hun.
  intros Hr. revert i. induction fuel as [|fuel IH]; intros i Hi Hj Hf; [lia|]. pose proof Hr as (_ & _ & Hmax & _).
  destruct (it_exact r saved i Hr Hi) as [Eb Ed]. destruct (Ed Hj) as (v & Hv & Edv). cbn [ring_loop].
  rewrite Eb, (proj2 (Z.leb_le _ _) Hj), Edv, bind_ret. unfold it_next. cbn [index_ out_of_range_]. rewrite convert_size by lia.
  rewrite (drop_S _ v) by done. destruct (Z.eqb_spec (i + 1) kSize) as [He|He].
  - assert (ring_loop kSize size_t fuel (it_next kSize size_t) r (mkIter (i + 1) true) = Ret []) as E by (by destruct fuel).
    unfold it_next in E. rewrite E, bind_ret. rewrite drop_ge by lia. done.
  - unfold it_next in IH. rewrite IH by lia. rewrite bind_ret. do 3 f_equal. lia.
Qed.

Lemma backward_exact r saved fuel i : ring_inv r saved → 0 ≤ i < kSize → (S (Z.to_nat i) < fuel)%nat →
  ring_loop kSize size_t fuel (it_prev size_t) r (mkIter i false) =
  Ret (reverse (drop (length saved - Z.to_nat kSize) (take (Z.to_nat (Z.of_nat (length saved) + i - kSize + 1)) saved))).
Proof using Hk Hst Hun.
  intros Hr. revert i. induction fuel as [|fuel IH]; intros i Hi Hf; [lia|]. pose proof Hr as (_ & _ & Hmax & _). cbn [ring_loop].
  destruct (it_exact r saved i Hr Hi) as [Eb Ed]. rewrite Eb. destruct (Z.leb_spec 0 (Z.of_nat (length saved) + i - kSize)) as [Hj|Hj].
  2:{ replace (Z.to_nat (Z.of_nat (length saved) + i - kSize + 1)) with 0%nat by lia. rewrite take_0, drop_nil. done. }
  destruct (Ed Hj) as (v & Hv & Edv). rewrite Edv, bind_ret. set (j := Z.to_nat (Z.of_nat (length saved) + i - kSize)) in *.
  replace (Z.to_nat (Z.of_nat (length saved) + i - kSize + 1)) with (S j) by lia. rewrite (take_S_r _ _ v Hv).
  assert (j < length saved)%nat as Hjl by (by apply list.lookup_lt_Some in Hv).
  rewrite drop_app_le by (rewrite length_take; lia). rewrite reverse_snoc. unfold it_prev. cbn [index_ out_of_range_].
  destruct (Z.eqb_spec i 0) as [->|He].
  - assert (∀ k, ring_loop kSize size_t fuel (it_prev size_t) r (mkIter k true) = Ret []) as E by (intros k; by destruct fuel).
    unfold it_prev in E. rewrite E, bind_ret. rewrite drop_ge by (rewrite length_take; lia). done.
  - rewrite convert_size by lia. unfold it_prev in IH. rewrite IH by lia. rewrite bind_ret. do 5 f_equal. lia.
Qed.

(** ** Sequences of operations *)

Inductive ring_op :=
| RSave (v : T) | RClear
| RModify (n : Z) (v : T).     (* through MutableReadBuffer, if the index is filled *)

Definition ring_apply (r : ring) (o : ring_op) : outcome ring :=
  match o with
  | RSave v => SaveToBuffer kSize size_t r v
  | RClear => Ret (Clear r)
  | RModify n v => if IsFilledIndex kSize size_t r n then MutableReadBuffer_set kSize size_t r n v else Ret r
  end.

Fixpoint ring_run (r : ring) (ops : list ring_op) : outcome ring :=
  match ops with [] => Ret r | o :: ops => r ← ring_apply r o; ring_run r ops end.

(** The values saved since the buffer was cleared. *)
Definition saved_apply (saved : list T) (o : ring_op) : list T :=
  match o with
  | RSave v => saved ++ [v]
  | RClear => []
  | RModify n v => if 0 <=? number_at saved n then <[Z.to_nat (number_at saved n) := v]> saved else saved
  end.

Definition op_ok (o : ring_op) : Prop := match o with RModify n _ => 0 ≤ n < kSize | _ => True end.

Lemma ring_apply_exact r saved o : ring_inv r saved → op_ok o → Z.of_nat (S (length saved)) + kSize ≤ int_max size_t →
  ∃ r', ring_apply r o = Ret r' ∧ ring_inv r' (saved_apply saved o) ∧ (length (saved_apply saved o) ≤ S (length saved))%nat.
Proof using Hk Hst Hun.
  intros Hr Ho Hmax. destruct o as [v| |n v]; simpl in *.
  - destruct (save_exact r saved v Hr Hmax) as (r' & -> & Hr'). exists r'. split_and!; [done|done|]. rewrite length_app. simpl. lia.
  - eexists. split; [done|]. split; [|simpl; lia]. destruct Hr as (El & _). split_and!; simpl; [done|done|lia|]. intros j Hj0 Hj. lia.
  - destruct (buffer_index_exact r saved n Hr ltac:(lia) ltac:(lia)) as [_ Ef]. unfold IsFilledIndex. rewrite Ef.
    destruct (Z.leb_spec 0 (number_at saved n)) as [Hj|Hj].
    + destruct (set_exact r saved n v Hr ltac:(lia) ltac:(lia) Hj) as (r' & -> & Hr'). exists r'. split_and!; [done|done|]. rewrite length_insert. lia.
    + exists r. split_and!; [done|done|lia].
Qed.

Lemma ring_run_exact r saved ops : ring_inv r saved → Forall op_ok ops → Z.of_nat (length saved + length ops) + kSize ≤ int_max size_t →
  ∃ r', ring_run r ops = Ret r' ∧ ring_inv r' (foldl saved_apply saved ops).
Proof using Hk Hst Hun.
  revert r saved. induction ops as [|o ops IH]; intros r saved Hr Ho Hmax; [by exists r|]. apply list.Forall_cons in Ho as [Ho Hos]. simpl in *.
  destruct (ring_apply_exact r saved o Hr Ho ltac:(lia)) as (r1 & -> & Hr1 & Hl). rewrite bind_ret. apply IH; [done|done|lia].
Qed.

Lemma ring_init array : Z.of_nat (length array) = kSize → kSize ≤ int_max size_t → ring_inv (RingBuffer_init array) [].
Proof using Hk. intros Hl Hm. split_and!; simpl; [done|done|lia|]. intros j Hj0 Hj. lia. Qed.

Lemma window_number saved n : 0 ≤ n < kSize → 0 ≤ number_at saved n →
  saved !! Z.to_nat (number_at saved n) = window saved !! Z.to_nat (n - (kSize - Z.of_nat (length (window saved)))).
Proof using Hk.
  intros Hn Hj. unfold window, number_at in *. rewrite Z.mod_small in * by lia. rewrite lookup_drop, length_drop. f_equal. lia.
Qed.

(** A ring buffer keeps the last [kSize] values.  After any saves, changes
    in place and clearings, fewer than [size_t] can count, the forward loop gives
    the values saved since the last clearing, at most [kSize] of them, from the
    oldest to the newest, and the backward loop the same reversed; index [n]
    reads the value [n] places behind the oldest possible one, so that
    [kSize - 1] is the newest, and a read where nothing was saved stops the
    program. *)
Theorem ring_buffer_keeps_last (array : list T) (ops : list ring_op) (fuel : nat) :
  Z.of_nat (length array) = kSize → Forall op_ok ops → Z.of_nat (length ops) + kSize ≤ int_max size_t →
  (Z.to_nat kSize < fuel)%nat →
  ∃ r, ring_run (RingBuffer_init array) ops = Ret r ∧
    let w := window (foldl saved_apply [] ops) in
    ring_loop kSize size_t fuel (it_next kSize size_t) r (Begin kSize size_t r) = Ret w ∧
    ring_loop kSize size_t fuel (it_prev size_t) r (End kSize r) = Ret (reverse w) ∧
    (∀ n, 0 ≤ n < kSize →
      ReadBuffer kSize size_t r n =
        match (if kSize - Z.of_nat (length w) <=? n then w !! Z.to_nat (n - (kSize - Z.of_nat (length w))) else None) with
        | Some v => Ret v
        | None => Crash CheckFailed
        end).
Proof using Hk Hst Hun.
  intros Ha Ho Hmax Hf. destruct (ring_run_exact (RingBuffer_init array) [] ops) as (r & E & Hr); [apply ring_init; lia|done|simpl; lia|].
  exists r. split; [done|]. intros w. set (saved := foldl saved_apply [] ops) in *. pose proof Hr as (_ & Ec & Hc & _).
  assert (length w = Nat.min (length saved) (Z.to_nat kSize)) as Hlw by (unfold w, window; rewrite length_drop; lia). split_and!.
  - unfold Begin. rewrite Ec. destruct (Z.ltb_spec (Z.of_nat (length saved)) kSize) as [Hlt|Hge].
    + rewrite convert_size by lia. destruct (decide (length saved = 0)%nat) as [H0|Hn0].
      * destruct fuel as [|fuel]; [lia|]. cbn [ring_loop]. assert (it_bool kSize size_t r (mkIter (kSize - Z.of_nat (length saved)) false) = false) as ->.
        { unfold it_bool, IsFilledIndex, IsFilledIndexByBufferIndex, BufferIndex. simpl. rewrite Ec. apply Z.ltb_ge. rewrite H0.
          apply Z.mod_pos_bound. lia. }
        unfold w, window. by rewrite drop_ge by lia.
      * rewrite (forward_exact r saved) by (done || lia). unfold w, window. do 2 f_equal. lia.
    + rewrite (forward_exact r saved) by (done || lia). unfold w, window. do 2 f_equal. lia.
  - unfold End. rewrite (backward_exact r saved) by (done || lia). rewrite take_ge by lia. done.
  - intros n Hn. pose proof (read_exact r saved n Hr ltac:(lia) ltac:(lia)) as Er. pose proof (window_number saved n Hn) as Hwn. fold w in Hwn.
    assert ((kSize - Z.of_nat (length w) <=? n) = (0 <=? number_at saved n)) as ->.
    { rewrite Hlw. unfold number_at. rewrite Z.mod_small by lia. apply eq_iff_eq_true. rewrite !Z.leb_le. lia. }
    destruct (Z.leb_spec 0 (number_at saved n)) as [Hj|Hj]; [|done]. destruct Er as (v & Ev & Er). rewrite <- Hwn, Ev by done. done.
Qed.
End Spec.

(** ** At concrete inputs *)

Lemma ring_buffer_keeps_last_witness :
  ∃ r, ring_run 3 uint32_t (RingBuffer_init [0; 0; 0]) [RSave 1; RSave 2; RSave 3; RSave 4; RModify 2 5] = Ret r ∧
    ring_loop 3 uint32_t 4 (it_next 3 uint32_t) r (Begin 3 uint32_t r) = Ret [2; 3; 5] ∧
    ring_loop 3 uint32_t 4 (it_prev uint32_t) r (End 3 r) = Ret [5; 3; 2].
Proof.
  destruct (ring_buffer_keeps_last 3 uint32_t ltac:(lia) ltac:(unfold is_std, std_types; simpl; tauto) eq_refl [0; 0; 0]
    [RSave 1; RSave 2; RSave 3; RSave 4; RModify 2 5] 4) as (r & E & H1 & H2 & _); [done| |by vm_compute|simpl; lia|].
  - repeat (constructor; [simpl; lia|]). constructor.
  - exists r. split; [exact E|]. split; [exact H1|exact H2].
Defined.
