(* ===== verification/RefCounted.v ===== *)
(** * Reference counting

    Model of [src/include/rtc_base/ref_counter.h] and [ref_counted_object.h]
    with the smart pointer of [src/include/api/scoped_refptr.h], used by any
    number of threads.  A thread owns an array of [scoped_refptr] objects; a
    member function runs as the sequence of its atomic actions ([micro]), which
    the actions of the other threads interleave: an increment, a decrement,
    [delete this] after the decrement that reached zero, the writes of the
    pointer.  Handles pass between threads by moves that the client
    synchronises.  The counter is a 32-bit atomic and wraps. *)

From stdpp Require Import gmap.
From S2P Require Import Prelude BaseNumerics.

(** ** The counter *)

Inductive RefCountReleaseStatus := kDroppedLastRef | kOtherRefsRemained.

#[export] Instance status_eq_dec : EqDecision RefCountReleaseStatus.
Proof. solve_decision. Defined.

Definition IncRef (ref_count : Z) : Z := convert int32_t (ref_count + 1).

(** The counter after [fetch_sub], and what is returned. *)
Definition DecRef (ref_count : Z) : outcome (Z * RefCountReleaseStatus) :=
  ref_count_after_subtract ← arith int32_t (ref_count - 1);
  Ret (convert int32_t (ref_count - 1), if ref_count_after_subtract =? 0 then kDroppedLastRef else kOtherRefsRemained).

Definition HasOneRef (ref_count : Z) : bool := ref_count =? 1.

(** ** Threads and objects *)

(** The address of an object. *)
Definition object := positive.

Inductive micro :=
| AddRef (p : object)
| Release (p : object)
| Delete (p : object)                       (* delete this *)
| SetPtr (i : nat) (p : option object).     (* ptr_ = p of the handle i *)

Record thread := mkThread { handles : list (option object); pending : list micro }.

(** The objects that exist, with their counters. *)
Record state := mkState { objects : gmap object Z; threads : list thread }.

Definition counter (s : state) (p : object) : outcome Z :=
  match objects s !! p with Some c => Ret c | None => Crash OutOfBounds end.

(** One atomic action of a thread, whose other pending actions are [rest]. *)
Definition exec (s : state) (th : thread) (a : micro) (rest : list micro) : outcome (gmap object Z * thread) :=
  match a with
  | AddRef p => c ← counter s p; Ret (<[p := IncRef c]> (objects s), mkThread (handles th) rest)
  | Release p =>
      c ← counter s p;
      '(c, status) ← DecRef c;
      Ret (<[p := c]> (objects s),
           mkThread (handles th) (if bool_decide (status = kDroppedLastRef) then Delete p :: rest else rest))
  | Delete p => _ ← counter s p; Ret (delete p (objects s), mkThread (handles th) rest)
  | SetPtr i p => Ret (objects s, mkThread (<[i := p]> (handles th)) rest)
  end.

(** ** The member functions of [scoped_refptr] *)

Definition get (hs : list (option object)) (i : nat) : option object := default None (hs !! i).

(** [if (p) p->AddRef();], [if (p) p->Release();]. *)
Definition add_ref (p : option object) : list micro := match p with Some p => [AddRef p] | None => [] end.
Definition release_ref (p : option object) : list micro := match p with Some p => [Release p] | None => [] end.

(** The copy constructor of handle [i] from [j]. *)
Definition copy_construct (hs : list (option object)) (i j : nat) : list micro :=
  let p := get hs j in SetPtr i p :: add_ref p.

(** The move constructor: [ptr_(r.release())]. *)
Definition move_construct (hs : list (option object)) (i j : nat) : list micro :=
  let p := get hs j in [SetPtr j None; SetPtr i p].

(** The destructor; the handle is gone, which a null pointer stands for. *)
Definition destroy (hs : list (option object)) (i : nat) : list micro := release_ref (get hs i) ++ [SetPtr i None].

(** [operator=(T* p)]. *)
Definition assign_raw (hs : list (option object)) (i : nat) (p : option object) : list micro :=
  add_ref p ++ release_ref (get hs i) ++ [SetPtr i p].

(** [operator=(const scoped_refptr&)]. *)
Definition assign_copy (hs : list (option object)) (i j : nat) : list micro := assign_raw hs i (get hs j).

(** [operator=(scoped_refptr&&)]: [scoped_refptr<T>(std::move(r)).swap( *this)],
    with the destructor of the temporary. *)
Definition assign_move (hs : list (option object)) (i j : nat) : list micro :=
  let temp := get hs j in
  let mine := if Nat.eqb i j then None else get hs i in
  [SetPtr j None; SetPtr i temp] ++ release_ref mine.

Definition swap (hs : list (option object)) (i j : nat) : list micro := [SetPtr i (get hs j); SetPtr j (get hs i)].

Inductive call :=
| CCopy (i j : nat) | CMove (i j : nat) | CDestroy (i : nat)
| CAssign (i j : nat) | CAssignNull (i : nat) | CAssignMove (i j : nat) | CSwap (i j : nat).

(** The actions of a call; a constructor builds a handle that is not there yet. *)
Definition actions (hs : list (option object)) (c : call) : option (list micro) :=
  let n := length hs in
  let ok (i : nat) := bool_decide (i < n)%nat in
  let fresh (i : nat) := ok i && bool_decide (get hs i = None) in
  match c with
  | CCopy i j => if fresh i && ok j && negb (Nat.eqb i j) then Some (copy_construct hs i j) else None
  | CMove i j => if fresh i && ok j && negb (Nat.eqb i j) then Some (move_construct hs i j) else None
  | CDestroy i => if ok i then Some (destroy hs i) else None
  | CAssign i j => if ok i && ok j then Some (assign_copy hs i j) else None
  | CAssignNull i => if ok i then Some (assign_raw hs i None) else None
  | CAssignMove i j => if ok i && ok j then Some (assign_move hs i j) else None
  | CSwap i j => if ok i && ok j then Some (swap hs i j) else None
  end.

Definition set_thread (s : state) (t : nat) (th : thread) : state := mkState (objects s) (<[t := th]> (threads s)).

Inductive step : state → state → Prop :=
(** A thread that is not inside a call starts one. *)
| step_call s t hs c acts :
    threads s !! t = Some (mkThread hs []) → actions hs c = Some acts →
    step s (set_thread s t (mkThread hs acts))
(** The next atomic action of a thread. *)
| step_action s t hs a rest objs th :
    threads s !! t = Some (mkThread hs (a :: rest)) → exec s (mkThread hs (a :: rest)) a rest = Ret (objs, th) →
    step s (mkState objs (<[t := th]> (threads s)))
(** [scoped_refptr<T> i(new RefCountedObject<T>())]: nobody else knows the new
    object before the constructor has taken its reference. *)
| step_new s t hs i p :
    threads s !! t = Some (mkThread hs []) → (i < length hs)%nat → get hs i = None → objects s !! p = None →
    step s (mkState (<[p := IncRef 0]> (objects s)) (<[t := mkThread (<[i := Some p]> hs) []]> (threads s)))
(** A handle is moved to a handle of another thread. *)
| step_send s t1 t2 hs1 hs2 i j :
    t1 ≠ t2 → threads s !! t1 = Some (mkThread hs1 []) → threads s !! t2 = Some (mkThread hs2 []) →
    (i < length hs1)%nat → (j < length hs2)%nat → get hs2 j = None →
    step s (mkState (objects s)
      (<[t1 := mkThread (<[i := None]> hs1) []]> (<[t2 := mkThread (<[j := get hs1 i]> hs2) []]> (threads s)))).

(** [n] threads with [m] handles each. *)
Definition init (n m : nat) : state := mkState ∅ (replicate n (mkThread (replicate m None) [])).

Inductive reachable (n m : nat) : state → Prop :=
| reach_init : reachable n m (init n m)
| reach_step s s' : reachable n m s → step s s' → reachable n m s'.

(** ** What a thread holds *)

Fixpoint occ (hs : list (option object)) (p : object) : Z :=
  match hs with
  | [] => 0
  | h :: hs => (if bool_decide (h = Some p) then 1 else 0) + occ hs p
  end.

Fixpoint adds (pc : list micro) (p : object) : Z :=
  match pc with
  | [] => 0
  | AddRef q :: pc => (if bool_decide (q = p) then 1 else 0) + adds pc p
  | _ :: pc => adds pc p
  end.

Fixpoint releases (pc : list micro) (p : object) : Z :=
  match pc with
  | [] => 0
  | Release q :: pc => (if bool_decide (q = p) then 1 else 0) + releases pc p
  | _ :: pc => releases pc p
  end.

Fixpoint deletes (pc : list micro) (p : object) : Z :=
  match pc with
  | [] => 0
  | Delete q :: pc => (if bool_decide (q = p) then 1 else 0) + deletes pc p
  | _ :: pc => deletes pc p
  end.

(** The handles once the pending actions are done. *)
Fixpoint final (hs : list (option object)) (pc : list micro) : list (option object) :=
  match pc with
  | [] => hs
  | SetPtr i p :: pc => final (<[i := p]> hs) pc
  | _ :: pc => final hs pc
  end.

(** The references a thread owns: those of the handles it will have, less those
    it has still to take, and those it has still to give back. *)
Definition owned (th : thread) (p : object) : Z :=
  occ (final (handles th) (pending th)) p - adds (pending th) p + releases (pending th) p.

Definition mentions (th : thread) (p : object) : Prop :=
  0 < occ (final (handles th) (pending th)) p ∨ 0 < adds (pending th) p ∨ 0 < releases (pending th) p.

(** References are taken before any is given back. *)
Fixpoint ordered (pc : list micro) : Prop :=
  match pc with
  | [] => True
  | Release _ :: pc => (∀ p, adds pc p = 0) ∧ (∀ p, releases pc p = 0) ∧ (∀ p, deletes pc p = 0) ∧ ordered pc
  | Delete _ :: pc => (∀ p, adds pc p = 0) ∧ (∀ p, releases pc p = 0) ∧ (∀ p, deletes pc p = 0) ∧ ordered pc
  | _ :: pc => ordered pc
  end.

(** Whatever a thread mentions it owns. *)
Definition thread_ok (m : nat) (th : thread) : Prop :=
  length (handles th) = m ∧ ordered (pending th) ∧ (∀ p, releases (pending th) p ≤ 1) ∧ (∀ p, mentions th p → 1 ≤ owned th p) ∧
  (∀ p, deletes (pending th) p ≤ 1).

Fixpoint sum_over (f : thread → Z) (ths : list thread) : Z :=
  match ths with [] => 0 | th :: ths => f th + sum_over f ths end.

Definition total (ths : list thread) (p : object) : Z := sum_over (λ th, owned th p) ths.
Definition total_deletes (ths : list thread) (p : object) : Z := sum_over (λ th, deletes (pending th) p) ths.

(** Every object that exists is counted exactly, or it is about to be deleted
    by one thread and mentioned by none; no thread mentions one that does
    not. *)
Definition object_ok (s : state) (p : object) : Prop :=
  match objects s !! p with
  | Some c =>
      (total_deletes (threads s) p = 0 ∧ c = total (threads s) p ∧ 1 ≤ c) ∨
      (total_deletes (threads s) p = 1 ∧ c = 0 ∧ Forall (λ th, ¬ mentions th p) (threads s))
  | None => total_deletes (threads s) p = 0 ∧ Forall (λ th, ¬ mentions th p) (threads s)
  end.

Definition state_ok (n m : nat) (s : state) : Prop :=
  length (threads s) = n ∧ Forall (thread_ok m) (threads s) ∧ ∀ p, object_ok s p.

(** ** Counting *)

Lemma occ_nonneg hs p : 0 ≤ occ hs p.
Proof. induction hs as [|h hs IH]; simpl; [lia|]. destruct (bool_decide _); lia. Qed.

Lemma occ_bound hs p : occ hs p ≤ Z.of_nat (length hs).
Proof. induction hs as [|h hs IH]; simpl length; simpl; [lia|]. destruct (bool_decide _); lia. Qed.

Lemma occ_insert hs i h p : (i < length hs)%nat →
  occ (<[i := h]> hs) p = occ hs p - (if bool_decide (get hs i = Some p) then 1 else 0) + (if bool_decide (h = Some p) then 1 else 0).
Proof.
  revert i. induction hs as [|x hs IH]; intros [|i] Hi; simpl in *; [lia|lia| |].
  - unfold get. simpl. lia.
  - rewrite IH by lia. unfold get. simpl. lia.
Qed.

Lemma get_insert hs i h j : (i < length hs)%nat → get (<[i := h]> hs) j = if bool_decide (i = j) then h else get hs j.
Proof.
  intros Hi. unfold get. destruct (bool_decide_reflect (i = j)) as [<-|Hne]; [by rewrite list_lookup_insert_eq|].
  by rewrite list_lookup_insert_ne.
Qed.

Lemma occ_get hs i p : get hs i = Some p → 1 ≤ occ hs p.
Proof.
  revert i. induction hs as [|x hs IH]; intros [|i] Hi; unfold get in Hi; simpl in *; try done.
  - subst x. rewrite bool_decide_true by done. pose proof (occ_nonneg hs p). lia.
  - specialize (IH i Hi). destruct (bool_decide _); lia.
Qed.

(** Two different handles count twice. *)
Lemma occ_two hs i j p : i ≠ j → get hs i = Some p → get hs j = Some p → 2 ≤ occ hs p.
Proof.
  intros Hne Hi Hj. assert (i < length hs)%nat as Hlt.
  { unfold get in Hi. destruct (hs !! i) eqn:E; [|done]. by apply list.lookup_lt_Some in E. }
  pose proof (occ_insert hs i None p Hlt) as E. rewrite bool_decide_true, bool_decide_false in E by done.
  assert (get (<[i := None]> hs) j = Some p) as Hj' by (rewrite get_insert, bool_decide_false by done; done).
  apply occ_get in Hj'. lia.
Qed.

Lemma pending_nonneg pc p : 0 ≤ adds pc p ∧ 0 ≤ releases pc p ∧ 0 ≤ deletes pc p.
Proof. induction pc as [|[q|q|q|i q] pc IH]; simpl; [lia|..|done]; destruct (bool_decide (q = p)); lia. Qed.

Lemma final_length hs pc : length (final hs pc) = length hs.
Proof. revert hs. induction pc as [|[q|q|q|i q] pc IH]; intros hs; simpl; rewrite ?IH, ?length_insert; done. Qed.

Lemma owned_nonneg m th p : thread_ok m th → 0 ≤ owned th p ≤ Z.of_nat m + 1 ∧ (owned th p = 0 → ¬ mentions th p).
Proof.
  intros (Hl & _ & Hr & Hm & _). pose proof (occ_nonneg (final (handles th) (pending th)) p) as H1.
  pose proof (occ_bound (final (handles th) (pending th)) p) as H2. rewrite final_length, Hl in H2.
  pose proof (pending_nonneg (pending th) p) as (H3 & H4 & _). specialize (Hr p). specialize (Hm p). unfold mentions in *.
  split; [|intros E Hme; specialize (Hm Hme); lia]. unfold owned in *.
  destruct (decide (0 < occ (final (handles th) (pending th)) p ∨ 0 < adds (pending th) p ∨ 0 < releases (pending th) p)) as [Hd|Hd]; [specialize (Hm Hd); lia|lia].
Qed.

Lemma sum_insert (f : thread → Z) ths t th th' : ths !! t = Some th →
  sum_over f (<[t := th']> ths) = sum_over f ths - f th + f th'.
Proof.
  revert t. induction ths as [|x ths IH]; intros [|t] E; simpl in *; try done.
  - injection E as ->. lia.
  - rewrite (IH t E). lia.
Qed.

Lemma sum_bounds (f : thread → Z) (b : Z) ths : Forall (λ th, 0 ≤ f th ≤ b) ths →
  0 ≤ sum_over f ths ≤ b * Z.of_nat (length ths) ∧
  (sum_over f ths = 0 → Forall (λ th, f th = 0) ths).
Proof.
  induction 1 as [|th ths Hth Hall [IH1 IH2]]; cbn [sum_over]; simpl length; [split; [lia|constructor]|]. split; [lia|].
  intros E. constructor; [lia|]. apply IH2. lia.
Qed.

Lemma sum_member (f : thread → Z) ths t th : Forall (λ th, 0 ≤ f th) ths → ths !! t = Some th → f th ≤ sum_over f ths.
Proof.
  intros Hall. revert t. induction Hall as [|x ths Hx Hall IH]; intros [|t] E; simpl in *; try done.
  - injection E as ->. assert (0 ≤ sum_over f ths); [|lia]. clear - Hall. induction Hall; simpl; lia.
  - specialize (IH t E). lia.
Qed.

(** ** Every step keeps the counts *)

Lemma not_mentions th p : ¬ mentions th p → owned th p = 0.
Proof.
  unfold mentions, owned. intros Hn. pose proof (occ_nonneg (final (handles th) (pending th)) p). pose proof (pending_nonneg (pending th) p).
  lia.
Qed.

Lemma total_bounds n m s p : state_ok n m s → 0 ≤ total (threads s) p ≤ (Z.of_nat m + 1) * Z.of_nat n.
Proof.
  intros (<- & Hall & _). apply (sum_bounds (λ th, owned th p) (Z.of_nat m + 1)). eapply list.Forall_impl; [exact Hall|].
  intros th Hth. by apply (owned_nonneg m).
Qed.

Lemma mentioned_object n m s t th p : state_ok n m s → threads s !! t = Some th → mentions th p →
  ∃ c, objects s !! p = Some c ∧ c = total (threads s) p ∧ 1 ≤ c ∧ total_deletes (threads s) p = 0.
Proof.
  intros (_ & _ & Hobj) Ht Hm. specialize (Hobj p). unfold object_ok in Hobj.
  assert (∀ l, Forall (λ th, ¬ mentions th p) l → l !! t = Some th → False) as Hno.
  { intros l Hl E. rewrite list.Forall_forall in Hl. apply (Hl th); [by apply list_elem_of_lookup_2 in E|done]. }
  destruct (objects s !! p) as [c|]; [|destruct Hobj as [_ Hf]; exfalso; by apply (Hno _ Hf Ht)].
  destruct Hobj as [(Hd & Hc & H1)|(_ & _ & Hf)]; [|exfalso; by apply (Hno _ Hf Ht)]. by exists c.
Qed.

(** A thread is replaced; what concerns one object. *)
Lemma object_same s t th th' objs p : object_ok s p → threads s !! t = Some th → objs !! p = objects s !! p →
  owned th' p = owned th p → deletes (pending th') p = deletes (pending th) p → (mentions th' p → mentions th p) →
  object_ok (mkState objs (<[t := th']> (threads s))) p.
Proof.
  intros Hok Ht Ho Eo Ed Hm. unfold object_ok in *. simpl. rewrite Ho. unfold total, total_deletes in *.
  rewrite !(sum_insert _ _ _ _ _ Ht), Eo, Ed, !Z.sub_add.
  assert (Forall (λ th, ¬ mentions th p) (threads s) → Forall (λ th, ¬ mentions th p) (<[t := th']> (threads s))) as Hf.
  { intros Hf. apply list.Forall_insert; [done|]. rewrite list.Forall_forall in Hf. intros Hc.
    apply (Hf th); [by apply list_elem_of_lookup_2 in Ht|auto]. }
  destruct (objects s !! p); [|naive_solver]. destruct Hok as [?|(? & ? & ?)]; [by left|right; auto].
Qed.

Lemma threads_update n m s t th' objs : state_ok n m s → thread_ok m th' → (∀ p, object_ok (mkState objs (<[t := th']> (threads s))) p) →
  state_ok n m (mkState objs (<[t := th']> (threads s))).
Proof.
  intros (Hl & Hall & _) Hth Ho. split; simpl; [by rewrite length_insert|]. split; [by apply list.Forall_insert|done].
Qed.

Lemma thread_at n m s t th : state_ok n m s → threads s !! t = Some th → thread_ok m th.
Proof. intros (_ & Hall & _) Ht. rewrite list.Forall_forall in Hall. apply Hall. by apply list_elem_of_lookup_2 in Ht. Qed.

(** Evaluates the counts of a list of actions, handle by handle. *)
Ltac count_refs :=
  cbn [final adds releases deletes app fst snd];
  repeat first [rewrite occ_insert by (rewrite ?length_insert; lia)|rewrite get_insert by (rewrite ?length_insert; lia)];
  repeat match goal with E : get ?hs ?i = _ |- _ => rewrite E end;
  repeat (case_bool_decide; simplify_eq);
  repeat match goal with
  | Hocc : ∀ i, get ?hs i = Some ?p → _, E : get ?hs ?i = Some ?p |- _ =>
      lazymatch goal with | _ : 1 ≤ occ hs p |- _ => fail | _ => pose proof (Hocc i E) end
  end; try (repeat split; lia).

(** The calls take and give back as many references as handles change. *)
Lemma call_ok hs c acts p : actions hs c = Some acts →
  owned (mkThread hs acts) p = occ hs p ∧ deletes acts p = 0 ∧ releases acts p ≤ 1 ∧
  (mentions (mkThread hs acts) p → 1 ≤ occ hs p).
Proof.
  unfold actions, owned, mentions. simpl.
  assert (∀ i, get hs i = Some p → 1 ≤ occ hs p) as Hocc by (intros i; apply occ_get).
  assert (∀ i j, i ≠ j → get hs i = Some p → get hs j = Some p → 2 ≤ occ hs p) as Htwo by (intros i j; apply occ_two).
  pose proof (occ_nonneg hs p) as Hnn.
  destruct c as [i j|i j|i|i j|i|i j|i j]; simpl; intros E; repeat case_match; try done; injection E as <-;
    repeat match goal with
    | H : (_ && _) = true |- _ => apply andb_true_iff in H as [? ?]
    | H : bool_decide _ = true |- _ => apply bool_decide_eq_true in H
    | H : negb (Nat.eqb _ _) = true |- _ => apply negb_true_iff, Nat.eqb_neq in H
    end;
    unfold copy_construct, move_construct, destroy, assign_copy, assign_raw, assign_move, swap, add_ref, release_ref.
  - destruct (get hs j) as [q|] eqn:Ej; count_refs.
  - count_refs.
  - destruct (get hs i) as [q|] eqn:Ei; count_refs.
  - destruct (get hs j) as [q|] eqn:Ej, (get hs i) as [q'|] eqn:Ei; count_refs.
  - destruct (get hs i) as [q|] eqn:Ei; count_refs.
  - destruct (Nat.eqb_spec i j) as [->|Hne]; [count_refs|]. destruct (get hs i) as [q|] eqn:Ei; count_refs.
  - count_refs.
Qed.

Lemma call_ordered hs c acts : actions hs c = Some acts → ordered acts.
Proof.
  unfold actions. destruct c as [i j|i j|i|i j|i|i j|i j]; simpl; intros E; repeat case_match; try done; injection E as <-;
    unfold copy_construct, move_construct, destroy, assign_copy, assign_raw, assign_move, swap, add_ref, release_ref;
    repeat case_match; simpl; tauto.
Qed.

Lemma refcount_call_step n m s t hs c acts : state_ok n m s → threads s !! t = Some (mkThread hs []) → actions hs c = Some acts →
  state_ok n m (set_thread s t (mkThread hs acts)).
Proof.
  intros Hs Ht Ha. pose proof (thread_at n m s t _ Hs Ht) as (Hl & _). simpl in Hl.
  assert (∀ p, owned (mkThread hs []) p = occ hs p) as Eo by (intros p; unfold owned; simpl; lia).
  apply threads_update; [done| |].
  - split; simpl; [done|]. split; [by apply (call_ordered hs c)|]. split; [intros p; apply (call_ok hs c acts p Ha)|].
    split; [|intros p; destruct (call_ok hs c acts p Ha) as (_ & -> & _); lia].
    intros p Hm. destruct (call_ok hs c acts p Ha) as (E & _ & _ & Hmm). rewrite E. by apply Hmm.
  - intros p. destruct (call_ok hs c acts p Ha) as (E & Ed & _ & Hmm). apply (object_same s t (mkThread hs [])); [apply Hs|done|done|by rewrite E, Eo|done|].
    intros Hm. left. simpl. specialize (Hmm Hm). lia.
Qed.

Lemma inc_ref_exact c : 0 ≤ c < 2 ^ 31 - 1 → IncRef c = c + 1.
Proof. intros Hc. apply convert_in_range; [done|]. unfold values, int_min, int_max. simpl. lia. Qed.

Lemma dec_ref_exact c : 1 ≤ c < 2 ^ 31 → DecRef c = Ret (c - 1, if c =? 1 then kDroppedLastRef else kOtherRefsRemained).
Proof.
  intros Hc. unfold DecRef. assert (values int32_t (c - 1)) as Hv by (unfold values, int_min, int_max; simpl; lia).
  rewrite arith_in_range, bind_ret, convert_in_range by done. f_equal. f_equal.
  replace (c - 1 =? 0) with (c =? 1) by (apply eq_iff_eq_true; rewrite !Z.eqb_eq; lia). done.
Qed.

(** A thread that is not inside a call. *)
Lemma idle_owned hs p : owned (mkThread hs []) p = occ hs p.
Proof. unfold owned. simpl. lia. Qed.

Lemma idle_mentions hs p : mentions (mkThread hs []) p ↔ 0 < occ hs p.
Proof. unfold mentions. simpl. lia. Qed.

Lemma idle_ok m hs : length hs = m → thread_ok m (mkThread hs []).
Proof.
  intros Hl. split; [done|]. split; [done|]. split; [simpl; lia|]. split; [|simpl; lia]. intros p. rewrite idle_owned, idle_mentions. lia.
Qed.

Section Bounded.
Context (n m : nat) (Hbound : (Z.of_nat m + 1) * Z.of_nat n < 2 ^ 31 - 1).

(** A pending action returns, and keeps the invariant. *)
Definition action_runs (s : state) (t : nat) (hs : list (option object)) (a : micro) (rest : list micro) : Prop :=
  ∃ objs th', exec s (mkThread hs (a :: rest)) a rest = Ret (objs, th') ∧ state_ok n m (mkState objs (<[t := th']> (threads s))).

Lemma add_runs s t hs q rest : state_ok n m s → threads s !! t = Some (mkThread hs (AddRef q :: rest)) → action_runs s t hs (AddRef q) rest.
Proof using Hbound.
  intros Hs Ht. pose proof (thread_at n m s t _ Hs Ht) as (Hl & Hord & Hrel & Hown & Hdel). simpl in *.
  pose proof Hs as (_ & _ & Hobj). pose proof (pending_nonneg rest) as Hnn. unfold action_runs. simpl.
  destruct (mentioned_object n m s t _ q Hs Ht) as (c & Ec & Etot & Hc & Hd).
  { right. left. simpl. rewrite bool_decide_true by done. specialize (Hnn q). lia. }
  pose proof (total_bounds n m s q Hs) as Hb. unfold counter. rewrite Ec, bind_ret. do 2 eexists. split; [done|].
  rewrite inc_ref_exact by lia. set (th' := mkThread hs rest).
  assert (∀ p, owned th' p = owned (mkThread hs (AddRef q :: rest)) p + (if bool_decide (q = p) then 1 else 0)) as Eo
    by (intros p; unfold owned; simpl; lia).
  assert (∀ p, mentions th' p → mentions (mkThread hs (AddRef q :: rest)) p) as Hm.
  { intros p. unfold mentions. simpl. destruct (bool_decide (q = p)); specialize (Hnn p); lia. }
  apply threads_update; [done| |].
  + split; [done|]. split; [done|]. split; [done|]. split; [|done]. intros p Hp. rewrite Eo. specialize (Hown p (Hm p Hp)).
    destruct (bool_decide (q = p)); lia.
  + intros p. destruct (decide (q = p)) as [<-|Hne].
    * unfold object_ok. simpl. rewrite lookup_insert_eq. left. unfold total, total_deletes in *. rewrite !(sum_insert _ _ _ _ _ Ht), Eo. simpl.
      rewrite bool_decide_true by done. lia.
    * apply (object_same s t (mkThread hs (AddRef q :: rest))); [done|done|by rewrite lookup_insert_ne| |done|apply Hm].
      rewrite Eo, bool_decide_false by done. lia.
Qed.

Lemma release_runs s t hs q rest : state_ok n m s → threads s !! t = Some (mkThread hs (Release q :: rest)) → action_runs s t hs (Release q) rest.
Proof using Hbound.
  intros Hs Ht. pose proof (thread_at n m s t _ Hs Ht) as (Hl & Hord & Hrel & Hown & Hdel). simpl in *.
  pose proof Hs as (_ & _ & Hobj). pose proof (pending_nonneg rest) as Hnn. unfold action_runs. simpl.
  destruct (mentioned_object n m s t _ q Hs Ht) as (c & Ec & Etot & Hc & Hd).
  { right. right. simpl. rewrite bool_decide_true by done. specialize (Hnn q). lia. }
  pose proof (total_bounds n m s q Hs) as Hb. unfold counter. rewrite Ec, bind_ret, dec_ref_exact, bind_ret by lia.
  do 2 eexists. split; [done|]. destruct Hord as (Ha0 & Hr0 & Hd0 & Hord).
  set (rest' := if bool_decide (_ = kDroppedLastRef) then Delete q :: rest else rest). set (th' := mkThread hs rest').
  assert (final hs rest' = final hs rest ∧ adds rest' = adds rest ∧ releases rest' = releases rest ∧ ordered rest') as (E1 & E2 & E3 & Hord').
  { unfold rest'. destruct (bool_decide _); simpl; tauto. }
  assert (∀ p, owned th' p = owned (mkThread hs (Release q :: rest)) p - (if bool_decide (q = p) then 1 else 0)) as Eo.
  { intros p. unfold owned, th'. simpl. rewrite E1, E2, E3. lia. }
  assert (∀ p, mentions th' p → mentions (mkThread hs (Release q :: rest)) p) as Hm.
  { intros p. unfold mentions, th'. simpl. rewrite E1, E2, E3. destruct (bool_decide (q = p)); specialize (Hnn p); lia. }
  assert (∀ p, q ≠ p → deletes rest' p = deletes rest p) as Ed.
  { intros p Hne. unfold rest'. destruct (bool_decide (_ = _)); [|done]. simpl. by rewrite bool_decide_false. }
  assert (thread_ok m th') as Hth'.
  { split; [done|]. split; [done|]. unfold th'. simpl. rewrite E3. split; [intros p; rewrite Hr0; lia|]. split.
    - intros p Hp. destruct (decide (q = p)) as [<-|Hne].
      + unfold mentions, owned in *. simpl in *. rewrite E1, E2, E3, Ha0, Hr0 in *. lia.
      + fold th'. rewrite Eo, bool_decide_false by done. specialize (Hown p (Hm p Hp)). lia.
    - intros p. unfold rest'. destruct (bool_decide (_ = kDroppedLastRef)); simpl; rewrite Hd0; [destruct (bool_decide (q = p))|]; lia. }
  apply threads_update; [done|done|].
  intros p. destruct (decide (q = p)) as [<-|Hne].
    * unfold object_ok. simpl. rewrite lookup_insert_eq. unfold total, total_deletes in *.
      assert (sum_over (λ th, owned th q) (<[t := th']> (threads s)) = c - 1) as Etot'.
      { rewrite (sum_insert _ _ _ _ _ Ht), Eo, bool_decide_true by done. lia. }
      rewrite Etot'. rewrite (sum_insert (λ th, deletes (pending th) q) _ _ _ _ Ht), Hd. simpl. rewrite Hd0.
      unfold rest'. destruct (Z.eqb_spec c 1) as [->|Hne1].
      -- right. rewrite bool_decide_true by done. simpl. rewrite bool_decide_true, Hd0 by done. split; [lia|]. split; [lia|].
         assert (Forall (thread_ok m) (<[t := th']> (threads s))) as Hall.
         { apply list.Forall_insert; [apply Hs|done]. }
         destruct (sum_bounds (λ th, owned th q) (Z.of_nat m + 1) (<[t := th']> (threads s))) as [_ Hz].
         { eapply list.Forall_impl; [exact Hall|]. intros th Hth. by apply (owned_nonneg m). }
         specialize (Hz ltac:(lia)). rewrite list.Forall_forall in Hall, Hz |- *. intros th Hin. by apply (owned_nonneg m th q (Hall th Hin)), Hz.
      -- left. rewrite bool_decide_false by done. rewrite Hd0. lia.
    * apply (object_same s t (mkThread hs (Release q :: rest))); [done|done|by rewrite lookup_insert_ne| |by apply Ed|apply Hm].
      rewrite Eo, bool_decide_false by done. lia.
Qed.

Lemma delete_runs s t hs q rest : state_ok n m s → threads s !! t = Some (mkThread hs (Delete q :: rest)) → action_runs s t hs (Delete q) rest.
Proof using Hbound.
  intros Hs Ht. pose proof (thread_at n m s t _ Hs Ht) as (Hl & Hord & Hrel & Hown & Hdel). simpl in *.
  pose proof Hs as (_ & _ & Hobj). pose proof (pending_nonneg rest) as Hnn. unfold action_runs. simpl.
  assert (1 ≤ total_deletes (threads s) q) as Htd.
  { pose proof (sum_member (λ th, deletes (pending th) q) (threads s) t _ ltac:(apply list.Forall_forall; intros th _; apply pending_nonneg) Ht) as Hle.
    simpl in Hle. rewrite bool_decide_true in Hle by done. specialize (Hnn q). unfold total_deletes. lia. }
  pose proof (Hobj q) as Hq. unfold object_ok in Hq. unfold counter. destruct (objects s !! q) as [c|] eqn:Ec; [|lia].
  destruct Hq as [(? & _)|(Hd & -> & Hnone)]; [lia|]. rewrite bind_ret. do 2 eexists. split; [done|]. set (th' := mkThread hs rest).
  destruct Hord as (Ha0 & Hr0 & Hd0 & Hord).
  assert (∀ p, mentions th' p ↔ mentions (mkThread hs (Delete q :: rest)) p) as Hm by done.
  apply threads_update; [done| |].
  + split; [done|]. split; [done|]. split; [done|]. split; [done|]. intros p. simpl. rewrite Hd0. lia.
  + intros p. destruct (decide (q = p)) as [<-|Hne].
    * unfold object_ok. simpl. rewrite lookup_delete_eq. unfold total_deletes in *. rewrite (sum_insert _ _ _ _ _ Ht). simpl.
      rewrite bool_decide_true by done. split; [lia|]. apply list.Forall_insert; [done|]. intros Hp. rewrite list.Forall_forall in Hnone.
      apply (Hnone _ ltac:(by eapply list_elem_of_lookup_2)). exact Hp.
    * apply (object_same s t (mkThread hs (Delete q :: rest))); [done|done|by rewrite lookup_delete_ne|done| |done]. simpl.
      by rewrite bool_decide_false.
Qed.

Lemma set_runs s t hs i o rest : state_ok n m s → threads s !! t = Some (mkThread hs (SetPtr i o :: rest)) → action_runs s t hs (SetPtr i o) rest.
Proof using Hbound.
  intros Hs Ht. pose proof (thread_at n m s t _ Hs Ht) as (Hl & Hord & Hrel & Hown & Hdel). simpl in *.
  pose proof Hs as (_ & _ & Hobj). pose proof (pending_nonneg rest) as Hnn. unfold action_runs. simpl.
  do 2 eexists. split; [done|]. apply threads_update; [done| |].
  + split; simpl; [by rewrite length_insert|]. done.
  + intros p. by apply (object_same s t (mkThread hs (SetPtr i o :: rest))).
Qed.

Lemma action_returns s t hs a rest : state_ok n m s → threads s !! t = Some (mkThread hs (a :: rest)) → action_runs s t hs a rest.
Proof using Hbound. destruct a; [apply add_runs|apply release_runs|apply delete_runs|apply set_runs]. Qed.

Lemma new_runs s t hs i p : state_ok n m s → threads s !! t = Some (mkThread hs []) → (i < length hs)%nat → get hs i = None →
  objects s !! p = None →
  state_ok n m (mkState (<[p := IncRef 0]> (objects s)) (<[t := mkThread (<[i := Some p]> hs) []]> (threads s))).
Proof using Hbound.
  intros Hs Ht Hi Hg Hp. pose proof (thread_at n m s t _ Hs Ht) as (Hl & _). simpl in Hl. pose proof Hs as (_ & _ & Hobj).
  apply threads_update; [done|apply idle_ok; by rewrite length_insert|]. intros q.
  assert (occ (<[i := Some p]> hs) q = occ hs q + (if bool_decide (p = q) then 1 else 0)) as Eq.
  { rewrite occ_insert by done. rewrite Hg, (bool_decide_false (None = Some q)) by done.
    replace (bool_decide (Some p = Some q)) with (bool_decide (p = q)) by (apply bool_decide_ext; naive_solver). lia. }
  destruct (decide (p = q)) as [<-|Hne].
  - specialize (Hobj p). unfold object_ok in *. simpl. rewrite Hp in Hobj. rewrite lookup_insert_eq. destruct Hobj as [Hd Hno]. left.
    unfold total, total_deletes in *. rewrite !(sum_insert _ _ _ _ _ Ht), !idle_owned, Eq, bool_decide_true by done. simpl.
    assert (sum_over (λ th, owned th p) (threads s) = 0) as ->.
    { clear - Hno. induction Hno as [|th ths Hth Hall IH]; simpl; [done|]. rewrite IH, (not_mentions th p Hth). done. }
    rewrite inc_ref_exact by lia. lia.
  - rewrite bool_decide_false in Eq by done. apply (object_same s t (mkThread hs [])); [done|done|by rewrite lookup_insert_ne| |done|].
    + rewrite !idle_owned. lia.
    + rewrite !idle_mentions. lia.
Qed.

Lemma send_runs s t1 t2 hs1 hs2 i j : state_ok n m s → t1 ≠ t2 → threads s !! t1 = Some (mkThread hs1 []) → threads s !! t2 = Some (mkThread hs2 []) →
  (i < length hs1)%nat → (j < length hs2)%nat → get hs2 j = None →
  state_ok n m (mkState (objects s)
    (<[t1 := mkThread (<[i := None]> hs1) []]> (<[t2 := mkThread (<[j := get hs1 i]> hs2) []]> (threads s)))).
Proof using Hbound.
  intros Hs Hne Ht1 Ht2 Hi Hj Hg. pose proof (thread_at n m s t1 _ Hs Ht1) as (Hl1 & _). pose proof (thread_at n m s t2 _ Hs Ht2) as (Hl2 & _).
  simpl in *. pose proof Hs as (Hl & Hall & Hobj). split; simpl; [by rewrite !length_insert|]. split.
  { apply list.Forall_insert; [apply list.Forall_insert; [done|]|]; apply idle_ok; by rewrite length_insert. }
  intros p. specialize (Hobj p).
  set (ths1 := <[t2 := mkThread (<[j := get hs1 i]> hs2) []]> (threads s)).
  assert (ths1 !! t1 = Some (mkThread hs1 [])) as Ht1' by (unfold ths1; by rewrite list_lookup_insert_ne).
  pose proof (occ_insert hs1 i None p Hi) as E1. pose proof (occ_insert hs2 j (get hs1 i) p Hj) as E2.
  rewrite Hg, !(bool_decide_false (None = Some p)) in * by done.
  assert (total (<[t1 := mkThread (<[i := None]> hs1) []]> ths1) p = total (threads s) p) as Et.
  { unfold total. rewrite (sum_insert _ _ _ _ _ Ht1'). unfold ths1. rewrite (sum_insert _ _ _ _ _ Ht2), !idle_owned. lia. }
  assert (total_deletes (<[t1 := mkThread (<[i := None]> hs1) []]> ths1) p = total_deletes (threads s) p) as Ed.
  { unfold total_deletes. rewrite (sum_insert _ _ _ _ _ Ht1'). unfold ths1. rewrite (sum_insert _ _ _ _ _ Ht2). simpl. lia. }
  assert (Forall (λ th, ¬ mentions th p) (threads s) → Forall (λ th, ¬ mentions th p) (<[t1 := mkThread (<[i := None]> hs1) []]> ths1)) as Hf.
  { intros Hf. rewrite list.Forall_forall in Hf. pose proof (Hf _ ltac:(by eapply list_elem_of_lookup_2, Ht1)) as Hn1.
    pose proof (Hf _ ltac:(by eapply list_elem_of_lookup_2, Ht2)) as Hn2. rewrite idle_mentions in Hn1, Hn2.
    pose proof (occ_nonneg hs1 p). pose proof (occ_nonneg hs2 p).
    assert (get hs1 i ≠ Some p) as Hgi by (intros E; apply occ_get in E; lia). rewrite bool_decide_false in E1, E2 by done.
    apply list.Forall_insert; [apply list.Forall_insert; [by apply list.Forall_forall|]|]; rewrite idle_mentions; lia. }
  unfold object_ok in *. simpl. fold ths1. rewrite Et, Ed. destruct (objects s !! p); [|destruct Hobj; auto].
  destruct Hobj as [?|(? & ? & ?)]; [by left|right; auto].
Qed.

Lemma step_ok s s' : state_ok n m s → step s s' → state_ok n m s'.
Proof using Hbound.
  intros Hs Hst. destruct Hst as [s t hs c acts Ht Ha|s t hs a rest objs th Ht E|s t hs i p Ht Hi Hg Hp|s t1 t2 hs1 hs2 i j Hne Ht1 Ht2 Hi Hj Hg].
  - by apply (refcount_call_step n m s t hs c).
  - destruct (action_returns s t hs a rest Hs Ht) as (objs' & th' & E' & Hs'). rewrite E in E'. by injection E' as -> ->.
  - by apply new_runs.
  - by apply send_runs.
Qed.

Lemma init_ok : state_ok n m (init n m).
Proof using.
  split; simpl; [apply length_replicate|]. split; [apply list.Forall_replicate, idle_ok, length_replicate|].
  assert (∀ k p, occ (replicate k None) p = 0) as Ho by (intros k p; induction k as [|k IH]; simpl; [done|by rewrite IH]).
  intros p. unfold object_ok. simpl. rewrite lookup_empty. split.
  - assert (∀ k, total_deletes (replicate k (mkThread (replicate m None) [])) p = 0) as Hk; [|apply Hk].
    intros k. unfold total_deletes. induction k as [|k IH]; cbn [replicate sum_over]; [done|]. rewrite IH. done.
  - apply list.Forall_replicate. rewrite idle_mentions, Ho. lia.
Qed.

Lemma reachable_ok s : reachable n m s → state_ok n m s.
Proof using Hbound. induction 1 as [|s s' _ IH Hst]; [apply init_ok|by apply (step_ok s)]. Qed.
End Bounded.

(** ** The actions of the calls in progress *)

Definition idle (s : state) : Prop := Forall (λ th, pending th = []) (threads s).

(** One thread runs its next action. *)
Inductive action : state → state → Prop :=
| action_intro s t hs a rest objs th :
    threads s !! t = Some (mkThread hs (a :: rest)) → exec s (mkThread hs (a :: rest)) a rest = Ret (objs, th) →
    action s (mkState objs (<[t := th]> (threads s))).

(** The actions a thread may still run: a release may add the deletion. *)
Definition work (th : thread) : Z :=
  Z.of_nat (sum_list_with (λ a, match a with Release _ => 2 | _ => 1 end)%nat (pending th)).

Lemma action_work s s' : action s s' → 0 ≤ sum_over work (threads s') < sum_over work (threads s).
Proof.
  assert (∀ ths, 0 ≤ sum_over work ths) as Hnn.
  { induction ths as [|th ths IH]; simpl; [lia|]. unfold work at 1. lia. }
  intros [s0 t hs a rest objs th Ht E]. split; [apply Hnn|]. simpl. rewrite (sum_insert _ _ _ _ _ Ht).
  enough (work th < work (mkThread hs (a :: rest))) by lia. revert E. unfold work.
  destruct a as [q|q|q|i q]; simpl; unfold counter, DecRef; try (destruct (objects s0 !! q) as [c|]; [|done]).
  - rewrite bind_ret. intros [= <- <-]. simpl. lia.
  - rewrite bind_ret. destruct (arith int32_t (c - 1)) as [c'|]; [|done]. rewrite !bind_ret. intros [= <- <-]. simpl. case_bool_decide; simpl; lia.
  - rewrite bind_ret. intros [= <- <-]. simpl. lia.
  - intros [= <- <-]. simpl. lia.
Qed.

Lemma action_terminates s : Acc (λ s' s, action s s') s.
Proof.
  assert (∀ k s, (Z.to_nat (sum_over work (threads s)) < k)%nat → Acc (λ s' s, action s s') s) as H; [|apply (H (S (Z.to_nat (sum_over work (threads s))))); lia].
  induction k as [|k IH]; intros x Hx; [lia|]. constructor. intros y Hy. apply IH. pose proof (action_work _ _ Hy). lia.
Qed.

Lemma action_reachable n m s s' : reachable n m s → action s s' → reachable n m s'.
Proof. intros Hr Ha. apply (reach_step n m s); [done|]. destruct Ha. by eapply step_action. Qed.

Lemma idle_or_pending s : idle s ∨ ∃ t hs a rest, threads s !! t = Some (mkThread hs (a :: rest)).
Proof.
  unfold idle. induction (threads s) as [|[hs pc] ths IH]; [left; constructor|]. destruct pc as [|a rest]; [|right; by exists 0%nat, hs, a, rest].
  destruct IH as [IH|(t & hs' & a & rest & E)]; [left; by constructor|right; by exists (S t), hs', a, rest].
Qed.

Lemma pending_counted pc p : (AddRef p ∈ pc → 0 < adds pc p) ∧ (Release p ∈ pc → 0 < releases pc p) ∧ (Delete p ∈ pc → 0 < deletes pc p).
Proof.
  induction pc as [|a pc IH]; [split_and!; intros H; by apply elem_of_nil in H|]. pose proof (pending_nonneg pc p). rewrite !list.elem_of_cons.
  split_and!; (intros [<-|Hin]; [simpl; rewrite bool_decide_true by done; lia|destruct IH as (I1 & I2 & I3)]).
  all: first [specialize (I1 Hin)|specialize (I2 Hin)|specialize (I3 Hin)]; destruct a as [q|q|q|i q]; simpl; try (destruct (bool_decide (q = p))); lia.
Qed.

Lemma idle_total s p : idle s → total (threads s) p = sum_over (λ th, occ (handles th) p) (threads s) ∧ total_deletes (threads s) p = 0.
Proof.
  unfold idle, total, total_deletes. generalize (threads s). induction 1 as [|[hs pc] ths Hth Hall IH]; simpl; [done|]. simpl in Hth. subst pc.
  rewrite idle_owned. destruct IH as [IH1 IH2]. rewrite IH1, IH2. done.
Qed.

(** Every owner counted: a single reference is that of the one thread that has it. *)
Lemma sole_owner n m s t th t' th' p : state_ok n m s → threads s !! t = Some th → threads s !! t' = Some th' → t ≠ t' →
  total (threads s) p = 1 → mentions th p → ¬ mentions th' p.
Proof.
  intros Hs Ht Ht' Hne Htot Hm. pose proof (thread_at n m s t _ Hs Ht) as (_ & _ & _ & Hown & _). specialize (Hown p Hm).
  assert (Forall (λ th, 0 ≤ owned th p) (threads s)) as Hnn.
  { destruct Hs as (_ & Hall & _). eapply list.Forall_impl; [exact Hall|]. intros x Hx. by apply (owned_nonneg m). }
  set (none := mkThread [] []). assert (owned none p = 0) as E0 by done.
  pose proof (sum_insert (λ th, owned th p) (threads s) t th none Ht) as E. simpl in E. rewrite E0 in E. unfold total in Htot.
  assert (<[t := none]> (threads s) !! t' = Some th') as Ht2 by (by rewrite list_lookup_insert_ne).
  assert (Forall (λ th, 0 ≤ owned th p) (<[t := none]> (threads s))) as Hnn' by (apply list.Forall_insert; [done|lia]).
  pose proof (sum_member (λ th, owned th p) _ t' th' Hnn' Ht2) as Hle. simpl in Hle.
  intros Hm'. destruct (thread_at n m s t' _ Hs Ht') as (_ & _ & _ & Hown' & _). specialize (Hown' p Hm'). lia.
Qed.

(** ** The properties *)

(** C17: with [n] threads of at most [m] handles each, too few together to
    overflow the counter, and whatever the interleaving of their calls, no
    action of a call touches or deletes an object that is gone (a missing object
    makes [exec] crash), and a handle of a thread that is not inside a call
    points to an object that exists and has a positive count. *)
Theorem refcount_safe n m s : (Z.of_nat m + 1) * Z.of_nat n < 2 ^ 31 - 1 → reachable n m s →
  (∀ t hs a rest, threads s !! t = Some (mkThread hs (a :: rest)) →
     ∃ objs th, exec s (mkThread hs (a :: rest)) a rest = Ret (objs, th)) ∧
  (∀ t hs i p, threads s !! t = Some (mkThread hs []) → get hs i = Some p → ∃ c, counter s p = Ret c ∧ 1 ≤ c).
Proof.
  intros Hb Hr. pose proof (reachable_ok n m Hb s Hr) as Hs. split.
  - intros t hs a rest Ht. destruct (action_returns n m Hb s t hs a rest Hs Ht) as (objs & th & E & _). by exists objs, th.
  - intros t hs i p Ht Hi. destruct (mentioned_object n m s t _ p Hs Ht) as (c & Ec & _ & H1 & _).
    { apply idle_mentions. apply occ_get in Hi. lia. }
    exists c. unfold counter. by rewrite Ec.
Qed.

(** no leak and no early deletion: when no call is in progress, the objects
    that exist are those some handle points to, and the counter of each is the
    number of handles that do. *)
Theorem refcount_no_leak n m s : (Z.of_nat m + 1) * Z.of_nat n < 2 ^ 31 - 1 → reachable n m s → idle s →
  ∀ p c, objects s !! p = Some c ↔ c = sum_over (λ th, occ (handles th) p) (threads s) ∧ 1 ≤ c.
Proof.
  intros Hb Hr Hi p c. pose proof (reachable_ok n m Hb s Hr) as (_ & _ & Hobj). specialize (Hobj p).
  destruct (idle_total s p Hi) as [<- Hd]. unfold object_ok in Hobj.
  destruct (objects s !! p) as [c'|]; [|].
  { destruct Hobj as [(_ & -> & H1)|(Hd' & _)]; [|lia]. split; [intros [= <-]; done|by intros [-> _]]. }
  destruct Hobj as [_ Hno]. split; [done|]. intros [-> H1].
  assert (total (threads s) p = 0); [|lia]. unfold total.
  clear - Hno. induction Hno as [|th ths Hth Hall IH]; simpl; [done|]. by rewrite IH, (not_mentions th p Hth).
Qed.

(** the calls in progress finish under every schedule: the actions alone
    cannot run forever, and unless every thread is idle one of them can run, to a
    state that is reachable again. *)
Theorem refcount_calls_finish n m s : (Z.of_nat m + 1) * Z.of_nat n < 2 ^ 31 - 1 → reachable n m s →
  Acc (λ s' s, action s s') s ∧ (idle s ∨ ∃ s', action s s' ∧ reachable n m s').
Proof.
  intros Hb Hr. split; [apply action_terminates|]. destruct (idle_or_pending s) as [Hi|(t & hs & a & rest & Ht)]; [by left|]. right.
  destruct (action_returns n m Hb s t hs a rest (reachable_ok n m Hb s Hr) Ht) as (objs & th & E & _).
  assert (action s (mkState objs (<[t := th]> (threads s)))) as Ha by (by eapply action_intro). eexists. split; [exact Ha|].
  by apply (action_reachable n m s).
Qed.

(** what [HasOneRef] promises: when a thread that holds a handle finds one
    reference, it is its own: its other handles point elsewhere, and no other
    thread holds the object after its call, nor has an action of a call left
    that takes, gives back or deletes it. *)
Theorem refcount_exclusive n m s t hs i p c : (Z.of_nat m + 1) * Z.of_nat n < 2 ^ 31 - 1 → reachable n m s →
  threads s !! t = Some (mkThread hs []) → get hs i = Some p → counter s p = Ret c → HasOneRef c = true →
  (∀ j, get hs j = Some p → j = i) ∧
  (∀ t' th', t' ≠ t → threads s !! t' = Some th' →
     (∀ j, get (final (handles th') (pending th')) j ≠ Some p) ∧
     ¬ (AddRef p ∈ pending th') ∧ ¬ (Release p ∈ pending th') ∧ ¬ (Delete p ∈ pending th')).
Proof.
  intros Hb Hr Ht Hi Hc H1. pose proof (reachable_ok n m Hb s Hr) as Hs. apply Z.eqb_eq in H1. subst c.
  assert (mentions (mkThread hs []) p) as Hm by (apply idle_mentions; apply occ_get in Hi; lia).
  destruct (mentioned_object n m s t _ p Hs Ht Hm) as (c & Ec & Etot & Hc1 & Hd). unfold counter in Hc. rewrite Ec in Hc.
  injection Hc as ->. split.
  - intros j Hj. destruct (decide (j = i)) as [|Hne]; [done|]. pose proof (occ_two hs i j p ltac:(done) Hi Hj) as H2.
    assert (Forall (λ th, 0 ≤ owned th p) (threads s)) as Hnn.
    { destruct Hs as (_ & Hall & _). eapply list.Forall_impl; [exact Hall|]. intros x Hx. by apply (owned_nonneg m). }
    pose proof (sum_member (λ th, owned th p) _ t _ Hnn Ht) as Hle. simpl in Hle. rewrite idle_owned in Hle. unfold total in Etot. lia.
  - intros t' th' Hne Ht'. pose proof (sole_owner n m s t _ t' th' p Hs Ht Ht' ltac:(done) ltac:(done) Hm) as Hno.
    pose proof (pending_counted (pending th') p) as (P1 & P2 & P3). unfold mentions in Hno. split_and!.
    + intros j Hj. apply occ_get in Hj. lia.
    + intros Hin. specialize (P1 Hin). lia.
    + intros Hin. specialize (P2 Hin). lia.
    + intros Hin. specialize (P3 Hin). unfold total_deletes in Hd.
      pose proof (sum_member (λ th, deletes (pending th) p) (threads s) t' _ ltac:(apply list.Forall_forall; intros th _; apply pending_nonneg) Ht') as Hle.
      simpl in Hle. lia.
Qed.

(** ** Runs *)

(** A schedule, as the steps its threads take. *)
Inductive event := ECall (t : nat) (c : call) | EAction (t : nat) | ENew (t i : nat) (p : object) | ESend (t1 t2 i j : nat).

Definition do_event (s : state) (e : event) : option state :=
  match e with
  | ECall t c =>
      match threads s !! t with
      | Some (mkThread hs []) => acts ← actions hs c; Some (set_thread s t (mkThread hs acts))
      | _ => None
      end
  | EAction t =>
      match threads s !! t with
      | Some (mkThread hs (a :: rest)) =>
          match exec s (mkThread hs (a :: rest)) a rest with
          | Ret (objs, th) => Some (mkState objs (<[t := th]> (threads s)))
          | Crash _ => None
          end
      | _ => None
      end
  | ENew t i p =>
      match threads s !! t with
      | Some (mkThread hs []) =>
          if bool_decide ((i < length hs)%nat ∧ get hs i = None ∧ objects s !! p = None)
          then Some (mkState (<[p := IncRef 0]> (objects s)) (<[t := mkThread (<[i := Some p]> hs) []]> (threads s))) else None
      | _ => None
      end
  | ESend t1 t2 i j =>
      match threads s !! t1, threads s !! t2 with
      | Some (mkThread hs1 []), Some (mkThread hs2 []) =>
          if bool_decide (t1 ≠ t2 ∧ (i < length hs1)%nat ∧ (j < length hs2)%nat ∧ get hs2 j = None)
          then Some (mkState (objects s)
                 (<[t1 := mkThread (<[i := None]> hs1) []]> (<[t2 := mkThread (<[j := get hs1 i]> hs2) []]> (threads s)))) else None
      | _, _ => None
      end
  end.

Fixpoint run_events (s : state) (es : list event) : option state :=
  match es with [] => Some s | e :: es => s' ← do_event s e; run_events s' es end.

Lemma do_event_step s e s' : do_event s e = Some s' → step s s'.
Proof.
  destruct e as [t c|t|t i p|t1 t2 i j]; simpl.
  - destruct (threads s !! t) as [[hs [|]]|] eqn:Ht; try done. destruct (actions hs c) as [acts|] eqn:Ea; [|done].
    intros [= <-]. by eapply step_call.
  - destruct (threads s !! t) as [[hs [|a rest]]|] eqn:Ht; try done. destruct (exec _ _ _ _) as [[objs th]|] eqn:E; [|done].
    intros [= <-]. by eapply step_action.
  - destruct (threads s !! t) as [[hs [|]]|] eqn:Ht; try done. case_bool_decide as H; [|done]. intros [= <-]. apply step_new; tauto.
  - destruct (threads s !! t1) as [[hs1 [|]]|] eqn:H1; try done. destruct (threads s !! t2) as [[hs2 [|]]|] eqn:H2; try done.
    case_bool_decide as H; [|done]. intros [= <-]. apply step_send; tauto.
Qed.

Lemma run_reachable n m es s : run_events (init n m) es = Some s → reachable n m s.
Proof.
  assert (∀ s0, reachable n m s0 → run_events s0 es = Some s → reachable n m s) as H; [|apply H, reach_init].
  induction es as [|e es IH]; simpl; intros s0 Hr; [by intros [= <-]|]. destruct (do_event s0 e) as [s1|] eqn:E; [|done]. simpl.
  apply IH, (reach_step n m s0); [done|]. by apply (do_event_step s0 e).
Qed.

(** The first thread makes an object, copies its handle and sends the copy. *)
Definition share : list event := [ENew 0 0 1%positive; ECall 0 (CCopy 1 0); EAction 0; EAction 0; ESend 0 1 1 0].

(** Both threads are then inside the destructor, and the last decrement is done. *)
Definition release_both : list event :=
  share ++ [ECall 0 (CDestroy 0); ECall 1 (CDestroy 0); EAction 0; EAction 1].

Definition after (es : list event) : state := default (init 2 2) (run_events (init 2 2) es).

Lemma refcount_safe_witness :
  ∃ objs th, exec (after release_both) (mkThread [Some 1%positive; None] [Delete 1%positive; SetPtr 0 None]) (Delete 1%positive) [SetPtr 0 None]
             = Ret (objs, th).
Proof.
  destruct (refcount_safe 2 2 (after release_both)) as [H _]; [lia|apply (run_reachable 2 2 release_both); vm_compute; reflexivity|].
  apply (H 1%nat). vm_compute. reflexivity.
Defined.

Lemma refcount_no_leak_witness : objects (after share) !! 1%positive = Some 2.
Proof.
  apply (refcount_no_leak 2 2 (after share)); [lia|apply (run_reachable 2 2 share); vm_compute; reflexivity| |].
  - vm_compute. repeat constructor.
  - vm_compute. split; [reflexivity|discriminate].
Defined.

Lemma refcount_calls_finish_witness : Acc (λ s' s, action s s') (after release_both).
Proof. apply (refcount_calls_finish 2 2); [lia|apply (run_reachable 2 2 release_both); vm_compute; reflexivity]. Defined.

(** The second thread gave its reference back: the first has the only one. *)
Lemma refcount_exclusive_witness :
  HasOneRef 1 = true ∧ get (final [Some 1%positive; None] [SetPtr 0 None]) 0 ≠ Some 1%positive ∧ ¬ (Release 1%positive ∈ [SetPtr 0 None]).
Proof.
  destruct (refcount_exclusive 2 2 (after (share ++ [ECall 1 (CDestroy 0); EAction 1])) 0 [Some 1%positive; None] 0 1%positive 1) as [_ H];
    [lia|apply (run_reachable 2 2 (share ++ [ECall 1 (CDestroy 0); EAction 1]))|..]; try (vm_compute; reflexivity).
  destruct (H 1%nat (mkThread [Some 1%positive; None] [SetPtr 0 None])) as (H1 & _ & H2 & _); [lia|vm_compute; reflexivity|].
  split; [reflexivity|]. split; [apply H1|exact H2].
Defined.

(** The whole run deletes the object once and leaves none. *)
Example release_both_frees : objects (after (release_both ++ [EAction 1; EAction 0; EAction 1])) = ∅.
Proof. vm_compute. reflexivity. Qed.
