(* ===== verification/Md5.v ===== *)
(** * MD5 at compile time

    Model of [src/include/base/hash/md5_constexpr_internal.h]: the padding of the
    message, the extraction of its words, the 64 mixing steps, the digest and
    the hashes taken from it.  Integers keep their widths, [DCHECK]s and reads
    of the message can fail.  The specification is the algorithm as RFC 1321
    describes it, with the little-endian numbers of [ByteIo]: the padded message as a whole, the sine table, the four
    auxiliary functions, and registers updated in place. *)

From S2P Require Import Prelude ByteIo.

(** ** Data *)

(** Sums and products of [uint32_t] wrap. *)
Definition u32 (z : Z) : Z := wrapU 32 z.

Record IntermediateData := mkData { md_a : Z; md_b : Z; md_c : Z; md_d : Z }.

Definition kConstants : list Z :=
  [0xd76aa478; 0xe8c7b756; 0x242070db; 0xc1bdceee; 0xf57c0faf; 0x4787c62a;
   0xa8304613; 0xfd469501; 0x698098d8; 0x8b44f7af; 0xffff5bb1; 0x895cd7be;
   0x6b901122; 0xfd987193; 0xa679438e; 0x49b40821; 0xf61e2562; 0xc040b340;
   0x265e5a51; 0xe9b6c7aa; 0xd62f105d; 0x02441453; 0xd8a1e681; 0xe7d3fbc8;
   0x21e1cde6; 0xc33707d6; 0xf4d50d87; 0x455a14ed; 0xa9e3e905; 0xfcefa3f8;
   0x676f02d9; 0x8d2a4c8a; 0xfffa3942; 0x8771f681; 0x6d9d6122; 0xfde5380c;
   0xa4beea44; 0x4bdecfa9; 0xf6bb4b60; 0xbebfbc70; 0x289b7ec6; 0xeaa127fa;
   0xd4ef3085; 0x04881d05; 0xd9d4d039; 0xe6db99e5; 0x1fa27cf8; 0xc4ac5665;
   0xf4292244; 0x432aff97; 0xab9423a7; 0xfc93a039; 0x655b59c3; 0x8f0ccc92;
   0xffeff47d; 0x85845dd1; 0x6fa87e4f; 0xfe2ce6e0; 0xa3014314; 0x4e0811a1;
   0xf7537e82; 0xbd3af235; 0x2ad7d2bb; 0xeb86d391].

Definition kShifts : list Z := [7; 12; 17; 22; 5; 9; 14; 20; 4; 11; 16; 23; 6; 10; 15; 21].

Definition kInitialIntermediateData : IntermediateData := mkData 0x67452301 0xefcdab89 0x98badcfe 0x10325476.

Definition read (array : list Z) (i : Z) : outcome Z := from_option_or OutOfBounds (array !! Z.to_nat i).

Section Code.
Context `{BuildMode}.

(** ** The padded message *)

Definition GetPaddedMessageLength (n : Z) : Z := u32 (u32 (u32 (u32 (n + 1) + 8) + 63) / 64 * 64).

Definition ExtractByte (value i : Z) : outcome Z :=
  _ ← RTC_DCHECK (i <? 8);
  v ← shr uint64_t value (u32 (i * 8));
  Ret (convert uint8_t (Z.land v 0xff)).

(** [data] holds values of [char], signed or not; they are read as [uint8_t]. *)
Definition GetPaddedMessageByte (data : list Z) (n m i : Z) : outcome Z :=
  _ ← RTC_DCHECK (i <? m); _ ← RTC_DCHECK (n <? m); _ ← RTC_DCHECK (m mod 64 =? 0);
  if i <? n then (c ← read data i; Ret (convert uint8_t c))
  else if i =? n then Ret 0x80
  else if u32 (m - 8) <=? i then ExtractByte (u32 (n * 8)) (u32 (i - u32 (m - 8)))
  else Ret 0.

Definition GetPaddedMessageWord (data : list Z) (n m i : Z) : outcome Z :=
  _ ← RTC_DCHECK (i mod 4 =? 0); _ ← RTC_DCHECK (i <? m); _ ← RTC_DCHECK (n <? m); _ ← RTC_DCHECK (m mod 64 =? 0);
  b0 ← GetPaddedMessageByte data n m i;
  b1 ← GetPaddedMessageByte data n m (u32 (i + 1)); s1 ← shl int32_t b1 8;
  b2 ← GetPaddedMessageByte data n m (u32 (i + 2)); s2 ← shl int32_t b2 16;
  b3 ← GetPaddedMessageByte data n m (u32 (i + 3)); s3 ← shl int32_t b3 24;
  Ret (Z.lor (Z.lor (Z.lor b0 (convert uint32_t s1)) (convert uint32_t s2)) (convert uint32_t s3)).

(** The sixteen words of the array, in the order of its initialiser. *)
Fixpoint round_words (data : list Z) (n m : Z) (offsets : list Z) : outcome (list Z) :=
  match offsets with
  | [] => Ret []
  | o :: offsets => w ← GetPaddedMessageWord data n m (u32 o); ws ← round_words data n m offsets; Ret (w :: ws)
  end.

Definition GetRoundData (data : list Z) (n m i : Z) : outcome (list Z) :=
  _ ← RTC_DCHECK (i mod 64 =? 0); _ ← RTC_DCHECK (i <? m); _ ← RTC_DCHECK (n <? m); _ ← RTC_DCHECK (m mod 64 =? 0);
  round_words data n m
    [i; i + 4; i + 8; i + 12; i + 16; i + 20; i + 24; i + 28; i + 32; i + 36; i + 40; i + 44; i + 48; i + 52; i + 56; i + 60].

(** ** The hash *)

Definition CalcF (i b c d : Z) : outcome Z :=
  _ ← RTC_DCHECK (i <? 64);
  Ret (if i <? 16 then Z.lxor d (Z.land b (Z.lxor c d))
       else if i <? 32 then Z.lxor c (Z.land d (Z.lxor b c))
       else if i <? 48 then Z.lxor (Z.lxor b c) d
       else Z.lxor c (Z.lor b (u32 (Z.lnot d)))).

Definition CalcG (i : Z) : outcome Z :=
  _ ← RTC_DCHECK (i <? 64);
  Ret (if i <? 16 then i
       else if i <? 32 then u32 (u32 (5 * i) + 1) mod 16
       else if i <? 48 then u32 (u32 (3 * i) + 5) mod 16
       else u32 (7 * i) mod 16).

Definition GetShift (i : Z) : outcome Z :=
  _ ← RTC_DCHECK (i <? 64);
  read kShifts (i / 16 * 4 + i mod 4).

Definition LeftRotate (value bits : Z) : outcome Z :=
  _ ← RTC_DCHECK (bits <? 32);
  l ← shl uint32_t value bits; r ← shr uint32_t value (u32 (32 - bits));
  Ret (Z.lor l r).

Definition ApplyStep (i : Z) (data : list Z) (x : IntermediateData) : outcome IntermediateData :=
  _ ← RTC_DCHECK (i <? 64);
  g ← CalcG i;
  _ ← RTC_DCHECK (g <? 16);
  mix ← CalcF i (md_b x) (md_c x) (md_d x); k ← read kConstants i; w ← read data g;
  let f := u32 (u32 (u32 (mix + md_a x) + k) + w) in
  s ← GetShift i;
  r ← LeftRotate f s;
  Ret (mkData (md_d x) (u32 (md_b x + r)) (md_b x) (md_c x)).

Definition Add (x y : IntermediateData) : IntermediateData :=
  mkData (u32 (md_a x + md_a y)) (u32 (md_b x + md_b y)) (u32 (md_c x + md_c y)) (u32 (md_d x + md_d y)).

(** [for (i = 0; i < 64; ++i)], [fuel] passes being left. *)
Fixpoint mix_loop (fuel : nat) (i : Z) (data : list Z) (x : IntermediateData) : outcome IntermediateData :=
  match fuel with
  | O => Ret x
  | S fuel => if i <? 64 then (y ← ApplyStep i data x; mix_loop fuel (u32 (i + 1)) data y) else Ret x
  end.

(** [for (offset = 0; offset < m; offset += 64)]. *)
Fixpoint message_loop (fuel : nat) (message : list Z) (n m offset : Z) (x : IntermediateData) : outcome IntermediateData :=
  match fuel with
  | O => Ret x
  | S fuel =>
      if offset <? m then
        (data ← GetRoundData message n m offset;
         y ← mix_loop 65 0 data x;
         message_loop fuel message n m (u32 (offset + 64)) (Add x y))
      else Ret x
  end.

Definition ProcessMessage (message : list Z) (n : Z) : outcome IntermediateData :=
  let m := GetPaddedMessageLength n in
  message_loop (S (Z.to_nat (m / 64))) message n m 0 kInitialIntermediateData.

(** ** Digest and hashes *)

(** [static_cast<uint8_t>((x >> s) & 0xff)] for the shifts 0, 8, 16 and 24. *)
Definition bytes_of (x : Z) : list Z :=
  map (λ s, convert uint8_t (Z.land (Z.shiftr x s) 0xff)) [0; 8; 16; 24].

Definition IntermediateDataToMD5Digest (x : IntermediateData) : list Z :=
  bytes_of (md_a x) ++ bytes_of (md_b x) ++ bytes_of (md_c x) ++ bytes_of (md_d x).

(** [while ( *end != 0) ++end;] on what follows [string] in memory. *)
Fixpoint strlen (string : list Z) : outcome Z :=
  match string with
  | [] => Crash OutOfBounds
  | c :: string => if c =? 0 then Ret 0 else (k ← strlen string; Ret (1 + k))
  end.

Definition StringLength (string : list Z) : outcome Z :=
  len ← strlen string;
  _ ← RTC_DCHECK (u32 len =? len);
  Ret (u32 len).

Definition SwapEndian (a : Z) : Z :=
  Z.lor (Z.lor (Z.lor (u32 (Z.shiftl (Z.land a 0xff) 24)) (u32 (Z.shiftl (Z.land (Z.shiftr a 8) 0xff) 16)))
               (u32 (Z.shiftl (Z.land (Z.shiftr a 16) 0xff) 8))) (Z.land (Z.shiftr a 24) 0xff).

Definition Sum (data : list Z) (n : Z) : outcome (list Z) :=
  x ← ProcessMessage data n; Ret (IntermediateDataToMD5Digest x).

Definition Hash64 (data : list Z) (n : Z) : outcome Z :=
  x ← ProcessMessage data n;
  Ret (Z.lor (convert uint64_t (Z.shiftl (SwapEndian (md_a x)) 32)) (SwapEndian (md_b x))).

Definition Hash32 (data : list Z) (n : Z) : outcome Z :=
  x ← ProcessMessage data n; Ret (SwapEndian (md_a x)).

Definition MD5SumConstexpr (string : list Z) : outcome (list Z) := n ← StringLength string; Sum string n.
Definition MD5Hash64Constexpr (string : list Z) : outcome Z := n ← StringLength string; Hash64 string n.
Definition MD5Hash32Constexpr (string : list Z) : outcome Z := n ← StringLength string; Hash32 string n.
End Code.

(** ** RFC 1321 *)

(** Steps 1 and 2: a single 1 bit, zeros up to 448 modulo 512 bits, and the
    length in bits as 64 bits. *)
Definition padded (message : list Z) : list Z :=
  let n := Z.of_nat (length message) in
  message ++ [0x80] ++ replicate (Z.to_nat ((55 - n) mod 64)) 0 ++ le_bytes 8 (8 * n mod 2 ^ 64).

(** The words of a part of the padded message. *)
Fixpoint words (k : nat) (bytes : list Z) : list Z :=
  match k with O => [] | S k => le_value (take 4 bytes) :: words k (drop 4 bytes) end.

(** Step 4: the auxiliary functions on 32-bit words. *)
Definition not32 (x : Z) : Z := 2 ^ 32 - 1 - x.
Definition rfc_F (x y z : Z) : Z := Z.lor (Z.land x y) (Z.land (not32 x) z).
Definition rfc_G (x y z : Z) : Z := Z.lor (Z.land x z) (Z.land y (not32 z)).
Definition rfc_H (x y z : Z) : Z := Z.lxor (Z.lxor x y) z.
Definition rfc_I (x y z : Z) : Z := Z.lxor y (Z.lor x (not32 z)).

(** [floor (2 ^ 32 * |sin (i + 1)|)], the sine by its power series in fixed
    point with 160 binary places. *)
Fixpoint sine_series (k : nat) (x : Z) (acc : Z) : Z :=
  match k with
  | O => x * acc
  | S k' => let j := 2 * Z.of_nat k in sine_series k' x (2 ^ 160 - x * x * acc / (j * (j + 1)))
  end.

Definition rfc_T (i : nat) : Z := Z.abs (sine_series 120 (Z.of_nat i + 1) (2 ^ 160)) / 2 ^ 128.

Definition rfc_k : list nat :=
  [0; 1; 2; 3; 4; 5; 6; 7; 8; 9; 10; 11; 12; 13; 14; 15;
   1; 6; 11; 0; 5; 10; 15; 4; 9; 14; 3; 8; 13; 2; 7; 12;
   5; 8; 11; 14; 1; 4; 7; 10; 13; 0; 3; 6; 9; 12; 15; 2;
   0; 7; 14; 5; 12; 3; 10; 1; 8; 15; 6; 13; 4; 11; 2; 9]%nat.

Definition rfc_s : list (list Z) := [[7; 12; 17; 22]; [5; 9; 14; 20]; [4; 11; 16; 23]; [6; 10; 15; 21]].

(** [x <<< s]: the high-order [s] bits become the low-order ones. *)
Definition rotl (x s : Z) : Z := (x * 2 ^ s) mod 2 ^ 32 + x / 2 ^ (32 - s).

Record registers := mkRegs { rA : Z; rB : Z; rC : Z; rD : Z }.

(** [a = b + ((a + F(b,c,d) + X[k] + T[i]) <<< s)], for the operation [i]. *)
Definition rfc_op (i : nat) (X : list Z) (a b c d : Z) : Z :=
  let f := match (i / 16)%nat with 0%nat => rfc_F | 1%nat => rfc_G | 2%nat => rfc_H | _ => rfc_I end in
  let s := nth (i mod 4) (nth (i / 16) rfc_s []) 0 in
  (b + rotl ((a + f b c d + nth (nth i rfc_k 0%nat) X 0 + rfc_T i) mod 2 ^ 32) s) mod 2 ^ 32.

(** [ABCD], [DABC], [CDAB], [BCDA] in turn. *)
Definition rfc_step (X : list Z) (r : registers) (i : nat) : registers :=
  match (i mod 4)%nat with
  | 0%nat => mkRegs (rfc_op i X (rA r) (rB r) (rC r) (rD r)) (rB r) (rC r) (rD r)
  | 1%nat => mkRegs (rA r) (rB r) (rC r) (rfc_op i X (rD r) (rA r) (rB r) (rC r))
  | 2%nat => mkRegs (rA r) (rB r) (rfc_op i X (rC r) (rD r) (rA r) (rB r)) (rD r)
  | _ => mkRegs (rA r) (rfc_op i X (rB r) (rC r) (rD r) (rA r)) (rC r) (rD r)
  end.

Definition rfc_block (r : registers) (X : list Z) : registers :=
  let r' := fold_left (rfc_step X) (seq 0 64) r in
  mkRegs ((rA r + rA r') mod 2 ^ 32) ((rB r + rB r') mod 2 ^ 32) ((rC r + rC r') mod 2 ^ 32) ((rD r + rD r') mod 2 ^ 32).

(** The 16-word blocks of the padded message. *)
Fixpoint blocks (k : nat) (bytes : list Z) : list (list Z) :=
  match k with O => [] | S k => words 16 bytes :: blocks k (drop 64 bytes) end.

Definition rfc_registers (message : list Z) : registers :=
  let p := padded message in
  fold_left rfc_block (blocks (length p / 64) p) (mkRegs 0x67452301 0xefcdab89 0x98badcfe 0x10325476).

Definition md5 (message : list Z) : list Z :=
  let r := rfc_registers message in le_bytes 4 (rA r) ++ le_bytes 4 (rB r) ++ le_bytes 4 (rC r) ++ le_bytes 4 (rD r).

Example sine_table_first : rfc_T 0 = 0xd76aa478.
Proof. vm_compute. reflexivity. Qed.

(** The digests of RFC 1321, appendix A.5, of the empty string and "abc". *)
Example md5_empty : md5 [] = [0xd4; 0x1d; 0x8c; 0xd9; 0x8f; 0x00; 0xb2; 0x04; 0xe9; 0x80; 0x09; 0x98; 0xec; 0xf8; 0x42; 0x7e].
Proof. vm_compute. reflexivity. Qed.

Example code_abc : @Sum debug_build [97; 98; 99] 3 =
  Ret [0x90; 0x01; 0x50; 0x98; 0x3c; 0xd2; 0x4f; 0xb0; 0xd6; 0x96; 0x3f; 0x7d; 0x28; 0xe1; 0x7f; 0x72].
Proof. vm_compute. reflexivity. Qed.

(** ** Words *)

Definition word (x : Z) : Prop := 0 ≤ x < 2 ^ 32.
Definition data_ok (x : IntermediateData) : Prop := word (md_a x) ∧ word (md_b x) ∧ word (md_c x) ∧ word (md_d x).

Lemma u32_word z : word (u32 z).
Proof. apply wrapU_range. lia. Qed.

Lemma u32_small z : word z → u32 z = z.
Proof. apply wrapU_small. Qed.

Lemma word_high x n : word x → 32 ≤ n → Z.testbit x n = false.
Proof. intros Hx Hn. rewrite <-(Z.mod_small x (2 ^ 32)) by apply Hx. by apply Z.mod_pow2_bits_high; lia. Qed.

Lemma not32_lnot x : word x → u32 (Z.lnot x) = not32 x.
Proof.
  intros Hx. unfold word in Hx. unfold u32, wrapU, not32, Z.lnot. apply (mod_unique_range _ _ _ (-1)); lia.
Qed.

Lemma not32_word x : word x → word (not32 x).
Proof. unfold word, not32. lia. Qed.

Lemma not32_bits x n : word x → 0 ≤ n → Z.testbit (not32 x) n = (n <? 32) && negb (Z.testbit x n).
Proof.
  intros Hx Hn. destruct (Z.ltb_spec n 32); simpl; [|apply word_high; [by apply not32_word|done]].
  rewrite <-not32_lnot by done. unfold u32, wrapU. rewrite Z.mod_pow2_bits_low by lia. by apply Z.lnot_spec.
Qed.

(** [by_bits] compares two words bit by bit. *)
Ltac by_bits :=
  apply Z.bits_inj'; intros n Hn;
  repeat first [rewrite Z.lxor_spec|rewrite Z.lor_spec|rewrite Z.land_spec|rewrite not32_bits by done];
  destruct (Z.ltb_spec n 32);
  [|repeat match goal with Hx : word ?x |- _ => rewrite (word_high x n Hx) by done; clear Hx end];
  repeat match goal with |- context [Z.testbit ?x n] => destruct (Z.testbit x n) end; reflexivity.

Lemma mix_F b c d : word b → word c → word d → Z.lxor d (Z.land b (Z.lxor c d)) = rfc_F b c d.
Proof. intros Hb Hc Hd. unfold rfc_F. by_bits. Qed.

Lemma mix_G b c d : word b → word c → word d → Z.lxor c (Z.land d (Z.lxor b c)) = rfc_G b c d.
Proof. intros Hb Hc Hd. unfold rfc_G. by_bits. Qed.

Lemma left_rotate `{BuildMode} v s : word v → 0 < s < 32 → LeftRotate v s = Ret (rotl v s).
Proof.
  intros Hv Hs. unfold word in Hv. unfold LeftRotate. pass. unfold shl, shr. simpl it_bits. rewrite (u32_small (32 - s)) by (unfold word; lia).
  replace ((s <? 0) || (32 <=? s)) with false by (symmetry; apply orb_false_iff; lia).
  replace ((32 - s <? 0) || (32 <=? 32 - s)) with false by (symmetry; apply orb_false_iff; lia). simpl. f_equal.
  unfold rotl, convert, wrapU. simpl. rewrite Z.shiftr_div_pow2 by lia.
  assert (2 ^ 32 = 2 ^ (32 - s) * 2 ^ s) as E by (rewrite <-Z.pow_add_r by lia; f_equal; lia).
  rewrite E, Z.mul_mod_distr_r by (apply Z.pow_nonzero; lia). rewrite Z.lor_comm, Z.add_comm. apply lor_shifted; [lia|].
  split; [apply Z.div_pos; [lia|apply pow2_pos; lia]|]. apply Z.div_lt_upper_bound; [apply pow2_pos; lia|]. lia.
Qed.

Lemma rotl_word v s : word v → 0 < s < 32 → word (rotl v s).
Proof.
  intros Hv Hs. unfold word in *. unfold rotl.
  assert (2 ^ 32 = 2 ^ (32 - s) * 2 ^ s) as E by (rewrite <-Z.pow_add_r by lia; f_equal; lia).
  assert (0 < 2 ^ s ∧ 0 < 2 ^ (32 - s)) as [Hp Hq] by (split; apply pow2_pos; lia).
  assert (0 ≤ v / 2 ^ (32 - s) < 2 ^ s) as Hd by (split; [apply Z.div_pos; lia|apply Z.div_lt_upper_bound; lia]).
  assert ((v * 2 ^ s) mod 2 ^ 32 ≤ (2 ^ (32 - s) - 1) * 2 ^ s ∧ 0 ≤ (v * 2 ^ s) mod 2 ^ 32) as Hm; [|lia].
  rewrite E, Z.mul_mod_distr_r by lia. pose proof (Z.mod_pos_bound v (2 ^ (32 - s)) Hq). split; [apply Z.mul_le_mono_nonneg_r; lia|].
  apply Z.mul_nonneg_nonneg; lia.
Qed.

(** ** A step *)

(** What holds of the 64 operations by computation. *)
Lemma table (P : nat → Prop) {D : ∀ i, Decision (P i)} i : forallb (λ i, bool_decide (P i)) (seq 0 64) = true → (i < 64)%nat → P i.
Proof.
  intros Hall Hi. rewrite forallb_forall in Hall. assert (In i (seq 0 64)) as Hin by (apply in_seq; lia).
  specialize (Hall i Hin). by apply bool_decide_eq_true in Hall.
Qed.

(** The constants are the sine table. *)
Lemma sine_table i : (i < 64)%nat → kConstants !! i = Some (rfc_T i).
Proof. apply (table (λ i, kConstants !! i = Some (rfc_T i))). vm_compute. reflexivity. Qed.

Lemma index_table `{BuildMode} i : (i < 64)%nat → CalcG (Z.of_nat i) = Ret (Z.of_nat (nth i rfc_k 0%nat)) ∧ (nth i rfc_k 0 < 16)%nat.
Proof.
  intros Hi. unfold CalcG. pass. split.
  - f_equal. apply (table (λ i, (if Z.of_nat i <? 16 then Z.of_nat i
       else if Z.of_nat i <? 32 then u32 (u32 (5 * Z.of_nat i) + 1) mod 16
       else if Z.of_nat i <? 48 then u32 (u32 (3 * Z.of_nat i) + 5) mod 16
       else u32 (7 * Z.of_nat i) mod 16) = Z.of_nat (nth i rfc_k 0%nat))); [vm_compute; reflexivity|done].
  - apply (table (λ i, (nth i rfc_k 0 < 16)%nat)); [vm_compute; reflexivity|done].
Qed.

(** The shift of the operation [i] in RFC 1321. *)
Definition rfc_shift (i : nat) : Z := nth (i mod 4) (nth (i / 16) rfc_s []) 0.

Lemma shift_table `{BuildMode} i : (i < 64)%nat → GetShift (Z.of_nat i) = Ret (rfc_shift i) ∧ 0 < rfc_shift i < 32.
Proof.
  intros Hi. unfold GetShift. pass. split.
  - apply (table (λ i, read kShifts (Z.of_nat i / 16 * 4 + Z.of_nat i mod 4) = Ret (rfc_shift i))); [vm_compute; reflexivity|done].
  - apply (table (λ i, 0 < rfc_shift i < 32)); [vm_compute; reflexivity|done].
Qed.

Lemma mix_function `{BuildMode} i b c d : (i < 64)%nat → word b → word c → word d →
  CalcF (Z.of_nat i) b c d =
  Ret ((match (i / 16)%nat with 0%nat => rfc_F | 1%nat => rfc_G | 2%nat => rfc_H | _ => rfc_I end) b c d).
Proof.
  intros Hi Hb Hc Hd. unfold CalcF. pass. f_equal.
  assert (∀ q, (q * 16 ≤ i < q * 16 + 16)%nat → (i / 16)%nat = q) as Hq.
  { intros q Hq. symmetry. apply (Nat.div_unique _ _ _ (i - q * 16)); lia. }
  repeat zcase; try lia.
  - rewrite (Hq 0%nat) by lia. by apply mix_F.
  - rewrite (Hq 1%nat) by lia. by apply mix_G.
  - by rewrite (Hq 2%nat) by lia.
  - rewrite (Hq 3%nat) by lia. unfold rfc_I. by rewrite not32_lnot.
Qed.

(** The roles [a], [b], [c], [d] of the registers before the operation [i]. *)
Definition view (i : nat) (r : registers) : IntermediateData :=
  match (i mod 4)%nat with
  | 0%nat => mkData (rA r) (rB r) (rC r) (rD r)
  | 1%nat => mkData (rD r) (rA r) (rB r) (rC r)
  | 2%nat => mkData (rC r) (rD r) (rA r) (rB r)
  | _ => mkData (rB r) (rC r) (rD r) (rA r)
  end.

Definition block_ok (X : list Z) : Prop := length X = 16%nat ∧ Forall word X.

Lemma read_lookup l i v : l !! i = Some v → read l (Z.of_nat i) = Ret v.
Proof. unfold read. rewrite Nat2Z.id. by intros ->. Qed.

Lemma step_op `{BuildMode} i X x : (i < 64)%nat → block_ok X → data_ok x →
  ApplyStep (Z.of_nat i) X x = Ret (mkData (md_d x) (rfc_op i X (md_a x) (md_b x) (md_c x) (md_d x)) (md_b x) (md_c x)) ∧
  word (rfc_op i X (md_a x) (md_b x) (md_c x) (md_d x)).
Proof.
  intros Hi [HX Hw] (Ha & Hb & Hc & Hd). destruct (index_table i Hi) as [Eg Hg]. destruct (shift_table i Hi) as [Es Hs].
  split; [|apply Z.mod_pos_bound; lia]. unfold ApplyStep. pass. rewrite Eg. do 2 pass. rewrite (mix_function i) by done. pass.
  rewrite (read_lookup kConstants i _ (sine_table i Hi)). pass.
  destruct (lookup_lt_is_Some_2 X (nth i rfc_k 0%nat) ltac:(lia)) as [w Ew]. rewrite (read_lookup X _ w Ew). pass.
  rewrite Es. pass. set (f := match (i / 16)%nat with 0%nat => _ | _ => _ end).
  rewrite left_rotate by (apply u32_word || done). pass. unfold rfc_op. fold f (rfc_shift i).
  rewrite (nth_lookup_Some X _ 0 w Ew). do 2 f_equal. unfold u32, wrapU. f_equal. f_equal. f_equal.
  rewrite Zplus_mod_idemp_l, <-Z.add_assoc, Zplus_mod_idemp_l. f_equal. lia.
Qed.

Lemma step_view `{BuildMode} i X r : (i < 64)%nat → block_ok X → data_ok (view i r) →
  ApplyStep (Z.of_nat i) X (view i r) = Ret (view (S i) (rfc_step X r i)) ∧ data_ok (view (S i) (rfc_step X r i)).
Proof.
  intros Hi HX Hx. destruct (step_op i X (view i r) Hi HX Hx) as [-> Hw]. unfold view, rfc_step in *.
  assert (S i mod 4 = (if (i mod 4 =? 3)%nat then 0 else S (i mod 4)))%nat as ->.
  { pose proof (Nat.div_mod_eq i 4). pose proof (Nat.mod_upper_bound i 4 ltac:(lia)). symmetry.
    destruct (Nat.eqb_spec (i mod 4) 3); [apply (Nat.mod_unique _ _ (S (i / 4)))|apply (Nat.mod_unique _ _ (i / 4))]; lia. }
  pose proof (Nat.mod_upper_bound i 4 ltac:(lia)). destruct (i mod 4)%nat as [|[|[|[|]]]]; [..|lia]; simpl in *;
    (split; [done|]); unfold data_ok in *; simpl in *; tauto.
Qed.

(** ** The padded message *)

Lemma le_bytes_lookup k v j : (j < k)%nat → le_bytes k v !! j = Some (v / 256 ^ Z.of_nat j mod 256).
Proof.
  revert v j. induction k as [|k IH]; intros v [|j] Hj; [lia|lia|simpl; by rewrite Z.div_1_r|]. cbn [le_bytes lookup list_lookup]. rewrite IH by lia.
  rewrite Z.div_div by (try apply pow2_pos; lia). by rewrite Nat2Z.inj_succ, Z.pow_succ_r by lia.
Qed.

Lemma extract_byte `{BuildMode} v j : 0 ≤ v < 2 ^ 64 → (j < 8)%nat → ExtractByte v (Z.of_nat j) = Ret (v / 256 ^ Z.of_nat j mod 256).
Proof.
  intros Hv Hj. unfold ExtractByte. pass. rewrite u32_small by (unfold word; lia). unfold shr. simpl it_bits.
  replace ((Z.of_nat j * 8 <? 0) || (64 <=? Z.of_nat j * 8)) with false by (symmetry; apply orb_false_iff; lia). simpl. f_equal.
  change 255 with (Z.ones 8). rewrite Z.land_ones, Z.shiftr_div_pow2 by lia. rewrite Z.mul_comm, Z.pow_mul_r by lia.
  change (2 ^ 8) with 256. unfold convert, wrapU. simpl. change (2 ^ 8) with 256. apply Zmod_mod.
Qed.

Lemma shl_int b s : is_byte b → (s = 8 ∨ s = 16 ∨ s = 24) → ∃ r, shl int32_t b s = Ret r ∧ convert uint32_t r = b * 2 ^ s.
Proof.
  intros Hb Hs. exists (convert int32_t (b * 2 ^ s)). split; [apply (shl_byte uint8_t); done || (simpl; lia)|].
  assert (0 ≤ b * 2 ^ s < 2 ^ 32) as Hlt by (unfold is_byte in Hb; destruct Hs as [-> |[-> | ->]]; lia).
  rewrite (convert_congr uint32_t _ (b * 2 ^ s)) by (try done; unfold convert, wrapS, wrapU; simpl; rewrite Zminus_mod_idemp_l; f_equal; lia).
  apply convert_in_range; [done|]. unfold values, int_min, int_max. simpl. lia.
Qed.

(** How the message is held: its characters, and what follows them. *)
Definition as_bytes (text : list Z) : list Z := map (wrapU 8) text.

Section Message.
Context `{BuildMode} (text rest : list Z).
Local Abbreviation n := (Z.of_nat (length text)).
Local Abbreviation p := (padded (as_bytes text)).
Local Abbreviation m := (GetPaddedMessageLength n).
Context (Hn : n < 2 ^ 29).

Lemma padded_length : m = Z.of_nat (length p) ∧ m mod 64 = 0 ∧ n + 9 ≤ m < 2 ^ 30.
Proof using Hn.
  unfold padded, as_bytes. rewrite !length_app, length_replicate, le_bytes_length, length_map. simpl length.
  unfold GetPaddedMessageLength. rewrite (u32_small (n + 1)), (u32_small (n + 1 + 8)), (u32_small (n + 1 + 8 + 63)) by (unfold word; lia).
  rewrite u32_small by (unfold word; Z.to_euclidean_division_equations; lia). rewrite Z.mod_mul by lia.
  Z.to_euclidean_division_equations; lia.
Qed.

Lemma padded_byte i : 0 ≤ i < m → ∃ b, p !! Z.to_nat i = Some b ∧ is_byte b ∧ GetPaddedMessageByte (text ++ rest) n m i = Ret b.
Proof using Hn.
  intros Hi. destruct padded_length as (Elen & Hm64 & Hm). unfold GetPaddedMessageByte. do 3 pass.
  assert (length (as_bytes text) = length text) as El by apply length_map.
  unfold padded in *. rewrite El in *. destruct (Z.ltb_spec i n) as [Hlt|Hge].
  - destruct (lookup_lt_is_Some_2 text (Z.to_nat i) ltac:(lia)) as [c Ec]. exists (wrapU 8 c).
    rewrite lookup_app_l by lia. unfold as_bytes. rewrite list_lookup_fmap, Ec. split; [done|]. split; [apply wrapU_range; lia|].
    unfold read. rewrite lookup_app_l by lia. by rewrite Ec.
  - rewrite lookup_app_r by lia. rewrite El. destruct (Z.eqb_spec i n) as [->|Hne].
    + exists 0x80. replace (Z.to_nat n - length text)%nat with 0%nat by lia. split; [done|]. by split.
    + rewrite lookup_app_r by (simpl; lia). simpl length. rewrite (u32_small (m - 8)) by (unfold word; lia).
      rewrite !length_app, length_replicate, le_bytes_length, El in Elen. simpl length in Elen.
      destruct (Z.leb_spec (m - 8) i) as [Hl8|Hz].
      * rewrite lookup_app_r by (rewrite length_replicate; lia). rewrite length_replicate.
        set (j := (Z.to_nat i - length text - 1 - Z.to_nat ((55 - n) mod 64))%nat).
        assert (i - (m - 8) = Z.of_nat j ∧ (j < 8)%nat) as [Ej Hj] by lia. rewrite Ej, le_bytes_lookup by done. eexists. split; [done|].
        split; [apply Z.mod_pos_bound; lia|]. rewrite (u32_small (n * 8)), (u32_small (Z.of_nat j)) by (unfold word; lia).
        rewrite extract_byte by lia. do 2 f_equal. rewrite Z.mod_small by lia. f_equal. lia.
      * rewrite lookup_app_l by (rewrite length_replicate; lia). exists 0. rewrite lookup_replicate_2 by lia. done.
Qed.

Lemma padded_word i : 0 ≤ i < m → i mod 4 = 0 → GetPaddedMessageWord (text ++ rest) n m i = Ret (le_value (take 4 (drop (Z.to_nat i) p))).
Proof using Hn.
  intros Hi Hi4. destruct padded_length as (Elen & Hm64 & Hm). assert (i + 3 < m) as Hi3 by (Z.to_euclidean_division_equations; lia).
  unfold GetPaddedMessageWord. do 4 pass.
  destruct (padded_byte i ltac:(lia)) as (b0 & L0 & B0 & ->). pass.
  rewrite (u32_small (i + 1)), (u32_small (i + 2)), (u32_small (i + 3)) by (unfold word; lia).
  destruct (padded_byte (i + 1) ltac:(lia)) as (b1 & L1 & B1 & ->). destruct (shl_int b1 8 B1 ltac:(lia)) as (s1 & E1 & C1). pass. rewrite E1. pass.
  destruct (padded_byte (i + 2) ltac:(lia)) as (b2 & L2 & B2 & ->). destruct (shl_int b2 16 B2 ltac:(lia)) as (s2 & E2 & C2). pass. rewrite E2. pass.
  destruct (padded_byte (i + 3) ltac:(lia)) as (b3 & L3 & B3 & ->). destruct (shl_int b3 24 B3 ltac:(lia)) as (s3 & E3 & C3). pass. rewrite E3. pass.
  rewrite C1, C2, C3. unfold is_byte in *. rewrite (lor_shifted b0), (lor_shifted (b0 + b1 * 2 ^ 8)), (lor_shifted (b0 + b1 * 2 ^ 8 + b2 * 2 ^ 16)) by lia.
  replace (Z.to_nat (i + 1)) with (S (Z.to_nat i)) in L1 by lia. replace (Z.to_nat (i + 2)) with (S (S (Z.to_nat i))) in L2 by lia.
  replace (Z.to_nat (i + 3)) with (S (S (S (Z.to_nat i)))) in L3 by lia.
  rewrite (drop_S _ _ _ L0), (drop_S _ _ _ L1), (drop_S _ _ _ L2), (drop_S _ _ _ L3). f_equal. simpl. lia.
Qed.

(** The words of a block. *)
Fixpoint word_offsets (k : nat) (o : Z) : list Z := match k with O => [] | S k => o :: word_offsets k (o + 4) end.

Lemma padded_words k o : 0 ≤ o → o mod 4 = 0 → o + 4 * Z.of_nat k ≤ m →
  round_words (text ++ rest) n m (word_offsets k o) = Ret (words k (drop (Z.to_nat o) p)).
Proof using Hn.
  destruct padded_length as (Elen & Hm64 & Hm). revert o. induction k as [|k IH]; intros o Ho Ho4 Hle; [done|]. cbn [word_offsets round_words words].
  rewrite u32_small, padded_word by (unfold word; lia). pass. rewrite IH by (try lia; Z.to_euclidean_division_equations; lia). pass.
  do 3 f_equal. rewrite drop_drop. f_equal. lia.
Qed.

Lemma round_data i : 0 ≤ i < m → i mod 64 = 0 → GetRoundData (text ++ rest) n m i = Ret (words 16 (drop (Z.to_nat i) p)).
Proof using Hn.
  intros Hi Hi64. destruct padded_length as (Elen & Hm64 & Hm). unfold GetRoundData. do 4 pass.
  match goal with |- round_words _ _ _ ?l = _ => replace l with (word_offsets 16 i) by (cbn [word_offsets]; repeat (apply f_equal2; [lia|]); done) end.
  apply padded_words; Z.to_euclidean_division_equations; lia.
Qed.

End Message.

Lemma padded_bytes text : Z.of_nat (length text) < 2 ^ 29 → bytes_ok (padded (as_bytes text)).
Proof.
  intros Hn. apply Forall_lookup_2. intros i b Hb. destruct (padded_length text Hn) as (Elen & _ & Hm).
  pose proof (list.lookup_lt_Some _ _ _ Hb) as Hi.
  destruct (@padded_byte release_build text [] Hn (Z.of_nat i) ltac:(lia)) as (b' & L & B & _). rewrite Nat2Z.id in L. rewrite Hb in L. by injection L as ->.
Qed.

Lemma words_ok k l : bytes_ok l → (4 * k ≤ length l)%nat → length (words k l) = k ∧ Forall word (words k l).
Proof.
  revert l. induction k as [|k IH]; intros l Hl Hk; [by split|]. cbn [words].
  destruct (IH (drop 4 l)) as [Hlen Hw]; [by apply Forall_drop|rewrite length_drop; lia|]. split; [simpl; by rewrite Hlen|].
  constructor; [|done]. pose proof (le_value_range (take 4 l) ltac:(by apply Forall_take)) as Hr.
  rewrite length_take_le in Hr by lia. exact Hr.
Qed.

(** ** The loops *)

Lemma ret_inj {A} (a b : A) : Ret a = Ret b → a = b.
Proof. by injection 1. Qed.

Lemma mix_loop_rfc `{BuildMode} X k i r : block_ok X → (i + k = 64)%nat → data_ok (view i r) →
  mix_loop (S k) (Z.of_nat i) X (view i r) = Ret (view 64 (fold_left (rfc_step X) (seq i k) r)) ∧
  data_ok (view 64 (fold_left (rfc_step X) (seq i k) r)).
Proof.
  intros HX. revert i r. induction k as [|k IH]; intros i r Hik Hx; cbn [mix_loop].
  - assert (i = 64%nat) as -> by lia. by split.
  - replace (Z.of_nat i <? 64) with true by lia. destruct (step_view i X r ltac:(lia) HX Hx) as [-> Hx']. pass.
    rewrite u32_small by (unfold word; lia). replace (Z.of_nat i + 1) with (Z.of_nat (S i)) by lia. cbn [seq fold_left]. apply IH; [lia|done].
Qed.

Lemma block_rfc `{BuildMode} X r : block_ok X → data_ok (view 0 r) →
  (y ← mix_loop 65 0 X (view 0 r); Ret (Add (view 0 r) y)) = Ret (view 0 (rfc_block r X)) ∧ data_ok (view 0 (rfc_block r X)).
Proof.
  intros HX Hx. destruct (mix_loop_rfc X 64 0 r HX eq_refl Hx) as [E _]. change (Z.of_nat 0) with 0 in E. rewrite E, bind_ret.
  unfold rfc_block. generalize (fold_left (rfc_step X) (seq 0 64) r). intros r'. split; [done|].
  unfold data_ok, word. simpl. split_and!; apply Z.mod_pos_bound; lia.
Qed.

Lemma message_loop_S `{BuildMode} fuel message n m offset x : message_loop (S fuel) message n m offset x =
  if offset <? m then
    (data ← GetRoundData message n m offset; y ← mix_loop 65 0 data x; message_loop fuel message n m (u32 (offset + 64)) (Add x y))
  else Ret x.
Proof. done. Qed.

Lemma message_loop_rfc `{BuildMode} text rest k j r : Z.of_nat (length text) < 2 ^ 29 → data_ok (view 0 r) →
  GetPaddedMessageLength (Z.of_nat (length text)) = 64 * (Z.of_nat j + Z.of_nat k) →
  message_loop (S k) (text ++ rest) (Z.of_nat (length text)) (GetPaddedMessageLength (Z.of_nat (length text))) (64 * Z.of_nat j) (view 0 r) =
    Ret (view 0 (fold_left rfc_block (blocks k (drop (64 * j) (padded (as_bytes text)))) r)) ∧
  data_ok (view 0 (fold_left rfc_block (blocks k (drop (64 * j) (padded (as_bytes text)))) r)).
Proof.
  intros Hn. destruct (padded_length text Hn) as (Elen & _ & Hm). revert j r. induction k as [|k IH]; intros j r Hx Em; rewrite message_loop_S.
  - replace (64 * Z.of_nat j <? _) with false by lia. by split.
  - replace (64 * Z.of_nat j <? _) with true by lia. assert ((64 * Z.of_nat j) mod 64 = 0) as H64 by (Z.to_euclidean_division_equations; lia).
    rewrite (round_data text rest Hn) by (done || lia). pass.
    replace (Z.to_nat (64 * Z.of_nat j)) with (64 * j)%nat by lia. set (X := words 16 _).
    assert (block_ok X) as HX.
    { apply words_ok; [apply Forall_drop, padded_bytes; done|]. rewrite length_drop. lia. }
    destruct (block_rfc X r HX Hx) as [E Hx']. destruct (mix_loop 65 0 X (view 0 r)) as [y|]; [|done]. rewrite bind_ret in E |- *.
    apply ret_inj in E. rewrite E, u32_small by (unfold word; lia). replace (64 * Z.of_nat j + 64) with (64 * Z.of_nat (S j)) by lia.
    cbn [blocks fold_left]. fold X. rewrite drop_drop. replace (64 * j + 64)%nat with (64 * S j)%nat by lia. apply IH; [done|lia].
Qed.

Lemma process_message `{BuildMode} text rest : Z.of_nat (length text) < 2 ^ 29 →
  ProcessMessage (text ++ rest) (Z.of_nat (length text)) = Ret (view 0 (rfc_registers (as_bytes text))) ∧
  data_ok (view 0 (rfc_registers (as_bytes text))).
Proof.
  intros Hn. destruct (padded_length text Hn) as (Elen & Hm64 & Hm). unfold ProcessMessage, rfc_registers.
  assert (GetPaddedMessageLength (Z.of_nat (length text)) = 64 * Z.of_nat (length (padded (as_bytes text)) / 64)) as Em.
  { rewrite Nat2Z.inj_div, <-Elen. change (Z.of_nat 64) with 64. pose proof (Z.div_mod (GetPaddedMessageLength (Z.of_nat (length text))) 64). lia. }
  assert (Z.to_nat (GetPaddedMessageLength (Z.of_nat (length text)) / 64) = length (padded (as_bytes text)) / 64)%nat as ->.
  { rewrite Em at 1. rewrite Z.mul_comm, Z.div_mul by lia. lia. }
  change kInitialIntermediateData with (view 0 (mkRegs 0x67452301 0xefcdab89 0x98badcfe 0x10325476)).
  apply (message_loop_rfc text rest _ 0 _ Hn); [by vm_compute|lia].
Qed.

(** ** Digests *)

Lemma bytes_le x : word x → bytes_of x = le_bytes 4 x.
Proof.
  intros Hx. unfold bytes_of. simpl. change 255 with (Z.ones 8). rewrite !Z.land_ones, !Z.shiftr_div_pow2 by lia.
  unfold convert, wrapU. simpl. change (2 ^ 8) with 256. rewrite !Zmod_mod, Z.div_1_r, !Z.div_div by lia. done.
Qed.

Lemma lor_four a b c d : is_byte a → is_byte b → is_byte c → is_byte d →
  Z.lor (Z.lor (Z.lor (a * 2 ^ 24) (b * 2 ^ 16)) (c * 2 ^ 8)) d = a * 2 ^ 24 + b * 2 ^ 16 + c * 2 ^ 8 + d.
Proof.
  unfold is_byte. intros Ha Hb Hc Hd. rewrite (Z.lor_comm _ d), (Z.lor_comm _ (c * 2 ^ 8)), (Z.lor_comm (a * 2 ^ 24)), !Z.lor_assoc.
  rewrite (lor_shifted _ _ 8), (lor_shifted _ _ 16), (lor_shifted _ _ 24) by lia. lia.
Qed.

Lemma swap_endian x : word x → SwapEndian x = be_value (le_bytes 4 x).
Proof.
  intros Hx. unfold word in Hx. unfold SwapEndian. change 255 with (Z.ones 8). rewrite !Z.land_ones, !Z.shiftr_div_pow2, !Z.shiftl_mul_pow2 by lia.
  assert (∀ z, is_byte (z mod 2 ^ 8)) as Hb by (intros z; by apply Z.mod_pos_bound).
  assert (∀ z s, 0 ≤ s ≤ 24 → word (z mod 2 ^ 8 * 2 ^ s)) as Hw.
  { intros z s Hs. pose proof (Hb z) as Hz. unfold is_byte, word in *. pose proof (pow2_pos s ltac:(lia)).
    assert (2 ^ s ≤ 2 ^ 24) by (apply Z.pow_le_mono_r; lia). nia. }
  rewrite !u32_small by (apply Hw; lia). rewrite lor_four by apply Hb. unfold be_value. simpl.
  rewrite !Z.div_div by lia. change (2 ^ 8) with 256. change (2 ^ 16) with (256 * 256). change (2 ^ 24) with (256 * 256 * 256). lia.
Qed.

Lemma be_value_app l l' : be_value (l ++ l') = be_value l * 2 ^ (8 * Z.of_nat (length l')) + be_value l'.
Proof.
  induction l' as [|b l' IH] using rev_ind; [rewrite app_nil_r; unfold be_value at 3; simpl; lia|].
  rewrite app_assoc, !be_value_snoc, IH, length_app. simpl length.
  replace (8 * Z.of_nat (length l' + 1)) with (8 * Z.of_nat (length l') + 8) by lia. rewrite Z.pow_add_r by lia. lia.
Qed.

Lemma strlen_text text rest : Forall (λ c, c ≠ 0) text → strlen (text ++ 0 :: rest) = Ret (Z.of_nat (length text)).
Proof.
  induction 1 as [|c text Hc Hall IH]; [done|]. cbn [strlen app]. rewrite IH. rewrite (proj2 (Z.eqb_neq c 0) Hc), bind_ret. f_equal. simpl length. lia.
Qed.

(** C20: the compile-time MD5 computes the digest of RFC 1321: for a message of
    [length text] characters (less than [2 ^ 29] of them), whatever follows it
    in memory, every read is inside the message, every [DCHECK] holds, [Sum]
    returns the digest, and [Hash64] and [Hash32] are its first eight and four
    bytes read as a big-endian number, as the header promises; the variant
    without a length hashes the characters before the terminating null. *)
Theorem md5_constexpr_exact `{BuildMode} (text rest : list Z) : Z.of_nat (length text) < 2 ^ 29 →
  let digest := md5 (as_bytes text) in
  Sum (text ++ rest) (Z.of_nat (length text)) = Ret digest ∧
  Hash64 (text ++ rest) (Z.of_nat (length text)) = Ret (be_value (take 8 digest)) ∧
  Hash32 (text ++ rest) (Z.of_nat (length text)) = Ret (be_value (take 4 digest)) ∧
  (Forall (λ c, c ≠ 0) text → MD5SumConstexpr (text ++ 0 :: rest) = Ret digest).
Proof.
  intros Hn digest. destruct (process_message text rest Hn) as [E (Ha & Hb & Hc & Hd)]. subst digest.
  assert (∀ rest, Sum (text ++ rest) (Z.of_nat (length text)) = Ret (md5 (as_bytes text))) as Hsum.
  { intros rest'. unfold Sum. destruct (process_message text rest' Hn) as [-> _]. rewrite bind_ret. unfold IntermediateDataToMD5Digest.
    by rewrite !bytes_le by done. }
  split; [apply Hsum|]. unfold Hash64, Hash32. rewrite E, !bind_ret, !swap_endian by done. unfold md5.
  set (r := rfc_registers _) in *. change (md_a (view 0 r)) with (rA r) in *. change (md_b (view 0 r)) with (rB r) in *.
  assert (∀ x, word x → 0 ≤ be_value (le_bytes 4 x) < 2 ^ 32) as Hbe.
  { intros x Hx. pose proof (be_value_range (le_bytes 4 x) (le_bytes_ok 4 x)) as Hr. by rewrite le_bytes_length in Hr. }
  pose proof (Hbe _ Ha) as Hra. pose proof (Hbe _ Hb) as Hrb. split; [|split].
  - rewrite app_assoc, take_app_le, take_ge by (rewrite length_app, !le_bytes_length; lia). rewrite be_value_app, le_bytes_length. f_equal.
    unfold convert, wrapU. simpl it_bits. simpl it_signed. rewrite Z.shiftl_mul_pow2, Z.mod_small by lia.
    rewrite Z.lor_comm, lor_shifted by lia. change (8 * Z.of_nat 4) with 32. lia.
  - rewrite take_app_le, take_ge by (rewrite le_bytes_length; lia). done.
  - intros Hnz. unfold MD5SumConstexpr, StringLength. rewrite strlen_text by done. pass. rewrite !u32_small by (unfold word; lia). do 2 pass. apply Hsum.
Qed.

Lemma md5_constexpr_exact_witness :
  @Sum debug_build [97; 98; 99] 3 = Ret (md5 [97; 98; 99]) ∧ @MD5SumConstexpr debug_build [97; 98; 99; 0; 7] = Ret (md5 [97; 98; 99]).
Proof.
  destruct (@md5_constexpr_exact debug_build [97; 98; 99] []) as (H1 & _); [simpl; lia|].
  destruct (@md5_constexpr_exact debug_build [97; 98; 99] [7]) as (_ & _ & _ & H2); [simpl; lia|].
  split; [exact H1|apply H2; repeat constructor; discriminate].
Defined.

(** From [2 ^ 29] characters on the length field is not that of RFC 1321: the
    product [n * 8] is computed in 32 bits, so its four high-order bytes are
    always zero. *)
Theorem md5_length_field_truncated `{BuildMode} data n j : 2 ^ 29 ≤ n < 2 ^ 32 - 72 → (j < 8)%nat →
  let m := GetPaddedMessageLength n in
  GetPaddedMessageByte data n m (m - 8 + Z.of_nat j) = Ret ((8 * n mod 2 ^ 32) / 256 ^ Z.of_nat j mod 256) ∧
  (8 * n) / 256 ^ 4 mod 256 ≠ 0 ∧ (8 * n mod 2 ^ 32) / 256 ^ 4 = 0.
Proof.
  intros Hn Hj m.
  assert (m mod 64 = 0 ∧ n + 9 ≤ m < 2 ^ 32) as [Hm64 Hm].
  { unfold m, GetPaddedMessageLength. rewrite (u32_small (n + 1)), (u32_small (n + 1 + 8)), (u32_small (n + 1 + 8 + 63)) by (unfold word; lia).
    rewrite u32_small by (unfold word; Z.to_euclidean_division_equations; lia). Z.to_euclidean_division_equations; lia. }
  split; [|change (256 ^ 4) with (2 ^ 32); Z.to_euclidean_division_equations; lia].
  unfold GetPaddedMessageByte. do 3 pass. rewrite (u32_small (m - 8)) by (unfold word; lia). repeat zcase; try lia.
  replace (m - 8 + Z.of_nat j - (m - 8)) with (Z.of_nat j) by lia. rewrite (u32_small (Z.of_nat j)) by (unfold word; lia).
  pose proof (u32_word (n * 8)) as Hw. unfold word in Hw. rewrite extract_byte by lia. unfold u32, wrapU. by rewrite Z.mul_comm.
Qed.
