(* ===== verification/StringReplace.v ===== *)
(** * Replacing the matches in a string

    Model of [DoReplaceMatchesAfterOffset], its two matchers and
    [ReplaceCharsT] of [src/include/base/strings/string_util_internal.h].  The
    function works in place with four strategies chosen by the lengths and the
    capacity; the model keeps the buffer, every offset at the width of
    [size_t], and the bounds of every copy and move.  The result is compared
    with a left-to-right definition of replacement. *)

From S2P Require Import Prelude.

(** ** Matchers *)

(** A matcher is given by what it matches at the head of a string. *)
Class Matcher (A : Type) := {
  MatchSize : nat;
  matches : list A → bool;
}.

(** A match has the length [MatchSize] of the string it is found in. *)
Class MatcherLaws (A : Type) {M : Matcher A} := {
  match_fits : ∀ l, matches l = true → (MatchSize ≤ length l)%nat;
}.

Definition SubstringMatcher {A} `{EqDecision A} (find_this : list A) : Matcher A :=
  {| MatchSize := length find_this; matches l := bool_decide (take (length find_this) l = find_this) |}.

Definition CharacterMatcher {A} `{EqDecision A} (find_any_of_these : list A) : Matcher A :=
  {| MatchSize := 1; matches l := match l with [] => false | c :: _ => bool_decide (c ∈ find_any_of_these) end |}.

Lemma substring_laws {A} `{EqDecision A} (find_this : list A) : @MatcherLaws A (SubstringMatcher find_this).
Proof.
  constructor. intros l Hl. simpl in *. apply bool_decide_eq_true in Hl. rewrite <-Hl at 1. rewrite length_take. lia.
Qed.

Lemma character_laws {A} `{EqDecision A} (find_any_of_these : list A) : @MatcherLaws A (CharacterMatcher find_any_of_these).
Proof. constructor. intros [|c l] Hl; [done|]. simpl. lia. Qed.

#[export] Hint Resolve substring_laws character_laws : typeclass_instances.

Inductive ReplaceType := REPLACE_ALL | REPLACE_FIRST.

Section Replace.
Context {A : Type} (nul : A) {M : Matcher A} (size_bits : Z).

(** [size_t] of the platform. *)
Definition sz (z : Z) : Z := wrapU size_bits z.
Definition npos : Z := 2 ^ size_bits - 1.

(** ** The operations of [std::basic_string] used *)

Definition len (s : list A) : Z := Z.of_nat (length s).

(** The first index at or after [i] where [s] continues with a match, [l] being
    [s] from [i] on. *)
Fixpoint search (l : list A) (i : Z) : Z :=
  match l with
  | [] => npos
  | _ :: l' => if matches l then i else search l' (i + 1)
  end.

Definition Find (s : list A) (pos : Z) : Z := search (drop (Z.to_nat pos) s) pos.

Definition substring (s : list A) (pos n : Z) : outcome (list A) :=
  if len s <? pos then Crash OutOfBounds else Ret (take (Z.to_nat n) (drop (Z.to_nat pos) s)).

(** [replace (pos, n, w)]; [n] is cut at the end of the string. *)
Definition string_replace (s : list A) (pos n : Z) (w : list A) : outcome (list A) :=
  if len s <? pos then Crash OutOfBounds
  else Ret (take (Z.to_nat pos) s ++ w ++ drop (Z.to_nat (pos + Z.min n (len s - pos))) s).

Definition resize (s : list A) (n : Z) : list A := take (Z.to_nat n) s ++ replicate (Z.to_nat n - length s) nul.

(** [CharTraits::copy (buffer + offset, w, length w)]. *)
Definition copy (s : list A) (offset : Z) (w : list A) : outcome (list A) :=
  if offset + len w <=? len s
  then Ret (take (Z.to_nat offset) s ++ w ++ drop (Z.to_nat offset + length w) s)
  else Crash OutOfBounds.

(** [CharTraits::move (buffer + dst, buffer + src, n)]; the ranges may overlap. *)
Definition move (s : list A) (dst src n : Z) : outcome (list A) :=
  if src + n <=? len s then copy s dst (take (Z.to_nat n) (drop (Z.to_nat src) s)) else Crash OutOfBounds.

(** ** DoReplaceMatchesAfterOffset *)

Context (replace_with : list A).
Definition find_length : Z := Z.of_nat MatchSize.
Definition replace_length : Z := len replace_with.

(** The loop for replacements of the length of a match. *)
Fixpoint same_loop (fuel : nat) (s : list A) (offset : Z) : outcome (list A) :=
  if offset =? npos then Ret s
  else match fuel with
       | O => Ret s
       | S fuel =>
           s' ← copy s offset replace_with;
           same_loop fuel s' (Find s' (sz (offset + replace_length)))
       end.

(** The loop that counts the matches. *)
Fixpoint count_loop (fuel : nat) (s : list A) (match_ expansion num_matches : Z) : Z * Z :=
  if match_ =? npos then (expansion, num_matches)
  else match fuel with
       | O => (expansion, num_matches)
       | S fuel =>
           count_loop fuel s (Find s (sz (match_ + find_length)))
             (sz (expansion + sz (replace_length - find_length))) (sz (num_matches + 1))
       end.

(** The loop that builds the result in a new buffer: [str] and [pos]. *)
Fixpoint append_loop (fuel : nat) (src str : list A) (pos match_ num_matches : Z) : outcome (list A * Z) :=
  match fuel with
  | O => Ret (str, pos)
  | S fuel =>
      part ← substring src pos (sz (match_ - pos));
      let str := str ++ part ++ replace_with in
      let pos := sz (match_ + find_length) in
      let num_matches := sz (num_matches - 1) in
      if num_matches =? 0 then Ret (str, pos)
      else append_loop fuel src str pos (Find src pos) num_matches
  end.

(** The loop that alternates replacements and moves; the buffer and
    [write_offset]. *)
Fixpoint shift_loop (fuel : nat) (str_length : Z) (s : list A) (write_offset read_offset : Z) : outcome (list A * Z) :=
  match fuel with
  | O => Ret (s, write_offset)
  | S fuel =>
      '(s, write_offset) ←
        (if replace_length =? 0 then Ret (s, write_offset)
         else (s ← copy s write_offset replace_with; Ret (s, sz (write_offset + replace_length))));
      let read_offset := sz (read_offset + find_length) in
      let match_ := Z.min (Find s read_offset) str_length in
      let length := sz (match_ - read_offset) in
      '(s, write_offset, read_offset) ←
        (if length =? 0 then Ret (s, write_offset, read_offset)
         else (s ← move s write_offset read_offset length;
               Ret (s, sz (write_offset + length), sz (read_offset + length))));
      if read_offset <? str_length then shift_loop fuel str_length s write_offset read_offset
      else Ret (s, write_offset)
  end.

(** From the comment "We can alternate replacement and move operations". *)
Definition shift_matches (s : list A) (str_length first_match expansion : Z) : outcome (bool * list A) :=
  '(s, write_offset) ← shift_loop (S (length s)) str_length s first_match (sz (first_match + expansion));
  Ret (true, resize s write_offset).

(** The branch for a replacement longer than a match. *)
Definition lengthen (capacity : Z) (s : list A) (first_match : Z) : outcome (bool * list A) :=
  let str_length := len s in
  let '(expansion, num_matches) := count_loop (S (length s)) s first_match 0 0 in
  let final_length := sz (str_length + expansion) in
  if capacity <? final_length then
    ('(str, pos) ← append_loop (S (length s)) s [] 0 first_match num_matches;
     rest ← substring s pos (sz (str_length - pos));
     Ret (true, str ++ rest))
  else
    let shift_src := sz (first_match + find_length) in
    let shift_dst := sz (shift_src + expansion) in
    let s := if str_length <? shift_dst then resize s shift_dst else s in
    tail ← substring s shift_src (sz (str_length - shift_src));
    s ← string_replace s shift_dst (sz (str_length - shift_src)) tail;
    shift_matches s final_length first_match expansion.

(** The function: whether anything was replaced, and the string; [capacity] is
    that of the string. *)
Definition DoReplaceMatchesAfterOffset (capacity : Z) (s : list A) (initial_offset : Z) (replace_type : ReplaceType) : outcome (bool * list A) :=
  if find_length =? 0 then Ret (false, s)
  else
    let first_match := Find s initial_offset in
    if first_match =? npos then Ret (false, s)
    else match replace_type with
         | REPLACE_FIRST => s ← string_replace s first_match find_length replace_with; Ret (true, s)
         | REPLACE_ALL =>
             if find_length =? replace_length then (s ← same_loop (S (length s)) s first_match; Ret (true, s))
             else if find_length <? replace_length then lengthen capacity s first_match
             else shift_matches s (len s) first_match 0
         end.

(** ** Specification *)

(** Left to right: where a match starts the replacement takes its place, and the
    search goes on behind it; [skip] characters of a match are still to pass. *)
Fixpoint replace_all (skip : nat) (l : list A) : list A :=
  match l with
  | [] => []
  | c :: l' =>
      match skip with
      | S skip => replace_all skip l'
      | O => if matches l then replace_with ++ replace_all (MatchSize - 1) l' else c :: replace_all 0 l'
      end
  end.

Fixpoint replace_first (l : list A) : list A :=
  match l with
  | [] => []
  | c :: l' => if matches l then replace_with ++ drop MatchSize l else c :: replace_first l'
  end.

Fixpoint has_match (l : list A) : bool := match l with [] => false | _ :: l' => matches l || has_match l' end.

(** The matches that are replaced. *)
Fixpoint count_matches (skip : nat) (l : list A) : nat :=
  match l with
  | [] => 0
  | _ :: l' =>
      match skip with
      | S skip => count_matches skip l'
      | O => if matches l then S (count_matches (MatchSize - 1) l') else count_matches 0 l'
      end
  end.
End Replace.

(** [ReplaceCharsT], which copies the input unless the output is the same string. *)
Definition ReplaceCharsT {A} `{EqDecision A} (nul : A) (size_bits capacity : Z) (input find_any_of_these replace_with : list A) : outcome (bool * list A) :=
  @DoReplaceMatchesAfterOffset A nul (CharacterMatcher find_any_of_these) size_bits replace_with capacity input 0 REPLACE_ALL.

Example replace_grow : ∀ capacity, capacity ∈ [0; 5; 11; 64] →
  @DoReplaceMatchesAfterOffset Z 0 (SubstringMatcher [1; 1]) 64 [7; 8; 9; 9] capacity [1; 1; 1; 5; 1; 1] 0 REPLACE_ALL
  = Ret (true, [7; 8; 9; 9; 1; 5; 7; 8; 9; 9]).
Proof. intros c Hc. repeat (apply list.elem_of_cons in Hc as [-> |Hc]; [vm_compute; reflexivity|]). by apply elem_of_nil in Hc. Qed.

Example replace_shrink :
  @DoReplaceMatchesAfterOffset Z 0 (SubstringMatcher [1; 1]) 64 [7] 6 [4; 1; 1; 1; 5; 1; 1; 2] 0 REPLACE_ALL = Ret (true, [4; 7; 1; 5; 7; 2]).
Proof. vm_compute. reflexivity. Qed.

(** ** The first match of a string *)

Section Proofs.
Context {A : Type} (nul : A) {M : Matcher A} {ML : MatcherLaws A} (size_bits : Z) (replace_with : list A).
Context (Hfind : MatchSize ≠ 0%nat) (Hbits : 1 < size_bits).
Local Abbreviation F := (@MatchSize A M).
Local Abbreviation R := (length replace_with).
Local Abbreviation npos := (npos size_bits).
Local Abbreviation sz := (sz size_bits).
Local Abbreviation repl := (replace_all replace_with).

Fixpoint first_match (l : list A) : option nat :=
  match l with [] => None | _ :: l' => if matches l then Some 0%nat else S <$> first_match l' end.

Lemma search_first l i : search size_bits l i = match first_match l with Some k => i + Z.of_nat k | None => npos end.
Proof.
  revert i. induction l as [|c l IH]; intros i; [done|]. cbn [search first_match]. destruct (matches (c :: l)); [lia|]. rewrite IH.
  destruct (first_match l); simpl; [lia|done].
Qed.

Lemma find_app done rem : Find size_bits (done ++ rem) (len done) =
  match first_match rem with Some k => len (done ++ take k rem) | None => npos end.
Proof.
  unfold Find, len. rewrite Nat2Z.id, drop_app_length, search_first. destruct (first_match rem) as [k|] eqn:E; [|done].
  rewrite length_app, length_take. assert (k < length rem)%nat; [|lia]. clear - E. revert k E. induction rem as [|c l IH]; [done|].
  intros k. cbn [first_match length]. destruct (matches (c :: l)); [intros [= <-]; lia|]. destruct (first_match l) as [j|]; [|done].
  intros [= <-]. specialize (IH j eq_refl). lia.
Qed.

Lemma skip_drop k l : repl k l = repl 0 (drop k l) ∧ count_matches k l = count_matches 0 (drop k l).
Proof. revert k. induction l as [|c l IH]; intros [|k]; try done. apply IH. Qed.

(** What a match at the head of a string contributes. *)
Lemma match_head l : matches l = true → l ≠ [] →
  repl 0 l = replace_with ++ repl 0 (drop F l) ∧ count_matches 0 l = S (count_matches 0 (drop F l)) ∧ (F ≤ length l)%nat.
Proof using ML Hfind Hbits.
  intros Hm Hl. pose proof (match_fits l Hm) as Hfit. destruct l as [|c l]; [done|]. cbn [replace_all count_matches]. rewrite Hm.
  destruct (skip_drop (F - 1) l) as [-> ->]. replace (drop F (c :: l)) with (drop (F - 1) l); [done|].
  destruct F as [|f]; [done|]. simpl. by rewrite Nat.sub_0_r.
Qed.

(** What comes before the first match is kept. *)
Lemma first_match_spec l :
  match first_match l with
  | Some k => (k < length l)%nat ∧ matches (drop k l) = true ∧ repl 0 l = take k l ++ repl 0 (drop k l) ∧
              replace_first replace_with l = take k l ++ replace_with ++ drop F (drop k l) ∧
              count_matches 0 l = count_matches 0 (drop k l) ∧ has_match l = true
  | None => repl 0 l = l ∧ replace_first replace_with l = l ∧ count_matches 0 l = 0%nat ∧ has_match l = false
  end.
Proof using ML Hfind Hbits.
  induction l as [|c l IH]; [done|]. cbn [first_match replace_all count_matches has_match replace_first].
  destruct (matches (c :: l)) eqn:Hm; [cbn [drop take app length]; cbn [replace_all count_matches]; rewrite !Hm; split; [lia|done]|].
  destruct (first_match l) as [k|]; simpl; [|destruct IH as (-> & -> & -> & ->); done].
  destruct IH as (Hk & Hd & -> & -> & -> & ->). split; [lia|done].
Qed.

Lemma count_bound l : (count_matches 0 l * F ≤ length l)%nat ∧
  length (repl 0 l) = (length l - count_matches 0 l * F + count_matches 0 l * R)%nat.
Proof using ML Hfind Hbits.
  induction l as [l IH] using (induction_ltof1 _ (@length A)). unfold ltof in IH.
  pose proof (first_match_spec l) as Hs. destruct (first_match l) as [k|]; [|destruct Hs as (-> & _ & -> & _); lia].
  destruct Hs as (Hk & Hm & -> & _ & -> & _). destruct (match_head (drop k l) Hm) as (-> & -> & Hf).
  { intros E. apply (f_equal length) in E. rewrite length_drop in E. simpl in E. lia. }
  rewrite length_drop in Hf. destruct (IH (drop F (drop k l)) ltac:(rewrite !length_drop; lia)) as [IH1 IH2].
  rewrite !length_app, length_take, IH2. rewrite !length_drop in *. lia.
Qed.

(** ** Offsets *)

Definition fits (n : nat) : Prop := Z.of_nat n < npos.

Lemma sz_small z : 0 ≤ z ≤ npos → sz z = z.
Proof using ML Hfind Hbits. intros Hz. apply wrapU_small. unfold StringReplace.npos in Hz. lia. Qed.

Lemma len_npos (s : list A) : fits (length s) → (len s =? npos) = false.
Proof using ML Hfind Hbits. intros Hs. apply Z.eqb_neq. unfold fits, len in *. lia. Qed.

Lemma find_offset done rem z : fits (length (done ++ rem)) → z = len done →
  Find size_bits (done ++ rem) (sz z) = match first_match rem with Some k => len (done ++ take k rem) | None => npos end.
Proof using ML Hfind Hbits.
  intros Hs ->. rewrite sz_small by (unfold fits, len in *; rewrite length_app in Hs; lia). apply find_app.
Qed.

Lemma copy_app (done rem w : list A) : (length w ≤ length rem)%nat → copy (done ++ rem) (len done) w = Ret (done ++ w ++ drop (length w) rem).
Proof using ML Hfind Hbits.
  intros Hw. unfold copy, len. rewrite length_app. replace (Z.of_nat (length done) + Z.of_nat (length w) <=? _) with true by (symmetry; apply Z.leb_le; lia).
  rewrite Nat2Z.id, take_app_length, drop_app_add. done.
Qed.

Lemma nonempty_match l : matches l = true → l ≠ [].
Proof using ML Hfind Hbits. intros Hm ->. pose proof (match_fits [] Hm). simpl in *. lia. Qed.

(** ** The four strategies *)

Lemma same_loop_ok fuel done rem : R = F → fits (length (done ++ rem)) → matches rem = true → (length rem ≤ fuel)%nat →
  same_loop size_bits replace_with fuel (done ++ rem) (len done) = Ret (done ++ repl 0 rem).
Proof using ML Hfind Hbits.
  intros ER. revert done rem. induction fuel as [|fuel IH]; intros done rem Hs Hm Hf; destruct (match_head rem Hm (nonempty_match rem Hm)) as (-> & _ & Hlen); [lia|].
  cbn [same_loop]. rewrite len_npos by (unfold fits in *; rewrite length_app in Hs; lia). rewrite copy_app, bind_ret by lia. rewrite ER.
  set (rem1 := drop F rem). rewrite app_assoc.
  assert (fits (length ((done ++ replace_with) ++ rem1))) as Hs1.
  { unfold fits, rem1 in *. rewrite !length_app, length_drop in *. lia. }
  rewrite (find_offset (done ++ replace_with) rem1) by (try done; unfold replace_length, len; rewrite length_app; lia).
  pose proof (first_match_spec rem1) as H1. destruct (first_match rem1) as [k|].
  - destruct H1 as (Hk & Hm1 & -> & _). rewrite <-(take_drop k rem1) at 1. rewrite app_assoc, IH.
    + by rewrite <-!app_assoc.
    + by rewrite <-app_assoc, take_drop.
    + done.
    + unfold rem1 in *. rewrite !length_drop in *. lia.
  - destruct H1 as (-> & _). destruct fuel; simpl; by rewrite Z.eqb_refl, <-?app_assoc.
Qed.

Lemma count_loop_ok fuel done rem e c : (F < R)%nat → fits (length (done ++ rem)) → matches rem = true → (length rem ≤ fuel)%nat → (c ≤ length done)%nat →
  fits (e + count_matches 0 rem * (R - F)) →
  count_loop size_bits replace_with fuel (done ++ rem) (len done) (Z.of_nat e) (Z.of_nat c) =
    (Z.of_nat (e + count_matches 0 rem * (R - F)), Z.of_nat (c + count_matches 0 rem)).
Proof using ML Hfind Hbits.
  intros ER. revert done rem e c. induction fuel as [|fuel IH]; intros done rem e c Hs Hm Hf Hc He;
    destruct (match_head rem Hm (nonempty_match rem Hm)) as (_ & Ec & Hlen); [lia|]. rewrite Ec in *.
  cbn [count_loop]. rewrite len_npos by (unfold fits in *; rewrite length_app in Hs; lia).
  set (rem1 := drop F rem) in *. set (hit := take F rem). assert (length hit = F) as Eh by (unfold hit; rewrite length_take; lia).
  replace (done ++ rem) with ((done ++ hit) ++ rem1) in * by (rewrite <-app_assoc; unfold hit, rem1; by rewrite take_drop).
  unfold replace_length, find_length. rewrite (find_offset (done ++ hit) rem1) by (try done; unfold len; rewrite length_app; lia).
  unfold fits, len in *. rewrite !length_app in Hs.
  rewrite (sz_small (Z.of_nat R - Z.of_nat F)), (sz_small (Z.of_nat e + (Z.of_nat R - Z.of_nat F))), (sz_small (Z.of_nat c + 1)) by lia.
  replace (Z.of_nat e + (Z.of_nat R - Z.of_nat F)) with (Z.of_nat (e + (R - F))) by lia. replace (Z.of_nat c + 1) with (Z.of_nat (S c)) by lia.
  pose proof (first_match_spec rem1) as H1. destruct (first_match rem1) as [k|].
  - destruct H1 as (Hk & Hm1 & _ & _ & Ec1 & _). rewrite Ec1 in *. rewrite <-(take_drop k rem1) at 1. rewrite app_assoc, IH.
    + f_equal; f_equal; lia.
    + rewrite <-app_assoc, take_drop, !length_app. lia.
    + done.
    + unfold rem1 in *. rewrite !length_drop in *. lia.
    + rewrite !length_app. lia.
    + lia.
  - destruct H1 as (_ & _ & Ec1 & _). rewrite Ec1 in *. destruct fuel; simpl; rewrite Z.eqb_refl; f_equal; f_equal; lia.
Qed.

Lemma no_matches l : count_matches 0 l = 0%nat → first_match l = None.
Proof using ML Hfind Hbits replace_with.
  intros E. pose proof (first_match_spec l) as Hs. destruct (first_match l) as [k|]; [|done]. destruct Hs as (_ & Hm & _ & _ & Ec & _).
  destruct (match_head _ Hm (nonempty_match _ Hm)) as (_ & Ec1 & _). lia.
Qed.

Lemma substring_app (passed part rest : list A) : substring (passed ++ part ++ rest) (len passed) (len part) = Ret part.
Proof using ML Hfind Hbits.
  unfold substring, len. rewrite !length_app. rewrite (proj2 (Z.ltb_ge _ _)) by lia. by rewrite !Nat2Z.id, drop_app_length, take_app_length.
Qed.

Lemma append_loop_ok fuel str passed pre rem : fits (length (passed ++ pre ++ rem)) → matches rem = true → (length rem ≤ fuel)%nat →
  ∃ str' pos', append_loop size_bits replace_with fuel (passed ++ pre ++ rem) str (len passed) (len (passed ++ pre)) (Z.of_nat (count_matches 0 rem)) = Ret (str', pos') ∧
    0 ≤ pos' ≤ len (passed ++ pre ++ rem) ∧ str' ++ drop (Z.to_nat pos') (passed ++ pre ++ rem) = str ++ pre ++ repl 0 rem.
Proof using ML Hfind Hbits replace_with.
  revert str passed pre rem. induction fuel as [|fuel IH]; intros str passed pre rem Hs Hm Hf;
    destruct (match_head rem Hm (nonempty_match rem Hm)) as (-> & Ec & Hlen); [lia|]. rewrite Ec.
  cbn [append_loop]. pose proof Hs as Hs'. unfold fits in Hs'. rewrite !length_app in Hs'. destruct (count_bound rem) as [Hcb _]. rewrite Ec in Hcb.
  replace (sz (len (passed ++ pre) - len passed)) with (len pre) by (rewrite sz_small; unfold len; rewrite length_app; lia).
  rewrite substring_app, bind_ret. unfold find_length. rewrite (sz_small (Z.of_nat _ - 1)) by nia.
  replace (Z.of_nat (S (count_matches 0 (drop F rem))) - 1) with (Z.of_nat (count_matches 0 (drop F rem))) by lia.
  set (rem1 := drop F rem) in *. set (hit := take F rem). assert (length hit = F) as Eh by (unfold hit; rewrite length_take; lia).
  replace (passed ++ pre ++ rem) with ((passed ++ pre ++ hit) ++ rem1) in * by (rewrite <-!app_assoc; unfold hit, rem1; by rewrite take_drop).
  assert (len (passed ++ pre) + Z.of_nat F = len (passed ++ pre ++ hit)) as Ep by (unfold len; rewrite !length_app; lia).
  rewrite (find_offset (passed ++ pre ++ hit) rem1) by done. rewrite Ep, sz_small by (unfold len; rewrite !length_app; lia).
  destruct (Z.eqb_spec (Z.of_nat (count_matches 0 rem1)) 0) as [E0|Hne].
  - do 2 eexists. split; [done|]. split; [unfold len; rewrite !length_app; lia|]. unfold len. rewrite Nat2Z.id, drop_app_length.
    pose proof (first_match_spec rem1) as H1. rewrite no_matches in H1 by lia. destruct H1 as (-> & _). by rewrite <-!app_assoc.
  - pose proof (first_match_spec rem1) as H1. destruct (first_match rem1) as [k|]; [|lia]. destruct H1 as (Hk & Hm1 & -> & _ & Ec1 & _). rewrite Ec1.
    specialize (IH (str ++ pre ++ replace_with) (passed ++ pre ++ hit) (take k rem1) (drop k rem1)). rewrite take_drop in IH.
    rewrite <-!app_assoc in IH |- *. rewrite <-!app_assoc in Hs. destruct IH as (str' & pos' & E & Hp & Er); [done|done| |].
    { unfold rem1 in *. rewrite !length_drop in *. lia. }
    exists str', pos'. rewrite <-?app_assoc in E. split; [exact E|]. split; [done|]. rewrite Er. by rewrite <-?app_assoc.
Qed.

Lemma move_app (out gap rem : list A) n : (n ≤ length rem)%nat →
  move (out ++ gap ++ rem) (len out) (len (out ++ gap)) (Z.of_nat n) = Ret (out ++ take n rem ++ drop n (gap ++ take n rem) ++ drop n rem).
Proof using ML Hfind Hbits.
  intros Hn. unfold move. rewrite (proj2 (Z.leb_le _ _)) by (unfold len; rewrite !length_app; lia).
  rewrite Nat2Z.id, (app_assoc out gap rem). unfold len at 2. rewrite Nat2Z.id, drop_app_length, <-app_assoc.
  rewrite copy_app by (rewrite length_app, length_take; lia). rewrite length_take_le by done. do 3 f_equal.
  rewrite <-(take_drop n rem) at 1. rewrite app_assoc, drop_app_le by (rewrite length_app, length_take; lia). done.
Qed.

(** The buffer is the output so far, characters that are no longer needed, and
    what is still to be searched. *)
Lemma shift_loop_ok fuel out gap hit rem1 : fits (length (out ++ gap ++ hit ++ rem1)) → length hit = F → (length (hit ++ rem1) ≤ fuel)%nat →
  (S (count_matches 0 rem1) * R ≤ length gap + S (count_matches 0 rem1) * F)%nat →
  let out' := out ++ replace_with ++ repl 0 rem1 in
  ∃ s', shift_loop size_bits replace_with fuel (len (out ++ gap ++ hit ++ rem1)) (out ++ gap ++ hit ++ rem1) (len out) (len (out ++ gap)) = Ret (s', len out') ∧
    take (length out') s' = out' ∧ (length out' ≤ length s')%nat.
Proof using ML Hfind Hbits replace_with.
  revert out gap hit rem1. induction fuel as [|fuel IH]; intros out gap hit rem1 Hs Hhit Hf Hg out'; unfold out'; clear out';
    rewrite length_app in Hf; [lia|].
  assert (R ≤ length gap + F)%nat as Hgap by nia.
  set (gap1 := drop R (gap ++ hit)).
  assert (length gap1 + R = length gap + F)%nat as Eg1 by (unfold gap1; rewrite length_drop, length_app; lia).
  assert (drop R (gap ++ hit ++ rem1) = gap1 ++ rem1) as Ed.
  { unfold gap1. rewrite app_assoc. apply drop_app_le. rewrite length_app. lia. }
  pose proof Hs as Hs'. unfold fits in Hs'. rewrite !length_app in Hs'.
  cbn [shift_loop].
  assert ((if replace_length replace_with =? 0 then Ret (out ++ gap ++ hit ++ rem1, len out)
           else s ← copy (out ++ gap ++ hit ++ rem1) (len out) replace_with; Ret (s, sz (len out + replace_length replace_with)))
          = Ret ((out ++ replace_with) ++ gap1 ++ rem1, len (out ++ replace_with))) as ->.
  { unfold replace_length. destruct (Z.eqb_spec (len replace_with) 0) as [E0|Hne].
    - assert (replace_with = []) as Ew by (apply nil_length_inv; unfold len in E0; lia). rewrite Ew in Ed |- *. rewrite app_nil_r, <-Ed. done.
    - rewrite copy_app, bind_ret, Ed by (rewrite !length_app; lia). rewrite <-app_assoc. do 2 f_equal.
      rewrite sz_small by (unfold len in *; lia). unfold len. rewrite length_app. lia. }
  rewrite bind_ret. cbv beta iota zeta. unfold find_length. set (out1 := out ++ replace_with).
  assert (length out1 = length out + R)%nat as Eo1 by (unfold out1; rewrite length_app; lia).
  assert (sz (len (out ++ gap) + Z.of_nat F) = len (out1 ++ gap1)) as ->.
  { rewrite sz_small; unfold len; rewrite !length_app; lia. }
  assert (len (out ++ gap ++ hit ++ rem1) = len (out1 ++ gap1 ++ rem1)) as -> by (unfold len; rewrite !length_app; lia).
  assert (Find size_bits (out1 ++ gap1 ++ rem1) (len (out1 ++ gap1)) =
          match first_match rem1 with Some k => len ((out1 ++ gap1) ++ take k rem1) | None => npos end) as ->
    by (rewrite (app_assoc out1 gap1 rem1); apply find_app).
  pose proof (first_match_spec rem1) as H1. set (n := match first_match rem1 with Some k => k | None => length rem1 end).
  assert (n ≤ length rem1)%nat as Hn by (unfold n; destruct (first_match rem1); [destruct H1; lia|lia]).
  assert (sz (Z.min (match first_match rem1 with Some k => len ((out1 ++ gap1) ++ take k rem1) | None => npos end) (len (out1 ++ gap1 ++ rem1)) - len (out1 ++ gap1))
          = Z.of_nat n) as ->.
  { unfold n. destruct (first_match rem1) as [k|]; [rewrite sz_small|rewrite sz_small]; unfold len; rewrite ?length_app, ?length_take; lia. }
  set (out2 := out1 ++ take n rem1). set (gap2 := drop n (gap1 ++ take n rem1)). set (rem2 := drop n rem1).
  assert (length gap2 = length gap1) as Eg2 by (unfold gap2; rewrite length_drop, length_app, length_take; lia).
  assert (length out2 = length out1 + n)%nat as Eo2 by (unfold out2; rewrite length_app, length_take; lia).
  assert (length rem2 = length rem1 - n)%nat as Er2 by (unfold rem2; by rewrite length_drop).
  assert ((if Z.of_nat n =? 0 then Ret (out1 ++ gap1 ++ rem1, len out1, len (out1 ++ gap1))
           else s ← move (out1 ++ gap1 ++ rem1) (len out1) (len (out1 ++ gap1)) (Z.of_nat n);
                Ret (s, sz (len out1 + Z.of_nat n), sz (len (out1 ++ gap1) + Z.of_nat n)))
          = Ret (out2 ++ gap2 ++ rem2, len out2, len (out2 ++ gap2))) as ->.
  { destruct (Z.eqb_spec (Z.of_nat n) 0) as [E0|Hne].
    - assert (n = 0)%nat as E0' by lia. unfold out2, gap2, rem2. rewrite E0'. simpl. by rewrite !app_nil_r.
    - rewrite move_app, bind_ret by done. unfold out2 at 1. rewrite <-app_assoc. fold gap2 rem2.
      assert (sz (len out1 + Z.of_nat n) = len out2) as -> by (rewrite sz_small; unfold len; lia).
      assert (sz (len (out1 ++ gap1) + Z.of_nat n) = len (out2 ++ gap2)) as -> by (rewrite sz_small; unfold len; rewrite !length_app; lia). done. }
  rewrite bind_ret. cbv beta iota zeta. assert (len (out1 ++ gap1 ++ rem1) = len (out2 ++ gap2 ++ rem2)) as -> by (unfold len; rewrite !length_app; lia).
  assert (out ++ replace_with ++ repl 0 rem1 = out2 ++ repl 0 rem2) as ->.
  { unfold out2, out1, rem2. rewrite <-!app_assoc. do 2 f_equal. unfold n. destruct (first_match rem1) as [k|]; [by destruct H1 as (_ & _ & -> & _)|].
    destruct H1 as (-> & _). by rewrite drop_all, take_ge, app_nil_r. }
  destruct (first_match rem1) as [k|].
  - destruct H1 as (Hk & Hm1 & _ & _ & Ec1 & _). replace (len (out2 ++ gap2) <? _) with true by (symmetry; apply Z.ltb_lt; unfold len; rewrite !length_app; lia).
    fold rem2 in Hm1. destruct (match_head rem2 Hm1 (nonempty_match rem2 Hm1)) as (-> & Ec2 & Hlen2).
    specialize (IH out2 gap2 (take F rem2) (drop F rem2)). rewrite take_drop in IH.
    apply IH; [unfold fits; rewrite !length_app; lia|rewrite length_take; lia|lia|].
    change (drop k rem1) with rem2 in Ec1. rewrite Ec2 in Ec1. rewrite Ec1 in Hg. lia.
  - replace (len (out2 ++ gap2) <? _) with false by (symmetry; apply Z.ltb_ge; unfold len; rewrite !length_app; lia).
    assert (rem2 = []) as Erem by (apply nil_length_inv; lia). rewrite Erem. cbn [replace_all]. rewrite !app_nil_r. eexists. split; [done|].
    split; [by rewrite take_app_length|rewrite length_app; lia].
Qed.

Lemma resize_take s n : (n ≤ length s)%nat → resize nul s (Z.of_nat n) = take n s.
Proof using ML Hfind Hbits.
  intros Hn. unfold resize. rewrite Nat2Z.id. replace (n - length s)%nat with 0%nat by lia. simpl. by rewrite app_nil_r.
Qed.

(** The loop of moves over a buffer, and the final [resize]. *)
Lemma shift_matches_ok done gap hit rem1 : fits (length (done ++ gap ++ hit ++ rem1)) → length hit = F →
  (S (count_matches 0 rem1) * R ≤ length gap + S (count_matches 0 rem1) * F)%nat →
  shift_matches nul size_bits replace_with (done ++ gap ++ hit ++ rem1) (len (done ++ gap ++ hit ++ rem1)) (len done) (len gap) =
  Ret (true, done ++ replace_with ++ repl 0 rem1).
Proof using ML Hfind Hbits replace_with.
  intros Hs Hhit Hg. unfold shift_matches.
  assert (sz (len done + len gap) = len (done ++ gap)) as ->.
  { unfold fits in Hs. rewrite !length_app in Hs. rewrite sz_small; unfold len; rewrite ?length_app; lia. }
  destruct (shift_loop_ok (S (length (done ++ gap ++ hit ++ rem1))) done gap hit rem1) as (s' & -> & Et & Hl); [done|done|rewrite !length_app; lia|done|].
  rewrite bind_ret. unfold len. by rewrite resize_take, Et.
Qed.

Lemma string_replace_app (done part rest w : list A) : string_replace (done ++ part ++ rest) (len done) (len part) w = Ret (done ++ w ++ rest).
Proof using ML Hfind Hbits.
  unfold string_replace. rewrite (proj2 (Z.ltb_ge _ _)) by (unfold len; rewrite !length_app; lia).
  rewrite Z.min_l by (unfold len; rewrite !length_app; lia). unfold len. rewrite Nat2Z.id, take_app_length, <-Nat2Z.inj_add, Nat2Z.id.
  by rewrite drop_app_add, drop_app_length.
Qed.

(** The tail is moved up by the expansion: the buffer starts with the characters
    before the first match and ends with those behind it. *)
Lemma make_room (done hit rem1 : list A) e s1 : length hit = F → fits (length (done ++ hit ++ rem1) + e) →
  s1 = (if len (done ++ hit ++ rem1) <? len (done ++ hit) + Z.of_nat e then resize nul (done ++ hit ++ rem1) (len (done ++ hit) + Z.of_nat e) else done ++ hit ++ rem1) →
  substring s1 (len (done ++ hit)) (len rem1) = Ret rem1 ∧
  ∃ gap hit', length gap = e ∧ length hit' = F ∧ string_replace s1 (len (done ++ hit) + Z.of_nat e) (len rem1) rem1 = Ret (done ++ gap ++ hit' ++ rem1).
Proof using ML Hfind Hbits.
  intros Hhit Hs Es.
  assert (∃ pad, s1 = done ++ hit ++ rem1 ++ pad ∧ (length done + F + e ≤ length s1 ∧ length s1 ≤ length done + F + e + length rem1)%nat) as (pad & Ep & Hlen1 & Hlen2).
  { unfold len in Es. rewrite !length_app in Es. destruct (Z.ltb_spec (Z.of_nat (length done + (length hit + length rem1))) (Z.of_nat (length done + length hit) + Z.of_nat e)) as [Hlt|Hge].
    - exists (replicate (Z.to_nat (Z.of_nat (length done + length hit) + Z.of_nat e) - length (done ++ hit ++ rem1)) nul). split.
      + rewrite Es. unfold resize. rewrite take_ge by (rewrite !length_app; lia). by rewrite <-!app_assoc.
      + rewrite Es. unfold resize. rewrite length_app, length_replicate, take_ge by (rewrite !length_app; lia). rewrite !length_app. lia.
    - exists []. rewrite app_nil_r. split; [done|]. rewrite Es, !length_app. lia. }
  split; [rewrite Ep, (app_assoc done hit); apply substring_app|].
  set (n := (length done + F + e)%nat). assert (take (length done) s1 = done) as Ed by (rewrite Ep; apply take_app_length).
  exists (take e (drop (length done) s1)), (take F (drop (length done + e) s1)).
  split; [rewrite length_take, length_drop; lia|]. split; [rewrite length_take, length_drop; lia|].
  unfold string_replace. replace (len (done ++ hit) + Z.of_nat e) with (Z.of_nat n) by (unfold n, len; rewrite length_app; lia).
  rewrite (proj2 (Z.ltb_ge _ _)) by (unfold len; lia). rewrite Z.min_r by (unfold len; lia). f_equal. rewrite Nat2Z.id.
  rewrite drop_ge by (unfold len; lia). rewrite app_nil_r. unfold n.
  transitivity ((take (length done) s1 ++ take e (drop (length done) s1) ++ take F (drop (length done + e) s1)) ++ rem1).
  - rewrite app_assoc, !take_take_drop. do 2 f_equal. lia.
  - by rewrite Ed, <-!app_assoc.
Qed.

Lemma lengthen_ok capacity done hit rem1 : (F < R)%nat → length hit = F → matches (hit ++ rem1) = true → fits (length (done ++ hit ++ rem1)) →
  fits (length (done ++ replace_with ++ repl 0 rem1)) →
  lengthen nul size_bits replace_with capacity (done ++ hit ++ rem1) (len done) = Ret (true, done ++ replace_with ++ repl 0 rem1).
Proof using ML Hfind Hbits replace_with.
  intros HR Hhit Hm Hs Hs'. destruct (match_head _ Hm (nonempty_match _ Hm)) as (Er & Ec & _).
  rewrite <-Hhit, drop_app_length in Er, Ec. destruct (count_bound rem1) as [Hcb Hcl].
  set (c := count_matches 0 (hit ++ rem1)) in *. set (e := (c * (R - F))%nat).
  assert (fits (length (done ++ hit ++ rem1) + e) ∧ fits e) as [Hse He].
  { unfold fits in *. rewrite !length_app, Hcl in Hs'. rewrite !length_app. unfold e. rewrite Ec. nia. }
  pose proof Hse as Hse'. unfold fits in Hse'. rewrite !length_app in Hse'.
  pose proof (count_loop_ok (S (length (done ++ hit ++ rem1))) done (hit ++ rem1) 0 0 HR Hs Hm ltac:(rewrite !length_app; lia) ltac:(lia) He) as El.
  change (Z.of_nat 0) with 0 in El. unfold lengthen. rewrite El. clear El. fold c e. rewrite !Nat.add_0_l. cbv beta iota zeta. unfold find_length.
  rewrite (sz_small (len (done ++ hit ++ rem1) + Z.of_nat e)), (sz_small (len done + Z.of_nat F)) by (unfold len; rewrite ?length_app; lia).
  replace (len done + Z.of_nat F) with (len (done ++ hit)) by (unfold len; rewrite length_app; lia).
  rewrite (sz_small (len (done ++ hit) + Z.of_nat e)), (sz_small (len (done ++ hit ++ rem1) - len (done ++ hit))) by (unfold len; rewrite !length_app; lia).
  replace (len (done ++ hit ++ rem1) - len (done ++ hit)) with (len rem1) by (unfold len; rewrite !length_app; lia).
  destruct (capacity <? len (done ++ hit ++ rem1) + Z.of_nat e).
  - destruct (append_loop_ok (S (length (done ++ hit ++ rem1))) [] [] done (hit ++ rem1)) as (str' & pos' & E & Hp & Eq); [done|done|rewrite !length_app; lia|].
    cbn [app] in E, Eq, Hp. fold c in E. change (len []) with 0 in E. rewrite E, bind_ret. cbv beta iota zeta. unfold substring.
    rewrite (proj2 (Z.ltb_ge _ _)) by lia. rewrite bind_ret. do 2 f_equal. rewrite <-Er, <-Eq. f_equal. apply take_ge.
    rewrite length_drop, sz_small by (unfold len in *; rewrite !length_app in *; lia). unfold len. lia.
  - destruct (make_room done hit rem1 e _ Hhit Hse eq_refl) as [E1 (gap & hit' & Hgap & Hhit' & E2)]. rewrite E1, bind_ret, E2, bind_ret.
    replace (len (done ++ hit ++ rem1) + Z.of_nat e) with (len (done ++ gap ++ hit' ++ rem1)) by (unfold len; rewrite !length_app; lia).
    replace (Z.of_nat e) with (len gap) by (unfold len; lia). apply shift_matches_ok; [|done|].
    + unfold fits in *. rewrite !length_app in *. lia.
    + rewrite Hgap. unfold e. rewrite Ec. nia.
Qed.
End Proofs.

Lemma replace_matches_gen {A : Type} {M : Matcher A} (ML : MatcherLaws A) (nul : A) (size_bits capacity : Z) (replace_with s : list A)
    (initial_offset : Z) (replace_type : ReplaceType) :
  let offset := Z.to_nat initial_offset in
  let result := take offset s ++
    match replace_type with REPLACE_ALL => replace_all replace_with 0 (drop offset s) | REPLACE_FIRST => replace_first replace_with (drop offset s) end in
  1 < size_bits → 0 ≤ initial_offset → Z.of_nat (length s) < npos size_bits → Z.of_nat (length result) < npos size_bits →
  DoReplaceMatchesAfterOffset nul size_bits replace_with capacity s initial_offset replace_type =
    Ret (if Nat.eqb MatchSize 0 then (false, s) else (has_match (drop offset s), result)).
Proof.
  intros offset result Hbits Ho Hs Hs'. unfold DoReplaceMatchesAfterOffset, find_length.
  destruct (Nat.eqb_spec MatchSize 0) as [E0|Hfind]; [by rewrite E0|]. rewrite (proj2 (Z.eqb_neq _ 0)) by lia. cbv zeta.
  unfold Find. fold offset. rewrite search_first by done. pose proof (first_match_spec _ replace_with Hfind Hbits (drop offset s)) as H1.
  destruct (first_match (drop offset s)) as [k|]; cycle 1.
  { rewrite Z.eqb_refl. destruct H1 as (E1 & E2 & _ & ->). unfold result. by destruct replace_type; rewrite ?E1, ?E2, take_drop. }
  destruct H1 as (Hk & Hm & E1 & E2 & _ & ->). rewrite length_drop in Hk. set (rem := drop k (drop offset s)) in *.
  set (done := take offset s ++ take k (drop offset s)) in *.
  assert (s = done ++ rem) as Es by (unfold done, rem; by rewrite <-app_assoc, !take_drop).
  assert (initial_offset + Z.of_nat k = len done) as ->.
  { unfold done, len. rewrite length_app, !length_take, length_drop. lia. }
  pose proof (match_fits rem Hm) as Hfit. destruct (match_head _ replace_with Hfind Hbits rem Hm) as (Er & Ec & _).
  { intros E. rewrite E in Hfit. simpl in Hfit. lia. }
  set (hit := take MatchSize rem). set (rem1 := drop MatchSize rem) in *. assert (rem = hit ++ rem1) as Erem by (symmetry; apply take_drop).
  assert (length hit = MatchSize) as Hhit by (unfold hit; rewrite length_take; lia).
  rewrite len_npos by (unfold fits; rewrite Es, length_app in Hs; lia).
  destruct replace_type.
  - assert (result = done ++ replace_with ++ replace_all replace_with 0 rem1) as Eres by (unfold result; rewrite E1, Er; unfold done; by rewrite <-app_assoc).
    unfold replace_length. change (len replace_with) with (Z.of_nat (length replace_with)). repeat zcase; try lia.
    + rewrite Es. rewrite (same_loop_ok _ _ Hfind Hbits); [|lia|by rewrite <-Es|done|rewrite length_app; lia]. rewrite bind_ret. do 2 f_equal. by rewrite Eres, Er.
    + rewrite Eres, Es, Erem. apply (lengthen_ok nul _ _ Hfind Hbits); [lia|done|by rewrite <-Erem|by rewrite <-Erem, <-Es|by rewrite <-Eres].
    + rewrite Eres, Es, Erem. apply (shift_matches_ok nul _ _ Hfind Hbits done [] hit rem1); [by simpl; rewrite <-Erem, <-Es|done|simpl; nia].
  - rewrite Es. rewrite Erem. replace (Z.of_nat MatchSize) with (len hit) by (unfold len; lia). rewrite (string_replace_app size_bits Hfind Hbits), bind_ret. do 2 f_equal.
    unfold result. rewrite E2. unfold done. by rewrite <-app_assoc.
Qed.

(** C21: replacing the matches behind an offset, by whichever of the four
    in-place strategies the lengths and the capacity select, gives the string
    that replaces the matches one by one from left to right, and reports whether
    there was one; no copy or move leaves the buffer.  Both strings must have a
    length that [size_t] can hold. *)
Theorem replace_matches_exact {A : Type} (nul : A) {M : Matcher A} {ML : MatcherLaws A} (size_bits capacity : Z) (replace_with s : list A)
    (initial_offset : Z) (replace_type : ReplaceType) :
  let offset := Z.to_nat initial_offset in
  let result := take offset s ++
    match replace_type with REPLACE_ALL => replace_all replace_with 0 (drop offset s) | REPLACE_FIRST => replace_first replace_with (drop offset s) end in
  1 < size_bits → 0 ≤ initial_offset → Z.of_nat (length s) < npos size_bits → Z.of_nat (length result) < npos size_bits →
  DoReplaceMatchesAfterOffset nul size_bits replace_with capacity s initial_offset replace_type =
    Ret (if Nat.eqb MatchSize 0 then (false, s) else (has_match (drop offset s), result)).
Proof. exact (replace_matches_gen ML nul size_bits capacity replace_with s initial_offset replace_type). Qed.

Lemma replace_matches_exact_witness :
  DoReplaceMatchesAfterOffset 0 (M := SubstringMatcher [1; 1]) 32 [7; 8; 9; 9] 64 [1; 1; 1; 5; 1; 1] 1 REPLACE_ALL =
    Ret (true, [1; 7; 8; 9; 9; 5; 7; 8; 9; 9]).
Proof.
  rewrite (replace_matches_exact (ML := substring_laws [1; 1]) 0 32 64 [7; 8; 9; 9] [1; 1; 1; 5; 1; 1] 1 REPLACE_ALL); [|lia|lia|simpl; unfold npos; lia|vm_compute; done].
  vm_compute. reflexivity.
Defined.

(** For a set of characters the result is that of replacing each of them. *)
Lemma replace_all_chars {A} `{EqDecision A} (chars replace_with l : list A) :
  replace_all (M := CharacterMatcher chars) replace_with 0 l = flat_map (λ c, if bool_decide (c ∈ chars) then replace_with else [c]) l.
Proof. induction l as [|c l IH]; [done|]. simpl. rewrite IH. by destruct (bool_decide (c ∈ chars)). Qed.

Theorem replace_chars_exact {A} `{EqDecision A} (nul : A) (size_bits capacity : Z) (input chars replace_with : list A) :
  let result := flat_map (λ c, if bool_decide (c ∈ chars) then replace_with else [c]) input in
  1 < size_bits → Z.of_nat (length input) < npos size_bits → Z.of_nat (length result) < npos size_bits →
  ReplaceCharsT nul size_bits capacity input chars replace_with = Ret (existsb (λ c, bool_decide (c ∈ chars)) input, result).
Proof.
  intros result Hb Hs Hs'. unfold ReplaceCharsT.
  pose proof (replace_matches_gen (character_laws chars) nul size_bits capacity replace_with input 0 REPLACE_ALL) as E. cbv zeta in E.
  change (Z.to_nat 0) with 0%nat in E. rewrite drop_0, replace_all_chars in E. cbn [take app] in E. fold result in E. rewrite E by done. simpl. do 2 f_equal. clear. induction input as [|c l IH]; [done|]. cbn [has_match existsb]. by rewrite IH.
Qed.

(** Without the bound the sum of the expansions wraps and the in-place strategy
    writes outside the buffer; shown with an 8-bit [size_t], sixteen matches of
    one character and a replacement of eighteen. *)
Example replace_overflow :
  DoReplaceMatchesAfterOffset 0 (M := SubstringMatcher [1]) 8 (replicate 18 2) 40 (replicate 16 1) 0 REPLACE_ALL = Crash OutOfBounds.
Proof. vm_compute. reflexivity. Qed.
