(* ===== verification/StringUtil.v ===== *)
(** * String utilities

    Model of the rest of [src/include/base/strings/string_util_internal.h] and of
    the character helpers of [string_util.h]: case-insensitive comparison,
    trimming, collapsing of white space, the word-at-a-time test for ASCII,
    joining, placeholders and [lcpyT].  A string is the list of its character
    values.  Whether a character is Unicode white space is decided outside these
    headers and is a parameter. *)

From S2P Require Import Prelude.

#[local] Abbreviation CharT := Z.

(** ** Case *)

Definition ToLowerASCII (c : CharT) : CharT := if (65 <=? c) && (c <=? 90) then c + (97 - 65) else c.
Definition ToUpperASCII (c : CharT) : CharT := if (97 <=? c) && (c <=? 122) then c + (65 - 97) else c.

(** [for (i = 0; i < str.size(); i++) ret.push_back(...)]. *)
Definition ToLowerASCIIImpl (str : list CharT) : list CharT := map ToLowerASCII str.
Definition ToUpperASCIIImpl (str : list CharT) : list CharT := map ToUpperASCII str.

(** The loop on the common length, and what follows it. *)
Fixpoint CompareCaseInsensitiveASCIIT (a b : list CharT) : Z :=
  match a, b with
  | x :: a', y :: b' =>
      let lower_a := ToLowerASCII x in
      let lower_b := ToLowerASCII y in
      if lower_a <? lower_b then -1
      else if lower_b <? lower_a then 1
      else CompareCaseInsensitiveASCIIT a' b'
  | _, _ =>
      if Nat.eqb (length a) (length b) then 0
      else if Nat.ltb (length a) (length b) then -1 else 1
  end.

Inductive CompareCase := SENSITIVE | INSENSITIVE_ASCII.

Definition CaseInsensitiveCompareASCII (x y : CharT) : bool := ToLowerASCII x =? ToLowerASCII y.

(** [std::equal] on two ranges of the same length. *)
Fixpoint std_equal (eq : CharT → CharT → bool) (a b : list CharT) : bool :=
  match a, b with
  | [], [] => true
  | x :: a, y :: b => eq x y && std_equal eq a b
  | _, _ => false
  end.

Definition DoLowerCaseEqualsASCII (str lowercase_ascii : list CharT) : bool :=
  std_equal (λ lhs rhs, ToLowerASCII lhs =? rhs) str lowercase_ascii.

Definition compare_source (source search_for : list CharT) (case_sensitivity : CompareCase) : bool :=
  match case_sensitivity with
  | SENSITIVE => bool_decide (source = search_for)
  | INSENSITIVE_ASCII => std_equal CaseInsensitiveCompareASCII search_for source
  end.

Definition StartsWithT (str search_for : list CharT) (case_sensitivity : CompareCase) : bool :=
  if (length str <? length search_for)%nat then false
  else compare_source (take (length search_for) str) search_for case_sensitivity.

Definition EndsWithT (str search_for : list CharT) (case_sensitivity : CompareCase) : bool :=
  if (length str <? length search_for)%nat then false
  else compare_source (take (length search_for) (drop (length str - length search_for) str)) search_for case_sensitivity.

(** ** Trimming *)

Section Trim.
Context (size_bits : Z).
Definition size (z : Z) : Z := wrapU size_bits z.
Definition npos : Z := 2 ^ size_bits - 1.

(** The two bits of [TrimPositions]. *)
Record TrimPositions := mkTrim { TRIM_LEADING : bool; TRIM_TRAILING : bool }.

Fixpoint find_first_from (p : CharT → bool) (s : list CharT) (i : Z) : Z :=
  match s with [] => npos | c :: s => if p c then i else find_first_from p s (i + 1) end.

Definition find_first_not_of (s chars : list CharT) : Z := find_first_from (λ c, negb (bool_decide (c ∈ chars))) s 0.

Fixpoint find_last_from (p : CharT → bool) (s : list CharT) (i found : Z) : Z :=
  match s with [] => found | c :: s => find_last_from p s (i + 1) (if p c then i else found) end.

Definition find_last_not_of (s chars : list CharT) : Z := find_last_from (λ c, negb (bool_decide (c ∈ chars))) s 0 npos.

(** The positions trimmed, and the output. *)
Definition TrimStringT (input trim_chars : list CharT) (positions : TrimPositions) : TrimPositions * list CharT :=
  let last_char := size (Z.of_nat (length input) - 1) in
  let first_good_char := if TRIM_LEADING positions then find_first_not_of input trim_chars else 0 in
  let last_good_char := if TRIM_TRAILING positions then find_last_not_of input trim_chars else last_char in
  if bool_decide (input = []) || (first_good_char =? npos) || (last_good_char =? npos) then
    (if bool_decide (input = []) then mkTrim false false else positions, [])
  else
    (mkTrim (negb (first_good_char =? 0)) (negb (last_good_char =? last_char)),
     take (Z.to_nat (size (size (last_good_char - first_good_char) + 1))) (drop (Z.to_nat first_good_char) input)).

(** [substr] stops the program when [pos] is behind the end. *)
Definition substr (s : list CharT) (pos n : Z) : outcome (list CharT) :=
  if Z.of_nat (length s) <? pos then Crash CheckFailed else Ret (take (Z.to_nat n) (drop (Z.to_nat pos) s)).

Definition TrimStringPieceT (input trim_chars : list CharT) (positions : TrimPositions) : outcome (list CharT) :=
  let begin := if TRIM_LEADING positions then find_first_not_of input trim_chars else 0 in
  let end_ := if TRIM_TRAILING positions then size (find_last_not_of input trim_chars + 1) else Z.of_nat (length input) in
  substr input (Z.min begin (Z.of_nat (length input))) (size (end_ - begin)).
End Trim.

(** ** Collapsing white space *)

Section Collapse.
Context (IsUnicodeWhitespace : CharT → bool) (trim_sequences_with_line_breaks : bool).

(** [result], [in_whitespace], [already_trimmed] and [chars_written]. *)
Record collapse_state := mkCollapse { result : list CharT; in_whitespace : bool; already_trimmed : bool; chars_written : Z }.

(** [result[chars_written++] = c]. *)
Definition write_char (st : collapse_state) (c : CharT) : outcome (list CharT * Z) :=
  if (0 <=? chars_written st) && (chars_written st <? Z.of_nat (length (result st))) then
    (n ← arith int32_t (chars_written st + 1); Ret (<[Z.to_nat (chars_written st) := c]> (result st), n))
  else Crash OutOfBounds.

Definition collapse_char (st : collapse_state) (c : CharT) : outcome collapse_state :=
  if IsUnicodeWhitespace c then
    st ← (if in_whitespace st then Ret st
          else ('(r, n) ← write_char st 32; Ret (mkCollapse r true (already_trimmed st) n)));
    if trim_sequences_with_line_breaks && negb (already_trimmed st) && ((c =? 10) || (c =? 13)) then
      (n ← arith int32_t (chars_written st - 1); Ret (mkCollapse (result st) (in_whitespace st) true n))
    else Ret st
  else ('(r, n) ← write_char st c; Ret (mkCollapse r false false n)).

Fixpoint collapse_loop (text : list CharT) (st : collapse_state) : outcome collapse_state :=
  match text with [] => Ret st | c :: text => st ← collapse_char st c; collapse_loop text st end.

Definition CollapseWhitespaceT (text : list CharT) : outcome (list CharT) :=
  st ← collapse_loop text (mkCollapse (replicate (length text) 0) true true 0);
  n ← (if in_whitespace st && negb (already_trimmed st) then arith int32_t (chars_written st - 1) else Ret (chars_written st));
  Ret (take (Z.to_nat n) (result st)).
End Collapse.

(** ** Is a string ASCII? *)

Section Ascii.
(** [sizeof (MachineWord)], [sizeof (Char)] and the byte order. *)
Context (word_bytes char_bytes : Z) (little_endian : bool).

Definition NonASCIIMasks (size : Z) : Z :=
  if size =? 1 then 0x8080808080808080 else if size =? 2 then 0xFF80FF80FF80FF80 else if size =? 4 then 0xFFFFFF80FFFFFF80 else 0.

Definition non_ascii_bit_mask : Z := NonASCIIMasks char_bytes mod 2 ^ (8 * word_bytes).
Definition chars_per_word : Z := word_bytes / char_bytes.
Definition batch_count : nat := 16.

(** The value of a character converted to [MachineWord]. *)
Definition char_bits (c : CharT) : Z := c mod 2 ^ (8 * word_bytes).

(** The word made of the bytes of consecutive characters. *)
Fixpoint word_of (chars : list CharT) : Z :=
  match chars with [] => 0 | c :: chars => c mod 2 ^ (8 * char_bytes) + 2 ^ (8 * char_bytes) * word_of chars end.

Definition read_word (characters : list CharT) : outcome Z :=
  if Z.of_nat (length characters) <? chars_per_word then Crash OutOfBounds
  else let chars := take (Z.to_nat chars_per_word) characters in Ret (word_of (if little_endian then chars else reverse chars)).

(** The characters not read yet stand for the pointer [characters]; its address
    is that of [end] less their size.  [prologue] reads up to an aligned one. *)
Fixpoint prologue (end_ : Z) (characters : list CharT) (all_char_bits : Z) : list CharT * Z :=
  match characters with
  | [] => ([], all_char_bits)
  | c :: rest =>
      if (end_ - char_bytes * Z.of_nat (length characters)) mod word_bytes =? 0 then (characters, all_char_bits)
      else prologue end_ rest (Z.lor all_char_bits (char_bits c))
  end.

(** [n] words are read and or-ed. *)
Fixpoint read_words (n : nat) (characters : list CharT) (all_char_bits : Z) : outcome (list CharT * Z) :=
  match n with
  | O => Ret (characters, all_char_bits)
  | S n => w ← read_word characters; read_words n (drop (Z.to_nat chars_per_word) characters) (Z.lor all_char_bits w)
  end.

(** [while (characters <= end - batch_count * chars_per_word)]; [None] is the
    early [return false]. *)
Fixpoint batch_loop (fuel : nat) (characters : list CharT) : outcome (option (list CharT)) :=
  match fuel with
  | O => Ret (Some characters)
  | S fuel =>
      if Z.of_nat batch_count * chars_per_word <=? Z.of_nat (length characters) then
        ('(characters, all_char_bits) ← read_words batch_count characters 0;
         if Z.land all_char_bits non_ascii_bit_mask =? 0 then batch_loop fuel characters else Ret None)
      else Ret (Some characters)
  end.

(** [while (characters <= end - chars_per_word)]. *)
Fixpoint word_loop (fuel : nat) (characters : list CharT) (all_char_bits : Z) : outcome (list CharT * Z) :=
  match fuel with
  | O => Ret (characters, all_char_bits)
  | S fuel =>
      if chars_per_word <=? Z.of_nat (length characters) then
        (w ← read_word characters; word_loop fuel (drop (Z.to_nat chars_per_word) characters) (Z.lor all_char_bits w))
      else Ret (characters, all_char_bits)
  end.

Fixpoint or_chars (characters : list CharT) (all_char_bits : Z) : Z :=
  match characters with [] => all_char_bits | c :: characters => or_chars characters (Z.lor all_char_bits (char_bits c)) end.

(** [address] is that of the first character. *)
Definition DoIsStringASCII (address : Z) (characters : list CharT) : outcome bool :=
  if bool_decide (characters = []) then Ret true
  else
    let end_ := address + char_bytes * Z.of_nat (length characters) in
    let '(characters, all_char_bits) := prologue end_ characters 0 in
    if negb (Z.land all_char_bits non_ascii_bit_mask =? 0) then Ret false
    else
      r ← batch_loop (S (length characters)) characters;
      match r with
      | None => Ret false
      | Some characters =>
          '(characters, all_char_bits) ← word_loop (S (length characters)) characters 0;
          let all_char_bits := or_chars characters all_char_bits in
          Ret (Z.land all_char_bits non_ascii_bit_mask =? 0)
      end.
End Ascii.

(** ** Joining *)

Section Join.
Context `{BuildMode} (size_bits : Z).

Fixpoint total_size (parts : list (list CharT)) (acc : Z) : Z :=
  match parts with [] => acc | part :: parts => total_size parts (wrapU size_bits (acc + Z.of_nat (length part))) end.

Fixpoint append_parts (sep : list CharT) (parts : list (list CharT)) (result : list CharT) : list CharT :=
  match parts with [] => result | part :: parts => append_parts sep parts ((result ++ sep) ++ part) end.

Definition JoinStringT (parts : list (list CharT)) (sep : list CharT) : outcome (list CharT) :=
  match parts with
  | [] => Ret []
  | first :: rest =>
      let total := total_size parts (wrapU size_bits (wrapU size_bits (Z.of_nat (length parts) - 1) * Z.of_nat (length sep))) in
      let result := append_parts sep rest first in
      _ ← RTC_DCHECK (total =? Z.of_nat (length result));
      Ret result
  end.
End Join.

(** ** lcpyT *)

(** The copying loop from [i] on; [None] when [dst_size] was reached. *)
Fixpoint lcpy_loop (fuel : nat) (dst src : list CharT) (dst_size i : Z) : outcome (list CharT * option Z) :=
  match fuel with
  | O => Ret (dst, None)
  | S fuel =>
      if i <? dst_size then
        c ← from_option_or OutOfBounds (src !! Z.to_nat i);
        if i <? Z.of_nat (length dst) then
          (let dst := <[Z.to_nat i := c]> dst in
           if c =? 0 then Ret (dst, Some i) else lcpy_loop fuel dst src dst_size (i + 1))
        else Crash OutOfBounds
      else Ret (dst, None)
  end.

(** [while (src[dst_size]) ++dst_size], [rest] being the source from there. *)
Fixpoint lcpy_count (rest : list CharT) (dst_size : Z) : outcome Z :=
  match rest with
  | [] => Crash OutOfBounds
  | c :: rest => if c =? 0 then Ret dst_size else lcpy_count rest (dst_size + 1)
  end.

(** The destination and the value returned. *)
Definition lcpyT (dst src : list CharT) (dst_size : Z) : outcome (list CharT * Z) :=
  '(dst, hit) ← lcpy_loop (S (Z.to_nat dst_size)) dst src dst_size 0;
  match hit with
  | Some i => Ret (dst, i)
  | None =>
      dst ← (if dst_size =? 0 then Ret dst
             else if dst_size - 1 <? Z.of_nat (length dst) then Ret (<[Z.to_nat (dst_size - 1) := 0]> dst) else Crash OutOfBounds);
      n ← lcpy_count (drop (Z.to_nat dst_size) src) dst_size;
      Ret (dst, n)
  end.

(** ** lcpyT is strlcpy *)

Lemma lookup_text text rest i : (i < length text)%nat → Forall (λ c, c ≠ 0) text → ∃ c, (text ++ 0 :: rest) !! i = Some c ∧ c ≠ 0 ∧ text !! i = Some c.
Proof.
  intros Hi Hnz. destruct (lookup_lt_is_Some_2 text i Hi) as [c Ec]. exists c. rewrite lookup_app_l by done. split; [done|].
  split; [|done]. rewrite list.Forall_forall in Hnz. apply Hnz. by apply list_elem_of_lookup_2 in Ec.
Qed.

Lemma lcpy_loop_ok fuel dst text rest n i : Forall (λ c, c ≠ 0) text → (n ≤ length dst)%nat → (i ≤ n)%nat → (i ≤ length text)%nat → (n < fuel + i)%nat →
  lcpy_loop fuel (take i text ++ drop i dst) (text ++ 0 :: rest) (Z.of_nat n) (Z.of_nat i) =
  Ret (if (length text <? n)%nat then (text ++ 0 :: drop (S (length text)) dst, Some (Z.of_nat (length text)))
       else (take n text ++ drop n dst, None)).
Proof.
  intros Hnz Hn. revert i. induction fuel as [|fuel IH]; intros i Hi Ht Hf; [lia|]. cbn [lcpy_loop].
  assert (length (take i text ++ drop i dst) = length dst) as El by (rewrite length_app, length_take, length_drop; lia).
  assert (length (take i text) = i) as Eti by (rewrite length_take; lia).
  destruct (Z.ltb_spec (Z.of_nat i) (Z.of_nat n)) as [Hlt|Hge]; cycle 1.
  { assert (i = n) as -> by lia. destruct (Nat.ltb_spec (length text) n); [lia|]. done. }
  rewrite Nat2Z.id. assert ((Z.of_nat i <? Z.of_nat (length (take i text ++ drop i dst))) = true) as Hin by (rewrite El; apply Z.ltb_lt; lia).
  destruct (lookup_lt_is_Some_2 dst i ltac:(lia)) as [x Ex].
  assert (∀ c, <[i := c]> (take i text ++ drop i dst) = take i text ++ c :: drop (S i) dst) as Eins.
  { intros c. rewrite (drop_S _ _ _ Ex), insert_app_r_alt, Eti, Nat.sub_diag by lia. done. }
  destruct (decide (i = length text)) as [->|Hne].
  - rewrite list_lookup_middle by done. cbn [from_option_or]. rewrite bind_ret, Hin, Eins, Z.eqb_refl, take_ge by lia.
    destruct (Nat.ltb_spec (length text) n); [done|lia].
  - destruct (lookup_text text rest i ltac:(lia) Hnz) as (c & -> & Hc & Ec). cbn [from_option_or]. rewrite bind_ret, Hin, Eins.
    rewrite (proj2 (Z.eqb_neq c 0) Hc). replace (Z.of_nat i + 1) with (Z.of_nat (S i)) by lia.
    replace (take i text ++ c :: drop (S i) dst) with (take (S i) text ++ drop (S i) dst); [apply IH; lia|].
    by rewrite (take_S_r _ _ _ Ec), <-app_assoc.
Qed.

Lemma lcpy_count_ok text rest k : Forall (λ c, c ≠ 0) text → lcpy_count (text ++ 0 :: rest) k = Ret (k + Z.of_nat (length text)).
Proof.
  intros Hnz. revert k. induction Hnz as [|c text Hc Hall IH]; intros k; simpl; [f_equal; lia|]. rewrite (proj2 (Z.eqb_neq c 0) Hc), IH. f_equal. lia.
Qed.

(** [lcpyT] is [strlcpy]: for a null-terminated source and a destination of
    [dst_size] characters no access is outside either, the destination gets as
    much of the text as fits together with a terminating null (nothing when
    [dst_size] is zero), the characters behind it are kept, and the value is the
    length of the source. *)
Theorem lcpy_exact (dst text rest : list CharT) (dst_size : nat) : Forall (λ c, c ≠ 0) text → (dst_size ≤ length dst)%nat →
  lcpyT dst (text ++ 0 :: rest) (Z.of_nat dst_size) =
  Ret (match dst_size with
       | O => dst
       | S room => let kept := take room text in kept ++ 0 :: drop (S (length kept)) dst
       end, Z.of_nat (length text)).
Proof.
  intros Hnz Hd. unfold lcpyT. rewrite Nat2Z.id.
  pose proof (lcpy_loop_ok (S dst_size) dst text rest dst_size 0 Hnz Hd ltac:(lia) ltac:(lia) ltac:(lia)) as E. simpl in E. rewrite drop_0 in E.
  change (Z.of_nat 0) with 0 in E. simpl lcpy_loop in E |- *. rewrite E, bind_ret. clear E.
  destruct (Nat.ltb_spec (length text) dst_size) as [Hlt|Hge].
  - destruct dst_size as [|room]; [lia|]. cbn zeta. by rewrite take_ge by lia.
  - assert (drop dst_size (text ++ 0 :: rest) = drop dst_size text ++ 0 :: rest) as -> by (by rewrite drop_app_le).
    destruct dst_size as [|room].
    + simpl. rewrite drop_0, lcpy_count_ok by done. done.
    + rewrite (proj2 (Z.eqb_neq _ 0)) by lia. rewrite length_app, length_take, length_drop.
      rewrite (proj2 (Z.ltb_lt _ _)) by lia. rewrite bind_ret, lcpy_count_ok, bind_ret by (by apply Forall_drop).
      rewrite length_drop. do 2 f_equal; [|lia]. cbn zeta. destruct (lookup_lt_is_Some_2 text room ltac:(lia)) as [c Ec].
      rewrite (take_S_r _ _ _ Ec), <-app_assoc. replace (Z.to_nat (Z.of_nat (S room) - 1)) with room by lia.
      rewrite insert_app_r_alt, length_take_le, Nat.sub_diag by (rewrite ?length_take; lia). simpl. done.
Qed.

Lemma lcpy_exact_witness : lcpyT [9; 9; 9] ([1; 2; 3; 4] ++ 0 :: [7]) (Z.of_nat 3) = Ret ([1; 2; 0], 4).
Proof. rewrite (lcpy_exact [9; 9; 9] [1; 2; 3; 4] [7] 3); [reflexivity|repeat constructor; discriminate|simpl; lia]. Defined.

(** ** Collapsing white space *)

Section CollapseProofs.
Context (ws : Z → bool) (flag : bool).
Local Abbreviation white := (Forall (λ c, ws c = true)).
Local Abbreviation black := (Forall (λ c, ws c = false)).

(** What a run of white space inside the text becomes. *)
Definition gap (run : list Z) : list Z := if flag && existsb (λ c, (c =? 10) || (c =? 13)) run then [] else [32].

(** The state after writing [out] to a buffer of [n] characters. *)
Definition wrote (n : nat) (out : list Z) (in_ws trimmed : bool) (st : collapse_state) : Prop :=
  take (length out) (result st) = out ∧ length (result st) = n ∧ (length out ≤ n)%nat ∧ in_whitespace st = in_ws ∧
  already_trimmed st = trimmed ∧ chars_written st = Z.of_nat (length out).

Lemma write_char_ok n out a b st c : Z.of_nat n < 2 ^ 31 → wrote n out a b st → (length out < n)%nat →
  ∃ r, write_char st c = Ret (r, Z.of_nat (length (out ++ [c]))) ∧ take (length (out ++ [c])) r = out ++ [c] ∧ length r = n.
Proof.
  intros Hn (Ht & Hl & Hle & _ & _ & Hw) Hlt. unfold write_char. rewrite Hw, Hl.
  rewrite (proj2 (Z.leb_le 0 _)), (proj2 (Z.ltb_lt _ _)) by lia. cbn [andb].
  rewrite arith_in_range by (try done; unfold values, int_min, int_max; simpl; lia). rewrite bind_ret, Nat2Z.id. eexists. split; [|split].
  - rewrite length_app. simpl. do 2 f_equal. lia.
  - rewrite length_app. simpl. replace (length out + 1)%nat with (S (length out)) by lia.
    rewrite (take_S_r _ _ c) by (apply list_lookup_insert_eq; lia). by rewrite take_insert_ge, Ht by lia.
  - by rewrite length_insert.
Qed.

(** A character that is not white space. *)
Lemma collapse_black n out a b st c : Z.of_nat n < 2 ^ 31 → wrote n out a b st → (length out < n)%nat → ws c = false →
  ∃ st', collapse_char ws flag st c = Ret st' ∧ wrote n (out ++ [c]) false false st'.
Proof.
  intros Hn Hst Hlt Hc. unfold collapse_char. rewrite Hc. destruct (write_char_ok n out a b st c Hn Hst Hlt) as (r & -> & Ht & Hl). rewrite bind_ret.
  eexists. split; [done|]. unfold wrote. simpl. rewrite length_app in *. simpl in *. repeat split; auto; lia.
Qed.

Lemma collapse_word n word : black word → ∀ out a b st, Z.of_nat n < 2 ^ 31 → wrote n out a b st → (length out + length word ≤ n)%nat → word ≠ [] →
  ∃ st', collapse_loop ws flag word st = Ret st' ∧ wrote n (out ++ word) false false st'.
Proof.
  induction 1 as [|c word Hc Hw IH]; intros out a b st Hn Hst Hle Hne; [done|]. simpl in Hle. cbn [collapse_loop].
  destruct (collapse_black n out a b st c Hn Hst ltac:(lia) Hc) as (st1 & -> & H1). rewrite bind_ret.
  destruct word as [|d word]; [by exists st1|]. destruct (IH (out ++ [c]) false false st1) as (st2 & E2 & H2); [done|done|rewrite length_app; simpl in *; lia|done|].
  exists st2. rewrite E2. split; [done|]. by rewrite <-app_assoc in H2.
Qed.

(** White space inside a run that is already being trimmed changes nothing. *)
Lemma collapse_trimmed run : white run → ∀ n out st, wrote n out true true st → collapse_loop ws flag run st = Ret st.
Proof.
  induction 1 as [|c run Hc Hr IH]; intros n out st Hst; [done|]. cbn [collapse_loop]. unfold collapse_char. rewrite Hc.
  destruct Hst as (? & ? & ? & Hi & Ha & ?) eqn:E. rewrite Hi, bind_ret, Ha. rewrite andb_false_r. cbn [andb]. rewrite bind_ret. by apply (IH n out).
Qed.

(** The rest of a run whose space has been written. *)
Lemma collapse_run run : white run → ∀ n out st, Z.of_nat n < 2 ^ 31 → wrote n (out ++ [32]) true false st →
  ∃ st', collapse_loop ws flag run st = Ret st' ∧ wrote n (out ++ gap run) true (flag && existsb (λ c, (c =? 10) || (c =? 13)) run) st'.
Proof.
  induction 1 as [|c run Hc Hr IH]; intros n out st Hn Hst; [exists st; unfold gap; simpl; by rewrite andb_false_r|]. cbn [collapse_loop].
  unfold collapse_char. rewrite Hc. pose proof Hst as (Ht & Hl & Hle & Hi & Ha & Hw). rewrite Hi, bind_ret, Ha. cbn [negb]. rewrite andb_true_r.
  unfold gap. cbn [existsb]. destruct (flag && ((c =? 10) || (c =? 13))) eqn:E.
  - assert (flag && ((c =? 10) || (c =? 13) || existsb (λ c, (c =? 10) || (c =? 13)) run) = true) as ->.
    { apply andb_true_iff in E as [-> ->]. done. }
    rewrite Hw, arith_in_range.
    2: done. 2: { rewrite length_app in *. unfold values, int_min, int_max. simpl in *. lia. }
    rewrite !bind_ret. eexists. split; [apply (collapse_trimmed run Hr n out)|]; rewrite length_app in *; unfold wrote; simpl in *; rewrite ?app_nil_r.
    all: repeat split; auto; try lia; rewrite <-(take_app_length out [32]) at 2; rewrite <-Ht, take_take; f_equal; lia.
  - rewrite bind_ret. destruct (IH n out st Hn Hst) as (st' & -> & H'). exists st'. split; [done|]. unfold gap in H'.
    destruct flag; cbn [andb] in *; [rewrite E; exact H'|exact H'].
Qed.

Lemma collapse_app a b st : collapse_loop ws flag (a ++ b) st = collapse_loop ws flag a st ≫= collapse_loop ws flag b.
Proof. revert st. induction a as [|c a IH]; intros st; [done|]. simpl. destruct (collapse_char ws flag st c); [apply IH|done]. Qed.

(** A whole run after a word. *)
Lemma collapse_gap run : white run → run ≠ [] → ∀ n out st, Z.of_nat n < 2 ^ 31 → wrote n out false false st → (length out < n)%nat →
  ∃ st', collapse_loop ws flag run st = Ret st' ∧ wrote n (out ++ gap run) true (flag && existsb (λ c, (c =? 10) || (c =? 13)) run) st'.
Proof.
  intros Hr Hne n out st Hn Hst Hlt. destruct (write_char_ok n out false false st 32 Hn Hst Hlt) as (r & E & Ht & Hl).
  assert (wrote n (out ++ [32]) true false (mkCollapse r true false (Z.of_nat (length (out ++ [32]))))) as H1.
  { unfold wrote. simpl. rewrite length_app in *. simpl in *. repeat split; auto; lia. }
  destruct (collapse_run run Hr n out _ Hn H1) as (st' & E' & H'). exists st'. split; [|done]. rewrite <-E'.
  destruct run as [|c run]; [done|]. cbn [collapse_loop]. f_equal. inversion Hr as [|? ? Hc _]; subst. unfold collapse_char. rewrite Hc.
  destruct Hst as (_ & _ & _ & -> & -> & _). rewrite E. done.
Qed.

(** Words separated by runs of white space, and white space at the ends. *)
Definition is_word (w : list Z) : Prop := w ≠ [] ∧ black w.
Definition phrase (rest : list (list Z * list Z)) : Prop := Forall (λ p, p.1 ≠ [] ∧ white p.1 ∧ is_word p.2) rest.

Lemma collapse_phrase rest : phrase rest → ∀ n out st, Z.of_nat n < 2 ^ 31 → wrote n out false false st →
  (length out + length (flat_map (λ p, p.1 ++ p.2) rest) ≤ n)%nat →
  ∃ st', collapse_loop ws flag (flat_map (λ p, p.1 ++ p.2) rest) st = Ret st' ∧ wrote n (out ++ flat_map (λ p, gap p.1 ++ p.2) rest) false false st'.
Proof.
  induction 1 as [|[run w] rest (Hne & Hr & Hw & Hb) Hall IH]; intros n out st Hn Hst Hle; [exists st; by rewrite app_nil_r|].
  cbn [flat_map fst snd] in *. rewrite !length_app in Hle. assert (0 < length run)%nat by (destruct run; [done|simpl; lia]).
  destruct (collapse_gap run Hr Hne n out st Hn Hst ltac:(lia)) as (st1 & E1 & H1).
  assert (length (gap run) ≤ 1)%nat by (unfold gap; by destruct (_ && _); simpl; lia).
  destruct (collapse_word n w Hb _ _ _ st1 Hn H1) as (st2 & E2 & H2); [rewrite length_app; lia|done|].
  destruct (IH n _ st2 Hn H2) as (st3 & E3 & H3); [rewrite !length_app; lia|].
  exists st3. rewrite !collapse_app, E1, bind_ret, E2, bind_ret, E3. split; [done|]. by rewrite <-!app_assoc in *.
Qed.

Lemma text_cases text : white text ∨ ∃ lead first rest trail,
  text = lead ++ first ++ flat_map (λ p, p.1 ++ p.2) rest ++ trail ∧ white lead ∧ is_word first ∧ phrase rest ∧ white trail.
Proof.
  induction text as [|c text IH]; [left; constructor|]. destruct (ws c) eqn:Hc.
  - destruct IH as [Hw|(lead & first & rest & trail & -> & Hl & Hf & Hr & Ht)]; [left; by constructor|right].
    exists (c :: lead), first, rest, trail. split; [done|]. split; [by constructor|done].
  - right. destruct IH as [Hw|(lead & first & rest & trail & -> & Hl & [Hne Hb] & Hr & Ht)].
    + exists [], [c], [], text. split; [done|]. split; [constructor|]. split; [split; [done|by repeat constructor]|]. split; [constructor|done].
    + destruct lead as [|d lead].
      * exists [], (c :: first), rest, trail. split; [done|]. split; [constructor|]. split; [split; [done|by constructor]|done].
      * exists [], [c], ((d :: lead, first) :: rest), trail. split; [simpl; by rewrite <-!app_assoc|]. split; [constructor|].
        split; [split; [done|by repeat constructor]|]. split; [constructor; [by split|done]|done].
Qed.

Lemma collapse_finish n out a b st run : Z.of_nat n < 2 ^ 31 → wrote n (out ++ (if a && negb b then [32] else [])) a b st → run = Ret st →
  (st ← run; k ← (if in_whitespace st && negb (already_trimmed st) then arith int32_t (chars_written st - 1) else Ret (chars_written st));
   Ret (take (Z.to_nat k) (result st))) = Ret out.
Proof.
  intros Hn (Ht & Hl & Hle & Hi & Ha & Hw) ->. rewrite bind_ret, Hi, Ha. destruct (a && negb b).
  - rewrite length_app in *. simpl in *. rewrite Hw, arith_in_range by (try done; unfold values, int_min, int_max; simpl; lia). rewrite bind_ret. f_equal.
    replace (Z.to_nat _) with (length out) by lia. rewrite <-(take_app_length out [32]) at 2. rewrite <-Ht, take_take. f_equal. lia.
  - rewrite app_nil_r in *. rewrite Hw, bind_ret, Nat2Z.id. by rewrite Ht.
Qed.
End CollapseProofs.

(** [CollapseWhitespaceT] removes the white space at both ends, and turns
    every run of white space between two words into one space, or into nothing
    when the flag is set and the run has a line break; every text is of one of
    the two forms, the writes stay inside the buffer, and [chars_written] does
    not overflow for texts of less than [2 ^ 31] characters. *)
Theorem collapse_whitespace_exact (ws : Z → bool) (flag : bool) (text : list Z) : Z.of_nat (length text) < 2 ^ 31 →
  (Forall (λ c, ws c = true) text ∧ CollapseWhitespaceT ws flag text = Ret []) ∨
  ∃ lead first rest trail,
    text = lead ++ first ++ flat_map (λ p, p.1 ++ p.2) rest ++ trail ∧
    Forall (λ c, ws c = true) lead ∧ is_word ws first ∧ phrase ws rest ∧ Forall (λ c, ws c = true) trail ∧
    CollapseWhitespaceT ws flag text = Ret (first ++ flat_map (λ p, gap flag p.1 ++ p.2) rest).
Proof.
  intros Hn. set (n := length text). set (st0 := mkCollapse (replicate (length text) 0) true true 0).
  assert (wrote n [] true true st0) as H0 by (unfold wrote; simpl; rewrite length_replicate; repeat split; lia).
  destruct (text_cases ws text) as [Hw|(lead & first & rest & trail & E & Hl & [Hne Hb] & Hr & Ht)]; [left; split; [done|]|right].
  - apply (collapse_finish n [] true true st0); [done|done|]. by apply (collapse_trimmed ws flag text Hw n []).
  - exists lead, first, rest, trail. split; [done|]. split; [done|]. split; [done|]. split; [done|]. split; [done|].
    assert (n = length lead + (length first + (length (flat_map (λ p, p.1 ++ p.2) rest) + length trail)))%nat as En by (unfold n; by rewrite E, !length_app).
    destruct (collapse_word ws flag n first Hb [] true true st0) as (st1 & E1 & H1); [done|done|simpl; lia|done|].
    cbn [app] in H1.
    destruct (collapse_phrase ws flag rest Hr n first st1) as (st2 & E2 & H2); [done|done|lia|].
    assert (∀ st, collapse_loop ws flag trail st2 = Ret st → collapse_loop ws flag text st0 = Ret st) as Hrun.
    { intros st Est. rewrite E, collapse_app, (collapse_trimmed ws flag lead Hl n [] st0 H0), bind_ret, collapse_app, E1, bind_ret, collapse_app, E2. exact Est. }
    destruct trail as [|c trail].
    + apply (collapse_finish n _ false false st2); [done|by rewrite app_nil_r|by apply Hrun].
    + assert (length (first ++ flat_map (λ p, gap flag p.1 ++ p.2) rest) < n)%nat as Hlt.
      { rewrite length_app. enough (length (flat_map (λ p, gap flag p.1 ++ p.2) rest) ≤ length (flat_map (λ p, p.1 ++ p.2) rest))%nat by (simpl in En; lia).
        clear - Hr. induction Hr as [|[run w] rest (Hne & _) _ IH]; simpl in *; [lia|]. rewrite !length_app.
        assert (length (gap flag run) ≤ length run)%nat; [|lia]. unfold gap. destruct run; [done|]. destruct (_ && _); simpl; lia. }
      destruct (collapse_gap ws flag (c :: trail) Ht ltac:(done) n _ st2 Hn H2 Hlt) as (st3 & E3 & H3).
      apply (collapse_finish n _ true (flag && existsb (λ c, (c =? 10) || (c =? 13)) (c :: trail)) st3); [done| |by apply Hrun].
      unfold gap in H3. by destruct (flag && existsb _ _).
Qed.

Definition blank (c : Z) : bool := (c =? 32) || (c =? 10).

Lemma collapse_whitespace_exact_witness :
  CollapseWhitespaceT blank true [32; 10] = Ret [] ∧
  CollapseWhitespaceT blank true [32; 97; 32; 32; 98; 10; 32; 99; 32] = Ret [97; 32; 98; 99].
Proof.
  split; [|reflexivity].
  destruct (collapse_whitespace_exact blank true [32; 10]) as [[_ E]|H]; [simpl; lia|exact E|reflexivity].
Defined.

(** ** The test for ASCII *)

Definition is_ascii (c : Z) : bool := (0 <=? c) && (c <? 128).

(** The mask of [n] characters of [k] bits. *)
Fixpoint char_masks (k : Z) (n : nat) : Z := match n with O => 0 | S n => (2 ^ k - 128) + 2 ^ k * char_masks k n end.

Section AsciiProofs.
Context (word_bytes char_bytes : Z) (little_endian : bool).
Context (Hword : word_bytes = 4 ∨ word_bytes = 8) (Hchar : char_bytes = 1 ∨ char_bytes = 2 ∨ char_bytes = 4).
Local Abbreviation K := (8 * char_bytes).
Local Abbreviation mask := (non_ascii_bit_mask word_bytes char_bytes).
Local Abbreviation cpw := (Z.to_nat (chars_per_word word_bytes char_bytes)).
Local Abbreviation ascii := (Forall (λ c, is_ascii c = true)).

(** A value of the character type, signed or not. *)
Definition char_value (c : Z) : Prop := - 2 ^ (8 * char_bytes - 1) ≤ c < 2 ^ (8 * char_bytes).

Lemma mask_chars : mask = char_masks K cpw ∧ (0 < cpw)%nat ∧ Z.of_nat cpw = chars_per_word word_bytes char_bytes.
Proof using Hword Hchar.
  destruct Hword as [-> | ->], Hchar as [-> |[-> | ->]];
    (split; [vm_compute; reflexivity|split; [apply Nat.ltb_lt; vm_compute; reflexivity|vm_compute; reflexivity]]).
Qed.

Lemma land_digits k a b c d : 0 ≤ k → 0 ≤ a < 2 ^ k → 0 ≤ c < 2 ^ k → Z.land (a + 2 ^ k * b) (c + 2 ^ k * d) = Z.land a c + 2 ^ k * Z.land b d.
Proof.
  intros Hk Ha Hc. rewrite !(Z.mul_comm (2 ^ k)), <-!lor_shifted by done. rewrite <-lor_shifted; [|done|].
  2: { destruct (decide (k = 0)) as [->|]; [simpl in *; replace a with 0 by lia; done|]. apply land_bound; lia. }
  apply Z.bits_inj'. intros n Hn. rewrite !Z.land_spec, !Z.lor_spec, !Z.land_spec.
  destruct (Z.lt_ge_cases n k) as [Hlt|Hge].
  - rewrite !Z.mul_pow2_bits_low by done. by rewrite !orb_false_r.
  - rewrite !Z.mul_pow2_bits, Z.land_spec by done. rewrite <-(Z.mod_small a (2 ^ k)), <-(Z.mod_small c (2 ^ k)) by done.
    by rewrite !Z.mod_pow2_bits_high by lia.
Qed.

Lemma char_mask x : 0 ≤ x < 2 ^ K → Z.land x (2 ^ K - 128) = 0 ↔ x < 128.
Proof using Hchar.
  intros Hx. assert (2 ^ K - 128 = 2 ^ 7 * Z.ones (K - 7)) as ->.
  { rewrite Z.ones_equiv. replace (2 ^ K) with (2 ^ 7 * 2 ^ (K - 7)) by (rewrite <-Z.pow_add_r by lia; f_equal; lia). lia. }
  rewrite (Z.div_mod x (2 ^ 7)) at 1 by lia. rewrite (Z.add_comm (2 ^ 7 * (x / 2 ^ 7))).
  replace (2 ^ 7 * Z.ones (K - 7)) with (0 + 2 ^ 7 * Z.ones (K - 7)) by lia. rewrite land_digits by (try lia; by apply Z.mod_pos_bound).
  rewrite Z.land_0_r, Z.land_ones by lia. rewrite Z.mod_small.
  - pose proof (Z.div_mod x (2 ^ 7)). pose proof (Z.mod_pos_bound x (2 ^ 7)). lia.
  - split; [apply Z.div_pos; lia|]. apply Z.div_lt_upper_bound; [lia|]. rewrite <-Z.pow_add_r by lia. replace (7 + (K - 7)) with K by lia. lia.
Qed.

Lemma raw_ascii c : char_value c → c mod 2 ^ K < 128 ↔ is_ascii c = true.
Proof using Hchar.
  unfold char_value, is_ascii. intros Hc.
  assert (2 ^ K = 2 * 2 ^ (K - 1) ∧ 128 ≤ 2 ^ (K - 1)) as [E H1] by (destruct Hchar as [-> |[-> | ->]]; simpl; lia).
  destruct (Z.lt_ge_cases c 0).
  - rewrite (mod_unique_range _ _ (c + 2 ^ K) (-1)) by lia. lia.
  - rewrite Z.mod_small by lia. lia.
Qed.

Lemma sum_zero k a b : 0 < 2 ^ k → 0 ≤ a → 0 ≤ b → a + 2 ^ k * b = 0 ↔ a = 0 ∧ b = 0.
Proof. intros. nia. Qed.

Lemma mask_nonneg n : 0 ≤ char_masks K n.
Proof using Hchar.
  assert (128 ≤ 2 ^ K) by (destruct Hchar as [-> |[-> | ->]]; simpl; lia). induction n; simpl; [lia|]. nia.
Qed.

Lemma word_of_nonneg chars : 0 ≤ word_of char_bytes chars.
Proof using Hchar.
  pose proof (pow2_pos K ltac:(lia)). induction chars as [|c chars IH]; simpl; [lia|]. pose proof (Z.mod_pos_bound c (2 ^ K)). nia.
Qed.

(** The word of some characters has no masked bit when all are ASCII. *)
Lemma word_mask chars : Forall char_value chars → Z.land (word_of char_bytes chars) (char_masks K (length chars)) = 0 ↔ ascii chars.
Proof using Hchar.
  assert (0 < 2 ^ K ∧ 128 ≤ 2 ^ K) as [Hp H1] by (destruct Hchar as [-> |[-> | ->]]; simpl; lia).
  induction 1 as [|c chars Hc Hall IH]; [done|]. cbn [word_of char_masks length]. pose proof (Z.mod_pos_bound c (2 ^ K) Hp).
  rewrite land_digits by lia. rewrite sum_zero by (try done; apply Z.land_nonneg; auto using word_of_nonneg; lia).
  rewrite char_mask, raw_ascii, IH by done. by rewrite list.Forall_cons.
Qed.

Lemma single_mask c : char_value c → Z.land (char_bits word_bytes c) mask = 0 ↔ is_ascii c = true.
Proof using Hword Hchar.
  intros Hc. destruct mask_chars as (-> & Hn & _). destruct cpw as [|n]; [lia|]. cbn [char_masks].
  assert (0 < 2 ^ K ∧ 128 ≤ 2 ^ K) as [Hp H1] by (destruct Hchar as [-> |[-> | ->]]; simpl; lia).
  assert (K ≤ 8 * word_bytes) as HK by lia. unfold char_bits. set (x := c mod 2 ^ (8 * word_bytes)).
  assert (x mod 2 ^ K = c mod 2 ^ K) as Ex.
  { unfold x. replace (2 ^ (8 * word_bytes)) with (2 ^ K * 2 ^ (8 * word_bytes - K)) by (rewrite <-Z.pow_add_r by lia; f_equal; lia).
    rewrite Z.rem_mul_r by (try apply Z.pow_nonzero; lia). rewrite (Z.mul_comm (2 ^ K)), Z.mod_add, Z.mod_mod by lia. done. }
  rewrite (Z.div_mod x (2 ^ K)) by lia. rewrite Z.add_comm, Ex. pose proof (Z.mod_pos_bound c (2 ^ K) Hp).
  assert (0 ≤ x) as Hx by (apply Z.mod_pos_bound, pow2_pos; lia).
  rewrite land_digits by lia. rewrite sum_zero; [|done|apply Z.land_nonneg; left; lia|apply Z.land_nonneg; left; apply Z.div_pos; lia].
  rewrite char_mask, raw_ascii by done. split; [tauto|]. intros Ha. split; [done|].
  assert (x = c) as ->. { unfold is_ascii in Ha. apply Z.mod_small. assert (128 ≤ 2 ^ (8 * word_bytes)) by (destruct Hword as [-> | ->]; simpl; lia). lia. }
  unfold is_ascii in Ha. rewrite Z.div_small by lia. apply Z.land_0_l.
Qed.

Lemma mask_lor a b : Z.land (Z.lor a b) mask = 0 ↔ Z.land a mask = 0 ∧ Z.land b mask = 0.
Proof. by rewrite Z.land_lor_distr_l, Z.lor_eq_0_iff. Qed.

(** ** The loops *)

Lemma prologue_ok e l acc : Forall char_value l →
  ∃ pre l' acc', prologue word_bytes char_bytes e l acc = (l', acc') ∧ l = pre ++ l' ∧ (Z.land acc' mask = 0 ↔ Z.land acc mask = 0 ∧ ascii pre).
Proof using Hword Hchar.
  intros Hall. revert acc. induction Hall as [|c l Hc Hall IH]; intros acc; cbn [prologue].
  - exists [], [], acc. split; [done|]. split; [done|]. rewrite list.Forall_nil. tauto.
  - destruct (_ =? 0).
    + exists [], (c :: l), acc. split; [done|]. split; [done|]. rewrite list.Forall_nil. tauto.
    + destruct (IH (Z.lor acc (char_bits word_bytes c))) as (pre & l' & acc' & -> & -> & Hiff). exists (c :: pre), l', acc'. split; [done|]. split; [done|].
      rewrite Hiff, mask_lor, single_mask, list.Forall_cons by done. tauto.
Qed.

Lemma or_chars_ok l acc : Forall char_value l → Z.land (or_chars word_bytes l acc) mask = 0 ↔ Z.land acc mask = 0 ∧ ascii l.
Proof using Hword Hchar.
  intros Hall. revert acc. induction Hall as [|c l Hc Hall IH]; intros acc; cbn [or_chars]; [rewrite list.Forall_nil; tauto|].
  rewrite IH, mask_lor, single_mask, list.Forall_cons by done. tauto.
Qed.

(** A word is read where one is left, and shows whether its characters are ASCII. *)
Lemma read_word_ok l : Forall char_value l → (cpw ≤ length l)%nat →
  ∃ w, read_word word_bytes char_bytes little_endian l = Ret w ∧ (Z.land w mask = 0 ↔ ascii (take cpw l)).
Proof using Hword Hchar.
  intros Hall Hl. destruct mask_chars as (-> & Hn & En). unfold read_word. rewrite (proj2 (Z.ltb_ge _ _)) by lia. eexists. split; [done|].
  assert (length (take cpw l) = cpw) as El by (rewrite length_take; lia).
  assert (Forall char_value (take cpw l)) as Ht by (by apply Forall_take). destruct little_endian.
  - rewrite <-El at 2. by apply word_mask.
  - rewrite <-El at 2. rewrite <-length_reverse, word_mask by (by apply Forall_reverse). apply Forall_reverse.
Qed.

Lemma read_words_ok n l acc : Forall char_value l → (n * cpw ≤ length l)%nat →
  ∃ acc', read_words word_bytes char_bytes little_endian n l acc = Ret (drop (n * cpw) l, acc') ∧
    (Z.land acc' mask = 0 ↔ Z.land acc mask = 0 ∧ ascii (take (n * cpw) l)).
Proof using Hword Hchar.
  revert l acc. induction n as [|n IH]; intros l acc Hall Hl; cbn [read_words].
  - exists acc. split; [by rewrite drop_0|]. simpl. rewrite list.Forall_nil. tauto.
  - destruct (read_word_ok l Hall ltac:(lia)) as (w & -> & Hw). rewrite bind_ret.
    destruct (IH (drop cpw l) (Z.lor acc w)) as (acc' & -> & Hiff); [by apply Forall_drop|rewrite length_drop; lia|].
    exists acc'. rewrite drop_drop. split; [done|]. rewrite Hiff, mask_lor, Hw. cbn [Nat.mul].
    rewrite <-(take_take_drop l cpw (n * cpw)), list.Forall_app. tauto.
Qed.

Lemma word_loop_ok fuel l acc : Forall char_value l → (length l ≤ fuel)%nat →
  ∃ pre l' acc', word_loop word_bytes char_bytes little_endian fuel l acc = Ret (l', acc') ∧ l = pre ++ l' ∧
    (Z.land acc' mask = 0 ↔ Z.land acc mask = 0 ∧ ascii pre).
Proof using Hword Hchar.
  destruct mask_chars as (_ & Hn & En). revert l acc. induction fuel as [|fuel IH]; intros l acc Hall Hl; cbn [word_loop].
  - exists [], l, acc. split; [done|]. split; [done|]. rewrite list.Forall_nil. tauto.
  - destruct (Z.leb_spec (chars_per_word word_bytes char_bytes) (Z.of_nat (length l))).
    + destruct (read_word_ok l Hall ltac:(lia)) as (w & -> & Hw). rewrite bind_ret.
      destruct (IH (drop cpw l) (Z.lor acc w)) as (pre & l' & acc' & -> & E & Hiff); [by apply Forall_drop|rewrite length_drop; lia|].
      exists (take cpw l ++ pre), l', acc'. split; [done|]. split; [by rewrite <-app_assoc, <-E, take_drop|].
      rewrite Hiff, mask_lor, Hw, list.Forall_app. tauto.
    + exists [], l, acc. split; [done|]. split; [done|]. rewrite list.Forall_nil. tauto.
Qed.

Lemma batch_loop_ok fuel l : Forall char_value l → (length l ≤ fuel)%nat →
  ∃ r, batch_loop word_bytes char_bytes little_endian fuel l = Ret r ∧
    match r with None => ¬ ascii l | Some l' => ∃ pre, l = pre ++ l' ∧ ascii pre end.
Proof using Hword Hchar.
  destruct mask_chars as (_ & Hn & En). revert l. induction fuel as [|fuel IH]; intros l Hall Hl; cbn [batch_loop].
  - eexists. split; [done|]. exists []. by split.
  - destruct (Z.leb_spec (Z.of_nat batch_count * chars_per_word word_bytes char_bytes) (Z.of_nat (length l))) as [Hle|_].
    2: { eexists. split; [done|]. exists []. by split. }
    destruct (read_words_ok batch_count l 0 Hall ltac:(lia)) as (acc & -> & Hiff). rewrite bind_ret. rewrite Z.land_0_l in Hiff.
    destruct (Z.eqb_spec (Z.land acc mask) 0) as [E0|Hne].
    + destruct (IH (drop (batch_count * cpw) l)) as (r & -> & Hr); [by apply Forall_drop|rewrite length_drop; unfold batch_count in *; lia|].
      exists r. split; [done|]. apply Hiff in E0 as [_ E0]. destruct r as [l'|].
      * destruct Hr as (pre & E & Hpre). exists (take (batch_count * cpw) l ++ pre). rewrite <-app_assoc, <-E, take_drop. split; [done|]. by apply list.Forall_app.
      * intros Ha. apply Hr. by apply Forall_drop.
    + exists None. split; [done|]. intros Ha. apply Hne, Hiff. split; [done|]. by apply Forall_take.
Qed.
End AsciiProofs.

(** [DoIsStringASCII] reads machine words where the address is aligned, and
    single characters before and behind them; for every address, both word
    sizes, characters of one, two or four bytes, signed or not, and both byte
    orders it reads inside the string and tells whether every character is in
    the range of ASCII. *)
Theorem is_string_ascii_exact (word_bytes char_bytes : Z) (little_endian : bool) (address : Z) (text : list Z) :
  word_bytes = 4 ∨ word_bytes = 8 → char_bytes = 1 ∨ char_bytes = 2 ∨ char_bytes = 4 → Forall (char_value char_bytes) text →
  DoIsStringASCII word_bytes char_bytes little_endian address text = Ret (forallb is_ascii text).
Proof.
  intros Hw Hc Hall. unfold DoIsStringASCII. case_bool_decide as Hnil; [by rewrite Hnil|].
  destruct (prologue_ok word_bytes char_bytes Hw Hc (address + char_bytes * Z.of_nat (length text)) text 0 Hall) as (pre & l1 & acc & -> & -> & H1).
  rewrite Z.land_0_l in H1. apply list.Forall_app in Hall as [_ Hall1].
  assert (∀ l, Forall (λ c, is_ascii c = true) l ↔ forallb is_ascii l = true) as Hb by (intros l; rewrite list.Forall_forall, forallb_forall; by setoid_rewrite list_elem_of_In).
  rewrite forallb_app. destruct (Z.eqb_spec (Z.land acc (non_ascii_bit_mask word_bytes char_bytes)) 0) as [E|Hne]; cbn [negb].
  2: { f_equal. symmetry. apply andb_false_intro1. apply not_true_is_false. rewrite <-Hb. tauto. }
  apply H1 in E as [_ ->%Hb]. cbn [andb].
  destruct (batch_loop_ok word_bytes char_bytes little_endian Hw Hc (S (length l1)) l1 Hall1 ltac:(lia)) as (r & -> & Hr). rewrite bind_ret.
  destruct r as [l2|]; [|f_equal; symmetry; apply not_true_is_false; by rewrite <-Hb]. destruct Hr as (pre2 & -> & Hp2%Hb). rewrite forallb_app, Hp2. cbn [andb].
  apply list.Forall_app in Hall1 as [_ Hall2]. destruct (word_loop_ok word_bytes char_bytes little_endian Hw Hc (S (length l2)) l2 0 Hall2 ltac:(lia))
    as (pre3 & l3 & acc3 & -> & -> & H3). rewrite bind_ret. apply list.Forall_app in Hall2 as [_ Hall3]. rewrite Z.land_0_l in H3.
  f_equal. apply eq_iff_eq_true. rewrite Z.eqb_eq, or_chars_ok, H3, !Hb, forallb_app, andb_true_iff by done. tauto.
Qed.

Lemma is_string_ascii_exact_witness : DoIsStringASCII 8 1 true 1003 (replicate 300 65 ++ [-1]) = Ret false.
Proof.
  rewrite (is_string_ascii_exact 8 1 true 1003 (replicate 300 65 ++ [-1])); [reflexivity|lia|lia|].
  apply (bool_decide_unpack _). vm_compute. exact I.
Defined.

(** ** Trimming *)

Section TrimProofs.
Context (size_bits : Z) (chars : list Z).
Local Abbreviation npos := (npos size_bits).
Local Abbreviation size := (size size_bits).
Local Abbreviation dull := (Forall (λ c, c ∈ chars)).
Local Abbreviation keep := (λ c, negb (bool_decide (c ∈ chars))).

Lemma dull_keep c : c ∈ chars ↔ keep c = false.
Proof. rewrite negb_false_iff. symmetry. apply bool_decide_eq_true. Qed.

Lemma find_first_dull s i : dull s → find_first_from size_bits keep s i = npos.
Proof. intros Hs. revert i. induction Hs as [|c s Hc Hs IH]; intros i; [done|]. simpl. apply dull_keep in Hc. rewrite Hc. apply IH. Qed.

Lemma find_first_at pre c post i : dull pre → keep c = true → find_first_from size_bits keep (pre ++ c :: post) i = i + Z.of_nat (length pre).
Proof.
  intros Hs Hc. revert i. induction Hs as [|d s Hd Hs IH]; intros i; cbn [app find_first_from]; [rewrite Hc; simpl; lia|].
  apply dull_keep in Hd. rewrite Hd, IH. simpl length. lia.
Qed.

Lemma find_last_dull s i found : dull s → find_last_from keep s i found = found.
Proof. intros Hs. revert i. induction Hs as [|c s Hc Hs IH]; intros i; [done|]. simpl. apply dull_keep in Hc. rewrite Hc. apply IH. Qed.

Lemma find_last_at pre c post i found : dull post → keep c = true → find_last_from keep (pre ++ c :: post) i found = i + Z.of_nat (length pre).
Proof.
  intros Hs Hc. revert i found. induction pre as [|d pre IH]; intros i found; cbn [app find_last_from]; [rewrite Hc, find_last_dull by done; simpl; lia|].
  rewrite IH. simpl length. lia.
Qed.

(** The kept part: its ends are not among the characters to trim. *)
Definition core (mid : list Z) : Prop := ∃ x a b y, keep x = true ∧ keep y = true ∧ mid = x :: a ∧ mid = b ++ [y].

Lemma last_cases s : dull s ∨ ∃ a y b, s = a ++ y :: b ∧ keep y = true ∧ dull b.
Proof.
  induction s as [|c s IH]; [left; constructor|]. destruct IH as [Hs|(a & y & b & -> & Hy & Hb)]; [|right; by exists (c :: a), y, b].
  destruct (keep c) eqn:Hc; [right; by exists [], c, s|left; constructor; [by apply dull_keep|done]].
Qed.

Lemma trim_cases s : dull s ∨ ∃ lead mid trail, s = lead ++ mid ++ trail ∧ dull lead ∧ core mid ∧ dull trail.
Proof.
  induction s as [|c s IH]; [left; constructor|]. destruct (keep c) eqn:Hc.
  - right. destruct (last_cases s) as [Hs|(a & y & b & -> & Hy & Hb)].
    + exists [], [c], s. split; [done|]. split; [constructor|]. split; [by exists c, [], [], c|done].
    + exists [], (c :: a ++ [y]), b. split; [simpl; by rewrite <-app_assoc|]. split; [constructor|]. split; [by exists c, (a ++ [y]), (c :: a), y|done].
  - apply dull_keep in Hc. destruct IH as [Hs|(lead & mid & trail & -> & Hl & Hm & Ht)]; [left; by constructor|right].
    exists (c :: lead), mid, trail. split; [done|]. split; [by constructor|done].
Qed.

Context (Hbits : 0 < size_bits).

Lemma size_small z : 0 ≤ z ≤ npos → size z = z.
Proof using Hbits. intros Hz. apply wrapU_small. unfold StringUtil.npos in Hz. lia. Qed.

Lemma size_wrap : size (npos + 1) = 0 ∧ 0 < npos.
Proof using Hbits.
  unfold StringUtil.size, wrapU, StringUtil.npos. rewrite Z.sub_add. split; [apply Z.mod_same; apply Z.pow_nonzero; lia|]. pose proof (Z.pow_gt_1 2 size_bits). lia.
Qed.

(** Nothing is kept. *)
Lemma trim_dull input positions : Z.of_nat (length input) < npos → dull input →
  let output := if TRIM_LEADING positions || TRIM_TRAILING positions then [] else input in
  TrimStringT size_bits input chars positions = (if bool_decide (input = []) then mkTrim false false else positions, output) ∧
  TrimStringPieceT size_bits input chars positions = Ret output.
Proof using Hbits.
  intros Hlen Hd. destruct size_wrap as [Hwrap Hpos]. unfold TrimStringT, TrimStringPieceT, substr, find_first_not_of, find_last_not_of.
  rewrite find_first_dull, find_last_dull by done. destruct input as [|c input].
  { destruct positions as [[] []]; simpl; rewrite ?Z.min_r by lia; simpl; by rewrite ?take_nil. }
  rewrite (bool_decide_false (c :: input = [])) by done. cbn [orb].
  set (s := c :: input) in *. assert (0 < Z.of_nat (length s)) as Hs by (simpl; lia).
  destruct positions as [[] []]; cbn [TRIM_LEADING TRIM_TRAILING orb].
  1, 2: rewrite Z.eqb_refl, Z.min_r, Z.ltb_irrefl, Nat2Z.id, drop_all, take_nil by lia; done.
  - rewrite Z.eqb_refl, orb_true_r, Hwrap, Z.min_l by lia. rewrite (proj2 (Z.ltb_ge _ _)) by lia. by rewrite (size_small (0 - 0)) by lia.
  - rewrite !Z.sub_0_r, !(size_small (Z.of_nat (length s) - 1)), Z.sub_add, !(size_small (Z.of_nat (length s))) by lia.
    rewrite (proj2 (Z.eqb_neq 0 npos)), (proj2 (Z.eqb_neq (Z.of_nat (length s) - 1) npos)) by lia. rewrite !Z.eqb_refl, Z.min_l by lia. rewrite (proj2 (Z.ltb_ge _ _)) by lia.
    rewrite Nat2Z.id, drop_0, take_ge by lia. done.
Qed.

(** Something is kept. *)
Lemma trim_core input positions lead mid trail : Z.of_nat (length input) < npos → input = lead ++ mid ++ trail →
  find_first_not_of size_bits input chars = Z.of_nat (length lead) →
  find_last_not_of size_bits input chars = Z.of_nat (length lead + length mid) - 1 → mid ≠ [] →
  let L := TRIM_LEADING positions in let T := TRIM_TRAILING positions in
  let output := (if L then [] else lead) ++ mid ++ (if T then [] else trail) in
  TrimStringT size_bits input chars positions = (mkTrim (L && negb (bool_decide (lead = []))) (T && negb (bool_decide (trail = []))), output) ∧
  TrimStringPieceT size_bits input chars positions = Ret output.
Proof using Hbits.
  intros Hlen E Ef El Hm L T output. destruct size_wrap as [Hwrap Hpos].
  assert (0 < length mid)%nat as Hmid by (destruct mid; [done|simpl; lia]).
  assert (length input = length lead + length mid + length trail)%nat as En by (rewrite E, !length_app; lia).
  assert (input ≠ []) as Hne by (intros ->; simpl in En; lia).
  set (f := if L then Z.of_nat (length lead) else 0). set (n := length output).
  assert (output = take n (drop (Z.to_nat f) input)) as Eo.
  { unfold n, f, output. rewrite E. destruct L; rewrite ?Nat2Z.id, ?drop_app_length, ?drop_0; destruct T; cbn [app];
      rewrite ?app_nil_r, ?app_assoc, ?take_app_length; try done; by rewrite take_ge by (rewrite !length_app; lia). }
  set (l := if T then Z.of_nat (length lead + length mid) - 1 else Z.of_nat (length input) - 1).
  assert (Z.of_nat n = l - f + 1 ∧ 0 ≤ f ≤ l ∧ l < Z.of_nat (length input)) as (Hn & Hfl & Hl).
  { unfold n, output, f, l. rewrite !length_app. destruct L, T; simpl; lia. }
  unfold TrimStringT, TrimStringPieceT, substr. rewrite Ef, El. fold L T. fold f. rewrite (size_small (Z.of_nat (length input) - 1)) by lia. fold l.
  rewrite (bool_decide_false (input = [])), (proj2 (Z.eqb_neq f npos)), (proj2 (Z.eqb_neq l npos)) by (done || lia). cbn [orb]. split.
  - rewrite (size_small (l - f)), (size_small (l - f + 1)) by lia. rewrite <-Hn, Nat2Z.id, <-Eo. f_equal. f_equal.
    + unfold f. destruct L; [|done]. destruct lead; [done|]. rewrite bool_decide_false by done. simpl. done.
    + unfold l. destruct T; [|by rewrite Z.eqb_refl]. destruct trail as [|t trail].
      * rewrite (proj2 (Z.eqb_eq _ _)); [done|]. rewrite En. simpl. lia.
      * rewrite (proj2 (Z.eqb_neq _ _)); [done|]. rewrite En. simpl. lia.
  - rewrite Z.min_l, (proj2 (Z.ltb_ge _ _)) by lia.
    assert ((if T then size (Z.of_nat (length lead + length mid) - 1 + 1) else Z.of_nat (length input)) = l + 1) as ->.
    { unfold l. destruct T; rewrite ?size_small; lia. }
    rewrite size_small by lia. rewrite Eo. do 2 f_equal. lia.
Qed.
End TrimProofs.

Lemma trim_gen (size_bits : Z) (chars input : list Z) (positions : TrimPositions) :
  let L := TRIM_LEADING positions in let T := TRIM_TRAILING positions in
  0 < size_bits → Z.of_nat (length input) < npos size_bits →
  (Forall (λ c, c ∈ chars) input ∧
   let output := if L || T then [] else input in
   TrimStringT size_bits input chars positions = (if bool_decide (input = []) then mkTrim false false else positions, output) ∧
   TrimStringPieceT size_bits input chars positions = Ret output) ∨
  ∃ lead mid trail, input = lead ++ mid ++ trail ∧ Forall (λ c, c ∈ chars) lead ∧ core chars mid ∧ Forall (λ c, c ∈ chars) trail ∧
    let output := (if L then [] else lead) ++ mid ++ (if T then [] else trail) in
    TrimStringT size_bits input chars positions = (mkTrim (L && negb (bool_decide (lead = []))) (T && negb (bool_decide (trail = []))), output) ∧
    TrimStringPieceT size_bits input chars positions = Ret output.
Proof.
  intros L T Hbits Hlen.
  destruct (trim_cases chars input) as [Hd|(lead & mid & trail & E & Hl & (x & a & b & y & Hx & Hy & Em & Em') & Ht)]; [left; split; [done|]|right].
  - by apply trim_dull.
  - exists lead, mid, trail. split; [done|]. split; [done|]. split; [by exists x, a, b, y|]. split; [done|].
    assert (find_first_not_of size_bits input chars = Z.of_nat (length lead)) as Ef.
    { unfold find_first_not_of. rewrite E, Em. simpl app. by rewrite find_first_at. }
    assert (find_last_not_of size_bits input chars = Z.of_nat (length lead + length mid) - 1) as El.
    { unfold find_last_not_of. rewrite E, Em', <-app_assoc, app_assoc. simpl app. rewrite find_last_at by done. rewrite !length_app. simpl. lia. }
    apply trim_core; [done|done|done|done|done|]. rewrite Em. done.
Qed.

(** [TrimStringT] removes the longest run of [trim_chars] from each end it
    is asked to trim and reports the ends where it removed something (every
    requested end when nothing is left); [TrimStringPieceT] returns the same
    string. *)
Theorem trim_exact (size_bits : Z) (chars input : list Z) (positions : TrimPositions) :
  let L := TRIM_LEADING positions in let T := TRIM_TRAILING positions in
  0 < size_bits → Z.of_nat (length input) < npos size_bits →
  (Forall (λ c, c ∈ chars) input ∧
   let output := if L || T then [] else input in
   TrimStringT size_bits input chars positions = (if bool_decide (input = []) then mkTrim false false else positions, output) ∧
   TrimStringPieceT size_bits input chars positions = Ret output) ∨
  ∃ lead mid trail, input = lead ++ mid ++ trail ∧ Forall (λ c, c ∈ chars) lead ∧ core chars mid ∧ Forall (λ c, c ∈ chars) trail ∧
    let output := (if L then [] else lead) ++ mid ++ (if T then [] else trail) in
    TrimStringT size_bits input chars positions = (mkTrim (L && negb (bool_decide (lead = []))) (T && negb (bool_decide (trail = []))), output) ∧
    TrimStringPieceT size_bits input chars positions = Ret output.
Proof. exact (trim_gen size_bits chars input positions). Qed.

Lemma trim_exact_witness :
  TrimStringT 64 [32; 32; 97; 32; 98; 32] [32] (mkTrim true false) = (mkTrim true false, [97; 32; 98; 32]) ∧
  TrimStringT 64 [32; 32] [32] (mkTrim true true) = (mkTrim true true, []).
Proof.
  split; [reflexivity|].
  destruct (trim_exact 64 [32] [32; 32] (mkTrim true true)) as [(_ & E & _)|(lead & mid & trail & _)]; [lia|unfold npos; simpl; lia|exact E|reflexivity].
Defined.
