(* ===== verification/StringSplit.v ===== *)
(** * Splitting strings

    Model of [src/include/base/strings/string_split_internal.h] and
    [string_tokenizer.h].  Positions are indices into the string, [None] being
    [npos]; the white space of a string type is a constant of another file and
    a parameter.  Splitting uses the matchers of [StringReplace] and the trimming
    of [StringUtil]. *)

From stdpp Require Import sets.
From S2P Require Import Prelude StringReplace StringUtil.

(** ** SplitStringT and SplitStringUsingSubstrT *)

Inductive WhitespaceHandling := KEEP_WHITESPACE | TRIM_WHITESPACE.
Inductive SplitResult := SPLIT_WANT_ALL | SPLIT_WANT_NONEMPTY.

#[export] Instance whitespace_eq_dec : EqDecision WhitespaceHandling.
Proof. solve_decision. Defined.
#[export] Instance split_result_eq_dec : EqDecision SplitResult.
Proof. solve_decision. Defined.

Section Split.
Context (size_bits : Z) (WhitespaceForType : list Z).

(** [find_first_of] or [find] from a position. *)
Definition find_from (M : Matcher Z) (str : list Z) (pos : nat) : option nat :=
  (λ k, (pos + k)%nat) <$> first_match (drop pos str).

(** What is done with a piece: [result] after it. *)
Definition add_piece (whitespace : WhitespaceHandling) (result_type : SplitResult) (result : list (list Z)) (piece : list Z) : outcome (list (list Z)) :=
  piece ← (if bool_decide (whitespace = TRIM_WHITESPACE)
           then TrimStringPieceT size_bits piece WhitespaceForType (mkTrim true true) else Ret piece);
  Ret (if bool_decide (result_type = SPLIT_WANT_ALL) || negb (bool_decide (piece = [])) then result ++ [piece] else result).

Fixpoint split_loop (fuel : nat) (str delimiter : list Z) (whitespace : WhitespaceHandling) (result_type : SplitResult)
    (start : option nat) (result : list (list Z)) : outcome (list (list Z)) :=
  match start, fuel with
  | None, _ | _, O => Ret result
  | Some start, S fuel =>
      let end_ := find_from (CharacterMatcher delimiter) str start in
      let '(piece, start) :=
        match end_ with
        | None => (drop start str, None)
        | Some end_ => (take (end_ - start) (drop start str), Some (end_ + 1)%nat)
        end in
      result ← add_piece whitespace result_type result piece;
      split_loop fuel str delimiter whitespace result_type start result
  end.

Definition SplitStringT (str delimiter : list Z) (whitespace : WhitespaceHandling) (result_type : SplitResult) : outcome (list (list Z)) :=
  if bool_decide (str = []) then Ret []
  else split_loop (S (S (length str))) str delimiter whitespace result_type (Some 0%nat) [].

Fixpoint substr_loop (fuel : nat) (input delimiter : list Z) (whitespace : WhitespaceHandling) (result_type : SplitResult)
    (begin_index : nat) (result : list (list Z)) : outcome (list (list Z)) :=
  match fuel with
  | O => Ret result
  | S fuel =>
      let end_index := find_from (SubstringMatcher delimiter) input begin_index in
      let term :=
        match end_index with
        | None => drop begin_index input
        | Some end_index => take (end_index - begin_index) (drop begin_index input)
        end in
      result ← add_piece whitespace result_type result term;
      match end_index with
      | None => Ret result
      | Some end_index => substr_loop fuel input delimiter whitespace result_type (end_index + length delimiter) result
      end
  end.

Definition SplitStringUsingSubstrT (input delimiter : list Z) (whitespace : WhitespaceHandling) (result_type : SplitResult) : outcome (list (list Z)) :=
  if Nat.eqb (length delimiter) 0 then Ret [input]
  else substr_loop (S (length input)) input delimiter whitespace result_type 0 [].
End Split.

(** ** StringTokenizerT *)

Inductive WhitespacePolicy := kIncludeInTokens | kSkipOver.

#[export] Instance policy_eq_dec : EqDecision WhitespacePolicy.
Proof. solve_decision. Defined.

Record StringTokenizer := mkTokenizer {
  string_ : list Z;
  token_begin_ : nat;
  token_end_ : nat;
  delims_ : list Z;
  quotes_ : list Z;
  RETURN_DELIMS : bool;
  RETURN_EMPTY_TOKENS : bool;
  token_is_delim_ : bool;
  whitespace_policy_ : WhitespacePolicy;
}.

Definition Init (string delims : list Z) (policy : WhitespacePolicy) : StringTokenizer :=
  mkTokenizer string 0 0 delims [] false false true policy.

Definition set_options (t : StringTokenizer) (return_delims return_empty : bool) : StringTokenizer :=
  mkTokenizer (string_ t) (token_begin_ t) (token_end_ t) (delims_ t) (quotes_ t) return_delims return_empty (token_is_delim_ t) (whitespace_policy_ t).

Definition set_quote_chars (t : StringTokenizer) (quotes : list Z) : StringTokenizer :=
  mkTokenizer (string_ t) (token_begin_ t) (token_end_ t) (delims_ t) quotes (RETURN_DELIMS t) (RETURN_EMPTY_TOKENS t) (token_is_delim_ t) (whitespace_policy_ t).

Definition set_token (t : StringTokenizer) (token_begin token_end : nat) (is_delim : bool) : StringTokenizer :=
  mkTokenizer (string_ t) token_begin token_end (delims_ t) (quotes_ t) (RETURN_DELIMS t) (RETURN_EMPTY_TOKENS t) is_delim (whitespace_policy_ t).

Definition Reset (t : StringTokenizer) : StringTokenizer := set_token t (token_begin_ t) 0 (token_is_delim_ t).

Definition token (t : StringTokenizer) : list Z := take (token_end_ t - token_begin_ t) (drop (token_begin_ t) (string_ t)).

Definition IsAsciiWhitespace (c : Z) : bool := (c =? 32) || (c =? 13) || (c =? 10) || (c =? 9) || (c =? 12).
Definition ShouldSkip (t : StringTokenizer) (c : Z) : bool := bool_decide (whitespace_policy_ t = kSkipOver) && IsAsciiWhitespace c.
Definition IsDelim (t : StringTokenizer) (c : Z) : bool := bool_decide (c ∈ delims_ t).
Definition IsQuote (t : StringTokenizer) (c : Z) : bool := bool_decide (c ∈ quotes_ t).

(** Loops over the characters from a position on, [rest] being what follows it:
    the position where the loop stops. *)
Fixpoint advance_while (p : Z → bool) (rest : list Z) (pos : nat) : nat :=
  match rest with [] => pos | c :: rest => if p c then advance_while p rest (S pos) else pos end.

Definition SkipWhitespace (t : StringTokenizer) : StringTokenizer :=
  set_token t (token_begin_ t) (advance_while (ShouldSkip t) (drop (token_end_ t) (string_ t)) (token_end_ t)) (token_is_delim_ t).

(** The two loops of [QuickGetNext]: the first looks for a character of a token,
    [None] when the end is reached. *)
Fixpoint quick_skip (t : StringTokenizer) (rest : list Z) (pos : nat) : option nat :=
  match rest with
  | [] => None
  | c :: rest => if negb (IsDelim t c) && negb (ShouldSkip t c) then Some pos else quick_skip t rest (S pos)
  end.

Definition QuickGetNext (t : StringTokenizer) : StringTokenizer * bool :=
  match quick_skip t (drop (token_end_ t) (string_ t)) (token_end_ t) with
  | None => (set_token t (length (string_ t)) (length (string_ t)) true, false)
  | Some token_begin =>
      let token_end := advance_while (λ c, negb (IsDelim t c) && negb (ShouldSkip t c)) (drop (S token_begin) (string_ t)) (S token_begin) in
      (set_token t token_begin token_end false, true)
  end.

Record AdvanceState := mkAdvance { in_quote : bool; in_escape : bool; quote_char : Z }.

Definition AdvanceOne (t : StringTokenizer) (state : AdvanceState) (c : Z) : AdvanceState * bool :=
  if in_quote state then
    (if in_escape state then mkAdvance true false (quote_char state)
     else if c =? 92 then mkAdvance true true (quote_char state)
     else if c =? quote_char state then mkAdvance false (in_escape state) (quote_char state)
     else state, true)
  else if IsDelim t c || ShouldSkip t c then (state, false)
  else (mkAdvance (IsQuote t c) (in_escape state) c, true).

(** [while (token_end_ != end_ && AdvanceOne(&state, *token_end_)) ++token_end_;]. *)
Fixpoint slurp (t : StringTokenizer) (state : AdvanceState) (rest : list Z) (pos : nat) : AdvanceState * nat :=
  match rest with
  | [] => (state, pos)
  | c :: rest => let '(state, ok) := AdvanceOne t state c in if ok then slurp t state rest (S pos) else (state, pos)
  end.

(** The loop [for (;;)] of [FullGetNext]. *)
Fixpoint full_loop (fuel : nat) (t : StringTokenizer) (state : AdvanceState) : StringTokenizer * bool :=
  match fuel with
  | O => (t, false)
  | S fuel =>
      let delimiter (t : StringTokenizer) (state : AdvanceState) :=
        if Nat.eqb (token_end_ t) (length (string_ t)) then (set_token t (token_end_ t) (token_end_ t) true, false)
        else
          let t := set_token t (token_end_ t) (S (token_end_ t)) true in
          if RETURN_DELIMS t then (t, true) else full_loop fuel t state in
      if token_is_delim_ t then
        let '(state, token_end) := slurp t state (drop (token_end_ t) (string_ t)) (token_end_ t) in
        let t := set_token t (token_end_ t) token_end false in
        if negb (Nat.eqb (token_begin_ t) (token_end_ t)) || RETURN_EMPTY_TOKENS t then (t, true) else delimiter t state
      else delimiter t state
  end.

Definition FullGetNext (t : StringTokenizer) : StringTokenizer * bool :=
  full_loop (S (S (length (string_ t)))) (SkipWhitespace t) (mkAdvance false false 0).

Definition GetNext (t : StringTokenizer) : StringTokenizer * bool :=
  if bool_decide (quotes_ t = []) && negb (RETURN_DELIMS t) && negb (RETURN_EMPTY_TOKENS t) then QuickGetNext t else FullGetNext t.

(** The loop of a client: [while (t.GetNext()) use (t.token())]. *)
Fixpoint tokens (next : StringTokenizer → StringTokenizer * bool) (fuel : nat) (t : StringTokenizer) : list (list Z) :=
  match fuel with
  | O => []
  | S fuel => let '(t, ok) := next t in if ok then token t :: tokens next fuel t else []
  end.

Example tokenize : tokens GetNext 9 (Init [44; 97; 98; 44; 44; 99] [44] kIncludeInTokens) = [[97; 98]; [99]].
Proof. reflexivity. Qed.

(** Quoted delimiters are part of a token. *)
Example tokenize_quotes : tokens GetNext 9 (set_quote_chars (Init [97; 39; 44; 39; 44; 98] [44] kIncludeInTokens) [39]) = [[97; 39; 44; 39]; [98]].
Proof. reflexivity. Qed.

(** With [kSkipOver], white space delimits tokens; but when there are quote
    characters or options the first character behind the white space is taken
    for a delimiter and lost. *)
Example skip_over_loses_token :
  tokens GetNext 9 (Init [97; 32; 98] [44] kSkipOver) = [[97]; [98]] ∧
  tokens GetNext 9 (set_quote_chars (Init [97; 32; 98] [44] kSkipOver) [39]) = [[97]].
Proof. split; reflexivity. Qed.

(** ** Fields *)

Section Fields.
Context {M : Matcher Z} {ML : MatcherLaws Z} (Hsize : MatchSize ≠ 0%nat).

(** The parts of a string between the matches, as replacement finds them. *)
Fixpoint fields (skip : nat) (l : list Z) : list (list Z) :=
  match l with
  | [] => [[]]
  | c :: l' =>
      match skip with
      | S skip => fields skip l'
      | O => if matches l then [] :: fields (MatchSize - 1) l'
             else match fields 0 l' with f :: fs => (c :: f) :: fs | [] => [] end
      end
  end.

Lemma fields_skip k l : fields k l = fields 0 (drop k l).
Proof. revert k. induction l as [|c l IH]; intros [|k]; try done. apply IH. Qed.

Lemma fields_nonempty k l : fields k l ≠ [].
Proof.
  revert k. induction l as [|c l IH]; intros k; [done|]. simpl. destruct k as [|k]; [|apply IH]. destruct (matches (c :: l)); [done|].
  destruct (fields 0 l) eqn:E; [by apply IH in E|done].
Qed.

Lemma fields_match l : matches l = true → l ≠ [] → fields 0 l = [] :: fields 0 (drop MatchSize l).
Proof using Hsize.
  intros Hm Hne. destruct l as [|c l]; [done|]. cbn [fields]. rewrite Hm, fields_skip. do 2 f_equal. destruct MatchSize; [done|]. simpl. by rewrite Nat.sub_0_r.
Qed.

Lemma fields_first l :
  fields 0 l = match first_match l with None => [l] | Some k => take k l :: fields 0 (drop (k + MatchSize) l) end.
Proof using Hsize.
  induction l as [|c l IH]; [done|]. cbn [first_match]. destruct (matches (c :: l)) eqn:Hm; [by rewrite fields_match|].
  cbn [fields]. rewrite Hm, IH. by destruct (first_match l).
Qed.

(** Splitting and joining with a separator. *)
Definition join (sep : list Z) (parts : list (list Z)) : list Z :=
  match parts with [] => [] | first :: rest => first ++ flat_map (λ p, sep ++ p) rest end.

Lemma join_fields sep l : join sep (fields 0 l) = replace_all sep 0 l.
Proof using ML Hsize.
  induction l as [l IH] using (induction_ltof1 _ (@length Z)). unfold ltof in IH. rewrite fields_first.
  pose proof (first_match_spec 2 sep Hsize ltac:(lia) l) as Hs. destruct (first_match l) as [k|]; [|destruct Hs as (-> & _); simpl; by rewrite app_nil_r].
  destruct Hs as (Hk & Hm & -> & _). destruct (match_head 2 sep Hsize ltac:(lia) (drop k l) Hm) as (-> & _ & Hf).
  { intros E. apply (f_equal length) in E. rewrite length_drop in E. simpl in E. lia. }
  rewrite drop_drop. specialize (IH (drop (k + MatchSize) l) ltac:(rewrite length_drop; lia)). rewrite <-IH. simpl. f_equal.
  destruct (fields 0 (drop (k + MatchSize) l)) eqn:E; [by apply fields_nonempty in E|]. simpl. by rewrite <-app_assoc.
Qed.
End Fields.

(** Replacing a match by itself changes nothing. *)
Lemma replace_same (delimiter l : list Z) : delimiter ≠ [] → replace_all (M := SubstringMatcher delimiter) delimiter 0 l = l.
Proof.
  intros Hd. induction l as [l IH] using (induction_ltof1 _ (@length Z)). unfold ltof in IH. destruct l as [|c l]; [done|].
  cbn [replace_all]. destruct (@matches Z (SubstringMatcher delimiter) (c :: l)) eqn:Hm.
  - rewrite (proj1 (skip_drop _ _ _)). change (@MatchSize Z (SubstringMatcher delimiter)) with (length delimiter).
    assert (drop (length delimiter - 1) l = drop (length delimiter) (c :: l)) as -> by (destruct delimiter; [done|]; simpl; by rewrite Nat.sub_0_r).
    rewrite IH by (rewrite length_drop; destruct delimiter; [done|simpl; lia]). simpl in Hm. apply bool_decide_eq_true in Hm.
    rewrite <-Hm at 1. apply take_drop.
  - f_equal. apply IH. simpl. lia.
Qed.

Lemma replace_same_char (d : Z) (l : list Z) : replace_all (M := CharacterMatcher [d]) [d] 0 l = l.
Proof.
  rewrite replace_all_chars. induction l as [|c l IH]; [done|]. simpl. rewrite IH. case_bool_decide as H; [|done].
  apply list.list_elem_of_singleton in H. by subst.
Qed.

(** ** Splitting *)

Section SplitProofs.
Context (size_bits : Z) (blanks : list Z) (whitespace : WhitespaceHandling) (result_type : SplitResult).
Context (Hbits : 0 < size_bits).

(** A piece as it is stored. *)
Definition stored (p : list Z) : list Z :=
  if bool_decide (whitespace = TRIM_WHITESPACE)
  then match TrimStringPieceT size_bits p blanks (mkTrim true true) with Ret q => q | Crash _ => [] end else p.

Definition wanted (p : list Z) : list (list Z) :=
  if bool_decide (result_type = SPLIT_WANT_ALL) || negb (bool_decide (stored p = [])) then [stored p] else [].

Lemma add_piece_ok result p : Z.of_nat (length p) < npos size_bits →
  add_piece size_bits blanks whitespace result_type result p = Ret (result ++ wanted p).
Proof using Hbits.
  intros Hp. assert (∃ q, TrimStringPieceT size_bits p blanks (mkTrim true true) = Ret q) as [q Eq].
  { destruct (trim_gen size_bits blanks p (mkTrim true true) Hbits Hp) as [(_ & _ & E)|(? & ? & ? & _ & _ & _ & _ & _ & E)]; eauto. }
  unfold add_piece, wanted, stored. rewrite Eq. destruct (bool_decide (whitespace = TRIM_WHITESPACE)); rewrite bind_ret; (destruct (_ || _); [done|by rewrite app_nil_r]).
Qed.

Lemma split_loop_ok fuel str delimiter start result : Z.of_nat (length str) < npos size_bits → (start ≤ length str)%nat → (length str + 1 < fuel + start)%nat →
  split_loop size_bits blanks fuel str delimiter whitespace result_type (Some start) result =
  Ret (result ++ flat_map wanted (fields (M := CharacterMatcher delimiter) 0 (drop start str))).
Proof using Hbits.
  intros Hl. revert start result. induction fuel as [|fuel IH]; intros start result Hs Hf; [lia|]. cbn [split_loop]. unfold find_from.
  rewrite fields_first by done. pose proof (first_match_spec (M := CharacterMatcher delimiter) 2 [] ltac:(done) ltac:(lia) (drop start str)) as H1.
  destruct (first_match (drop start str)) as [k|]; simpl.
  - destruct H1 as (Hk & _). rewrite length_drop in Hk. replace (start + k - start)%nat with k by lia.
    rewrite add_piece_ok by (rewrite length_take, length_drop; lia). rewrite bind_ret, IH by lia.
    rewrite <-app_assoc, drop_drop. by replace (start + (k + 1))%nat with (start + k + 1)%nat by lia.
  - rewrite add_piece_ok by (rewrite length_drop; lia). rewrite bind_ret, app_nil_r. by destruct fuel.
Qed.

Lemma substr_loop_ok fuel input delimiter start result : delimiter ≠ [] → Z.of_nat (length input) < npos size_bits → (start ≤ length input)%nat →
  (length input < fuel + start)%nat →
  substr_loop size_bits blanks fuel input delimiter whitespace result_type start result =
  Ret (result ++ flat_map wanted (fields (M := SubstringMatcher delimiter) 0 (drop start input))).
Proof using Hbits.
  intros Hd Hl. assert (length delimiter ≠ 0)%nat as Hd0 by (destruct delimiter; done).
  revert start result. induction fuel as [|fuel IH]; intros start result Hs Hf; [lia|]. cbn [substr_loop]. unfold find_from.
  rewrite fields_first by done. pose proof (first_match_spec (M := SubstringMatcher delimiter) 2 [] Hd0 ltac:(lia) (drop start input)) as H1.
  destruct (first_match (drop start input)) as [k|]; cbn [fmap option_fmap option_map flat_map].
  - destruct H1 as (Hk & Hm & _). apply (match_fits (MatcherLaws := substring_laws delimiter)) in Hm. simpl in Hm. rewrite length_drop in Hk. rewrite !length_drop in Hm.
    replace (start + k - start)%nat with k by lia.
    rewrite add_piece_ok by (rewrite length_take, length_drop; lia). rewrite bind_ret, IH by lia.
    rewrite <-app_assoc, drop_drop. simpl MatchSize. by rewrite Nat.add_assoc.
  - rewrite add_piece_ok by (rewrite length_drop; lia). by rewrite bind_ret, app_nil_r.
Qed.
End SplitProofs.

Lemma keep_all size_bits blanks fs : flat_map (wanted size_bits blanks KEEP_WHITESPACE SPLIT_WANT_ALL) fs = fs.
Proof. induction fs as [|f fs IH]; [done|]. simpl. by rewrite IH. Qed.

(** ** Joining *)

Lemma total_size_ok size_bits parts acc : 0 < size_bits →
  total_size size_bits parts (wrapU size_bits acc) = wrapU size_bits (acc + Z.of_nat (length (concat parts))).
Proof.
  intros Hb. revert acc. induction parts as [|p parts IH]; intros acc; simpl; [by rewrite Z.add_0_r|].
  replace (wrapU size_bits (wrapU size_bits acc + Z.of_nat (length p))) with (wrapU size_bits (acc + Z.of_nat (length p))) by (unfold wrapU; by rewrite Zplus_mod_idemp_l).
  rewrite IH, length_app. f_equal. lia.
Qed.

Lemma append_parts_ok sep parts result : append_parts sep parts result = result ++ flat_map (λ p, sep ++ p) parts.
Proof. revert result. induction parts as [|p parts IH]; intros result; simpl; [by rewrite app_nil_r|]. by rewrite IH, <-!app_assoc. Qed.

Lemma join_length sep first rest : length (join sep (first :: rest)) = (length rest * length sep + length (concat (first :: rest)))%nat.
Proof. simpl. rewrite !length_app. induction rest as [|p rest IH]; simpl; [lia|]. rewrite !length_app. lia. Qed.

Lemma join_string_ok `{BuildMode} size_bits parts sep : 0 < size_bits → Z.of_nat (length (join sep parts)) < 2 ^ size_bits →
  JoinStringT size_bits parts sep = Ret (join sep parts).
Proof.
  intros Hb Hl. destruct parts as [|first rest]; [done|]. unfold JoinStringT. rewrite append_parts_ok. fold (join sep (first :: rest)).
  assert (wrapU size_bits (wrapU size_bits (Z.of_nat (length (first :: rest)) - 1) * Z.of_nat (length sep)) = wrapU size_bits (Z.of_nat (length rest) * Z.of_nat (length sep))) as ->.
  { unfold wrapU. rewrite Zmult_mod_idemp_l. f_equal. simpl length. lia. }
  rewrite total_size_ok, <-Nat2Z.inj_mul, <-Nat2Z.inj_add, <-join_length by done. rewrite wrapU_small by lia. by pass.
Qed.

(** Parts without the delimiter are found again. *)
Lemma fields_join d parts : parts ≠ [] → Forall (λ p, ¬ (d ∈ p)) parts → fields (M := CharacterMatcher [d]) 0 (join [d] parts) = parts.
Proof.
  intros Hne Hall. destruct Hall as [|first rest Hf Hr]; [done|]. clear Hne. unfold join. revert first Hf. induction Hr as [|p rest Hp Hr IH]; intros first Hf.
  - simpl. rewrite app_nil_r. induction first as [|c first IH]; [done|]. cbn [fields]. simpl matches. rewrite bool_decide_false by set_solver. by rewrite IH by set_solver.
  - cbn [flat_map]. induction first as [|c first IHf].
    + simpl app. cbn [fields]. simpl matches. rewrite bool_decide_true by set_solver. simpl MatchSize. f_equal. apply (IH p Hp).
    + simpl app. cbn [fields]. simpl matches. rewrite bool_decide_false by set_solver. rewrite <-app_comm_cons in IHf. simpl app in IHf. by rewrite IHf by set_solver.
Qed.

Lemma split_fields size_bits blanks str delimiter whitespace result_type : 0 < size_bits → Z.of_nat (length str) < npos size_bits → str ≠ [] →
  SplitStringT size_bits blanks str delimiter whitespace result_type =
  Ret (flat_map (wanted size_bits blanks whitespace result_type) (fields (M := CharacterMatcher delimiter) 0 str)).
Proof. intros Hb Hl Hne. unfold SplitStringT. rewrite bool_decide_false by done. rewrite split_loop_ok by (done || lia). done. Qed.

Lemma split_substr_fields size_bits blanks input delimiter whitespace result_type : 0 < size_bits → Z.of_nat (length input) < npos size_bits → delimiter ≠ [] →
  SplitStringUsingSubstrT size_bits blanks input delimiter whitespace result_type =
  Ret (flat_map (wanted size_bits blanks whitespace result_type) (fields (M := SubstringMatcher delimiter) 0 input)).
Proof.
  intros Hb Hl Hne. unfold SplitStringUsingSubstrT. destruct (Nat.eqb_spec (length delimiter) 0) as [E|_]; [by destruct delimiter|].
  rewrite substr_loop_ok by (done || lia). done.
Qed.

(** Only no part and a single empty part join to the empty string. *)
Lemma join_nil d parts : join [d] parts = [] → parts = [] ∨ parts = [[]].
Proof.
  destruct parts as [|first rest]; [by left|]. intros [-> E]%app_eq_nil. right. by destruct rest.
Qed.

(** C22: splitting and joining are inverse: joining the fields of any string,
    the empty one included, split at a character or at a nonempty substring,
    gives the string back, and splitting the join of parts that do not contain
    the delimiter gives the parts back, with one exception: a single empty part
    is joined to the empty string, which [SplitString] splits into no parts.
    The sanity check of the size of the join holds.  (Every string is shorter
    than [npos].) *)
Theorem split_join_round_trip `{BuildMode} (size_bits : Z) (blanks str delimiter : list Z) (d : Z) (parts : list (list Z)) :
  0 < size_bits → Z.of_nat (length str) < npos size_bits → Z.of_nat (length (join [d] parts)) < npos size_bits →
  delimiter ≠ [] → Forall (λ p, ¬ (d ∈ p)) parts →
  (fs ← SplitStringT size_bits blanks str [d] KEEP_WHITESPACE SPLIT_WANT_ALL; JoinStringT size_bits fs [d]) = Ret str ∧
  (fs ← SplitStringUsingSubstrT size_bits blanks str delimiter KEEP_WHITESPACE SPLIT_WANT_ALL; JoinStringT size_bits fs delimiter) = Ret str ∧
  (s ← JoinStringT size_bits parts [d]; SplitStringT size_bits blanks s [d] KEEP_WHITESPACE SPLIT_WANT_ALL) =
    Ret (if bool_decide (parts = [[]]) then [] else parts).
Proof.
  intros Hb Hl Hlj Hd Hall. assert (npos size_bits < 2 ^ size_bits) as Hn by (unfold npos; lia).
  rewrite split_substr_fields, bind_ret, keep_all by done. split; [|split].
  - destruct (decide (str = [])) as [->|Hne]; [done|]. rewrite split_fields, bind_ret, keep_all by done.
    assert (join [d] (fields (M := CharacterMatcher [d]) 0 str) = str) as E by (by rewrite (join_fields (ML := character_laws [d])), replace_same_char).
    rewrite join_string_ok by (rewrite ?E; lia). by rewrite E.
  - assert (join delimiter (fields (M := SubstringMatcher delimiter) 0 str) = str) as E.
    { rewrite (join_fields (ML := substring_laws delimiter)) by (by destruct delimiter). by apply replace_same. }
    rewrite join_string_ok by (rewrite ?E; lia). by rewrite E.
  - rewrite join_string_ok, bind_ret by lia. destruct (decide (join [d] parts = [])) as [E|Hj].
    + rewrite E. unfold SplitStringT. rewrite bool_decide_true by done. f_equal. by apply join_nil in E as [-> | ->].
    + rewrite split_fields, keep_all by done. rewrite bool_decide_false by (by intros ->).
      f_equal. apply fields_join; [|done]. by intros ->.
Qed.

Lemma split_join_round_trip_witness :
  (s ← @JoinStringT debug_build 64 [[97]; []; [98]] [44]; SplitStringT 64 [32] s [44] KEEP_WHITESPACE SPLIT_WANT_ALL) = Ret [[97]; []; [98]].
Proof.
  apply (@split_join_round_trip debug_build 64 [32] [97] [44] 44 [[97]; []; [98]]); try lia; try discriminate.
  - unfold npos. simpl. lia.
  - unfold npos. simpl. lia.
  - repeat constructor; set_solver.
Defined.

(** ** Tokens *)

(** The characters at which tokens end.  The white space is that of
    [IsAsciiWhitespace]: space, carriage return, line feed, horizontal tab and
    form feed; the vertical tab is not in it. *)
Definition separators (delims : list Z) (policy : WhitespacePolicy) : list Z :=
  delims ++ (if bool_decide (policy = kSkipOver) then [32; 13; 10; 9; 12] else []).

(** The nonempty fields between separators. *)
Definition words_of (seps l : list Z) : list (list Z) := filter (λ p, p ≠ []) (fields (M := CharacterMatcher seps) 0 l).

Section TokenProofs.
Context (s delims : list Z) (policy : WhitespacePolicy).
Local Abbreviation seps := (separators delims policy).
Local Abbreviation inner := (Forall (λ c, ¬ (c ∈ seps))).
Local Abbreviation outer := (Forall (λ c, c ∈ seps)).

(** A tokenizer of the string [s]. *)
Definition tokenizer_of (t : StringTokenizer) : Prop :=
  string_ t = s ∧ delims_ t = delims ∧ quotes_ t = [] ∧ RETURN_DELIMS t = false ∧ RETURN_EMPTY_TOKENS t = false ∧ whitespace_policy_ t = policy.

Lemma separator_test t c : tokenizer_of t → IsDelim t c || ShouldSkip t c = bool_decide (c ∈ seps).
Proof.
  intros (_ & Hd & _ & _ & _ & Hp). unfold IsDelim, ShouldSkip, separators. rewrite Hd, Hp. apply eq_iff_eq_true.
  rewrite orb_true_iff, andb_true_iff, !bool_decide_eq_true, list.elem_of_app. unfold IsAsciiWhitespace.
  destruct policy; simpl; rewrite ?list.elem_of_cons, ?elem_of_nil; [split; [intros [H|[H _]]; [by left|done]|intros [H|[]]; by left]|]. rewrite !orb_true_iff, !Z.eqb_eq. tauto.
Qed.

Lemma inner_test t c : tokenizer_of t → negb (IsDelim t c) && negb (ShouldSkip t c) = negb (bool_decide (c ∈ seps)).
Proof. intros Ht. by rewrite <-negb_orb, (separator_test t c Ht). Qed.

(** What is left of the string: separators, then a token and what follows it. *)
Lemma rest_cases l : outer l ∨ ∃ pre tok post, l = pre ++ tok ++ post ∧ outer pre ∧ inner tok ∧ tok ≠ [] ∧ (post = [] ∨ ∃ c p, post = c :: p ∧ c ∈ seps).
Proof.
  induction l as [|c l IH]; [left; constructor|]. destruct (decide (c ∈ seps)) as [Hc|Hc].
  - destruct IH as [Ho|(pre & tok & post & -> & Hp & H)]; [left; by constructor|]. right. exists (c :: pre), tok, post. split; [done|]. split; [by constructor|done].
  - right. destruct IH as [Ho|(pre & tok & post & -> & Hp & Hi & Hne & Hpost)].
    + exists [], [c], l. split; [done|]. split; [constructor|]. split; [by repeat constructor|]. split; [done|]. destruct Ho as [|d l Hd Ho]; [by left|right; eauto].
    + destruct Hp as [|d pre Hd Hp].
      * exists [], (c :: tok), post. split; [done|]. split; [constructor|]. split; [by constructor|]. by split.
      * exists [], [c], (d :: pre ++ tok ++ post). split; [done|]. split; [constructor|]. split; [by repeat constructor|]. split; [done|]. right; eauto.
Qed.

Lemma words_outer pre l : outer pre → words_of seps (pre ++ l) = words_of seps l.
Proof.
  induction 1 as [|c pre Hc Hp IH]; [done|]. unfold words_of in *. simpl app. cbn [fields]. simpl matches. rewrite bool_decide_true by done. simpl MatchSize.
  rewrite filter_cons_False by (intros Hn; by apply Hn). exact IH.
Qed.

Lemma words_none l : outer l → words_of seps l = [].
Proof. intros Ho. rewrite <-(app_nil_r l), words_outer by done. done. Qed.

Lemma words_token tok post : inner tok → tok ≠ [] → (post = [] ∨ ∃ c p, post = c :: p ∧ c ∈ seps) → words_of seps (tok ++ post) = tok :: words_of seps post.
Proof.
  intros Hi Hne Hpost.
  assert (fields (M := CharacterMatcher seps) 0 (tok ++ post) = match fields (M := CharacterMatcher seps) 0 post with f :: fs => (tok ++ f) :: fs | [] => [] end) as E.
  { clear Hne. induction Hi as [|c tok Hc Hi IH]; [simpl; by destruct (fields 0 post)|]. simpl app. cbn [fields]. simpl matches. rewrite bool_decide_false by done. rewrite IH.
    by destruct (fields 0 post). }
  unfold words_of. rewrite E. destruct Hpost as [->|(c & p & -> & Hc)].
  - simpl. rewrite app_nil_r. rewrite filter_cons_True by done. done.
  - cbn [fields]. simpl matches. rewrite bool_decide_true by done. simpl MatchSize. rewrite app_nil_r.
    by rewrite filter_cons_True by done.
Qed.

(** A call of [GetNext] on the part of the string behind [e]: it stops at the
    end, or returns the next token. *)
Definition next_token (next : StringTokenizer → StringTokenizer * bool) (good : StringTokenizer → Prop) : Prop :=
  ∀ t, tokenizer_of t → (token_end_ t ≤ length s)%nat → good t →
    (outer (drop (token_end_ t) s) ∧ (next t).2 = false) ∨
    ∃ pre tok post, drop (token_end_ t) s = pre ++ tok ++ post ∧ outer pre ∧ inner tok ∧ tok ≠ [] ∧ (post = [] ∨ ∃ c p, post = c :: p ∧ c ∈ seps) ∧
      ∃ t', next t = (t', true) ∧ tokenizer_of t' ∧ token t' = tok ∧ drop (token_end_ t') s = post ∧ (token_end_ t' ≤ length s)%nat ∧ good t'.

(** The loop of a client then collects the tokens. *)
Lemma tokens_collected next good fuel t : next_token next good → tokenizer_of t → (token_end_ t ≤ length s)%nat → good t →
  (length (drop (token_end_ t) s) < fuel)%nat → tokens next fuel t = words_of seps (drop (token_end_ t) s).
Proof.
  intros Hnext. revert t. induction fuel as [|fuel IH]; intros t Ht Hle Hg Hf; [lia|]. cbn [tokens].
  destruct (Hnext t Ht Hle Hg) as [[Ho E]|(pre & tok & post & El & Hp & Hi & Hne & Hpost & t' & E & Ht' & Etok & Epost & Hle' & Hg')].
  - destruct (next t) as [t' ok]. simpl in E. subst ok. by rewrite words_none.
  - rewrite E, El, words_outer, words_token, Etok by done. f_equal. rewrite IH, Epost; [done|done|done|done|].
    rewrite Epost. apply (f_equal length) in El. rewrite !length_app in El. destruct tok; [done|]. simpl in El. lia.
Qed.

Lemma set_token_of t b e d : tokenizer_of t → tokenizer_of (set_token t b e d).
Proof. by destruct t. Qed.

(** [token] of a tokenizer set to a part of the rest. *)
Lemma token_set t e pre tok post d : tokenizer_of t → drop e s = pre ++ tok ++ post →
  token (set_token t (e + length pre) (e + length pre + length tok) d) = tok ∧
  drop (e + length pre + length tok) s = post ∧ (tok ≠ [] → (e + length pre + length tok ≤ length s)%nat).
Proof.
  intros Ht El. pose proof El as Hlen. apply (f_equal length) in Hlen. rewrite length_drop, !length_app in Hlen.
  assert (drop (e + length pre) s = tok ++ post) as E1 by (rewrite <-drop_drop, El; apply drop_app_length).
  split; [|split].
  - unfold token. simpl. destruct Ht as (-> & _). rewrite E1. replace (e + length pre + length tok - (e + length pre))%nat with (length tok) by lia. apply take_app_length.
  - rewrite <-drop_drop, E1. apply drop_app_length.
  - intros Hne. destruct tok; [done|]. simpl in *. lia.
Qed.

Lemma advance_token t tok post pos : tokenizer_of t → inner tok → (post = [] ∨ ∃ c p, post = c :: p ∧ c ∈ seps) →
  advance_while (λ c, negb (IsDelim t c) && negb (ShouldSkip t c)) (tok ++ post) pos = (pos + length tok)%nat.
Proof.
  intros Ht Hi Hpost. revert pos. induction Hi as [|c tok Hc Hi IH]; intros pos; simpl.
  - destruct Hpost as [->|(c & p & -> & Hc)]; simpl; [lia|]. rewrite (inner_test t c Ht), bool_decide_true by done. simpl. lia.
  - rewrite (inner_test t c Ht), bool_decide_false by done. simpl. rewrite IH. lia.
Qed.

Lemma quick_skip_outer t pre l pos : tokenizer_of t → outer pre → quick_skip t (pre ++ l) pos = quick_skip t l (pos + length pre).
Proof.
  intros Ht Hp. revert pos. induction Hp as [|c pre Hc Hp IH]; intros pos; simpl; [f_equal; lia|].
  rewrite (inner_test t c Ht), bool_decide_true by done. simpl. rewrite IH. f_equal. lia.
Qed.

Lemma quick_next : next_token QuickGetNext (λ _, True).
Proof.
  intros t Ht Hle _. unfold QuickGetNext. pose proof Ht as (Es & _). rewrite Es. destruct (rest_cases (drop (token_end_ t) s)) as [Ho|(pre & tok & post & El & Hp & Hi & Hne & Hpost)].
  - left. split; [done|]. rewrite <-(app_nil_r (drop _ s)), quick_skip_outer by done. done.
  - right. exists pre, tok, post. do 5 (split; [done|]). rewrite El, quick_skip_outer by done. destruct tok as [|c tok]; [done|].
    inversion Hi as [|? ? Hc Hi']; subst. simpl app. cbn [quick_skip]. rewrite (inner_test t c Ht), bool_decide_false by done. cbn [negb].
    destruct (token_set t (token_end_ t) pre (c :: tok) post false Ht El) as (E1 & E2 & E3).
    assert (drop (S (token_end_ t + length pre)) s = tok ++ post) as Ed.
    { replace (S (token_end_ t + length pre)) with (token_end_ t + (length pre + 1))%nat by lia. rewrite <-!drop_drop, El, drop_app_length. done. }
    rewrite Ed, advance_token by done. replace (S (token_end_ t + length pre) + length tok)%nat with (token_end_ t + length pre + length (c :: tok))%nat by (simpl; lia).
    eexists. split; [done|]. split; [by apply set_token_of|]. split; [exact E1|]. simpl token_end_. split; [exact E2|]. split; [by apply E3|done].
Qed.

(** ** The general loop without quotes and options *)

Lemma slurp_token t tok post st pos : tokenizer_of t → in_quote st = false → inner tok → (post = [] ∨ ∃ c p, post = c :: p ∧ c ∈ seps) →
  ∃ st', slurp t st (tok ++ post) pos = (st', (pos + length tok)%nat) ∧ in_quote st' = false.
Proof.
  intros Ht Hq Hi Hpost. revert st pos Hq. induction Hi as [|c tok Hc Hi IH]; intros st pos Hq; simpl.
  - destruct Hpost as [->|(c & p & -> & Hc)]; simpl; [exists st; split; [f_equal; lia|done]|]. unfold AdvanceOne. rewrite Hq, (separator_test t c Ht), bool_decide_true by done.
    exists st. split; [f_equal; lia|done].
  - unfold AdvanceOne. rewrite Hq, (separator_test t c Ht), bool_decide_false by done.
    destruct (IH (mkAdvance (IsQuote t c) (in_escape st) c) (S pos)) as (st' & E & Hq').
    { unfold IsQuote. simpl. destruct Ht as (_ & _ & -> & _). apply bool_decide_eq_false. by apply not_elem_of_nil. }
    exists st'. rewrite E. split; [f_equal; lia|done].
Qed.

Lemma full_loop_none fuel t st : tokenizer_of t → token_is_delim_ t = true → in_quote st = false → (token_end_ t ≤ length s)%nat →
  outer (drop (token_end_ t) s) → (length s < fuel + token_end_ t)%nat → (full_loop fuel t st).2 = false.
Proof.
  revert t st. induction fuel as [|fuel IH]; intros t st Ht Hd Hq Hle Ho Hf; [lia|]. cbn [full_loop]. rewrite Hd. pose proof Ht as (Es & _ & _ & Hrd & Hre & _). rewrite Es.
  destruct (slurp_token t [] (drop (token_end_ t) s) st (token_end_ t) Ht Hq) as (st' & E & Hq'); [constructor| |].
  { destruct Ho as [|c l Hc Ho]; [by left|right; eauto]. }
  simpl app in E. rewrite E. clear E. simpl length. rewrite Nat.add_0_r. simpl. rewrite Nat.eqb_refl, Hre. simpl. rewrite Es, Hrd.
  destruct (Nat.eqb_spec (token_end_ t) (length s)); [done|]. apply IH; [by do 2 apply set_token_of|done|done|simpl; lia| |simpl; lia].
  simpl. replace (S (token_end_ t)) with (token_end_ t + 1)%nat by lia. rewrite <-drop_drop. by apply Forall_drop.
Qed.

Lemma full_loop_some fuel pre tok post t st : tokenizer_of t → token_is_delim_ t = true → in_quote st = false →
  drop (token_end_ t) s = pre ++ tok ++ post → outer pre → inner tok → tok ≠ [] → (post = [] ∨ ∃ c p, post = c :: p ∧ c ∈ seps) → (length pre < fuel)%nat →
  ∃ t', full_loop fuel t st = (t', true) ∧ tokenizer_of t' ∧ token t' = tok ∧ drop (token_end_ t') s = post ∧ (token_end_ t' ≤ length s)%nat.
Proof.
  intros Ht Hd Hq El Hp. revert fuel t st Ht Hd Hq El. induction Hp as [|c pre Hc Hp IH]; intros fuel t st Ht Hd Hq El Hi Hne Hpost Hf; (destruct fuel as [|fuel]; [simpl in Hf; lia|]);
    cbn [full_loop]; rewrite Hd; pose proof Ht as (Es & _ & _ & Hrd & Hre & _); rewrite Es, El.
  - simpl app in *. destruct (slurp_token t tok post st (token_end_ t) Ht Hq Hi Hpost) as (st' & -> & _).
    destruct (token_set t (token_end_ t) [] tok post false Ht El) as (E1 & E2 & E3). simpl length in *. rewrite Nat.add_0_r in *.
    simpl. destruct (Nat.eqb_spec (token_end_ t) (token_end_ t + length tok)) as [E|_]; [destruct tok; [done|simpl in E; lia]|]. simpl.
    eexists. split; [done|]. split; [by apply set_token_of|]. split; [exact E1|]. split; [exact E2|by apply E3].
  - destruct (slurp_token t [] ((c :: pre) ++ tok ++ post) st (token_end_ t) Ht Hq) as (st' & E & Hq'); [constructor|right; simpl; eauto|]. simpl app in *. rewrite E. clear E.
    simpl length. rewrite Nat.add_0_r. simpl. rewrite Nat.eqb_refl, Hre. simpl. rewrite Es, Hrd.
    destruct (Nat.eqb_spec (token_end_ t) (length s)) as [E|_]; [rewrite E, drop_all in El; done|].
    apply IH; [by do 2 apply set_token_of|done|done| |done|done|done|simpl in Hf; lia].
    simpl. replace (S (token_end_ t)) with (token_end_ t + 1)%nat by lia. by rewrite <-drop_drop, El.
Qed.

(** A tokenizer between two calls: behind a token there is a separator. *)
Definition between (t : StringTokenizer) : Prop :=
  token_is_delim_ t = true ∨ drop (token_end_ t) s = [] ∨ ∃ c p, drop (token_end_ t) s = c :: p ∧ c ∈ seps.

Lemma full_next : policy = kIncludeInTokens → next_token FullGetNext between.
Proof.
  intros Hpol t Ht Hle Hb. pose proof Ht as (Es & _ & _ & Hrd & Hre & Hp). unfold FullGetNext. rewrite Es.
  assert (SkipWhitespace t = t) as ->.
  { unfold SkipWhitespace. rewrite Es. assert (∀ l pos, advance_while (ShouldSkip t) l pos = pos) as ->; [|by destruct t].
    intros [|c l] pos; simpl; [done|]. unfold ShouldSkip. by rewrite Hp, Hpol. }
  destruct (token_is_delim_ t) eqn:Hd.
  - destruct (rest_cases (drop (token_end_ t) s)) as [Ho|(pre & tok & post & El & Ho & Hi & Hne & Hpost)].
    + left. split; [done|]. apply full_loop_none; done || lia.
    + right. exists pre, tok, post. do 5 (split; [done|]). pose proof (f_equal length El) as Hlen. rewrite length_drop, !length_app in Hlen.
      destruct (full_loop_some (S (S (length s))) pre tok post t (mkAdvance false false 0)) as (t' & E & Ht' & Et & Ep & Hle'); try done; [lia|].
      exists t'. do 5 (split; [done|]). right. rewrite Ep. exact Hpost.
  - destruct Hb as [Hb|Hb]; [by rewrite Hd in Hb|]. remember (S (length s)) as n eqn:En. cbn [full_loop]. rewrite Hd, Es. destruct Hb as [Hnil|(c & p & Ec & Hc)].
    + left. rewrite Hnil. split; [constructor|]. pose proof (f_equal length Hnil) as Hl. rewrite length_drop in Hl. simpl in Hl.
      destruct (Nat.eqb_spec (token_end_ t) (length s)); [done|lia].
    + pose proof (f_equal length Ec) as Hl. rewrite length_drop in Hl. simpl in Hl. destruct (Nat.eqb_spec (token_end_ t) (length s)); [lia|]. simpl RETURN_DELIMS. rewrite Hrd.
      set (t1 := set_token t (token_end_ t) (S (token_end_ t)) true).
      assert (drop (token_end_ t1) s = p) as Ep. { unfold t1. simpl. replace (S (token_end_ t)) with (token_end_ t + 1)%nat by lia. by rewrite <-drop_drop, Ec. }
      destruct (rest_cases p) as [Ho|(pre & tok & post & El & Ho & Hi & Hne & Hpost)].
      * left. rewrite Ec. split; [by constructor|]. apply full_loop_none; [by apply set_token_of|done|done|simpl; lia|by rewrite Ep|simpl; lia].
      * right. exists (c :: pre), tok, post. rewrite Ec, El. split; [done|]. split; [by constructor|]. do 3 (split; [done|]).
        rewrite El, !length_app in Hl.
        destruct (full_loop_some n pre tok post t1 (mkAdvance false false 0)) as (t' & E & Ht' & Et & Epo & Hle'); try done; [by rewrite Ep|lia|].
        exists t'. do 5 (split; [done|]). right. rewrite Epo. exact Hpost.
Qed.

Lemma tokens_of next good fuel : next_token next good → good (Init s delims policy) → (length s < fuel)%nat →
  tokens next fuel (Init s delims policy) = words_of seps s.
Proof.
  intros Hnext Hg Hf. rewrite (tokens_collected next good); [done|done|by repeat split|simpl; lia|done|simpl; by rewrite drop_0].
Qed.
End TokenProofs.

Lemma tokens_ext next next' fuel t :
  (∀ t, quotes_ t = [] → RETURN_DELIMS t = false → RETURN_EMPTY_TOKENS t = false → next t = next' t ∧ quotes_ (next t).1 = [] ∧ RETURN_DELIMS (next t).1 = false ∧ RETURN_EMPTY_TOKENS (next t).1 = false) →
  quotes_ t = [] → RETURN_DELIMS t = false → RETURN_EMPTY_TOKENS t = false → tokens next fuel t = tokens next' fuel t.
Proof.
  intros Hn. revert t. induction fuel as [|fuel IH]; intros t H1 H2 H3; [done|]. cbn [tokens]. destruct (Hn t H1 H2 H3) as (E & E1 & E2 & E3). rewrite <-E.
  destruct (next t) as [t' ok]. simpl in *. destruct ok; [|done]. f_equal. by apply IH.
Qed.

Lemma quick_is_next fuel s delims policy : tokens GetNext fuel (Init s delims policy) = tokens QuickGetNext fuel (Init s delims policy).
Proof.
  apply tokens_ext; [|done|done|done]. intros t H1 H2 H3. unfold GetNext. rewrite H1, H2, H3. split; [done|]. unfold QuickGetNext. simpl.
  destruct (quick_skip _ _ _); simpl; done.
Qed.

Lemma nonempty_wanted size_bits blanks fs : flat_map (wanted size_bits blanks KEEP_WHITESPACE SPLIT_WANT_NONEMPTY) fs = filter (λ p, p ≠ []) fs.
Proof.
  induction fs as [|f fs IH]; [done|]. cbn [flat_map]. rewrite IH. unfold wanted, stored. simpl. destruct f as [|c f].
  - rewrite filter_cons_False by (intros Hn; by apply Hn). done.
  - rewrite filter_cons_True by done. done.
Qed.

(** C23: without quote characters and options, [while (t.GetNext())] visits
    exactly the maximal runs of characters that are neither delimiters nor (under
    [kSkipOver]) among the five characters space, carriage return, line feed,
    horizontal tab and form feed that [IsAsciiWhitespace] accepts, in order (so a
    vertical tab, which the comment on the policy also counts as white space, is
    part of a token: [tokenizer_vertical_tab]); it ends; when white space is kept
    the general implementation [FullGetNext] visits the same tokens as
    [QuickGetNext], and they are the nonempty pieces of [SplitString]. *)
Theorem tokenizer_exact (size_bits : Z) (blanks s delims : list Z) (policy : WhitespacePolicy) (fuel : nat) :
  0 < size_bits → Z.of_nat (length s) < npos size_bits → (length s < fuel)%nat →
  tokens GetNext fuel (Init s delims policy) = words_of (separators delims policy) s ∧
  (policy = kIncludeInTokens →
     tokens FullGetNext fuel (Init s delims policy) = tokens GetNext fuel (Init s delims policy) ∧
     SplitStringT size_bits blanks s delims KEEP_WHITESPACE SPLIT_WANT_NONEMPTY = Ret (tokens GetNext fuel (Init s delims policy))).
Proof.
  intros Hb Hl Hf. rewrite quick_is_next, (tokens_of s delims policy _ _ fuel (quick_next s delims policy)) by done. split; [done|]. intros ->.
  split; [by rewrite (tokens_of s delims _ _ _ fuel (full_next s delims kIncludeInTokens eq_refl)) by (try done; by left)|].
  unfold separators, words_of. simpl. rewrite app_nil_r. destruct s as [|c s]; [done|]. rewrite split_fields, nonempty_wanted by done. done.
Qed.

(** The tokens of "a", vertical tab, "b", form feed, "c". *)
Example tokenizer_vertical_tab :
  tokens GetNext 9 (Init [97; 11; 98; 12; 99] [44] kSkipOver) = [[97; 11; 98]; [99]].
Proof. reflexivity. Qed.

Lemma tokenizer_exact_witness :
  tokens GetNext 9 (Init [44; 97; 98; 32; 99] [44] kSkipOver) = [[97; 98]; [99]] ∧ tokens FullGetNext 9 (Init [44; 97; 44] [44] kIncludeInTokens) = [[97]].
Proof.
  destruct (tokenizer_exact 64 [32] [44; 97; 98; 32; 99] [44] kSkipOver 9) as [E _]; [lia|unfold npos; simpl; lia|simpl; lia|].
  split; [rewrite E; reflexivity|].
  destruct (tokenizer_exact 64 [32] [44; 97; 44] [44] kIncludeInTokens 9) as [E1 E2]; [lia|unfold npos; simpl; lia|simpl; lia|].
  destruct (E2 eq_refl) as [E3 _]. rewrite E3, E1. reflexivity.
Defined.
