(* ===== verification/Bits.v ===== *)
(** * Bit utilities and fixed-point helpers

    Model of [src/include/base/bits.h] (the GCC branch) and of
    [src/include/common_audio/signal_processing/include/spl_inl.h].  Integers
    keep their widths.  The table of [WebRtcSpl_CountLeadingZeros32_NotBuiltin]
    is defined in another file and is a parameter; what it must hold is derived
    here from the constant the code multiplies with. *)

From S2P Require Import Prelude.

(** ** Built-ins *)

(** The number of zero bits above the highest one bit of a [w]-bit number. *)
Definition clz (w n : Z) : Z := if n =? 0 then w else w - 1 - Z.log2 n.

(** The number of zero bits below the lowest one bit. *)
Fixpoint ctz_pos (p : positive) : Z := match p with xO p => 1 + ctz_pos p | _ => 0 end.
Definition ctz (w n : Z) : Z := match n with Zpos p => ctz_pos p | _ => w end.

(** [__builtin_clz] and [__builtin_ctz] are undefined for zero. *)
Definition builtin_clz (w n : Z) : outcome Z := if n =? 0 then Crash BadShift else Ret (clz w n).
Definition builtin_ctz (w n : Z) : outcome Z := if n =? 0 then Crash BadShift else Ret (ctz w n).

Module Base.
Section Base.
Context `{BuildMode} (size_bits : Z).

(** [value - 1] is computed in the promoted type. *)
Definition IsPowerOfTwo (T : int_type) (value : Z) : outcome bool :=
  if negb (0 <? value) then Ret false
  else (less ← arith (promote T) (value - 1); Ret (Z.land value less =? 0)).

Definition size (z : Z) : Z := wrapU size_bits z.

Definition AlignDown (size_ alignment : Z) : outcome Z :=
  p ← IsPowerOfTwo (IntType size_bits false) alignment;
  _ ← RTC_DCHECK p;
  Ret (Z.land size_ (size (Z.lnot (size (alignment - 1))))).

Definition AlignUp (size_ alignment : Z) : outcome Z :=
  p ← IsPowerOfTwo (IntType size_bits false) alignment;
  _ ← RTC_DCHECK p;
  Ret (Z.land (size (size (size_ + alignment) - 1)) (size (Z.lnot (size (alignment - 1))))).

(** For an unsigned type of [bits] bits, at most 64. *)
Definition CountLeadingZeroBits (bits value : Z) : outcome Z :=
  if value =? 0 then Ret bits
  else if bits =? 64 then builtin_clz 64 value
  else (c ← builtin_clz 32 value; Ret (wrapU 32 (c - (32 - bits)))).

Definition CountTrailingZeroBits (bits value : Z) : outcome Z :=
  if value =? 0 then Ret bits
  else if bits =? 64 then builtin_ctz 64 value
  else builtin_ctz 32 value.

(** The differences are computed in [unsigned] and converted to [int]. *)
Definition Log2Floor (n : Z) : outcome Z := c ← CountLeadingZeroBits 32 n; Ret (convert int32_t (wrapU 32 (31 - c))).

Definition Log2Ceiling (n : Z) : outcome Z :=
  c ← CountLeadingZeroBits 32 (wrapU 32 (n - 1));
  Ret (convert int32_t (wrapU 32 ((if n =? 0 then -1 else 32) - c))).

Definition LeftmostBit (T : int_type) : outcome Z := v ← shl (promote T) 1 (it_bits T - 1); Ret (convert T v).
End Base.
End Base.

Module Spl.
(** [kWebRtcSpl_CountLeadingZeros32_Table]. *)
Section Spl.
Context (kWebRtcSpl_CountLeadingZeros32_Table : list Z).

Definition u32 (z : Z) : Z := wrapU 32 z.

(** [n |= n >> s]. *)
Definition smear (n s : Z) : Z := Z.lor n (Z.shiftr n s).

Definition CountLeadingZeros32_NotBuiltin (n : Z) : outcome Z :=
  let n := smear (smear (smear (smear (smear n 1) 2) 4) 8) 16 in
  from_option_or OutOfBounds (kWebRtcSpl_CountLeadingZeros32_Table !! Z.to_nat (Z.shiftr (u32 (n * 0x8c0b2891)) 26)).

Definition CountLeadingZeros64_NotBuiltin (n : Z) : outcome Z :=
  high ← shr uint64_t n 32;
  let leading_zeros := if high =? 0 then 32 else 0 in
  part ← shr uint64_t n (32 - leading_zeros);
  c ← CountLeadingZeros32_NotBuiltin (convert uint32_t part);
  arith int32_t (leading_zeros + c).

(** With GCC or Clang. *)
Definition CountLeadingZeros32 (n : Z) : outcome Z := if n =? 0 then Ret 32 else builtin_clz 32 n.
Definition CountLeadingZeros64 (n : Z) : outcome Z := if n =? 0 then Ret 64 else builtin_clz 64 n.

Definition SatW32ToW16 (value32 : Z) : Z :=
  let out16 := convert int16_t value32 in
  if 32767 <? value32 then 32767 else if value32 <? -32768 then -32768 else out16.

Definition AddSatW32 (a b : Z) : Z :=
  let sum := convert int32_t (u32 (convert uint32_t a + convert uint32_t b)) in
  if Bool.eqb (a <? 0) (b <? 0) && negb (Bool.eqb (a <? 0) (sum <? 0)) then
    (if sum <? 0 then int_max int32_t else int_min int32_t)
  else sum.

Definition SubSatW32 (a b : Z) : Z :=
  let diff := convert int32_t (u32 (convert uint32_t a - convert uint32_t b)) in
  if negb (Bool.eqb (a <? 0) (b <? 0)) && negb (Bool.eqb (a <? 0) (diff <? 0)) then
    (if diff <? 0 then int_max int32_t else int_min int32_t)
  else diff.

Definition AddSatW16 (a b : Z) : outcome Z := s ← arith int32_t (a + b); Ret (SatW32ToW16 s).
Definition SubSatW16 (var1 var2 : Z) : outcome Z := s ← arith int32_t (var1 - var2); Ret (SatW32ToW16 s).

Definition GetSizeInBits (n : Z) : outcome Z := c ← CountLeadingZeros32 n; Ret (convert int16_t (32 - c)).

Definition NormW32 (a : Z) : outcome Z :=
  if a =? 0 then Ret 0
  else (c ← CountLeadingZeros32 (convert uint32_t (if a <? 0 then Z.lnot a else a)); Ret (convert int16_t (c - 1))).

Definition NormU32 (a : Z) : outcome Z := if a =? 0 then Ret 0 else (c ← CountLeadingZeros32 a; Ret (convert int16_t c)).

Definition NormW16 (a : Z) : outcome Z :=
  if a =? 0 then Ret 0
  else (c ← CountLeadingZeros32 (convert uint32_t (if a <? 0 then Z.lnot a else a)); Ret (convert int16_t (c - 17))).

Definition MulAccumW16 (a b c : Z) : outcome Z := p ← arith int32_t (a * b); arith int32_t (p + c).
End Spl.
End Spl.

(** ** Leading zeros by multiplication *)

(** The bits of [x] are those of [n] or-ed over a window. *)
Definition window (n x w : Z) : Prop := ∀ i, 0 ≤ i → Z.testbit x i = true ↔ ∃ j, i ≤ j < i + w ∧ Z.testbit n j = true.

Lemma window_start n : window n n 1.
Proof. intros i Hi. split; [intros Hb; exists i; split; [lia|done]|]. intros (j & Hj & Hb). by replace i with j by lia. Qed.

Lemma smear_window n x s : 0 < s → window n x s → window n (Spl.smear x s) (2 * s).
Proof.
  intros Hs Hw i Hi. unfold Spl.smear. rewrite Z.lor_spec, Z.shiftr_spec, orb_true_iff, (Hw i Hi), (Hw (i + s)) by lia. split.
  - intros [(j & Hj & Hb)|(j & Hj & Hb)]; exists j; (split; [lia|done]).
  - intros (j & Hj & Hb). destruct (Z.lt_ge_cases j (i + s)); [left|right]; exists j; (split; [lia|done]).
Qed.

(** Five steps fill all bits below the highest one. *)
Lemma smear_ones n : 0 ≤ n < 2 ^ 32 →
  Spl.smear (Spl.smear (Spl.smear (Spl.smear (Spl.smear n 1) 2) 4) 8) 16 = 2 ^ (32 - clz 32 n) - 1 ∧ 0 ≤ clz 32 n ≤ 32.
Proof.
  intros Hn. pose proof (window_start n) as Hw. do 5 apply smear_window in Hw; try lia. simpl Z.mul in Hw.
  destruct (decide (n = 0)) as [->|Hne]; [by vm_compute|]. unfold clz. rewrite (proj2 (Z.eqb_neq n 0) Hne).
  pose proof (Z.log2_nonneg n) as Hl0. assert (Z.log2 n < 32) as Hl by (apply Z.log2_lt_pow2; lia).
  split; [|lia]. replace (32 - (32 - 1 - Z.log2 n)) with (Z.log2 n + 1) by lia.
  replace (2 ^ (Z.log2 n + 1) - 1) with (Z.ones (Z.log2 n + 1)) by (rewrite Z.ones_equiv; lia).
  apply Z.bits_inj'. intros i Hi. apply eq_iff_eq_true. rewrite (Hw i Hi). rewrite Z.testbit_ones_nonneg by lia. rewrite Z.ltb_lt. split.
  - intros (j & Hj & Hb). destruct (Z.lt_ge_cases (Z.log2 n) j); [|lia]. by rewrite Z.bits_above_log2 in Hb by lia.
  - intros Hle. exists (Z.log2 n). split; [lia|]. apply Z.bit_log2. lia.
Qed.

(** The place of the result for [k] significant bits. *)
Definition hash_index (k : Z) : nat := Z.to_nat (Z.shiftr (Spl.u32 ((2 ^ k - 1) * 0x8c0b2891)) 26).

(** What the table must hold: at the places of the 33 normalised values, the
    numbers of leading zeros. *)
Definition table_ok (table : list Z) : Prop := ∀ k, 0 ≤ k ≤ 32 → table !! hash_index k = Some (32 - k).

(** The constant maps the 33 values to different places below 64, as the comment
    in the code says. *)
Lemma hash_perfect : NoDup (map (λ k, hash_index (Z.of_nat k)) (seq 0 33)) ∧ Forall (λ k, hash_index (Z.of_nat k) < 64)%nat (seq 0 33).
Proof. split; [apply (bool_decide_unpack _); vm_compute; exact I|apply (bool_decide_unpack _); vm_compute; exact I]. Qed.

(** A table made from the constant. *)
Definition hash_table : list Z :=
  fold_right (λ k t, <[hash_index (Z.of_nat k) := 32 - Z.of_nat k]> t) (replicate 64 0) (seq 0 33).

Lemma hash_table_ok : table_ok hash_table.
Proof.
  assert (Forall (λ k, hash_table !! hash_index (Z.of_nat k) = Some (32 - Z.of_nat k)) (seq 0 33)) as Hall
    by (apply (bool_decide_unpack _); vm_compute; exact I).
  intros k Hk. rewrite list.Forall_forall in Hall. replace k with (Z.of_nat (Z.to_nat k)) by lia. apply Hall, elem_of_seq. lia.
Qed.

Lemma clz32_table table n : table_ok table → 0 ≤ n < 2 ^ 32 → Spl.CountLeadingZeros32_NotBuiltin table n = Ret (clz 32 n).
Proof.
  intros Ht Hn. unfold Spl.CountLeadingZeros32_NotBuiltin. destruct (smear_ones n Hn) as [-> Hc]. fold (hash_index (32 - clz 32 n)).
  rewrite Ht by lia. simpl. f_equal. lia.
Qed.

Lemma clz_range w n : 0 < w → 0 ≤ n < 2 ^ w → 0 ≤ clz w n ≤ w.
Proof.
  intros Hw Hn. unfold clz. destruct (Z.eqb_spec n 0); [lia|]. pose proof (Z.log2_nonneg n). assert (Z.log2 n < w) by (apply Z.log2_lt_pow2; lia). lia.
Qed.

Lemma spl_shr_ok t v s : 0 ≤ s < it_bits t → shr t v s = Ret (Z.shiftr v s).
Proof. intros Hs. unfold shr. by rewrite (proj2 (orb_false_iff _ _)) by lia. Qed.

(** the portable count of leading zeros, which smears the highest bit down,
    multiplies by a constant and looks the answer up in a table, agrees with
    the built-in one on every 32-bit and 64-bit number: with the table's
    entries at the 33 places the constant selects, which are distinct, both
    return the number of zero bits above the highest one. *)
Theorem spl_leading_zeros_exact (table : list Z) (n m : Z) : table_ok table → 0 ≤ n < 2 ^ 32 → 0 ≤ m < 2 ^ 64 →
  Spl.CountLeadingZeros32_NotBuiltin table n = Ret (clz 32 n) ∧ Spl.CountLeadingZeros32 n = Ret (clz 32 n) ∧
  Spl.CountLeadingZeros64_NotBuiltin table m = Ret (clz 64 m) ∧ Spl.CountLeadingZeros64 m = Ret (clz 64 m).
Proof.
  intros Ht Hn Hm. split; [by apply clz32_table|]. split; [|split].
  - unfold Spl.CountLeadingZeros32, builtin_clz, clz. by destruct (n =? 0).
  - unfold Spl.CountLeadingZeros64_NotBuiltin. rewrite spl_shr_ok, bind_ret by (simpl; lia).
    rewrite (Z.shiftr_div_pow2 m 32) by lia. destruct (Z.eqb_spec (m / 2 ^ 32) 0) as [E|Hne].
    + assert (m < 2 ^ 32) as Hlt by (apply Z.div_small_iff in E; lia). rewrite spl_shr_ok, bind_ret by (simpl; lia). rewrite Z.shiftr_0_r.
      rewrite convert_in_range, clz32_table, bind_ret by (done || (unfold values, int_min, int_max; simpl; lia)). rewrite arith_in_range; [|done|].
      * f_equal. unfold clz. destruct (m =? 0); lia.
      * pose proof (clz_range 32 m ltac:(lia) ltac:(lia)). unfold values, int_min, int_max. simpl. lia.
    + rewrite spl_shr_ok, bind_ret, Z.shiftr_div_pow2 by (simpl; lia). change (32 - 0) with 32. assert (0 ≤ m / 2 ^ 32 < 2 ^ 32) as Hq by (split; [apply Z.div_pos; lia|apply Z.div_lt_upper_bound; lia]).
      rewrite convert_in_range, clz32_table, bind_ret by (done || (unfold values, int_min, int_max; simpl; lia)). rewrite Z.add_0_l, arith_in_range; [|done|].
      * f_equal. unfold clz. rewrite (proj2 (Z.eqb_neq _ 0) Hne). destruct (Z.eqb_spec m 0) as [->|Hm0]; [done|].
        rewrite <-Z.shiftr_div_pow2, Z.log2_shiftr by lia. assert (32 ≤ Z.log2 m); [|lia]. apply Z.log2_le_pow2; [lia|].
        destruct (Z.lt_ge_cases m (2 ^ 32)); [|done]. by rewrite Z.div_small in Hne by lia.
      * pose proof (clz_range 32 (m / 2 ^ 32) ltac:(lia) Hq). unfold values, int_min, int_max. simpl. lia.
  - unfold Spl.CountLeadingZeros64, builtin_clz, clz. by destruct (m =? 0).
Qed.

Lemma spl_leading_zeros_exact_witness : Spl.CountLeadingZeros64_NotBuiltin hash_table 0x100000000 = Ret 31.
Proof. apply (spl_leading_zeros_exact hash_table 1 0x100000000); [apply hash_table_ok|lia|lia]. Defined.

(** ** Saturating arithmetic *)

(** The value of type [t] closest to [z]. *)
Definition saturate (t : int_type) (z : Z) : Z := Z.max (int_min t) (Z.min (int_max t) z).

Lemma convert_sum z : convert int32_t (Spl.u32 z) = wrapS 32 z.
Proof. unfold convert, Spl.u32, wrapU, wrapS. simpl it_bits. simpl it_signed. cbn iota. by rewrite Zplus_mod_idemp_l. Qed.

Lemma wrap_add a b : Spl.u32 (convert uint32_t a + convert uint32_t b) = Spl.u32 (a + b).
Proof. unfold Spl.u32, convert, wrapU. simpl. by rewrite <-Zplus_mod. Qed.

Lemma wrap_sub a b : Spl.u32 (convert uint32_t a - convert uint32_t b) = Spl.u32 (a - b).
Proof. unfold Spl.u32, convert, wrapU. simpl. by rewrite <-Zminus_mod. Qed.

(** A sum of two [int32_t] wraps at most once. *)
Lemma wrap_once z : - 2 ^ 32 ≤ z < 2 ^ 32 →
  wrapS 32 z = if z <? - 2 ^ 31 then z + 2 ^ 32 else if 2 ^ 31 <=? z then z - 2 ^ 32 else z.
Proof.
  intros Hz. unfold wrapS. change (2 ^ (32 - 1)) with (2 ^ 31).
  repeat zcase; first [lia|rewrite Z.mod_small by lia; lia|rewrite (mod_unique_range _ _ (z + 2 ^ 31 + 2 ^ 32) (-1)) by lia; lia
                      |rewrite (mod_unique_range _ _ (z + 2 ^ 31 - 2 ^ 32) 1) by lia; lia].
Qed.

Lemma add_sat32 a b : values int32_t a → values int32_t b → Spl.AddSatW32 a b = saturate int32_t (a + b).
Proof.
  unfold values, saturate, Spl.AddSatW32. change (int_min int32_t) with (- 2 ^ 31). change (int_max int32_t) with (2 ^ 31 - 1). intros Ha Hb.
  rewrite wrap_add, convert_sum, wrap_once by lia. repeat zcase; simpl; repeat zcase; simpl; lia.
Qed.

Lemma sub_sat32 a b : values int32_t a → values int32_t b → Spl.SubSatW32 a b = saturate int32_t (a - b).
Proof.
  unfold values, saturate, Spl.SubSatW32. change (int_min int32_t) with (- 2 ^ 31). change (int_max int32_t) with (2 ^ 31 - 1). intros Ha Hb.
  rewrite wrap_sub, convert_sum, wrap_once by lia. repeat zcase; simpl; repeat zcase; simpl; lia.
Qed.

Lemma sat16 z : Spl.SatW32ToW16 z = saturate int16_t z.
Proof.
  unfold Spl.SatW32ToW16, saturate. change (int_min int16_t) with (-32768). change (int_max int16_t) with 32767. repeat zcase; [lia|lia|].
  rewrite convert_in_range by (try done; unfold values, int_min, int_max; simpl; lia). lia.
Qed.

(** ** Normalisation *)

Lemma leading_zeros n : Spl.CountLeadingZeros32 n = Ret (clz 32 n).
Proof. unfold Spl.CountLeadingZeros32, builtin_clz, clz. by destruct (n =? 0). Qed.

Lemma int16_small z : -32768 ≤ z ≤ 32767 → convert int16_t z = z.
Proof. intros Hz. apply convert_in_range; [done|]. unfold values, int_min, int_max. simpl. lia. Qed.

(** The most steps [a] can be shifted left inside the signed type of [w + 1] bits. *)
Lemma norm_signed w a : 0 < w ≤ 31 → - 2 ^ w ≤ a < 2 ^ w → a ≠ 0 →
  let k := clz 32 (if a <? 0 then Z.lnot a else a) - (32 - w) in
  0 ≤ k ≤ w ∧ - 2 ^ w ≤ a * 2 ^ k < 2 ^ w ∧ ¬ (- 2 ^ w ≤ a * 2 ^ (k + 1) < 2 ^ w).
Proof.
  intros Hw Ha Hne k. set (m := if a <? 0 then Z.lnot a else a) in *.
  assert (0 ≤ m < 2 ^ w ∧ (a = m ∨ a = - m - 1)) as [Hm Ham] by (unfold m, Z.lnot; zcase; lia).
  unfold k. clear k. clearbody m. unfold clz. destruct (Z.eqb_spec m 0) as [E0|Hm0].
  { assert (a = -1) as -> by (destruct Ham; lia). replace (32 - (32 - w)) with w by lia. rewrite Z.pow_add_r by lia. pose proof (pow2_pos w ltac:(lia)). lia. }
  pose proof (Z.log2_nonneg m) as Hl0. destruct (Z.log2_spec m ltac:(lia)) as [H1 H2]. rewrite Z.pow_succ_r in H2 by lia.
  assert (Z.log2 m < w) as Hl by (apply Z.log2_lt_pow2; lia). set (L := Z.log2 m) in *. replace (32 - 1 - L - (32 - w)) with (w - 1 - L) by lia.
  set (e := w - 1 - L). assert (2 * (2 ^ L * 2 ^ e) = 2 ^ w) as E by (rewrite <-Z.pow_add_r, <-Z.pow_succ_r by lia; f_equal; lia).
  rewrite (Z.pow_add_r 2 e 1) by lia. pose proof (pow2_pos e ltac:(lia)) as He. pose proof (pow2_pos L Hl0) as HL.
  assert (2 ^ L * 2 ^ e ≤ m * 2 ^ e ∧ m * 2 ^ e + 2 ^ e ≤ 2 * 2 ^ L * 2 ^ e) as [Hb1 Hb2] by (split; nia).
  split; [lia|]. destruct Ham as [-> | ->]; lia.
Qed.

(** the saturating additions and subtractions return the value of their
    type closest to the exact result, for all operands, and the [Norm]
    functions return the largest number of steps their argument can be shifted
    left without leaving its type (zero for zero). *)
Theorem spl_saturation_exact (a b x y n u : Z) :
  values int32_t a → values int32_t b → values int16_t x → values int16_t y → values int32_t n → values uint32_t u →
  Spl.AddSatW32 a b = saturate int32_t (a + b) ∧ Spl.SubSatW32 a b = saturate int32_t (a - b) ∧
  Spl.AddSatW16 x y = Ret (saturate int16_t (x + y)) ∧ Spl.SubSatW16 x y = Ret (saturate int16_t (x - y)) ∧
  (n ≠ 0 → ∃ k, Spl.NormW32 n = Ret k ∧ values int32_t (n * 2 ^ k) ∧ ¬ values int32_t (n * 2 ^ (k + 1))) ∧
  (x ≠ 0 → ∃ k, Spl.NormW16 x = Ret k ∧ values int16_t (x * 2 ^ k) ∧ ¬ values int16_t (x * 2 ^ (k + 1))) ∧
  (u ≠ 0 → ∃ k, Spl.NormU32 u = Ret k ∧ values uint32_t (u * 2 ^ k) ∧ ¬ values uint32_t (u * 2 ^ (k + 1))).
Proof.
  intros Ha Hb Hx Hy Hn Hu. split; [by apply add_sat32|]. split; [by apply sub_sat32|].
  unfold values in *. change (int_min int16_t) with (-32768) in *. change (int_max int16_t) with 32767 in *.
  change (int_min int32_t) with (- 2 ^ 31) in *. change (int_max int32_t) with (2 ^ 31 - 1) in *. change (int_min uint32_t) with 0 in *. change (int_max uint32_t) with (2 ^ 32 - 1) in *.
  assert (∀ z, - 2 ^ 31 ≤ z < 2 ^ 31 → arith int32_t z = Ret z) as Har by (intros z Hz; apply arith_in_range; [done|unfold values, int_min, int_max; simpl; lia]).
  assert (∀ z, convert uint32_t (if z <? 0 then Z.lnot z else z) = (if z <? 0 then Z.lnot z else z) ∨ ¬ (- 2 ^ 31 ≤ z < 2 ^ 31)) as Hcv.
  { intros z. destruct (decide (- 2 ^ 31 ≤ z < 2 ^ 31)); [left|by right]. apply convert_in_range; [done|]. unfold values, int_min, int_max. simpl. unfold Z.lnot. zcase; lia. }
  split; [unfold Spl.AddSatW16; by rewrite Har, bind_ret, sat16 by lia|]. split; [unfold Spl.SubSatW16; by rewrite Har, bind_ret, sat16 by lia|].
  split; [|split].
  - intros Hne. unfold Spl.NormW32. rewrite (proj2 (Z.eqb_neq n 0) Hne). destruct (Hcv n) as [->|]; [|lia]. rewrite leading_zeros, bind_ret.
    destruct (norm_signed 31 n ltac:(lia) ltac:(lia) Hne) as (Hk & H1 & H2). rewrite int16_small by lia. eexists. split; [done|]. change (32 - 31) with 1 in *. lia.
  - intros Hne. unfold Spl.NormW16. rewrite (proj2 (Z.eqb_neq x 0) Hne). destruct (Hcv x) as [->|]; [|lia]. rewrite leading_zeros, bind_ret.
    destruct (norm_signed 15 x ltac:(lia) ltac:(lia) Hne) as (Hk & H1 & H2). rewrite int16_small by lia. eexists. split; [done|]. change (32 - 15) with 17 in *. lia.
  - intros Hne. unfold Spl.NormU32. rewrite (proj2 (Z.eqb_neq u 0) Hne), leading_zeros, bind_ret.
    pose proof (clz_range 32 u ltac:(lia) ltac:(lia)) as Hc. rewrite int16_small by lia. eexists. split; [done|]. unfold clz in *. rewrite (proj2 (Z.eqb_neq u 0) Hne) in *.
    destruct (Z.log2_spec u ltac:(lia)) as [H1 H2]. pose proof (Z.log2_nonneg u) as Hl. set (L := Z.log2 u) in *. rewrite Z.pow_succ_r in H2 by lia.
    rewrite (Z.pow_add_r 2 (32 - 1 - L) 1) by lia. set (e := 32 - 1 - L). assert (2 * (2 ^ L * 2 ^ e) = 2 ^ 32) as E by (rewrite <-Z.pow_add_r, <-Z.pow_succ_r by lia; f_equal; lia).
    pose proof (pow2_pos e ltac:(lia)) as He. assert (2 ^ L * 2 ^ e ≤ u * 2 ^ e ∧ u * 2 ^ e + 2 ^ e ≤ 2 * 2 ^ L * 2 ^ e) as [Hb1 Hb2] by (split; nia). lia.
Qed.

Lemma spl_saturation_exact_witness : Spl.AddSatW32 (2 ^ 31 - 1) 5 = 2 ^ 31 - 1 ∧ Spl.SubSatW16 (-32768) 1 = Ret (-32768).
Proof.
  destruct (spl_saturation_exact (2 ^ 31 - 1) 5 (-32768) 1 3 3) as (H1 & _ & _ & H2 & _); try (unfold values, int_min, int_max; simpl; lia).
  split; [exact H1|exact H2].
Defined.

(** ** Powers of two, alignment and logarithms *)

Lemma power_of_two v : 0 < v → Z.land v (v - 1) = 0 ↔ v = 2 ^ Z.log2 v.
Proof.
  intros Hv. destruct (Z.log2_spec v Hv) as [H1 H2]. pose proof (Z.log2_nonneg v) as HL. set (L := Z.log2 v) in *. rewrite Z.pow_succ_r in H2 by done. split.
  - intros E. destruct (decide (v = 2 ^ L)) as [|Hne]; [done|]. exfalso.
    assert (Z.testbit (Z.land v (v - 1)) L = true) as Hb.
    { rewrite Z.land_spec. apply andb_true_iff. rewrite !Z.testbit_true by done.
      rewrite <-(Z.div_unique v (2 ^ L) 1 (v - 2 ^ L)), <-(Z.div_unique (v - 1) (2 ^ L) 1 (v - 1 - 2 ^ L)) by lia. done. }
    by rewrite E, Z.bits_0 in Hb.
  - intros E. rewrite E. replace (2 ^ L - 1) with (Z.ones L) by (rewrite Z.ones_equiv; lia). rewrite Z.land_ones by done. apply Z.mod_same. apply Z.pow_nonzero; lia.
Qed.

Lemma is_power_of_two T v : is_std T → values T v → Base.IsPowerOfTwo T v = Ret ((0 <? v) && (v =? 2 ^ Z.log2 v)).
Proof.
  intros HT Hv. unfold Base.IsPowerOfTwo. destruct (Z.ltb_spec 0 v) as [Hp|]; [|done]. cbn [negb andb].
  assert (arith (promote T) (v - 1) = Ret (v - 1)) as ->.
  { unfold values in Hv. repeat (destruct HT as [<-|HT]; [apply arith_in_range; [done|]; unfold values, int_min, int_max in *; simpl in *; lia|]). done. }
  rewrite bind_ret. f_equal. apply eq_iff_eq_true. rewrite !Z.eqb_eq. by apply power_of_two.
Qed.

Section AlignProofs.
Context `{BuildMode} (w k : Z) (Hw : w = 32 ∨ w = 64) (Hk : 0 ≤ k < w).
Local Abbreviation a := (2 ^ k).

Lemma align_mask s : 0 ≤ s < 2 ^ w → Z.land s (Base.size w (Z.lnot (Base.size w (a - 1)))) = s / a * a.
Proof using Hw Hk.
  intros Hs. assert (0 < a < 2 ^ w) as Ha by (split; [apply pow2_pos; lia|apply Z.pow_lt_mono_r; lia]).
  unfold Base.size. rewrite (wrapU_small w (a - 1)) by lia. unfold wrapU. rewrite <-Z.land_ones by lia.
  rewrite Z.land_assoc, (Z.land_comm s), <-Z.land_assoc, Z.land_ones, Z.mod_small by lia. rewrite Z.land_comm, <-Z.ldiff_land.
  replace (a - 1) with (Z.ones k) by (rewrite Z.ones_equiv; lia). rewrite Z.ldiff_ones_r, Z.shiftl_mul_pow2, Z.shiftr_div_pow2 by lia. done.
Qed.

Lemma align_check : Base.IsPowerOfTwo (IntType w false) a = Ret true.
Proof using Hw Hk.
  assert (0 < a < 2 ^ w) as Ha by (split; [apply pow2_pos; lia|apply Z.pow_lt_mono_r; lia]).
  rewrite is_power_of_two; [|unfold is_std; destruct Hw as [-> | ->]; simpl; tauto|unfold values, int_min, int_max; simpl; lia].
  rewrite Z.log2_pow2 by lia. rewrite (proj2 (Z.ltb_lt 0 a)), Z.eqb_refl by lia. done.
Qed.

Lemma align_down s : 0 ≤ s < 2 ^ w → Base.AlignDown w s a = Ret (s / a * a).
Proof using Hw Hk. intros Hs. unfold Base.AlignDown. rewrite align_check, bind_ret. pass. by rewrite align_mask. Qed.

Lemma align_up s : 0 ≤ s < 2 ^ w →
  Base.AlignUp w s a = Ret (if s + a - 1 <? 2 ^ w then (s + a - 1) / a * a else 0).
Proof using Hw Hk.
  intros Hs. unfold Base.AlignUp. rewrite align_check, bind_ret. pass. f_equal.
  assert (0 < a < 2 ^ w) as Ha by (split; [apply pow2_pos; lia|apply Z.pow_lt_mono_r; lia]).
  assert (Base.size w (Base.size w (s + a) - 1) = if s + a - 1 <? 2 ^ w then s + a - 1 else s + a - 1 - 2 ^ w) as ->.
  { unfold Base.size, wrapU. rewrite Zminus_mod_idemp_l. zcase; [by apply Z.mod_small; lia|]. apply (mod_unique_range _ _ _ 1); lia. }
  rewrite align_mask by (zcase; lia). zcase; [done|]. rewrite Z.div_small by lia. done.
Qed.
End AlignProofs.

Lemma leading_zero_bits n : 0 ≤ n < 2 ^ 32 → Base.CountLeadingZeroBits 32 n = Ret (clz 32 n).
Proof.
  intros Hn. unfold Base.CountLeadingZeroBits, builtin_clz, clz. destruct (Z.eqb_spec n 0); [done|]. simpl. f_equal.
  pose proof (clz_range 32 n ltac:(lia) Hn) as Hc. unfold clz in Hc. rewrite (proj2 (Z.eqb_neq n 0)) in Hc by done. rewrite wrapU_small; lia.
Qed.

Lemma to_int z : - 2 ^ 31 ≤ z < 2 ^ 31 → convert int32_t (wrapU 32 z) = z.
Proof. intros Hz. change (wrapU 32 z) with (Spl.u32 z). rewrite convert_sum. by apply wrapS_small. Qed.

(** [AlignDown] returns the largest multiple of a power of two that is at
    most its argument; [AlignUp] the smallest that is at least its argument when
    that multiple can be represented, and zero when it cannot; [Log2Floor] and
    [Log2Ceiling] return the integers their comments describe, and -1 for
    zero. *)
Theorem bits_exact `{BuildMode} (w k s n : Z) : w = 32 ∨ w = 64 → 0 ≤ k < w → 0 ≤ s < 2 ^ w → 0 ≤ n < 2 ^ 32 →
  (∃ d, Base.AlignDown w s (2 ^ k) = Ret d ∧ d mod 2 ^ k = 0 ∧ d ≤ s < d + 2 ^ k) ∧
  (∃ u, Base.AlignUp w s (2 ^ k) = Ret u ∧ u mod 2 ^ k = 0 ∧ (s + 2 ^ k - 1 < 2 ^ w → s ≤ u < s + 2 ^ k) ∧ (2 ^ w ≤ s + 2 ^ k - 1 → u = 0)) ∧
  (∃ i j, Base.Log2Floor n = Ret i ∧ Base.Log2Ceiling n = Ret j ∧
     (n = 0 → i = -1 ∧ j = -1) ∧ (0 < n → 2 ^ i ≤ n < 2 ^ (i + 1)) ∧ (0 < n → n ≤ 2 ^ j ∧ (n = 1 → j = 0) ∧ (1 < n → 2 ^ (j - 1) < n))).
Proof.
  intros Hw Hk Hs Hn. assert (0 < 2 ^ k) as Ha by (apply pow2_pos; lia). split; [|split].
  - eexists. split; [by apply align_down|]. split; [by apply Z.mod_mul; lia|]. pose proof (Z.div_mod s (2 ^ k)). pose proof (Z.mod_pos_bound s (2 ^ k)). lia.
  - eexists. split; [by apply align_up|]. zcase; [|split; [by apply Z.mod_0_l; lia|lia]]. split; [by apply Z.mod_mul; lia|]. split; [|lia]. intros _.
    pose proof (Z.div_mod (s + 2 ^ k - 1) (2 ^ k)). pose proof (Z.mod_pos_bound (s + 2 ^ k - 1) (2 ^ k)). lia.
  - exists (31 - clz 32 n), ((if n =? 0 then -1 else 32) - clz 32 (wrapU 32 (n - 1))).
    pose proof (clz_range 32 n ltac:(lia) Hn) as Hc1. pose proof (wrapU_range 32 (n - 1) ltac:(lia)) as Hn1. pose proof (clz_range 32 _ ltac:(lia) Hn1) as Hc2.
    unfold Base.Log2Floor, Base.Log2Ceiling. rewrite !leading_zero_bits, !bind_ret by done. rewrite !to_int by (destruct (n =? 0); lia).
    split; [done|]. split; [done|]. split; [intros ->; by vm_compute|]. split.
    + intros Hp. unfold clz. rewrite (proj2 (Z.eqb_neq n 0)) by lia. replace (31 - (32 - 1 - Z.log2 n)) with (Z.log2 n) by lia. by apply Z.log2_spec.
    + intros Hp. rewrite (proj2 (Z.eqb_neq n 0)) by lia. rewrite wrapU_small by lia. unfold clz. destruct (Z.eqb_spec (n - 1) 0) as [E1|Hne1]; [assert (n = 1) as -> by lia; simpl; lia|].
      replace (32 - (32 - 1 - Z.log2 (n - 1))) with (Z.succ (Z.log2 (n - 1))) by lia. destruct (Z.log2_spec (n - 1) ltac:(lia)) as [H1 H2].
      replace (Z.succ (Z.log2 (n - 1)) - 1) with (Z.log2 (n - 1)) by lia. lia.
Qed.

Lemma bits_exact_witness : ∃ u, @Base.AlignUp debug_build 32 (2 ^ 32 - 1) (2 ^ 4) = Ret u ∧ u = 0.
Proof.
  destruct (@bits_exact debug_build 32 4 (2 ^ 32 - 1) 5) as (_ & (u & E & _ & _ & Hu) & _); [lia|lia|lia|lia|]. exists u. split; [exact E|apply Hu; lia].
Defined.
