(* ===== verification/SmallMap.v ===== *)
(** * Small maps

    Model of [src/include/base/containers/small_map.h]: a map that keeps its
    first elements in an array inside the object and moves them to a real map
    when the array is full.  Array and map share their storage, a union, and
    the class constructs and destroys what is in it by hand; the model keeps
    which slots of the array hold an object.  The real map is the list of its
    nodes in iteration order; where a new node goes, and in which order a copy
    of the map has them, is the map's business and a parameter. *)

From stdpp Require Import gmap.
From S2P Require Import Prelude.

(** [std::map] or [std::unordered_map] as far as their order is concerned. *)
Class NormalMap (K V : Type) := {
  place : list (K * V) → K * V → list (K * V);
  place_perm : ∀ l e, place l e ≡ₚ e :: l;
  copy_nodes : list (K * V) → list (K * V);
  copy_perm : ∀ l, copy_nodes l ≡ₚ l
}.

(** ** The real map *)

Section RealMap.
Context {K V : Type} `{!NormalMap K V} (compare : K → K → bool).
#[local] Abbreviation table := (list (K * V)).

(** A node, named by its key, or the end. *)
Inductive map_iter := At (k : K) | MapEnd.

Fixpoint nodes_from (t : table) (k : K) : table :=
  match t with [] => [] | e :: rest => if compare e.1 k then t else nodes_from rest k end.

Definition map_head (t : table) : map_iter := match t with e :: _ => At e.1 | [] => MapEnd end.

Definition map_find (t : table) (k : K) : map_iter := map_head (nodes_from t k).

(** The map, the node of the key, and whether it is new. *)
Definition map_insert (t : table) (e : K * V) : table * (map_iter * bool) :=
  match nodes_from t e.1 with
  | [] => (place t e, (At e.1, true))
  | n :: _ => (t, (At n.1, false))
  end.

(** A node's element, and the nodes after it. *)
Definition map_at (t : table) (it : map_iter) : outcome ((K * V) * table) :=
  match it with
  | At k => match nodes_from t k with e :: rest => Ret (e, rest) | [] => Crash OutOfBounds end
  | MapEnd => Crash OutOfBounds
  end.

Definition map_next (t : table) (it : map_iter) : outcome map_iter := '(_, rest) ← map_at t it; Ret (map_head rest).

(** The nodes before the first with a key, the nearest first. *)
Fixpoint nodes_before (t : table) (k : K) (acc : table) : table :=
  match t with [] => acc | e :: rest => if compare e.1 k then acc else nodes_before rest k (e :: acc) end.

Definition map_prev (t : table) (it : map_iter) : outcome map_iter :=
  match it with
  | At k =>
    _ ← map_at t it; match nodes_before t k [] with e :: _ => Ret (At e.1) | [] => Crash OutOfBounds end
  | MapEnd => match reverse t with e :: _ => Ret (At e.1) | [] => Crash OutOfBounds end
  end.

(** Erasing keeps the order of the other nodes. *)
Definition map_erase (t : table) (it : map_iter) : outcome (table * map_iter) :=
  '(e, rest) ← map_at t it;
  Ret (List.filter (λ e', negb (compare e'.1 e.1)) t, map_head rest).

Definition map_assign (t : table) (it : map_iter) (v : V) : outcome table :=
  '(e, _) ← map_at t it;
  Ret ((λ e', if compare e'.1 e.1 then (e'.1, v) else e') <$> t).

Definition map_iter_eqb (a b : map_iter) : bool :=
  match a, b with At j, At k => compare j k | MapEnd, MapEnd => true | _, _ => false end.
End RealMap.
Arguments map_iter : clear implicits.

(** ** The small map *)

Section SmallMap.
Context {K V : Type} `{!NormalMap K V} `{BuildMode}.
(** [kArraySize], [EqualKey], [data_type()], and the functor that constructs the
    real map: [MapInit()] and the nodes a functor gives a new map. *)
Context (size_bits kArraySize : Z) (compare : K → K → bool) (data_type : V).
Context {MapInit : Type} (default_init : MapInit) (init_map : MapInit → list (K * V)).
(** Whether [~value_type] does nothing, so that it can run on raw storage. *)
Context (trivially_destructible : bool).

#[local] Abbreviation value_type := (K * V)%type.
#[local] Abbreviation table := (list value_type).

(** The union: an array of which some slots hold an object, or the map. *)
Inductive union_ := Array (slots : list (option value_type)) | Map (nodes : table).

Record small_map := mkSmall { size_ : Z; functor_ : MapInit; storage : union_ }.

Definition kUsingFullMapSentinel : Z := 2 ^ size_bits - 1.

Definition raw : union_ := Array (replicate (Z.to_nat kArraySize) None).

Definition small_map_init : small_map := mkSmall 0 default_init raw.
Definition small_map_with (functor : MapInit) : small_map := mkSmall 0 functor raw.

Definition set_size (m : small_map) (n : Z) : small_map := mkSmall n (functor_ m) (storage m).
Definition set_storage (m : small_map) (u : union_) : small_map := mkSmall (size_ m) (functor_ m) u.

(** *** Objects in the storage *)

(** The slot at an index, when the array is there. *)
Definition slot (m : small_map) (i : Z) : outcome (list (option value_type) * option value_type) :=
  match storage m with
  | Array slots =>
    if (i <? 0) || (kArraySize <=? i) then Crash OutOfBounds
    else s ← from_option_or OutOfBounds (slots !! Z.to_nat i); Ret (slots, s)
  | Map _ => Crash UninitRead
  end.

(** [array_[i]]. *)
Definition read_slot (m : small_map) (i : Z) : outcome value_type :=
  '(_, s) ← slot m i; from_option_or UninitRead s.

(** [new (&array_[i]) value_type(e)]. *)
Definition construct_slot (m : small_map) (i : Z) (e : value_type) : outcome small_map :=
  '(slots, s) ← slot m i;
  match s with
  | None => Ret (set_storage m (Array (<[Z.to_nat i := Some e]> slots)))
  | Some _ => Crash ObjectLost
  end.

(** [array_[i].~value_type()]. *)
Definition destroy_slot (m : small_map) (i : Z) : outcome small_map :=
  '(slots, s) ← slot m i;
  match s with
  | Some _ => Ret (set_storage m (Array (<[Z.to_nat i := None]> slots)))
  | None => if trivially_destructible then Ret m else Crash UninitRead
  end.

(** [array_[i].second = v]. *)
Definition assign_slot (m : small_map) (i : Z) (v : V) : outcome small_map :=
  '(slots, s) ← slot m i;
  e ← from_option_or UninitRead s;
  Ret (set_storage m (Array (<[Z.to_nat i := Some (e.1, v)]> slots))).

(** [map_], when the map is there. *)
Definition the_map (m : small_map) : outcome table :=
  match storage m with Map t => Ret t | Array _ => Crash UninitRead end.

(** [functor_(&map_)], on storage that holds nothing. *)
Definition construct_map (m : small_map) : outcome small_map :=
  match storage m with
  | Array slots => if forallb (λ s, match s with None => true | Some _ => false end) slots
                   then Ret (set_storage m (Map (init_map (functor_ m)))) else Crash ObjectLost
  | Map _ => Crash ObjectLost
  end.

(** [map_.~NormalMap()]. *)
Definition destroy_map (m : small_map) : outcome small_map := _ ← the_map m; Ret (set_storage m raw).

(** *** Iterators *)

(** [array_iter_] when it is not null, [map_iter_] otherwise. *)
Inductive iterator := ArrayIter (i : Z) | MapIter (it : map_iter K).

Definition UsingFullMap (m : small_map) : bool := size_ m =? kUsingFullMapSentinel.

Definition map_ptr (m : small_map) : outcome table := _ ← RTC_CHECK (UsingFullMap m); the_map m.

Definition begin_ (m : small_map) : outcome iterator :=
  if UsingFullMap m then t ← the_map m; Ret (MapIter (map_head t)) else Ret (ArrayIter 0).

Definition end_ (m : small_map) : outcome iterator :=
  if UsingFullMap m then _ ← the_map m; Ret (MapIter MapEnd) else Ret (ArrayIter (size_ m)).

(** Pointers stay within the array or one past it. *)
Definition iter_next (m : small_map) (it : iterator) : outcome iterator :=
  match it with
  | ArrayIter i => if i <? kArraySize then Ret (ArrayIter (i + 1)) else Crash OutOfBounds
  | MapIter p => t ← the_map m; p ← map_next compare t p; Ret (MapIter p)
  end.

Definition iter_prev (m : small_map) (it : iterator) : outcome iterator :=
  match it with
  | ArrayIter i => if 0 <? i then Ret (ArrayIter (i - 1)) else Crash OutOfBounds
  | MapIter p => t ← the_map m; p ← map_prev compare t p; Ret (MapIter p)
  end.

Definition iter_deref (m : small_map) (it : iterator) : outcome value_type :=
  match it with
  | ArrayIter i => read_slot m i
  | MapIter p => t ← the_map m; '(e, _) ← map_at compare t p; Ret e
  end.

(** [it->second = v]. *)
Definition iter_assign (m : small_map) (it : iterator) (v : V) : outcome small_map :=
  match it with
  | ArrayIter i => assign_slot m i v
  | MapIter p => t ← the_map m; t ← map_assign compare t p v; Ret (set_storage m (Map t))
  end.

Definition iter_eqb (a b : iterator) : bool :=
  match a with
  | ArrayIter i => match b with ArrayIter j => i =? j | MapIter _ => false end
  | MapIter p => match b with ArrayIter _ => false | MapIter q => map_iter_eqb compare p q end
  end.

(** *** Operations *)

(** The loops over the array: the index of the key, from [i] on with [n] slots
    left, and from the slot below [i] down. *)
Fixpoint find_loop (m : small_map) (key : K) (n : nat) (i : Z) : outcome (option Z) :=
  match n with
  | O => Ret None
  | S n => e ← read_slot m i; if compare e.1 key then Ret (Some i) else find_loop m key n (i + 1)
  end.

Fixpoint find_back (m : small_map) (key : K) (i : nat) : outcome (option Z) :=
  match i with
  | O => Ret None
  | S index => e ← read_slot m (Z.of_nat index); if compare e.1 key then Ret (Some (Z.of_nat index)) else find_back m key index
  end.

Definition find (m : small_map) (key : K) : outcome iterator :=
  if UsingFullMap m then t ← map_ptr m; Ret (MapIter (map_find compare t key))
  else r ← find_loop m key (Z.to_nat (size_ m)) 0;
       Ret (ArrayIter (match r with Some i => i | None => size_ m end)).

(** Moves the elements to a temporary array. *)
Fixpoint move_out (m : small_map) (n : nat) (i : Z) (temp : table) : outcome (small_map * table) :=
  match n with
  | O => Ret (m, temp)
  | S n => e ← read_slot m i; m ← destroy_slot m i; move_out m n (i + 1) (temp ++ [e])
  end.

Definition insert_all (t temp : table) : table := foldl (λ t e, (map_insert compare t e).1) t temp.

Definition ConvertToRealMap (m : small_map) : outcome small_map :=
  '(m, temp) ← move_out m (Z.to_nat kArraySize) 0 [];
  m ← construct_map (set_size m kUsingFullMapSentinel);
  t ← the_map m;
  Ret (set_storage m (Map (insert_all t temp))).

(** Inserting in the real map: the map, the iterator and the flag. *)
Definition map_insert_at (m : small_map) (e : value_type) : outcome (small_map * (iterator * bool)) :=
  t ← the_map m;
  let '(t, (p, fresh)) := map_insert compare t e in Ret (set_storage m (Map t), (MapIter p, fresh)).

(** The new element goes to the first free slot. *)
Definition append_slot (m : small_map) (e : value_type) : outcome (small_map * iterator) :=
  _ ← RTC_DCHECK (size_ m <? kArraySize);
  m' ← construct_slot m (size_ m) e;
  Ret (set_size m' (wrapU size_bits (size_ m + 1)), ArrayIter (size_ m)).

(** [operator[]]: the map and the element the reference is to. *)
Definition index_ (m : small_map) (key : K) : outcome (small_map * iterator) :=
  if UsingFullMap m then '(m, (it, _)) ← map_insert_at m (key, data_type); Ret (m, it)
  else
    r ← find_back m key (Z.to_nat (size_ m));
    match r with
    | Some i => Ret (m, ArrayIter i)
    | None =>
      if size_ m =? kArraySize then
        m ← ConvertToRealMap m; '(m, (it, _)) ← map_insert_at m (key, data_type); Ret (m, it)
      else append_slot m (key, data_type)
    end.

Definition insert (m : small_map) (x : value_type) : outcome (small_map * (iterator * bool)) :=
  if UsingFullMap m then map_insert_at m x
  else
    r ← find_loop m x.1 (Z.to_nat (size_ m)) 0;
    match r with
    | Some i => Ret (m, (ArrayIter i, false))
    | None =>
      if size_ m =? kArraySize then m ← ConvertToRealMap m; map_insert_at m x
      else '(m, it) ← append_slot m x; Ret (m, (it, true))
    end.

Fixpoint insert_range (m : small_map) (l : list value_type) : outcome small_map :=
  match l with [] => Ret m | x :: l => '(m, _) ← insert m x; insert_range m l end.

(** [args] are what the element is constructed from. *)
Definition emplace {Args} (make : Args → value_type) (m : small_map) (args : Args) : outcome (small_map * (iterator * bool)) :=
  if UsingFullMap m then map_insert_at m (make args)
  else
    let x := make args in
    r ← find_loop m x.1 (Z.to_nat (size_ m)) 0;
    match r with
    | Some i => Ret (m, (ArrayIter i, false))
    | None =>
      if size_ m =? kArraySize then m ← ConvertToRealMap m; map_insert_at m x
      else '(m, it) ← append_slot m x; Ret (m, (it, true))
    end.

Fixpoint destroy_slots (m : small_map) (n : nat) (i : Z) : outcome small_map :=
  match n with O => Ret m | S n => m ← destroy_slot m i; destroy_slots m n (i + 1) end.

Definition Destroy (m : small_map) : outcome small_map :=
  if UsingFullMap m then destroy_map m else destroy_slots m (Z.to_nat (size_ m)) 0.

Definition clear (m : small_map) : outcome small_map :=
  m ← (if UsingFullMap m then destroy_map m else destroy_slots m (Z.to_nat (size_ m)) 0);
  Ret (set_size m 0).

Definition erase (m : small_map) (position : iterator) : outcome (small_map * iterator) :=
  if UsingFullMap m then
    match position with
    | MapIter p => t ← the_map m; '(t, q) ← map_erase compare t p; Ret (set_storage m (Map t), MapIter q)
    | ArrayIter _ => Crash UninitRead
    end
  else
    match position with
    | MapIter _ => Crash NullDeref
    | ArrayIter i =>
      let i := wrapU size_bits i in
      _ ← RTC_CHECK (i <=? size_ m);
      m ← destroy_slot m i;
      let m := set_size m (wrapU size_bits (size_ m - 1)) in
      if negb (i =? size_ m) then
        e ← read_slot m (size_ m);
        m ← construct_slot m i e;
        m ← destroy_slot m (size_ m);
        Ret (m, ArrayIter i)
      else it ← end_ m; Ret (m, it)
    end.

Definition erase_key (m : small_map) (key : K) : outcome (small_map * Z) :=
  iter ← find m key;
  e ← end_ m;
  if iter_eqb iter e then Ret (m, 0) else '(m, _) ← erase m iter; Ret (m, 1).

Definition count (m : small_map) (key : K) : outcome Z :=
  it ← find m key; e ← end_ m; Ret (if iter_eqb it e then 0 else 1).

Definition size (m : small_map) : outcome Z :=
  if UsingFullMap m then t ← the_map m; Ret (Z.of_nat (length t)) else Ret (size_ m).

Definition empty (m : small_map) : outcome bool :=
  if UsingFullMap m then t ← the_map m; Ret (match t with [] => true | _ => false end) else Ret (size_ m =? 0).

Fixpoint copy_slots (m src : small_map) (n : nat) (i : Z) : outcome small_map :=
  match n with
  | O => Ret m
  | S n => e ← read_slot src i; m ← construct_slot m i e; copy_slots m src n (i + 1)
  end.

Definition InitFrom (m src : small_map) : outcome small_map :=
  let m := mkSmall (size_ src) (functor_ src) (storage m) in
  if UsingFullMap src then
    m ← construct_map m; _ ← the_map m; t ← the_map src; Ret (set_storage m (Map (copy_nodes t)))
  else copy_slots m src (Z.to_nat (size_ m)) 0.

(** The copy constructor, on raw storage. *)
Definition small_map_copy (src : small_map) : outcome small_map := InitFrom small_map_init src.

(** [operator=]; [self] when the source is the object itself. *)
Definition assign (self : bool) (m src : small_map) : outcome small_map :=
  if self then Ret m else m ← Destroy m; InitFrom m src.
End SmallMap.

(** ** The contents of a small map *)

Section Contents.
Context {K V : Type} `{Countable K} `{!NormalMap K V} `{BuildMode}.
Context (size_bits kArraySize : Z) (compare : K → K → bool) (data_type : V).
Context {MapInit : Type} (default_init : MapInit) (init_map : MapInit → list (K * V)) (trivially_destructible : bool).
Context (Hcompare : ∀ j k, compare j k = bool_decide (j = k)) (Hinit : ∀ f, init_map f = []).
Context (Hsize : 0 < kArraySize < 2 ^ size_bits - 1) (Hbits : 0 < size_bits).

#[local] Abbreviation table := (list (K * V)).
#[local] Abbreviation small := (@small_map K V MapInit).
#[local] Abbreviation iter := (@iterator K).

(** The array that holds some elements in its first slots and nothing after. *)
Definition slots_of (l : table) : list (option (K * V)) := (Some <$> l) ++ replicate (Z.to_nat kArraySize - length l) None.

(** The map holds the elements of [l], in iteration order. *)
Definition holds (m : small) (l : table) : Prop :=
  NoDup l.*1 ∧
  ((size_ m = Z.of_nat (length l) ∧ Z.of_nat (length l) ≤ kArraySize ∧ storage m = Array (slots_of l)) ∨
   (size_ m = kUsingFullMapSentinel size_bits ∧ storage m = Map l)).

(** An iterator is before the element [n] of [l]. *)
Definition at_pos (m : small) (l : table) (n : nat) (it : iter) : Prop :=
  (n ≤ length l)%nat ∧ it = if UsingFullMap size_bits m then MapIter (map_head (drop n l)) else ArrayIter (Z.of_nat n).

Lemma holds_full m l : holds m l → UsingFullMap size_bits m = match storage m with Map _ => true | Array _ => false end.
Proof.
  unfold UsingFullMap, kUsingFullMapSentinel. intros [_ [(-> & Hl & ->)|[-> ->]]]; [apply Z.eqb_neq; lia|]. apply Z.eqb_refl.
Qed.

(** *** Nodes *)

Lemma nodes_from_elem (l : table) n k v : NoDup l.*1 → l !! n = Some (k, v) → nodes_from compare l k = drop n l.
Proof.
  revert n. induction l as [|[j w] l IH]; intros [|n] Hnd E; simplify_eq/=; rewrite Hcompare.
  - by rewrite bool_decide_true.
  - apply list.NoDup_cons in Hnd as [Hj Hnd]. rewrite bool_decide_false; [by apply IH|]. intros ->.
    apply Hj, list_elem_of_fmap. exists (k, v). split; [done|]. by eapply list_elem_of_lookup_2.
Qed.

Lemma table_from_absent (l : table) k : k ∉ l.*1 → nodes_from compare l k = [].
Proof.
  induction l as [|[j w] l IH]; [done|]. cbn. intros Hk. rewrite Hcompare, bool_decide_false by set_solver. apply IH. set_solver.
Qed.

Lemma nodes_before_elem (l acc : table) n k v : NoDup l.*1 → l !! n = Some (k, v) →
  nodes_before compare l k acc = reverse (take n l) ++ acc.
Proof.
  revert n acc. induction l as [|[j w] l IH]; intros [|n] acc Hnd E; simplify_eq/=; rewrite Hcompare.
  - by rewrite bool_decide_true.
  - apply list.NoDup_cons in Hnd as [Hj Hnd]. rewrite bool_decide_false.
    + rewrite (IH n) by done. by rewrite reverse_cons, <-app_assoc.
    + intros ->. apply Hj, list_elem_of_fmap. exists (k, v). split; [done|]. by eapply list_elem_of_lookup_2.
Qed.

Lemma map_head_at (l : table) n : NoDup l.*1 → (n < length l)%nat →
  ∃ k v, l !! n = Some (k, v) ∧ map_head (drop n l) = At k ∧ map_at compare l (At k) = Ret ((k, v), drop (S n) l).
Proof.
  intros Hnd Hn. destruct (lookup_lt_is_Some_2 l n Hn) as [[k v] E]. exists k, v.
  split; [done|]. rewrite (drop_S l (k, v) n E). split; [done|]. unfold map_at. rewrite (nodes_from_elem l n k v Hnd E).
  by rewrite (drop_S l (k, v) n E).
Qed.

Lemma find_position (l : table) k : NoDup l.*1 →
  ∃ n, map_find compare l k = map_head (drop n l) ∧ (n ≤ length l)%nat ∧
       ((∃ v, l !! n = Some (k, v)) ∨ (n = length l ∧ k ∉ l.*1)).
Proof.
  intros Hnd. unfold map_find. destruct (decide (k ∈ l.*1)) as [Hk|Hk].
  - apply list_elem_of_fmap in Hk as ([k' v] & Ek & Hin). simpl in Ek. subst k'. apply list_elem_of_lookup in Hin as [n E]. exists n.
    rewrite (nodes_from_elem l n _ v Hnd E). split; [done|]. split; [apply lookup_lt_Some in E; lia|]. left. by exists v.
  - exists (length l). rewrite table_from_absent, drop_all by done. split; [done|]. split; [done|]. by right.
Qed.

(** *** Slots *)

Lemma slots_length l : Z.of_nat (length l) ≤ kArraySize → length (slots_of l) = Z.to_nat kArraySize.
Proof. intros Hl. unfold slots_of. rewrite length_app, length_fmap, length_replicate. lia. Qed.

Lemma slots_lookup l n : (n < length l)%nat → slots_of l !! n = Some (l !! n).
Proof.
  intros Hn. unfold slots_of. rewrite lookup_app_l by (rewrite length_fmap; lia). rewrite list_lookup_fmap.
  destruct (lookup_lt_is_Some_2 l n Hn) as [e ->]. done.
Qed.

Lemma slots_free l n : (length l ≤ n < Z.to_nat kArraySize)%nat → slots_of l !! n = Some None.
Proof.
  intros Hn. unfold slots_of. rewrite lookup_app_r by (rewrite length_fmap; lia). rewrite length_fmap. apply lookup_replicate_2. lia.
Qed.

Lemma slot_at (m : small) slots n s : storage m = Array slots → Z.of_nat n < kArraySize → slots !! n = Some s →
  slot kArraySize m (Z.of_nat n) = Ret (slots, s).
Proof.
  intros E Hn Es. unfold slot. rewrite E. rewrite (proj2 (Z.ltb_ge _ 0)), (proj2 (Z.leb_gt _ _)) by lia. simpl. by rewrite Nat2Z.id, Es.
Qed.

Lemma read_slot_at (m : small) slots n e : storage m = Array slots → Z.of_nat n < kArraySize → slots !! n = Some (Some e) →
  read_slot kArraySize m (Z.of_nat n) = Ret e.
Proof. intros E Hn Es. unfold read_slot. by rewrite (slot_at m slots n (Some e)). Qed.

Lemma construct_slot_at (m : small) slots n e : storage m = Array slots → Z.of_nat n < kArraySize → slots !! n = Some None →
  construct_slot kArraySize m (Z.of_nat n) e = Ret (set_storage m (Array (<[n := Some e]> slots))).
Proof. intros E Hn Es. unfold construct_slot. rewrite (slot_at m slots n None) by done. cbn. by rewrite Nat2Z.id. Qed.

Lemma destroy_slot_at (m : small) slots n e : storage m = Array slots → Z.of_nat n < kArraySize → slots !! n = Some (Some e) →
  destroy_slot kArraySize trivially_destructible m (Z.of_nat n) = Ret (set_storage m (Array (<[n := None]> slots))).
Proof. intros E Hn Es. unfold destroy_slot. rewrite (slot_at m slots n (Some e)) by done. cbn. by rewrite Nat2Z.id. Qed.

(** *** Iterators *)

Lemma begin_at m l : holds m l → ∃ it, begin_ size_bits m = Ret it ∧ at_pos m l 0 it.
Proof.
  intros Hh. unfold begin_, at_pos, the_map. rewrite (holds_full m l Hh). destruct Hh as [_ [(_ & _ & ->)|[_ ->]]]; eexists; (split; [done|]); (split; [lia|done]).
Qed.

Lemma end_at m l : holds m l → ∃ it, end_ size_bits m = Ret it ∧ at_pos m l (length l) it.
Proof.
  intros Hh. unfold end_, at_pos, the_map. rewrite (holds_full m l Hh). rewrite drop_all.
  destruct Hh as [_ [(-> & _ & ->)|[_ ->]]]; eexists; (split; [done|]); (split; [lia|done]).
Qed.

Lemma next_at m l n it : holds m l → at_pos m l n it → (n < length l)%nat →
  ∃ it', iter_next kArraySize compare m it = Ret it' ∧ at_pos m l (S n) it'.
Proof.
  intros Hh [_ ->] Hn. unfold iter_next, at_pos, the_map, map_next. pose proof (holds_full m l Hh) as ->.
  destruct Hh as [Hnd [(_ & Hl & ->)|[_ ->]]].
  - rewrite (proj2 (Z.ltb_lt _ _)) by lia. eexists. split; [done|]. split; [lia|]. f_equal. lia.
  - destruct (map_head_at l n Hnd Hn) as (k & v & _ & -> & Ha). cbn -[map_at]. rewrite Ha. eexists. split; [done|]. split; [lia|done].
Qed.

Lemma prev_at m l n it : holds m l → at_pos m l (S n) it →
  ∃ it', iter_prev compare m it = Ret it' ∧ at_pos m l n it'.
Proof.
  intros Hh [Hn ->]. unfold iter_prev, at_pos, the_map, map_prev. pose proof (holds_full m l Hh) as ->.
  destruct Hh as [Hnd [(_ & Hl & ->)|[_ ->]]].
  - rewrite (proj2 (Z.ltb_lt _ _)) by lia. eexists. split; [done|]. split; [lia|]. f_equal. lia.
  - destruct (map_head_at l n Hnd ltac:(lia)) as (k & v & E & -> & _).
    assert (take (S n) l = take n l ++ [(k, v)]) as Et by (by apply take_S_r). destruct (decide (S n = length l)) as [Hend|Hne].
    + rewrite Hend, drop_all. cbn. rewrite Hend, take_ge in Et by lia.
      assert (reverse l = (k, v) :: reverse (take n l)) as -> by (rewrite Et at 1; by rewrite reverse_app). eexists. split; [done|]. split; [lia|done].
    + destruct (map_head_at l (S n) Hnd ltac:(lia)) as (k' & v' & E' & -> & Ha). cbn -[map_at]. rewrite Ha. cbn -[nodes_before].
      rewrite (nodes_before_elem l [] (S n) k' v' Hnd E'), Et, reverse_app. cbn. eexists. split; [done|]. split; [lia|done].
Qed.

Lemma small_deref_at m l n it e : holds m l → at_pos m l n it → l !! n = Some e → iter_deref kArraySize compare m it = Ret e.
Proof.
  intros Hh [_ ->] E. assert (n < length l)%nat as Hn by (by eapply lookup_lt_Some). unfold iter_deref, the_map. rewrite (holds_full m l Hh).
  destruct Hh as [Hnd [(_ & Hl & Es)|[_ Es]]]; rewrite Es.
  - apply (read_slot_at m _ n e Es); [lia|]. by rewrite slots_lookup, E.
  - destruct (map_head_at l n Hnd Hn) as (k & v & E' & -> & Ha). cbn -[map_at]. rewrite Ha. cbn. congruence.
Qed.

Lemma eqb_at m l n n' it it' : holds m l → at_pos m l n it → at_pos m l n' it' → iter_eqb compare it it' = (n =? n')%nat.
Proof.
  intros Hh [Hn ->] [Hn' ->]. rewrite (holds_full m l Hh). destruct Hh as [Hnd [(_ & Hl & ->)|[_ ->]]]; cbn.
  - destruct (Nat.eqb_spec n n') as [->|]; [apply Z.eqb_refl|]. apply Z.eqb_neq. lia.
  - assert (∀ i j, (i < length l)%nat → (j < length l)%nat → map_iter_eqb compare (map_head (drop i l)) (map_head (drop j l)) = (i =? j)%nat) as Hij.
    { intros i j Hi Hj. destruct (map_head_at l i Hnd Hi) as (k & v & E & -> & _). destruct (map_head_at l j Hnd Hj) as (k' & v' & E' & -> & _).
      cbn. rewrite Hcompare. apply eq_iff_eq_true. rewrite bool_decide_eq_true, Nat.eqb_eq. split; [|congruence]. intros ->.
      apply (NoDup_lookup l.*1 i j k' Hnd); by rewrite list_lookup_fmap, ?E, ?E'. }
    destruct (decide (n = length l)) as [->|Hne], (decide (n' = length l)) as [->|Hne']; [| | |by apply Hij; lia].
    + by rewrite drop_all, Nat.eqb_refl.
    + rewrite drop_all. destruct (map_head_at l n' Hnd ltac:(lia)) as (k & v & E & -> & _). cbn. symmetry. apply Nat.eqb_neq. lia.
    + rewrite drop_all. destruct (map_head_at l n Hnd ltac:(lia)) as (k & v & E & -> & _). cbn. symmetry. apply Nat.eqb_neq. lia.
Qed.

(** *** Searching *)

Lemma read_elem m l n e : holds m l → UsingFullMap size_bits m = false → l !! n = Some e → read_slot kArraySize m (Z.of_nat n) = Ret e.
Proof.
  intros Hh Hf E. apply (small_deref_at m l n (ArrayIter (Z.of_nat n)) e Hh); [|done]. unfold at_pos. rewrite Hf. split; [|done].
  apply lookup_lt_Some in E. lia.
Qed.

(** What the search of an array finds. *)
Definition found (l : table) (key : K) (r : option Z) : Prop :=
  match r with Some i => ∃ n v, i = Z.of_nat n ∧ l !! n = Some (key, v) | None => key ∉ l.*1 end.

Lemma find_loop_found m l key n i : holds m l → UsingFullMap size_bits m = false → (i + n = length l)%nat → key ∉ (take i l).*1 →
  ∃ r, find_loop kArraySize compare m key n (Z.of_nat i) = Ret r ∧ found l key r.
Proof.
  intros Hh Hf. revert i. induction n as [|n IH]; intros i Hi Hk.
  - eexists. split; [done|]. rewrite take_ge in Hk by lia. done.
  - destruct (lookup_lt_is_Some_2 l i ltac:(lia)) as [[k v] E]. cbn [find_loop]. rewrite (read_elem m l i (k, v)) by done. cbn [mbind outcome_bind fst].
    rewrite Hcompare. destruct (bool_decide_reflect (k = key)) as [->|Hne]; [eexists; split; [done|]; by exists i, v|].
    replace (Z.of_nat i + 1) with (Z.of_nat (S i)) by lia. apply IH; [lia|]. rewrite (take_S_r l i (k, v)) by done. rewrite fmap_app. set_solver.
Qed.

Lemma find_back_found m l key n : holds m l → UsingFullMap size_bits m = false → (n ≤ length l)%nat → key ∉ (drop n l).*1 →
  ∃ r, find_back kArraySize compare m key n = Ret r ∧ found l key r.
Proof.
  intros Hh Hf. induction n as [|n IH]; intros Hn Hk; [by eexists|].
  destruct (lookup_lt_is_Some_2 l n ltac:(lia)) as [[k v] E]. cbn [find_back]. rewrite (read_elem m l n (k, v)) by done. cbn [mbind outcome_bind fst].
  rewrite Hcompare. destruct (bool_decide_reflect (k = key)) as [->|Hne]; [eexists; split; [done|]; by exists n, v|].
  apply IH; [lia|]. rewrite (drop_S l (k, v) n) by done. set_solver.
Qed.

Lemma small_find_at m l key : holds m l →
  ∃ it n, find size_bits kArraySize compare m key = Ret it ∧ at_pos m l n it ∧ ((∃ v, l !! n = Some (key, v)) ∨ (n = length l ∧ key ∉ l.*1)).
Proof.
  intros Hh. unfold find, map_ptr. destruct (UsingFullMap size_bits m) eqn:Hf; pose proof (holds_full m l Hh) as Hs; rewrite Hf in Hs.
  - destruct (find_position l key (proj1 Hh)) as (n & E & Hn & Hr). exists (MapIter (map_head (drop n l))), n.
    destruct Hh as [_ [(_ & _ & Es)|[_ Es]]]; rewrite Es in Hs; [done|]. unfold the_map. rewrite Es. cbn. rewrite E. split; [done|]. split; [|done]. unfold at_pos. by rewrite Hf.
  - destruct (find_loop_found m l key (length l) 0 Hh Hf eq_refl) as (r & E & Hr); [apply not_elem_of_nil|].
    assert (size_ m = Z.of_nat (length l)) as Es by (destruct Hh as [_ [(? & _ & _)|[_ Es]]]; [done|by rewrite Es in Hs]).
    rewrite Es, Nat2Z.id. change 0 with (Z.of_nat 0). rewrite E. cbn. destruct r as [i|].
    + destruct Hr as (n & v & -> & El). exists (ArrayIter (Z.of_nat n)), n. split; [done|]. split; [|left; by exists v].
      unfold at_pos. rewrite Hf. split; [apply lookup_lt_Some in El; lia|done].
    + exists (ArrayIter (Z.of_nat (length l))), (length l). split; [done|]. split; [|by right]. unfold at_pos. by rewrite Hf.
Qed.

(** *** Insertion *)

Lemma update_middle {A} (a b : list A) (x y : A) : <[length a := x]> (a ++ y :: b) = a ++ x :: b.
Proof. induction a as [|z a IH]; [done|]. cbn. f_equal. exact IH. Qed.

Lemma slots_append l e : Z.of_nat (length l) < kArraySize → <[length l := Some e]> (slots_of l) = slots_of (l ++ [e]).
Proof.
  intros Hl. unfold slots_of. rewrite length_app, fmap_app, <-app_assoc. cbn.
  replace (Z.to_nat kArraySize - length l)%nat with (S (Z.to_nat kArraySize - (length l + 1))) by lia. cbn [replicate].
  rewrite <-(length_fmap Some l) at 1. apply update_middle.
Qed.

Lemma holds_insert (l : table) k v : NoDup l.*1 → k ∉ l.*1 → NoDup ((k, v) :: l).*1.
Proof. intros Hnd Hk. by apply list.NoDup_cons. Qed.

Lemma append_slot_at m l k v : holds m l → UsingFullMap size_bits m = false → Z.of_nat (length l) < kArraySize → k ∉ l.*1 →
  ∃ m' it, append_slot size_bits kArraySize m (k, v) = Ret (m', it) ∧ holds m' (l ++ [(k, v)]) ∧ at_pos m' (l ++ [(k, v)]) (length l) it.
Proof.
  intros Hh Hf Hl Hk. destruct Hh as [Hnd [(Es & _ & Ea)|[Es _]]]; [|unfold UsingFullMap in Hf; apply Z.eqb_neq in Hf; done].
  unfold append_slot. pass. rewrite Es. rewrite (construct_slot_at m (slots_of l)); [|done|done|by apply slots_free; lia]. cbn [mbind outcome_bind].
  rewrite slots_append, wrapU_small by lia. do 2 eexists. split; [done|].
  assert (holds (set_size (set_storage m (Array (slots_of (l ++ [(k, v)])))) (Z.of_nat (length l) + 1)) (l ++ [(k, v)])) as Hh'.
  { split; [|left; cbn; rewrite length_app; cbn; split; [lia|split; [lia|done]]].
    apply (NoDup_Permutation_proper _ ((k, v) :: l).*1); [|by apply holds_insert]. apply fmap_Permutation. by rewrite Permutation_app_comm. }
  split; [done|]. unfold at_pos. rewrite (holds_full _ _ Hh'). cbn. rewrite length_app. split; [lia|done].
Qed.

Lemma place_elem (l : table) e : e ∈ place l e.
Proof. rewrite place_perm. left. Qed.

(** [l'] is what inserting [e] makes of [l], and [fresh] whether it was added. *)
Definition inserted (l : table) (e : K * V) (l' : table) (n : nat) (fresh : bool) : Prop :=
  if fresh then (e.1 ∉ l.*1) ∧ (l' ≡ₚ e :: l) ∧ l' !! n = Some e else l' = l ∧ ∃ v, l !! n = Some (e.1, v).

Lemma map_insert_at_spec m l e : NoDup l.*1 → size_ m = kUsingFullMapSentinel size_bits → storage m = Map l →
  ∃ m' l' it n fresh, map_insert_at compare m e = Ret (m', (it, fresh)) ∧ holds m' l' ∧ at_pos m' l' n it ∧ inserted l e l' n fresh.
Proof.
  intros Hnd Es Em. destruct e as [k v]. unfold map_insert_at, the_map, map_insert. rewrite Em. cbn [mbind outcome_bind fst].
  destruct (find_position l k Hnd) as (n & _ & Hn & [[w E]|[-> Hk]]).
  - rewrite (nodes_from_elem l n k w Hnd E), (drop_S l (k, w) n E). do 2 eexists. exists (MapIter (At k)), n, false. split; [done|].
    assert (holds (set_storage m (Map l)) l) as Hh by (split; [done|by right]). split; [done|]. split; [|split; [done|by exists w]].
    unfold at_pos. rewrite (holds_full _ _ Hh), (drop_S l (k, w) n E). split; [lia|done].
  - rewrite table_from_absent by done. destruct (proj1 (list_elem_of_lookup _ _) (place_elem l (k, v))) as [n E].
    do 2 eexists. exists (MapIter (At k)), n, true. split; [done|].
    assert (holds (set_storage m (Map (place l (k, v)))) (place l (k, v))) as Hh.
    { split; [|by right]. apply (NoDup_Permutation_proper _ ((k, v) :: l).*1); [|by apply holds_insert]. apply fmap_Permutation, place_perm. }
    split; [done|]. split; [|split; [done|split; [apply place_perm|done]]].
    unfold at_pos. rewrite (holds_full _ _ Hh), (drop_S _ _ _ E). apply lookup_lt_Some in E. split; [lia|done].
Qed.

Lemma insert_all_perm (t temp : table) : NoDup (t ++ temp).*1 → insert_all compare t temp ≡ₚ t ++ temp.
Proof.
  revert t. induction temp as [|[k v] temp IH]; intros t Hnd; [by rewrite app_nil_r|].
  assert (((t ++ (k, v) :: temp).*1) ≡ₚ ((place t (k, v) ++ temp).*1)) as Hp.
  { apply fmap_Permutation. rewrite place_perm. by rewrite <-Permutation_middle. }
  unfold insert_all. cbn [foldl]. change (foldl _ ?x temp) with (insert_all compare x temp). unfold map_insert.
  rewrite table_from_absent.
  - cbn. rewrite IH; [by rewrite place_perm, <-Permutation_middle|by rewrite <-Hp].
  - rewrite fmap_app in Hnd. apply list.NoDup_app in Hnd as (_ & Hd & _). intros Hin. apply (Hd k Hin). left.
Qed.

(** The array after the first [i] of its elements were destroyed. *)
Definition emptied (i : nat) (l : table) : list (option (K * V)) :=
  replicate i None ++ (Some <$> drop i l) ++ replicate (Z.to_nat kArraySize - length l) None.

Lemma emptied_all l : Z.of_nat (length l) ≤ kArraySize → emptied (length l) l = replicate (Z.to_nat kArraySize) None.
Proof. intros Hl. unfold emptied. rewrite drop_all. cbn. rewrite <-replicate_add. f_equal. lia. Qed.

Lemma emptied_destroy (m : small) l i e : storage m = Array (emptied i l) → Z.of_nat (length l) ≤ kArraySize → l !! i = Some e →
  read_slot kArraySize m (Z.of_nat i) = Ret e ∧
  destroy_slot kArraySize trivially_destructible m (Z.of_nat i) = Ret (set_storage m (Array (emptied (S i) l))).
Proof.
  intros Es Hl E. assert (i < length l)%nat as Hi by (by eapply lookup_lt_Some).
  assert (emptied i l = replicate i None ++ Some e :: (Some <$> drop (S i) l) ++ replicate (Z.to_nat kArraySize - length l) None) as Ee.
  { unfold emptied. by rewrite (drop_S l e i E). }
  assert (emptied i l !! i = Some (Some e)) as Eli by (rewrite Ee; apply list_lookup_middle; by rewrite length_replicate).
  rewrite (read_slot_at m _ i e Es) by (done || lia). split; [done|]. rewrite (destroy_slot_at m _ i e Es) by (done || lia). do 3 f_equal.
  rewrite Ee. rewrite <-(length_replicate i (None : option (K * V))) at 1. rewrite update_middle. unfold emptied.
  by rewrite replicate_S_end, <-app_assoc.
Qed.

Lemma move_out_spec (m : small) l n i temp : storage m = Array (emptied i l) → Z.of_nat (length l) = kArraySize → (i + n = length l)%nat →
  move_out kArraySize trivially_destructible m n (Z.of_nat i) temp = Ret (set_storage m (raw kArraySize), temp ++ drop i l).
Proof.
  revert m i temp. induction n as [|n IH]; intros m i temp Es Hl Hi.
  - replace i with (length l) in * by lia. rewrite drop_all, app_nil_r. cbn. rewrite emptied_all in Es by lia.
    do 2 f_equal. destruct m. unfold set_storage, raw. cbn in *. congruence.
  - destruct (lookup_lt_is_Some_2 l i ltac:(lia)) as [e E]. destruct (emptied_destroy m l i e Es ltac:(lia) E) as [Er Ed].
    cbn [move_out]. rewrite Er. cbn [mbind outcome_bind]. rewrite Ed. cbn [mbind outcome_bind].
    replace (Z.of_nat i + 1) with (Z.of_nat (S i)) by lia. rewrite IH by (done || lia). by rewrite <-app_assoc, (drop_S l e i E).
Qed.

Lemma raw_empty : forallb (λ s : option (K * V), match s with None => true | Some _ => false end) (replicate (Z.to_nat kArraySize) None) = true.
Proof. induction (Z.to_nat kArraySize) as [|n IH]; [done|]. by cbn. Qed.

Lemma convert_real_spec m l : holds m l → size_ m = kArraySize →
  ∃ m' l', ConvertToRealMap size_bits kArraySize compare init_map trivially_destructible m = Ret m' ∧
           NoDup l'.*1 ∧ l' ≡ₚ l ∧ size_ m' = kUsingFullMapSentinel size_bits ∧ storage m' = Map l'.
Proof.
  intros [Hnd [(Es & _ & Ea)|[Es _]]] Hfull; [|unfold kUsingFullMapSentinel in Es; lia].
  unfold ConvertToRealMap. change 0 with (Z.of_nat 0). rewrite (move_out_spec m l) by (done || lia). cbn -[insert_all replicate].
  unfold construct_map. cbn -[insert_all replicate]. rewrite raw_empty. cbn. rewrite drop_0, Hinit.
  eexists _, (insert_all compare [] l). split; [done|]. assert (insert_all compare [] l ≡ₚ l) as Hp by (by apply insert_all_perm).
  split; [|by split]. apply (NoDup_Permutation_proper _ l.*1); [by apply fmap_Permutation|done].
Qed.

Lemma inserted_perm (l l1 : table) e l' n fresh : l1 ≡ₚ l → inserted l1 e l' n fresh → e.1 ∉ l.*1 → inserted l e l' n true ∧ fresh = true.
Proof.
  intros Hp Hi Hk. destruct fresh; [by destruct Hi as (_ & Hp' & E); rewrite Hp in Hp'|].
  destruct Hi as [_ [v E]]. exfalso. apply Hk. rewrite <-Hp. apply list_elem_of_fmap. exists (e.1, v). split; [done|]. by eapply list_elem_of_lookup_2.
Qed.

(** What is left to do when the key is not in the array. *)
Lemma insert_new m l e : holds m l → UsingFullMap size_bits m = false → e.1 ∉ l.*1 →
  ∃ m' l' it n,
    (if size_ m =? kArraySize
     then m ← ConvertToRealMap size_bits kArraySize compare init_map trivially_destructible m; map_insert_at compare m e
     else '(m, it) ← append_slot size_bits kArraySize m e; Ret (m, (it, true))) = Ret (m', (it, true)) ∧
    holds m' l' ∧ at_pos m' l' n it ∧ inserted l e l' n true.
Proof.
  intros Hh Hf Hk. destruct (Z.eqb_spec (size_ m) kArraySize) as [Hfull|Hroom].
  - destruct (convert_real_spec m l Hh Hfull) as (m1 & l1 & -> & Hnd & Hp & Es & Em). cbn [mbind outcome_bind].
    destruct (map_insert_at_spec m1 l1 e Hnd Es Em) as (m' & l' & it & n & fresh & -> & Hh' & Hat & Hi).
    destruct (inserted_perm l l1 e l' n fresh Hp Hi Hk) as [Hi' ->]. by exists m', l', it, n.
  - destruct e as [k v]. assert (Z.of_nat (length l) < kArraySize).
    { destruct Hh as [_ [(Es & Hl & _)|[Es _]]]; [lia|]. unfold UsingFullMap in Hf. apply Z.eqb_neq in Hf. done. }
    destruct (append_slot_at m l k v) as (m' & it & -> & Hh' & Hat); [done|done|done|done|].
    exists m', (l ++ [(k, v)]), it, (length l). split; [done|]. split; [done|]. split; [done|]. split; [done|].
    split; [by rewrite Permutation_app_comm|]. by apply list_lookup_middle.
Qed.

Lemma array_size m l : holds m l → UsingFullMap size_bits m = false → Z.to_nat (size_ m) = length l.
Proof. intros [_ [(-> & _)|[Es _]]] Hf; [lia|]. unfold UsingFullMap in Hf. by apply Z.eqb_neq in Hf. Qed.

Lemma full_map m l : holds m l → UsingFullMap size_bits m = true → NoDup l.*1 ∧ size_ m = kUsingFullMapSentinel size_bits ∧ storage m = Map l.
Proof. intros Hh Hf. pose proof (holds_full m l Hh) as Hs. rewrite Hf in Hs. destruct Hh as [? [(_ & _ & E)|[? ?]]]; [by rewrite E in Hs|done]. Qed.

Lemma insert_spec m l e : holds m l →
  ∃ m' l' it n fresh, insert size_bits kArraySize compare init_map trivially_destructible m e = Ret (m', (it, fresh)) ∧
    holds m' l' ∧ at_pos m' l' n it ∧ inserted l e l' n fresh.
Proof.
  intros Hh. unfold insert. destruct (UsingFullMap size_bits m) eqn:Hf; [by apply map_insert_at_spec; apply (full_map m l)|].
  rewrite (array_size m l) by done.
  destruct (find_loop_found m l e.1 (length l) 0 Hh Hf eq_refl) as (r & E & Hr); [apply not_elem_of_nil|].
  change 0 with (Z.of_nat 0). rewrite E. cbn [mbind outcome_bind]. destruct r as [i|].
  - destruct Hr as (n & v & -> & El). exists m, l, (ArrayIter (Z.of_nat n)), n, false. split; [done|]. split; [done|].
    split; [|split; [done|by exists v]]. unfold at_pos. rewrite Hf. split; [apply lookup_lt_Some in El; lia|done].
  - destruct (insert_new m l e Hh Hf Hr) as (m' & l' & it & n & Ei & Hh' & Hat & Hi). exists m', l', it, n, true. by rewrite Ei.
Qed.

Lemma emplace_insert {Args} (make : Args → K * V) m args :
  emplace size_bits kArraySize compare init_map trivially_destructible make m args =
  insert size_bits kArraySize compare init_map trivially_destructible m (make args).
Proof. done. Qed.

Lemma index_spec m l key : holds m l →
  ∃ m' l' it n fresh, index_ size_bits kArraySize compare data_type init_map trivially_destructible m key = Ret (m', it) ∧
    holds m' l' ∧ at_pos m' l' n it ∧ inserted l (key, data_type) l' n fresh.
Proof.
  intros Hh. unfold index_. destruct (UsingFullMap size_bits m) eqn:Hf.
  - destruct (full_map m l Hh Hf) as (Hnd & Es & Em).
    destruct (map_insert_at_spec m l (key, data_type) Hnd Es Em) as (m' & l' & it & n & fresh & -> & Hr). by exists m', l', it, n, fresh.
  - rewrite (array_size m l) by done. destruct (find_back_found m l key (length l) Hh Hf) as (r & -> & Hr); [done|rewrite drop_all; apply not_elem_of_nil|].
    cbn [mbind outcome_bind]. destruct r as [i|].
    + destruct Hr as (n & v & -> & El). exists m, l, (ArrayIter (Z.of_nat n)), n, false. split; [done|]. split; [done|].
      split; [|split; [done|by exists v]]. unfold at_pos. rewrite Hf. split; [apply lookup_lt_Some in El; lia|done].
    + destruct (insert_new m l (key, data_type) Hh Hf Hr) as (m' & l' & it & n & Ei & Hh' & Hat & Hi). exists m', l', it, n, true.
      split; [|done]. destruct (size_ m =? kArraySize).
      * destruct (ConvertToRealMap _ _ _ _ _ _) as [m1|]; [|done]. cbn [mbind outcome_bind] in *. by rewrite Ei.
      * destruct (append_slot _ _ _ _) as [[m1 it1]|]; [|done]. cbn in *. by simplify_eq.
Qed.

(** *** Assignment to a value, removal and destruction *)

Lemma assign_nodes (l : table) n k v w : NoDup l.*1 → l !! n = Some (k, w) →
  ((λ e, if compare e.1 k then (e.1, v) else e) <$> l) = <[n := (k, v)]> l.
Proof.
  intros Hnd E. apply list_eq. intros i. rewrite list_lookup_fmap. destruct (decide (i = n)) as [->|Hne].
  - rewrite list_lookup_insert_eq by (by eapply lookup_lt_Some). rewrite E. cbn. by rewrite Hcompare, bool_decide_true.
  - rewrite list_lookup_insert_ne by done. destruct (l !! i) as [[j u]|] eqn:Ei; [|done]. cbn. rewrite Hcompare, bool_decide_false; [done|].
    intros ->. apply Hne. apply (NoDup_lookup l.*1 i n k Hnd); by rewrite list_lookup_fmap, ?Ei, ?E.
Qed.

Lemma assign_at m l n it k v w : holds m l → at_pos m l n it → l !! n = Some (k, w) →
  ∃ m', iter_assign kArraySize compare m it v = Ret m' ∧ holds m' (<[n := (k, v)]> l).
Proof.
  intros Hh [_ ->] E. assert (n < length l)%nat as Hn by (by eapply lookup_lt_Some).
  assert (NoDup (<[n:=(k, v)]> l).*1) as Hnd'.
  { rewrite list_fmap_insert. rewrite list_insert_id; [apply Hh|]. cbn. by rewrite list_lookup_fmap, E. }
  unfold iter_assign, the_map. rewrite (holds_full m l Hh). destruct Hh as [Hnd [(Es & Hl & Ea)|[Es Em]]].
  - rewrite Ea. unfold assign_slot. rewrite (slot_at m (slots_of l) n (Some (k, w))); [|done|lia|by rewrite slots_lookup, E]. cbn [mbind outcome_bind from_option_or fst].
    rewrite Nat2Z.id. eexists. split; [done|]. split; [done|]. left. cbn. rewrite length_insert. split; [done|]. split; [done|].
    unfold slots_of. rewrite length_insert, list_fmap_insert, insert_app_l by (rewrite length_fmap; lia). done.
  - rewrite Em. destruct (map_head_at l n Hnd Hn) as (k' & v' & E' & -> & Ha). cbn -[map_assign]. unfold map_assign. rewrite Ha. cbn. simplify_eq.
    eexists. split; [done|]. split; [done|]. right. split; [done|]. cbn. f_equal. by eapply assign_nodes.
Qed.

Lemma destroy_slots_spec (m : small) l n i : storage m = Array (emptied i l) → Z.of_nat (length l) ≤ kArraySize → (i + n = length l)%nat →
  destroy_slots kArraySize trivially_destructible m n (Z.of_nat i) = Ret (set_storage m (raw kArraySize)).
Proof.
  revert m i. induction n as [|n IH]; intros m i Es Hl Hi.
  - replace i with (length l) in * by lia. cbn. rewrite emptied_all in Es by lia. f_equal. destruct m. unfold set_storage, raw. cbn in *. congruence.
  - destruct (lookup_lt_is_Some_2 l i ltac:(lia)) as [e E]. destruct (emptied_destroy m l i e Es Hl E) as [_ Ed].
    cbn [destroy_slots]. rewrite Ed. cbn [mbind outcome_bind].
    replace (Z.of_nat i + 1) with (Z.of_nat (S i)) by lia. by rewrite IH by (done || lia).
Qed.

Lemma destroy_spec m l : holds m l → Destroy size_bits kArraySize trivially_destructible m = Ret (set_storage m (raw kArraySize)).
Proof.
  intros Hh. unfold Destroy. destruct (UsingFullMap size_bits m) eqn:Hf.
  - destruct (full_map m l Hh Hf) as (_ & _ & Em). unfold destroy_map, the_map. by rewrite Em.
  - rewrite (array_size m l) by done. change 0 with (Z.of_nat 0). pose proof (holds_full m l Hh) as Hs. rewrite Hf in Hs.
    destruct Hh as [_ [(_ & Hl & Ea)|[_ Ea]]]; rewrite Ea in Hs; [|done]. by apply (destroy_slots_spec m l).
Qed.

Lemma raw_holds (f : MapInit) : holds (mkSmall 0 f (raw kArraySize)) [].
Proof. split; [apply list.NoDup_nil; exact I|]. left. cbn. split; [done|]. split; [lia|]. unfold slots_of, raw. cbn. by rewrite Nat.sub_0_r. Qed.

Lemma clear_spec m l : holds m l → ∃ m', clear size_bits kArraySize trivially_destructible m = Ret m' ∧ holds m' [].
Proof.
  intros Hh. unfold clear. change (if UsingFullMap size_bits m then _ else _) with (Destroy size_bits kArraySize trivially_destructible m).
  rewrite (destroy_spec m l Hh). eexists. split; [done|]. apply raw_holds.
Qed.

(** Erasing the element [n] keeps those before it, in their order, and leaves the
    iterator before the ones that were after it. *)
Definition erased (l l' : table) (n : nat) : Prop := take n l' = take n l ∧ drop n l' ≡ₚ drop (S n) l.

Lemma filter_middle (l1 l2 : table) k v : NoDup (l1 ++ (k, v) :: l2).*1 →
  List.filter (λ e, negb (compare e.1 k)) (l1 ++ (k, v) :: l2) = l1 ++ l2.
Proof.
  intros Hnd. rewrite fmap_app in Hnd. apply list.NoDup_app in Hnd as (_ & Hd & Hnd). apply list.NoDup_cons in Hnd as [Hk _].
  assert (∀ t : table, k ∉ t.*1 → List.filter (λ e, negb (compare e.1 k)) t = t) as Hf.
  { induction t as [|[j u] t IH]; [done|]. cbn. intros Hj. rewrite Hcompare, bool_decide_false by set_solver. cbn. f_equal. apply IH. set_solver. }
  rewrite List.filter_app. cbn. rewrite Hcompare, bool_decide_true by done. cbn. rewrite !Hf; [done|done|]. intros Hin. apply (Hd k Hin). left.
Qed.

Lemma NoDup_middle (l1 l2 : table) e : NoDup (l1 ++ e :: l2).*1 → NoDup (l1 ++ l2).*1.
Proof.
  intros Hnd. assert (((l1 ++ e :: l2).*1) ≡ₚ e.1 :: (l1 ++ l2).*1) as Hp by (rewrite !fmap_app; cbn; by rewrite Permutation_middle).
  rewrite Hp in Hnd. by apply list.NoDup_cons in Hnd as [_ ?].
Qed.

Lemma split_at (l : table) n e : l !! n = Some e → ∃ l1 l2, l = l1 ++ e :: l2 ∧ length l1 = n.
Proof. intros E. exists (take n l), (drop (S n) l). split; [by rewrite take_drop_middle|]. apply length_take_le. apply lookup_lt_Some in E. lia. Qed.

Lemma drop_middle (l1 l2 : table) e : drop (S (length l1)) (l1 ++ e :: l2) = l2.
Proof. induction l1 as [|x l1 IH]; [done|]. exact IH. Qed.

Lemma erase_map_spec m l n it : holds m l → UsingFullMap size_bits m = true → at_pos m l n it → (n < length l)%nat →
  ∃ m' l' it', erase size_bits kArraySize compare trivially_destructible m it = Ret (m', it') ∧ holds m' l' ∧ at_pos m' l' n it' ∧ erased l l' n.
Proof.
  intros Hh Hf [_ ->] Hn. rewrite Hf. unfold erase, the_map, map_erase. rewrite Hf. destruct (full_map m l Hh Hf) as (Hnd & Es & Em). rewrite Em. cbn [mbind outcome_bind].
  destruct (map_head_at l n Hnd Hn) as (k & v & E & -> & ->). cbn [mbind outcome_bind fst].
  destruct (split_at l n (k, v) E) as (l1 & l2 & -> & <-). rewrite filter_middle by done.
  eexists _, (l1 ++ l2), _. split; [done|]. assert (holds (set_storage m (Map (l1 ++ l2))) (l1 ++ l2)) as Hh' by (split; [by eapply NoDup_middle|by right]).
  split; [done|]. split.
  - unfold at_pos. rewrite (holds_full _ _ Hh'). cbn. rewrite length_app. split; [lia|]. f_equal. rewrite drop_app_length.
    by rewrite drop_middle.
  - unfold erased. rewrite !take_app_length, drop_app_length. by rewrite drop_middle.
Qed.

Lemma slots_middle l1 e l2 : slots_of (l1 ++ e :: l2) = (Some <$> l1) ++ Some e :: (Some <$> l2) ++ replicate (Z.to_nat kArraySize - length (l1 ++ e :: l2)) None.
Proof. unfold slots_of. by rewrite fmap_app, <-app_assoc. Qed.

Lemma update_first l1 (x y : option (K * V)) b : <[length l1 := x]> ((Some <$> l1) ++ y :: b) = (Some <$> l1) ++ x :: b.
Proof. rewrite <-(length_fmap Some l1) at 1. apply update_middle. Qed.

(** The last element fills the gap. *)
Lemma fill_gap (m : small) l1 z l2 R : storage m = Array ((Some <$> l1) ++ None :: (Some <$> l2) ++ Some z :: R) → Z.of_nat (length l1 + S (length l2)) < kArraySize →
  size_ m = Z.of_nat (length l1 + S (length l2)) →
  (e ← read_slot kArraySize m (size_ m); m ← construct_slot kArraySize m (Z.of_nat (length l1)) e; destroy_slot kArraySize trivially_destructible m (size_ m)) =
  Ret (set_storage m (Array ((Some <$> l1) ++ Some z :: (Some <$> l2) ++ None :: R))).
Proof.
  intros Ea Hl Es. assert (∀ s : option (K * V), ((Some <$> l1) ++ s :: (Some <$> l2)) ++ Some z :: R = (Some <$> l1) ++ s :: (Some <$> l2) ++ Some z :: R) as Eapp by (intros s; by rewrite <-app_assoc).
  assert (∀ s : option (K * V), length ((Some <$> l1) ++ s :: (Some <$> l2)) = (length l1 + S (length l2))%nat) as Elen by (intros s; rewrite length_app; cbn; by rewrite !length_fmap).
  rewrite Es. rewrite (read_slot_at m _ _ z Ea); [|done|rewrite <-Eapp; apply list_lookup_middle; by rewrite Elen]. cbn [mbind outcome_bind].
  rewrite (construct_slot_at m _ _ z Ea); [|lia|apply list_lookup_middle; by rewrite length_fmap]. cbn [mbind outcome_bind].
  rewrite update_first. cbn [size_ set_storage]. rewrite Es.
  erewrite destroy_slot_at; [|done|done|rewrite <-Eapp; apply list_lookup_middle; by rewrite Elen].
  do 3 f_equal. rewrite <-Eapp, <-(Elen (Some z)), update_middle. by rewrite <-app_assoc.
Qed.

Lemma erase_array_spec m l n it : holds m l → UsingFullMap size_bits m = false → at_pos m l n it → (n < length l)%nat →
  ∃ m' l' it', erase size_bits kArraySize compare trivially_destructible m it = Ret (m', it') ∧ holds m' l' ∧ at_pos m' l' n it' ∧ erased l l' n.
Proof.
  intros Hh Hf [_ ->] Hn. rewrite Hf. unfold erase. rewrite Hf. pose proof (array_size m l Hh Hf) as Hsz. destruct Hh as [Hnd [(Es & Hl & Ea)|[Es _]]]; [|unfold UsingFullMap in Hf; by apply Z.eqb_neq in Hf].
  destruct (lookup_lt_is_Some_2 l n Hn) as [e E]. destruct (split_at l n e E) as (l1 & l2 & -> & <-). rewrite length_app in *. cbn [length] in *.
  rewrite wrapU_small by lia. pass. rewrite slots_middle in Ea.
  rewrite (destroy_slot_at m _ (length l1) e Ea); [|lia|apply list_lookup_middle; by rewrite length_fmap]. cbn [mbind outcome_bind].
  rewrite update_first. cbn [size_ set_storage set_size].
  rewrite Es, wrapU_small by lia. replace (Z.of_nat (length l1 + S (length l2)) - 1) with (Z.of_nat (length l1 + length l2)) by lia.
  destruct (Z.eqb_spec (Z.of_nat (length l1)) (Z.of_nat (length l1 + length l2))) as [El|Hne]; cbn [negb].
  - destruct l2; [|cbn in *; lia]. cbn [length] in *.
    match goal with |- context [end_ _ ?x] => set (m' := x) end. assert (holds m' l1) as Hh'.
    { split; [by apply NoDup_middle in Hnd; rewrite app_nil_r in Hnd|]. left. split; [cbn; lia|]. split; [lia|]. cbn. f_equal. unfold slots_of. f_equal.
      replace (Z.to_nat kArraySize - length l1)%nat with (S (Z.to_nat kArraySize - (length (l1 ++ [e])))) by (rewrite length_app; cbn; lia). done. }
    destruct (end_at m' l1 Hh') as (it & -> & Hat). eexists m', l1, it. split; [done|]. split; [done|]. split; [done|].
    unfold erased. rewrite take_app_length, take_ge, drop_all, drop_middle by done. done.
  - destruct l2 as [|z l2 _] using rev_ind; [cbn in *; lia|]. rewrite !length_app in *. cbn [length] in *.
    match goal with |- context [read_slot _ ?x _] => set (m' := x) end. set (R := replicate _ None) in *.
    assert (storage m' = Array ((Some <$> l1) ++ None :: (Some <$> l2) ++ Some z :: R)) as Ea' by (cbn; by rewrite fmap_app, <-app_assoc).
    pose proof (fill_gap m' l1 z l2 R Ea' ltac:(lia) ltac:(cbn; lia)) as Hgap.
    apply bind_returns in Hgap as (e1 & Er & Hgap). apply bind_returns in Hgap as (m1 & Ec & Ed).
    change (Z.of_nat (length l1 + (length l2 + 1))) with (size_ m'). rewrite Er. cbn [mbind outcome_bind]. rewrite Ec. cbn [mbind outcome_bind]. rewrite Ed. cbn [mbind outcome_bind].
    assert (holds (set_storage m' (Array ((Some <$> l1) ++ Some z :: (Some <$> l2) ++ None :: R))) (l1 ++ z :: l2)) as Hh'.
    { split.
      - apply NoDup_middle in Hnd. apply (NoDup_Permutation_proper _ (l1 ++ l2 ++ [z]).*1); [|done].
        apply fmap_Permutation. by rewrite (Permutation_app_comm l2 [z]).
      - left. cbn. rewrite length_app. cbn. split; [lia|]. split; [lia|]. rewrite slots_middle. do 3 f_equal.
        unfold R. rewrite ?length_app. cbn. rewrite ?length_app. cbn.
        replace (Z.to_nat kArraySize - (length l1 + S (length l2)))%nat with (S (Z.to_nat kArraySize - (length l1 + S (length l2 + 1)))) by lia. done. }
    eexists _, (l1 ++ z :: l2), _. split; [done|]. split; [done|]. split.
    + unfold at_pos. rewrite (holds_full _ _ Hh'). cbn. rewrite length_app. split; [lia|done].
    + unfold erased. rewrite !take_app_length, drop_app_length, drop_middle. split; [done|]. by rewrite (Permutation_app_comm l2 [z]).
Qed.

Lemma erase_spec m l n it : holds m l → at_pos m l n it → (n < length l)%nat →
  ∃ m' l' it', erase size_bits kArraySize compare trivially_destructible m it = Ret (m', it') ∧ holds m' l' ∧ at_pos m' l' n it' ∧ erased l l' n.
Proof. intros Hh. destruct (UsingFullMap size_bits m) eqn:Hf; [by apply erase_map_spec|by apply erase_array_spec]. Qed.

Lemma size_spec m l : holds m l → size size_bits m = Ret (Z.of_nat (length l)) ∧ empty size_bits m = Ret (match l with [] => true | _ => false end).
Proof.
  intros Hh. unfold size, empty, the_map. rewrite (holds_full m l Hh). destruct Hh as [_ [(-> & _ & ->)|[_ ->]]]; [|done]. split; [done|]. by destruct l.
Qed.

(** *** Copies *)

Lemma copy_slots_spec m src l n i : holds src l → UsingFullMap size_bits src = false → storage m = Array (slots_of (take i l)) → (i + n = length l)%nat →
  copy_slots kArraySize m src n (Z.of_nat i) = Ret (set_storage m (Array (slots_of l))).
Proof.
  intros Hh Hf. assert (Z.of_nat (length l) ≤ kArraySize) as Hl.
  { pose proof (holds_full src l Hh) as Hs. rewrite Hf in Hs. destruct Hh as [_ [(_ & Hl & _)|[_ Ea]]]; [done|by rewrite Ea in Hs]. }
  revert m i. induction n as [|n IH]; intros m i Ea Hi; cbn [copy_slots].
  - rewrite take_ge in Ea by lia. f_equal. destruct m. unfold set_storage. cbn in *. congruence.
  - destruct (lookup_lt_is_Some_2 l i ltac:(lia)) as [e E]. rewrite (read_elem src l i e) by done. cbn [mbind outcome_bind].
    assert (length (take i l) = i) as Hti by (apply length_take_le; lia).
    rewrite (construct_slot_at m _ i e Ea); [|lia|apply slots_free; lia]. cbn [mbind outcome_bind].
    replace (<[i:=Some e]> (slots_of (take i l))) with (slots_of (take (S i) l)).
    + replace (Z.of_nat i + 1) with (Z.of_nat (S i)) by lia. by rewrite IH by (done || lia).
    + rewrite (take_S_r l i e E). rewrite <-slots_append by lia. by rewrite Hti.
Qed.

Lemma init_from_spec m src l : storage m = raw kArraySize → holds src l →
  ∃ m' l', InitFrom size_bits kArraySize init_map m src = Ret m' ∧ holds m' l' ∧ l' ≡ₚ l.
Proof.
  intros Em Hh. unfold InitFrom. destruct (UsingFullMap size_bits src) eqn:Hf.
  - destruct (full_map src l Hh Hf) as (Hnd & Es & Esrc). unfold construct_map, the_map. cbn -[replicate]. rewrite Em. unfold raw. rewrite raw_empty. cbn. rewrite Esrc. cbn.
    eexists _, (copy_nodes l). split; [done|]. split; [|apply copy_perm]. split; [|by right].
    apply (NoDup_Permutation_proper _ l.*1); [|done]. apply fmap_Permutation, copy_perm.
  - cbn [size_]. rewrite (array_size src l) by done. change 0 with (Z.of_nat 0). rewrite (copy_slots_spec _ src l) by
      (done || cbn; rewrite Em; unfold raw, slots_of; cbn; by rewrite Nat.sub_0_r).
    eexists _, l. split; [done|]. split; [|done]. pose proof (holds_full src l Hh) as Hs. rewrite Hf in Hs.
    destruct Hh as [Hnd [(Es & Hl & Ea)|[_ Ea]]]; [|by rewrite Ea in Hs]. split; [done|]. by left.
Qed.

Lemma small_insert_range m l xs : holds m l →
  ∃ m' l', insert_range size_bits kArraySize compare init_map trivially_destructible m xs = Ret m' ∧ holds m' l' ∧
    list_to_map l' = (list_to_map l ∪ list_to_map xs : gmap K V).
Proof.
  revert m l. induction xs as [|x xs IH]; intros m l Hh; cbn [insert_range].
  - exists m, l. cbn. by rewrite map_union_empty.
  - destruct (insert_spec m l x Hh) as (m1 & l1 & it & n & fresh & -> & Hh1 & _ & Hi). cbn [mbind outcome_bind].
    destruct (IH m1 l1 Hh1) as (m' & l' & E & Hh' & El). exists m', l'. split; [done|]. split; [done|]. rewrite El. clear El Hh' E IH.
    destruct x as [k v]. cbn. destruct fresh.
    + destruct Hi as (Hk & Hp & _). rewrite (list_to_map_proper l1 ((k, v) :: l)) by (done || apply Hh1). cbn.
      rewrite <-insert_union_l. apply insert_union_r. by apply not_elem_of_list_to_map.
    + destruct Hi as [-> [w E]]. symmetry. apply map_eq. intros j. rewrite !lookup_union. destruct (decide (j = k)) as [->|Hne]; [|by rewrite lookup_insert_ne].
      rewrite (elem_of_list_to_map_1 l k w); [|apply Hh|by eapply list_elem_of_lookup_2]. by rewrite lookup_insert_eq; destruct (list_to_map xs !! k).
Qed.

(** ** Use of a small map *)

(** [for (it = begin(); it != end(); ++it)], the elements seen; [n] bounds the turns. *)
Fixpoint walk (m : small) (it stop : iter) (n : nat) : outcome table :=
  if iter_eqb compare it stop then Ret []
  else match n with
       | O => Crash OutOfBounds
       | S n => e ← iter_deref kArraySize compare m it; it ← iter_next kArraySize compare m it; rest ← walk m it stop n; Ret (e :: rest)
       end.

(** The same from [end()] back to [begin()]. *)
Fixpoint walk_back (m : small) (it start : iter) (n : nat) : outcome table :=
  if iter_eqb compare it start then Ret []
  else match n with
       | O => Crash OutOfBounds
       | S n => it ← iter_prev compare m it; e ← iter_deref kArraySize compare m it; rest ← walk_back m it start n; Ret (e :: rest)
       end.

(** [for (it = begin(); it != end();) if (p( *it)) it = erase(it); else ++it;],
    the map that is left and the elements seen. *)
Fixpoint erase_if (p : K * V → bool) (m : small) (it : iter) (n : nat) : outcome (small * table) :=
  stop ← end_ size_bits m;
  if iter_eqb compare it stop then Ret (m, [])
  else match n with
       | O => Crash OutOfBounds
       | S n =>
         e ← iter_deref kArraySize compare m it;
         '(m, it) ← (if p e then erase size_bits kArraySize compare trivially_destructible m it
                     else it ← iter_next kArraySize compare m it; Ret (m, it));
         '(m, rest) ← erase_if p m it n; Ret (m, e :: rest)
       end.

Lemma walk_spec m l n i it stop : holds m l → at_pos m l i it → at_pos m l (length l) stop → (i + n = length l)%nat →
  walk m it stop n = Ret (drop i l).
Proof.
  intros Hh. revert i it. induction n as [|n IH]; intros i it Hit Hstop Hi; cbn [walk]; rewrite (eqb_at m l i (length l) it stop) by done.
  - rewrite (proj2 (Nat.eqb_eq _ _)) by lia. by rewrite drop_ge by lia.
  - rewrite (proj2 (Nat.eqb_neq _ _)) by lia. destruct (lookup_lt_is_Some_2 l i ltac:(lia)) as [e E].
    rewrite (small_deref_at m l i it e) by done. cbn [mbind outcome_bind]. destruct (next_at m l i it Hh Hit ltac:(lia)) as (it' & -> & Hit'). cbn [mbind outcome_bind].
    rewrite (IH (S i) it') by (done || lia). by rewrite (drop_S l e i E).
Qed.

Lemma walk_back_spec m l n it start : holds m l → at_pos m l n it → at_pos m l 0 start → walk_back m it start n = Ret (reverse (take n l)).
Proof.
  intros Hh. revert it. induction n as [|n IH]; intros it Hit Hstart; cbn [walk_back]; rewrite (eqb_at m l _ 0 it start) by done; [done|].
  cbn [Nat.eqb]. destruct (prev_at m l n it Hh Hit) as (it' & -> & Hit'). cbn [mbind outcome_bind].
  destruct (lookup_lt_is_Some_2 l n ltac:(destruct Hit; lia)) as [e E]. rewrite (small_deref_at m l n it' e) by done. cbn [mbind outcome_bind].
  rewrite IH by done. cbn. by rewrite (take_S_r l n e E), reverse_app.
Qed.

Lemma erase_if_spec p n m l i it : holds m l → at_pos m l i it → (i + n = length l)%nat →
  ∃ m' l' seen, erase_if p m it n = Ret (m', seen) ∧ holds m' l' ∧ (seen ≡ₚ drop i l) ∧ l' ≡ₚ take i l ++ List.filter (λ e, negb (p e)) seen.
Proof.
  revert m l i it. induction n as [|n IH]; intros m l i it Hh Hit Hi; destruct (end_at m l Hh) as (stop & Estop & Hstop); cbn [erase_if]; rewrite Estop; cbn [mbind outcome_bind];
    rewrite (eqb_at m l i (length l) it stop) by done.
  - rewrite (proj2 (Nat.eqb_eq _ _)) by lia. exists m, l, []. rewrite drop_ge, take_ge by lia. cbn. by rewrite app_nil_r.
  - rewrite (proj2 (Nat.eqb_neq _ _)) by lia. destruct (lookup_lt_is_Some_2 l i ltac:(lia)) as [e E].
    rewrite (small_deref_at m l i it e) by done. cbn [mbind outcome_bind]. destruct (p e) eqn:Hp.
    + destruct (erase_spec m l i it Hh Hit ltac:(lia)) as (m1 & l1 & it1 & -> & Hh1 & Hit1 & [Ht Hd]). cbn [mbind outcome_bind].
      assert (length l1 = (i + n)%nat) as Hl1.
      { apply Permutation_length in Hd. rewrite !length_drop in Hd. destruct Hit1. lia. }
      destruct (IH m1 l1 i it1 Hh1 Hit1 ltac:(lia)) as (m' & l' & seen & -> & Hh' & Hs & Hl'). cbn [mbind outcome_bind].
      exists m', l', (e :: seen). split; [done|]. split; [done|]. split; [by rewrite (drop_S l e i E), Hs, Hd|]. cbn. by rewrite Hp, <-Ht.
    + destruct (next_at m l i it Hh Hit ltac:(lia)) as (it1 & -> & Hit1). cbn [mbind outcome_bind].
      destruct (IH m l (S i) it1 Hh Hit1 ltac:(lia)) as (m' & l' & seen & -> & Hh' & Hs & Hl'). cbn [mbind outcome_bind].
      exists m', l', (e :: seen). split; [done|]. split; [done|]. split; [by rewrite (drop_S l e i E), Hs|]. cbn. rewrite Hp. cbn.
      rewrite Hl', (take_S_r l i e E), <-app_assoc. done.
Qed.

(** *** Operations and what they mean *)

Inductive op :=
| Find (k : K) | Index (k : K) | SetIndex (k : K) (v : V)
| Insert (e : K * V) | Emplace (k : K) (v : V) | InsertRange (xs : table)
| EraseKey (k : K) | EraseAt (k : K) | EraseIf (p : K * V → bool)
| Count (k : K) | Size | Empty | Clear
| Copy | Assign (xs : table) | SelfAssign
| Walk | WalkBack.

Inductive result := Done | Element (e : option (K * V)) | Inserted (e : K * V) (fresh : bool) | Num (n : Z) | Flag (b : bool) | Elements (l : table).

(** The element an iterator is at, if it is not at the end. *)
Definition element (m : small) (it : iter) : outcome (option (K * V)) :=
  e ← end_ size_bits m;
  if iter_eqb compare it e then Ret None else x ← iter_deref kArraySize compare m it; Ret (Some x).

Definition perform (m : small) (o : op) : outcome (small * result) :=
  let init := small_map_init kArraySize default_init in
  match o with
  | Find k => it ← find size_bits kArraySize compare m k; e ← element m it; Ret (m, Element e)
  | Index k => '(m, it) ← index_ size_bits kArraySize compare data_type init_map trivially_destructible m k; e ← iter_deref kArraySize compare m it; Ret (m, Element (Some e))
  | SetIndex k v => '(m, it) ← index_ size_bits kArraySize compare data_type init_map trivially_destructible m k; m ← iter_assign kArraySize compare m it v; Ret (m, Done)
  | Insert e => '(m, (it, fresh)) ← insert size_bits kArraySize compare init_map trivially_destructible m e; x ← iter_deref kArraySize compare m it; Ret (m, Inserted x fresh)
  | Emplace k v => '(m, (it, fresh)) ← emplace size_bits kArraySize compare init_map trivially_destructible (λ a, a) m (k, v); x ← iter_deref kArraySize compare m it; Ret (m, Inserted x fresh)
  | InsertRange xs => m ← insert_range size_bits kArraySize compare init_map trivially_destructible m xs; Ret (m, Done)
  | EraseKey k => '(m, n) ← erase_key size_bits kArraySize compare trivially_destructible m k; Ret (m, Num n)
  | EraseAt k =>
    it ← find size_bits kArraySize compare m k; e ← end_ size_bits m;
    if iter_eqb compare it e then Ret (m, Done) else '(m, _) ← erase size_bits kArraySize compare trivially_destructible m it; Ret (m, Done)
  | EraseIf p => it ← begin_ size_bits m; n ← size size_bits m; '(m, seen) ← erase_if p m it (Z.to_nat n); Ret (m, Elements seen)
  | Count k => n ← count size_bits kArraySize compare m k; Ret (m, Num n)
  | Size => n ← size size_bits m; Ret (m, Num n)
  | Empty => b ← empty size_bits m; Ret (m, Flag b)
  | Clear => m ← clear size_bits kArraySize trivially_destructible m; Ret (m, Done)
  | Copy => c ← small_map_copy size_bits kArraySize default_init init_map m; _ ← Destroy size_bits kArraySize trivially_destructible m; Ret (c, Done)
  | Assign xs =>
    src ← insert_range size_bits kArraySize compare init_map trivially_destructible init xs;
    m ← assign size_bits kArraySize init_map trivially_destructible false m src;
    _ ← Destroy size_bits kArraySize trivially_destructible src; Ret (m, Done)
  | SelfAssign => m ← assign size_bits kArraySize init_map trivially_destructible true m m; Ret (m, Done)
  | Walk => it ← begin_ size_bits m; e ← end_ size_bits m; n ← size size_bits m; l ← walk m it e (Z.to_nat n); Ret (m, Elements l)
  | WalkBack => it ← end_ size_bits m; b ← begin_ size_bits m; n ← size size_bits m; l ← walk_back m it b (Z.to_nat n); Ret (m, Elements l)
  end.

(** What an operation on a finite map returns and makes of it. *)
Definition answers (M : gmap K V) (o : op) (r : result) (M' : gmap K V) : Prop :=
  match o with
  | Find k => M' = M ∧ r = Element (pair k <$> M !! k)
  | Index k => M' = <[k := default data_type (M !! k)]> M ∧ r = Element (Some (k, default data_type (M !! k)))
  | SetIndex k v => M' = <[k := v]> M ∧ r = Done
  | Insert (k, v) | Emplace k v =>
    M' = <[k := default v (M !! k)]> M ∧ r = Inserted (k, default v (M !! k)) (bool_decide (M !! k = None))
  | InsertRange xs => M' = M ∪ list_to_map xs ∧ r = Done
  | EraseKey k => M' = delete k M ∧ r = Num (if decide (M !! k = None) then 0 else 1)
  | EraseAt k => M' = delete k M ∧ r = Done
  | EraseIf p => M' = filter (λ e, p e = false) M ∧ ∃ seen, r = Elements seen ∧ seen ≡ₚ map_to_list M
  | Count k => M' = M ∧ r = Num (if decide (M !! k = None) then 0 else 1)
  | Size => M' = M ∧ r = Num (Z.of_nat (base.size M))
  | Empty => M' = M ∧ r = Flag (bool_decide (M = ∅))
  | Clear => M' = ∅ ∧ r = Done
  | Copy | SelfAssign => M' = M ∧ r = Done
  | Assign xs => M' = list_to_map xs ∧ r = Done
  | Walk | WalkBack => M' = M ∧ ∃ seen, r = Elements seen ∧ seen ≡ₚ map_to_list M
  end.

Fixpoint perform_all (m : small) (ops : list op) : outcome (small * list result) :=
  match ops with
  | [] => Ret (m, [])
  | o :: ops => '(m, r) ← perform m o; '(m, rs) ← perform_all m ops; Ret (m, r :: rs)
  end.

Inductive answers_all : gmap K V → list op → list result → gmap K V → Prop :=
| answers_nil M : answers_all M [] [] M
| answers_cons M M1 M2 o r ops rs : answers M o r M1 → answers_all M1 ops rs M2 → answers_all M (o :: ops) (r :: rs) M2.

(** *** Elements and finite maps *)

#[local] Abbreviation to_map l := (list_to_map l : gmap K V).

Lemma to_map_at (l : table) n k v : NoDup l.*1 → l !! n = Some (k, v) → to_map l !! k = Some v.
Proof. intros Hnd E. apply elem_of_list_to_map_1; [done|]. by eapply list_elem_of_lookup_2. Qed.

Lemma to_map_absent (l : table) k : k ∉ l.*1 → to_map l !! k = None.
Proof. apply not_elem_of_list_to_map_1. Qed.

Lemma to_map_perm m (l l' : table) : holds m l → l' ≡ₚ l → to_map l' = to_map l.
Proof. intros [Hnd _] Hp. apply list_to_map_proper; [|done]. by rewrite Hp. Qed.

Lemma inserted_map m (l l' : table) k v n fresh : holds m l → inserted l (k, v) l' n fresh →
  to_map l' = <[k := default v (to_map l !! k)]> (to_map l) ∧ l' !! n = Some (k, default v (to_map l !! k)) ∧ fresh = bool_decide (to_map l !! k = None).
Proof.
  intros Hh Hi. destruct fresh.
  - destruct Hi as (Hk & Hp & E). rewrite (to_map_absent l k Hk). cbn. split; [|done]. assert (NoDup ((k, v) :: l).*1) by (apply holds_insert; [apply Hh|done]).
    by rewrite (list_to_map_proper l' ((k, v) :: l)) by (done || by rewrite Hp).
  - destruct Hi as [-> [w E]]. rewrite (to_map_at l n k w (proj1 Hh) E). cbn. split; [|done]. symmetry. apply insert_id. by apply (to_map_at l n k w (proj1 Hh) E).
Qed.

Lemma erased_map m (l l' : table) n k v : holds m l → l !! n = Some (k, v) → erased l l' n → to_map l' = delete k (to_map l).
Proof.
  intros [Hnd _] E [Ht Hd]. destruct (split_at l n (k, v) E) as (l1 & l2 & -> & <-). rewrite take_app_length in Ht. rewrite drop_middle in Hd.
  assert (l' ≡ₚ l1 ++ l2) as Hp by (rewrite <-(take_drop (length l1) l'), Ht, Hd; done).
  assert (to_map (l1 ++ (k, v) :: l2) = to_map ((k, v) :: l1 ++ l2)) as -> by (apply list_to_map_proper; [done|by rewrite Permutation_middle]).
  rewrite (list_to_map_proper l' (l1 ++ l2)); [|rewrite Hp; by eapply NoDup_middle|done]. cbn. rewrite delete_insert_id; [done|].
  apply to_map_absent. intros Hin. assert (((l1 ++ (k, v) :: l2).*1) ≡ₚ k :: (l1 ++ l2).*1) as Hq by (rewrite !fmap_app; cbn; by rewrite Permutation_middle).
  rewrite Hq in Hnd. by apply list.NoDup_cons in Hnd as [? _].
Qed.

(** *** Each operation *)

(** The operation returns, and its answer is that of the finite map. *)
Definition simulates (m : small) (l : table) (o : op) : Prop :=
  ∃ m' r l', perform m o = Ret (m', r) ∧ holds m' l' ∧ answers (to_map l) o r (to_map l').

Lemma find_or_end m l k : holds m l →
  ∃ it stop n, find size_bits kArraySize compare m k = Ret it ∧ at_pos m l n it ∧ end_ size_bits m = Ret stop ∧
    ((to_map l !! k = None ∧ iter_eqb compare it stop = true) ∨
     (∃ v, to_map l !! k = Some v ∧ l !! n = Some (k, v) ∧ (n < length l)%nat ∧ iter_eqb compare it stop = false)).
Proof.
  intros Hh. destruct (small_find_at m l k Hh) as (it & n & E & Hat & Hr). destruct (end_at m l Hh) as (stop & Es & Hs). exists it, stop, n.
  split; [done|]. split; [done|]. split; [done|]. rewrite (eqb_at m l n (length l) it stop) by done. destruct Hr as [[v Ev]|[-> Hk]].
  - right. exists v. assert (n < length l)%nat by (by eapply lookup_lt_Some). split; [by apply (to_map_at l n); [apply Hh|]|]. split; [done|]. split; [done|]. apply Nat.eqb_neq. lia.
  - left. split; [by apply to_map_absent|]. apply Nat.eqb_refl.
Qed.

Lemma simulates_lookup m l o : holds m l → match o with Find _ | Count _ | Size | Empty | Walk | WalkBack => True | _ => False end → simulates m l o.
Proof.
  intros Hh Ho. exists m. destruct (size_spec m l Hh) as [Hsz Hem]. destruct (begin_at m l Hh) as (b & Eb & Hb). destruct (end_at m l Hh) as (e & Ee & He).
  assert (l ≡ₚ map_to_list (to_map l)) as Hml by (symmetry; apply map_to_list_to_map, Hh).
  destruct o as [k| | | | | | | | |k| | | | | | | |]; try done; cbn [perform].
  - destruct (find_or_end m l k Hh) as (it & stop & n & -> & Hat & Es & [[Em Eq]|(v & Em & El & Hn & Eq)]); cbn [mbind outcome_bind]; unfold element; rewrite Es; cbn [mbind outcome_bind]; rewrite Eq;
      [|rewrite (small_deref_at m l n it (k, v)) by done]; eexists _, l; (split; [done|]); (split; [done|]); cbn; by rewrite Em.
  - unfold count. destruct (find_or_end m l k Hh) as (it & stop & n & -> & Hat & Es & [[Em Eq]|(v & Em & El & Hn & Eq)]); cbn [mbind outcome_bind]; rewrite Es; cbn [mbind outcome_bind]; rewrite Eq;
      eexists _, l; (split; [done|]); (split; [done|]); cbn; by rewrite Em.
  - rewrite Hsz. eexists _, l. split; [done|]. split; [done|]. split; [done|]. f_equal. rewrite <-length_map_to_list. f_equal. by apply Permutation_length.
  - rewrite Hem. eexists _, l. split; [done|]. split; [done|]. split; [done|]. f_equal. destruct l as [|[k v] l]; [by rewrite bool_decide_true|].
    cbn. rewrite bool_decide_false; [done|]. apply insert_non_empty.
  - rewrite Eb, Ee, Hsz. cbn [mbind outcome_bind]. rewrite Nat2Z.id, (walk_spec m l (length l) 0) by done. eexists _, l. split; [done|]. split; [done|]. split; [done|]. by eexists.
  - rewrite Eb, Ee, Hsz. cbn [mbind outcome_bind]. rewrite Nat2Z.id, (walk_back_spec m l (length l)) by done. rewrite firstn_all.
    eexists _, l. split; [done|]. split; [done|]. split; [done|]. eexists. split; [done|]. by rewrite reverse_Permutation.
Qed.

Lemma simulates_insert m l o : holds m l → match o with Index _ | SetIndex _ _ | Insert _ | Emplace _ _ | InsertRange _ => True | _ => False end → simulates m l o.
Proof.
  intros Hh Ho. unfold simulates. destruct o as [|k|k v|[k v]|k v|xs| | | | | | | | | | | |]; try done; cbn [perform].
  - destruct (index_spec m l k Hh) as (m' & l' & it & n & fresh & -> & Hh' & Hat & Hi). cbn [mbind outcome_bind]. destruct (inserted_map m l l' k data_type n fresh Hh Hi) as (HM & El & _).
    rewrite (small_deref_at m' l' n it _ Hh' Hat El). eexists m', _, l'. split; [done|]. split; [done|]. by split.
  - destruct (index_spec m l k Hh) as (m' & l' & it & n & fresh & -> & Hh' & Hat & Hi). cbn [mbind outcome_bind]. destruct (inserted_map m l l' k data_type n fresh Hh Hi) as (HM & El & _).
    destruct (assign_at m' l' n it k v _ Hh' Hat El) as (m2 & -> & Hh2). eexists m2, _, _. split; [done|]. split; [done|]. split; [|done].
    destruct (split_at l' n _ El) as (l1 & l2 & -> & <-). rewrite update_middle in *.
    rewrite <-(to_map_perm m2 _ ((k, v) :: l1 ++ l2)) by (done || by rewrite Permutation_middle).
    rewrite <-(to_map_perm m' _ ((k, default data_type (to_map l !! k)) :: l1 ++ l2)) in HM by (done || by rewrite Permutation_middle).
    cbn in *. apply (f_equal (base.insert k v)) in HM. by rewrite !insert_insert_eq in HM.
  - destruct (insert_spec m l (k, v) Hh) as (m' & l' & it & n & fresh & -> & Hh' & Hat & Hi). cbn [mbind outcome_bind]. destruct (inserted_map m l l' k v n fresh Hh Hi) as (HM & El & ->).
    rewrite (small_deref_at m' l' n it _ Hh' Hat El). eexists m', _, l'. split; [done|]. split; [done|]. by split.
  - rewrite emplace_insert. destruct (insert_spec m l (k, v) Hh) as (m' & l' & it & n & fresh & -> & Hh' & Hat & Hi). cbn [mbind outcome_bind]. destruct (inserted_map m l l' k v n fresh Hh Hi) as (HM & El & ->).
    rewrite (small_deref_at m' l' n it _ Hh' Hat El). eexists m', _, l'. split; [done|]. split; [done|]. by split.
  - destruct (small_insert_range m l xs Hh) as (m' & l' & -> & Hh' & HM). eexists m', _, l'. split; [done|]. split; [done|]. by split.
Qed.

Lemma filter_map m m' (l l' seen : table) p : holds m l → holds m' l' → seen ≡ₚ l → l' ≡ₚ List.filter (λ e, negb (p e)) seen →
  to_map l' = filter (λ e, p e = false) (to_map l).
Proof.
  intros [Hnd _] [Hnd' _] Hs Hl. apply map_eq. intros k. apply option_eq. intros v. rewrite map_lookup_filter_Some, <-!elem_of_list_to_map by done.
  rewrite Hl, !list_elem_of_In, List.filter_In, <-!list_elem_of_In, Hs, negb_true_iff. done.
Qed.

Lemma simulates_erase m l o : holds m l → match o with EraseKey _ | EraseAt _ | EraseIf _ | Clear => True | _ => False end → simulates m l o.
Proof.
  intros Hh Ho. unfold simulates. destruct o as [| | | | | |k|k|p| | | | | | | | |]; try done; cbn [perform].
  - unfold erase_key. destruct (find_or_end m l k Hh) as (it & stop & n & -> & Hat & Es & [[Em Eq]|(v & Em & El & Hn & Eq)]); cbn [mbind outcome_bind]; rewrite Es; cbn [mbind outcome_bind]; rewrite Eq.
    + eexists m, _, l. split; [done|]. split; [done|]. cbn. rewrite Em. split; [|done]. symmetry. by apply delete_id.
    + destruct (erase_spec m l n it Hh Hat Hn) as (m' & l' & it' & -> & Hh' & _ & He). eexists m', _, l'. split; [done|]. split; [done|]. cbn. rewrite Em. split; [|done]. by eapply erased_map.
  - destruct (find_or_end m l k Hh) as (it & stop & n & -> & Hat & Es & [[Em Eq]|(v & Em & El & Hn & Eq)]); cbn [mbind outcome_bind]; rewrite Es; cbn [mbind outcome_bind]; rewrite Eq.
    + eexists m, _, l. split; [done|]. split; [done|]. split; [|done]. symmetry. by apply delete_id.
    + destruct (erase_spec m l n it Hh Hat Hn) as (m' & l' & it' & -> & Hh' & _ & He). eexists m', _, l'. split; [done|]. split; [done|]. split; [|done]. by eapply erased_map.
  - destruct (begin_at m l Hh) as (b & -> & Hb). cbn [mbind outcome_bind]. rewrite (proj1 (size_spec m l Hh)). cbn [mbind outcome_bind]. rewrite Nat2Z.id.
    destruct (erase_if_spec p (length l) m l 0 b Hh Hb eq_refl) as (m' & l' & seen & -> & Hh' & Hs & Hl'). rewrite drop_0 in Hs. cbn in Hl'.
    eexists m', _, l'. split; [done|]. split; [done|]. split; [by eapply filter_map|]. eexists. split; [done|]. rewrite Hs. symmetry. apply map_to_list_to_map, Hh.
  - destruct (clear_spec m l Hh) as (m' & -> & Hh'). eexists m', _, []. split; [done|]. split; [done|]. by split.
Qed.

Lemma simulates_copy m l o : holds m l → match o with Copy | Assign _ | SelfAssign => True | _ => False end → simulates m l o.
Proof.
  intros Hh Ho. unfold simulates. destruct o as [| | | | | | | | | | | | | |xs| | |]; try done; cbn [perform].
  - unfold small_map_copy. destruct (init_from_spec (small_map_init kArraySize default_init) m l eq_refl Hh) as (c & l' & -> & Hh' & Hp). cbn [mbind outcome_bind].
    rewrite (destroy_spec m l Hh). eexists c, _, l'. split; [done|]. split; [done|]. split; [|done]. by apply (to_map_perm m).
  - destruct (small_insert_range (small_map_init kArraySize default_init) [] xs (raw_holds _)) as (src & ls & -> & Hs & HM). cbn [mbind outcome_bind].
    unfold assign. rewrite (destroy_spec m l Hh). cbn [mbind outcome_bind].
    destruct (init_from_spec (set_storage m (raw kArraySize)) src ls eq_refl Hs) as (m' & l' & -> & Hh' & Hp). cbn [mbind outcome_bind].
    rewrite (destroy_spec src ls Hs). eexists m', _, l'. split; [done|]. split; [done|]. split; [|done]. rewrite (to_map_perm src ls l') by done. rewrite HM. cbn. by rewrite map_empty_union.
  - eexists m, _, l. split; [done|]. split; [done|]. by split.
Qed.

Lemma simulates_all m l o : holds m l → simulates m l o.
Proof.
  intros Hh. destruct o; first [by apply simulates_lookup | by apply simulates_insert | by apply simulates_erase | by apply simulates_copy].
Qed.

Lemma run_spec ops m l : holds m l →
  ∃ m' rs l', perform_all m ops = Ret (m', rs) ∧ holds m' l' ∧ answers_all (to_map l) ops rs (to_map l').
Proof.
  revert m l. induction ops as [|o ops IH]; intros m l Hh; cbn [perform_all]; [exists m, [], l; split; [done|]; split; [done|constructor]|].
  destruct (simulates_all m l o Hh) as (m1 & r & l1 & -> & Hh1 & Ha). cbn [mbind outcome_bind].
  destruct (IH m1 l1 Hh1) as (m' & rs & l' & -> & Hh' & Has). exists m', (r :: rs), l'. split; [done|]. split; [done|]. by econstructor.
Qed.

(** C29: for every sequence of operations, from a new map on, the small map
    neither fails a check nor touches storage outside the lifetime of what it
    holds, and it answers as a finite map does: lookups, insertions that keep an
    element already there, assignments through [operator[]], removals by key and
    by iterator, counts, clearing, copies and assignments.  Walking it in either
    direction meets every element once, and so does a loop that erases as it
    goes.  When it is destroyed no object is left in its storage. *)
Theorem small_map_refines_map (ops : list op) :
  ∃ m rs M, perform_all (small_map_init kArraySize default_init) ops = Ret (m, rs) ∧ answers_all ∅ ops rs M ∧
    Destroy size_bits kArraySize trivially_destructible m = Ret (set_storage m (raw kArraySize)).
Proof.
  destruct (run_spec ops (small_map_init kArraySize default_init) [] (raw_holds _)) as (m & rs & l & E & Hh & Ha).
  exists m, rs, (to_map l). split; [done|]. split; [done|]. by apply (destroy_spec m l).
Qed.

End Contents.

(** ** An instance *)

(** A real map that keeps its nodes in the order they came. *)
#[local] Instance append_map : NormalMap Z Z.
Proof. refine {| place := λ l e, l ++ [e]; copy_nodes := λ l, l |}; [intros l e; by rewrite Permutation_app_comm|done]. Defined.

(** Integer keys and values, an array of two. *)
#[local] Abbreviation perform2 := (@perform_all Z Z append_map debug_build 64 2 Z.eqb 0 unit tt (λ _, []) false).
#[local] Abbreviation init2 := (@small_map_init Z Z 2 unit tt).

Lemma small_map_refines_map_witness :
  ∃ m rs M, perform2 init2 [SetIndex 5 50; Insert (7, 70); Insert (5, 1); Insert (9, 90); EraseIf (λ e, e.1 =? 7); Walk] = Ret (m, rs) ∧
    answers_all (K := Z) 0 ∅ [SetIndex 5 50; Insert (7, 70); Insert (5, 1); Insert (9, 90); EraseIf (λ e, e.1 =? 7); Walk] rs M ∧
    @Destroy Z Z 64 2 unit false m = Ret (set_storage m (raw 2)).
Proof.
  apply (@small_map_refines_map Z Z Z.eq_dec _ append_map debug_build 64 2 Z.eqb 0 unit tt (λ _, []) false).
  - intros j k. destruct (Z.eqb_spec j k); symmetry; [by apply bool_decide_true|by apply bool_decide_false].
  - done.
  - lia.
  - lia.
Defined.

(** [erase(end())] passes [CHECK_LE(i, size_)].  With two elements in an array of
    four the last one is moved past the end and lost; with a full array, or an
    empty map, the code leaves the array. *)
Example erase_end_not_caught :
  let array := λ l : list (Z * Z), @mkSmall Z Z unit (Z.of_nat (length l)) tt (Array (slots_of 4 l)) in
  let erase_end := λ l, it ← end_ 64 (array l); '(m, _) ← @erase Z Z 64 4 Z.eqb unit true (array l) it; e ← end_ 64 m; it ← find 64 4 Z.eqb m 2; Ret (size_ m, iter_eqb Z.eqb it e) in
  erase_end [(1, 10); (2, 20)] = Ret (1, true) ∧
  erase_end [] = Crash OutOfBounds ∧
  erase_end [(1, 10); (2, 20); (3, 30); (4, 40)] = Crash OutOfBounds.
Proof. vm_compute. repeat split. Qed.
