(* ===== verification/CallbackList.v ===== *)
(** * Callback lists

    Model of [src/include/base/callback_list.h]: lists of callbacks that can be
    notified while they are being notified, to which callbacks can be added and
    from which they can be cancelled at any time.  [once] selects
    [OnceCallbackList], whose callbacks leave the list when they are run, and
    otherwise the class is [RepeatingCallbackList].

    A callback is client code, so is the removal callback, and what they do is
    not part of the class.  The model is a machine whose events are the calls a
    client makes: registering and cancelling callbacks, starting a notification,
    returning from the callback that runs, and destroying the list.  A
    notification in progress is a frame with its loop iterator; frames nest as
    the calls of [Notify] do.  Nodes of the [std::list]s have addresses, so that
    an iterator stays with its node when it is spliced to the other list, and
    dangles when the node is erased. *)

From stdpp Require Import base sets list.
From S2P Require Import Prelude.

Record node := mkNode { addr : nat; is_null : bool }.

Record CallbackList := mkCallbacks {
  callbacks_ : list node;
  null_callbacks_ : list node;
  iterating_ : bool;
  removal_callback_ : bool;   (* whether one is set *)
  next_addr : nat             (* where the next node is allocated *)
}.

Definition CallbackList_init : CallbackList := mkCallbacks [] [] false false 0.

(** ** Linked lists *)

(** An iterator: a node, or [callbacks_.end()]. *)
Definition position := option nat.

Fixpoint nodes_from (l : list node) (a : nat) : list node :=
  match l with [] => [] | n :: rest => if Nat.eqb (addr n) a then l else nodes_from rest a end.

(** The node an iterator is at, in whichever list. *)
Definition node_at (s : CallbackList) (a : nat) : outcome node :=
  match nodes_from (callbacks_ s ++ null_callbacks_ s) a with n :: _ => Ret n | [] => Crash OutOfBounds end.

(** [++it]. *)
Definition next_of (s : CallbackList) (a : nat) : outcome position :=
  match nodes_from (callbacks_ s) a, nodes_from (null_callbacks_ s) a with
  | _ :: n :: _, _ => Ret (Some (addr n))
  | [_], _ => Ret None
  | [], _ :: n :: _ => Ret (Some (addr n))
  | [], _ => Crash OutOfBounds
  end.

Definition erase_node (l : list node) (a : nat) : list node := List.filter (λ n, negb (Nat.eqb (addr n) a)) l.

Definition first_valid (l : list node) : option node := List.find (λ n, negb (is_null n)) l.

(** [std::find_if_not(it, callbacks_.end(), is_null)].  From a node of the other
    list the search does not meet [callbacks_.end()]. *)
Definition next_valid (s : CallbackList) (it : position) : outcome position :=
  match it with
  | None => Ret None
  | Some a =>
    match nodes_from (callbacks_ s) a with
    | [] => n ← from_option_or OutOfBounds (first_valid (nodes_from (null_callbacks_ s) a)); Ret (Some (addr n))
    | l => Ret (addr <$> first_valid l)
    end
  end.

Section Class.
Context `{BuildMode} (once : bool).

(** ** The class *)

Definition set_callbacks (s : CallbackList) (l : list node) : CallbackList :=
  mkCallbacks l (null_callbacks_ s) (iterating_ s) (removal_callback_ s) (next_addr s).
Definition set_null_callbacks (s : CallbackList) (l : list node) : CallbackList :=
  mkCallbacks (callbacks_ s) l (iterating_ s) (removal_callback_ s) (next_addr s).
Definition set_iterating (s : CallbackList) (b : bool) : CallbackList :=
  mkCallbacks (callbacks_ s) (null_callbacks_ s) b (removal_callback_ s) (next_addr s).
Definition set_removal_callback (s : CallbackList) (b : bool) : CallbackList :=
  mkCallbacks (callbacks_ s) (null_callbacks_ s) (iterating_ s) b (next_addr s).

(** The list and the node of the callback, which the subscription keeps;
    [null] when the callback given is null. *)
Definition Add (s : CallbackList) (null : bool) : outcome (CallbackList * nat) :=
  _ ← RTC_DCHECK (negb null);
  Ret (mkCallbacks (callbacks_ s ++ [mkNode (next_addr s) null]) (null_callbacks_ s) (iterating_ s) (removal_callback_ s) (S (next_addr s)), next_addr s).

Definition AddUnsafe (s : CallbackList) (null : bool) : outcome CallbackList := '(s, _) ← Add s null; Ret s.

Definition empty (s : CallbackList) : bool := forallb is_null (callbacks_ s).

(** What [OnceCallbackList] does before the callback's own code runs: the node
    goes to the other list, and its callback is moved out of it. *)
Definition Once_RunCallback (s : CallbackList) (a : nat) : outcome CallbackList :=
  n ← node_at s a;
  match nodes_from (callbacks_ s) a with
  | [] => Crash OutOfBounds
  | _ => Ret (set_null_callbacks (set_callbacks s (erase_node (callbacks_ s) a)) (null_callbacks_ s ++ [mkNode a true]))
  end.

Definition Repeating_RunCallback (s : CallbackList) (a : nat) : outcome CallbackList := n ← node_at s a; Ret s.

Definition RunCallback (s : CallbackList) (a : nat) : outcome CallbackList :=
  if once then Once_RunCallback s a else Repeating_RunCallback s a.

Definition Once_CancelNullCallback (s : CallbackList) (a : nat) : outcome (CallbackList * bool) :=
  n ← node_at s a;
  if is_null n then
    match nodes_from (null_callbacks_ s) a with
    | [] => Crash OutOfBounds
    | _ => Ret (set_null_callbacks s (erase_node (null_callbacks_ s) a), true)
    end
  else Ret (s, false).

Definition Repeating_CancelNullCallback (s : CallbackList) (a : nat) : outcome (CallbackList * bool) :=
  n ← node_at s a; _ ← RTC_DCHECK (negb (is_null n)); Ret (s, false).

Definition CancelNullCallback (s : CallbackList) (a : nat) : outcome (CallbackList * bool) :=
  if once then Once_CancelNullCallback s a else Repeating_CancelNullCallback s a.

(** [it->Reset()]. *)
Definition reset_node (l : list node) (a : nat) : list node :=
  (λ n, if Nat.eqb (addr n) a then mkNode a true else n) <$> l.

(** The list, and whether the removal callback runs. *)
Definition CancelCallback (s : CallbackList) (a : nat) : outcome (CallbackList * bool) :=
  '(s, done) ← CancelNullCallback s a;
  if done : bool then Ret (s, false)
  else if iterating_ s then
    Ret (set_null_callbacks (set_callbacks s (reset_node (callbacks_ s) a)) (reset_node (null_callbacks_ s) a), false)
  else
    match nodes_from (callbacks_ s) a with
    | [] => Crash OutOfBounds
    | _ => Ret (set_callbacks s (erase_node (callbacks_ s) a), removal_callback_ s)
    end.

Definition Destroy (s : CallbackList) : outcome unit := RTC_CHECK (negb (iterating_ s)).

(** ** Notifications *)

(** A call of [Notify] whose loop is running: the loop's iterator, already moved
    past the callback that runs, and the value [AutoReset] restores. *)
Record frame := mkFrame { frame_it : position; frame_saved : bool }.

Inductive entry := Ran (a : nat) | Cancelled (a : nat) | Removal.

Record machine := mkMachine {
  the_list : CallbackList;
  alive : bool;
  frames : list frame;
  subscriptions : list nat;
  log : list entry
}.

Definition machine_init : machine := mkMachine CallbackList_init true [] [] [].

(** The end of [Notify], after the loop. *)
Definition finish (m : machine) (saved : bool) (outer : list frame) : machine :=
  let s := set_iterating (the_list m) saved in
  if iterating_ s then mkMachine s (alive m) outer (subscriptions m) (log m)
  else
    let erased_callbacks := length (List.filter is_null (callbacks_ s)) in
    let s := set_callbacks s (List.filter (λ n, negb (is_null n)) (callbacks_ s)) in
    mkMachine s (alive m) outer (subscriptions m)
      (if removal_callback_ s && (negb (Nat.eqb erased_callbacks 0) || once) then log m ++ [Removal] else log m).

(** One turn of the loop: the next callback is started, or the loop ends. *)
Definition turn (m : machine) (it : position) (saved : bool) (outer : list frame) : outcome machine :=
  it ← next_valid (the_list m) it;
  match it with
  | None => Ret (finish m saved outer)
  | Some a =>
    next ← next_of (the_list m) a;
    s ← RunCallback (the_list m) a;
    Ret (mkMachine s (alive m) (mkFrame next saved :: outer) (subscriptions m) (log m ++ [Ran a]))
  end.

Definition Notify (m : machine) : outcome machine :=
  let s := the_list m in
  if empty s then Ret m
  else
    let saved := iterating_ s in
    let m := mkMachine (set_iterating s true) (alive m) (frames m) (subscriptions m) (log m) in
    turn m (addr <$> head (callbacks_ s)) saved (frames m).

(** The callback that runs returns to its [Notify]. *)
Definition Return (m : machine) : outcome machine :=
  match frames m with
  | [] => Ret m
  | f :: outer => turn m (frame_it f) (frame_saved f) outer
  end.

(** ** Clients *)

Inductive event :=
| EAdd | EAddUnsafe | ECancel (a : nat) | ESetRemoval | ENotify | EReturn | EDestroy.

(** Whether a client can call now: a subscription is destroyed once, a callback
    returns when one runs, and nothing but a subscription, through its weak
    pointer, outlives the list.  A client that is not [reentrant] does not notify
    from within a callback. *)
Definition can_call (reentrant : bool) (m : machine) (e : event) : bool :=
  match e with
  | ECancel a => bool_decide (a ∈ subscriptions m)
  | EReturn => alive m && negb (Nat.eqb (length (frames m)) 0)
  | ENotify => alive m && (reentrant || Nat.eqb (length (frames m)) 0)
  | _ => alive m
  end.

Definition set_list (m : machine) (s : CallbackList) : machine := mkMachine s (alive m) (frames m) (subscriptions m) (log m).

(** Destroying a subscription: [weak_ptr] is null when the list is gone. *)
Definition Unsubscribe (m : machine) (a : nat) : outcome machine :=
  let m := mkMachine (the_list m) (alive m) (frames m) (List.filter (λ b, negb (Nat.eqb b a)) (subscriptions m)) (log m ++ [Cancelled a]) in
  if alive m then
    '(s, removal) ← CancelCallback (the_list m) a;
    Ret (mkMachine s (alive m) (frames m) (subscriptions m) (if removal : bool then log m ++ [Removal] else log m))
  else Ret m.

Definition perform (m : machine) (e : event) : outcome machine :=
  match e with
  | EAdd => '(s, a) ← Add (the_list m) false; Ret (mkMachine s (alive m) (frames m) (subscriptions m ++ [a]) (log m))
  | EAddUnsafe => s ← AddUnsafe (the_list m) false; Ret (set_list m s)
  | ECancel a => Unsubscribe m a
  | ESetRemoval => Ret (set_list m (set_removal_callback (the_list m) true))
  | ENotify => Notify m
  | EReturn => Return m
  | EDestroy => _ ← Destroy (the_list m); Ret (mkMachine (the_list m) false (frames m) (subscriptions m) (log m))
  end.

Definition step (reentrant : bool) (m : machine) (e : event) : outcome machine :=
  if can_call reentrant m e then perform m e else Ret m.

Fixpoint run (reentrant : bool) (m : machine) (es : list event) : outcome machine :=
  match es with [] => Ret m | e :: es => m ← step reentrant m e; run reentrant m es end.
End Class.

(** ** Nodes *)

#[local] Abbreviation addrs l := (addr <$> (l : list node)).

Lemma nodes_from_middle l1 n l2 : addr n ∉ addrs l1 → nodes_from (l1 ++ n :: l2) (addr n) = n :: l2.
Proof.
  induction l1 as [|k l1 IH]; cbn; intros Hn; [by rewrite Nat.eqb_refl|].
  rewrite (proj2 (Nat.eqb_neq _ _)) by set_solver. apply IH. set_solver.
Qed.

Lemma nodes_from_absent l a : a ∉ addrs l → nodes_from l a = [].
Proof. induction l as [|k l IH]; [done|]. cbn. intros Ha. rewrite (proj2 (Nat.eqb_neq _ _)) by set_solver. apply IH. set_solver. Qed.

Lemma split_node l a : a ∈ addrs l → ∃ l1 n l2, l = l1 ++ n :: l2 ∧ addr n = a ∧ a ∉ addrs l1.
Proof.
  induction l as [|k l IH]; cbn; intros Ha; [by apply not_elem_of_nil in Ha|].
  destruct (decide (addr k = a)) as [E|Hne]; [exists [], k, l; split; [done|]; split; [done|apply not_elem_of_nil]|].
  apply elem_of_cons in Ha as [|Ha]; [congruence|]. destruct (IH Ha) as (l1 & n & l2 & -> & En & Hn). exists (k :: l1), n, l2.
  split; [done|]. split; [done|]. cbn. set_solver.
Qed.

Lemma nodup_middle l1 n l2 : NoDup (addrs (l1 ++ n :: l2)) → (addr n ∉ addrs l1) ∧ addr n ∉ addrs l2.
Proof.
  rewrite fmap_app. intros Hnd. apply list.NoDup_app in Hnd as (_ & Hd & Hnd). apply list.NoDup_cons in Hnd as [Hn _].
  split; [|done]. intros Hin. apply (Hd _ Hin). left.
Qed.

Lemma erase_node_middle l1 n l2 : NoDup (addrs (l1 ++ n :: l2)) → erase_node (l1 ++ n :: l2) (addr n) = l1 ++ l2.
Proof.
  intros Hnd. destruct (nodup_middle _ _ _ Hnd) as [H1 H2]. assert (∀ l, addr n ∉ addrs l → erase_node l (addr n) = l) as Hf.
  { induction l as [|k l IH]; [done|]. cbn. intros Hk. rewrite (proj2 (Nat.eqb_neq _ _)) by set_solver. cbn. f_equal. apply IH. set_solver. }
  unfold erase_node in *. rewrite List.filter_app. cbn. rewrite Nat.eqb_refl. cbn. by rewrite !Hf.
Qed.

Lemma elem_addr n (l : list node) : n ∈ l → addr n ∈ addrs l.
Proof. intros Hn. by apply list_elem_of_fmap_2. Qed.

Lemma same_node (l : list node) n n' : NoDup (addrs l) → n ∈ l → n' ∈ l → addr n = addr n' → n = n'.
Proof.
  intros Hnd Hn Hn' E. apply list_elem_of_lookup in Hn as [i Hi]. apply list_elem_of_lookup in Hn' as [j Hj].
  assert (i = j) as ->; [|congruence]. apply (NoDup_lookup (addrs l) i j (addr n) Hnd); rewrite list_lookup_fmap; [by rewrite Hi|by rewrite Hj, E].
Qed.

Lemma reset_addrs l a : addrs (reset_node l a) = addrs l.
Proof. unfold reset_node. rewrite <-list_fmap_compose. apply list_fmap_ext. intros _ n _. cbn. by destruct (Nat.eqb_spec (addr n) a). Qed.

Lemma reset_other l a n : addr n ≠ a → n ∈ reset_node l a ↔ n ∈ l.
Proof.
  intros Hn. unfold reset_node. rewrite list_elem_of_fmap. split.
  - intros (k & -> & Hk). destruct (Nat.eqb_spec (addr k) a); [done|done].
  - intros Hin. exists n. by rewrite (proj2 (Nat.eqb_neq _ _)).
Qed.

Lemma first_valid_some l n : first_valid l = Some n → ∃ l1 l2, l = l1 ++ n :: l2 ∧ is_null n = false ∧ Forall (λ k, is_null k = true) l1.
Proof.
  induction l as [|k l IH]; [done|]. cbn. destruct (is_null k) eqn:Hk; cbn.
  - intros E. destruct (IH E) as (l1 & l2 & -> & Hn & Hf). exists (k :: l1), l2. split; [done|]. split; [done|]. by constructor.
  - intros [= <-]. exists [], l. by repeat split.
Qed.

Lemma first_valid_none l : first_valid l = None → Forall (λ k, is_null k = true) l.
Proof. induction l as [|k l IH]; [by constructor|]. cbn. destruct (is_null k) eqn:Hk; [|done]. cbn. intros E. constructor; [done|by apply IH]. Qed.

Lemma kept_sublist (p : node → bool) l : sublist (List.filter p l) l.
Proof. induction l as [|n l IH]; [done|]. cbn. destruct (p n); by constructor. Qed.

Lemma sublist_elem {A} (l l' : list A) x : sublist l l' → x ∈ l → x ∈ l'.
Proof. intros Hs. induction Hs; set_solver. Qed.

(** ** The invariant *)

Section Invariant.
Context `{BuildMode} (once : bool).

Definition valid_it (s : CallbackList) (f : frame) : Prop :=
  match frame_it f with Some a => a ∈ addrs (callbacks_ s) | None => True end.

(** [AutoReset] restores false in the outermost call and true in the others. *)
Fixpoint nested (fs : list frame) : Prop :=
  match fs with [] => True | f :: outer => frame_saved f = negb (Nat.eqb (length outer) 0) ∧ nested outer end.

Record good (s : CallbackList) (fs : list frame) (subs : list nat) : Prop := {
  good_nodup : NoDup (addrs (callbacks_ s ++ null_callbacks_ s));
  good_fresh : ∀ a, a ∈ addrs (callbacks_ s ++ null_callbacks_ s) → (a < next_addr s)%nat;
  good_nulls : ∀ n, n ∈ null_callbacks_ s → is_null n = true;
  good_repeating : once = false → null_callbacks_ s = [];
  good_subs : ∀ a, a ∈ subs → mkNode a false ∈ callbacks_ s ∨ (once = true ∧ mkNode a true ∈ null_callbacks_ s);
  good_iterating : iterating_ s = negb (Nat.eqb (length fs) 0);
  good_nested : nested fs;
  good_clean : fs = [] → ∀ n, n ∈ callbacks_ s → is_null n = false;
  good_its : Forall (valid_it s) fs;
  good_single : once = true → (length fs ≤ 1)%nat
}.

Definition inv (m : machine) : Prop :=
  if alive m then good (the_list m) (frames m) (subscriptions m) else frames m = [].

Lemma good_nodup_l s fs subs : good s fs subs → NoDup (addrs (callbacks_ s)).
Proof. intros Hg. pose proof (good_nodup _ _ _ Hg) as Hnd. rewrite fmap_app in Hnd. by apply list.NoDup_app in Hnd as (? & _). Qed.

Lemma good_apart s fs subs a : good s fs subs → a ∈ addrs (callbacks_ s) → a ∉ addrs (null_callbacks_ s).
Proof. intros Hg. pose proof (good_nodup _ _ _ Hg) as Hnd. rewrite fmap_app in Hnd. apply list.NoDup_app in Hnd as (_ & Hd & _). apply Hd. Qed.

Lemma node_at_callbacks s l1 n l2 : callbacks_ s = l1 ++ n :: l2 → addr n ∉ addrs l1 → node_at s (addr n) = Ret n.
Proof. intros E Hn. unfold node_at. rewrite E, <-app_assoc. cbn [app]. by rewrite nodes_from_middle. Qed.

(** *** The end of a notification *)

Lemma finish_good m it saved outer : alive m = true → good (the_list m) (mkFrame it saved :: outer) (subscriptions m) →
  inv (finish once m saved outer).
Proof.
  intros Ha Hg. pose proof (good_nested _ _ _ Hg) as [Hs Hn]. cbn in Hs. unfold inv, finish. cbn [iterating_ set_iterating]. rewrite Hs.
  destruct Hg as [Hnd Hf Hnull Hrep Hsub Hit _ Hcl Hits Hsg]. destruct outer as [|f outer]; cbn [length Nat.eqb negb].
  - cbn [alive the_list frames subscriptions]. rewrite Ha.
    assert (∀ n, n ∈ List.filter (λ n, negb (is_null n)) (callbacks_ (the_list m)) ↔ is_null n = false ∧ n ∈ callbacks_ (the_list m)) as Hin.
    { intros n. rewrite !list_elem_of_In, List.filter_In, negb_true_iff. tauto. }
    split; cbn -[addr]; try done; try (by constructor); try (intros; lia).
    + eapply sublist_NoDup; [exact Hnd|]. apply fmap_sublist, sublist_app; [apply kept_sublist|done].
    + intros a Ha'. apply Hf. eapply sublist_elem; [|exact Ha']. apply fmap_sublist, sublist_app; [apply kept_sublist|done].
    + intros a Ha'. destruct (Hsub a Ha') as [?|?]; [left; by apply Hin|by right].
    + intros _ n Hn'. by apply Hin.
  - cbn [alive the_list frames subscriptions]. rewrite Ha. apply Forall_inv_tail in Hits.
    split; cbn -[addr]; try done. intros Ho. specialize (Hsg Ho). cbn in Hsg. lia.
Qed.

(** *** A turn of the loop *)

(** The nodes a loop has before it. *)
Definition pending (s : CallbackList) (it : position) : list node :=
  match it with Some a => nodes_from (callbacks_ s) a | None => [] end.

Lemma pending_split s it : match it with Some a => a ∈ addrs (callbacks_ s) | None => True end →
  ∃ l1, callbacks_ s = l1 ++ pending s it ∧ next_valid s it = Ret (addr <$> first_valid (pending s it)).
Proof.
  destruct it as [a|]; cbn; [|intros _; exists (callbacks_ s); by rewrite app_nil_r]. intros Ha. destruct (split_node _ _ Ha) as (l1 & n & l2 & -> & <- & Hn).
  rewrite nodes_from_middle by done. by exists l1.
Qed.

Lemma next_of_middle s l1 n l2 : callbacks_ s = l1 ++ n :: l2 → addr n ∉ addrs l1 → next_of s (addr n) = Ret (addr <$> head l2).
Proof. intros E Hn. unfold next_of. rewrite E, nodes_from_middle by done. by destruct l2. Qed.

(** What starting a callback makes of the list: a callback run once leaves it. *)
Definition started (s : CallbackList) (l1 : list node) (n : node) (l2 : list node) : CallbackList :=
  if once then set_null_callbacks (set_callbacks s (l1 ++ l2)) (null_callbacks_ s ++ [mkNode (addr n) true]) else s.

Lemma RunCallback_middle s l1 n l2 : callbacks_ s = l1 ++ n :: l2 → NoDup (addrs (callbacks_ s)) →
  RunCallback once s (addr n) = Ret (started s l1 n l2).
Proof.
  intros E Hnd. rewrite E in Hnd. destruct (nodup_middle _ _ _ Hnd) as [H1 _]. unfold RunCallback, Once_RunCallback, Repeating_RunCallback, started.
  rewrite (node_at_callbacks s l1 n l2) by done. cbn. destruct once; [|done]. rewrite E, nodes_from_middle, erase_node_middle by done. done.
Qed.

Lemma head_valid s l1 l2 saved : callbacks_ s = l1 ++ l2 → valid_it s (mkFrame (addr <$> head l2) saved).
Proof. intros E. unfold valid_it. cbn. destruct l2 as [|n l2]; [done|]. cbn. rewrite E. apply elem_addr. set_solver. Qed.

Lemma pending_head s l1 l2 : callbacks_ s = l1 ++ l2 → NoDup (addrs (callbacks_ s)) → pending s (addr <$> head l2) = l2.
Proof. intros E Hnd. destruct l2 as [|n l2]; [done|]. cbn. rewrite E in *. apply nodes_from_middle. by destruct (nodup_middle _ _ _ Hnd). Qed.

Lemma started_good s l1 n l2 it saved outer subs : callbacks_ s = l1 ++ n :: l2 → is_null n = false →
  good s (mkFrame it saved :: outer) subs → good (started s l1 n l2) (mkFrame (addr <$> head l2) saved :: outer) subs.
Proof.
  intros E Hn Hg. assert (Forall (valid_it s) outer) as Ho by (eapply Forall_inv_tail, good_its, Hg). unfold started. destruct once eqn:Eonce.
  - destruct Hg as [Hnd Hf Hnull Hrep Hsub Hit Hnest Hcl Hits Hsg].
    assert (addrs ((l1 ++ l2) ++ null_callbacks_ s ++ [mkNode (addr n) true]) ≡ₚ addrs (callbacks_ s ++ null_callbacks_ s)) as Hp.
    { rewrite E, !fmap_app, <-!app_assoc. cbn. apply Permutation_app_head. by rewrite app_assoc, (Permutation_app_comm _ [_]). }
    assert (outer = []) as -> by (specialize (Hsg Eonce); destruct outer; [done|cbn in Hsg; lia]).
    split; cbn [callbacks_ null_callbacks_ set_null_callbacks set_callbacks iterating_ next_addr]; try done.
    + by rewrite Hp.
    + intros a. by rewrite Hp; apply Hf.
    + intros k. rewrite elem_of_app, list_elem_of_singleton. intros [?| ->]; [by apply Hnull|done].
    + congruence.
    + intros a Ha. destruct (Hsub a Ha) as [Hin|[_ Hin]]; [|right; split; [done|set_solver]]. rewrite E in Hin.
      apply elem_of_app in Hin as [Hin|Hin]; [left; set_solver|]. apply elem_of_cons in Hin as [<-|Hin]; [right|left; set_solver]. split; [done|]. set_solver.
    + constructor; [|constructor]. by eapply head_valid.
  - destruct Hg as [Hnd Hf Hnull Hrep Hsub Hit Hnest Hcl Hits Hsg]. split; try done. constructor; [|done]. apply (head_valid s (l1 ++ [n])). by rewrite <-app_assoc.
Qed.

Lemma turn_spec m it saved outer : alive m = true → good (the_list m) (mkFrame it saved :: outer) (subscriptions m) →
  (turn once m it saved outer = Ret (finish once m saved outer) ∧ Forall (λ n, is_null n = true) (pending (the_list m) it)) ∨
  (∃ l1 n l2 s', pending (the_list m) it = l1 ++ n :: l2 ∧ Forall (λ k, is_null k = true) l1 ∧ is_null n = false ∧ n ∈ callbacks_ (the_list m) ∧
     turn once m it saved outer = Ret (mkMachine s' (alive m) (mkFrame (addr <$> head l2) saved :: outer) (subscriptions m) (log m ++ [Ran (addr n)])) ∧
     good s' (mkFrame (addr <$> head l2) saved :: outer) (subscriptions m) ∧ pending s' (addr <$> head l2) = l2 ∧
     (∃ l0, callbacks_ (the_list m) = l0 ++ n :: l2 ∧ s' = started (the_list m) l0 n l2)).
Proof.
  intros Ha Hg. pose proof (Forall_inv (good_its _ _ _ Hg)) as Hv. destruct (pending_split (the_list m) it Hv) as (l0 & E & En).
  unfold turn. rewrite En. cbn [mbind outcome_bind]. destruct (first_valid _) as [n|] eqn:Ef; cbn [fmap option_fmap option_map].
  - right. apply first_valid_some in Ef as (l1 & l2 & Ep & Hn & Hl1). rewrite Ep, app_assoc in E.
    pose proof (good_nodup_l _ _ _ Hg) as Hnd. assert (addr n ∉ addrs (l0 ++ l1)) as Hn1 by (rewrite E in Hnd; by destruct (nodup_middle _ _ _ Hnd)).
    rewrite (next_of_middle _ _ _ _ E Hn1). cbn [mbind outcome_bind]. rewrite (RunCallback_middle _ _ _ _ E Hnd). cbn [mbind outcome_bind].
    exists l1, n, l2, (started (the_list m) (l0 ++ l1) n l2). pose proof (started_good _ _ _ _ it saved outer _ E Hn Hg) as Hg'.
    split; [done|]. split; [done|]. split; [done|]. split; [rewrite E; set_solver|]. split; [done|]. split; [done|]. split; [|by eexists].
    assert (∃ l, callbacks_ (started (the_list m) (l0 ++ l1) n l2) = l ++ l2) as [l El].
    { unfold started. destruct once; [by eexists|]. exists ((l0 ++ l1) ++ [n]). by rewrite <-app_assoc. }
    by eapply pending_head, good_nodup_l.
  - left. split; [done|]. by apply first_valid_none.
Qed.

(** *** Registering and cancelling *)

(** The list with a node added. *)
Definition added (s : CallbackList) : CallbackList :=
  mkCallbacks (callbacks_ s ++ [mkNode (next_addr s) false]) (null_callbacks_ s) (iterating_ s) (removal_callback_ s) (S (next_addr s)).

Lemma Add_eq s : Add s false = Ret (added s, next_addr s).
Proof. unfold Add. by pass. Qed.

Lemma added_good s fs subs : good s fs subs → good (added s) fs subs ∧ good (added s) fs (subs ++ [next_addr s]).
Proof.
  intros Hg. cut (good (added s) fs (subs ++ [next_addr s])).
  { intros Hg'. split; [|done]. destruct Hg'. split; try done. intros a Ha. apply good_subs0. set_solver. }
  destruct Hg as [Hnd Hf Hnull Hrep Hsub Hit Hnest Hcl Hits Hsg].
  assert (addrs (callbacks_ (added s) ++ null_callbacks_ s) ≡ₚ next_addr s :: addrs (callbacks_ s ++ null_callbacks_ s)) as Hp.
  { cbn [callbacks_ added]. rewrite (Permutation_app_comm (callbacks_ s)). done. }
  split; try done; cbn [null_callbacks_ added next_addr].
  - rewrite Hp. apply list.NoDup_cons. split; [|done]. intros Hin. apply Hf in Hin. lia.
  - intros a. rewrite Hp, elem_of_cons. intros [->|Ha]; [lia|]. apply Hf in Ha. lia.
  - intros a. rewrite elem_of_app, list_elem_of_singleton. cbn [callbacks_ added]. intros [Ha| ->]; [|left; set_solver].
    destruct (Hsub a Ha) as [?|?]; [left; set_solver|by right].
  - intros E n. cbn [callbacks_ added]. rewrite elem_of_app, list_elem_of_singleton. intros [?| ->]; [by apply Hcl|done].
  - eapply List.Forall_impl; [|exact Hits]. intros f. unfold valid_it. cbn [callbacks_ added]. destruct (frame_it f); [|done]. rewrite fmap_app. set_solver.
Qed.

Lemma pending_added s it : match it with Some a => a ∈ addrs (callbacks_ s) | None => True end → ∀ n, n ∈ pending s it → n ∈ pending (added s) it.
Proof.
  destruct it as [a|]; [|done]. cbn. intros Ha n. destruct (split_node _ _ Ha) as (l1 & k & l2 & -> & <- & Hk).
  rewrite <-app_assoc. cbn [app]. rewrite !nodes_from_middle by done. set_solver.
Qed.

Lemma reset_good s fs subs a : good s fs subs → fs ≠ [] → mkNode a false ∈ callbacks_ s →
  good (set_null_callbacks (set_callbacks s (reset_node (callbacks_ s) a)) (reset_node (null_callbacks_ s) a)) fs (List.filter (λ b, negb (Nat.eqb b a)) subs).
Proof.
  intros [Hnd Hf Hnull Hrep Hsub Hit Hnest Hcl Hits Hsg] Hfs Ha. split; cbn [callbacks_ null_callbacks_ set_null_callbacks set_callbacks iterating_ next_addr]; try done.
  - by rewrite fmap_app, !reset_addrs, <-fmap_app.
  - intros b. rewrite fmap_app, !reset_addrs, <-fmap_app. apply Hf.
  - intros n Hn. unfold reset_node in Hn. apply list_elem_of_fmap in Hn as (k & -> & Hk). destruct (Nat.eqb (addr k) a); [done|by apply Hnull].
  - intros Ho. by rewrite Hrep.
  - intros b Hb. rewrite list_elem_of_In, List.filter_In, <-list_elem_of_In, negb_true_iff, Nat.eqb_neq in Hb. destruct Hb as [Hb Hne].
    rewrite !reset_other by done. by apply Hsub.
  - eapply List.Forall_impl; [|exact Hits]. intros f. unfold valid_it. cbn [callbacks_ set_null_callbacks set_callbacks]. by rewrite reset_addrs.
Qed.

Lemma erase_good s subs a : good s [] subs → mkNode a false ∈ callbacks_ s →
  good (set_callbacks s (erase_node (callbacks_ s) a)) [] (List.filter (λ b, negb (Nat.eqb b a)) subs).
Proof.
  intros [Hnd Hf Hnull Hrep Hsub Hit Hnest Hcl Hits Hsg] Ha.
  assert (∀ n, n ∈ erase_node (callbacks_ s) a ↔ addr n ≠ a ∧ n ∈ callbacks_ s) as Hin.
  { intros n. unfold erase_node. rewrite !list_elem_of_In, List.filter_In, negb_true_iff, Nat.eqb_neq. tauto. }
  split; cbn [callbacks_ null_callbacks_ set_callbacks iterating_ next_addr]; try done.
  - eapply sublist_NoDup; [exact Hnd|]. apply fmap_sublist, sublist_app; [apply kept_sublist|done].
  - intros b Hb. apply Hf. eapply sublist_elem; [|exact Hb]. apply fmap_sublist, sublist_app; [apply kept_sublist|done].
  - intros b Hb. rewrite list_elem_of_In, List.filter_In, <-list_elem_of_In, negb_true_iff, Nat.eqb_neq in Hb. destruct Hb as [Hb Hne].
    destruct (Hsub b Hb) as [?|?]; [left; by apply Hin|by right].
  - intros _ n Hn. apply Hcl; [done|]. by apply Hin in Hn as [_ ?].
Qed.

Lemma erase_null_good s fs subs a : good s fs subs → once = true → mkNode a true ∈ null_callbacks_ s →
  good (set_null_callbacks s (erase_node (null_callbacks_ s) a)) fs (List.filter (λ b, negb (Nat.eqb b a)) subs).
Proof.
  intros [Hnd Hf Hnull Hrep Hsub Hit Hnest Hcl Hits Hsg] Ho Ha.
  assert (∀ n, n ∈ erase_node (null_callbacks_ s) a ↔ addr n ≠ a ∧ n ∈ null_callbacks_ s) as Hin.
  { intros n. unfold erase_node. rewrite !list_elem_of_In, List.filter_In, negb_true_iff, Nat.eqb_neq. tauto. }
  split; cbn [callbacks_ null_callbacks_ set_null_callbacks iterating_ next_addr]; try done.
  - eapply sublist_NoDup; [exact Hnd|]. apply fmap_sublist, sublist_app; [done|apply kept_sublist].
  - intros b Hb. apply Hf. eapply sublist_elem; [|exact Hb]. apply fmap_sublist, sublist_app; [done|apply kept_sublist].
  - intros n Hn. apply Hnull. by apply Hin in Hn as [_ ?].
  - congruence.
  - intros b Hb. rewrite list_elem_of_In, List.filter_In, <-list_elem_of_In, negb_true_iff, Nat.eqb_neq in Hb. destruct Hb as [Hb Hne].
    destruct (Hsub b Hb) as [?|[? ?]]; [by left|right; split; [done|]; by apply Hin].
Qed.

Lemma reset_nodes_from l a b : nodes_from (reset_node l a) b = reset_node (nodes_from l b) a.
Proof.
  unfold reset_node. set (f := λ n, _). assert (∀ n, addr (f n) = addr n) as Hf by (intros n; unfold f; by destruct (Nat.eqb_spec (addr n) a)).
  clearbody f. induction l as [|n l IH]; [done|]. cbn. rewrite Hf. by destruct (Nat.eqb (addr n) b).
Qed.

Lemma nodes_from_app l l' a : a ∉ addrs l → nodes_from (l ++ l') a = nodes_from l' a.
Proof. induction l as [|n l IH]; [done|]. cbn. intros Ha. rewrite (proj2 (Nat.eqb_neq _ _)) by set_solver. apply IH. set_solver. Qed.

Lemma cancel_spec s fs subs a : good s fs subs → a ∈ subs →
  ∃ s' r, CancelCallback once s a = Ret (s', r) ∧ good s' fs (List.filter (λ b, negb (Nat.eqb b a)) subs) ∧
    next_addr s' = next_addr s ∧ (mkNode a false ∉ callbacks_ s') ∧ (∀ n, addr n ≠ a → n ∈ callbacks_ s' → n ∈ callbacks_ s) ∧
    (fs ≠ [] → ∀ it n, addr n ≠ a → n ∈ pending s it → n ∈ pending s' it).
Proof.
  intros Hg Ha. destruct (good_subs _ _ _ Hg a Ha) as [Hin|[Ho Hin]].
  - destruct (list_elem_of_split _ _ Hin) as (l1 & l2 & E). pose proof (good_nodup_l _ _ _ Hg) as Hnd. pose proof Hnd as Hnd'. rewrite E in Hnd'.
    destruct (nodup_middle _ _ _ Hnd') as [Hn1 Hn2]. cbn in Hn1, Hn2.
    assert (CancelNullCallback once s a = Ret (s, false)) as Ec.
    { unfold CancelNullCallback, Once_CancelNullCallback, Repeating_CancelNullCallback. pose proof (node_at_callbacks s l1 (mkNode a false) l2 E Hn1) as Ea. cbn [addr] in Ea. rewrite Ea. cbn [mbind outcome_bind is_null]. destruct once; [done|]. by pass. }
    unfold CancelCallback. rewrite Ec. cbn [mbind outcome_bind]. rewrite (good_iterating _ _ _ Hg). destruct fs as [|f fs]; cbn [length Nat.eqb negb].
    + assert (nodes_from (callbacks_ s) a = mkNode a false :: l2) as -> by (rewrite E; exact (nodes_from_middle l1 (mkNode a false) l2 Hn1)).
      eexists _, _. split; [done|]. split; [by apply erase_good|]. split; [done|]. cbn [callbacks_ set_callbacks].
      pose proof (erase_node_middle l1 (mkNode a false) l2 Hnd') as Ee. cbn [addr] in Ee. rewrite E, Ee. split; [|split; [|done]].
      * intros Hin'. apply elem_addr in Hin'. cbn in Hin'. rewrite fmap_app in Hin'. set_solver.
      * intros n _. set_solver.
    + eexists _, _. split; [done|]. split; [by apply reset_good|]. split; [done|]. cbn [callbacks_ set_null_callbacks set_callbacks]. split; [|split].
      * unfold reset_node. rewrite list_elem_of_fmap. intros (k & Hk & _). destruct (Nat.eqb_spec (addr k) a) as [|Hne]; [done|]. subst. by apply Hne.
      * intros n Hn. by apply reset_other.
      * intros _ it n Hn. unfold pending. destruct it as [b|]; [|done]. cbn [callbacks_ set_null_callbacks set_callbacks]. rewrite reset_nodes_from. by apply reset_other.
  - assert (a ∉ addrs (callbacks_ s)) as Hout.
    { intros Hin'. apply (good_apart _ _ _ _ Hg Hin'). by apply (elem_addr (mkNode a true)). }
    destruct (list_elem_of_split _ _ Hin) as (l1 & l2 & E).
    assert (nodes_from (null_callbacks_ s) a = mkNode a true :: l2) as En.
    { pose proof (good_nodup _ _ _ Hg) as Hnd. rewrite fmap_app in Hnd. apply list.NoDup_app in Hnd as (_ & _ & Hnd). rewrite E in *.
      apply (nodes_from_middle l1 (mkNode a true) l2). by destruct (nodup_middle _ _ _ Hnd). }
    unfold CancelCallback, CancelNullCallback, Once_CancelNullCallback, node_at. rewrite Ho, nodes_from_app, En by done. cbn.
    eexists _, _. split; [done|]. split; [by apply erase_null_good|]. split; [done|]. cbn. split; [|done].
    intros Hin'. by apply (elem_addr (mkNode a false)) in Hin'.
Qed.

(** *** Starting a notification *)

Lemma begin_good s fs subs : good s fs subs → (once = true → fs = []) →
  good (set_iterating s true) (mkFrame (addr <$> head (callbacks_ s)) (iterating_ s) :: fs) subs.
Proof.
  intros [Hnd Hf Hnull Hrep Hsub Hit Hnest Hcl Hits Hsg] Ho. split; cbn [callbacks_ null_callbacks_ set_iterating iterating_ next_addr]; try done.
  - constructor; [by apply (head_valid _ [])|done].
  - intros E. by rewrite (Ho E).
Qed.

Definition disciplined (reentrant : bool) : Prop := once = false ∨ reentrant = false.

(** ** What a step can be *)

(** The effect of a call on the list, the frames and the log. *)
Inductive effect (m : machine) : machine → Prop :=
| effect_none : effect m m
| effect_removal b : effect m (set_list m (set_removal_callback (the_list m) b))
| effect_add subs : alive m = true → good (added (the_list m)) (frames m) subs →
    effect m (mkMachine (added (the_list m)) true (frames m) subs (log m))
| effect_cancel a s' subs tail : alive m = true → a ∈ subscriptions m → good s' (frames m) subs → next_addr s' = next_addr (the_list m) →
    (mkNode a false ∉ callbacks_ s') → (∀ n, addr n ≠ a → n ∈ callbacks_ s' → n ∈ callbacks_ (the_list m)) →
    (frames m ≠ [] → ∀ it n, addr n ≠ a → n ∈ pending (the_list m) it → n ∈ pending s' it) → (tail = [] ∨ tail = [Removal]) →
    effect m (mkMachine s' true (frames m) subs (log m ++ Cancelled a :: tail))
| effect_dead m' : (alive m = false ∨ frames m = []) → alive m' = false → frames m' = [] → (log m' = log m ∨ ∃ a, log m' = log m ++ [Cancelled a]) → effect m m'
| effect_turn it saved outer : alive m = true → (frames m = mkFrame it saved :: outer ∨ (frames m = outer ∧ it = (addr <$> head (callbacks_ (the_list m))))) →
    good (set_iterating (the_list m) true) (mkFrame it saved :: outer) (subscriptions m) →
    ∀ m', turn once (set_list m (set_iterating (the_list m) true)) it saved outer = Ret m' → inv m' → effect m m'.

Lemma turn_inv m it saved outer : alive m = true → good (the_list m) (mkFrame it saved :: outer) (subscriptions m) →
  ∃ m', turn once m it saved outer = Ret m' ∧ inv m'.
Proof.
  intros Ha Hg. destruct (turn_spec m it saved outer Ha Hg) as [[-> _]|(l1 & n & l2 & s' & _ & _ & _ & _ & -> & Hg' & _)].
  - eexists. split; [done|]. by eapply finish_good.
  - eexists. split; [done|]. unfold inv. cbn. by rewrite Ha.
Qed.

Lemma iterating_same s : iterating_ s = true → set_iterating s true = s.
Proof. destruct s. cbn. by intros ->. Qed.

Lemma effect_inv m m' : inv m → effect m m' → inv m'.
Proof.
  intros Hi He. unfold inv in *. destruct He as [|b|subs Ha Hg|a s' subs tail Ha _ Hg _ _ _ _ _|m' _ Ha' Hf' _|it saved outer _ _ _ m' _ Hi']; cbn; try done.
  - destruct (alive m); [|done]. by destruct Hi.
  - by rewrite Ha'.
Qed.

Lemma step_effect reentrant m e : disciplined reentrant → inv m →
  (∃ m', step once reentrant m e = Ret m' ∧ effect m m') ∨
  (e = EDestroy ∧ frames m ≠ [] ∧ step once reentrant m e = Crash CheckFailed).
Proof.
  intros Hd Hi. unfold step. destruct (can_call reentrant m e) eqn:Hc; [|left; eexists; split; [done|constructor]]. unfold inv in Hi.
  destruct e as [| |a| | | |]; cbn [can_call perform] in *.
  - left. rewrite Hc in Hi. rewrite Add_eq. eexists. split; [done|]. rewrite Hc. constructor; [done|]. by apply added_good.
  - left. rewrite Hc in Hi. unfold AddUnsafe. rewrite Add_eq. eexists. split; [done|]. unfold set_list. rewrite Hc. constructor; [done|]. by apply added_good.
  - left. apply bool_decide_eq_true in Hc. unfold Unsubscribe. cbn [alive the_list frames subscriptions log]. destruct (alive m) eqn:Ha.
    + destruct (cancel_spec _ _ _ a Hi Hc) as (s' & r & -> & Hg & Hna & Hno & Hother & Hp). cbn [mbind outcome_bind]. eexists. split; [done|].
      replace (if r then (log m ++ [Cancelled a]) ++ [Removal] else log m ++ [Cancelled a]) with (log m ++ Cancelled a :: (if r then [Removal] else []))
        by (destruct r; by rewrite <-?app_assoc). eapply effect_cancel; try done. destruct r; [by right|by left].
    + eexists. split; [done|]. apply effect_dead; cbn; [by left|done|done|]. right. by exists a.
  - left. eexists. split; [done|]. constructor.
  - left. apply andb_true_iff in Hc as [Ha Hc]. rewrite Ha in Hi. unfold Notify. destruct (empty _); [eexists; split; [done|constructor]|].
    pose proof (begin_good _ _ _ Hi) as Hg. destruct (turn_inv (set_list m (set_iterating (the_list m) true)) (addr <$> head (callbacks_ (the_list m))) (iterating_ (the_list m)) (frames m)) as (m' & E & Hi').
    { done. } { apply Hg. intros Ho. destruct Hd as [|Hd]; [congruence|]. rewrite Hd in Hc. cbn in Hc. by destruct (frames m). }
    exists m'. split; [exact E|]. eapply effect_turn; [done|by right| |exact E|done].
    apply Hg. intros Ho. destruct Hd as [|Hd]; [congruence|]. rewrite Hd in Hc. cbn in Hc. by destruct (frames m).
  - left. apply andb_true_iff in Hc as [Ha Hc]. rewrite Ha in Hi. unfold Return. destruct (frames m) as [|[it saved] outer] eqn:Ef; [done|]. cbn [frame_it frame_saved].
    assert (set_list m (set_iterating (the_list m) true) = m) as Em.
    { rewrite iterating_same by (rewrite (good_iterating _ _ _ Hi); done). by destruct m. }
    destruct (turn_inv m it saved outer Ha Hi) as (m' & E & Hi'). exists m'. split; [done|]. eapply (effect_turn _ it saved outer); [done|by left| | |done].
    + rewrite iterating_same; [done|]. by rewrite (good_iterating _ _ _ Hi).
    + by rewrite Em.
  - rewrite Hc in Hi. unfold Destroy. rewrite (good_iterating _ _ _ Hi). destruct (frames m) as [|f fs] eqn:Ef; cbn.
    + left. eexists. split; [done|]. apply effect_dead; cbn; [by right|done|done|by left].
    + right. done.
Qed.

Lemma callbacks_init_inv : inv machine_init.
Proof. unfold inv. cbn. split; cbn; try done; try (intros; lia); try (by constructor); set_solver. Qed.

Lemma run_preserves (P : machine → Prop) reentrant es m m' : disciplined reentrant → (∀ m m', inv m → P m → effect m m' → P m') →
  inv m → P m → run once reentrant m es = Ret m' → inv m' ∧ P m'.
Proof.
  intros Hd HP. revert m. induction es as [|e es IH]; intros m Hi Hm; cbn [run]; [by intros [= <-]|].
  destruct (step_effect reentrant m e Hd Hi) as [(m1 & -> & He)|(_ & _ & ->)]; [|done]. cbn [mbind outcome_bind].
  apply IH; [by eapply effect_inv|by eapply HP].
Qed.

Lemma run_safe reentrant es m : disciplined reentrant → inv m →
  (∃ m', run once reentrant m es = Ret m') ∨
  (∃ es1 es2 m1, es = es1 ++ EDestroy :: es2 ∧ run once reentrant m es1 = Ret m1 ∧ frames m1 ≠ [] ∧ run once reentrant m es = Crash CheckFailed).
Proof.
  intros Hd. revert m. induction es as [|e es IH]; intros m Hi; [by left; exists m|]. cbn [run].
  destruct (step_effect reentrant m e Hd Hi) as [(m1 & E & He)|(-> & Hf & E)]; rewrite E; cbn [mbind outcome_bind].
  - destruct (IH m1 (effect_inv m m1 Hi He)) as [[m' E']|(es1 & es2 & m2 & -> & E1 & Hf & E2)]; [left; by exists m'|].
    right. exists (e :: es1), es2, m2. cbn [run]. rewrite E. by repeat split.
  - right. exists [], es, m. by repeat split.
Qed.

(** ** Traces *)

(** No callback starts after it was cancelled, and one that is run once not
    twice. *)
Definition trace_ok (l : list entry) : Prop :=
  ∀ l1 a l2, l = l1 ++ Ran a :: l2 → (Cancelled a ∉ l1) ∧ (once = true → Ran a ∉ l1).

Lemma trace_ok_snoc l x : trace_ok l → (∀ a, x = Ran a → (Cancelled a ∉ l) ∧ (once = true → Ran a ∉ l)) → trace_ok (l ++ [x]).
Proof.
  intros Hl Hx l1 a l2 E. destruct l2 as [|y l2 _] using rev_ind.
  - apply app_inj_tail in E as [-> E]. by apply Hx.
  - rewrite app_comm_cons, app_assoc in E. apply app_inj_tail in E as [-> _]. by apply (Hl l1 a l2).
Qed.

Lemma trace_ok_other l x : trace_ok l → (∀ a, x ≠ Ran a) → trace_ok (l ++ [x]).
Proof. intros Hl Hx. apply trace_ok_snoc; [done|]. intros a E. by destruct (Hx a). Qed.

(** A callback that has been cancelled, or run once, is not in the list any more,
    and its address is not used again. *)
Definition spent (m : machine) (a : nat) : Prop :=
  alive m = true → (a < next_addr (the_list m))%nat ∧ mkNode a false ∉ callbacks_ (the_list m).

Definition trace_inv (m : machine) : Prop :=
  trace_ok (log m) ∧ (∀ a, Cancelled a ∈ log m → spent m a) ∧ (once = true → ∀ a, Ran a ∈ log m → spent m a).

(** The spent callbacks stay so when the list only loses callbacks. *)
Lemma spent_shrinks m m' a : spent m a → alive m = true → (next_addr (the_list m) ≤ next_addr (the_list m'))%nat →
  (mkNode a false ∈ callbacks_ (the_list m') → mkNode a false ∈ callbacks_ (the_list m)) → spent m' a.
Proof. intros Hs Ha Hn Hin _. destruct (Hs Ha) as [H1 H2]. split; [lia|]. auto. Qed.

Lemma trace_inv_keep m m' : trace_inv m → alive m = true → (next_addr (the_list m) ≤ next_addr (the_list m'))%nat →
  (∀ a, (a < next_addr (the_list m))%nat → mkNode a false ∈ callbacks_ (the_list m') → mkNode a false ∈ callbacks_ (the_list m)) →
  (log m' = log m ∨ log m' = log m ++ [Removal]) → trace_inv m'.
Proof.
  intros (Ht & Hc & Ho) Ha Hn Hin Hl. assert (∀ x, x ∈ log m' → x ∈ log m ∨ x = Removal) as Hx by (intros x; destruct Hl as [-> | ->]; set_solver).
  assert (∀ a, spent m a → spent m' a) as Hs. { intros a Hs. pose proof (Hs Ha) as [Hlt _]. eapply spent_shrinks; [done|done|done|]. by apply Hin. }
  split; [destruct Hl as [-> | ->]; [done|by apply trace_ok_other]|]. split; [intros a Hin'|intros Ho' a Hin']; destruct (Hx _ Hin') as [?|?]; try done; auto.
Qed.

Lemma finish_fields m saved outer :
  next_addr (the_list (finish once m saved outer)) = next_addr (the_list m) ∧
  (∀ n, n ∈ callbacks_ (the_list (finish once m saved outer)) → n ∈ callbacks_ (the_list m)) ∧
  (log (finish once m saved outer) = log m ∨ log (finish once m saved outer) = log m ++ [Removal]).
Proof.
  unfold finish. cbn [iterating_ set_iterating]. destruct saved; cbn; [repeat split; try done; by left|]. split; [done|]. split.
  - intros n. rewrite !list_elem_of_In, List.filter_In. tauto.
  - destruct (removal_callback_ _ && _); [by right|by left].
Qed.

Lemma started_fields s l0 n l2 : callbacks_ s = l0 ++ n :: l2 →
  next_addr (started s l0 n l2) = next_addr s ∧ (∀ k, k ∈ callbacks_ (started s l0 n l2) → k ∈ callbacks_ s) ∧
  (once = true → callbacks_ (started s l0 n l2) = l0 ++ l2).
Proof. intros E. unfold started. destruct once; cbn; [|done]. split; [done|]. split; [|done]. intros k. rewrite E. set_solver. Qed.

Lemma effect_trace m m' : inv m → trace_inv m → effect m m' → trace_inv m'.
Proof.
  intros Hi Hm He. destruct He as [|b|subs Ha Hg|a s' subs tail Ha Hin Hg Hna Hno Hother _ Htail|m' Hdead Ha' Hf' Hlog|it saved outer Ha Hfr Hg m' E Hi'].
  - done.
  - done.
  - eapply trace_inv_keep; [exact Hm|done|cbn; lia| |by left]. cbn. intros a Hlt. rewrite elem_of_app, list_elem_of_singleton. intros [?|[= ->]]; [done|lia].
  - destruct Hm as (Ht & Hc & Ho). unfold inv in Hi. rewrite Ha in Hi.
    assert (∀ b, spent m b → spent (mkMachine s' true (frames m) subs (log m ++ Cancelled a :: tail)) b) as Hs.
    { intros b Hs _. cbn. destruct (Hs Ha) as [H1 H2]. rewrite Hna. split; [done|]. destruct (decide (b = a)) as [->|Hne]; [done|]. intros Hb. by apply H2, Hother. }
    assert (spent (mkMachine s' true (frames m) subs (log m ++ Cancelled a :: tail)) a) as Hsa.
    { intros _. cbn. rewrite Hna. split; [|done]. apply (good_fresh _ _ _ Hi). destruct (good_subs _ _ _ Hi a Hin) as [Hl|[_ Hl]]; apply elem_addr in Hl; cbn in Hl; rewrite fmap_app; set_solver. }
    split; [|split]; cbn [log].
    + destruct Htail as [-> | ->]; [by apply trace_ok_other|]. rewrite (app_assoc _ [Cancelled a] [Removal]). by repeat apply trace_ok_other.
    + intros b Hb. assert (Cancelled b ∈ log m ∨ b = a) as [?| ->] by (destruct Htail as [-> | ->]; set_solver); [|done]. auto.
    + intros Ho' b Hb. assert (Ran b ∈ log m) by (destruct Htail as [-> | ->]; set_solver). auto.
  - destruct Hm as (Ht & Hc & Ho). split; [|split; [intros a _|intros _ a _]; intros ?; congruence].
    destruct Hlog as [-> |[a ->]]; [done|by apply trace_ok_other].
  - destruct (turn_spec (set_list m (set_iterating (the_list m) true)) it saved outer Ha Hg) as [[Ef _]|(l1 & n & l2 & s' & _ & _ & Hn & Hin & Et & _ & _ & (l0 & El & ->))].
    + rewrite Ef in E. injection E as <-. destruct (finish_fields (set_list m (set_iterating (the_list m) true)) saved outer) as (H1 & H2 & H3). cbn in H1, H2, H3.
      eapply trace_inv_keep; [exact Hm|done|lia| |exact H3]. intros a _. apply H2.
    + rewrite Et in E. injection E as <-. cbn in El, Hin. destruct n as [a null]. cbn in Hn. subst null. destruct (started_fields (set_iterating (the_list m) true) l0 (mkNode a false) l2 El) as (H1 & H2 & H3).
      destruct Hm as (Ht & Hc & Ho). unfold inv in Hi. rewrite Ha in Hi. cbn [the_list set_list alive log addr] in *. set (m' := mkMachine _ _ _ _ _).
      assert (∀ b, spent m b → spent m' b) as Hs by (intros b Hs; apply (spent_shrinks m m' b Hs Ha); cbn; [rewrite H1; done|apply H2]).
      split; [|split]; cbn [log m'].
      * apply trace_ok_snoc; [done|]. intros b [= <-]. split; [intros Hb|intros Ho' Hb]; [destruct (Hc _ Hb Ha) as [_ Hx]|destruct (Ho Ho' _ Hb Ha) as [_ Hx]]; done.
      * intros b Hb. apply Hs, Hc. set_solver.
      * intros Ho' b Hb. apply elem_of_app in Hb as [Hb|Hb]; [by apply Hs, Ho|]. apply list_elem_of_singleton in Hb as [= ->]. intros _. cbn. rewrite H1, (H3 Ho').
        split; [apply (good_fresh _ _ _ Hi); rewrite fmap_app; apply elem_addr in Hin; set_solver|].
        pose proof (good_nodup_l _ _ _ Hi) as Hnd. rewrite El in Hnd. destruct (nodup_middle _ _ _ Hnd) as [Hx Hy]. intros Hz. apply elem_addr in Hz. rewrite fmap_app in Hz. set_solver.
Qed.

(** ** Delivery *)

(** The log after [k] entries says that a callback was run or cancelled. *)
Definition settled (k : nat) (m : machine) (a : nat) : Prop := Ran a ∈ drop k (log m) ∨ Cancelled a ∈ drop k (log m).

(** Each of some callbacks is settled, or the outermost loop has it before it. *)
Definition covers (k : nat) (targets : list nat) (m : machine) : Prop :=
  (k ≤ length (log m))%nat ∧
  ((∀ a, a ∈ targets → settled k m a) ∨
   (∃ inner it saved, frames m = inner ++ [mkFrame it saved] ∧
      ∀ a, a ∈ targets → settled k m a ∨ mkNode a false ∈ pending (the_list m) it)).

Lemma settled_more k m m' a l : settled k m a → (k ≤ length (log m))%nat → log m' = log m ++ l → settled k m' a.
Proof. unfold settled. intros Hs Hk ->. rewrite drop_app_le by done. set_solver. Qed.

(** Nothing but the log's growth matters for the loop when its nodes stay. *)
Lemma covers_keep k targets m m' l : covers k targets m → log m' = log m ++ l → frames m' = frames m →
  (∀ f, f ∈ frames m → ∀ a, mkNode a false ∈ pending (the_list m) (frame_it f) → settled k m' a ∨ mkNode a false ∈ pending (the_list m') (frame_it f)) →
  covers k targets m'.
Proof.
  intros [Hk Hc] Hl Hf Hp. split; [rewrite Hl, length_app; lia|]. destruct Hc as [Hall|(inner & it & saved & Efr & Hall)].
  - left. intros a Ha. by eapply settled_more; [apply Hall|..].
  - right. exists inner, it, saved. split; [congruence|]. intros a Ha. destruct (Hall a Ha) as [Hs|Hin]; [left; by eapply settled_more|].
    apply (Hp (mkFrame it saved)); [rewrite Efr; set_solver|done].
Qed.

Lemma valid_frame s fs subs f : good s fs subs → f ∈ fs → match frame_it f with Some a => a ∈ addrs (callbacks_ s) | None => True end.
Proof. intros Hg Hf. pose proof (good_its _ _ _ Hg) as Hits. rewrite List.Forall_forall in Hits. by apply Hits, list_elem_of_In. Qed.

Lemma log_finish m saved outer : ∃ l, log (finish once m saved outer) = log m ++ l.
Proof. destruct (finish_fields m saved outer) as (_ & _ & [-> | ->]); [exists []; by rewrite app_nil_r|by eexists]. Qed.

(** The outermost loop takes a turn. *)
Lemma covers_outermost k targets m it saved m' : alive m = true → good (the_list m) [mkFrame it saved] (subscriptions m) → (k ≤ length (log m))%nat →
  (∀ a, a ∈ targets → settled k m a ∨ mkNode a false ∈ pending (the_list m) it) → turn once m it saved [] = Ret m' → covers k targets m'.
Proof.
  intros Ha Hg Hk Hall E. destruct (turn_spec m it saved [] Ha Hg) as [[Ef Hn]|(l1 & n & l2 & s' & Ep & Hl1 & Hn & _ & Et & _ & Hp & _)].
  - rewrite Ef in E. injection E as <-. destruct (log_finish m saved []) as [l El]. split; [rewrite El, length_app; lia|]. left. intros a Hin.
    destruct (Hall a Hin) as [Hs|Hpend]; [by eapply settled_more|]. rewrite List.Forall_forall in Hn. apply list_elem_of_In, Hn in Hpend. done.
  - rewrite Et in E. injection E as <-. split; [cbn; rewrite length_app; lia|]. right. eexists [], _, saved. split; [done|]. intros a Hin. cbn [the_list].
    destruct (Hall a Hin) as [Hs|Hpend]; [left; by eapply settled_more|]. rewrite Ep in Hpend. apply elem_of_app in Hpend as [Hpend|Hpend].
    + rewrite List.Forall_forall in Hl1. apply list_elem_of_In, Hl1 in Hpend. done.
    + apply elem_of_cons in Hpend as [<-|Hpend]; [left|right; by rewrite Hp]. left. cbn [log addr]. rewrite drop_app_le by done. set_solver.
Qed.

(** An inner loop takes a turn; only a list of repeating callbacks has them. *)
Lemma covers_inner k targets m it saved outer m' : alive m = true → good (the_list m) (mkFrame it saved :: outer) (subscriptions m) → outer ≠ [] →
  covers k targets (mkMachine (the_list m) (alive m) outer (subscriptions m) (log m)) → turn once m it saved outer = Ret m' → covers k targets m'.
Proof.
  intros Ha Hg Hout Hc E. assert (once = false) as Ho.
  { destruct once eqn:Ho; [|done]. pose proof (good_single _ _ _ Hg Ho) as Hs. destruct outer; [done|cbn in Hs; lia]. }
  destruct (turn_spec m it saved outer Ha Hg) as [[Ef _]|(l1 & n & l2 & s' & _ & _ & _ & _ & Et & _ & _ & (l0 & _ & Es))].
  - rewrite Ef in E. injection E as <-. destruct (log_finish m saved outer) as [l El]. pose proof (good_nested _ _ _ Hg) as [Hs _]. cbn in Hs.
    assert (saved = true) as -> by (rewrite Hs; by destruct outer). eapply covers_keep; [exact Hc|exact El|done|]. intros f _ a Hin. by right.
  - rewrite Et in E. injection E as <-. destruct Hc as [Hk Hc]. cbn in Hk, Hc. unfold started in Es. rewrite Ho in Es. subst s'.
    split; [cbn; rewrite length_app; lia|]. destruct Hc as [Hall|(inner & it' & saved' & Efr & Hall)].
    + left. intros a Hin. eapply (settled_more _ m); [by apply Hall|done|done].
    + right. eexists (_ :: inner), it', saved'. cbn. rewrite Efr. split; [done|]. intros a Hin. destruct (Hall a Hin) as [Hset|Hp]; [|by right].
      left. eapply (settled_more _ m); [exact Hset|done|done].
Qed.

Lemma effect_covers k targets m m' : inv m → covers k targets m → effect m m' → covers k targets m'.
Proof.
  intros Hi Hc He. unfold inv in Hi. destruct He as [|b|subs Ha Hg|a s' subs tail Ha Hin Hg Hna Hno Hother Hpend Htail|m' Hdead Ha' Hf' Hlog|it saved outer Ha Hfr Hg m' E Hi'].
  - done.
  - eapply (covers_keep _ _ _ _ []); [exact Hc|by rewrite app_nil_r|done|]. by right.
  - rewrite Ha in Hi. eapply (covers_keep _ _ _ _ []); [exact Hc|by rewrite app_nil_r|done|]. intros f Hf b Hb. right. apply pending_added; [|done]. by eapply valid_frame.
  - rewrite Ha in Hi. eapply covers_keep; [exact Hc|done|done|]. intros f Hf b Hb. destruct (decide (b = a)) as [->|Hne].
    + left. right. cbn [log]. rewrite drop_app_le by apply Hc. set_solver.
    + right. cbn [the_list]. apply Hpend; [intros E; by rewrite E in Hf; apply not_elem_of_nil in Hf|done|done].
  - destruct Hc as [Hk Hc]. assert (∃ l, log m' = log m ++ l) as [l El] by (destruct Hlog as [-> |[a ->]]; [exists []; by rewrite app_nil_r|by eexists]).
    assert (frames m = []) as Ef by (destruct Hdead as [Hd|]; [|done]; by rewrite Hd in Hi).
    split; [rewrite El, length_app; lia|]. left. intros a Ht. destruct Hc as [Hall|(inner & it & saved & Efr & _)]; [by eapply settled_more; [apply Hall|..]|].
    rewrite Ef in Efr. by destruct inner.
  - set (m1 := set_list m (set_iterating (the_list m) true)) in *.
    destruct outer as [|f outer].
    + destruct Hc as [Hk [Hall|(inner & it' & saved' & Efr & Hall)]].
      * eapply (covers_outermost k targets m1); [done|exact Hg|done| |exact E]. intros a Ht. left. by apply Hall.
      * destruct Hfr as [Hfr|[Hfr _]]; rewrite Hfr in Efr; [|by destruct inner]. destruct inner as [|? [|]]; [|done|done]. injection Efr as -> ->.
        by eapply (covers_outermost k targets m1).
    + eapply (covers_inner k targets m1); [done|exact Hg|done| |exact E]. destruct Hc as [Hk Hc]. split; [done|]. cbn.
      destruct Hc as [Hall|(inner & it' & saved' & Efr & Hall)]; [by left|]. right. destruct Hfr as [Hfr|[Hfr _]]; rewrite Hfr in Efr.
      * destruct inner as [|g inner]; [done|]. injection Efr as _ Efr. by exists inner, it', saved'.
      * by exists inner, it', saved'.
Qed.
Lemma run_delivers reentrant m0 es m : disciplined reentrant → inv m0 → alive m0 = true → frames m0 = [] →
  run once reentrant m0 (ENotify :: es) = Ret m → frames m = [] → ∀ a, mkNode a false ∈ callbacks_ (the_list m0) → settled (length (log m0)) m a.
Proof.
  intros Hd Hi Ha Hf E Hend a Hin. cbn [run] in E. unfold step in E. cbn [can_call] in E. rewrite Ha, Hf in E. cbn [length Nat.eqb] in E. rewrite orb_true_r in E.
  cbn [andb perform] in E. apply bind_returns in E as (m1 & E1 & E). unfold inv in Hi. rewrite Ha, Hf in Hi.
  assert (inv m1 ∧ covers (length (log m0)) [a] m1) as [Hi1 Hc1].
  { unfold Notify in E1. destruct (empty (the_list m0)) eqn:He.
    - unfold empty in He. rewrite forallb_forall in He. apply list_elem_of_In, He in Hin. done.
    - pose proof (begin_good _ _ _ Hi (λ _, eq_refl)) as Hg. rewrite Hf in E1. set (m0' := mkMachine _ _ _ _ _) in E1. cbn [frames m0'] in E1.
      destruct (turn_inv m0' (addr <$> head (callbacks_ (the_list m0))) (iterating_ (the_list m0)) [] Ha Hg) as (m1' & E1' & Hi1).
      rewrite E1' in E1. injection E1 as ->. split; [done|]. eapply (covers_outermost _ _ m0'); [done|exact Hg|done| |exact E1'].
      intros b Hb. apply list_elem_of_singleton in Hb as ->. right. rewrite (pending_head _ []); [done|done|]. by eapply good_nodup_l. }
  destruct (run_preserves (covers (length (log m0)) [a]) reentrant es m1 m Hd) as [_ [_ Hc]]; [by intros; eapply effect_covers|done|done|done|].
  destruct Hc as [Hall|(inner & it & saved & Efr & _)]; [apply Hall; set_solver|]. rewrite Hend in Efr. by destruct inner.
Qed.
End Invariant.

(** C11: whatever a client does, adding and cancelling callbacks and notifying
    from within callbacks included, a list of repeating callbacks never uses an
    iterator whose node is gone and never fails a check; only destroying the list
    inside a callback stops the program, by its [CHECK].  The same holds of a
    list of callbacks run once when the client does not notify from within a
    callback. *)
Theorem callback_list_safe `{BuildMode} (once reentrant : bool) (es : list event) : once = false ∨ reentrant = false →
  (∃ m, run once reentrant machine_init es = Ret m) ∨
  (∃ es1 es2 m1, es = es1 ++ EDestroy :: es2 ∧ run once reentrant machine_init es1 = Ret m1 ∧ frames m1 ≠ [] ∧
     run once reentrant machine_init es = Crash CheckFailed).
Proof. intros Hd. apply run_safe; [done|apply callbacks_init_inv]. Qed.

Lemma callback_list_safe_witness :
  (∃ m, @run debug_build false true machine_init [EAdd; EAdd; ENotify; ECancel 1; ENotify; EAdd; EReturn] = Ret m) ∨
  (∃ es1 es2 m1, [EAdd; EAdd; ENotify; ECancel 1; ENotify; EAdd; EReturn] = es1 ++ EDestroy :: es2 ∧ @run debug_build false true machine_init es1 = Ret m1 ∧ frames m1 ≠ [] ∧
     @run debug_build false true machine_init [EAdd; EAdd; ENotify; ECancel 1; ENotify; EAdd; EReturn] = Crash CheckFailed).
Proof. apply (@callback_list_safe debug_build false true); by left. Defined.

(** C12: when a notification that was started outside any callback is over, every
    callback that was registered when it started has been run in it, or was
    cancelled meanwhile, whatever the callbacks did: added and cancelled
    callbacks, themselves included, and, on a list of repeating callbacks,
    started further notifications.  (For a list of callbacks run once the
    client must not notify from within a callback, which is undefined: see
    [once_reentrant_notify_undefined].) *)
Theorem callback_list_delivers `{BuildMode} (once reentrant : bool) (es0 es : list event) (m0 m : machine) (a : nat) : once = false ∨ reentrant = false →
  run once reentrant machine_init es0 = Ret m0 → alive m0 = true → frames m0 = [] → mkNode a false ∈ callbacks_ (the_list m0) →
  run once reentrant m0 (ENotify :: es) = Ret m → frames m = [] →
  Ran a ∈ drop (length (log m0)) (log m) ∨ Cancelled a ∈ drop (length (log m0)) (log m).
Proof.
  intros Hd E0 Ha Hf Hin E Hend. destruct (run_preserves once (λ _, True) reentrant es0 machine_init m0 Hd) as [Hi _]; [done|apply callbacks_init_inv|done|done|].
  by apply (run_delivers once reentrant m0 es m Hd Hi Ha Hf E Hend).
Qed.

Lemma callback_list_delivers_witness :
  Ran 1 ∈ drop 0 [Ran 0; Ran 0; Ran 1; Ran 1] ∨ Cancelled 1 ∈ drop 0 [Ran 0; Ran 0; Ran 1; Ran 1].
Proof.
  apply (@callback_list_delivers debug_build false true [EAdd; EAdd] [ENotify; EReturn; EReturn; EReturn; EReturn]
    (mkMachine (mkCallbacks [mkNode 0 false; mkNode 1 false] [] false false 2) true [] [0; 1]%nat [])
    (mkMachine (mkCallbacks [mkNode 0 false; mkNode 1 false] [] false false 2) true [] [0; 1]%nat [Ran 0; Ran 0; Ran 1; Ran 1]) 1);
  [by left|reflexivity|reflexivity|reflexivity|cbn; apply elem_of_cons; right; apply elem_of_cons; by left|reflexivity|reflexivity].
Defined.

(** C13: no callback is started after its subscription was destroyed, and a
    callback of a list that runs them once is started at most once.  This holds
    for every client of a list of repeating callbacks, and for every client of a
    list of callbacks run once that does not notify from within a callback
    (which is undefined: see [once_reentrant_notify_undefined]). *)
Theorem callback_list_no_stale_run `{BuildMode} (once reentrant : bool) (es : list event) (m : machine) : once = false ∨ reentrant = false →
  run once reentrant machine_init es = Ret m →
  ∀ l1 a l2, log m = l1 ++ Ran a :: l2 → (Cancelled a ∉ l1) ∧ (once = true → Ran a ∉ l1).
Proof.
  intros Hd E. destruct (run_preserves once (trace_inv once) reentrant es machine_init m Hd) as [_ [Ht _]]; [by intros; eapply effect_trace|apply callbacks_init_inv| |done|exact Ht].
  split; [intros l1 a l2 El; by destruct l1|]. split; cbn; set_solver.
Qed.

(** Three callbacks of a list that runs them once; the first cancels the
    second while it runs, then the third is started. *)
Lemma callback_list_no_stale_run_witness :
  ∃ m, @run debug_build true false machine_init [EAdd; EAdd; EAdd; ENotify; ECancel 1; EReturn] = Ret m ∧
    log m = [Ran 0; Cancelled 1; Ran 2] ∧
    (Cancelled 2 ∉ [Ran 0; Cancelled 1]) ∧ (Ran 2 ∉ [Ran 0; Cancelled 1]) ∧
    (∀ l1 a l2, log m = l1 ++ Ran a :: l2 → Cancelled a ∉ l1).
Proof.
  exists (mkMachine (mkCallbacks [mkNode 1 true] [mkNode 0 true; mkNode 2 true] true false 3) true
            [mkFrame None false] [0; 2]%nat [Ran 0; Cancelled 1; Ran 2]).
  split; [vm_compute; reflexivity|]. split; [reflexivity|].
  pose proof (@callback_list_no_stale_run debug_build true false [EAdd; EAdd; EAdd; ENotify; ECancel 1; EReturn]
    (mkMachine (mkCallbacks [mkNode 1 true] [mkNode 0 true; mkNode 2 true] true false 3) true
       [mkFrame None false] [0; 2]%nat [Ran 0; Cancelled 1; Ran 2])
    ltac:(by right) ltac:(vm_compute; reflexivity)) as H.
  destruct (H [Ran 0; Cancelled 1] 2%nat [] eq_refl) as [H1 H2].
  split; [exact H1|]. split; [exact (H2 eq_refl)|]. intros l1 a l2 E. exact (proj1 (H l1 a l2 E)).
Defined.

(** ** Notifying a list of callbacks run once from within one of them *)

(** The inner call moves the node the outer loop's iterator is at to the other
    list, whose end is not the one the outer loop looks for. *)
Example once_reentrant_notify_undefined :
  @run debug_build true true machine_init [EAdd; EAdd; ENotify; ENotify; EReturn; EReturn] = Crash OutOfBounds.
Proof. reflexivity. Qed.
