(* ===== verification/ObserverList.v ===== *)
(** * Observer lists

    Model of [src/include/base/observer_list.h] and
    [observer_list_internal.h]: a list of observers that can be changed, and
    destroyed, while it is iterated.  Removing an observer while iterators are
    live only marks its entry; the last iterator to go compacts the vector.
    [checked] selects [CheckedObserverAdapter], which keeps weak pointers, over
    [UncheckedObserverAdapter].  Observers are named by their addresses, a null
    pointer is [None]; which observers have been destroyed is part of the state,
    since weak pointers see it.  Iterators are objects of the client, named by
    numbers; the list knows those that are linked to it.  Everything happens on
    one sequence. *)

From stdpp Require Import gmap sets.
From S2P Require Import Prelude.

Abbreviation observer := nat.

(** The pointer; a null one marks the entry for removal. *)
Abbreviation adapter := (option observer).

Section Adapters.
Context `{BuildMode} (checked : bool) (dead : list observer).

(** ** Adapters *)

Definition WasInvalidated (a : adapter) : bool :=
  checked && match a with Some o => bool_decide (o ∈ dead) | None => false end.

(** [weak_ptr_.get()], or [ptr_]. *)
Definition get (a : adapter) : option observer := if WasInvalidated a then None else a.

Definition MarkForRemoval (a : adapter) : outcome adapter :=
  _ ← RTC_DCHECK (negb checked || bool_decide (get a ≠ None)); Ret None.

Definition IsMarkedForRemoval (a : adapter) : outcome bool :=
  _ ← RTC_CHECK (negb (WasInvalidated a)); Ret (bool_decide (get a = None)).

Definition IsEqual (a : adapter) (rhs : option observer) : bool := bool_decide (get a = rhs).

Definition Get (a : adapter) : outcome (option observer) :=
  _ ← RTC_DCHECK (negb checked || bool_decide (get a ≠ None)); Ret (get a).
End Adapters.

Inductive ObserverListPolicy := ALL | EXISTING_ONLY.

Record ObserverList := mkObservers {
  observers_ : list adapter;
  live_iterators_ : list nat;
  observers_count_ : Z;
  policy_ : ObserverListPolicy
}.

(** [list_] is whether the iterator is linked to the list. *)
Record Iter := mkIter { list_ : bool; index_ : Z; max_index_ : Z }.

Section Class.
Context `{BuildMode} (size_bits : Z) (checked check_empty allow_reentrancy : bool) (dead : list observer).

Definition set_observers (l : ObserverList) (v : list adapter) : ObserverList := mkObservers v (live_iterators_ l) (observers_count_ l) (policy_ l).
Definition set_live (l : ObserverList) (ids : list nat) : ObserverList := mkObservers (observers_ l) ids (observers_count_ l) (policy_ l).
Definition set_count (l : ObserverList) (n : Z) : ObserverList := mkObservers (observers_ l) (live_iterators_ l) (wrapU size_bits n) (policy_ l).

Definition ObserverList_init (policy : ObserverListPolicy) : ObserverList := mkObservers [] [] 0 policy.

(** ** The list *)

(** [ranges::find_if] with [IsEqual]. *)
Fixpoint find_observer (v : list adapter) (obs : option observer) : option nat :=
  match v with
  | [] => None
  | a :: v => if IsEqual checked dead a obs then Some O else S <$> find_observer v obs
  end.

Definition HasObserver (l : ObserverList) (obs : option observer) : bool :=
  match obs with
  | None => false
  | Some _ => match find_observer (observers_ l) obs with Some _ => true | None => false end
  end.

Definition AddObserver (l : ObserverList) (obs : option observer) : outcome ObserverList :=
  _ ← RTC_DCHECK (bool_decide (obs ≠ None));
  if HasObserver l obs then _ ← RTC_DCHECK false; Ret l
  else Ret (set_observers (set_count l (observers_count_ l + 1)) (observers_ l ++ [obs])).

Definition RemoveObserver (l : ObserverList) (obs : option observer) : outcome ObserverList :=
  _ ← RTC_DCHECK (bool_decide (obs ≠ None));
  match find_observer (observers_ l) obs with
  | None => Ret l
  | Some i =>
    a ← from_option_or OutOfBounds (observers_ l !! i);
    marked ← IsMarkedForRemoval checked dead a;
    let l := if marked : bool then l else set_count l (observers_count_ l - 1) in
    match live_iterators_ l with
    | [] => Ret (set_observers l (delete i (observers_ l)))
    | _ => a ← MarkForRemoval checked dead a; Ret (set_observers l (<[i := a]> (observers_ l)))
    end
  end.

Fixpoint mark_all (v : list adapter) : outcome (list adapter) :=
  match v with
  | [] => Ret []
  | a :: v => a ← MarkForRemoval checked dead a; v ← mark_all v; Ret (a :: v)
  end.

Definition Clear (l : ObserverList) : outcome ObserverList :=
  v ← match live_iterators_ l with [] => Ret [] | _ => mark_all (observers_ l) end;
  Ret (set_count (set_observers l v) 0).

Definition empty (l : ObserverList) : bool := observers_count_ l =? 0.
Definition might_have_observers (l : ObserverList) : bool := match observers_ l with [] => false | _ => true end.

(** [EraseIf] with [IsMarkedForRemoval]. *)
Fixpoint compact (v : list adapter) : outcome (list adapter) :=
  match v with
  | [] => Ret []
  | a :: v => marked ← IsMarkedForRemoval checked dead a; v ← compact v; Ret (if marked : bool then v else a :: v)
  end.

Definition Compact (l : ObserverList) : outcome ObserverList := v ← compact (observers_ l); Ret (set_observers l v).

(** ** Iterators *)

Definition clamped_max_index (l : ObserverList) (it : Iter) : Z := Z.min (max_index_ it) (Z.of_nat (length (observers_ l))).

Definition is_end (l : ObserverList) (it : Iter) : bool := negb (list_ it) || (index_ it =? clamped_max_index l it).

(** The loop of [EnsureValidIndex], with [n] entries left. *)
Fixpoint ensure_loop (v : list adapter) (n : nat) (index max : Z) : outcome Z :=
  match n with
  | O => Ret index
  | S n =>
    if index <? max then
      a ← from_option_or OutOfBounds (v !! Z.to_nat index);
      marked ← IsMarkedForRemoval checked dead a;
      if marked : bool then ensure_loop v n (index + 1) max else Ret index
    else Ret index
  end.

Definition EnsureValidIndex (l : ObserverList) (it : Iter) : outcome Iter :=
  _ ← RTC_DCHECK (list_ it);
  let max_index := clamped_max_index l it in
  i ← ensure_loop (observers_ l) (Z.to_nat (max_index - index_ it)) (index_ it) max_index;
  Ret (mkIter (list_ it) i (max_index_ it)).

Definition IsOnlyRemainingNode (l : ObserverList) (it : Iter) : bool :=
  list_ it && match live_iterators_ l with [_] => true | _ => false end.

(** [WeakLinkNode::SetList] and [Invalidate], for the iterator [id]. *)
Definition link (l : ObserverList) (id : nat) : ObserverList := set_live l (live_iterators_ l ++ [id]).
Definition unlink (l : ObserverList) (id : nat) : ObserverList := set_live l (List.filter (λ j, negb (Nat.eqb j id)) (live_iterators_ l)).

Definition Iter_default : Iter := mkIter false 0 0.

Definition Iter_make (l : ObserverList) (id : nat) : outcome (ObserverList * Iter) :=
  let l := link l id in
  let it := mkIter true 0 (match policy_ l with ALL => 2 ^ size_bits - 1 | EXISTING_ONLY => Z.of_nat (length (observers_ l)) end) in
  _ ← RTC_DCHECK (allow_reentrancy || IsOnlyRemainingNode l it);
  it ← EnsureValidIndex l it;
  Ret (l, it).

Definition begin_ (l : ObserverList) (id : nat) : outcome (ObserverList * Iter) :=
  match observers_ l with [] => Ret (l, Iter_default) | _ => Iter_make l id end.

Definition end_ : Iter := Iter_default.

Definition Iter_destroy (l : ObserverList) (id : nat) (it : Iter) : outcome ObserverList :=
  l ← (if IsOnlyRemainingNode l it then Compact l else Ret l);
  Ret (if list_ it then unlink l id else l).

Definition Iter_copy (l : ObserverList) (id : nat) (other : Iter) : ObserverList * Iter :=
  (if list_ other then link l id else l, other).

(** [operator=], where the two are not the same iterator. *)
Definition Iter_assign (l : ObserverList) (id : nat) (it other : Iter) : outcome (ObserverList * Iter) :=
  l ← (if IsOnlyRemainingNode l it then Compact l else Ret l);
  let l := if list_ it then unlink l id else l in
  Ret (if list_ other then link l id else l, other).

Definition Iter_eqb (l : ObserverList) (it other : Iter) : bool :=
  (is_end l it && is_end l other) || (Bool.eqb (list_ it) (list_ other) && (index_ it =? index_ other)).

Definition Iter_next (l : ObserverList) (it : Iter) : outcome Iter :=
  if list_ it then EnsureValidIndex l (mkIter true (wrapU size_bits (index_ it + 1)) (max_index_ it)) else Ret it.

Definition GetCurrent (l : ObserverList) (it : Iter) : outcome (option observer) :=
  _ ← RTC_DCHECK (list_ it);
  _ ← RTC_DCHECK (index_ it <? clamped_max_index l it);
  a ← from_option_or OutOfBounds (observers_ l !! Z.to_nat (index_ it));
  Get checked dead a.

Definition Iter_deref (l : ObserverList) (it : Iter) : outcome observer :=
  current ← GetCurrent l it;
  _ ← RTC_DCHECK (bool_decide (current ≠ None));
  from_option_or NullDeref current.

(** The destructor: the iterators that are linked are invalidated. *)
Definition ObserverList_destroy (l : ObserverList) : outcome ObserverList :=
  let l := set_live l [] in
  if check_empty then
    l ← Compact l; _ ← RTC_DCHECK (match observers_ l with [] => true | _ => false end); Ret l
  else Ret l.
End Class.

(** ** Clients *)

Inductive entry :=
| Added (o : observer) | Removed (o : observer) | Cleared | ListDestroyed
| Visited (i : nat) (o : observer) | Finished (i : nat) | Assigned (i : nat).

#[global] Instance observers_entry_eq_dec : EqDecision entry.
Proof. solve_decision. Defined.

Record machine := mkMachine {
  the_list : ObserverList;
  alive : bool;
  iters : gmap nat Iter;
  next_iter : nat;
  dead : list observer;
  log : list entry
}.

(** A client adds, removes and destroys observers, clears and destroys the list,
    and runs loops [for (auto& o : list)]: [ELoop] starts one, [ENext i] ends the
    turn of the loop with iterator [i], [EBreak i] leaves it.  It can also copy
    and assign iterators. *)
Inductive event :=
| EAdd (o : observer) | ERemove (o : observer) | EClear
| ELoop | ENext (i : nat) | EBreak (i : nat) | ECopy (i : nat) | EAssign (i j : nat)
| EDestroyObserver (o : observer) | EDestroyList.

Section Client.
Context `{BuildMode} (size_bits : Z) (checked check_empty allow_reentrancy : bool).

Definition machine_init (policy : ObserverListPolicy) : machine := mkMachine (ObserverList_init policy) true ∅ 0 [] [].

Definition set_list (m : machine) (l : ObserverList) : machine := mkMachine l (alive m) (iters m) (next_iter m) (dead m) (log m).
Definition set_iters (m : machine) (f : gmap nat Iter) : machine := mkMachine (the_list m) (alive m) f (next_iter m) (dead m) (log m).
Definition note (m : machine) (e : entry) : machine := mkMachine (the_list m) (alive m) (iters m) (next_iter m) (dead m) (log m ++ [e]).

(** The condition of a loop: its body runs on the current observer, or its
    iterator is destroyed. *)
Definition visit (m : machine) (i : nat) (it : Iter) : outcome machine :=
  if Iter_eqb (the_list m) it end_ then
    l ← Iter_destroy checked (dead m) (the_list m) i it;
    Ret (note (set_iters (set_list m l) (delete i (iters m))) (Finished i))
  else
    o ← Iter_deref checked (dead m) (the_list m) it;
    Ret (note (set_iters m (<[i := it]> (iters m))) (Visited i o)).

Definition no_marks (l : ObserverList) : bool := forallb (λ a, bool_decide (a ≠ None)) (observers_ l).

(** What a client may do: observers are added once and not destroyed while they
    are registered, loops nest only where that is allowed, a list that must be
    empty when it is destroyed is, and the list is not cleared during an
    iteration in which observers were removed, which [CheckedObserverAdapter]
    does not allow. *)
Definition can_call (m : machine) (e : event) : bool :=
  let l := the_list m in
  match e with
  | EAdd o => alive m && negb (bool_decide (Some o ∈ observers_ l)) && negb (bool_decide (o ∈ dead m)) && (Z.of_nat (length (observers_ l)) + 1 <? 2 ^ size_bits - 1)
  | ERemove o => alive m
  | EClear => alive m && (negb checked || bool_decide (live_iterators_ l = []) || no_marks l)
  | ELoop => alive m && (allow_reentrancy || bool_decide (live_iterators_ l = []))
  | ENext i | EBreak i | ECopy i => bool_decide (iters m !! i ≠ None)
  | EAssign i j => bool_decide (iters m !! i ≠ None) && bool_decide (iters m !! j ≠ None) && negb (Nat.eqb i j)
  | EDestroyObserver o => negb (alive m && bool_decide (Some o ∈ observers_ l))
  | EDestroyList => alive m && (negb check_empty || forallb (λ a, bool_decide (a = None)) (observers_ l))
  end.

Definition iter_of (m : machine) (i : nat) : outcome Iter := from_option_or OutOfBounds (iters m !! i).

Definition perform (m : machine) (e : event) : outcome machine :=
  let l := the_list m in
  match e with
  | EAdd o => l ← AddObserver size_bits checked (dead m) l (Some o); Ret (note (set_list m l) (Added o))
  | ERemove o => l ← RemoveObserver size_bits checked (dead m) l (Some o); Ret (note (set_list m l) (Removed o))
  | EClear => l ← Clear size_bits checked (dead m) l; Ret (note (set_list m l) Cleared)
  | ELoop =>
    let i := next_iter m in
    '(l, it) ← begin_ size_bits checked allow_reentrancy (dead m) l i;
    visit (mkMachine l (alive m) (iters m) (S i) (dead m) (log m)) i it
  | ENext i => it ← iter_of m i; it ← Iter_next size_bits checked (dead m) l it; visit m i it
  | EBreak i => it ← iter_of m i; l ← Iter_destroy checked (dead m) l i it; Ret (set_iters (set_list m l) (delete i (iters m)))
  | ECopy i =>
    it ← iter_of m i;
    let j := next_iter m in
    let '(l, it) := Iter_copy l j it in
    Ret (mkMachine l (alive m) (<[j := it]> (iters m)) (S j) (dead m) (log m))
  | EAssign i j =>
    it ← iter_of m i; other ← iter_of m j;
    '(l, it) ← Iter_assign checked (dead m) l i it other;
    Ret (note (set_iters (set_list m l) (<[i := it]> (iters m))) (Assigned i))
  | EDestroyObserver o => Ret (mkMachine l (alive m) (iters m) (next_iter m) (o :: dead m) (log m))
  | EDestroyList =>
    l ← ObserverList_destroy checked check_empty (dead m) l;
    Ret (note (mkMachine l false ((λ it, mkIter false (index_ it) (max_index_ it)) <$> iters m) (next_iter m) (dead m) (log m)) ListDestroyed)
  end.

Definition step (m : machine) (e : event) : outcome machine := if can_call m e then perform m e else Ret m.

Fixpoint run (m : machine) (es : list event) : outcome machine :=
  match es with [] => Ret m | e :: es => m ← step m e; run m es end.
End Client.

(** ** Entries *)

(** The observers registered. *)
Definition members (v : list adapter) : list observer := omap (λ a, a) v.

Lemma members_elem v o : o ∈ members v ↔ Some o ∈ v.
Proof. unfold members. rewrite list_elem_of_omap. split; [intros (a & Ha & ->); done|intros Ho; by exists (Some o)]. Qed.

Lemma members_app v v' : members (v ++ v') = members v ++ members v'.
Proof. unfold members. apply omap_app. Qed.

Lemma members_mark v i o : v !! i = Some (Some o) → ∃ l1 l2, members v = l1 ++ o :: l2 ∧ members (<[i := None]> v) = l1 ++ l2 ∧ members (delete i v) = l1 ++ l2.
Proof.
  intros E. exists (members (take i v)), (members (drop (S i) v)). assert (i < length v)%nat by (by eapply lookup_lt_Some).
  rewrite (insert_take_drop v i None), delete_take_drop, !members_app by done. split; [|done]. rewrite <-(take_drop_middle v i _ E) at 1. by rewrite members_app.
Qed.

Lemma members_none v : (∀ a, a ∈ v → a = None) → members v = [].
Proof. induction v as [|a v IH]; [done|]. cbn. intros Hv. rewrite (Hv a) by left. cbn. apply IH. intros b Hb. apply Hv. by right. Qed.

Section Clean.
Context `{BuildMode} (checked : bool) (dead : list observer).

(** No registered observer has been destroyed. *)
Definition clean (v : list adapter) : Prop := ∀ o, Some o ∈ v → o ∉ dead.

Lemma clean_get v a : clean v → a ∈ v → get checked dead a = a ∧ WasInvalidated checked dead a = false.
Proof.
  intros Hv Ha. unfold get. assert (WasInvalidated checked dead a = false) as ->; [|done]. unfold WasInvalidated. destruct a as [o|]; [|apply andb_false_r].
  rewrite bool_decide_false by (by apply Hv). apply andb_false_r.
Qed.

Lemma clean_marked v a : clean v → a ∈ v → IsMarkedForRemoval checked dead a = Ret (bool_decide (a = None)).
Proof. intros Hv Ha. destruct (clean_get v a Hv Ha) as [E1 E2]. unfold IsMarkedForRemoval. rewrite E2. cbn. by rewrite E1. Qed.

Lemma find_observer_spec v o : clean v →
  match find_observer checked dead v (Some o) with Some i => v !! i = Some (Some o) | None => Some o ∉ v end.
Proof.
  induction v as [|a v IH]; intros Hv; cbn; [apply not_elem_of_nil|]. unfold IsEqual. rewrite (proj1 (clean_get (a :: v) a Hv ltac:(left))).
  destruct (bool_decide_reflect (a = Some o)) as [->|Hne]; [done|].
  assert (clean v) as Hv' by (intros p Hp; apply Hv; by right). specialize (IH Hv'). destruct (find_observer _ _ _ _) as [i|]; cbn; [done|].
  rewrite elem_of_cons. naive_solver.
Qed.

Lemma compact_spec v : clean v → compact checked dead v = Ret (List.filter (λ a, bool_decide (a ≠ None)) v).
Proof.
  induction v as [|a v IH]; intros Hv; [done|]. cbn [compact]. rewrite (clean_marked (a :: v)) by (done || left). cbn [mbind outcome_bind].
  rewrite IH by (intros p Hp; apply Hv; by right). cbn. by destruct a.
Qed.

Lemma mark_all_spec v : clean v → (checked = false ∨ None ∉ v) → mark_all checked dead v = Ret (replicate (length v) None).
Proof.
  induction v as [|a v IH]; intros Hv Hc; [done|]. cbn [mark_all]. unfold MarkForRemoval. rewrite (proj1 (clean_get (a :: v) a Hv ltac:(left))).
  rewrite dcheck_pass; cbn [mbind outcome_bind].
  - rewrite IH; [done|intros p Hp; apply Hv; by right|]. destruct Hc as [?|Hn]; [by left|right]. intros Hin. apply Hn. by right.
  - destruct Hc as [->|Hn]; [done|]. rewrite (bool_decide_true (a ≠ None)); [apply orb_true_r|]. intros ->. apply Hn. left.
Qed.

(** The first entry that is not marked, from an index on. *)
Lemma ensure_loop_spec v n i max : clean v → max ≤ Z.of_nat (length v) → 0 ≤ i → i + Z.of_nat n = max →
  ∃ j, ensure_loop checked dead v n i max = Ret j ∧ i ≤ j ≤ max ∧ (∀ k, i ≤ k < j → v !! Z.to_nat k = Some None) ∧
    (j < max → ∃ o, v !! Z.to_nat j = Some (Some o)).
Proof.
  intros Hv Hmax. revert i. induction n as [|n IH]; intros i Hi Hn; cbn [ensure_loop].
  - exists i. split; [done|]. split; [lia|]. split; [lia|lia].
  - rewrite (proj2 (Z.ltb_lt _ _)) by lia. destruct (lookup_lt_is_Some_2 v (Z.to_nat i) ltac:(lia)) as [a E]. rewrite E. cbn [from_option_or mbind outcome_bind].
    rewrite (clean_marked v a Hv) by (by eapply list_elem_of_lookup_2). cbn [mbind outcome_bind]. destruct a as [o|].
    + rewrite bool_decide_false by done. exists i. split; [done|]. split; [lia|]. split; [lia|]. intros _. by exists o.
    + rewrite bool_decide_true by done. destruct (IH (i + 1) ltac:(lia) ltac:(lia)) as (j & Ej & Hj & Hnone & Hsome). exists j. split; [done|]. split; [lia|]. split; [|done].
      intros k Hk. destruct (decide (k = i)) as [->|]; [done|]. apply Hnone. lia.
Qed.
End Clean.

(** ** The invariant *)

Section Invariant.
Context `{BuildMode} (size_bits : Z) (checked check_empty allow_reentrancy : bool).
Context (Hbits : 2 < 2 ^ size_bits).

(** Where a linked iterator is: at an entry of its range. *)
Definition in_range_iter (l : ObserverList) (it : Iter) : Prop := 0 ≤ index_ it < clamped_max_index l it.

Record good (l : ObserverList) (f : gmap nat Iter) (next : nat) (dead : list observer) : Prop := {
  good_live : NoDup (live_iterators_ l);
  good_linked : ∀ i, i ∈ live_iterators_ l ↔ is_Some (f !! i);
  good_next : ∀ i it, f !! i = Some it → (i < next)%nat;
  good_compact : live_iterators_ l = [] → None ∉ observers_ l;
  good_nodup : NoDup (members (observers_ l));
  good_count : observers_count_ l = Z.of_nat (length (members (observers_ l)));
  good_size : Z.of_nat (length (observers_ l)) < 2 ^ size_bits - 1;
  good_iters : ∀ i it, f !! i = Some it → list_ it = true ∧ in_range_iter l it;
  good_clean : clean dead (observers_ l)
}.

Definition inv (m : machine) : Prop :=
  if alive m then good (the_list m) (iters m) (next_iter m) (dead m)
  else ∀ i it, iters m !! i = Some it → list_ it = false.

Lemma members_length v : (length (members v) ≤ length v)%nat.
Proof. unfold members. induction v as [|[o|] v IH]; cbn; lia. Qed.

(** Registering an observer. *)
Lemma add_good l f next dead o : good l f next dead → Some o ∉ observers_ l → o ∉ dead → Z.of_nat (length (observers_ l)) + 1 < 2 ^ size_bits - 1 →
  ∃ l', AddObserver size_bits checked dead l (Some o) = Ret l' ∧ good l' f next dead ∧ observers_ l' = observers_ l ++ [Some o] ∧ policy_ l' = policy_ l.
Proof.
  intros [Hlive Hlink Hnext Hcomp Hnd Hcount Hsize Hit Hclean] Ho Hdead Hroom. unfold AddObserver, HasObserver. pass.
  pose proof (find_observer_spec checked dead (observers_ l) o Hclean) as Hfind. destruct (find_observer _ _ _ _); [by apply list_elem_of_lookup_2 in Hfind|].
  eexists. split; [done|]. pose proof (members_length (observers_ l)). split; [|done]. split; cbn [observers_ live_iterators_ observers_count_ set_observers set_count]; try done.
  - intros E. rewrite elem_of_app, list_elem_of_singleton. specialize (Hcomp E). naive_solver.
  - rewrite members_app. cbn. apply list.NoDup_app. split; [done|]. split; [|by apply NoDup_singleton]. intros p Hp. rewrite list_elem_of_singleton. intros ->. by apply Ho, members_elem.
  - rewrite wrapU_small, members_app, length_app by lia. cbn. lia.
  - rewrite length_app. cbn. lia.
  - intros i it Hi. destruct (Hit i it Hi) as [Hl Hr]. split; [done|]. unfold in_range_iter, clamped_max_index in *. cbn. rewrite length_app. lia.
  - intros p. rewrite elem_of_app, list_elem_of_singleton. intros [?|[= ->]]; [by apply Hclean|done].
Qed.

(** Entries go when there is no iterator, and are marked otherwise. *)
Lemma shrink_good l f next dead v : good l f next dead → NoDup (members v) → (∀ o, Some o ∈ v → Some o ∈ observers_ l) →
  (length v ≤ length (observers_ l))%nat → (live_iterators_ l = [] → None ∉ v) → (live_iterators_ l ≠ [] → length v = length (observers_ l)) →
  good (mkObservers v (live_iterators_ l) (Z.of_nat (length (members v))) (policy_ l)) f next dead.
Proof.
  intros [Hlive Hlink Hnext Hcomp Hnd Hcount Hsize Hit Hclean] Hnd' Hsub Hlen Hnone Hsame. split; cbn [observers_ live_iterators_ observers_count_]; try done; [lia| |intros o Ho; by apply Hclean, Hsub].
  intros i it Hi. destruct (Hit i it Hi) as [Hl Hr]. split; [done|]. unfold in_range_iter, clamped_max_index in *. cbn. rewrite Hsame; [done|].
  intros E. assert (i ∈ live_iterators_ l) as Hin by (apply Hlink; by eexists). rewrite E in Hin. by apply not_elem_of_nil in Hin.
Qed.

(** The entries of the others stay where they are while there are iterators. *)
Definition stays (l l' : ObserverList) (o : observer) : Prop :=
  live_iterators_ l ≠ [] → ∀ i, observers_ l !! i = Some (Some o) → observers_ l' !! i = Some (Some o).

Lemma remove_good l f next dead o : good l f next dead →
  ∃ l', RemoveObserver size_bits checked dead l (Some o) = Ret l' ∧ good l' f next dead ∧ policy_ l' = policy_ l ∧
    (∀ p, Some p ∈ observers_ l' ↔ p ≠ o ∧ Some p ∈ observers_ l) ∧ (∀ p, p ≠ o → stays l l' p) ∧
    (live_iterators_ l ≠ [] → length (observers_ l') = length (observers_ l)).
Proof.
  intros Hg. pose proof Hg as [Hlive Hlink Hnext Hcomp Hnd Hcount Hsize Hit Hclean]. unfold RemoveObserver. pass.
  pose proof (find_observer_spec checked dead (observers_ l) o Hclean) as Hfind. destruct (find_observer _ _ _ _) as [i|].
  2:{ exists l. split; [done|]. split; [done|]. split; [done|]. split; [|split; [by intros p _ _|done]]. intros p. split; [|by intros [_ ?]]. intros Hp. split; [|done]. by intros ->. }
  rewrite Hfind. cbn [from_option_or mbind outcome_bind]. rewrite (clean_marked checked dead (observers_ l) (Some o) Hclean) by (by eapply list_elem_of_lookup_2). cbn [mbind outcome_bind].
  rewrite bool_decide_false by done. cbn [live_iterators_ set_count observers_].
  destruct (members_mark (observers_ l) i o Hfind) as (l1 & l2 & Em & Emark & Edel). pose proof (members_length (observers_ l)).
  assert (NoDup (l1 ++ l2)) as Hnd' by (rewrite Em in Hnd; eapply sublist_NoDup; [exact Hnd|]; apply sublist_app; [done|by constructor]).
  assert (wrapU size_bits (observers_count_ l - 1) = Z.of_nat (length (l1 ++ l2))) as Ew.
  { rewrite Hcount, Em, !length_app. cbn. rewrite Em, length_app in *. cbn in *. rewrite wrapU_small; lia. }
  assert (∀ p, p ∈ l1 ++ l2 ↔ p ≠ o ∧ Some p ∈ observers_ l) as Hin.
  { intros p. rewrite <-members_elem, Em. rewrite Em in Hnd. apply list.NoDup_app in Hnd as (_ & Hd & Hnd). apply list.NoDup_cons in Hnd as [Ho _].
    assert (o ∉ l1) as Ho1 by (intros Hx; apply (Hd o Hx); left). set_solver. }
  destruct (live_iterators_ l) as [|x xs] eqn:El.
  - eexists. split; [done|]. unfold set_observers, set_count. cbn. rewrite Ew, El, <-Edel, <-El. split; [|split; [done|split; [|split; [|done]]]].
    + apply shrink_good; [done|by rewrite Edel| | | |done].
      * intros p Hp. apply members_elem in Hp. rewrite Edel in Hp. by apply Hin in Hp as [_ ?].
      * rewrite delete_take_drop, length_app, length_take, length_drop. lia.
      * intros _ Hn. apply (Hcomp eq_refl). eapply elem_of_submseteq; [exact Hn|]. apply sublist_submseteq, sublist_delete.
    + intros p. rewrite <-members_elem, Edel. apply Hin.
    + intros p _ E. done.
  - unfold MarkForRemoval. rewrite dcheck_pass.
    2:{ rewrite (proj1 (clean_get checked dead (observers_ l) (Some o) Hclean ltac:(by eapply list_elem_of_lookup_2))). rewrite (bool_decide_true (Some o ≠ None)) by done. apply orb_true_r. }
    cbn [mbind outcome_bind]. eexists. split; [done|]. unfold set_observers, set_count. cbn. rewrite Ew, El, <-Emark, <-El. split; [|split; [done|split; [|split; [|intros _; cbn; by rewrite length_insert]]]].
    + apply shrink_good; [done|by rewrite Emark| |by rewrite length_insert|by rewrite El|by rewrite length_insert].
      intros p Hp. apply members_elem in Hp. rewrite Emark in Hp. by apply Hin in Hp as [_ ?].
    + intros p. rewrite <-members_elem, Emark. apply Hin.
    + intros p Hne _ k Hk. cbn. rewrite list_lookup_insert_ne; [done|]. intros ->. congruence.
Qed.

Lemma clear_good l f next dead : good l f next dead → (checked = false ∨ live_iterators_ l = [] ∨ None ∉ observers_ l) →
  ∃ l', Clear size_bits checked dead l = Ret l' ∧ good l' f next dead ∧ policy_ l' = policy_ l ∧ (∀ p, Some p ∉ observers_ l') ∧ (live_iterators_ l ≠ [] → length (observers_ l') = length (observers_ l)).
Proof.
  intros Hg Hc. unfold Clear. assert (wrapU size_bits 0 = 0) as E0 by (apply wrapU_small; lia).
  destruct (live_iterators_ l) as [|x xs] eqn:El; cbn [mbind outcome_bind].
  - eexists. split; [done|]. unfold set_count, set_observers. cbn. rewrite El, E0, <-El. split; [|split; [done|split; [intros p; apply not_elem_of_nil|done]]].
    apply (shrink_good l f next dead []); [done|by apply NoDup_nil_2| |cbn; lia| |by rewrite El]; intros; set_solver.
  - rewrite mark_all_spec; [|by apply Hg|destruct Hc as [?|[?|?]]; [by left|done|by right]]. cbn [mbind outcome_bind].
    set (v := replicate (length (observers_ l)) None). assert (∀ a, a ∈ v → a = None) as Hv by (intros a Ha; by apply elem_of_replicate in Ha as [? _]).
    eexists. split; [done|]. unfold set_count, set_observers. cbn. rewrite E0, El, <-El. split; [|split; [done|split; [intros p Hp; by apply Hv in Hp|intros _; unfold v; cbn; by rewrite length_replicate]]].
    pose proof (shrink_good l f next dead v Hg) as Hs. rewrite (members_none v Hv) in Hs. apply Hs; [by apply NoDup_nil_2| | |by rewrite El|].
    + intros o Ho. by apply Hv in Ho.
    + unfold v. by rewrite length_replicate.
    + intros _. unfold v. by rewrite length_replicate.
Qed.

(** *** Iterators *)

Lemma ensure_spec l f next dead it : good l f next dead → list_ it = true → 0 ≤ index_ it ≤ clamped_max_index l it →
  ∃ j, EnsureValidIndex checked dead l it = Ret (mkIter true j (max_index_ it)) ∧ index_ it ≤ j ≤ clamped_max_index l it ∧
    (∀ k, index_ it ≤ k < j → observers_ l !! Z.to_nat k = Some None) ∧ (j < clamped_max_index l it → ∃ o, observers_ l !! Z.to_nat j = Some (Some o)).
Proof.
  intros Hg Hl Hi. unfold EnsureValidIndex. rewrite Hl. pass. assert (clamped_max_index l it ≤ Z.of_nat (length (observers_ l))) by (unfold clamped_max_index; lia).
  destruct (ensure_loop_spec checked dead (observers_ l) (Z.to_nat (clamped_max_index l it - index_ it)) (index_ it) (clamped_max_index l it)) as (j & -> & Hj);
    [apply Hg|done|lia|lia|]. by exists j.
Qed.

Lemma link_good l f next dead it : good l f next dead → list_ it = true → in_range_iter l it → good (link l next) (<[next := it]> f) (S next) dead.
Proof.
  intros [Hlive Hlink Hnext Hcomp Hnd Hcount Hsize Hit Hclean] Hl Hr. assert (f !! next = None) as Hf.
  { destruct (f !! next) as [it'|] eqn:E; [|done]. apply Hnext in E. lia. }
  split; cbn [observers_ live_iterators_ observers_count_ link set_live]; try done.
  - apply list.NoDup_app. split; [done|]. split; [|by apply NoDup_singleton]. intros i Hi. rewrite list_elem_of_singleton. intros ->. apply Hlink in Hi as [? Hi]. congruence.
  - intros i. rewrite elem_of_app, list_elem_of_singleton, Hlink, lookup_insert_is_Some'. naive_solver.
  - intros i it' Hi. destruct (decide (i = next)) as [->|Hne]; [lia|]. rewrite lookup_insert_ne in Hi by done. apply Hnext in Hi. lia.
  - intros E. by apply app_eq_nil in E as [_ ?].
  - intros i it' Hi. destruct (decide (i = next)) as [->|Hne]; [rewrite lookup_insert_eq in Hi; by simplify_eq|]. rewrite lookup_insert_ne in Hi by done. by eapply Hit.
Qed.

(** What the list keeps when an iterator goes. *)
Definition kept (l l' : ObserverList) : Prop :=
  policy_ l' = policy_ l ∧ (∀ o, Some o ∈ observers_ l' ↔ Some o ∈ observers_ l) ∧ (live_iterators_ l' ≠ [] → observers_ l' = observers_ l).

Lemma members_compact v : members (List.filter (λ a, bool_decide (a ≠ None)) v) = members v.
Proof. unfold members. induction v as [|[o|] v IH]; cbn; [done| |done]. f_equal. exact IH. Qed.

Definition without (i : nat) (ids : list nat) : list nat := List.filter (λ j, negb (Nat.eqb j i)) ids.

Lemma without_elem i ids k : k ∈ without i ids ↔ k ≠ i ∧ k ∈ ids.
Proof. unfold without. rewrite !list_elem_of_In, List.filter_In, negb_true_iff, Nat.eqb_neq. tauto. Qed.

Lemma without_empty i ids : NoDup ids → i ∈ ids → without i ids = [] → ids = [i].
Proof.
  intros Hnd Hi E. assert (∀ k, k ∈ ids → k = i) as Hall.
  { intros k Hk. destruct (decide (k = i)) as [|Hne]; [done|]. assert (k ∈ without i ids) as Hw by (by apply without_elem). rewrite E in Hw. by apply not_elem_of_nil in Hw. }
  destruct ids as [|x [|y ids]]; [by apply not_elem_of_nil in Hi|f_equal; apply Hall; left|]. exfalso. apply list.NoDup_cons in Hnd as [Hx _]. apply Hx.
  rewrite (Hall x), (Hall y) by set_solver. left.
Qed.

(** An iterator is unlinked; when it was the only one, no marks are left. *)
Lemma unlink_good l f next dead i v : good l f next dead → is_Some (f !! i) → members v = members (observers_ l) → (length v ≤ length (observers_ l))%nat →
  (live_iterators_ l = [i] → None ∉ v) → (live_iterators_ l ≠ [i] → v = observers_ l) → good (unlink (set_observers l v) i) (delete i f) next dead.
Proof.
  intros [Hlive Hlink Hnext Hcomp Hnd Hcount Hsize Hit Hclean] Hi Em Hlen Hone Hmany. assert (i ∈ live_iterators_ l) as Hin by (by apply Hlink).
  split; cbn [observers_ live_iterators_ observers_count_ unlink set_live set_observers]; try done; fold (without i (live_iterators_ l)).
  - apply base.NoDup_ListNoDup, List.NoDup_filter. by apply base.NoDup_ListNoDup.
  - intros k. rewrite without_elem, Hlink, lookup_delete_is_Some. naive_solver.
  - intros k it' Hk. apply lookup_delete_Some in Hk as [_ Hk]. by eapply Hnext.
  - intros E. apply Hone. by apply without_empty.
  - by rewrite Em.
  - by rewrite Em.
  - lia.
  - intros k it' Hk. apply lookup_delete_Some in Hk as [Hne Hk]. destruct (Hit k it' Hk) as [? Hr]. split; [done|]. unfold in_range_iter, clamped_max_index in *. cbn.
    rewrite Hmany; [done|]. intros Ex. assert (k ∈ live_iterators_ l) as Hk' by (apply Hlink; by eexists). rewrite Ex in Hk'. set_solver.
  - intros o Ho. apply Hclean. by rewrite <-members_elem, <-Em, members_elem.
Qed.

Lemma destroy_good l f next dead i it : good l f next dead → is_Some (f !! i) → list_ it = true →
  ∃ l', Iter_destroy checked dead l i it = Ret l' ∧ good l' (delete i f) next dead ∧ kept l l'.
Proof.
  intros Hg Hi Hl. unfold Iter_destroy, IsOnlyRemainingNode. rewrite Hl. cbn [andb].
  assert (i ∈ live_iterators_ l) as Hin by (by apply (good_linked _ _ _ _ Hg)).
  destruct (decide (live_iterators_ l = [i])) as [E|Hne].
  - rewrite E. unfold Compact. rewrite compact_spec by apply Hg. cbn [mbind outcome_bind]. eexists. split; [done|]. split.
    + apply unlink_good; [done|done|apply members_compact| | |done].
      * apply sublist_length. induction (observers_ l) as [|a v IH]; [done|]. cbn. case_match; by constructor.
      * intros _. rewrite list_elem_of_In, List.filter_In. by intros [_ ?].
    + split; [done|]. cbn. split; [intros o; by rewrite <-!members_elem, members_compact|]. rewrite E. cbn. by rewrite Nat.eqb_refl.
  - assert (match live_iterators_ l with [_] => true | _ => false end = false) as ->.
    { destruct (live_iterators_ l) as [|x [|]]; [done| |done]. apply list_elem_of_singleton in Hin as ->. done. }
    cbn [mbind outcome_bind]. eexists. split; [done|]. split; [|by split].
    pose proof (unlink_good l f next dead i (observers_ l) Hg Hi eq_refl ltac:(lia)) as Hu. by destruct l; apply Hu.
Qed.

Lemma assign_good l f next dead i j it other : good l f next dead → f !! i = Some it → f !! j = Some other → i ≠ j →
  ∃ l', Iter_assign checked dead l i it other = Ret (l', other) ∧ good l' (<[i := other]> f) next dead ∧ policy_ l' = policy_ l ∧ observers_ l' = observers_ l ∧ live_iterators_ l' ≠ [].
Proof.
  intros Hg Hi Hj Hne. pose proof Hg as [Hlive Hlink Hnext Hcomp Hnd Hcount Hsize Hit Hclean].
  destruct (Hit i it Hi) as [Hli _]. destruct (Hit j other Hj) as [Hlj Hrj]. assert (i ∈ live_iterators_ l) as Hini by (apply Hlink; by eexists). assert (j ∈ live_iterators_ l) as Hinj by (apply Hlink; by eexists).
  unfold Iter_assign, IsOnlyRemainingNode. rewrite Hli, Hlj. cbn [andb]. assert (match live_iterators_ l with [_] => true | _ => false end = false) as ->.
  { destruct (live_iterators_ l) as [|x [|]]; [done| |done]. set_solver. }
  cbn [mbind outcome_bind]. eexists. split; [done|]. split; [|split; [done|split; [done|cbn; intros E; by apply app_eq_nil in E as [_ ?]]]].
  split; cbn [observers_ live_iterators_ observers_count_ link unlink set_live]; try done; fold (without i (live_iterators_ l)).
  - apply list.NoDup_app. split; [apply base.NoDup_ListNoDup, List.NoDup_filter; by apply base.NoDup_ListNoDup|]. split; [|by apply NoDup_singleton].
    intros k Hk. rewrite list_elem_of_singleton. intros ->. by apply without_elem in Hk as [? _].
  - intros k. rewrite elem_of_app, list_elem_of_singleton, without_elem, Hlink, lookup_insert_is_Some'. destruct (decide (k = i)) as [->|]; naive_solver.
  - intros k it' Hk. destruct (decide (k = i)) as [->|]; [by eapply Hnext|]. rewrite lookup_insert_ne in Hk by done. by eapply Hnext.
  - intros E. by apply app_eq_nil in E as [_ ?].
  - intros k it' Hk. destruct (decide (k = i)) as [->|]; [rewrite lookup_insert_eq in Hk; by simplify_eq|]. rewrite lookup_insert_ne in Hk by done. by eapply Hit.
Qed.

(** ** What a step can be *)

Definition first_max (l : ObserverList) : Z := match policy_ l with ALL => 2 ^ size_bits - 1 | EXISTING_ONLY => Z.of_nat (length (observers_ l)) end.

(** Where the loop of an iterator looks next: a new one at the first entry, an
    old one past the entry it is at; and the end of its range. *)
Definition looks_from (m : machine) (i : nat) (start max : Z) (next' : nat) : Prop :=
  (i = next_iter m ∧ next' = S (next_iter m) ∧ start = 0 ∧ max = first_max (the_list m)) ∨
  (∃ it, iters m !! i = Some it ∧ start = index_ it + 1 ∧ max = max_index_ it ∧ next' = next_iter m).

Definition all_marked (v : list adapter) (from to : Z) : Prop := ∀ k, from ≤ k < to → v !! Z.to_nat k = Some None.

Inductive effect (m : machine) : machine → Prop :=
| eff_quiet m' : the_list m' = the_list m → alive m' = alive m → iters m' = iters m → next_iter m' = next_iter m → log m' = log m → effect m m'
| eff_list e l' : alive m = true → policy_ l' = policy_ (the_list m) →
    (∀ o, e = Added o → observers_ l' = observers_ (the_list m) ++ [Some o]) →
    (∀ o, e = Removed o → (∀ p, Some p ∈ observers_ l' ↔ p ≠ o ∧ Some p ∈ observers_ (the_list m)) ∧ ∀ p, p ≠ o → stays (the_list m) l' p) →
    (e = Cleared → ∀ p, Some p ∉ observers_ l') → (live_iterators_ (the_list m) ≠ [] → (length (observers_ (the_list m)) ≤ length (observers_ l'))%nat) →
    match e with Added _ | Removed _ | Cleared => True | _ => False end →
    effect m (note (set_list m l') e)
| eff_visit i it o start max l' next' : alive m = true → looks_from m i start max next' → observers_ l' = observers_ (the_list m) → policy_ l' = policy_ (the_list m) →
    start ≤ index_ it → max_index_ it = max → all_marked (observers_ l') start (index_ it) → observers_ l' !! Z.to_nat (index_ it) = Some (Some o) → index_ it < max →
    effect m (mkMachine l' true (<[i := it]> (iters m)) next' (dead m) (log m ++ [Visited i o]))
| eff_finish i start max l' next' : alive m = true → looks_from m i start max next' → kept (the_list m) l' →
    all_marked (observers_ (the_list m)) start (Z.min max (Z.of_nat (length (observers_ (the_list m))))) →
    effect m (mkMachine l' true (delete i (iters m)) next' (dead m) (log m ++ [Finished i]))
| eff_leave i l' : alive m = true → kept (the_list m) l' → effect m (mkMachine l' true (delete i (iters m)) (next_iter m) (dead m) (log m))
| eff_copy i it l' : alive m = true → iters m !! i = Some it → observers_ l' = observers_ (the_list m) → policy_ l' = policy_ (the_list m) →
    effect m (mkMachine l' true (<[next_iter m := it]> (iters m)) (S (next_iter m)) (dead m) (log m))
| eff_assign i it l' : alive m = true → observers_ l' = observers_ (the_list m) → policy_ l' = policy_ (the_list m) → is_Some (iters m !! i) →
    effect m (mkMachine l' true (<[i := it]> (iters m)) (next_iter m) (dead m) (log m ++ [Assigned i]))
| eff_dead m' l : alive m' = false → log m' = log m ++ l → (∀ i o, Visited i o ∉ l) → (∀ i, i ∈ dom (iters m') → (i < next_iter m')%nat ∨ alive m = false) → (next_iter m ≤ next_iter m')%nat →
    (alive m = true → ListDestroyed ∈ l) → effect m m'.

Lemma at_end l it : list_ it = true → Iter_eqb l it end_ = (index_ it =? clamped_max_index l it).
Proof. intros Hl. unfold Iter_eqb, is_end, end_, Iter_default. rewrite Hl. cbn. by rewrite orb_false_r, andb_true_r. Qed.

(** Looking at an entry of the range. *)
Lemma deref_good l f next dead it o : good l f next dead → list_ it = true → in_range_iter l it → observers_ l !! Z.to_nat (index_ it) = Some (Some o) →
  Iter_deref checked dead l it = Ret o.
Proof.
  intros Hg Hl Hr E. unfold in_range_iter in Hr. unfold Iter_deref, GetCurrent, Get. rewrite Hl. pass. rewrite (dcheck_pass (index_ it <? _)) by bool_solve. cbn [mbind outcome_bind]. rewrite E. cbn [from_option_or mbind outcome_bind].
  rewrite (proj1 (clean_get checked dead (observers_ l) (Some o) (good_clean _ _ _ _ Hg) ltac:(by eapply list_elem_of_lookup_2))).
  rewrite (bool_decide_true (Some o ≠ None)) by done. rewrite orb_true_r, dcheck_pass by done. cbn [mbind outcome_bind]. rewrite (bool_decide_true (Some o ≠ None)), dcheck_pass by done. done.
Qed.

(** The condition of a loop whose iterator was moved on. *)
Lemma visit_old m i it start j : alive m = true → good (the_list m) (iters m) (next_iter m) (dead m) → iters m !! i = Some it → start = index_ it + 1 →
  start ≤ j ≤ clamped_max_index (the_list m) it → all_marked (observers_ (the_list m)) start j → (j < clamped_max_index (the_list m) it → ∃ o, observers_ (the_list m) !! Z.to_nat j = Some (Some o)) →
  ∃ m', visit checked m i (mkIter true j (max_index_ it)) = Ret m' ∧ inv m' ∧ effect m m'.
Proof.
  intros Ha Hg Hi Hs Hj Hm Ho. destruct (good_iters _ _ _ _ Hg i it Hi) as [Hl Hr]. unfold visit. rewrite at_end by done. cbn [index_].
  assert (clamped_max_index (the_list m) (mkIter true j (max_index_ it)) = clamped_max_index (the_list m) it) as Ec by done. rewrite Ec.
  assert (looks_from m i start (max_index_ it) (next_iter m)) as Hlook by (right; by exists it).
  destruct (Z.eqb_spec j (clamped_max_index (the_list m) it)) as [->|Hne].
  - destruct (destroy_good _ _ _ _ i (mkIter true (clamped_max_index (the_list m) it) (max_index_ it)) Hg ltac:(by eexists) eq_refl) as (l' & -> & Hg' & Hk). cbn [mbind outcome_bind].
    eexists. split; [done|]. unfold note, set_iters, set_list. cbn. rewrite Ha. split; [done|]. by eapply eff_finish.
  - destruct (Ho ltac:(lia)) as [o Eo]. assert (in_range_iter (the_list m) (mkIter true j (max_index_ it))) as Hr' by (unfold in_range_iter in *; cbn; lia).
    rewrite (deref_good _ _ _ _ (mkIter true j (max_index_ it)) o Hg eq_refl Hr' Eo). cbn [mbind outcome_bind]. eexists. split; [done|]. unfold note, set_iters. cbn. rewrite Ha. split.
    + unfold inv. cbn. destruct Hg as [Hlive Hlink Hnext Hcomp Hnd Hcount Hsize Hit Hclean]. split; try done.
      * intros k. rewrite Hlink, lookup_insert_is_Some'. split; [by right|]. intros [<-|?]; [by eexists|done].
      * intros k it' Hk. destruct (decide (k = i)) as [->|]; [by eapply Hnext|]. rewrite lookup_insert_ne in Hk by done. by eapply Hnext.
      * intros k it' Hk. destruct (decide (k = i)) as [->|]; [rewrite lookup_insert_eq in Hk; by simplify_eq|]. rewrite lookup_insert_ne in Hk by done. by eapply Hit.
    + eapply eff_visit; try done; cbn; [lia|]. unfold clamped_max_index in *. lia.
Qed.

Lemma good_later l f next dead : good l f next dead → f !! next = None ∧ good l (delete next f) (S next) dead.
Proof.
  intros Hg. pose proof Hg as [Hlive Hlink Hnext Hcomp Hnd Hcount Hsize Hit Hclean]. assert (f !! next = None) as Hf.
  { destruct (f !! next) as [it'|] eqn:E; [|done]. apply Hnext in E. lia. }
  split; [done|]. rewrite delete_id by done. split; try done. intros i it Hi. apply Hnext in Hi. lia.
Qed.

Lemma unlink_link l i : i ∉ live_iterators_ l → unlink (link l i) i = l.
Proof.
  intros Hi. unfold unlink, link, set_live. destruct l as [v ids c p]. cbn in *. f_equal. rewrite List.filter_app. cbn. rewrite Nat.eqb_refl. cbn. rewrite app_nil_r.
  induction ids as [|x ids IH]; [done|]. cbn. rewrite (proj2 (Nat.eqb_neq x i)) by set_solver. cbn. f_equal. apply IH. set_solver.
Qed.

(** What the first turn of a loop does: it visits the first entry that is not
    marked, or ends because there is none. *)
Definition loop_started (m m' : machine) : Prop :=
  let v := observers_ (the_list m) in
  alive m' = true ∧ next_iter m' = S (next_iter m) ∧
  ((log m' = log m ++ [Finished (next_iter m)] ∧ iters m' !! next_iter m = None ∧ all_marked v 0 (Z.of_nat (length v))) ∨
   (∃ it o, log m' = log m ++ [Visited (next_iter m) o] ∧ iters m' !! next_iter m = Some it ∧ observers_ (the_list m') = v ∧ 0 ≤ index_ it ∧
      max_index_ it = first_max (the_list m) ∧ all_marked v 0 (index_ it) ∧ v !! Z.to_nat (index_ it) = Some (Some o))).

(** A loop starts. *)
Lemma loop_spec m : alive m = true → good (the_list m) (iters m) (next_iter m) (dead m) → (allow_reentrancy = true ∨ live_iterators_ (the_list m) = []) →
  ∃ m', perform size_bits checked check_empty allow_reentrancy m ELoop = Ret m' ∧ inv m' ∧ effect m m' ∧ loop_started m m'.
Proof.
  intros Ha Hg Hc. destruct (good_later _ _ _ _ Hg) as [Hnew Hlater]. cbn [perform]. set (l := the_list m) in *. set (i := next_iter m) in *.
  assert (i ∉ live_iterators_ l) as Hni by (rewrite (good_linked _ _ _ _ Hg), Hnew; by intros []).
  assert (looks_from m i 0 (first_max l) (S i)) as Hlook by (by left).
  assert (Z.min (first_max l) (Z.of_nat (length (observers_ l))) = Z.of_nat (length (observers_ l))) as Emax.
  { pose proof (good_size _ _ _ _ Hg). unfold first_max. destruct (policy_ l); lia. }
  unfold begin_. destruct (observers_ l) as [|a v] eqn:Eobs.
  - cbn [mbind outcome_bind]. unfold visit, Iter_eqb, Iter_destroy, IsOnlyRemainingNode. cbn. eexists. split; [done|]. unfold note, set_iters, set_list. cbn. rewrite Ha. split; [done|].
    assert (all_marked (observers_ l) 0 (Z.of_nat (length (observers_ l)))) as Hm by (rewrite Eobs; intros k Hk; cbn in Hk; lia). split.
    + eapply eff_finish; [done|exact Hlook|done|]. fold l. rewrite Eobs. cbn. intros k Hk. lia.
    + split; [done|]. split; [done|]. left. split; [done|]. split; [apply lookup_delete_eq|done].
  - rewrite <-Eobs in Emax. unfold Iter_make. cbn [policy_ link set_live observers_]. fold (first_max l). rewrite dcheck_pass.
    2:{ destruct Hc as [->|El]; [done|]. unfold IsOnlyRemainingNode. cbn. fold l in El. rewrite El. cbn. apply orb_true_r. }
    cbn [mbind outcome_bind]. unfold EnsureValidIndex. cbn [list_ index_ max_index_]. pass.
    assert (clamped_max_index (link l i) (mkIter true 0 (first_max l)) = Z.of_nat (length (observers_ l))) as Ec by (unfold clamped_max_index; cbn; exact Emax).
    rewrite Ec. cbn [observers_ link set_live].
    destruct (ensure_loop_spec checked (dead m) (observers_ l) (Z.to_nat (Z.of_nat (length (observers_ l)) - 0)) 0 (Z.of_nat (length (observers_ l)))) as (j & -> & Hj & Hm & Ho); [apply Hg|lia|lia|lia|].
    cbn [mbind outcome_bind]. unfold visit. rewrite at_end by done. cbn [the_list index_ iters dead log alive next_iter].
    replace (clamped_max_index (link l i) (mkIter true j (first_max l))) with (Z.of_nat (length (observers_ l))) by (unfold clamped_max_index; cbn; by rewrite Emax).
    destruct (Z.eqb_spec j (Z.of_nat (length (observers_ l)))) as [->|Hne].
    + assert (live_iterators_ l ≠ []) as Hlive.
      { intros El. apply (good_compact _ _ _ _ Hg El). specialize (Hm 0 ltac:(rewrite Eobs; cbn; lia)). fold l. by eapply list_elem_of_lookup_2. }
      unfold Iter_destroy, IsOnlyRemainingNode. cbn [list_ andb live_iterators_ link set_live].
      assert (match live_iterators_ l ++ [i] with [_] => true | _ => false end = false) as -> by (destruct (live_iterators_ l) as [|x [|]]; done).
      cbn [mbind outcome_bind]. rewrite (unlink_link l i Hni : unlink (link l i) i = l). eexists. split; [done|]. unfold note, set_iters, set_list. cbn. rewrite Ha. split; [done|]. split.
      * eapply eff_finish; [done|exact Hlook|done|]. fold l. rewrite Emax. exact Hm.
      * split; [done|]. split; [done|]. left. split; [done|]. split; [apply lookup_delete_eq|done].
    + destruct (Ho ltac:(lia)) as [o Eo]. set (it := mkIter true j (first_max l)).
      assert (in_range_iter l it) as Hr by (unfold in_range_iter, clamped_max_index, it; cbn [index_ max_index_]; lia).
      pose proof (link_good l (iters m) i (dead m) it Hg eq_refl Hr) as Hg'.
      rewrite (deref_good (link l i) _ _ _ it o Hg' eq_refl Hr Eo). cbn [mbind outcome_bind]. eexists. split; [done|]. unfold note, set_iters. cbn. rewrite Ha. split; [done|]. split.
      * eapply eff_visit; [done|exact Hlook|done|done|cbn; lia|done|exact Hm|exact Eo|]. unfold it. cbn. lia.
      * split; [done|]. split; [done|]. right. exists it, o. cbn. split; [done|]. split; [apply lookup_insert_eq|]. repeat split; try done. lia.
Qed.

(** The calls that change the registered observers. *)
Lemma list_call_spec m e : alive m = true → good (the_list m) (iters m) (next_iter m) (dead m) → can_call size_bits checked check_empty allow_reentrancy m e = true →
  match e with EAdd _ | ERemove _ | EClear => True | _ => False end → ∃ m', perform size_bits checked check_empty allow_reentrancy m e = Ret m' ∧ inv m' ∧ effect m m'.
Proof.
  intros Ha Hg Hc He. destruct e as [o|o| | | | | | | |]; try done; cbn [can_call perform] in *.
  - rewrite !andb_true_iff, !negb_true_iff, !bool_decide_eq_false, Z.ltb_lt in Hc. destruct Hc as (((_ & Hno) & Hnd) & Hroom).
    destruct (add_good _ _ _ _ o Hg Hno Hnd Hroom) as (l' & -> & Hg' & Eo & Ep). cbn [mbind outcome_bind]. eexists. split; [done|]. split; [unfold inv, note, set_list; cbn; by rewrite Ha|].
    apply eff_list; try done; [by intros p [= ->]|]. intros _. rewrite Eo, length_app. lia.
  - destruct (remove_good _ _ _ _ o Hg) as (l' & -> & Hg' & Ep & Hm & Hs & Hlen). cbn [mbind outcome_bind]. eexists. split; [done|]. split; [unfold inv, note, set_list; cbn; by rewrite Ha|].
    apply eff_list; try done; [by intros p [= <-]|]. intros Hl. by rewrite Hlen.
  - destruct (clear_good _ _ _ _ Hg) as (l' & -> & Hg' & Ep & Hm & Hlen).
    { rewrite Ha in Hc. cbn in Hc. rewrite !orb_true_iff, negb_true_iff, bool_decide_eq_true in Hc. destruct Hc as [[?|?]|Hc]; [by left|right; by left|right; right].
      unfold no_marks in Hc. rewrite forallb_forall in Hc. intros Hn. apply list_elem_of_In, Hc in Hn. by apply bool_decide_eq_true in Hn. }
    cbn [mbind outcome_bind]. eexists. split; [done|]. split; [unfold inv, note, set_list; cbn; by rewrite Ha|]. apply eff_list; try done. intros Hl. by rewrite Hlen.
Qed.

(** The calls on an iterator of a list that is there. *)
Lemma iter_call_spec m e : alive m = true → good (the_list m) (iters m) (next_iter m) (dead m) → can_call size_bits checked check_empty allow_reentrancy m e = true →
  match e with ENext _ | EBreak _ | ECopy _ | EAssign _ _ => True | _ => False end → ∃ m', perform size_bits checked check_empty allow_reentrancy m e = Ret m' ∧ inv m' ∧ effect m m'.
Proof.
  intros Ha Hg Hc He. destruct e as [| | | |i|i|i|i j| |]; try done; cbn [can_call perform] in *; unfold iter_of.
  - apply bool_decide_eq_true in Hc. destruct (iters m !! i) as [it|] eqn:Hi; [|done]. destruct (good_iters _ _ _ _ Hg i it Hi) as [Hl Hr]. cbn [from_option_or mbind outcome_bind].
    unfold Iter_next. rewrite Hl. pose proof (good_size _ _ _ _ Hg). unfold in_range_iter in Hr. assert (clamped_max_index (the_list m) it ≤ Z.of_nat (length (observers_ (the_list m)))) by (unfold clamped_max_index; lia).
    rewrite wrapU_small by lia. destruct (ensure_spec _ _ _ _ (mkIter true (index_ it + 1) (max_index_ it)) Hg eq_refl) as (j & -> & Hj & Hm & Ho); [change (clamped_max_index _ _) with (clamped_max_index (the_list m) it); cbn; lia|].
    cbn [mbind outcome_bind max_index_]. by apply (visit_old m i it (index_ it + 1) j).
  - apply bool_decide_eq_true in Hc. destruct (iters m !! i) as [it|] eqn:Hi; [|done]. destruct (good_iters _ _ _ _ Hg i it Hi) as [Hl _]. cbn [from_option_or mbind outcome_bind].
    destruct (destroy_good _ _ _ _ i it Hg ltac:(by eexists) Hl) as (l' & -> & Hg' & Hk). cbn [mbind outcome_bind]. eexists. split; [done|].
    unfold set_iters, set_list. cbn. rewrite Ha. split; [done|]. by apply eff_leave.
  - apply bool_decide_eq_true in Hc. destruct (iters m !! i) as [it|] eqn:Hi; [|done]. destruct (good_iters _ _ _ _ Hg i it Hi) as [Hl Hr]. cbn [from_option_or mbind outcome_bind].
    unfold Iter_copy. rewrite Hl, Ha. eexists. split; [done|]. split; [by apply link_good|]. by eapply eff_copy.
  - rewrite !andb_true_iff, !bool_decide_eq_true, negb_true_iff, Nat.eqb_neq in Hc. destruct Hc as [[Hi Hj] Hne].
    destruct (iters m !! i) as [it|] eqn:Ei; [|done]. destruct (iters m !! j) as [other|] eqn:Ej; [|done]. cbn [from_option_or mbind outcome_bind].
    destruct (assign_good _ _ _ _ i j it other Hg Ei Ej Hne) as (l' & -> & Hg' & Ep & Eo & _). cbn [mbind outcome_bind]. eexists. split; [done|].
    unfold note, set_iters, set_list. cbn. rewrite Ha. split; [done|]. eapply eff_assign; [done|done|done|]. rewrite Ei. by eexists.
Qed.

(** What can still be done when the list is gone. *)
Lemma dead_call_spec m e : alive m = false → inv m → can_call size_bits checked check_empty allow_reentrancy m e = true →
  ∃ m', perform size_bits checked check_empty allow_reentrancy m e = Ret m' ∧ inv m' ∧ effect m m'.
Proof.
  intros Ha Hi Hc. unfold inv in Hi. rewrite Ha in Hi. destruct e as [| | | |i|i|i|i j|o|]; cbn [can_call perform] in *; rewrite ?Ha in Hc; try done; unfold iter_of.
  - apply bool_decide_eq_true in Hc. destruct (iters m !! i) as [it|] eqn:Ei; [|done]. cbn [from_option_or mbind outcome_bind]. unfold Iter_next. rewrite (Hi i it Ei). cbn [mbind outcome_bind].
    unfold visit, Iter_eqb, is_end, Iter_destroy, IsOnlyRemainingNode. rewrite (Hi i it Ei). cbn. eexists. split; [done|]. split; [unfold inv; cbn; rewrite Ha; intros k it' Hk; apply lookup_delete_Some in Hk as [_ Hk]; by eapply Hi|].
    eapply (eff_dead _ _ [Finished i]); cbn; try done; [by intros ? ? ?%list_elem_of_singleton|by right|congruence].
  - apply bool_decide_eq_true in Hc. destruct (iters m !! i) as [it|] eqn:Ei; [|done]. cbn [from_option_or mbind outcome_bind]. unfold Iter_destroy, IsOnlyRemainingNode. rewrite (Hi i it Ei). cbn.
    eexists. split; [done|]. split; [unfold inv; cbn; rewrite Ha; intros k it' Hk; apply lookup_delete_Some in Hk as [_ Hk]; by eapply Hi|].
    eapply (eff_dead _ _ []); cbn; try done; [by rewrite app_nil_r|by intros ? ? ?%not_elem_of_nil|by right|congruence].
  - apply bool_decide_eq_true in Hc. destruct (iters m !! i) as [it|] eqn:Ei; [|done]. cbn [from_option_or mbind outcome_bind]. unfold Iter_copy. rewrite (Hi i it Ei).
    eexists. split; [done|]. split.
    + unfold inv. cbn. rewrite Ha. intros k it' Hk. destruct (decide (k = next_iter m)) as [->|]; [rewrite lookup_insert_eq in Hk; simplify_eq; by eapply Hi|]. rewrite lookup_insert_ne in Hk by done. by eapply Hi.
    + eapply (eff_dead _ _ []); cbn; try done; [by rewrite app_nil_r|by intros ? ? ?%not_elem_of_nil|by right|lia|congruence].
  - rewrite !andb_true_iff, !bool_decide_eq_true in Hc. destruct Hc as [[Hci Hcj] _].
    destruct (iters m !! i) as [it|] eqn:Ei; [|done]. destruct (iters m !! j) as [other|] eqn:Ej; [|done]. cbn [from_option_or mbind outcome_bind].
    unfold Iter_assign, IsOnlyRemainingNode. rewrite (Hi i it Ei), (Hi j other Ej). cbn. eexists. split; [done|]. split.
    + unfold inv. cbn. rewrite Ha. intros k it' Hk. destruct (decide (k = i)) as [->|]; [rewrite lookup_insert_eq in Hk; simplify_eq; by eapply (Hi j)|]. rewrite lookup_insert_ne in Hk by done. by eapply Hi.
    + eapply (eff_dead _ _ [Assigned i]); cbn; try done; [by intros ? ? ?%list_elem_of_singleton|by right|congruence].
  - eexists. split; [done|]. split; [unfold inv; cbn; by rewrite Ha|]. by apply eff_quiet.
Qed.

Lemma observers_step_spec m e : inv m → ∃ m', step size_bits checked check_empty allow_reentrancy m e = Ret m' ∧ inv m' ∧ effect m m'.
Proof.
  intros Hi. unfold step. destruct (can_call _ _ _ _ m e) eqn:Hc; [|exists m; split; [done|]; split; [done|by apply eff_quiet]].
  destruct (alive m) eqn:Ha; [|by apply dead_call_spec]. pose proof Hi as Hg. unfold inv in Hg. rewrite Ha in Hg.
  destruct e as [o|o| | |i|i|i|i j|o|]; try (by apply list_call_spec); try (by apply iter_call_spec).
  - destruct (loop_spec m Ha Hg) as (m' & E & Hi' & He & _); [|by exists m']. cbn in Hc. rewrite Ha in Hc. cbn in Hc. apply orb_true_iff in Hc as [?|Hc]; [by left|right].
    by apply bool_decide_eq_true in Hc.
  - cbn [perform]. eexists. split; [done|]. split; [|by apply eff_quiet]. unfold inv. cbn. rewrite Ha. cbn in Hc. rewrite Ha in Hc. cbn in Hc. apply negb_true_iff, bool_decide_eq_false in Hc.
    destruct Hg. split; try done. intros p Hp. apply not_elem_of_cons. split; [congruence|]. by apply good_clean0.
  - cbn [perform]. cbn in Hc. rewrite Ha in Hc. cbn in Hc. unfold ObserverList_destroy. assert (∀ l, ∃ m', (l0 ← Ret l; Ret (note (mkMachine l0 false ((λ it, mkIter false (index_ it) (max_index_ it)) <$> iters m) (next_iter m) (dead m) (log m)) ListDestroyed)) = Ret m' ∧ inv m' ∧ effect m m') as Hend.
    { intros l. eexists. split; [done|]. split; [unfold inv; cbn; intros i it; rewrite lookup_fmap_Some; by intros (it' & <- & _)|].
      eapply (eff_dead _ _ [ListDestroyed]); cbn; try done; [by intros ? ? ?%list_elem_of_singleton| |set_solver].
      intros i Hin. left. rewrite dom_fmap, elem_of_dom in Hin. destruct Hin as [it Hit]. by eapply (good_next _ _ _ _ Hg). }
    destruct check_empty; [|apply Hend]. unfold Compact. cbn [observers_ set_live]. rewrite compact_spec by apply Hg. cbn [mbind outcome_bind].
    assert (List.filter (λ a : option nat, bool_decide (a ≠ None)) (observers_ (the_list m)) = []) as ->.
    { cbn in Hc. rewrite forallb_forall in Hc. destruct (List.filter _ _) as [|a v] eqn:E; [done|]. assert (In a (List.filter (λ a : option nat, bool_decide (a ≠ None)) (observers_ (the_list m)))) as Hin by (rewrite E; by left).
      apply List.filter_In in Hin as [Hin Hn]. apply Hc in Hin. apply bool_decide_eq_true in Hin as ->. done. }
    cbn [set_observers observers_]. pass. apply Hend.
Qed.

Lemma observers_init_inv policy : inv (machine_init policy).
Proof.
  unfold inv. cbn [alive machine_init the_list iters next_iter dead ObserverList_init].
  unfold ObserverList_init. split; cbn [observers_ live_iterators_ observers_count_ length]; try done; try lia; try (by apply NoDup_nil_2).
  - intros i. rewrite lookup_empty. split; [by intros ?%not_elem_of_nil|by intros []].
  - intros _. apply not_elem_of_nil.
  - by intros o ?%not_elem_of_nil.
Qed.

Lemma run_preserves_observers (P : machine → Prop) es m : (∀ m m', inv m → inv m' → P m → effect m m' → P m') → inv m → P m →
  ∃ m', run size_bits checked check_empty allow_reentrancy m es = Ret m' ∧ inv m' ∧ P m'.
Proof.
  intros HP. revert m. induction es as [|e es IH]; intros m Hi Hm; cbn [run]; [by exists m|].
  destruct (observers_step_spec m e Hi) as (m1 & -> & Hi1 & He). cbn [mbind outcome_bind]. apply IH; [done|by apply (HP m m1)].
Qed.

(** ** Delivery *)

(** The log after [k] entries says that the loop of an iterator visited an
    observer, or why it need not. *)
Definition settled (k i : nat) (m : machine) (o : observer) : Prop :=
  let d := drop k (log m) in Visited i o ∈ d ∨ Removed o ∈ d ∨ Cleared ∈ d ∨ Assigned i ∈ d.

Definition ahead (m : machine) (i : nat) (o : observer) : Prop :=
  ∃ it p, iters m !! i = Some it ∧ index_ it < p < max_index_ it ∧ observers_ (the_list m) !! Z.to_nat p = Some (Some o).

Definition covers (k i : nat) (targets : list observer) (m : machine) : Prop :=
  (k ≤ length (log m))%nat ∧ (i < next_iter m)%nat ∧
  (ListDestroyed ∈ drop k (log m) ∨
   (alive m = true ∧ ∀ o, o ∈ targets → settled k i m o ∨ ((Finished i ∉ drop k (log m)) ∧ (iters m !! i = None ∨ ahead m i o)))).

Lemma settled_grows k i m m' o l : settled k i m o → (k ≤ length (log m))%nat → log m' = log m ++ l → settled k i m' o.
Proof. unfold settled. intros Hs Hk ->. rewrite drop_app_le by done. set_solver. Qed.

Lemma linked_live l f next dead i : good l f next dead → is_Some (f !! i) → live_iterators_ l ≠ [].
Proof. intros Hg Hi E. apply (good_linked _ _ _ _ Hg) in Hi. rewrite E in Hi. by apply not_elem_of_nil in Hi. Qed.

Lemma looks_from_other m i j start max next' : looks_from m i start max next' → iters m !! j = None → (j < next_iter m)%nat → i ≠ j.
Proof. intros [(-> & _)|(it & Hi & _)] Hj Hlt; [lia|]. intros ->. congruence. Qed.

Lemma looks_from_old m i it start max next' : looks_from m i start max next' → inv m → alive m = true → iters m !! i = Some it → start = index_ it + 1 ∧ max = max_index_ it.
Proof.
  intros Hl Hi Ha Hit. unfold inv in Hi. rewrite Ha in Hi. destruct Hl as [(-> & _)|(it' & Hi' & -> & -> & _)]; [|by simplify_eq].
  apply (good_next _ _ _ _ Hi) in Hit. lia.
Qed.

(** One observer still ahead of its loop, through a step. *)
Lemma ahead_step k i o m m' : inv m → inv m' → alive m = true → (i < next_iter m)%nat → (k ≤ length (log m))%nat → effect m m' → ahead m i o → Finished i ∉ drop k (log m) →
  ListDestroyed ∈ drop k (log m') ∨ settled k i m' o ∨ ((Finished i ∉ drop k (log m')) ∧ (iters m' !! i = None ∨ ahead m' i o)).
Proof.
  intros Hi Hi' Ha Hlt Hk He (it & p & Hit & Hp & Eo) Hfin. unfold inv in Hi. rewrite Ha in Hi. pose proof (linked_live _ _ _ _ i Hi ltac:(by eexists)) as Hlive.
  destruct (good_iters _ _ _ _ Hi i it Hit) as [_ Hr]. unfold in_range_iter in Hr.
  destruct He as [m' El Ea Ef En Elog|e l' _ Ep Hadd Hrem Hclr Hlen Hkind|j it' o' start max l' next' _ Hlook El Ep Hst Hmax Hmark Eo' Hend|j start max l' next' _ Hlook Hkept Hmark|j l' _ Hkept|j it' l' _ Hj El Ep|j it' l' _ El Ep Hj|m' l Ha' Elog Hnov _ _ Hld].
  - right; right. rewrite Elog. split; [done|]. right. exists it, p. by rewrite El, Ef.
  - assert (∀ e', drop k (log (note (set_list m l') e')) = drop k (log m) ++ [e']) as Ed by (intros e'; cbn; by rewrite drop_app_le).
    right. destruct e as [q|q| | | | |]; try done.
    + right. rewrite Ed. split; [set_solver|]. right. exists it, p. split; [done|]. split; [done|]. cbn. rewrite (Hadd q eq_refl). by apply lookup_app_l_Some.
    + destruct (decide (o = q)) as [->|Hne]; [left; right; left; rewrite Ed; set_solver|]. right. rewrite Ed. split; [set_solver|]. right. exists it, p. split; [done|]. split; [done|].
      by apply (proj2 (Hrem q eq_refl)).
    + left. right; right; left. rewrite Ed. set_solver.
  - right. assert (drop k (log m ++ [Visited j o']) = drop k (log m) ++ [Visited j o']) as Ed by (by rewrite drop_app_le). destruct (decide (j = i)) as [->|Hne].
    + destruct (looks_from_old m i it start max next' Hlook ltac:(unfold inv; by rewrite Ha) Ha Hit) as [-> ->].
      destruct (Z.lt_trichotomy p (index_ it')) as [Hlt'|[->|Hgt]].
      * exfalso. rewrite El in Hmark. specialize (Hmark p ltac:(lia)). congruence.
      * left. left. cbn [log]. rewrite Ed. rewrite El in Eo'. assert (o = o') as -> by congruence. set_solver.
      * right. cbn [log]. rewrite Ed. split; [set_solver|]. right. exists it', p. cbn. rewrite lookup_insert_eq. split; [done|]. split; [lia|]. by rewrite El.
    + right. cbn [log]. rewrite Ed. split; [set_solver|]. right. exists it, p. cbn. rewrite lookup_insert_ne by done. split; [done|]. split; [done|]. by rewrite El.
  - destruct (decide (j = i)) as [->|Hne].
    + exfalso. destruct (looks_from_old m i it start max next' Hlook ltac:(unfold inv; by rewrite Ha) Ha Hit) as [-> ->].
      assert (Z.to_nat p < length (observers_ (the_list m)))%nat by (by eapply lookup_lt_Some). specialize (Hmark p ltac:(lia)). congruence.
    + right; right. cbn [log]. rewrite drop_app_le by done. split; [set_solver|]. right. exists it, p. cbn. rewrite lookup_delete_ne by done. split; [done|]. split; [done|].
      unfold inv in Hi'. cbn in Hi'. rewrite (proj2 (proj2 Hkept)); [done|]. apply (linked_live _ _ _ _ i Hi'). rewrite lookup_delete_ne by done. by eexists.
  - right; right. cbn [log]. split; [done|]. destruct (decide (j = i)) as [->|Hne]; [left; cbn; apply lookup_delete_eq|]. right. exists it, p. cbn. rewrite lookup_delete_ne by done. split; [done|]. split; [done|].
    unfold inv in Hi'. cbn in Hi'. rewrite (proj2 (proj2 Hkept)); [done|]. apply (linked_live _ _ _ _ i Hi'). rewrite lookup_delete_ne by done. by eexists.
  - right; right. cbn [log]. split; [done|]. right. exists it, p. cbn. rewrite lookup_insert_ne by lia. by rewrite El.
  - right. cbn [log]. destruct (decide (j = i)) as [->|Hne]; [left; right; right; right; cbn; rewrite drop_app_le by done; set_solver|].
    right. rewrite drop_app_le by done. split; [set_solver|]. right. exists it, p. cbn. rewrite lookup_insert_ne by done. by rewrite El.
  - left. rewrite Elog, drop_app_le by done. specialize (Hld Ha). set_solver.
Qed.

Lemma effect_grows m m' : effect m m' → (∃ l, log m' = log m ++ l) ∧ (next_iter m ≤ next_iter m')%nat.
Proof.
  intros He. destruct He as [m' El Ea Ef En Elog|e l' _ Ep Hadd Hrem Hclr Hlen Hkind|j it' o' start max l' next' _ Hlook El Ep Hst Hmax Hmark Eo' Hend|j start max l' next' _ Hlook Hkept Hmark|j l' _ Hkept|j it' l' _ Hj El Ep|j it' l' _ El Ep Hj|m' l Ha' Elog Hnov _ Hle Hld];
    cbn; rewrite ?Elog, ?En; (split; [first [by eexists | exists []; by rewrite app_nil_r]|try lia]).
  - destruct Hlook as [(_ & -> & _)|(? & _ & _ & _ & ->)]; lia.
  - destruct Hlook as [(_ & -> & _)|(? & _ & _ & _ & ->)]; lia.
Qed.

(** An iterator that was left is not used again. *)
Lemma gone_step i m m' : inv m → alive m = true → (i < next_iter m)%nat → iters m !! i = None → effect m m' →
  alive m' = false ∨ (iters m' !! i = None ∧ ∃ l, log m' = log m ++ l ∧ Finished i ∉ l).
Proof.
  intros Hi Ha Hlt Hnone He. destruct He as [m' El Ea Ef En Elog|e l' _ Ep Hadd Hrem Hclr Hlen Hkind|j it' o' start max l' next' _ Hlook El Ep Hst Hmax Hmark Eo' Hend|j start max l' next' _ Hlook Hkept Hmark|j l' _ Hkept|j it' l' _ Hj El Ep|j it' l' _ El Ep Hj|m' l Ha' Elog Hnov _ Hle Hld];
    [right|right|right|right|right|right|right|by left].
  - rewrite Ef. split; [done|]. exists []. rewrite app_nil_r. split; [done|apply not_elem_of_nil].
  - split; [done|]. exists [e]. split; [done|]. destruct e; try done; set_solver.
  - pose proof (looks_from_other _ _ i _ _ _ Hlook Hnone Hlt). cbn. rewrite lookup_insert_ne by done. split; [done|]. eexists. split; [done|]. set_solver.
  - pose proof (looks_from_other _ _ i _ _ _ Hlook Hnone Hlt). cbn. rewrite lookup_delete_ne by done. split; [done|]. eexists. split; [done|]. set_solver.
  - cbn. split; [destruct (decide (j = i)) as [->|]; [apply lookup_delete_eq|by rewrite lookup_delete_ne]|]. exists []. rewrite app_nil_r. split; [done|apply not_elem_of_nil].
  - cbn. rewrite lookup_insert_ne by lia. split; [done|]. exists []. rewrite app_nil_r. split; [done|apply not_elem_of_nil].
  - cbn. rewrite lookup_insert_ne by (intros ->; rewrite Hnone in Hj; by destruct Hj). split; [done|]. eexists. split; [done|]. set_solver.
Qed.

Lemma dies_destroyed m m' : effect m m' → alive m = true → alive m' = false → ∃ l, log m' = log m ++ l ∧ ListDestroyed ∈ l.
Proof. intros He Ha Ha'. destruct He; cbn in *; try congruence. eexists. split; [done|auto]. Qed.

Lemma covers_step k i targets m m' : inv m → inv m' → covers k i targets m → effect m m' → covers k i targets m'.
Proof.
  intros Hi Hi' (Hk & Hlt & Hc) He. destruct (effect_grows m m' He) as [[l El] Hnext]. split; [rewrite El, length_app; lia|]. split; [lia|].
  destruct Hc as [Hd|[Ha Hall]]; [left; rewrite El, drop_app_le by done; set_solver|].
  destruct (alive m') eqn:Ha'.
  2:{ left. destruct (dies_destroyed m m' He Ha Ha') as (l' & -> & Hin). rewrite drop_app_le by done. set_solver. }
  destruct (decide (ListDestroyed ∈ drop k (log m'))) as [|Hnd]; [by left|]. right. split; [done|]. intros o Ho.
  destruct (Hall o Ho) as [Hs|[Hfin [Hnone|Hah]]]; [left; by eapply settled_grows| |].
  - destruct (gone_step i m m' Hi Ha Hlt Hnone He) as [?|(Hn & l' & El' & Hf)]; [congruence|]. right. split; [|by left]. rewrite El', drop_app_le by done. set_solver.
  - destruct (ahead_step k i o m m' Hi Hi' Ha Hlt Hk He Hah Hfin) as [?|[?|?]]; [done|by left|by right].
Qed.

(** The loop that starts now. *)
Lemma covers_start m : inv m → alive m = true → (allow_reentrancy = true ∨ live_iterators_ (the_list m) = []) →
  ∃ m', step size_bits checked check_empty allow_reentrancy m ELoop = Ret m' ∧ inv m' ∧ loop_started m m' ∧ covers (length (log m)) (next_iter m) (members (observers_ (the_list m))) m'.
Proof.
  intros Hi Ha Hc. pose proof Hi as Hg. unfold inv in Hg. rewrite Ha in Hg. destruct (loop_spec m Ha Hg Hc) as (m' & E & Hi' & _ & Hls). exists m'. pose proof Hls as (Ha' & En & Hst). split; [|split; [done|split; [done|]]].
  - unfold step. cbn [can_call]. rewrite Ha. cbn [andb]. assert (allow_reentrancy || bool_decide (live_iterators_ (the_list m) = []) = true) as ->; [|exact E].
    destruct Hc as [->|Hc]; [done|]. rewrite bool_decide_true by done. apply orb_true_r.
  - assert (length (log m) ≤ length (log m'))%nat as Hk by (destruct Hst as [[-> _]|(? & ? & -> & _)]; rewrite length_app; lia).
    split; [done|]. split; [rewrite En; lia|]. right. split; [done|]. intros o Ho. apply members_elem, list_elem_of_lookup in Ho as [p Ep].
    assert (p < length (observers_ (the_list m)))%nat as Hp by (by eapply lookup_lt_Some). pose proof (good_size _ _ _ _ Hg) as Hsz.
    destruct Hst as [(_ & _ & Hm)|(it & o' & El & Hit & Eobs & H0 & Hmax & Hm & Eo')].
    + specialize (Hm (Z.of_nat p) ltac:(lia)). rewrite Nat2Z.id in Hm. congruence.
    + assert (drop (length (log m)) (log m') = [Visited (next_iter m) o']) as Ed by (rewrite El; apply drop_app_length).
      destruct (Z.lt_trichotomy (Z.of_nat p) (index_ it)) as [Hlt|[Heq|Hgt]].
      * specialize (Hm (Z.of_nat p) ltac:(lia)). rewrite Nat2Z.id in Hm. congruence.
      * left. left. rewrite Ed. rewrite <-Heq, Nat2Z.id in Eo'. assert (o = o') as -> by congruence. left.
      * right. rewrite Ed. split; [set_solver|]. right. exists it, (Z.of_nat p). split; [done|]. rewrite Eobs, Nat2Z.id. split; [|done]. split; [done|].
        rewrite Hmax. unfold first_max. destruct (policy_ (the_list m)); lia.
Qed.

(** ** Traces *)

(** The observers that are registered according to the log. *)
Definition note_members (s : gset nat) (e : entry) : gset nat :=
  match e with Added o => {[o]} ∪ s | Removed o => s ∖ {[o]} | Cleared => ∅ | _ => s end.
Definition registered (l : list entry) : gset nat := foldl note_members ∅ l.

(** The loop of [i] visited [o], which has been registered ever since. *)
Definition seen (i : nat) (o : observer) (l : list entry) : Prop :=
  ∃ l1 l2, l = l1 ++ Visited i o :: l2 ∧ (Removed o ∉ l2) ∧ (Cleared ∉ l2) ∧ Assigned i ∉ l2.

(** A loop visits registered observers only, and none twice. *)
Definition visits_ok (l : list entry) : Prop :=
  ∀ l1 i o l2, l = l1 ++ Visited i o :: l2 → o ∈ registered l1 ∧ ¬ seen i o l1.

Lemma visits_ok_snoc l e : visits_ok l → (∀ i o, e = Visited i o → o ∈ registered l ∧ ¬ seen i o l) → visits_ok (l ++ [e]).
Proof.
  intros Hl He l1 i o l2 E. destruct l2 as [|y l2 _] using rev_ind.
  - apply app_inj_tail in E as [-> ->]. by apply He.
  - rewrite app_comm_cons, app_assoc in E. apply app_inj_tail in E as [-> _]. by apply (Hl l1 i o l2).
Qed.

Lemma visits_ok_app l l' : visits_ok l → (∀ i o, Visited i o ∉ l') → visits_ok (l ++ l').
Proof.
  intros Hl. induction l' as [|e l' IH] using rev_ind; intros Hno; [by rewrite app_nil_r|]. rewrite app_assoc. apply visits_ok_snoc.
  - apply IH. intros i o Hin. apply (Hno i o). set_solver.
  - intros i o ->. exfalso. apply (Hno i o). set_solver.
Qed.

Lemma seen_snoc i o l e : seen i o (l ++ [e]) → e = Visited i o ∨ (seen i o l ∧ e ≠ Removed o ∧ e ≠ Cleared ∧ e ≠ Assigned i).
Proof.
  intros (l1 & l2 & E & Hr & Hc & Ha). destruct l2 as [|y l2 _] using rev_ind; [apply app_inj_tail in E as [_ ->]; by left|].
  rewrite app_comm_cons, app_assoc in E. apply app_inj_tail in E as [-> ->]. right. split; [exists l1, l2; set_solver|]. set_solver.
Qed.

Lemma registered_snoc l e : registered (l ++ [e]) = note_members (registered l) e.
Proof. unfold registered. by rewrite foldl_app. Qed.

Lemma one_entry v a b o : NoDup (members v) → v !! a = Some (Some o) → v !! b = Some (Some o) → a = b.
Proof.
  revert a b. induction v as [|x v IH]; intros [|a] [|b] Hnd Ea Eb; simplify_eq/=; try done.
  - apply list.NoDup_cons in Hnd as [Hn _]. exfalso. apply Hn, members_elem. by eapply list_elem_of_lookup_2.
  - apply list.NoDup_cons in Hnd as [Hn _]. exfalso. apply Hn, members_elem. by eapply list_elem_of_lookup_2.
  - f_equal. apply IH; [|done|done]. destruct x; [by apply list.NoDup_cons in Hnd as [_ ?]|done].
Qed.

Record trace_inv (m : machine) : Prop := {
  trace_visits : visits_ok (log m);
  trace_fresh : ∀ i o, Visited i o ∈ log m → (i < next_iter m)%nat;
  trace_members : alive m = true → ∀ o, o ∈ registered (log m) ↔ Some o ∈ observers_ (the_list m);
  trace_seen : alive m = true → ∀ i o it, seen i o (log m) → iters m !! i = Some it → ∃ p, 0 ≤ p ≤ index_ it ∧ observers_ (the_list m) !! Z.to_nat p = Some (Some o)
}.

Lemma seen_visited i o l : seen i o l → Visited i o ∈ l.
Proof. intros (l1 & l2 & -> & _). set_solver. Qed.

(** Steps that visit nothing: the registered observers follow the log, and those
    an iterator has behind it stay there. *)
Lemma trace_other m m' e : trace_inv m → alive m = true → (next_iter m ≤ next_iter m')%nat → log m' = log m ++ e → (e = [] ∨ ∃ x, e = [x] ∧ ∀ i o, x ≠ Visited i o) →
  (alive m' = true → ∀ o, o ∈ registered (log m') ↔ Some o ∈ observers_ (the_list m')) →
  (alive m' = true → ∀ i o it, seen i o (log m) → (∀ x, x ∈ e → x ≠ Removed o ∧ x ≠ Cleared ∧ x ≠ Assigned i) → iters m' !! i = Some it →
     ∃ it0, iters m !! i = Some it0 ∧ index_ it0 ≤ index_ it ∧ ∀ p, observers_ (the_list m) !! p = Some (Some o) → observers_ (the_list m') !! p = Some (Some o)) →
  trace_inv m'.
Proof.
  intros [Hv Hf Hm Hs] Ha Hn El He Hm' Hs'. assert (∀ i o, Visited i o ∉ e) as Hno by (intros i o; destruct He as [->|(x & -> & Hx)]; [apply not_elem_of_nil|by intros Hin%list_elem_of_singleton; apply (Hx i o)]).
  split; [rewrite El; by apply visits_ok_app| |done|].
  - intros i o. rewrite El, elem_of_app. intros [Hin|Hin]; [apply Hf in Hin; lia|by apply Hno in Hin].
  - intros Ha' i o it Hseen Hit. assert (seen i o (log m) ∧ ∀ x, x ∈ e → x ≠ Removed o ∧ x ≠ Cleared ∧ x ≠ Assigned i) as [Hsn Hx].
    { rewrite El in Hseen. destruct He as [->|(x & -> & Hx)]; [rewrite app_nil_r in Hseen; split; [done|]; by intros x ?%not_elem_of_nil|].
      apply seen_snoc in Hseen as [->|[? ?]]; [by destruct (Hx i o)|]. split; [done|]. by intros y ->%list_elem_of_singleton. }
    destruct (Hs' Ha' i o it Hsn Hx Hit) as (it0 & Hit0 & Hle & Hpos). destruct (Hs Ha i o it0 Hsn Hit0) as (p & Hp & Ep). exists p. split; [lia|by apply Hpos].
Qed.

Lemma members_kept (v v' : list adapter) l : (∀ o, Some o ∈ v' ↔ Some o ∈ v) → (∀ o, o ∈ registered l ↔ Some o ∈ v) → ∀ o, o ∈ registered l ↔ Some o ∈ v'.
Proof. intros H1 H2 o. by rewrite H1, H2. Qed.

Lemma trace_visit m i it o start max l' next' : inv m → trace_inv m → alive m = true → looks_from m i start max next' → observers_ l' = observers_ (the_list m) →
  0 ≤ index_ it → start ≤ index_ it → observers_ l' !! Z.to_nat (index_ it) = Some (Some o) →
  trace_inv (mkMachine l' true (<[i := it]> (iters m)) next' (dead m) (log m ++ [Visited i o])).
Proof.
  intros Hi [Hv Hf Hm Hs] Ha Hlook El H0 Hst Eo. rewrite El in Eo. pose proof Hi as Hg. unfold inv in Hg. rewrite Ha in Hg.
  assert (∀ o', seen i o' (log m) → ∃ p, 0 ≤ p < start ∧ observers_ (the_list m) !! Z.to_nat p = Some (Some o')) as Hbehind.
  { intros o' Hseen. pose proof (Hf _ _ (seen_visited _ _ _ Hseen)) as Hlt. destruct Hlook as [(-> & _)|(it0 & Hit0 & -> & _)]; [lia|].
    destruct (Hs Ha i o' it0 Hseen Hit0) as (p & Hp & Ep). exists p. split; [lia|done]. }
  assert (next_iter m ≤ next' ∧ i < next')%nat as [Hn Hin].
  { destruct Hlook as [(-> & -> & _)|(it0 & Hit0 & _ & _ & ->)]; [lia|]. apply (good_next _ _ _ _ Hg) in Hit0. lia. }
  split; cbn [log alive next_iter the_list iters].
  - apply visits_ok_snoc; [done|]. intros i' o' [= <- <-]. split; [apply (Hm Ha); by eapply list_elem_of_lookup_2|].
    intros Hseen. destruct (Hbehind o Hseen) as (p & Hp & Ep). pose proof (one_entry _ _ _ o (good_nodup _ _ _ _ Hg) Ep Eo). lia.
  - intros i' o'. rewrite elem_of_app. intros [Hin'|Hin']; [apply Hf in Hin'; lia|]. by apply list_elem_of_singleton in Hin' as [= -> ->].
  - intros _ o'. rewrite registered_snoc, El. cbn. by apply Hm.
  - intros _ i' o' it' Hseen Hit'. rewrite El. destruct (decide (i' = i)) as [->|Hne].
    + rewrite lookup_insert_eq in Hit'. injection Hit' as <-. apply seen_snoc in Hseen as [[= <-]|[Hseen _]]; [by exists (index_ it)|].
      destruct (Hbehind o' Hseen) as (p & Hp & Ep). exists p. split; [lia|done].
    + rewrite lookup_insert_ne in Hit' by done. apply seen_snoc in Hseen as [[= ? _]|[Hseen _]]; [congruence|]. by eapply Hs.
Qed.

Lemma trace_step m m' : inv m → inv m' → trace_inv m → effect m m' → trace_inv m'.
Proof.
  intros Hi Hi' Ht He. pose proof Ht as [Hv Hf Hm Hs]. destruct (effect_grows m m' He) as [_ Hn].
  destruct (alive m) eqn:Ha.
  2:{ destruct He as [m' El Ea Ef En Elog| | | | | | |m' l Ha' Elog Hnov _ _ _]; try congruence.
      - split; rewrite ?Elog, ?En, ?Ea, ?Ha; try done.
      - split; rewrite ?Elog, ?Ha'; try done; [by apply visits_ok_app|]. intros i o. rewrite elem_of_app. intros [Hin|Hin]; [apply Hf in Hin; lia|by apply Hnov in Hin]. }
  pose proof Hi as Hg. unfold inv in Hg. rewrite Ha in Hg. assert (∀ i, is_Some (iters m !! i) → live_iterators_ (the_list m) ≠ []) as Hlive by (intros i; by apply linked_live with (1 := Hg)).
  destruct He as [m' El Ea Ef En Elog|e l' _ Ep Hadd Hrem Hclr Hlen Hkind|j it' o' start max l' next' _ Hlook El Ep Hst Hmax Hmark Eo' Hend|j start max l' next' _ Hlook Hkept Hmark|j l' _ Hkept|j it' l' _ Hj El Ep|j it' l' _ El Ep Hj|m' l Ha' Elog Hnov _ _ Hld].
  - eapply (trace_other m m' []); [done|done|done|by rewrite app_nil_r|by left|rewrite El, Elog; intros _; by apply Hm|]. intros _ i o it _ _ Hit. rewrite Ef in Hit. exists it. by rewrite El.
  - eapply (trace_other m _ [e]); [done|done|done|done| | |].
    + right. exists e. split; [done|]. intros i o ->. done.
    + intros _ o. cbn [log note]. rewrite registered_snoc. cbn [the_list note set_list]. destruct e as [q|q| | | | |]; try done; cbn [note_members].
      * rewrite (Hadd q eq_refl), elem_of_union, elem_of_singleton, elem_of_app, list_elem_of_singleton, (Hm eq_refl). naive_solver.
      * rewrite (proj1 (Hrem q eq_refl)), elem_of_difference, elem_of_singleton, (Hm eq_refl). tauto.
      * split; [by intros ?%elem_of_empty|by intros ?%(Hclr eq_refl)].
    + intros _ i o it Hseen Hx Hit. exists it. split; [done|]. split; [done|]. intros p Ep'. destruct (Hx e ltac:(left)) as (Hx1 & Hx2 & _). cbn [the_list note set_list].
      destruct e as [q|q| | | | |]; try done; [rewrite (Hadd q eq_refl); by apply lookup_app_l_Some|].
      apply (proj2 (Hrem q eq_refl)); [congruence| |done]. apply (Hlive i). by eexists.
  - unfold inv in Hi'. cbn in Hi'. pose proof (good_iters _ _ _ _ Hi' j it' (lookup_insert_eq _ _ _)) as [_ Hr]. unfold in_range_iter in Hr. by eapply trace_visit; [..|lia|done|].
  - eapply (trace_other m _ [Finished j]); [done|done|done|done|right; by eexists| |].
    + intros _ o. cbn [log]. rewrite registered_snoc. cbn. rewrite (Hm eq_refl). symmetry. apply Hkept.
    + intros _ i o it _ _ Hit. cbn in *. pose proof Hit as Hit'. apply lookup_delete_Some in Hit' as [_ Hit']. exists it. split; [done|]. split; [done|].
      unfold inv in Hi'. cbn in Hi'. rewrite (proj2 (proj2 Hkept)); [done|]. apply (linked_live _ _ _ _ i Hi'). by eexists.
  - eapply (trace_other m _ []); [done|done|done|by rewrite app_nil_r|by left| |].
    + intros _ o. cbn. rewrite (Hm eq_refl). symmetry. apply Hkept.
    + intros _ i o it _ _ Hit. cbn in *. pose proof Hit as Hit'. apply lookup_delete_Some in Hit' as [_ Hit']. exists it. split; [done|]. split; [done|].
      unfold inv in Hi'. cbn in Hi'. rewrite (proj2 (proj2 Hkept)); [done|]. apply (linked_live _ _ _ _ i Hi'). by eexists.
  - eapply (trace_other m _ []); [done|done|done|by rewrite app_nil_r|by left|cbn; rewrite El; intros _; by apply Hm|]. intros _ i o it Hseen _ Hit. cbn in *. rewrite El.
    rewrite lookup_insert_ne in Hit by (intros Heq; apply seen_visited, Hf in Hseen; lia). by exists it.
  - eapply (trace_other m _ [Assigned j]); [done|done|done|done|right; by eexists|intros _ o; cbn [log]; rewrite registered_snoc; cbn; rewrite El; by apply Hm|].
    intros _ i o it _ Hx Hit. cbn in *. rewrite El. destruct (Hx (Assigned j) ltac:(left)) as (_ & _ & Hx3). rewrite lookup_insert_ne in Hit by congruence. by exists it.
  - split; rewrite ?Elog, ?Ha'; try done; [by apply visits_ok_app|]. intros i o. rewrite elem_of_app. intros [Hin|Hin]; [apply Hf in Hin; lia|by apply Hnov in Hin].
Qed.

(** ** Loops over the observers that were there *)

(** The loop of [i] visits only some observers: those its range holds. *)
Definition confined (k i : nat) (allowed : list observer) (m : machine) : Prop :=
  (k ≤ length (log m))%nat ∧ (i < next_iter m)%nat ∧
  (Assigned i ∈ drop k (log m) ∨
   ((∀ o, Visited i o ∈ drop k (log m) → o ∈ allowed) ∧
    (alive m = true → ∀ it, iters m !! i = Some it →
       max_index_ it ≤ Z.of_nat (length (observers_ (the_list m))) ∧ ∀ p o, 0 ≤ p < max_index_ it → observers_ (the_list m) !! Z.to_nat p = Some (Some o) → o ∈ allowed))).

(** Steps that do not move the loop's iterator. *)
Lemma confined_keep k i allowed m m' e : confined k i allowed m → alive m = true → (next_iter m ≤ next_iter m')%nat → log m' = log m ++ e → (∀ o, Visited i o ∉ e) →
  (alive m' = true → Assigned i ∉ e → ∀ it, iters m' !! i = Some it → iters m !! i = Some it ∧
     (length (observers_ (the_list m)) ≤ length (observers_ (the_list m')))%nat ∧
     ∀ p o, (p < length (observers_ (the_list m)))%nat → observers_ (the_list m') !! p = Some (Some o) → observers_ (the_list m) !! p = Some (Some o)) →
  confined k i allowed m'.
Proof.
  intros (Hk & Hlt & Hc) Ha Hn El Hv Hkeep. assert (drop k (log m') = drop k (log m) ++ e) as Ed by (rewrite El; by apply drop_app_le).
  split; [rewrite El, length_app; lia|]. split; [lia|]. rewrite Ed. destruct Hc as [Hc|[Hvis Hit]]; [left; set_solver|].
  destruct (decide (Assigned i ∈ e)) as [|Hna]; [left; set_solver|]. right. split.
  - intros o. rewrite elem_of_app. intros [?|Hin]; [by apply Hvis|by apply Hv in Hin].
  - intros Ha' it Hi. destruct (Hkeep Ha' Hna it Hi) as (Hi0 & Hlen & Hpos). destruct (Hit Ha it Hi0) as [Hmax Hin]. split; [lia|]. intros p o Hp Eo. apply (Hin p o Hp). apply Hpos; [lia|done].
Qed.

Lemma confined_step k i allowed m m' : inv m → inv m' → confined k i allowed m → effect m m' → confined k i allowed m'.
Proof.
  intros Hi Hi' Hc He. destruct (effect_grows m m' He) as [[l0 El0] Hn]. destruct (alive m) eqn:Ha.
  2:{ destruct Hc as (Hk & Hlt & Hc). destruct He as [m' El Ea Ef En Elog| | | | | | |m' l Ha' Elog Hnov _ _ _]; try congruence.
      - unfold confined. rewrite Elog, En, Ea, Ha, Ef, El in *. done.
      - split; [rewrite Elog, length_app; lia|]. split; [lia|]. rewrite Elog, drop_app_le by done. destruct Hc as [?|[Hvis _]]; [left; set_solver|right]. split; [|congruence].
        intros o. rewrite elem_of_app. intros [?|Hin]; [by apply Hvis|by apply Hnov in Hin]. }
  pose proof Hi as Hg. unfold inv in Hg. rewrite Ha in Hg. pose proof Hc as (Hk & Hlt & Hcases).
  destruct He as [m' El Ea Ef En Elog|e l' _ Ep Hadd Hrem Hclr Hlen Hkind|j it' o' start max l' next' _ Hlook El Ep Hst Hmax Hmark Eo' Hend|j start max l' next' _ Hlook Hkept Hmark|j l' _ Hkept|j it' l' _ Hj El Ep|j it' l' _ El Ep Hj|m' l Ha' Elog Hnov _ _ Hld].
  - eapply (confined_keep _ _ _ m m' []); [done|done|done|by rewrite app_nil_r|intros o; apply not_elem_of_nil|]. intros _ _ it Hit. rewrite Ef in Hit. by rewrite El.
  - eapply (confined_keep _ _ _ m _ [e]); [done|done|done|done|intros o Hin; apply list_elem_of_singleton in Hin as <-; done|]. intros _ _ it Hit. cbn in Hit. split; [done|]. cbn [the_list note set_list].
    pose proof (linked_live _ _ _ _ i Hg ltac:(by eexists)) as Hlive. split; [by apply Hlen|]. intros p o Hp Eo. unfold inv in Hi'. cbn in Hi'. rewrite Ha in Hi'.
    destruct e as [q|q| | | | |]; try done.
    + rewrite (Hadd q eq_refl) in Eo. by rewrite lookup_app_l in Eo.
    + destruct (Hrem q eq_refl) as [Hmem Hstay]. assert (Some o ∈ observers_ l') as Hin by (by eapply list_elem_of_lookup_2). apply Hmem in Hin as [Hne Hin].
      apply list_elem_of_lookup in Hin as [p' Ep']. pose proof (Hstay o Hne Hlive p' Ep') as Ep2. by rewrite (one_entry _ _ _ o (good_nodup _ _ _ _ Hi') Eo Ep2).
    + exfalso. apply (Hclr eq_refl o). by eapply list_elem_of_lookup_2.
  - destruct (decide (j = i)) as [->|Hne].
    + split; [cbn; rewrite length_app; lia|]. split; [cbn in Hn |- *; lia|]. cbn [log]. rewrite drop_app_le by done. destruct Hcases as [?|[Hvis Hit]]; [left; set_solver|right].
      destruct Hlook as [(-> & _)|(it0 & Hit0 & -> & -> & _)]; [lia|]. destruct (Hit Ha it0 Hit0) as [Hmax0 Hin0].
      destruct (good_iters _ _ _ _ Hg i it0 Hit0) as [_ Hr0]. unfold in_range_iter in Hr0. rewrite El in Eo'. split.
      * intros o. rewrite elem_of_app. intros [?|Hin]; [by apply Hvis|]. apply list_elem_of_singleton in Hin as [= ->]. apply (Hin0 (index_ it')); [lia|done].
      * intros _ it Hit'. cbn in *. rewrite lookup_insert_eq in Hit'. injection Hit' as <-. rewrite El, Hmax. done.
    + eapply (confined_keep _ _ _ m _ [Visited j o']); [done|done|done|done|intros o Hin; by apply list_elem_of_singleton in Hin as [= ? ?]|]. intros _ _ it Hit. cbn in *. rewrite lookup_insert_ne in Hit by done. by rewrite El.
  - eapply (confined_keep _ _ _ m _ [Finished j]); [done|done|done|done|intros o Hin; by apply list_elem_of_singleton in Hin|]. intros _ _ it Hit. cbn in *. pose proof Hit as Hit'. apply lookup_delete_Some in Hit' as [_ Hit'].
    unfold inv in Hi'. cbn in Hi'. rewrite (proj2 (proj2 Hkept)); [done|]. apply (linked_live _ _ _ _ i Hi'). by eexists.
  - eapply (confined_keep _ _ _ m _ []); [done|done|done|by rewrite app_nil_r|intros o; apply not_elem_of_nil|]. intros _ _ it Hit. cbn in *. pose proof Hit as Hit'. apply lookup_delete_Some in Hit' as [_ Hit'].
    unfold inv in Hi'. cbn in Hi'. rewrite (proj2 (proj2 Hkept)); [done|]. apply (linked_live _ _ _ _ i Hi'). by eexists.
  - eapply (confined_keep _ _ _ m _ []); [done|done|done|by rewrite app_nil_r|intros o; apply not_elem_of_nil|]. intros _ _ it Hit. cbn in *. rewrite lookup_insert_ne in Hit by lia. by rewrite El.
  - eapply (confined_keep _ _ _ m _ [Assigned j]); [done|done|done|done|intros o Hin; by apply list_elem_of_singleton in Hin|]. intros _ Hna it Hit. cbn in *. rewrite El.
    rewrite lookup_insert_ne in Hit by (intros ->; apply Hna; left). done.
  - eapply (confined_keep _ _ _ m _ l); [done|done|done|done|done|congruence].
Qed.

Lemma confined_start m m' : good (the_list m) (iters m) (next_iter m) (dead m) → policy_ (the_list m) = EXISTING_ONLY → loop_started m m' → inv m' → confined (length (log m)) (next_iter m) (members (observers_ (the_list m))) m'.
Proof.
  intros Hg Hp (Ha' & En & Hst) Hi'. assert (∃ e, log m' = log m ++ e) as [e El] by (destruct Hst as [[-> _]|(? & ? & -> & _)]; by eexists).
  split; [rewrite El, length_app; lia|]. split; [lia|]. right. destruct Hst as [(El' & Hnone & _)|(it & o & El' & Hit & Eobs & H0 & Hmax & _ & Eo)]; rewrite El', drop_app_length.
  - split; [by intros o Hin%list_elem_of_singleton|]. intros _ it Hit. congruence.
  - split; [intros q Hin; apply list_elem_of_singleton in Hin as [= ->]; apply members_elem; by eapply list_elem_of_lookup_2|]. intros _ it' Hit'. rewrite Hit in Hit'. injection Hit' as <-.
    rewrite Hmax, Eobs. unfold first_max. rewrite Hp. split; [lia|]. intros p q _ Eq. apply members_elem. by eapply list_elem_of_lookup_2.
Qed.

Lemma run_loop m0 es m : inv m0 → alive m0 = true → (allow_reentrancy = true ∨ live_iterators_ (the_list m0) = []) → run size_bits checked check_empty allow_reentrancy m0 (ELoop :: es) = Ret m →
  covers (length (log m0)) (next_iter m0) (members (observers_ (the_list m0))) m ∧
  (policy_ (the_list m0) = EXISTING_ONLY → confined (length (log m0)) (next_iter m0) (members (observers_ (the_list m0))) m).
Proof.
  intros Hi Ha Hc E. cbn [run] in E. destruct (covers_start m0 Hi Ha Hc) as (m1 & E1 & Hi1 & Hls & Hc1). rewrite E1 in E. cbn [mbind outcome_bind] in E.
  set (P := λ m, covers (length (log m0)) (next_iter m0) (members (observers_ (the_list m0))) m ∧
    (policy_ (the_list m0) = EXISTING_ONLY → confined (length (log m0)) (next_iter m0) (members (observers_ (the_list m0))) m)).
  destruct (run_preserves_observers P es m1) as (m' & E' & _ & HP).
  - intros m2 m3 Hi2 Hi3 [H1 H2] He. split; [by apply (covers_step _ _ _ m2 m3)|]. intros Hp. by eapply (confined_step _ _ _ m2 m3); [..|apply H2|].
  - done.
  - split; [done|]. intros Hp. apply confined_start; [|done|done|done]. unfold inv in Hi. by rewrite Ha in Hi.
  - assert (m' = m) as -> by congruence. exact HP.
Qed.
End Invariant.

(** C14: whatever a client does within the rules of [can_call], loops that nest or
    overlap, observers added and removed, iterators copied and assigned, the list
    cleared or destroyed inside a loop, the code fails no check and reads nothing
    outside the vector.  The count of observers is right at all times, and once
    the last iterator is gone no entry marked for removal is left. *)
Theorem observer_list_safe `{BuildMode} (size_bits : Z) (checked check_empty allow_reentrancy : bool) (policy : ObserverListPolicy) (es : list event) : 2 < 2 ^ size_bits →
  ∃ m, run size_bits checked check_empty allow_reentrancy (machine_init policy) es = Ret m ∧
    (alive m = true → empty (the_list m) = bool_decide (members (observers_ (the_list m)) = []) ∧ (live_iterators_ (the_list m) = [] → None ∉ observers_ (the_list m))).
Proof.
  intros Hb. destruct (run_preserves_observers size_bits checked check_empty allow_reentrancy Hb (λ _, True) es (machine_init policy)) as (m & E & Hi & _); [done|by apply observers_init_inv|done|].
  exists m. split; [done|]. intros Ha. unfold inv in Hi. rewrite Ha in Hi. split; [|apply Hi]. unfold empty. rewrite (good_count _ _ _ _ _ Hi). destruct (members _); [done|]. by rewrite bool_decide_false.
Qed.

Lemma observer_list_safe_witness :
  ∃ m, @run debug_build 64 true false true (machine_init ALL) [EAdd 1; EAdd 2; ELoop; ERemove 2; ELoop; EAdd 3; ENext 1; ENext 0; ENext 0]%nat = Ret m ∧
    (alive m = true → empty (the_list m) = bool_decide (members (observers_ (the_list m)) = []) ∧ (live_iterators_ (the_list m) = [] → None ∉ observers_ (the_list m))).
Proof. apply (@observer_list_safe debug_build 64 true false true ALL); lia. Defined.

(** C15: a loop over the list that comes to its end has visited every observer
    that was registered when it started, except those that were removed
    meanwhile, whatever the observers did to the list, unless its iterator was
    assigned or the list destroyed.  With the policy [EXISTING_ONLY] it has
    visited no others. *)
Theorem observer_list_delivers `{BuildMode} (size_bits : Z) (checked check_empty allow_reentrancy : bool) (policy : ObserverListPolicy) (es0 es : list event) (m0 m : machine) : 2 < 2 ^ size_bits →
  run size_bits checked check_empty allow_reentrancy (machine_init policy) es0 = Ret m0 → alive m0 = true → (allow_reentrancy = true ∨ live_iterators_ (the_list m0) = []) →
  run size_bits checked check_empty allow_reentrancy m0 (ELoop :: es) = Ret m →
  let i := next_iter m0 in let since := drop (length (log m0)) (log m) in
  Finished i ∈ since → ListDestroyed ∉ since → Assigned i ∉ since →
  (∀ o, Some o ∈ observers_ (the_list m0) → Visited i o ∈ since ∨ Removed o ∈ since ∨ Cleared ∈ since) ∧
  (policy_ (the_list m0) = EXISTING_ONLY → ∀ o, Visited i o ∈ since → Some o ∈ observers_ (the_list m0)).
Proof.
  intros Hb E0 Ha Hc E i since Hfin Hnd Hna.
  destruct (run_preserves_observers size_bits checked check_empty allow_reentrancy Hb (λ _, True) es0 (machine_init policy)) as (m0' & E0' & Hi & _); [done|by apply observers_init_inv|done|].
  assert (m0' = m0) as -> by congruence. destruct (run_loop size_bits checked check_empty allow_reentrancy Hb m0 es m Hi Ha Hc E) as [(_ & _ & Hcov) Hconf]. split.
  - intros o Ho. destruct Hcov as [|[_ Hall]]; [done|]. destruct (Hall o) as [Hs|[? _]]; [by apply members_elem| |done]. unfold settled in Hs. naive_solver.
  - intros Hp o Ho. destruct (Hconf Hp) as (_ & _ & [|[Hvis _]]); [done|]. by apply members_elem, Hvis.
Qed.

(** The machine after some events. *)
Definition after (policy : ObserverListPolicy) (es : list event) : machine :=
  match @run debug_build 64 true false true (machine_init policy) es with Ret m => m | Crash _ => machine_init policy end.

Lemma observer_list_delivers_witness : Visited 0 1 ∈ [Visited 0 1; Removed 2; Added 3; Finished 0]%nat ∨ Removed 1 ∈ [Visited 0 1; Removed 2; Added 3; Finished 0]%nat ∨ Cleared ∈ [Visited 0 1; Removed 2; Added 3; Finished 0]%nat.
Proof.
  apply (@observer_list_delivers debug_build 64 true false true EXISTING_ONLY [EAdd 1; EAdd 2] [ERemove 2; EAdd 3; ENext 0]%nat
    (after EXISTING_ONLY [EAdd 1; EAdd 2]) (after EXISTING_ONLY [EAdd 1; EAdd 2; ELoop; ERemove 2; EAdd 3; ENext 0]));
  first [lia | by left | by vm_compute | apply (bool_decide_unpack _); by vm_compute].
Defined.

(** C16: a loop visits only observers that are registered at that moment, and
    none twice unless it was removed and added again in between. *)
Theorem observer_list_visits `{BuildMode} (size_bits : Z) (checked check_empty allow_reentrancy : bool) (policy : ObserverListPolicy) (es : list event) (m : machine) : 2 < 2 ^ size_bits →
  run size_bits checked check_empty allow_reentrancy (machine_init policy) es = Ret m →
  ∀ l1 i o l2, log m = l1 ++ Visited i o :: l2 → o ∈ registered l1 ∧ ¬ seen i o l1.
Proof.
  intros Hb E. destruct (run_preserves_observers size_bits checked check_empty allow_reentrancy Hb trace_inv es (machine_init policy)) as (m' & E' & _ & Ht).
  - intros m1 m2 Hi1 Hi2 Ht He. by apply (trace_step size_bits Hb m1 m2).
  - by apply observers_init_inv.
  - split; cbn; try done.
    + intros l1 i o l2 El. by destruct l1.
    + by intros i o ?%not_elem_of_nil.
    + intros _ o. split; [by intros ?%elem_of_empty|by intros ?%not_elem_of_nil].
  - assert (m' = m) as -> by congruence. apply Ht.
Qed.

Lemma observer_list_visits_witness : 1%nat ∈ registered [Added 1; Added 2]%nat ∧ ¬ seen 0 1 [Added 1; Added 2]%nat.
Proof.
  apply (@observer_list_visits debug_build 64 true false true EXISTING_ONLY [EAdd 1; EAdd 2; ELoop; ERemove 2; EAdd 3; ENext 0]
    (after EXISTING_ONLY [EAdd 1; EAdd 2; ELoop; ERemove 2; EAdd 3; ENext 0]) ltac:(lia) ltac:(by vm_compute) [Added 1; Added 2]%nat 0%nat 1%nat [Removed 2; Added 3; Finished 0]%nat).
  by vm_compute.
Defined.

(** [Clear()] inside a loop in which an observer was removed: the entry that is
    already marked fails the check of [CheckedObserverAdapter::MarkForRemoval]. *)
Example clear_after_remove_checked :
  (m ← @run debug_build 64 true false true (machine_init ALL) [EAdd 1; EAdd 2; ELoop; ERemove 2]%nat; @Clear debug_build 64 true (dead m) (the_list m)) = Crash DCheckFailed.
Proof. by vm_compute. Qed.
