(* ===== verification/PartitionLayout.v ===== *)
(** * Buckets and addresses of the partition allocator

    Model of the size classes and of the address arithmetic of
    [src/include/base/allocator/partition_allocator/]: the compile-time table
    that maps a size to its bucket ([BucketIndexLookup] of [partition_root.h]),
    the division by a reciprocal ([partition_bucket.h]), the way from a pointer
    to the metadata of its slot span and back ([partition_page.h]), and the
    rounding of aligned requests.  The platform's word, alignment and page sizes
    are a parameter; pointers are integers of the width of [size_t]. *)

From stdpp Require Import gmap.
From S2P Require Import Prelude Bits.

(** ** Constants *)

Class Platform := {
  kBitsPerSizeT : Z;
  kAlignment : Z;
  PartitionPageShift : Z;
  SystemPageSize : Z
}.

(** [page_allocator_constants.h] and [partition_alloc_constants.h] define these
    for every platform: four system pages make a partition page. *)
Class PlatformLaws (P : Platform) := {
  word_size : kBitsPerSizeT = 32 ∨ kBitsPerSizeT = 64;
  alignment_supported : kAlignment = 8 ∨ kAlignment = 16;
  page_shift : 14 ≤ PartitionPageShift ≤ 18;
  system_page : 4 * SystemPageSize = 2 ^ PartitionPageShift
}.

Definition kNumBucketsPerOrderBits : Z := 3.
Definition kNumBucketsPerOrder : Z := Z.shiftl 1 kNumBucketsPerOrderBits.
Definition kMaxBucketedOrder : Z := 20.
Definition kMaxBucketSpacing : Z := Z.shiftl 1 ((kMaxBucketedOrder - 1) - kNumBucketsPerOrderBits).
Definition kMaxBucketed : Z := Z.shiftl 1 (kMaxBucketedOrder - 1) + (kNumBucketsPerOrder - 1) * kMaxBucketSpacing.
Definition kMaxPartitionPagesPerSlotSpan : Z := 4.
Definition kSuperPageShift : Z := 21.
Definition kSuperPageSize : Z := Z.shiftl 1 kSuperPageShift.
Definition kSuperPageAlignment : Z := kSuperPageSize.
Definition kSuperPageOffsetMask : Z := kSuperPageAlignment - 1.
Definition kPageMetadataShift : Z := 5.
Definition kPageMetadataSize : Z := Z.shiftl 1 kPageMetadataShift.

Section Constants.
Context `{P : Platform}.

(** A value of type [size_t] or [uintptr_t]. *)
Definition size (z : Z) : Z := wrapU kBitsPerSizeT z.

Definition kMinBucketedOrder : Z := if kAlignment =? 16 then 5 else 4.
Definition kNumBucketedOrders : Z := (kMaxBucketedOrder - kMinBucketedOrder) + 1.
Definition kNumBuckets : Z := kNumBucketedOrders * kNumBucketsPerOrder.
Definition kSmallestBucket : Z := Z.shiftl 1 (kMinBucketedOrder - 1).

Definition PartitionPageSize : Z := Z.shiftl 1 PartitionPageShift.
Definition NumSystemPagesPerPartitionPage : Z := PartitionPageSize / SystemPageSize.
Definition MaxSystemPagesPerSlotSpan : Z := NumSystemPagesPerPartitionPage * kMaxPartitionPagesPerSlotSpan.
Definition kSuperPageBaseMask : Z := size (Z.lnot kSuperPageOffsetMask).
Definition NumPartitionPagesPerSuperPage : Z := kSuperPageSize / PartitionPageSize.
Definition MaxDirectMapped : Z := Z.shiftl 1 31 - kSuperPageSize.

(** ** The table of buckets *)

Definition OrderIndexShift (order : Z) : Z :=
  if order <? kNumBucketsPerOrderBits + 1 then 0
  else convert uint8_t (order - (kNumBucketsPerOrderBits + 1)).

Definition OrderSubIndexMask (order : Z) : Z :=
  if order =? kBitsPerSizeT then Z.shiftr (size (-1)) (kNumBucketsPerOrderBits + 1)
  else Z.shiftr (size (size (Z.shiftl 1 order) - 1)) (kNumBucketsPerOrderBits + 1).

Definition kOrderIndexShift : list Z := map OrderIndexShift (seqZ 0 (kBitsPerSizeT + 1)).
Definition kOrderSubIndexMask : list Z := map OrderSubIndexMask (seqZ 0 (kBitsPerSizeT + 1)).

(** [*p = v] and [a[p]] for a pointer into an array. *)
Definition store (a : list Z) (p : nat) (v : Z) : outcome (list Z) :=
  if decide (p < length a)%nat then Ret (<[p := v]> a) else Crash OutOfBounds.
Definition load (a : list Z) (p : nat) : outcome Z := from_option_or OutOfBounds (a !! p).

(** The inner loop of [InitBucketSizes]: the array, the pointer into it and the
    current size change. *)
Fixpoint sizes_loop (n : nat) (current_increment : Z) (s : list Z * nat * Z) : outcome (list Z * nat * Z) :=
  match n with
  | O => Ret s
  | S n =>
      let '(bucket_sizes, bucket_size, current_size) := s in
      a ← store bucket_sizes bucket_size current_size;
      sizes_loop n current_increment (a, S bucket_size, size (current_size + current_increment))
  end.

Fixpoint orders_loop (n : nat) (current_increment : Z) (s : list Z * nat * Z) : outcome (list Z * nat * Z) :=
  match n with
  | O => Ret s
  | S n =>
      s ← sizes_loop (Z.to_nat kNumBucketsPerOrder) current_increment s;
      orders_loop n (size (Z.shiftl current_increment 1)) s
  end.

Definition InitBucketSizes : outcome (list Z) :=
  '(a, _, _) ← orders_loop (Z.to_nat kNumBucketedOrders) (Z.shiftr kSmallestBucket kNumBucketsPerOrderBits)
                 (replicate (Z.to_nat kNumBuckets) 0, 0%nat, kSmallestBucket);
  Ret a.

(** [while (bucket_sizes_[i] % kSmallestBucket) i++]: a pass advances the index
    in the array, so one more than its length is enough. *)
Fixpoint valid_loop (fuel : nat) (bucket_sizes : list Z) (valid_bucket_index : nat) : outcome nat :=
  match fuel with
  | O => Crash OutOfBounds
  | S fuel =>
      b ← load bucket_sizes valid_bucket_index;
      if negb (b mod kSmallestBucket =? 0) then valid_loop fuel bucket_sizes (S valid_bucket_index)
      else Ret valid_bucket_index
  end.

(** One pass of the loop over [j]: the table, the pointer into it, the index of
    the bucket. *)
Definition fill_one (bucket_sizes : list Z) (order : Z) (s : list Z * nat * Z) : outcome (list Z * nat * Z) :=
  let '(table, ptr, bucket_index) := s in
  if order <? kMinBucketedOrder then (a ← store table ptr 0; Ret (a, S ptr, bucket_index))
  else if kMaxBucketedOrder <? order then (a ← store table ptr kNumBuckets; Ret (a, S ptr, bucket_index))
  else
    v ← valid_loop (S (length bucket_sizes)) bucket_sizes (Z.to_nat bucket_index);
    a ← store table ptr (Z.of_nat v);
    Ret (a, S ptr, convert uint16_t (bucket_index + 1)).

Fixpoint fill_order (n : nat) (bucket_sizes : list Z) (order : Z) (s : list Z * nat * Z) : outcome (list Z * nat * Z) :=
  match n with
  | O => Ret s
  | S n => s ← fill_one bucket_sizes order s; fill_order n bucket_sizes order s
  end.

Fixpoint fill_orders (orders : list Z) (bucket_sizes : list Z) (s : list Z * nat * Z) : outcome (list Z * nat * Z) :=
  match orders with
  | [] => Ret s
  | order :: orders =>
      s ← fill_order (Z.to_nat kNumBucketsPerOrder) bucket_sizes order s;
      fill_orders orders bucket_sizes s
  end.

Record BucketIndexLookup := mkLookup { bucket_sizes_ : list Z; bucket_index_lookup_ : list Z }.

Definition BucketIndexLookup_make `{BuildMode} : outcome BucketIndexLookup :=
  sizes ← InitBucketSizes;
  '(table, ptr, bucket_index) ← fill_orders (seqZ 0 (kBitsPerSizeT + 1)) sizes
      (replicate (Z.to_nat ((kBitsPerSizeT + 1) * kNumBucketsPerOrder + 1)) 0, 0%nat, 0);
  _ ← RTC_DCHECK (bucket_index =? kNumBuckets);
  _ ← RTC_DCHECK (bool_decide (ptr = Z.to_nat ((kBitsPerSizeT + 1) * kNumBucketsPerOrder)));
  table ← store table ptr kNumBuckets;
  Ret (mkLookup sizes table).

(** [CountLeadingZeroBitsSizeT]. *)
Definition CountLeadingZeroBitsSizeT (x : Z) : outcome Z := Base.CountLeadingZeroBits kBitsPerSizeT x.

Definition GetIndex `{BuildMode} (size_ : Z) : outcome Z :=
  lookup ← BucketIndexLookup_make;
  z ← CountLeadingZeroBitsSizeT size_;
  let order := convert uint8_t (kBitsPerSizeT - z) in
  shift ← load kOrderIndexShift (Z.to_nat order);
  s ← shr (IntType kBitsPerSizeT false) size_ shift;
  let order_index := Z.land s (kNumBucketsPerOrder - 1) in
  mask ← load kOrderSubIndexMask (Z.to_nat order);
  let sub_order_index := Z.land size_ mask in
  index ← load (bucket_index_lookup_ lookup)
            (Z.to_nat (Z.shiftl order kNumBucketsPerOrderBits + order_index
                       + (if sub_order_index =? 0 then 0 else 1)));
  _ ← RTC_DCHECK (index <=? kNumBuckets);
  Ret index.
End Constants.

(** ** The bucket of a size *)

Section Lookup.
Context `{P : Platform}.

(** The sizes of the buckets: eight per power of two, equally spaced. *)
Definition bucket_size (i : Z) : Z := (8 + i mod 8) * 2 ^ (kMinBucketedOrder - 4 + i / 8).

(** Buckets whose size is no multiple of the smallest one are never used. *)
Definition valid_bucket (i : Z) : bool := bucket_size i mod kSmallestBucket =? 0.

Lemma min_order : kMinBucketedOrder = 4 ∨ kMinBucketedOrder = 5.
Proof. unfold kMinBucketedOrder. destruct (kAlignment =? 16); auto. Qed.

Lemma bucket_size_succ i : 0 ≤ i → bucket_size (i + 1) = bucket_size i + 2 ^ (kMinBucketedOrder - 4 + i / 8).
Proof.
  intros Hi. pose proof min_order as Hm. unfold bucket_size.
  pose proof (Z.div_mod i 8 ltac:(lia)) as Hd. pose proof (Z.mod_pos_bound i 8 ltac:(lia)) as Hb.
  destruct (decide (i mod 8 = 7)) as [E|E].
  - replace ((i + 1) / 8) with (i / 8 + 1) by (apply (Z.div_unique _ _ _ 0); lia).
    replace ((i + 1) mod 8) with 0 by (apply (Z.mod_unique _ _ (i / 8 + 1)); lia).
    rewrite E, Z.add_assoc, Z.pow_add_r by (pose proof (Z.div_pos i 8); lia). lia.
  - replace ((i + 1) / 8) with (i / 8) by (apply (Z.div_unique _ _ _ (i mod 8 + 1)); lia).
    replace ((i + 1) mod 8) with (i mod 8 + 1) by (apply (Z.mod_unique _ _ (i / 8)); lia). lia.
Qed.

Lemma bucket_size_mono i j : 0 ≤ i → i < j → bucket_size i < bucket_size j.
Proof.
  intros Hi. replace j with (i + 1 + (j - i - 1)) by lia. intros Hj.
  assert (∀ d, 0 ≤ d → bucket_size i < bucket_size (i + 1 + d)) as H; [|apply H; lia].
  apply natlike_ind.
  - rewrite Z.add_0_r, bucket_size_succ by lia. pose proof min_order.
    pose proof (pow2_pos (kMinBucketedOrder - 4 + i / 8)) as Hp. pose proof (Z.div_pos i 8). lia.
  - intros d Hd IH. rewrite Z.add_succ_r, <-Z.add_1_r, bucket_size_succ by lia. pose proof min_order.
    pose proof (pow2_pos (kMinBucketedOrder - 4 + (i + 1 + d) / 8)) as Hp.
    pose proof (Z.div_pos (i + 1 + d) 8). lia.
Qed.

(** What the constructor leaves at a position of the table. *)
Definition entry_ok (k e : Z) : bool :=
  if k <? 8 * kMinBucketedOrder then e =? 0
  else if 8 * (kMaxBucketedOrder + 1) <=? k then e =? kNumBuckets
  else let j := k - 8 * kMinBucketedOrder in
       (j <=? e) && (e <? kNumBuckets) && valid_bucket e && forallb (λ i, negb (valid_bucket i)) (seqZ j (e - j))
       && ((j <? 24) || (e =? j)).

Definition table_ok (l : BucketIndexLookup) : bool :=
  (Z.of_nat (length (bucket_sizes_ l)) =? kNumBuckets) &&
  forallb (λ '(i, s), s =? bucket_size i) (zip (seqZ 0 kNumBuckets) (bucket_sizes_ l)) &&
  (Z.of_nat (length (bucket_index_lookup_ l)) =? 8 * (kBitsPerSizeT + 1) + 1) &&
  forallb (λ '(k, e), entry_ok k e) (zip (seqZ 0 (8 * (kBitsPerSizeT + 1) + 1)) (bucket_index_lookup_ l)).

End Lookup.

(** The constructor returns on every platform, in both build modes. *)
Lemma lookup_made `{P : Platform} {L : PlatformLaws P} `{BuildMode} : ∃ l, BucketIndexLookup_make = Ret l ∧ table_ok l = true.
Proof.
  destruct P as [b a ps sp], L as [Hb Ha _ _]; cbn in Hb, Ha.
  destruct H as [[]]; destruct Hb as [-> | ->], Ha as [-> | ->];
    (match goal with |- ∃ l, ?m = _ ∧ _ => let v := eval vm_compute in m in
       match v with Ret ?l => exists l end end; split; vm_compute; reflexivity).
Qed.

Section BucketOfSize.
Context `{P : Platform} {L : PlatformLaws P} `{BuildMode}.

Lemma word_pos : 32 ≤ kBitsPerSizeT ≤ 64.
Proof. destruct word_size; lia. Qed.

Lemma word_nonzero : 0 < kBitsPerSizeT.
Proof. pose proof word_pos. lia. Qed.

(** The order of a size is the number of its significant bits. *)
Definition order_of (n : Z) : Z := if n =? 0 then 0 else Z.log2 n + 1.

Lemma order_range n : 0 ≤ n < 2 ^ kBitsPerSizeT → 0 ≤ order_of n ≤ kBitsPerSizeT.
Proof.
  intros Hn. unfold order_of. pose proof word_pos. destruct (Z.eqb_spec n 0); [lia|].
  pose proof (Z.log2_nonneg n). pose proof (log2_lt kBitsPerSizeT n word_nonzero Hn). lia.
Qed.

Lemma order_bounds n : 0 < n → 2 ^ (order_of n - 1) ≤ n < 2 ^ order_of n.
Proof.
  intros Hn. unfold order_of. destruct (Z.eqb_spec n 0); [lia|].
  replace (Z.log2 n + 1 - 1) with (Z.log2 n) by lia. rewrite Z.add_1_r. by apply Z.log2_spec.
Qed.

Lemma leading_zeros_size n : 0 ≤ n < 2 ^ kBitsPerSizeT → CountLeadingZeroBitsSizeT n = Ret (kBitsPerSizeT - order_of n).
Proof.
  intros Hn. unfold CountLeadingZeroBitsSizeT, Base.CountLeadingZeroBits, order_of, builtin_clz, clz.
  pose proof (log2_lt kBitsPerSizeT n word_nonzero Hn). pose proof (Z.log2_nonneg n).
  destruct (Z.eqb_spec n 0) as [->|]; [f_equal; lia|].
  destruct word_size as [E|E]; rewrite E in *; simpl; [|f_equal; lia].
  cbn [mbind outcome_bind]. rewrite wrapU_small by lia. f_equal. lia.
Qed.

Lemma seqZ_at (f : Z → Z) n k : 0 ≤ k < n → load (map f (seqZ 0 n)) (Z.to_nat k) = Ret (f k).
Proof.
  intros Hk. unfold load. change (map f (seqZ 0 n)) with (f <$> seqZ 0 n). rewrite list_lookup_fmap, lookup_seqZ_lt by lia. simpl. do 2 f_equal. lia.
Qed.

(** The position of the table that a size selects. *)
Definition position (n : Z) : Z :=
  let o := order_of n in
  8 * o + Z.land (Z.shiftr n (OrderIndexShift o)) 7 + (if Z.land n (OrderSubIndexMask o) =? 0 then 0 else 1).

Lemma land_7 n : 0 ≤ n → 0 ≤ Z.land n 7 ≤ 7.
Proof. intros. change 7 with (Z.ones 3) at 1 2. rewrite Z.land_ones by lia. pose proof (Z.mod_pos_bound n (2 ^ 3)). lia. Qed.

Lemma order_index_shift o : 0 ≤ o ≤ kBitsPerSizeT → OrderIndexShift o = Z.max 0 (o - 4).
Proof.
  intros Ho. unfold OrderIndexShift, kNumBucketsPerOrderBits. pose proof word_pos. destruct (Z.ltb_spec o (3 + 1)); [lia|].
  unfold convert; simpl. rewrite wrapU_small by lia. lia.
Qed.

Lemma order_mask o : 0 ≤ o ≤ kBitsPerSizeT → OrderSubIndexMask o = Z.ones (Z.max 0 (o - 4)).
Proof.
  intros Ho. unfold OrderSubIndexMask, kNumBucketsPerOrderBits, size. pose proof word_pos.
  assert (Z.shiftr (2 ^ o - 1) (3 + 1) = Z.ones (Z.max 0 (o - 4))) as E.
  { rewrite Z.shiftr_div_pow2 by lia. destruct (decide (o < 4)).
    - replace (Z.max 0 (o - 4)) with 0 by lia. apply Z.div_small. pose proof (pow2_pos o ltac:(lia)).
      assert (2 ^ o ≤ 2 ^ (3 + 1)) by (apply Z.pow_le_mono_r; lia). lia.
    - replace (Z.max 0 (o - 4)) with (o - 4) by lia. rewrite Z.ones_equiv.
      replace o with (o - 4 + (3 + 1)) at 1 by lia. rewrite Z.pow_add_r by lia. symmetry.
      apply (Z.div_unique _ _ _ (2 ^ (3 + 1) - 1)); lia. }
  destruct (Z.eqb_spec o kBitsPerSizeT) as [->|Hne]; [rewrite <-E; f_equal; unfold wrapU|].
  - rewrite <-(Z_mod_plus_full _ 1), Z.mul_1_l. pose proof (pow2_pos kBitsPerSizeT (Z.lt_le_incl _ _ word_nonzero)). rewrite Z.mod_small; lia.
  - rewrite Z.shiftl_1_l. assert (2 ^ o < 2 ^ kBitsPerSizeT) by (apply Z.pow_lt_mono_r; lia). pose proof (pow2_pos o ltac:(lia)).
    rewrite (wrapU_small _ (2 ^ o)), wrapU_small by lia. done.
Qed.

(** [GetIndex] looks the position up. *)
Lemma get_index_entry n : 0 ≤ n < 2 ^ kBitsPerSizeT → ∃ e, GetIndex n = Ret e ∧ entry_ok (position n) e = true ∧ 0 ≤ position n.
Proof.
  intros Hn. destruct lookup_made as (l & El & Ht). unfold GetIndex. rewrite El. cbn [mbind outcome_bind].
  rewrite leading_zeros_size by done. cbn [mbind outcome_bind]. pose proof word_pos. pose proof (order_range n Hn) as Ho.
  replace (convert uint8_t (kBitsPerSizeT - (kBitsPerSizeT - order_of n))) with (order_of n)
    by (unfold convert; simpl; rewrite wrapU_small; lia).
  unfold kOrderIndexShift, kOrderSubIndexMask. rewrite !seqZ_at by lia. cbn [mbind outcome_bind].
  rewrite spl_shr_ok by (simpl; rewrite order_index_shift; lia). cbn [mbind outcome_bind].
  rewrite Z.shiftl_mul_pow2, (Z.mul_comm (order_of n)) by done. change (2 ^ kNumBucketsPerOrderBits) with 8. change (kNumBucketsPerOrder - 1) with 7.
  fold (position n). assert (0 ≤ position n ≤ 8 * (kBitsPerSizeT + 1)) as Hp.
  { unfold position. pose proof (land_7 (Z.shiftr n (OrderIndexShift (order_of n))) ltac:(apply Z.shiftr_nonneg; lia)). case_match; lia. }
  unfold table_ok in Ht. apply andb_prop in Ht as [Ht He]. apply andb_prop in Ht as [_ Hl]. apply Z.eqb_eq in Hl.
  destruct (lookup_lt_is_Some_2 (bucket_index_lookup_ l) (Z.to_nat (position n))) as [e E]; [lia|].
  unfold load. rewrite E. cbn [mbind outcome_bind from_option_or].
  assert (entry_ok (position n) e = true) as Hok.
  { apply (proj1 (forallb_forall _ _) He (position n, e)).
    apply list_elem_of_In, (list_elem_of_lookup_2 _ (Z.to_nat (position n))). apply lookup_zip_Some. split; [|done].
    rewrite lookup_seqZ_lt by lia. f_equal. lia. }
  exists e. split; [|split; [done|lia]]. unfold RTC_DCHECK.
  replace (e <=? kNumBuckets) with true; [rewrite andb_false_r; done|].
  symmetry. apply Z.leb_le. assert (0 ≤ kNumBuckets) by (unfold kNumBuckets, kNumBucketedOrders; pose proof min_order; change kMaxBucketedOrder with 20; change kNumBucketsPerOrder with 8; lia).
  unfold entry_ok in Hok. repeat case_match; lia.
Qed.

Lemma position_small n : 0 ≤ n < 2 ^ kBitsPerSizeT → order_of n < kMinBucketedOrder → position n < 8 * kMinBucketedOrder.
Proof.
  intros Hn Ho. pose proof (order_range n Hn). pose proof min_order. unfold position.
  rewrite order_mask, order_index_shift by lia. replace (Z.max 0 (order_of n - 4)) with 0 by lia.
  change (Z.ones 0) with 0. rewrite Z.land_0_r, Z.shiftr_0_r. pose proof (land_7 n ltac:(lia)). simpl. lia.
Qed.

Lemma position_large n : 0 ≤ n < 2 ^ kBitsPerSizeT → kMaxBucketedOrder < order_of n → 8 * (kMaxBucketedOrder + 1) ≤ position n.
Proof.
  intros Hn Ho. unfold position.
  pose proof (land_7 (Z.shiftr n (OrderIndexShift (order_of n))) ltac:(apply Z.shiftr_nonneg; lia)). case_match; lia.
Qed.

(** In a bucketed order, the position is that of the smallest bucket that is
    large enough, valid or not. *)
Lemma position_bucketed n : 0 ≤ n < 2 ^ kBitsPerSizeT → kMinBucketedOrder ≤ order_of n →
  let j := position n - 8 * kMinBucketedOrder in
  0 ≤ j ∧ n ≤ bucket_size j ∧ 8 * (bucket_size j - n) < n ∧ (0 < j → bucket_size (j - 1) < n).
Proof.
  intros Hn Ho j. pose proof (order_range n Hn) as Hr. pose proof min_order as Hm.
  assert (0 < n) as Hpos by (unfold order_of in Ho; destruct (Z.eqb_spec n 0); lia).
  pose proof (order_bounds n Hpos) as Hb. subst j. unfold position.
  rewrite order_mask, order_index_shift by lia. set (o := order_of n) in *. replace (Z.max 0 (o - 4)) with (o - 4) by lia.
  rewrite Z.land_ones, Z.shiftr_div_pow2 by lia. change 7 with (Z.ones 3). rewrite Z.land_ones by lia. change (2 ^ 3) with 8.
  set (s := 2 ^ (o - 4)). assert (0 < s) as Hs by (apply pow2_pos; lia).
  assert (2 ^ (o - 1) = 8 * s ∧ 2 ^ o = 16 * s) as [E1 E2].
  { unfold s. change 8 with (2 ^ 3). change 16 with (2 ^ 4). rewrite <-!Z.pow_add_r by lia. split; f_equal; lia. }
  rewrite E1, E2 in Hb. pose proof (Z.div_mod n s ltac:(lia)) as Hd. pose proof (Z.mod_pos_bound n s Hs) as Hrem.
  set (q := n / s) in *. set (r := n mod s) in *. assert (8 ≤ q < 16) as Hq by nia.
  replace (q mod 8) with (q - 8) by (apply (Z.mod_unique _ _ 1); lia).
  set (i := 8 * (o - kMinBucketedOrder) + (q - 8)).
  assert (i / 8 = o - kMinBucketedOrder ∧ i mod 8 = q - 8) as [Ei1 Ei2]
    by (split; [symmetry; apply (Z.div_unique _ _ _ (q - 8)) | symmetry; apply (Z.mod_unique _ _ (o - kMinBucketedOrder))]; lia).
  assert (bucket_size i = q * s) as Esz.
  { unfold bucket_size. rewrite Ei1, Ei2. unfold s. replace (kMinBucketedOrder - 4 + (o - kMinBucketedOrder)) with (o - 4) by lia. f_equal. lia. }
  destruct (Z.eqb_spec r 0) as [E0|E0].
  - replace (8 * o + (q - 8) + 0 - 8 * kMinBucketedOrder) with i by lia. split_and!; [lia|nia|nia|].
    intros Hi. pose proof (bucket_size_mono (i - 1) i ltac:(lia) ltac:(lia)). nia.
  - replace (8 * o + (q - 8) + 1 - 8 * kMinBucketedOrder) with (i + 1) by lia.
    rewrite bucket_size_succ, Ei1 by lia. replace (kMinBucketedOrder - 4 + (o - kMinBucketedOrder)) with (o - 4) by lia. fold s.
    replace (i + 1 - 1) with i by lia. split_and!; [lia|nia|nia|]. intros _. nia.
Qed.

(** The buckets end where the table says. *)
Lemma kMaxBucketed_last : kMaxBucketed = bucket_size (kNumBuckets - 1) ∧ kNumBuckets = 8 * (kMaxBucketedOrder + 1) - 8 * kMinBucketedOrder.
Proof.
  unfold kNumBuckets, kNumBucketedOrders, bucket_size. change kMaxBucketedOrder with 20. change kNumBucketsPerOrder with 8.
  destruct min_order as [-> | ->]; vm_compute; auto.
Qed.

Lemma smallest_bucket : bucket_size 0 = kSmallestBucket ∧ valid_bucket 0 = true.
Proof. unfold valid_bucket, bucket_size, kSmallestBucket. destruct min_order as [-> | ->]; vm_compute; auto. Qed.

Lemma bucket_24 : bucket_size 24 = 8 * kSmallestBucket.
Proof. unfold bucket_size, kSmallestBucket. destruct min_order as [-> | ->]; vm_compute; auto. Qed.
End BucketOfSize.

Section BucketIndexExact.
Context `{P : Platform} {L : PlatformLaws P} `{BuildMode}.

(** The least bucket that may be used for [n] bytes. *)
Definition best_bucket (n i : Z) : Prop :=
  0 ≤ i < kNumBuckets ∧ valid_bucket i = true ∧ n ≤ bucket_size i ∧
  ∀ j, 0 ≤ j → valid_bucket j = true → n ≤ bucket_size j → i ≤ j.

Lemma get_index_bucketed n : 0 ≤ n ≤ kMaxBucketed →
  ∃ i, GetIndex n = Ret i ∧ best_bucket n i ∧ (8 * kSmallestBucket ≤ n → 8 * (bucket_size i - n) < n).
Proof.
  intros Hn. assert (kMaxBucketed < 2 ^ kBitsPerSizeT) as Hw.
  { apply (Z.lt_le_trans _ (2 ^ 32)); [done|]. apply Z.pow_le_mono_r; pose proof word_pos; lia. }
  assert (0 ≤ n < 2 ^ kBitsPerSizeT) as Hr by lia. destruct (get_index_entry n Hr) as (e & E & He & Hp0). exists e. split; [done|]. unfold entry_ok in He.
  pose proof min_order as Hm. destruct smallest_bucket as [E0 V0]. destruct kMaxBucketed_last as [El Ek].
  change kMaxBucketedOrder with 20 in *. destruct (decide (order_of n < kMinBucketedOrder)) as [Ho|Ho].
  - pose proof (position_small n Hr Ho) as Hp. rewrite (proj2 (Z.ltb_lt _ _) Hp) in He. apply Z.eqb_eq in He as ->.
    assert (n < kSmallestBucket) as Hs.
    { unfold kSmallestBucket. rewrite Z.shiftl_1_l. destruct (decide (n = 0)) as [->|]; [apply pow2_pos; lia|].
      pose proof (order_bounds n ltac:(lia)). apply (Z.lt_le_trans _ (2 ^ order_of n)); [lia|]. apply Z.pow_le_mono_r; lia. }
    split; [|lia]. split_and!; [lia|lia|done|lia|]. intros; lia.
  - destruct (position_bucketed n Hr (proj1 (Z.nlt_ge _ _) Ho)) as (Hj & Hle & Hw8 & Hlt). set (j := position n - 8 * kMinBucketedOrder) in *.
    assert (j < kNumBuckets) as Hjb.
    { destruct (decide (j < kNumBuckets)) as [|Hg]; [done|]. exfalso.
      assert (kMaxBucketed ≤ bucket_size (j - 1)); [|lia]. rewrite El. destruct (decide (kNumBuckets - 1 = j - 1)) as [->|]; [lia|].
      apply Z.lt_le_incl, bucket_size_mono; lia. }
    rewrite (proj2 (Z.ltb_ge _ _)) in He by lia. rewrite (proj2 (Z.leb_gt _ _)) in He by lia. fold j in He. cbv zeta in He.
    rewrite !andb_true_iff in He. destruct He as ((((H1 & H2) & H3) & H4) & H5).
    assert (∀ i, 0 ≤ i → valid_bucket i = true → n ≤ bucket_size i → e ≤ i) as Hleast.
    { intros i Hi Hv Hs. destruct (decide (e ≤ i)) as [|Hg]; [done|]. exfalso.
      assert (j ≤ i). { destruct (decide (j ≤ i)); [done|]. destruct (decide (i = j - 1)) as [->|]; [lia|]. pose proof (bucket_size_mono i (j - 1)). lia. }
      assert (negb (valid_bucket i) = true); [|by rewrite Hv in *]. apply (proj1 (forallb_forall _ _) H4), list_elem_of_In, elem_of_seqZ. lia. }
    split; [split_and!; [lia|lia|done| |done]|].
    + destruct (decide (j = e)) as [<-|]; [done|]. pose proof (bucket_size_mono j e). lia.
    + intros Hbig. assert (e = j) as ->; [|done]. destruct (Z.ltb_spec j 24) as [Hsm|]; [|simpl in H5; lia].
      pose proof (bucket_size_mono j 24 ltac:(lia) Hsm). rewrite bucket_24 in *. lia.
Qed.

Lemma init_bucket_sizes : ∃ sizes, InitBucketSizes = Ret sizes ∧ Z.of_nat (length sizes) = kNumBuckets ∧
  ∀ i, 0 ≤ i < kNumBuckets → sizes !! Z.to_nat i = Some (bucket_size i).
Proof.
  destruct lookup_made as (l & El & Ht). unfold BucketIndexLookup_make in El.
  destruct InitBucketSizes as [sizes|] eqn:Es; [|done]. exists sizes. split; [done|].
  assert (bucket_sizes_ l = sizes) as <-.
  { cbn [mbind outcome_bind] in El. destruct (fill_orders _ _ _) as [[[table ptr] b]|]; [|done]. cbn [mbind outcome_bind] in El.
    destruct (RTC_DCHECK (b =? kNumBuckets)); [|done]. cbn [mbind outcome_bind] in El.
    destruct (RTC_DCHECK _); [|done]. cbn [mbind outcome_bind] in El. destruct (store _ _ _); [|done]. by injection El as <-. }
  unfold table_ok in Ht. rewrite !andb_true_iff in Ht. destruct Ht as (((Hl & Hs) & _) & _). apply Z.eqb_eq in Hl.
  split; [done|]. intros i Hi. destruct (lookup_lt_is_Some_2 (bucket_sizes_ l) (Z.to_nat i)) as [e E]; [lia|]. rewrite E. f_equal.
  apply Z.eqb_eq, (proj1 (forallb_forall _ _) Hs (i, e)), list_elem_of_In, (list_elem_of_lookup_2 _ (Z.to_nat i)), lookup_zip_Some.
  split; [|done]. rewrite lookup_seqZ_lt by lia. f_equal. lia.
Qed.

Lemma get_index_direct n : kMaxBucketed < n < 2 ^ kBitsPerSizeT → GetIndex n = Ret kNumBuckets.
Proof.
  intros Hn. assert (0 ≤ n < 2 ^ kBitsPerSizeT) as Hr by (change kMaxBucketed with 983040 in Hn; lia).
  destruct (get_index_entry n Hr) as (e & E & He & Hp0). rewrite E. f_equal. unfold entry_ok in He.
  destruct kMaxBucketed_last as [El Ek]. pose proof min_order.
  assert (8 * (kMaxBucketedOrder + 1) ≤ position n) as Hp.
  { destruct (decide (kMaxBucketedOrder < order_of n)); [by apply position_large|].
    assert (kMinBucketedOrder ≤ order_of n) as Ho.
    { pose proof (order_bounds n). assert (2 ^ 19 < n) by (change kMaxBucketed with 983040 in Hn; lia).
      destruct (decide (kMinBucketedOrder ≤ order_of n)); [done|]. assert (2 ^ order_of n ≤ 2 ^ 19) by (apply Z.pow_le_mono_r; lia). lia. }
    destruct (position_bucketed n Hr Ho) as (Hj & Hle & _). rewrite El in Hn.
    destruct (decide (8 * (kMaxBucketedOrder + 1) ≤ position n)); [done|].
    set (j := position n - 8 * kMinBucketedOrder) in *. assert (j ≤ kNumBuckets - 1) as Hk by lia.
    destruct (decide (j = kNumBuckets - 1)) as [E'|]; [rewrite E' in Hle; lia|]. pose proof (bucket_size_mono j (kNumBuckets - 1)). lia. }
  change kMaxBucketedOrder with 20 in *. rewrite (proj2 (Z.ltb_ge _ _)) in He by lia. rewrite (proj2 (Z.leb_le _ _)) in He by lia. lia.
Qed.

(** C24: The compile-time table is built without leaving its arrays and, for
    every size, gives the bucket to allocate from: up to [kMaxBucketed] bytes
    the smallest bucket in use that is large enough, which from eight times the
    smallest bucket on wastes less than an eighth of the request; beyond it the
    sentinel that stands for direct mapping. *)
Theorem bucket_index_exact n : 0 ≤ n < 2 ^ kBitsPerSizeT →
  (∃ sizes, InitBucketSizes = Ret sizes ∧ Z.of_nat (length sizes) = kNumBuckets ∧
     ∀ i, 0 ≤ i < kNumBuckets → sizes !! Z.to_nat i = Some (bucket_size i)) ∧
  ∃ i, GetIndex n = Ret i ∧
    if n <=? kMaxBucketed
    then best_bucket n i ∧ (8 * kSmallestBucket ≤ n → 8 * (bucket_size i - n) < n)
    else i = kNumBuckets.
Proof.
  intros Hn. split; [apply init_bucket_sizes|]. destruct (Z.leb_spec n kMaxBucketed).
  - destruct (get_index_bucketed n) as (i & Hi & Hb); [lia|]. eauto.
  - exists kNumBuckets. split; [|done]. apply get_index_direct. lia.
Qed.
End BucketIndexExact.

(** The platforms of Android: 32-bit and 64-bit. *)
Definition android_32 : Platform := {| kBitsPerSizeT := 32; kAlignment := 8; PartitionPageShift := 14; SystemPageSize := 4096 |}.
Definition android_64 : Platform := {| kBitsPerSizeT := 64; kAlignment := 16; PartitionPageShift := 14; SystemPageSize := 4096 |}.

#[export] Instance android_32_laws : PlatformLaws android_32.
Proof. split; cbn; auto; lia. Qed.
#[export] Instance android_64_laws : PlatformLaws android_64.
Proof. split; cbn; auto; lia. Qed.

Lemma bucket_index_exact_witness : ∃ i, @GetIndex android_64 debug_build 100 = Ret i ∧ best_bucket (P := android_64) 100 i.
Proof.
  destruct (@bucket_index_exact android_64 android_64_laws debug_build 100 ltac:(cbn; lia)) as [_ (i & E & Hb)].
  exists i. split; [exact E|exact (proj1 Hb)].
Defined.

(** ** Division by a reciprocal *)

Record PartitionBucket := mkBucket {
  active_slot_spans_head : Z;
  slot_size : Z;
  num_system_pages_per_slot_span : Z;
  slot_size_reciprocal : Z
}.

Definition kReciprocalShift : Z := 42.
Definition kReciprocalMask : Z := Z.shiftl 1 kReciprocalShift - 1.

Section Bucket.
Context `{P : Platform} `{BuildMode}.

(** A [PA_DCHECK] whose condition is a computation that can fail itself. *)
Definition PA_DCHECK (condition : outcome bool) : outcome unit :=
  if RTC_DCHECK_IS_ON then (c ← condition; RTC_DCHECK c) else Ret tt.

Definition is_direct_mapped (b : PartitionBucket) : bool := num_system_pages_per_slot_span b =? 0.

Definition get_bytes_per_span (b : PartitionBucket) : Z := size (num_system_pages_per_slot_span b * SystemPageSize).

(** Integer division by zero does not return. *)
Definition get_slots_per_span (b : PartitionBucket) : outcome Z :=
  q ← c_div (IntType kBitsPerSizeT false) (get_bytes_per_span b) (slot_size b);
  Ret (convert uint16_t q).

Definition get_pages_per_slot_span (b : PartitionBucket) : Z :=
  convert uint16_t (size (num_system_pages_per_slot_span b + (NumSystemPagesPerPartitionPage - 1)) / NumSystemPagesPerPartitionPage).

Definition bucket_CanStoreRawSize (b : PartitionBucket) : outcome bool :=
  if slot_size b <=? size (MaxSystemPagesPerSlotSpan * SystemPageSize) then Ret false
  else
    _ ← RTC_DCHECK (slot_size b mod SystemPageSize =? 0);
    _ ← PA_DCHECK (if is_direct_mapped b then Ret true else (n ← get_slots_per_span b; Ret (n =? 1)));
    Ret true.

(** The product of a [size_t] and a [uint64_t] is computed in 64 bits. *)
Definition GetSlotNumber (b : PartitionBucket) (offset_in_slot_span : Z) : outcome Z :=
  _ ← RTC_DCHECK (offset_in_slot_span <=? kMaxBucketed);
  _ ← RTC_DCHECK (slot_size b <=? kMaxBucketed);
  let offset_in_slot := size (Z.shiftr (wrapU 64 (offset_in_slot_span * slot_size_reciprocal b)) kReciprocalShift) in
  _ ← PA_DCHECK (q ← c_div (IntType kBitsPerSizeT false) offset_in_slot_span (slot_size b); Ret (q =? offset_in_slot));
  Ret offset_in_slot.
End Bucket.

Section Reciprocal.
Context `{P : Platform} {L : PlatformLaws P} `{BuildMode}.

(** The reciprocal is [2 ^ 42 / slot_size], rounded up. *)
Definition reciprocal_ok (b : PartitionBucket) : Prop :=
  0 < slot_size b ≤ kMaxBucketed ∧ 2 ^ 42 ≤ slot_size_reciprocal b * slot_size b < 2 ^ 42 + slot_size b.

Lemma reciprocal_exact d m v : 0 < d < 2 ^ 20 → 2 ^ 42 ≤ m * d < 2 ^ 42 + d → 0 ≤ v < 2 ^ 20 → v * m / 2 ^ 42 = v / d.
Proof.
  intros Hd Hm Hv. symmetry. set (q := v / d). pose proof (Z.div_mod v d ltac:(lia)) as Hdm. pose proof (Z.mod_pos_bound v d ltac:(lia)).
  fold q in Hdm. set (r := v mod d) in *. assert (0 ≤ q) by (apply Z.div_pos; lia).
  (** [d * (v * m)] is [v * 2 ^ 42] and an error below [2 ^ 40]. *)
  set (e := m * d - 2 ^ 42). assert (0 ≤ e < d) by lia. assert (0 ≤ v * e < 2 ^ 40) by nia.
  assert (d * (v * m) = v * 2 ^ 42 + v * e) as E by (unfold e; lia).
  apply (Z.div_unique _ _ _ (v * m - q * 2 ^ 42)); [|lia]. left. split; [nia|]. nia.
Qed.

Lemma get_slot_number b v : reciprocal_ok b → 0 ≤ v ≤ kMaxBucketed → GetSlotNumber b v = Ret (v / slot_size b).
Proof.
  intros (Hs & Hr) Hv. unfold GetSlotNumber, PA_DCHECK, RTC_DCHECK. pose proof word_pos. change kMaxBucketed with 983040 in *.
  rewrite (proj2 (Z.leb_le _ _) (proj2 Hv)), (proj2 (Z.leb_le _ _) (proj2 Hs)), andb_false_r. cbn [mbind outcome_bind].
  assert (0 ≤ v * slot_size_reciprocal b < 2 ^ 64) as Hp by nia. rewrite wrapU_small by done.
  rewrite Z.shiftr_div_pow2 by done. change kReciprocalShift with 42. rewrite (reciprocal_exact (slot_size b)) by lia.
  assert (0 ≤ v / slot_size b ≤ v) as Hq by (split; [apply Z.div_pos; lia|apply Z.div_le_upper_bound; nia]).
  assert (2 ^ 32 ≤ 2 ^ kBitsPerSizeT) by (apply Z.pow_le_mono_r; lia). unfold size. rewrite wrapU_small by lia.
  unfold c_div, arith. rewrite (proj2 (Z.eqb_neq _ _)) by lia. cbn [it_signed it_bits]. rewrite Z.quot_div_nonneg, wrapU_small by lia.
  cbn [mbind outcome_bind]. rewrite Z.eqb_refl, andb_false_r. by destruct RTC_DCHECK_IS_ON.
Qed.
End Reciprocal.

(** The formula of the comment at [slot_size_reciprocal], rounded down, would be
    wrong already for the second slot. *)
Example reciprocal_rounded_down :
  @GetSlotNumber android_64 release_build (mkBucket 0 48 3 (2 ^ 42 / 48)) 48 = Ret 0 ∧
  @GetSlotNumber android_64 release_build (mkBucket 0 48 3 (2 ^ 42 / 48 + 1)) 48 = Ret 1.
Proof. split; reflexivity. Qed.

(** ** Aligned allocation *)

Definition PartitionAllocReturnNull : Z := 1.
Definition PartitionAllocZeroFill : Z := 2.
Definition PartitionAllocNoHooks : Z := 4.
Definition PartitionAllocFastPathOrReturnNull : Z := 8.
Definition has_flag (flags f : Z) : bool := negb (Z.land flags f =? 0).

Section Aligned.
Context `{P : Platform} `{BuildMode} (allow_cookies allow_ref_count : bool).

(** The two ways to allocate that [AlignedAllocFlags] calls, with flags and a
    requested size; a null pointer is zero. *)
Context (AllocFlagsNoHooks AllocFlags : Z → Z → outcome Z).

(** The size requested for [size_] bytes on a boundary of [alignment]. *)
Definition aligned_size (alignment size_ : Z) : outcome Z :=
  if size_ <? alignment then Ret alignment
  else
    z ← Base.CountLeadingZeroBits kBitsPerSizeT (size (size_ - 1));
    shl (IntType kBitsPerSizeT false) 1 (kBitsPerSizeT - z).

Definition AlignedAllocFlags (flags alignment size_ : Z) : outcome Z :=
  _ ← RTC_DCHECK (negb allow_cookies && negb allow_ref_count);
  p ← Base.IsPowerOfTwo (IntType kBitsPerSizeT false) alignment;
  _ ← RTC_CHECK p;
  requested_size ← aligned_size alignment size_;
  if requested_size <? size_
  then if has_flag flags PartitionAllocReturnNull then Ret 0 else Crash OutOfMemory
  else
    ptr ← (if has_flag flags PartitionAllocNoHooks then AllocFlagsNoHooks 0 requested_size
           else AllocFlags 0 requested_size);
    _ ← RTC_CHECK (Z.land ptr (size (alignment - 1)) =? 0);
    Ret ptr.
End Aligned.

Section AlignedExact.
Context `{P : Platform} {L : PlatformLaws P} `{BuildMode}.

Lemma aligned_size_ok a n : 0 ≤ a < kBitsPerSizeT → 0 ≤ n ≤ 2 ^ (kBitsPerSizeT - 1) →
  ∃ k, a ≤ k < kBitsPerSizeT ∧ aligned_size (2 ^ a) n = Ret (2 ^ k) ∧ n ≤ 2 ^ k ∧ (k = a ∨ 2 ^ (k - 1) < n).
Proof.
  intros Ha Hn. unfold aligned_size. pose proof word_pos as Hw. pose proof (pow2_pos a ltac:(lia)) as Hpa.
  assert (2 ^ (kBitsPerSizeT - 1) < 2 ^ kBitsPerSizeT) as Hlt by (apply Z.pow_lt_mono_r; lia).
  destruct (Z.ltb_spec n (2 ^ a)) as [Hs|Hs]; [exists a; split_and!; auto; lia|].
  unfold size. rewrite wrapU_small by lia. fold (CountLeadingZeroBitsSizeT (n - 1)). rewrite leading_zeros_size by lia. cbn [mbind outcome_bind].
  replace (kBitsPerSizeT - (kBitsPerSizeT - order_of (n - 1))) with (order_of (n - 1)) by lia. set (k := order_of (n - 1)).
  assert (n - 1 < 2 ^ k ∧ (0 < n - 1 → 2 ^ (k - 1) < n)) as [Hk1 Hk2].
  { destruct (decide (n - 1 = 0)) as [E|]; [unfold k; rewrite E; change (order_of 0) with 0; lia|]. pose proof (order_bounds (n - 1) ltac:(lia)) as Hob. fold k in Hob. lia. }
  assert (0 ≤ k < kBitsPerSizeT) as Hk.
  { assert (0 ≤ n - 1 < 2 ^ kBitsPerSizeT) as Hn1 by lia. pose proof (order_range (n - 1) Hn1) as Hr. fold k in Hr. destruct (decide (k = kBitsPerSizeT)) as [E|]; [|lia].
    destruct (decide (n - 1 = 0)) as [E0|]; [unfold k in E; rewrite E0 in E; change (order_of 0) with 0 in E; lia|]. rewrite E in Hk2. lia. }
  exists k. assert (2 ^ k < 2 ^ kBitsPerSizeT) by (apply Z.pow_lt_mono_r; lia). pose proof (pow2_pos k ltac:(lia)).
  assert (a ≤ k) as Hak.
  { destruct (decide (a ≤ k)); [done|]. assert (2 ^ k < 2 ^ a) by (apply Z.pow_lt_mono_r; lia). lia. }
  split_and!; [lia|lia| |lia|].
  - unfold shl. cbn [it_bits it_signed]. replace ((k <? 0) || (kBitsPerSizeT <=? k)) with false by lia. simpl.
    unfold convert; cbn [it_bits it_signed]. rewrite Z.mul_1_l, wrapU_small by lia. done.
  - destruct (decide (0 < n - 1)); [right; auto|]. left. assert (n - 1 = 0) as E by lia. unfold k in *. rewrite E in *. change (order_of 0) with 0 in *. lia.
Qed.

(** A power of two has a bucket of exactly that size, or the smallest one. *)
Lemma power_bucket k b : 0 ≤ k → best_bucket (2 ^ k) b → bucket_size b = 2 ^ Z.max k (kMinBucketedOrder - 1).
Proof.
  intros Hk (Hb & _ & Hle & Hleast). pose proof min_order as Hm. destruct smallest_bucket as [E0 V0].
  destruct (decide (k < kMinBucketedOrder - 1)) as [Hs|Hs].
  - assert (2 ^ k < bucket_size 0). { rewrite E0. unfold kSmallestBucket. rewrite Z.shiftl_1_l. apply Z.pow_lt_mono_r; lia. }
    assert (b = 0) as -> by (pose proof (Hleast 0 ltac:(lia) V0 ltac:(lia)); lia).
    rewrite E0. unfold kSmallestBucket. rewrite Z.shiftl_1_l. f_equal. lia.
  - set (i := (k + 1 - kMinBucketedOrder) * 8). assert (bucket_size i = 2 ^ k) as Ei.
    { unfold bucket_size, i. rewrite Z.mod_mul, Z.div_mul by lia. change (8 + 0) with (2 ^ 3).
      rewrite <-Z.pow_add_r by lia. f_equal. lia. }
    assert (valid_bucket i = true) as Vi.
    { unfold valid_bucket. rewrite Ei. unfold kSmallestBucket. rewrite Z.shiftl_1_l. apply Z.eqb_eq.
      replace k with (k - (kMinBucketedOrder - 1) + (kMinBucketedOrder - 1)) by lia. rewrite Z.pow_add_r by lia. apply Z.mod_mul.
      pose proof (pow2_pos (kMinBucketedOrder - 1)). lia. }
    assert (b = i) as ->; [|rewrite Ei; f_equal; lia]. pose proof (Hleast i ltac:(lia) Vi ltac:(lia)).
    destruct (decide (b < i)); [|lia]. pose proof (bucket_size_mono b i). lia.
Qed.

(** What an allocation of [n] bytes promises: a slot of the bucket of [n], in a
    slot span that starts on a partition page. *)
Definition slot_of_size (n ptr : Z) : Prop :=
  ∃ start i b, ptr = start + i * bucket_size b ∧ GetIndex n = Ret b ∧ 0 ≤ start ∧ start mod PartitionPageSize = 0 ∧ 0 ≤ i.

Lemma slot_aligned a k ptr : 0 ≤ a ≤ k → a ≤ PartitionPageShift → 2 ^ k ≤ kMaxBucketed → slot_of_size (2 ^ k) ptr → (2 ^ a | ptr) ∧ 0 ≤ ptr.
Proof.
  intros Ha Hp Hk (start & i & b & -> & Hi & Hs0 & Hst & Hi0). destruct (get_index_bucketed (2 ^ k)) as (b' & E & Hb & _).
  { pose proof (pow2_pos k). lia. }
  rewrite E in Hi. injection Hi as ->. rewrite (power_bucket k b) by (lia || done). pose proof (pow2_pos (Z.max k (kMinBucketedOrder - 1)) ltac:(lia)).
  split; [|nia]. apply Z.divide_add_r.
  - apply (Z.divide_trans _ PartitionPageSize); [|by apply Z.mod_divide; [unfold PartitionPageSize; rewrite Z.shiftl_1_l; pose proof (pow2_pos PartitionPageShift); pose proof page_shift; lia|]].
    unfold PartitionPageSize. rewrite Z.shiftl_1_l. exists (2 ^ (PartitionPageShift - a)). rewrite <-Z.pow_add_r by lia. f_equal. lia.
  - apply Z.divide_mul_r. exists (2 ^ (Z.max k (kMinBucketedOrder - 1) - a)). rewrite <-Z.pow_add_r by lia. f_equal. lia.
Qed.

(** A bucketed size has a bucket. *)
Lemma bucket_index_found n : 0 ≤ n ≤ kMaxBucketed → ∃ b, GetIndex n = Ret b.
Proof. intros Hn. destruct (get_index_bucketed n Hn) as (b & E & _). eauto. Qed.

Context (alloc_no_hooks alloc_hooks : Z → Z → outcome Z).
Context (alloc_slot : ∀ n, 0 < n ≤ kMaxBucketed →
  (∃ ptr, alloc_no_hooks 0 n = Ret ptr ∧ slot_of_size n ptr) ∧ ∃ ptr, alloc_hooks 0 n = Ret ptr ∧ slot_of_size n ptr).

(** Aligned allocation over any allocator that returns slots of the bucket
    of the requested size: for an alignment up to a partition page and up to
    half a megabyte, the final check of the alignment passes, whatever the
    flags, and the slot has room for the request. *)
Theorem aligned_alloc_exact flags a n : 0 ≤ a ≤ PartitionPageShift → 0 ≤ n ≤ 2 ^ (kMaxBucketedOrder - 1) →
  ∃ ptr b start i, AlignedAllocFlags false false alloc_no_hooks alloc_hooks flags (2 ^ a) n = Ret ptr ∧
    ptr mod 2 ^ a = 0 ∧ ptr = start + i * bucket_size b ∧ n ≤ bucket_size b.
Proof.
  intros Ha Hn. pose proof word_pos as Hw. pose proof page_shift as Hps. change (kMaxBucketedOrder - 1) with 19 in Hn.
  assert (0 ≤ n ≤ 2 ^ (kBitsPerSizeT - 1)) as Hn' by (split; [lia|]; transitivity (2 ^ 19); [lia|apply Z.pow_le_mono_r; lia]).
  destruct (aligned_size_ok a n ltac:(lia) Hn') as (k & Hk & Es & Hle & Hor).
  assert (k ≤ 19) as Hk19.
  { destruct Hor as [->|Hlt]; [lia|]. assert (2 ^ (k - 1) < 2 ^ 19) as Hp by lia. apply Z.pow_lt_mono_r_iff in Hp; lia. }
  assert (2 ^ k ≤ kMaxBucketed) as Hmax by (transitivity (2 ^ 19); [apply Z.pow_le_mono_r; lia|done]).
  pose proof (pow2_pos k ltac:(lia)) as Hp2. unfold AlignedAllocFlags, RTC_DCHECK. rewrite andb_false_r. cbn [mbind outcome_bind].
  rewrite (align_check _ a word_size) by lia. cbn [mbind outcome_bind RTC_CHECK]. rewrite Es. cbn [mbind outcome_bind]. rewrite (proj2 (Z.ltb_ge _ _) Hle).
  assert (∃ ptr, (if has_flag flags PartitionAllocNoHooks then alloc_no_hooks 0 (2 ^ k) else alloc_hooks 0 (2 ^ k)) = Ret ptr
    ∧ slot_of_size (2 ^ k) ptr) as (ptr & -> & Hslot).
  { destruct (alloc_slot (2 ^ k) ltac:(lia)) as [H1 H2]. by case_match. }
  cbn [mbind outcome_bind]. destruct (slot_aligned a k ptr) as [Hd H0]; [lia|lia|done|done|].
  assert (2 ^ a < 2 ^ kBitsPerSizeT) by (apply Z.pow_lt_mono_r; lia). pose proof (pow2_pos a ltac:(lia)).
  assert (ptr mod 2 ^ a = 0) as Hm by (apply Z.mod_divide; [lia|done]).
  unfold size. rewrite wrapU_small by lia. rewrite Z.sub_1_r, <-Z.ones_equiv, Z.land_ones, Hm by lia.
  destruct Hslot as (start & i & b & E & Hi & _). exists ptr, b, start, i. split_and!; [done..|].
  destruct (get_index_bucketed (2 ^ k) ltac:(lia)) as (b' & E' & (_ & _ & Hb & _) & _). rewrite E' in Hi. injection Hi as ->. lia.
Qed.
End AlignedExact.

(** A toy allocator with one slot span. *)
Definition one_slot (flags n : Z) : outcome Z :=
  b ← @GetIndex android_64 debug_build n; Ret (2 ^ 21 + 2 ^ 14 + 3 * @bucket_size android_64 b).

Lemma aligned_alloc_exact_witness : ∃ ptr b start i,
  @AlignedAllocFlags android_64 debug_build false false one_slot one_slot 1 (2 ^ 8) 1000 = Ret ptr ∧
  ptr mod 2 ^ 8 = 0 ∧ ptr = start + i * @bucket_size android_64 b ∧ 1000 ≤ @bucket_size android_64 b.
Proof.
  apply (@aligned_alloc_exact android_64 android_64_laws debug_build one_slot one_slot); [|split; done|split; done].
  intros n Hn. destruct (@bucket_index_found android_64 android_64_laws debug_build n) as (b & E); [lia|].
  assert (∃ ptr, one_slot 0 n = Ret ptr ∧ slot_of_size (P := android_64) (H := debug_build) n ptr) as Hs; [|split; exact Hs].
  exists (2 ^ 21 + 2 ^ 14 + 3 * @bucket_size android_64 b). unfold one_slot. rewrite E. split; [reflexivity|].
  exists (2 ^ 21 + 2 ^ 14), 3, b. split; [reflexivity|]. split; [exact E|]. split; [lia|]. split; [reflexivity|lia].
Defined.

(** Beyond half of the address space the shift that rounds the size up is by
    the width of the word, which is undefined; the overflow check comes after. *)
Lemma aligned_size_undefined `{P : Platform} {L : PlatformLaws P} a n :
  0 ≤ a < kBitsPerSizeT → 2 ^ (kBitsPerSizeT - 1) < n < 2 ^ kBitsPerSizeT → aligned_size (2 ^ a) n = Crash BadShift.
Proof.
  intros Ha Hn. pose proof word_pos as Hw. assert (0 < 2 ^ (kBitsPerSizeT - 1)) as Hpos by (apply pow2_pos; lia).
  assert (2 ^ a ≤ 2 ^ (kBitsPerSizeT - 1)) by (apply Z.pow_le_mono_r; lia). unfold aligned_size.
  rewrite (proj2 (Z.ltb_ge _ _)) by lia. unfold size. rewrite wrapU_small by lia. fold (CountLeadingZeroBitsSizeT (n - 1)).
  rewrite leading_zeros_size by lia. cbn [mbind outcome_bind]. pose proof (order_bounds (n - 1) ltac:(lia)) as Hob.
  assert (0 ≤ n - 1 < 2 ^ kBitsPerSizeT) as Hn1 by lia. pose proof (order_range (n - 1) Hn1) as Hr.
  destruct (decide (order_of (n - 1) < kBitsPerSizeT)) as [Hlt|Hge].
  - assert (2 ^ order_of (n - 1) ≤ 2 ^ (kBitsPerSizeT - 1)) by (apply Z.pow_le_mono_r; lia). lia.
  - unfold shl. cbn [it_bits it_signed]. replace (kBitsPerSizeT <=? _) with true by lia. by rewrite orb_true_r.
Qed.
