(* ===== verification/PartitionPage.v ===== *)
(** * From a pointer to its slot

    Model of the pointer arithmetic of
    [src/include/base/allocator/partition_allocator/partition_page.h] and of the
    functions of [partition_root.h] that use it.  A super page of two megabytes
    starts with a page of metadata: after the extent entry one object per
    partition page, of which the first of a slot span describes the span and the
    others hold their distance to it.  Any pointer into the super page leads to
    that object by masks and shifts.  Memory is the map of these objects by
    their addresses; an access where there is none is out of bounds. *)

From stdpp Require Import gmap.
From S2P Require Import Prelude Bits PartitionLayout.

(** ** Objects *)

Record SlotSpanMetadata := mkSpan {
  freelist_head : Z;
  next_slot_span : Z;
  bucket : Z;
  num_allocated_slots : Z;
  num_unprovisioned_slots : Z;
  empty_cache_index : Z
}.

(** The union: the metadata of a span, or what the following page holds. *)
Inductive page_union :=
| SpanMetadata (m : SlotSpanMetadata)
| SubsequentPageMetadata (raw_size : Z).

Record PartitionPage := mkPage { page_content : page_union; slot_span_metadata_offset : Z }.

Record PartitionRoot := mkRoot {
  inverted_self : Z;
  quarantine_enabled : bool;
  scan_enabled : bool;
  allow_ref_count : bool;
  extras_size : Z
}.

(** Objects by address; the extent entry is given by its root. *)
Record heap := mkHeap {
  pages : gmap Z PartitionPage;
  bucket_objects : gmap Z PartitionBucket;
  extents : gmap Z Z;
  roots : gmap Z PartitionRoot;
  direct_map_pool_base_address_ : Z;
  directmap_bits_ : gset Z
}.

Section Pages.
Context `{P : Platform} `{BuildMode} (h : heap).

Definition read {A} (m : gmap Z A) (p : Z) : outcome A :=
  if p =? 0 then Crash NullDeref else from_option_or OutOfBounds (m !! p).

(** The span metadata of the object at [p]; the other member of the union has
    no such fields. *)
Definition slot_span_metadata (p : Z) : outcome SlotSpanMetadata :=
  page ← read (pages h) p;
  match page_content page with SpanMetadata m => Ret m | SubsequentPageMetadata _ => Crash UninitRead end.

Definition bucket_of (slot_span : Z) : outcome PartitionBucket :=
  m ← slot_span_metadata slot_span; read (bucket_objects h) (bucket m).

(** ** Regions of a super page *)

Definition kDirectMapPoolSize : Z := 16 * (1024 * 1024 * 1024).
Definition kDirectMapPoolBaseMask : Z := size (Z.lnot (kDirectMapPoolSize - 1)).

(** On 64 bits a pool of addresses, otherwise a bit for every page of the
    allocation granularity, which is the system page but on Windows. *)
Definition IsManagedByPartitionAllocDirectMap (address : Z) : bool :=
  if kBitsPerSizeT =? 64 then Z.land address kDirectMapPoolBaseMask =? direct_map_pool_base_address_ h
  else bool_decide (address / SystemPageSize ∈ directmap_bits_ h).

Definition PartitionSuperPageToMetadataArea (ptr : Z) : outcome Z :=
  _ ← RTC_DCHECK (Z.land ptr kSuperPageOffsetMask =? 0);
  Ret (size (ptr + SystemPageSize)).

Definition PartitionPageBaseMask : Z := size (Z.lnot (PartitionPageSize - 1)).
Definition SystemPageBaseMask : Z := size (Z.lnot (SystemPageSize - 1)).

(** [sizeof(QuarantineBitmap)]: a bit for every possible object. *)
Definition kBitmapSize : Z := (kSuperPageSize + (kBitsPerSizeT * kAlignment - 1)) / (kBitsPerSizeT * kAlignment).
Definition sizeof_QuarantineBitmap : Z := kBitmapSize * (kBitsPerSizeT / 8).

Definition ReservedQuarantineBitmapsSize : Z :=
  Z.land (size (2 * sizeof_QuarantineBitmap + PartitionPageSize - 1)) PartitionPageBaseMask.

Definition SuperPagePayloadBegin (super_page_base : Z) (with_quarantine : bool) : outcome Z :=
  _ ← RTC_DCHECK (super_page_base mod kSuperPageAlignment =? 0);
  Ret (super_page_base + PartitionPageSize + (if with_quarantine then ReservedQuarantineBitmapsSize else 0)).

Definition SuperPagePayloadEnd (super_page_base : Z) : outcome Z :=
  _ ← RTC_DCHECK (super_page_base mod kSuperPageAlignment =? 0);
  Ret (super_page_base + kSuperPageSize - PartitionPageSize).

Definition IsWithinSuperPagePayload (ptr : Z) (with_quarantine : bool) : outcome bool :=
  _ ← RTC_DCHECK (negb (IsManagedByPartitionAllocDirectMap ptr));
  let super_page_base := Z.land ptr kSuperPageBaseMask in
  payload_start ← SuperPagePayloadBegin super_page_base with_quarantine;
  payload_end ← SuperPagePayloadEnd super_page_base;
  Ret ((payload_start <=? ptr) && (ptr <? payload_end)).

(** ** From a pointer to metadata and back *)

Definition PartitionPage_FromSlotInnerPtr (ptr : Z) : outcome Z :=
  let super_page_ptr := Z.land ptr kSuperPageBaseMask in
  let partition_page_index := Z.shiftr (Z.land ptr kSuperPageOffsetMask) PartitionPageShift in
  _ ← RTC_DCHECK (negb (partition_page_index =? 0));
  _ ← RTC_DCHECK (partition_page_index <? NumPartitionPagesPerSuperPage - 1);
  area ← PartitionSuperPageToMetadataArea super_page_ptr;
  let page := size (area + Z.shiftl partition_page_index kPageMetadataShift) in
  p ← read (pages h) page;
  Ret (size (page - slot_span_metadata_offset p * kPageMetadataSize)).

Definition ToSlotSpanStartPtr (slot_span : Z) : outcome Z :=
  let super_page_offset := Z.land slot_span kSuperPageOffsetMask in
  _ ← RTC_DCHECK (SystemPageSize <? super_page_offset);
  _ ← RTC_DCHECK (super_page_offset <? SystemPageSize + NumPartitionPagesPerSuperPage * kPageMetadataSize);
  let partition_page_index := Z.shiftr (size (super_page_offset - SystemPageSize)) kPageMetadataShift in
  _ ← RTC_DCHECK (negb (partition_page_index =? 0));
  _ ← RTC_DCHECK (partition_page_index <? NumPartitionPagesPerSuperPage - 1);
  let super_page_base := Z.land slot_span kSuperPageBaseMask in
  Ret (size (super_page_base + size (Z.shiftl partition_page_index PartitionPageShift))).

Definition PartitionPage_ToSlotSpanStartPtr (page : Z) : outcome Z :=
  _ ← PA_DCHECK (p ← read (pages h) page; Ret (slot_span_metadata_offset p =? 0));
  ToSlotSpanStartPtr page.

Definition FromSlotInnerPtr (ptr : Z) : outcome Z :=
  page ← PartitionPage_FromSlotInnerPtr ptr;
  _ ← PA_DCHECK (p ← read (pages h) page; Ret (slot_span_metadata_offset p =? 0));
  Ret page.

Definition PartitionPage_FromSlotStartPtr (slot_start : Z) : outcome Z :=
  page ← PartitionPage_FromSlotInnerPtr slot_start;
  slot_span_start ← PartitionPage_ToSlotSpanStartPtr page;
  _ ← PA_DCHECK (b ← bucket_of page;
                 if slot_size b =? 0 then Crash DivideByZero else Ret (size (slot_start - slot_span_start) mod slot_size b =? 0));
  Ret page.

Definition FromSlotStartPtr (slot_start : Z) : outcome Z :=
  page ← PartitionPage_FromSlotStartPtr slot_start;
  _ ← PA_DCHECK (p ← read (pages h) page; Ret (slot_span_metadata_offset p =? 0));
  Ret page.

(** ** The root of a span *)

Definition FromSlotSpan (slot_span : Z) : outcome Z := read (extents h) (Z.land slot_span SystemPageBaseMask).

Definition IsValidSlotSpan (slot_span : Z) : outcome bool :=
  root ← FromSlotSpan slot_span;
  r ← read (roots h) root;
  Ret (inverted_self r =? size (Z.lnot root)).

Definition IsScanEnabled (r : PartitionRoot) : outcome bool :=
  _ ← RTC_DCHECK (negb (scan_enabled r) || quarantine_enabled r);
  Ret (scan_enabled r).

(** ** Slots *)

(** The checks at the start of [GetSlotStartInSuperPage], in debug builds. *)
Definition check_payload (maybe_inner_ptr : Z) : outcome unit :=
  if RTC_DCHECK_IS_ON then
    _ ← RTC_DCHECK (negb (IsManagedByPartitionAllocDirectMap maybe_inner_ptr));
    extent ← PartitionSuperPageToMetadataArea (Z.land maybe_inner_ptr kSuperPageBaseMask);
    root ← read (extents h) extent;
    r ← read (roots h) root;
    scan ← IsScanEnabled r;
    within ← IsWithinSuperPagePayload maybe_inner_ptr scan;
    RTC_DCHECK within
  else Ret tt.

(** Zero is the null pointer. *)
Definition GetSlotStartInSuperPage (maybe_inner_ptr : Z) : outcome Z :=
  _ ← check_payload maybe_inner_ptr;
  slot_span ← FromSlotInnerPtr maybe_inner_ptr;
  m ← slot_span_metadata slot_span;
  if bucket m =? 0 then Ret 0
  else
    _ ← PA_DCHECK (IsValidSlotSpan slot_span);
    slot_span_begin ← ToSlotSpanStartPtr slot_span;
    let ptr_offset := maybe_inner_ptr - slot_span_begin in
    b ← bucket_of slot_span;
    _ ← RTC_DCHECK ((0 <=? ptr_offset) && (ptr_offset <? get_pages_per_slot_span b * PartitionPageSize));
    if get_bytes_per_span b <=? ptr_offset then Ret 0
    else
      slot_number ← GetSlotNumber b ptr_offset;
      let result := slot_span_begin + slot_number * slot_size b in
      _ ← RTC_DCHECK ((result <=? maybe_inner_ptr) && (maybe_inner_ptr <? result + slot_size b));
      Ret result.

Definition PartitionAllocGetSlotSpanForSizeQuery (ptr : Z) : outcome Z :=
  slot_span ← FromSlotInnerPtr ptr;
  _ ← PA_DCHECK (IsValidSlotSpan slot_span);
  Ret slot_span.

(** With a reference count before the object pointers just past the end belong
    to it, and are moved back by one first. *)
Definition PartitionAllocGetSlotStart (kPartitionPastAllocationAdjustment ptr : Z) : outcome Z :=
  let ptr := size (ptr - kPartitionPastAllocationAdjustment) in
  slot_span ← PartitionAllocGetSlotSpanForSizeQuery ptr;
  root ← FromSlotSpan slot_span;
  _ ← PA_DCHECK (r ← read (roots h) root; Ret (allow_ref_count r));
  slot_span_start ← ToSlotSpanStartPtr slot_span;
  let offset_in_slot_span := size (ptr - slot_span_start) in
  b ← bucket_of slot_span;
  n ← GetSlotNumber b offset_in_slot_span;
  Ret (size (slot_span_start + size (slot_size b * n))).
End Pages.

(** ** Well-formed slot spans *)

Section Spans.
Context `{P : Platform} {L : PlatformLaws P}.

(** The address of the metadata of a partition page of a super page. *)
Definition metadata (base idx : Z) : Z := base + SystemPageSize + idx * kPageMetadataSize.

Definition is_super_page (base : Z) : Prop :=
  base mod kSuperPageSize = 0 ∧ 0 < base ∧ base + kSuperPageSize ≤ 2 ^ kBitsPerSizeT.

(** A bucket whose slots fill its spans, as [partition_alloc_constants.h] says
    of all sizes, with spans that the reciprocal can handle. *)
Definition bucket_ok (b : PartitionBucket) : Prop :=
  reciprocal_ok b ∧ 0 < num_system_pages_per_slot_span b < 256 ∧
  num_system_pages_per_slot_span b * SystemPageSize ≤ kMaxBucketed + 1 ∧
  (slot_size b | num_system_pages_per_slot_span b * SystemPageSize).

(** The bytes before the slot spans of a super page. *)
Definition payload_offset (r : PartitionRoot) : Z :=
  PartitionPageSize + (if scan_enabled r then ReservedQuarantineBitmapsSize else 0).

(** A span of bucket [b] whose first partition page has index [idx]. *)
Record span_at (h : heap) (base idx : Z) (m : SlotSpanMetadata) (b : PartitionBucket) (r : PartitionRoot) : Prop := {
  span_super_page : is_super_page base;
  span_pages : 1 ≤ idx ∧ idx + get_pages_per_slot_span b ≤ NumPartitionPagesPerSuperPage - 1;
  span_first : pages h !! metadata base idx = Some (mkPage (SpanMetadata m) 0);
  span_rest : ∀ k, 0 < k < get_pages_per_slot_span b → ∃ c, pages h !! metadata base (idx + k) = Some (mkPage c k);
  span_bucket : bucket m ≠ 0 ∧ bucket_objects h !! bucket m = Some b ∧ bucket_ok b;
  span_root : ∃ root, root ≠ 0 ∧ extents h !! (base + SystemPageSize) = Some root ∧ roots h !! root = Some r ∧ inverted_self r = size (Z.lnot root);
  span_scan : scan_enabled r = true → quarantine_enabled r = true;
  span_payload : payload_offset r ≤ idx * PartitionPageSize;
  span_normal : ∀ o, 0 ≤ o < kSuperPageSize → IsManagedByPartitionAllocDirectMap h (base + o) = false
}.

Lemma page_sizes : PartitionPageSize = 4 * SystemPageSize ∧ NumPartitionPagesPerSuperPage * PartitionPageSize = kSuperPageSize ∧
  8 ≤ NumPartitionPagesPerSuperPage ∧ NumPartitionPagesPerSuperPage * kPageMetadataSize ≤ SystemPageSize ∧ 4096 ≤ SystemPageSize ∧
  NumSystemPagesPerPartitionPage = 4 ∧ PartitionPageSize = 2 ^ PartitionPageShift.
Proof.
  pose proof page_shift as Hs. pose proof system_page as Hp. unfold NumPartitionPagesPerSuperPage, NumSystemPagesPerPartitionPage, PartitionPageSize.
  rewrite Z.shiftl_1_l. change kSuperPageSize with (2 ^ 21). change kPageMetadataSize with 32.
  assert (SystemPageSize = 2 ^ (PartitionPageShift - 2)) as ->.
  { replace (2 ^ PartitionPageShift) with (2 ^ 2 * 2 ^ (PartitionPageShift - 2)) in Hp by (rewrite <-Z.pow_add_r by lia; f_equal; lia). lia. }
  assert (PartitionPageShift = 14 ∨ PartitionPageShift = 15 ∨ PartitionPageShift = 16 ∨ PartitionPageShift = 17 ∨ PartitionPageShift = 18)
    as [E|[E|[E|[E|E]]]] by lia; rewrite E; vm_compute; intuition done.
Qed.

(** Masks split an address of a super page into the page and the offset. *)
Lemma super_page_split base o : is_super_page base → 0 ≤ o < kSuperPageSize →
  Z.land (base + o) kSuperPageBaseMask = base ∧ Z.land (base + o) kSuperPageOffsetMask = o.
Proof.
  intros (Hm & Hp & Hb) Ho. pose proof word_pos as Hw. change kSuperPageSize with (2 ^ 21) in *.
  apply Z.mod_divide in Hm as [q ->]; [|lia]. split.
  - unfold kSuperPageBaseMask, size. replace kSuperPageOffsetMask with (wrapU kBitsPerSizeT (2 ^ 21 - 1)).
    + change (wrapU kBitsPerSizeT) with (Base.size kBitsPerSizeT). rewrite (align_mask kBitsPerSizeT 21 word_size) by lia.
      f_equal. symmetry. apply (Z.div_unique _ _ _ o); lia.
    + rewrite wrapU_small; [done|]. split; [lia|]. apply (Z.lt_le_trans _ (2 ^ 32)); [lia|]. apply Z.pow_le_mono_r; lia.
  - change kSuperPageOffsetMask with (Z.ones 21). rewrite Z.land_ones by lia. symmetry. apply (Z.mod_unique _ _ q); lia.
Qed.

Lemma size_address base o : is_super_page base → 0 ≤ o < kSuperPageSize → size (base + o) = base + o.
Proof. intros (_ & Hp & Hb) Ho. unfold size. apply wrapU_small. lia. Qed.

Lemma metadata_offset idx : 0 ≤ idx < NumPartitionPagesPerSuperPage →
  0 ≤ SystemPageSize + idx * kPageMetadataSize < kSuperPageSize ∧ SystemPageSize + idx * kPageMetadataSize < 2 * SystemPageSize.
Proof. intros Hi. destruct page_sizes as (E1 & E2 & H1 & H2 & H3 & E3 & E4). change kPageMetadataSize with 32 in *. nia. Qed.

Lemma metadata_nonzero base idx : is_super_page base → 0 ≤ idx → metadata base idx ≠ 0.
Proof. intros (_ & Hb & _) Hi. unfold metadata. destruct page_sizes as (_ & _ & _ & _ & H & _). change kPageMetadataSize with 32. lia. Qed.

Lemma metadata_area `{BuildMode} base : is_super_page base → PartitionSuperPageToMetadataArea base = Ret (base + SystemPageSize).
Proof.
  intros Hb. unfold PartitionSuperPageToMetadataArea. destruct page_sizes as (E1 & E2 & H1 & H2 & H3 & E3 & E4).
  destruct (super_page_split base 0 Hb) as [_ E]; [change kSuperPageSize with 2097152; lia|]. rewrite Z.add_0_r in E. rewrite E.
  unfold RTC_DCHECK. rewrite andb_false_r. cbn [mbind outcome_bind]. rewrite size_address; [done|done|]. nia.
Qed.

Lemma dcheck_true `{BuildMode} : RTC_DCHECK true = Ret tt.
Proof. unfold RTC_DCHECK. by rewrite andb_false_r. Qed.

Lemma pa_dcheck_true `{BuildMode} c : c = Ret true → PA_DCHECK c = Ret tt.
Proof. intros ->. unfold PA_DCHECK. cbn [mbind outcome_bind]. rewrite dcheck_true. by case_match. Qed.

Lemma read_some {A} (m : gmap Z A) p x : p ≠ 0 → m !! p = Some x → read m p = Ret x.
Proof. intros Hp E. unfold read. rewrite (proj2 (Z.eqb_neq _ _) Hp), E. done. Qed.

(** From the metadata of a page to the page. *)
Lemma to_slot_span_start `{BuildMode} base idx : is_super_page base → 1 ≤ idx < NumPartitionPagesPerSuperPage - 1 →
  ToSlotSpanStartPtr (metadata base idx) = Ret (base + idx * PartitionPageSize).
Proof.
  intros Hb Hi. destruct page_sizes as (E1 & E2 & H1 & H2 & H3 & E3 & E4). destruct (metadata_offset idx) as [Ho Ho']; [lia|].
  unfold ToSlotSpanStartPtr, metadata. rewrite <-Z.add_assoc.
  destruct (super_page_split base _ Hb Ho) as [-> ->]. change kPageMetadataSize with 32 in *.
  replace (SystemPageSize + idx * 32 - SystemPageSize) with (idx * 32) by lia.
  assert (size (idx * 32) = idx * 32) as -> by (unfold size; apply wrapU_small; destruct Hb as (_ & ? & ?); lia).
  rewrite Z.shiftr_div_pow2 by done. change (2 ^ kPageMetadataShift) with 32. rewrite Z.div_mul by lia.
  rewrite (proj2 (Z.ltb_lt _ _)) by lia. rewrite (proj2 (Z.ltb_lt _ _)) by lia. rewrite (proj2 (Z.eqb_neq _ _)) by lia.
  rewrite (proj2 (Z.ltb_lt _ _)) by lia. cbn [negb]. rewrite dcheck_true. cbn [mbind outcome_bind].
  rewrite Z.shiftl_mul_pow2, <-E4 by (pose proof page_shift; lia).
  assert (0 ≤ idx * PartitionPageSize < kSuperPageSize) as Hr by nia.
  assert (size (idx * PartitionPageSize) = idx * PartitionPageSize) as -> by (unfold size; apply wrapU_small; destruct Hb as (_ & ? & ?); lia).
  by rewrite size_address.
Qed.

(** From a pointer into a page to the metadata of the page its object names. *)
Lemma from_inner_ptr `{BuildMode} h base idx k off c : is_super_page base → 0 ≤ off < PartitionPageSize →
  0 ≤ k → 1 ≤ idx → idx + k < NumPartitionPagesPerSuperPage - 1 →
  pages h !! metadata base (idx + k) = Some (mkPage c k) →
  PartitionPage_FromSlotInnerPtr h (base + ((idx + k) * PartitionPageSize + off)) = Ret (metadata base idx).
Proof.
  intros Hb Hoff Hk Hi Hn Hc. destruct page_sizes as (E1 & E2 & H1 & H2 & H3 & E3 & E4).
  assert (0 ≤ (idx + k) * PartitionPageSize + off < kSuperPageSize) as Ho by nia. unfold PartitionPage_FromSlotInnerPtr.
  destruct (super_page_split base _ Hb Ho) as [-> ->]. rewrite Z.shiftr_div_pow2, <-E4 by (pose proof page_shift; lia).
  replace (((idx + k) * PartitionPageSize + off) / PartitionPageSize) with (idx + k) by (apply (Z.div_unique _ _ _ off); lia).
  rewrite (proj2 (Z.eqb_neq _ _)) by lia. rewrite (proj2 (Z.ltb_lt _ _)) by lia. cbn [negb]. rewrite dcheck_true. cbn [mbind outcome_bind].
  rewrite metadata_area by done. cbn [mbind outcome_bind]. rewrite Z.shiftl_mul_pow2 by done. change (2 ^ kPageMetadataShift) with kPageMetadataSize.
  destruct (metadata_offset (idx + k)) as [Hm _]; [lia|]. destruct (metadata_offset idx) as [Hm' _]; [lia|].
  rewrite <-Z.add_assoc, size_address, Z.add_assoc by done. fold (metadata base (idx + k)).
  rewrite (read_some _ _ _ (metadata_nonzero base (idx + k) Hb ltac:(lia)) Hc). cbn [mbind outcome_bind slot_span_metadata_offset].
  replace (metadata base (idx + k) - k * kPageMetadataSize) with (base + (SystemPageSize + idx * kPageMetadataSize)) by (unfold metadata; lia).
  rewrite size_address by done. unfold metadata. f_equal. lia.
Qed.
End Spans.

Section SlotStart.
Context `{P : Platform} {L : PlatformLaws P} `{BuildMode}.
Context (h : heap) (base idx : Z) (m : SlotSpanMetadata) (b : PartitionBucket) (r : PartitionRoot) (Hspan : span_at h base idx m b r).

(** The first byte of the span. *)
Definition span_start : Z := base + idx * PartitionPageSize.

Definition span_bytes : Z := num_system_pages_per_slot_span b * SystemPageSize.

Lemma small_size n : 0 ≤ n < 2 ^ 32 → size n = n.
Proof.
  intros Hn. unfold size. apply wrapU_small. split; [lia|]. apply (Z.lt_le_trans _ (2 ^ 32)); [lia|].
  apply Z.pow_le_mono_r; pose proof word_pos; lia.
Qed.

Lemma span_size : get_bytes_per_span b = span_bytes ∧ get_pages_per_slot_span b = (num_system_pages_per_slot_span b + 3) / 4 ∧
  0 < span_bytes ≤ get_pages_per_slot_span b * PartitionPageSize.
Proof.
  destruct (span_bucket _ _ _ _ _ _ Hspan) as (_ & _ & _ & Hn & Hb & _). destruct page_sizes as (E1 & E2 & H1 & H2 & H3 & E3 & E4).
  assert (get_pages_per_slot_span b = (num_system_pages_per_slot_span b + 3) / 4) as Ep.
  { unfold get_pages_per_slot_span. rewrite E3. rewrite small_size by lia. change (4 - 1) with 3. unfold convert; simpl. apply wrapU_small.
    pose proof (Z.div_pos (num_system_pages_per_slot_span b + 3) 4). pose proof (Z.div_le_upper_bound (num_system_pages_per_slot_span b + 3) 4 100). lia. }
  split_and!; [|done|unfold span_bytes; nia|].
  - unfold get_bytes_per_span. rewrite small_size; [done|]. change kMaxBucketed with 983040 in Hb. nia.
  - rewrite Ep. unfold span_bytes. pose proof (Z.div_mod (num_system_pages_per_slot_span b + 3) 4). pose proof (Z.mod_pos_bound (num_system_pages_per_slot_span b + 3) 4).
    nia.
Qed.

Lemma span_metadata_read : read (pages h) (metadata base idx) = Ret (mkPage (SpanMetadata m) 0).
Proof using L Hspan.
  apply read_some; [|apply (span_first _ _ _ _ _ _ Hspan)]. destruct (span_pages _ _ _ _ _ _ Hspan).
  apply metadata_nonzero; [apply (span_super_page _ _ _ _ _ _ Hspan)|lia].
Qed.

Lemma span_begin : ToSlotSpanStartPtr (metadata base idx) = Ret span_start.
Proof.
  destruct (span_pages _ _ _ _ _ _ Hspan) as [Hi Hn]. destruct span_size as (_ & E & Hb).
  apply to_slot_span_start; [apply (span_super_page _ _ _ _ _ _ Hspan)|]. destruct page_sizes as (E1 & E2 & H1 & H2 & H3 & E3 & E4). nia.
Qed.

Lemma span_bucket_read : bucket_of h (metadata base idx) = Ret b.
Proof.
  unfold bucket_of, slot_span_metadata. rewrite span_metadata_read. cbn [mbind outcome_bind page_content].
  destruct (span_bucket _ _ _ _ _ _ Hspan) as (Hn & E & _). by apply read_some.
Qed.

(** The start of the metadata page is where the extent entry is. *)
Lemma span_root_found : ∃ root, root ≠ 0 ∧ FromSlotSpan h (metadata base idx) = Ret root ∧ roots h !! root = Some r ∧ inverted_self r = size (Z.lnot root).
Proof.
  destruct (span_root _ _ _ _ _ _ Hspan) as (root & Hz & He & Hr & Hi). exists root. split_and!; [done| |done|done].
  destruct (span_super_page _ _ _ _ _ _ Hspan) as (Hm & Hp & Hb). destruct (span_pages _ _ _ _ _ _ Hspan) as [Hi1 Hn].
  destruct page_sizes as (E1 & E2 & H1 & H2 & H3 & E3 & E4). destruct span_size as (_ & _ & Hbytes).
  assert (idx < NumPartitionPagesPerSuperPage - 1) as Hidx by nia. destruct (metadata_offset idx) as [Ho Ho']; [lia|].
  assert (SystemPageSize = 2 ^ (PartitionPageShift - 2)) as ES.
  { pose proof page_shift. assert (2 ^ PartitionPageShift = 2 ^ 2 * 2 ^ (PartitionPageShift - 2)) by (rewrite <-Z.pow_add_r by lia; f_equal; lia). lia. }
  unfold FromSlotSpan, SystemPageBaseMask, size. assert (wrapU kBitsPerSizeT (SystemPageSize - 1) = SystemPageSize - 1) as Ew by (apply small_size; change kSuperPageSize with 2097152 in *; lia).
  rewrite <-Ew, ES. change (wrapU kBitsPerSizeT) with (Base.size kBitsPerSizeT).
  rewrite (align_mask kBitsPerSizeT _ word_size) by (pose proof page_shift; pose proof word_pos; unfold metadata in *; lia).
  rewrite <-ES. apply Z.mod_divide in Hm as [q Eq]; [|done].
  assert (metadata base idx / SystemPageSize = base / SystemPageSize + 1) as ->.
  { symmetry. unfold metadata. apply (Z.div_unique _ _ _ (idx * kPageMetadataSize)); [left; change kPageMetadataSize with 32 in *; lia|].
    rewrite Eq, <-E2, E1. replace (q * (NumPartitionPagesPerSuperPage * (4 * SystemPageSize))) with (q * NumPartitionPagesPerSuperPage * 4 * SystemPageSize) by lia.
    rewrite Z.div_mul by lia. lia. }
  assert (base / SystemPageSize * SystemPageSize = base) as Ed.
  { rewrite Eq, <-E2, E1. replace (q * (NumPartitionPagesPerSuperPage * (4 * SystemPageSize))) with (q * NumPartitionPagesPerSuperPage * 4 * SystemPageSize) by lia.
    rewrite Z.div_mul by lia. lia. }
  rewrite Z.mul_add_distr_r, Ed, Z.mul_1_l. apply read_some; [lia|done].
Qed.

Lemma span_valid : IsValidSlotSpan h (metadata base idx) = Ret true.
Proof.
  destruct span_root_found as (root & Hz & E & Hr & Hi). unfold IsValidSlotSpan. rewrite E. cbn [mbind outcome_bind].
  rewrite (read_some _ _ _ Hz Hr). cbn [mbind outcome_bind]. by rewrite Hi, Z.eqb_refl.
Qed.

Context (off : Z) (Hoff : 0 ≤ off < get_pages_per_slot_span b * PartitionPageSize).

Lemma page_of_offset : 0 ≤ off / PartitionPageSize < get_pages_per_slot_span b ∧ 0 ≤ off mod PartitionPageSize < PartitionPageSize ∧
  off = off / PartitionPageSize * PartitionPageSize + off mod PartitionPageSize.
Proof using L Hoff.
  destruct page_sizes as (E1 & E2 & H1 & H2 & H3 & E3 & E4). assert (PartitionPageSize ≠ 0 ∧ 0 < PartitionPageSize) as [Hz Hp] by lia.
  pose proof (Z.div_mod off PartitionPageSize Hz). pose proof (Z.mod_pos_bound off PartitionPageSize Hp). split_and!; [apply Z.div_pos; lia|apply Z.div_lt_upper_bound; lia|lia|lia|lia].
Qed.

Lemma span_page_at k : 0 ≤ k < get_pages_per_slot_span b → ∃ c, pages h !! metadata base (idx + k) = Some (mkPage c k).
Proof using Hspan.
  intros Hk. destruct (decide (k = 0)) as [->|]; [rewrite Z.add_0_r, (span_first _ _ _ _ _ _ Hspan); eauto|].
  apply (span_rest _ _ _ _ _ _ Hspan). lia.
Qed.

Lemma inner_offset : 0 ≤ idx * PartitionPageSize + off < kSuperPageSize - PartitionPageSize.
Proof using L Hspan Hoff.
  destruct (span_pages _ _ _ _ _ _ Hspan) as [Hi Hn]. destruct page_sizes as (E1 & E2 & H1 & H2 & H3 & E3 & E4). nia.
Qed.

Lemma page_from_inner : PartitionPage_FromSlotInnerPtr h (span_start + off) = Ret (metadata base idx).
Proof.
  destruct page_of_offset as (Hk & Hr & E). destruct (span_page_at _ Hk) as [c Hc]. destruct (span_pages _ _ _ _ _ _ Hspan) as [Hi Hn].
  replace (span_start + off) with (base + ((idx + off / PartitionPageSize) * PartitionPageSize + off mod PartitionPageSize)) by (unfold span_start; lia).
  apply (from_inner_ptr h base idx _ _ c); [apply (span_super_page _ _ _ _ _ _ Hspan)|lia..|done].
Qed.

Lemma from_inner : FromSlotInnerPtr h (span_start + off) = Ret (metadata base idx).
Proof.
  unfold FromSlotInnerPtr. rewrite page_from_inner. cbn [mbind outcome_bind].
  rewrite pa_dcheck_true; [done|]. by rewrite span_metadata_read.
Qed.

Lemma payload_checked : check_payload h (span_start + off) = Ret tt.
Proof.
  unfold check_payload. destruct RTC_DCHECK_IS_ON; [|done]. pose proof (span_super_page _ _ _ _ _ _ Hspan) as Hb.
  pose proof inner_offset as Ho. destruct page_sizes as (E1 & E2 & H1 & H2 & H3 & E3 & E4).
  unfold span_start. rewrite <-Z.add_assoc, (span_normal _ _ _ _ _ _ Hspan) by lia. cbn [negb]. rewrite dcheck_true. cbn [mbind outcome_bind].
  assert (0 ≤ idx * PartitionPageSize + off < kSuperPageSize) as Ho' by lia.
  destruct (super_page_split base _ Hb Ho') as [Em _]. rewrite Em, metadata_area by done. cbn [mbind outcome_bind].
  destruct (span_root _ _ _ _ _ _ Hspan) as (root & Hz & He & Hr & Hi).
  rewrite (read_some _ _ root) by (done || destruct Hb as (_ & ? & _); lia). cbn [mbind outcome_bind].
  rewrite (read_some _ _ _ Hz Hr). cbn [mbind outcome_bind]. unfold IsScanEnabled.
  replace (negb (scan_enabled r) || quarantine_enabled r) with true by (pose proof (span_scan _ _ _ _ _ _ Hspan); destruct (scan_enabled r); simpl; [symmetry; auto|done]).
  rewrite dcheck_true. cbn [mbind outcome_bind]. unfold IsWithinSuperPagePayload, SuperPagePayloadBegin, SuperPagePayloadEnd.
  rewrite (span_normal _ _ _ _ _ _ Hspan), Em by lia. change kSuperPageAlignment with kSuperPageSize. rewrite (proj2 (Z.eqb_eq _ _) (proj1 Hb)).
  cbn [negb]. rewrite dcheck_true. cbn [mbind outcome_bind]. pose proof (span_payload _ _ _ _ _ _ Hspan) as Hp. unfold payload_offset in Hp.
  rewrite (proj2 (Z.leb_le _ _)) by lia. rewrite (proj2 (Z.ltb_lt _ _)) by lia. apply dcheck_true.
Qed.

(** The slot that contains the byte at an offset. *)
Definition slot_at (o : Z) : Z := span_start + o / slot_size b * slot_size b.

Lemma slot_at_bounds : slot_at off ≤ span_start + off < slot_at off + slot_size b.
Proof.
  destruct (span_bucket _ _ _ _ _ _ Hspan) as (_ & _ & (Hs & _) & _). unfold slot_at.
  assert (slot_size b ≠ 0 ∧ 0 < slot_size b) as [Hz Hp] by lia.
  pose proof (Z.div_mod off (slot_size b) Hz). pose proof (Z.mod_pos_bound off (slot_size b) Hp). lia.
Qed.

Lemma slot_number_found : off < span_bytes → GetSlotNumber b off = Ret (off / slot_size b).
Proof.
  intros Hlt. destruct (span_bucket _ _ _ _ _ _ Hspan) as (_ & _ & Hr & _ & Hb & _). apply get_slot_number; [done|]. unfold span_bytes in Hlt. lia.
Qed.

Lemma slot_start_found : GetSlotStartInSuperPage h (span_start + off) = Ret (if off <? span_bytes then slot_at off else 0).
Proof.
  unfold GetSlotStartInSuperPage. rewrite payload_checked. cbn [mbind outcome_bind]. rewrite from_inner. cbn [mbind outcome_bind].
  unfold slot_span_metadata. rewrite span_metadata_read. cbn [mbind outcome_bind page_content].
  destruct (span_bucket _ _ _ _ _ _ Hspan) as (Hn & _ & _). rewrite (proj2 (Z.eqb_neq _ _) Hn).
  rewrite (pa_dcheck_true _ span_valid). cbn [mbind outcome_bind]. rewrite span_begin. cbn [mbind outcome_bind].
  rewrite span_bucket_read. cbn [mbind outcome_bind]. replace (span_start + off - span_start) with off by lia.
  replace ((0 <=? off) && (off <? get_pages_per_slot_span b * PartitionPageSize)) with true by lia. rewrite dcheck_true. cbn [mbind outcome_bind].
  destruct span_size as (-> & _ & _). rewrite Z.leb_antisym. destruct (Z.ltb_spec off span_bytes) as [Hlt|]; [|done]. cbn [negb].
  rewrite slot_number_found by done. cbn [mbind outcome_bind]. fold (slot_at off). pose proof slot_at_bounds.
  rewrite (proj2 (Z.leb_le _ _)) by lia. rewrite (proj2 (Z.ltb_lt _ _)) by lia. by rewrite dcheck_true.
Qed.
End SlotStart.

(** Any pointer into a slot span of a super page leads to the metadata of
    the span and from it back to the first byte of the span; the slot found for
    the pointer is the one that contains it, one of the slots that lie wholly
    in the span, and a pointer past the bytes of the span has none.  No check
    fails, and the division by the reciprocal is exact. *)
Theorem slot_start_exact `{P : Platform} {L : PlatformLaws P} `{BuildMode} h base idx m b r off :
  span_at h base idx m b r → 0 ≤ off < get_pages_per_slot_span b * PartitionPageSize →
  let start := span_start base idx in
  ∃ meta, FromSlotInnerPtr h (start + off) = Ret meta ∧ pages h !! meta = Some (mkPage (SpanMetadata m) 0) ∧
    ToSlotSpanStartPtr meta = Ret start ∧ IsValidSlotSpan h meta = Ret true ∧
    ∃ slot, GetSlotStartInSuperPage h (start + off) = Ret slot ∧
      if off <? span_bytes b
      then slot ≤ start + off < slot + slot_size b ∧ start ≤ slot ∧ slot + slot_size b ≤ start + span_bytes b ∧ (slot_size b | slot - start)
      else slot = 0.
Proof.
  intros Hs Hoff start. exists (metadata base idx). split_and!; [by eapply from_inner|apply (span_first _ _ _ _ _ _ Hs)|by eapply span_begin|by eapply span_valid|].
  exists (if off <? span_bytes b then slot_at base idx b off else 0). split; [by eapply slot_start_found|].
  destruct (Z.ltb_spec off (span_bytes b)) as [Hlt|]; [|done]. pose proof (slot_at_bounds h base idx m b r Hs off) as Hb.
  fold start in Hb |- *. destruct (span_bucket _ _ _ _ _ _ Hs) as (_ & _ & (Hz & _) & _ & _ & Hd).
  assert (0 ≤ off / slot_size b) as H0 by (apply Z.div_pos; lia). unfold slot_at in *. fold start in Hb |- *. split_and!; [lia|lia|nia| |].
  - fold (span_bytes b) in Hd. destruct Hd as [n Hn]. assert (off / slot_size b < n) by (apply Z.div_lt_upper_bound; lia). nia.
  - exists (off / slot_size b). lia.
Qed.

(** With a reference count in front of objects, a pointer just past the end of
    one, moved back by one byte, still finds its slot. *)
Lemma ref_count_slot_start `{P : Platform} {L : PlatformLaws P} `{BuildMode} h base idx m b r adjustment off :
  span_at h base idx m b r → allow_ref_count r = true → 0 ≤ off < span_bytes b →
  PartitionAllocGetSlotStart h adjustment (span_start base idx + off + adjustment) = Ret (slot_at base idx b off).
Proof.
  intros Hs Hrc Hoff. destruct (span_size h base idx m b r Hs) as (_ & _ & Hb).
  assert (0 ≤ off < get_pages_per_slot_span b * PartitionPageSize) as Hoff' by lia.
  pose proof (inner_offset h base idx m b r Hs off Hoff') as Ho. pose proof (span_super_page _ _ _ _ _ _ Hs) as Hsp.
  destruct page_sizes as (E1 & E2 & H1 & H2 & H3 & E3 & E4). pose proof (slot_at_bounds h base idx m b r Hs off) as Hsl.
  unfold PartitionAllocGetSlotStart. replace (size (span_start base idx + off + adjustment - adjustment)) with (span_start base idx + off).
  2:{ replace (span_start base idx + off + adjustment - adjustment) with (base + (idx * PartitionPageSize + off)) by (unfold span_start; lia).
      rewrite size_address by (done || lia). unfold span_start. lia. }
  unfold PartitionAllocGetSlotSpanForSizeQuery. rewrite (from_inner h base idx m b r Hs off Hoff'). cbn [mbind outcome_bind].
  rewrite (pa_dcheck_true _ (span_valid h base idx m b r Hs)). cbn [mbind outcome_bind].
  destruct (span_root_found h base idx m b r Hs) as (root & Hz & -> & Hr & _). cbn [mbind outcome_bind].
  rewrite pa_dcheck_true; [|rewrite (read_some _ _ _ Hz Hr); cbn [mbind outcome_bind]; by rewrite Hrc]. cbn [mbind outcome_bind].
  rewrite (span_begin h base idx m b r Hs). cbn [mbind outcome_bind]. rewrite (span_bucket_read h base idx m b r Hs). cbn [mbind outcome_bind].
  replace (span_start base idx + off - span_start base idx) with off by lia.
  destruct (span_bucket _ _ _ _ _ _ Hs) as (_ & _ & (Hsz & _) & _ & Hmax & _). fold (span_bytes b) in Hmax. change kMaxBucketed with 983040 in *.
  rewrite small_size by lia.
  rewrite (slot_number_found h base idx m b r Hs off) by lia. cbn [mbind outcome_bind]. rewrite (Z.mul_comm (slot_size b)).
  assert (0 ≤ off / slot_size b * slot_size b ≤ off) as H0.
  { unfold slot_at in Hsl. split; [apply Z.mul_nonneg_nonneg; [apply Z.div_pos; lia|lia]|lia]. }
  destruct (span_pages _ _ _ _ _ _ Hs) as [Hi _]. assert (0 ≤ idx * PartitionPageSize) by (apply Z.mul_nonneg_nonneg; lia).
  unfold slot_at, span_start. rewrite (small_size (off / slot_size b * slot_size b)) by lia. rewrite <-!Z.add_assoc, size_address by (done || lia). done.
Qed.

(** A super page with a single span, of slots of 48 bytes. *)
Definition bucket_48 : PartitionBucket := mkBucket (2 ^ 21 + 4096 + 32) 48 3 (2 ^ 42 / 48 + 1).
Definition small_root : PartitionRoot := mkRoot (2 ^ 64 - 9001) false false false 0.
Definition small_heap (m : SlotSpanMetadata) : heap :=
  mkHeap {[ 2 ^ 21 + 4096 + 32 := mkPage (SpanMetadata m) 0 ]} {[ 5000 := bucket_48 ]} {[ 2 ^ 21 + 4096 := 9000 ]} {[ 9000 := small_root ]} (2 ^ 40) ∅.

Lemma small_heap_span m : bucket m = 5000 → span_at (P := android_64) (small_heap m) (2 ^ 21) 1 m bucket_48 small_root.
Proof.
  intros Hm. split.
  - split_and!; done.
  - split; vm_compute; discriminate.
  - done.
  - intros k Hk. change (@get_pages_per_slot_span android_64 _) with 1 in Hk. lia.
  - rewrite Hm. split; [done|]. split; [done|]. split; [|split; [cbn; lia|split; [done|exists 256; reflexivity]]].
    split; [split; done|split; [|reflexivity]]. vm_compute; discriminate.
  - exists 9000. done.
  - done.
  - vm_compute; discriminate.
  - intros o Ho. unfold IsManagedByPartitionAllocDirectMap. simpl. apply Z.eqb_neq. change kSuperPageSize with 2097152 in Ho.
    assert (0 ≤ 2 ^ 21 + o < 2 ^ 34) as Hr by lia. pose proof (Z.land_nonneg (2 ^ 21 + o) (@kDirectMapPoolBaseMask android_64)).
    assert (Z.land (2 ^ 21 + o) (@kDirectMapPoolBaseMask android_64) = 0) as E; [|rewrite E; done].
    change (@kDirectMapPoolBaseMask android_64) with (Z.shiftl (Z.ones 30) 34). apply Z.bits_inj'. intros n Hn. rewrite Z.land_spec, Z.bits_0.
    destruct (decide (n < 34)); [rewrite Z.shiftl_spec_low by lia; apply andb_false_r|].
    rewrite Z.bits_above_log2; [done|lia|]. apply (Z.lt_le_trans _ 34); [apply log2_lt; lia|lia].
Qed.

Lemma slot_start_exact_witness : ∃ slot,
  @GetSlotStartInSuperPage android_64 debug_build (small_heap (mkSpan 0 0 5000 1 0 (-1))) (2 ^ 21 + 2 ^ 14 + 100) = Ret slot ∧
  slot ≤ 2 ^ 21 + 2 ^ 14 + 100 < slot + 48.
Proof.
  destruct (slot_start_exact (H := debug_build) _ _ _ _ _ _ 100 (small_heap_span (mkSpan 0 0 5000 1 0 (-1)) eq_refl) ltac:(split; [lia|reflexivity]))
    as (meta & _ & _ & _ & _ & slot & E & Hb).
  exists slot. split; [exact E|exact (proj1 Hb)].
Defined.
