(* ===== verification/PartitionFreelist.v ===== *)
(** * Free lists and the thread cache of the partition allocator

    Model of [partition_freelist_entry.h] and [thread_cache.h] of
    [src/include/base/allocator/partition_allocator/].  A free slot holds the
    link of its list, encoded and, where hardening is on, together with its
    complement.  Memory is the map from the addresses of slots to the two words
    an entry occupies; whoever owns a slot may write anything there.

    The thread cache keeps a list of slots per bucket, takes slots from the
    central allocator when a list is empty and gives some back when it is full.
    The bodies that talk to the central allocator ([FillBucket], [ClearBucket],
    [HandleNonNormalMode]) are not in the repository: they are operations of the
    class [CentralAllocator], and [CentralLaws] states what their comments say
    of them. *)

From stdpp Require Import gmap sets.
From S2P Require Import Prelude ByteIo PartitionLayout PartitionPage.

(** ** Free list entries *)

Record PartitionFreelistEntry := mkEntry { next_ : Z; inverted_next_ : Z }.

#[export] Instance entry_eq_dec : EqDecision PartitionFreelistEntry.
Proof. solve_decision. Defined.

Abbreviation memory_map := (gmap Z PartitionFreelistEntry).

(** [ARCH_CPU_BIG_ENDIAN] and [PA_HAS_FREELIST_HARDENING]. *)
Class EntryConfig := { big_endian : bool; hardened : bool }.

Section Entries.
Context `{P : Platform} `{BuildMode} `{EntryConfig}.

(** [__builtin_bswap32] or [__builtin_bswap64]: the bytes in reverse order. *)
Definition ByteSwapUintPtrT (x : Z) : Z := be_value (le_bytes (Z.to_nat (kBitsPerSizeT / 8)) x).

Definition Transform (ptr : Z) : Z := if big_endian then size (Z.lnot ptr) else ByteSwapUintPtrT ptr.
Definition Encode (ptr : Z) : Z := Transform ptr.
Definition Decode (ptr : Z) : Z := Transform ptr.

(** [FreelistCorruptionDetected] stops the program. *)
Definition GetNext (this : PartitionFreelistEntry) : outcome Z :=
  if hardened && negb (next_ this =? 0) && negb (size (Z.lnot (next_ this)) =? inverted_next_ this)
  then Crash CheckFailed else Ret (Decode (next_ this)).

Definition SetNextInternal (this : PartitionFreelistEntry) (ptr : Z) : PartitionFreelistEntry :=
  let next := Encode ptr in mkEntry next (if hardened then size (Z.lnot next) else inverted_next_ this).

(** The entry at [address]. *)
Definition SetNext (address : Z) (this : PartitionFreelistEntry) (ptr : Z) : outcome PartitionFreelistEntry :=
  if RTC_DCHECK_IS_ON && negb (ptr =? 0) && negb (Z.land address kSuperPageBaseMask =? Z.land ptr kSuperPageBaseMask)
  then Crash CheckFailed else Ret (SetNextInternal this ptr).

Definition ClearForAllocation (this : PartitionFreelistEntry) : PartitionFreelistEntry :=
  mkEntry 0 (if hardened then 0 else inverted_next_ this).

Definition InitForThreadCache (mem : memory_map) (slot_start next : Z) : outcome memory_map :=
  e ← read mem slot_start; Ret (<[slot_start := SetNextInternal e next]> mem).

(** [CheckFreeList] follows the list to its end; fuel bounds its length. *)
Fixpoint CheckFreeList (fuel : nat) (mem : memory_map) (entry : Z) : outcome unit :=
  if negb hardened || (entry =? 0) then Ret tt
  else match fuel with
       | O => Crash OutOfMemory
       | S fuel => e ← read mem entry; n ← GetNext e; CheckFreeList fuel mem n
       end.
End Entries.

(** ** Encoding round-trips *)

Section Encoding.
Context `{P : Platform} {L : PlatformLaws P} `{BuildMode} `{EntryConfig}.

Lemma le_bytes_value l : bytes_ok l → le_bytes (length l) (le_value l) = l.
Proof.
  induction 1 as [|x l Hx Hl IH]; [done|]. simpl. unfold is_byte in Hx.
  f_equal; [|etrans; [|exact IH]; f_equal].
  - symmetry. apply (Z.mod_unique _ _ (le_value l)); lia.
  - symmetry. apply (Z.div_unique _ _ _ x); lia.
Qed.

Lemma word_bytes : 8 * Z.of_nat (Z.to_nat (kBitsPerSizeT / 8)) = kBitsPerSizeT.
Proof. by destruct word_size as [-> | ->]. Qed.

Lemma byte_swap_range x : 0 ≤ ByteSwapUintPtrT x < 2 ^ kBitsPerSizeT.
Proof.
  unfold ByteSwapUintPtrT. pose proof (be_value_range _ (le_bytes_ok (Z.to_nat (kBitsPerSizeT / 8)) x)) as Hr.
  by rewrite le_bytes_length, word_bytes in Hr.
Qed.

Lemma byte_swap_swap x : 0 ≤ x < 2 ^ kBitsPerSizeT → ByteSwapUintPtrT (ByteSwapUintPtrT x) = x.
Proof.
  intros Hx. unfold ByteSwapUintPtrT. set (n := Z.to_nat (kBitsPerSizeT / 8)). rewrite !be_le_value.
  assert (le_bytes n (le_value (reverse (le_bytes n x))) = reverse (le_bytes n x)) as ->.
  { rewrite <-(le_bytes_length n x) at 1. rewrite <-length_reverse. apply le_bytes_value. apply Forall_reverse, le_bytes_ok. }
  rewrite reverse_involutive, le_value_bytes. unfold n. rewrite word_bytes. by apply Z.mod_small.
Qed.

Lemma lnot_size x : 0 ≤ x < 2 ^ kBitsPerSizeT → size (Z.lnot x) = 2 ^ kBitsPerSizeT - 1 - x.
Proof. intros Hx. unfold size, wrapU, Z.lnot. symmetry. apply (Z.mod_unique_pos _ _ (-1)); lia. Qed.

Lemma transform_range x : 0 ≤ x < 2 ^ kBitsPerSizeT → 0 ≤ Transform x < 2 ^ kBitsPerSizeT.
Proof. intros Hx. unfold Transform. destruct big_endian; [rewrite lnot_size by done; lia|apply byte_swap_range]. Qed.

Lemma transform_transform x : 0 ≤ x < 2 ^ kBitsPerSizeT → Transform (Transform x) = x.
Proof.
  intros Hx. unfold Transform. destruct big_endian; [|by apply byte_swap_swap].
  rewrite (lnot_size x) by done. rewrite lnot_size by lia. lia.
Qed.

(** What was stored is read, and passes the check of the complement. *)
Lemma get_set_next e x : 0 ≤ x < 2 ^ kBitsPerSizeT → GetNext (SetNextInternal e x) = Ret x.
Proof.
  intros Hx. unfold GetNext, SetNextInternal, Encode, Decode. cbn [next_ inverted_next_]. rewrite transform_transform by done.
  destruct hardened; [|done]. by rewrite Z.eqb_refl, andb_false_r.
Qed.

(** Hardening: an entry that was overwritten is followed only if the first word
    is zero or the second is its complement. *)
Lemma corruption_detected e n : hardened = true → GetNext e = Ret n → next_ e = 0 ∨ inverted_next_ e = size (Z.lnot (next_ e)).
Proof.
  unfold GetNext. intros -> E. destruct (Z.eqb_spec (next_ e) 0); [auto|].
  destruct (Z.eqb_spec (size (Z.lnot (next_ e))) (inverted_next_ e)); [auto|done].
Qed.
End Encoding.

(** Memory that was decommitted is zero, and the comment in [GetNext] lets it be
    read as the end of a list; on a big endian machine it is not. *)
Example zeroed_entry :
  @GetNext android_64 {| big_endian := false; hardened := true |} (mkEntry 0 0) = Ret 0 ∧
  @GetNext android_64 {| big_endian := true; hardened := true |} (mkEntry 0 0) = Ret (2 ^ 64 - 1).
Proof. split; reflexivity. Qed.

(** ** The thread cache *)

(** [n < 1 ? -1 : (n < 2 ? 0 : 1 + ConstexprLog2(n >> 1))]; the argument halves,
    so the width of a word is enough fuel. *)
Fixpoint ConstexprLog2 (fuel : nat) (n : Z) : Z :=
  match fuel with
  | O => -1
  | S fuel => if n <? 1 then -1 else if n <? 2 then 0 else 1 + ConstexprLog2 fuel (Z.shiftr n 1)
  end.

Definition kMaxCountPerBucket : Z := 128.
Definition kSizeThreshold : Z := 512.

Inductive Mode := kNormal | kPurge | kNotifyRegistry.

#[export] Instance mode_eq_dec : EqDecision Mode.
Proof. solve_decision. Defined.

Record Bucket := mkTBucket {
  tb_freelist_head : Z;
  tb_count : Z;
  tb_limit : Z;
  tb_slot_size : Z
}.

Record ThreadCacheStats := mkStats {
  alloc_count : Z;
  alloc_hits : Z;
  alloc_misses : Z;
  alloc_miss_empty : Z;
  alloc_miss_too_large : Z;
  cache_fill_count : Z;
  cache_fill_hits : Z;
  cache_fill_misses : Z
}.

Record ThreadCache := mkCache {
  buckets_ : list Bucket;
  mode_ : Mode;
  stats_ : ThreadCacheStats;
  is_in_thread_cache_ : bool
}.

(** The cache of a thread, the memory of the slots, the central allocator. *)
Record tstate (C : Type) := mkT { cache : ThreadCache; memory : memory_map; central : C }.
Arguments mkT {C} _ _ _.
Arguments cache {C} _.
Arguments memory {C} _.
Arguments central {C} _.

Class CentralAllocator (C : Type) := {
  FillBucket : tstate C → nat → outcome (tstate C);
  ClearBucket : tstate C → nat → Z → outcome (tstate C);
  HandleNonNormalMode : tstate C → outcome (tstate C)
}.

Section Cache.
Context `{P : Platform} `{BuildMode} `{EntryConfig} {C : Type} `{CentralAllocator C}.

Definition kBucketCount : nat :=
  Z.to_nat (Z.shiftl (ConstexprLog2 64 kSizeThreshold - kMinBucketedOrder + 1) kNumBucketsPerOrderBits + 1).

(** [INCREMENT_COUNTER] on a counter of 64 bits. *)
Definition inc (n : Z) : Z := wrapU 64 (n + 1).

Definition set_stats (t : tstate C) (s : ThreadCacheStats) : tstate C :=
  mkT (mkCache (buckets_ (cache t)) (mode_ (cache t)) s (is_in_thread_cache_ (cache t))) (memory t) (central t).
Definition set_bucket (t : tstate C) (i : nat) (b : Bucket) : tstate C :=
  mkT (mkCache (<[i := b]> (buckets_ (cache t))) (mode_ (cache t)) (stats_ (cache t)) (is_in_thread_cache_ (cache t))) (memory t) (central t).
Definition set_memory (t : tstate C) (m : memory_map) : tstate C := mkT (cache t) m (central t).
Definition set_flag (t : tstate C) (f : bool) : tstate C :=
  mkT (mkCache (buckets_ (cache t)) (mode_ (cache t)) (stats_ (cache t)) f) (memory t) (central t).

Definition bucket_at (t : tstate C) (i : nat) : outcome Bucket := from_option_or OutOfBounds (buckets_ (cache t) !! i).

(** [PA_REENTRANCY_GUARD]: the constructor and the destructor of the guard. *)
Definition guard_enter (t : tstate C) : outcome (tstate C) :=
  if RTC_DCHECK_IS_ON then (_ ← RTC_CHECK (negb (is_in_thread_cache_ (cache t))); Ret (set_flag t true)) else Ret t.
Definition guard_leave (t : tstate C) : tstate C := if RTC_DCHECK_IS_ON then set_flag t false else t.

(** The counters each path of the two functions increments. *)
Definition count_fill (s : ThreadCacheStats) : ThreadCacheStats :=
  mkStats (alloc_count s) (alloc_hits s) (alloc_misses s) (alloc_miss_empty s) (alloc_miss_too_large s)
          (inc (cache_fill_count s)) (cache_fill_hits s) (cache_fill_misses s).
Definition count_fill_miss (s : ThreadCacheStats) : ThreadCacheStats :=
  mkStats (alloc_count s) (alloc_hits s) (alloc_misses s) (alloc_miss_empty s) (alloc_miss_too_large s)
          (cache_fill_count s) (cache_fill_hits s) (inc (cache_fill_misses s)).
Definition count_fill_hit (s : ThreadCacheStats) : ThreadCacheStats :=
  mkStats (alloc_count s) (alloc_hits s) (alloc_misses s) (alloc_miss_empty s) (alloc_miss_too_large s)
          (cache_fill_count s) (inc (cache_fill_hits s)) (cache_fill_misses s).
Definition count_alloc (s : ThreadCacheStats) : ThreadCacheStats :=
  mkStats (inc (alloc_count s)) (alloc_hits s) (alloc_misses s) (alloc_miss_empty s) (alloc_miss_too_large s)
          (cache_fill_count s) (cache_fill_hits s) (cache_fill_misses s).
Definition count_too_large (s : ThreadCacheStats) : ThreadCacheStats :=
  mkStats (alloc_count s) (alloc_hits s) (inc (alloc_misses s)) (alloc_miss_empty s) (inc (alloc_miss_too_large s))
          (cache_fill_count s) (cache_fill_hits s) (cache_fill_misses s).
Definition count_hit (s : ThreadCacheStats) : ThreadCacheStats :=
  mkStats (alloc_count s) (inc (alloc_hits s)) (alloc_misses s) (alloc_miss_empty s) (alloc_miss_too_large s)
          (cache_fill_count s) (cache_fill_hits s) (cache_fill_misses s).
Definition count_empty (s : ThreadCacheStats) : ThreadCacheStats :=
  mkStats (alloc_count s) (alloc_hits s) (inc (alloc_misses s)) (inc (alloc_miss_empty s)) (alloc_miss_too_large s)
          (cache_fill_count s) (cache_fill_hits s) (cache_fill_misses s).

Definition upd_stats (f : ThreadCacheStats → ThreadCacheStats) (t : tstate C) : tstate C := set_stats t (f (stats_ (cache t))).

Definition PutInBucket (t : tstate C) (i : nat) (slot_start : Z) : outcome (tstate C) :=
  bucket ← bucket_at t i;
  mem ← InitForThreadCache (memory t) slot_start (tb_freelist_head bucket);
  Ret (set_bucket (set_memory t mem) i
         (mkTBucket slot_start (convert uint8_t (tb_count bucket + 1)) (tb_limit bucket) (tb_slot_size bucket))).

Definition MaybePutInCache (t : tstate C) (slot_start : Z) (bucket_index : nat) : outcome (tstate C * bool) :=
  t ← guard_enter t;
  let t := upd_stats count_fill t in
  if decide (kBucketCount ≤ bucket_index)%nat then Ret (guard_leave (upd_stats count_fill_miss t), false)
  else
    bucket ← bucket_at t bucket_index;
    _ ← RTC_DCHECK (negb (tb_count bucket =? 0) || (tb_freelist_head bucket =? 0));
    t ← PutInBucket t bucket_index slot_start;
    let t := upd_stats count_fill_hit t in
    bucket ← bucket_at t bucket_index;
    t ← (if tb_limit bucket <=? tb_count bucket then ClearBucket t bucket_index (tb_limit bucket / 2) else Ret t);
    t ← (if decide (mode_ (cache t) = kNormal) then Ret t else HandleNonNormalMode t);
    Ret (guard_leave t, true).

(** The pop at the end of [GetFromCache]. *)
Definition take_head (t : tstate C) (bucket_index : nat) : outcome (tstate C * option (Z * Z)) :=
  bucket ← bucket_at t bucket_index;
  _ ← RTC_DCHECK (negb (tb_count bucket =? 0));
  let result := tb_freelist_head bucket in
  e ← read (memory t) result;
  next ← GetNext e;
  _ ← RTC_DCHECK (negb (result =? next));
  let count := convert uint8_t (tb_count bucket - 1) in
  _ ← RTC_DCHECK (negb (count =? 0) || (next =? 0));
  Ret (guard_leave (set_bucket t bucket_index (mkTBucket next count (tb_limit bucket) (tb_slot_size bucket))),
       Some (result, tb_slot_size bucket)).

(** The slot and [*slot_size], or nothing for a null pointer. *)
Definition GetFromCache (t : tstate C) (bucket_index : nat) : outcome (tstate C * option (Z * Z)) :=
  t ← guard_enter t;
  let t := upd_stats count_alloc t in
  if decide (kBucketCount ≤ bucket_index)%nat then Ret (guard_leave (upd_stats count_too_large t), None)
  else
    bucket ← bucket_at t bucket_index;
    if negb (tb_freelist_head bucket =? 0) then take_head (upd_stats count_hit t) bucket_index
    else
      _ ← RTC_DCHECK (tb_count bucket =? 0);
      t ← FillBucket (upd_stats count_empty t) bucket_index;
      bucket ← bucket_at t bucket_index;
      if tb_freelist_head bucket =? 0 then Ret (guard_leave t, None) else take_head t bucket_index.
End Cache.

(** ** Lists of lists *)

Lemma concat_insert_perm {A} (ls : list (list A)) i l0 l : ls !! i = Some l0 → l0 ++ concat (<[i := l]> ls) ≡ₚ l ++ concat ls.
Proof.
  intros E. rewrite <-(take_drop_middle ls i l0 E) at 2. rewrite insert_take_drop by (by eapply lookup_lt_Some).
  rewrite !concat_app; cbn [concat]. solve_Permutation.
Qed.

Lemma sublist_concat {A} (ls ls' : list (list A)) : Forall2 (λ l l', l' `sublist_of` l) ls ls' → concat ls' `sublist_of` concat ls.
Proof. induction 1; simpl; [done|]. by apply sublist_app. Qed.

(** ** Lists in memory *)

Section Chains.
Context `{P : Platform} {L : PlatformLaws P} `{BuildMode} `{EntryConfig}.

Definition address (a : Z) : Prop := 0 < a < 2 ^ kBitsPerSizeT.

(** The list of slots behind a head pointer. *)
Fixpoint chain (mem : memory_map) (p : Z) (l : list Z) : Prop :=
  match l with
  | [] => p = 0
  | a :: l => p = a ∧ address a ∧ ∃ e q, mem !! a = Some e ∧ GetNext e = Ret q ∧ chain mem q l
  end.

Lemma chain_frame mem mem' l : ∀ p, (∀ a, a ∈ l → mem' !! a = mem !! a) → chain mem p l → chain mem' p l.
Proof.
  induction l as [|a l IH]; intros p Hf; [done|]. intros (-> & Ha & e & q & He & Hq & Hc). split_and!; [done|done|].
  exists e, q. split_and!; [rewrite Hf; [done|left]|done|]. apply IH; [|done]. intros b Hb. apply Hf. by right.
Qed.

Lemma chain_head mem p l : chain mem p l → (p =? 0) = bool_decide (l = []).
Proof.
  destruct l as [|a l]; simpl; [by intros ->|]. intros (-> & Ha & _). unfold address in Ha. apply Z.eqb_neq. lia.
Qed.

Lemma chain_address mem p l : chain mem p l → 0 ≤ p < 2 ^ kBitsPerSizeT.
Proof.
  destruct l as [|a l]; simpl; [|intros (-> & Ha & _); unfold address in Ha; lia].
  intros ->. pose proof (pow2_pos kBitsPerSizeT (Z.lt_le_incl _ _ word_nonzero)). lia.
Qed.

Lemma chain_push mem p l a e : chain mem p l → address a → a ∉ l → chain (<[a := SetNextInternal e p]> mem) a (a :: l).
Proof.
  intros Hc Ha Hn. split_and!; [done|done|]. exists (SetNextInternal e p), p. split_and!; [by rewrite lookup_insert_eq| |].
  - apply get_set_next. by eapply chain_address.
  - eapply chain_frame, Hc. intros b Hb. rewrite lookup_insert_ne; [done|]. by intros ->.
Qed.

(** The walk of [CheckFreeList] ends at the end of the list. *)
Lemma check_free_list mem l : ∀ fuel p, chain mem p l → (length l ≤ fuel)%nat → CheckFreeList fuel mem p = Ret tt.
Proof.
  induction l as [|a l IH]; intros fuel p Hc Hl; simpl in Hc.
  - subst p. destruct fuel; simpl; by rewrite orb_true_r.
  - destruct Hc as (-> & Ha & e & q & He & Hq & Hc). simpl in Hl. destruct fuel as [|fuel]; [lia|]. simpl.
    destruct (negb hardened || (a =? 0)); [done|]. unfold address in Ha. rewrite (read_some _ _ e) by (lia || done). cbn [mbind outcome_bind].
    rewrite Hq. cbn [mbind outcome_bind]. apply IH; [done|lia].
Qed.
End Chains.

(** ** What the central allocator promises *)

Section Laws.
Context `{P : Platform} `{BuildMode} `{EntryConfig} {C : Type}.

(** The slots the central allocator holds, and the bucket a slot belongs to. *)
Context (slots : C → gset Z) (class_of : Z → nat).

Definition bucket_shape (mem : memory_map) (b : Bucket) (l : list Z) : Prop :=
  chain mem (tb_freelist_head b) l ∧ tb_count b = Z.of_nat (length l) ∧ Z.of_nat (length l) ≤ tb_limit b ≤ kMaxCountPerBucket.

(** The lists of all buckets. *)
Definition shape (t : tstate C) (lists : list (list Z)) : Prop := Forall2 (bucket_shape (memory t)) (buckets_ (cache t)) lists.

(** What the operations of the central allocator leave alone. *)
Definition rest_same (t t' : tstate C) : Prop :=
  stats_ (cache t') = stats_ (cache t) ∧ is_in_thread_cache_ (cache t') = is_in_thread_cache_ (cache t) ∧
  map tb_limit (buckets_ (cache t')) = map tb_limit (buckets_ (cache t)) ∧
  map tb_slot_size (buckets_ (cache t')) = map tb_slot_size (buckets_ (cache t)).

(** Slots of bucket [i] move from the central allocator to the list of the
    bucket, which becomes [l]. *)
Record filled (t : tstate C) (i : nat) (t' : tstate C) (l : list Z) : Prop := {
  filled_from : ∀ a, a ∈ l → a ∈ slots (central t) ∧ class_of a = i;
  filled_nodup : NoDup l;
  filled_bucket : ∃ b', buckets_ (cache t') = <[i := b']> (buckets_ (cache t)) ∧ bucket_shape (memory t') b' l;
  filled_central : slots (central t') = slots (central t) ∖ list_to_set l;
  filled_memory : ∀ a, a ∉ slots (central t) → memory t' !! a = memory t !! a;
  filled_mapped : ∀ a, is_Some (memory t !! a) → is_Some (memory t' !! a);
  filled_rest : rest_same t t'
}.

(** Slots move from the lists to the central allocator. *)
Record trimmed (t : tstate C) (lists : list (list Z)) (t' : tstate C) (lists' : list (list Z)) : Prop := {
  trimmed_lists : Forall2 (λ l l', l' `sublist_of` l) lists lists';
  trimmed_shape : shape t' lists';
  trimmed_central : slots (central t') = slots (central t) ∪ (list_to_set (concat lists) ∖ list_to_set (concat lists'));
  trimmed_memory : ∀ a, a ∉ slots (central t) → a ∉ concat lists → memory t' !! a = memory t !! a;
  trimmed_mapped : ∀ a, is_Some (memory t !! a) → is_Some (memory t' !! a);
  trimmed_rest : rest_same t t'
}.

(** The lists hold distinct slots, none of which is the central allocator's,
    whose slots are memory of its bucket. *)
Definition separated (t : tstate C) (lists : list (list Z)) : Prop :=
  shape t lists ∧ NoDup (concat lists) ∧ (∀ a, a ∈ concat lists → a ∉ slots (central t)) ∧
  ∀ a, a ∈ slots (central t) → address a ∧ is_Some (memory t !! a).

(** "Fills a bucket from the central allocator"; "Empties the |bucket| until
    there are at most |limit| objects in it"; a purge empties buckets. *)
Class CentralLaws `{CentralAllocator C} := {
  fill_ok t lists i : separated t lists → lists !! i = Some [] → (∃ b, buckets_ (cache t) !! i = Some b ∧ 0 < tb_limit b) →
    ∃ t' l, FillBucket t i = Ret t' ∧ filled t i t' l;
  clear_ok t lists i l limit : separated t lists → lists !! i = Some l → 0 ≤ limit →
    ∃ t' l', ClearBucket t i limit = Ret t' ∧ trimmed t lists t' (<[i := l']> lists) ∧ Z.of_nat (length l') ≤ limit;
  mode_ok t lists : separated t lists → ∃ t' lists', HandleNonNormalMode t = Ret t' ∧ trimmed t lists t' lists'
}.
End Laws.

(** ** Ownership of slots *)

Section Ownership.
Context `{P : Platform} {L : PlatformLaws P} `{BuildMode} `{EntryConfig} {C : Type} `{CentralAllocator C}.
Context (slots : C → gset Z) (class_of : Z → nat) (U : gset Z).

(** Every slot of [U] belongs to the client, with the contents it left there,
    to exactly one list of the cache, or to the central allocator. *)
Record core (t : tstate C) (lists : list (list Z)) (live : memory_map) : Prop := {
  core_shape : shape t lists;
  core_length : length lists = kBucketCount;
  core_nodup : NoDup (concat lists);
  core_class : ∀ i l, lists !! i = Some l → Forall (λ a, class_of a = i) l;
  core_live : ∀ a e, live !! a = Some e → memory t !! a = Some e;
  core_lists_live : ∀ a, a ∈ concat lists → live !! a = None;
  core_lists_central : ∀ a, a ∈ concat lists → a ∉ slots (central t);
  core_live_central : ∀ a, a ∈ slots (central t) → live !! a = None;
  core_all : ∀ a, a ∈ U ↔ is_Some (live !! a) ∨ a ∈ concat lists ∨ a ∈ slots (central t);
  core_address : ∀ a, a ∈ U → address a ∧ is_Some (memory t !! a)
}.

Lemma core_separated t lists live : core t lists live → separated slots t lists.
Proof.
  intros Hc. split_and!; [apply Hc..|]. intros a Ha. apply (core_address _ _ _ Hc), (core_all _ _ _ Hc). auto.
Qed.

Lemma shape_frame mem mem' bs lists : (∀ a, a ∈ concat lists → mem' !! a = mem !! a) →
  Forall2 (bucket_shape mem) bs lists → Forall2 (bucket_shape mem') bs lists.
Proof.
  intros Hf. induction 1 as [|b l bs lists (Hc & Hn) _ IH]; constructor.
  - split; [|done]. eapply chain_frame, Hc. intros a Ha. apply Hf. simpl. apply elem_of_app. auto.
  - apply IH. intros a Ha. apply Hf. simpl. apply elem_of_app. auto.
Qed.

Lemma in_concat (ls : list (list Z)) i l a : ls !! i = Some l → a ∈ l → a ∈ concat ls.
Proof. intros El Ha. pose proof (concat_insert_perm ls i l [] El) as Hp. simpl in Hp. rewrite <-Hp. apply elem_of_app. auto. Qed.

Lemma class_insert (ls : list (list Z)) i l :
  (∀ j l, ls !! j = Some l → Forall (λ a, class_of a = j) l) → Forall (λ a, class_of a = i) l →
  ∀ j l', <[i := l]> ls !! j = Some l' → Forall (λ a, class_of a = j) l'.
Proof. intros Hc Hl j l' E. apply list_lookup_insert_Some in E as [(-> & <- & _)|(_ & E)]; eauto. Qed.

Lemma core_fill t lists live i t' l : core t lists live → lists !! i = Some [] → filled slots class_of t i t' l → core t' (<[i := l]> lists) live.
Proof.
  intros Hc Ei Hf. pose proof (concat_insert_perm lists i [] l Ei) as Hp. simpl in Hp.
  assert (∀ a, a ∈ concat (<[i := l]> lists) ↔ a ∈ l ∨ a ∈ concat lists) as Hin by (intros a; rewrite Hp; apply elem_of_app).
  assert (∀ a, a ∈ slots (central t') ↔ a ∈ slots (central t) ∧ a ∉ l) as Hce.
  { intros a. rewrite (filled_central _ _ _ _ _ _ Hf), elem_of_difference, elem_of_list_to_set. done. }
  pose proof (filled_from _ _ _ _ _ _ Hf) as Hfrom. destruct (filled_bucket _ _ _ _ _ _ Hf) as (b' & Eb & Hb).
  assert (∀ a, a ∈ concat lists → memory t' !! a = memory t !! a) as Hm by (intros a Ha; by apply (filled_memory _ _ _ _ _ _ Hf), (core_lists_central _ _ _ Hc)).
  split.
  - unfold shape. rewrite Eb. apply Forall2_insert; [|done]. eapply shape_frame, (core_shape _ _ _ Hc). done.
  - rewrite length_insert. apply (core_length _ _ _ Hc).
  - rewrite Hp. apply list.NoDup_app. split_and!; [apply (filled_nodup _ _ _ _ _ _ Hf)| |apply (core_nodup _ _ _ Hc)].
    intros a Ha Hl. apply (core_lists_central _ _ _ Hc a Hl), Hfrom, Ha.
  - apply class_insert; [apply (core_class _ _ _ Hc)|]. apply List.Forall_forall. intros a Ha. apply list_elem_of_In in Ha. by apply Hfrom.
  - intros a e E. rewrite (filled_memory _ _ _ _ _ _ Hf); [by apply (core_live _ _ _ Hc)|]. intros Ha. by rewrite (core_live_central _ _ _ Hc a Ha) in E.
  - intros a Ha. apply Hin in Ha as [Ha|Ha]; [by apply (core_live_central _ _ _ Hc), Hfrom|by apply (core_lists_live _ _ _ Hc)].
  - intros a Ha Hs. apply Hce in Hs as [Hs Hn]. apply Hin in Ha as [Ha|Ha]; [done|]. by apply (core_lists_central _ _ _ Hc a Ha).
  - intros a Ha. apply Hce in Ha as [Ha _]. by apply (core_live_central _ _ _ Hc).
  - intros a. rewrite (core_all _ _ _ Hc), Hin, Hce. destruct (decide (a ∈ l)) as [Hl|Hl]; [|tauto]. pose proof (Hfrom a Hl). tauto.
  - intros a Ha. destruct (core_address _ _ _ Hc a Ha). split; [done|]. by apply (filled_mapped _ _ _ _ _ _ Hf).
Qed.

Lemma core_trim t lists live t' lists' : core t lists live → trimmed slots t lists t' lists' → core t' lists' live.
Proof.
  intros Hc Ht. pose proof (sublist_concat _ _ (trimmed_lists _ _ _ _ _ Ht)) as Hsub.
  assert (∀ a, a ∈ concat lists' → a ∈ concat lists) as Hin by (intros a Ha; by eapply elem_of_sublist).
  assert (∀ a, a ∈ slots (central t') ↔ a ∈ slots (central t) ∨ (a ∈ concat lists ∧ a ∉ concat lists')) as Hce.
  { intros a. rewrite (trimmed_central _ _ _ _ _ Ht), elem_of_union, elem_of_difference, !elem_of_list_to_set. done. }
  split.
  - apply (trimmed_shape _ _ _ _ _ Ht).
  - rewrite <-(Forall2_length (trimmed_lists _ _ _ _ _ Ht)). apply (core_length _ _ _ Hc).
  - by eapply sublist_NoDup; [apply (core_nodup _ _ _ Hc)|].
  - intros i l' E'. destruct (Forall2_lookup_r _ _ _ _ _ (trimmed_lists _ _ _ _ _ Ht) E') as (l & E & Hs).
    apply List.Forall_forall. intros a Ha. apply list_elem_of_In in Ha.
    apply (proj1 (List.Forall_forall _ _) (core_class _ _ _ Hc i l E)), list_elem_of_In. by eapply elem_of_sublist.
  - intros a e E. rewrite (trimmed_memory _ _ _ _ _ Ht); [by apply (core_live _ _ _ Hc)| |]; intros Ha.
    + by rewrite (core_live_central _ _ _ Hc a Ha) in E.
    + by rewrite (core_lists_live _ _ _ Hc a Ha) in E.
  - intros a Ha. by apply (core_lists_live _ _ _ Hc), Hin.
  - intros a Ha Hs. apply Hce in Hs as [Hs|[_ Hn]]; [|done]. by apply (core_lists_central _ _ _ Hc a (Hin a Ha)).
  - intros a Ha. apply Hce in Ha as [Ha|[Ha _]]; [by apply (core_live_central _ _ _ Hc)|by apply (core_lists_live _ _ _ Hc)].
  - intros a. rewrite (core_all _ _ _ Hc), Hce. destruct (decide (a ∈ concat lists')) as [Hl|Hl]; [|tauto]. pose proof (Hin a Hl). tauto.
  - intros a Ha. destruct (core_address _ _ _ Hc a Ha). split; [done|]. by apply (trimmed_mapped _ _ _ _ _ Ht).
Qed.

(** Changes that touch neither lists nor memory nor the central allocator. *)
Lemma core_same t t' lists live : buckets_ (cache t') = buckets_ (cache t) → memory t' = memory t → central t' = central t →
  core t lists live → core t' lists live.
Proof. intros Eb Em Ec [? ? ? ? ? ? ? ? ? ?]. split; unfold shape in *; rewrite ?Eb, ?Em, ?Ec; done. Qed.
End Ownership.

(** ** The two operations of the cache *)

(** Every request is a hit or a miss, and every miss has its reason. *)
Definition balanced (s : ThreadCacheStats) : Prop :=
  alloc_count s = wrapU 64 (alloc_hits s + alloc_misses s) ∧
  alloc_misses s = wrapU 64 (alloc_miss_empty s + alloc_miss_too_large s) ∧
  cache_fill_count s = wrapU 64 (cache_fill_hits s + cache_fill_misses s).

Lemma inc_l a b : inc (wrapU 64 (a + b)) = wrapU 64 (inc a + b).
Proof. unfold inc, wrapU. rewrite Zplus_mod_idemp_l, Zplus_mod_idemp_l. f_equal. lia. Qed.

Lemma inc_r a b : inc (wrapU 64 (a + b)) = wrapU 64 (a + inc b).
Proof. rewrite (Z.add_comm a), inc_l. f_equal. lia. Qed.

Lemma balanced_paths s : balanced s → balanced (count_fill_miss (count_fill s)) ∧ balanced (count_fill_hit (count_fill s)) ∧
  balanced (count_too_large (count_alloc s)) ∧ balanced (count_hit (count_alloc s)) ∧ balanced (count_empty (count_alloc s)).
Proof.
  intros (E1 & E2 & E3). unfold balanced; cbn. rewrite E3, E1, <-?inc_l, <-?inc_r, ?inc_l, ?inc_r.
  split_and!; rewrite ?E2; auto using inc_l, inc_r.
Qed.

Section Operations.
Context `{P : Platform} {L : PlatformLaws P} `{BuildMode} `{EntryConfig} {C : Type} `{CA : CentralAllocator C}.
Context (slots : C → gset Z) (class_of : Z → nat) (U : gset Z) `{CL : !CentralLaws slots class_of}.

Lemma bucket_of_list (t : tstate C) lists i l : shape t lists → lists !! i = Some l →
  ∃ b, buckets_ (cache t) !! i = Some b ∧ bucket_shape (memory t) b l.
Proof. intros Hs El. destruct (Forall2_lookup_r _ _ _ _ _ Hs El) as (b & Eb & Hb). eauto. Qed.

Lemma bucket_at_some (t : tstate C) i b : buckets_ (cache t) !! i = Some b → bucket_at t i = Ret b.
Proof. intros E. unfold bucket_at. by rewrite E. Qed.

Lemma map_insert_same {A B} (f : A → B) (l : list A) i x y : l !! i = Some x → f y = f x → map f (<[i := y]> l) = map f l.
Proof.
  intros Ex Ef. change (f <$> <[i := y]> l = f <$> l). rewrite list_fmap_insert. apply list_insert_id.
  rewrite list_lookup_fmap, Ex. simpl. by rewrite Ef.
Qed.

Lemma put_in_bucket t lists live i l p e : core slots class_of U t lists live → lists !! i = Some l → live !! p = Some e → class_of p = i →
  (∀ b, buckets_ (cache t) !! i = Some b → Z.of_nat (length l) < tb_limit b) →
  ∃ t' b', PutInBucket t i p = Ret t' ∧ core slots class_of U t' (<[i := p :: l]> lists) (delete p live) ∧ rest_same t t' ∧
    buckets_ (cache t') !! i = Some b' ∧ tb_count b' = Z.of_nat (S (length l)).
Proof.
  intros Hc El Ep Hcl Hlim. destruct (bucket_of_list _ _ _ _ (core_shape _ _ _ _ _ _ Hc) El) as (b & Eb & Hch & Hn & Hl).
  specialize (Hlim b Eb). unfold PutInBucket. rewrite (bucket_at_some _ _ _ Eb). cbn [mbind outcome_bind].
  assert (p ∈ U) as HpU by (apply (core_all _ _ _ _ _ _ Hc); left; eauto). destruct (core_address _ _ _ _ _ _ Hc p HpU) as [Hpa _].
  pose proof (core_live _ _ _ _ _ _ Hc p e Ep) as Em. unfold InitForThreadCache. rewrite (read_some _ _ e) by (unfold address in Hpa; lia || done).
  cbn [mbind outcome_bind]. assert (p ∉ concat lists) as Hnp by (intros Hin; by rewrite (core_lists_live _ _ _ _ _ _ Hc p Hin) in Ep).
  set (mem' := <[p := SetNextInternal e (tb_freelist_head b)]> (memory t)).
  set (b' := mkTBucket p (convert uint8_t (tb_count b + 1)) (tb_limit b) (tb_slot_size b)).
  assert (tb_count b' = Z.of_nat (S (length l))) as Ecount.
  { simpl. unfold convert; simpl. rewrite wrapU_small; [lia|]. change kMaxCountPerBucket with 128 in *. lia. }
  pose proof (concat_insert_perm lists i l (p :: l) El) as Hperm.
  assert (concat (<[i := p :: l]> lists) ≡ₚ p :: concat lists) as Hp by (apply (Permutation_app_inv_l l); rewrite Hperm; solve_Permutation). clear Hperm.
  assert (∀ a, a ∈ concat (<[i := p :: l]> lists) ↔ a = p ∨ a ∈ concat lists) as Hin by (intros a; rewrite Hp; apply list.elem_of_cons).
  assert (∀ a, a ≠ p → mem' !! a = memory t !! a) as Hm by (intros a Ha; by apply lookup_insert_ne).
  assert (i < length (buckets_ (cache t)))%nat as Hlen by (by eapply lookup_lt_Some).
  eexists _, b'. split; [reflexivity|]. split; [|split; [|split; [by apply list_lookup_insert_eq|done]]].
  - split.
    + unfold shape. simpl. apply Forall2_insert.
      * eapply shape_frame, (core_shape _ _ _ _ _ _ Hc). intros a Ha. apply Hm. by intros ->.
      * split_and!; [|done|simpl; lia|simpl; lia]. simpl. apply chain_push; [done|done|]. intros Hl'. by apply Hnp, (in_concat lists i l).
    + rewrite length_insert. apply (core_length _ _ _ _ _ _ Hc).
    + rewrite Hp. apply list.NoDup_cons. split; [done|apply (core_nodup _ _ _ _ _ _ Hc)].
    + apply class_insert; [apply (core_class _ _ _ _ _ _ Hc)|]. constructor; [done|]. apply (core_class _ _ _ _ _ _ Hc i l El).
    + intros a x Ex. apply lookup_delete_Some in Ex as [Hne Ex]. simpl. rewrite Hm by done. by apply (core_live _ _ _ _ _ _ Hc).
    + intros a Ha. apply lookup_delete_None. apply Hin in Ha as [->|Ha]; [auto|]. right. by apply (core_lists_live _ _ _ _ _ _ Hc).
    + intros a Ha Hs. apply Hin in Ha as [->|Ha]; [|by apply (core_lists_central _ _ _ _ _ _ Hc a Ha)].
      by rewrite (core_live_central _ _ _ _ _ _ Hc p Hs) in Ep.
    + intros a Ha. apply lookup_delete_None. right. by apply (core_live_central _ _ _ _ _ _ Hc).
    + intros a. rewrite (core_all _ _ _ _ _ _ Hc), Hin. simpl. destruct (decide (a = p)) as [->|Hne].
      * split; [tauto|]. intros _. left. eauto.
      * rewrite lookup_delete_ne by done. tauto.
    + intros a Ha. destruct (core_address _ _ _ _ _ _ Hc a Ha). split; [done|]. simpl. destruct (decide (a = p)) as [->|Hne].
      * unfold mem'. rewrite lookup_insert_eq. eauto.
      * by rewrite Hm.
  - split_and!; [done|done|by apply (map_insert_same _ _ _ b)..].
Qed.

Lemma chain_next_ne mem q a l : chain mem q l → a ∉ l → a ≠ 0 → a ≠ q.
Proof. destruct l as [|x l]; simpl; [by intros ->|]. intros (-> & _) Hn _ ->. apply Hn. by left. Qed.

Lemma pop_perm (lists : list (list Z)) i a l : lists !! i = Some (a :: l) → NoDup (concat lists) →
  (concat lists ≡ₚ a :: concat (<[i := l]> lists)) ∧ (a ∉ concat (<[i := l]> lists)) ∧ NoDup (concat (<[i := l]> lists)) ∧ (a ∉ l).
Proof.
  intros El Hnd. pose proof (concat_insert_perm lists i (a :: l) l El) as Hperm.
  assert (concat lists ≡ₚ a :: concat (<[i := l]> lists)) as Hp by (apply (Permutation_app_inv_l l); rewrite <-Hperm; solve_Permutation).
  rewrite Hp in Hnd. apply list.NoDup_cons in Hnd as [Hna Hnd]. split_and!; [done..|].
  intros Hx. apply Hna, (in_concat _ i l); [|done]. apply list_lookup_insert_eq. by eapply lookup_lt_Some.
Qed.

Lemma core_pop t lists live i a l b e q : core slots class_of U t lists live → lists !! i = Some (a :: l) → buckets_ (cache t) !! i = Some b →
  memory t !! a = Some e → chain (memory t) q l →
  core slots class_of U (set_bucket t i (mkTBucket q (Z.of_nat (length l)) (tb_limit b) (tb_slot_size b))) (<[i := l]> lists) (<[a := e]> live).
Proof.
  intros Hc El Eb Ee Hch. destruct (bucket_of_list _ _ _ _ (core_shape _ _ _ _ _ _ Hc) El) as (b0 & Eb0 & _ & _ & Hl).
  rewrite Eb in Eb0. injection Eb0 as <-. simpl in Hl. destruct (pop_perm _ _ _ _ El (core_nodup _ _ _ _ _ _ Hc)) as (Hp & Hna & Hnd & Hal).
  assert (∀ x, x ∈ concat lists ↔ x = a ∨ x ∈ concat (<[i := l]> lists)) as Hx by (intros x; rewrite Hp; apply list.elem_of_cons).
  assert (a ∈ concat lists) as Hin by (apply Hx; auto). pose proof (core_class _ _ _ _ _ _ Hc i _ El) as Hcl. split.
  - apply Forall2_insert; [apply (core_shape _ _ _ _ _ _ Hc)|]. split_and!; [done|done|simpl; lia|simpl; lia].
  - rewrite length_insert. apply (core_length _ _ _ _ _ _ Hc).
  - done.
  - apply class_insert; [apply (core_class _ _ _ _ _ _ Hc)|]. by eapply Forall_inv_tail.
  - intros x ex E. apply lookup_insert_Some in E as [[<- <-]|[_ E]]; [done|by apply (core_live _ _ _ _ _ _ Hc)].
  - intros x E. rewrite lookup_insert_ne by (by intros <-). apply (core_lists_live _ _ _ _ _ _ Hc), Hx. auto.
  - intros x E. apply (core_lists_central _ _ _ _ _ _ Hc), Hx. auto.
  - intros x E. rewrite lookup_insert_ne; [by apply (core_live_central _ _ _ _ _ _ Hc)|]. intros <-. by apply (core_lists_central _ _ _ _ _ _ Hc a Hin).
  - intros x. rewrite (core_all _ _ _ _ _ _ Hc), Hx. simpl. destruct (decide (x = a)) as [->|Hxa].
    + rewrite lookup_insert_eq. split; [intros _; left; eauto|tauto].
    + rewrite lookup_insert_ne by done. tauto.
  - apply (core_address _ _ _ _ _ _ Hc).
Qed.

Lemma take_head_ok t lists live i a l b : core slots class_of U t lists live → lists !! i = Some (a :: l) → buckets_ (cache t) !! i = Some b →
  ∃ t1 e, take_head t i = Ret (guard_leave t1, Some (a, tb_slot_size b)) ∧ memory t1 !! a = Some e ∧ live !! a = None ∧ class_of a = i ∧
    core slots class_of U t1 (<[i := l]> lists) (<[a := e]> live) ∧ rest_same t t1.
Proof.
  intros Hc El Eb. destruct (bucket_of_list _ _ _ _ (core_shape _ _ _ _ _ _ Hc) El) as (b0 & Eb0 & Hch & Hn & Hl).
  rewrite Eb in Eb0. injection Eb0 as <-. destruct Hch as (Eh & Ha & e & q & Ee & Eq & Hch). simpl in Hn, Hl.
  destruct (pop_perm _ _ _ _ El (core_nodup _ _ _ _ _ _ Hc)) as (Hp & _ & _ & Hal).
  unfold take_head. rewrite (bucket_at_some _ _ _ Eb). cbn [mbind outcome_bind].
  replace (negb (tb_count b =? 0)) with true by lia. rewrite dcheck_true. cbn [mbind outcome_bind]. rewrite Eh.
  rewrite (read_some _ _ e) by (unfold address in Ha; lia || done). cbn [mbind outcome_bind]. rewrite Eq. cbn [mbind outcome_bind].
  assert (a ≠ q) as Hne by (eapply chain_next_ne; [done|done|unfold address in Ha; lia]).
  rewrite (proj2 (Z.eqb_neq _ _) Hne). cbn [negb]. rewrite dcheck_true. cbn [mbind outcome_bind].
  assert (convert uint8_t (tb_count b - 1) = Z.of_nat (length l)) as ->.
  { unfold convert; simpl. rewrite wrapU_small; [lia|]. change kMaxCountPerBucket with 128 in *. lia. }
  replace (negb (Z.of_nat (length l) =? 0) || (q =? 0)) with true by (rewrite (chain_head _ _ _ Hch); by destruct l).
  rewrite dcheck_true. cbn [mbind outcome_bind]. eexists _, e. split; [reflexivity|]. split; [done|].
  split; [apply (core_lists_live _ _ _ _ _ _ Hc); rewrite Hp; left|]. split; [by apply (Forall_inv (core_class _ _ _ _ _ _ Hc i _ El))|].
  split; [by apply core_pop|]. split_and!; [done|done|by apply (map_insert_same _ _ _ b)..].
Qed.

(** A list has room for one more slot. *)
Definition strict (t : tstate C) (lists : list (list Z)) : Prop :=
  ∀ i l lim, lists !! i = Some l → map tb_limit (buckets_ (cache t)) !! i = Some lim → Z.of_nat (length l) < lim.

(** Between two calls. *)
Record inv (sizes : list Z) (t : tstate C) (lists : list (list Z)) (live : memory_map) : Prop := {
  inv_core : core slots class_of U t lists live;
  inv_strict : strict t lists;
  inv_balanced : balanced (stats_ (cache t));
  inv_flag : is_in_thread_cache_ (cache t) = false;
  inv_sizes : map tb_slot_size (buckets_ (cache t)) = sizes
}.

Lemma guard_entered (t : tstate C) : is_in_thread_cache_ (cache t) = false → guard_enter t = Ret (set_flag t RTC_DCHECK_IS_ON).
Proof. intros Hf. unfold guard_enter. destruct t as [[bs m s f] mem c]; simpl in *; subst f. by destruct RTC_DCHECK_IS_ON. Qed.

(** Leaving: the flag is down again, everything else is unchanged. *)
Lemma guard_left sizes t lists live : core slots class_of U t lists live → strict t lists → balanced (stats_ (cache t)) →
  map tb_slot_size (buckets_ (cache t)) = sizes → is_in_thread_cache_ (cache t) = RTC_DCHECK_IS_ON → inv sizes (guard_leave t) lists live.
Proof.
  intros Hc Hs Hb Hz Hf. unfold guard_leave. destruct RTC_DCHECK_IS_ON; [|by split].
  split; [by eapply core_same, Hc|done|done|done|done].
Qed.

Lemma limit_at (t : tstate C) i b : buckets_ (cache t) !! i = Some b → map tb_limit (buckets_ (cache t)) !! i = Some (tb_limit b).
Proof. intros E. change ((tb_limit <$> buckets_ (cache t)) !! i = Some (tb_limit b)). by rewrite list_lookup_fmap, E. Qed.

Lemma list_at t lists live i : core slots class_of U t lists live → (i < kBucketCount)%nat → ∃ l, lists !! i = Some l.
Proof. intros Hc Hi. apply lookup_lt_is_Some_2. by rewrite (core_length _ _ _ _ _ _ Hc). Qed.

Lemma trimmed_strict t lists t' lists' : strict t lists → trimmed slots t lists t' lists' → strict t' lists'.
Proof.
  intros Hs Ht i l' lim El' Elim. destruct (Forall2_lookup_r _ _ _ _ _ (trimmed_lists _ _ _ _ _ Ht) El') as (l & El & Hsub).
  destruct (trimmed_rest _ _ _ _ _ Ht) as (_ & _ & Em & _). rewrite Em in Elim. pose proof (Hs i l lim El Elim). apply sublist_length in Hsub. lia.
Qed.

Lemma strict_insert t t' lists i l : strict t lists → map tb_limit (buckets_ (cache t')) = map tb_limit (buckets_ (cache t)) →
  (∀ lim, map tb_limit (buckets_ (cache t)) !! i = Some lim → Z.of_nat (length l) < lim) → strict t' (<[i := l]> lists).
Proof.
  intros Hs Em Hl j l' lim E Elim. rewrite Em in Elim. apply list_lookup_insert_Some in E as [(-> & <- & _)|(_ & E)]; eauto.
Qed.

(** After the mode was looked at, and a purge if one was asked for. *)
Lemma mode_handled sizes t lists live : core slots class_of U t lists live → strict t lists → balanced (stats_ (cache t)) →
  map tb_slot_size (buckets_ (cache t)) = sizes → is_in_thread_cache_ (cache t) = RTC_DCHECK_IS_ON →
  ∃ t' lists', (if decide (mode_ (cache t) = kNormal) then Ret t else HandleNonNormalMode t) = Ret t' ∧ inv sizes (guard_leave t') lists' live.
Proof.
  intros Hc Hs Hb Hz Hf. destruct (decide (mode_ (cache t) = kNormal)); [exists t, lists; split; [done|]; by apply guard_left|].
  destruct (mode_ok slots class_of t lists (core_separated _ _ _ _ _ _ Hc)) as (t' & lists' & E & Ht). exists t', lists'. split; [done|].
  destruct (trimmed_rest _ _ _ _ _ Ht) as (E1 & E2 & E3 & E4).
  apply guard_left; [by eapply core_trim|by eapply trimmed_strict|by rewrite E1|by rewrite E4|by rewrite E2].
Qed.

(** A list that reached its limit is cut down. *)
Lemma list_cut t lists live i l b : core slots class_of U t (<[i := l]> lists) live → strict t lists → (i < length lists)%nat →
  buckets_ (cache t) !! i = Some b → tb_count b = Z.of_nat (length l) → 0 < tb_limit b →
  ∃ t' lists', (if tb_limit b <=? tb_count b then ClearBucket t i (tb_limit b / 2) else Ret t) = Ret t' ∧
    core slots class_of U t' lists' live ∧ strict t' lists' ∧ rest_same t t'.
Proof.
  intros Hc Hs Hi Eb Hn Hpos. pose proof (limit_at t i b Eb) as Elim. destruct (Z.leb_spec (tb_limit b) (tb_count b)) as [Hle|Hlt].
  - assert (0 ≤ tb_limit b / 2 < tb_limit b) as Hhalf by (split; [apply Z.div_pos; lia|apply Z.div_lt; lia]).
    destruct (clear_ok slots class_of t (<[i := l]> lists) i l (tb_limit b / 2) (core_separated _ _ _ _ _ _ Hc)) as (t' & l' & E & Ht & Hl');
      [by apply list_lookup_insert_eq|lia|]. rewrite list_insert_insert_eq in Ht. destruct (trimmed_rest _ _ _ _ _ Ht) as (E1 & E2 & E3 & E4).
    exists t', (<[i := l']> lists). split_and!; [done|by eapply core_trim| |done]. apply (strict_insert t); [done|done|].
    intros lim E'. rewrite Elim in E'. injection E' as <-. lia.
  - exists t, (<[i := l]> lists). split_and!; [done|done| |done]. apply (strict_insert t); [done|done|].
    intros lim E'. rewrite Elim in E'. injection E' as <-. lia.
Qed.

Lemma put_ok sizes t lists live p e i : inv sizes t lists live → live !! p = Some e → class_of p = i →
  ∃ t' lists', MaybePutInCache t p i = Ret (t', bool_decide (i < kBucketCount)%nat) ∧
    inv sizes t' lists' (if bool_decide (i < kBucketCount)%nat then delete p live else live).
Proof.
  intros Hi Ep Hcl. destruct Hi as [Hc Hs Hb Hf Hz]. destruct (balanced_paths _ Hb) as (B1 & B2 & _). unfold MaybePutInCache.
  rewrite guard_entered by done. cbn [mbind outcome_bind]. set (t0 := upd_stats count_fill (set_flag t RTC_DCHECK_IS_ON)).
  assert (core slots class_of U t0 lists live) as Hc0 by (by eapply core_same, Hc).
  destruct (decide (kBucketCount ≤ i)%nat) as [Hge|Hlt].
  - exists (guard_leave (upd_stats count_fill_miss t0)), lists. rewrite bool_decide_eq_false_2 by lia. split; [done|].
    apply guard_left; [by eapply core_same, Hc|done..].
  - rewrite bool_decide_eq_true_2 by lia. destruct (list_at _ _ _ i Hc0) as [l El]; [lia|].
    destruct (bucket_of_list _ _ _ _ (core_shape _ _ _ _ _ _ Hc0) El) as (b & Eb & Hch & Hn & Hl).
    rewrite (bucket_at_some _ _ _ Eb). cbn [mbind outcome_bind].
    replace (negb (tb_count b =? 0) || (tb_freelist_head b =? 0)) with true by (rewrite (chain_head _ _ _ Hch), Hn; by destruct l).
    rewrite dcheck_true. cbn [mbind outcome_bind]. pose proof (Hs i l _ El (limit_at t0 i b Eb)) as Hroom.
    destruct (put_in_bucket t0 lists live i l p e Hc0 El Ep Hcl) as (t1 & b1 & E1 & Hc1 & (R1 & R2 & R3 & R4) & Eb1 & Hn1).
    { intros b' E'. rewrite Eb in E'. injection E' as <-. done. }
    rewrite E1. cbn [mbind outcome_bind]. set (t2 := upd_stats count_fill_hit t1). change (bucket_at t2 i) with (bucket_at t1 i).
    rewrite (bucket_at_some _ _ _ Eb1). cbn [mbind outcome_bind].
    assert (core slots class_of U t2 (<[i := p :: l]> lists) (delete p live)) as Hc2 by (by eapply core_same, Hc1).
    destruct (list_cut t2 lists (delete p live) i (p :: l) b1) as (t3 & lists3 & E3 & Hc3 & Hs3 & (S1 & S2 & S3 & S4)); [done| | |done|done| |].
    { intros j lj lim Ej Elim. apply (Hs j lj lim Ej). simpl in Elim. by rewrite R3 in Elim. }
    { by eapply lookup_lt_Some. }
    { pose proof (limit_at t1 i b1 Eb1) as E'. rewrite R3, (limit_at t0 i b Eb) in E'. injection E' as <-. lia. }
    rewrite E3. cbn [mbind outcome_bind]. destruct (mode_handled sizes t3 lists3 (delete p live)) as (t4 & lists4 & -> & Hi4); [done|done| | | |].
    { rewrite S1. simpl. by rewrite R1. }
    { rewrite S4. simpl. by rewrite R4. }
    { rewrite S2. simpl. by rewrite R2. }
    cbn [mbind outcome_bind]. eauto.
Qed.

(** What [GetFromCache] gives. *)
Definition got (sizes : list Z) (i : nat) (live : memory_map) (t' : tstate C) (lists' : list (list Z)) (r : option (Z * Z)) : Prop :=
  match r with
  | Some (a, s) => ∃ e, memory t' !! a = Some e ∧ live !! a = None ∧ class_of a = i ∧ sizes !! i = Some s ∧ inv sizes t' lists' (<[a := e]> live)
  | None => inv sizes t' lists' live
  end.

Lemma take_left sizes t lists live i a l : core slots class_of U t lists live → lists !! i = Some (a :: l) → strict t (<[i := l]> lists) →
  balanced (stats_ (cache t)) → map tb_slot_size (buckets_ (cache t)) = sizes → is_in_thread_cache_ (cache t) = RTC_DCHECK_IS_ON →
  ∃ t' r, take_head t i = Ret (t', r) ∧ got sizes i live t' (<[i := l]> lists) r.
Proof.
  intros Hc El Hs Hb Hz Hf. destruct (bucket_of_list _ _ _ _ (core_shape _ _ _ _ _ _ Hc) El) as (b & Eb & _).
  destruct (take_head_ok t lists live i a l b Hc El Eb) as (t1 & e & E & Em & Hl & Hcl & Hc1 & (R1 & R2 & R3 & R4)).
  eexists _, _. split; [exact E|]. exists e. split_and!; [by unfold guard_leave; case_match|done|done| |].
  - rewrite <-Hz. change ((tb_slot_size <$> buckets_ (cache t)) !! i = Some (tb_slot_size b)). by rewrite list_lookup_fmap, Eb.
  - apply guard_left; [done| |by rewrite R1|by rewrite R4|by rewrite R2].
    intros j lj lim Ej Elim. apply (Hs j lj lim Ej). by rewrite <-R3.
Qed.

(** Every slot that is taken was nobody's, and of the right bucket. *)
Lemma get_ok sizes t lists live i : inv sizes t lists live → ∃ t' lists' r, GetFromCache t i = Ret (t', r) ∧ got sizes i live t' lists' r.
Proof.
  intros Hi. destruct Hi as [Hc Hs Hb Hf Hz]. destruct (balanced_paths _ Hb) as (_ & _ & B1 & B2 & B3). unfold GetFromCache.
  rewrite guard_entered by done. cbn [mbind outcome_bind]. set (t0 := upd_stats count_alloc (set_flag t RTC_DCHECK_IS_ON)).
  assert (core slots class_of U t0 lists live) as Hc0 by (by eapply core_same, Hc).
  destruct (decide (kBucketCount ≤ i)%nat) as [Hge|Hlt].
  { exists (guard_leave (upd_stats count_too_large t0)), lists, None. split; [done|]. apply guard_left; [by eapply core_same, Hc|done..]. }
  destruct (list_at _ _ _ i Hc0) as [l El]; [lia|].
  destruct (bucket_of_list _ _ _ _ (core_shape _ _ _ _ _ _ Hc0) El) as (b & Eb & Hch & Hn & Hl).
  rewrite (bucket_at_some _ _ _ Eb). cbn [mbind outcome_bind]. rewrite (chain_head _ _ _ Hch). pose proof (limit_at t0 i b Eb) as Elim.
  pose proof (Hs i l _ El Elim) as Hroom. destruct l as [|a l].
  - rewrite bool_decide_eq_true_2 by done. cbn [negb]. rewrite Hn. change (Z.of_nat (length []) =? 0) with true. rewrite dcheck_true. cbn [mbind outcome_bind].
    set (t1 := upd_stats count_empty t0). assert (core slots class_of U t1 lists live) as Hc1 by (by eapply core_same, Hc).
    destruct (fill_ok slots class_of t1 lists i (core_separated _ _ _ _ _ _ Hc1) El) as (t2 & l2 & -> & Hf2); [exists b; split; [done|simpl in *; lia]|].
    cbn [mbind outcome_bind]. pose proof (core_fill _ _ _ _ _ _ _ _ _ Hc1 El Hf2) as Hc2. destruct (filled_rest _ _ _ _ _ _ Hf2) as (R1 & R2 & R3 & R4).
    assert ((<[i := l2]> lists) !! i = Some l2) as El2 by (apply list_lookup_insert_eq; by eapply lookup_lt_Some).
    destruct (bucket_of_list _ _ _ _ (core_shape _ _ _ _ _ _ Hc2) El2) as (b2 & Eb2 & Hch2 & _ & Hl2).
    rewrite (bucket_at_some _ _ _ Eb2). cbn [mbind outcome_bind]. rewrite (chain_head _ _ _ Hch2).
    assert (tb_limit b2 = tb_limit b) as Elim2. { pose proof (limit_at t2 i b2 Eb2) as E. rewrite R3 in E. change (buckets_ (cache t1)) with (buckets_ (cache t0)) in E.
      rewrite Elim in E. by injection E. }
    assert (∀ l', (length l' < length l2 ∨ l' = [])%nat → strict t2 (<[i := l']> lists)) as Hst.
    { intros l' Hlen. apply (strict_insert t1); [done|done|]. intros lim E. change (buckets_ (cache t1)) with (buckets_ (cache t0)) in E. rewrite Elim in E. injection E as <-. destruct Hlen as [Hlen|Hlen]; [lia|rewrite Hlen; simpl in *; lia]. }
    destruct l2 as [|a l2].
    + rewrite bool_decide_eq_true_2 by done. exists (guard_leave t2), (<[i := []]> lists), None. split; [done|].
      apply guard_left; [done|by apply Hst; right|by rewrite R1|by rewrite R4|by rewrite R2].
    + rewrite bool_decide_eq_false_2 by done. destruct (take_left sizes t2 (<[i := a :: l2]> lists) live i a l2) as (t' & r & E & Hg);
        [done|done| |by rewrite R1|by rewrite R4|by rewrite R2|eauto]. rewrite list_insert_insert_eq. apply Hst. simpl. left. lia.
  - rewrite bool_decide_eq_false_2 by done. cbn [negb].
    destruct (take_left sizes (upd_stats count_hit t0) lists live i a l) as (t' & r & E & Hg); [by eapply core_same, Hc|done| |done|done|done|eauto].
    apply (strict_insert t); [done|done|]. intros lim E. simpl in Elim. rewrite Elim in E. injection E as <-. simpl in Hroom. lia.
Qed.
End Operations.

(** ** A client of the cache *)

Inductive event :=
| Alloc (bucket_index : nat)
| Free (slot_start : Z) (bucket_index : nat)
| Write (slot_start : Z) (e : PartitionFreelistEntry)  (* the client uses its slot *)
| SetMode (m : Mode).                                  (* another thread asks for a purge *)

Inductive result := GotSlot (slot_start slot_size : Z) | GotNull | Cached (b : bool) | Done.

Section Client.
Context `{P : Platform} {L : PlatformLaws P} `{BuildMode} `{EntryConfig} {C : Type} `{CA : CentralAllocator C}.

Definition set_mode (t : tstate C) (m : Mode) : tstate C :=
  mkT (mkCache (buckets_ (cache t)) m (stats_ (cache t)) (is_in_thread_cache_ (cache t))) (memory t) (central t).

Definition exec (t : tstate C) (ev : event) : outcome (tstate C * result) :=
  match ev with
  | Alloc i => '(t, r) ← GetFromCache t i; Ret (t, match r with Some (a, s) => GotSlot a s | None => GotNull end)
  | Free p i => '(t, b) ← MaybePutInCache t p i; Ret (t, Cached b)
  | Write p e => Ret (set_memory t (<[p := e]> (memory t)), Done)
  | SetMode m => Ret (set_mode t m, Done)
  end.

Context (slots : C → gset Z) (class_of : Z → nat) (sizes : list Z).

(** A client frees and writes what it holds, [live], and tells the bucket. *)
Definition allowed (live : memory_map) (ev : event) : Prop :=
  match ev with
  | Free p i => is_Some (live !! p) ∧ class_of p = i
  | Write p _ => is_Some (live !! p)
  | _ => True
  end.

(** The promise: an allocation adds a slot of the bucket that nobody held, a
    slot that was cached is gone, the rest is what the client made it. *)
Definition promised (live : memory_map) (ev : event) (r : result) (mem' live' : memory_map) : Prop :=
  match ev, r with
  | Alloc i, GotSlot a s => live !! a = None ∧ class_of a = i ∧ sizes !! i = Some s ∧ ∃ e, mem' !! a = Some e ∧ live' = <[a := e]> live
  | Alloc _, GotNull => live' = live
  | Free p i, Cached b => b = bool_decide (i < kBucketCount)%nat ∧ live' = if b then delete p live else live
  | Write p e, Done => live' = <[p := e]> live
  | SetMode _, Done => live' = live
  | _, _ => False
  end.

Inductive reach (t0 : tstate C) (live0 : memory_map) : tstate C → memory_map → Prop :=
| reach_start : reach t0 live0 t0 live0
| reach_step t live ev t' r live' : reach t0 live0 t live → allowed live ev → exec t ev = Ret (t', r) →
    promised live ev r (memory t') live' → reach t0 live0 t' live'.

(** An empty cache, and every slot either the client's or the central
    allocator's. *)
Record start (t : tstate C) (live : memory_map) : Prop := {
  start_buckets : length (buckets_ (cache t)) = kBucketCount ∧
    Forall (λ b, tb_freelist_head b = 0 ∧ tb_count b = 0 ∧ 0 < tb_limit b ≤ kMaxCountPerBucket) (buckets_ (cache t));
  start_sizes : map tb_slot_size (buckets_ (cache t)) = sizes;
  start_stats : stats_ (cache t) = mkStats 0 0 0 0 0 0 0 0;
  start_flag : is_in_thread_cache_ (cache t) = false;
  start_live : live ⊆ memory t ∧ ∀ a, is_Some (live !! a) → address a;
  start_central : ∀ a, a ∈ slots (central t) → live !! a = None ∧ address a ∧ is_Some (memory t !! a)
}.

Lemma concat_replicate_nil n : concat (replicate n (@nil Z)) = [].
Proof. by induction n. Qed.

Lemma start_inv t live : start t live → inv slots class_of (dom live ∪ slots (central t)) sizes t (replicate kBucketCount []) live.
Proof.
  intros [[Hl Hb] Hz Hst Hf [Hsub Hla] Hce]. split; [|..|done|done].
  - split; try rewrite !concat_replicate_nil.
    + unfold shape. rewrite <-Hl. clear Hl Hz. induction Hb as [|b bs (E1 & E2 & E3)]; simpl; constructor; [|done]. split_and!; simpl; [done|done|lia|lia].
    + by rewrite length_replicate.
    + constructor.
    + intros i l E. apply lookup_replicate in E as [-> _]. constructor.
    + intros a e E. by eapply lookup_weaken.
    + intros a Ha. by apply not_elem_of_nil in Ha.
    + intros a Ha. by apply not_elem_of_nil in Ha.
    + intros a Ha. by apply Hce.
    + intros a. rewrite elem_of_union, elem_of_dom. set_solver.
    + intros a Ha. apply elem_of_union in Ha as [Ha|Ha]; [|by apply Hce]. apply elem_of_dom in Ha. split; [by apply Hla|].
      destruct Ha as [e E]. exists e. by eapply lookup_weaken.
  - intros i l lim E Elim. apply lookup_replicate in E as [-> _]. simpl.
    change ((tb_limit <$> buckets_ (cache t)) !! i = Some lim) in Elim. rewrite list_lookup_fmap in Elim. apply fmap_Some in Elim as (b & Eb & ->).
    apply list_elem_of_lookup_2, list_elem_of_In in Eb. apply (proj1 (List.Forall_forall _ _) Hb) in Eb. lia.
  - by rewrite Hst.
Qed.

Context `{CL : !CentralLaws slots class_of}.

Lemma exec_ok U t lists live ev : inv slots class_of U sizes t lists live → allowed live ev →
  ∃ t' r lists' live', exec t ev = Ret (t', r) ∧ promised live ev r (memory t') live' ∧ inv slots class_of U sizes t' lists' live'.
Proof.
  intros Hi Ha. destruct ev as [i|p i|p e|m]; simpl in *.
  - destruct (get_ok slots class_of U sizes t lists live i Hi) as (t' & lists' & [[a s]|] & E & Hg); rewrite E; cbn [mbind outcome_bind].
    + destruct Hg as (e & Em & Hl & Hc & Hz & Hi'). eexists _, _, lists', (<[a := e]> live). split; [done|]. split; [simpl; eauto 10|done].
    + eexists _, _, lists', live. by split.
  - destruct Ha as [[e Ep] Hc]. destruct (put_ok slots class_of U sizes t lists live p e i Hi Ep Hc) as (t' & lists' & E & Hi').
    rewrite E. cbn [mbind outcome_bind]. eexists _, _, lists', _. split; [done|]. by split.
  - destruct Ha as [e0 Ep]. eexists _, _, lists, (<[p := e]> live). split; [done|]. split; [done|].
    destruct Hi as [Hc Hs Hb Hf Hz]. split; [|done..]. assert (p ∉ concat lists) as Hn by (intros Hin; by rewrite (core_lists_live _ _ _ _ _ _ Hc p Hin) in Ep).
    destruct Hc as [C1 C2 C3 C4 C5 C6 C7 C8 C9 C10]. split; simpl; [|done|done|done| | |done| | |].
    + eapply shape_frame, C1. intros a Hin. simpl. rewrite lookup_insert_ne; [done|]. by intros ->.
    + intros a x E. apply lookup_insert_Some in E as [[<- <-]|[Hne E]]; [by rewrite lookup_insert_eq|]. rewrite lookup_insert_ne by done. auto.
    + intros a Hin. rewrite lookup_insert_ne; [auto|]. by intros ->.
    + intros a Hin. rewrite lookup_insert_ne; [auto|]. intros ->. by rewrite (C8 a Hin) in Ep.
    + intros a. rewrite C9. destruct (decide (a = p)) as [->|Hne]; [|by rewrite lookup_insert_ne]. rewrite lookup_insert_eq. split; intros _; left; eauto.
    + intros a Hin. destruct (C10 a Hin) as [? ?]. split; [done|]. destruct (decide (a = p)) as [->|Hne]; [rewrite lookup_insert_eq; eauto|by rewrite lookup_insert_ne].
  - eexists _, _, lists, live. split; [done|]. split; [done|]. destruct Hi as [Hc Hs Hb Hf Hz]. split; [by eapply core_same, Hc|done..].
Qed.

Lemma promised_functional live ev r mem' live1 live2 : promised live ev r mem' live1 → promised live ev r mem' live2 → live1 = live2.
Proof.
  destruct ev, r; simpl; try done; [|naive_solver..].
  intros (_ & _ & _ & e & E & ->) (_ & _ & _ & e' & E' & ->). rewrite E in E'. by injection E' as ->.
Qed.

Lemma reach_inv t0 live0 t live : start t0 live0 → reach t0 live0 t live →
  ∃ lists, inv slots class_of (dom live0 ∪ slots (central t0)) sizes t lists live.
Proof.
  intros Hs. induction 1 as [|t live ev t' r live' _ (lists & IH) Ha E Hp]; [eexists; by apply start_inv|].
  destruct (exec_ok _ _ _ _ _ IH Ha) as (t1 & r1 & lists1 & live1 & E1 & Hp1 & Hi1). rewrite E in E1. injection E1 as <- <-.
  rewrite (promised_functional _ _ _ _ _ _ Hp Hp1). eauto.
Qed.

(** C31: A thread cache over any central allocator that keeps its promises: in
    every state a client can reach by allocating, freeing and using slots, with
    purges asked for at any time, the next call returns without a failed check;
    an allocation gives no slot that is in use, and one of the right size; the
    contents of all slots in use stay what the client wrote; no slot is lost:
    each is in use, in exactly one list of the cache, whose count is right, or
    with the central allocator; and the statistics add up. *)
Theorem thread_cache_safe t0 live0 t live ev : start t0 live0 → reach t0 live0 t live → allowed live ev →
  ∃ t' r lists' live', exec t ev = Ret (t', r) ∧ promised live ev r (memory t') live' ∧
    (∀ a e, live' !! a = Some e → memory t' !! a = Some e) ∧
    Forall2 (bucket_shape (memory t')) (buckets_ (cache t')) lists' ∧ NoDup (concat lists') ∧
    (∀ a, a ∈ dom live0 ∪ slots (central t0) ↔ is_Some (live' !! a) ∨ a ∈ concat lists' ∨ a ∈ slots (central t')) ∧
    (∀ a, a ∈ concat lists' → live' !! a = None ∧ (a ∉ slots (central t'))) ∧ balanced (stats_ (cache t')).
Proof.
  intros Hs Hr Ha. destruct (reach_inv _ _ _ _ Hs Hr) as (lists & Hi). destruct (exec_ok _ _ _ _ _ Hi Ha) as (t' & r & lists' & live' & E & Hp & Hi').
  exists t', r, lists', live'. pose proof (inv_core _ _ _ _ _ _ _ Hi') as Hc. split_and!; [done|done|apply Hc..| |apply Hi'].
  intros a Hin. split; [by apply (core_lists_live _ _ _ _ _ _ Hc)|by apply (core_lists_central _ _ _ _ _ _ Hc)].
Qed.
End Client.

(** ** A central allocator *)

(** A set of free slots: a bucket is filled with one slot, and cleared wholly. *)
Module Simple.
Section Simple.
Context `{P : Platform} {L : PlatformLaws P} `{BuildMode} `{EntryConfig} (class_of : Z → nat).

Fixpoint walk (fuel : nat) (mem : memory_map) (p : Z) : outcome (list Z) :=
  if p =? 0 then Ret []
  else match fuel with
       | O => Crash OutOfBounds
       | S fuel => e ← read mem p; n ← GetNext e; l ← walk fuel mem n; Ret (p :: l)
       end.

Definition with_central (t : tstate (gset Z)) (c : gset Z) : tstate (gset Z) := mkT (cache t) (memory t) c.

Definition fill (t : tstate (gset Z)) (i : nat) : outcome (tstate (gset Z)) :=
  b ← bucket_at t i;
  match elements (filter (λ a, class_of a = i) (central t)) with
  | [] => Ret t
  | a :: _ =>
      mem ← InitForThreadCache (memory t) a 0;
      Ret (with_central (set_bucket (set_memory t mem) i (mkTBucket a 1 (tb_limit b) (tb_slot_size b))) (central t ∖ {[a]}))
  end.

Definition clear (t : tstate (gset Z)) (i : nat) (limit : Z) : outcome (tstate (gset Z)) :=
  b ← bucket_at t i;
  l ← walk (Z.to_nat (tb_count b)) (memory t) (tb_freelist_head b);
  Ret (with_central (set_bucket t i (mkTBucket 0 0 (tb_limit b) (tb_slot_size b))) (central t ∪ list_to_set l)).

Definition allocator : CentralAllocator (gset Z) := {| FillBucket := fill; ClearBucket := clear; HandleNonNormalMode := λ t, Ret t |}.

Lemma walk_chain mem l : ∀ fuel p, chain mem p l → (length l ≤ fuel)%nat → walk fuel mem p = Ret l.
Proof.
  induction l as [|a l IH]; intros fuel p Hc Hl; simpl in Hc; [subst p; by destruct fuel|].
  destruct Hc as (-> & Ha & e & q & He & Hq & Hc). unfold address in Ha. simpl in Hl. destruct fuel as [|fuel]; [lia|]. simpl.
  rewrite (proj2 (Z.eqb_neq _ _)) by lia. rewrite (read_some _ _ e) by (lia || done). cbn [mbind outcome_bind]. rewrite Hq. cbn [mbind outcome_bind].
  rewrite (IH fuel q Hc) by lia. done.
Qed.

Lemma fill_laws t lists i : separated id t lists → lists !! i = Some [] → (∃ b, buckets_ (cache t) !! i = Some b ∧ 0 < tb_limit b) →
  ∃ t' l, fill t i = Ret t' ∧ filled id class_of t i t' l.
Proof.
  intros (Hs & Hn & Hd & Hm) El (b & Eb & Hpos). destruct (bucket_of_list _ _ _ _ Hs El) as (b' & Eb' & Hsh). rewrite Eb in Eb'. injection Eb' as <-.
  pose proof Hsh as (_ & _ & Hl). unfold fill. rewrite (bucket_at_some _ _ _ Eb). cbn [mbind outcome_bind].
  destruct (elements _) as [|a rest] eqn:Ea.
  - exists t, []. split; [done|]. split; [..|done|done|done].
    + intros a Ha. by apply not_elem_of_nil in Ha.
    + constructor.
    + exists b. split; [|done]. by rewrite list_insert_id.
    + set_solver.
  - assert (a ∈ central t ∧ class_of a = i) as [Ha Hc].
    { assert (a ∈ elements (filter (λ a, class_of a = i) (central t))) as Hin by (rewrite Ea; left). apply elem_of_elements, elem_of_filter in Hin. tauto. }
    destruct (Hm a Ha) as [Had [e Ee]]. unfold InitForThreadCache. rewrite (read_some _ _ e) by (unfold address in Had; lia || done). cbn [mbind outcome_bind].
    eexists _, [a]. split; [reflexivity|]. split; simpl.
    + intros x Hx. apply list_elem_of_singleton in Hx as ->. done.
    + apply NoDup_singleton.
    + eexists. split; [reflexivity|]. split_and!; [|done|simpl; lia|simpl; lia]. apply chain_push; [done|done|apply not_elem_of_nil].
    + set_solver.
    + intros x Hx. rewrite lookup_insert_ne; [done|]. by intros ->.
    + intros x Hx. destruct (decide (a = x)) as [->|]; [rewrite lookup_insert_eq; eauto|by rewrite lookup_insert_ne].
    + split_and!; [done|done|by apply (map_insert_same _ _ _ b)..].
Qed.

Lemma clear_laws t lists i l limit : separated id t lists → lists !! i = Some l → 0 ≤ limit →
  ∃ t' l', clear t i limit = Ret t' ∧ trimmed id t lists t' (<[i := l']> lists) ∧ Z.of_nat (length l') ≤ limit.
Proof.
  intros (Hs & Hn & Hd & Hm) El Hlim. destruct (bucket_of_list _ _ _ _ Hs El) as (b & Eb & Hch & Hc & Hl).
  unfold clear. rewrite (bucket_at_some _ _ _ Eb). cbn [mbind outcome_bind]. rewrite (walk_chain _ l) by (done || lia). cbn [mbind outcome_bind].
  pose proof (concat_insert_perm lists i l [] El) as Hp. simpl in Hp.
  eexists _, []. split; [reflexivity|]. split; [|done]. split; simpl.
  - clear -El. revert i El. induction lists as [|x ls IH]; intros [|i] El; simplify_eq/=; constructor; [apply sublist_nil_l| |done|auto].
    clear. induction ls; by constructor.
  - apply Forall2_insert; [done|]. split_and!; simpl; [done|done|lia|lia].
  - assert (list_to_set (C := gset Z) (concat lists) = list_to_set l ∪ list_to_set (concat (<[i := []]> lists))) as ->
      by (rewrite <-list_to_set_app_L; apply list_to_set_perm_L; by symmetry).
    apply set_eq. intros a. rewrite <-Hp in Hn. apply list.NoDup_app in Hn as (_ & Hn & _).
    rewrite !elem_of_union, elem_of_difference, elem_of_union, !elem_of_list_to_set. specialize (Hn a). tauto.
  - done.
  - done.
  - split_and!; [done|done|by apply (map_insert_same _ _ _ b)..].
Qed.

#[export] Instance laws : CentralLaws (C := gset Z) id class_of (H1 := allocator).
Proof.
  split; [apply fill_laws|apply clear_laws|]. intros t lists (Hs & _). exists t, lists. split; [done|]. split; [|done| |done|done|by split_and!].
  - clear. induction lists; by constructor.
  - set_solver.
Qed.
End Simple.

(** One bucket with two free slots of 16 bytes. *)
Definition empty_cache : ThreadCache :=
  mkCache (replicate 41 (mkTBucket 0 0 8 16)) kNormal (mkStats 0 0 0 0 0 0 0 0) false.
Definition config : EntryConfig := {| big_endian := false; hardened := true |}.
Definition first : tstate (gset Z) := mkT empty_cache {[ 4096 := mkEntry 0 0; 4112 := mkEntry 7 7 ]} {[ 4096 ]}.

Lemma first_start : start (P := android_64) id (replicate 41 16) first {[ 4112 := mkEntry 7 7 ]}.
Proof.
  split.
  - split; [done|]. by apply Forall_replicate.
  - done.
  - done.
  - done.
  - split; [by apply map_subseteq_spec; intros a e E; apply lookup_singleton_Some in E as [<- <-]|].
    intros a [e E]. apply lookup_singleton_Some in E as [<- _]. done.
  - intros a Ha. change (a ∈ ({[ 4096 ]} : gset Z)) in Ha. apply elem_of_singleton in Ha as ->. split; [done|]. split; [done|]. by eexists.
Qed.
End Simple.

Lemma thread_cache_safe_witness : ∃ t' r, @exec android_64 debug_build Simple.config _ (Simple.allocator (P := android_64) (H0 := Simple.config) (λ _, 0%nat)) Simple.first (Alloc 0) = Ret (t', r) ∧
  memory t' !! 4112 = Some (mkEntry 7 7).
Proof.
  destruct (@thread_cache_safe android_64 android_64_laws debug_build Simple.config _ (Simple.allocator (P := android_64) (H0 := Simple.config) (λ _, 0%nat)) id (λ _, 0%nat) (replicate 41 16)
    (Simple.laws (λ _, 0%nat)) Simple.first {[ 4112 := mkEntry 7 7 ]} Simple.first {[ 4112 := mkEntry 7 7 ]} (Alloc 0) Simple.first_start
    (reach_start _ _ _ _) I) as (t' & r & lists' & live' & E & Hp & Hl & _).
  exists t', r. split; [exact E|]. apply Hl. destruct r as [a s| | |]; simpl in Hp.
  - destruct Hp as (Hn & _ & _ & e & _ & ->). rewrite lookup_insert_ne; [reflexivity|]. intros ->. discriminate Hn.
  - rewrite Hp. reflexivity.
  - destruct Hp.
  - destruct Hp.
Defined.
