(* ===== verification/PartitionAlloc.v ===== *)
(** * Allocating from and freeing to a slot span

    Model of the fast paths of the central allocator: [SlotSpanMetadata::Free]
    and the predicates on the state of a span in
    [src/include/base/allocator/partition_allocator/partition_page.h], and
    [AllocFromBucket], [RawAlloc] and [RawFree] of [partition_root.h], over the
    metadata of [PartitionPage] and the free list entries of
    [PartitionFreelist].  The slow paths ([SlowPathAlloc], [FreeSlowPath]) are
    not in the repository and are parameters.  The lock of the root is held
    during a call, so a call is one step; [DeferredUnmap] is the pair of the
    pointer to unmap after it, zero if there is none, and its size. *)

From stdpp Require Import gmap sets.
From S2P Require Import Prelude Bits PartitionLayout PartitionPage PartitionFreelist.

(** The metadata and the entries in free slots. *)
Record pstate := mkP { metas : heap; entries : memory_map }.

Abbreviation DeferredUnmap := (Z * Z)%type.

Section Span.
Context `{P : Platform} `{BuildMode} `{EntryConfig}.

(** [get_sentinel_slot_span()]. *)
Context (sentinel_slot_span : Z).

Definition write_page (h : heap) (p : Z) (page : PartitionPage) : heap :=
  mkHeap (<[p := page]> (pages h)) (bucket_objects h) (extents h) (roots h) (direct_map_pool_base_address_ h) (directmap_bits_ h).

(** Assignment to the metadata of a span, which is there. *)
Definition write_span (h : heap) (p : Z) (m : SlotSpanMetadata) : outcome heap :=
  page ← read (pages h) p;
  Ret (write_page h p (mkPage (SpanMetadata m) (slot_span_metadata_offset page))).

Definition CanStoreRawSize (h : heap) (slot_span : Z) : outcome bool := b ← bucket_of h slot_span; bucket_CanStoreRawSize b.

(** The raw size is in the object of the following page. *)
Definition SetRawSize (h : heap) (slot_span raw_size : Z) : outcome heap :=
  _ ← PA_DCHECK (CanStoreRawSize h slot_span);
  let the_next_page := size (slot_span + kPageMetadataSize) in
  page ← read (pages h) the_next_page;
  Ret (write_page h the_next_page (mkPage (SubsequentPageMetadata raw_size) (slot_span_metadata_offset page))).

Definition GetRawSize (h : heap) (slot_span : Z) : outcome Z :=
  _ ← PA_DCHECK (CanStoreRawSize h slot_span);
  page ← read (pages h) (size (slot_span + kPageMetadataSize));
  match page_content page with SubsequentPageMetadata raw_size => Ret raw_size | SpanMetadata _ => Crash UninitRead end.

Definition AdjustSizeForExtrasAdd (r : PartitionRoot) (size_ : Z) : outcome Z :=
  _ ← RTC_DCHECK (size_ <=? size (size_ + extras_size r)); Ret (size (size_ + extras_size r)).
Definition AdjustSizeForExtrasSubtract (r : PartitionRoot) (size_ : Z) : Z := size (size_ - extras_size r).

(** Without [REF_COUNT_AT_END_OF_ALLOCATION]. *)
Definition GetUtilizedSlotSize (h : heap) (slot_span : Z) : outcome Z :=
  c ← CanStoreRawSize h slot_span;
  if negb c then (b ← bucket_of h slot_span; Ret (slot_size b)) else GetRawSize h slot_span.

Definition GetUsableSize (h : heap) (r : PartitionRoot) (slot_span : Z) : outcome Z :=
  c ← CanStoreRawSize h slot_span;
  s ← (if negb c then (b ← bucket_of h slot_span; Ret (slot_size b)) else GetRawSize h slot_span);
  Ret (AdjustSizeForExtrasSubtract r s).

Definition GetProvisionedSize (h : heap) (slot_span : Z) : outcome Z :=
  m ← slot_span_metadata h slot_span;
  b ← bucket_of h slot_span;
  n ← get_slots_per_span b;
  let provisioned_size := size (size (n - num_unprovisioned_slots m) * slot_size b) in
  _ ← RTC_DCHECK (provisioned_size <=? get_bytes_per_span b);
  Ret provisioned_size.

(** ** The state of a span *)

Definition is_active (h : heap) (slot_span : Z) : outcome bool :=
  _ ← RTC_DCHECK (negb (slot_span =? sentinel_slot_span));
  m ← slot_span_metadata h slot_span;
  Ret ((0 <? num_allocated_slots m) && (negb (freelist_head m =? 0) || negb (num_unprovisioned_slots m =? 0))).

Definition is_full (h : heap) (slot_span : Z) : outcome bool :=
  _ ← RTC_DCHECK (negb (slot_span =? sentinel_slot_span));
  m ← slot_span_metadata h slot_span;
  b ← bucket_of h slot_span;
  n ← get_slots_per_span b;
  let ret := num_allocated_slots m =? n in
  _ ← (if ret then (_ ← RTC_DCHECK (freelist_head m =? 0); RTC_DCHECK (num_unprovisioned_slots m =? 0)) else Ret tt);
  Ret ret.

Definition is_empty (h : heap) (slot_span : Z) : outcome bool :=
  _ ← RTC_DCHECK (negb (slot_span =? sentinel_slot_span));
  m ← slot_span_metadata h slot_span;
  Ret ((num_allocated_slots m =? 0) && negb (freelist_head m =? 0)).

Definition is_decommitted (h : heap) (slot_span : Z) : outcome bool :=
  _ ← RTC_DCHECK (negb (slot_span =? sentinel_slot_span));
  m ← slot_span_metadata h slot_span;
  let ret := (num_allocated_slots m =? 0) && (freelist_head m =? 0) in
  _ ← (if ret then (_ ← RTC_DCHECK (num_unprovisioned_slots m =? 0); RTC_DCHECK (empty_cache_index m =? -1)) else Ret tt);
  Ret ret.

Definition Reset (h : heap) (slot_span : Z) : outcome heap :=
  _ ← PA_DCHECK (is_decommitted h slot_span);
  m ← slot_span_metadata h slot_span;
  b ← bucket_of h slot_span;
  n ← get_slots_per_span b;
  _ ← RTC_DCHECK (negb (n =? 0));
  write_span h slot_span (mkSpan (freelist_head m) 0 (bucket m) (num_allocated_slots m) n (empty_cache_index m)).

(** ** Freeing a slot *)

Definition SetFreelistHead (h : heap) (slot_span new_head : Z) : outcome heap :=
  _ ← RTC_DCHECK ((new_head =? 0) || (Z.land slot_span kSuperPageBaseMask =? Z.land new_head kSuperPageBaseMask));
  m ← slot_span_metadata h slot_span;
  write_span h slot_span (mkSpan new_head (next_slot_span m) (bucket m) (num_allocated_slots m) (num_unprovisioned_slots m) (empty_cache_index m)).

Definition set_allocated (h : heap) (slot_span n : Z) : outcome heap :=
  m ← slot_span_metadata h slot_span;
  write_span h slot_span (mkSpan (freelist_head m) (next_slot_span m) (bucket m) (convert int16_t n) (num_unprovisioned_slots m) (empty_cache_index m)).

Context (FreeSlowPath : pstate → Z → outcome (pstate * DeferredUnmap)).

Definition span_Free (s : pstate) (slot_span slot_start : Z) : outcome (pstate * DeferredUnmap) :=
  let h := metas s in
  m ← slot_span_metadata h slot_span;
  _ ← RTC_DCHECK (negb (num_allocated_slots m =? 0));
  _ ← RTC_CHECK (negb (slot_start =? freelist_head m));
  _ ← PA_DCHECK (if freelist_head m =? 0 then Ret true
                 else (e ← read (entries s) (freelist_head m); n ← GetNext e; Ret (negb (slot_start =? n))));
  e ← read (entries s) slot_start;
  e ← SetNext slot_start e (freelist_head m);
  let mem := <[slot_start := e]> (entries s) in
  h ← SetFreelistHead h slot_span slot_start;
  h ← set_allocated h slot_span (num_allocated_slots m - 1);
  if convert int16_t (num_allocated_slots m - 1) <=? 0 then FreeSlowPath (mkP h mem) slot_span
  else
    _ ← PA_DCHECK (c ← CanStoreRawSize h slot_span; Ret (negb c));
    Ret (mkP h mem, (0, 0)).

(** [RawFree], and [RawFreeLocked] for callers that hold the lock; what has to
    be unmapped is unmapped after the lock is released. *)
Definition RawFree (s : pstate) (slot_start : Z) : outcome (pstate * DeferredUnmap) :=
  slot_span ← FromSlotStartPtr (metas s) slot_start;
  span_Free s slot_span slot_start.

Definition RawFreeLocked (s : pstate) (slot_start : Z) : outcome (pstate * DeferredUnmap) :=
  slot_span ← FromSlotStartPtr (metas s) slot_start;
  '(s, deferred_unmap) ← span_Free s slot_span slot_start;
  _ ← RTC_DCHECK (deferred_unmap.1 =? 0);
  Ret (s, deferred_unmap).

(** ** Allocating a slot *)

Record allocation := mkAllocation { slot_start_ : Z; usable_size : Z; is_already_zeroed : bool }.

Context (SlowPathAlloc : pstate → Z → Z → Z → outcome (pstate * Z * bool)).

(** [this] is the root, [bucket_ptr] the address of the bucket; nothing stands
    for a null result. *)
Definition AllocFromBucket (r : PartitionRoot) (sentinel_bucket : Z) (s : pstate) (bucket_ptr flags raw_size : Z) : outcome (pstate * option allocation) :=
  let h := metas s in
  b ← read (bucket_objects h) bucket_ptr;
  let slot_span := active_slot_spans_head b in
  _ ← RTC_DCHECK (negb (slot_span =? 0));
  m ← slot_span_metadata h slot_span;
  _ ← RTC_DCHECK (0 <=? num_allocated_slots m);
  if negb (freelist_head m =? 0) then
    let usable := AdjustSizeForExtrasSubtract r (slot_size b) in
    _ ← PA_DCHECK (u ← GetUsableSize h r slot_span; Ret (usable =? u));
    _ ← PA_DCHECK (IsValidSlotSpan h slot_span);
    _ ← PA_DCHECK (c ← CanStoreRawSize h slot_span; Ret (negb c));
    _ ← PA_DCHECK (b ← bucket_of h slot_span; Ret (negb (is_direct_mapped b)));
    e ← read (entries s) (freelist_head m);
    new_head ← GetNext e;
    h ← SetFreelistHead h slot_span new_head;
    h ← set_allocated h slot_span (num_allocated_slots m + 1);
    _ ← RTC_DCHECK (bucket m =? bucket_ptr);
    _ ← PA_DCHECK (u ← GetUtilizedSlotSize h slot_span; b ← bucket_of h slot_span; Ret (u <=? slot_size b));
    Ret (mkP h (entries s), Some (mkAllocation (freelist_head m) usable false))
  else
    '(s, slot_start, zeroed) ← SlowPathAlloc s bucket_ptr flags raw_size;
    _ ← PA_DCHECK (if slot_start =? 0 then Ret true else (p ← FromSlotStartPtr (metas s) slot_start; IsValidSlotSpan (metas s) p));
    if slot_start =? 0 then Ret (s, None)
    else
      slot_span ← FromSlotStartPtr (metas s) slot_start;
      m ← slot_span_metadata (metas s) slot_span;
      _ ← PA_DCHECK (if bucket m =? bucket_ptr then Ret true
                     else (b ← bucket_of (metas s) slot_span; Ret (is_direct_mapped b && (bucket_ptr =? sentinel_bucket))));
      usable ← GetUsableSize (metas s) r slot_span;
      _ ← PA_DCHECK (u ← GetUtilizedSlotSize (metas s) slot_span; b ← bucket_of (metas s) slot_span; Ret (u <=? slot_size b));
      Ret (s, Some (mkAllocation slot_start usable zeroed)).

(** [RawAlloc] takes the lock around it. *)
Definition RawAlloc := AllocFromBucket.
End Span.

(** ** A span in use *)

Section Active.
Context `{P : Platform} {L : PlatformLaws P} `{BuildMode} `{EntryConfig}.
Context (FreeSlowPath : pstate → Z → outcome (pstate * DeferredUnmap)) (SlowPathAlloc : pstate → Z → Z → Z → outcome (pstate * Z * bool)).
Context (base idx bucket_ptr : Z) (b : PartitionBucket) (r : PartitionRoot).

Local Abbreviation meta := (metadata base idx).
Local Abbreviation start := (span_start base idx).

(** A slot of the span. *)
Definition is_slot (a : Z) : Prop := ∃ k, 0 ≤ k ∧ a = start + k * slot_size b ∧ (k + 1) * slot_size b ≤ span_bytes b.

(** The bucket has the span as its active one; its slots are small, and so few
    that they can be counted in 16 bits. *)
Definition small_bucket : Prop :=
  active_slot_spans_head b = meta ∧ slot_size b ≤ MaxSystemPagesPerSlotSpan * SystemPageSize ∧ span_bytes b < 2 ^ 15 * slot_size b.

(** The free slots, in the order in which they will be given out, and those in
    use. *)
Record span_state (s : pstate) (free : list Z) (used : gset Z) : Prop := {
  ss_span : ∃ m, span_at (metas s) base idx m b r ∧ bucket m = bucket_ptr ∧ chain (entries s) (freelist_head m) free ∧
                 num_allocated_slots m = Z.of_nat (base.size used);
  ss_slots : ∀ a, a ∈ free ∨ a ∈ used → is_slot a;
  ss_mapped : ∀ a, a ∈ used → is_Some (entries s !! a);
  ss_nodup : NoDup free;
  ss_disjoint : ∀ a, a ∈ free → a ∉ used
}.

Context (Hb : small_bucket).

Lemma span_update h m m' : span_at h base idx m b r → bucket m' = bucket m → span_at (write_page h meta (mkPage (SpanMetadata m') 0)) base idx m' b r.
Proof.
  intros [S1 S2 S3 S4 S5 S6 S7 S8 S9] Em. split; simpl; [done|done|by rewrite lookup_insert_eq| |by rewrite Em|done|done|done|done].
  intros k Hk. rewrite lookup_insert_ne; [by apply S4|]. unfold metadata. change kPageMetadataSize with 32. lia.
Qed.

Lemma write_span_ok h m m' : span_at h base idx m b r → write_span h meta m' = Ret (write_page h meta (mkPage (SpanMetadata m') 0)).
Proof. intros Hs. unfold write_span. by rewrite (span_metadata_read h base idx m b r Hs). Qed.

Lemma read_span h m : span_at h base idx m b r → slot_span_metadata h meta = Ret m.
Proof. intros Hs. unfold slot_span_metadata. by rewrite (span_metadata_read h base idx m b r Hs). Qed.

Lemma small_raw h m : span_at h base idx m b r → CanStoreRawSize h meta = Ret false.
Proof.
  intros Hs. unfold CanStoreRawSize. rewrite (span_bucket_read h base idx m b r Hs). cbn [mbind outcome_bind]. unfold bucket_CanStoreRawSize.
  destruct Hb as (_ & Hsz & _). destruct page_sizes as (E1 & E2 & H1 & H2 & H3 & E3 & E4).
  assert (MaxSystemPagesPerSlotSpan * SystemPageSize = 4 * PartitionPageSize) as E by (unfold MaxSystemPagesPerSlotSpan; rewrite E3; change kMaxPartitionPagesPerSlotSpan with 4; lia).
  rewrite E in *. rewrite small_size; [by rewrite (proj2 (Z.leb_le _ _) Hsz)|]. change kSuperPageSize with 2097152 in *. nia.
Qed.

(** A slot lies in the super page of the span, which is found from it. *)
Lemma slot_found h m a : span_at h base idx m b r → is_slot a → FromSlotStartPtr h a = Ret meta ∧ Z.land a kSuperPageBaseMask = base ∧ address a.
Proof.
  intros Hs (k & Hk & -> & Hin). pose proof (span_super_page _ _ _ _ _ _ Hs) as Hsp. destruct (span_size h base idx m b r Hs) as (_ & _ & Hbytes).
  destruct (span_bucket _ _ _ _ _ _ Hs) as (_ & _ & (Hsz & _) & _). set (off := k * slot_size b).
  assert (0 ≤ off < span_bytes b) as Hoff by (unfold off; nia). assert (0 ≤ off < get_pages_per_slot_span b * PartitionPageSize) as Hoff' by lia.
  pose proof (inner_offset h base idx m b r Hs off Hoff') as Ho. destruct page_sizes as (E1 & E2 & H1 & H2 & H3 & E3 & E4).
  assert (0 ≤ idx * PartitionPageSize + off < kSuperPageSize) as Ho' by lia. split_and!.
  - unfold FromSlotStartPtr, PartitionPage_FromSlotStartPtr. rewrite (page_from_inner h base idx m b r Hs off Hoff'). cbn [mbind outcome_bind].
    unfold PartitionPage_ToSlotSpanStartPtr. rewrite pa_dcheck_true by (by rewrite (span_metadata_read h base idx m b r Hs)). cbn [mbind outcome_bind].
    rewrite (span_begin h base idx m b r Hs). cbn [mbind outcome_bind]. rewrite pa_dcheck_true.
    + cbn [mbind outcome_bind]. rewrite pa_dcheck_true by (by rewrite (span_metadata_read h base idx m b r Hs)). done.
    + rewrite (span_bucket_read h base idx m b r Hs). cbn [mbind outcome_bind]. rewrite (proj2 (Z.eqb_neq _ _)) by lia.
      replace (start + off - start) with off by lia. change kSuperPageSize with 2097152 in *.
      destruct (span_pages _ _ _ _ _ _ Hs) as [Hi _]. assert (0 ≤ idx * PartitionPageSize) by (apply Z.mul_nonneg_nonneg; lia).
      rewrite small_size by lia. unfold off. rewrite Z.mod_mul by lia. done.
  - unfold span_start. rewrite <-Z.add_assoc. by apply super_page_split.
  - destruct Hsp as (_ & Hp & Hbd). unfold address, span_start. destruct (span_pages _ _ _ _ _ _ Hs) as [Hi _].
    assert (0 ≤ idx * PartitionPageSize) by (apply Z.mul_nonneg_nonneg; lia). lia.
Qed.

Lemma meta_super h m : span_at h base idx m b r → Z.land meta kSuperPageBaseMask = base.
Proof.
  intros Hs. destruct (span_pages _ _ _ _ _ _ Hs) as [Hi Hn]. destruct (span_size h base idx m b r Hs) as (_ & _ & Hbytes).
  destruct page_sizes as (E1 & E2 & H1 & H2 & H3 & E3 & E4). assert (0 ≤ idx < NumPartitionPagesPerSuperPage) as Hidx by nia.
  unfold metadata. rewrite <-Z.add_assoc. apply super_page_split; [apply (span_super_page _ _ _ _ _ _ Hs)|]. by apply metadata_offset.
Qed.

(** The slots of a span can be counted. *)
Lemma slots_bound h m (X : gset Z) : span_at h base idx m b r → (∀ a, a ∈ X → is_slot a) → Z.of_nat (base.size X) < 2 ^ 15.
Proof.
  intros Hsp Hsl. destruct (span_bucket _ _ _ _ _ _ Hsp) as (_ & _ & (Hsz & _) & _).
  destruct Hb as (_ & _ & Hn). set (n := span_bytes b / slot_size b). assert (n < 2 ^ 15) as Hn' by (apply Z.div_lt_upper_bound; lia).
  set (l := map (λ k, start + k * slot_size b) (seqZ 0 n)). assert (X ⊆ list_to_set l) as Hsub.
  { intros a Ha. destruct (Hsl a Ha) as (k & Hk & -> & Hin). apply elem_of_list_to_set, list_elem_of_fmap. exists k. split; [done|].
    apply elem_of_seqZ. assert (k + 1 ≤ n) by (apply Z.div_le_lower_bound; lia). lia. }
  apply subseteq_size in Hsub. rewrite size_list_to_set in Hsub.
  - unfold l in Hsub. rewrite length_map, length_seqZ in Hsub. lia.
  - apply NoDup_fmap_2; [|apply NoDup_seqZ]. intros x y E. nia.
Qed.

Lemma int16_count z : -1 ≤ z ≤ 2 ^ 15 - 1 → convert int16_t z = z.
Proof. intros Hz. unfold convert; simpl. apply wrapS_small; lia. Qed.

Lemma head_super s m free : span_at (metas s) base idx m b r → chain (entries s) (freelist_head m) free → (∀ a, a ∈ free → is_slot a) →
  (freelist_head m =? 0) || (base =? Z.land (freelist_head m) kSuperPageBaseMask) = true.
Proof.
  intros Hsp Hch Hsl. destruct free as [|a free]; simpl in Hch; [by rewrite Hch|]. destruct Hch as (-> & _).
  destruct (slot_found _ _ a Hsp (Hsl a ltac:(left))) as (_ & -> & _). by rewrite Z.eqb_refl, orb_true_r.
Qed.

(** A new head and a new count, written one after the other. *)
Lemma head_and_count h m x n : span_at h base idx m b r → (x =? 0) || (base =? Z.land x kSuperPageBaseMask) = true → -1 ≤ n ≤ 2 ^ 15 - 1 →
  ∃ h1 h2, SetFreelistHead h meta x = Ret h1 ∧ set_allocated h1 meta n = Ret h2 ∧
    span_at h2 base idx (mkSpan x (next_slot_span m) (bucket m) n (num_unprovisioned_slots m) (empty_cache_index m)) b r.
Proof.
  intros Hs Hx Hn. unfold SetFreelistHead. rewrite (meta_super h m Hs), Hx, dcheck_true. cbn [mbind outcome_bind].
  rewrite (read_span h m Hs). cbn [mbind outcome_bind]. rewrite (write_span_ok h m _ Hs).
  set (m1 := mkSpan x _ _ _ _ _). pose proof (span_update h m m1 Hs eq_refl) as Hs1. eexists _, _. split; [reflexivity|].
  unfold set_allocated. rewrite (read_span _ _ Hs1). cbn [mbind outcome_bind]. rewrite int16_count by done. rewrite (write_span_ok _ _ _ Hs1).
  split; [reflexivity|]. by apply (span_update _ _ _ Hs1).
Qed.

Lemma chain_mapped mem p l a : chain mem p l → a ∈ l → is_Some (mem !! a).
Proof.
  revert p. induction l as [|x l IH]; intros p Hc Ha; [by apply not_elem_of_nil in Ha|]. destruct Hc as (_ & _ & e & q & E & _ & Hc).
  apply list.elem_of_cons in Ha as [->|Ha]; eauto.
Qed.

(** The debug checks of an allocation pass. *)
Lemma alloc_checks h m : span_at h base idx m b r →
  PA_DCHECK (u ← GetUsableSize h r meta; Ret (AdjustSizeForExtrasSubtract r (slot_size b) =? u)) = Ret tt ∧
  PA_DCHECK (IsValidSlotSpan h meta) = Ret tt ∧
  PA_DCHECK (c ← CanStoreRawSize h meta; Ret (negb c)) = Ret tt ∧
  PA_DCHECK (b ← bucket_of h meta; Ret (negb (is_direct_mapped b))) = Ret tt ∧
  PA_DCHECK (u ← GetUtilizedSlotSize h meta; b ← bucket_of h meta; Ret (u <=? slot_size b)) = Ret tt.
Proof.
  intros Hsp. pose proof (span_bucket_read h base idx m b r Hsp) as Eb. pose proof (small_raw _ _ Hsp) as Hraw.
  destruct (span_bucket _ _ _ _ _ _ Hsp) as (_ & _ & _ & Hsys & _).
  split_and!; apply pa_dcheck_true; [| |by rewrite Hraw| |].
  - unfold GetUsableSize. rewrite Hraw. cbn [mbind outcome_bind negb]. rewrite Eb. cbn [mbind outcome_bind]. by rewrite Z.eqb_refl.
  - by apply (span_valid h base idx m b r).
  - rewrite Eb. cbn [mbind outcome_bind]. unfold is_direct_mapped. by rewrite (proj2 (Z.eqb_neq _ _)) by lia.
  - unfold GetUtilizedSlotSize. rewrite Hraw. cbn [mbind outcome_bind negb]. rewrite Eb. cbn [mbind outcome_bind]. by rewrite Z.leb_refl.
Qed.

Lemma alloc_fast sentinel_bucket s a free used flags raw_size : span_state s (a :: free) used →
  ∃ s', AllocFromBucket SlowPathAlloc r sentinel_bucket s bucket_ptr flags raw_size
          = Ret (s', Some (mkAllocation a (AdjustSizeForExtrasSubtract r (slot_size b)) false)) ∧
    span_state s' free ({[a]} ∪ used) ∧ entries s' = entries s.
Proof.
  intros Hs. destruct (ss_span _ _ _ Hs) as (m & Hsp & Hbk & Hch & Hn).
  destruct (span_bucket _ _ _ _ _ _ Hsp) as (Hbz & Hbo & _ & Hsys & _). pose proof Hch as (Eh & Ha & e & q & Ee & Eq & Hch').
  pose proof (ss_nodup _ _ _ Hs) as Hnd. apply list.NoDup_cons in Hnd as [Hna Hnd].
  assert (a ∉ used) as Hau by (apply (ss_disjoint _ _ _ Hs); left).
  assert (base.size ({[a]} ∪ used) = S (base.size used)) as Hsize by (rewrite size_union, size_singleton by set_solver; lia).
  unfold AllocFromBucket. rewrite (read_some _ _ b) by (rewrite <-Hbk; done). cbn [mbind outcome_bind].
  destruct Hb as (Eact & _ & _). rewrite Eact. destruct (span_pages _ _ _ _ _ _ Hsp) as [Hi _].
  rewrite (proj2 (Z.eqb_neq _ _) (metadata_nonzero base idx (span_super_page _ _ _ _ _ _ Hsp) ltac:(lia))). cbn [negb]. rewrite dcheck_true. cbn [mbind outcome_bind].
  rewrite (read_span _ m Hsp). cbn [mbind outcome_bind]. rewrite (proj2 (Z.leb_le 0 _)) by lia. rewrite dcheck_true. cbn [mbind outcome_bind].
  rewrite (chain_head _ _ _ Hch), bool_decide_eq_false_2 by done. cbn [negb].
  destruct (alloc_checks _ _ Hsp) as (C1 & C2 & C3 & C4 & _). rewrite C1. cbn [mbind outcome_bind]. rewrite C2. cbn [mbind outcome_bind].
  rewrite C3. cbn [mbind outcome_bind]. rewrite C4. cbn [mbind outcome_bind].
  rewrite Eh, (read_some _ _ e) by (unfold address in Ha; lia || done). cbn [mbind outcome_bind]. rewrite Eq. cbn [mbind outcome_bind].
  destruct (head_and_count (metas s) m q (num_allocated_slots m + 1) Hsp) as (h1 & h2 & E1 & E2 & Hsp2).
  { destruct free as [|x free]; simpl in Hch'; [by rewrite Hch'|]. destruct Hch' as (-> & _).
    destruct (slot_found _ _ x Hsp (ss_slots _ _ _ Hs x ltac:(left; right; left))) as (_ & -> & _). by rewrite Z.eqb_refl, orb_true_r. }
  { pose proof (slots_bound _ _ ({[a]} ∪ used) Hsp) as Hub. rewrite Hsize in Hub.
    assert (Z.of_nat (S (base.size used)) < 2 ^ 15) by (apply Hub; intros x Hx; apply (ss_slots _ _ _ Hs); set_solver). lia. }
  rewrite E1. cbn [mbind outcome_bind]. rewrite E2. cbn [mbind outcome_bind]. rewrite Hbk, Z.eqb_refl, dcheck_true. cbn [mbind outcome_bind].
  destruct (alloc_checks _ _ Hsp2) as (_ & _ & _ & _ & C5). rewrite C5.
  cbn [mbind outcome_bind]. eexists. split; [reflexivity|]. split; [|done]. split; simpl.
  - eexists. split; [exact Hsp2|]. simpl. split_and!; [done|done|]. rewrite Hsize. lia.
  - intros x Hx. apply (ss_slots _ _ _ Hs). set_solver.
  - intros x Hx. apply elem_of_union in Hx as [Hx|Hx]; [apply elem_of_singleton in Hx as ->; eauto|by apply (ss_mapped _ _ _ Hs)].
  - done.
  - intros x Hx Hu. apply elem_of_union in Hu as [Hu|Hu]; [apply elem_of_singleton in Hu as ->; done|]. apply (ss_disjoint _ _ _ Hs x); [by right|done].
Qed.

(** The second entry of a list, where the debug check looks. *)
Lemma second_entry mem p l : chain mem p l →
  (if p =? 0 then Ret 0 else (e ← read mem p; GetNext e)) = Ret (match l with _ :: a :: _ => a | _ => 0 end).
Proof.
  destruct l as [|x l]; simpl; [by intros ->|]. intros (-> & Ha & e & q & E & Eq & Hc). unfold address in Ha.
  rewrite (proj2 (Z.eqb_neq _ _)) by lia. rewrite (read_some _ _ e) by (lia || done). cbn [mbind outcome_bind]. rewrite Eq.
  destruct l as [|y l]; simpl in Hc; [by rewrite Hc|]. by destruct Hc as (-> & _).
Qed.

Lemma second_check mem p l a : chain mem p l → a ≠ 0 →
  (if p =? 0 then Ret true else (e ← read mem p; n ← GetNext e; Ret (negb (a =? n))))
  = Ret (match l with _ :: x :: _ => negb (a =? x) | _ => true end).
Proof.
  intros Hc Ha. pose proof (second_entry mem p l Hc) as E. destruct (p =? 0) eqn:Ep.
  - rewrite (chain_head _ _ _ Hc) in Ep. apply bool_decide_eq_true in Ep. by subst l.
  - destruct (read mem p) as [e|]; [|done]. cbn [mbind outcome_bind] in *. rewrite E. cbn [mbind outcome_bind].
    destruct l as [|x [|y l]]; [| |done]; by rewrite (proj2 (Z.eqb_neq _ _) Ha).
Qed.

Lemma set_next_ok s m free a e : span_at (metas s) base idx m b r → chain (entries s) (freelist_head m) free → (∀ x, x ∈ free → is_slot x) → is_slot a →
  SetNext a e (freelist_head m) = Ret (SetNextInternal e (freelist_head m)).
Proof.
  intros Hsp Hch Hsl Ha. unfold SetNext. pose proof (head_super s m free Hsp Hch Hsl) as Hh. destruct (slot_found _ _ a Hsp Ha) as (_ & -> & _).
  destruct (freelist_head m =? 0); [by rewrite andb_false_r|]. simpl in Hh. rewrite Hh. by rewrite andb_false_r.
Qed.

Lemma free_fast s a free used : span_state s free used → a ∈ used → (2 ≤ base.size used)%nat →
  ∃ s', RawFree FreeSlowPath s a = Ret (s', (0, 0)) ∧ span_state s' (a :: free) (used ∖ {[a]}) ∧
    ∀ x, x ≠ a → entries s' !! x = entries s !! x.
Proof.
  intros Hs Ha H2. destruct (ss_span _ _ _ Hs) as (m & Hsp & Hbk & Hch & Hn). assert (is_slot a) as Hsl by (apply (ss_slots _ _ _ Hs); auto).
  destruct (slot_found _ _ a Hsp Hsl) as (Ef & Ela & Had). destruct (ss_mapped _ _ _ Hs a Ha) as [e Ee].
  assert (a ∉ free) as Hnf by (intros Hx; by apply (ss_disjoint _ _ _ Hs a)). pose proof (slots_bound _ _ used Hsp ltac:(intros; apply (ss_slots _ _ _ Hs); auto)) as Hub.
  assert (∀ x, x ∈ free → is_slot x) as Hfs by (intros x Hx; apply (ss_slots _ _ _ Hs); auto).
  unfold RawFree. rewrite Ef. cbn [mbind outcome_bind]. unfold span_Free. rewrite (read_span _ m Hsp). cbn [mbind outcome_bind].
  rewrite (proj2 (Z.eqb_neq (num_allocated_slots m) 0)) by lia. cbn [negb]. rewrite dcheck_true. cbn [mbind outcome_bind].
  assert (a ≠ 0) as Hz by (unfold address in Had; lia). assert (a ≠ freelist_head m) as Hne by (by eapply chain_next_ne).
  rewrite (proj2 (Z.eqb_neq _ _) Hne). cbn [negb RTC_CHECK mbind outcome_bind].
  rewrite (second_check _ _ _ a Hch Hz). rewrite pa_dcheck_true; [cbn [mbind outcome_bind]|].
  2:{ destruct free as [|x [|y free]]; [done..|]. rewrite (proj2 (Z.eqb_neq _ _)); [done|]. intros ->. apply Hnf. right. left. }
  rewrite (read_some _ _ e) by done. cbn [mbind outcome_bind]. rewrite (set_next_ok s m free) by done. cbn [mbind outcome_bind].
  destruct (head_and_count (metas s) m a (num_allocated_slots m - 1) Hsp) as (h1 & h2 & E1 & E2 & Hsp2); [rewrite Ela, Z.eqb_refl; apply orb_true_r|lia|].
  rewrite E1. cbn [mbind outcome_bind]. rewrite E2. cbn [mbind outcome_bind]. rewrite int16_count by lia. rewrite (proj2 (Z.leb_gt _ _)) by lia.
  destruct (alloc_checks _ _ Hsp2) as (_ & _ & C3 & _). rewrite C3. cbn [mbind outcome_bind].
  eexists. split; [reflexivity|]. split; [|intros x Hx; by apply lookup_insert_ne]. split; simpl.
  - eexists. split; [exact Hsp2|]. split; [done|]. split; [by apply chain_push|]. simpl.
    rewrite size_difference, size_singleton by set_solver. lia.
  - intros x Hx. apply (ss_slots _ _ _ Hs). set_solver.
  - intros x Hx. rewrite lookup_insert_ne by set_solver. apply (ss_mapped _ _ _ Hs). set_solver.
  - apply list.NoDup_cons. split; [done|apply (ss_nodup _ _ _ Hs)].
  - intros x Hx Hu. apply elem_of_difference in Hu as [Hu Hxa]. apply list.elem_of_cons in Hx as [->|Hx]; [set_solver|]. by apply (ss_disjoint _ _ _ Hs x).
Qed.

Lemma used_count (X : gset Z) : X ≠ ∅ → (0 < base.size X)%nat.
Proof. intros HX. destruct (decide (base.size X = 0%nat)) as [E|]; [|lia]. by apply size_empty_inv, leibniz_equiv in E. Qed.

(** Freeing the slot that was freed last is always detected, and the one freed
    before it in debug builds. *)
Lemma double_free s a free used : span_state s (a :: free) used → used ≠ ∅ → RawFree FreeSlowPath s a = Crash CheckFailed.
Proof.
  intros Hs Hu. destruct (ss_span _ _ _ Hs) as (m & Hsp & Hbk & (Eh & _) & Hn).
  destruct (slot_found _ _ a Hsp (ss_slots _ _ _ Hs a ltac:(left; left))) as (Ef & _). unfold RawFree. rewrite Ef. cbn [mbind outcome_bind]. unfold span_Free.
  rewrite (read_span _ m Hsp). cbn [mbind outcome_bind]. rewrite (proj2 (Z.eqb_neq (num_allocated_slots m) 0)) by (rewrite Hn; pose proof (used_count _ Hu); lia).
  cbn [negb]. rewrite dcheck_true. cbn [mbind outcome_bind]. by rewrite Eh, Z.eqb_refl.
Qed.

Lemma double_free_second s x a free used : span_state s (x :: a :: free) used → used ≠ ∅ → RTC_DCHECK_IS_ON = true → RawFree FreeSlowPath s a = Crash DCheckFailed.
Proof.
  intros Hs Hu Hd. destruct (ss_span _ _ _ Hs) as (m & Hsp & Hbk & Hch & Hn). pose proof (ss_nodup _ _ _ Hs) as Hnd. apply list.NoDup_cons in Hnd as [Hx _].
  destruct (slot_found _ _ a Hsp (ss_slots _ _ _ Hs a ltac:(left; right; left))) as (Ef & _ & Had). unfold RawFree. rewrite Ef. cbn [mbind outcome_bind]. unfold span_Free.
  rewrite (read_span _ m Hsp). cbn [mbind outcome_bind]. rewrite (proj2 (Z.eqb_neq (num_allocated_slots m) 0)) by (rewrite Hn; pose proof (used_count _ Hu); lia).
  cbn [negb]. rewrite dcheck_true. cbn [mbind outcome_bind]. pose proof Hch as (Eh & _). rewrite Eh. rewrite (proj2 (Z.eqb_neq a x)) by (intros ->; apply Hx; left).
  cbn [negb RTC_CHECK mbind outcome_bind]. rewrite <-Eh, (second_check _ _ _ a Hch) by (unfold address in Had; lia).
  unfold PA_DCHECK, RTC_DCHECK. rewrite Hd. cbn [mbind outcome_bind]. by rewrite Z.eqb_refl.
Qed.

(** What the holder of a slot writes there does not matter. *)
Lemma use_slot s a e free used : span_state s free used → a ∈ used → span_state (mkP (metas s) (<[a := e]> (entries s))) free used.
Proof.
  intros [(m & Hsp & Hbk & Hch & Hn) H2 H3 H4 H5] Ha. split; simpl; [|done| |done|done].
  - exists m. split_and!; [done|done| |done]. eapply chain_frame, Hch. intros x Hx. rewrite lookup_insert_ne; [done|]. intros ->. by apply (H5 x).
  - intros x Hx. destruct (decide (x = a)) as [->|]; [rewrite lookup_insert_eq; eauto|]. rewrite lookup_insert_ne by done. auto.
Qed.

(** ** Sequences of calls *)

Inductive span_op :=
| OpAlloc (flags raw_size : Z)
| OpFree (slot_start : Z)
| OpWrite (slot_start : Z) (e : PartitionFreelistEntry).

Context (sentinel_bucket : Z).

Definition run_op (s : pstate) (op : span_op) : outcome (pstate * option allocation) :=
  match op with
  | OpAlloc flags raw_size => RawAlloc SlowPathAlloc r sentinel_bucket s bucket_ptr flags raw_size
  | OpFree a => '(s, _) ← RawFree FreeSlowPath s a; Ret (s, None)
  | OpWrite a e => Ret (mkP (metas s) (<[a := e]> (entries s)), None)
  end.

Fixpoint run (s : pstate) (ops : list span_op) : outcome (pstate * list (option allocation)) :=
  match ops with
  | [] => Ret (s, [])
  | op :: ops => '(s, x) ← run_op s op; '(s, xs) ← run s ops; Ret (s, x :: xs)
  end.

(** The specification: a stack of free slots and a set of slots in use, of which
    one is always left. *)
Definition spec_op (st : list Z * gset Z) (op : span_op) : option (list Z * gset Z * option Z) :=
  let '(free, used) := st in
  match op with
  | OpAlloc _ _ => match free with a :: free => Some (free, {[a]} ∪ used, Some a) | [] => None end
  | OpFree a => if decide (a ∈ used ∧ (2 ≤ base.size used)%nat) then Some (a :: free, used ∖ {[a]}, None) else None
  | OpWrite a _ => if decide (a ∈ used) then Some (free, used, None) else None
  end.

Fixpoint spec_run (st : list Z * gset Z) (ops : list span_op) : option (list Z * gset Z * list (option Z)) :=
  match ops with
  | [] => Some (st, [])
  | op :: ops => '(st, x) ← spec_op st op; '(st, xs) ← spec_run st ops; Some (st, x :: xs)
  end.

(** The slots an operation may write to. *)
Definition writes (op : span_op) (x : Z) : Prop :=
  match op with OpAlloc _ _ => False | OpFree a => a = x | OpWrite a _ => a = x end.

Lemma run_op_ok s free used op st x : span_state s free used → spec_op (free, used) op = Some (st, x) →
  ∃ s' y, run_op s op = Ret (s', y) ∧ slot_start_ <$> y = x ∧ span_state s' st.1 st.2 ∧
    ∀ a, ¬ writes op a → entries s' !! a = entries s !! a.
Proof.
  intros Hs E. destruct op as [flags raw|a|a e]; simpl in *.
  - destruct free as [|a free]; simplify_eq/=. destruct (alloc_fast sentinel_bucket s a free used flags raw Hs) as (s' & E & Hs' & Em).
    unfold RawAlloc. eexists _, _. split; [exact E|]. split; [done|]. split; [done|]. intros; by rewrite Em.
  - destruct (decide _) as [[Ha H2]|]; simplify_eq/=. destruct (free_fast s a free used Hs Ha H2) as (s' & E & Hs' & Hf). rewrite E. cbn [mbind outcome_bind].
    eexists _, _. split; [reflexivity|]. split; [done|]. split; [done|]. intros x Hx. apply Hf. by intros ->.
  - destruct (decide _) as [Ha|]; simplify_eq/=. eexists _, _. split; [reflexivity|]. split; [done|]. split; [by apply use_slot|].
    intros x Hx. simpl. by apply lookup_insert_ne.
Qed.

Lemma run_ok ops : ∀ s free used st xs, span_state s free used → spec_run (free, used) ops = Some (st, xs) →
  ∃ s' ys, run s ops = Ret (s', ys) ∧ map (fmap slot_start_) ys = xs ∧ span_state s' st.1 st.2 ∧
    ∀ a, Forall (λ op, ¬ writes op a) ops → entries s' !! a = entries s !! a.
Proof.
  induction ops as [|op ops IH]; intros s free used st xs Hs E; cbn [spec_run run] in *.
  - simplify_eq. exists s, []. done.
  - destruct (spec_op (free, used) op) as [[[free1 used1] x]|] eqn:E1; [|done]. cbn in E.
    destruct (spec_run (free1, used1) ops) as [[st2 xs2]|] eqn:E2; [|done]. cbn in E. simplify_eq.
    destruct (run_op_ok s free used op _ x Hs E1) as (s1 & y & R1 & Ey & Hs1 & F1). rewrite R1. cbn [mbind outcome_bind].
    destruct (IH s1 free1 used1 st xs2 Hs1 E2) as (s2 & ys & R2 & Eys & Hs2 & F2). rewrite R2. cbn [mbind outcome_bind].
    eexists _, _. split; [reflexivity|]. split; [by simpl; rewrite Ey, Eys|]. split; [done|].
    intros a Ha. inversion_clear Ha. rewrite F2, F1; done.
Qed.
End Active.

(** C19: Any sequence of allocations from an active slot span, frees and uses of
    its slots that leaves at least one slot in use and does not run out of free
    ones refines a stack of free slots: no check fails, the slots given out are
    those of the stack, so none is given out twice, the count of the metadata is
    exact, and memory changes only where the client freed or wrote.  Freeing the
    slot that was freed last is always caught, and the one before in debug
    builds. *)
Theorem slot_span_refines_stack `{P : Platform} {L : PlatformLaws P} `{BuildMode} `{EntryConfig} slow_free slow_alloc base idx bucket_ptr b r sentinel s free used :
  small_bucket base idx b → span_state base idx bucket_ptr b r s free used →
  (∀ ops st xs, spec_run (free, used) ops = Some (st, xs) →
     ∃ s' ys, run slow_free slow_alloc bucket_ptr r sentinel s ops = Ret (s', ys) ∧ map (fmap slot_start_) ys = xs ∧
       span_state base idx bucket_ptr b r s' st.1 st.2 ∧ ∀ a, Forall (λ op, ¬ writes op a) ops → entries s' !! a = entries s !! a) ∧
  (∀ a free', free = a :: free' → used ≠ ∅ → RawFree slow_free s a = Crash CheckFailed) ∧
  (∀ x a free', free = x :: a :: free' → used ≠ ∅ → RTC_DCHECK_IS_ON = true → RawFree slow_free s a = Crash DCheckFailed).
Proof.
  intros Hb Hs. split; [|split].
  - intros ops st xs. by apply run_ok.
  - intros a free' -> Hu. by eapply double_free.
  - intros x a free' -> Hu. by eapply double_free_second.
Qed.

(** A span with two free slots and one in use. *)
Module SmallSpan.
Definition config : EntryConfig := {| big_endian := false; hardened := true |}.
Definition slot (k : Z) : Z := 2 ^ 21 + 2 ^ 14 + k * 48.
Definition link (next : Z) : PartitionFreelistEntry := @SetNextInternal android_64 config (mkEntry 0 0) next.
Definition meta : SlotSpanMetadata := mkSpan (slot 0) 0 5000 1 0 (-1).
Definition state : pstate := mkP (small_heap meta) (<[ slot 0 := link (slot 1) ]> (<[ slot 1 := link 0 ]> {[ slot 2 := mkEntry 5 5 ]})).

Lemma ok : @span_state android_64 config (2 ^ 21) 1 5000 bucket_48 small_root state [slot 0; slot 1] {[ slot 2 ]}.
Proof.
  split.
  - exists meta. split; [by apply small_heap_span|]. split; [done|]. split; [|done].
    split_and!; [done|done|]. exists (link (slot 1)), (slot 1). split; [done|]. split; [vm_compute; done|].
    split_and!; [done|done|]. exists (link 0), 0. split; [done|]. split; [vm_compute; done|done].
  - intros a Ha. assert (a = slot 0 ∨ a = slot 1 ∨ a = slot 2) as [-> | [-> | -> ]] by set_solver;
      [exists 0|exists 1|exists 2]; (split; [lia|]; split; [done|vm_compute; discriminate]).
  - intros a Ha. apply elem_of_singleton in Ha as ->. by eexists.
  - apply (bool_decide_unpack _). vm_compute. done.
  - intros a Ha. rewrite elem_of_singleton. intros ->. revert Ha. apply (bool_decide_unpack _). vm_compute. done.
Qed.

Definition ops : list span_op := [OpAlloc 0 48; OpWrite (slot 0) (mkEntry 1 2); OpFree (slot 2)].

Lemma spec_ok : ∃ st xs, spec_run ([slot 0; slot 1], {[ slot 2 ]}) ops = Some (st, xs).
Proof.
  unfold ops. cbn [spec_run spec_op]. cbn. rewrite decide_True by set_solver. cbn.
  rewrite decide_True; [cbn; eauto|]. split; [set_solver|]. rewrite size_union, !size_singleton; [lia|].
  apply disjoint_singleton_l. rewrite elem_of_singleton. done.
Qed.
End SmallSpan.

Lemma slot_span_refines_stack_witness : ∃ s' ys,
  @run android_64 debug_build SmallSpan.config (λ s _, Ret (s, (0, 0))) (λ s _ _ _, Ret (s, 0, false)) 5000 small_root 0 SmallSpan.state
    SmallSpan.ops = Ret (s', ys) ∧
  entries s' !! SmallSpan.slot 1 = entries SmallSpan.state !! SmallSpan.slot 1.
Proof.
  destruct (@slot_span_refines_stack android_64 android_64_laws debug_build SmallSpan.config (λ s _, Ret (s, (0, 0))) (λ s _ _ _, Ret (s, 0, false))
    (2 ^ 21) 1 5000 bucket_48 small_root 0 SmallSpan.state [SmallSpan.slot 0; SmallSpan.slot 1] {[ SmallSpan.slot 2 ]}) as [Hrun _].
  - split; [reflexivity|]. split; [vm_compute; discriminate|reflexivity].
  - exact SmallSpan.ok.
  - destruct SmallSpan.spec_ok as (st & xs & E). destruct (Hrun _ _ _ E) as (s' & ys & R & _ & _ & F). exists s', ys.
    split; [exact R|]. apply F. unfold SmallSpan.ops.
    constructor; [intros []|]. constructor; [intros E0; vm_compute in E0; discriminate E0|].
    constructor; [intros E0; vm_compute in E0; discriminate E0|constructor].
Defined.
