(* ===== verification/ObjectBitmap.v ===== *)
(** * Bitmaps of objects

    Model of [src/include/base/allocator/partition_allocator/object_bitmap.h]: a
    bit for every possible object of a page, addressed by the address of the
    object.  The cells are words of the platform.  Setting and clearing a bit is
    one read-modify-write of a cell, atomic or not as the access type says; calls
    of several threads with atomic access therefore happen in some order, and
    the theorem on sequences of calls covers them.  The callback of an iteration
    is given by the addresses it is called with. *)

From Stdlib Require Import Sorting.Sorted.
From stdpp Require Import gmap sets.
From S2P Require Import Prelude Bits PartitionLayout.

Section Code.
Context `{P : Platform} `{BuildMode}.

(** The template arguments and the address of the bitmap itself. *)
Context (PageSize PageAlignment ObjectAlignment : Z) (this : Z).

Definition kBitsPerCell : Z := kBitsPerSizeT.
Definition kBitmapSize : Z := (PageSize + (kBitsPerCell * ObjectAlignment - 1)) / (kBitsPerCell * ObjectAlignment).
Definition kPageOffsetMask : Z := PageAlignment - 1.
Definition kPageBaseMask : Z := size (Z.lnot kPageOffsetMask).
Definition kMaxEntries : Z := kBitmapSize * kBitsPerCell.

Abbreviation bitmap := (list Z).

Definition ObjectIndexAndBit (address : Z) : outcome (Z * Z) :=
  let offset_in_page := Z.land address kPageOffsetMask in
  let object_number := offset_in_page / ObjectAlignment in
  let cell_index := object_number / kBitsPerCell in
  _ ← RTC_DCHECK (cell_index <? kBitmapSize);
  Ret (cell_index, object_number mod kBitsPerCell).

(** [static_cast<CellType>(1) << bit]. *)
Definition bit_mask (bit : Z) : outcome Z := shl (IntType kBitsPerSizeT false) 1 bit.

Definition LoadCell (b : bitmap) (cell_index : Z) : outcome Z := load b (Z.to_nat cell_index).

Definition SetBit (b : bitmap) (address : Z) : outcome bitmap :=
  '(cell_index, object_bit) ← ObjectIndexAndBit address;
  mask ← bit_mask object_bit;
  cell ← LoadCell b cell_index;
  store b (Z.to_nat cell_index) (Z.lor cell mask).

Definition ClearBit (b : bitmap) (address : Z) : outcome bitmap :=
  '(cell_index, object_bit) ← ObjectIndexAndBit address;
  mask ← bit_mask object_bit;
  cell ← LoadCell b cell_index;
  store b (Z.to_nat cell_index) (Z.land cell (size (Z.lnot mask))).

Definition CheckBit (b : bitmap) (address : Z) : outcome bool :=
  '(cell_index, object_bit) ← ObjectIndexAndBit address;
  cell ← LoadCell b cell_index;
  mask ← bit_mask object_bit;
  Ret (negb (Z.land cell mask =? 0)).

(** [while (value)]: a pass clears a bit, so the width of a cell is enough fuel. *)
Fixpoint cell_loop (fuel : nat) (cell_index value : Z) (visited : list Z) : outcome (list Z) :=
  if value =? 0 then Ret visited
  else match fuel with
       | O => Crash OutOfBounds
       | S fuel =>
           trailing_zeroes ← Base.CountTrailingZeroBits kBitsPerSizeT value;
           let object_number := size (size (cell_index * kBitsPerCell) + trailing_zeroes) in
           let object_address := size (Z.land this kPageBaseMask + size (ObjectAlignment * object_number)) in
           mask ← bit_mask trailing_zeroes;
           cell_loop fuel cell_index (Z.land value (size (Z.lnot mask))) (visited ++ [object_address])
       end.

Fixpoint iterate_loop (n : nat) (cell_index : Z) (should_clear : bool) (b : bitmap) (visited : list Z) : outcome (bitmap * list Z) :=
  match n with
  | O => Ret (b, visited)
  | S n =>
      value ← LoadCell b cell_index;
      visited ← cell_loop (Z.to_nat kBitsPerCell) cell_index value visited;
      b ← (if should_clear then store b (Z.to_nat cell_index) 0 else Ret b);
      iterate_loop n (cell_index + 1) should_clear b visited
  end.

Definition IterateImpl (should_clear : bool) (b : bitmap) : outcome (bitmap * list Z) :=
  iterate_loop (Z.to_nat kBitmapSize) 0 should_clear b [].

Definition Iterate (b : bitmap) : outcome (list Z) := '(_, visited) ← IterateImpl false b; Ret visited.
Definition IterateAndClear (b : bitmap) : outcome (bitmap * list Z) := IterateImpl true b.
Definition Clear (b : bitmap) : bitmap := replicate (length b) 0.
End Code.

(** ** Bits *)

Lemma ctz_pos_spec p : 0 ≤ ctz_pos p ∧ Z.testbit (Zpos p) (ctz_pos p) = true ∧ ∀ i, 0 ≤ i < ctz_pos p → Z.testbit (Zpos p) i = false.
Proof.
  induction p as [p IH|p (H0 & H1 & H2)|]; simpl ctz_pos; [split_and!; [lia|done|lia]| |split_and!; [lia|done|lia]].
  replace (Zpos p~0) with (2 * Zpos p) by lia. rewrite Z.add_1_l. split_and!; [lia|by rewrite Z.testbit_even_succ|].
  intros i Hi. destruct (decide (i = 0)) as [->|]; [apply Z.testbit_even_0|].
  replace i with (Z.succ (i - 1)) by lia. rewrite Z.testbit_even_succ by lia. apply H2. lia.
Qed.

(** The bits of a word without bit [t]. *)
Lemma clear_bit_spec w v t i : 0 ≤ t < w → 0 ≤ i < w →
  Z.testbit (Z.land v (wrapU w (Z.lnot (2 ^ t)))) i = Z.testbit v i && negb (i =? t).
Proof.
  intros Ht Hi. unfold wrapU. rewrite Z.land_spec, Z.mod_pow2_bits_low, Z.lnot_spec, Z.pow2_bits_eqb by lia.
  do 2 f_equal. apply Z.eqb_sym.
Qed.

Lemma set_bit_spec v t i : 0 ≤ t → Z.testbit (Z.lor v (2 ^ t)) i = Z.testbit v i || (i =? t).
Proof. intros Ht. rewrite Z.lor_spec, Z.pow2_bits_eqb by lia. f_equal. apply Z.eqb_sym. Qed.

(** A word of [w] bits. *)
Definition word (w v : Z) : Prop := 0 ≤ v < 2 ^ w.

Lemma word_bits w v : 0 ≤ w → (0 ≤ v ∧ ∀ i, w ≤ i → Z.testbit v i = false) → word w v.
Proof.
  intros Hw [H0 Hv]. split; [done|]. destruct (Z.eq_dec v 0) as [->|]; [by apply Z.pow_pos_nonneg|].
  apply Z.log2_lt_pow2; [lia|]. destruct (Z.lt_ge_cases (Z.log2 v) w) as [|Hge]; [done|].
  pose proof (Z.bit_log2 v ltac:(lia)) as Hb. by rewrite (Hv _ Hge) in Hb.
Qed.

Lemma cell_high w v i : word w v → w ≤ i → 0 ≤ w → Z.testbit v i = false.
Proof.
  intros [H0 H1] Hi Hw. destruct (Z.eq_dec v 0) as [->|]; [apply Z.bits_0|].
  apply Z.bits_above_log2; [done|]. apply Z.log2_lt_pow2 in H1; lia.
Qed.

Lemma word_land w v m : 0 ≤ w → word w v → 0 ≤ m → word w (Z.land v m).
Proof.
  intros Hw Hv Hm. pose proof Hv as [H0 _]. apply word_bits; [done|]. split; [apply Z.land_nonneg; by left|].
  intros i Hi. by rewrite Z.land_spec, (cell_high w v i).
Qed.

Lemma word_lor w v t : word w v → 0 ≤ t < w → word w (Z.lor v (2 ^ t)).
Proof.
  intros Hv Ht. pose proof Hv as [H0 _]. apply word_bits; [lia|]. split; [apply Z.lor_nonneg; split; [done|apply Z.pow_nonneg; lia]|].
  intros i Hi. rewrite set_bit_spec, (cell_high w v i) by (done || lia). simpl. apply Z.eqb_neq. lia.
Qed.

(** A word that is not zero has a lowest bit. *)
Lemma ctz_spec w v : 0 < w ≤ 64 → word w v → v ≠ 0 →
  0 ≤ ctz w v < w ∧ Z.testbit v (ctz w v) = true ∧ ∀ i, 0 ≤ i < ctz w v → Z.testbit v i = false.
Proof.
  intros Hw Hv Hne. pose proof Hv as [H0 _]. destruct v as [|p|]; [done| |lia]. simpl.
  destruct (ctz_pos_spec p) as (H1 & H2 & H3). split_and!; [done| |done|done].
  destruct (Z.lt_ge_cases (ctz_pos p) w) as [|Hge]; [done|]. rewrite (cell_high w) in H2; [done..|lia].
Qed.

(** ** The loops *)

Section Loops.
Context `{P : Platform} `{BuildMode} {PL : PlatformLaws P}.
Context (PageSize PageAlignment ObjectAlignment : Z) (this : Z).

(** The address of object number [n] of cell [c]. *)
Definition visit_address (c n : Z) : Z :=
  size (Z.land this (kPageBaseMask PageAlignment) + size (ObjectAlignment * size (size (c * kBitsPerCell) + n))).

Lemma bit_mask_ok t : 0 ≤ t < kBitsPerSizeT → bit_mask t = Ret (2 ^ t).
Proof.
  intros Ht. pose proof word_size. unfold bit_mask, shl, convert. simpl.
  rewrite (proj2 (Z.ltb_ge t 0)), (proj2 (Z.leb_gt kBitsPerSizeT t)) by lia. simpl. f_equal. rewrite Z.mul_1_l. apply wrapU_small.
  split; [apply Z.pow_nonneg; lia|]. apply Z.pow_lt_mono_r; lia.
Qed.

Lemma trailing_ok v : word kBitsPerSizeT v → v ≠ 0 → Base.CountTrailingZeroBits kBitsPerSizeT v = Ret (ctz kBitsPerSizeT v).
Proof.
  intros Hv Hne. unfold Base.CountTrailingZeroBits, builtin_ctz. rewrite (proj2 (Z.eqb_neq v 0)) by done.
  destruct word_size as [-> | ->]; reflexivity.
Qed.

Lemma filter_agree {A} (Q R : A → Prop) `{∀ x, Decision (Q x), ∀ x, Decision (R x)} (l : list A) :
  (∀ x, x ∈ l → Q x ↔ R x) → filter Q l = filter R l.
Proof.
  induction l as [|x l IH]; intros Hl; [done|]. pose proof (Hl x (list_elem_of_here x l)) as Hx.
  rewrite !filter_cons, IH by (intros y Hy; apply Hl; by right).
  destruct (decide (Q x)), (decide (R x)); tauto || done.
Qed.

(** The bits of [v] from [j] on, lowest first. *)
Definition bits_from (v j w : Z) : list Z := filter (λ i, Z.testbit v i = true) (seqZ j (w - j)).

Lemma bits_from_skip v j t w : 0 ≤ j → j ≤ t ≤ w → (∀ i, j ≤ i < t → Z.testbit v i = false) → bits_from v j w = bits_from v t w.
Proof.
  intros Hj Ht Hz. unfold bits_from. replace (w - j) with ((t - j) + (w - t)) by lia. rewrite seqZ_app, list.filter_app by lia.
  replace (j + (t - j)) with t by lia. replace (filter _ (seqZ j (t - j))) with (@nil Z); [done|]. symmetry.
  destruct (filter _ (seqZ j (t - j))) as [|x l] eqn:Ef; [done|]. exfalso.
  assert (x ∈ filter (λ i, Z.testbit v i = true) (seqZ j (t - j))) as [Hx Hin]%list_elem_of_filter by (rewrite Ef; left).
  apply elem_of_seqZ in Hin. rewrite Hz in Hx; [done|lia].
Qed.

Lemma bits_from_ext v v' j w : (∀ i, j ≤ i < w → Z.testbit v i = Z.testbit v' i) → bits_from v j w = bits_from v' j w.
Proof.
  intros He. unfold bits_from. apply filter_agree. intros i Hi%elem_of_seqZ. rewrite He by lia. done.
Qed.

Lemma bits_from_here v t w : 0 ≤ t < w → Z.testbit v t = true → bits_from v t w = t :: bits_from v (t + 1) w.
Proof.
  intros Ht Hb. unfold bits_from. rewrite (seqZ_cons t) by lia. rewrite filter_cons_True by done. do 2 f_equal.
  rewrite Z.add_1_r || idtac. f_equal; lia.
Qed.

Lemma bits_from_0 j w : bits_from 0 j w = [].
Proof.
  unfold bits_from. destruct (filter _ _) as [|x l] eqn:Ef; [done|]. exfalso.
  assert (x ∈ filter (λ i, Z.testbit 0 i = true) (seqZ j (w - j))) as [Hx _]%list_elem_of_filter by (rewrite Ef; left).
  by rewrite Z.bits_0 in Hx.
Qed.

Lemma cell_loop_ok fuel : ∀ c v visited j,
  word kBitsPerSizeT v → 0 ≤ j ≤ kBitsPerSizeT → (∀ i, 0 ≤ i < j → Z.testbit v i = false) → kBitsPerSizeT - j ≤ Z.of_nat fuel →
  cell_loop PageAlignment ObjectAlignment this fuel c v visited =
  Ret (visited ++ (visit_address c <$> bits_from v j kBitsPerSizeT)).
Proof.
  pose proof word_size as Hw. assert (0 < kBitsPerSizeT ≤ 64) as Hw64 by lia.
  induction fuel as [|fuel IH]; intros c v visited j Hv Hj Hlow Hf; simpl;
    (destruct (Z.eqb_spec v 0) as [->|Hne]; [by rewrite bits_from_0, app_nil_r|]);
    destruct (ctz_spec kBitsPerSizeT v Hw64 Hv Hne) as (Ht & Hbit & Hbelow); set (t := ctz kBitsPerSizeT v) in *.
  all: assert (j ≤ t) by (destruct (Z.lt_ge_cases t j) as [Hlt|]; [rewrite Hlow in Hbit by lia; done|done]).
  { lia. }
  rewrite trailing_ok, bind_ret by done. fold t. rewrite bit_mask_ok, bind_ret by done.
  rewrite (IH _ _ _ (t + 1)); [| |lia| |lia].
  - rewrite (bits_from_skip v j t), (bits_from_here v t) by (done || lia || (intros; apply Hbelow; lia)).
    rewrite <-app_assoc. do 2 f_equal. simpl. f_equal. f_equal. apply bits_from_ext. intros i Hi. unfold size.
    rewrite clear_bit_spec by lia. by rewrite (proj2 (Z.eqb_neq i t)), andb_true_r by lia.
  - apply word_land; [lia|done|]. apply wrapU_range. lia.
  - intros i Hi. unfold size. rewrite clear_bit_spec by lia. destruct (Z.eqb_spec i t) as [->|]; [by rewrite andb_false_r|].
    rewrite Hbelow by lia. done.
Qed.

(** The marks of a bitmap, by object number. *)
Definition marked (b : list Z) (n : Z) : bool :=
  match b !! Z.to_nat (n / kBitsPerSizeT) with Some v => Z.testbit v (n mod kBitsPerSizeT) | None => false end.

Definition cells_visited (b : list Z) (c : Z) : list Z :=
  match b !! Z.to_nat c with Some v => visit_address c <$> bits_from v 0 kBitsPerSizeT | None => [] end.

Definition cleared (b : list Z) (c n : nat) : list Z := take c b ++ replicate n 0 ++ drop (c + n) b.

Lemma cleared_step b c n : (c + S n ≤ length b)%nat → cleared (<[c := 0]> b) (S c) n = cleared b c (S n).
Proof.
  intros Hc. unfold cleared. rewrite (take_S_r _ _ 0) by (apply list_lookup_insert_eq; lia).
  rewrite take_insert_ge, drop_insert_lt, <-!app_assoc by lia. simpl. by rewrite Nat.add_succ_r.
Qed.

Lemma iterate_loop_ok (clear : bool) n : ∀ (c : nat) b visited,
  Forall (word kBitsPerSizeT) b → (c + n ≤ length b)%nat →
  iterate_loop PageAlignment ObjectAlignment this n (Z.of_nat c) clear b visited =
  Ret (if clear then cleared b c n else b, visited ++ concat (cells_visited b <$> seqZ (Z.of_nat c) (Z.of_nat n))).
Proof.
  pose proof word_size as Hw. induction n as [|n IH]; intros c b visited Hb Hlen; simpl.
  - rewrite app_nil_r. destruct clear; [|done]. unfold cleared. by rewrite Nat.add_0_r, app_nil_l, take_drop.
  - destruct (lookup_lt_is_Some_2 b c) as [v Hv]; [lia|]. unfold LoadCell, load. rewrite Nat2Z.id, Hv. cbn [from_option_or]. rewrite bind_ret.
    assert (word kBitsPerSizeT v) as Hwv by by eapply Forall_lookup_1.
    rewrite (cell_loop_ok _ _ _ _ 0) by (done || unfold kBitsPerCell; lia). rewrite bind_ret.
    rewrite (seqZ_cons (Z.of_nat c) (Z.of_nat (S n))) by lia.
    replace (Z.of_nat c + 1) with (Z.of_nat (S c)) by lia. replace (Z.pred (Z.of_nat (S n))) with (Z.of_nat n) by lia.
    replace (Z.succ (Z.of_nat c)) with (Z.of_nat (S c)) by lia.
    assert (cells_visited b (Z.of_nat c) = visit_address (Z.of_nat c) <$> bits_from v 0 kBitsPerSizeT) as Hc.
    { unfold cells_visited. by rewrite Nat2Z.id, Hv. }
    destruct clear.
    + unfold store. rewrite decide_True, bind_ret by lia. rewrite IH; [|apply Forall_insert; [done|]; split; [done|apply Z.pow_pos_nonneg; lia]|rewrite length_insert; lia].
      rewrite cleared_step, <-app_assoc by lia. simpl. rewrite Hc. do 5 f_equal. apply list_fmap_ext. intros k x Hk.
      apply list_elem_of_lookup_2, elem_of_seqZ in Hk. unfold cells_visited. by rewrite list_lookup_insert_ne by lia.
    + rewrite bind_ret, IH by (done || lia). rewrite <-app_assoc. simpl. by rewrite Hc.
Qed.
End Loops.

(** ** A set of addresses *)

Section Set_.
Context `{P : Platform} `{BuildMode} {PL : PlatformLaws P}.
Context (PageSize PageAlignment ObjectAlignment : Z) (this : Z).

Definition page_base : Z := Z.land this (kPageBaseMask PageAlignment).

(** What the class expects of its arguments: the page has a power of two as
    alignment, lies in the address space and its size does not overflow in the
    constants. *)
Record geometry : Prop := {
  align_pos : 0 < ObjectAlignment;
  page_align : ∃ a, 0 ≤ a < kBitsPerSizeT ∧ PageAlignment = 2 ^ a;
  page_size : 0 < PageSize ∧ PageSize + kBitsPerSizeT * ObjectAlignment ≤ 2 ^ kBitsPerSizeT;
  bitmap_address : 0 ≤ this < 2 ^ kBitsPerSizeT;
  page_end : page_base + PageSize ≤ 2 ^ kBitsPerSizeT
}.

(** The address where object number [n] begins. *)
Definition address_of (n : Z) : Z := page_base + ObjectAlignment * n.

(** An address of the page at which an object may begin. *)
Definition object_start (x : Z) : Prop :=
  ∃ n, x = address_of n ∧ 0 ≤ n ∧ ObjectAlignment * n < PageSize ∧ ObjectAlignment * n < PageAlignment.

Definition holds (b : list Z) (M : gset Z) : Prop :=
  length b = Z.to_nat (kBitmapSize PageSize ObjectAlignment) ∧ Forall (word kBitsPerSizeT) b ∧
  (∀ x, x ∈ M → object_start x) ∧ ∀ n, 0 ≤ n → marked b n = bool_decide (address_of n ∈ M).

Context (G : geometry).

Lemma cell_width : 0 < kBitsPerSizeT ≤ 64.
Proof. pose proof word_size. lia. Qed.

Lemma base_aligned : ∃ a, 0 ≤ a < kBitsPerSizeT ∧ PageAlignment = 2 ^ a ∧ page_base = this / 2 ^ a * 2 ^ a ∧ 0 ≤ page_base.
Proof.
  destruct (page_align G) as (a & Ha & Hpa). exists a. pose proof cell_width. pose proof (bitmap_address G).
  assert (0 < 2 ^ a < 2 ^ kBitsPerSizeT) as Hp by (split; [apply pow2_pos; lia|apply Z.pow_lt_mono_r; lia]).
  assert (page_base = this / 2 ^ a * 2 ^ a) as ->.
  { unfold page_base, kPageBaseMask, kPageOffsetMask, size. rewrite Hpa, <-(wrapU_small kBitsPerSizeT (2 ^ a - 1)) by lia.
    by apply (align_mask kBitsPerSizeT a word_size Ha this). }
  split_and!; [lia..|done|done|]. pose proof (Z.div_pos this (2 ^ a)). nia.
Qed.

Lemma address_inj n m : address_of n = address_of m → n = m.
Proof. unfold address_of. pose proof (align_pos G). nia. Qed.

(** The objects of a page have their bits in the bitmap. *)
Lemma number_bound n : 0 ≤ n → ObjectAlignment * n < PageSize → n < kBitmapSize PageSize ObjectAlignment * kBitsPerSizeT.
Proof.
  intros H0 Hn. unfold kBitmapSize, kBitsPerCell. pose proof (align_pos G). pose proof cell_width.
  set (d := kBitsPerSizeT * ObjectAlignment). assert (0 < d) by (unfold d; nia).
  pose proof (Z.div_mod (PageSize + (d - 1)) d ltac:(lia)). pose proof (Z.mod_pos_bound (PageSize + (d - 1)) d ltac:(lia)).
  set (q := (PageSize + (d - 1)) / d) in *. unfold d in *. nia.
Qed.

Lemma index_ok n : 0 ≤ n → ObjectAlignment * n < PageSize → ObjectAlignment * n < PageAlignment →
  ObjectIndexAndBit PageSize PageAlignment ObjectAlignment (address_of n) = Ret (n / kBitsPerSizeT, n mod kBitsPerSizeT) ∧
  0 ≤ n / kBitsPerSizeT < kBitmapSize PageSize ObjectAlignment ∧ 0 ≤ n mod kBitsPerSizeT < kBitsPerSizeT.
Proof.
  intros H0 Hn Ha. pose proof cell_width. pose proof (align_pos G). pose proof (number_bound n H0 Hn).
  destruct base_aligned as (a & Hr & Hpa & Hb & Hb0). rewrite Hpa in Ha. assert (0 < 2 ^ a) by (apply pow2_pos; lia).
  assert (0 ≤ n / kBitsPerSizeT < kBitmapSize PageSize ObjectAlignment) as Hc.
  { split; [apply Z.div_pos; lia|]. apply Z.div_lt_upper_bound; lia. }
  split_and!; [|lia..|apply Z.mod_pos_bound; lia|apply Z.mod_pos_bound; lia].
  unfold ObjectIndexAndBit, kPageOffsetMask, kBitsPerCell. rewrite Hpa.
  assert (Z.land (address_of n) (2 ^ a - 1) = ObjectAlignment * n) as ->.
  { replace (2 ^ a - 1) with (Z.ones a) by (rewrite Z.ones_equiv; lia). rewrite Z.land_ones by lia. unfold address_of. rewrite Hb.
    rewrite Z.add_comm, Z.mod_add by lia. apply Z.mod_small. nia. }
  rewrite Z.mul_comm, Z.div_mul by lia. rewrite dcheck_pass, bind_ret by (apply Z.ltb_lt; lia). done.
Qed.

(** The bits after one cell has changed. *)
Lemma marked_insert b n m v v' : 0 ≤ n → 0 ≤ m → b !! Z.to_nat (n / kBitsPerSizeT) = Some v →
  marked (<[Z.to_nat (n / kBitsPerSizeT) := v']> b) m =
  if decide (m / kBitsPerSizeT = n / kBitsPerSizeT) then Z.testbit v' (m mod kBitsPerSizeT) else marked b m.
Proof.
  intros Hn Hm Hv. pose proof cell_width. pose proof (Z.div_pos n kBitsPerSizeT). pose proof (Z.div_pos m kBitsPerSizeT). unfold marked.
  destruct (decide _) as [->|Hne]; [by rewrite list_lookup_insert_eq by by eapply lookup_lt_Some|].
  by rewrite list_lookup_insert_ne by lia.
Qed.

Lemma same_bit n m : m / kBitsPerSizeT = n / kBitsPerSizeT → (m mod kBitsPerSizeT =? n mod kBitsPerSizeT) = bool_decide (m = n).
Proof.
  intros Hd. pose proof cell_width. assert (kBitsPerSizeT ≠ 0) as Hne by lia.
  pose proof (Z.div_mod m kBitsPerSizeT Hne). pose proof (Z.div_mod n kBitsPerSizeT Hne).
  destruct (Z.eqb_spec (m mod kBitsPerSizeT) (n mod kBitsPerSizeT)); case_bool_decide; congruence || (exfalso; nia) || (exfalso; congruence) || done.
Qed.

Lemma holds_cell b M n : holds b M → 0 ≤ n → n / kBitsPerSizeT < kBitmapSize PageSize ObjectAlignment →
  ∃ v, b !! Z.to_nat (n / kBitsPerSizeT) = Some v ∧ word kBitsPerSizeT v ∧ (Z.to_nat (n / kBitsPerSizeT) < length b)%nat ∧
       Z.testbit v (n mod kBitsPerSizeT) = bool_decide (address_of n ∈ M).
Proof.
  intros (Hlen & Hb & _ & Hm) H0 Hn. pose proof cell_width. pose proof (Z.div_pos n kBitsPerSizeT).
  destruct (lookup_lt_is_Some_2 b (Z.to_nat (n / kBitsPerSizeT))) as [v Hv]; [lia|]. exists v. split_and!; [done|by eapply Forall_lookup_1|lia|].
  rewrite <-(Hm n H0). unfold marked. by rewrite Hv.
Qed.

Lemma SetBit_ok b M x : holds b M → object_start x →
  ∃ b', SetBit PageSize PageAlignment ObjectAlignment b x = Ret b' ∧ holds b' ({[x]} ∪ M).
Proof.
  intros Hh Hx. pose proof Hx as (n & -> & H0 & Hn & Ha). destruct (index_ok n H0 Hn Ha) as (Hi & Hc & Hbit).
  destruct (holds_cell b M n Hh H0) as (v & Hv & Hwv & Hlt & Htest); [lia|]. unfold SetBit, LoadCell, load, store.
  rewrite Hi, bind_ret, bit_mask_ok, bind_ret, Hv by done. cbn [from_option_or]. rewrite bind_ret, decide_True by done.
  eexists. split; [done|]. destruct Hh as (Hlen & Hb & Hs & Hm). split_and!.
  - by rewrite length_insert.
  - apply Forall_insert; [done|]. by apply word_lor.
  - intros y [->%elem_of_singleton|Hy]%elem_of_union; [done|by apply Hs].
  - intros m Hm0. rewrite (marked_insert b n m v) by done. destruct (decide _) as [Hd|Hd].
    + rewrite set_bit_spec, same_bit by (done || lia). pose proof (Hm m Hm0) as Hmm. unfold marked in Hmm. rewrite Hd, Hv in Hmm. rewrite Hmm.
      rewrite <-bool_decide_or. apply bool_decide_ext. rewrite elem_of_union, elem_of_singleton. pose proof (address_inj m n). naive_solver.
    + rewrite Hm by done. apply bool_decide_ext. rewrite elem_of_union, elem_of_singleton. pose proof (address_inj m n). naive_solver.
Qed.

Lemma ClearBit_ok b M x : holds b M → object_start x →
  ∃ b', ClearBit PageSize PageAlignment ObjectAlignment b x = Ret b' ∧ holds b' (M ∖ {[x]}).
Proof.
  intros Hh Hx. pose proof Hx as (n & -> & H0 & Hn & Ha). destruct (index_ok n H0 Hn Ha) as (Hi & Hc & Hbit). pose proof cell_width.
  destruct (holds_cell b M n Hh H0) as (v & Hv & Hwv & Hlt & Htest); [lia|]. unfold ClearBit, LoadCell, load, store.
  rewrite Hi, bind_ret, bit_mask_ok, bind_ret, Hv by done. cbn [from_option_or]. rewrite bind_ret, decide_True by done.
  eexists. split; [done|]. destruct Hh as (Hlen & Hb & Hs & Hm). split_and!.
  - by rewrite length_insert.
  - apply Forall_insert; [done|]. apply word_land; [lia|done|]. apply wrapU_range. lia.
  - intros y [Hy _]%elem_of_difference. by apply Hs.
  - intros m Hm0. rewrite (marked_insert b n m v) by done. destruct (decide _) as [Hd|Hd].
    + unfold size. rewrite clear_bit_spec, same_bit by (done || lia || (apply Z.mod_pos_bound; lia)).
      pose proof (Hm m Hm0) as Hmm. unfold marked in Hmm. rewrite Hd, Hv in Hmm. rewrite Hmm, <-bool_decide_not, <-bool_decide_and.
      apply bool_decide_ext. rewrite elem_of_difference, elem_of_singleton. pose proof (address_inj m n). naive_solver.
    + rewrite Hm by done. apply bool_decide_ext. rewrite elem_of_difference, elem_of_singleton. pose proof (address_inj m n). naive_solver.
Qed.

Lemma CheckBit_ok b M x : holds b M → object_start x →
  CheckBit PageSize PageAlignment ObjectAlignment b x = Ret (bool_decide (x ∈ M)).
Proof.
  intros Hh Hx. pose proof Hx as (n & -> & H0 & Hn & Ha). destruct (index_ok n H0 Hn Ha) as (Hi & Hc & Hbit).
  destruct (holds_cell b M n Hh H0) as (v & Hv & Hwv & Hlt & Htest); [lia|]. unfold CheckBit, LoadCell, load.
  rewrite Hi, bind_ret, Hv. cbn [from_option_or]. rewrite bind_ret, bit_mask_ok, bind_ret by done. rewrite <-Htest. f_equal.
  destruct (Z.testbit v (n mod kBitsPerSizeT)) eqn:Et.
  - apply negb_true_iff, Z.eqb_neq. intros E0. apply (f_equal (λ z, Z.testbit z (n mod kBitsPerSizeT))) in E0.
    rewrite Z.land_spec, Z.pow2_bits_true, Et, Z.bits_0 in E0 by lia. done.
  - apply negb_false_iff, Z.eqb_eq, Z.bits_inj_0. intros i. rewrite Z.land_spec, Z.pow2_bits_eqb by lia.
    destruct (Z.eqb_spec (n mod kBitsPerSizeT) i) as [<-|]; [by rewrite Et|by rewrite andb_false_r].
Qed.

Lemma marked_start b M m : holds b M → 0 ≤ m → marked b m = true → address_of m ∈ M ∧ ObjectAlignment * m < PageSize.
Proof.
  intros (_ & _ & Hs & Hm) H0 Hmk. rewrite Hm in Hmk by done. apply bool_decide_eq_true in Hmk. split; [done|].
  destruct (Hs _ Hmk) as (n & He & _ & Hn & _). by apply address_inj in He as ->.
Qed.

(** The address computed in an iteration is that of the object. *)
Lemma visit_exact b M c i : holds b M → 0 ≤ c → 0 ≤ i → marked b (c * kBitsPerSizeT + i) = true →
  visit_address PageAlignment ObjectAlignment this c i = address_of (c * kBitsPerSizeT + i).
Proof.
  intros Hh Hc Hi Hmk. pose proof cell_width. pose proof (align_pos G). destruct (page_size G) as [? ?]. pose proof (page_end G).
  destruct base_aligned as (_ & _ & _ & _ & Hb0). destruct (marked_start b M (c * kBitsPerSizeT + i) Hh) as [_ Hn]; [nia|done|].
  unfold visit_address, address_of, size, kBitsPerCell. fold page_base. set (n := c * kBitsPerSizeT + i) in *.
  assert (c * kBitsPerSizeT ≤ n) by (unfold n; lia). assert (0 ≤ c * kBitsPerSizeT) by nia. assert (n ≤ ObjectAlignment * n) by nia.
  rewrite (wrapU_small _ (c * kBitsPerSizeT)) by lia. fold n. rewrite (wrapU_small _ n), (wrapU_small _ (ObjectAlignment * n)) by lia.
  apply wrapU_small. lia.
Qed.

Lemma filter_over_fmap {A B} (f : A → B) (Q : B → Prop) `{∀ x, Decision (Q x)} (l : list A) :
  filter Q (f <$> l) = f <$> filter (λ x, Q (f x)) l.
Proof. induction l as [|x l IH]; [done|]. rewrite fmap_cons, !filter_cons, IH. simpl. by destruct (decide (Q (f x))). Qed.

Lemma cells_flat b M n : holds b M → (n ≤ length b)%nat →
  concat (cells_visited PageAlignment ObjectAlignment this b <$> seqZ 0 (Z.of_nat n)) =
  address_of <$> filter (λ m, marked b m = true) (seqZ 0 (Z.of_nat n * kBitsPerSizeT)).
Proof.
  intros Hh. pose proof cell_width. induction n as [|n IH]; intros Hn; [done|].
  rewrite seqZ_S, fmap_app, concat_app, IH by lia. replace (Z.of_nat (S n) * kBitsPerSizeT) with (Z.of_nat n * kBitsPerSizeT + kBitsPerSizeT) by lia.
  rewrite seqZ_app, list.filter_app, fmap_app by nia. f_equal. rewrite !Z.add_0_l. simpl. rewrite app_nil_r.
  destruct (lookup_lt_is_Some_2 b n) as [v Hv]; [lia|]. unfold cells_visited. rewrite Nat2Z.id, Hv.
  assert (∀ i, 0 ≤ i < kBitsPerSizeT → marked b (Z.of_nat n * kBitsPerSizeT + i) = Z.testbit v i) as Hbit.
  { intros i Hi. unfold marked. rewrite Z.add_comm, Z.div_add, Z.div_small, Z.mod_add, Z.mod_small, Z.add_0_l, Nat2Z.id, Hv by lia. done. }
  rewrite <-(Z.add_0_r (Z.of_nat n * kBitsPerSizeT)) at 1. rewrite <-fmap_add_seqZ, filter_over_fmap, <-list_fmap_compose.
  unfold bits_from. rewrite Z.sub_0_r.
  rewrite (filter_agree (λ i, Z.testbit v i = true) (λ i, marked b (Z.of_nat n * kBitsPerSizeT + i) = true)).
  2: { intros i Hi%elem_of_seqZ. rewrite Hbit by lia. done. }
  apply list_fmap_ext. intros k i Hk. apply list_elem_of_lookup_2, list_elem_of_filter in Hk as [Hm Hi%elem_of_seqZ]. simpl in *.
  apply (visit_exact b M); [done|lia|lia|done].
Qed.

Lemma sorted_filter (Q : Z → Prop) `{∀ x, Decision (Q x)} (m n : Z) : StronglySorted Z.lt (filter Q (seqZ m n)).
Proof.
  unfold seqZ. generalize (Z.to_nat n). intros k. revert m. induction k as [|k IH]; intros m; [constructor|].
  rewrite <-cons_seq, fmap_cons, <-fmap_S_seq, <-list_fmap_compose, filter_cons.
  assert ((λ i : nat, Z.of_nat i + m) ∘ S <$> seq 0 k = (λ i : nat, Z.of_nat i + (m + 1)) <$> seq 0 k) as ->.
  { apply list_fmap_ext. intros. simpl. lia. }
  specialize (IH (m + 1)). destruct (decide _); [|done]. constructor; [done|].
  apply List.Forall_forall. intros x [_ (i & -> & _)%list_elem_of_fmap]%list_elem_of_In%list_elem_of_filter. lia.
Qed.

Lemma sorted_fmap (l : list Z) : StronglySorted Z.lt l → StronglySorted Z.lt (address_of <$> l).
Proof.
  pose proof (align_pos G). induction 1 as [|x l Hs IH Hx]; [constructor|]. simpl. constructor; [done|].
  apply Forall_fmap. eapply Forall_impl; [|exact Hx]. intros y Hy. simpl. unfold address_of. nia.
Qed.

Lemma zeros_hold n : n = Z.to_nat (kBitmapSize PageSize ObjectAlignment) → holds (replicate n 0) ∅.
Proof.
  intros ->. pose proof cell_width. split_and!.
  - by rewrite length_replicate.
  - apply Forall_replicate. split; [done|]. apply pow2_pos. lia.
  - set_solver.
  - intros k Hk. rewrite bool_decide_false by set_solver. unfold marked. destruct (_ !! _) as [v|] eqn:Ev; [|done].
    apply lookup_replicate in Ev as [-> _]. apply Z.bits_0.
Qed.

(** An iteration visits the objects of the set once each, by increasing address. *)
Lemma IterateImpl_ok (clear : bool) b M : holds b M →
  ∃ b' visited, IterateImpl PageSize PageAlignment ObjectAlignment this clear b = Ret (b', visited) ∧
    holds b' (if clear then ∅ else M) ∧ StronglySorted Z.lt visited ∧ ∀ x, x ∈ visited ↔ x ∈ M.
Proof.
  intros Hh. pose proof Hh as (Hlen & Hb & Hs & Hm). unfold IterateImpl. rewrite <-Hlen.
  change 0 with (Z.of_nat 0) at 1. rewrite iterate_loop_ok by (done || lia). eexists _, _. split; [done|]. simpl.
  change (Z.of_nat 0) with 0. rewrite (cells_flat b M) by done. split_and!.
  - destruct clear; [|done]. unfold cleared. simpl. rewrite drop_ge, app_nil_r by lia. by apply zeros_hold.
  - apply sorted_fmap, sorted_filter.
  - intros x. rewrite list_elem_of_fmap. split.
    + intros (n & -> & [Hn Hi%elem_of_seqZ]%list_elem_of_filter). apply (marked_start b M); [done|lia|done].
    + intros Hx. destruct (Hs x Hx) as (n & -> & H0 & Hn & Ha). exists n. split; [done|]. apply list_elem_of_filter.
      rewrite Hm, bool_decide_true by done. split; [done|]. apply elem_of_seqZ. pose proof (number_bound n H0 Hn). pose proof cell_width.
      destruct (index_ok n H0 Hn Ha) as (_ & ? & _). nia.
Qed.
End Set_.

(** ** Programs *)

Inductive bitmap_op := OpSet (x : Z) | OpClear (x : Z) | OpClearAll | OpIterateAndClear.

Section Programs.
Context `{P : Platform} `{BuildMode} {PL : PlatformLaws P}.
Context (PageSize PageAlignment ObjectAlignment : Z) (this : Z).

Definition run_op (b : list Z) (o : bitmap_op) : outcome (list Z) :=
  match o with
  | OpSet x => SetBit PageSize PageAlignment ObjectAlignment b x
  | OpClear x => ClearBit PageSize PageAlignment ObjectAlignment b x
  | OpClearAll => Ret (Clear b)
  | OpIterateAndClear => '(b, _) ← IterateAndClear PageSize PageAlignment ObjectAlignment this b; Ret b
  end.

Fixpoint run_ops (b : list Z) (ops : list bitmap_op) : outcome (list Z) :=
  match ops with
  | [] => Ret b
  | o :: ops => b ← run_op b o; run_ops b ops
  end.

Definition set_op (M : gset Z) (o : bitmap_op) : gset Z :=
  match o with
  | OpSet x => {[x]} ∪ M
  | OpClear x => M ∖ {[x]}
  | OpClearAll | OpIterateAndClear => ∅
  end.

(** The addresses of the calls are those at which objects of the page begin. *)
Definition op_address (o : bitmap_op) : Prop :=
  match o with
  | OpSet x | OpClear x => object_start PageSize PageAlignment ObjectAlignment this x
  | _ => True
  end.

Context (G : geometry PageSize PageAlignment ObjectAlignment this).

Lemma run_op_holds b M o : holds PageSize PageAlignment ObjectAlignment this b M → op_address o →
  ∃ b', run_op b o = Ret b' ∧ holds PageSize PageAlignment ObjectAlignment this b' (set_op M o).
Proof.
  intros Hh Ho. destruct o as [x|x| |]; simpl in *.
  - by apply SetBit_ok.
  - by apply ClearBit_ok.
  - eexists. split; [done|]. unfold Clear. apply (zeros_hold _ _ _ _ G). by destruct Hh.
  - unfold IterateAndClear. destruct (IterateImpl_ok _ _ _ _ G true b M Hh) as (b' & visited & -> & Hb & _).
    rewrite bind_ret. by exists b'.
Qed.

Lemma run_ops_holds ops : ∀ b M, holds PageSize PageAlignment ObjectAlignment this b M → Forall op_address ops →
  ∃ b', run_ops b ops = Ret b' ∧ holds PageSize PageAlignment ObjectAlignment this b' (fold_left set_op ops M).
Proof.
  induction ops as [|o ops IH]; intros b M Hh Ho; simpl; [by eexists|]. apply Forall_cons_1 in Ho as [Ho Hos].
  destruct (run_op_holds b M o Hh Ho) as (b1 & -> & Hh1). rewrite bind_ret. by apply IH.
Qed.

(** C25: A bitmap of objects is a set of addresses.  After any sequence of
    [SetBit], [ClearBit], [Clear] and [IterateAndClear] on a page of zeroed
    memory, with any size and alignment of page and objects that the constants of
    the class can hold, no access leaves the bitmap and no check fails; [CheckBit]
    says whether an address is in the set, and [Iterate] calls its callback with
    the addresses of the set, each once and in increasing order. *)
Theorem object_bitmap_refines_set (ops : list bitmap_op) :
  Forall op_address ops →
  let M := fold_left set_op ops ∅ in
  ∃ b, run_ops (replicate (Z.to_nat (kBitmapSize PageSize ObjectAlignment)) 0) ops = Ret b ∧
    (∀ x, object_start PageSize PageAlignment ObjectAlignment this x →
          CheckBit PageSize PageAlignment ObjectAlignment b x = Ret (bool_decide (x ∈ M))) ∧
    ∃ visited, Iterate PageSize PageAlignment ObjectAlignment this b = Ret visited ∧
      StronglySorted Z.lt visited ∧ ∀ x, x ∈ visited ↔ x ∈ M.
Proof.
  intros Ho M. destruct (run_ops_holds ops _ ∅ (zeros_hold _ _ _ _ G _ eq_refl) Ho) as (b & -> & Hh). exists b. split_and!; [done| |].
  - intros x Hx. by apply (CheckBit_ok _ _ _ _ G).
  - destruct (IterateImpl_ok _ _ _ _ G false b _ Hh) as (b' & visited & Hi & _ & Hs & Hx). exists visited.
    unfold Iterate. by rewrite Hi, bind_ret.
Qed.
End Programs.

(** ** Examples *)

Definition platform64 : Platform := {| kBitsPerSizeT := 64; kAlignment := 16; PartitionPageShift := 14; SystemPageSize := 4096 |}.

Lemma platform64_laws : PlatformLaws platform64.
Proof. split; simpl; [by right|by right|lia|done]. Qed.

(** A super page whose bitmap begins at its second system page. *)
Definition super_page : Z := 5 * 2 ^ 21.
Definition bitmap_this : Z := super_page + 4096.

Lemma super_page_geometry : geometry (P := platform64) (2 ^ 21) (2 ^ 21) 16 bitmap_this.
Proof. split; simpl; [lia|by exists 21|lia|vm_compute; split; congruence|vm_compute; congruence]. Qed.

Definition sample_calls : list bitmap_op :=
  [OpSet (super_page + 8192); OpSet (super_page + 1600); OpSet (super_page + 1616); OpClear (super_page + 1600); OpSet (super_page + 1632)].

Lemma object_bitmap_refines_set_witness :
  ∃ b visited, run_ops (P := platform64) (H := debug_build) (2 ^ 21) (2 ^ 21) 16 bitmap_this
      (replicate (Z.to_nat (kBitmapSize (P := platform64) (2 ^ 21) 16)) 0) sample_calls = Ret b ∧
    Iterate (P := platform64) (2 ^ 21) (2 ^ 21) 16 bitmap_this b = Ret visited ∧
    ∀ x, x ∈ visited ↔ x ∈ fold_left set_op sample_calls ∅.
Proof.
  assert (∀ n, (0 <=? n) && (16 * n <? 2 ^ 21) = true → object_start (P := platform64) (2 ^ 21) (2 ^ 21) 16 bitmap_this (super_page + 16 * n)) as Hstart.
  { intros n Hn. exists n. split; [done|]. lia. }
  destruct (object_bitmap_refines_set (PL := platform64_laws) (H := debug_build) (2 ^ 21) (2 ^ 21) 16 bitmap_this super_page_geometry sample_calls)
    as (b & Hb & _ & visited & Hv & _ & Hx).
  { repeat constructor; simpl; [apply (Hstart 512)|apply (Hstart 100)|apply (Hstart 101)|apply (Hstart 100)|apply (Hstart 102)]; reflexivity. }
  exists b, visited. split; [exact Hb|]. split; [exact Hv|exact Hx].
Defined.

(** [IterateAndClear] reads a cell and stores zero into it in two steps.  A mark
    that another thread sets in between is neither visited nor kept. *)
Example mark_lost_in_race :
  let P := platform64 in
  let x := super_page + 16 in
  (value ← LoadCell [0] 0;
   visited ← cell_loop 1024 16 super_page 64 0 value [];
   b ← SetBit (H := debug_build) 1024 1024 16 [0] x;
   b ← store b 0 0;
   set ← CheckBit (H := debug_build) 1024 1024 16 b x;
   Ret (visited, set)) = Ret ([], false).
Proof. vm_compute. reflexivity. Qed.
