(* ===== verification/CopyOnWriteBuffer.v ===== *)
(** * Copy-on-write buffers

    Model of [src/include/rtc_base/copy_on_write_buffer.h]: handles to slices of
    reference counted buffers ([FinalRefCountedObject<Buffer>]).  The store of
    objects is explicit, so that two handles on one object are two names of the
    same memory, and a pointer into an object dangles once the object is
    deleted.  The buffers are those of [Buffer] and the counter that of
    [RefCounted].  The members without a body in the header (among them
    [UnshareAndEnsureCapacity], through which every change of shared data goes)
    are the operations of the class [CompiledMembers]; what the header documents
    of them are the laws [CompiledLaws].

    The data given to [SetData] or a constructor is memory of its own; that of
    [AppendData] may lie in a buffer of the store, as in
    [AppendData(const CopyOnWriteBuffer&)]. *)

From stdpp Require Import gmap.
From S2P Require Import Prelude RefCounted SafeMinMax Buffer.

(** ** Objects and handles *)

(** [FinalRefCountedObject<Buffer>]. *)
Record RefCountedBuffer (E : Type) := mkObj { ref_count_ : Z; buf : BufferT E }.
Arguments mkObj {E} ref_count_ buf.
Arguments ref_count_ {E} r.
Arguments buf {E} r.

Record CopyOnWriteBuffer := mkCow { buffer_ : option positive; offset_ : Z; size_ : Z }.

Abbreviation store E := (gmap positive (RefCountedBuffer E)).

(** The memory a copy reads: outside of the store, or from a pointer into the
    data of an object. *)
Inductive source (E : Type) :=
| Outside (cells : block E)
| Inside (ptr : option (positive * Z)).
Arguments Outside {E} cells.
Arguments Inside {E} ptr.

(** The members declared without a body. *)
Class CompiledMembers (E : Type) := {
  UnshareAndEnsureCapacity : store E → CopyOnWriteBuffer → Z → outcome (store E * CopyOnWriteBuffer);
  CopyOnWriteBuffer_copy : store E → CopyOnWriteBuffer → outcome (store E * CopyOnWriteBuffer);
  CopyOnWriteBuffer_sized : store E → Z → Z → outcome (store E * CopyOnWriteBuffer);
  CopyOnWriteBuffer_destroy : store E → CopyOnWriteBuffer → outcome (store E)
}.

Section Code.
Context {bm : BuildMode} {tgt : Target} {E : Type} `{EqDecision E} {mem : Memory tgt E}.

(** [*p]; an object that was deleted is not there. *)
Definition deref (h : store E) (p : positive) : outcome (RefCountedBuffer E) :=
  from_option_or OutOfBounds (h !! p).

Definition AddRef (h : store E) (p : positive) : outcome (store E) :=
  o ← deref h p; Ret (<[p := mkObj (IncRef (ref_count_ o)) (buf o)]> h).

Definition Release (h : store E) (p : positive) : outcome (store E) :=
  o ← deref h p;
  '(count, status) ← DecRef (ref_count_ o);
  if bool_decide (status = kDroppedLastRef)
  then _ ← BufferT_destroy false (buf o); Ret (delete p h)
  else Ret (<[p := mkObj count (buf o)]> h).

Definition HasOneRef (h : store E) (p : positive) : outcome bool :=
  o ← deref h p; Ret (RefCounted.HasOneRef (ref_count_ o)).

Definition AddRef_opt (h : store E) (p : option positive) : outcome (store E) :=
  match p with Some p => AddRef h p | None => Ret h end.
Definition Release_opt (h : store E) (p : option positive) : outcome (store E) :=
  match p with Some p => Release h p | None => Ret h end.

(** [scoped_refptr::operator=(T* p)] on a pointer that was [ptr_]. *)
Definition assign_ptr (h : store E) (ptr_ p : option positive) : outcome (store E) :=
  h ← AddRef_opt h p; Release_opt h ptr_.

(** [new RefCountedBuffer(...)], before the first reference. *)
Definition new_object (h : store E) (b : BufferT E) : store E * positive :=
  let p := fresh (dom h) in (<[p := mkObj 0 b]> h, p).

Definition set_buffer (h : store E) (p : positive) (o : RefCountedBuffer E) (b : BufferT E) : store E :=
  <[p := mkObj (ref_count_ o) b]> h.

(** ** Accessors *)

Definition IsConsistent (h : store E) (v : CopyOnWriteBuffer) : outcome bool :=
  match buffer_ v with
  | Some p =>
      o ← deref h p;
      c ← Buffer.capacity (buf o);
      s ← Buffer.size (buf o);
      Ret ((c >? 0) && (offset_ v <=? s) && (to_size_t (offset_ v + size_ v) <=? s))
  | None => Ret ((size_ v =? 0) && (offset_ v =? 0))
  end.

(** [RTC_DCHECK(IsConsistent())]. *)
Definition check (h : store E) (v : CopyOnWriteBuffer) : outcome unit :=
  if RTC_DCHECK_IS_ON then c ← IsConsistent h v; RTC_DCHECK c else Ret tt.

Definition size (h : store E) (v : CopyOnWriteBuffer) : outcome Z :=
  _ ← check h v; Ret (size_ v).

Definition capacity (h : store E) (v : CopyOnWriteBuffer) : outcome Z :=
  _ ← check h v;
  match buffer_ v with
  | Some p => o ← deref h p; c ← Buffer.capacity (buf o); Ret (to_size_t (c - offset_ v))
  | None => Ret 0
  end.

(** [buffer_->data() + offset_]. *)
Definition data_at (h : store E) (v : CopyOnWriteBuffer) : outcome (option (positive * Z)) :=
  match buffer_ v with
  | Some p => o ← deref h p; _ ← Buffer.data (buf o); Ret (Some (p, offset_ v))
  | None => Ret None
  end.

Definition cdata (h : store E) (v : CopyOnWriteBuffer) : outcome (option (positive * Z)) :=
  _ ← check h v; data_at h v.

Definition read_ptr (h : store E) (ptr : option (positive * Z)) (index : Z) : outcome E :=
  match ptr with
  | None => Crash NullDeref
  | Some (p, off) => o ← deref h p; read_cell (data_ (buf o)) (off + index)
  end.

Definition write_ptr (h : store E) (ptr : option (positive * Z)) (index : Z) (x : E) : outcome (store E) :=
  match ptr with
  | None => Crash NullDeref
  | Some (p, off) =>
      o ← deref h p;
      match data_ (buf o) with
      | None => Crash NullDeref
      | Some d =>
          if off + index <? Z.of_nat (length d)
          then Ret (set_buffer h p o (mkBuffer (Buffer.size_ (buf o)) (capacity_ (buf o))
                                               (Some (<[Z.to_nat (off + index) := Some x]> d))))
          else Crash OutOfBounds
      end
  end.

(** [operator[]]. *)
Definition get_at (h : store E) (v : CopyOnWriteBuffer) (index : Z) : outcome E :=
  s ← size h v;
  _ ← RTC_DCHECK (index <? s);
  ptr ← cdata h v;
  read_ptr h ptr index.

(** ** Assignment and sharing *)

(** [operator=(const CopyOnWriteBuffer&)] and [SetData(const CopyOnWriteBuffer&)];
    [same] says that [buf] is the object itself. *)
Definition assign_copy (h : store E) (v buf : CopyOnWriteBuffer) (same : bool) : outcome (store E * CopyOnWriteBuffer) :=
  _ ← check h v;
  _ ← check h buf;
  if same then Ret (h, v) else
  h ← assign_ptr h (buffer_ v) (buffer_ buf);
  Ret (h, mkCow (buffer_ buf) (offset_ buf) (size_ buf)).

(** [operator=(CopyOnWriteBuffer&&)] on two objects: the temporary of
    [scoped_refptr]'s move assignment releases the old reference. *)
Definition assign_move (h : store E) (v buf : CopyOnWriteBuffer) : outcome (store E * CopyOnWriteBuffer * CopyOnWriteBuffer) :=
  _ ← check h v;
  _ ← check h buf;
  h ← Release_opt h (buffer_ v);
  Ret (h, mkCow (buffer_ buf) (offset_ buf) (size_ buf), mkCow None 0 0).

(** The same with [buf] the object itself: the pointer survives, the slice is
    reset. *)
Definition assign_move_self (h : store E) (v : CopyOnWriteBuffer) : outcome (store E * CopyOnWriteBuffer) :=
  _ ← check h v;
  _ ← check h v;
  Ret (h, mkCow (buffer_ v) 0 0).

Definition Slice (h : store E) `{CompiledMembers E} (v : CopyOnWriteBuffer) (offset length : Z) : outcome (store E * CopyOnWriteBuffer) :=
  '(h, slice) ← CopyOnWriteBuffer_copy h v;
  _ ← RTC_DCHECK (offset <=? size_ v);
  _ ← RTC_DCHECK (to_size_t (length + offset) <=? size_ v);
  Ret (h, mkCow (buffer_ slice) (to_size_t (offset_ slice + offset)) length).

(** The friend function [swap]. *)
Definition swap (a b : CopyOnWriteBuffer) : CopyOnWriteBuffer * CopyOnWriteBuffer :=
  (mkCow (buffer_ b) (offset_ b) (size_ b), mkCow (buffer_ a) (offset_ a) (size_ a)).

(** ** Contents *)

(** [buffer_ = new RefCountedBuffer(...)]. *)
Definition replace_buffer (h : store E) (v : CopyOnWriteBuffer) (b : BufferT E) : outcome (store E * option positive) :=
  let '(h, p) := new_object h b in
  h ← assign_ptr h (buffer_ v) (Some p);
  Ret (h, Some p).

Definition SetData (h : store E) (v : CopyOnWriteBuffer) (data : block E) (size : Z) : outcome (store E * CopyOnWriteBuffer) :=
  _ ← check h v;
  '(h, ptr) ←
    match buffer_ v with
    | None =>
        if size >? 0 then b ← BufferT_copy data size size; replace_buffer h v b
        else h ← assign_ptr h (buffer_ v) None; Ret (h, None)
    | Some p =>
        one ← HasOneRef h p;
        if negb one then
          c ← capacity h v;
          b ← BufferT_copy data size c;
          replace_buffer h v b
        else
          o ← deref h p;
          '(b, _) ← Buffer.SetData false (buf o) data size;
          Ret (set_buffer h p o b, Some p)
    end;
  let v := mkCow ptr 0 size in
  _ ← check h v;
  Ret (h, v).

(** The cells a copy of [n] elements reads from its source.  [grown] is an object
    whose data is reallocated before the copy. *)
Definition read_source (h : store E) (src : source E) (grown : option positive) (n : Z) : outcome (block E) :=
  if n =? 0 then Ret [] else
  match src with
  | Outside cells => Ret cells
  | Inside None => Crash NullDeref
  | Inside (Some (q, off)) =>
      if bool_decide (grown = Some q) then Crash OutOfBounds else
      o ← deref h q;
      Ret (take (Z.to_nat n) (drop (Z.to_nat off) (default [] (data_ (buf o)))))
  end.

(** [buffer_->SetSize(offset_ + size_); buffer_->AppendData(data, size);] on an
    object that is not shared. *)
Definition append_unshared (h : store E) (v : CopyOnWriteBuffer) (src : source E) (n : Z) : outcome (store E) :=
  match buffer_ v with
  | None => Crash NullDeref
  | Some p =>
      o ← deref h p;
      '(b, _) ← Buffer.SetSize false (buf o) (to_size_t (offset_ v + size_ v));
      let grown := if capacity_ (buf o) <? to_size_t (Buffer.size_ b + n) then Some p else None in
      cells ← read_source h src grown n;
      '(b, _) ← Buffer.AppendData false b cells n;
      Ret (set_buffer h p o b)
  end.

Definition AppendData `{CompiledMembers E} (h : store E) (v : CopyOnWriteBuffer) (src : source E) (size : Z) : outcome (store E * CopyOnWriteBuffer) :=
  _ ← check h v;
  match buffer_ v with
  | None =>
      cells ← read_source h src None size;
      b ← BufferT_copy cells size size;
      '(h, ptr) ← replace_buffer h v b;
      let v := mkCow ptr 0 size in
      _ ← check h v;
      Ret (h, v)
  | Some _ =>
      c ← capacity h v;
      '(h, v) ← UnshareAndEnsureCapacity h v (Z.max c (to_size_t (size_ v + size)));
      h ← append_unshared h v src size;
      let v := mkCow (buffer_ v) (offset_ v) (to_size_t (size_ v + size)) in
      _ ← check h v;
      Ret (h, v)
  end.

(** [AppendData(const CopyOnWriteBuffer& buf)]. *)
Definition AppendData_buffer `{CompiledMembers E} (h : store E) (v buf : CopyOnWriteBuffer) : outcome (store E * CopyOnWriteBuffer) :=
  data ← cdata h buf;
  n ← size h buf;
  AppendData h v (Inside data) n.

(** The pointer to the data of a handle that shares it with no other. *)
Definition MutableData `{CompiledMembers E} (h : store E) (v : CopyOnWriteBuffer) : outcome (store E * CopyOnWriteBuffer * option (positive * Z)) :=
  _ ← check h v;
  match buffer_ v with
  | None => Ret (h, v, None)
  | Some _ =>
      c ← capacity h v;
      '(h, v) ← UnshareAndEnsureCapacity h v c;
      ptr ← data_at h v;
      Ret (h, v, ptr)
  end.

(** [CopyOnWriteBuffer(data, size, capacity)]. *)
Definition CopyOnWriteBuffer_data `{CompiledMembers E} (h : store E) (data : block E) (size capacity : Z) : outcome (store E * CopyOnWriteBuffer) :=
  '(h, v) ← CopyOnWriteBuffer_sized h size capacity;
  match buffer_ v with
  | None => Ret (h, v)
  | Some p =>
      o ← deref h p;
      d ← Buffer.data (buf o);
      d ← memcpy d 0 data size;
      Ret (set_buffer h p o (mkBuffer (Buffer.size_ (buf o)) (capacity_ (buf o)) d), mkCow (Some p) 0 size)
  end.
End Code.

(** ** The store is kept in order

    [wf h hs]: the handles that exist are [hs].  Every object is counted exactly
    by the handles on it, and every handle is a slice of an object that exists. *)

Section Invariant.
Context {bm : BuildMode} {tgt : Target} {E : Type} `{EqDecision E} {mem : Memory tgt E}.
Implicit Types (h : store E) (v u : CopyOnWriteBuffer) (hs rest : list CopyOnWriteBuffer).

Definition on (p : positive) v : Prop := buffer_ v = Some p.

#[export] Instance on_dec p v : Decision (on p v).
Proof. unfold on. apply _. Defined.

Definition refs (p : positive) hs : nat := length (filter (on p) hs).

Definition good_buffer (b : BufferT E) : Prop := (∃ l, inv false b l) ∧ 0 < capacity_ b.

(** The slice of [v] lies in [b]. *)
Definition slice_of v (b : BufferT E) : Prop :=
  0 ≤ offset_ v ∧ 0 ≤ size_ v ∧ offset_ v + size_ v ≤ Buffer.size_ b.

Definition handle_ok h v : Prop :=
  match buffer_ v with
  | None => offset_ v = 0 ∧ size_ v = 0
  | Some p => ∃ o, h !! p = Some o ∧ slice_of v (buf o)
  end.

Definition object_ok hs (p : positive) (o : RefCountedBuffer E) : Prop :=
  ref_count_ o = Z.of_nat (refs p hs) ∧ (0 < refs p hs)%nat ∧ good_buffer (buf o).

Definition wf h hs : Prop := map_Forall (object_ok hs) h ∧ Forall (handle_ok h) hs.

Definition slice (b : BufferT E) v : block E := take (Z.to_nat (size_ v)) (drop (Z.to_nat (offset_ v)) (contents b)).

(** The bytes a handle stands for. *)
Definition value h v : block E :=
  match buffer_ v with
  | None => []
  | Some p => match h !! p with Some o => slice (buf o) v | None => [] end
  end.

Definition values_kept h h' hs : Prop := Forall (λ u, value h' u = value h u) hs.

#[export] Instance refs_proper p : Proper ((≡ₚ) ==> eq) (refs p).
Proof. intros hs hs' Hp. unfold refs. by rewrite Hp. Qed.

#[export] Instance wf_proper h : Proper ((≡ₚ) ==> iff) (wf h).
Proof.
  intros hs hs' Hp.
  assert (∀ p o, object_ok hs p o ↔ object_ok hs' p o) as Ho by (intros p o; unfold object_ok; by rewrite Hp).
  assert (Forall (handle_ok h) hs ↔ Forall (handle_ok h) hs') as Hf by by rewrite Hp.
  unfold wf. rewrite Hf. split; (intros [H1 H2]; split; [|done]); intros p o Hl; apply Ho; by apply H1.
Qed.

Lemma refs_cons p v hs : refs p (v :: hs) = if decide (on p v) then S (refs p hs) else refs p hs.
Proof. unfold refs. rewrite filter_cons. by destruct (decide (on p v)). Qed.

Lemma refs_length p hs : (refs p hs ≤ length hs)%nat.
Proof. apply length_filter. Qed.

Lemma refs_0 p hs v : refs p hs = O → v ∈ hs → buffer_ v ≠ Some p.
Proof.
  unfold refs. intros Hr%nil_length_inv Hv Hon.
  assert (v ∈ filter (on p) hs) as Hin by by apply list_elem_of_filter. rewrite Hr in Hin. by apply not_elem_of_nil in Hin.
Qed.

(** Two stores that agree on the object of a handle agree on the handle. *)
Lemma handle_same h h' v :
  (∀ p o, buffer_ v = Some p → h !! p = Some o → ∃ o', h' !! p = Some o' ∧ buf o' = buf o) →
  handle_ok h v → handle_ok h' v ∧ value h' v = value h v.
Proof.
  unfold handle_ok, value. intros Hsame Hok. destruct (buffer_ v) as [p|]; [|done].
  destruct Hok as (o & Hl & Hs). destruct (Hsame p o eq_refl Hl) as (o' & Hl' & Hb). rewrite Hl, Hl', Hb.
  split; [|done]. exists o'. by rewrite Hb.
Qed.

Lemma handles_same h h' hs :
  Forall (handle_ok h) hs →
  (∀ v p o, v ∈ hs → buffer_ v = Some p → h !! p = Some o → ∃ o', h' !! p = Some o' ∧ buf o' = buf o) →
  Forall (handle_ok h') hs ∧ values_kept h h' hs.
Proof.
  intros Hok Hsame. unfold values_kept. rewrite !List.Forall_forall in *.
  split; intros v Hv; (destruct (handle_same h h' v); [|by apply Hok|done]); intros p o; apply Hsame; by apply list_elem_of_In.
Qed.

Lemma slice_length b v : good_buffer b → slice_of v b → length (slice b v) = Z.to_nat (size_ v).
Proof.
  intros [[l Hi] _] (H0 & H1 & H2). unfold slice. rewrite (inv_contents _ _ _ Hi).
  pose proof (inv_size _ _ _ Hi). rewrite length_take, length_drop. lia.
Qed.

Lemma good_consistent b : good_buffer b → Buffer.IsConsistent b = true.
Proof. intros [[l (s & Hr & _)] _]. by eapply rep_consistent. Qed.

Lemma good_bounds b : good_buffer b → 0 ≤ Buffer.size_ b ≤ capacity_ b ∧ capacity_ b ≤ max_elems.
Proof. intros [[l (s & (-> & -> & Hm & _) & _)] _]. lia. Qed.

(** The debug checks of the class pass on every handle. *)
Lemma check_ok h hs v : wf h hs → handle_ok h v → check h v = Ret tt.
Proof.
  intros [Hw _] Hok. unfold check, IsConsistent, handle_ok in *. destruct RTC_DCHECK_IS_ON; [|done].
  destruct (buffer_ v) as [p|].
  - destruct Hok as (o & Hl & H0 & H1 & H2). destruct (Hw p o Hl) as (_ & _ & Hg). unfold deref. rewrite Hl. simpl.
    unfold Buffer.capacity, Buffer.size. rewrite (good_consistent _ Hg). rewrite !dcheck_pass, !bind_ret by done.
    pose proof (good_bounds _ Hg). rewrite to_size_t_small by lia. destruct Hg as [_ Hc].
    replace (_ && _ && _) with true by bool_solve. by apply dcheck_pass.
  - destruct Hok as [-> ->]. simpl. by apply dcheck_pass.
Qed.

(** ** References *)

Lemma inc_count n : Z.of_nat n + 1 < 2 ^ 31 → IncRef (Z.of_nat n) = Z.of_nat (S n).
Proof. intros. unfold IncRef. rewrite convert_in_range; [lia|done|]. unfold values, int_min, int_max; simpl. lia. Qed.

Lemma dec_count n : Z.of_nat (S n) < 2 ^ 31 →
  DecRef (Z.of_nat (S n)) = Ret (Z.of_nat n, if (n =? 0)%nat then kDroppedLastRef else kOtherRefsRemained).
Proof.
  intros. unfold DecRef. rewrite arith_in_range; [|done|unfold values, int_min, int_max; simpl; lia].
  rewrite bind_ret, convert_in_range; [|done|unfold values, int_min, int_max; simpl; lia].
  replace (Z.of_nat (S n) - 1) with (Z.of_nat n) by lia. by destruct n.
Qed.

(** One more handle on an object that exists. *)
Lemma AddRef_wf h hs u :
  wf h hs → handle_ok h u → Z.of_nat (S (length hs)) < 2 ^ 31 →
  ∃ h', AddRef_opt h (buffer_ u) = Ret h' ∧ wf h' (u :: hs) ∧ value h' u = value h u ∧ values_kept h h' hs.
Proof.
  intros [Hw Hh] Hu Hb. unfold AddRef_opt, AddRef. destruct (buffer_ u) as [p|] eqn:Eu.
  - pose proof Hu as Hu'. unfold handle_ok in Hu. rewrite Eu in Hu. destruct Hu as (o & Hl & Hs).
    destruct (Hw p o Hl) as (Hc & Hpos & Hg). unfold deref. rewrite Hl. simpl. eexists. split; [done|].
    pose proof (refs_length p hs). rewrite Hc, inc_count by lia.
    set (h' := <[p := _]> h).
    assert (∀ q o1, h !! q = Some o1 → ∃ o', h' !! q = Some o' ∧ buf o' = buf o1) as Hsame.
    { intros q o1 Hq. destruct (decide (p = q)) as [<-|]; unfold h'; [rewrite lookup_insert_eq|rewrite lookup_insert_ne by done]; [|by eexists].
      eexists. split; [done|]. simpl. congruence. }
    destruct (handle_same h h' u) as [Hu1 Hu2]; [naive_solver|done|].
    destruct (handles_same h h' hs) as [Hh1 Hh2]; [done|naive_solver|].
    split; [|by split]. split; [|by constructor].
    intros q o1. unfold h', object_ok. rewrite lookup_insert_Some, refs_cons. intros [[<- <-]|[Hne Hq]].
    + rewrite decide_True by done. simpl. split_and!; [done|lia|done].
    + destruct (Hw q o1 Hq) as (? & ? & ?). rewrite decide_False by (unfold on; congruence). done.
  - exists h. split_and!; [done| |done|by apply Forall_true]. split; [|by constructor].
    intros q o Hq. destruct (Hw q o Hq) as (? & ? & ?). unfold object_ok. rewrite refs_cons, decide_False by (unfold on; congruence). done.
Qed.

(** A handle goes. *)
Lemma Release_wf h v rest :
  wf h (v :: rest) → Z.of_nat (S (length rest)) < 2 ^ 31 →
  ∃ h', Release_opt h (buffer_ v) = Ret h' ∧ wf h' rest ∧ values_kept h h' rest ∧
        ∀ q, buffer_ v ≠ Some q → h' !! q = h !! q.
Proof.
  intros [Hw Hh] Hb. pose proof (Forall_inv Hh) as Hv. apply Forall_inv_tail in Hh.
  unfold Release_opt, Release, handle_ok in *. destruct (buffer_ v) as [p|] eqn:Ev.
  - destruct Hv as (o & Hl & Hs). destruct (Hw p o Hl) as (Hc & Hpos & Hg). unfold deref. rewrite Hl. cbn [from_option_or]. rewrite bind_ret.
    rewrite refs_cons, decide_True in Hc by done. rewrite Hc. pose proof (refs_length p rest).
    rewrite dec_count, bind_ret by lia.
    destruct (refs p rest) as [|n] eqn:En; cbn [Nat.eqb]; rewrite ?bool_decide_true, ?bool_decide_false by done.
    + destruct Hg as [[l Hi] _]. destruct (destroy_zeroed false (buf o) l Hi) as (fr & -> & _).
      exists (delete p h). split; [done|].
      destruct (handles_same h (delete p h) rest Hh) as [H1 H2].
      { intros u q o1 Hu Hq Hl1. pose proof (refs_0 p rest u En Hu). exists o1. by rewrite lookup_delete_ne by congruence. }
      split_and!; [split; [|done]|done|intros q Hq; rewrite lookup_delete_ne; [done|congruence]].
      intros q o1 [Hne Hq]%lookup_delete_Some. destruct (Hw q o1 Hq) as (H3 & H4 & H5).
      rewrite refs_cons, decide_False in H3, H4 by (unfold on; congruence). done.
    + eexists. split; [done|]. set (h' := <[p := _]> h).
      destruct (handles_same h h' rest Hh) as [H1 H2].
      { intros u q o1 Hu Hq Hl1. unfold h'. destruct (decide (p = q)) as [<-|]; [rewrite lookup_insert_eq|rewrite lookup_insert_ne by done; by eexists].
        eexists. split; [done|]. simpl. congruence. }
      split_and!; [split; [|done]|done|intros q Hq; unfold h'; rewrite lookup_insert_ne; [done|congruence]].
      intros q o1. unfold h'. rewrite lookup_insert_Some. intros [[<- <-]|[Hne Hq]].
      * unfold object_ok. rewrite En. simpl. split_and!; [done|lia|done].
      * destruct (Hw q o1 Hq) as (H3 & H4 & H5). rewrite refs_cons, decide_False in H3, H4 by (unfold on; congruence). done.
  - exists h. split_and!; [done| |by apply Forall_true|done]. split; [|done].
    intros q o Hq. destruct (Hw q o Hq) as (H3 & H4 & H5). rewrite refs_cons, decide_False in H3, H4 by (unfold on; congruence). done.
Qed.

(** A handle on a new object. *)
Lemma new_wf h hs q b u :
  wf h hs → h !! q = None → good_buffer b → buffer_ u = Some q → slice_of u b →
  wf (<[q := mkObj 1 b]> h) (u :: hs) ∧ values_kept h (<[q := mkObj 1 b]> h) hs ∧
  value (<[q := mkObj 1 b]> h) u = slice b u.
Proof.
  intros [Hw Hh] Hq Hg Hu Hs. set (h' := <[q := _]> h).
  assert (∀ v p o, v ∈ hs → buffer_ v = Some p → h !! p = Some o → h' !! p = Some o) as Hsame.
  { intros v p o _ _ Hp. unfold h'. rewrite lookup_insert_ne; [done|congruence]. }
  destruct (handles_same h h' hs Hh) as [H1 H2]; [intros; eexists; eauto|].
  assert (refs q hs = O) as H0.
  { unfold refs.
    destruct (filter (on q) hs) as [|v l] eqn:Ef; [done|]. exfalso.
    assert (v ∈ filter (on q) hs) as [Hon Hv]%list_elem_of_filter by (rewrite Ef; left).
    rewrite List.Forall_forall in Hh. specialize (Hh v (proj1 (list_elem_of_In _ _) Hv)). unfold handle_ok in Hh.
    rewrite Hon in Hh. destruct Hh as (o & Ho & _). congruence. }
  split_and!; [|done|].
  - split.
    + intros p o. unfold h', object_ok. rewrite lookup_insert_Some, refs_cons. intros [[<- <-]|[Hne Hp]].
      * rewrite decide_True, H0 by done. simpl. split_and!; [done|lia|done].
      * rewrite decide_False by (unfold on; congruence). by apply Hw.
    + constructor; [|done]. unfold handle_ok. rewrite Hu. unfold h'. rewrite lookup_insert_eq. by eexists.
  - unfold value. rewrite Hu. unfold h'. by rewrite lookup_insert_eq.
Qed.

(** The buffer of an object with one handle changes. *)
Lemma update_wf h rest v v' p o b :
  wf h (v :: rest) → buffer_ v = Some p → h !! p = Some o → ref_count_ o = 1 →
  good_buffer b → buffer_ v' = Some p → slice_of v' b →
  wf (set_buffer h p o b) (v' :: rest) ∧ values_kept h (set_buffer h p o b) rest ∧
  value (set_buffer h p o b) v' = slice b v'.
Proof.
  intros [Hw Hh] Hv Hp H1 Hg Hv' Hs. unfold set_buffer. set (h' := <[p := _]> h).
  assert (refs p rest = O) as H0.
  { destruct (Hw p o Hp) as (Hc & _). rewrite refs_cons, decide_True in Hc by done. lia. }
  apply Forall_inv_tail in Hh. destruct (handles_same h h' rest Hh) as [H2 H3].
  { intros u q o1 Hu Hq Hl. exists o1. unfold h'. rewrite lookup_insert_ne; [done|].
    intros <-. by apply (refs_0 p rest u). }
  split_and!; [|done|].
  - split.
    + intros q o1. unfold h', object_ok. rewrite lookup_insert_Some, refs_cons. intros [[<- <-]|[Hne Hq]].
      * rewrite decide_True, H0 by done. simpl. split_and!; [done|lia|done].
      * destruct (Hw q o1 Hq) as (H5 & H6 & H7). rewrite refs_cons, decide_False in H5, H6 by (unfold on; congruence).
        rewrite decide_False by (unfold on; congruence). done.
    + constructor; [|done]. unfold handle_ok. rewrite Hv'. unfold h'. rewrite lookup_insert_eq. by eexists.
  - unfold value. rewrite Hv'. unfold h'. by rewrite lookup_insert_eq.
Qed.

Lemma values_kept_trans h1 h2 h3 hs : values_kept h1 h2 hs → values_kept h2 h3 hs → values_kept h1 h3 hs.
Proof. unfold values_kept. rewrite !List.Forall_forall. intros H1 H2 u Hu. by rewrite H2, H1. Qed.

Lemma values_kept_refl h hs : values_kept h h hs.
Proof. by apply Forall_true. Qed.

(** A new object takes the place of the one a handle is on. *)
Lemma replace_object h rest v q b u :
  wf h (v :: rest) → Z.of_nat (S (S (length rest))) < 2 ^ 31 → h !! q = None → good_buffer b →
  buffer_ u = Some q → slice_of u b →
  ∃ h', assign_ptr (<[q := mkObj 0 b]> h) (buffer_ v) (Some q) = Ret h' ∧
        wf h' (u :: rest) ∧ values_kept h h' rest ∧ value h' u = slice b u ∧
        h' !! q = Some (mkObj 1 b).
Proof.
  intros Hw Hb Hq Hg Hu Hs. destruct (new_wf h (v :: rest) q b u) as (H1 & H2 & H3); [done..|].
  unfold assign_ptr. simpl. unfold AddRef, deref. rewrite lookup_insert_eq. simpl. rewrite insert_insert_eq.
  change (IncRef 0) with 1. rewrite Permutation_swap in H1.
  destruct (Release_wf _ v (u :: rest) H1) as (h' & Hr & Hw' & Hk & Hl); [simpl; lia|].
  exists h'. split; [done|]. pose proof (Forall_inv Hk) as Hku. simpl in Hku. apply Forall_inv_tail in Hk.
  split_and!; [done| |congruence|].
  - eapply values_kept_trans; [exact (Forall_inv_tail H2)|done].
  - rewrite Hl; [apply lookup_insert_eq|]. intros Hv. destruct Hw as [_ Hh]. apply Forall_inv in Hh.
    unfold handle_ok in Hh. rewrite Hv in Hh. destruct Hh as (o & Ho & _). congruence.
Qed.

(** ** The members without a body

    What the header says of them: [UnshareAndEnsureCapacity] copies the data of a
    handle to an object of its own if other handles refer to it or the capacity
    does not suffice, and does nothing otherwise; the copy constructor shares; the
    constructor with sizes makes that many bytes without a value; the destructor
    gives the reference back. *)

Class CompiledLaws {cm : CompiledMembers E} : Prop := {
  unshare_law h rest v p o n :
    wf h (v :: rest) → buffer_ v = Some p → h !! p = Some o → size_ v ≤ n → 0 < n ≤ max_elems →
    if bool_decide (ref_count_ o = 1 ∧ n ≤ capacity_ (buf o) - offset_ v)
    then UnshareAndEnsureCapacity h v n = Ret (h, v)
    else ∃ q b u, h !! q = None ∧ good_buffer b ∧ buffer_ u = Some q ∧ slice_of u b ∧ size_ u = size_ v ∧
           offset_ u + n ≤ capacity_ b ∧ slice b u = value h v ∧
           UnshareAndEnsureCapacity h v n = (h' ← assign_ptr (<[q := mkObj 0 b]> h) (Some p) (Some q); Ret (h', u));
  copy_law h hs v :
    wf h hs → handle_ok h v → CopyOnWriteBuffer_copy h v = (h' ← AddRef_opt h (buffer_ v); Ret (h', v));
  sized_law h hs n c :
    wf h hs → 0 ≤ n ≤ max_elems → 0 ≤ c ≤ max_elems →
    (n = 0 ∧ CopyOnWriteBuffer_sized h n c = Ret (h, mkCow None 0 0)) ∨
    ∃ q b u, h !! q = None ∧ good_buffer b ∧ buffer_ u = Some q ∧ slice_of u b ∧ size_ u = n ∧
      CopyOnWriteBuffer_sized h n c = Ret (<[q := mkObj 1 b]> h, u);
  destroy_law h hs v :
    wf h (v :: hs) → CopyOnWriteBuffer_destroy h v = Release_opt h (buffer_ v)
}.

(** [res] makes of a handle one that stands for [l], the others being as before. *)
Definition step_ok h rest (res : outcome (store E * CopyOnWriteBuffer)) (l : block E) : Prop :=
  ∃ h' v', res = Ret (h', v') ∧ wf h' (v' :: rest) ∧ values_kept h h' rest ∧ value h' v' = l.

(** ** Buffers with room *)

Lemma good_rep b : good_buffer b → ∃ l s, rep b l s ∧ data_ b = Some (l ++ s) ∧ contents b = l.
Proof.
  intros [[l (s & Hr & Hcl)] Hc]. exists l, s. split; [done|]. pose proof Hr as (Hs & Hc' & _ & Hd).
  split; [|apply (inv_contents false); by exists s].
  destruct (data_ b); [by subst|]. destruct Hd as [-> ->]. simpl in Hc'. lia.
Qed.

Lemma rep_good b l s : rep b l s → 0 < capacity_ b → good_buffer b ∧ contents b = l.
Proof.
  intros Hr Hc. assert (inv false b l) as Hi by by exists s. split; [|by apply (inv_contents false)].
  split; [by exists l|done].
Qed.

Lemma SetSize_room b n : Buffer.IsConsistent b = true → 0 ≤ n ≤ capacity_ b →
  Buffer.SetSize false b n = Ret (mkBuffer n (capacity_ b) (data_ b), []).
Proof.
  intros Hc Hn. unfold SetSize, EnsureCapacityWithHeadroom. rewrite Hc, dcheck_pass, bind_ret by done.
  by rewrite (proj2 (Z.leb_le _ _)), bind_ret by lia.
Qed.

Lemma AppendData_room b l s (src : block E) : rep b l s → data_ b = Some (l ++ s) → (length src ≤ length s)%nat →
  ∃ b' s', Buffer.AppendData false b src (Z.of_nat (length src)) = Ret (b', []) ∧ rep b' (l ++ src) s' ∧
        capacity_ b' = capacity_ b.
Proof.
  intros Hr Hd Hlen. pose proof Hr as (Hs & Hc & Hm & _). unfold Buffer.AppendData, EnsureCapacityWithHeadroom.
  rewrite (rep_consistent _ _ _ Hr), !dcheck_pass, !bind_ret by done.
  rewrite to_size_t_small, (proj2 (Z.leb_le _ _)), bind_ret by lia.
  rewrite Hd, Hs, memcpy_tail, bind_ret, firstn_all by lia.
  assert (rep (mkBuffer (Z.of_nat (length l) + Z.of_nat (length src)) (capacity_ b) (Some (l ++ src ++ drop (length src) s)))
              (l ++ src) (drop (length src) s)) as Hr'.
  { split_and!; simpl; rewrite ?length_app, ?length_drop, <-?app_assoc; done || lia. }
  rewrite (rep_consistent _ _ _ Hr'), dcheck_pass, bind_ret by done. by eexists _, _.
Qed.

Lemma SetData_good b (src : block E) : good_buffer b → size_ok (Z.of_nat (length src)) →
  ∃ b' fr, Buffer.SetData false b src (Z.of_nat (length src)) = Ret (b', fr) ∧ good_buffer b' ∧ contents b' = src.
Proof.
  intros Hg Hok. destruct (good_rep b Hg) as (l & s & Hr & _). pose proof (rep_shrink b l s 0 Hr ltac:(lia)) as Hr0.
  destruct (AppendData_ok false _ _ _ src Hr0) as (b' & s' & fr & E1 & Hr' & _ & Hcase); [done|].
  exists b', fr. unfold Buffer.SetData. rewrite (rep_consistent _ _ _ Hr), dcheck_pass, bind_ret by done.
  change (Z.of_nat 0) with 0 in E1. rewrite E1, bind_ret. split; [done|].
  apply (rep_good _ _ s'); [done|]. destruct Hg as [_ Hc]. pose proof (Z.div_pos (capacity_ b) 2). simpl in Hcase. lia.
Qed.

(** The cells a handle stands for are those at its pointer. *)
Lemma slice_data b v d : good_buffer b → slice_of v b → data_ b = Some d →
  take (Z.to_nat (size_ v)) (drop (Z.to_nat (offset_ v)) d) = slice b v.
Proof.
  intros Hg (H0 & H1 & H2) Hd. destruct (good_rep b Hg) as (l & s & (Hs & _) & Hd' & Hl). unfold slice. rewrite Hl.
  assert (d = l ++ s) as -> by congruence. rewrite drop_app_le, take_app_le by (rewrite ?length_drop; lia). done.
Qed.

(** ** Triples of the members *)

Context {cm : CompiledMembers E} {laws : CompiledLaws}.

Lemma unshare_ok h rest v p o n :
  wf h (v :: rest) → Z.of_nat (S (S (length rest))) < 2 ^ 31 → buffer_ v = Some p → h !! p = Some o →
  size_ v ≤ n → 0 < n ≤ max_elems →
  ∃ h' u q o', UnshareAndEnsureCapacity h v n = Ret (h', u) ∧ wf h' (u :: rest) ∧ values_kept h h' rest ∧
    value h' u = value h v ∧ buffer_ u = Some q ∧ h' !! q = Some o' ∧ ref_count_ o' = 1 ∧
    size_ u = size_ v ∧ offset_ u + n ≤ capacity_ (buf o').
Proof.
  intros Hw Hb Hv Hp Hn Hm. pose proof (unshare_law h rest v p o n Hw Hv Hp Hn Hm) as Hlaw.
  case_bool_decide as Hd.
  - destruct Hd. rewrite Hlaw. exists h, v, p, o. split_and!; try done; [apply values_kept_refl|lia].
  - destruct Hlaw as (q & b & u & Hq & Hg & Hu & Hs & Hsz & Hc & Hval & ->).
    destruct (replace_object h rest v q b u Hw Hb Hq Hg Hu Hs) as (h' & Ha & Hw' & Hk & Hvu & Hl).
    rewrite Hv in Ha. rewrite Ha, bind_ret. exists h', u, q, (mkObj 1 b). split_and!; try done. congruence.
Qed.

Lemma capacity_ok h hs v p o : wf h hs → handle_ok h v → buffer_ v = Some p → h !! p = Some o →
  capacity h v = Ret (capacity_ (buf o) - offset_ v).
Proof.
  intros Hw Hv Hp Ho. unfold capacity. rewrite (check_ok h hs v), bind_ret, Hp by done. unfold deref. rewrite Ho.
  cbn [from_option_or]. rewrite bind_ret. destruct Hw as [Hw _]. destruct (Hw p o Ho) as (_ & _ & Hg).
  unfold Buffer.capacity. rewrite (good_consistent _ Hg), dcheck_pass, !bind_ret by done.
  unfold handle_ok in Hv. rewrite Hp in Hv. destruct Hv as (o' & Ho' & H0 & H1 & H2). simplify_eq.
  pose proof (good_bounds _ Hg). by rewrite to_size_t_small by lia.
Qed.

Lemma append_unshared_ok h rest v p o src (cells : block E) :
  wf h (v :: rest) → buffer_ v = Some p → h !! p = Some o → ref_count_ o = 1 →
  offset_ v + size_ v + Z.of_nat (length cells) ≤ capacity_ (buf o) →
  read_source h src None (Z.of_nat (length cells)) = Ret cells →
  ∃ h', append_unshared h v src (Z.of_nat (length cells)) = Ret h' ∧
    let v' := mkCow (Some p) (offset_ v) (size_ v + Z.of_nat (length cells)) in
    wf h' (v' :: rest) ∧ values_kept h h' rest ∧ value h' v' = value h v ++ cells.
Proof.
  intros Hw Hv Hp H1 Hcap Hread. pose proof Hw as [Hobj Hh]. destruct (Hobj p o Hp) as (_ & _ & Hg).
  apply Forall_inv in Hh. unfold handle_ok in Hh. rewrite Hv in Hh. destruct Hh as (o' & Hp' & H2 & H3 & H4). simplify_eq.
  destruct (good_rep _ Hg) as (l & s & Hr & Hd & Hl). pose proof (good_bounds _ Hg). pose proof Hr as (Hs & Hc & _).
  unfold append_unshared, deref. rewrite Hv, Hp. cbn [from_option_or]. rewrite bind_ret, to_size_t_small by lia.
  rewrite SetSize_room, bind_ret by (by apply good_consistent || lia). cbn [Buffer.size_].
  rewrite to_size_t_small, (proj2 (Z.ltb_ge _ _)), Hread, bind_ret by lia.
  set (m := Z.to_nat (offset_ v + size_ v)). pose proof (rep_shrink _ l s m Hr ltac:(lia)) as Hr1.
  replace (Z.of_nat m) with (offset_ v + size_ v) in Hr1 by lia.
  destruct (AppendData_room _ (take m l) (drop m l ++ s) cells Hr1) as (b' & s' & -> & Hr2 & Hc2).
  { simpl. by rewrite app_assoc, take_drop. } { rewrite length_app, length_drop. lia. }
  rewrite bind_ret. simpl in Hc2. destruct (rep_good _ _ _ Hr2) as [Hg2 Hcont]; [by rewrite Hc2; apply Hg|]. destruct Hr2 as (Hs2 & _).
  rewrite length_app, length_take in Hs2.
  destruct (update_wf h rest v (mkCow (Some p) (offset_ v) (size_ v + Z.of_nat (length cells))) p o b') as (Ha & Hb & Hval); try done.
  { split_and!; simpl; lia. }
  eexists. split; [done|]. split_and!; [done|done|]. rewrite Hval. unfold value. rewrite Hv, Hp. unfold slice. rewrite Hl, Hcont. simpl.
  rewrite drop_app_le by (rewrite length_take; lia).
  rewrite take_drop_commute, take_ge by (rewrite length_app, length_drop, length_take; lia).
  do 3 f_equal. lia.
Qed.

Lemma copy_good (src : block E) c :
  Z.of_nat (length src) ≤ max_elems → c ≤ max_elems → 0 < Z.max (Z.of_nat (length src)) c →
  ∃ b, BufferT_copy src (Z.of_nat (length src)) c = Ret b ∧ good_buffer b ∧ contents b = src ∧
       Buffer.size_ b = Z.of_nat (length src).
Proof.
  intros Hn Hc Hpos. destruct (copy_inv false src c Hn Hc) as (b & -> & Hi & Hge). exists b. split; [done|].
  pose proof (inv_size _ _ _ Hi) as Hs. split_and!; [|by apply (inv_contents false)|done].
  split; [by eexists|]. destruct Hi as (s & (_ & Hc' & _) & _). lia.
Qed.

Lemma replace_buffer_ok h rest v b n :
  wf h (v :: rest) → Z.of_nat (S (S (length rest))) < 2 ^ 31 → good_buffer b → 0 ≤ n ≤ Buffer.size_ b →
  ∃ h' q, replace_buffer h v b = Ret (h', Some q) ∧ wf h' (mkCow (Some q) 0 n :: rest) ∧
          values_kept h h' rest ∧ value h' (mkCow (Some q) 0 n) = take (Z.to_nat n) (contents b).
Proof.
  intros Hw Hb Hg Hn. unfold replace_buffer, new_object. set (q := fresh (dom h)).
  destruct (replace_object h rest v q b (mkCow (Some q) 0 n)) as (h' & -> & H1 & H2 & H3 & _); try done.
  { apply not_elem_of_dom, is_fresh. }
  exists h', q. split_and!; try done.
Qed.

Lemma wf_head h v rest : wf h (v :: rest) → handle_ok h v.
Proof. intros [_ Hh]. exact (Forall_inv Hh). Qed.

Lemma wf_object h v rest p : wf h (v :: rest) → buffer_ v = Some p →
  ∃ o, h !! p = Some o ∧ slice_of v (buf o) ∧ good_buffer (buf o) ∧ ref_count_ o = Z.of_nat (refs p (v :: rest)).
Proof.
  intros Hw Hv. pose proof (wf_head _ _ _ Hw) as Hh. unfold handle_ok in Hh. rewrite Hv in Hh. destruct Hh as (o & Ho & Hs).
  destruct Hw as [Hobj _]. destruct (Hobj p o Ho) as (Hc & _ & Hg). by exists o.
Qed.

Lemma null_wf h v rest : wf h (v :: rest) → buffer_ v = None → v = mkCow None 0 0.
Proof.
  intros Hw Hv. pose proof (wf_head _ _ _ Hw) as Hh. unfold handle_ok in Hh. rewrite Hv in Hh.
  destruct v as [b off n]; simpl in *. destruct Hh as [-> ->]. by subst.
Qed.

(** [SetData] gives the handle new contents.  With no data at all there must be a
    reason why the object has capacity. *)
Lemma SetData_ok h rest v (src : block E) :
  wf h (v :: rest) → Z.of_nat (S (S (length rest))) < 2 ^ 31 → size_ok (Z.of_nat (length src)) →
  (src ≠ [] ∨ buffer_ v = None ∨ 0 < size_ v) →
  step_ok h rest (SetData h v src (Z.of_nat (length src))) src.
Proof.
  intros Hw Hb Hok Hne. unfold SetData. pose proof (wf_head _ _ _ Hw) as Hh. rewrite (check_ok h (v :: rest) v), bind_ret by done.
  assert (Z.of_nat (length src) ≤ max_elems) as Hle.
  { destruct Hok as [? Hok]. pose proof (Z.div_pos (Z.of_nat (length src)) 2). lia. }
  assert (∀ h' ptr, wf h' (mkCow ptr 0 (Z.of_nat (length src)) :: rest) → values_kept h h' rest →
     value h' (mkCow ptr 0 (Z.of_nat (length src))) = src →
     step_ok h rest (_ ← check h' (mkCow ptr 0 (Z.of_nat (length src))); Ret (h', mkCow ptr 0 (Z.of_nat (length src)))) src) as Hend.
  { intros h' ptr H1 H2 H3. pose proof (wf_head _ _ _ H1). rewrite (check_ok h' (mkCow ptr 0 (Z.of_nat (length src)) :: rest)), bind_ret by done. by eexists _, _. }
  destruct (buffer_ v) as [p|] eqn:Ev.
  - destruct (wf_object h v rest p Hw Ev) as (o & Ho & Hs & Hg & Hc). unfold HasOneRef, deref. rewrite Ho. cbn [from_option_or].
    rewrite !bind_ret. unfold RefCounted.HasOneRef. destruct (Z.eqb_spec (ref_count_ o) 1) as [H1|H1]; cbn [negb].
    + destruct (SetData_good (buf o) src Hg Hok) as (b & fr & -> & Hg' & Hcont). rewrite !bind_ret.
      assert (Buffer.size_ b = Z.of_nat (length src)) as Hsz.
      { destruct (good_rep b Hg') as (l & s & (-> & _) & _ & <-). by rewrite Hcont. }
      destruct (update_wf h rest v (mkCow (Some p) 0 (Z.of_nat (length src))) p o b) as (H2 & H3 & H4); try done.
      { split_and!; simpl; lia. }
      apply Hend; [done..|]. rewrite H4. unfold slice. simpl. by rewrite Hcont, Nat2Z.id, drop_0, firstn_all.
    + rewrite (capacity_ok h (v :: rest) v p o), bind_ret by done. pose proof (good_bounds _ Hg).
      destruct Hs as (Hs0 & Hs1 & Hs2).
      destruct (copy_good src (capacity_ (buf o) - offset_ v)) as (b & -> & Hg' & Hcont & Hsz); [done|lia| |].
      { destruct Hne as [Hne|[?|?]]; [|done|lia]. destruct src; [done|simpl; lia]. }
      rewrite bind_ret. destruct (replace_buffer_ok h rest v b (Z.of_nat (length src))) as (h' & q & -> & H2 & H3 & H4); [done..|lia|].
      rewrite bind_ret. apply Hend; [done..|]. by rewrite H4, Hcont, Nat2Z.id, firstn_all.
  - destruct (Z.gtb_spec (Z.of_nat (length src)) 0) as [Hpos|Hpos].
    + destruct (copy_good src (Z.of_nat (length src))) as (b & -> & Hg' & Hcont & Hsz); [lia..|]. rewrite bind_ret.
      destruct (replace_buffer_ok h rest v b (Z.of_nat (length src))) as (h' & q & -> & H2 & H3 & H4); [done..|lia|].
      rewrite bind_ret. apply Hend; [done..|]. by rewrite H4, Hcont, Nat2Z.id, firstn_all.
    + destruct src; [|simpl in Hpos; lia]. apply (Hend h None); [|apply values_kept_refl|done]. rewrite (null_wf h v rest Hw Ev) in Hw. exact Hw.
Qed.

(** A source that reads as [cells] in every store the handles [rest] keep. *)
Definition source_gives h rest (src : source E) (cells : block E) : Prop :=
  ∀ h' u, wf h' (u :: rest) → values_kept h h' rest → read_source h' src None (Z.of_nat (length cells)) = Ret cells.

Lemma outside_gives h rest (cells : block E) : source_gives h rest (Outside cells) cells.
Proof. intros h' u _ _. unfold read_source. destruct (Z.eqb_spec (Z.of_nat (length cells)) 0); [|done]. by destruct cells. Qed.

Lemma cow_append_ok h rest v src (cells : block E) :
  wf h (v :: rest) → Z.of_nat (S (S (length rest))) < 2 ^ 31 → source_gives h rest src cells →
  size_ v + Z.of_nat (length cells) ≤ max_elems → (cells ≠ [] ∨ 0 < size_ v) →
  step_ok h rest (AppendData h v src (Z.of_nat (length cells))) (value h v ++ cells).
Proof.
  intros Hw Hb Hsrc Hm Hne. unfold AppendData. pose proof (wf_head _ _ _ Hw) as Hh.
  rewrite (check_ok h (v :: rest) v), bind_ret by done. destruct (buffer_ v) as [p|] eqn:Ev.
  - destruct (wf_object h v rest p Hw Ev) as (o & Ho & Hs & Hg & Hc). pose proof (good_bounds _ Hg). destruct Hs as (Hs0 & Hs1 & Hs2).
    rewrite (capacity_ok h (v :: rest) v p o), bind_ret, to_size_t_small by (done || lia).
    assert (0 < size_ v + Z.of_nat (length cells)) by (destruct Hne; [destruct cells; [done|simpl; lia]|lia]).
    destruct (unshare_ok h rest v p o (Z.max (capacity_ (buf o) - offset_ v) (size_ v + Z.of_nat (length cells))))
      as (h1 & u & q & o' & -> & Hw1 & Hk1 & Hv1 & Hu & Hq & H1 & Hsz & Hcap); [done..|lia|lia|].
    rewrite bind_ret.
    destruct (append_unshared_ok h1 rest u q o' src cells) as (h2 & -> & Hw2 & Hk2 & Hv2); try done; [lia|by apply (Hsrc h1 u)|].
    rewrite bind_ret, Hsz, to_size_t_small, Hu by lia. rewrite Hsz in Hw2, Hv2.
    rewrite (check_ok h2 _ _ Hw2 (wf_head _ _ _ Hw2)), bind_ret.
    eexists _, _. split_and!; [done..|by eapply values_kept_trans|]. by rewrite Hv2, Hv1.
  - pose proof (null_wf h v rest Hw Ev) as ->. simpl in Hm, Hne. destruct Hne as [Hne|?]; [|lia].
    rewrite (Hsrc h (mkCow None 0 0) Hw (values_kept_refl _ _)), bind_ret.
    assert (0 < Z.of_nat (length cells)) by (destruct cells; [done|simpl; lia]).
    destruct (copy_good cells (Z.of_nat (length cells))) as (b & -> & Hg' & Hcont & Hsz); [lia..|]. rewrite bind_ret.
    destruct (replace_buffer_ok h rest (mkCow None 0 0) b (Z.of_nat (length cells))) as (h' & q & -> & H2 & H3 & H4); [done..|lia|].
    rewrite bind_ret, (check_ok h' _ _ H2 (wf_head _ _ _ H2)), bind_ret.
    eexists _, _. split_and!; [done..|]. by rewrite H4, Hcont, Nat2Z.id, firstn_all.
Qed.

Lemma value_length h hs v : wf h hs → handle_ok h v → Z.of_nat (length (value h v)) = size_ v.
Proof.
  intros [Hw _] Hv. unfold handle_ok, value in *. destruct (buffer_ v) as [p|]; [|by destruct Hv as [_ ->]].
  destruct Hv as (o & Ho & Hs). rewrite Ho. destruct (Hw p o Ho) as (_ & _ & Hg). rewrite slice_length by done.
  destruct Hs as (_ & ? & _). lia.
Qed.

Definition pointer_of v : option (positive * Z) := match buffer_ v with Some p => Some (p, offset_ v) | None => None end.

Lemma data_at_ok h hs v : wf h hs → handle_ok h v → data_at h v = Ret (pointer_of v).
Proof.
  intros [Hw Hh] Hv. unfold data_at, pointer_of, handle_ok in *. destruct (buffer_ v) as [p|]; [|done].
  destruct Hv as (o & Ho & Hs). unfold deref. rewrite Ho. destruct (Hw p o Ho) as (_ & _ & Hg). cbn [from_option_or]. rewrite bind_ret.
  unfold Buffer.data. by rewrite (good_consistent _ Hg), dcheck_pass, !bind_ret.
Qed.

(** The data of another handle stays where it is while a handle is unshared. *)
Lemma inside_gives h rest w : w ∈ rest → Forall (handle_ok h) rest → (∃ v, wf h (v :: rest)) →
  source_gives h rest (Inside (pointer_of w)) (value h w).
Proof.
  intros Hin Hh [v Hw] h' u Hw' Hk. pose proof Hw' as [Hobj Hh']. apply Forall_inv_tail in Hh'. unfold values_kept in Hk.
  rewrite List.Forall_forall in Hh, Hh', Hk. apply list_elem_of_In in Hin. specialize (Hh' w Hin). specialize (Hk w Hin).
  simpl in Hk. rewrite <-Hk, (value_length h' _ w Hw' Hh'). unfold read_source.
  destruct (Z.eqb_spec (size_ w) 0) as [H0|H0].
  { f_equal. symmetry. apply nil_length_inv. pose proof (value_length h' _ w Hw' Hh'). lia. }
  unfold pointer_of, handle_ok, value in *. destruct (buffer_ w) as [p|]; [|lia].
  destruct Hh' as (o & Ho & Hs). rewrite bool_decide_false by done. unfold deref. rewrite Ho. cbn [from_option_or]. rewrite bind_ret.
  destruct (Hobj p o Ho) as (_ & _ & Hg). destruct (good_rep _ Hg) as (l & s & _ & Hd & _). f_equal.
  rewrite Hd. simpl. by apply slice_data.
Qed.

Lemma AppendData_buffer_ok h rest v w :
  wf h (v :: rest) → Z.of_nat (S (S (length rest))) < 2 ^ 31 → w ∈ rest →
  size_ v + size_ w ≤ max_elems → (0 < size_ w ∨ 0 < size_ v) →
  step_ok h rest (AppendData_buffer h v w) (value h v ++ value h w).
Proof.
  intros Hw Hb Hin Hm Hne. pose proof Hw as [_ Hh]. apply Forall_inv_tail in Hh.
  assert (handle_ok h w) as Hwok by (rewrite List.Forall_forall in Hh; by apply Hh, list_elem_of_In).
  unfold AppendData_buffer, cdata, size. rewrite !(check_ok h (v :: rest) w), !bind_ret by done.
  rewrite (data_at_ok h (v :: rest)), !bind_ret by done. pose proof (value_length h _ w Hw Hwok) as Hl. rewrite <-Hl.
  apply cow_append_ok; [done..|apply inside_gives; eauto|lia|].
  destruct Hne; [left|by right]. intros E0. rewrite E0 in Hl. simpl in Hl. lia.
Qed.

(** A store through the pointer that [MutableData] gives. *)
Definition write (h : store E) v (index : Z) (x : E) : outcome (store E * CopyOnWriteBuffer) :=
  '(h, v, ptr) ← MutableData h v;
  h ← write_ptr h ptr index x;
  Ret (h, v).

Lemma write_ok h rest v (i : nat) x :
  wf h (v :: rest) → Z.of_nat (S (S (length rest))) < 2 ^ 31 → Z.of_nat i < size_ v →
  step_ok h rest (write h v (Z.of_nat i) x) (<[i := Some x]> (value h v)).
Proof.
  intros Hw Hb Hi. unfold write, MutableData. pose proof (wf_head _ _ _ Hw) as Hh. rewrite (check_ok h (v :: rest) v), bind_ret by done.
  destruct (buffer_ v) as [p|] eqn:Ev; [|pose proof (null_wf h v rest Hw Ev) as ->; simpl in Hi; lia].
  destruct (wf_object h v rest p Hw Ev) as (o & Ho & Hs & Hg & Hc). pose proof (good_bounds _ Hg). destruct Hs as (Hs0 & Hs1 & Hs2).
  rewrite (capacity_ok h (v :: rest) v p o), bind_ret by done.
  destruct (unshare_ok h rest v p o (capacity_ (buf o) - offset_ v))
    as (h1 & u & q & o' & -> & Hw1 & Hk1 & Hv1 & Hu & Hq & H1 & Hsz & Hcap); [done..|lia|lia|].
  rewrite bind_ret, (data_at_ok h1 _ u Hw1 (wf_head _ _ _ Hw1)), !bind_ret. unfold pointer_of, write_ptr, deref. rewrite Hu, Hq.
  cbn [from_option_or]. rewrite bind_ret. destruct (wf_object h1 u rest q Hw1 Hu) as (o1 & Ho1 & Hs' & Hg' & _).
  assert (o1 = o') as -> by congruence.
  destruct Hs' as (Hu0 & Hu1 & Hu2). destruct (good_rep _ Hg') as (l & s & Hr & Hd & Hl). rewrite Hd. pose proof Hr as (Hsl & Hcl & Hml & _).
  set (k := Z.to_nat (offset_ u + Z.of_nat i)). assert (k < length l)%nat by lia.
  rewrite (proj2 (Z.ltb_lt _ _)), bind_ret, insert_app_l by (rewrite ?length_app; lia).
  set (b := mkBuffer _ _ _). destruct (rep_good b (<[k := Some x]> l) s) as [Hgb Hcb].
  { unfold b. split_and!; simpl; rewrite ?length_insert; done || lia. } { apply Hg'. }
  destruct (update_wf h1 rest u u q o' b) as (Hw2 & Hk2 & Hv2); try done.
  eexists _, _. split_and!; [done..|by eapply values_kept_trans|]. rewrite Hv2, <-Hv1. unfold value. rewrite Hu, Ho1. unfold slice. rewrite Hcb, Hl.
  unfold k. replace (Z.to_nat (offset_ u + Z.of_nat i)) with (Z.to_nat (offset_ u) + i)%nat by lia.
  rewrite drop_insert_ge, take_insert_lt by lia. f_equal. lia.
Qed.

(** ** Handles *)

Lemma wf_null h hs : wf h hs → wf h (mkCow None 0 0 :: hs).
Proof.
  intros [Hw Hh]. split; [|by constructor]. intros p o Hp. destruct (Hw p o Hp) as (H1 & H2 & H3).
  unfold object_ok. rewrite refs_cons, decide_False by done. done.
Qed.

(** Another slice of the same object. *)
Lemma wf_reslice h v v' rest : wf h (v :: rest) → buffer_ v' = buffer_ v → handle_ok h v' → wf h (v' :: rest).
Proof.
  intros [Hw Hh] Hb Hv. split; [|constructor; [done|by apply Forall_inv_tail in Hh]].
  intros p o Hp. unfold object_ok. replace (refs p (v' :: rest)) with (refs p (v :: rest)); [by apply Hw|].
  rewrite !refs_cons. unfold on. destruct (decide _), (decide _); congruence.
Qed.

(** [v = temporary;] and the end of the temporary. *)
Definition assign_temp (h : store E) v temp : outcome (store E * CopyOnWriteBuffer) :=
  '(h, v, temp) ← assign_move h v temp;
  h ← CopyOnWriteBuffer_destroy h temp;
  Ret (h, v).

Lemma assign_temp_ok h rest v temp :
  wf h (temp :: v :: rest) → Z.of_nat (S (S (length rest))) < 2 ^ 31 →
  step_ok h rest (assign_temp h v temp) (value h temp).
Proof.
  intros Hw Hb. pose proof (wf_head _ _ _ Hw) as Ht. rewrite Permutation_swap in Hw. pose proof (wf_head _ _ _ Hw) as Hv.
  unfold assign_temp, assign_move. rewrite (check_ok _ _ v Hw Hv), (check_ok _ _ temp Hw Ht), !bind_ret.
  destruct (Release_wf h v (temp :: rest) Hw) as (h' & -> & Hw' & Hk & _); [simpl; lia|]. rewrite !bind_ret.
  rewrite (destroy_law h' (temp :: rest)) by by apply wf_null. cbn [buffer_ Release_opt]. rewrite bind_ret.
  exists h', temp. destruct temp. split_and!; [done..|by apply Forall_inv_tail in Hk|by apply Forall_inv in Hk].
Qed.

Lemma Slice_ok h hs v off len :
  wf h hs → handle_ok h v → Z.of_nat (S (length hs)) < 2 ^ 31 → 0 ≤ off → 0 ≤ len → off + len ≤ size_ v → size_ v ≤ max_elems →
  ∃ h' s, Slice h v off len = Ret (h', s) ∧ wf h' (s :: hs) ∧ values_kept h h' hs ∧
          value h' s = take (Z.to_nat len) (drop (Z.to_nat off) (value h v)).
Proof.
  intros Hw Hv Hb H0 H1 H2 Hm. unfold Slice. rewrite (copy_law h hs v) by done.
  assert (0 ≤ offset_ v ≤ max_elems) as Ho.
  { unfold handle_ok in Hv. destruct Hw as [Hobj _]. destruct (buffer_ v) as [p|]; [|lia]. destruct Hv as (o & Hp & Hs & _ & Hs2).
    destruct (Hobj p o Hp) as (_ & _ & Hg). pose proof (good_bounds _ Hg). lia. }
  destruct (AddRef_wf h hs v Hw Hv Hb) as (h' & -> & Hw' & Hval & Hk). rewrite !bind_ret, !to_size_t_small by lia.
  rewrite !dcheck_pass, !bind_ret by (apply Z.leb_le; lia).
  assert (handle_ok h' v) as Hv' by by apply (wf_head _ _ _ Hw').
  eexists h', _. split; [done|].
  split_and!; [|done|].
  - apply (wf_reslice h' v); [done..|]. unfold handle_ok in *. simpl. destruct (buffer_ v) as [p|]; [|simpl; lia].
    destruct Hv' as (o & Hp & Hs). exists o. split; [done|]. unfold slice_of in *. simpl. lia.
  - rewrite <-Hval. unfold value. simpl. destruct (buffer_ v) as [p|]; [|by rewrite drop_nil, take_nil].
    destruct (h' !! p) as [o|]; [|by rewrite drop_nil, take_nil]. unfold slice. simpl.
    replace (Z.to_nat (offset_ v + off)) with (Z.to_nat (offset_ v) + Z.to_nat off)%nat by lia.
    rewrite <-drop_drop. set (l := drop _ (contents _)).
    replace (Z.to_nat (size_ v)) with (Z.to_nat off + Z.to_nat (size_ v - off))%nat by lia.
    rewrite <-take_drop_commute, take_take. f_equal. lia.
Qed.

Lemma cow_construct_ok h hs (src : block E) c :
  wf h hs → Z.of_nat (length src) ≤ max_elems → 0 ≤ c ≤ max_elems →
  ∃ h' s, CopyOnWriteBuffer_data h src (Z.of_nat (length src)) c = Ret (h', s) ∧ wf h' (s :: hs) ∧
          values_kept h h' hs ∧ value h' s = src.
Proof.
  intros Hw Hn Hc. unfold CopyOnWriteBuffer_data.
  destruct (sized_law h hs (Z.of_nat (length src)) c) as [[H0 ->]|(q & b & u & Hq & Hg & Hu & Hs & Hsz & ->)]; [done|lia|done| |].
  - rewrite bind_ret. cbn [buffer_]. eexists _, _. split; [done|]. split_and!; [by apply wf_null|apply values_kept_refl|].
    by destruct src; [|simpl in H0; lia].
  - rewrite bind_ret, Hu. unfold deref. rewrite lookup_insert_eq. cbn [from_option_or]. rewrite bind_ret. cbn [buf].
    unfold Buffer.data. rewrite (good_consistent _ Hg), dcheck_pass, !bind_ret by done.
    destruct (new_wf h hs q b u) as (Hw1 & Hk1 & _); [done..|].
    destruct (good_rep _ Hg) as (l & s & Hr & Hd & Hl). pose proof Hr as (Hsl & Hcl & Hml & _). destruct Hs as (Hs0 & Hs1 & Hs2).
    rewrite Hd, (memcpy_tail [] (l ++ s)), bind_ret by (rewrite ?length_app; lia). rewrite firstn_all, app_nil_l, drop_app_le by lia.
    set (b' := mkBuffer _ _ _). destruct (rep_good b' (src ++ drop (length src) l) s) as [Hgb Hcb].
    { unfold b'. split_and!; simpl; rewrite ?length_app, ?length_drop, <-?app_assoc; done || lia. } { apply Hg. }
    destruct (update_wf _ hs u (mkCow (Some q) 0 (Z.of_nat (length src))) q (mkObj 1 b) b' Hw1) as (Hw2 & Hk2 & Hv2); try done.
    { apply lookup_insert_eq. } { split_and!; simpl; lia. }
    eexists _, _. split; [done|]. split_and!; [done|by eapply values_kept_trans|]. rewrite Hv2. unfold slice. rewrite Hcb. simpl.
    by rewrite Nat2Z.id, drop_0, take_app_length.
Qed.

Lemma assign_copy_ok h rest v w :
  wf h (v :: rest) → Z.of_nat (S (S (length rest))) < 2 ^ 31 → w ∈ rest →
  step_ok h rest (assign_copy h v w false) (value h w).
Proof.
  intros Hw Hb Hin. pose proof Hw as [_ Hh]. pose proof (wf_head _ _ _ Hw) as Hv. apply Forall_inv_tail in Hh.
  assert (handle_ok h w) as Hwok by (rewrite List.Forall_forall in Hh; by apply Hh, list_elem_of_In).
  unfold assign_copy. rewrite (check_ok h _ v Hw Hv), (check_ok h _ w Hw Hwok), !bind_ret. unfold assign_ptr.
  destruct (AddRef_wf h (v :: rest) w Hw Hwok) as (h1 & -> & Hw1 & Hv1 & Hk1); [simpl; lia|]. rewrite bind_ret.
  rewrite Permutation_swap in Hw1. destruct (Release_wf h1 v (w :: rest) Hw1) as (h2 & -> & Hw2 & Hk2 & _); [simpl; lia|].
  rewrite bind_ret. exists h2, w. destruct w as [p off n]. apply Forall_cons_1 in Hk2 as [Hv2 Hk2].
  split_and!; [done..| |congruence]. eapply values_kept_trans; [by apply Forall_inv_tail in Hk1|done].
Qed.

Lemma get_at_ok h hs v (i : nat) x :
  wf h hs → handle_ok h v → value h v !! i = Some (Some x) → get_at h v (Z.of_nat i) = Ret x.
Proof.
  intros Hw Hv Hi. pose proof (value_length h hs v Hw Hv) as Hl. pose proof (lookup_lt_Some _ _ _ Hi).
  unfold get_at, cdata, size. rewrite !(check_ok h hs v), !bind_ret by done. rewrite dcheck_pass, bind_ret by (apply Z.ltb_lt; lia).
  rewrite (data_at_ok h hs), bind_ret by done. unfold pointer_of, read_ptr, value, handle_ok in *. destruct (buffer_ v) as [p|]; [|done].
  destruct Hv as (o & Ho & Hs). unfold deref. rewrite Ho in *. cbn [from_option_or]. rewrite bind_ret.
  destruct Hw as [Hobj _]. destruct (Hobj p o Ho) as (_ & _ & Hg). destruct (good_rep _ Hg) as (l & s & _ & Hd & _).
  rewrite <-(slice_data _ v (l ++ s)) in Hi by done. destruct Hs as (H0 & _).
  rewrite lookup_take in Hi. destruct (decide _) in Hi; [|done]. rewrite lookup_drop in Hi.
  unfold read_cell. rewrite Hd. replace (Z.to_nat (offset_ v + Z.of_nat i)) with (Z.to_nat (offset_ v) + i)%nat by lia. by rewrite Hi.
Qed.

(** ** Programs over handles *)

Record world := mkWorld { objs : store E; vars : list CopyOnWriteBuffer }.

Inductive op :=
| OAssign (i j : nat)                    (* v[i] = v[j];  v[i].SetData(v[j]); *)
| OMove (i j : nat)                      (* v[i] = std::move(v[j]); *)
| OSwap (i j : nat)
| OSetData (i : nat) (src : list E)
| OAppend (i : nat) (src : list E)
| OAppendBuffer (i j : nat)              (* v[i].AppendData(v[j]); *)
| OWrite (i k : nat) (x : E)             (* v[i].MutableData()[k] = x; *)
| OSlice (i j off len : nat)             (* v[i] = v[j].Slice(off, len); *)
| OConstruct (i : nat) (src : list E) (cap : nat).

Definition var w (i : nat) : outcome CopyOnWriteBuffer := from_option_or OutOfBounds (vars w !! i).

Definition set_var w (i : nat) (r : store E * CopyOnWriteBuffer) : world := mkWorld r.1 (<[i := r.2]> (vars w)).

Definition run_op w (c : op) : outcome world :=
  let h := objs w in
  match c with
  | OAssign i j => v ← var w i; u ← var w j; r ← assign_copy h v u (Nat.eqb i j); Ret (set_var w i r)
  | OMove i j =>
      v ← var w i; u ← var w j;
      if Nat.eqb i j then r ← assign_move_self h v; Ret (set_var w i r)
      else '(h, v, u) ← assign_move h v u; Ret (mkWorld h (<[j := u]> (<[i := v]> (vars w))))
  | OSwap i j =>
      v ← var w i; u ← var w j;
      let '(v, u) := swap v u in Ret (mkWorld h (<[j := u]> (<[i := v]> (vars w))))
  | OSetData i src => v ← var w i; r ← SetData h v (Some <$> src) (Z.of_nat (length src)); Ret (set_var w i r)
  | OAppend i src => v ← var w i; r ← AppendData h v (Outside (Some <$> src)) (Z.of_nat (length src)); Ret (set_var w i r)
  | OAppendBuffer i j => v ← var w i; u ← var w j; r ← AppendData_buffer h v u; Ret (set_var w i r)
  | OWrite i k x => v ← var w i; r ← write h v (Z.of_nat k) x; Ret (set_var w i r)
  | OSlice i j off len =>
      v ← var w i; u ← var w j;
      '(h, s) ← Slice h u (Z.of_nat off) (Z.of_nat len);
      r ← assign_temp h v s; Ret (set_var w i r)
  | OConstruct i src cap =>
      v ← var w i;
      '(h, s) ← CopyOnWriteBuffer_data h (Some <$> src) (Z.of_nat (length src)) (Z.of_nat cap);
      r ← assign_temp h v s; Ret (set_var w i r)
  end.

Fixpoint run_ops w (ops : list op) : outcome world :=
  match ops with
  | [] => Ret w
  | c :: ops => w ← run_op w c; run_ops w ops
  end.

(** Every handle a value of its own. *)
Definition val (vals : list (block E)) (i : nat) : block E := default [] (vals !! i).

Definition value_op (vals : list (block E)) (c : op) : list (block E) :=
  match c with
  | OAssign i j => <[i := val vals j]> vals
  | OMove i j => <[j := []]> (<[i := val vals j]> vals)
  | OSwap i j => <[j := val vals i]> (<[i := val vals j]> vals)
  | OSetData i src => <[i := Some <$> src]> vals
  | OAppend i src => <[i := val vals i ++ (Some <$> src)]> vals
  | OAppendBuffer i j => <[i := val vals i ++ val vals j]> vals
  | OWrite i k x => <[i := <[k := Some x]> (val vals i)]> vals
  | OSlice i j off len => <[i := take len (drop off (val vals j))]> vals
  | OConstruct i src _ => <[i := Some <$> src]> vals
  end.

(** The variables exist, sizes can be allocated, slices and indices are within the
    data; what is appended or set is not empty, and no handle is appended to
    itself. *)
Definition op_ok (vals : list (block E)) (c : op) : bool :=
  let ok (i : nat) := (i <? length vals)%nat in
  let fits (n : nat) := Z.of_nat n <=? max_elems in
  match c with
  | OAssign i j | OMove i j | OSwap i j => ok i && ok j
  | OSetData i src => ok i && (0 <? length src)%nat && (Z.of_nat (length src) + Z.of_nat (length src) / 2 <=? max_elems)
  | OAppend i src => ok i && (0 <? length src)%nat && fits (length (val vals i) + length src)%nat
  | OAppendBuffer i j => ok i && ok j && negb (Nat.eqb i j) && (0 <? length (val vals j))%nat
                         && fits (length (val vals i) + length (val vals j))%nat
  | OWrite i k x => ok i && (k <? length (val vals i))%nat
  | OSlice i j off len => ok i && ok j && (off + len <=? length (val vals j))%nat
  | OConstruct i src cap => ok i && fits (length src) && fits cap
  end.

Fixpoint ops_ok (vals : list (block E)) (ops : list op) : bool :=
  match ops with
  | [] => true
  | c :: ops => op_ok vals c && ops_ok (value_op vals c) ops
  end.

Definition world_rep w (vals : list (block E)) : Prop :=
  wf (objs w) (vars w) ∧ value (objs w) <$> vars w = vals ∧ Z.of_nat (length (vars w)) < 2 ^ 30.

(** ** Lists with one element replaced *)

Lemma exchange_perm {A} (l : list A) i x y : l !! i = Some x → x :: <[i := y]> l ≡ₚ y :: l.
Proof.
  intros Hi. apply list_elem_of_split_length in Hi as (l1 & l2 & -> & ->).
  rewrite insert_app_r_alt, Nat.sub_diag by lia. simpl. by rewrite <-!Permutation_middle, Permutation_swap.
Qed.

Lemma insert_perm {A} (l rest : list A) i x y : l !! i = Some x → l ≡ₚ x :: rest → <[i := y]> l ≡ₚ y :: rest.
Proof.
  intros Hi Hp. apply (Permutation_cons_inv (a := x)). rewrite (exchange_perm l i x y Hi), Hp. apply Permutation_swap.
Qed.

Lemma other_in_delete {A} (l : list A) i j x : i ≠ j → l !! j = Some x → x ∈ delete i l.
Proof.
  intros Hne Hj. destruct (decide (j < i)%nat).
  - apply (list_elem_of_lookup_2 _ j). by rewrite list_lookup_delete_lt.
  - apply (list_elem_of_lookup_2 _ (j - 1)). rewrite list_lookup_delete_ge by lia. by replace (S (j - 1)) with j by lia.
Qed.

Lemma fmap_insert_agree {A B} (f g : A → B) (l : list A) (i : nat) (y : B) : Forall (λ a : A, g a = f a) (delete i l) →
  <[i := y]> (g <$> l) = <[i := y]> (f <$> l).
Proof.
  intros Hf. apply list_eq. intros k. rewrite !list_lookup_insert, !length_fmap, !list_lookup_fmap.
  destruct (decide (i = k ∧ _)) as [|Hne]; [done|]. destruct (l !! k) as [u|] eqn:Ek; [simpl|done]. f_equal.
  rewrite List.Forall_forall in Hf. apply Hf, list_elem_of_In, (other_in_delete l i k); [|done].
  intros ->. apply Hne. split; [done|]. by apply lookup_lt_Some in Ek.
Qed.

(** ** Each call *)

Lemma world_step w vals i v (res : outcome (store E * CopyOnWriteBuffer)) l :
  world_rep w vals → vars w !! i = Some v →
  (wf (objs w) (v :: delete i (vars w)) → Z.of_nat (S (S (length (delete i (vars w))))) < 2 ^ 31 →
   step_ok (objs w) (delete i (vars w)) res l) →
  ∃ w', (r ← res; Ret (set_var w i r)) = Ret w' ∧ world_rep w' (<[i := l]> vals).
Proof.
  intros (Hw & Hvals & Hb) Hi Hstep. pose proof (delete_Permutation _ _ _ Hi) as Hp.
  assert (length (vars w) = S (length (delete i (vars w)))) as Hlen by by rewrite Hp at 1.
  destruct Hstep as (h' & v' & -> & Hw' & Hk & Hv'); [by rewrite <-Hp|lia|].
  rewrite bind_ret. eexists. split; [done|]. unfold world_rep, set_var. simpl. rewrite length_insert. split_and!; [| |done].
  - by rewrite (insert_perm _ _ i v v' Hi Hp).
  - rewrite list_fmap_insert, Hv', <-Hvals. by apply fmap_insert_agree.
Qed.

Lemma world_var w vals i : world_rep w vals → (i < length vals)%nat →
  ∃ v, vars w !! i = Some v ∧ var w i = Ret v ∧ handle_ok (objs w) v ∧ value (objs w) v = val vals i ∧
       size_ v = Z.of_nat (length (val vals i)) ∧ size_ v ≤ max_elems.
Proof.
  intros (Hw & <- & Hb) Hi. rewrite length_fmap in Hi. destruct (lookup_lt_is_Some_2 _ _ Hi) as [v Hv]. exists v.
  unfold var, val. rewrite Hv, list_lookup_fmap, Hv. simpl.
  assert (handle_ok (objs w) v) as Hok.
  { destruct Hw as [_ Hh]. rewrite List.Forall_forall in Hh. apply Hh, list_elem_of_In. by eapply list_elem_of_lookup_2. }
  rewrite (value_length _ _ v Hw Hok). split_and!; try done. unfold handle_ok in Hok. pose proof max_elems_bound.
  destruct (buffer_ v) as [p|]; [|lia]. destruct Hok as (o & Ho & H1 & H2 & H3). destruct Hw as [Hobj _].
  destruct (Hobj p o Ho) as (_ & _ & Hg). pose proof (good_bounds _ Hg). lia.
Qed.

Lemma world_swap w vals i j vi vj : world_rep w vals → vars w !! i = Some vi → vars w !! j = Some vj →
  world_rep (mkWorld (objs w) (<[j := vi]> (<[i := vj]> (vars w)))) (<[j := val vals i]> (<[i := val vals j]> vals)).
Proof.
  intros (Hw & <- & Hb) Hi Hj. unfold world_rep, val. simpl. rewrite !list_lookup_fmap, Hi, Hj, !length_insert. simpl.
  split_and!; [|by rewrite !list_fmap_insert|done].
  assert (<[j := vi]> (<[i := vj]> (vars w)) ≡ₚ vars w) as ->; [|done].
  destruct (decide (i = j)) as [<-|Hne].
  { rewrite list_insert_insert_eq. assert (vi = vj) as -> by congruence. by rewrite list_insert_id. }
  assert (<[i := vj]> (vars w) !! j = Some vj) as Hj' by by rewrite list_lookup_insert_ne.
  apply (Permutation_cons_inv (a := vj)). rewrite (exchange_perm _ _ _ _ Hj'). apply (exchange_perm _ _ _ _ Hi).
Qed.

Lemma world_move w vals i j vi vj : world_rep w vals → i ≠ j → vars w !! i = Some vi → vars w !! j = Some vj →
  ∃ w', ('(h, v, u) ← assign_move (objs w) vi vj; Ret (mkWorld h (<[j := u]> (<[i := v]> (vars w))))) = Ret w' ∧
        world_rep w' (<[j := []]> (<[i := val vals j]> vals)).
Proof.
  intros (Hw & <- & Hb) Hne Hi Hj. pose proof (delete_Permutation _ _ _ Hi) as Hp. pose proof Hw as Hw0. rewrite Hp in Hw.
  assert (length (vars w) = S (length (delete i (vars w)))) as Hlen by by rewrite Hp at 1.
  pose proof (other_in_delete _ _ _ _ Hne Hj) as Hin.
  assert (handle_ok (objs w) vj) as Hvj.
  { destruct Hw as [_ Hh]. apply Forall_inv_tail in Hh. rewrite List.Forall_forall in Hh. by apply Hh, list_elem_of_In. }
  unfold assign_move. rewrite (check_ok _ _ _ Hw (wf_head _ _ _ Hw)), (check_ok _ _ _ Hw Hvj), !bind_ret.
  destruct (Release_wf _ _ _ Hw) as (h' & -> & Hw' & Hk & _); [lia|]. rewrite !bind_ret. eexists. split; [done|].
  assert (mkCow (buffer_ vj) (offset_ vj) (size_ vj) = vj) as -> by by destruct vj.
  unfold world_rep, val. simpl. rewrite !length_insert. split_and!; [| |done].
  - assert (<[i := vj]> (vars w) !! j = Some vj) as Hj' by by rewrite list_lookup_insert_ne.
    rewrite (insert_perm _ (delete i (vars w)) j vj _ Hj'); [by apply wf_null|]. by apply (insert_perm _ _ i vi).
  - rewrite !list_fmap_insert, list_lookup_fmap, Hj. simpl. unfold values_kept in Hk.
    rewrite (fmap_insert_agree (value (objs w)) (value h')) by done. do 2 f_equal.
    rewrite List.Forall_forall in Hk. apply Hk. by apply list_elem_of_In.
Qed.

Lemma world_self_move w vals i v : world_rep w vals → vars w !! i = Some v →
  ∃ w', (r ← assign_move_self (objs w) v; Ret (set_var w i r)) = Ret w' ∧ world_rep w' (<[i := []]> (<[i := val vals i]> vals)).
Proof.
  intros Hw Hi. rewrite list_insert_insert_eq. apply (world_step w vals i v); [done..|]. intros Hwf Hb.
  unfold assign_move_self. pose proof (wf_head _ _ _ Hwf) as Hv. rewrite !(check_ok _ _ _ Hwf Hv), !bind_ret.
  eexists _, _. split; [done|]. split_and!; [|apply values_kept_refl|].
  - apply (wf_reslice _ v); [done..|]. unfold handle_ok in *. simpl. destruct (buffer_ v) as [p|]; [|done].
    destruct Hv as (o & Ho & Hs). exists o. split; [done|]. unfold slice_of in *. simpl. lia.
  - unfold value. simpl. destruct (buffer_ v); [|done]. by destruct (objs w !! _).
Qed.

(** A temporary that stands for [l] is made, and assigned. *)
Lemma world_temp w vals i v (res : outcome (store E * CopyOnWriteBuffer)) l :
  world_rep w vals → vars w !! i = Some v →
  (∃ h' s, res = Ret (h', s) ∧ wf h' (s :: vars w) ∧ values_kept (objs w) h' (vars w) ∧ value h' s = l) →
  ∃ w', ('(h, s) ← res; r ← assign_temp h v s; Ret (set_var w i r)) = Ret w' ∧ world_rep w' (<[i := l]> vals).
Proof.
  intros Hw Hi (h' & s & -> & Hw' & Hk & <-). rewrite bind_ret. apply (world_step w vals i v); [done..|]. intros Hwf Hb.
  pose proof (delete_Permutation _ _ _ Hi) as Hp. rewrite Hp in Hw'. unfold values_kept in Hk. rewrite Hp in Hk.
  destruct (assign_temp_ok h' _ v s Hw' Hb) as (h2 & v2 & -> & Hw2 & Hk2 & Hv2). exists h2, v2. split_and!; try done.
  eapply values_kept_trans; [by apply Forall_inv_tail in Hk|done].
Qed.

Lemma run_op_rep w vals c : world_rep w vals → op_ok vals c = true →
  ∃ w', run_op w c = Ret w' ∧ world_rep w' (value_op vals c).
Proof.
  intros Hw Hok. pose proof Hw as (Hwf & _ & Hlen). pose proof max_elems_bound.
  assert (∀ src : list E, length (Some <$> src) = length src) as Hfm by (intros; apply length_fmap).
  destruct c as [i j|i j|i j|i src|i src|i j|i k x|i j off len|i src cap]; simpl in Hok;
    rewrite ?andb_true_iff, ?Nat.ltb_lt, ?Nat.leb_le, ?Z.leb_le, ?negb_true_iff, ?Nat.eqb_neq in Hok; destruct_and?;
    (destruct (world_var w vals i) as (v & Hv & Hvar & Hvok & Hval & Hsz & Hmax); [done..|]);
    try (destruct (world_var w vals j) as (u & Hu & Huvar & Huok & Huval & Husz & Humax); [done..|]);
    simpl run_op; simpl value_op; rewrite ?Hvar, ?bind_ret, ?Huvar, ?bind_ret.
  - destruct (Nat.eqb_spec i j) as [<-|Hne].
    + apply (world_step w vals i v); [done..|]. intros Hw' Hb. unfold assign_copy. assert (u = v) as -> by congruence.
      rewrite !(check_ok _ _ _ Hw' Hvok), !bind_ret. exists (objs w), v. split_and!; [done..|apply values_kept_refl|done].
    + apply (world_step w vals i v); [done..|]. intros Hw' Hb. rewrite <-Huval. apply assign_copy_ok; [done..|].
      by eapply other_in_delete.
  - destruct (Nat.eqb_spec i j) as [<-|Hne]; [by apply world_self_move|by apply (world_move w vals i j v u)].
  - eexists. split; [done|]. destruct v, u. by apply world_swap.
  - apply (world_step w vals i v); [done..|]. intros Hw' Hb. rewrite <-(Hfm src). apply SetData_ok; [done..| |].
    + unfold size_ok. rewrite Hfm. lia.
    + left. by destruct src; [simpl in *; lia|].
  - apply (world_step w vals i v); [done..|]. intros Hw' Hb. rewrite <-(Hfm src), <-Hval. apply cow_append_ok; [done..|apply outside_gives|rewrite Hfm; lia|].
    left. by destruct src; [simpl in *; lia|].
  - apply (world_step w vals i v); [done..|]. intros Hw' Hb. rewrite <-Hval, <-Huval.
    apply AppendData_buffer_ok; [done..|by eapply other_in_delete|lia|left; lia].
  - apply (world_step w vals i v); [done..|]. intros Hw' Hb. rewrite <-Hval. apply write_ok; [done..|lia].
  - apply (world_temp w vals i v); [done..|].
    destruct (Slice_ok (objs w) (vars w) u (Z.of_nat off) (Z.of_nat len)) as (h' & s & Hs & Hs1 & Hs2 & Hs3); [done..|lia|lia|lia|lia|done|].
    exists h', s. rewrite Hs3, Huval, !Nat2Z.id. done.
  - apply (world_temp w vals i v); [done..|]. rewrite <-(Hfm src). apply cow_construct_ok; [done|rewrite Hfm; lia|lia].
Qed.

Lemma run_ops_rep ops : ∀ w vals, world_rep w vals → ops_ok vals ops = true →
  ∃ w', run_ops w ops = Ret w' ∧ world_rep w' (fold_left value_op ops vals).
Proof.
  induction ops as [|c ops IH]; intros w vals Hw Hok; simpl in *; [by eexists|].
  apply andb_true_iff in Hok as [Hc Hok]. destruct (run_op_rep w vals c Hw Hc) as (w1 & -> & Hw1). rewrite bind_ret. by apply IH.
Qed.

(** [n] empty handles. *)
Definition init_world (n : nat) : world := mkWorld ∅ (replicate n (mkCow None 0 0)).

Lemma init_rep n : Z.of_nat n < 2 ^ 30 → world_rep (init_world n) (replicate n []).
Proof.
  intros Hn. unfold world_rep, init_world. simpl. rewrite length_replicate. split_and!; [split| |done].
  - apply map_Forall_empty.
  - by apply Forall_replicate.
  - by rewrite fmap_replicate.
Qed.

(** ** Where the class breaks *)

(** [v.AppendData(v)] on an object with one handle and too little capacity: the
    object is released before its data is read. *)
Lemma self_append_dangles h rest v p o :
  wf h (v :: rest) → Z.of_nat (S (S (length rest))) < 2 ^ 31 → buffer_ v = Some p → h !! p = Some o → ref_count_ o = 1 →
  0 < size_ v → 2 * size_ v ≤ max_elems → capacity_ (buf o) - offset_ v < 2 * size_ v →
  AppendData_buffer h v v = Crash OutOfBounds.
Proof.
  intros Hw Hb Hv Hp H1 Hs Hm Hc. pose proof (wf_head _ _ _ Hw) as Hh.
  unfold AppendData_buffer, cdata, size, AppendData. rewrite !(check_ok _ _ _ Hw Hh), !bind_ret, (data_at_ok _ _ _ Hw Hh), !bind_ret.
  rewrite Hv, (capacity_ok h _ v p o Hw Hh Hv Hp), bind_ret, to_size_t_small by lia.
  destruct (wf_object h v rest p Hw Hv) as (o' & Ho' & (Hs0 & Hs1 & Hs2) & Hg & _). assert (o' = o) as -> by congruence.
  pose proof (good_bounds _ Hg) as Hgb.
  pose proof (unshare_law h rest v p o (Z.max (capacity_ (buf o) - offset_ v) (size_ v + size_ v)) Hw Hv Hp ltac:(lia) ltac:(lia)) as Hlaw.
  rewrite bool_decide_false in Hlaw by lia. destruct Hlaw as (q & b & u & Hq & Hgb' & Hu & Hus & Hsz & Hcap & _ & ->).
  assert (q ≠ p) as Hqp by congruence. unfold assign_ptr, AddRef_opt, Release_opt, AddRef, Release, deref. rewrite lookup_insert_eq.
  cbn [from_option_or]. rewrite !bind_ret. cbn [ref_count_ buf]. change (IncRef 0) with 1. rewrite insert_insert_eq, lookup_insert_ne, Hp by done.
  cbn [from_option_or]. rewrite bind_ret, H1. change (DecRef 1) with (Ret (0, kDroppedLastRef)). rewrite bind_ret, bool_decide_true by done.
  destruct Hg as [[l Hi] _]. destruct (destroy_zeroed false (buf o) l Hi) as (fr & -> & _). rewrite !bind_ret.
  unfold append_unshared, deref. rewrite Hu, lookup_delete_ne, lookup_insert_eq by done. cbn [from_option_or]. rewrite bind_ret. cbn [buf].
  pose proof (good_bounds _ Hgb'). destruct Hus as (Hu0 & Hu1 & Hu2). rewrite (to_size_t_small (offset_ u + size_ u)) by lia.
  rewrite SetSize_room, bind_ret by (by apply good_consistent || lia). cbn [Buffer.size_]. unfold read_source.
  rewrite (proj2 (Z.eqb_neq _ _)) by lia. unfold pointer_of. rewrite Hv, bool_decide_false; [unfold deref; by rewrite lookup_delete_eq|].
  intros Heq. destruct (_ <? _) in Heq; congruence.
Qed.

(** [Slice] adds its two arguments in [size_t]: a length close to the largest
    wraps around the check, and the handle that results passes the checks of the
    class although its data does not exist. *)
Lemma slice_length_wraps h hs v p o off :
  wf h hs → handle_ok h v → Z.of_nat (S (length hs)) < 2 ^ 31 → buffer_ v = Some p → h !! p = Some o →
  0 < off ≤ size_ v → 0 < sizeof_ptr →
  let len := 2 ^ (8 * sizeof_ptr) - off in
  ∃ h' s, Slice h v off len = Ret (h', s) ∧ check h' s = Ret tt ∧ size h' s = Ret len ∧
    ∀ k, capacity_ (buf o) - offset_ v - off ≤ k < len → get_at h' s k = Crash OutOfBounds.
Proof.
  intros Hw Hv Hb Hp Ho Hoff Hptr len. unfold Slice. rewrite (copy_law h hs v) by done.
  pose proof Hv as Hv0. unfold handle_ok in Hv0. rewrite Hp in Hv0. destruct Hv0 as (o' & Ho' & Hs0 & Hs1 & Hs2).
  assert (o' = o) as -> by congruence. pose proof Hw as [Hobj _]. destruct (Hobj p o Ho) as (_ & _ & Hg). pose proof (good_bounds _ Hg).
  pose proof max_elems_bound. assert (∀ z, 0 ≤ z → z ≤ max_elems → to_size_t (z + 2 ^ (8 * sizeof_ptr)) = z) as Hwrap.
  { intros z ? ?. unfold to_size_t, wrapU. rewrite <-(Z.mul_1_l (2 ^ _)) at 1. rewrite Z.mod_add by lia. apply Z.mod_small. lia. }
  destruct (AddRef_wf h hs v Hw Hv Hb) as (h' & Ha & Hw' & _ & _). rewrite Ha, !bind_ret.
  replace (len + off) with (0 + 2 ^ (8 * sizeof_ptr)) by (unfold len; lia). rewrite Hwrap by lia.
  rewrite !dcheck_pass, !bind_ret by (apply Z.leb_le; lia). rewrite to_size_t_small, Hp by lia. eexists h', _. split; [done|].
  rewrite Hp in Ha. simpl in Ha. unfold AddRef, deref in Ha. rewrite Ho in Ha. cbn [from_option_or] in Ha. rewrite bind_ret in Ha.
  injection Ha as <-. set (h1 := <[p := _]> h).
  assert (check h1 (mkCow (Some p) (offset_ v + off) len) = Ret tt) as Hchk.
  { unfold check, IsConsistent, deref, h1. destruct RTC_DCHECK_IS_ON; [|done]. cbn [buffer_]. rewrite lookup_insert_eq. cbn [from_option_or]. rewrite bind_ret.
    unfold Buffer.capacity, Buffer.size. cbn [buf offset_ size_]. rewrite (good_consistent _ Hg), !dcheck_pass, !bind_ret by done.
    apply dcheck_pass. replace (offset_ v + off + len) with (offset_ v + 2 ^ (8 * sizeof_ptr)) by (unfold len; lia).
    rewrite Hwrap by lia. destruct Hg as [_ Hc]. bool_solve. }
  split_and!; [done|unfold size; by rewrite Hchk|]. intros k Hk. unfold get_at, cdata, size. rewrite !Hchk, !bind_ret. cbn [size_].
  rewrite dcheck_pass, bind_ret by (apply Z.ltb_lt; lia). unfold data_at, deref. cbn [buffer_ offset_]. unfold read_ptr, deref, h1. rewrite lookup_insert_eq.
  cbn [from_option_or]. rewrite bind_ret. unfold Buffer.data. cbn [buf]. rewrite (good_consistent _ Hg), dcheck_pass, !bind_ret by done.
  cbn [from_option_or]. rewrite ?lookup_insert_eq. cbn [from_option_or]. rewrite ?bind_ret. cbn [buf].
  destruct (good_rep _ Hg) as (l & s & (Hsl & Hcl & _) & Hd & _). unfold read_cell. rewrite Hd, lookup_ge_None_2; [done|]. rewrite length_app. lia.
Qed.

(** Appending nothing to an empty handle makes an object without capacity, which
    the class says never to have. *)
Lemma append_nothing h : RTC_DCHECK_IS_ON = true →
  AppendData h (mkCow None 0 0) (Outside []) 0 = Crash DCheckFailed.
Proof.
  intros Hon. unfold AppendData, check, IsConsistent. rewrite Hon. cbn [buffer_ size_ offset_].
  rewrite bind_ret, (dcheck_pass (_ && _)), bind_ret by done. unfold read_source. simpl Z.eqb. cbv iota. rewrite bind_ret.
  assert (BufferT_copy [] 0 0 = Ret (mkBuffer 0 0 (@None (block E)))) as ->.
  { unfold BufferT_copy, BufferT_sized. simpl. by rewrite dcheck_pass. }
  rewrite bind_ret. unfold replace_buffer, new_object, assign_ptr. cbn [AddRef_opt Release_opt buffer_]. unfold AddRef, deref.
  rewrite lookup_insert_eq. cbn [from_option_or]. rewrite !bind_ret. cbn [buf buffer_]. rewrite lookup_insert_eq. cbn [from_option_or]. rewrite bind_ret.
  cbn [buf]. unfold Buffer.capacity, Buffer.size. rewrite !dcheck_pass, !bind_ret by done. unfold RTC_DCHECK. by rewrite Hon.
Qed.
End Invariant.

(** ** An implementation of the members

    The laws can be satisfied: members that do what the header says, each by the
    buffers of [Buffer]. *)

Section Simple.
Context {bm : BuildMode} {tgt : Target} {E : Type} `{EqDecision E} {mem : Memory tgt E}.

Definition simple_unshare (h : store E) (v : CopyOnWriteBuffer) (n : Z) : outcome (store E * CopyOnWriteBuffer) :=
  match buffer_ v with
  | None => Crash NullDeref
  | Some p =>
      o ← deref h p;
      if bool_decide (ref_count_ o = 1 ∧ n ≤ capacity_ (buf o) - offset_ v) then Ret (h, v) else
      b ← BufferT_copy (slice (buf o) v) (size_ v) n;
      let '(h, q) := new_object h b in
      h ← assign_ptr h (Some p) (Some q);
      Ret (h, mkCow (Some q) 0 (size_ v))
  end.

Definition simple_sized (h : store E) (n c : Z) : outcome (store E * CopyOnWriteBuffer) :=
  if Z.max n c <=? 0 then Ret (h, mkCow None 0 0) else
  b ← BufferT_copy (replicate (Z.to_nat n) None) n c;
  let '(h, q) := new_object h b in
  h ← AddRef h q;
  Ret (h, mkCow (Some q) 0 n).

Definition simple_members : CompiledMembers E := {|
  UnshareAndEnsureCapacity := simple_unshare;
  CopyOnWriteBuffer_copy h v := h' ← AddRef_opt h (buffer_ v); Ret (h', v);
  CopyOnWriteBuffer_sized := simple_sized;
  CopyOnWriteBuffer_destroy h v := Release_opt h (buffer_ v)
|}.

Lemma fresh_object (h : store E) : h !! fresh (dom h) = None.
Proof. apply not_elem_of_dom, is_fresh. Qed.

#[local] Existing Instance simple_members.

Lemma simple_laws : CompiledLaws (cm := simple_members).
Proof.
  split.
  - intros h rest v p o n Hw Hv Hp Hn Hm. simpl. unfold simple_unshare, deref. rewrite Hv, Hp. cbn [from_option_or]. rewrite bind_ret.
    case_bool_decide; [done|]. destruct (wf_object h v rest p Hw Hv) as (o' & Ho' & Hs & Hg & _). assert (o' = o) as -> by congruence.
    pose proof (slice_length _ v Hg Hs) as Hl. destruct Hs as (Hs0 & Hs1 & Hs2). pose proof (good_bounds _ Hg).
    assert (size_ v = Z.of_nat (length (slice (buf o) v))) as Hz by lia.
    destruct (copy_good (slice (buf o) v) n) as (b & Hcopy & Hgb & Hcont & Hsz); [lia..|]. rewrite <-Hz in Hcopy, Hsz. rewrite Hcopy, bind_ret.
    destruct (copy_inv false (slice (buf o) v) n) as (b' & Hcopy' & _ & Hge); [lia..|]. rewrite <-Hz in Hcopy'.
    assert (b' = b) as -> by congruence. unfold new_object.
    exists (fresh (dom h)), b, (mkCow (Some (fresh (dom h))) 0 (size_ v)). split_and!; [apply fresh_object|done|done|unfold slice_of; cbn; lia|done|cbn; lia| |done].
    unfold value. rewrite Hv, Hp. unfold slice at 1. rewrite Hcont. simpl. by rewrite drop_0, take_ge by lia.
  - done.
  - intros h hs n c Hw Hn Hc. simpl. unfold simple_sized. destruct (Z.leb_spec (Z.max n c) 0); [left; split; [lia|done]|right].
    destruct (copy_good (replicate (Z.to_nat n) None) c) as (b & Hcopy & Hgb & Hcont & Hsz); rewrite ?length_replicate, ?Z2Nat.id in * by lia; [lia..|].
    rewrite Hcopy, bind_ret. unfold new_object. eexists _, b, _. unfold AddRef, deref. rewrite lookup_insert_eq. cbn [from_option_or].
    rewrite !bind_ret. split; [apply fresh_object|]. split; [done|]. split; [|split; [|split; [|by rewrite insert_insert_eq]]]; [done| |done].
    unfold slice_of. simpl. lia.
  - done.
Qed.
End Simple.

(** ** Properties *)

Section Properties.
Context {bm : BuildMode} {tgt : Target} {E : Type} `{EqDecision E} {mem : Memory tgt E}.
Context {cm : CompiledMembers E} {laws : CompiledLaws}.

(** C18: Copy-on-write buffers are values.  In any sequence of assignments, moves,
    swaps, slices, constructions, [SetData], [AppendData] (of memory or of another
    buffer) and writes through [MutableData] on any number of handles, in debug
    and in release builds, no call fails, every handle ends with the bytes it
    would have if nothing were shared (a change through one handle is never seen
    through another, slices included), every object is counted by exactly the
    handles on it so that none is leaked, and reading an element gives it.  The
    sequence may not append a handle to itself or append or set nothing. *)
Theorem cow_refines_values (n : nat) (ops : list (op (E := E))) :
  Z.of_nat n < 2 ^ 30 → ops_ok (replicate n []) ops = true →
  ∃ w, run_ops (init_world n) ops = Ret w ∧
    value (objs w) <$> vars w = fold_left value_op ops (replicate n []) ∧
    map_Forall (λ p o, ref_count_ o = Z.of_nat (refs p (vars w)) ∧ (0 < refs p (vars w))%nat) (objs w) ∧
    ∀ i v k x, vars w !! i = Some v → value (objs w) v !! k = Some (Some x) → get_at (objs w) v (Z.of_nat k) = Ret x.
Proof.
  intros Hn Hok. destruct (run_ops_rep ops _ _ (init_rep n Hn) Hok) as (w & -> & Hwf & Hvals & _).
  exists w. split_and!; [done..| |].
  - intros p o Hp. destruct Hwf as [Hobj _]. by destruct (Hobj p o Hp) as (? & ? & _).
  - intros i v k x Hi Hx. apply (get_at_ok _ _ _ _ _ Hwf); [|done]. destruct Hwf as [_ Hh]. rewrite List.Forall_forall in Hh.
    apply Hh, list_elem_of_In. by eapply list_elem_of_lookup_2.
Qed.
End Properties.

(** ** Examples *)

Definition sample_program : list (op (E := Z)) :=
  [OConstruct 0 [1; 2; 3] 5; OAssign 1 0; OSlice 2 0 1 2; OWrite 0 1 9; OAppend 1 [7]; OAppendBuffer 2 1; OMove 3 2].

Definition byte_members : CompiledMembers Z := simple_members (bm := debug_build) (mem := byte_memory).

Definition run_bytes (n : nat) (ops : list (op (E := Z))) : outcome (world (E := Z)) :=
  run_ops (bm := debug_build) (mem := byte_memory) (cm := byte_members) (init_world n) ops.

Lemma cow_refines_values_witness :
  ∃ w, run_bytes 4 sample_program = Ret w ∧
    value (objs w) <$> vars w =
      [[Some 1; Some 9; Some 3]; [Some 1; Some 2; Some 3; Some 7]; []; [Some 2; Some 3; Some 1; Some 2; Some 3; Some 7]].
Proof.
  pose proof (cow_refines_values (bm := debug_build) (mem := byte_memory) (cm := byte_members)
    (laws := simple_laws (bm := debug_build) (mem := byte_memory)) 4 sample_program eq_refl eq_refl) as (w & Hr & Hv & _).
  exists w. split; [exact Hr|]. rewrite Hv. reflexivity.
Defined.

(** A handle with three bytes in an object of three, appended to itself. *)
Example self_append :
  run_bytes 1 [OConstruct 0 [1; 2; 3] 3; OAppendBuffer 0 0] = Crash OutOfBounds.
Proof. vm_compute. reflexivity. Qed.

(** The same with capacity for the result. *)
Example self_append_with_room :
  (w ← run_bytes 1 [OConstruct 0 [1; 2] 4; OAppendBuffer 0 0]; Ret (value (objs w) <$> vars w)) =
  Ret [[Some 1; Some 2; Some 1; Some 2]].
Proof. vm_compute. reflexivity. Qed.
