(* ===== verification/WireFormat.v ===== *)
(** * Small wire formats

    Model of [src/include/rtc_base/byte_order.h] (numbers in memory in a given
    byte order) and of [src/include/modules/rtp_rtcp/include/rtp_cvo.h] (the byte
    of a video rotation).  The macros [htobe16] and the like are written out for
    machines of both byte orders, as the header does where it defines them itself;
    on POSIX systems the C library defines the same functions.  A word in memory is
    its bytes in the order of the machine.  The pointer given to the helpers is
    aligned for the word, as the access through it requires. *)

From S2P Require Import Prelude SafeConversions SafeMinMax ByteIo.

(** ** Words of a machine *)

(** [WEBRTC_ARCH_BIG_ENDIAN]. *)
Class ByteOrder := { arch_big_endian : bool }.

Section Code.
Context `{ByteOrder}.

(** [*static_cast<uintN_t*>(memory)], for [n] bytes. *)
Definition load_word (n : nat) (memory : list Z) : outcome Z :=
  if (n <=? length memory)%nat
  then Ret ((if arch_big_endian then be_value else le_value) (take n memory)) else Crash OutOfBounds.

Definition store_word (n : nat) (memory : list Z) (v : Z) : outcome (list Z) :=
  if (n <=? length memory)%nat
  then Ret ((if arch_big_endian then be_bytes else le_bytes) n v ++ drop n memory) else Crash OutOfBounds.

(** [__builtin_bswap16], [_byteswap_uint64] and so on. *)
Definition bswap (n : nat) (v : Z) : Z := be_value (le_bytes n v).

Definition htobe16 (v : Z) : Z := if arch_big_endian then v else bswap 2 v.
Definition htobe32 (v : Z) : Z := if arch_big_endian then v else bswap 4 v.
Definition htobe64 (v : Z) : Z := if arch_big_endian then v else bswap 8 v.
Definition be16toh (v : Z) : Z := if arch_big_endian then v else bswap 2 v.
Definition be32toh (v : Z) : Z := if arch_big_endian then v else bswap 4 v.
Definition be64toh (v : Z) : Z := if arch_big_endian then v else bswap 8 v.
Definition htole16 (v : Z) : Z := if arch_big_endian then bswap 2 v else v.
Definition htole32 (v : Z) : Z := if arch_big_endian then bswap 4 v else v.
Definition htole64 (v : Z) : Z := if arch_big_endian then bswap 8 v else v.
Definition le16toh (v : Z) : Z := if arch_big_endian then bswap 2 v else v.
Definition le32toh (v : Z) : Z := if arch_big_endian then bswap 4 v else v.
Definition le64toh (v : Z) : Z := if arch_big_endian then bswap 8 v else v.

(** ** The helpers *)

Definition Set8 (memory : list Z) (offset : nat) (v : Z) : outcome (list Z) := store memory offset v.
Definition Get8 (memory : list Z) (offset : nat) : outcome Z := load memory offset.

Definition SetBE16 (memory : list Z) (v : Z) : outcome (list Z) := store_word 2 memory (htobe16 v).
Definition SetBE32 (memory : list Z) (v : Z) : outcome (list Z) := store_word 4 memory (htobe32 v).
Definition SetBE64 (memory : list Z) (v : Z) : outcome (list Z) := store_word 8 memory (htobe64 v).
Definition GetBE16 (memory : list Z) : outcome Z := w ← load_word 2 memory; Ret (be16toh w).
Definition GetBE32 (memory : list Z) : outcome Z := w ← load_word 4 memory; Ret (be32toh w).
Definition GetBE64 (memory : list Z) : outcome Z := w ← load_word 8 memory; Ret (be64toh w).
Definition SetLE16 (memory : list Z) (v : Z) : outcome (list Z) := store_word 2 memory (htole16 v).
Definition SetLE32 (memory : list Z) (v : Z) : outcome (list Z) := store_word 4 memory (htole32 v).
Definition SetLE64 (memory : list Z) (v : Z) : outcome (list Z) := store_word 8 memory (htole64 v).
Definition GetLE16 (memory : list Z) : outcome Z := w ← load_word 2 memory; Ret (le16toh w).
Definition GetLE32 (memory : list Z) : outcome Z := w ← load_word 4 memory; Ret (le32toh w).
Definition GetLE64 (memory : list Z) : outcome Z := w ← load_word 8 memory; Ret (le64toh w).

Definition IsHostBigEndian : bool := arch_big_endian.

Definition HostToNetwork16 (n : Z) : Z := htobe16 n.
Definition HostToNetwork32 (n : Z) : Z := htobe32 n.
Definition HostToNetwork64 (n : Z) : Z := htobe64 n.
Definition NetworkToHost16 (n : Z) : Z := be16toh n.
Definition NetworkToHost32 (n : Z) : Z := be32toh n.
Definition NetworkToHost64 (n : Z) : Z := be64toh n.
End Code.

(** ** The rotation byte *)

Inductive VideoRotation := kVideoRotation_0 | kVideoRotation_90 | kVideoRotation_180 | kVideoRotation_270.

#[export] Instance rotation_eq_dec : EqDecision VideoRotation.
Proof. solve_decision. Defined.

Definition ConvertVideoRotationToCVOByte (rotation : VideoRotation) : Z :=
  match rotation with
  | kVideoRotation_0 => 0
  | kVideoRotation_90 => 1
  | kVideoRotation_180 => 2
  | kVideoRotation_270 => 3
  end.

(** The switch has a default case, [RTC_NOTREACHED]. *)
Definition ConvertCVOByteToVideoRotation `{BuildMode} (cvo_byte : Z) : outcome VideoRotation :=
  let rotation_bits := Z.land cvo_byte 3 in
  if rotation_bits =? 0 then Ret kVideoRotation_0
  else if rotation_bits =? 1 then Ret kVideoRotation_90
  else if rotation_bits =? 2 then Ret kVideoRotation_180
  else if rotation_bits =? 3 then Ret kVideoRotation_270
  else _ ← RTC_DCHECK false; Ret kVideoRotation_0.

(** ** Lemmas *)

Lemma wire_bytes_value n : ∀ l, bytes_ok l → length l = n → le_bytes n (le_value l) = l.
Proof.
  induction n as [|n IH]; intros [|b l] Hl Hn; simpl in *; try done. apply Forall_cons_1 in Hl as [Hb Hl]. unfold is_byte in Hb.
  rewrite Z.mul_comm, Z.mod_add, Z.mod_small, Z.div_add, Z.div_small, Z.add_0_l, IH by (done || lia). done.
Qed.

Lemma bswap_be n l : bytes_ok l → length l = n → bswap n (be_value l) = le_value l.
Proof.
  intros Hl Hn. unfold bswap. rewrite (be_le_value l), wire_bytes_value by (rewrite ?length_reverse; by try apply Forall_reverse).
  by rewrite be_le_value, reverse_involutive.
Qed.

Lemma bswap_le n l : bytes_ok l → length l = n → bswap n (le_value l) = be_value l.
Proof. intros Hl Hn. unfold bswap. by rewrite wire_bytes_value. Qed.

Lemma bswap_bytes n v : le_bytes n (bswap n v) = be_bytes n v ∧ be_bytes n (bswap n v) = le_bytes n v.
Proof.
  unfold bswap, be_bytes. rewrite be_le_value, wire_bytes_value; [by rewrite reverse_involutive|apply Forall_reverse, le_bytes_ok|].
  by rewrite length_reverse, le_bytes_length.
Qed.

Lemma bswap_involutive n v : 0 ≤ v < 2 ^ (8 * Z.of_nat n) → bswap n (bswap n v) = v.
Proof.
  intros Hv. unfold bswap at 1. destruct (bswap_bytes n v) as [-> _]. unfold be_bytes.
  by rewrite be_le_value, reverse_involutive, le_value_bytes, Z.mod_small.
Qed.

Section Words.
Context `{ByteOrder} (n : nat) (memory : list Z) (Hn : (n ≤ length memory)%nat).

(** A load or a store with the bytes swapped on machines of the other order. *)
Lemma load_order : bytes_ok memory →
  (w ← load_word n memory; Ret (if arch_big_endian then w else bswap n w)) = Ret (be_value (take n memory)) ∧
  (w ← load_word n memory; Ret (if arch_big_endian then bswap n w else w)) = Ret (le_value (take n memory)).
Proof using Hn.
  intros Hm. assert (bytes_ok (take n memory)) by by apply Forall_take. assert (length (take n memory) = n) by by apply length_take_le.
  unfold load_word. rewrite (proj2 (Nat.leb_le _ _)), !bind_ret by done.
  destruct arch_big_endian; split; [done|f_equal; by apply bswap_be|f_equal; by apply bswap_le|done].
Qed.

Lemma store_order v :
  store_word n memory (if arch_big_endian then v else bswap n v) = Ret (be_bytes n v ++ drop n memory) ∧
  store_word n memory (if arch_big_endian then bswap n v else v) = Ret (le_bytes n v ++ drop n memory).
Proof using Hn.
  destruct (bswap_bytes n v) as [H1 H2]. unfold store_word. rewrite (proj2 (Nat.leb_le _ _)) by done.
  destruct arch_big_endian; by rewrite ?H1, ?H2.
Qed.
End Words.

(** ** Properties *)

(** The widths of the helpers, as instances of the byte readers and writers. *)
Definition GetBE `{ByteOrder} (n : nat) : list Z → outcome Z :=
  match n with 2%nat => GetBE16 | 4%nat => GetBE32 | _ => GetBE64 end.
Definition GetLE `{ByteOrder} (n : nat) : list Z → outcome Z :=
  match n with 2%nat => GetLE16 | 4%nat => GetLE32 | _ => GetLE64 end.
Definition SetBE `{ByteOrder} (n : nat) : list Z → Z → outcome (list Z) :=
  match n with 2%nat => SetBE16 | 4%nat => SetBE32 | _ => SetBE64 end.
Definition SetLE `{ByteOrder} (n : nat) : list Z → Z → outcome (list Z) :=
  match n with 2%nat => SetLE16 | 4%nat => SetLE32 | _ => SetLE64 end.
Definition uint_of (n : nat) : int_type := IntType (8 * Z.of_nat n) false.

Lemma uint_instance n : n = 2%nat ∨ n = 4%nat ∨ n = 8%nat → instance_ok (uint_of n) n.
Proof. intros [-> |[-> | ->]]; by apply (bool_decide_unpack _). Qed.

(** C32: The helpers of [byte_order.h] and the readers and writers of [byte_io.h]
    are the same functions: on machines of either byte order and for the widths
    of 16, 32 and 64 bits, [GetBE] and [GetLE] read what
    [ByteReader::ReadBigEndian] and [ReadLittleEndian] read, and [SetBE] and
    [SetLE] leave in memory what [ByteWriter] writes; so what one writes the
    other reads back. *)
Theorem byte_order_agrees `{ByteOrder} (n : nat) (memory : list Z) (v : Z) :
  n = 2%nat ∨ n = 4%nat ∨ n = 8%nat → bytes_ok memory → (n ≤ length memory)%nat → 0 ≤ v < 2 ^ (8 * Z.of_nat n) →
  GetBE n memory = ReadBigEndian (uint_of n) n memory ∧
  GetLE n memory = ReadLittleEndian (uint_of n) n memory ∧
  SetBE n memory v = WriteBigEndian (uint_of n) n memory v ∧
  SetLE n memory v = WriteLittleEndian (uint_of n) n memory v.
Proof.
  intros Hn Hm Hl Hv. pose proof (uint_instance n Hn) as Hi. unfold ReadBigEndian, ReadLittleEndian, WriteBigEndian, WriteLittleEndian. simpl.
  destruct (Read_unsigned_value _ n memory Hi Hm Hl) as [-> ->]. destruct (Write_unsigned_value _ n memory v Hi Hl) as [-> ->].
  assert (bytes_ok (take n memory)) as Ht by by apply Forall_take.
  pose proof (be_value_range _ Ht) as Hb. pose proof (le_value_range _ Ht) as Hle. rewrite length_take_le in Hb, Hle by done.
  unfold convert. simpl. rewrite !wrapU_small by done.
  destruct (load_order n memory Hl Hm) as [HB HL]. destruct (store_order n memory Hl v) as [HSB HSL].
  destruct Hn as [-> |[-> | ->]]; by split_and!.
Qed.

(** Conversion to network order and back, for every width. *)
Lemma network_round_trip `{ByteOrder} v :
  (0 ≤ v < 2 ^ 16 → NetworkToHost16 (HostToNetwork16 v) = v) ∧
  (0 ≤ v < 2 ^ 32 → NetworkToHost32 (HostToNetwork32 v) = v) ∧
  (0 ≤ v < 2 ^ 64 → NetworkToHost64 (HostToNetwork64 v) = v).
Proof.
  unfold NetworkToHost16, NetworkToHost32, NetworkToHost64, HostToNetwork16, HostToNetwork32, HostToNetwork64, htobe16, htobe32, htobe64, be16toh, be32toh, be64toh.
  destruct arch_big_endian; [done|]. split_and!; intros Hv; by apply bswap_involutive.
Qed.

(** The rotation byte is read back whatever its other bits are, and reading never
    reaches the default case. *)
Lemma cvo_round_trip `{BuildMode} (rotation : VideoRotation) (flags : Z) : 0 ≤ flags →
  ConvertCVOByteToVideoRotation (4 * flags + ConvertVideoRotationToCVOByte rotation) = Ret rotation.
Proof.
  intros Hf. unfold ConvertCVOByteToVideoRotation. change 3 with (Z.ones 2). rewrite Z.land_ones by lia.
  rewrite Z.mul_comm, Z.add_comm. change (2 ^ 2) with 4. rewrite Z.mod_add by lia. by destruct rotation.
Qed.

Definition little_endian : ByteOrder := {| arch_big_endian := false |}.

Lemma byte_order_agrees_witness :
  @GetBE little_endian 4 [1; 2; 3; 4; 5] = ReadBigEndian uint32_t 4 [1; 2; 3; 4; 5] ∧
  @GetBE little_endian 4 [1; 2; 3; 4; 5] = Ret 16909060.
Proof.
  split; [|reflexivity].
  apply (@byte_order_agrees little_endian 4 [1; 2; 3; 4; 5] 0); [right; left; reflexivity|by repeat constructor|simpl; lia|lia].
Defined.
