(* ===== verification/InlineVector.v ===== *)
(** * Inline vectors and array views

    Model of [src/include/rtc_base/bounded_inline_vector.h] with
    [bounded_inline_vector_impl.h], and of [src/include/api/array_view.h].

    The array of a vector is a list of cells; a cell is [None] when no object (or,
    for trivial types, no value) is there.  Constructing over a live object whose
    destructor does something, destroying what is not there, reading a cell
    without a value and leaving the array are outcomes of their own, so that the
    theorems show that the life of every element is accounted for.  The traits of
    the element type choose the code, as [if constexpr] and the specialisations of
    [Storage] do. *)

From S2P Require Import Prelude.

(** ** Element types *)

Class ElementType (T : Type) := {
  is_trivial : bool;
  trivially_copy_constructible : bool;
  trivially_move_constructible : bool;
  trivially_destructible : bool;
  sizeof_T : Z;
  default_init : option T;     (* what [::new (p) T] leaves; [None]: no value *)
  moved : T → T                (* what a move leaves in its source *)
}.

(** What the language says of the traits. *)
Class ElementLaws (T : Type) {ET : ElementType T} : Prop := {
  trivial_all : is_trivial = true →
    trivially_copy_constructible = true ∧ trivially_move_constructible = true ∧ trivially_destructible = true;
  no_value_trivial : default_init = None → is_trivial = true;
  trivial_move : trivially_move_constructible = true → ∀ x, moved x = x
}.

(** ** Elements in an array *)

Section Impl.
Context {bm : BuildMode} {T : Type} {ET : ElementType T}.

Abbreviation cells := (list (option T)).

(** [data[i]]. *)
Definition cell (data : cells) (i : nat) : outcome (option T) := from_option_or OutOfBounds (data !! i).

(** An object, or the bytes of one, put into a cell. *)
Definition put (data : cells) (i : nat) (c : option T) : outcome cells :=
  old ← cell data i;
  match old with
  | Some _ => if trivially_destructible then Ret (<[i := c]> data) else Crash ObjectLost
  | None => Ret (<[i := c]> data)
  end.

Fixpoint InitializeElements (data : cells) (i : nat) (elements : list T) : outcome cells :=
  match elements with
  | [] => Ret data
  | e :: elements => data ← put data i (Some e); InitializeElements data (S i) elements
  end.

(** [n] passes of the loop, at [data + i]. *)
Fixpoint DefaultInitializeElements (data : cells) (i n : nat) : outcome cells :=
  match n with
  | O => Ret data
  | S n => data ← put data i default_init; DefaultInitializeElements data (S i) n
  end.

(** [memcpy]: cells are copied with or without a value. *)
Fixpoint memcpy_cells (src dst : cells) (i n : nat) : outcome cells :=
  match n with
  | O => Ret dst
  | S n => c ← cell src i; dst ← put dst i c; memcpy_cells src dst (S i) n
  end.

(** [std::uninitialized_copy_n]. *)
Fixpoint uninitialized_copy_n (src dst : cells) (i n : nat) : outcome cells :=
  match n with
  | O => Ret dst
  | S n =>
      c ← cell src i; v ← from_option_or UninitRead c;
      dst ← put dst i (Some v); uninitialized_copy_n src dst (S i) n
  end.

(** The elements and the new size. *)
Definition CopyElements (src_data : cells) (src_size : nat) (dst_data : cells) : outcome (cells * nat) :=
  dst ← (if trivially_copy_constructible then memcpy_cells src_data dst_data 0 src_size
         else uninitialized_copy_n src_data dst_data 0 src_size);
  Ret (dst, src_size).

Fixpoint move_loop (src dst : cells) (i n : nat) : outcome (cells * cells) :=
  match n with
  | O => Ret (src, dst)
  | S n =>
      c ← cell src i; v ← from_option_or UninitRead c;
      dst ← put dst i (Some v); move_loop (<[i := Some (moved v)]> src) dst (S i) n
  end.

(** The source, the elements and the new size. *)
Definition MoveElements (src_data : cells) (src_size : nat) (dst_data : cells) : outcome (cells * cells * nat) :=
  '(src, dst) ← (if trivially_move_constructible
                 then dst ← memcpy_cells src_data dst_data 0 src_size; Ret (src_data, dst)
                 else move_loop src_data dst_data 0 src_size);
  Ret (src, dst, src_size).

Fixpoint destroy_loop (data : cells) (i n : nat) : outcome cells :=
  match n with
  | O => Ret data
  | S n =>
      c ← cell data i; _ ← from_option_or UninitRead c;
      destroy_loop (<[i := None]> data) (S i) n
  end.

(** [n] elements from [data + i] on. *)
Definition DestroyElements (data : cells) (i n : nat) : outcome cells :=
  if trivially_destructible then Ret data else destroy_loop data i n.

(** ** Storage *)

Record Storage := mkStorage { size : nat; data : cells }.

Definition kSmallSize : Z := 64.

Definition is_small (fixed_capacity : nat) : bool := sizeof_T * Z.of_nat fixed_capacity <=? kSmallSize.

Definition raw (fixed_capacity : nat) : cells := replicate fixed_capacity None.

Definition Storage_init (fixed_capacity : nat) (elements : list T) : outcome Storage :=
  d ← InitializeElements (raw fixed_capacity) 0 elements;
  Ret (mkStorage (length elements) d).

(** The copy constructor: element-wise, of everything, of the elements in use. *)
Definition Storage_copy (fixed_capacity : nat) (other : Storage) : outcome Storage :=
  if negb is_trivial then
    '(d, n) ← CopyElements (data other) (size other) (raw fixed_capacity); Ret (mkStorage n d)
  else if is_small fixed_capacity then Ret other
  else d ← memcpy_cells (data other) (raw fixed_capacity) 0 (size other); Ret (mkStorage (size other) d).

(** The move constructor, with what is left of [other]; the storages of trivial
    types only have a copy constructor. *)
Definition Storage_move (fixed_capacity : nat) (other : Storage) : outcome (Storage * Storage) :=
  if negb is_trivial then
    '(src, d, n) ← MoveElements (data other) (size other) (raw fixed_capacity);
    Ret (mkStorage n d, mkStorage (size other) src)
  else s ← Storage_copy fixed_capacity other; Ret (s, other).

(** Copy assignment from another object; from itself nothing is done. *)
Definition Storage_assign (fixed_capacity : nat) (s other : Storage) : outcome Storage :=
  if negb is_trivial then
    d ← DestroyElements (data s) 0 (size s);
    '(d, n) ← CopyElements (data other) (size other) d;
    Ret (mkStorage n d)
  else if is_small fixed_capacity then Ret other
  else d ← memcpy_cells (data other) (data s) 0 (size other); Ret (mkStorage (size other) d).

Definition Storage_assign_self (s : Storage) : outcome Storage := Ret s.

Definition Storage_assign_move (fixed_capacity : nat) (s other : Storage) : outcome (Storage * Storage) :=
  if negb is_trivial then
    d ← DestroyElements (data s) 0 (size s);
    '(src, d, n) ← MoveElements (data other) (size other) d;
    Ret (mkStorage n d, mkStorage (size other) src)
  else s ← Storage_assign fixed_capacity s other; Ret (s, other).

(** Move assignment from itself: the elements are destroyed and [size = 0] leaves
    none to move. *)
Definition Storage_assign_move_self (s : Storage) : outcome Storage :=
  if negb is_trivial then
    d ← DestroyElements (data s) 0 (size s);
    '(_, d, n) ← MoveElements d 0 d;
    Ret (mkStorage n d)
  else Storage_assign_self s.

Definition Storage_destroy (s : Storage) : outcome cells := DestroyElements (data s) 0 (size s).

(** ** BoundedInlineVector *)

Record BoundedInlineVector := mkVector { fixed_capacity : nat; storage_ : Storage }.

Definition vsize (v : BoundedInlineVector) : nat := size (storage_ v).
Definition vempty (v : BoundedInlineVector) : bool := (size (storage_ v) =? 0)%nat.
Definition capacity (v : BoundedInlineVector) : nat := fixed_capacity v.

(** The constructor from elements; the static assertion bounds their number. *)
Definition BoundedInlineVector_init (cap : nat) (elements : list T) : outcome BoundedInlineVector :=
  s ← Storage_init cap elements; Ret (mkVector cap s).

(** Construction from a vector of any capacity; the implicit constructor is that
    of the storage. *)
Definition BoundedInlineVector_copy (cap : nat) (other : BoundedInlineVector) : outcome BoundedInlineVector :=
  if (fixed_capacity other =? cap)%nat then s ← Storage_copy cap (storage_ other); Ret (mkVector cap s)
  else
    _ ← RTC_DCHECK (vsize other <=? cap)%nat;
    '(d, n) ← CopyElements (data (storage_ other)) (vsize other) (raw cap);
    Ret (mkVector cap (mkStorage n d)).

(** The new vector and what is left of [other]. *)
Definition BoundedInlineVector_move (cap : nat) (other : BoundedInlineVector) : outcome (BoundedInlineVector * BoundedInlineVector) :=
  if (fixed_capacity other =? cap)%nat then
    '(s, src) ← Storage_move cap (storage_ other); Ret (mkVector cap s, mkVector cap src)
  else
    _ ← RTC_DCHECK (vsize other <=? cap)%nat;
    '(src, d, n) ← MoveElements (data (storage_ other)) (vsize other) (raw cap);
    Ret (mkVector cap (mkStorage n d), mkVector (fixed_capacity other) (mkStorage (vsize other) src)).

Definition assign (v other : BoundedInlineVector) : outcome BoundedInlineVector :=
  let cap := fixed_capacity v in
  if (fixed_capacity other =? cap)%nat then s ← Storage_assign cap (storage_ v) (storage_ other); Ret (mkVector cap s)
  else
    d ← DestroyElements (data (storage_ v)) 0 (vsize v);
    _ ← RTC_DCHECK (vsize other <=? cap)%nat;
    '(d, n) ← CopyElements (data (storage_ other)) (vsize other) d;
    Ret (mkVector cap (mkStorage n d)).

Definition assign_move (v other : BoundedInlineVector) : outcome (BoundedInlineVector * BoundedInlineVector) :=
  let cap := fixed_capacity v in
  if (fixed_capacity other =? cap)%nat then
    '(s, src) ← Storage_assign_move cap (storage_ v) (storage_ other); Ret (mkVector cap s, mkVector cap src)
  else
    d ← DestroyElements (data (storage_ v)) 0 (vsize v);
    _ ← RTC_DCHECK (vsize other <=? cap)%nat;
    '(src, d, n) ← MoveElements (data (storage_ other)) (vsize other) d;
    Ret (mkVector cap (mkStorage n d), mkVector (fixed_capacity other) (mkStorage (vsize other) src)).

(** [resize].  With a negative size a release build goes on with a pointer before
    the array. *)
Definition resize (v : BoundedInlineVector) (new_size : Z) : outcome BoundedInlineVector :=
  _ ← RTC_DCHECK (0 <=? new_size);
  _ ← RTC_DCHECK (new_size <=? Z.of_nat (fixed_capacity v));
  if new_size <? 0 then Crash OutOfBounds else
  let new_size := Z.to_nat new_size in
  let s := storage_ v in
  d ← (if (size s <? new_size)%nat then DefaultInitializeElements (data s) (size s) (new_size - size s)
       else if (new_size <? size s)%nat then DestroyElements (data s) new_size (size s - new_size)
       else Ret (data s));
  Ret (mkVector (fixed_capacity v) (mkStorage new_size d)).

(** The cell of [operator[]]. *)
Definition index_cell (v : BoundedInlineVector) (index : Z) : outcome (option T) :=
  _ ← RTC_DCHECK (0 <=? index);
  _ ← RTC_DCHECK (index <? Z.of_nat (vsize v));
  if index <? 0 then Crash OutOfBounds else cell (data (storage_ v)) (Z.to_nat index).

(** [v[index]] and [v[index] = x]; an object can only be assigned to when it is
    there. *)
Definition get_at (v : BoundedInlineVector) (index : Z) : outcome T :=
  c ← index_cell v index; from_option_or UninitRead c.

Definition set_at (v : BoundedInlineVector) (index : Z) (x : T) : outcome BoundedInlineVector :=
  c ← index_cell v index;
  if is_trivial || bool_decide (is_Some c)
  then Ret (mkVector (fixed_capacity v) (mkStorage (vsize v) (<[Z.to_nat index := Some x]> (data (storage_ v)))))
  else Crash UninitRead.

Definition destroy (v : BoundedInlineVector) : outcome cells := Storage_destroy (storage_ v).
End Impl.

(** ** Loops over the cells *)

Section Elements.
Context {bm : BuildMode} {T : Type} {ET : ElementType T} {EL : ElementLaws T}.
Implicit Types (l pre mid post tail src : list (option T)).

(** Cells that may be overwritten. *)
Definition free mid : Prop := trivially_destructible = true ∨ Forall (λ c, c = None) mid.

Definition live l : Prop := is_trivial = false → Forall is_Some l.

Lemma free_cons c mid : free (c :: mid) → (trivially_destructible = true ∨ c = None) ∧ free mid.
Proof. intros [Ht|Hn]; [split; by left|]. apply Forall_cons_1 in Hn as [-> Hn]. split; by right. Qed.

Lemma free_app l1 l2 : free l1 → free l2 → free (l1 ++ l2).
Proof. intros [?|H1] [?|H2]; try (by left). right. by apply Forall_app. Qed.

Lemma free_drop n l : free l → free (drop n l).
Proof. intros [?|Hn]; [by left|right]. by apply Forall_drop. Qed.

Lemma free_raw n : free (raw n).
Proof. right. by apply Forall_replicate. Qed.

Lemma inline_put_ok pre c mid post x : free (c :: mid) →
  put (pre ++ c :: mid ++ post) (length pre) x = Ret ((pre ++ [x]) ++ mid ++ post).
Proof.
  intros Hf%free_cons. destruct Hf as [Hc _]. unfold put, cell. rewrite list_lookup_middle by done. cbn [from_option_or]. rewrite bind_ret.
  rewrite insert_app_r_alt, Nat.sub_diag by done. simpl. rewrite <-app_assoc. simpl.
  destruct c; [|done]. by destruct Hc as [-> |?].
Qed.

Lemma inline_init_ok es : ∀ pre mid post, free mid → length mid = length es →
  InitializeElements (pre ++ mid ++ post) (length pre) es = Ret (pre ++ (Some <$> es) ++ post).
Proof.
  induction es as [|e es IH]; intros pre [|c mid] post Hf Hl; simpl in *; try done. simplify_eq.
  rewrite inline_put_ok, bind_ret by done. replace (S (length pre)) with (length (pre ++ [Some e])) by (rewrite length_app; simpl; lia).
  rewrite IH by (done || by apply free_cons in Hf as [_ ?]). by rewrite <-app_assoc.
Qed.

Lemma default_ok n : ∀ pre mid post, free mid → length mid = n →
  DefaultInitializeElements (pre ++ mid ++ post) (length pre) n = Ret (pre ++ replicate n default_init ++ post).
Proof.
  induction n as [|n IH]; intros pre [|c mid] post Hf Hl; simpl in *; try done. simplify_eq.
  rewrite inline_put_ok, bind_ret by done. replace (S (length pre)) with (length (pre ++ [default_init (T := T)])) by (rewrite length_app; simpl; lia).
  rewrite IH by (done || by apply free_cons in Hf as [_ ?]). by rewrite <-app_assoc.
Qed.

Lemma memcpy_ok n : ∀ spre l tail pre mid post, length spre = length pre → length l = n → free mid → length mid = n →
  memcpy_cells (spre ++ l ++ tail) (pre ++ mid ++ post) (length pre) n = Ret (pre ++ l ++ post).
Proof.
  induction n as [|n IH]; intros spre [|x l] tail pre [|c mid] post Hs Hl Hf Hm; simpl in *; try done. simplify_eq.
  unfold cell. rewrite <-Hs, list_lookup_middle by done. cbn [from_option_or]. rewrite bind_ret, Hs, inline_put_ok, bind_ret by done.
  replace (S (length pre)) with (length (pre ++ [x])) by (rewrite length_app; simpl; lia).
  replace (spre ++ x :: l ++ tail) with ((spre ++ [x]) ++ l ++ tail) by by rewrite <-app_assoc.
  rewrite IH; [by rewrite <-app_assoc|rewrite !length_app; simpl; lia|done|by apply free_cons in Hf as [_ ?]|lia].
Qed.

Lemma copy_n_ok n : ∀ spre l tail pre mid post, length spre = length pre → length l = n → free mid → length mid = n → Forall is_Some l →
  uninitialized_copy_n (spre ++ l ++ tail) (pre ++ mid ++ post) (length pre) n = Ret (pre ++ l ++ post).
Proof.
  induction n as [|n IH]; intros spre [|x l] tail pre [|c mid] post Hs Hl Hf Hm Hsome; simpl in *; try done. simplify_eq.
  apply Forall_cons_1 in Hsome as [[v ->] Hsome].
  unfold cell. rewrite <-Hs, list_lookup_middle by done. cbn [from_option_or]. rewrite bind_ret. cbn [from_option_or]. rewrite bind_ret, Hs, inline_put_ok, bind_ret by done.
  replace (S (length pre)) with (length (pre ++ [Some v])) by (rewrite length_app; simpl; lia).
  replace (spre ++ Some v :: l ++ tail) with ((spre ++ [Some v]) ++ l ++ tail) by by rewrite <-app_assoc.
  rewrite IH; [by rewrite <-app_assoc|rewrite !length_app; simpl; lia|done|by apply free_cons in Hf as [_ ?]|lia|done].
Qed.

Lemma inline_move_loop_ok n : ∀ spre l tail pre mid post, length spre = length pre → length l = n → free mid → length mid = n → Forall is_Some l →
  move_loop (spre ++ l ++ tail) (pre ++ mid ++ post) (length pre) n =
  Ret (spre ++ (option_map moved <$> l) ++ tail, pre ++ l ++ post).
Proof.
  induction n as [|n IH]; intros spre [|x l] tail pre [|c mid] post Hs Hl Hf Hm Hsome; simpl in *; try done. simplify_eq.
  apply Forall_cons_1 in Hsome as [[v ->] Hsome].
  unfold cell. rewrite <-Hs, list_lookup_middle by done. cbn [from_option_or]. rewrite bind_ret. cbn [from_option_or]. rewrite bind_ret.
  rewrite insert_app_r_alt, Nat.sub_diag by done. rewrite Hs, inline_put_ok, bind_ret by done. simpl.
  replace (S (length pre)) with (length (pre ++ [Some v])) by (rewrite length_app; simpl; lia).
  replace (spre ++ Some (moved v) :: l ++ tail) with ((spre ++ [Some (moved v)]) ++ l ++ tail) by by rewrite <-app_assoc.
  rewrite IH; [by rewrite <-!app_assoc|rewrite !length_app; simpl; lia|done|by apply free_cons in Hf as [_ ?]|lia|done].
Qed.

Lemma destroy_loop_ok n : ∀ pre l post, length l = n → Forall is_Some l →
  destroy_loop (pre ++ l ++ post) (length pre) n = Ret (pre ++ replicate n None ++ post).
Proof.
  induction n as [|n IH]; intros pre [|x l] post Hl Hsome; simpl in *; try done. simplify_eq.
  apply Forall_cons_1 in Hsome as [[v ->] Hsome]. unfold cell. rewrite list_lookup_middle by done. cbn [from_option_or]. rewrite bind_ret. cbn [from_option_or]. rewrite bind_ret.
  rewrite insert_app_r_alt, Nat.sub_diag by done. simpl.
  replace (S (length pre)) with (length (pre ++ [@None T])) by (rewrite length_app; simpl; lia).
  replace (pre ++ None :: l ++ post) with ((pre ++ [None]) ++ l ++ post) by by rewrite <-app_assoc.
  rewrite IH by done. by rewrite <-!app_assoc.
Qed.

(** ** The functions on elements *)

Lemma fmap_moved_id l : trivially_move_constructible = true → option_map moved <$> l = l.
Proof.
  intros Ht. rewrite <-(list_fmap_id l) at 2. apply list_fmap_ext. intros k [x|] _; [|done]. simpl. by rewrite trivial_move.
Qed.

Lemma not_trivial (b : bool) : (is_trivial = true → b = true) → b = false → is_trivial = false.
Proof. destruct is_trivial; intros Hb ?; [|done]. rewrite Hb in *; done. Qed.

Lemma CopyElements_ok l tail dst : live l → free dst → (length l ≤ length dst)%nat →
  CopyElements (l ++ tail) (length l) dst = Ret (l ++ drop (length l) dst, length l).
Proof.
  intros Hl Hf Hlen. unfold CopyElements.
  assert (free (take (length l) dst)) as Hft by (destruct Hf as [?|?]; [by left|right; by apply Forall_take]).
  destruct trivially_copy_constructible eqn:Ec.
  - pose proof (memcpy_ok (length l) [] l tail [] (take (length l) dst) (drop (length l) dst) eq_refl eq_refl Hft (length_take_le _ _ Hlen)) as Hm. simpl in Hm. rewrite take_drop in Hm. by rewrite Hm, bind_ret.
  - pose proof (copy_n_ok (length l) [] l tail [] (take (length l) dst) (drop (length l) dst) eq_refl eq_refl Hft (length_take_le _ _ Hlen)) as Hm. simpl in Hm. rewrite take_drop in Hm. rewrite Hm, ?bind_ret; [done|].
    apply Hl, (not_trivial trivially_copy_constructible); [|done]. intros Ht. by apply trivial_all in Ht as (? & ? & ?).
Qed.

Lemma MoveElements_ok l tail dst : live l → free dst → (length l ≤ length dst)%nat →
  MoveElements (l ++ tail) (length l) dst = Ret ((option_map moved <$> l) ++ tail, l ++ drop (length l) dst, length l).
Proof.
  intros Hl Hf Hlen. unfold MoveElements.
  assert (free (take (length l) dst)) as Hft by (destruct Hf as [?|?]; [by left|right; by apply Forall_take]).
  destruct trivially_move_constructible eqn:Ec.
  - pose proof (memcpy_ok (length l) [] l tail [] (take (length l) dst) (drop (length l) dst) eq_refl eq_refl Hft (length_take_le _ _ Hlen)) as Hm. simpl in Hm. rewrite take_drop in Hm. rewrite Hm, !bind_ret. by rewrite fmap_moved_id.
  - pose proof (inline_move_loop_ok (length l) [] l tail [] (take (length l) dst) (drop (length l) dst) eq_refl eq_refl Hft (length_take_le _ _ Hlen)) as Hm. simpl in Hm. rewrite take_drop in Hm. rewrite Hm, ?bind_ret; [done|].
    apply Hl, (not_trivial trivially_move_constructible); [|done]. intros Ht. by apply trivial_all in Ht as (? & ? & ?).
Qed.

(** The elements [l] after [pre] go; what is left may be overwritten. *)
Lemma DestroyElements_ok pre l tail : live l → free tail →
  ∃ rest, DestroyElements (pre ++ l ++ tail) (length pre) (length l) = Ret (pre ++ rest) ∧ free rest ∧ length rest = length (l ++ tail).
Proof.
  intros Hl Hf. unfold DestroyElements. destruct trivially_destructible eqn:Ed.
  - exists (l ++ tail). split_and!; [done|by left|done].
  - rewrite destroy_loop_ok; [|done|]. { eexists. split_and!; [done| |by rewrite !length_app, length_replicate].
      apply free_app; [right; by apply Forall_replicate|done]. }
    apply Hl, (not_trivial trivially_destructible); [|done]. intros Ht. by apply trivial_all in Ht as (? & ? & ?).
Qed.
End Elements.

(** ** Vectors *)

Section Vectors.
Context {bm : BuildMode} {T : Type} {ET : ElementType T} {EL : ElementLaws T}.
Implicit Types (l tail : list (option T)) (v : BoundedInlineVector (T := T)).

(** The storage of capacity [cap] holds [l]. *)
Definition srep (cap : nat) (s : Storage (T := T)) l : Prop :=
  size s = length l ∧ live l ∧ ∃ tail, data s = l ++ tail ∧ length (data s) = cap ∧ free tail.

Definition vrep v l : Prop := srep (fixed_capacity v) (storage_ v) l.

Lemma srep_make cap l tail : live l → free tail → length (l ++ tail) = cap → srep cap (mkStorage (length l) (l ++ tail)) l.
Proof. intros Hl Hf Hc. split_and!; [done..|]. by exists tail. Qed.

Lemma inline_live_some (es : list T) : live (Some <$> es).
Proof. intros _. apply Forall_fmap, Forall_true. by eexists. Qed.

Lemma live_moved l : live l → live (option_map moved <$> l).
Proof. intros Hl Ht. apply Forall_fmap. eapply Forall_impl; [|by apply Hl]. intros c [x ->]. by eexists. Qed.

Lemma srep_bound cap s l : srep cap s l → (length l ≤ cap)%nat.
Proof. intros (_ & _ & tail & Hd & <- & _). rewrite Hd, length_app. lia. Qed.

(** The elements in use are copied, or moved, to cells [dst] that may be
    overwritten. *)
Lemma copy_to cap s l dst : srep cap s l → free dst → (length l ≤ length dst)%nat →
  ∃ d, CopyElements (data s) (size s) dst = Ret (d, length l) ∧ srep (length dst) (mkStorage (length l) d) l.
Proof.
  intros (Hs & Hl & tail & Hd & _ & _) Hf Hlen. rewrite Hd, Hs, CopyElements_ok by done. eexists. split; [done|].
  apply srep_make; [done|by apply free_drop|]. rewrite length_app, length_drop. lia.
Qed.

Lemma move_to cap s l dst : srep cap s l → free dst → (length l ≤ length dst)%nat →
  ∃ src d, MoveElements (data s) (size s) dst = Ret (src, d, length l) ∧ srep (length dst) (mkStorage (length l) d) l ∧
    srep cap (mkStorage (size s) src) (option_map moved <$> l).
Proof.
  intros (Hs & Hl & tail & Hd & Hcap & Hf') Hf Hlen. rewrite Hd, Hs, MoveElements_ok by done. eexists _, _. split; [done|]. split.
  - apply srep_make; [done|by apply free_drop|]. rewrite length_app, length_drop. lia.
  - rewrite <-(length_fmap (option_map moved) l). apply srep_make; [by apply live_moved|done|].
    by rewrite length_app, length_fmap, <-length_app, <-Hd.
Qed.

Lemma destroy_all cap s l : srep cap s l →
  ∃ d, DestroyElements (data s) 0 (size s) = Ret d ∧ free d ∧ length d = cap.
Proof.
  intros (Hs & Hl & tail & Hd & Hc & Hf). destruct (DestroyElements_ok [] l tail Hl Hf) as (rest & He & Hfr & Hlen). simpl in He.
  rewrite Hd, Hs, He. exists rest. split_and!; [done..|]. by rewrite Hlen, <-Hd.
Qed.

Lemma trivial_free l : is_trivial = true → free l.
Proof. intros Ht. left. by apply trivial_all in Ht as (_ & _ & ?). Qed.

Lemma memcpy_to cap s l dst : is_trivial = true → srep cap s l → (length l ≤ length dst)%nat →
  ∃ d, memcpy_cells (data s) dst 0 (size s) = Ret d ∧ srep (length dst) (mkStorage (size s) d) l.
Proof.
  intros Ht (Hs & Hl & tail & Hd & _ & _) Hlen. rewrite Hd, Hs.
  pose proof (memcpy_ok (length l) [] l tail [] (take (length l) dst) (drop (length l) dst) eq_refl eq_refl
    (trivial_free _ Ht) (length_take_le _ _ Hlen)) as Hm. simpl in Hm. rewrite take_drop in Hm. rewrite Hm. eexists. split; [done|].
  apply srep_make; [done|by apply trivial_free|]. rewrite length_app, length_drop. lia.
Qed.

Lemma init_srep cap (es : list T) : (length es ≤ cap)%nat →
  ∃ s, Storage_init cap es = Ret s ∧ srep cap s (Some <$> es).
Proof.
  intros Hlen. unfold Storage_init.
  pose proof (inline_init_ok es [] (raw (length es)) (raw (cap - length es)) (free_raw _) (length_replicate _ _)) as Hi. simpl in Hi.
  assert (raw (T := T) (length es) ++ raw (cap - length es) = raw cap) as Hr by (unfold raw; rewrite <-replicate_add; f_equal; lia).
  rewrite Hr in Hi. rewrite Hi, bind_ret. eexists. split; [done|]. rewrite <-(length_fmap Some es).
  apply srep_make; [apply inline_live_some|apply free_raw|]. unfold raw. rewrite length_app, length_fmap, length_replicate. lia.
Qed.

Lemma inline_assign_ok v w lv lw : vrep v lv → vrep w lw → (length lw ≤ fixed_capacity v)%nat →
  ∃ v', assign v w = Ret v' ∧ vrep v' lw ∧ fixed_capacity v' = fixed_capacity v.
Proof.
  intros Hv Hw Hlen. unfold assign, vrep in *. destruct (destroy_all _ _ _ Hv) as (d & Hd & Hf & Hlend).
  destruct (Nat.eqb_spec (fixed_capacity w) (fixed_capacity v)) as [Heq|Hne].
  - unfold Storage_assign. destruct is_trivial eqn:Ht; cbn [negb].
    + destruct (is_small _); [rewrite bind_ret; eexists; split; [done|]; simpl; by rewrite <-Heq|].
      assert (length (data (storage_ v)) = fixed_capacity v) as Hc by by destruct Hv as (_ & _ & ? & _ & ? & _).
      destruct (memcpy_to _ _ lw (data (storage_ v)) Ht Hw) as (d' & -> & Hs); [lia|]. rewrite !bind_ret. eexists. split; [done|].
      simpl. by rewrite <-Hc.
    + rewrite Hd, bind_ret. destruct (copy_to _ _ lw d Hw Hf) as (d' & -> & Hs); [lia|]. rewrite !bind_ret. eexists. split; [done|].
      simpl. by rewrite <-Hlend.
  - unfold vsize. rewrite Hd, bind_ret. pose proof Hw as (Hsz & _). rewrite dcheck_pass, bind_ret by (apply Nat.leb_le; lia).
    destruct (copy_to _ _ lw d Hw Hf) as (d' & -> & Hs); [lia|]. rewrite bind_ret. eexists. split; [done|]. simpl. by rewrite <-Hlend.
Qed.

Lemma live_trivial_moved l : is_trivial = true → option_map moved <$> l = l.
Proof. intros Ht. apply fmap_moved_id. by apply trivial_all in Ht as (_ & ? & _). Qed.

Lemma assign_move_ok v w lv lw : vrep v lv → vrep w lw → (length lw ≤ fixed_capacity v)%nat →
  ∃ v' w', assign_move v w = Ret (v', w') ∧ vrep v' lw ∧ vrep w' (option_map moved <$> lw) ∧
    fixed_capacity v' = fixed_capacity v ∧ fixed_capacity w' = fixed_capacity w.
Proof.
  intros Hv Hw Hlen. unfold assign_move, vrep in *. destruct (destroy_all _ _ _ Hv) as (d & Hd & Hf & Hlend).
  destruct (Nat.eqb_spec (fixed_capacity w) (fixed_capacity v)) as [Heq|Hne].
  - unfold Storage_assign_move. destruct is_trivial eqn:Ht; cbn [negb].
    + destruct (inline_assign_ok v w lv lw Hv Hw Hlen) as (v' & Ha & Hv' & _). unfold assign in Ha. rewrite Heq, Nat.eqb_refl in Ha.
      destruct (Storage_assign _ _ _) as [s|f]; [|done]. rewrite bind_ret in Ha. injection Ha as <-. rewrite !bind_ret.
      eexists _, _. split; [done|]. simpl. rewrite live_trivial_moved, <-Heq by done. split_and!; try done. by rewrite Heq.
    + rewrite Hd, bind_ret. destruct (move_to _ _ lw d Hw Hf) as (src & d' & -> & Hs & Hs'); [lia|]. rewrite !bind_ret.
      eexists _, _. split; [done|]. simpl. rewrite <-Heq at 2. rewrite <-Hlend. split_and!; try done. lia.
  - unfold vsize. rewrite Hd, bind_ret. pose proof Hw as (Hsz & _). rewrite dcheck_pass, bind_ret by (apply Nat.leb_le; lia).
    destruct (move_to _ _ lw d Hw Hf) as (src & d' & -> & Hs & Hs'); [lia|]. rewrite bind_ret. eexists _, _. split; [done|].
    simpl. rewrite <-Hlend. by split_and!.
Qed.

(** What a vector is after it is moved onto itself. *)
Definition after_self_move l : list (option T) := if is_trivial (T := T) then l else [].

Definition assign_move_self v : outcome (BoundedInlineVector (T := T)) :=
  s ← Storage_assign_move_self (storage_ v); Ret (mkVector (fixed_capacity v) s).

Lemma assign_move_self_ok v l : vrep v l →
  ∃ v', assign_move_self v = Ret v' ∧ vrep v' (after_self_move l) ∧ fixed_capacity v' = fixed_capacity v.
Proof.
  intros Hv. unfold assign_move_self, Storage_assign_move_self, after_self_move. destruct is_trivial eqn:Ht; cbn [negb].
  - unfold Storage_assign_self. rewrite bind_ret. eexists. split; [done|]. by destruct v.
  - destruct (destroy_all _ _ _ Hv) as (d & -> & Hf & Hlend). rewrite bind_ret.
    pose proof (MoveElements_ok [] d d) as Hm. simpl in Hm. rewrite Hm, !bind_ret by (done || lia || by intros _; constructor).
    eexists. split; [done|]. split; [|done]. unfold vrep. simpl. apply (srep_make _ [] (drop 0 d)); [by intros _; constructor|done|done].
Qed.

Definition resized l (n : nat) : list (option T) := take n l ++ replicate (n - length l) default_init.

Lemma default_live n : live (replicate n (default_init (T := T))).
Proof.
  intros Ht. apply Forall_replicate. destruct default_init eqn:Ed; [by eexists|].
  apply no_value_trivial in Ed. congruence.
Qed.

Lemma live_app l1 l2 : live l1 → live l2 → live (l1 ++ l2).
Proof. intros H1 H2 Ht. apply Forall_app. split; [by apply H1|by apply H2]. Qed.

Lemma live_take n l : live l → live (take n l).
Proof. intros Hl Ht. by apply Forall_take, Hl. Qed.

Lemma inline_resize_ok v l (n : nat) : vrep v l → (n ≤ fixed_capacity v)%nat →
  ∃ v', resize v (Z.of_nat n) = Ret v' ∧ vrep v' (resized l n) ∧ fixed_capacity v' = fixed_capacity v.
Proof.
  intros (Hs & Hl & tail & Hd & Hc & Hf) Hn. unfold resize, resized.
  rewrite !dcheck_pass, !bind_ret, (proj2 (Z.ltb_ge _ _)), Nat2Z.id by (apply Z.leb_le; lia || lia). rewrite Hs, Hd.
  rewrite Hd, length_app in Hc. destruct (Nat.ltb_spec (length l) n) as [Hgt|Hle]; [|destruct (Nat.ltb_spec n (length l)) as [Hlt|Hge]].
  - assert (free (take (n - length l) tail)) as Hft by (destruct Hf as [?|?]; [by left|right; by apply Forall_take]).
    assert (length (take (n - length l) tail) = n - length l)%nat as Hlt by (apply length_take_le; lia).
    pose proof (default_ok (n - length l) l _ (drop (n - length l) tail) Hft Hlt) as Hdo. rewrite take_drop in Hdo. rewrite Hdo.
    rewrite bind_ret. eexists. split; [done|]. split; [|done]. unfold vrep. simpl. rewrite take_ge, app_assoc by lia.
    replace n with (length (l ++ replicate (n - length l) (default_init (T := T)))) at 1 by (rewrite length_app, length_replicate; lia).
    apply srep_make; [by apply live_app, default_live|by apply free_drop|]. rewrite !length_app, length_replicate, length_drop. lia.
  - destruct (DestroyElements_ok (take n l) (drop n l) tail) as (rest & He & Hfr & Hlen); [intros Ht; by apply Forall_drop, Hl|done|].
    rewrite app_assoc, take_drop, length_take_le, length_drop in He by lia. rewrite He, bind_ret. eexists. split; [done|]. split; [|done].
    unfold vrep. simpl. replace (n - length l)%nat with O by lia. simpl. rewrite app_nil_r.
    replace n with (length (take n l)) at 1 by (apply length_take_le; lia).
    apply srep_make; [by apply live_take|done|]. rewrite length_app, Hlen, length_app, length_take, length_drop. lia.
  - rewrite bind_ret. eexists. split; [done|]. split; [|done]. unfold vrep. simpl. assert (n = length l) as -> by lia.
    rewrite Nat.sub_diag. simpl. rewrite app_nil_r, firstn_all. apply srep_make; [done..|]. by rewrite length_app.
Qed.

Lemma index_cell_ok v l (i : nat) c : vrep v l → l !! i = Some c → index_cell v (Z.of_nat i) = Ret c.
Proof.
  intros (Hs & Hl & tail & Hd & Hc & Hf) Hi. pose proof (lookup_lt_Some _ _ _ Hi). unfold index_cell, vsize.
  rewrite !dcheck_pass, !bind_ret by (apply Z.leb_le || apply Z.ltb_lt; lia). rewrite (proj2 (Z.ltb_ge _ _)) by lia.
  unfold cell. by rewrite Nat2Z.id, Hd, lookup_app_l, Hi.
Qed.

Lemma set_at_ok v l (i : nat) x : vrep v l → (i < length l)%nat →
  ∃ v', set_at v (Z.of_nat i) x = Ret v' ∧ vrep v' (<[i := Some x]> l) ∧ fixed_capacity v' = fixed_capacity v.
Proof.
  intros Hv Hi. destruct (lookup_lt_is_Some_2 _ _ Hi) as [c Hc]. unfold set_at. rewrite (index_cell_ok v l i c), bind_ret by done.
  destruct Hv as (Hs & Hl & tail & Hd & Hcap & Hf).
  replace (is_trivial || bool_decide (is_Some c)) with true.
  - eexists. split; [done|]. split; [|done]. unfold vrep, vsize. simpl. rewrite Hd, Hs, Nat2Z.id, insert_app_l by done.
    rewrite <-(length_insert l i (Some x)). apply srep_make; [|done|by rewrite length_app, length_insert, <-length_app, <-Hd].
    intros Ht. apply Forall_insert; [by apply Hl|by eexists].
  - destruct is_trivial eqn:Ht; [done|]. simpl. symmetry. apply bool_decide_eq_true. eapply Forall_lookup_1; [by apply Hl|done].
Qed.

Lemma destroy_ok v l : vrep v l → ∃ d, destroy v = Ret d ∧ free d.
Proof. intros Hv. destruct (destroy_all _ _ _ Hv) as (d & Hd & Hf & _). by exists d. Qed.
End Vectors.

(** ** Constructors *)

Section Constructors.
Context {bm : BuildMode} {T : Type} {ET : ElementType T} {EL : ElementLaws T}.

Lemma inline_copy_construct_ok cap (w : BoundedInlineVector (T := T)) lw : vrep w lw → (length lw ≤ cap)%nat →
  ∃ v, BoundedInlineVector_copy cap w = Ret v ∧ vrep v lw ∧ fixed_capacity v = cap.
Proof.
  intros Hw Hlen. unfold BoundedInlineVector_copy, vrep in *. assert (length (raw (T := T) cap) = cap) as Hr by apply length_replicate.
  destruct (copy_to _ _ lw (raw cap) Hw (free_raw _)) as (d & Hd & Hs); [lia|]. rewrite Hr in Hs.
  destruct (Nat.eqb_spec (fixed_capacity w) cap) as [Heq|Hne].
  - unfold Storage_copy. destruct is_trivial eqn:Ht; cbn [negb]; [|rewrite Hd, !bind_ret; by eexists].
    destruct (is_small _); [rewrite bind_ret; eexists; split; [done|]; simpl; by rewrite <-Heq|].
    destruct (memcpy_to _ _ lw (raw cap) Ht Hw) as (d' & -> & Hs'); [lia|]. rewrite !bind_ret, Hr in *. by eexists.
  - pose proof Hw as (Hsz & _). unfold vsize. rewrite dcheck_pass, bind_ret by (apply Nat.leb_le; lia). rewrite Hd, bind_ret. by eexists.
Qed.

Lemma move_construct_ok cap (w : BoundedInlineVector (T := T)) lw : vrep w lw → (length lw ≤ cap)%nat →
  ∃ v w', BoundedInlineVector_move cap w = Ret (v, w') ∧ vrep v lw ∧ vrep w' (option_map moved <$> lw) ∧
    fixed_capacity v = cap ∧ fixed_capacity w' = fixed_capacity w.
Proof.
  intros Hw Hlen. unfold BoundedInlineVector_move. assert (length (raw (T := T) cap) = cap) as Hr by apply length_replicate.
  destruct (move_to _ _ lw (raw cap) Hw (free_raw _)) as (src & d & Hd & Hs & Hsrc); [lia|]. rewrite Hr in Hs.
  destruct (Nat.eqb_spec (fixed_capacity w) cap) as [Heq|Hne].
  - unfold Storage_move. destruct is_trivial eqn:Ht; cbn [negb].
    + destruct (inline_copy_construct_ok cap w lw Hw Hlen) as (v & Hc & Hv & _). unfold BoundedInlineVector_copy in Hc. rewrite Heq, Nat.eqb_refl in Hc.
      destruct (Storage_copy _ _) as [s|f]; [|done]. rewrite bind_ret in Hc. injection Hc as <-. rewrite !bind_ret.
      eexists _, _. split; [done|]. rewrite live_trivial_moved by done. unfold vrep in *. simpl in *. rewrite Heq in Hw. by split_and!.
    + rewrite Hd, !bind_ret. eexists _, _. split; [done|]. unfold vrep. simpl. rewrite Heq in Hsrc. by split_and!.
  - pose proof Hw as (Hsz & _). unfold vsize. rewrite dcheck_pass, bind_ret by (apply Nat.leb_le; lia). rewrite Hd, bind_ret.
    eexists _, _. split; [done|]. by split_and!.
Qed.
End Constructors.

(** ** Programs *)

Section Programs.
Context {bm : BuildMode} {T : Type} {ET : ElementType T} {EL : ElementLaws T}.

Inductive vop :=
| VAssign (i j : nat)              (* v[i] = v[j]; *)
| VMove (i j : nat)                (* v[i] = std::move(v[j]); *)
| VInit (i : nat) (es : list T)    (* v[i] = {es...}; *)
| VResize (i n : nat)
| VSet (i k : nat) (x : T).        (* v[i][k] = x; *)

Abbreviation vectors := (list (BoundedInlineVector (T := T))).

Definition var (vs : vectors) (i : nat) : outcome (BoundedInlineVector (T := T)) := from_option_or OutOfBounds (vs !! i).

Definition run_vop (vs : vectors) (o : vop) : outcome vectors :=
  match o with
  | VAssign i j =>
      v ← var vs i; w ← var vs j;
      if (i =? j)%nat then s ← Storage_assign_self (storage_ v); Ret (<[i := mkVector (fixed_capacity v) s]> vs)
      else v ← assign v w; Ret (<[i := v]> vs)
  | VMove i j =>
      v ← var vs i; w ← var vs j;
      if (i =? j)%nat then v ← assign_move_self v; Ret (<[i := v]> vs)
      else '(v, w) ← assign_move v w; Ret (<[j := w]> (<[i := v]> vs))
  | VInit i es =>
      v ← var vs i;
      temp ← BoundedInlineVector_init (fixed_capacity v) es;
      '(v, temp) ← assign_move v temp;
      _ ← destroy temp;
      Ret (<[i := v]> vs)
  | VResize i n => v ← var vs i; v ← resize v (Z.of_nat n); Ret (<[i := v]> vs)
  | VSet i k x => v ← var vs i; v ← set_at v (Z.of_nat k) x; Ret (<[i := v]> vs)
  end.

Fixpoint run_vops (vs : vectors) (ops : list vop) : outcome vectors :=
  match ops with
  | [] => Ret vs
  | o :: ops => vs ← run_vop vs o; run_vops vs ops
  end.

(** Each vector a list; an element without a value is [None]. *)
Definition val (ls : list (list (option T))) (i : nat) : list (option T) := default [] (ls !! i).

Definition list_vop (ls : list (list (option T))) (o : vop) : list (list (option T)) :=
  match o with
  | VAssign i j => <[i := val ls j]> ls
  | VMove i j => if (i =? j)%nat then <[i := after_self_move (val ls i)]> ls
                 else <[j := option_map moved <$> val ls j]> (<[i := val ls j]> ls)
  | VInit i es => <[i := Some <$> es]> ls
  | VResize i n => <[i := resized (val ls i) n]> ls
  | VSet i k x => <[i := <[k := Some x]> (val ls i)]> ls
  end.

Definition vop_ok (caps : list nat) (ls : list (list (option T))) (o : vop) : bool :=
  let cap i := default O (caps !! i) in
  let ok i := (i <? length caps)%nat in
  match o with
  | VAssign i j | VMove i j => ok i && ok j && (length (val ls j) <=? cap i)%nat
  | VInit i es => ok i && (length es <=? cap i)%nat
  | VResize i n => ok i && (n <=? cap i)%nat
  | VSet i k x => ok i && (k <? length (val ls i))%nat
  end.

Fixpoint vops_ok (caps : list nat) (ls : list (list (option T))) (ops : list vop) : bool :=
  match ops with
  | [] => true
  | o :: ops => vop_ok caps ls o && vops_ok caps (list_vop ls o) ops
  end.

Definition pool (caps : list nat) (vs : vectors) (ls : list (list (option T))) : Prop :=
  fixed_capacity <$> vs = caps ∧ Forall2 vrep vs ls.

Lemma pool_var caps vs ls i : pool caps vs ls → (i < length caps)%nat →
  ∃ v, vs !! i = Some v ∧ var vs i = Ret v ∧ vrep v (val ls i) ∧ default O (caps !! i) = fixed_capacity v.
Proof.
  intros [<- Hf] Hi. rewrite length_fmap in Hi. destruct (lookup_lt_is_Some_2 _ _ Hi) as [v Hv]. exists v.
  destruct (Forall2_lookup_l _ _ _ _ _ Hf Hv) as (l & Hl & Hr). unfold var, val. by rewrite Hv, Hl, list_lookup_fmap, Hv.
Qed.

Lemma pool_insert caps vs ls i v v' l : pool caps vs ls → vs !! i = Some v → vrep v' l → fixed_capacity v' = fixed_capacity v →
  pool caps (<[i := v']> vs) (<[i := l]> ls).
Proof.
  intros [<- Hf] Hv Hr Hc. split; [|by apply Forall2_insert]. rewrite list_fmap_insert, Hc. apply list_insert_id.
  by rewrite list_lookup_fmap, Hv.
Qed.

Lemma run_vop_ok caps vs ls o : pool caps vs ls → vop_ok caps ls o = true →
  ∃ vs', run_vop vs o = Ret vs' ∧ pool caps vs' (list_vop ls o).
Proof.
  intros Hp Hok. destruct o as [i j|i j|i es|i n|i k x]; simpl in Hok; rewrite ?andb_true_iff, ?Nat.ltb_lt, ?Nat.leb_le in Hok; destruct_and?;
    (destruct (pool_var caps vs ls i) as (v & Hv & Hvar & Hr & Hcap); [done..|]); rewrite ?Hcap in *;
    try (destruct (pool_var caps vs ls j) as (w & Hw & Hwvar & Hrw & _); [done..|]);
    simpl run_vop; simpl list_vop; rewrite ?Hvar, ?bind_ret, ?Hwvar, ?bind_ret.
  - destruct (Nat.eqb_spec i j) as [<-|Hne].
    + eexists. split; [done|]. apply (pool_insert caps vs ls i v); [done..| |done]. by destruct v.
    + destruct (inline_assign_ok v w _ _ Hr Hrw) as (v' & -> & Hr' & Hc); [done|]. rewrite bind_ret. eexists. split; [done|]. by apply (pool_insert caps vs ls i v).
  - destruct (Nat.eqb_spec i j) as [<-|Hne].
    + destruct (assign_move_self_ok v _ Hr) as (v' & -> & Hr' & Hc). rewrite bind_ret. eexists. split; [done|]. by apply (pool_insert caps vs ls i v).
    + destruct (assign_move_ok v w _ _ Hr Hrw) as (v' & w' & -> & Hr' & Hrw' & Hc & Hcw); [done|]. rewrite bind_ret. eexists. split; [done|].
      apply (pool_insert caps _ _ j w); [by apply (pool_insert caps vs ls i v)|by rewrite list_lookup_insert_ne|done|done].
  - unfold BoundedInlineVector_init. destruct (init_srep (fixed_capacity v) es) as (s & -> & Hs); [done|]. rewrite !bind_ret.
    destruct (assign_move_ok v (mkVector (fixed_capacity v) s) _ (Some <$> es) Hr Hs) as (v' & w' & -> & Hr' & Hrw' & Hc & _); [by rewrite length_fmap|].
    rewrite bind_ret. destruct (destroy_ok w' _ Hrw') as (d & -> & _). rewrite bind_ret. eexists. split; [done|]. by apply (pool_insert caps vs ls i v).
  - destruct (inline_resize_ok v _ n Hr) as (v' & -> & Hr' & Hc); [done|]. rewrite bind_ret. eexists. split; [done|]. by apply (pool_insert caps vs ls i v).
  - destruct (set_at_ok v _ k x Hr) as (v' & -> & Hr' & Hc); [done|]. rewrite bind_ret. eexists. split; [done|]. by apply (pool_insert caps vs ls i v).
Qed.

Lemma run_vops_ok caps ops : ∀ vs ls, pool caps vs ls → vops_ok caps ls ops = true →
  ∃ vs', run_vops vs ops = Ret vs' ∧ pool caps vs' (fold_left list_vop ops ls).
Proof.
  induction ops as [|o ops IH]; intros vs ls Hp Hok; simpl in *; [by eexists|]. apply andb_true_iff in Hok as [Ho Hok].
  destruct (run_vop_ok caps vs ls o Hp Ho) as (vs1 & -> & Hp1). rewrite bind_ret. by apply IH.
Qed.

Definition empty_vectors (caps : list nat) : vectors := (λ cap, mkVector cap (mkStorage 0 (raw cap))) <$> caps.

Lemma empty_pool caps : pool caps (empty_vectors caps) (replicate (length caps) []).
Proof.
  split; [unfold empty_vectors; rewrite <-list_fmap_compose; apply list_fmap_id|]. induction caps as [|cap caps IH]; simpl; constructor; [|done].
  unfold vrep. simpl. apply (srep_make cap [] (raw cap)); [by intros _; constructor|apply free_raw|apply length_replicate].
Qed.

Lemma pool_sizes vs ls : Forall2 (vrep (T := T)) vs ls → vsize <$> vs = length <$> ls.
Proof. induction 1 as [|v l vs ls (Hs & _) Hf IH]; [done|]. rewrite !fmap_cons, IH. f_equal. exact Hs. Qed.

Lemma pool_destroyed vs ls : Forall2 (vrep (T := T)) vs ls →
  Forall (λ v, ∃ d, destroy v = Ret d ∧ (trivially_destructible = false → Forall (λ c, c = None) d)) vs.
Proof.
  induction 1 as [|v l vs ls Hr Hf IH]; constructor; [|done]. destruct (destroy_ok v l Hr) as (d & Hd & Hfree).
  exists d. split; [done|]. intros Ht. destruct Hfree as [Hfr|Hfr]; [congruence|done].
Qed.

(** C35: Inline vectors are lists of bounded length, for every type of element.
    In any sequence of initialisations, copy and move assignments (between vectors
    of equal or of different capacity, and onto the same vector), [resize] and
    writes that stay within the capacities, no call fails in debug or release
    builds, each vector has the elements of its list in order, reading an element
    gives it, and at the end the destructors destroy every element: no object is
    overwritten while it lives, used before it is constructed, or destroyed
    twice.  A vector moved onto itself keeps its elements if their type is
    trivial and is empty otherwise. *)
Theorem inline_vector_refines_list (caps : list nat) (ops : list vop) :
  vops_ok caps (replicate (length caps) []) ops = true →
  let ls := fold_left list_vop ops (replicate (length caps) []) in
  ∃ vs, run_vops (empty_vectors caps) ops = Ret vs ∧
    vsize <$> vs = length <$> ls ∧
    (∀ i k v x, vs !! i = Some v → val ls i !! k = Some (Some x) → get_at v (Z.of_nat k) = Ret x) ∧
    Forall (λ v, ∃ d, destroy v = Ret d ∧ (trivially_destructible = false → Forall (λ c, c = None) d)) vs.
Proof.
  intros Hok ls. destruct (run_vops_ok caps ops _ _ (empty_pool caps) Hok) as (vs & -> & Hp). exists vs. destruct Hp as [Hc Hf].
  fold ls in Hf. split_and!; [done| | |].
  - by apply pool_sizes.
  - intros i k v x Hi Hk. destruct (Forall2_lookup_l _ _ _ _ _ Hf Hi) as (l & Hl & Hr). unfold val in Hk. rewrite Hl in Hk.
    unfold get_at. by rewrite (index_cell_ok v l k (Some x)), bind_ret.
  - by eapply pool_destroyed.
Qed.
End Programs.

(** ** Array views

    A view is a pointer into a sequence of elements, here the index of the first
    one, and a number of elements; [ArrayView<T, N>] has its size in its type. *)

Section Views.
Context {bm : BuildMode} {T : Type}.

(** [None] is [kArrayViewVarSize]. *)
Record ArrayView := mkView { fixed_size : option nat; data_ : option nat; size_ : nat }.

(** [ArrayViewBase::data] and [size]. *)
Definition view_data (v : ArrayView) : option nat :=
  match fixed_size v with Some O => None | _ => data_ v end.
Definition view_size (v : ArrayView) : nat :=
  match fixed_size v with Some n => n | None => size_ v end.
Definition view_empty (v : ArrayView) : bool := (view_size v =? 0)%nat.

Definition null {A} (p : option A) : bool := match p with None => true | Some _ => false end.

(** The constructor from a pointer and a length, with its three checks. *)
Definition ArrayView_make (fixed : option nat) (data : option nat) (size : nat) : outcome ArrayView :=
  let v := match fixed with
           | None => mkView None (if (size =? 0)%nat then None else data) size
           | Some n => mkView fixed (if (n =? 0)%nat then None else data) n
           end in
  _ ← RTC_DCHECK (bool_decide ((if (size =? 0)%nat then None else data) = view_data v));
  _ ← RTC_DCHECK (size =? view_size v)%nat;
  _ ← RTC_DCHECK (Bool.eqb (null (view_data v)) (view_size v =? 0)%nat);
  Ret v.

Definition ArrayView_empty : outcome ArrayView := ArrayView_make None None 0.

(** [operator[]]: the element of [mem]. *)
Definition view_at (mem : list T) (v : ArrayView) (idx : nat) : outcome T :=
  _ ← RTC_DCHECK (idx <? view_size v)%nat;
  _ ← RTC_DCHECK (negb (null (view_data v)));
  match view_data v with
  | None => Crash NullDeref
  | Some p => from_option_or OutOfBounds (mem !! (p + idx)%nat)
  end.

Definition subview (v : ArrayView) (offset size : nat) : outcome ArrayView :=
  if (offset <? view_size v)%nat
  then ArrayView_make None ((λ p, (p + offset)%nat) <$> view_data v) (Nat.min size (view_size v - offset))
  else ArrayView_empty.

Definition subview_from (v : ArrayView) (offset : nat) : outcome ArrayView := subview v offset (view_size v).

(** The view [v] lies in [mem] and shows [l]. *)
Definition shows (mem : list T) (v : ArrayView) (l : list T) : Prop :=
  view_size v = length l ∧
  match view_data v with
  | None => l = []
  | Some p => l ≠ [] ∧ ∃ rest, drop p mem = l ++ rest
  end.

Lemma view_at_ok mem v l i x : shows mem v l → l !! i = Some x → view_at mem v i = Ret x.
Proof.
  intros [Hs Hd] Hi. unfold view_at. pose proof (lookup_lt_Some _ _ _ Hi).
  rewrite (dcheck_pass (i <? view_size v)%nat), bind_ret by (apply Nat.ltb_lt; lia). destruct (view_data v) as [p|]; [|by subst].
  destruct Hd as (_ & rest & Hd). rewrite dcheck_pass, bind_ret by done. rewrite <-lookup_drop, Hd, lookup_app_l, Hi by done. done.
Qed.

(** A part of a view shows the part of its elements, whatever the arguments are:
    an offset past the end gives an empty view, a size past the end is cut. *)
Lemma subview_ok mem v l offset size : shows mem v l →
  ∃ v', subview v offset size = Ret v' ∧ shows mem v' (take size (drop offset l)).
Proof.
  intros [Hs Hd]. unfold subview. rewrite Hs. destruct (Nat.ltb_spec offset (length l)) as [Hlt|Hge].
  - destruct (view_data v) as [p|]; [|subst; simpl in Hlt; lia]. destruct Hd as (Hne & rest & Hd). simpl.
    set (n := Nat.min size (length l - offset)). assert (length (take size (drop offset l)) = n) as Hn by (rewrite length_take, length_drop; done).
    unfold ArrayView_make. cbn [view_data view_size fixed_size data_ size_]. destruct (Nat.eqb_spec n 0) as [H0|H0].
    + rewrite !dcheck_pass, !bind_ret by (rewrite ?H0; done). eexists. split; [done|]. split; cbn [view_size view_data fixed_size size_ data_]; [done|].
      apply nil_length_inv. lia.
    + rewrite bool_decide_true by done. rewrite !dcheck_pass, !bind_ret by (done || apply Nat.eqb_refl || (simpl; by rewrite (proj2 (Nat.eqb_neq _ _)))).
      eexists. split; [done|]. split; cbn [view_size view_data fixed_size size_ data_]; [done|]. split; [intros E0; rewrite E0 in Hn; simpl in Hn; lia|].
      rewrite <-drop_drop, Hd, drop_app_le by lia. exists (drop size (drop offset l) ++ rest). by rewrite app_assoc, take_drop.
  - unfold ArrayView_empty, ArrayView_make. simpl. rewrite !dcheck_pass, !bind_ret by done. eexists. split; [done|].
    rewrite drop_ge, take_nil by done. done.
Qed.
End Views.

(** ** Examples *)

(** A type whose objects have a destructor and are emptied by a move. *)
#[local] Instance counted : ElementType Z := {|
  is_trivial := false; trivially_copy_constructible := false; trivially_move_constructible := false;
  trivially_destructible := false; sizeof_T := 8; default_init := Some 0; moved _ := 0 |}.

#[local] Instance counted_laws : ElementLaws Z.
Proof. by split. Qed.

Definition sample_vops : list (vop (T := Z)) :=
  [VInit 0 [1; 2; 3]; VAssign 1 0; VResize 0 5; VSet 0 4 9; VMove 2 0; VResize 2 4; VMove 1 1; VAssign 2 2].

Lemma inline_vector_refines_list_witness :
  ∃ vs, run_vops (bm := debug_build) (empty_vectors [5; 3; 8]%nat) sample_vops = Ret vs ∧ vsize <$> vs = [5; 0; 4]%nat.
Proof.
  destruct (inline_vector_refines_list (bm := debug_build) [5; 3; 8]%nat sample_vops eq_refl) as (vs & Hr & Hs & _).
  exists vs. split; [exact Hr|exact Hs].
Defined.
